(* ===== verification/_CoqProject ===== *)
-Q . S2P
Prelude.v
Service.v
MuLaw.v
Float.v
Wav.v
Vad.v
Timer.v
GoStrings.v
Decision.v
Stt.v
Transcript.v
Routers.v
Session.v
SessionCtl.v
SessionThms.v
SessionData.v
SessionFlow.v
SessionOut.v
SessionOnce.v
SessionClaims.v
SessionTimes.v
RtBase.v
Filler.v
Silence.v
Marks.v
Sink.v
SinkInv.v
SinkWire.v
SinkMarks.v
SinkSilence.v
SinkBridge.v
SinkCrit.v
SinkHeld.v
SinkEnd.v
SinkClaims.v
Playout.v
Tap.v
TapRing.v
TapThms.v
TapFiles.v
TapTimeline.v
Tail.v
Player.v
PlayerThms.v
PlayerPace.v
Config.v
Grammar.v
Health.v
Observe.v
Status.v
StatusThms.v
Teardown.v
TeardownThms.v
Engine.v
Up.v
UpThms.v
Stream.v
Demux.v
StreamSession.v
StreamSessionThms.v
Base64.v
Webhook.v
WebhookThms.v
Json.v
JsonThms.v
StreamWire.v
ModelStream.v
Driver.v
RtWire.v
RtWireThms.v
Client.v
ClientCall.v
ClientCallThms.v
Replay.v
Capture.v
CaptureThms.v
Rest.v
ClientFiles.v
ClientMain.v
Repl.v
