(* ===== verification/Prelude.v ===== *)
(** * Verification of aatoolkit

    aatoolkit (Go) runs spoken dialogues over the telephone.  Its core is
    package [telephony]: a per-call state machine fed by audio frames, by
    carrier control events, by a voice-activity detector, by a speech-to-text
    service, by a reply generator and by its own timers.  Beside it stand the
    carrier's bridge to a speech-to-speech service ([telephony/realtime] and
    [telephony/twilio]), the text-dialogue driver ([driver]), a client that
    dials calls and plays their audio ([cmd/twilio-cli]), and the supervisor of
    the fleet of servers a deployment runs ([config], [internal] and
    [cmd/aa-server-status]).  This library models these parts and proves what
    makes them correct.

    ** The program's parts and the files that model them

    A file holds a component's data and operations and, behind them, its
    theorems; where these are long they are in a second file, whose name ends in
    Thms or names the group of properties.

    - [telephony/service.go]: frame constants, durations and the bounded
      channel between goroutines: Service.v.
    - [telephony/mulaw.go]: the G.711 codec (MuLaw.v, on 16-bit integers with
      their wrap-around); the WAV reader, the linear resampler and the frame
      packer (Wav.v, with [float64] as the primitive binary64 numbers and the
      rounding lemmas of Float.v).  [telephony/wav.go] is in Wav.v too.
    - [telephony/vad.go]: options and defaults, the windower, the voice-activity
      machine and the loop [runVAD]: Vad.v.  The speech model itself is a
      service outside the program, a parameter of the definitions.
    - [telephony/timer.go]: the timer facility, one goroutine per armed timer,
      its completion queue and its channels: Timer.v.  What the session needs
      of it is the interface [TimerOps] with the laws [TimerLaws]; the
      instances [facility_ops] and [facility_laws] discharge them.
    - [telephony/decision.go]: decision events, the file recorder and its
      totals: Decision.v, on the Go string functions of GoStrings.v.
    - [telephony/stt.go]: chunking a clip, the retries and the service loop:
      Stt.v.  [telephony/transcript.go]: Transcript.v.
      [telephony/sttrouter.go] and [reply_router.go]: Routers.v.
    - [telephony/state.go] and [telephony/session.go]: the session.  Session.v
      has its state (the record [Session]), one definition per handler, the
      transition table, [dispatch], the select loop's [step] and the step
      relation [sstep] of a running call, in which each select case is one
      step; [sreach] is the reachable states.  Observable effects (frames,
      marks, records, dispatches) are appended to [trace] in program order.
      The theorems are proved by refinement to automata: SessionCtl.v (who
      waits for what: states, pending turn end, armed timers), SessionData.v
      (audio and text: buffers, turns, ids) and SessionOut.v (every effect but
      the records: reply frames, clips, bed audio, marks, callbacks, dispatches
      and timer calls, in order).  SessionThms.v,
      SessionFlow.v, SessionOnce.v, SessionClaims.v and SessionTimes.v carry
      the properties.
    - [telephony/realtime/bridge.go] and [telephony/twilio/realtime*.go], the
      bridge between a carrier's media stream and a speech-to-speech service:
      RtBase.v (events and messages), Filler.v (the filler audio played while
      a reply is prepared), Silence.v (the bound on a caller's silence),
      Marks.v (marks and playout), Sink.v (the carrier sink, the farewell and
      the select loop as a step relation).  SinkInv.v, SinkCrit.v and SinkHeld.v
      hold the invariants of that relation; SinkWire.v, SinkMarks.v,
      SinkSilence.v, SinkBridge.v, SinkEnd.v and SinkClaims.v the properties;
      Playout.v compares the playout clock with a player.
    - [telephony/twilio/tap.go], the call recorder: Tap.v, over an explicit file
      system whose calls may fail; TapRing.v, TapThms.v, TapFiles.v and
      TapTimeline.v hold its theorems.
    - [telephony/twilio/session.go] and [demux.go], a call's two planes: Stream.v
      (frames and the Go maps of events), Demux.v (the drop-oldest data plane and
      the demultiplexer), StreamSession.v (the goroutines of one call), with
      StreamSessionThms.v.  [server.go] and [signature.go], the
      webhook server: Base64.v (with HMAC-SHA1 written out), Webhook.v and
      WebhookThms.v.
    - JSON: Json.v writes out what the program uses of encoding/json, both
      directions, on bytes; JsonThms.v proves that what is marshalled is read
      back.  On it stand [stream.go] and [output.go] of [telephony/twilio], the
      media-stream messages (StreamWire.v), and
      [telephony/realtime/events.go] and [client.go], the messages and the
      handshake of the speech-to-speech service (RtWire.v, RtWireThms.v).
    - [driver]: ModelStream.v has a streamed request to a
      language model, from its body to the segments handed over; Driver.v
      the conversation, the prompt file, the padding of a clip, the
      speech queue and what a span captures.
    - [telephony/replay.go]: Replay.v, the pipeline of a replay
      as a step relation of its feed, the session's loop, which forwards or
      absorbs a chunk, the voice-activity goroutine and its relay.
    - [telephony/twilio/rest.go], [smsfake] and the signed forms: Rest.v
      (forms encoded and parsed, the webhooks, the REST client),
      Capture.v and CaptureThms.v (the capture server: handlers, subscribers,
      shutdown and the waiting [runSMS], over a store of form maps).
    - [cmd/twilio-cli], the client: Player.v, the audio player, a transition
      system of a caller and a writer goroutine, with PlayerThms.v and
      PlayerPace.v; Client.v, the filler, the microphone
      gate and the frame paths of a call; ClientCall.v and ClientCallThms.v, the
      goroutines of [dial], those that echo marks included; ClientFiles.v, recordings and
      the file source; ClientMain.v, what [main] checks.
    - [config]: Config.v.  [cmd/aa-server-status/grammar.go]:
      Grammar.v.  The log tail of [engine.go]: Tail.v.
    - [internal/health]: Health.v.  [internal/observe]: Observe.v, over a [host_view] of what the operating
      system answers.  The status table of [engine.go] and [render.go]: Status.v
      and StatusThms.v.
    - [internal/lifecycle/teardown.go]: Teardown.v and TeardownThms.v.  The down
      and dead verbs and the exit of [engine.go]: Engine.v.
      The up, build and bounce verbs and the builds of
      [internal/lifecycle/source.go]: Up.v and UpThms.v.  A computation here is
      a function of an environment [env], which answers every system call from
      the history of events, and returns a longer history; a theorem speaks of
      the events it added ([does]).
      The supervisor's prompt, with the questions it asks on the same stream, its
      automatic mode, interrupts, reload and lock: Repl.v, against the interface
      [Engine] with the laws [EngineLaws].

    ** What the theorems show

    - Control: the session's table implements the control automaton and its
      outputs are those of the output automaton
      ([session_refines]); every wait has an armed timer, and its expiry, when
      it is delivered, moves the call towards its end
      ([session_wait_bounded], [session_timers_close_call]); that the facility
      delivers is no part of this, as a cycle of its channels can block it;
      a turn is capped
      and timers are armed only in the states that serve them; the farewell
      and the teardown happen once; a closed session stays closed.
    - Data: each transcript and each audio frame of a call is used exactly
      once, in order; one routing verdict per turn; the bed clip is played
      cyclically without a gap; the wait for the mark's echo covers the
      clip's playout.
    - Timers: a cancelled timer is never delivered, a timer is delivered at
      most once, the facility's state stays bounded, and the channel cycle
      that can deadlock it is exhibited.
    - Voice activity: the detector implements its reference machine, its
      events follow the start/end protocol, and its output does not depend on
      how the audio is cut into frames.
    - Codec: the encoder picks a nearest code, the frame packer round-trips
      through WAV, and the resampler's index arithmetic on floats is exact.
    - Services: retries and chunks of the transcription are bounded and cover
      the clip; the recorder writes its summary once, on close; the routers
      deliver to the registered call alone.
    - Carrier bridge: the filler is cleared before a reply and never after the
      farewell; a call ended for silence was silent; every mark is resolved
      once; every event of the service is accounted for; the end of a call
      terminates and says nothing more.
    - Call planes and webhooks: the media of a call is accounted for in order,
      the data plane drops its oldest frame only, a call's teardown ends once
      the session has room for the frame in hand; the
      address of a stream is handed out only to a request that is signed,
      complete and not refused, and a stream runs under the caller that an
      admitted webhook named, or under none.
    - Wire: every message written is read back, for any text; a session
      handshake keeps the tools' bytes verbatim; a signed form, posted to any address, is admitted exactly
      when it was signed for the server's own address with its token, and read
      as the server reads it, the parameters of the query included.
    - Driver: the segments of an answer are those of a reference cut of its
      text; a failed request names its cause; each clip is spoken or dropped
      once.
    - Client: the gate covers the playout of the server's audio to within the
      time a handler takes; the frames of a call are numbered without a gap and
      closed by one stop, behind which only echoes of marks are written; a call
      that is ending ends.  A recording reads back;
      a file is streamed no faster than it plays; two flags never share a file.
    - Replay and capture: a replay never has more in flight than its tokens
      allow, and its feed completes as long as the detector answers and the session
      absorbs nothing; a subscriber receives what was recorded while
      it was subscribed, in order, whatever readers do to the forms they hold.
    - Recorder and player: a recorder refines two tapes, keeps what landed
      whatever fails, and places each payload at its time; the player accounts
      for every frame, its waits end, and the sink holds a bounded lead.
    - Fleet: validation accepts exactly the well-formed configurations, which
      fall short of what its comments ask in two named ways; the
      status table is true of the processes it was told of unless it says
      otherwise; a teardown signals its own
      group only, reports no kill that was not seen, and ends; an up launches
      only onto ports seen free, and reports success only for a child that is
      ready, with the exceptions named for detached servers.  Each line typed makes the calls of its command, in order, and an exit
      tears everything down once; an answer to a question is never a command.

    ** Conventions, bounds and fuel

    Go integers are [Z] at their width: [wrap_u] and [wrap_s] wrap
    explicitly.  Fallible code returns [result] ([Err] is a returned error,
    [Panic] a run-time panic).  Durations are nanoseconds in [Z].  Loops over
    a slice are structural recursions; a loop whose measure is an index
    ([chunks_fuel], the bed loop, the retry loop) takes as fuel a length that
    the lemmas beside it prove sufficient, so the fuel is not visible in a
    theorem.  Timer firings are interleaved between the select loop's steps.
    Loops that wait for the world take visible fuel: a teardown returns when
    the fuel is at least 101 and covers the grace period in pauses of 50 ms
    ([teardown_returns]), the wait for the ports when it covers the budget in
    poll intervals ([ports_wait_bounded]), both under a clock that advances at
    least as far as one sleeps; the walk of a process tree needs the number of
    processes and one more.  [Unmarshal] takes fuel from the length of its input,
    and more changes nothing ([Unmarshal_fuel]); a filler's catch-up runs at most
    100 frames of its fuel of 101, two seconds being the bound.  Where goroutines
    share state a step is one access, and termination is stated as progress: some
    goroutine has a step that lowers a rank no step raises.

    ** What is not modelled

    Process and network input/output, which are answers of an environment or
    arguments; logging text; the audio assets' contents (options of the session);
    the parallel fan-out of a fleet's up (one target is one computation).  The
    HTTP and ONNX clients of the voice-activity model, the HTTP servers and the
    synthesis of the driver and the regular expressions of its speech text, the
    launchers and log files of the supervisor: calls into libraries and the
    operating system around the parts modelled.  Flag
    parsing, the microphone behind ffmpeg and the XML of a TwiML answer, the
    probes under [cmd], the interfaces [extract], [interp] and [host], which only
    name what a consumer implements, and the scripts. *)

From stdpp Require Export base tactics numbers option list gmap sets strings pretty.
From Stdlib Require Export ZArith Lia.

#[global] Open Scope Z_scope.

(** ** Notation *)

Declare Scope go_scope.
Delimit Scope go_scope with go.

(** [s ▷ f ▷ g] reads like the statement sequence [s.f(); s.g()]. *)
Notation "x ▷ f" := (f x) (at level 45, left associativity, only parsing) : go_scope.
#[global] Open Scope go_scope.

(** ** Record update

    [Eta R] is the eta expansion of the record [R]; from it [Setter] derives
    the update of one field.  [r <| f := v |>] is Go's [r.f = v]. *)

Class Eta (R : Type) := eta : R -> R.
Class Setter {R E : Type} (proj : R -> E) := set : (E -> E) -> R -> R.
Arguments set {R E} proj {_} _ _.

Ltac derive_setter :=
  match goal with
  | |- @Setter ?R ?E ?proj =>
      let i := constr:(_ : Eta R) in
      let body := eval hnf in i in
      let f := fresh "upd" in let r := fresh "r" in
      intros f r;
      let t := eval cbv beta in (body r) in
      match eval pattern (proj r) in t with
      | ?g _ => let u := eval cbv beta in (g (f (proj r))) in exact u
      end
  end.
#[global] Hint Extern 1 (Setter _) => derive_setter : typeclass_instances.

Notation "r <| f := v |>" := (set f (fun _ => v) r)
  (at level 40, left associativity, format "r  <| f  :=  v |>") : go_scope.
Notation "r <| f ::= v |>" := (set f v r)
  (at level 40, left associativity, format "r  <| f  ::=  v |>") : go_scope.

(** ** Results of fallible code

    [Panic] is a Go run-time panic; [Err] is a returned non-nil error. *)

Inductive result (A : Type) :=
| Ok (a : A)
| Err (msg : string)
| Panic (msg : string).
Arguments Ok {A} _.
Arguments Err {A} _%_string.
Arguments Panic {A} _%_string.

#[export] Instance result_ret : MRet result := fun _ a => Ok a.
#[export] Instance result_bind : MBind result := fun _ _ f m =>
  match m with Ok a => f a | Err e => Err e | Panic e => Panic e end.

Definition is_ok {A} (r : result A) : bool := match r with Ok _ => true | _ => false end.

Lemma bind_ok {A B} (f : A -> result B) (m : result A) b :
  m ≫= f = Ok b -> exists a, m = Ok a /\ f a = Ok b.
Proof. destruct m; simpl; [eauto | discriminate..]. Qed.

(** ** Automation *)

(** Splits every test the goal or a hypothesis is stuck on. *)
Ltac case_all :=
  repeat (case_match; simplify_eq/=; try done).

Ltac zify_tests :=
  repeat match goal with
  | H : (_ <? _) = true |- _ => apply Z.ltb_lt in H
  | H : (_ <? _) = false |- _ => apply Z.ltb_ge in H
  | H : (_ <=? _) = true |- _ => apply Z.leb_le in H
  | H : (_ <=? _) = false |- _ => apply Z.leb_gt in H
  | H : (_ =? _) = true |- _ => apply Z.eqb_eq in H
  | H : (_ =? _) = false |- _ => apply Z.eqb_neq in H
  end.

Ltac test_lia := case_all; zify_tests; try lia.

(** Unfolds field updates and simplifies. *)
Ltac usimpl := unfold set in *; simpl in *.

(** Decides every integer comparison in the goal and closes by arithmetic. *)
Ltac decide_Z :=
  repeat match goal with
  | |- context [?a <? ?b] => destruct (Z.ltb_spec a b); try lia
  | |- context [?a <=? ?b] => destruct (Z.leb_spec a b); try lia
  | |- context [?a >=? ?b] => rewrite (Z.geb_leb a b)
  | |- context [?a >? ?b] => rewrite (Z.gtb_ltb a b)
  | |- context [?a =? ?b] => destruct (Z.eqb_spec a b); try lia
  end.

Create HintDb s2s.
#[export] Hint Extern 5 (_ <= _) => lia : s2s.
#[export] Hint Extern 5 (_ < _) => lia : s2s.

(** ** Bytes and machine integers *)

Notation byte := Z (only parsing).
Notation bytes := (list Z) (only parsing).

Definition is_byte (b : Z) : Prop := 0 <= b < 256.
Definition wf_bytes (l : bytes) : Prop := Forall is_byte l.

(** Conversion to a [w]-bit unsigned integer, and to a signed one. *)
Definition wrap_u (w x : Z) : Z := x mod 2 ^ w.
Definition wrap_s (w x : Z) : Z := (x + 2 ^ (w - 1)) mod 2 ^ w - 2 ^ (w - 1).
Definition int16 (x : Z) : Z := wrap_s 16 x.
Definition int32 (x : Z) : Z := wrap_s 32 x.
Definition uint16 (x : Z) : Z := wrap_u 16 x.
Definition uint32 (x : Z) : Z := wrap_u 32 x.

Definition in_s (w x : Z) : Prop := - 2 ^ (w - 1) <= x < 2 ^ (w - 1).

Lemma wrap_s_id w x : 0 < w -> in_s w x -> wrap_s w x = x.
Proof.
  unfold in_s, wrap_s. intros Hw Hx.
  assert (2 ^ w = 2 * 2 ^ (w - 1)) as E.
  { rewrite <- Z.pow_succ_r by lia. f_equal. lia. }
  rewrite Z.mod_small by lia. lia.
Qed.

Lemma wrap_u_id w x : 0 <= x < 2 ^ w -> wrap_u w x = x.
Proof. apply Z.mod_small. Qed.

(** Little-endian fields of [n] bytes, as [encoding/binary] lays them out. *)
Fixpoint le_put (n : nat) (x : Z) : bytes :=
  match n with
  | O => []
  | S n' => x mod 256 :: le_put n' (x / 256)
  end.

Fixpoint le_get (l : bytes) : Z :=
  match l with
  | [] => 0
  | b :: l' => b + 256 * le_get l'
  end.

Lemma le_put_length n x : length (le_put n x) = n.
Proof. revert x; induction n as [|n IH]; intros x; simpl; [done | by rewrite IH]. Qed.

Lemma le_put_wf n x : wf_bytes (le_put n x).
Proof.
  revert x; induction n as [|n IH]; intros x; simpl; constructor; [|apply IH].
  unfold is_byte. pose proof (Z.mod_pos_bound x 256). lia.
Qed.

Lemma le_get_put n x : le_get (le_put n x) = x mod 256 ^ Z.of_nat n.
Proof.
  revert x; induction n as [|n IH]; intros x; cbn [le_put le_get].
  - by rewrite Z.mod_1_r.
  - rewrite IH. rewrite Nat2Z.inj_succ, Z.pow_succ_r by lia.
    rewrite Z.rem_mul_r by lia. done.
Qed.

Lemma le_get_bound l : wf_bytes l -> 0 <= le_get l < 256 ^ Z.of_nat (length l).
Proof.
  induction 1 as [|b l Hb Hl IH]; cbn [le_get length]; [done|].
  rewrite Nat2Z.inj_succ, Z.pow_succ_r by lia. unfold is_byte in Hb. lia.
Qed.

(** ** Slices *)

(** Go's [l[lo:hi]] on a list; the callers establish the bounds. *)
Definition slice {A} (lo hi : nat) (l : list A) : list A := take (hi - lo) (drop lo l).

Lemma slice_length {A} lo hi (l : list A) :
  (lo <= hi)%nat -> (hi <= length l)%nat -> length (slice lo hi l) = (hi - lo)%nat.
Proof. intros. unfold slice. rewrite length_take, length_drop. lia. Qed.

Lemma slice_app_r {A} (p l : list A) lo hi :
  (length p <= lo)%nat -> slice lo hi (p ++ l) = slice (lo - length p) (hi - length p) l.
Proof.
  intros. unfold slice. rewrite drop_app_ge by lia. f_equal. lia.
Qed.

Lemma slice_wf lo hi l : wf_bytes l -> wf_bytes (slice lo hi l).
Proof. intros. unfold slice. by apply Forall_take, Forall_drop. Qed.

(** ** Fixed-size chunks: [for i := 0; i < len(l); i += n { l[i:min(i+n,len)] }] *)

Fixpoint chunks_fuel {A} (fuel n : nat) (l : list A) : list (list A) :=
  match fuel, l with
  | S f, _ :: _ => take n l :: chunks_fuel f n (drop n l)
  | _, _ => []
  end.
Definition chunks {A} (n : nat) (l : list A) : list (list A) := chunks_fuel (length l) n l.

Lemma chunks_fuel_concat {A} f n (l : list A) :
  (0 < n)%nat -> (length l <= f)%nat -> concat (chunks_fuel f n l) = l.
Proof.
  intros Hn. revert l; induction f as [|f IH]; intros [|x l] Hl; simpl in *; try done; try lia.
  rewrite IH; [by rewrite (take_drop n (x :: l)) |].
  rewrite length_drop. simpl. lia.
Qed.

(** Cutting a list into chunks loses nothing: the fuel [length l] suffices. *)
Lemma chunks_concat {A} n (l : list A) : (0 < n)%nat -> concat (chunks n l) = l.
Proof. intros. by apply chunks_fuel_concat. Qed.

Lemma chunks_fuel_bound {A} f n (l : list A) :
  Forall (fun c => (length c <= n)%nat) (chunks_fuel f n l).
Proof.
  revert l; induction f as [|f IH]; intros [|x l]; simpl; try constructor; [|apply IH].
  rewrite length_take. lia.
Qed.

Lemma chunks_bound {A} n (l : list A) : Forall (fun c => (length c <= n)%nat) (chunks n l).
Proof. apply chunks_fuel_bound. Qed.

(** Every chunk but the last is full. *)
Lemma chunks_fuel_full {A} f n (l : list A) cs c :
  (0 < n)%nat -> (length l <= f)%nat ->
  chunks_fuel f n l = cs ++ [c] -> Forall (fun d => length d = n) cs.
Proof.
  intros Hn. revert l cs; induction f as [|f IH]; intros [|x l] cs Hl; simpl in *;
    try (destruct cs; discriminate).
  destruct cs as [|d cs]; [constructor|]. intros [= <- E].
  assert (drop n (x :: l) <> []) as Hne.
  { intros E0. rewrite E0 in E. destruct f, cs; discriminate. }
  constructor.
  - rewrite length_take. assert (length (drop n (x :: l)) <> 0)%nat by (by destruct (drop n (x :: l))).
    rewrite length_drop in *. simpl in *. lia.
  - eapply IH; [|exact E]. rewrite length_drop. simpl. lia.
Qed.

Lemma chunks_full {A} n (l : list A) cs c :
  (0 < n)%nat -> chunks n l = cs ++ [c] -> Forall (fun d => length d = n) cs.
Proof. intros Hn. by apply chunks_fuel_full. Qed.

(** ** Bounded buffered channels

    A Go channel of capacity [cap] as the list of its buffered values.  The
    non-blocking send [select { case ch <- v: default: }] drops when full. *)

Definition chan_try_send {A} (cap : nat) (v : A) (ch : list A) : option (list A) :=
  if decide (length ch < cap)%nat then Some (ch ++ [v]) else None.

Lemma chan_try_send_bound {A} cap (v : A) ch ch' :
  chan_try_send cap v ch = Some ch' -> ch' = ch ++ [v] /\ (length ch' <= cap)%nat.
Proof.
  unfold chan_try_send. case_decide; intros [= <-]. split; [done|].
  rewrite length_app. simpl. lia.
Qed.

(** ** Generic list lemmas *)

Lemma lookup_map {A B} (f : A -> B) (l : list A) i : map f l !! i = f <$> l !! i.
Proof. apply list_lookup_fmap. Qed.

Lemma Forall_snoc {A} (P : A -> Prop) l x : Forall P l -> P x -> Forall P (l ++ [x]).
Proof. intros. by apply Forall_app_2; [|constructor]. Qed.

Lemma snoc_inj {A} (l1 l2 : list A) x y : l1 ++ [x] = l2 ++ [y] -> l1 = l2 /\ x = y.
Proof. apply app_inj_tail. Qed.

#[export] Hint Resolve Forall_snoc le_put_wf slice_wf chunks_bound : s2s.
#[export] Hint Rewrite @length_app @length_take @length_drop @length_replicate @length_fmap
  le_put_length : lens.
