(* ===== verification/Service.v ===== *)
(** * Service: audio constants and the bounded service channel

    Models [telephony/service.go]: the frame and rate constants every other
    component derives its sizes from, [MuLawDuration], [ComputeDepth], and the
    [BufferedChan] wrapper with its context-aware [Send] and [Recv]. *)

From S2P Require Export Prelude.

(** ** Constants (service.go) *)

Definition DataPlaneBufferMS : Z := 80.
Definition MuLawFrameMS : Z := 20.
Definition SampleRateHz : Z := 8000.

(** [time.Duration] counts nanoseconds in an int64. *)
Definition Nanosecond : Z := 1.
Definition Millisecond : Z := 1000000.
Definition Second : Z := 1000000000.

Definition int64 (x : Z) : Z := wrap_s 64 x.

(** [time.Duration(n) * time.Second / SampleRateHz]: the product is taken at 64
    bits before the division. *)
Definition MuLawDuration (n : Z) : Z := Z.quot (int64 (n * Second)) SampleRateHz.

(** [int(math.Ceil(float64(bufferMS) / float64(frameMS)))]: for the small
    positive arguments the code passes, the rounded-up quotient. *)
Definition ComputeDepth (bufferMS frameMS : Z) : Z := (bufferMS + frameMS - 1) / frameMS.

(** ** [BufferedChan]

    [cap] is the depth the channel was made with and [buf] what it holds, oldest
    first.  A [Send] that finds room may complete; one whose context is done may
    return the context error; one with neither blocks ([None]). *)

Record BufferedChan (A : Type) := mkBufferedChan { cap : nat; buf : list A }.
Arguments mkBufferedChan {A} _ _.
Arguments cap {A} _.
Arguments buf {A} _.

Definition NewBufferedChan {A} (depth : nat) : BufferedChan A := mkBufferedChan depth [].

Inductive outcome := Done | CtxErr.

(** The possible outcomes of [bc.Send(ctx, val)]: Go's select picks any ready
    case, so with room in the buffer and a done context both are possible. *)
Inductive Send {A} (ctxDone : bool) (val : A) (bc : BufferedChan A)
  : outcome -> BufferedChan A -> Prop :=
| Send_ok : (length (buf bc) < cap bc)%nat ->
    Send ctxDone val bc Done (mkBufferedChan (cap bc) (buf bc ++ [val]))
| Send_cancelled : ctxDone = true -> Send ctxDone val bc CtxErr bc.

Inductive Recv {A} (ctxDone : bool) (bc : BufferedChan A)
  : option A -> BufferedChan A -> Prop :=
| Recv_ok v rest : buf bc = v :: rest ->
    Recv ctxDone bc (Some v) (mkBufferedChan (cap bc) rest)
| Recv_cancelled : ctxDone = true -> Recv ctxDone bc None bc.

(** ** Facts *)

Lemma depth_data_plane : ComputeDepth DataPlaneBufferMS MuLawFrameMS = 4.
Proof. reflexivity. Qed.

(** A depth of [ceil(bufferMS/frameMS)] frames covers the buffer and no frame
    less does. *)
Lemma ComputeDepth_spec b f :
  0 < f -> 0 <= b ->
  b <= ComputeDepth b f * f /\ (0 < b -> (ComputeDepth b f - 1) * f < b).
Proof.
  intros Hf Hb. unfold ComputeDepth.
  pose proof (Z.div_mod (b + f - 1) f ltac:(lia)).
  pose proof (Z.mod_pos_bound (b + f - 1) f Hf). nia.
Qed.

(** The playout time of [n] bytes is exact to the nanosecond -- 125 microseconds
    a byte -- for any clip that fits in memory. *)
Lemma MuLawDuration_exact n :
  0 <= n -> n * Second < 2 ^ 63 -> MuLawDuration n = 125000 * n.
Proof.
  intros Hn Hb. unfold MuLawDuration, int64.
  rewrite wrap_s_id; [|lia|unfold in_s, Second in *; lia].
  unfold Second, SampleRateHz.
  replace (n * 1000000000) with (125000 * n * 8000) by lia.
  apply Z.quot_mul. lia.
Qed.

Lemma Send_bound {A} d (v : A) bc o bc' :
  Send d v bc o bc' -> (length (buf bc) <= cap bc)%nat ->
  cap bc' = cap bc /\ (length (buf bc') <= cap bc')%nat.
Proof. intros [H|H] Hb; simpl; [rewrite length_app; simpl; lia | done]. Qed.

(** Values leave a channel in the order they entered it. *)
Lemma Send_Recv_fifo {A} d (v : A) bc bc1 w bc2 :
  Send d v bc Done bc1 -> Recv d bc1 (Some w) bc2 ->
  w :: buf bc2 = buf bc ++ [v].
Proof. intros HS HR. inversion HS; subst; inversion HR; simpl in *; congruence. Qed.
