(* ===== verification/MuLaw.v ===== *)
(** * MuLaw: the G.711 mu-law codec

    Models the sample codec of [telephony/vad.go] ([muLawToLinear]) and
    [telephony/mulaw.go] ([LinearToMuLaw], [absInt32]): a byte decodes to a
    16-bit sample, and a sample encodes to the byte that the 256-entry search
    finds.  Widths are written out: [^u] is an 8-bit complement, the decoded
    sample passes through [int16], and the encoder's errors through [int32]. *)

From S2P Require Export Service.

Definition MuLawSilence : byte := 0xFF.

Definition muLawToLinear (u : byte) : Z :=
  let bias := 0x84 in
  let u := Z.lxor u 0xFF in
  let sign := Z.land u 0x80 in
  let exponent := Z.land (Z.shiftr u 4) 0x07 in
  let mantissa := Z.land u 0x0F in
  let sample := Z.shiftl (Z.shiftl mantissa 3 + bias) exponent in
  let sample := sample - bias in
  if negb (sign =? 0) then int16 (- sample) else int16 sample.

Definition absInt32 (v : Z) : Z := if v <? 0 then int32 (- v) else v.

(** The loop variables [minErr], [bestByte], [bestMag] of [LinearToMuLaw]. *)
Record search := mkSearch { minErr : Z; bestByte : Z; bestMag : Z }.

Definition search_init : search := mkSearch 32768 MuLawSilence 0.

(** One iteration of the loop, for the code [b]. *)
Definition search_step (sample : Z) (st : search) (b : Z) : search :=
  let decoded := muLawToLinear b in
  let err := absInt32 (int32 (sample - decoded)) in
  let mag := absInt32 decoded in
  let isBetter :=
    if err <? minErr st then true
    else if (err =? minErr st) && (mag >? bestMag st) then true
    else (err =? minErr st) && (mag =? bestMag st) && (mag =? 0) && (b >? bestByte st) in
  if isBetter then mkSearch err b mag else st.

Definition all_bytes : list Z := seqZ 0 256.

Definition LinearToMuLaw (sample : Z) : byte :=
  bestByte (fold_left (search_step sample) all_bytes search_init).

(** ** The decoder *)

Definition check_all (P : Z -> bool) : bool := forallb P all_bytes.

Lemma check_all_spec P : check_all P = true -> forall b, is_byte b -> P b = true.
Proof.
  intros H b Hb. apply (proj1 (forallb_forall P all_bytes)); [exact H|].
  apply list_elem_of_In, elem_of_seqZ. unfold is_byte in Hb. lia.
Qed.

(** Full scale is 32124, so a decoded sample and its negation both fit. *)
Lemma muLawToLinear_bound b : is_byte b -> -32124 <= muLawToLinear b <= 32124.
Proof.
  intros Hb.
  pose proof (check_all_spec (fun b => (-32124 <=? muLawToLinear b) && (muLawToLinear b <=? 32124))
    ltac:(vm_compute; reflexivity) b Hb) as H.
  apply andb_prop in H as [H1 H2]. lia.
Qed.

(** The top bit is the sign: flipping it negates the sample. *)
Lemma muLawToLinear_sign b :
  is_byte b -> muLawToLinear (Z.lxor b 0x80) = - muLawToLinear b.
Proof.
  intros Hb. apply Z.eqb_eq.
  exact (check_all_spec (fun b => muLawToLinear (Z.lxor b 0x80) =? - muLawToLinear b)
    ltac:(vm_compute; reflexivity) b Hb).
Qed.

(** ** The encoder search *)

Section Search.
Variable sample : Z.
Hypothesis Hsample : in_s 16 sample.

Definition code_err (b : Z) : Z := Z.abs (sample - muLawToLinear b).
Definition code_mag (b : Z) : Z := Z.abs (muLawToLinear b).

Lemma absInt32_abs v : - 2 ^ 31 < v < 2 ^ 31 -> absInt32 v = Z.abs v.
Proof.
  intros Hv. unfold absInt32. destruct (Z.ltb_spec v 0); [|lia].
  unfold int32. rewrite wrap_s_id; [lia|lia|unfold in_s; lia].
Qed.

(** No step of the search overflows its [int32] arithmetic. *)
Lemma search_err_exact b : is_byte b ->
  absInt32 (int32 (sample - muLawToLinear b)) = code_err b /\
  absInt32 (muLawToLinear b) = code_mag b.
Proof.
  intros Hb. pose proof (muLawToLinear_bound b Hb).
  unfold in_s in Hsample. split.
  - unfold int32 at 1. rewrite wrap_s_id; [|lia|unfold in_s; lia].
    apply absInt32_abs. lia.
  - apply absInt32_abs. lia.
Qed.

(** What the loop has established about the codes it has seen. *)
Definition better_or_equal (st : search) (b : Z) : Prop :=
  minErr st < code_err b \/ (minErr st = code_err b /\ code_mag b <= bestMag st).

Definition search_inv (seen : list Z) (st : search) : Prop :=
  is_byte (bestByte st) /\
  code_err (bestByte st) <= minErr st /\
  bestMag st = code_mag (bestByte st) /\
  Forall (better_or_equal st) seen.

Lemma search_inv_init : search_inv [] search_init.
Proof.
  unfold search_inv, search_init, is_byte; simpl.
  split_and!; [unfold MuLawSilence; lia | unfold MuLawSilence; lia | | reflexivity | constructor].
  unfold code_err. change (muLawToLinear MuLawSilence) with 0.
  unfold in_s in Hsample. lia.
Qed.

Lemma search_inv_step seen st b :
  is_byte b -> search_inv seen st -> search_inv (seen ++ [b]) (search_step sample st b).
Proof.
  intros Hb (Hbyte & Herr & Hmag & Hseen).
  destruct (search_err_exact b Hb) as [Ee Em].
  unfold search_step. rewrite Ee, Em.
  assert (0 <= code_mag b) by (unfold code_mag; lia).
  case_match eqn:Hbetter.
  - split_and!; simpl; auto; try lia.
    assert (code_err b < minErr st \/
            (code_err b = minErr st /\ bestMag st <= code_mag b)) as Hcmp.
    { destruct (Z.ltb_spec (code_err b) (minErr st)); [by left|right].
      destruct (Z.eqb_spec (code_err b) (minErr st)); simpl in Hbetter; [|discriminate].
      rewrite Z.gtb_ltb in Hbetter.
      destruct (Z.ltb_spec (bestMag st) (code_mag b)); [lia|].
      destruct (Z.eqb_spec (code_mag b) (bestMag st)); simpl in Hbetter; [lia|discriminate]. }
    apply Forall_snoc.
    + eapply Forall_impl; [exact Hseen|]. unfold better_or_equal; simpl. lia.
    + unfold better_or_equal; simpl. lia.
  - split_and!; auto. apply Forall_snoc; [done|].
    unfold better_or_equal.
    destruct (Z.ltb_spec (code_err b) (minErr st)); [discriminate|].
    destruct (Z.eqb_spec (code_err b) (minErr st)); [|lia].
    simpl in Hbetter. rewrite Z.gtb_ltb in Hbetter.
    destruct (Z.ltb_spec (bestMag st) (code_mag b)); [discriminate|lia].
Qed.

Lemma search_inv_fold todo seen st :
  Forall is_byte todo -> search_inv seen st ->
  search_inv (seen ++ todo) (fold_left (search_step sample) todo st).
Proof.
  intros Htodo. revert seen st; induction Htodo as [|b todo Hb _ IH]; intros seen st Hinv; simpl.
  - by rewrite app_nil_r.
  - replace (seen ++ b :: todo) with ((seen ++ [b]) ++ todo) by by rewrite <- app_assoc.
    by apply IH, search_inv_step.
Qed.

Lemma all_bytes_wf : Forall is_byte all_bytes.
Proof. apply Forall_forall. intros b Hb%elem_of_seqZ. unfold is_byte. lia. Qed.

Lemma LinearToMuLaw_inv :
  search_inv all_bytes (fold_left (search_step sample) all_bytes search_init).
Proof. exact (search_inv_fold all_bytes [] _ all_bytes_wf search_inv_init). Qed.
End Search.

Lemma LinearToMuLaw_byte sample : in_s 16 sample -> is_byte (LinearToMuLaw sample).
Proof. intros H. exact (proj1 (LinearToMuLaw_inv sample H)). Qed.

#[export] Hint Resolve LinearToMuLaw_byte muLawToLinear_bound : s2s.

(** For every 16-bit sample the encoder returns a code word whose decoded value is at
    least as close to the sample as that of any other code word, and of the equally close
    ones one with the greatest magnitude. *)
Theorem LinearToMuLaw_optimal sample b :
  in_s 16 sample -> is_byte b ->
  code_err sample (LinearToMuLaw sample) <= code_err sample b /\
  (code_err sample (LinearToMuLaw sample) = code_err sample b ->
   code_mag b <= code_mag (LinearToMuLaw sample)).
Proof.
  intros Hs Hb. destruct (LinearToMuLaw_inv sample Hs) as (_ & He & Hm & Hall).
  assert (b ∈ all_bytes) as Hin by (apply elem_of_seqZ; unfold is_byte in Hb; lia).
  pose proof (proj1 (Forall_forall _ _) Hall b Hin) as Hbe.
  unfold LinearToMuLaw in *. rewrite <- Hm. unfold better_or_equal in Hbe. lia.
Qed.

Lemma LinearToMuLaw_optimal_witness :
  in_s 16 1000 /\ is_byte 3 /\
  code_err 1000 (LinearToMuLaw 1000) <= code_err 1000 3.
Proof.
  assert (in_s 16 1000) as H1 by (unfold in_s; lia).
  assert (is_byte 3) as H2 by (unfold is_byte; lia).
  split; [exact H1|]. split; [exact H2|].
  exact (proj1 (LinearToMuLaw_optimal 1000 3 H1 H2)).
Defined.

(** The one byte that does not survive a decode and re-encode is negative zero. *)
Definition canonical (b : byte) : byte := if b =? 0x7F then MuLawSilence else b.

Lemma muLaw_roundtrip b : is_byte b -> LinearToMuLaw (muLawToLinear b) = canonical b.
Proof.
  intros Hb. apply Z.eqb_eq.
  exact (check_all_spec (fun b => LinearToMuLaw (muLawToLinear b) =? canonical b)
    ltac:(vm_compute; reflexivity) b Hb).
Qed.
