(* ===== verification/Float.v ===== *)
(** * Float: IEEE-754 values at the two widths the code uses

    Go's [float32] and [float64] as Stdlib [spec_float]s: the operations round
    to nearest even at the precision and exponent range of the width.  Used by
    the resampler (float64) and the VAD thresholds (float32). *)

From Stdlib Require Import SpecFloat FloatOps.
From S2P Require Export Prelude.

Record fmt := mkFmt { f_prec : Z; f_emax : Z }.
Definition binary32 : fmt := mkFmt 24 128.
Definition binary64 : fmt := mkFmt 53 1024.

Notation gofloat := spec_float (only parsing).

(** Conversion of an integer, and the arithmetic, at a format. *)
Definition f_of_Z (F : fmt) (n : Z) : gofloat :=
  binary_normalize (f_prec F) (f_emax F) n 0 false.
Definition f_mul (F : fmt) : gofloat -> gofloat -> gofloat := SFmul (f_prec F) (f_emax F).
Definition f_div (F : fmt) : gofloat -> gofloat -> gofloat := SFdiv (f_prec F) (f_emax F).
Definition f_add (F : fmt) : gofloat -> gofloat -> gofloat := SFadd (f_prec F) (f_emax F).
Definition f_sub (F : fmt) : gofloat -> gofloat -> gofloat := SFsub (f_prec F) (f_emax F).

(** Comparisons do not depend on the width: [a >= b] and [a < b], both false
    when either side is a NaN. *)
Definition f_ge (a b : gofloat) : bool := SFleb b a.
Definition f_le (a b : gofloat) : bool := SFleb a b.
Definition f_lt (a b : gofloat) : bool := SFltb a b.

(** [int(x)]: truncation toward zero (the integer value of a finite float).
    Go leaves the conversion of a value out of the integer type's range, an
    infinity or a NaN to the implementation; it is 0 here and no theorem
    depends on it. *)
Definition f_trunc (x : gofloat) : Z :=
  match x with
  | S754_finite s m e =>
      let v := if 0 <=? e then Z.pos m * 2 ^ e else Z.quot (Z.pos m) (2 ^ (- e)) in
      if s then - v else v
  | _ => 0
  end.

Definition f_zero : gofloat := S754_zero false.

(** A threshold is never met by a NaN. *)
Lemma f_ge_nan t : f_ge S754_nan t = false.
Proof. by destruct t. Qed.

Lemma f_le_refl_finite s m e : f_le (S754_finite s m e) (S754_finite s m e) = true.
Proof.
  unfold f_le, SFleb, SFcompare. rewrite Z.compare_refl.
  destruct s; rewrite ?Pos.compare_refl; reflexivity.
Qed.

(** ** Order on finite values

    The comparisons are those of a total preorder on the non-NaN values, which
    is what threshold hysteresis relies on. *)

Definition is_nan (x : gofloat) : bool := match x with S754_nan => true | _ => false end.

Lemma f_lt_not_ge a b : is_nan a = false -> is_nan b = false -> f_lt a b = negb (f_ge a b).
Proof.
  intros Ha Hb. unfold f_lt, f_ge, SFltb, SFleb, SFcompare.
  destruct a as [|[]| |[] m1 e1], b as [|[]| |[] m2 e2]; try discriminate; try reflexivity.
  all: rewrite (Z.compare_antisym e1 e2), ?(Pos.compare_antisym m1 m2);
    destruct (e1 ?= e2); simpl; try reflexivity;
    change (Pos.compare_cont Eq m1 m2) with (m1 ?= m2)%positive;
    change (Pos.compare_cont Eq m2 m1) with (m2 ?= m1)%positive;
    rewrite ?(Pos.compare_antisym m1 m2); destruct (m1 ?= m2)%positive; reflexivity.
Qed.
