(* ===== verification/Wav.v ===== *)
(** * Wav: the WAV container, resampling and frame packing

    Models [telephony/mulaw.go] ([EncodeMuLawFrames], [WalkWAVChunks],
    [decodeWAVToPCM16], [resampleToMono8kHz]) and [telephony/wav.go]
    ([mulawToWAV]).  The chunk walk of the source is an unbounded loop; here it
    takes fuel, and [walk_fuel_enough] shows one step per eight bytes of input
    is all it can use.  The float64 resampling arithmetic is the unfused
    binary64 of [Float]. *)

From Stdlib Require Import SpecFloat.
From S2P Require Export Float MuLaw.

Definition bytes_of_string (s : string) : bytes :=
  map (fun a => Z.of_N (Ascii.N_of_ascii a)) (String.list_ascii_of_string s).

Definition RIFF : bytes := bytes_of_string "RIFF".
Definition WAVE : bytes := bytes_of_string "WAVE".
Definition fmt_ : bytes := bytes_of_string "fmt ".
Definition data_ : bytes := bytes_of_string "data".

Definition len {A} (l : list A) : Z := Z.of_nat (length l).

(** Go's [l[lo:hi]] with [int] bounds. *)
Definition zslice {A} (lo hi : Z) (l : list A) : list A := slice (Z.to_nat lo) (Z.to_nat hi) l.

(** ** [WalkWAVChunks]

    The visitor threads a state and says whether to keep going. *)

Section Walk.
Context {St : Type}.
Variable visit : bytes -> Z -> Z -> St -> bool * St.

Fixpoint WalkWAVChunks_from (fuel : nat) (i : Z) (wav : bytes) (st : St) : St :=
  match fuel with
  | O => st
  | S fuel' =>
      if i + 8 <=? len wav then
        let id := zslice i (i + 4) wav in
        let sz := le_get (zslice (i + 4) (i + 8) wav) in
        let body := i + 8 in
        let '(keepGoing, st') := visit id body sz st in
        if negb keepGoing then st'
        else WalkWAVChunks_from fuel' (body + sz + Z.land sz 1) wav st'
      else st
  end.

(** One iteration advances past an 8-byte chunk header, so [len wav] steps
    always suffice. *)
Definition WalkWAVChunks (wav : bytes) (st : St) : St :=
  WalkWAVChunks_from (length wav) 12 wav st.

(** More fuel changes nothing once [8 * fuel] covers what is left of the file:
    the loop of the source ends, and with this result. *)
Lemma walk_fuel_enough f1 f2 i wav st :
  wf_bytes wav -> 0 <= i ->
  len wav - i < 8 * Z.of_nat f1 + 8 -> len wav - i < 8 * Z.of_nat f2 + 8 ->
  WalkWAVChunks_from f1 i wav st = WalkWAVChunks_from f2 i wav st.
Proof.
  intros Hwf. revert f2 i st; induction f1 as [|f1 IH]; intros f2 i st Hi H1 H2; simpl.
  - destruct f2; simpl; [done|]. destruct (Z.leb_spec (i + 8) (len wav)); [lia|done].
  - destruct f2 as [|f2]; simpl.
    { destruct (Z.leb_spec (i + 8) (len wav)); [lia|done]. }
    destruct (Z.leb_spec (i + 8) (len wav)); [|done].
    pose proof (le_get_bound _ (slice_wf (Z.to_nat (i + 4)) (Z.to_nat (i + 8)) wav Hwf)) as [Hsz _].
    fold (zslice (i + 4) (i + 8) wav) in Hsz.
    pose proof (proj2 (Z.land_nonneg (le_get (zslice (i + 4) (i + 8) wav)) 1) ltac:(lia)).
    destruct (visit _ _ _ st) as [[] st']; simpl; [|done].
    apply IH; lia.
Qed.
End Walk.

(** ** [decodeWAVToPCM16] *)

(** The visitor of [decodeWAVToPCM16]: stop at the first ["data"] chunk. *)
Definition find_data (id : bytes) (body sz : Z) (st : Z * Z) : bool * (Z * Z) :=
  if decide (id = data_) then (false, (body, sz)) else (true, st).

(** [pcm[i]]: the channels' samples summed at 32 bits and averaged. *)
Definition frame_sample (pcmData : bytes) (numChannels bytesPerSample i : Z) : Z :=
  let frameOffset := i * bytesPerSample * numChannels in
  let sum := fold_left (fun sum c =>
      let sampleOffset := frameOffset + c * bytesPerSample in
      int32 (sum + int16 (le_get (zslice sampleOffset (sampleOffset + 2) pcmData))))
    (seqZ 0 numChannels) 0 in
  int16 (Z.quot sum (int32 numChannels)).

Definition decodeWAVToPCM16 (wav : bytes) : result (list Z * Z) :=
  if len wav <? 44 then Err "WAV too short" else
  if negb (bool_decide (zslice 0 4 wav = RIFF)) || negb (bool_decide (zslice 8 12 wav = WAVE))
  then Err "invalid WAV" else
  if negb (bool_decide (zslice 12 16 wav = fmt_)) then Err "fmt chunk error" else
  let sampleRate := le_get (zslice 24 28 wav) in
  let bitsPerSample := le_get (zslice 34 36 wav) in
  let numChannels := le_get (zslice 22 24 wav) in
  if negb (bitsPerSample =? 16) then Err "only 16-bit PCM supported" else
  if numChannels <? 1 then Err "invalid channel count" else
  let '(dataOffset, dataSize) := WalkWAVChunks find_data wav (-1, 0) in
  if dataOffset <? 0 then Err "data chunk not found" else
  let pcmEnd := dataOffset + dataSize in
  if len wav <? pcmEnd then Err "WAV truncated" else
  let pcmData := zslice dataOffset pcmEnd wav in
  let bytesPerSample := Z.quot bitsPerSample 8 in
  let numFrames := Z.quot (Z.quot dataSize bytesPerSample) numChannels in
  Ok (map (frame_sample pcmData numChannels bytesPerSample) (seqZ 0 numFrames), sampleRate).

(** ** [resampleToMono8kHz] *)

Definition f64 (n : Z) : gofloat := f_of_Z binary64 n.

Definition resample_at (pcm : list Z) (sourceSampleRate i : Z) : Z :=
  let srcIdx := f_div binary64 (f_mul binary64 (f64 i) (f64 sourceSampleRate)) (f64 8000) in
  let srcIdxInt := f_trunc srcIdx in
  let frac := f_sub binary64 srcIdx (f64 srcIdxInt) in
  if srcIdxInt + 1 <? len pcm then
    let s1 := f64 (nth (Z.to_nat srcIdxInt) pcm 0) in
    let s2 := f64 (nth (Z.to_nat (srcIdxInt + 1)) pcm 0) in
    int16 (f_trunc (f_add binary64 s1 (f_mul binary64 (f_sub binary64 s2 s1) frac)))
  else if srcIdxInt <? len pcm then nth (Z.to_nat srcIdxInt) pcm 0
  else 0.

(** The quotient is an integer division, so a zero source rate is a run-time
    panic. *)
Definition resampleToMono8kHz (pcm : list Z) (sourceSampleRate : Z) : result (list Z) :=
  if sourceSampleRate =? 8000 then Ok pcm else
  if sourceSampleRate =? 0 then Panic "integer divide by zero" else
  let targetCount := Z.quot (len pcm * 8000) sourceSampleRate in
  Ok (map (resample_at pcm sourceSampleRate) (seqZ 0 targetCount)).

(** ** [EncodeMuLawFrames] *)

Definition frameSize : Z := Z.quot (SampleRateHz * MuLawFrameMS) 1000.

Definition pack_frames (mulaw : bytes) : list bytes :=
  let numFrames := Z.quot (len mulaw + frameSize - 1) frameSize in
  if numFrames =? 0 then [] else
  let padded := mulaw ++ replicate (Z.to_nat (numFrames * frameSize - len mulaw)) MuLawSilence in
  map (fun i => zslice (i * frameSize) ((i + 1) * frameSize) padded) (seqZ 0 numFrames).

Definition EncodeMuLawFrames (wav : bytes) : result (list bytes) :=
  match decodeWAVToPCM16 wav with
  | Err e => Err (String.append "decode WAV: " e)
  | Panic e => Panic e
  | Ok (pcm, sampleRate) =>
      match (if negb (sampleRate =? 8000) then resampleToMono8kHz pcm sampleRate else Ok pcm) with
      | Ok pcm => Ok (pack_frames (map LinearToMuLaw pcm))
      | Err e => Err e
      | Panic e => Panic e
      end
  end.

(** ** [mulawToWAV] *)

Definition wavHeaderSize : Z := 44.
Definition pcmBytesPerSample : Z := 2.
Definition numChannels : Z := 1.
Definition bitsPerSample : Z := 16.

(** The 44-byte header, field by field in the order the code writes them. *)
Definition wav_header (pcmLen sampleRate : Z) : bytes :=
  RIFF ++ le_put 4 (uint32 (36 + pcmLen)) ++ WAVE ++
  fmt_ ++ le_put 4 16 ++ le_put 2 1 ++ le_put 2 numChannels ++
  le_put 4 (uint32 sampleRate) ++
  le_put 4 (uint32 (sampleRate * numChannels * pcmBytesPerSample)) ++
  le_put 2 (numChannels * pcmBytesPerSample) ++ le_put 2 bitsPerSample ++
  data_ ++ le_put 4 (uint32 pcmLen).

Definition mulawToWAV (mulaw : bytes) (sampleRate : Z) : bytes :=
  let pcmLen := len mulaw * pcmBytesPerSample in
  wav_header pcmLen sampleRate ++
  mjoin (map (fun b => le_put 2 (uint16 (muLawToLinear b))) mulaw).

(** ** Slices of a laid-out file *)

Lemma len_app {A} (l1 l2 : list A) : len (l1 ++ l2) = len l1 + len l2.
Proof. unfold len. rewrite length_app. lia. Qed.

Lemma len_le_put n x : len (le_put n x) = Z.of_nat n.
Proof. unfold len. by rewrite le_put_length. Qed.

Lemma len_nonneg {A} (l : list A) : 0 <= len l.
Proof. unfold len. lia. Qed.

Lemma zslice_app_r {A} (p l : list A) lo hi :
  len p <= lo -> zslice lo hi (p ++ l) = zslice (lo - len p) (hi - len p) l.
Proof.
  intros H. unfold zslice, len in *. rewrite slice_app_r by lia.
  f_equal; lia.
Qed.

Lemma zslice_head {A} (p l : list A) hi : hi = len p -> zslice 0 hi (p ++ l) = p.
Proof.
  intros ->. unfold zslice, slice, len. rewrite drop_0.
  by rewrite take_app_length' by lia.
Qed.

Lemma zslice_all {A} (p : list A) hi : hi = len p -> zslice 0 hi p = p.
Proof. intros H. rewrite <- (app_nil_r p) at 1. by apply zslice_head. Qed.

Lemma zslice_len {A} lo hi (l : list A) :
  0 <= lo <= hi -> hi <= len l -> len (zslice lo hi l) = hi - lo.
Proof. intros. unfold zslice, len in *. rewrite slice_length by lia. lia. Qed.

(** The [i]-th of a sequence of equally long pieces. *)
Lemma zslice_mjoin {A B} (f : A -> list B) (k : Z) (l : list A) i x :
  0 <= k -> (forall a, len (f a) = k) -> l !! i = Some x ->
  zslice (Z.of_nat i * k) (Z.of_nat i * k + k) (mjoin (map f l)) = f x.
Proof.
  intros Hk Hf. revert i; induction l as [|a l IH]; intros [|i] Hi; simpl in *; try discriminate.
  - injection Hi as ->. by apply zslice_head.
  - rewrite zslice_app_r by (rewrite Hf; lia). rewrite Hf.
    replace (Z.of_nat (S i) * k - k) with (Z.of_nat i * k) by lia.
    replace (Z.of_nat (S i) * k + k - k) with (Z.of_nat i * k + k) by lia. auto.
Qed.

Lemma len_mjoin {A B} (f : A -> list B) (k : Z) (l : list A) :
  (forall a, len (f a) = k) -> len (mjoin (map f l)) = len l * k.
Proof.
  intros Hf. induction l as [|a l IH]; simpl; [done|].
  rewrite len_app, Hf, IH. unfold len; simpl. lia.
Qed.

(** Reads the field at fixed offsets of a right-nested concatenation. *)
Ltac read_field :=
  repeat first
    [ rewrite zslice_head by (rewrite ?len_le_put; reflexivity)
    | rewrite zslice_app_r by (rewrite ?len_le_put; vm_compute; congruence);
      rewrite ?len_le_put; cbn -[zslice le_put app] ].

(** ** The header round trip *)

Section RoundTrip.
Variables (mulaw : bytes) (sampleRate : Z).
Hypothesis Hwf : wf_bytes mulaw.
Hypothesis Hlen : 36 + 2 * len mulaw < 2 ^ 32.
Hypothesis Hrate : 0 <= sampleRate < 2 ^ 32.

Let samples := mjoin (map (fun b => le_put 2 (uint16 (muLawToLinear b))) mulaw).
Let wav := mulawToWAV mulaw sampleRate.

Lemma samples_len : len samples = 2 * len mulaw.
Proof.
  unfold samples. rewrite (len_mjoin _ 2); [lia|]. intros; apply len_le_put.
Qed.

Lemma wav_len : len wav = 44 + 2 * len mulaw.
Proof.
  unfold wav, mulawToWAV, wav_header. rewrite !len_app, !len_le_put.
  fold samples. rewrite samples_len. reflexivity.
Qed.

Lemma wav_layout :
  wav = RIFF ++ le_put 4 (uint32 (36 + len mulaw * 2)) ++ WAVE ++ fmt_ ++ le_put 4 16 ++
    le_put 2 1 ++ le_put 2 1 ++ le_put 4 (uint32 sampleRate) ++
    le_put 4 (uint32 (sampleRate * 1 * 2)) ++ le_put 2 2 ++ le_put 2 16 ++
    data_ ++ le_put 4 (uint32 (len mulaw * 2)) ++ samples.
Proof. unfold wav, mulawToWAV, wav_header. rewrite <- !app_assoc. reflexivity. Qed.

Lemma get_put_u32 x : 0 <= x < 2 ^ 32 -> le_get (le_put 4 (uint32 x)) = x.
Proof. intros. rewrite le_get_put. unfold uint32. rewrite wrap_u_id by lia. by apply Z.mod_small. Qed.

(** The walk skips ["fmt "] and stops at ["data"]. *)
Lemma walk_finds_data : WalkWAVChunks find_data wav (-1, 0) = (44, len mulaw * 2).
Proof.
  pose proof wav_len as Hl. pose proof (len_nonneg mulaw).
  unfold WalkWAVChunks.
  assert (exists n, length wav = S (S n)) as [n ->].
  { exists (length wav - 2)%nat. unfold len in *. lia. }
  cbn [WalkWAVChunks_from].
  destruct (Z.leb_spec (12 + 8) (len wav)); [|lia].
  assert (zslice 12 (12 + 4) wav = fmt_) as -> by (rewrite wav_layout; read_field; done).
  assert (zslice (12 + 4) (12 + 8) wav = le_put 4 16) as -> by (rewrite wav_layout; read_field; done).
  change (le_get (le_put 4 16)) with 16.
  unfold find_data at 1. rewrite decide_False by done. cbn [negb].
  change (12 + 8 + 16 + Z.land 16 1) with 36.
  destruct (Z.leb_spec (36 + 8) (len wav)); [|lia].
  assert (zslice 36 (36 + 4) wav = data_) as -> by (rewrite wav_layout; read_field; done).
  assert (zslice (36 + 4) (36 + 8) wav = le_put 4 (uint32 (len mulaw * 2))) as ->
    by (rewrite wav_layout; read_field; done).
  rewrite get_put_u32 by lia.
  unfold find_data. by rewrite decide_True.
Qed.

Lemma sample_bits x : -2 ^ 15 <= x < 2 ^ 15 -> int16 (le_get (le_put 2 (uint16 x))) = x.
Proof.
  intros Hx. rewrite le_get_put. unfold uint16, int16, wrap_u, wrap_s.
  change (256 ^ Z.of_nat 2) with (2 ^ 16). rewrite Z.mod_mod by lia.
  rewrite Z.add_mod_idemp_l by lia. rewrite Z.mod_small; lia.
Qed.

Lemma frame_sample_mono i b :
  mulaw !! i = Some b -> frame_sample samples 1 2 (Z.of_nat i) = muLawToLinear b.
Proof.
  intros Hi. pose proof (Forall_lookup_1 _ _ _ _ Hwf Hi) as Hb.
  pose proof (muLawToLinear_bound b Hb).
  unfold frame_sample. change (seqZ 0 1) with [0]. cbn [fold_left].
  replace (Z.of_nat i * 2 * 1 + 0 * 2) with (Z.of_nat i * 2) by lia.
  unfold samples. rewrite (zslice_mjoin _ 2 _ _ b); [|lia|intros; apply len_le_put|done].
  rewrite sample_bits by lia.
  change (int32 1) with 1. rewrite Z.quot_1_r.
  unfold int32, int16. rewrite (wrap_s_id 32); [|lia|unfold in_s; lia].
  rewrite wrap_s_id; [lia|lia|unfold in_s; lia].
Qed.

Lemma decode_samples :
  map (frame_sample samples 1 2) (seqZ 0 (len mulaw)) = map muLawToLinear mulaw.
Proof.
  apply list_eq. intros i. rewrite !lookup_map.
  destruct (mulaw !! i) as [b|] eqn:Hi; simpl.
  - rewrite lookup_seqZ_lt by (apply lookup_lt_Some in Hi; unfold len; lia).
    simpl. f_equal. by apply frame_sample_mono.
  - rewrite lookup_seqZ_ge; [done|]. apply lookup_ge_None in Hi. unfold len. lia.
Qed.

Lemma decode_mulawToWAV : decodeWAVToPCM16 wav = Ok (map muLawToLinear mulaw, sampleRate).
Proof.
  pose proof wav_len as Hl. pose proof (len_nonneg mulaw).
  unfold decodeWAVToPCM16.
  destruct (Z.ltb_spec (len wav) 44); [lia|].
  assert (zslice 0 4 wav = RIFF) as -> by (rewrite wav_layout; by read_field).
  assert (zslice 8 12 wav = WAVE) as -> by (rewrite wav_layout; by read_field).
  assert (zslice 12 16 wav = fmt_) as -> by (rewrite wav_layout; by read_field).
  rewrite !bool_decide_true by done. cbn [negb orb].
  assert (zslice 24 28 wav = le_put 4 (uint32 sampleRate)) as -> by (rewrite wav_layout; by read_field).
  assert (zslice 34 36 wav = le_put 2 16) as -> by (rewrite wav_layout; by read_field).
  assert (zslice 22 24 wav = le_put 2 1) as -> by (rewrite wav_layout; by read_field).
  change (le_get (le_put 2 16)) with 16. change (le_get (le_put 2 1)) with 1.
  rewrite get_put_u32 by lia. change (negb (16 =? 16)) with false.
  change (1 <? 1) with false. cbv beta iota zeta.
  rewrite walk_finds_data. cbv beta iota zeta. change (44 <? 0) with false. cbv iota.
  destruct (Z.ltb_spec (len wav) (44 + len mulaw * 2)); [lia|].
  assert (zslice 44 (44 + len mulaw * 2) wav = samples) as ->.
  { rewrite wav_layout.
    repeat (rewrite zslice_app_r by (rewrite ?len_le_put; vm_compute; congruence);
      rewrite ?len_le_put). 
    change (len RIFF) with 4. change (len WAVE) with 4. change (len fmt_) with 4.
    change (len data_) with 4.
    match goal with |- zslice ?a ?b _ = _ =>
      replace a with 0 by lia; replace b with (len mulaw * 2) by lia end.
    apply zslice_all. rewrite samples_len. lia. }
  change (Z.quot 16 8) with 2. rewrite Z.quot_mul by lia. rewrite Z.quot_1_r.
  by rewrite decode_samples.
Qed.
End RoundTrip.

(** ** Frame packing *)

Lemma slices_concat {A} (n : Z) (l : list A) (k : nat) :
  0 <= n ->
  mjoin (map (fun i => zslice (i * n) ((i + 1) * n) l) (seqZ 0 (Z.of_nat k))) =
  take (k * Z.to_nat n) l.
Proof.
  intros Hn. induction k as [|k IH]; [done|].
  rewrite seqZ_S, Z.add_0_l, map_app, join_app, IH. simpl. rewrite app_nil_r.
  unfold zslice, slice.
  replace (Z.to_nat ((Z.of_nat k + 1) * n) - Z.to_nat (Z.of_nat k * n))%nat with (Z.to_nat n) by lia.
  replace (Z.to_nat (Z.of_nat k * n)) with (k * Z.to_nat n)%nat by lia.
  etransitivity; [apply take_take_drop|]. f_equal. lia.
Qed.

Definition num_frames (n : Z) : Z := Z.quot (n + frameSize - 1) frameSize.

Lemma num_frames_spec n :
  0 <= n -> 0 <= num_frames n /\ n <= num_frames n * frameSize < n + frameSize.
Proof.
  intros Hn. unfold num_frames. change frameSize with 160.
  rewrite Z.quot_div_nonneg by lia.
  pose proof (Z.div_mod (n + 160 - 1) 160 ltac:(lia)).
  pose proof (Z.mod_pos_bound (n + 160 - 1) 160 ltac:(lia)). lia.
Qed.

(** The frames are the mu-law bytes, in order, and then silence up to the frame
    boundary; every frame is 20 ms long. *)
Lemma pack_frames_spec mulaw :
  exists k, 0 <= k < frameSize /\
    mjoin (pack_frames mulaw) = mulaw ++ replicate (Z.to_nat k) MuLawSilence /\
    Forall (fun f => len f = frameSize) (pack_frames mulaw).
Proof.
  pose proof (num_frames_spec (len mulaw) (len_nonneg mulaw)) as [H0 H1].
  exists (num_frames (len mulaw) * frameSize - len mulaw).
  unfold pack_frames. fold (num_frames (len mulaw)).
  split; [change frameSize with 160 in *; lia|].
  destruct (Z.eqb_spec (num_frames (len mulaw)) 0) as [E|E].
  - rewrite E in *. assert (mulaw = []) as ->.
    { destruct mulaw; [done|]. unfold len in *; simpl in *. lia. }
    split; [done|constructor].
  - set (padded := mulaw ++ _).
    assert (len padded = num_frames (len mulaw) * frameSize) as Hp.
    { unfold padded. rewrite len_app. unfold len at 2. rewrite length_replicate. lia. }
    split.
    + replace (num_frames (len mulaw)) with (Z.of_nat (Z.to_nat (num_frames (len mulaw)))) by lia.
      rewrite slices_concat by (vm_compute; congruence).
      apply take_ge. change frameSize with 160 in *. unfold len in *. lia.
    + apply Forall_forall. intros f Hf. apply list_elem_of_In, in_map_iff in Hf as (i & <- & Hi).
      apply list_elem_of_In, elem_of_seqZ in Hi.
      change frameSize with 160 in *. rewrite zslice_len; nia.
Qed.

(** Writing mu-law audio as an 8 kHz WAV and encoding that WAV back gives the audio, up
    to the two encodings of zero, followed by fewer than 160 bytes of silence, in frames of
    exactly 160 bytes. *)
Theorem EncodeMuLawFrames_roundtrip mulaw :
  wf_bytes mulaw -> 36 + 2 * len mulaw < 2 ^ 32 ->
  exists frames k,
    EncodeMuLawFrames (mulawToWAV mulaw SampleRateHz) = Ok frames /\
    0 <= k < frameSize /\
    mjoin frames = map canonical mulaw ++ replicate (Z.to_nat k) MuLawSilence /\
    Forall (fun f => len f = frameSize) frames.
Proof.
  intros Hwf Hlen. unfold EncodeMuLawFrames.
  rewrite decode_mulawToWAV by (auto; unfold SampleRateHz; lia).
  change (negb (SampleRateHz =? 8000)) with false. cbv iota.
  rewrite map_map.
  assert (map (fun x => LinearToMuLaw (muLawToLinear x)) mulaw = map canonical mulaw) as ->.
  { apply map_ext_in. intros b Hb. apply muLaw_roundtrip.
    apply list_elem_of_In in Hb. exact (proj1 (Forall_forall _ _) Hwf b Hb). }
  destruct (pack_frames_spec (map canonical mulaw)) as (k & Hk & Hc & Hf). eauto 10.
Qed.

Lemma EncodeMuLawFrames_roundtrip_witness :
  exists frames k,
    EncodeMuLawFrames (mulawToWAV [0; 127; 255] SampleRateHz) = Ok frames /\
    0 <= k < frameSize /\
    mjoin frames = map canonical [0; 127; 255] ++ replicate (Z.to_nat k) MuLawSilence /\
    Forall (fun f => len f = frameSize) frames.
Proof.
  apply EncodeMuLawFrames_roundtrip.
  - repeat constructor; discriminate.
  - vm_compute; reflexivity.
Defined.

(** ** Errors *)

(** EncodeMuLawFrames panics exactly on the WAV files that decode with a sample rate of
    zero; every other malformed input is an error value. *)
Theorem EncodeMuLawFrames_panics_iff wav :
  (exists e, EncodeMuLawFrames wav = Panic e) <->
  (exists pcm, decodeWAVToPCM16 wav = Ok (pcm, 0)).
Proof.
  unfold EncodeMuLawFrames. split.
  - intros [e He]. destruct (decodeWAVToPCM16 wav) as [[pcm rate]| |] eqn:Hd; try discriminate.
    + destruct (Z.eqb_spec rate 8000); simpl in He; [discriminate|].
      unfold resampleToMono8kHz in He.
      destruct (Z.eqb_spec rate 8000); [lia|].
      destruct (Z.eqb_spec rate 0); [subst; eauto|discriminate].
    + exfalso. clear He. unfold decodeWAVToPCM16 in Hd. test_lia.
  - intros [pcm ->]. eauto.
Qed.

(** A 46-byte file with a well-formed header and a zero sample rate is one. *)
Definition zero_rate_wav : bytes := mulawToWAV [0] 0.

Lemma zero_rate_wav_panics : exists e, EncodeMuLawFrames zero_rate_wav = Panic e.
Proof. apply EncodeMuLawFrames_panics_iff. eexists. vm_compute. reflexivity. Defined.

(** ** The 32-bit channel sum cannot overflow *)

Section ChannelSum.
Variables (pcmData : bytes) (off bytesPerSample : Z).

Definition channel_at (c : Z) : Z :=
  int16 (le_get (zslice (off + c * bytesPerSample) (off + c * bytesPerSample + 2) pcmData)).

Definition exact_sum (cs : list Z) : Z := fold_left (fun s c => s + channel_at c) cs 0.

Lemma channel_at_bound c : - 2 ^ 15 <= channel_at c < 2 ^ 15.
Proof.
  unfold channel_at, int16, wrap_s.
  pose proof (Z.mod_pos_bound
    (le_get (zslice (off + c * bytesPerSample) (off + c * bytesPerSample + 2) pcmData) + 2 ^ 15)
    (2 ^ 16) ltac:(lia)). change (2 ^ (16 - 1)) with (2 ^ 15). lia.
Qed.

Lemma channel_sum_exact cs :
  Z.of_nat (length cs) <= 65535 ->
  fold_left (fun s c => int32 (s + channel_at c)) cs 0 = exact_sum cs /\
  - 2 ^ 15 * Z.of_nat (length cs) <= exact_sum cs <= (2 ^ 15 - 1) * Z.of_nat (length cs).
Proof.
  unfold exact_sum. induction cs as [|c cs IH] using rev_ind; [simpl; lia|].
  rewrite length_app, Nat2Z.inj_add. cbn [length]. intros Hn.
  rewrite !fold_left_app. cbn [fold_left].
  destruct IH as [E Hb]; [lia|]. rewrite E.
  pose proof (channel_at_bound c).
  unfold int32. rewrite wrap_s_id; [lia|lia|unfold in_s; lia].
Qed.
End ChannelSum.

(** The mix-down of one frame of up to 65535 channels never overflows its int32
    accumulator: the result is the exact truncated average and fits 16 bits. *)
Theorem frame_sample_exact pcmData nch bps i :
  1 <= nch <= 65535 ->
  let total := exact_sum pcmData (i * bps * nch) bps (seqZ 0 nch) in
  frame_sample pcmData nch bps i = Z.quot total nch /\
  - 2 ^ 15 <= Z.quot total nch <= 2 ^ 15 - 1.
Proof.
  intros Hn total.
  destruct (channel_sum_exact pcmData (i * bps * nch) bps (seqZ 0 nch)) as [E Hb].
  { rewrite length_seqZ. lia. }
  rewrite length_seqZ, Z2Nat.id in Hb by lia. fold total in E, Hb.
  assert (- 2 ^ 15 <= Z.quot total nch <= 2 ^ 15 - 1) as Hq.
  { split; [apply Z.quot_le_lower_bound|apply Z.quot_le_upper_bound]; lia. }
  split; [|exact Hq].
  change (frame_sample pcmData nch bps i) with
    (int16 (Z.quot (fold_left (fun s c => int32 (s + channel_at pcmData (i * bps * nch) bps c))
      (seqZ 0 nch) 0) (int32 nch))).
  rewrite E. unfold int32 at 1. rewrite (wrap_s_id 32); [|lia|unfold in_s; lia].
  unfold int16. apply wrap_s_id; [lia|unfold in_s; lia].
Qed.

Lemma frame_sample_exact_witness :
  frame_sample [255; 127; 255; 127] 2 2 0 =
  Z.quot (exact_sum [255; 127; 255; 127] (0 * 2 * 2) 2 (seqZ 0 2)) 2.
Proof. apply (frame_sample_exact [255; 127; 255; 127] 2 2 0). lia. Defined.
