(* ===== verification/Vad.v ===== *)
(** * Vad: windowing and the voice-activity machine

    Models [telephony/vad.go] and the VAD event types of
    [telephony/message.go]: the configuration and its ordering check, the
    mu-law decode to normalized float32, the [windower] that cuts the sample
    stream into inference windows, the [vadMachine] that turns one probability
    per window into [VADEvent]s, and the [runVAD] loop with the relay that
    stamps the session id.  The detector is code behind an interface (an
    out-of-process sidecar in production): a parameter of [runVAD].

    [vad_step_spec] is the refinement theorem: the machine's flags and counters
    implement a two-variable specification, "has the caller ever spoken" and
    "how long is the current silence". *)

From Stdlib Require Import SpecFloat.
From S2P Require Export Wav.

(** ** Events (message.go) *)

Inductive VADKind := VADSpeech | VADSilence | VADEndOfUtterance | VADTurnEnd.
#[export] Instance VADKind_eq_dec : EqDecision VADKind.
Proof. solve_decision. Defined.

Record VADEvent := mkVADEvent {
  Kind : VADKind;
  Prob : gofloat;
  VoicedCount : Z;
  SilenceCount : Z;
  WindowIndex : Z;
  StreamWindowIndex : Z;
  ev_SessionID : string
}.

(** ** Configuration *)

Record vadConfig := mkVadConfig {
  WindowSize : Z;
  SpeechThresh : gofloat;
  SilenceThresh : gofloat;
  EndSilenceMS : Z;
  cfg_SampleRateHz : Z;
  TurnEndSilenceMS : Z
}.

(** [0.5] and [0.35] as float32 constants. *)
Definition f32_0_5 : gofloat := S754_finite false 8388608 (-24).
Definition f32_0_35 : gofloat := S754_finite false 11744051 (-25).

Definition defaultVADConfig : vadConfig := mkVadConfig 256 f32_0_5 f32_0_35 700 8000 5000.

Definition withDefaults (c : vadConfig) : vadConfig :=
  let d := defaultVADConfig in
  mkVadConfig
    (if WindowSize c <=? 0 then WindowSize d else WindowSize c)
    (if f_le (SpeechThresh c) f_zero then SpeechThresh d else SpeechThresh c)
    (if f_le (SilenceThresh c) f_zero then SilenceThresh d else SilenceThresh c)
    (if EndSilenceMS c <=? 0 then EndSilenceMS d else EndSilenceMS c)
    (if cfg_SampleRateHz c <=? 0 then cfg_SampleRateHz d else cfg_SampleRateHz c)
    (if TurnEndSilenceMS c <=? 0 then TurnEndSilenceMS d else TurnEndSilenceMS c).

Definition windowMS (c : vadConfig) : Z :=
  if cfg_SampleRateHz c =? 0 then 0
  else Z.quot (WindowSize c * 1000) (cfg_SampleRateHz c).

Definition windowsToCross (thresholdMS windowMS : Z) : Z :=
  if windowMS <=? 0 then 0 else Z.quot (thresholdMS + windowMS - 1) windowMS.

Definition windowsForMS (thresholdMS : Z) : Z :=
  windowsToCross thresholdMS (windowMS defaultVADConfig).
Definition EndSilenceWindows : Z := windowsForMS (EndSilenceMS defaultVADConfig).
Definition TurnEndSilenceWindows : Z := windowsForMS (TurnEndSilenceMS defaultVADConfig).

Definition validateOrdering (c : vadConfig) (maxSilenceMS : Z) : result unit :=
  if EndSilenceMS c >=? TurnEndSilenceMS c
  then Err "EndSilenceMS >= TurnEndSilenceMS; ordering invariant violated"
  else if TurnEndSilenceMS c >=? maxSilenceMS
  then Err "TurnEndSilenceMS >= MaxSilenceMS; ordering invariant violated"
  else Ok tt.

(** ** Decoding and windowing *)

Definition decodeMuLaw (frame : bytes) : list gofloat :=
  map (fun b => f_div binary32 (f_of_Z binary32 (muLawToLinear b)) (f_of_Z binary32 32768)) frame.

Section Windower.
Context {A : Type}.

Record windower := mkWindower { w_size : nat; w_buf : list A }.

Definition newWindower (size : nat) : windower := mkWindower size [].

(** The loop of [push]: the windows cut so far are returned with what is left
    of the buffer. *)
Fixpoint push_loop (fuel size : nat) (b : list A) : list (list A) * list A :=
  match fuel with
  | O => ([], b)
  | S fuel' =>
      if decide (size <= length b)%nat then
        let '(windows, rest) := push_loop fuel' size (drop size b) in
        (take size b :: windows, rest)
      else ([], b)
  end.

Definition push (w : windower) (samples : list A) : windower * list (list A) :=
  let b := w_buf w ++ samples in
  let '(windows, rest) := push_loop (length b) (w_size w) b in
  (mkWindower (w_size w) rest, windows).

(** Pushing several frames one after the other. *)
Fixpoint push_all (w : windower) (frames : list (list A)) : windower * list (list A) :=
  match frames with
  | [] => (w, [])
  | f :: frames' =>
      let '(w1, ws1) := push w f in
      let '(w2, ws2) := push_all w1 frames' in (w2, ws1 ++ ws2)
  end.
End Windower.
Arguments windower A : clear implicits.

(** ** The machine *)

Record vadMachine := mkMachine {
  m_cfg : vadConfig;
  speaking : bool;
  silenceCount : Z;
  voicedCount : Z;
  turnEndFired : bool;
  windowIndex : Z;
  streamWindow : Z
}.
#[export] Instance vadMachine_eta : Eta vadMachine := fun m =>
  mkMachine (m_cfg m) (speaking m) (silenceCount m) (voicedCount m) (turnEndFired m)
    (windowIndex m) (streamWindow m).

Definition newVADMachine (cfg : vadConfig) : vadMachine :=
  mkMachine (withDefaults cfg) false 0 0 false 0 0.

Definition event (m : vadMachine) (kind : VADKind) (prob : gofloat) : VADEvent :=
  mkVADEvent kind prob (voicedCount m) (silenceCount m) (windowIndex m) (streamWindow m) "".

Definition vad_step (m : vadMachine) (prob : gofloat) : vadMachine * option VADEvent :=
  let m := m <| streamWindow ::= Z.succ |> in
  if negb (speaking m) then
    if f_ge prob (SpeechThresh (m_cfg m)) then
      let m := m <| speaking := true |> <| silenceCount := 0 |> <| voicedCount := 1 |>
                 <| turnEndFired := false |> <| windowIndex := 0 |> in
      (m, Some (event m VADSpeech prob))
    else if turnEndFired m || f_ge prob (SilenceThresh (m_cfg m)) then (m, None)
    else
      let m := m <| silenceCount ::= Z.succ |> <| windowIndex ::= Z.succ |> in
      if silenceCount m >=? windowsToCross (TurnEndSilenceMS (m_cfg m)) (windowMS (m_cfg m)) then
        let m := m <| turnEndFired := true |> in
        (m, Some (event m VADTurnEnd prob))
      else (m, None)
  else
    let m := m <| windowIndex ::= Z.succ |> in
    if f_ge prob (SpeechThresh (m_cfg m)) then
      (m <| silenceCount := 0 |> <| voicedCount ::= Z.succ |>, None)
    else if f_ge prob (SilenceThresh (m_cfg m)) then (m, None)
    else
      let m := m <| silenceCount ::= Z.succ |> in
      if silenceCount m >=? windowsToCross (EndSilenceMS (m_cfg m)) (windowMS (m_cfg m)) then
        let ev := event m VADEndOfUtterance prob in
        (m <| speaking := false |> <| voicedCount := 0 |>, Some ev)
      else if silenceCount m =? 1 then (m, Some (event m VADSilence prob))
      else (m, None).

(** The machine over a run of windows, with the event each one produced. *)
Fixpoint vad_run (m : vadMachine) (probs : list gofloat) : vadMachine * list (option VADEvent) :=
  match probs with
  | [] => (m, [])
  | p :: probs' =>
      let '(m1, ev) := vad_step m p in
      let '(m2, evs) := vad_run m1 probs' in (m2, ev :: evs)
  end.

(** ** [runVAD] and the relay *)

Section RunVAD.
Context {D : Type}.
(** [Detect] runs one inference; the detector may carry state. *)
Variable Detect : D -> list gofloat -> D * result gofloat.

(** The windows of one frame, in order; a detector error ends the run. *)
Fixpoint run_windows (d : D) (m : vadMachine) (wins : list (list gofloat))
  : D * vadMachine * list VADEvent * bool :=
  match wins with
  | [] => (d, m, [], true)
  | win :: wins' =>
      match Detect d win with
      | (d1, Ok prob) =>
          let '(m1, ev) := vad_step m prob in
          let '(d2, m2, evs, ok) := run_windows d1 m1 wins' in
          (d2, m2, (match ev with Some e => e :: evs | None => evs end), ok)
      | (d1, _) => (d1, m, [], false)
      end
  end.

(** The frames received until the input closes. *)
Fixpoint run_frames (d : D) (w : windower gofloat) (m : vadMachine) (frames : list bytes)
  : D * list VADEvent * bool :=
  match frames with
  | [] => (d, [], true)
  | frame :: frames' =>
      let '(w1, wins) := push w (decodeMuLaw frame) in
      match run_windows d m wins with
      | (d1, m1, evs, true) =>
          let '(d2, evs', ok) := run_frames d1 w1 m1 frames' in (d2, evs ++ evs', ok)
      | (d1, _, evs, false) => (d1, evs, false)
      end
  end.

Definition runVAD (d : D) (cfg : vadConfig) (frames : list bytes) : D * list VADEvent * bool :=
  let cfg := withDefaults cfg in
  run_frames d (newWindower (Z.to_nat (WindowSize cfg))) (newVADMachine cfg) frames.
End RunVAD.

(** The relay goroutine of [newVADService]. *)
Definition stamp (sessionID : string) (ev : VADEvent) : VADEvent :=
  mkVADEvent (Kind ev) (Prob ev) (VoicedCount ev) (SilenceCount ev) (WindowIndex ev)
    (StreamWindowIndex ev) sessionID.

(** ** Configuration facts *)

Lemma default_windows : EndSilenceWindows = 22 /\ TurnEndSilenceWindows = 157.
Proof. split; reflexivity. Qed.

(** A threshold of [t] ms is crossed at the first window count that covers it. *)
Lemma windowsToCross_spec t w :
  0 < w -> 0 <= t ->
  t <= windowsToCross t w * w /\ (0 < t -> (windowsToCross t w - 1) * w < t).
Proof.
  intros Hw Ht. unfold windowsToCross. destruct (Z.leb_spec w 0); [lia|].
  rewrite Z.quot_div_nonneg by lia.
  pose proof (Z.div_mod (t + w - 1) w ltac:(lia)).
  pose proof (Z.mod_pos_bound (t + w - 1) w Hw). nia.
Qed.

Lemma windowsToCross_pos t w : 0 < w -> 0 < t -> 0 < windowsToCross t w.
Proof. intros Hw Ht. pose proof (windowsToCross_spec t w Hw ltac:(lia)). nia. Qed.

Lemma windowsToCross_mono t1 t2 w :
  0 < w -> 0 <= t1 -> t1 + w <= t2 -> windowsToCross t1 w < windowsToCross t2 w.
Proof.
  intros Hw H1 H2.
  pose proof (windowsToCross_spec t1 w Hw H1). pose proof (windowsToCross_spec t2 w Hw ltac:(lia)).
  destruct (Z.eq_dec t1 0) as [->|]; [|nia].
  assert (windowsToCross 0 w = 0) as ->; [|nia].
  unfold windowsToCross. destruct (Z.leb_spec w 0); [done|].
  rewrite Z.quot_div_nonneg by lia. apply Z.div_small. lia.
Qed.

Definition cfg_ok (c : vadConfig) : Prop :=
  0 < WindowSize c /\ 0 < EndSilenceMS c /\ 0 < cfg_SampleRateHz c /\ 0 < TurnEndSilenceMS c /\
  f_le (SpeechThresh c) f_zero = false /\ f_le (SilenceThresh c) f_zero = false.

Lemma withDefaults_ok c : cfg_ok (withDefaults c).
Proof.
  unfold cfg_ok, withDefaults; simpl.
  split_and!; repeat case_match; zify_tests; try lia; done.
Qed.

Lemma withDefaults_id c : cfg_ok c -> withDefaults c = c.
Proof.
  intros (H1 & H2 & H3 & H4 & H5 & H6). destruct c; unfold withDefaults; simpl in *.
  rewrite H5, H6. repeat case_match; zify_tests; simpl in *; lia || done.
Qed.

(** Filling in defaults always gives a valid config, is idempotent, and leaves a config
    that is already valid unchanged. *)
Theorem withDefaults_total c :
  cfg_ok (withDefaults c) /\ withDefaults (withDefaults c) = withDefaults c /\
  (cfg_ok c -> withDefaults c = c).
Proof.
  split_and!; [apply withDefaults_ok | apply withDefaults_id, withDefaults_ok | apply withDefaults_id].
Qed.

Lemma withDefaults_total_witness :
  exists c, cfg_ok c /\ withDefaults c = c.
Proof.
  assert (cfg_ok (withDefaults defaultVADConfig)) as H by apply withDefaults_ok.
  exists (withDefaults defaultVADConfig). split; [exact H|].
  exact (proj2 (proj2 (withDefaults_total (withDefaults defaultVADConfig))) H).
Defined.

(** ** The windower *)

Section WindowerFacts.
Context {A : Type}.
Variable size : nat.
Hypothesis Hsize : (0 < size)%nat.

Lemma push_loop_spec fuel (b : list A) :
  (length b <= fuel)%nat ->
  let '(ws, rest) := push_loop fuel size b in
  mjoin ws ++ rest = b /\ Forall (fun w => length w = size) ws /\ (length rest < size)%nat.
Proof.
  revert b; induction fuel as [|fuel IH]; intros b Hb; simpl.
  - destruct b; simpl in *; [|lia]. split_and!; [done|constructor|lia].
  - case_decide as Hd.
    + specialize (IH (drop size b)). rewrite length_drop in IH.
      destruct (push_loop fuel size (drop size b)) as [ws rest].
      destruct IH as (E & HF & Hr); [lia|]. split_and!; [|constructor; [|done]|done].
      * simpl. rewrite <- app_assoc, E. apply take_drop.
      * rewrite length_take. lia.
    + split_and!; [done|constructor|lia].
Qed.

(** Two cuttings of the same samples into full windows and a short remainder
    are the same cutting. *)
Lemma cutting_unique (ws1 ws2 : list (list A)) r1 r2 :
  mjoin ws1 ++ r1 = mjoin ws2 ++ r2 ->
  Forall (fun w => length w = size) ws1 -> Forall (fun w => length w = size) ws2 ->
  (length r1 < size)%nat -> (length r2 < size)%nat -> ws1 = ws2 /\ r1 = r2.
Proof.
  revert ws2; induction ws1 as [|w1 ws1 IH]; intros [|w2 ws2] E F1 F2 L1 L2; simpl in *.
  - done.
  - apply Forall_cons in F2 as [F2 _]. apply (f_equal length) in E.
    rewrite !length_app in E. lia.
  - apply Forall_cons in F1 as [F1 _]. apply (f_equal length) in E.
    rewrite !length_app in E. lia.
  - apply Forall_cons in F1 as [F1 F1']. apply Forall_cons in F2 as [F2 F2'].
    rewrite <- !app_assoc in E. apply app_inj_1 in E as [-> E]; [|lia].
    destruct (IH ws2 E F1' F2' L1 L2) as [-> ->]. done.
Qed.

Definition w_wf (w : windower A) : Prop := w_size w = size /\ (length (w_buf w) < size)%nat.

Lemma push_spec w samples :
  w_wf w ->
  let '(w', ws) := push w samples in
  w_wf w' /\ mjoin ws ++ w_buf w' = w_buf w ++ samples /\ Forall (fun x => length x = size) ws.
Proof.
  intros [Hs Hb]. unfold push. rewrite Hs.
  pose proof (push_loop_spec (length (w_buf w ++ samples)) (w_buf w ++ samples) ltac:(lia)) as H.
  destruct (push_loop _ size _) as [ws rest]. destruct H as (E & HF & Hr).
  split_and!; [split; [reflexivity|done]|exact E|done].
Qed.

Lemma push_all_spec frames : forall w,
  w_wf w ->
  let '(w', ws) := push_all w frames in
  w_wf w' /\ mjoin ws ++ w_buf w' = w_buf w ++ mjoin frames /\
  Forall (fun x => length x = size) ws.
Proof.
  induction frames as [|f frames IH]; intros w Hw; simpl.
  - rewrite app_nil_r. split_and!; [done|done|constructor].
  - pose proof (push_spec w f Hw) as Hp. destruct (push w f) as [w1 ws1].
    destruct Hp as (Hw1 & E1 & F1). specialize (IH w1 Hw1).
    destruct (push_all w1 frames) as [w2 ws2]. destruct IH as (Hw2 & E2 & F2).
    split_and!; [done| |by apply Forall_app].
    rewrite join_app, <- app_assoc, E2, app_assoc, E1, <- app_assoc. done.
Qed.
End WindowerFacts.

(** Pushing frame by frame cuts the same windows as pushing their concatenation. *)
Lemma push_all_join {A} (size : nat) (frames : list (list A)) :
  (0 < size)%nat -> push_all (newWindower size) frames = push (newWindower size) (mjoin frames).
Proof.
  intros Hs. assert (w_wf size (@newWindower A size)) as Hw by (split; simpl; [done|lia]).
  pose proof (push_all_spec size Hs frames _ Hw) as H1.
  pose proof (push_spec size Hs _ (mjoin frames) Hw) as H2.
  destruct (push_all _ frames) as [[n1 b1] ws1], (push _ (mjoin frames)) as [[n2 b2] ws2].
  destruct H1 as ([S1 L1] & E1 & F1), H2 as ([S2 L2] & E2 & F2). simpl in *.
  destruct (cutting_unique size Hs ws1 ws2 b1 b2) as [-> ->]; congruence || done.
Qed.

(** The windower cuts the samples into windows of exactly its size, in order and
    without loss, keeps a remainder shorter than a window, and gives the same windows
    however the samples were delivered. *)
Theorem windower_segmentation {A} (size : nat) (frames : list (list A)) :
  (0 < size)%nat ->
  push_all (newWindower size) frames = push (newWindower size) (mjoin frames) /\
  let '(w, ws) := push (newWindower size) (mjoin frames) in
  mjoin ws ++ w_buf w = mjoin frames /\
  Forall (fun x => length x = size) ws /\ (length (w_buf w) < size)%nat.
Proof.
  intros Hs. split; [by apply push_all_join|].
  pose proof (push_spec size Hs (newWindower size) (mjoin frames)) as H.
  destruct (push _ (mjoin frames)) as [w ws].
  destruct H as ([_ L] & E & F); [split; simpl; [done|lia]|done].
Qed.

Lemma windower_segmentation_witness :
  push_all (newWindower 2) [[1]; [2; 3]; [4; 5; 6]] = push (newWindower 2) [1; 2; 3; 4; 5; 6].
Proof. apply (windower_segmentation 2 [[1]; [2; 3]; [4; 5; 6]]). lia. Defined.

(** ** The decode is exactly [sample / 32768], within [-1, 1] *)

Definition f32_one : gofloat := f_of_Z binary32 1.
Definition f32_minus_one : gofloat := f_of_Z binary32 (-1).

Lemma decodeMuLaw_range frame :
  wf_bytes frame ->
  Forall (fun x => f_le f32_minus_one x = true /\ f_le x f32_one = true) (decodeMuLaw frame).
Proof.
  intros Hwf. unfold decodeMuLaw. apply Forall_forall. intros x Hx.
  apply list_elem_of_In, in_map_iff in Hx as (b & <- & Hb). apply list_elem_of_In in Hb.
  pose proof (proj1 (Forall_forall _ _) Hwf b Hb) as Hbyte.
  pose proof (check_all_spec (fun b =>
      let x := f_div binary32 (f_of_Z binary32 (muLawToLinear b)) (f_of_Z binary32 32768) in
      f_le f32_minus_one x && f_le x f32_one) ltac:(vm_compute; reflexivity) b Hbyte) as H.
  by apply andb_prop in H.
Qed.

(** ** The specification of the machine

    The abstract state is whether any speech has been heard, and how many
    silence windows there have been since the last window of clear speech. *)

Inductive vclass := Speech | DeadZone | Quiet.

Definition classify (c : vadConfig) (p : gofloat) : vclass :=
  if f_ge p (SpeechThresh c) then Speech
  else if f_ge p (SilenceThresh c) then DeadZone else Quiet.

Record vspec := mkVspec { heard : bool; run : Z }.

Section VadSpec.
Variables We Wt : Z.

Definition spec_speaking (s : vspec) : bool := heard s && (run s <? We).

Definition spec_step (s : vspec) (c : vclass) : vspec * option VADKind :=
  match c with
  | Speech => (mkVspec true 0, if spec_speaking s then None else Some VADSpeech)
  | DeadZone => (s, None)
  | Quiet =>
      let n := run s + 1 in
      (mkVspec (heard s) n,
        if spec_speaking s then
          if n =? We then Some VADEndOfUtterance
          else if n =? 1 then Some VADSilence else None
        else if n =? Wt then Some VADTurnEnd else None)
  end.

Fixpoint spec_run (s : vspec) (cs : list vclass) : vspec * list (option VADKind) :=
  match cs with
  | [] => (s, [])
  | c :: cs' =>
      let '(s1, k) := spec_step s c in
      let '(s2, ks) := spec_run s1 cs' in (s2, k :: ks)
  end.
End VadSpec.

Definition We_of (c : vadConfig) : Z := windowsToCross (EndSilenceMS c) (windowMS c).
Definition Wt_of (c : vadConfig) : Z := windowsToCross (TurnEndSilenceMS c) (windowMS c).

(** The relation between the machine's fields and the abstract state.  Once the
    turn end has fired the machine stops counting; the specification does not. *)
Definition vad_refines (m : vadMachine) (s : vspec) : Prop :=
  speaking m = spec_speaking (We_of (m_cfg m)) s /\
  0 <= run s /\
  silenceCount m = Z.min (run s) (Wt_of (m_cfg m)) /\
  turnEndFired m = (Wt_of (m_cfg m) <=? run s).

Lemma vad_refines_init cfg :
  0 < We_of (withDefaults cfg) -> 0 < Wt_of (withDefaults cfg) ->
  vad_refines (newVADMachine cfg) (mkVspec false 0).
Proof.
  intros He Ht. unfold vad_refines, newVADMachine, spec_speaking; simpl.
  split_and!; [done|lia|lia|]. symmetry. apply Z.leb_gt. lia.
Qed.

Lemma vad_step_cfg m p : m_cfg (fst (vad_step m p)) = m_cfg m.
Proof. unfold vad_step. repeat case_match; reflexivity. Qed.

Lemma vad_step_refines m p s :
  0 < We_of (m_cfg m) < Wt_of (m_cfg m) -> vad_refines m s ->
  vad_refines (fst (vad_step m p)) (fst (spec_step (We_of (m_cfg m)) (Wt_of (m_cfg m)) s (classify (m_cfg m) p))) /\
  (Kind <$> snd (vad_step m p)) =
    snd (spec_step (We_of (m_cfg m)) (Wt_of (m_cfg m)) s (classify (m_cfg m) p)).
Proof.
  intros HW (Hsp & Hrun & Hsil & Hte). unfold vad_refines at 1. rewrite vad_step_cfg.
  destruct m as [cfg sp sil vc te wi sw], s as [h n]; simpl in *.
  unfold vad_refines, vad_step, classify, spec_step, spec_speaking in *; simpl in *.
  subst sp sil te.
  destruct (f_ge p (SpeechThresh cfg)) eqn:E1, (f_ge p (SilenceThresh cfg)) eqn:E2, h,
    (Z.ltb_spec n (We_of cfg)), (Z.leb_spec (Wt_of cfg) n); simpl in *; try lia;
    usimpl; rewrite ?E1, ?E2; simpl; unfold We_of, Wt_of in *; simpl in *;
    decide_Z; simpl; (split; [split_and!|]); decide_Z; try lia; reflexivity.
Qed.

Lemma vad_run_refines m s probs :
  0 < We_of (m_cfg m) < Wt_of (m_cfg m) -> vad_refines m s ->
  let '(m', evs) := vad_run m probs in
  let '(s', ks) := spec_run (We_of (m_cfg m)) (Wt_of (m_cfg m)) s (map (classify (m_cfg m)) probs) in
  vad_refines m' s' /\ map (fmap Kind) evs = ks.
Proof.
  intros HW. revert m s HW; induction probs as [|p probs IH]; intros m s HW Hr; [done|].
  cbn [vad_run map spec_run].
  pose proof (vad_step_refines m p s HW Hr) as [Hr1 Hk]. pose proof (vad_step_cfg m p) as Hc.
  destruct (vad_step m p) as [m1 ev], (spec_step _ _ s _) as [s1 k]; simpl in *.
  specialize (IH m1 s1). rewrite Hc in IH. specialize (IH HW Hr1).
  destruct (vad_run m1 probs) as [m2 evs], (spec_run _ _ s1 _) as [s2 ks].
  destruct IH as [IH1 IH2]. split; [done|]. simpl. congruence.
Qed.

(** With the end-of-utterance threshold below the turn-end threshold, the machine emits
    at every window exactly the event of a two-variable specification (has the caller ever
    spoken; length of the current silence), and its flags and counters are functions of
    those variables. *)
Theorem vad_machine_refines cfg probs :
  let c := withDefaults cfg in
  0 < We_of c < Wt_of c ->
  let '(m, evs) := vad_run (newVADMachine cfg) probs in
  let '(s, kinds) := spec_run (We_of c) (Wt_of c) (mkVspec false 0) (map (classify c) probs) in
  vad_refines m s /\ map (fmap Kind) evs = kinds.
Proof.
  intros c HW. apply (vad_run_refines (newVADMachine cfg)); [exact HW|].
  apply vad_refines_init; fold c; lia.
Qed.

Lemma vad_machine_refines_witness :
  let c := withDefaults defaultVADConfig in
  0 < We_of c < Wt_of c /\
  let probs := f32_0_5 :: replicate 22 f_zero in
  let '(m, evs) := vad_run (newVADMachine defaultVADConfig) probs in
  let '(s, kinds) := spec_run (We_of c) (Wt_of c) (mkVspec false 0) (map (classify c) probs) in
  vad_refines m s /\ map (fmap Kind) evs = kinds.
Proof.
  split; [vm_compute; done|].
  exact (vad_machine_refines defaultVADConfig (f32_0_5 :: replicate 22 f_zero)
    ltac:(vm_compute; done)).
Defined.

(** ** Consequences of the refinement *)

(** The audio clock: the event of the [i]-th window (from 0) carries [i + 1]. *)
Lemma vad_step_clock m p :
  streamWindow (fst (vad_step m p)) = streamWindow m + 1 /\
  forall ev, snd (vad_step m p) = Some ev -> StreamWindowIndex ev = streamWindow m + 1.
Proof.
  destruct m. unfold vad_step. usimpl.
  repeat case_match; simpl; (split; [lia|]); intros ev [=]; subst; simpl; lia.
Qed.

Lemma vad_run_clock probs : forall m i ev,
  snd (vad_run m probs) !! i = Some (Some ev) ->
  StreamWindowIndex ev = streamWindow m + Z.of_nat i + 1.
Proof.
  induction probs as [|p probs IH]; intros m i ev; [done|].
  cbn [vad_run]. pose proof (vad_step_clock m p) as [Hc He].
  specialize (IH (fst (vad_step m p))).
  destruct (vad_step m p) as [m1 e1]; cbn [fst snd] in *.
  destruct (vad_run m1 probs) as [m2 evs]; cbn [snd] in *.
  destruct i as [|i]; simpl; intros H.
  - injection H as ->. rewrite (He ev eq_refl). lia.
  - rewrite (IH i ev H). lia.
Qed.

(** The StreamWindowIndex of an event is the number of windows processed, the current
    one included: an event of the first window carries 1. *)
Theorem vad_stream_clock cfg probs i ev :
  snd (vad_run (newVADMachine cfg) probs) !! i = Some (Some ev) ->
  StreamWindowIndex ev = Z.of_nat i + 1.
Proof. intros H. rewrite (vad_run_clock _ _ _ _ H). simpl. lia. Qed.

Lemma vad_stream_clock_witness :
  exists ev, snd (vad_run (newVADMachine defaultVADConfig) [f32_0_5]) !! 0%nat = Some (Some ev) /\
    StreamWindowIndex ev = 1.
Proof.
  eexists. split; [vm_compute; reflexivity|].
  apply (vad_stream_clock defaultVADConfig [f32_0_5] 0). vm_compute. reflexivity.
Defined.

(** The order in which the kinds of event can follow one another: an utterance
    opens, may report silences, closes once; a turn end comes only between
    utterances and at most once before the next one opens. *)
Inductive vad_protocol : bool -> bool -> list VADKind -> Prop :=
| vp_nil sp fired : vad_protocol sp fired []
| vp_speech fired ks : vad_protocol true false ks -> vad_protocol false fired (VADSpeech :: ks)
| vp_silence ks : vad_protocol true false ks -> vad_protocol true false (VADSilence :: ks)
| vp_eou ks : vad_protocol false false ks -> vad_protocol true false (VADEndOfUtterance :: ks)
| vp_turn_end ks : vad_protocol false true ks -> vad_protocol false false (VADTurnEnd :: ks).
#[local] Hint Constructors vad_protocol : core.

Definition somes {A} (l : list (option A)) : list A := omap id l.

Lemma spec_run_protocol We Wt cs : forall s,
  0 < We < Wt -> 0 <= run s ->
  vad_protocol (spec_speaking We s) (Wt <=? run s) (somes (snd (spec_run We Wt s cs))).
Proof.
  induction cs as [|c cs IH]; intros [h n] HW Hn; [constructor|].
  cbn [spec_run]. pose proof (IH (fst (spec_step We Wt (mkVspec h n) c)) HW) as IH'.
  destruct c; cbn [spec_step fst run heard] in *.
  - specialize (IH' ltac:(simpl; lia)). destruct (spec_run We Wt (mkVspec true 0) cs) as [s2 ks].
    unfold spec_speaking in *; simpl in *.
    destruct (Z.ltb_spec 0 We), (Z.leb_spec Wt 0); try lia; simpl in *.
    destruct h, (Z.ltb_spec n We), (Z.leb_spec Wt n); try lia; simpl; auto.
  - specialize (IH' ltac:(simpl; lia)). destruct (spec_run We Wt _ cs) as [s2 ks]. exact IH'.
  - specialize (IH' ltac:(simpl; lia)). destruct (spec_run We Wt (mkVspec h (n + 1)) cs) as [s2 ks].
    unfold spec_speaking in *; simpl in *.
    destruct h, (Z.ltb_spec n We), (Z.leb_spec Wt n), (Z.ltb_spec (n + 1) We),
      (Z.leb_spec Wt (n + 1)), (Z.eqb_spec (n + 1) We), (Z.eqb_spec (n + 1) Wt),
      (Z.eqb_spec (n + 1) 1); try lia; simpl in *; auto.
Qed.

Lemma somes_map {A B} (f : A -> B) (l : list (option A)) :
  somes (map (fmap f) l) = map f (somes l).
Proof. induction l as [|[x|] l IH]; simpl; [done| |done]. by rewrite <- IH. Qed.

(** For every sequence of probabilities the kinds of event follow the protocol: speech,
    then a silence onset, then either resumed speech or the end of the utterance, and one
    turn end per silence. *)
Theorem vad_event_protocol cfg probs :
  let c := withDefaults cfg in
  0 < We_of c < Wt_of c ->
  vad_protocol false false (map Kind (somes (snd (vad_run (newVADMachine cfg) probs)))).
Proof.
  intros c HW.
  pose proof (vad_run_refines (newVADMachine cfg) (mkVspec false 0) probs HW
    (vad_refines_init cfg ltac:(fold c; lia) ltac:(fold c; lia))) as H.
  pose proof (spec_run_protocol (We_of c) (Wt_of c) (map (classify c) probs) (mkVspec false 0) HW
    ltac:(simpl; lia)) as Hp.
  change (m_cfg (newVADMachine cfg)) with c in H.
  destruct (vad_run _ probs) as [m evs], (spec_run _ _ _ _) as [s ks]. destruct H as [_ <-].
  rewrite <- somes_map. simpl in *.
  destruct (Z.leb_spec (Wt_of c) 0); [lia|exact Hp].
Qed.

Lemma vad_event_protocol_witness :
  vad_protocol false false
    (map Kind (somes (snd (vad_run (newVADMachine defaultVADConfig) [f32_0_5; f_zero; f32_0_5])))).
Proof. apply vad_event_protocol. vm_compute. done. Defined.

(** If every window from the start is silent, the machine emits exactly one event at
    the turn-end threshold, a turn end, although nobody has spoken. *)
Theorem vad_turn_end_without_speech cfg probs :
  let c := withDefaults cfg in
  0 < We_of c < Wt_of c ->
  Z.of_nat (length probs) = Wt_of c ->
  Forall (fun p => classify c p = Quiet) probs ->
  exists ev, somes (snd (vad_run (newVADMachine cfg) probs)) = [ev] /\ Kind ev = VADTurnEnd.
Proof.
  intros c HW Hlen Hq.
  pose proof (vad_run_refines (newVADMachine cfg) (mkVspec false 0) probs HW
    (vad_refines_init cfg ltac:(fold c; lia) ltac:(fold c; lia))) as H.
  change (m_cfg (newVADMachine cfg)) with c in H.
  assert (forall n cs, Forall (eq Quiet) cs -> 0 <= n -> n + Z.of_nat (length cs) = Wt_of c ->
    cs <> [] -> somes (snd (spec_run (We_of c) (Wt_of c) (mkVspec false n) cs)) = [VADTurnEnd]) as Hs.
  { intros n cs Hcs. revert n; induction Hcs as [|? cs <- Hcs IH]; intros n Hn Hl Hne; [done|].
    cbn [spec_run spec_step spec_speaking heard run andb].
    specialize (IH (n + 1)). cbn [length] in Hl.
    destruct (Z.eqb_spec (n + 1) (Wt_of c)).
    - destruct cs; [done|simpl in Hl; lia].
    - destruct (spec_run _ _ (mkVspec false (n + 1)) cs) as [s2 ks]. simpl in *.
      apply IH; [lia|lia|]. intros ->. simpl in *. lia. }
  specialize (Hs 0 (map (classify c) probs)).
  destruct (vad_run _ probs) as [m evs], (spec_run _ _ _ _) as [s ks]. destruct H as [_ <-].
  simpl in *. rewrite somes_map in Hs.
  assert (map Kind (somes evs) = [VADTurnEnd]) as E.
  { apply Hs; [|lia|rewrite length_map; lia|].
    - apply Forall_map. eapply Forall_impl; [exact Hq|]. by intros ? ->.
    - destruct probs; simpl in *; [lia|done]. }
  destruct (somes evs) as [|ev [|]]; simpl in *; try discriminate. injection E as E. eauto.
Qed.

Lemma vad_turn_end_without_speech_witness :
  exists ev, somes (snd (vad_run (newVADMachine defaultVADConfig) (replicate 157 f_zero))) = [ev] /\
    Kind ev = VADTurnEnd.
Proof.
  apply vad_turn_end_without_speech; [vm_compute; done|vm_compute; done|].
  apply Forall_replicate. reflexivity.
Defined.

(** ** [runVAD] depends on the audio, not on how it was framed *)

Section RunVADFacts.
Context {D : Type}.
Variable Detect : D -> list gofloat -> D * result gofloat.

Lemma run_windows_app d m ws1 ws2 :
  run_windows Detect d m (ws1 ++ ws2) =
  match run_windows Detect d m ws1 with
  | (d1, m1, evs1, true) =>
      let '(d2, m2, evs2, ok) := run_windows Detect d1 m1 ws2 in (d2, m2, evs1 ++ evs2, ok)
  | r => r
  end.
Proof.
  revert d m; induction ws1 as [|w ws1 IH]; intros d m; simpl.
  - by destruct (run_windows Detect d m ws2) as [[[d2 m2] evs2] ok].
  - destruct (Detect d w) as [d1 [p|e|e]]; [|done|done].
    destruct (vad_step m p) as [m1 [ev|]]; rewrite IH;
      destruct (run_windows Detect d1 m1 ws1) as [[[d2 m2] evs1] []];
      try destruct (run_windows Detect d2 m2 ws2) as [[[d3 m3] evs2] ok]; done.
Qed.

Lemma run_frames_windows frames : forall d w m,
  run_frames Detect d w m frames =
  let '(d', _, evs, ok) :=
    run_windows Detect d m (snd (push_all w (map decodeMuLaw frames))) in (d', evs, ok).
Proof.
  induction frames as [|f frames IH]; intros d w m; [done|].
  cbn [run_frames map push_all].
  destruct (push w (decodeMuLaw f)) as [w1 ws1]. specialize (fun d m => IH d w1 m).
  destruct (push_all w1 (map decodeMuLaw frames)) as [w2 ws2]. cbn [snd] in *.
  rewrite run_windows_app.
  destruct (run_windows Detect d m ws1) as [[[d1 m1] evs1] []]; [|done].
  rewrite IH. by destruct (run_windows Detect d1 m1 ws2) as [[[d2 m2] evs2] ok].
Qed.
End RunVADFacts.

Lemma mjoin_decode frames : mjoin (map decodeMuLaw frames) = decodeMuLaw (mjoin frames).
Proof.
  induction frames as [|f frames IH]; [done|].
  change (mjoin (map decodeMuLaw (f :: frames)))
    with (decodeMuLaw f ++ mjoin (map decodeMuLaw frames)).
  rewrite IH. symmetry. apply map_app.
Qed.

(** How the audio is cut into frames does not matter: two frame sequences with the same
    bytes give the same events and detector states. *)
Theorem runVAD_framing_independent {D} (Detect : D -> list gofloat -> D * result gofloat)
    d cfg frames1 frames2 :
  mjoin frames1 = mjoin frames2 ->
  runVAD Detect d cfg frames1 = runVAD Detect d cfg frames2.
Proof.
  intros E. unfold runVAD. rewrite !run_frames_windows.
  pose proof (withDefaults_ok cfg) as (Hs & _).
  by rewrite !push_all_join, !mjoin_decode, E by lia.
Qed.

Lemma runVAD_framing_independent_witness :
  let Detect := fun (n : Z) (_ : list gofloat) => (n + 1, Ok f32_0_5) in
  runVAD Detect 0 defaultVADConfig [replicate 160 255; replicate 160 255] =
  runVAD Detect 0 defaultVADConfig [replicate 320 255].
Proof. apply runVAD_framing_independent. reflexivity. Defined.
