(* ===== verification/Timer.v ===== *)
(** * Timer: the named-timer facility

    Models [telephony/timer.go].  [facility] is the state the facility's [run]
    loop owns, with its timer goroutines and its completions channel; the
    [handle*] functions are the loop's command handlers and [tstep] the
    interleaving of client calls, firing goroutines and deliveries.  The
    duration of a timer is carried but time does not pass in the model: any
    live timer may fire at any moment, which covers every clock.

    [TimerOps] and [TimerLaws] are what the facility promises the session; the
    session's theorems are proved against them and [facility_laws] discharges
    them.  The completions channel has capacity 1 and [run] blocks on it, so a
    client that calls the facility instead of draining it can block for good:
    [timer_deadlock]. *)

From S2P Require Export Prelude.

Record completion := mkCompletion { c_name : string; c_id : Z; c_duration : Z }.

Definition maxSettledTimers : nat := 1024.

(** [g_cancelled] is the goroutine's own context being done. *)
Record goroutine := mkGoroutine { g_name : string; g_duration : Z; g_cancelled : bool }.

Record facility := mkFacility {
  nextTimerID : Z;
  activeTimers : gmap string Z;
  cancelFuncs : gmap string Z;
  settledTimers : list (string * Z);
  goroutines : gmap Z goroutine;
  completions : list completion;
  blocked : option completion
}.
#[export] Instance facility_eta : Eta facility := fun t =>
  mkFacility (nextTimerID t) (activeTimers t) (cancelFuncs t) (settledTimers t)
    (goroutines t) (completions t) (blocked t).

Definition NewTimerFacility : facility := mkFacility 1 ∅ ∅ [] ∅ [] None.

(** ** The command handlers *)

Definition cancel_goroutine (g : Z) (t : facility) : facility :=
  t <| goroutines ::= alter (fun r => mkGoroutine (g_name r) (g_duration r) true) g |>.

(** [if cancelFunc, exists := tf.cancelFuncs[name]; exists { cancelFunc(); delete }]. *)
Definition cancel_existing (name : string) (t : facility) : facility :=
  match cancelFuncs t !! name with
  | Some g => cancel_goroutine g t <| cancelFuncs ::= delete name |>
  | None => t
  end.

Definition handleArm (name : string) (duration : Z) (t : facility) : Z * facility :=
  let t := cancel_existing name t in
  let t := t <| nextTimerID ::= Z.succ |> in
  let timerId := nextTimerID t in
  (timerId,
   t <| activeTimers ::= <[name := timerId]> |>
     <| cancelFuncs ::= <[name := timerId]> |>
     <| goroutines ::= <[timerId := mkGoroutine name duration false]> |>).

Definition handleCancel (name : string) (t : facility) : facility :=
  cancel_existing name t <| activeTimers ::= delete name |>.

(** A missing map entry reads as 0, which is never a generation. *)
Definition handleIsCurrent (name : string) (timerID : Z) (t : facility) : bool :=
  default 0 (activeTimers t !! name) =? timerID.

Fixpoint evict_loop (fuel : nat) (settled : list (string * Z)) (active : gmap string Z)
  : list (string * Z) * gmap string Z :=
  match fuel, settled with
  | S fuel', (name, gen) :: rest =>
      if decide (maxSettledTimers < length settled)%nat then
        evict_loop fuel' rest
          (if default 0 (active !! name) =? gen then delete name active else active)
      else (settled, active)
  | _, _ => (settled, active)
  end.

Definition evictSettledTimers (t : facility) : facility :=
  let '(s, a) := evict_loop (length (settledTimers t)) (settledTimers t) (activeTimers t) in
  t <| settledTimers := s |> <| activeTimers := a |>.

(** The send on the channel of capacity 1: [run] blocks when it is full. *)
Definition send_completion (c : completion) (t : facility) : facility :=
  match chan_try_send 1 c (completions t) with
  | Some ch => t <| completions := ch |>
  | None => t <| blocked := Some c |>
  end.

Definition handleFireTimerIfCurrent (name : string) (timerID duration : Z) (t : facility) : facility :=
  if handleIsCurrent name timerID t then
    let t := t <| settledTimers ::= fun l => l ++ [(name, timerID)] |> in
    let t := evictSettledTimers t in
    let t := t <| cancelFuncs ::= delete name |> in
    send_completion (mkCompletion name timerID duration) t
  else t.

(** The consumer takes the oldest completion; a blocked send then completes. *)
Definition recv_completion (t : facility) : option (completion * facility) :=
  match completions t with
  | [] => None
  | c :: rest =>
      Some (c, t <| completions := rest ++ option_list (blocked t) |> <| blocked := None |>)
  end.

(** ** Interleaving *)

Inductive tlabel :=
| LArm (name : string) (duration : Z)
| LCancel (name : string)
| LFire (g : Z)
| LExit (g : Z)
| LRecv (c : completion).

(** Commands are received only while [run] is not blocked in its send.  A
    goroutine whose duration has elapsed sends its fire command, even one whose
    context has been cancelled meanwhile (select picks any ready case), and is
    gone; a cancelled one may also just exit. *)
Inductive tstep : tlabel -> facility -> facility -> Prop :=
| ts_arm name d t : blocked t = None -> tstep (LArm name d) t (snd (handleArm name d t))
| ts_cancel name t : blocked t = None -> tstep (LCancel name) t (handleCancel name t)
| ts_fire g r t : blocked t = None -> goroutines t !! g = Some r ->
    tstep (LFire g) t
      (handleFireTimerIfCurrent (g_name r) g (g_duration r) (t <| goroutines ::= delete g |>))
| ts_exit g r t : goroutines t !! g = Some r -> g_cancelled r = true ->
    tstep (LExit g) t (t <| goroutines ::= delete g |>)
| ts_recv c t t' : recv_completion t = Some (c, t') -> tstep (LRecv c) t t'.

Inductive treach : list tlabel -> facility -> Prop :=
| treach_init : treach [] NewTimerFacility
| treach_step ls l t t' : treach ls t -> tstep l t t' -> treach (ls ++ [l]) t'.

(** ** The interface the session uses *)

Class TimerOps (T : Type) := {
  t_arm : string -> Z -> T -> T;
  t_cancel : string -> T -> T;
  t_isCurrent : completion -> T -> bool;
  t_recv : T -> option (completion * T);
  (** The timer is running, or has fired and its completion will be accepted. *)
  t_pending : string -> T -> bool;
  (** What the facility's own goroutines may do between two client calls. *)
  t_env : T -> T -> Prop;
  t_ok : T -> Prop;
}.

Class TimerLaws (T : Type) `{TimerOps T} := {
  ok_arm n d t : t_ok t -> t_ok (t_arm n d t);
  ok_cancel n t : t_ok t -> t_ok (t_cancel n t);
  ok_env t t' : t_ok t -> t_env t t' -> t_ok t';
  ok_recv t c t' : t_ok t -> t_recv t = Some (c, t') -> t_ok t';
  pending_arm n d m t : t_ok t ->
    t_pending m (t_arm n d t) = bool_decide (m = n) || t_pending m t;
  pending_cancel n m t : t_ok t ->
    t_pending m (t_cancel n t) = negb (bool_decide (m = n)) && t_pending m t;
  pending_env m t t' : t_ok t -> t_env t t' -> t_pending m t' = t_pending m t;
  pending_recv_ne t c t' m : t_ok t -> t_recv t = Some (c, t') -> m <> c_name c ->
    t_pending m t' = t_pending m t;
  pending_recv_stale t c t' m : t_ok t -> t_recv t = Some (c, t') -> t_isCurrent c t' = false ->
    t_pending m t' = t_pending m t;
  current_was_pending t c t' : t_ok t -> t_recv t = Some (c, t') -> t_isCurrent c t' = true ->
    t_pending (c_name c) t = true /\ t_pending (c_name c) t' = false;
}.

Definition undelivered (t : facility) : list completion :=
  completions t ++ option_list (blocked t).

Definition isCurrent (c : completion) (t : facility) : bool := handleIsCurrent (c_name c) (c_id c) t.

Definition pending (name : string) (t : facility) : bool :=
  bool_decide (is_Some (cancelFuncs t !! name)) ||
  existsb (fun c => bool_decide (c_name c = name) && isCurrent c t) (undelivered t).

Inductive tenv : facility -> facility -> Prop :=
| tenv_fire g t t' : tstep (LFire g) t t' -> tenv t t'
| tenv_exit g t t' : tstep (LExit g) t t' -> tenv t t'.

(** ** The facility's invariant *)

Definition key (c : completion) : string * Z := (c_name c, c_id c).

Record wf (t : facility) : Prop := {
  wf_next : 1 <= nextTimerID t;
  wf_active : forall n g, activeTimers t !! n = Some g -> 2 <= g <= nextTimerID t;
  wf_gor : forall g r, goroutines t !! g = Some r -> 2 <= g <= nextTimerID t;
  wf_settled : forall n g, (n, g) ∈ settledTimers t -> 2 <= g <= nextTimerID t;
  (** an armed timer is current, and its goroutine runs *)
  wf_armed : forall n g, cancelFuncs t !! n = Some g ->
    activeTimers t !! n = Some g /\ exists d, goroutines t !! g = Some (mkGoroutine n d false);
  (** a current generation is armed or has fired *)
  wf_source : forall n g, activeTimers t !! n = Some g ->
    cancelFuncs t !! n = Some g \/ (n, g) ∈ settledTimers t;
  wf_live : forall g r, goroutines t !! g = Some r -> g_cancelled r = false ->
    cancelFuncs t !! g_name r = Some g;
  wf_dead : forall g r, goroutines t !! g = Some r -> g_cancelled r = true ->
    activeTimers t !! g_name r <> Some g;
  wf_nodup : NoDup (settledTimers t).*2;
  wf_disjoint : forall n g, (n, g) ∈ settledTimers t -> goroutines t !! g = None;
  wf_bound : (length (settledTimers t) <= maxSettledTimers)%nat;
  wf_suffix : exists pre, settledTimers t = pre ++ map key (undelivered t);
  wf_chan : (length (completions t) <= 1)%nat /\ (blocked t <> None -> completions t <> []);
}.

Lemma wf_init : wf NewTimerFacility.
Proof.
  split; simpl; try set_solver; try lia; try (intros; by simplify_map_eq).
  - constructor.
  - exists []. done.
Qed.

Lemma isCurrent_spec c t : 2 <= c_id c ->
  isCurrent c t = true <-> activeTimers t !! c_name c = Some (c_id c).
Proof.
  intros Hid. unfold isCurrent, handleIsCurrent. rewrite Z.eqb_eq.
  destruct (activeTimers t !! c_name c); simpl; split; intros; congruence || lia.
Qed.

Lemma undelivered_settled t c : wf t -> c ∈ undelivered t -> key c ∈ settledTimers t.
Proof.
  intros Hwf Hc. destruct (wf_suffix t Hwf) as [pre ->].
  apply elem_of_app. right. by apply list_elem_of_In, in_map, list_elem_of_In.
Qed.

Lemma undelivered_id t c : wf t -> c ∈ undelivered t -> 2 <= c_id c <= nextTimerID t.
Proof. intros Hwf Hc. by eapply (wf_settled t Hwf), (undelivered_settled t c). Qed.

(** A fired generation is no longer armed. *)
Lemma settled_not_armed t n g m : wf t -> (n, g) ∈ settledTimers t -> cancelFuncs t !! m <> Some g.
Proof.
  intros Hwf Hs Ha. destruct (wf_armed t Hwf _ _ Ha) as (_ & d & Hg).
  by rewrite (wf_disjoint t Hwf _ _ Hs) in Hg.
Qed.

(** *** Cancel and arm *)

Lemma cancel_existing_fields n t :
  activeTimers (cancel_existing n t) = activeTimers t /\
  settledTimers (cancel_existing n t) = settledTimers t /\
  nextTimerID (cancel_existing n t) = nextTimerID t /\
  completions (cancel_existing n t) = completions t /\
  blocked (cancel_existing n t) = blocked t /\
  cancelFuncs (cancel_existing n t) = delete n (cancelFuncs t).
Proof.
  unfold cancel_existing. destruct (cancelFuncs t !! n) eqn:E; [split_and!; reflexivity|].
  split_and!; try reflexivity. by rewrite delete_id.
Qed.

(** Which goroutines [cancel_existing] touches: the armed one of that name. *)
Lemma cancel_existing_gor n t g :
  wf t ->
  goroutines (cancel_existing n t) !! g =
  (fun r => if bool_decide (g_name r = n) then mkGoroutine n (g_duration r) true else r)
    <$> goroutines t !! g.
Proof.
  intros Hwf. unfold cancel_existing, cancel_goroutine.
  destruct (cancelFuncs t !! n) as [g0|] eqn:E.
  - usimpl. destruct (wf_armed t Hwf _ _ E) as (_ & d & Hg0). rewrite lookup_alter.
    case_decide as Hd; subst; [rewrite Hg0; simpl; by rewrite bool_decide_true|].
    destruct (goroutines t !! g) as [r|] eqn:Hg; [|done]. simpl. f_equal.
    destruct r as [m dr []]; simpl; case_bool_decide; subst; try done.
    pose proof (wf_live t Hwf _ _ Hg eq_refl). simpl in *. congruence.
  - destruct (goroutines t !! g) as [r|] eqn:Hg; [|done]. simpl. f_equal.
    destruct r as [m dr []]; simpl; case_bool_decide; subst; try done.
    pose proof (wf_live t Hwf _ _ Hg eq_refl). simpl in *. congruence.
Qed.

Ltac tf_cases :=
  repeat match goal with
  | H : context [<[_ := _]> _ !! _] |- _ => rewrite lookup_insert in H
  | H : context [delete _ _ !! _] |- _ => rewrite lookup_delete in H
  | |- context [<[_ := _]> _ !! _] => rewrite lookup_insert
  | |- context [delete _ _ !! _] => rewrite lookup_delete
  | _ => case_decide
  end; simplify_eq/=.

Lemma wf_handleCancel n t : wf t -> wf (handleCancel n t).
Proof.
  intros Hwf. destruct (cancel_existing_fields n t) as (Ea & Es & En & Ec & Eb & Ef).
  pose proof (fun g => cancel_existing_gor n t g Hwf) as Eg.
  unfold handleCancel, set; simpl.
  split; cbn [nextTimerID activeTimers settledTimers cancelFuncs goroutines completions blocked];
    unfold undelivered; cbn [completions blocked]; rewrite ?Ea, ?Es, ?En, ?Ec, ?Eb, ?Ef; try apply Hwf.
  - intros m g H. tf_cases. by apply (wf_active t Hwf m).
  - intros g r H. rewrite Eg in H. destruct (goroutines t !! g) eqn:Hg; [|done]. by eapply (wf_gor t Hwf).
  - intros m g H. tf_cases. destruct (wf_armed t Hwf _ _ H) as (H1 & d & H2).
    split; [done|]. exists d. rewrite Eg, H2. simpl. by rewrite bool_decide_false.
  - intros m g H. tf_cases. by apply (wf_source t Hwf).
  - intros g r H Hc. rewrite Eg in H. destruct (goroutines t !! g) as [r0|] eqn:Hg; [|done].
    simpl in H. case_bool_decide; simplify_eq/=. tf_cases. by apply (wf_live t Hwf).
  - intros g r H Hc. rewrite Eg in H. destruct (goroutines t !! g) as [r0|] eqn:Hg; [|done].
    simpl in H. case_bool_decide; simplify_eq/=; tf_cases; try done. by apply (wf_dead t Hwf _ _ Hg).
  - intros m g H. rewrite Eg, (wf_disjoint t Hwf _ _ H). done.
Qed.

Lemma wf_handleArm n d t : wf t -> wf (snd (handleArm n d t)).
Proof.
  intros Hwf. destruct (cancel_existing_fields n t) as (Ea & Es & En & Ec & Eb & Ef).
  pose proof (fun g => cancel_existing_gor n t g Hwf) as Eg.
  assert (goroutines t !! Z.succ (nextTimerID t) = None) as Hfresh.
  { destruct (goroutines t !! Z.succ (nextTimerID t)) eqn:H; [|done].
    apply (wf_gor t Hwf) in H. lia. }
  pose proof (wf_next t Hwf).
  unfold handleArm, set; simpl.
  split; cbn [nextTimerID activeTimers settledTimers cancelFuncs goroutines completions blocked];
    unfold undelivered; cbn [completions blocked]; rewrite ?Ea, ?Es, ?En, ?Ec, ?Eb, ?Ef; try apply Hwf.
  - lia.
  - intros m g Hm. tf_cases; [lia|]. pose proof (wf_active t Hwf m g Hm). lia.
  - intros g r Hg. tf_cases; [lia|]. rewrite Eg in Hg.
    destruct (goroutines t !! g) eqn:Hg'; [|done]. pose proof (wf_gor t Hwf _ _ Hg'). lia.
  - intros m g Hm. pose proof (wf_settled t Hwf m g Hm). lia.
  - intros m g Hm. destruct (decide (n = m)) as [->|Hne].
    + rewrite lookup_insert_eq in Hm. simplify_eq. rewrite !lookup_insert_eq. eauto.
    + rewrite lookup_insert_ne, lookup_delete_ne in Hm by done.
      destruct (wf_armed t Hwf _ _ Hm) as (H1 & d' & H2). rewrite lookup_insert_ne by done.
      split; [done|]. exists d'. rewrite lookup_insert_ne by congruence.
      rewrite Eg, H2. simpl. by rewrite bool_decide_false.
  - intros m g Hm. tf_cases; [by left|]. by apply (wf_source t Hwf).
  - intros g r Hg Hc. destruct (decide (Z.succ (nextTimerID t) = g)) as [<-|Hne].
    { rewrite lookup_insert_eq in Hg. simplify_eq/=. by rewrite lookup_insert_eq. }
    rewrite lookup_insert_ne, Eg in Hg by done.
    destruct (goroutines t !! g) as [r0|] eqn:Hg'; [|done].
    simpl in Hg. injection Hg as Hg. case_bool_decide; subst r; simpl in *; [done|].
    rewrite lookup_insert_ne, lookup_delete_ne by done. by apply (wf_live t Hwf).
  - intros g r Hg Hc. destruct (decide (Z.succ (nextTimerID t) = g)) as [<-|Hne].
    { rewrite lookup_insert_eq in Hg. by simplify_eq/=. }
    rewrite lookup_insert_ne, Eg in Hg by done.
    destruct (goroutines t !! g) as [r0|] eqn:Hg'; [|done].
    pose proof (wf_gor t Hwf _ _ Hg').
    simpl in Hg. injection Hg as Hg. case_bool_decide; subst r; simpl in *.
    + rewrite lookup_insert_eq. congruence.
    + rewrite lookup_insert_ne by done. by apply (wf_dead t Hwf _ _ Hg').
  - intros m g Hm. tf_cases.
    + pose proof (wf_settled t Hwf _ _ Hm). lia.
    + rewrite Eg, (wf_disjoint t Hwf _ _ Hm). done.
Qed.

(** *** Eviction *)

Lemma evict_loop_spec fuel s a :
  (length s <= fuel)%nat -> (forall n g, (n, g) ∈ s -> g <> 0) ->
  exists pre s', s = pre ++ s' /\ fst (evict_loop fuel s a) = s' /\
    length pre = (length s - maxSettledTimers)%nat /\
    forall n g, snd (evict_loop fuel s a) !! n = Some g <-> a !! n = Some g /\ (n, g) ∉ pre.
Proof.
  revert s a; induction fuel as [|fuel IH]; intros [|[n0 g0] s] a Hl Hg; cbn [evict_loop fst snd]; try (simpl in Hl; lia).
  - exists [], []. split_and!; try done. set_solver.
  - exists [], []. split_and!; try done. set_solver.
  - case_decide as Hd.
    + destruct (IH s (if default 0 (a !! n0) =? g0 then delete n0 a else a)) as
        (pre & s' & -> & E1 & E2 & E3); [simpl in Hl; lia|intros m h Hm; apply (Hg m); set_solver|].
      exists ((n0, g0) :: pre), s'. split_and!; [done|done|cbn [length] in *; rewrite length_app in *; lia|].
      intros n g. rewrite E3. clear IH E3.
      assert (g0 <> 0) by (apply (Hg n0); set_solver).
      destruct (Z.eqb_spec (default 0 (a !! n0)) g0) as [E|E].
      * assert (a !! n0 = Some g0) by (destruct (a !! n0); simpl in *; congruence).
        rewrite lookup_delete. case_decide; subst; set_solver.
      * assert (a !! n0 <> Some g0) by (intros F; rewrite F in E; simpl in E; lia). set_solver.
    + exists [], ((n0, g0) :: s). split_and!; [done|done|cbn [length] in *; lia|]. set_solver.
Qed.

(** What the run loop's state is after a current timer's fire command, before
    the completion is sent: [pre] is what was evicted. *)
Lemma fire_state t n g d :
  wf t -> blocked t = None -> goroutines t !! g = Some (mkGoroutine n d false) ->
  exists pre s' a',
    settledTimers t ++ [(n, g)] = pre ++ s' /\
    length pre = (length (settledTimers t) + 1 - maxSettledTimers)%nat /\
    (forall m h, a' !! m = Some h <-> activeTimers t !! m = Some h /\ (m, h) ∉ pre) /\
    handleFireTimerIfCurrent n g d (t <| goroutines ::= delete g |>) =
    send_completion (mkCompletion n g d)
      (mkFacility (nextTimerID t) a' (delete n (cancelFuncs t)) s' (delete g (goroutines t))
        (completions t) None).
Proof.
  intros Hwf Hb Hg. pose proof (wf_live t Hwf _ _ Hg eq_refl) as Hc.
  destruct (wf_armed t Hwf _ _ Hc) as [Ha _]. simpl in *.
  pose proof (wf_active t Hwf _ _ Ha) as Hid.
  unfold handleFireTimerIfCurrent, handleIsCurrent, evictSettledTimers. usimpl.
  rewrite Ha. simpl. rewrite Z.eqb_refl. simpl.
  destruct (evict_loop_spec (length (settledTimers t ++ [(n, g)])) (settledTimers t ++ [(n, g)])
    (activeTimers t)) as (pre & s' & E & E1 & E2 & E3).
  - lia.
  - intros m h [Hm|Hm]%elem_of_app; [pose proof (wf_settled t Hwf _ _ Hm); lia|].
    apply list_elem_of_singleton in Hm. simplify_eq. lia.
  - destruct (evict_loop _ _ _) as [s1 a1]. simpl in *. subst s1.
    exists pre, s', a1. rewrite length_app in E2. simpl in E2. rewrite Hb. done.
Qed.

(** A goroutine whose context was cancelled finds its generation superseded. *)
Lemma fire_cancelled t n g d :
  wf t -> goroutines t !! g = Some (mkGoroutine n d true) ->
  handleFireTimerIfCurrent n g d (t <| goroutines ::= delete g |>) = t <| goroutines ::= delete g |>.
Proof.
  intros Hwf Hg. pose proof (wf_dead t Hwf _ _ Hg eq_refl) as Hd. simpl in Hd.
  unfold handleFireTimerIfCurrent, handleIsCurrent. usimpl.
  destruct (Z.eqb_spec (default 0 (activeTimers t !! n)) g) as [E|]; [|done].
  pose proof (wf_gor t Hwf _ _ Hg). destruct (activeTimers t !! n); simpl in E; [congruence|lia].
Qed.

Lemma wf_exit t g r :
  wf t -> goroutines t !! g = Some r -> g_cancelled r = true -> wf (t <| goroutines ::= delete g |>).
Proof.
  intros Hwf Hg Hc. unfold set.
  split; cbn [nextTimerID activeTimers settledTimers cancelFuncs goroutines completions blocked];
    unfold undelivered; cbn [completions blocked]; try apply Hwf.
  - intros g' r' H. tf_cases. by eapply (wf_gor t Hwf).
  - intros n g' H. destruct (wf_armed t Hwf _ _ H) as (H1 & d & H2). split; [done|].
    exists d. rewrite lookup_delete_ne; [done|]. intros <-. simplify_eq/=.
  - intros g' r' H. tf_cases. by apply (wf_live t Hwf).
  - intros g' r' H. tf_cases. by apply (wf_dead t Hwf).
  - intros n g' H. tf_cases; [done|]. by eapply (wf_disjoint t Hwf).
Qed.

Lemma undelivered_send c t :
  blocked t = None -> undelivered (send_completion c t) = undelivered t ++ [c].
Proof.
  intros Hb. unfold send_completion, chan_try_send, undelivered. case_decide; usimpl; rewrite Hb; simpl.
  - by rewrite !app_nil_r.
  - by rewrite app_nil_r.
Qed.

Lemma send_fields c t :
  nextTimerID (send_completion c t) = nextTimerID t /\
  activeTimers (send_completion c t) = activeTimers t /\
  cancelFuncs (send_completion c t) = cancelFuncs t /\
  settledTimers (send_completion c t) = settledTimers t /\
  goroutines (send_completion c t) = goroutines t.
Proof. unfold send_completion. case_match; done. Qed.

Lemma undelivered_le2 t : wf t -> (length (undelivered t) <= 2)%nat.
Proof.
  intros Hwf. unfold undelivered. rewrite length_app.
  pose proof (proj1 (wf_chan t Hwf)). destruct (blocked t); simpl; lia.
Qed.

(** The evicted entries are old: none of them is still undelivered, and none is
    the generation that has just fired. *)
Lemma evicted_old t n g pre s' :
  wf t -> goroutines t !! g <> None ->
  settledTimers t ++ [(n, g)] = pre ++ s' ->
  length pre = (length (settledTimers t) + 1 - maxSettledTimers)%nat ->
  (exists pre', s' = pre' ++ map key (undelivered t) ++ [(n, g)]) /\
  NoDup (pre ++ s').*2.
Proof.
  intros Hwf Hg E Hl. split.
  - destruct (wf_suffix t Hwf) as [p0 Hp0].
    pose proof (wf_bound t Hwf). pose proof (undelivered_le2 t Hwf).
    rewrite Hp0, <- app_assoc in E. apply (f_equal length) in Hp0 as Hlen.
    rewrite length_app, length_map in Hlen.
    assert (length pre <= length p0)%nat as Hle.
    { unfold maxSettledTimers in *. lia. }
    exists (drop (length pre) p0).
    assert (pre = take (length pre) p0) as Epre.
    { transitivity (take (length pre) (pre ++ s')); [by rewrite take_app_length|].
      rewrite <- E, take_app_le by done. done. }
    transitivity (drop (length pre) (pre ++ s')); [by rewrite drop_app_length|].
    rewrite <- E, drop_app_le by done. done.
  - rewrite <- E, fmap_app. simpl. apply NoDup_app. split_and!.
    + apply (wf_nodup t Hwf).
    + intros h Hh Hh'. apply list_elem_of_fmap in Hh as ([m h'] & -> & Hm).
      apply list_elem_of_singleton in Hh'. simpl in Hh'. subst h'.
      by apply Hg, (wf_disjoint t Hwf m).
    + apply NoDup_singleton.
Qed.

Lemma pre_not_suf (pre s' : list (string * Z)) m h m' h' :
  NoDup (pre ++ s').*2 -> (m, h) ∈ pre -> (m', h') ∈ s' -> h <> h'.
Proof.
  rewrite fmap_app. intros (_ & Hd & _)%NoDup_app H1 H2 <-.
  apply (Hd h); apply list_elem_of_fmap; [by exists (m, h)|by exists (m', h)].
Qed.

Lemma wf_fire t g r :
  wf t -> blocked t = None -> goroutines t !! g = Some r ->
  wf (handleFireTimerIfCurrent (g_name r) g (g_duration r) (t <| goroutines ::= delete g |>)).
Proof.
  intros Hwf Hb Hg. destruct r as [n d []]; simpl.
  { rewrite (fire_cancelled t n g d Hwf Hg). by eapply wf_exit. }
  destruct (fire_state t n g d Hwf Hb Hg) as (pre & s' & a' & E & Hl & Ha' & ->).
  destruct (evicted_old t n g pre s' Hwf ltac:(by rewrite Hg) E Hl) as [[p' Hs'] Hnd].
  pose proof (wf_live t Hwf _ _ Hg eq_refl) as Hc. destruct (wf_armed t Hwf _ _ Hc) as [Ha _].
  cbn [g_name] in Hc, Ha.
  assert (Hin : forall m h, (m, h) ∈ pre ++ s' -> (m, h) ∈ settledTimers t \/ (m = n /\ h = g)).
  { intros m h. rewrite <- E, elem_of_app, list_elem_of_singleton. naive_solver. }
  assert (Hng : forall m h, (m, h) ∈ pre -> (m, h) ∈ settledTimers t /\ h <> g).
  { intros m h H. assert (h <> g) as Hne.
    { eapply (pre_not_suf pre s' m h n g Hnd H). rewrite Hs'. set_solver. }
    destruct (Hin m h) as [|[_ ->]]; [set_solver|done|done]. }
  destruct (send_fields (mkCompletion n g d)
    (mkFacility (nextTimerID t) a' (delete n (cancelFuncs t)) s' (delete g (goroutines t))
      (completions t) None)) as (F1 & F2 & F3 & F4 & F5).
  split; rewrite ?F1, ?F2, ?F3, ?F4, ?F5; simpl.
  - apply Hwf.
  - intros m h H. apply Ha' in H as [H _]. by apply (wf_active t Hwf m).
  - intros g' r' H. tf_cases. by eapply (wf_gor t Hwf).
  - intros m h H. destruct (Hin m h) as [H'|[_ ->]]; [set_solver|by apply (wf_settled t Hwf m)|].
    by eapply (wf_gor t Hwf).
  - intros m h H. rewrite lookup_delete in H. case_decide; [done|].
    destruct (wf_armed t Hwf _ _ H) as (H1 & d' & H2). split.
    + apply Ha'. split; [done|]. intros [Hm _]%Hng. by eapply settled_not_armed.
    + exists d'. rewrite lookup_delete_ne; [done|]. intros <-. congruence.
  - intros m h H. apply Ha' in H as [H Hni].
    destruct (wf_source t Hwf _ _ H) as [Hm|Hm].
    + destruct (decide (n = m)) as [->|Hne].
      * right. assert (h = g) as -> by congruence. rewrite Hs'. set_solver.
      * left. by rewrite lookup_delete_ne.
    + right. assert ((m, h) ∈ pre ++ s') by (rewrite <- E; set_solver). set_solver.
  - intros g' r' H Hcan. rewrite lookup_delete in H. case_decide; [done|].
    pose proof (wf_live t Hwf _ _ H Hcan). rewrite lookup_delete_ne; [done|].
    intros Heq. rewrite <- Heq in *. congruence.
  - intros g' r' H Hcan Hact. tf_cases. apply Ha' in Hact as [Hact _].
    by apply (wf_dead t Hwf _ _ H).
  - by rewrite fmap_app in Hnd; apply NoDup_app in Hnd as (_ & _ & ?).
  - intros m h H. destruct (Hin m h) as [H'|[_ ->]]; [set_solver| |by rewrite lookup_delete_eq].
    tf_cases; [done|]. by eapply (wf_disjoint t Hwf).
  - apply (f_equal length) in E. rewrite !length_app in E. simpl in E.
    pose proof (wf_bound t Hwf). lia.
  - exists p'. rewrite undelivered_send by done. rewrite map_app, Hs'.
    unfold undelivered; simpl. by rewrite Hb.
  - pose proof (wf_chan t Hwf) as [Hch _].
    unfold send_completion, chan_try_send. cbn [completions].
    case_decide; usimpl.
    + rewrite length_app; simpl. split; [lia|]. by destruct (completions t).
    + split; [done|]. intros _ E0. rewrite E0 in *. simpl in *. lia.
Qed.

Lemma recv_undelivered t c t' :
  wf t -> recv_completion t = Some (c, t') ->
  undelivered t = c :: undelivered t' /\ blocked t' = None /\
  nextTimerID t' = nextTimerID t /\ activeTimers t' = activeTimers t /\
  cancelFuncs t' = cancelFuncs t /\ settledTimers t' = settledTimers t /\
  goroutines t' = goroutines t /\ (length (completions t') <= 1)%nat.
Proof.
  intros Hwf H. unfold recv_completion in H. pose proof (proj1 (wf_chan t Hwf)) as Hl.
  unfold undelivered. destruct (completions t) as [|c0 rest]; [done|]. simplify_eq. usimpl.
  split_and!; try done; [by rewrite app_nil_r|].
  assert (rest = []) as -> by (destruct rest; simpl in *; [done|lia]).
  destruct (blocked t); simpl; lia.
Qed.

Lemma wf_recv t c t' : wf t -> recv_completion t = Some (c, t') -> wf t'.
Proof.
  intros Hwf H. destruct (recv_undelivered t c t' Hwf H) as (E & Eb & En & Ea & Ec & Es & Eg & El).
  split; rewrite ?En, ?Ea, ?Ec, ?Es, ?Eg; try apply Hwf.
  - destruct (wf_suffix t Hwf) as [pre Hp]. exists (pre ++ [key c]).
    rewrite Hp, E. simpl. by rewrite <- app_assoc.
  - split; [done|]. by rewrite Eb.
Qed.

Lemma wf_tstep l t t' : wf t -> tstep l t t' -> wf t'.
Proof.
  intros Hwf H. destruct H; eauto using wf_handleArm, wf_handleCancel, wf_fire, wf_exit, wf_recv.
Qed.

Lemma wf_treach ls t : treach ls t -> wf t.
Proof. induction 1; eauto using wf_init, wf_tstep. Qed.

#[export] Hint Resolve wf_init wf_handleArm wf_handleCancel wf_fire wf_exit wf_recv : s2s.

(** ** Pending timers *)

Lemma pending_spec n t :
  wf t ->
  pending n t = true <->
  is_Some (cancelFuncs t !! n) \/
  exists c, c ∈ undelivered t /\ c_name c = n /\ activeTimers t !! n = Some (c_id c).
Proof.
  intros Hwf. unfold pending. rewrite orb_true_iff, bool_decide_eq_true, existsb_exists.
  apply or_iff_compat_l. split.
  - intros (c & Hc & Hb). apply andb_prop in Hb as [Hn Hcur].
    apply bool_decide_eq_true in Hn as <-. apply list_elem_of_In in Hc.
    exists c. split_and!; [done|done|].
    apply isCurrent_spec; [|done]. by apply (undelivered_id t c Hwf).
  - intros (c & Hc & <- & Ha). exists c. split; [by apply list_elem_of_In|].
    rewrite bool_decide_true by done. apply isCurrent_spec; [|done].
    by apply (undelivered_id t c Hwf).
Qed.

Lemma bool_eq_iff (a b : bool) : (a = true <-> b = true) <-> a = b.
Proof. destruct a, b; naive_solver. Qed.

Section Pending.
Variables (t : facility).
Hypothesis Hwf : wf t.

Lemma pending_handleArm n d m :
  pending m (snd (handleArm n d t)) = bool_decide (m = n) || pending m t.
Proof.
  apply bool_eq_iff. rewrite (pending_spec _ _ (wf_handleArm n d t Hwf)), orb_true_iff,
    bool_decide_eq_true, (pending_spec _ _ Hwf).
  destruct (cancel_existing_fields n t) as (Ea & Es & En & Ec & Eb & Ef).
  unfold handleArm, undelivered, set; cbn [snd cancelFuncs activeTimers completions blocked].
  rewrite Ea, Ec, Eb, Ef, !lookup_insert. destruct (decide (n = m)) as [->|Hne].
  - naive_solver.
  - rewrite lookup_delete_ne by done. naive_solver.
Qed.

Lemma pending_handleCancel n m :
  pending m (handleCancel n t) = negb (bool_decide (m = n)) && pending m t.
Proof.
  apply bool_eq_iff. rewrite (pending_spec _ _ (wf_handleCancel n t Hwf)), andb_true_iff,
    negb_true_iff, bool_decide_eq_false, (pending_spec _ _ Hwf).
  destruct (cancel_existing_fields n t) as (Ea & Es & En & Ec & Eb & Ef).
  unfold handleCancel, undelivered, set; cbn [cancelFuncs activeTimers completions blocked].
  rewrite Ea, Ec, Eb, Ef, !lookup_delete.
  destruct (decide (n = m)) as [->|Hne]; [|naive_solver].
  split; [intros [[? H]|(c & _ & _ & H)]; discriminate|naive_solver].
Qed.

Lemma pending_exit g r m :
  goroutines t !! g = Some r -> g_cancelled r = true ->
  pending m (t <| goroutines ::= delete g |>) = pending m t.
Proof. done. Qed.

Lemma pending_fire g r m :
  blocked t = None -> goroutines t !! g = Some r ->
  pending m (handleFireTimerIfCurrent (g_name r) g (g_duration r) (t <| goroutines ::= delete g |>))
  = pending m t.
Proof.
  intros Hb Hg. pose proof (wf_fire t g r Hwf Hb Hg) as Hwf'.
  destruct r as [n d []]; cbn [g_name g_duration] in *.
  { by rewrite (fire_cancelled t n g d Hwf Hg). }
  destruct (fire_state t n g d Hwf Hb Hg) as (pre & s' & a' & E & Hl & Ha' & Heq).
  rewrite Heq in *.
  destruct (evicted_old t n g pre s' Hwf ltac:(by rewrite Hg) E Hl) as [[p' Hs'] Hnd].
  pose proof (wf_live t Hwf _ _ Hg eq_refl) as Hc. destruct (wf_armed t Hwf _ _ Hc) as [Ha _].
  cbn [g_name] in Hc, Ha.
  assert (Hpre : forall m h m' h', (m, h) ∈ pre -> (m', h') ∈ s' -> h <> h').
  { intros m0 h m' h'. by apply (pre_not_suf pre s'). }
  apply bool_eq_iff. rewrite (pending_spec _ _ Hwf), (pending_spec _ _ Hwf').
  destruct (send_fields (mkCompletion n g d)
    (mkFacility (nextTimerID t) a' (delete n (cancelFuncs t)) s' (delete g (goroutines t))
      (completions t) None)) as (_ & F2 & F3 & _ & _).
  rewrite F2, F3, undelivered_send by done. cbn [activeTimers cancelFuncs].
  assert (undelivered (mkFacility (nextTimerID t) a' (delete n (cancelFuncs t)) s'
    (delete g (goroutines t)) (completions t) None) = undelivered t) as ->
    by (unfold undelivered; by rewrite Hb).
  split.
  - intros [[h Hh]|(c & Hc0 & <- & Hact)].
    + rewrite lookup_delete in Hh. case_decide; [done|]. left. by eexists.
    + apply Ha' in Hact as [Hact _].
      apply elem_of_app in Hc0 as [Hc0|Hc0%list_elem_of_singleton]; [right; eauto|].
      subst c. cbn [c_name c_id] in *. left. by eexists.
  - intros [[h Hh]|(c & Hc0 & <- & Hact)].
    + destruct (decide (m = n)) as [->|Hne].
      * right. exists (mkCompletion n g d). cbn [c_name c_id].
        split_and!; [set_solver|done|]. apply Ha'. split; [done|].
        intros Hp. eapply (Hpre n g n g); [done| |done]. rewrite Hs'. set_solver.
      * left. rewrite lookup_delete_ne by done. by eexists.
    + right. exists c. split_and!; [set_solver|done|]. apply Ha'. split; [done|].
      intros Hp. eapply (Hpre (c_name c) (c_id c) (c_name c) (c_id c)); [done| |done].
      rewrite Hs'. apply elem_of_app; right. apply elem_of_app; left.
      by apply list_elem_of_In, (in_map key), list_elem_of_In.
Qed.

Lemma undelivered_nodup : NoDup (map c_id (undelivered t)).
Proof.
  destruct (wf_suffix t Hwf) as [pre E]. pose proof (wf_nodup t Hwf) as H.
  rewrite E, fmap_app in H. apply NoDup_app in H as (_ & _ & H).
  change ((map key (undelivered t)).*2) with (map snd (map key (undelivered t))) in H.
  by rewrite map_map in H.
Qed.

Section Recv.
Variables (c : completion) (t' : facility).
Hypothesis Hrecv : recv_completion t = Some (c, t').

Lemma pending_recv_inv m :
  pending m t' = true <->
  pending m t = true /\
  (is_Some (cancelFuncs t !! m) \/ m <> c_name c \/ activeTimers t !! m <> Some (c_id c)).
Proof.
  pose proof (wf_recv t c t' Hwf Hrecv) as Hwf'.
  destruct (recv_undelivered t c t' Hwf Hrecv) as (E & _ & _ & Ea & Ec & _ & _ & _).
  rewrite (pending_spec _ _ Hwf), (pending_spec _ _ Hwf'), E, Ea, Ec.
  pose proof undelivered_nodup as Hnd. rewrite E in Hnd. apply NoDup_cons in Hnd as [Hni _].
  split.
  - intros [H|(c0 & Hc0 & <- & Hact)]; [eauto|]. split; [right; set_solver|].
    destruct (decide (c_name c0 = c_name c)) as [|]; [|auto]. right. right.
    rewrite Hact. intros [= Heq]. apply Hni. rewrite <- Heq.
    by apply list_elem_of_In, in_map, list_elem_of_In.
  - intros [[H|(c0 & Hc0 & <- & Hact)] Hor]; [auto|].
    apply elem_of_cons in Hc0 as [->|Hc0]; [|eauto].
    destruct Hor as [H|[H|H]]; [auto|done|done].
Qed.

Lemma recv_current_pending : isCurrent c t' = true ->
  pending (c_name c) t = true /\ pending (c_name c) t' = false.
Proof.
  destruct (recv_undelivered t c t' Hwf Hrecv) as (E & _ & _ & Ea & Ec & _ & _ & _).
  assert (c ∈ undelivered t) as Hc by (rewrite E; set_solver).
  intros Hcur. apply isCurrent_spec in Hcur; [|by apply (undelivered_id t c Hwf)].
  rewrite Ea in Hcur. split.
  - apply (pending_spec _ _ Hwf). right. eauto.
  - destruct (pending (c_name c) t') eqn:Hp; [|done].
    apply pending_recv_inv in Hp as [_ [[g Hg]|[H|H]]]; [|done|done].
    destruct (wf_armed t Hwf _ _ Hg) as [Hg' _]. assert (g = c_id c) as -> by congruence.
    exfalso. eapply (settled_not_armed t (c_name c) (c_id c)); [done| |exact Hg].
    by apply (undelivered_settled t c).
Qed.
End Recv.
End Pending.

#[export] Instance facility_ops : TimerOps facility := {|
  t_arm n d t := snd (handleArm n d t);
  t_cancel := handleCancel;
  t_isCurrent := isCurrent;
  t_recv := recv_completion;
  t_pending := pending;
  t_env := tenv;
  t_ok := wf;
|}.

#[export] Instance facility_laws : TimerLaws facility.
Proof.
  split; cbn [t_arm t_cancel t_isCurrent t_recv t_pending t_env t_ok facility_ops].
  - intros. by apply wf_handleArm.
  - intros. by apply wf_handleCancel.
  - intros t t' Hwf H. destruct H as [g t t' H|g t t' H]; by eapply wf_tstep.
  - intros. by eapply wf_recv.
  - intros. by apply pending_handleArm.
  - intros. by apply pending_handleCancel.
  - intros m t t' Hwf H. destruct H as [g t t' H|g t t' H]; inversion H; subst.
    + by apply pending_fire.
    + by eapply pending_exit.
  - intros t c t' m Hwf H Hm. apply bool_eq_iff. rewrite (pending_recv_inv t Hwf c t' H). tauto.
  - intros t c t' m Hwf H Hs. apply bool_eq_iff. rewrite (pending_recv_inv t Hwf c t' H).
    split; [tauto|]. intros Hp. split; [done|]. right.
    destruct (decide (m = c_name c)) as [->|]; [right|by left].
    destruct (recv_undelivered t c t' Hwf H) as (E & _ & _ & Ea & _).
    intros Ha. rewrite <- Ea in Ha. apply isCurrent_spec in Ha; [congruence|].
    apply (undelivered_id t c Hwf). rewrite E. set_solver.
  - intros t c t' Hwf H. by apply recv_current_pending.
Qed.

(** ** Bounded bookkeeping *)

(** At any time at most 1024 fired generations are remembered, and the map of active
    timers never exceeds the armed timers by more than that: the facility does not grow with
    the number of timers used. *)
Theorem timer_growth_bounded ls t :
  treach ls t ->
  (length (settledTimers t) <= maxSettledTimers)%nat /\
  (size (activeTimers t) <= size (cancelFuncs t) + maxSettledTimers)%nat.
Proof.
  intros Hr. pose proof (wf_treach ls t Hr) as Hwf. pose proof (wf_bound t Hwf) as Hb.
  split; [done|].
  assert (dom (activeTimers t) ⊆ dom (cancelFuncs t) ∪ list_to_set (settledTimers t).*1) as Hsub.
  { intros n [g Hg]%elem_of_dom. destruct (wf_source t Hwf _ _ Hg) as [H|H].
    - apply elem_of_union_l, elem_of_dom. eauto.
    - apply elem_of_union_r, elem_of_list_to_set, list_elem_of_fmap. by exists (n, g). }
  apply subseteq_size in Hsub. rewrite !size_dom in Hsub.
  pose proof (size_union_alt (dom (cancelFuncs t)) (list_to_set (settledTimers t).*1 : gset string)) as Hu.
  rewrite size_dom in Hu.
  assert (size ((list_to_set (settledTimers t).*1 : gset string) ∖ dom (cancelFuncs t))
    <= size (list_to_set (settledTimers t).*1 : gset string))%nat by (apply subseteq_size; set_solver).
  assert (forall l : list string, size (list_to_set l : gset string) <= length l)%nat as Hl.
  { induction l as [|x l IH]; [by rewrite list_to_set_nil, size_empty|].
    rewrite list_to_set_cons, size_union_alt, size_singleton. cbn [length].
    assert (size (list_to_set l ∖ {[x]} : gset string) <= size (list_to_set l : gset string))%nat
      by (apply subseteq_size; set_solver). lia. }
  specialize (Hl (settledTimers t).*1). rewrite length_fmap in Hl. lia.
Qed.

Lemma timer_growth_bounded_witness :
  exists t, treach [LArm "idle" 5] t /\
    (size (activeTimers t) <= size (cancelFuncs t) + maxSettledTimers)%nat.
Proof.
  assert (treach ([] ++ [LArm "idle" 5]) (snd (handleArm "idle" 5 NewTimerFacility))) as H.
  { eapply treach_step; [constructor|]. by constructor. }
  eexists. split; [exact H|]. exact (proj2 (timer_growth_bounded _ _ H)).
Defined.

(** ** Cancellation is final *)

Inductive tsteps : list tlabel -> facility -> facility -> Prop :=
| tsteps_nil t : tsteps [] t t
| tsteps_cons l ls t1 t2 t3 : tstep l t1 t2 -> tsteps ls t2 t3 -> tsteps (l :: ls) t1 t3.

(** Only arming [n] makes [n] pending. *)
Lemma pending_tstep n l t t' :
  wf t -> tstep l t t' -> (forall d, l <> LArm n d) -> pending n t' = true -> pending n t = true.
Proof.
  intros Hwf H Hl Hp. destruct H.
  - rewrite pending_handleArm in Hp by done. rewrite bool_decide_false in Hp by (intros ->; exact (Hl _ eq_refl)).
    done.
  - rewrite pending_handleCancel in Hp by done. by apply andb_prop in Hp as [_ ?].
  - by rewrite pending_fire in Hp.
  - done.
  - by eapply pending_recv_inv in Hp as [? _].
Qed.

Lemma not_pending_tsteps n ls t t' :
  wf t -> tsteps ls t t' -> (forall d, LArm n d ∉ ls) -> pending n t = false ->
  wf t' /\ pending n t' = false.
Proof.
  intros Hwf H. induction H as [|l ls t1 t2 t3 H _ IH]; intros Hl Hp; [done|].
  apply IH; [by eapply wf_tstep|intros d Hd; apply (Hl d), elem_of_cons; by right|].
  destruct (pending n t2) eqn:E; [|done].
  rewrite (pending_tstep n l t1 t2 Hwf H) in Hp; [done| |done].
  intros d ->. apply (Hl d), elem_of_cons. by left.
Qed.

(** C40: Once a timer is cancelled and until it is armed again, no completion of that name
    that the consumer receives is current, whatever the timer goroutines and other timers
    do, a fire already under way included. *)
Theorem timer_cancel_final ls0 t0 n ls t c t' :
  treach ls0 t0 -> tsteps ls (handleCancel n t0) t -> (forall d, LArm n d ∉ ls) ->
  recv_completion t = Some (c, t') -> c_name c = n -> isCurrent c t' = false.
Proof.
  intros Hr Hs Hl Hrecv Hn. pose proof (wf_treach _ _ Hr) as Hwf.
  destruct (not_pending_tsteps n ls _ _ (wf_handleCancel n t0 Hwf) Hs Hl) as [Hwf' Hp].
  { rewrite pending_handleCancel by done. by rewrite bool_decide_true. }
  destruct (isCurrent c t') eqn:E; [|done].
  destruct (recv_current_pending t Hwf' c t' Hrecv E) as [Hpt _]. by rewrite Hn, Hp in Hpt.
Qed.

(** The timer fires, its completion is buffered, and then it is cancelled: the
    consumer still receives the completion and rejects it as stale. *)
Lemma timer_cancel_final_witness :
  exists ls t0 c t', treach ls t0 /\
    recv_completion (handleCancel "idle" t0) = Some (c, t') /\ isCurrent c t' = false.
Proof.
  set (t1 := snd (handleArm "idle" 5 NewTimerFacility)).
  set (t2 := handleFireTimerIfCurrent "idle" 2 5 (t1 <| goroutines ::= delete 2 |>)).
  assert (treach (([] ++ [LArm "idle" 5]) ++ [LFire 2]) t2) as H.
  { eapply treach_step; [eapply treach_step; [constructor|by constructor]|].
    apply (ts_fire 2 (mkGoroutine "idle" 5 false)); reflexivity. }
  eexists _, t2, (mkCompletion "idle" 2 5), _. split; [exact H|]. split; [vm_compute; reflexivity|].
  eapply (timer_cancel_final _ t2 "idle" [] (handleCancel "idle" t2));
    [exact H|constructor|intros d Hd; inversion Hd|vm_compute; reflexivity|reflexivity].
Defined.

(** ** Each generation is delivered at most once *)

Definition delivered (ls : list tlabel) : list Z :=
  omap (fun l => match l with LRecv c => Some (c_id c) | _ => None end) ls.

Lemma delivered_snoc ls l : delivered (ls ++ [l]) =
  delivered ls ++ (match l with LRecv c => [c_id c] | _ => [] end).
Proof. unfold delivered. rewrite omap_app. by destruct l. Qed.

Lemma undelivered_fire t g r :
  wf t -> blocked t = None -> goroutines t !! g = Some r ->
  exists l, map c_id (undelivered (handleFireTimerIfCurrent (g_name r) g (g_duration r)
      (t <| goroutines ::= delete g |>))) = map c_id (undelivered t) ++ l /\ (l = [] \/ l = [g]) /\
    goroutines (handleFireTimerIfCurrent (g_name r) g (g_duration r)
      (t <| goroutines ::= delete g |>)) = delete g (goroutines t).
Proof.
  intros Hwf Hb Hg. destruct r as [n d []]; cbn [g_name g_duration].
  - rewrite (fire_cancelled t n g d Hwf Hg). exists []. rewrite app_nil_r. auto.
  - destruct (fire_state t n g d Hwf Hb Hg) as (pre & s' & a' & _ & _ & _ & ->).
    exists [g]. rewrite undelivered_send by done. unfold undelivered; cbn [completions blocked].
    rewrite Hb, map_app. split; [done|]. split; [auto|].
    by destruct (send_fields (mkCompletion n g d) (mkFacility (nextTimerID t) a'
      (delete n (cancelFuncs t)) s' (delete g (goroutines t)) (completions t) None))
      as (_ & _ & _ & _ & ->).
Qed.

Lemma timer_once_inv ls t :
  treach ls t ->
  NoDup (delivered ls ++ map c_id (undelivered t)) /\
  forall g, g ∈ delivered ls ++ map c_id (undelivered t) ->
    g <= nextTimerID t /\ goroutines t !! g = None.
Proof.
  induction 1 as [|ls l t t' Hr [IHn IHg] Hs]; [split; [constructor|set_solver]|].
  pose proof (wf_treach _ _ Hr) as Hwf. rewrite delivered_snoc.
  destruct Hs as [n d t Hb|n t Hb|g r t Hb Hg|g r t Hg Hc|c t t' Hrecv]; rewrite ?app_nil_r.
  - destruct (cancel_existing_fields n t) as (Ea & Es & En & Ec & Eb & Ef).
    unfold handleArm, undelivered, set; cbn [snd completions blocked nextTimerID goroutines].
    rewrite Ec, Eb, En. split; [exact IHn|]. intros h Hh. destruct (IHg h Hh) as [H1 H2].
    split; [lia|]. rewrite lookup_insert_ne by lia. by rewrite cancel_existing_gor, H2.
  - destruct (cancel_existing_fields n t) as (Ea & Es & En & Ec & Eb & Ef).
    unfold handleCancel, undelivered, set; cbn [completions blocked nextTimerID goroutines].
    rewrite Ec, Eb, En. split; [exact IHn|]. intros h Hh. destruct (IHg h Hh) as [H1 H2].
    split; [lia|]. by rewrite cancel_existing_gor, H2.
  - destruct (undelivered_fire t g r Hwf Hb Hg) as (l & -> & Hl & ->).
    assert (nextTimerID (handleFireTimerIfCurrent (g_name r) g (g_duration r)
      (t <| goroutines ::= delete g |>)) = nextTimerID t) as ->.
    { unfold handleFireTimerIfCurrent, evictSettledTimers, send_completion.
      repeat (case_match; usimpl); done. }
    pose proof (wf_gor t Hwf _ _ Hg). rewrite app_assoc. split.
    + apply NoDup_app. split_and!; [done| |destruct Hl as [->| ->]; [constructor|apply NoDup_singleton]].
      intros h Hh Hl'. assert (h = g) as -> by (destruct Hl as [->| ->]; set_solver).
      destruct (IHg g Hh) as [_ ?]. congruence.
    + intros h [Hh|Hh]%elem_of_app.
      * destruct (IHg h Hh) as [? H2]. split; [done|]. rewrite lookup_delete. by case_decide.
      * assert (h = g) as -> by (destruct Hl as [->| ->]; set_solver).
        split; [lia|]. by rewrite lookup_delete_eq.
  - split; [exact IHn|]. intros h Hh. destruct (IHg h Hh) as [H1 H2]. split; [done|].
    unfold set; cbn [goroutines]. rewrite lookup_delete. by case_decide.
  - destruct (recv_undelivered t c t' Hwf Hrecv) as (E & _ & En & _ & _ & _ & Eg & _).
    rewrite E in *. rewrite En, Eg, <- app_assoc. done.
Qed.

(** Over any run of the facility, no timer generation is delivered to the consumer more
    than once. *)
Theorem timer_delivered_once ls t : treach ls t -> NoDup (delivered ls).
Proof. intros Hr. apply timer_once_inv in Hr as [H _]. by apply NoDup_app in H as [? _]. Qed.

Lemma timer_delivered_once_witness :
  exists ls t, treach ls t /\ NoDup (delivered ls) /\ delivered ls = [2].
Proof.
  set (t1 := snd (handleArm "idle" 5 NewTimerFacility)).
  set (t2 := handleFireTimerIfCurrent "idle" 2 5 (t1 <| goroutines ::= delete 2 |>)).
  assert (exists t3, treach ((([] ++ [LArm "idle" 5]) ++ [LFire 2]) ++ [LRecv (mkCompletion "idle" 2 5)]) t3)
    as [t3 H].
  { eexists. eapply treach_step; [eapply treach_step; [eapply treach_step; [constructor|by constructor]|]|].
    - apply (ts_fire 2 (mkGoroutine "idle" 5 false)); reflexivity.
    - apply ts_recv. vm_compute. reflexivity. }
  eexists _, t3. split; [exact H|]. split; [exact (timer_delivered_once _ _ H)|reflexivity].
Defined.

(** ** The client, and a deadlock

    The session's sequencer is one goroutine: it either waits in its select,
    which takes completions, or is inside a handler making synchronous calls to
    the facility. *)

Inductive fcmd := FArm (name : string) (d : Z) | FCancel (name : string) | FIsCurrent (c : completion).
Inductive client := Waiting | Calling (cmds : list fcmd).

Inductive sys_step : client * facility -> client * facility -> Prop :=
| ss_input cmds t : sys_step (Waiting, t) (Calling cmds, t)
| ss_recv c t t' : recv_completion t = Some (c, t') ->
    sys_step (Waiting, t) (Calling [FIsCurrent c], t')
| ss_return t : sys_step (Calling [], t) (Waiting, t)
| ss_arm n d k t : blocked t = None ->
    sys_step (Calling (FArm n d :: k), t) (Calling k, snd (handleArm n d t))
| ss_cancel n k t : blocked t = None ->
    sys_step (Calling (FCancel n :: k), t) (Calling k, handleCancel n t)
| ss_isCurrent c k k' t : blocked t = None ->
    (isCurrent c t = false -> k' = k) ->
    sys_step (Calling (FIsCurrent c :: k), t) (Calling k', t)
| ss_env cl t t' : tenv t t' -> sys_step (cl, t) (cl, t').

Definition sys_init : client * facility := (Waiting, NewTimerFacility).

(** A run of the facility and its client reaches a state that no step leaves: two
    timers have fired, the run loop is blocked sending the second completion, and the client
    is blocked in a Cancel call that the run loop never takes. *)
Theorem timer_deadlock :
  exists t cmds,
    rtc sys_step sys_init (Calling cmds, t) /\ cmds <> [] /\
    (forall s', ~ sys_step (Calling cmds, t) s').
Proof.
  set (t1 := snd (handleArm "response" 45000 NewTimerFacility)).
  set (t2 := snd (handleArm "bedTick" 200 t1)).
  set (t3 := handleFireTimerIfCurrent "bedTick" 3 200 (t2 <| goroutines ::= delete 3 |>)).
  set (t4 := handleFireTimerIfCurrent "response" 2 45000 (t3 <| goroutines ::= delete 2 |>)).
  exists t4, [FCancel "response"; FCancel "bedTick"]. split; [|split; [done|]].
  - eapply rtc_l; [apply (ss_input [FArm "response" 45000; FArm "bedTick" 200])|].
    eapply rtc_l; [by apply ss_arm|]. fold t1.
    eapply rtc_l; [by apply ss_arm|]. fold t2.
    eapply rtc_l; [apply ss_return|].
    eapply rtc_l; [apply (ss_input [FCancel "response"; FCancel "bedTick"])|].
    eapply rtc_l; [apply ss_env, (tenv_fire 3); apply (ts_fire 3 (mkGoroutine "bedTick" 200 false)); reflexivity|].
    eapply rtc_l; [apply ss_env, (tenv_fire 2); apply (ts_fire 2 (mkGoroutine "response" 45000 false)); reflexivity|].
    apply rtc_refl.
  - assert (goroutines t4 = ∅) as Hgor by (vm_compute; reflexivity).
    assert (blocked t4 <> None) as Hblk by (vm_compute; discriminate).
    clearbody t4. intros s' H.
    inversion H as [| | | |n k u Hb| |cl u u' He]; subst; [done|].
    destruct He as [g u u' He|g u u' He]; inversion He; subst;
      match goal with H : goroutines ?x !! _ = Some _, E : goroutines ?x = ∅ |- _ =>
        by rewrite E, lookup_empty in H end.
Qed.

(** What it takes: with fewer than two completions in flight every call of the
    client goes through. *)
Lemma timer_call_progress ls t cmd k :
  treach ls t -> (length (undelivered t) < 2)%nat ->
  exists t', sys_step (Calling (cmd :: k), t) (Calling k, t').
Proof.
  intros Hr Hl. assert (blocked t = None) as Hb.
  { destruct (blocked t) as [c|] eqn:E; [|done]. exfalso.
    destruct (wf_chan t (wf_treach _ _ Hr)) as [_ Hne].
    unfold undelivered in Hl. rewrite E in *. rewrite length_app in Hl. simpl in Hl.
    destruct (completions t); [by apply Hne|simpl in *; lia]. }
  destruct cmd as [n d|n|c]; eexists; [by apply ss_arm|by apply ss_cancel|by apply ss_isCurrent].
Qed.
