(* ===== verification/GoStrings.v ===== *)
(** * GoStrings: the string functions the code uses

    Go strings are byte sequences; a Rocq [string] is one too.  This file gives
    the functions of Go's [strings], [unicode/utf8] and [fmt] packages that the
    modelled code calls, on those bytes: UTF-8 rune counting, white space
    trimming (every Unicode space, by its UTF-8 encoding), [TrimRight],
    [ToLower] on ASCII letters, [Join], and [fmt]'s left-justified padding. *)

From S2P Require Export Prelude.

Definition str_bytes (s : string) : list N := map Ascii.N_of_ascii (String.list_ascii_of_string s).
Definition bytes_str (l : list N) : string := String.string_of_list_ascii (map Ascii.ascii_of_N l).

Local Open Scope N_scope.

(** ** UTF-8 *)

Definition is_cont (b : N) : bool := (0x80 <=? b) && (b <=? 0xBF).
Definition between (lo hi b : N) : bool := (lo <=? b) && (b <=? hi).

(** Bytes of the first rune; an invalid sequence is one rune of one byte. *)
Definition rune_len (l : list N) : nat :=
  match l with
  | b0 :: b1 :: b2 :: b3 :: _ =>
      if between 0xC2 0xDF b0 && is_cont b1 then 2%nat
      else if ((b0 =? 0xE0) && between 0xA0 0xBF b1 || (between 0xE1 0xEC b0 || between 0xEE 0xEF b0) && is_cont b1
               || (b0 =? 0xED) && between 0x80 0x9F b1) && is_cont b2 then 3%nat
      else if ((b0 =? 0xF0) && between 0x90 0xBF b1 || between 0xF1 0xF3 b0 && is_cont b1
               || (b0 =? 0xF4) && between 0x80 0x8F b1) && is_cont b2 && is_cont b3 then 4%nat
      else 1%nat
  | b0 :: b1 :: b2 :: [] =>
      if between 0xC2 0xDF b0 && is_cont b1 then 2%nat
      else if ((b0 =? 0xE0) && between 0xA0 0xBF b1 || (between 0xE1 0xEC b0 || between 0xEE 0xEF b0) && is_cont b1
               || (b0 =? 0xED) && between 0x80 0x9F b1) && is_cont b2 then 3%nat
      else 1%nat
  | b0 :: b1 :: [] => if between 0xC2 0xDF b0 && is_cont b1 then 2%nat else 1%nat
  | _ :: [] => 1%nat
  | [] => 0%nat
  end.

Fixpoint rune_count_from (fuel : nat) (l : list N) : nat :=
  match fuel, l with
  | S f, _ :: _ => S (rune_count_from f (drop (rune_len l) l))
  | _, _ => O
  end.
Definition RuneCount (s : string) : nat :=
  rune_count_from (length (str_bytes s)) (str_bytes s).

(** ** [strings.TrimSpace] *)

Definition ascii_space (b : N) : bool := between 9 13 b || (b =? 32).

(** The last byte of a three-byte space whose first two are [E2 80]. *)
Definition e280_space (b : N) : bool :=
  between 0x80 0x8A b || (b =? 0xA8) || (b =? 0xA9) || (b =? 0xAF).

(** Bytes of the space the sequence opens with, 0 when it opens with none. *)
Definition space_prefix (l : list N) : nat :=
  match l with
  | b0 :: l1 =>
      if ascii_space b0 then 1%nat else
      match l1 with
      | b1 :: l2 =>
          if (b0 =? 0xC2) && ((b1 =? 0x85) || (b1 =? 0xA0)) then 2%nat else
          match l2 with
          | b2 :: _ =>
              if (b0 =? 0xE1) && (b1 =? 0x9A) && (b2 =? 0x80) then 3%nat
              else if (b0 =? 0xE2) && (b1 =? 0x80) && e280_space b2 then 3%nat
              else if (b0 =? 0xE2) && (b1 =? 0x81) && (b2 =? 0x9F) then 3%nat
              else if (b0 =? 0xE3) && (b1 =? 0x80) && (b2 =? 0x80) then 3%nat
              else 0%nat
          | [] => 0%nat
          end
      | [] => 0%nat
      end
  | [] => 0%nat
  end.

(** The same at the end of a reversed sequence. *)
Definition space_suffix (r : list N) : nat :=
  match r with
  | b0 :: r1 =>
      if ascii_space b0 then 1%nat else
      match r1 with
      | b1 :: r2 =>
          if (0 <? space_prefix [b1; b0])%nat && negb (ascii_space b1) then 2%nat else
          match r2 with
          | b2 :: _ => if (space_prefix [b2; b1; b0] =? 3)%nat then 3%nat else 0%nat
          | [] => 0%nat
          end
      | [] => 0%nat
      end
  | [] => 0%nat
  end.

Fixpoint trim_with (size : list N -> nat) (fuel : nat) (l : list N) : list N :=
  match fuel with
  | O => l
  | S f => match size l with O => l | n => trim_with size f (drop n l) end
  end.

Definition trim_left_bytes (l : list N) : list N := trim_with space_prefix (length l) l.
Definition trim_right_bytes (l : list N) : list N :=
  rev (trim_with space_suffix (length l) (rev l)).

Definition TrimSpace (s : string) : string :=
  bytes_str (trim_right_bytes (trim_left_bytes (str_bytes s))).

(** ** [strings.TrimRight], [strings.ToLower], [strings.Join] *)

(** With a cutset of ASCII characters. *)
Definition TrimRight (s cutset : string) : string :=
  let cut := str_bytes cutset in
  bytes_str (rev (trim_with
    (fun r => match r with b :: _ => if bool_decide (b ∈ cut) then 1%nat else 0%nat | [] => 0%nat end)
    (length (str_bytes s)) (rev (str_bytes s)))).

(** Lower-cases A-Z and leaves every other byte.  Go also folds non-ASCII
    letters, none of which folds to a letter the code compares with. *)
Definition ToLower (s : string) : string :=
  bytes_str (map (fun b => if between 65 90 b then b + 32 else b) (str_bytes s)).

Definition Join (parts : list string) (sep : string) : string := String.concat sep parts.

Local Close Scope N_scope.

Fixpoint spaces (n : nat) : string :=
  match n with O => "" | S n' => String (Ascii.ascii_of_nat 32) (spaces n') end.

(** [fmt.Sprintf("%-*s", w, s)]: pads on the right to [w] runes. *)
Definition pad_right (w : nat) (s : string) : string := String.append s (spaces (w - RuneCount s)).

Definition slen (s : string) : nat := String.length s.

#[local] Open Scope Z_scope.

(** ** [strconv.Atoi], within an int64. *)

Fixpoint digits (l : list N) (acc : Z) : option Z :=
  match l with
  | [] => Some acc
  | b :: l => if between 48 57 b then digits l (10 * acc + (Z.of_N b - 48)) else None
  end.

Definition Atoi (s : string) : option Z :=
  let '(neg, l) := match str_bytes s with 45%N :: l => (true, l) | 43%N :: l => (false, l) | l => (false, l) end in
  match l with
  | [] => None
  | _ =>
      match digits l 0 with
      | Some n => let n := if (neg : bool) then - n else n in
          if (- 2 ^ 63 <=? n) && (n <? 2 ^ 63) then Some n else None
      | None => None
      end
  end.

#[local] Close Scope Z_scope.

(** ** Facts *)

Lemma slen_append s1 s2 : slen (String.append s1 s2) = (slen s1 + slen s2)%nat.
Proof. induction s1 as [|c s1 IH]; simpl; [done|]. unfold slen in *. simpl. by rewrite IH. Qed.

Lemma slen_spaces n : slen (spaces n) = n.
Proof. induction n as [|n IH]; unfold slen in *; simpl; [done|by rewrite IH]. Qed.

Lemma trim_with_fix size f l :
  size [] = O -> (length l <= f)%nat -> size (trim_with size f l) = O.
Proof.
  intros Hnil. revert l; induction f as [|f IH]; intros l Hl; simpl.
  - destruct l; [done|simpl in Hl; lia].
  - destruct (size l) as [|n] eqn:E; [done|]. apply IH. rewrite length_drop.
    destruct l; [by rewrite Hnil in E|simpl in *; lia].
Qed.

(** Trimming leaves no leading space, and the fuel is enough. *)
Lemma trim_left_no_space l : space_prefix (trim_left_bytes l) = O.
Proof. by apply trim_with_fix. Qed.

Lemma trim_left_suffix size f l : exists p, l = p ++ trim_with size f l.
Proof.
  revert l; induction f as [|f IH]; intros l; simpl; [by exists []|].
  destruct (size l) as [|n] eqn:E; [by exists []|].
  destruct (IH (drop (S n) l)) as [p Hp]. exists (take (S n) l ++ p).
  rewrite <- app_assoc, <- Hp. by rewrite take_drop.
Qed.

Lemma bytes_str_bytes s : bytes_str (str_bytes s) = s.
Proof.
  unfold bytes_str, str_bytes. rewrite map_map.
  rewrite (map_ext _ id) by (intros; apply Ascii.ascii_N_embedding). rewrite map_id.
  apply String.string_of_list_ascii_of_string.
Qed.

Lemma str_bytes_app s1 s2 : str_bytes (s1 ++ s2) = str_bytes s1 ++ str_bytes s2.
Proof. unfold str_bytes. induction s1 as [|c s1 IH]; [done|].
  change (String c s1 +:+ s2) with (String c (s1 +:+ s2)). simpl. by rewrite IH. Qed.

Lemma bytes_bytes_str l : Forall (fun b => (b < 256)%N) l -> str_bytes (bytes_str l) = l.
Proof.
  intros Hl. unfold bytes_str, str_bytes. rewrite String.list_ascii_of_string_of_list_ascii, map_map.
  induction Hl as [|b l Hb _ IH]; simpl; [done|]. by rewrite IH, Ascii.N_ascii_embedding.
Qed.

Lemma str_bytes_wf s : Forall (fun b => (b < 256)%N) (str_bytes s).
Proof. unfold str_bytes. apply List.Forall_map, List.Forall_forall. intros c _. apply Ascii.N_ascii_bounded. Qed.

(** Boolean tests in the hypotheses become facts for [lia]. *)
Ltac bool_lia :=
  repeat match goal with
         | H : _ && _ = true |- _ => apply andb_true_iff in H as [? ?]
         | H : _ || _ = true |- _ => apply orb_true_iff in H as [?|?]
         | H : (_ <=? _)%N = true |- _ => apply N.leb_le in H
         | H : (_ =? _)%N = true |- _ => apply N.eqb_eq in H
         end; lia.

(** A rune is read the same whatever follows it. *)
Lemma rune_len_cases l :
  l ≠ [] ->
  (rune_len l = 1%nat) \/
  (exists n, (2 <= n <= 4)%nat /\ rune_len l = n /\ length (take n l) = n /\ Forall (fun b => (128 <= b)%N) (take n l) /\
     forall rest, rune_len (take n l ++ rest) = n).
Proof.
  destruct l as [|b0 [|b1 [|b2 [|b3 l]]]]; intros Hl; try done; unfold rune_len; [by left| | |];
  repeat match goal with
         | |- context [if ?c then _ else _] => destruct c eqn:?; cbn [andb]
         end; try (by left); right.
  all: eexists; split; [|split; [reflexivity|]]; [lia|]; cbn [take length]; split; [reflexivity|].
  all: split; [unfold is_cont, between in *; repeat apply Forall_cons_2; try apply Forall_nil_2; bool_lia|].
  all: intros rest; cbn [app].
  all: try (destruct rest as [|? [|? ?]]; repeat match goal with H : _ = true |- _ => rewrite H | H : _ = false |- _ => rewrite H end; reflexivity).
Qed.

Lemma rune_len_ascii b l : (b < 128)%N -> rune_len (b :: l) = 1%nat.
Proof.
  intros Hb. unfold rune_len.
  assert (H : forall lo hi, (128 <= lo)%N -> between lo hi b = false).
  { intros. unfold between. rewrite (proj2 (N.leb_gt _ _)) by lia. done. }
  assert (H' : forall k, (128 <= k)%N -> (b =? k)%N = false) by (intros; apply N.eqb_neq; lia).
  destruct l as [|b1 [|b2 [|b3 l]]]; rewrite ?H, ?H' by lia; cbn [andb orb]; done.
Qed.
