(* ===== verification/Decision.v ===== *)
(** * Decision: decision events and their recorder

    Models [telephony/decision.go]: the [DecisionEvent] record, the totals
    summary, and [FileDecisionRecorder] -- sequence numbers, the live echo, and
    the write-on-close with its two files.  Events are echoed and written as
    values; their JSON and terminal renderings are not modelled. *)

From S2P Require Export GoStrings Float.

(** ** Vocabulary *)

Definition DecisionTypeVAD : string := "vad".
Definition DecisionTypeCap : string := "cap".
Definition DecisionTypeSTTDispatch : string := "stt_dispatch".
Definition DecisionTypeSTTResult : string := "stt_result".
Definition DecisionTypeModelRoute : string := "model_route".

Definition DecisionKindSpeechStart : string := "speech-start".
Definition DecisionKindSilence : string := "silence".
Definition DecisionKindEndOfUtter : string := "end-of-utterance".
Definition DecisionKindTurnEnd : string := "turn-end".
Definition DecisionKindUtteranceCap : string := "utterance-cap".
Definition DecisionKindTurnCap : string := "turn-cap".
Definition DecisionKindIdleTimeout : string := "idle-timeout".
Definition DecisionKindResponseCap : string := "response-cap".
Definition DecisionKindModelRoute : string := "model-route".

Definition DecisionParamSpeechThresh : string := "SpeechThresh".
Definition DecisionParamSilenceThresh : string := "SilenceThresh".
Definition DecisionParamEndSilence : string := "EndSilenceMS".
Definition DecisionParamTurnEndSilence : string := "TurnEndSilenceMS".
Definition DecisionParamMaxUtterance : string := "MaxUtteranceMS".
Definition DecisionParamMaxTurn : string := "MaxTurnMS".
Definition DecisionParamMaxSilence : string := "MaxSilenceMS".
Definition DecisionParamMaxResponse : string := "MaxResponseMS".
Definition DecisionParamRouteTier : string := "RouteTier".

Definition modelRouteShadowEffect : string := "shadow only; turn answered unchanged".

(** The dynamic types the code stores in [ParamValue any]. *)
Inductive param_value := PNil | PInt (n : Z) | PFloat32 (x : gofloat) | PString (s : string).

Record DecisionEvent := mkDecision {
  d_Seq : Z;
  d_AudioMS : Z;
  d_Type : string;
  d_Kind : string;
  d_Param : string;
  d_ParamValue : param_value;
  d_Prob : gofloat;
  d_SilenceCount : Z;
  d_RequestID : Z;
  d_Effect : string;
  d_Text : string;
  d_LatencyMS : Z;
  d_AudioBytes : Z;
  d_STTDurSec : gofloat;
  d_RouteReason : string
}.
#[export] Instance DecisionEvent_eta : Eta DecisionEvent := fun e =>
  mkDecision (d_Seq e) (d_AudioMS e) (d_Type e) (d_Kind e) (d_Param e) (d_ParamValue e)
    (d_Prob e) (d_SilenceCount e) (d_RequestID e) (d_Effect e) (d_Text e) (d_LatencyMS e)
    (d_AudioBytes e) (d_STTDurSec e) (d_RouteReason e).

(** The zero value, from which the literals of the code fill in fields. *)
Definition decision0 : DecisionEvent :=
  mkDecision 0 0 "" "" "" PNil f_zero 0 0 "" "" 0 0 f_zero "".

(** ** [EventLogEnabled] *)

Definition EventLogEnabled (env : string) : bool :=
  let v := ToLower (TrimSpace env) in
  bool_decide (v ∈ ["1"; "true"; "yes"; "on"]%string).

(** ** Totals *)

Record decisionTotals := mkTotals { Events : Z; Utterances : Z; Turns : Z; STTCalls : Z }.

Definition is_turn_kind (k : string) : bool :=
  bool_decide (k = DecisionKindTurnEnd) || bool_decide (k = DecisionKindTurnCap) ||
  bool_decide (k = DecisionKindUtteranceCap).

(** One iteration of the loop: the first matching case of the switch. *)
Definition totals_step (t : decisionTotals) (ev : DecisionEvent) : decisionTotals :=
  if bool_decide (d_Kind ev = DecisionKindEndOfUtter)
  then mkTotals (Events t) (Utterances t + 1) (Turns t) (STTCalls t)
  else if is_turn_kind (d_Kind ev)
  then mkTotals (Events t) (Utterances t) (Turns t + 1) (STTCalls t)
  else if bool_decide (d_Type ev = DecisionTypeSTTDispatch)
  then mkTotals (Events t) (Utterances t) (Turns t) (STTCalls t + 1)
  else t.

Definition computeTotals (events : list DecisionEvent) : decisionTotals :=
  fold_left totals_step events (mkTotals (Z.of_nat (length events)) 0 0 0).

(** ** [FileDecisionRecorder] *)

(** [live] is what has been echoed, [files] what has been written on disk. *)
Inductive file_write :=
| WroteHeader (sid : string) (totals : decisionTotals)
| WroteEvents (sid : string) (events : list DecisionEvent).

Record recorder := mkRecorder {
  r_sid : string;
  r_seq : Z;
  r_buf : list DecisionEvent;
  r_closed : bool;
  r_live : list DecisionEvent;
  r_files : list file_write
}.
#[export] Instance recorder_eta : Eta recorder := fun r =>
  mkRecorder (r_sid r) (r_seq r) (r_buf r) (r_closed r) (r_live r) (r_files r).

(** [None] for an empty directory. *)
Definition NewFileDecisionRecorder (dir streamSID : string) : option recorder :=
  if bool_decide (dir = ""%string) then None
  else Some (mkRecorder streamSID 0 [] false [] []).

Definition Record_ (r : recorder) (ev : DecisionEvent) : recorder :=
  if r_closed r then r else
  let r := r <| r_seq ::= Z.succ |> in
  let ev := ev <| d_Seq := r_seq r |> in
  r <| r_buf ::= fun b => b ++ [ev] |> <| r_live ::= fun l => l ++ [ev] |>.

(** [hdrOK] and [bodyOK] say whether each write succeeds.  The recorder is
    marked closed before either is tried. *)
Definition CloseRecorder (hdrOK bodyOK : bool) (r : recorder) : result unit * recorder :=
  if r_closed r then (Ok tt, r) else
  let r := r <| r_closed := true |> in
  if negb hdrOK then (Err "decision recorder: write header", r) else
  let r := r <| r_files ::= fun f => f ++ [WroteHeader (r_sid r) (computeTotals (r_buf r))] |> in
  if negb bodyOK then (Err "decision recorder: write events", r) else
  (Ok tt, r <| r_files ::= fun f => f ++ [WroteEvents (r_sid r) (r_buf r)] |>).

(** The option is a no-op unless the flag is on and the directory is set. *)
Definition WithFileDecisionRecorderFromEnv (env dir streamSID : string) : option recorder :=
  if negb (EventLogEnabled env) then None else NewFileDecisionRecorder dir streamSID.

(** ** Facts *)

Definition add_totals (a b : decisionTotals) : decisionTotals :=
  mkTotals (Events a + Events b) (Utterances a + Utterances b) (Turns a + Turns b)
    (STTCalls a + STTCalls b).

Definition counts0 (events : list DecisionEvent) : decisionTotals :=
  fold_left totals_step events (mkTotals 0 0 0 0).

Lemma totals_fold events : forall t,
  fold_left totals_step events t =
  mkTotals (Events t) (Utterances t + Utterances (counts0 events))
    (Turns t + Turns (counts0 events)) (STTCalls t + STTCalls (counts0 events)).
Proof.
  induction events as [|ev events IH]; intros [e u t s]; cbn [fold_left].
  - simpl. f_equal; lia.
  - unfold counts0; cbn [fold_left]. rewrite !IH.
    generalize (counts0 events). intros z.
    unfold totals_step. repeat case_match; cbn [Events Utterances Turns STTCalls]; f_equal; lia.
Qed.

Lemma computeTotals_counts l :
  computeTotals l = mkTotals (Z.of_nat (length l)) (Utterances (counts0 l)) (Turns (counts0 l))
    (STTCalls (counts0 l)).
Proof. unfold computeTotals. rewrite totals_fold. reflexivity. Qed.

(** The totals of a recording are those of its parts. *)
Lemma computeTotals_app l1 l2 :
  computeTotals (l1 ++ l2) = add_totals (computeTotals l1) (computeTotals l2).
Proof.
  rewrite !computeTotals_counts. unfold add_totals, counts0 at 1 2 3.
  rewrite fold_left_app, length_app. fold (counts0 l1).
  rewrite (totals_fold l2 (counts0 l1)). cbn [Events Utterances Turns STTCalls]. f_equal; lia.
Qed.

(** Each event counts in at most one column, and the columns count exactly the
    end-of-utterance, turn-closing and dispatch events. *)
Lemma computeTotals_count events :
  let t := computeTotals events in
  Events t = Z.of_nat (length events) /\
  Utterances t = Z.of_nat (length (filter (fun e => d_Kind e = DecisionKindEndOfUtter) events)) /\
  Turns t = Z.of_nat (length (filter (fun e => is_turn_kind (d_Kind e) = true) events)) /\
  Utterances t + Turns t + STTCalls t <= Events t.
Proof.
  induction events as [|ev events IH]; [done|].
  change (ev :: events) with ([ev] ++ events). cbv zeta in *. rewrite computeTotals_app.
  revert IH. generalize (computeTotals events). intros z (E1 & E2 & E3 & E4).
  rewrite !filter_app, !length_app, !Nat2Z.inj_add, <- E2, <- E3, <- E1.
  change (computeTotals [ev]) with (totals_step (mkTotals 1 0 0 0) ev). unfold totals_step.
  assert (is_turn_kind DecisionKindEndOfUtter = false) as Hk by reflexivity.
  destruct (bool_decide_reflect (d_Kind ev = DecisionKindEndOfUtter)) as [Hd|Hd].
  - rewrite !filter_cons, decide_True, decide_False by (rewrite ?Hd, ?Hk; done).
    simpl. lia.
  - rewrite !filter_cons, (decide_False (P := d_Kind ev = _)) by done.
    destruct (is_turn_kind (d_Kind ev)) eqn:Ht; [simpl; lia|].
    case_bool_decide; simpl; lia.
Qed.

(** The recorder while it is open: consecutive sequence numbers from 1. *)
Definition recorder_ok (r : recorder) : Prop :=
  r_seq r = Z.of_nat (length (r_buf r)) /\ r_live r = r_buf r /\
  forall i ev, r_buf r !! i = Some ev -> d_Seq ev = Z.of_nat i + 1.

Lemma recorder_ok_new dir sid r : NewFileDecisionRecorder dir sid = Some r -> recorder_ok r.
Proof. unfold NewFileDecisionRecorder. case_bool_decide; intros [= <-]. by split_and!. Qed.

Lemma recorder_ok_record r ev : recorder_ok r -> recorder_ok (Record_ r ev).
Proof.
  intros (Hs & Hl & Hi). unfold Record_. case_match; [done|]. unfold recorder_ok; usimpl.
  rewrite Hl, length_app. simpl. split_and!; [lia|done|].
  intros i e He. apply lookup_app_Some in He as [He|[Hge He]]; [eauto|].
  destruct (i - length (r_buf r))%nat as [|k] eqn:Ek; [|by destruct k].
  simpl in He. injection He as <-. simpl. lia.
Qed.

Lemma recorder_ok_close a b r : recorder_ok r -> recorder_ok (snd (CloseRecorder a b r)).
Proof. intros H. unfold CloseRecorder. repeat case_match; done. Qed.

Definition record_all (r : recorder) (evs : list DecisionEvent) : recorder := fold_left Record_ evs r.

Lemma record_all_open evs : forall r, r_closed r = false ->
  r_closed (record_all r evs) = false /\ r_files (record_all r evs) = r_files r /\
  r_sid (record_all r evs) = r_sid r /\
  exists evs', r_buf (record_all r evs) = r_buf r ++ evs' /\ length evs' = length evs /\
    map (fun e => e <| d_Seq := 0 |>) evs' = map (fun e => e <| d_Seq := 0 |>) evs.
Proof.
  induction evs as [|ev evs IH]; intros r Hc; cbn [record_all fold_left].
  - split_and!; try done. exists []. by rewrite app_nil_r.
  - destruct (IH (Record_ r ev)) as (H1 & H2 & H3 & evs' & H4 & H5 & H6).
    { unfold Record_. by rewrite Hc. }
    unfold record_all in *. rewrite H2, H3, H4. unfold Record_ in *. rewrite Hc in *. usimpl.
    split_and!; try done. eexists (_ :: evs'). rewrite <- app_assoc. split; [reflexivity|].
    simpl. by rewrite H5, H6.
Qed.

Lemma record_all_ok evs : forall r, recorder_ok r -> recorder_ok (record_all r evs).
Proof. induction evs as [|ev evs IH]; intros r Hr; [done|]. by apply IH, recorder_ok_record. Qed.

Lemma computeTotals_seq evs1 evs2 :
  map (fun e => e <| d_Seq := 0 |>) evs1 = map (fun e => e <| d_Seq := 0 |>) evs2 ->
  computeTotals evs1 = computeTotals evs2.
Proof.
  intros E. assert (length evs1 = length evs2) as Hl by (apply (f_equal length) in E; by rewrite !length_map in E).
  unfold computeTotals. rewrite Hl. generalize (mkTotals (Z.of_nat (length evs2)) 0 0 0).
  clear Hl. revert evs2 E; induction evs1 as [|e1 evs1 IH]; intros [|e2 evs2] E t; try done.
  cbn [map] in E. apply (f_equal tail) in E as E2. apply (f_equal head) in E.
  cbn [tail head] in *. injection E as _ Ety Ek.
  cbn [fold_left]. rewrite (IH evs2 E2).
  f_equal. unfold totals_step. by rewrite Ety, Ek.
Qed.

(** Closing an open recorder writes one header with the totals of the recorded events
    and all events numbered from 1 in order; later records and closes change nothing. *)
Theorem recorder_close_writes dir sid r evs late :
  NewFileDecisionRecorder dir sid = Some r ->
  let '(res, r') := CloseRecorder true true (record_all r evs) in
  exists written,
    res = Ok tt /\
    r_files r' = [WroteHeader sid (computeTotals evs); WroteEvents sid written] /\
    map (fun e => e <| d_Seq := 0 |>) written = map (fun e => e <| d_Seq := 0 |>) evs /\
    (forall i ev, written !! i = Some ev -> d_Seq ev = Z.of_nat i + 1) /\
    CloseRecorder true true (record_all r' late) = (Ok tt, r').
Proof.
  intros Hn. pose proof (recorder_ok_new _ _ _ Hn) as Hok.
  unfold NewFileDecisionRecorder in Hn. case_bool_decide; simplify_eq.
  set (r := mkRecorder sid 0 [] false [] []) in *.
  destruct (record_all_open evs r eq_refl) as (H1 & H2 & H3 & evs' & H4 & H5 & H6).
  pose proof (record_all_ok evs r Hok) as (_ & _ & Hi).
  unfold CloseRecorder at 1. rewrite H1. usimpl.
  exists evs'. rewrite H2, H3, H4. simpl.
  split_and!; [done| |done| |].
  - by rewrite (computeTotals_seq _ _ H6).
  - intros i ev He. apply Hi. by rewrite H4.
  - set (r' := mkRecorder _ _ _ _ _ _).
    assert (record_all r' late = r') as ->; [|done].
    induction late as [|e late IH]; [done|]. unfold record_all in *. simpl. exact IH.
Qed.

Lemma recorder_close_writes_witness :
  exists r, NewFileDecisionRecorder "tap" "MZ1" = Some r /\
  let '(res, r') := CloseRecorder true true (record_all r [decision0]) in
  exists written,
    res = Ok tt /\
    r_files r' = [WroteHeader "MZ1" (computeTotals [decision0]); WroteEvents "MZ1" written] /\
    map (fun e => e <| d_Seq := 0 |>) written = map (fun e => e <| d_Seq := 0 |>) [decision0] /\
    (forall i ev, written !! i = Some ev -> d_Seq ev = Z.of_nat i + 1) /\
    CloseRecorder true true (record_all r' [decision0]) = (Ok tt, r').
Proof.
  eexists. split; [reflexivity|].
  exact (recorder_close_writes "tap" "MZ1" _ [decision0] [decision0] eq_refl).
Defined.
