(* ===== verification/Stt.v ===== *)
(** * Stt: the speech-to-text service loop and clip splitting

    Models [telephony/stt.go]: the request and result records, [Transcribe]'s
    splitting of long clips, and the [sttService.run] loop with its bounded set
    of abandoned requests.  One chunk's transcription is an HTTP exchange with
    the sidecar ([transcribeChunk]): a parameter here. *)

From S2P Require Export Wav GoStrings.

Definition sttSampleRate : Z := 8000.
Definition maxClipBytes : Z := 30 * sttSampleRate.

Definition FullPass : string := "full".

Record STTSegment := mkSegment {
  seg_Text : string; seg_Start : gofloat; seg_End : gofloat;
  seg_AvgLogprob : gofloat; seg_NoSpeechProb : gofloat
}.

Record STTRequest := mkSTTRequest {
  req_SessionID : string;
  req_RequestID : Z;
  req_Kind : string;
  req_Audio : bytes
}.

Record STTResult := mkSTTResult {
  res_SessionID : string;
  res_RequestID : Z;
  res_Kind : string;
  res_Text : string;
  res_Language : string;
  res_Duration : gofloat;
  res_Segments : list STTSegment
}.
#[export] Instance STTResult_eta : Eta STTResult := fun r =>
  mkSTTResult (res_SessionID r) (res_RequestID r) (res_Kind r) (res_Text r) (res_Language r)
    (res_Duration r) (res_Segments r).

Definition STTResult0 : STTResult := mkSTTResult "" 0 "" "" "" f_zero [].

(** ** [Transcribe] *)

Section Transcribe.
Variable transcribeChunk : string -> bytes -> result STTResult.

(** The loop over the chunks: the first chunk's record, and every text. *)
Fixpoint transcribe_chunks (id : string) (i : Z) (cs : list bytes) (combined : option STTResult)
    (parts : list string) : result (option STTResult * list string) :=
  match cs with
  | [] => Ok (combined, parts)
  | c :: cs' =>
      match transcribeChunk id c with
      | Ok r =>
          transcribe_chunks id (i + maxClipBytes) cs' (match combined with None => Some r | Some _ => combined end)
            (parts ++ [res_Text r])
      | Err e => Err ("chunk at " +:+ pretty (i / sttSampleRate) +:+ "s: " +:+ e)
      | Panic e => Panic e
      end
  end.

Definition Transcribe (id : string) (mulawBytes : bytes) : result STTResult :=
  if len mulawBytes =? 0 then Ok STTResult0 else
  if len mulawBytes <=? maxClipBytes then transcribeChunk id mulawBytes else
  match transcribe_chunks id 0 (chunks (Z.to_nat maxClipBytes) mulawBytes) None [] with
  | Ok (combined, parts) => Ok (default STTResult0 combined <| res_Text := Join parts " " |>)
  | Err e => Err e
  | Panic e => Panic e
  end.
End Transcribe.

(** ** The service loop *)

Definition maxAbandoned : nat := 1024.

Record sttState := mkSttState { abandoned : gset (string * Z); order : list (string * Z) }.

Definition sttState0 : sttState := mkSttState ∅ [].

(** One value from [CancelChan]. *)
Definition drain_cancel (st : sttState) (cancel : string * Z) : sttState :=
  if bool_decide (cancel ∈ abandoned st) then st else
  let st := mkSttState ({[cancel]} ∪ abandoned st) (order st ++ [cancel]) in
  if bool_decide (maxAbandoned < length (order st))%nat then
    match order st with
    | o :: rest => mkSttState (abandoned st ∖ {[o]}) rest
    | [] => st
    end
  else st.

Section Serve.
Variable transcribe : string -> bytes -> result STTResult.

(** One request received: the new state, and the result sent, if any. *)
Definition serve (st : sttState) (req : STTRequest) : sttState * option STTResult :=
  let key := (req_SessionID req, req_RequestID req) in
  if bool_decide (key ∈ abandoned st) then
    (mkSttState (abandoned st ∖ {[key]}) (order st), None)
  else
    match transcribe (pretty (req_RequestID req)) (req_Audio req) with
    | Ok r =>
        (st, Some (r <| res_SessionID := req_SessionID req |>
                     <| res_RequestID := req_RequestID req |>
                     <| res_Kind := req_Kind req |>))
    | _ => (st, None)
    end.

(** One turn of the outer loop: the pending cancels, then a request. *)
Definition stt_round (st : sttState) (round : list (string * Z) * STTRequest)
  : sttState * option STTResult :=
  serve (fold_left drain_cancel (fst round) st) (snd round).

Fixpoint stt_run (st : sttState) (rounds : list (list (string * Z) * STTRequest))
  : sttState * list STTResult :=
  match rounds with
  | [] => (st, [])
  | r :: rounds' =>
      let '(st1, o) := stt_round st r in
      let '(st2, out) := stt_run st1 rounds' in (st2, option_list o ++ out)
  end.
End Serve.

(** ** Facts *)

Definition stt_inv (st : sttState) : Prop :=
  (length (order st) <= maxAbandoned)%nat /\ forall k, k ∈ abandoned st -> k ∈ order st.

Lemma stt_inv_drain st c : stt_inv st -> stt_inv (drain_cancel st c).
Proof.
  intros [Hl Hin]. unfold drain_cancel. case_bool_decide as Hc; [done|].
  cbn [order]. case_bool_decide as Hn.
  - destruct (order st ++ [c]) as [|o rest] eqn:E; cbn [order abandoned]; [by destruct (order st)|].
    apply (f_equal length) in E as El. rewrite length_app in El. cbn [length] in El.
    split; cbn [order abandoned]; [lia|].
    intros k [Hk Hne]%elem_of_difference. assert (k ∈ order st ++ [c]) as Hk'.
    { apply elem_of_app. set_solver. }
    rewrite E in Hk'. set_solver.
  - split; cbn [order abandoned] in *; [lia|]. intros k Hk. apply elem_of_app. set_solver.
Qed.

Lemma stt_inv_serve tr st r : stt_inv st -> stt_inv (fst (serve tr st r)).
Proof.
  intros [Hl Hin]. unfold serve. case_bool_decide; [|case_match; done].
  split; cbn; [done|set_solver].
Qed.

Lemma stt_inv_cancels cs : forall st, stt_inv st -> stt_inv (fold_left drain_cancel cs st).
Proof. induction cs as [|c cs IH]; intros st H; [done|]. by apply IH, stt_inv_drain. Qed.

Lemma stt_inv_size st : stt_inv st -> (size (abandoned st) <= maxAbandoned)%nat.
Proof.
  intros [Hl Hin].
  assert (abandoned st ⊆ list_to_set (order st)) as Hsub by (intros k Hk; apply elem_of_list_to_set; auto).
  apply subseteq_size in Hsub.
  assert (forall l : list (string * Z), size (list_to_set l : gset (string * Z)) <= length l)%nat as H.
  { induction l as [|x l IH]; [by rewrite list_to_set_nil, size_empty|].
    rewrite list_to_set_cons, size_union_alt, size_singleton. cbn [length].
    assert (size (list_to_set l ∖ {[x]} : gset (string * Z)) <= size (list_to_set l : gset (string * Z)))%nat
      by (apply subseteq_size; set_solver). lia. }
  specialize (H (order st)). lia.
Qed.

Lemma stt_run_inv tr rounds : forall st, stt_inv st -> stt_inv (fst (stt_run tr st rounds)).
Proof.
  induction rounds as [|[cs r] rounds IH]; intros st H; [done|].
  cbn [stt_run stt_round fst snd].
  pose proof (stt_inv_serve tr _ r (stt_inv_cancels cs st H)) as H1.
  unfold stt_round; cbn [fst snd]. destruct (serve tr _ r) as [st1 o]. specialize (IH st1 H1).
  by destruct (stt_run tr st1 rounds).
Qed.

(** Over any rounds of cancellations and requests, the STT service remembers at most
    1024 abandoned requests, and every result it sends carries the session, id and kind of a
    request it received. *)
Theorem stt_run_bounded tr rounds :
  let '(st, out) := stt_run tr sttState0 rounds in
  (size (abandoned st) <= maxAbandoned)%nat /\ (length (order st) <= maxAbandoned)%nat /\
  Forall (fun res => exists cs req, (cs, req) ∈ rounds /\
    res_SessionID res = req_SessionID req /\ res_RequestID res = req_RequestID req /\
    res_Kind res = req_Kind req) out.
Proof.
  assert (stt_inv sttState0) as H0 by (split; simpl; [lia|set_solver]).
  pose proof (stt_run_inv tr rounds sttState0 H0) as Hinv.
  destruct (stt_run tr sttState0 rounds) as [st out] eqn:E; cbn [fst] in *.
  split_and!; [by apply stt_inv_size|apply Hinv|].
  clear Hinv H0. revert st out E. generalize sttState0.
  induction rounds as [|[cs r] rounds IH]; intros st0 st out E; simpl in E; [by simplify_eq|].
  unfold stt_round in E; cbn [fst snd] in E.
  destruct (serve tr _ r) as [st1 o] eqn:Es. destruct (stt_run tr st1 rounds) as [st2 out2] eqn:Er.
  simplify_eq. apply Forall_app; split.
  - unfold serve in Es. repeat case_match; simplify_eq; simpl; constructor; try done.
    exists cs, r. split; [set_solver|done].
  - eapply Forall_impl; [by eapply IH|]. intros res (cs' & req & Hin & H). exists cs', req.
    split; [set_solver|done].
Qed.

(** A clip longer than 30 s is cut into chunks that together are the clip, none longer
    than 30 s, and when every chunk is transcribed the result is the first chunk's with the
    texts of all joined in order. *)
Theorem Transcribe_covers_clip tc id clip :
  maxClipBytes < len clip ->
  let cs := chunks (Z.to_nat maxClipBytes) clip in
  concat cs = clip /\ Forall (fun c => len c <= maxClipBytes) cs /\
  forall rs, Forall2 (fun c r => tc id c = Ok r) cs rs ->
    exists first, rs !! 0%nat = Some first /\
      Transcribe tc id clip = Ok (first <| res_Text := Join (map res_Text rs) " " |>).
Proof.
  intros Hl cs. assert (0 < Z.to_nat maxClipBytes)%nat as Hpos by (unfold maxClipBytes, sttSampleRate; lia).
  split; [|split].
  - by apply chunks_concat.
  - eapply Forall_impl; [apply chunks_bound|]. intros c Hc. unfold len. unfold maxClipBytes in *. lia.
  - intros rs Hrs. unfold Transcribe.
    destruct (Z.eqb_spec (len clip) 0); [unfold maxClipBytes, sttSampleRate in *; lia|].
    destruct (Z.leb_spec (len clip) maxClipBytes); [lia|]. fold cs.
    assert (forall cs rs i comb parts, Forall2 (fun c r => tc id c = Ok r) cs rs ->
      transcribe_chunks tc id i cs comb parts =
      Ok (match comb with None => rs !! 0%nat | _ => comb end, parts ++ map res_Text rs)) as Hloop.
    { clear. intros cs rs i comb parts H. revert i comb parts.
      induction H as [|c r cs rs Hc H IH]; intros i comb parts; simpl.
      - rewrite app_nil_r. by destruct comb.
      - rewrite Hc, IH, <- app_assoc. simpl. by destruct comb. }
    rewrite (Hloop cs rs 0 None [] Hrs). simpl.
    destruct rs as [|first rs]; [|by exists first].
    exfalso. inversion Hrs as [E|]. unfold cs, chunks in E.
    destruct clip as [|b clip]; [unfold len, maxClipBytes, sttSampleRate in *; simpl in *; lia|]. discriminate.
Qed.

Lemma Transcribe_covers_clip_witness :
  exists clip : bytes, maxClipBytes < len clip /\ concat (chunks (Z.to_nat maxClipBytes) clip) = clip.
Proof.
  assert (maxClipBytes < len (replicate (Z.to_nat 240001) 0)) as H.
  { unfold len, maxClipBytes, sttSampleRate. rewrite length_replicate, Z2Nat.id; lia. }
  exists (replicate (Z.to_nat 240001) 0). split; [exact H|].
  exact (proj1 (Transcribe_covers_clip (fun _ _ => Ok STTResult0) "1" _ H)).
Defined.
