(* ===== verification/Transcript.v ===== *)
(** * Transcript: the end-of-call conversation summary

    Models [formatTranscript] of [telephony/transcript.go].  The summary's
    text is a value here; writing it to the live writer and the file is the
    session's [emitTranscript]. *)

From S2P Require Export GoStrings.

Definition defaultAgentLabel : string := "agent".

#[local] Open Scope string_scope.

Definition newline : string := String (Ascii.ascii_of_nat 10) "".

(** The utterances of one turn: [j > 0] writes the separating space. *)
Fixpoint format_utterances (first : bool) (turn : list string) : string :=
  match turn with
  | [] => ""
  | utt :: turn' =>
      (if first then "" else " ") +:+ "[" +:+ utt +:+ "]" +:+ format_utterances false turn'
  end.

Fixpoint format_turns (userPrefix agentLine : string) (turns : list (list string)) : string :=
  match turns with
  | [] => ""
  | turn :: rest =>
      userPrefix +:+ format_utterances true turn +:+ newline +:+
      (match rest with [] => "" | _ => agentLine end) +:+
      format_turns userPrefix agentLine rest
  end.

Definition formatTranscript (turns : list (list string)) (agentLabel : string) : string :=
  let labelW := Nat.max (slen "user") (slen agentLabel) in
  format_turns (pad_right labelW "user" +:+ " --> ")
    (pad_right labelW agentLabel +:+ " ->  []" +:+ newline) turns.

(** ** Facts *)

Fixpoint count_char (c : Ascii.ascii) (s : string) : nat :=
  match s with
  | "" => 0
  | String d s' => (if Ascii.eqb c d then 1 else 0) + count_char c s'
  end%nat.

Lemma count_char_append c s1 s2 :
  count_char c (s1 +:+ s2) = (count_char c s1 + count_char c s2)%nat.
Proof. induction s1 as [|d s1 IH]; [done|]. simpl in *. rewrite IH. lia. Qed.

Lemma count_char_spaces c n :
  c <> Ascii.ascii_of_nat 32 -> count_char c (spaces n) = O.
Proof.
  intros Hc. induction n as [|n IH]; [done|]. cbn [spaces count_char]. rewrite IH.
  destruct (Ascii.eqb_spec c (Ascii.ascii_of_nat 32)); [done|lia].
Qed.

Definition nl : Ascii.ascii := Ascii.ascii_of_nat 10.

Definition one_line (s : string) : Prop := count_char nl s = O.

Lemma format_utterances_one_line b turn :
  Forall one_line turn -> one_line (format_utterances b turn).
Proof.
  intros H. revert b; induction H as [|u turn Hu _ IH]; intros b; [done|].
  unfold one_line in *. cbn [format_utterances]. rewrite !count_char_append, Hu, IH.
  by destruct b.
Qed.

(** Every user turn takes one line, and every gap between two turns one agent
    line, whatever the label: a transcript of [n] turns has [2n - 1] lines. *)
Lemma formatTranscript_lines turns agentLabel :
  Forall (Forall one_line) turns -> one_line agentLabel ->
  count_char nl (formatTranscript turns agentLabel) = (2 * length turns - 1)%nat.
Proof.
  intros Ht Ha. unfold formatTranscript.
  set (w := Nat.max _ _).
  assert (count_char nl (pad_right w "user" +:+ " --> ") = O) as Hu.
  { unfold pad_right. rewrite count_char_append. cbn [String.append].
    unfold String.append at 1. fold String.append.
    cbn [count_char]. rewrite (count_char_spaces nl _ ltac:(done)). done. }
  assert (count_char nl (pad_right w agentLabel +:+ " ->  []" +:+ newline) = 1%nat) as Hl.
  { unfold pad_right. rewrite !count_char_append, Ha, (count_char_spaces nl _ ltac:(done)). done. }
  revert Hu Hl. generalize (pad_right w "user" +:+ " --> ") as up.
  generalize (pad_right w agentLabel +:+ " ->  []" +:+ newline) as al. intros al up Hu Hl.
  induction Ht as [|turn rest Ht _ IH]; [done|].
  cbn [format_turns]. rewrite !count_char_append, Hu, (format_utterances_one_line true turn Ht), IH.
  destruct rest as [|t2 rest]; [done|]. rewrite Hl. cbn [length]. change (count_char nl newline) with 1%nat. lia.
Qed.

Example formatTranscript_example :
  formatTranscript [["hello"; "there"]; ["bye"]] "agent" =
  "user  --> [hello] [there]" +:+ newline +:+ "agent ->  []" +:+ newline +:+
  "user  --> [bye]" +:+ newline.
Proof. reflexivity. Qed.
