(* ===== verification/Routers.v ===== *)
(** * Routers: per-session delivery of STT results and of replies

    Models [telephony/sttrouter.go] and [telephony/reply_router.go].  A route
    is a pointer in the code; here an identity drawn from a counter, so that
    "still the route registered under this session" is the comparison of
    identities the code makes.  A mutex serialises the operations, which are
    therefore the atomic steps of the model. *)

From S2P Require Export Stt Service.

(** ** The STT router *)

Module SttRouter.

Definition sttRouteDepth : nat := 16.

(** [owner] remembers which session a route was made for (ghost). *)
Record STTRouter := mkSTTRouter {
  next : Z;
  routes : gmap string Z;
  chans : gmap Z (BufferedChan STTResult);
  owner : gmap Z string
}.
#[export] Instance STTRouter_eta : Eta STTRouter := fun r =>
  mkSTTRouter (next r) (routes r) (chans r) (owner r).

Definition NewSTTRouter : STTRouter := mkSTTRouter 0 ∅ ∅ ∅.

Definition Register (sessionID : string) (r : STTRouter) : Z * STTRouter :=
  let route := next r in
  (route, mkSTTRouter (Z.succ route) (<[sessionID := route]> (routes r))
            (<[route := NewBufferedChan sttRouteDepth]> (chans r))
            (<[route := sessionID]> (owner r))).

Definition Deregister (sessionID : string) (route : Z) (r : STTRouter) : STTRouter :=
  if bool_decide (routes r !! sessionID = Some route)
  then r <| routes ::= delete sessionID |> else r.

(** One iteration of [Run]'s loop; the send never blocks. *)
Definition Run_step (res : STTResult) (r : STTRouter) : STTRouter :=
  match routes r !! res_SessionID res with
  | None => r
  | Some route =>
      match chans r !! route with
      | None => r
      | Some bc =>
          match chan_try_send (Service.cap bc) res (buf bc) with
          | Some b => r <| chans ::= <[route := mkBufferedChan (Service.cap bc) b]> |>
          | None => r
          end
      end
  end.

(** The session's receive from its own route. *)
Definition Recv_route (route : Z) (r : STTRouter) : STTRouter :=
  match chans r !! route with
  | Some bc => r <| chans ::= <[route := mkBufferedChan (Service.cap bc) (tail (buf bc))]> |>
  | None => r
  end.

Inductive op :=
| ORegister (sid : string)
| ODeregister (sid : string) (route : Z)
| ORun (res : STTResult)
| ORecv (route : Z).

Definition step (r : STTRouter) (o : op) : STTRouter :=
  match o with
  | ORegister sid => snd (Register sid r)
  | ODeregister sid route => Deregister sid route r
  | ORun res => Run_step res r
  | ORecv route => Recv_route route r
  end.

Definition run (ops : list op) : STTRouter := fold_left step ops NewSTTRouter.

Record inv (r : STTRouter) : Prop := {
  inv_fresh : forall g, next r <= g -> chans r !! g = None /\ owner r !! g = None;
  inv_routes : forall sid g, routes r !! sid = Some g -> owner r !! g = Some sid;
  inv_chans : forall g bc, chans r !! g = Some bc ->
    Service.cap bc = sttRouteDepth /\ (length (buf bc) <= sttRouteDepth)%nat /\
    exists sid, owner r !! g = Some sid /\ Forall (fun res => res_SessionID res = sid) (buf bc);
}.

Lemma inv_new : inv NewSTTRouter.
Proof. split; intros *; simpl; rewrite ?lookup_empty; done. Qed.

Lemma inv_step r o : inv r -> inv (step r o).
Proof.
  intros [Hf Hr Hc]. destruct o as [sid|sid g|res|g]; simpl.
  - destruct (Hf (next r) ltac:(lia)) as [Hn1 Hn2].
    split; simpl.
    + intros g Hg. rewrite !lookup_insert_ne by lia. apply Hf. lia.
    + intros sid' g. rewrite lookup_insert. case_decide; intros; simplify_eq.
      * by rewrite lookup_insert_eq.
      * specialize (Hr _ _ H0). rewrite lookup_insert_ne; [done|congruence].
    + intros g bc. rewrite lookup_insert. case_decide; intros; simplify_eq/=.
      * split; [done|]. split; [lia|]. exists sid. rewrite lookup_insert_eq. by constructor.
      * destruct (Hc _ _ H0) as (?&?&s&?&?). do 2 (split; [done|]). exists s.
        rewrite lookup_insert_ne; [done|congruence].
  - unfold Deregister. case_bool_decide; [|done]. split; usimpl; [done| |done].
    intros sid' g'. rewrite lookup_delete. case_decide; [done|auto].
  - unfold Run_step. destruct (routes r !! res_SessionID res) as [g|] eqn:E; [|done].
    destruct (chans r !! g) as [bc|] eqn:Eb; [|done].
    destruct (chan_try_send _ _ _) as [b|] eqn:Es; [|done].
    destruct (Hc _ _ Eb) as (Hcap&_&sd&Ho&HF). rewrite Hcap in *.
    pose proof (Hr _ _ E) as Ho'. rewrite Ho in Ho'. injection Ho' as ->.
    apply chan_try_send_bound in Es as [-> Hl]. split; usimpl; [|done|].
    + intros g' Hg'. destruct (Hf g' Hg') as [H1 H2]. rewrite lookup_insert_ne; [done|congruence].
    + intros g' bc'. rewrite lookup_insert. case_decide; intros; simplify_eq/=; [|by auto].
      do 2 (split; [done|]). exists (res_SessionID res). split; [done|]. by apply Forall_snoc.
  - unfold Recv_route. destruct (chans r !! g) as [bc|] eqn:Eb; [|done].
    destruct (Hc _ _ Eb) as (Hcap&Hl&sd&Ho&HF). split; usimpl; [|done|].
    + intros g' Hg'. destruct (Hf g' Hg') as [H1 H2]. rewrite lookup_insert_ne; [done|congruence].
    + intros g' bc'. rewrite lookup_insert. case_decide; intros; simplify_eq/=; [|by auto].
      split; [done|]. destruct (buf bc) as [|x b] eqn:Ebuf; simpl in *; [|inversion HF; subst].
      * split; [lia|]. by eexists.
      * split; [lia|]. by eexists.
Qed.

Lemma inv_run ops : inv (run ops).
Proof.
  unfold run. generalize inv_new. generalize NewSTTRouter.
  induction ops as [|o ops IH]; intros r H; [done|]. by apply IH, inv_step.
Qed.

(** After any operations, the queue of a route holds at most 16 results, all of the
    session the route was registered for, and a deregistration by another session or with
    another route leaves a registered route in place. *)
Theorem stt_router_isolated ops g bc sid :
  chans (run ops) !! g = Some bc -> owner (run ops) !! g = Some sid ->
  (length (buf bc) <= sttRouteDepth)%nat /\
  Forall (fun res => res_SessionID res = sid) (buf bc) /\
  (forall sid' g', sid' <> sid \/ g' <> g -> routes (run ops) !! sid = Some g ->
     routes (Deregister sid' g' (run ops)) !! sid = Some g).
Proof.
  intros Hb Ho. pose proof (inv_run ops) as [_ _ Hc].
  destruct (Hc _ _ Hb) as (_&Hl&s&Hs&HF). simplify_eq. split; [done|]. split; [done|].
  intros sid' g' Hne Hr. unfold Deregister. case_bool_decide; [|done]. usimpl.
  rewrite lookup_delete_ne; [done|]. intros ->. destruct Hne; congruence.
Qed.

Lemma stt_router_isolated_witness :
  exists ops bc, chans (run ops) !! 1 = Some bc /\ length (buf bc) = 1%nat /\
    routes (Deregister "CA1" 0 (run ops)) !! "CA1"%string = Some 1.
Proof.
  set (ops := [ORegister "CA1"; ORegister "CA1";
               ORun (mkSTTResult "CA1" 0 "" "" "" f_zero [])]).
  eexists ops, _. split; [vm_compute; reflexivity|]. split; [reflexivity|].
  exact (proj2 (proj2 (stt_router_isolated ops 1
    (mkBufferedChan sttRouteDepth [mkSTTResult "CA1" 0 "" "" "" f_zero []]) "CA1"%string
    ltac:(vm_compute; reflexivity) ltac:(vm_compute; reflexivity)))
    "CA1"%string 0 ltac:(right; done) ltac:(vm_compute; reflexivity)).
Defined.

End SttRouter.

(** ** The reply router *)

Module Reply.

Record ResponseEvent := mkResponse { OK : bool; Frames : list bytes }.

(** [responseIn] is the identity of the channel the sink was registered with. *)
Record ReplySink := mkSink { sink_id : Z; responseIn : Z; sessionID : string }.

Record ReplyRouter := mkReplyRouter {
  next_sink : Z;
  sinks : gmap string ReplySink
}.

Definition NewReplyRouter : ReplyRouter := mkReplyRouter 0 ∅.

Definition Register (sid : string) (responseIn : Z) (r : ReplyRouter) : ReplySink * ReplyRouter :=
  let sink := mkSink (next_sink r) responseIn sid in
  (sink, mkReplyRouter (Z.succ (next_sink r)) (<[sid := sink]> (sinks r))).

Definition Deregister (sid : string) (r : ReplyRouter) : ReplyRouter :=
  mkReplyRouter (next_sink r) (delete sid (sinks r)).

(** [cur == s] compares pointers. *)
Definition Close (s : ReplySink) (r : ReplyRouter) : ReplyRouter :=
  match sinks r !! sessionID s with
  | Some cur => if sink_id cur =? sink_id s then Deregister (sessionID s) r else r
  | None => r
  end.

Notation chan_store := (gmap Z (BufferedChan ResponseEvent)).

Inductive route_result := RouteOk | ErrUnknownSession | RouteErr.

(** [deliver sid ev]: the shared shape of [Route] and [Fail]. *)
Inductive deliver (ctxDone : bool) (r : ReplyRouter) (sid : string) (ev : ResponseEvent)
  : chan_store -> route_result -> chan_store -> Prop :=
| deliver_unknown m : sinks r !! sid = None -> deliver ctxDone r sid ev m ErrUnknownSession m
| deliver_ok m sink bc bc' : sinks r !! sid = Some sink -> m !! responseIn sink = Some bc ->
    Send ctxDone ev bc Done bc' ->
    deliver ctxDone r sid ev m RouteOk (<[responseIn sink := bc']> m)
| deliver_err m sink bc bc' : sinks r !! sid = Some sink -> m !! responseIn sink = Some bc ->
    Send ctxDone ev bc CtxErr bc' -> deliver ctxDone r sid ev m RouteErr m.

Definition Route (ctxDone : bool) (r : ReplyRouter) (sid : string) (frames : list bytes) :=
  deliver ctxDone r sid (mkResponse true frames).

Definition Fail_ (ctxDone : bool) (r : ReplyRouter) (sid : string) :=
  deliver ctxDone r sid (mkResponse false []).

(** A reply reaches the channel of the newest registration of its session and
    no other, and a stale sink's [Close] does not take the route away. *)
Lemma reply_route_newest r sid ch1 ch2 frames m res m' :
  let '(s1, r1) := Register sid ch1 r in
  let '(s2, r2) := Register sid ch2 r1 in
  Route false (Close s1 r2) sid frames m res m' ->
  res = RouteOk /\ (forall ch, ch <> ch2 -> m' !! ch = m !! ch) /\
  exists bc bc', m !! ch2 = Some bc /\ m' !! ch2 = Some bc' /\
    buf bc' = buf bc ++ [mkResponse true frames].
Proof.
  unfold Register. unfold Close; cbn -[Z.eqb Z.succ]. rewrite lookup_insert_eq. cbn -[Z.eqb Z.succ].
  destruct (Z.eqb_spec (Z.succ (next_sink r)) (next_sink r)); [lia|].
  intros H. inversion H as [|m0 sink bc bc' Hs Hm HS|m0 sink bc bc' Hs Hm HS]; simplify_eq;
    cbn -[Z.eqb Z.succ] in *; rewrite ?lookup_insert_eq in *; simplify_eq; cbn -[Z.succ] in *.
  - inversion HS; subst. split; [done|]. split.
    + intros ch Hch. by rewrite lookup_insert_ne.
    + eexists _, _. split; [done|]. split; [by rewrite lookup_insert_eq|done].
  - inversion HS; done.
Qed.

End Reply.
