(* ===== verification/Session.v ===== *)
(** * Session: the per-call state machine

    Models [telephony/session.go] and [telephony/state.go]: the session's
    state, its timers, its outputs, the (state, source) transition table with
    every handler, the select loop's [step], the goroutines that drain its
    channels, and [NewSession]/[Start]/[Close].

    The session is parametric in the timer facility ([TimerOps] of Timer.v).
    What leaves the session -- audio and control messages, TurnSink calls,
    decision records, the transport close -- is appended to [trace] in program
    order.  A send on an output channel returns nil or the context's error; an
    oracle indexed by the number of sends so far says which, so every theorem
    covers every pattern of failures.  A send that blocks for ever is not
    represented.  The embedded audio clips, the turn-end policy, the clock and
    the VAD factory's outcome are fields of [SessionOptions]. *)

From S2P Require Export Vad Timer Decision Stt Transcript Routers.
Export Reply(ResponseEvent, OK, Frames, mkResponse).

(** ** Vocabulary (session.go) *)

Record ControlEvent := mkControlEvent { ce_Kind : string; ce_MarkName : string; ce_CallSID : string }.

Definition controlKindStop : string := "stop".
Definition controlKindMark : string := "mark".
Definition farewellMarkName : string := "farewell".
Definition responseMarkName : string := "response".

Definition timerIdle : string := "idle".
Definition timerMarkEcho : string := "markEcho".
Definition timerUtterance : string := "utterance".
Definition timerResponse : string := "response".
Definition timerTurn : string := "turn".
Definition timerBedTick : string := "bedTick".

Definition bedTickMS : Z := 200.
Definition bedChunkBytes : Z := bedTickMS * SampleRateHz / 1000.
Definition farewellFrameBytes : Z := SampleRateHz * MuLawFrameMS / 1000.
Definition sttDispatchDepth : nat := 4.
Definition modelRouteDepth : nat := 4.

Inductive ControlOutMessage := ControlOutMark (MarkName : string) | ControlOutClear.

(** ** Vocabulary (state.go) *)

Definition MaxSilenceMS : Z := 15000.
Definition MaxUtteranceMS : Z := 45000.
Definition MaxTurnMS : Z := 60000.
Definition MarkEchoGraceMS : Z := 500.
Definition MaxResponseMS : Z := 45000.

Definition MarkEchoTimeout (clip : bytes) : Z :=
  let clipMS := Z.quot (len clip * 1000) SampleRateHz in
  clipMS * Millisecond + MarkEchoGraceMS * Millisecond.

Definition responseMarkEchoTimeout (frames : list bytes) : Z :=
  let totalBytes := fold_left (fun n f => n + len f) frames 0 in
  let clipMS := Z.quot (totalBytes * 1000) SampleRateHz in
  clipMS * Millisecond + MarkEchoGraceMS * Millisecond.

Inductive SessionState :=
| StateIdle | StateListening | StateAwaitingFullResult | StateAwaitingResponse
| StateAwaitingResponsePlayout | StateTerminating | StateAwaitingMarkEcho | StateClosed.
#[export] Instance SessionState_eq_dec : EqDecision SessionState.
Proof. solve_decision. Defined.

Definition AllStates : list SessionState :=
  [StateIdle; StateListening; StateAwaitingFullResult; StateAwaitingResponse;
   StateAwaitingResponsePlayout; StateTerminating; StateAwaitingMarkEcho; StateClosed].

Definition inProgressStates : list SessionState :=
  [StateIdle; StateListening; StateAwaitingFullResult].

Inductive InputSource :=
| SourceTwilioData | SourceTwilioControl | SourceVADEvent | SourceSTTResult | SourceIdleTimer
| SourceMarkEchoTimer | SourceUtteranceTimer | SourceResponseReady | SourceResponseTimer
| SourceTurnTimer | SourceBedTick.
#[export] Instance InputSource_eq_dec : EqDecision InputSource.
Proof. solve_decision. Defined.

Definition AllSources : list InputSource :=
  [SourceTwilioData; SourceTwilioControl; SourceVADEvent; SourceSTTResult; SourceIdleTimer;
   SourceMarkEchoTimer; SourceUtteranceTimer; SourceResponseReady; SourceResponseTimer;
   SourceTurnTimer; SourceBedTick].

Inductive TurnTrigger :=
| TriggerStopword | TriggerSilenceTurnEnd | TriggerIdleTimeout | TriggerUtteranceCap
| TriggerTurnCap | TriggerCallEnd | TriggerResponseCap.
#[export] Instance TurnTrigger_eq_dec : EqDecision TurnTrigger.
Proof. solve_decision. Defined.

(** [payload any], with the failing type assertion [v, _ := payload.(T)]
    yielding the zero value of [T]. *)
Inductive payload :=
| PayFrame (frame : bytes) | PayControl (cev : ControlEvent) | PayVAD (vev : VADEvent)
| PaySTT (res : STTResult) | PayResponse (rev : ResponseEvent) | PayNil.

Definition VADEvent0 : VADEvent := mkVADEvent VADSpeech f_zero 0 0 0 0 "".

Definition as_frame (p : payload) : bytes := match p with PayFrame f => f | _ => [] end.
Definition as_control (p : payload) : ControlEvent :=
  match p with PayControl c => c | _ => mkControlEvent "" "" "" end.
Definition as_vad (p : payload) : VADEvent := match p with PayVAD v => v | _ => VADEvent0 end.
Definition as_stt (p : payload) : STTResult := match p with PaySTT r => r | _ => STTResult0 end.
Definition as_response (p : payload) : ResponseEvent :=
  match p with PayResponse r => r | _ => mkResponse false [] end.

Record transitionEvent := mkTransition { source : InputSource; ev_payload : payload }.

(** ** Turn-end policy *)

Definition normalizeTranscript (s : string) : string :=
  TrimRight (ToLower (TrimSpace s)) ".!?,".

Definition StopwordPolicy_IsEndOfTurn (transcript : string) : bool :=
  bool_decide (normalizeTranscript transcript = "done"%string).

(** ** Session options and state *)

(** What a session sends out, in program order. *)
Inductive effect :=
| EDataSend (chunk : bytes) (ok : bool)
| ECtlSend (msg : ControlOutMessage) (ok : bool)
| EOnSpeechStart
| EOnEndOfUtterance
| EOnTurnComplete (text : string) (trigger : TurnTrigger)
| ERecord (ev : DecisionEvent)
| ECloseTransport
| ESTTSend (req : STTRequest)
| EVADSend (frame : bytes)
| EVADClose
| ERecorderClose
| ETranscript (text : string).

Record SessionOptions := mkOptions {
  CallSID : string;
  vadFactory : option (result unit);
  turnSinkWired : bool;
  turnEndPolicy : option (string -> bool);
  vadCfgOption : vadConfig;
  dataIn_wired : bool;
  controlIn_wired : bool;
  sttOut_wired : bool;
  responseIn_wired : bool;
  dataOut : option (nat -> bool);
  ctlOut : option (nat -> bool);
  sttIn_wired : bool;
  closeFunc_wired : bool;
  idleTimeoutMS : Z;
  utteranceTimeoutMS : Z;
  turnTimeoutMS : Z;
  responseTimeoutMS : Z;
  transcriptWanted : bool;
  transcriptAgentLabel : string;
  now : nat -> Z;
  FarewellULaw : bytes;
  AudioForcedStopULaw : bytes;
  LLMThinkingULaw : bytes
}.

Record modelRouteVerdict := mkVerdict { tier : string; reason : string }.

Record Session (T : Type) := mkSession {
  turnSink : bool;
  vadCfg : vadConfig;
  lastStreamWindow : Z;
  turnTranscripts : list string;
  transcriptTurns : list (list string);
  turnActive : bool;
  turnEndAudioMS : Z;
  routeReported : bool;
  turnEndPending : bool;
  turnEndEvent : VADEvent;
  sttDispatchCh : list STTRequest;
  sttReqID : Z;
  modelRouteCh : list modelRouteVerdict;
  sttDispatchTimes : gmap Z Z;
  turnBuf : bytes;
  bedOffset : nat;
  timerFacility : T;
  clockReads : nat;
  forwardCh : list bytes;
  notImplLogged : list (SessionState * InputSource);
  state : SessionState;
  closedCh : bool;
  started : bool;
  ctxDone : bool;
  dataSends : nat;
  ctlSends : nat;
  trace : list effect
}.
Arguments mkSession {T}.
Arguments turnSink {T}. Arguments vadCfg {T}. Arguments lastStreamWindow {T}.
Arguments turnTranscripts {T}. Arguments transcriptTurns {T}. Arguments turnActive {T}.
Arguments turnEndAudioMS {T}. Arguments routeReported {T}. Arguments turnEndPending {T}.
Arguments turnEndEvent {T}. Arguments sttDispatchCh {T}. Arguments sttReqID {T}.
Arguments modelRouteCh {T}. Arguments sttDispatchTimes {T}. Arguments turnBuf {T}.
Arguments bedOffset {T}. Arguments timerFacility {T}. Arguments clockReads {T}.
Arguments forwardCh {T}. Arguments notImplLogged {T}. Arguments state {T}.
Arguments closedCh {T}. Arguments started {T}. Arguments ctxDone {T}.
Arguments dataSends {T}. Arguments ctlSends {T}. Arguments trace {T}.

#[export] Instance Session_eta {T} : Eta (Session T) := fun s =>
  mkSession (turnSink s) (vadCfg s) (lastStreamWindow s) (turnTranscripts s) (transcriptTurns s)
    (turnActive s) (turnEndAudioMS s) (routeReported s) (turnEndPending s) (turnEndEvent s)
    (sttDispatchCh s) (sttReqID s) (modelRouteCh s) (sttDispatchTimes s) (turnBuf s)
    (bedOffset s) (timerFacility s) (clockReads s) (forwardCh s) (notImplLogged s) (state s)
    (closedCh s) (started s) (ctxDone s) (dataSends s) (ctlSends s) (trace s).

(** [resolvedMS]: the override when set. *)
Definition resolvedMS (override def : Z) : Z := if override >? 0 then override else def.

Section Session.
Context {T : Type} `{TimerOps T}.
Variable o : SessionOptions.
Implicit Types s : Session T.

Definition emit (e : effect) s : Session T := s <| trace ::= fun t => t ++ [e] |>.
Definition Record_ (d : DecisionEvent) s : Session T := emit (ERecord d) s.

Definition setState (next : SessionState) s : Session T :=
  let s := s <| state := next |> in
  if decide (next = StateClosed) then s <| closedCh := true |> else s.

(** ** Timers *)

Definition arm (name : string) (d : Z) s : Session T := s <| timerFacility ::= t_arm name d |>.
Definition cancel (name : string) s : Session T := s <| timerFacility ::= t_cancel name |>.

Definition armIdleTimer s := arm timerIdle (resolvedMS (idleTimeoutMS o) MaxSilenceMS * Millisecond) s.
Definition cancelIdleTimer s := cancel timerIdle s.
Definition armUtteranceTimer s :=
  arm timerUtterance (resolvedMS (utteranceTimeoutMS o) MaxUtteranceMS * Millisecond) s.
Definition cancelUtteranceTimer s := cancel timerUtterance s.
Definition armTurnTimer s := arm timerTurn (resolvedMS (turnTimeoutMS o) MaxTurnMS * Millisecond) s.
Definition cancelTurnTimer s := cancel timerTurn s.
Definition armMarkEchoTimer (clip : bytes) s := arm timerMarkEcho (MarkEchoTimeout clip) s.
Definition cancelMarkEchoTimer s := cancel timerMarkEcho s.
Definition armResponseTimer s :=
  arm timerResponse (resolvedMS (responseTimeoutMS o) MaxResponseMS * Millisecond) s.
Definition cancelResponseTimer s := cancel timerResponse s.
Definition armBedTimer s := arm timerBedTick (bedTickMS * Millisecond) s.
Definition cancelBedTimer s := cancel timerBedTick s.
Definition armResponseMarkEchoTimer (frames : list bytes) s :=
  arm timerMarkEcho (responseMarkEchoTimeout frames) s.

(** ** Outputs *)

(** [dataOut.Send(ctx, chunk)]: whether it returned nil. *)
Definition data_send (oracle : nat -> bool) (chunk : bytes) s : bool * Session T :=
  let ok := oracle (dataSends s) in
  (ok, emit (EDataSend chunk ok) s <| dataSends ::= S |>).

Definition ctl_send (msg : ControlOutMessage) s : Session T :=
  match ctlOut o with
  | None => s
  | Some oracle => emit (ECtlSend msg (oracle (ctlSends s))) s <| ctlSends ::= S |>
  end.

(** The loop that stops at the first failed send. *)
Fixpoint send_frames (oracle : nat -> bool) (frames : list bytes) s : Session T :=
  match frames with
  | [] => s
  | f :: frames' =>
      let '(ok, s) := data_send oracle f s in
      if ok then send_frames oracle frames' s else s
  end.

Definition sendClip (clip : bytes) s : Session T :=
  match dataOut o with
  | None => s
  | Some oracle => send_frames oracle (chunks (Z.to_nat farewellFrameBytes) clip) s
  end.

Definition sendResponseFrames (frames : list bytes) s : Session T :=
  match dataOut o with
  | None => s
  | Some oracle => send_frames oracle frames s
  end.

(** The copy loop of [sendBedChunk]: at most one iteration per byte. *)
Fixpoint bed_loop (fuel : nat) (clip : bytes) (chunk : bytes) (off : nat) : bytes * nat :=
  match fuel with
  | O => (chunk, off)
  | S fuel' =>
      if decide (length chunk < Z.to_nat bedChunkBytes)%nat then
        let e := Nat.min (off + (Z.to_nat bedChunkBytes - length chunk)) (length clip) in
        let chunk := chunk ++ slice off e clip in
        bed_loop fuel' clip chunk (if decide (length clip <= e)%nat then O else e)
      else (chunk, off)
  end.

Definition sendBedChunk s : Session T :=
  match dataOut o, LLMThinkingULaw o with
  | Some oracle, (_ :: _) as clip =>
      let '(chunk, off) := bed_loop (Z.to_nat bedChunkBytes) clip [] (bedOffset s) in
      snd (data_send oracle chunk (s <| bedOffset := off |>))
  | _, _ => s
  end.

Definition sendMarkAndArmEcho (clip : bytes) s : Session T :=
  s ▷ ctl_send (ControlOutMark farewellMarkName) ▷ armMarkEchoTimer clip.

Definition sendControlClear s : Session T := ctl_send ControlOutClear s.

Definition sendResponseMarkAndArmEcho (frames : list bytes) s : Session T :=
  s ▷ ctl_send (ControlOutMark responseMarkName) ▷ armResponseMarkEchoTimer frames.

Definition terminateWithClip (clip : bytes) s : SessionState * Session T :=
  (StateAwaitingMarkEcho,
   s ▷ sendClip clip ▷ setState StateAwaitingMarkEcho ▷ sendMarkAndArmEcho clip).

Definition closeTransport s : Session T :=
  let s := cancelMarkEchoTimer s in
  if closeFunc_wired o then emit ECloseTransport s else s.

(** ** Decisions *)

Definition last_audio_ms s : Z := lastStreamWindow s * windowMS (vadCfg s).

Definition recordSTTDispatch (requestID audioBytes : Z) s : Session T :=
  let s := s <| sttDispatchTimes ::= <[requestID := now o (clockReads s)]> |>
             <| clockReads ::= S |> in
  Record_ (decision0 <| d_AudioMS := last_audio_ms s |> <| d_Type := DecisionTypeSTTDispatch |>
    <| d_RequestID := requestID |> <| d_AudioBytes := audioBytes |>
    <| d_Effect := "sent to STT"%string |>) s.

Definition recordSTTResult (res : STTResult) s : Session T :=
  let '(latencyMS, s) :=
    match sttDispatchTimes s !! res_RequestID res with
    | Some dispatched =>
        (Z.quot (now o (clockReads s) - dispatched) Millisecond,
         s <| sttDispatchTimes ::= delete (res_RequestID res) |> <| clockReads ::= S |>)
    | None => (0, s)
    end in
  Record_ (decision0 <| d_Type := DecisionTypeSTTResult |> <| d_RequestID := res_RequestID res |>
    <| d_Text := res_Text res |> <| d_LatencyMS := latencyMS |>
    <| d_STTDurSec := res_Duration res |> <| d_Effect := "transcript delivered"%string |>) s.

Definition recordVADDecision (kind param : string) (value : param_value) (ev : VADEvent)
    (eff : string) (requestID : Z) s : Session T :=
  Record_ (decision0 <| d_AudioMS := StreamWindowIndex ev * windowMS (vadCfg s) |>
    <| d_Type := DecisionTypeVAD |> <| d_Kind := kind |> <| d_Param := param |>
    <| d_ParamValue := value |> <| d_Prob := Prob ev |> <| d_SilenceCount := SilenceCount ev |>
    <| d_RequestID := requestID |> <| d_Effect := eff |>) s.

Definition recordCap (kind param : string) (value : Z) (eff : string) s : Session T :=
  Record_ (decision0 <| d_AudioMS := last_audio_ms s |> <| d_Type := DecisionTypeCap |>
    <| d_Kind := kind |> <| d_Param := param |> <| d_ParamValue := PInt value |>
    <| d_Effect := eff |>) s.

Definition recordEndOfUtterance (ev : VADEvent) (dispatched : bool) s : Session T :=
  let eff := (if dispatched
              then "utterance closed; dispatched STT request " +:+ pretty (sttReqID s)
              else "utterance closed; dropped (STT pass " +:+ pretty (sttReqID s) +:+
                   " still in flight)")%string in
  recordVADDecision DecisionKindEndOfUtter DecisionParamEndSilence (PInt (EndSilenceMS (vadCfg s)))
    ev eff (if dispatched then sttReqID s else 0) s.

Definition recordTurnEnd (ev : VADEvent) s : Session T :=
  recordVADDecision DecisionKindTurnEnd DecisionParamTurnEndSilence
    (PInt (TurnEndSilenceMS (vadCfg s))) ev "turn closed (silence-turn-end)" 0 s.

Definition recordStopwordTurnEnd s : Session T :=
  Record_ (decision0 <| d_AudioMS := last_audio_ms s |> <| d_Type := DecisionTypeVAD |>
    <| d_Kind := DecisionKindTurnEnd |> <| d_Effect := "turn closed (stopword)"%string |>) s.

Definition recordTurnCompletion (trigger : TurnTrigger) s : Session T :=
  match trigger with
  | TriggerUtteranceCap =>
      recordCap DecisionKindUtteranceCap DecisionParamMaxUtterance
        (resolvedMS (utteranceTimeoutMS o) MaxUtteranceMS) "forced utterance end" s
  | TriggerTurnCap =>
      recordCap DecisionKindTurnCap DecisionParamMaxTurn
        (resolvedMS (turnTimeoutMS o) MaxTurnMS) "forced turn end" s
  | TriggerIdleTimeout =>
      recordCap DecisionKindIdleTimeout DecisionParamMaxSilence
        (resolvedMS (idleTimeoutMS o) MaxSilenceMS) "call ended (idle)" s
  | TriggerResponseCap =>
      recordCap DecisionKindResponseCap DecisionParamMaxResponse
        (resolvedMS (responseTimeoutMS o) MaxResponseMS) "forced response end" s
  | TriggerStopword => recordStopwordTurnEnd s
  | TriggerSilenceTurnEnd | TriggerCallEnd => s
  end.

(** ** Model-route verdicts *)

Definition ReportModelRoute (v : modelRouteVerdict) s : Session T :=
  match chan_try_send modelRouteDepth v (modelRouteCh s) with
  | Some ch => s <| modelRouteCh := ch |>
  | None => s
  end.

Definition recordModelRoute (v : modelRouteVerdict) s : Session T :=
  if routeReported s then s else
  let s := s <| routeReported := true |> in
  Record_ (decision0 <| d_AudioMS := turnEndAudioMS s |> <| d_Type := DecisionTypeModelRoute |>
    <| d_Kind := DecisionKindModelRoute |> <| d_Param := DecisionParamRouteTier |>
    <| d_ParamValue := PString (tier v) |> <| d_RouteReason := reason v |>
    <| d_Effect := modelRouteShadowEffect |>) s.

Definition drainModelRouteVerdicts s : Session T :=
  fold_left (fun s v => recordModelRoute v s) (modelRouteCh s) s <| modelRouteCh := [] |>.

(** ** Turns *)

Definition openTurnToRouteVerdict (trigger : TurnTrigger) s : Session T :=
  if decide (trigger = TriggerCallEnd) then s
  else s <| routeReported := false |> <| turnEndAudioMS := last_audio_ms s |>.

Definition flushTurnTranscripts (trigger : TurnTrigger) s : Session T :=
  match turnTranscripts s with
  | [] => s
  | ts =>
      let s := s <| transcriptTurns ::= fun l => l ++ [ts] |> <| turnTranscripts := [] |> in
      if turnSink s then emit (EOnTurnComplete (GoStrings.Join ts " ") trigger) s else s
  end.

Definition completeTurn (trigger : TurnTrigger) s : Session T :=
  s ▷ openTurnToRouteVerdict trigger
    ▷ flushTurnTranscripts trigger
    ▷ (fun s => s <| turnActive := false |> <| turnEndPending := false |>)
    ▷ cancelTurnTimer
    ▷ recordTurnCompletion trigger.

Definition enterAwaitingResponse s : SessionState * Session T :=
  (StateAwaitingResponse,
   s ▷ cancelIdleTimer ▷ armResponseTimer ▷ (fun s => s <| bedOffset := O |>) ▷ armBedTimer).

(** ** The STT dispatch *)

Definition dispatchSTT (kind : string) (audio : bytes) s : Session T :=
  if negb (sttIn_wired o) then s else
  let s := s <| sttReqID ::= Z.succ |> in
  let req := mkSTTRequest (CallSID o) (sttReqID s) kind audio in
  match chan_try_send sttDispatchDepth req (sttDispatchCh s) with
  | Some ch => recordSTTDispatch (req_RequestID req) (len audio) (s <| sttDispatchCh := ch |>)
  | None => s
  end.

(** ** The transition handlers (state.go) *)

Definition transitionHandler : Type := Session T -> transitionEvent -> SessionState * Session T.

(** [return s.State()]. *)
Definition keep s : SessionState * Session T := (state s, s).

Definition onUtteranceEnd s : Session T :=
  (if turnSink s then emit EOnEndOfUtterance s else s) ▷ cancelUtteranceTimer ▷ armIdleTimer.

Definition handleDataFrame : transitionHandler := fun s ev =>
  let frame := as_frame (ev_payload ev) in
  let s := s <| turnBuf ::= fun b => b ++ frame |> in
  let depth := Z.to_nat (ComputeDepth DataPlaneBufferMS MuLawFrameMS) in
  let s := match chan_try_send depth frame (forwardCh s) with
           | Some ch => s <| forwardCh := ch |>
           | None => s
           end in
  if decide (state s = StateIdle) then (StateListening, s) else keep s.

Definition handleControlEvent : transitionHandler := fun s ev =>
  let cev := as_control (ev_payload ev) in
  if decide (ce_Kind cev = controlKindStop)
  then (StateClosed, completeTurn TriggerCallEnd s)
  else keep s.

Definition handleSpeechOnset s (ev : VADEvent) : SessionState * Session T :=
  let s := s ▷ cancelIdleTimer ▷ armUtteranceTimer in
  let s := if turnActive s then s else armTurnTimer s in
  let s := s <| turnActive := true |> in
  let s := if turnSink s then emit EOnSpeechStart s else s in
  keep (recordVADDecision DecisionKindSpeechStart DecisionParamSpeechThresh
          (PFloat32 (SpeechThresh (vadCfg s))) ev "utterance opened" 0 s).

Definition withSpeechReset (h : transitionHandler) : transitionHandler := fun s ev =>
  match ev_payload ev with
  | PayVAD vev =>
      match Kind vev with
      | VADSpeech => handleSpeechOnset s vev
      | VADSilence =>
          h (recordVADDecision DecisionKindSilence DecisionParamSilenceThresh
               (PFloat32 (SilenceThresh (vadCfg s))) vev "silence run started" 0 s) ev
      | VADTurnEnd =>
          if decide (state s = StateAwaitingFullResult)
          then keep (s <| turnEndPending := true |> <| turnEndEvent := vev |>)
          else s ▷ recordTurnEnd vev ▷ completeTurn TriggerSilenceTurnEnd ▷ enterAwaitingResponse
      | VADEndOfUtterance => h s ev
      end
  | _ => h s ev
  end.

Definition dispatchFullPass s (ev : VADEvent) : SessionState * Session T :=
  let s := onUtteranceEnd s in
  let s := dispatchSTT FullPass (turnBuf s) s in
  let s := recordEndOfUtterance ev true s in
  (StateAwaitingFullResult, s <| turnBuf := [] |>).

Definition handleListeningVADEvent : transitionHandler := fun s ev =>
  let vev := as_vad (ev_payload ev) in
  if decide (Kind vev = VADEndOfUtterance) then dispatchFullPass s vev else keep s.

Definition handleAwaitingFullResultVADEvent : transitionHandler := fun s ev =>
  let vev := as_vad (ev_payload ev) in
  if decide (Kind vev = VADEndOfUtterance)
  then keep (s ▷ onUtteranceEnd ▷ recordEndOfUtterance vev false)
  else keep s.

(** The turn bookkeeping of an accepted full pass: [turnCompleted] and [s]. *)
Definition accept_full_pass (text : string) s : bool * Session T :=
  if match turnEndPolicy o with Some p => p text | None => false end
  then (true, completeTurn TriggerStopword s)
  else
    let s := s <| turnTranscripts ::= fun l => l ++ [TrimSpace text] |> in
    if turnEndPending s
    then (true, s ▷ recordTurnEnd (turnEndEvent s) ▷ completeTurn TriggerSilenceTurnEnd)
    else (false, s).

Definition handleSTTResult : transitionHandler := fun s ev =>
  let res := as_stt (ev_payload ev) in
  if negb (bool_decide (res_SessionID res = CallSID o)) then keep s else
  if negb (res_RequestID res =? sttReqID s)
  then keep (s <| sttDispatchTimes ::= delete (res_RequestID res) |>) else
  let s := recordSTTResult res s in
  let full := bool_decide (res_Kind res = FullPass) in
  let '(turnCompleted, s) := if full then accept_full_pass (res_Text res) s else (false, s) in
  if full && bool_decide (state s = StateAwaitingFullResult)
  then if turnCompleted then enterAwaitingResponse s else (StateListening, s)
  else keep s.

Definition handleIdleTimer : transitionHandler := fun s _ =>
  s ▷ completeTurn TriggerIdleTimeout ▷ terminateWithClip (FarewellULaw o).

Definition handleUtteranceTimeout : transitionHandler := fun s _ =>
  s ▷ completeTurn TriggerUtteranceCap ▷ terminateWithClip (AudioForcedStopULaw o).

Definition handleTurnTimeout : transitionHandler := fun s _ =>
  s ▷ completeTurn TriggerTurnCap ▷ terminateWithClip (AudioForcedStopULaw o).

Definition handleResponseReady : transitionHandler := fun s ev =>
  let rev := as_response (ev_payload ev) in
  let s := s ▷ cancelResponseTimer ▷ cancelBedTimer ▷ sendControlClear in
  if negb (OK rev) then (StateListening, armIdleTimer s)
  else (StateAwaitingResponsePlayout,
        s ▷ sendResponseFrames (Frames rev) ▷ sendResponseMarkAndArmEcho (Frames rev)).

Definition handleResponseTimeout : transitionHandler := fun s _ =>
  s ▷ cancelBedTimer ▷ completeTurn TriggerResponseCap ▷ terminateWithClip (FarewellULaw o).

Definition handleBedTick : transitionHandler := fun s _ => keep (s ▷ sendBedChunk ▷ armBedTimer).

Definition is_mark (name : string) (cev : ControlEvent) : bool :=
  bool_decide (ce_Kind cev = controlKindMark) && bool_decide (ce_MarkName cev = name).

Definition handleResponsePlayoutEcho : transitionHandler := fun s ev =>
  if is_mark responseMarkName (as_control (ev_payload ev))
  then (StateListening, s ▷ cancelMarkEchoTimer ▷ armIdleTimer) else keep s.

Definition handleResponsePlayoutBackstop : transitionHandler := fun s _ =>
  (StateListening, armIdleTimer s).

Definition handleMarkEchoControlEvent : transitionHandler := fun s ev =>
  if is_mark farewellMarkName (as_control (ev_payload ev))
  then (StateClosed, closeTransport s) else keep s.

Definition handleMarkEchoTimeout : transitionHandler := fun s _ => (StateClosed, closeTransport s).

Definition handleUnexpected : transitionHandler := fun s _ => keep s.

Definition handleNotImplemented : transitionHandler := fun s ev =>
  let key := (state s, source ev) in
  if bool_decide (key ∈ notImplLogged s) then keep s
  else keep (s <| notImplLogged ::= cons key |>).

Definition handleClosed : transitionHandler := fun s _ => (StateClosed, s).
Definition handleAbsorb : transitionHandler := fun s _ => keep s.

(** ** The transition table *)

Definition transitionTable : Type := SessionState -> InputSource -> transitionHandler.

(** [t[st][src] = h]. *)
Definition assign (st : SessionState) (src : InputSource) (h : transitionHandler)
    (t : transitionTable) : transitionTable := fun st' src' =>
  if decide (st' = st) then if decide (src' = src) then h else t st' src' else t st' src'.

Definition for_each {A} (l : list A) (f : A -> transitionTable -> transitionTable)
    (t : transitionTable) : transitionTable := fold_left (fun t a => f a t) l t.

(** The array's entries before the first loop are nil; the loop fills all. *)
Definition buildTransitionTable (nil_table : transitionTable) : transitionTable :=
  nil_table
  ▷ for_each AllStates (fun st => for_each AllSources (fun src => assign st src handleUnexpected))
  ▷ assign StateIdle SourceTwilioData handleDataFrame
  ▷ assign StateIdle SourceTwilioControl handleControlEvent
  ▷ assign StateIdle SourceSTTResult handleSTTResult
  ▷ assign StateListening SourceTwilioData handleDataFrame
  ▷ assign StateListening SourceTwilioControl handleControlEvent
  ▷ assign StateListening SourceVADEvent (withSpeechReset handleListeningVADEvent)
  ▷ assign StateListening SourceSTTResult handleSTTResult
  ▷ for_each AllSources (fun src => assign StateTerminating src handleNotImplemented)
  ▷ for_each AllSources (fun src => assign StateAwaitingMarkEcho src handleNotImplemented)
  ▷ assign StateAwaitingMarkEcho SourceTwilioControl handleMarkEchoControlEvent
  ▷ assign StateAwaitingMarkEcho SourceMarkEchoTimer handleMarkEchoTimeout
  ▷ assign StateAwaitingMarkEcho SourceTwilioData handleAbsorb
  ▷ assign StateAwaitingMarkEcho SourceVADEvent handleAbsorb
  ▷ assign StateAwaitingMarkEcho SourceSTTResult handleAbsorb
  ▷ for_each inProgressStates (fun st t =>
      t ▷ assign st SourceIdleTimer handleIdleTimer
        ▷ assign st SourceUtteranceTimer handleUtteranceTimeout
        ▷ assign st SourceTurnTimer handleTurnTimeout)
  ▷ assign StateAwaitingFullResult SourceTwilioData handleDataFrame
  ▷ assign StateAwaitingFullResult SourceTwilioControl handleControlEvent
  ▷ assign StateAwaitingFullResult SourceVADEvent (withSpeechReset handleAwaitingFullResultVADEvent)
  ▷ assign StateAwaitingFullResult SourceSTTResult handleSTTResult
  ▷ assign StateAwaitingResponse SourceTwilioData handleDataFrame
  ▷ assign StateAwaitingResponse SourceTwilioControl handleControlEvent
  ▷ assign StateAwaitingResponse SourceSTTResult handleSTTResult
  ▷ assign StateAwaitingResponse SourceResponseReady handleResponseReady
  ▷ assign StateAwaitingResponse SourceResponseTimer handleResponseTimeout
  ▷ assign StateAwaitingResponse SourceBedTick handleBedTick
  ▷ assign StateAwaitingResponsePlayout SourceTwilioData handleDataFrame
  ▷ assign StateAwaitingResponsePlayout SourceTwilioControl handleResponsePlayoutEcho
  ▷ assign StateAwaitingResponsePlayout SourceSTTResult handleSTTResult
  ▷ assign StateAwaitingResponsePlayout SourceMarkEchoTimer handleResponsePlayoutBackstop
  ▷ for_each AllSources (fun src => assign StateClosed src handleClosed).

(** A nil entry would panic when called; [transitions_total] shows none is left. *)
Definition nil_handler : transitionHandler := fun s _ => keep s.
Definition transitions : transitionTable := buildTransitionTable (fun _ _ => nil_handler).

(** ** Dispatch and the select loop *)

Definition dispatch (src : InputSource) (p : payload) s : Session T :=
  let '(next, s') := transitions (state s) src s (mkTransition src p) in
  setState next s'.

Definition dispatchVADEvent (ev : VADEvent) s : Session T :=
  dispatch SourceVADEvent (PayVAD ev) (s <| lastStreamWindow := StreamWindowIndex ev |>).

Definition timer_source (name : string) : option InputSource :=
  if decide (name = timerIdle) then Some SourceIdleTimer else
  if decide (name = timerMarkEcho) then Some SourceMarkEchoTimer else
  if decide (name = timerUtterance) then Some SourceUtteranceTimer else
  if decide (name = timerResponse) then Some SourceResponseTimer else
  if decide (name = timerTurn) then Some SourceTurnTimer else
  if decide (name = timerBedTick) then Some SourceBedTick else None.

Definition dispatchTimerCompletion (c : completion) s : Session T :=
  if negb (t_isCurrent c (timerFacility s)) then s else
  match timer_source (c_name c) with
  | Some src => dispatch src PayNil s
  | None => s
  end.

(** What the select of [step] may take; the values come from outside. *)
Inductive arrival :=
| AData (frame : bytes) | AControl (cev : ControlEvent) | AVAD (ev : VADEvent)
| ASTT (res : STTResult) | AResponse (rev : ResponseEvent) | AModelRoute | ATimer
| AInputClosed | ACtxDone.

(** One [step] of the sequencer that takes arrival [a], if it can be ready:
    whether the loop goes on, and the session. *)
Definition step (a : arrival) s : option (bool * Session T) :=
  match a with
  | AData f => if dataIn_wired o then Some (true, dispatch SourceTwilioData (PayFrame f) s) else None
  | AControl c =>
      if controlIn_wired o then Some (true, dispatch SourceTwilioControl (PayControl c) s) else None
  | AVAD ev => Some (true, dispatchVADEvent ev s)
  | ASTT r => if sttOut_wired o then Some (true, dispatch SourceSTTResult (PaySTT r) s) else None
  | AResponse r =>
      if responseIn_wired o then Some (true, dispatch SourceResponseReady (PayResponse r) s) else None
  | AModelRoute =>
      match modelRouteCh s with
      | v :: rest => Some (true, recordModelRoute v (s <| modelRouteCh := rest |>))
      | [] => None
      end
  | ATimer =>
      match t_recv (timerFacility s) with
      | Some (c, t) => Some (true, dispatchTimerCompletion c (s <| timerFacility := t |>))
      | None => None
      end
  | AInputClosed => Some (false, s)
  | ACtxDone => if ctxDone s then Some (false, s) else None
  end.

(** ** The session's other goroutines *)

Definition drainSTTDispatch_step s : option (Session T) :=
  match sttDispatchCh s with
  | req :: rest => Some (emit (ESTTSend req) s <| sttDispatchCh := rest |>)
  | [] => None
  end.

Definition forwardToVAD_step s : option (Session T) :=
  match forwardCh s with
  | frame :: rest => Some (emit (EVADSend frame) s <| forwardCh := rest |>)
  | [] => None
  end.

(** ** Lifecycle *)

Definition NewSession (tf : T) : Session T :=
  mkSession (turnSinkWired o) (vadCfgOption o) 0 [] [] false 0 false false VADEvent0 [] 0 []
    ∅ [] 0 tf 0 [] [] StateIdle false false false 0 0 [].

Definition Start s : result (Session T) :=
  if started s then Ok s else
  match vadFactory o with
  | None => Err "Session.Start: no VAD factory wired"
  | Some (Err e) => Err e
  | Some (Panic e) => Panic e
  | Some (Ok _) =>
      let s := s <| turnSink := true |> in
      let cfg := withDefaults (vadCfg s) in
      match validateOrdering cfg MaxSilenceMS with
      | Ok _ => Ok (armIdleTimer (s <| vadCfg := cfg |>) <| started := true |>)
      | Err e => Err (String.append "Session.Start: " e)
      | Panic e => Panic e
      end
  end.

Definition emitTranscript s : Session T :=
  match transcriptTurns s with
  | [] => s
  | turns =>
      let label := if decide (transcriptAgentLabel o = ""%string) then defaultAgentLabel
                   else transcriptAgentLabel o in
      let s := s <| transcriptTurns := [] |> in
      if transcriptWanted o then emit (ETranscript (formatTranscript turns label)) s else s
  end.

Definition Close s : Session T :=
  let s := s <| ctxDone := true |> in
  let s := if started s
           then s ▷ cancelIdleTimer ▷ cancelUtteranceTimer ▷ cancelMarkEchoTimer
                  ▷ cancelResponseTimer ▷ cancelTurnTimer ▷ emit EVADClose
           else s in
  s ▷ drainModelRouteVerdicts ▷ emit ERecorderClose ▷ emitTranscript.

(** ** The running session as a transition system *)

Inductive label :=
| LStep (a : arrival)
| LReport (v : modelRouteVerdict)
| LDrainSTT
| LForwardVAD
| LTimers.

Inductive sstep : label -> Session T -> Session T -> Prop :=
| ss_step a s s' : step a s = Some (true, s') -> sstep (LStep a) s s'
| ss_report v s : sstep (LReport v) s (ReportModelRoute v s)
| ss_drain s s' : drainSTTDispatch_step s = Some s' -> sstep LDrainSTT s s'
| ss_forward s s' : forwardToVAD_step s = Some s' -> sstep LForwardVAD s s'
| ss_timers s t' : t_env (timerFacility s) t' -> sstep LTimers s (s <| timerFacility := t' |>).

(** Reachable from a successful [Start] of a fresh session. *)
Inductive sreach (tf : T) : list label -> Session T -> Prop :=
| sreach_start s : Start (NewSession tf) = Ok s -> sreach tf [] s
| sreach_step ls l s s' : sreach tf ls s -> sstep l s s' -> sreach tf (ls ++ [l]) s'.
End Session.
