(* ===== verification/SessionCtl.v ===== *)
(** * SessionCtl: the call-control automaton the session refines

    [ctl] is what controls a call -- state, turn flag, deferred turn end and
    timers -- and [ctl_step] its transition function on classified inputs.
    [dispatch_refines] shows that every handler of Session.v implements it:
    audio, transcripts, sends, records and their failures have no influence
    beyond the classification.  The bounded-wait, turn-cap and termination
    theorems are then proved on the automaton, against [TimerLaws]. *)

From S2P Require Export Session.

Record ctl (T : Type) := mkCtl {
  c_state : SessionState;
  c_turn : bool;
  c_pend : bool;
  c_timers : T
}.
Arguments mkCtl {T}. Arguments c_state {T}. Arguments c_turn {T}. Arguments c_pend {T}.
Arguments c_timers {T}.
#[export] Instance ctl_eta {T} : Eta (ctl T) := fun c =>
  mkCtl (c_state c) (c_turn c) (c_pend c) (c_timers c).

(** What an input means to call control. *)
Inductive cinput :=
| CData (frame : bytes) | CStop | CMark (name : string) | CSpeech | CEndUtterance | CTurnEnd
| CAccept (stopword : bool) (text : string) | CReply (ok : bool) (frames : list bytes) | CTimer (src : InputSource)
| COther.

Section Ctl.
Context {T : Type} `{TimerOps T}.
Variable o : SessionOptions.
Implicit Types (s : Session T) (c : ctl T).

(** ** The automaton *)

Definition goto (st : SessionState) c : ctl T := c <| c_state := st |>.
Definition tick (f : T -> T) c : ctl T := c <| c_timers ::= f |>.
Definition idle_ms := resolvedMS (idleTimeoutMS o) MaxSilenceMS * Millisecond.
Definition arm_idle := tick (t_arm timerIdle idle_ms).
Definition end_turn c : ctl T :=
  c <| c_turn := false |> <| c_pend := false |> ▷ tick (t_cancel timerTurn).
Definition await_reply c : ctl T :=
  c ▷ tick (t_cancel timerIdle)
    ▷ tick (t_arm timerResponse (resolvedMS (responseTimeoutMS o) MaxResponseMS * Millisecond))
    ▷ tick (t_arm timerBedTick (bedTickMS * Millisecond)) ▷ goto StateAwaitingResponse.
Definition end_utterance c : ctl T := c ▷ tick (t_cancel timerUtterance) ▷ arm_idle.
Definition terminate (clip : bytes) c : ctl T :=
  c ▷ goto StateAwaitingMarkEcho ▷ tick (t_arm timerMarkEcho (MarkEchoTimeout clip)).
Definition speech c : ctl T :=
  let c := c ▷ tick (t_cancel timerIdle)
    ▷ tick (t_arm timerUtterance (resolvedMS (utteranceTimeoutMS o) MaxUtteranceMS * Millisecond)) in
  (if c_turn c then c
   else tick (t_arm timerTurn (resolvedMS (turnTimeoutMS o) MaxTurnMS * Millisecond)) c)
    <| c_turn := true |>.
Definition accept (stopword : bool) c : ctl T := if stopword || c_pend c then end_turn c else c.
Definition hang_up c : ctl T := c ▷ tick (t_cancel timerMarkEcho) ▷ goto StateClosed.

Definition ctl_step (i : cinput) c : ctl T :=
  match c_state c, i with
  | StateIdle, CData _ => goto StateListening c
  | (StateIdle | StateListening | StateAwaitingFullResult | StateAwaitingResponse), CStop =>
      c ▷ end_turn ▷ goto StateClosed
  | (StateListening | StateAwaitingFullResult), CSpeech => speech c
  | StateListening, CEndUtterance => c ▷ end_utterance ▷ goto StateAwaitingFullResult
  | StateAwaitingFullResult, CEndUtterance => end_utterance c
  | StateListening, CTurnEnd => c ▷ end_turn ▷ await_reply
  | StateAwaitingFullResult, CTurnEnd => c <| c_pend := true |>
  | StateAwaitingFullResult, CAccept stopword _ =>
      if stopword || c_pend c then c ▷ end_turn ▷ await_reply else goto StateListening c
  | (StateIdle | StateListening | StateAwaitingResponse | StateAwaitingResponsePlayout),
      CAccept stopword _ => accept stopword c
  | (StateIdle | StateListening | StateAwaitingFullResult), CTimer SourceIdleTimer =>
      c ▷ end_turn ▷ terminate (FarewellULaw o)
  | (StateIdle | StateListening | StateAwaitingFullResult),
      CTimer (SourceUtteranceTimer | SourceTurnTimer) =>
      c ▷ end_turn ▷ terminate (AudioForcedStopULaw o)
  | StateAwaitingResponse, CReply false _ =>
      c ▷ tick (t_cancel timerResponse) ▷ tick (t_cancel timerBedTick) ▷ arm_idle
        ▷ goto StateListening
  | StateAwaitingResponse, CReply true frames =>
      c ▷ tick (t_cancel timerResponse) ▷ tick (t_cancel timerBedTick)
        ▷ tick (t_arm timerMarkEcho (responseMarkEchoTimeout frames))
        ▷ goto StateAwaitingResponsePlayout
  | StateAwaitingResponse, CTimer SourceResponseTimer =>
      c ▷ tick (t_cancel timerBedTick) ▷ end_turn ▷ terminate (FarewellULaw o)
  | StateAwaitingResponse, CTimer SourceBedTick =>
      tick (t_arm timerBedTick (bedTickMS * Millisecond)) c
  | StateAwaitingResponsePlayout, CMark name =>
      if decide (name = responseMarkName)
      then c ▷ tick (t_cancel timerMarkEcho) ▷ arm_idle ▷ goto StateListening else c
  | StateAwaitingResponsePlayout, CTimer SourceMarkEchoTimer => c ▷ arm_idle ▷ goto StateListening
  | StateAwaitingMarkEcho, CMark name => if decide (name = farewellMarkName) then hang_up c else c
  | StateAwaitingMarkEcho, CTimer SourceMarkEchoTimer => hang_up c
  | _, _ => c
  end.

(** ** Classification of the concrete inputs *)

(** A result of this session for the awaited request; only full passes count. *)
Definition accepted s (res : STTResult) : bool :=
  bool_decide (res_SessionID res = CallSID o) && (res_RequestID res =? sttReqID s) &&
  bool_decide (res_Kind res = FullPass).

Definition is_stopword (text : string) : bool :=
  match turnEndPolicy o with Some p => p text | None => false end.

Definition classify s (src : InputSource) (p : payload) : cinput :=
  match src with
  | SourceTwilioData => CData (as_frame p)
  | SourceTwilioControl =>
      let cev := as_control p in
      if decide (ce_Kind cev = controlKindStop) then CStop
      else if decide (ce_Kind cev = controlKindMark) then CMark (ce_MarkName cev) else COther
  | SourceVADEvent =>
      match p with
      | PayVAD ev =>
          match Kind ev with
          | VADSpeech => CSpeech
          | VADSilence => COther
          | VADEndOfUtterance => CEndUtterance
          | VADTurnEnd => CTurnEnd
          end
      | _ => COther
      end
  | SourceSTTResult =>
      if accepted s (as_stt p) 
      then CAccept (is_stopword (res_Text (as_stt p))) (res_Text (as_stt p)) else COther
  | SourceResponseReady => CReply (OK (as_response p)) (Frames (as_response p))
  | _ => CTimer src
  end.

(** ** The control view of each operation *)

Definition cview s : ctl T := mkCtl (state s) (turnActive s) (turnEndPending s) (timerFacility s).

Lemma cv_emit e s : cview (emit e s) = cview s. Proof. done. Qed.
Lemma cv_record d s : cview (Record_ d s) = cview s. Proof. done. Qed.
Lemma cv_arm n d s : cview (arm n d s) = tick (t_arm n d) (cview s). Proof. done. Qed.
Lemma cv_cancel n s : cview (cancel n s) = tick (t_cancel n) (cview s). Proof. done. Qed.
Lemma cv_if (b : bool) s1 s2 : cview (if b then s1 else s2) = if b then cview s1 else cview s2.
Proof. by destruct b. Qed.
Lemma cv_setState n s : cview (setState n s) = goto n (cview s).
Proof. unfold setState. case_decide; reflexivity. Qed.
Lemma cv_send_frames orc fs s : cview (send_frames orc fs s) = cview s.
Proof.
  revert s; induction fs as [|f fs IH]; intros s; [done|]. cbn [send_frames]. unfold data_send.
  destruct (orc (dataSends s)); [|done]. by rewrite IH.
Qed.
Lemma cv_sendClip clip s : cview (sendClip o clip s) = cview s.
Proof. unfold sendClip. case_match; [apply cv_send_frames|done]. Qed.
Lemma cv_sendResponseFrames fs s : cview (sendResponseFrames o fs s) = cview s.
Proof. unfold sendResponseFrames. case_match; [apply cv_send_frames|done]. Qed.
Lemma cv_ctl_send m s : cview (ctl_send o m s) = cview s.
Proof. unfold ctl_send. by case_match. Qed.
Lemma cv_sendBedChunk s : cview (sendBedChunk o s) = cview s.
Proof. unfold sendBedChunk, data_send. repeat case_match; done. Qed.
Lemma cv_recordSTTResult r s : cview (recordSTTResult o r s) = cview s.
Proof. unfold recordSTTResult. by destruct (sttDispatchTimes s !! res_RequestID r). Qed.
Lemma cv_dispatchSTT k a s : cview (dispatchSTT o k a s) = cview s.
Proof. unfold dispatchSTT. case_match; [done|]. by case_match. Qed.
Lemma cv_open tr s : cview (openTurnToRouteVerdict tr s) = cview s.
Proof. unfold openTurnToRouteVerdict. by case_decide. Qed.
Lemma cv_flush tr s : cview (flushTurnTranscripts tr s) = cview s.
Proof. unfold flushTurnTranscripts. case_match; [done|]. by case_match. Qed.
Lemma cv_recordTurnCompletion tr s : cview (recordTurnCompletion o tr s) = cview s.
Proof. by destruct tr. Qed.
Lemma cv_recordModelRoute v s : cview (recordModelRoute v s) = cview s.
Proof. unfold recordModelRoute. by case_match. Qed.
Lemma cv_recordEOU ev b s : cview (recordEndOfUtterance ev b s) = cview s. Proof. done. Qed.
Lemma cv_recordTurnEnd ev s : cview (recordTurnEnd ev s) = cview s. Proof. done. Qed.
Lemma cv_recordVAD k p v ev e r s : cview (recordVADDecision k p v ev e r s) = cview s.
Proof. done. Qed.

Lemma cv_completeTurn tr s : cview (completeTurn o tr s) = end_turn (cview s).
Proof.
  unfold completeTurn, cancelTurnTimer. rewrite cv_recordTurnCompletion, cv_cancel.
  rewrite <- (cv_open tr s), <- (cv_flush tr (openTurnToRouteVerdict tr s)). done.
Qed.

Lemma cv_onUtteranceEnd s : cview (onUtteranceEnd o s) = end_utterance (cview s).
Proof. unfold onUtteranceEnd. by destruct (turnSink s). Qed.

Lemma cv_enterAwaitingResponse s :
  let '(n, s') := enterAwaitingResponse o s in goto n (cview s') = await_reply (cview s).
Proof. done. Qed.

Lemma state_cview s : state s = c_state (cview s). Proof. done. Qed.
Lemma turn_cview s : turnActive s = c_turn (cview s). Proof. done. Qed.
Lemma pend_cview s : turnEndPending s = c_pend (cview s). Proof. done. Qed.
End Ctl.

#[export] Hint Rewrite @cv_emit @cv_record @cv_arm @cv_cancel @cv_if @cv_setState @cv_send_frames
  @cv_sendClip @cv_sendResponseFrames @cv_ctl_send @cv_sendBedChunk @cv_recordSTTResult
  @cv_dispatchSTT @cv_recordModelRoute @cv_recordEOU @cv_recordTurnEnd @cv_recordVAD
  @cv_completeTurn @cv_onUtteranceEnd : cview.

Section Refinement.
Context {T : Type} `{TimerOps T}.
Variable o : SessionOptions.
Implicit Types (s : Session T) (c : ctl T).

(** What a handler's result means: the next state is stored by [dispatch]. *)
Definition handled (r : SessionState * Session T) : ctl T := goto (fst r) (cview (snd r)).

Lemma handled_keep s : handled (keep s) = cview s.
Proof. done. Qed.

Lemma dispatch_cview src p s :
  cview (dispatch o src p s) = handled (transitions o (state s) src s (mkTransition src p)).
Proof. unfold dispatch, handled. destruct (transitions _ _ _ _ _). by rewrite cv_setState. Qed.

Lemma handled_data src p s : state s <> StateTerminating -> state s <> StateClosed ->
  state s <> StateAwaitingMarkEcho ->
  handled (handleDataFrame s (mkTransition src p)) = ctl_step o (CData (as_frame p)) (cview s).
Proof.
  intros H1 H2 H3. unfold handleDataFrame.
  assert (forall s', cview s' = cview s ->
    handled (if decide (state s' = StateIdle) then (StateListening, s') else keep s') =
    ctl_step o (CData (as_frame p)) (cview s)) as Hk.
  { intros s' E. rewrite (state_cview s'), E. unfold ctl_step. cbn [c_state cview].
    destruct (state s) eqn:Est; case_decide; try done; unfold handled; cbn [fst snd]; by rewrite ?E, ?Est. }
  apply Hk. by case_match.
Qed.

Lemma handled_control src p s :
  handled (handleControlEvent o s (mkTransition src p)) =
  if decide (ce_Kind (as_control p) = controlKindStop)
  then goto StateClosed (end_turn (cview s)) else cview s.
Proof.
  unfold handleControlEvent. cbn [ev_payload]. case_decide; [|done].
  unfold handled; cbn [fst snd]. by rewrite cv_completeTurn.
Qed.

Lemma handled_speech s ev : handled (handleSpeechOnset o s ev) = speech o (cview s).
Proof.
  destruct s as [sink ? ? ? ? active].
  destruct sink, active; reflexivity.
Qed.

Lemma handled_full_pass s ev :
  handled (dispatchFullPass o s ev) =
  goto StateAwaitingFullResult (end_utterance o (cview s)).
Proof.
  unfold dispatchFullPass, handled. cbn [fst snd].
  set (s1 := onUtteranceEnd o s). set (s2 := dispatchSTT o FullPass (turnBuf s1) s1).
  transitivity (goto StateAwaitingFullResult (cview (recordEndOfUtterance ev true s2))); [done|].
  subst s1 s2. by autorewrite with cview.
Qed.

Lemma handled_turn_end s ev :
  handled (s ▷ recordTurnEnd ev ▷ completeTurn o TriggerSilenceTurnEnd ▷ enterAwaitingResponse o) =
  await_reply o (end_turn (cview s)).
Proof.
  unfold handled. pose proof (cv_enterAwaitingResponse o (completeTurn o TriggerSilenceTurnEnd (recordTurnEnd ev s))) as E.
  destruct (enterAwaitingResponse _ _). cbn [fst snd]. rewrite E. by autorewrite with cview.
Qed.

Lemma accept_full_pass_cview text s :
  let '(completed, s') := accept_full_pass o text s in
  completed = is_stopword o text || turnEndPending s /\
  cview s' = accept (is_stopword o text) (cview s).
Proof.
  unfold accept_full_pass, is_stopword, accept. cbn [c_pend cview].
  destruct (match turnEndPolicy o with Some p => p text | None => false end).
  - split; [done|]. by rewrite cv_completeTurn.
  - cbn [orb]. set (s1 := s <| turnTranscripts ::= _ |>).
    change (turnEndPending s1) with (turnEndPending s). destruct (turnEndPending s) eqn:Ep; split; try done.
    rewrite cv_completeTurn, cv_recordTurnEnd. reflexivity.
Qed.

Lemma handled_stt src p s :
  handled (handleSTTResult o s (mkTransition src p)) =
  if accepted o s (as_stt p) then
    if decide (state s = StateAwaitingFullResult) then
      if is_stopword o (res_Text (as_stt p)) || turnEndPending s
      then await_reply o (end_turn (cview s)) else goto StateListening (cview s)
    else accept (is_stopword o (res_Text (as_stt p))) (cview s)
  else cview s.
Proof.
  unfold handleSTTResult, accepted. cbn [ev_payload]. set (res := as_stt p).
  destruct (bool_decide _); [|done]. cbn [negb andb].
  destruct (res_RequestID res =? sttReqID s); [|done]. cbn [negb andb].
  pose proof (cv_recordSTTResult o res s) as E1.
  destruct (bool_decide (res_Kind res = FullPass)).
  - pose proof (accept_full_pass_cview (res_Text res) (recordSTTResult o res s)) as Ha.
    destruct (accept_full_pass _ _ _) as [done_ s1]. destruct Ha as [-> E2].
    rewrite E1 in E2. rewrite (pend_cview (recordSTTResult o res s)), E1.
    change (c_pend (cview s)) with (turnEndPending s). cbn [andb].
    rewrite (state_cview s1), E2. unfold accept in *. cbn [c_pend cview] in *.
    destruct (is_stopword o (res_Text res) || turnEndPending s); cbn [end_turn c_state].
    + unfold end_turn at 1. cbn [c_state]. case_bool_decide as Hs; cbn in Hs.
      * rewrite decide_True by done.
        pose proof (cv_enterAwaitingResponse o s1) as E3. unfold handled.
        destruct (enterAwaitingResponse o s1). cbn [fst snd]. by rewrite E3, E2.
      * rewrite decide_False by done. by rewrite handled_keep, E2.
    + case_bool_decide as Hs; cbn in Hs.
      * rewrite decide_True by done. unfold handled; cbn [fst snd]. by rewrite E2.
      * rewrite decide_False by done. by rewrite handled_keep, E2.
  - cbn [andb]. by rewrite handled_keep, E1.
Qed.

Lemma handled_reply src p s :
  handled (handleResponseReady o s (mkTransition src p)) =
  let c := cview s ▷ tick (t_cancel timerResponse) ▷ tick (t_cancel timerBedTick) in
  if OK (as_response p)
  then c ▷ tick (t_arm timerMarkEcho (responseMarkEchoTimeout (Frames (as_response p))))
         ▷ goto StateAwaitingResponsePlayout
  else c ▷ arm_idle o ▷ goto StateListening.
Proof.
  unfold handleResponseReady. cbn [ev_payload].
  destruct (OK (as_response p)); unfold handled; cbn [negb fst snd].
  - unfold sendResponseMarkAndArmEcho, armResponseMarkEchoTimer, sendControlClear,
      cancelBedTimer, cancelResponseTimer. by autorewrite with cview.
  - unfold armIdleTimer, sendControlClear, cancelBedTimer, cancelResponseTimer.
    by autorewrite with cview.
Qed.

Lemma handled_terminate tr clip s :
  handled (s ▷ completeTurn o tr ▷ terminateWithClip o clip) = terminate clip (end_turn (cview s)).
Proof.
  unfold terminateWithClip, sendMarkAndArmEcho, armMarkEchoTimer, handled. cbn [fst snd].
  by autorewrite with cview.
Qed.

Lemma handled_bed ev s :
  handled (handleBedTick o s ev) = tick (t_arm timerBedTick (bedTickMS * Millisecond)) (cview s).
Proof.
  unfold handleBedTick. rewrite handled_keep. unfold armBedTimer. by autorewrite with cview.
Qed.

Lemma handled_hang_up s : handled (StateClosed, closeTransport o s) = hang_up (cview s).
Proof. unfold closeTransport, handled. cbn [fst snd]. by destruct (closeFunc_wired o). Qed.

Lemma handled_not_implemented ev s : handled (handleNotImplemented s ev) = cview s.
Proof. unfold handleNotImplemented. by case_bool_decide. Qed.
End Refinement.

(** ** The transition table *)

Section Table.
Context {T : Type} `{TimerOps T}.
Variable o : SessionOptions.
Implicit Types (s : Session T) (c : ctl T).

Lemma transitions_eq st src : transitions (T:=T) o st src =
  match st, src with
  | (StateIdle | StateListening | StateAwaitingFullResult | StateAwaitingResponse |
     StateAwaitingResponsePlayout), SourceTwilioData => handleDataFrame
  | (StateIdle | StateListening | StateAwaitingFullResult | StateAwaitingResponse),
      SourceTwilioControl => handleControlEvent o
  | (StateIdle | StateListening | StateAwaitingFullResult | StateAwaitingResponse |
     StateAwaitingResponsePlayout), SourceSTTResult => handleSTTResult o
  | StateListening, SourceVADEvent => withSpeechReset o (handleListeningVADEvent o)
  | StateAwaitingFullResult, SourceVADEvent =>
      withSpeechReset o (handleAwaitingFullResultVADEvent o)
  | (StateIdle | StateListening | StateAwaitingFullResult), SourceIdleTimer => handleIdleTimer o
  | (StateIdle | StateListening | StateAwaitingFullResult), SourceUtteranceTimer =>
      handleUtteranceTimeout o
  | (StateIdle | StateListening | StateAwaitingFullResult), SourceTurnTimer => handleTurnTimeout o
  | StateAwaitingResponse, SourceResponseReady => handleResponseReady o
  | StateAwaitingResponse, SourceResponseTimer => handleResponseTimeout o
  | StateAwaitingResponse, SourceBedTick => handleBedTick o
  | StateAwaitingResponsePlayout, SourceTwilioControl => handleResponsePlayoutEcho o
  | StateAwaitingResponsePlayout, SourceMarkEchoTimer => handleResponsePlayoutBackstop o
  | StateAwaitingMarkEcho, SourceTwilioControl => handleMarkEchoControlEvent o
  | StateAwaitingMarkEcho, SourceMarkEchoTimer => handleMarkEchoTimeout o
  | StateAwaitingMarkEcho, (SourceTwilioData | SourceVADEvent | SourceSTTResult) => handleAbsorb
  | (StateTerminating | StateAwaitingMarkEcho), _ => handleNotImplemented
  | StateClosed, _ => handleClosed
  | _, _ => handleUnexpected
  end.
Proof. destruct st, src; reflexivity. Qed.

Lemma handled_vad s src p :
  (state s = StateListening ->
     handled (withSpeechReset o (handleListeningVADEvent o) s (mkTransition src p)) =
     ctl_step o (classify o s SourceVADEvent p) (cview s)) /\
  (state s = StateAwaitingFullResult ->
     handled (withSpeechReset o (handleAwaitingFullResultVADEvent o) s (mkTransition src p)) =
     ctl_step o (classify o s SourceVADEvent p) (cview s)).
Proof.
  assert (forall s', handled (handleAwaitingFullResultVADEvent o s' (mkTransition src p)) =
    if decide (Kind (as_vad p) = VADEndOfUtterance) then end_utterance o (cview s') else cview s') as Hafr.
  { intros s'. unfold handleAwaitingFullResultVADEvent. cbn [ev_payload].
    case_decide; rewrite handled_keep; by autorewrite with cview. }
  assert (forall s', handled (handleListeningVADEvent o s' (mkTransition src p)) =
    if decide (Kind (as_vad p) = VADEndOfUtterance)
    then goto StateAwaitingFullResult (end_utterance o (cview s')) else cview s') as Hlis.
  { intros s'. unfold handleListeningVADEvent. cbn [ev_payload].
    case_decide; [by rewrite handled_full_pass|done]. }
  split; intros Est; unfold withSpeechReset, classify, ctl_step; cbn [ev_payload];
    rewrite <- (state_cview s), ?Est; destruct p as [| |vev| | |]; try (by rewrite ?Hafr, ?Hlis);
    destruct (Kind vev) eqn:Ek; try apply handled_speech;
    rewrite ?Hafr, ?Hlis; cbn [as_vad]; rewrite ?Ek; try done.
  rewrite decide_False by done. apply handled_turn_end.
Qed.

Lemma dispatch_ctl src p s :
  cview (dispatch o src p s) = ctl_step o (classify o s src p) (cview s).
Proof.
  rewrite dispatch_cview, transitions_eq. destruct (handled_vad s src p) as [Hl Ha].
  destruct (state s) eqn:Est, src; cbv beta iota.
  all: try (rewrite (handled_data o) by congruence; unfold ctl_step; by rewrite <- state_cview, ?Est).
  all: try (by apply Hl). all: try (by apply Ha).
  all: try (rewrite handled_control; unfold classify, ctl_step; rewrite <- state_cview, ?Est;
            by repeat case_decide).
  all: try (rewrite handled_stt; unfold classify, ctl_step; rewrite <- state_cview, ?Est;
            by destruct (accepted _ _ _)).
  all: unfold classify, ctl_step; rewrite <- state_cview, ?Est.
  all: try (unfold handleIdleTimer, handleUtteranceTimeout, handleTurnTimeout, handleResponseTimeout;
            rewrite handled_terminate; unfold cancelBedTimer; by rewrite ?cv_cancel).
  all: try (rewrite handled_reply; by destruct (OK (as_response p))).
  all: try (apply handled_bed). all: try (apply handled_hang_up).
  all: try (apply handled_not_implemented).
  all: try (unfold handleMarkEchoControlEvent, handleResponsePlayoutEcho, is_mark; cbn [ev_payload];
    unfold controlKindStop, controlKindMark in *; repeat case_decide; repeat case_bool_decide;
    try congruence; try (apply handled_hang_up); done).
  all: try (unfold handleUnexpected, handleAbsorb; rewrite handled_keep; by repeat case_match).
  all: unfold handleClosed, handled, goto, set, cview; cbn; by rewrite Est.
Qed.
End Table.

(** ** Invariants of the automaton *)

(** The timers whose firing ends the wait of a state. *)
Definition driven (st : SessionState) (P : string -> bool) : bool :=
  match st with
  | StateIdle | StateListening | StateAwaitingFullResult => P timerIdle || P timerUtterance
  | StateAwaitingResponse => P timerResponse
  | StateAwaitingResponsePlayout | StateAwaitingMarkEcho => P timerMarkEcho
  | StateTerminating => false
  | StateClosed => true
  end.

(** The states in which each timer may be pending. *)
Definition may_pend (st : SessionState) (name : string) : bool :=
  if decide (name = timerIdle) then
    match st with StateAwaitingResponse | StateAwaitingResponsePlayout => false | _ => true end
  else if decide (name = timerTurn) then
    match st with StateListening | StateAwaitingFullResult => true | _ => false end
  else if decide (name = timerMarkEcho) then
    match st with StateAwaitingResponsePlayout | StateAwaitingMarkEcho => true | _ => false end
  else if decide (name = timerResponse) then
    match st with StateAwaitingResponse | StateClosed => true | _ => false end
  else if decide (name = timerBedTick) then
    match st with StateAwaitingResponse | StateClosed => true | _ => false end
  else if decide (name = timerUtterance) then bool_decide (st <> StateIdle) else false.

Record cinv {T} (c : ctl T) (P : string -> bool) : Prop := {
  ci_driven : driven (c_state c) P = true;
  ci_turn : c_turn c = P timerTurn;
  ci_idle : P timerIdle = true -> may_pend (c_state c) timerIdle = true;
  ci_turn_st : P timerTurn = true -> may_pend (c_state c) timerTurn = true;
  ci_echo : P timerMarkEcho = true -> may_pend (c_state c) timerMarkEcho = true;
  ci_resp : P timerResponse = true -> may_pend (c_state c) timerResponse = true;
  ci_bed : P timerBedTick = true -> may_pend (c_state c) timerBedTick = true;
  ci_utt : P timerUtterance = true -> may_pend (c_state c) timerUtterance = true;
  ci_pend : c_pend c = true -> c_state c = StateAwaitingFullResult
}.

Definition fired_by (i : cinput) (name : string) : bool :=
  match i with CTimer src => bool_decide (timer_source name = Some src) | _ => false end.

Section Invariants.
Context {T : Type} `{TimerLaws T}.
Variable o : SessionOptions.
Implicit Types (s : Session T) (c : ctl T).

(** Evaluates the closed tests on timer names and states. *)
Ltac eval_test b :=
  let v := eval vm_compute in b in
  match v with true => idtac | false => idtac end; change b with v in *.
Ltac eval_tests :=
  repeat match goal with
  | |- context [bool_decide ?P] => eval_test constr:(bool_decide P)
  | H : context [bool_decide ?P] |- _ => eval_test constr:(bool_decide P)
  | |- context [may_pend ?st ?n] => eval_test constr:(may_pend st n)
  | H : context [may_pend ?st ?n] |- _ => eval_test constr:(may_pend st n)
  end.

Ltac pend :=
  repeat first [rewrite pending_arm by eauto using ok_arm, ok_cancel
               |rewrite pending_cancel by eauto using ok_arm, ok_cancel]; eval_tests.

Ltac scbn := cbn -[t_pending t_arm t_cancel timer_source Z.mul bool_decide decide may_pend] in *.

Lemma ctl_step_inv i c :
  t_ok (c_timers c) ->
  (forall n, fired_by i n = true -> t_pending n (c_timers c) = false) ->
  cinv c (fun n => t_pending n (c_timers c) || fired_by i n) ->
  t_ok (c_timers (ctl_step o i c)) /\
  cinv (ctl_step o i c) (fun n => t_pending n (c_timers (ctl_step o i c))).
Proof.
  intros Hok Hf [Hd Ht H1 H2 H3 H4 H5 H6 Hp].
  destruct c as [st turn pnd t]. scbn.
  destruct st; try discriminate; destruct i as [fm| |nm| | | |stop tx|ok fr|src|]; try destruct src;
    try (destruct stop); try (destruct pnd); try (destruct ok); try (destruct turn);
    unfold ctl_step, accept, await_reply, end_turn, end_utterance, terminate, speech, hang_up, arm_idle,
      goto, tick, set, fired_by in *; scbn; try (specialize (Hp eq_refl); discriminate).
  all: try match goal with |- context [decide (?n = ?m)] => destruct (decide (n = m)) end; scbn.
  all: split; [eauto using ok_arm, ok_cancel|].
  all: eval_tests; cbn [orb andb] in *; rewrite ?orb_false_r, ?orb_true_r in *.
  all: try match goal with H : true = true -> false = true |- _ => discriminate (H eq_refl) end.
  all: try (pose proof (Hf timerMarkEcho eq_refl)); try (pose proof (Hf timerResponse eq_refl)).
  all: clear Hf; split; scbn; pend; cbn [orb andb negb]; auto; congruence.
Qed.

(** A received completion takes its timer out of the pending ones, if it is
    current, and touches no other. *)
Lemma recv_pending (t : T) (cm : completion) (t' : T) :
  t_ok t -> t_recv t = Some (cm, t') ->
  (forall n, t_pending n t = t_pending n t' || (t_isCurrent cm t' && bool_decide (n = c_name cm))) /\
  (t_isCurrent cm t' = true -> t_pending (c_name cm) t' = false).
Proof.
  intros Hok Hr. destruct (t_isCurrent cm t') eqn:Ec.
  - destruct (current_was_pending t cm t' Hok Hr Ec) as [Hp Hp']. split; [|done]. intros n.
    cbn [andb]. case_bool_decide as Hn; [subst; by rewrite Hp, orb_true_r|].
    rewrite orb_false_r. symmetry. by eapply pending_recv_ne.
  - split; [|done]. intros n. rewrite orb_false_r. symmetry. by eapply pending_recv_stale.
Qed.

Lemma cinv_ext c P Q :
  (forall n, n ∈ [timerIdle; timerMarkEcho; timerUtterance; timerResponse; timerTurn; timerBedTick] ->
     P n = Q n) -> cinv c P -> cinv c Q.
Proof.
  intros HE [Hd Ht H1 H2 H3 H4 H5 H6 Hp].
  assert (P timerIdle = Q timerIdle /\ P timerMarkEcho = Q timerMarkEcho /\
    P timerUtterance = Q timerUtterance /\ P timerResponse = Q timerResponse /\
    P timerTurn = Q timerTurn /\ P timerBedTick = Q timerBedTick) as (E1&E2&E3&E4&E5&E6).
  { split_and!; apply HE; apply list_elem_of_In; simpl; tauto. }
  split; rewrite <- ?E1, <- ?E2, <- ?E3, <- ?E4, <- ?E5, <- ?E6; try done.
  unfold driven in *. by rewrite <- E1, <- E2, <- E3, <- E4.
Qed.
End Invariants.
