(* ===== verification/SessionThms.v ===== *)
(** * SessionThms: bounded waits, turn caps and termination of a call

    Proved on the automaton of SessionCtl.v and carried to the session by
    [dispatch_ctl], for any timer facility that satisfies [TimerLaws]. *)

From S2P Require Export SessionCtl.

(** ** The automaton as a system *)

Inductive clabel := CIn (i : cinput) | CFire (cm : completion) | CTau.

Section System.
Context {T : Type} `{TimerOps T}.
Variable o : SessionOptions.

(** Deliver a completion: a superseded one is dropped. *)
Definition fire (cm : completion) (c : ctl T) : ctl T :=
  if t_isCurrent cm (c_timers c) then
    match timer_source (c_name cm) with Some src => ctl_step o (CTimer src) c | None => c end
  else c.

Inductive ctl_sys : clabel -> ctl T -> ctl T -> Prop :=
| cs_in i c : (forall src, i <> CTimer src) -> ctl_sys (CIn i) c (ctl_step o i c)
| cs_fire cm t c : t_recv (c_timers c) = Some (cm, t) ->
    ctl_sys (CFire cm) c (fire cm (c <| c_timers := t |>))
| cs_env t c : t_env (c_timers c) t -> ctl_sys CTau c (c <| c_timers := t |>)
| cs_tau c : ctl_sys CTau c c.

Definition ctl_init (t : T) : ctl T :=
  mkCtl StateIdle false false (t_arm timerIdle (idle_ms o) t).

Inductive ctl_reach (tf : T) : list clabel -> ctl T -> Prop :=
| cr_init : ctl_reach tf [] (ctl_init tf)
| cr_step ls l c c' : ctl_reach tf ls c -> ctl_sys l c c' -> ctl_reach tf (ls ++ [l]) c'.

(** The abstract label of a step of the session. *)
Definition abs_label (l : label) (s : Session T) : clabel :=
  match l with
  | LStep (AData f) => CIn (classify o s SourceTwilioData (PayFrame f))
  | LStep (AControl ev) => CIn (classify o s SourceTwilioControl (PayControl ev))
  | LStep (AVAD ev) => CIn (classify o s SourceVADEvent (PayVAD ev))
  | LStep (ASTT r) => CIn (classify o s SourceSTTResult (PaySTT r))
  | LStep (AResponse r) => CIn (classify o s SourceResponseReady (PayResponse r))
  | LStep ATimer =>
      match t_recv (timerFacility s) with Some (cm, _) => CFire cm | None => CTau end
  | _ => CTau
  end.

Lemma classify_not_timer (s : Session T) src p tsrc :
  src ∈ [SourceTwilioData; SourceTwilioControl; SourceVADEvent; SourceSTTResult; SourceResponseReady] ->
  classify o s src p <> CTimer tsrc.
Proof.
  intros Hin. assert (Hc : src = SourceTwilioData \/ src = SourceTwilioControl \/
    src = SourceVADEvent \/ src = SourceSTTResult \/ src = SourceResponseReady) by set_solver.
  destruct Hc as [->|[->|[->|[->| ->]]]]; unfold classify; repeat case_match; discriminate.
Qed.

(** Every step of the session is the step of the automaton its label names. *)
Lemma sstep_ctl l (s s' : Session T) : sstep o l s s' -> ctl_sys (abs_label l s) (cview s) (cview s').
Proof.
  intros Hs. destruct Hs as [a s s' Ha|v s|s s' Hd|s s' Hf|s t' He].
  - destruct a; cbn [step abs_label] in *; repeat (case_match; try discriminate); simplify_eq;
      try (rewrite ?dispatch_ctl; apply cs_in; intros tsrc; apply classify_not_timer; set_solver).
    + unfold dispatchVADEvent. rewrite dispatch_ctl. apply cs_in. intros tsrc.
      apply classify_not_timer. set_solver.
    + rewrite cv_recordModelRoute. apply cs_tau.
    + match goal with E : t_recv _ = Some (?cm, ?t) |- _ =>
        assert (cview (dispatchTimerCompletion o cm (s <| timerFacility := t |>)) =
          fire cm (cview s <| c_timers := t |>)) as ->; [|by apply cs_fire] end.
      unfold dispatchTimerCompletion, fire. cbn [c_timers cview set timerFacility].
      destruct (t_isCurrent _ _); [|done]. cbn [negb].
      destruct (timer_source _) as [src|] eqn:Es; [|done].
      rewrite dispatch_ctl. f_equal. unfold timer_source in Es. repeat case_decide; simplify_eq; done.
  - unfold ReportModelRoute. case_match; apply cs_tau.
  - unfold drainSTTDispatch_step in Hd. case_match; simplify_eq. apply cs_tau.
  - unfold forwardToVAD_step in Hf. case_match; simplify_eq. apply cs_tau.
  - by apply cs_env.
Qed.

Lemma Start_ctl tf (s : Session T) : Start o (NewSession o tf) = Ok s -> cview s = ctl_init tf.
Proof.
  unfold Start. intros Hs. repeat (case_match; try discriminate); by simplify_eq.
Qed.

Lemma sreach_ctl tf ls (s : Session T) : sreach o tf ls s -> exists cs, ctl_reach tf cs (cview s).
Proof.
  induction 1 as [s Hs|ls l s s' _ [cs IH] Hs].
  - exists []. rewrite (Start_ctl _ _ Hs). constructor.
  - eexists. eapply cr_step; [exact IH|by apply sstep_ctl].
Qed.
End System.

(** ** The invariant, and what follows from it *)

Section Bounds.
Context {T : Type} `{TimerLaws T}.
Variable o : SessionOptions.
Variable tf : T.
Hypothesis tf_ok : t_ok tf.
Hypothesis tf_fresh : forall n, t_pending n tf = false.
Implicit Types (s : Session T) (c : ctl T).

Definition pend (c : ctl T) (n : string) : bool := t_pending n (c_timers c).

Lemma timer_source_inj n m src :
  timer_source n = Some src -> timer_source m = Some src -> n = m.
Proof. unfold timer_source. intros. repeat case_decide; simplify_eq; congruence. Qed.

Lemma fire_inv cm t c :
  t_ok (c_timers c) -> cinv c (pend c) -> t_recv (c_timers c) = Some (cm, t) ->
  t_ok (c_timers (fire o cm (c <| c_timers := t |>))) /\
  cinv (fire o cm (c <| c_timers := t |>)) (pend (fire o cm (c <| c_timers := t |>))).
Proof.
  intros Hok Hinv Hr. pose proof (ok_recv _ _ _ Hok Hr) as Hok'.
  destruct (recv_pending _ _ _ Hok Hr) as [Hp Hp']. unfold fire. cbn [c_timers set].
  destruct (t_isCurrent cm t) eqn:Ec; [destruct (timer_source (c_name cm)) as [src|] eqn:Es|].
  - apply ctl_step_inv; [done| |].
    + intros n Hn. unfold fired_by in Hn. apply bool_decide_eq_true in Hn.
      rewrite (timer_source_inj _ _ _ Hn Es). by apply Hp'.
    + apply (cinv_ext _ (pend c)); [|by destruct Hinv; split].
      intros n _. unfold pend. rewrite Hp. cbn [andb c_timers]. f_equal. unfold fired_by.
      apply bool_decide_ext. split; [by intros ->|]. intros Hn. by eapply timer_source_inj.
  - split; [done|]. apply (cinv_ext _ (pend c)); [|by destruct Hinv; split].
    intros n Hn. unfold pend. rewrite Hp. cbn [andb c_timers].
    rewrite bool_decide_false; [by rewrite orb_false_r|]. intros ->.
    repeat (apply elem_of_cons in Hn as [Hn|Hn]; [rewrite Hn in Es; discriminate|]). set_solver.
  - split; [done|]. apply (cinv_ext _ (pend c)); [|by destruct Hinv; split].
    intros n Hn. unfold pend. by rewrite Hp, orb_false_r.
Qed.

Lemma ctl_sys_inv l c c' :
  ctl_sys o l c c' -> t_ok (c_timers c) -> cinv c (pend c) ->
  t_ok (c_timers c') /\ cinv c' (pend c').
Proof.
  intros Hs Hok Hinv. destruct Hs as [i c Hi|cm t c Hr|t c He|c]; [| |split|by split].
  - assert (forall n, fired_by i n = false) as Hf.
    { intros n. destruct i as [| | | | | | | |src|]; try done. by destruct (Hi src). }
    apply ctl_step_inv; [done| |].
    + intros n. by rewrite Hf.
    + apply (cinv_ext _ (pend c)); [|done]. intros n _. by rewrite Hf, orb_false_r.
  - by apply fire_inv.
  - by eapply ok_env.
  - apply (cinv_ext _ (pend c)); [|by destruct Hinv; split]. intros n _. unfold pend; cbn.
    symmetry. by apply pending_env.
Qed.

Lemma ctl_reach_inv cs c : ctl_reach o tf cs c -> t_ok (c_timers c) /\ cinv c (pend c).
Proof.
  induction 1 as [|ls l c c' _ [Hok Hinv] Hs]; [|by eapply ctl_sys_inv].
  split; [by apply ok_arm|]. unfold ctl_init, pend; cbn [c_timers].
  assert (forall n, t_pending n (t_arm timerIdle (idle_ms o) tf) = bool_decide (n = timerIdle)) as E.
  { intros n. rewrite pending_arm by done. by rewrite tf_fresh, orb_false_r. }
  split; cbn [c_state c_turn c_pend driven]; rewrite ?E; try done.
Qed.

Lemma session_inv ls s : sreach o tf ls s -> t_ok (timerFacility s) /\ cinv (cview s) (pend (cview s)).
Proof. intros Hr. destruct (sreach_ctl _ _ _ _ Hr) as [cs Hc]. exact (ctl_reach_inv _ _ Hc). Qed.

(** C2: In every state a running session can reach, a timer that ends the wait is pending:
    the idle timer or the utterance cap while listening, the response cap while a reply is
    awaited, the mark-echo timer while audio plays out; Terminating is never reached. *)
Theorem session_wait_bounded ls s :
  sreach o tf ls s ->
  match state s with
  | StateIdle | StateListening | StateAwaitingFullResult =>
      t_pending timerIdle (timerFacility s) || t_pending timerUtterance (timerFacility s) = true
  | StateAwaitingResponse => t_pending timerResponse (timerFacility s) = true
  | StateAwaitingResponsePlayout | StateAwaitingMarkEcho =>
      t_pending timerMarkEcho (timerFacility s) = true
  | StateTerminating => False
  | StateClosed => True
  end.
Proof.
  intros Hr. apply session_inv in Hr as [_ [Hd _ _ _ _ _ _ _ _]].
  unfold driven, pend in Hd. cbn [cview c_state c_timers] in Hd. by destruct (state s).
Qed.

(** C4: In every reachable state turnActive is true exactly when the turn cap is pending, a
    turn is active only in Listening or AwaitingFullResult, and a deferred turn end is
    pending only in AwaitingFullResult. *)
Theorem session_turn_capped ls s :
  sreach o tf ls s ->
  turnActive s = t_pending timerTurn (timerFacility s) /\
  (turnActive s = true -> state s = StateListening \/ state s = StateAwaitingFullResult) /\
  (turnEndPending s = true -> state s = StateAwaitingFullResult).
Proof.
  intros Hr. apply session_inv in Hr as [_ [_ Ht _ H1 _ _ _ _ Hp]].
  unfold pend in *; cbn [cview c_state c_turn c_pend c_timers] in *.
  split; [done|]. split; [|done]. rewrite Ht. intros Htn. specialize (H1 Htn).
  destruct (state s); try discriminate; auto.
Qed.

(** The idle clock never runs while a reply is awaited or played out, the bed tick is
    pending only in AwaitingResponse (or after a hang-up has closed the session), and the
    mark-echo timer only while an echo is awaited. *)
Theorem session_timers_confined ls s :
  sreach o tf ls s ->
  (t_pending timerIdle (timerFacility s) = true ->
     state s <> StateAwaitingResponse /\ state s <> StateAwaitingResponsePlayout) /\
  (t_pending timerBedTick (timerFacility s) = true ->
     state s = StateAwaitingResponse \/ state s = StateClosed) /\
  (t_pending timerMarkEcho (timerFacility s) = true ->
     state s = StateAwaitingResponsePlayout \/ state s = StateAwaitingMarkEcho).
Proof.
  intros Hr. apply session_inv in Hr as [_ [_ _ H1 _ H3 _ H5 _ _]].
  unfold pend in *; cbn [cview c_state c_timers] in *.
  split_and!; intros Hn; [specialize (H1 Hn)|specialize (H5 Hn)|specialize (H3 Hn)];
    destruct (state s); try discriminate; auto.
Qed.
End Bounds.
