(* ===== verification/SessionData.v ===== *)
(** * SessionData: what flows through a session

    [kdata] is the data a call moves -- audio, transcripts, STT requests and
    what leaves the session -- and [k_step] its transition function on the
    classified inputs of SessionCtl.v.  [dispatch_kdata] shows that the
    handlers implement it.  The conservation theorems follow: transcripts
    reach the TurnSink once and in order, audio is dispatched at most once and
    in order, the call is torn down at most once. *)

From S2P Require Export SessionThms.

(** The part of the trace the theorems speak of. *)
Inductive mark :=
| KTurn (text : string) (trigger : TurnTrigger)
| KSTT (req : STTRequest)
| KVAD (frame : bytes)
| KCtl (msg : ControlOutMessage)
| KClose
| KRoute
| KEndOfTurn (kind : string).

Definition closing_kinds : list string :=
  [DecisionKindTurnEnd; DecisionKindUtteranceCap; DecisionKindTurnCap; DecisionKindIdleTimeout;
   DecisionKindResponseCap].

Definition mark_of (e : effect) : option mark :=
  match e with
  | EOnTurnComplete text tr => Some (KTurn text tr)
  | ESTTSend req => Some (KSTT req)
  | EVADSend f => Some (KVAD f)
  | ECtlSend m _ => Some (KCtl m)
  | ECloseTransport => Some KClose
  | ERecord d =>
      if bool_decide (d_Kind d = DecisionKindModelRoute) then Some KRoute
      else if bool_decide (d_Kind d ∈ closing_kinds) then Some (KEndOfTurn (d_Kind d)) else None
  | _ => None
  end.

Record kdata := mkK {
  k_turnBuf : bytes;
  k_dispatch : list STTRequest;
  k_req : Z;
  k_forward : list bytes;
  k_parts : list string;
  k_turns : list (list string);
  k_routed : bool;
  k_sink : bool;
  k_marks : list mark
}.
#[export] Instance kdata_eta : Eta kdata := fun k =>
  mkK (k_turnBuf k) (k_dispatch k) (k_req k) (k_forward k) (k_parts k) (k_turns k) (k_routed k)
    (k_sink k) (k_marks k).

(** Decides a closed membership by evaluation. *)
Ltac not_closing := match goal with |- ?P => refine (bool_decide_unpack P _); vm_compute; exact I end.

Section Data.
Variable o : SessionOptions.
Implicit Types (k : kdata).

(** ** The data automaton *)

Definition k_emit (m : mark) k : kdata := k <| k_marks ::= fun l => l ++ [m] |>.

Definition trigger_kind (tr : TurnTrigger) : option string :=
  match tr with
  | TriggerUtteranceCap => Some DecisionKindUtteranceCap
  | TriggerTurnCap => Some DecisionKindTurnCap
  | TriggerIdleTimeout => Some DecisionKindIdleTimeout
  | TriggerResponseCap => Some DecisionKindResponseCap
  | TriggerStopword => Some DecisionKindTurnEnd
  | TriggerSilenceTurnEnd | TriggerCallEnd => None
  end.

Definition k_flush (tr : TurnTrigger) k : kdata :=
  match k_parts k with
  | [] => k
  | ts =>
      let k := k <| k_turns ::= fun l => l ++ [ts] |> <| k_parts := [] |> in
      if k_sink k then k_emit (KTurn (GoStrings.Join ts " ") tr) k else k
  end.

Definition k_open (tr : TurnTrigger) k : kdata :=
  if decide (tr = TriggerCallEnd) then k else k <| k_routed := false |>.

Definition k_complete (tr : TurnTrigger) k : kdata :=
  let k := k_flush tr (k_open tr k) in
  match trigger_kind tr with Some kind => k_emit (KEndOfTurn kind) k | None => k end.

Definition k_silence k : kdata :=
  k_complete TriggerSilenceTurnEnd (k_emit (KEndOfTurn DecisionKindTurnEnd) k).

Definition k_ctl (m : ControlOutMessage) k : kdata :=
  match ctlOut o with Some _ => k_emit (KCtl m) k | None => k end.

Definition k_close k : kdata := if closeFunc_wired o then k_emit KClose k else k.

Definition k_data (frame : bytes) k : kdata :=
  let k := k <| k_turnBuf ::= fun b => b ++ frame |> in
  match chan_try_send (Z.to_nat (ComputeDepth DataPlaneBufferMS MuLawFrameMS)) frame (k_forward k) with
  | Some ch => k <| k_forward := ch |>
  | None => k
  end.

Definition k_dispatchSTT k : kdata :=
  let k :=
    if negb (sttIn_wired o) then k else
    let k := k <| k_req ::= Z.succ |> in
    match chan_try_send sttDispatchDepth (mkSTTRequest (CallSID o) (k_req k) FullPass (k_turnBuf k))
            (k_dispatch k) with
    | Some ch => k <| k_dispatch := ch |>
    | None => k
    end in
  k <| k_turnBuf := [] |>.

Definition k_accept (stopword pend : bool) (text : string) k : kdata :=
  if stopword then k_complete TriggerStopword k
  else
    let k := k <| k_parts ::= fun l => l ++ [TrimSpace text] |> in
    if pend then k_silence k else k.

Definition k_step (st : SessionState) (pend : bool) (i : cinput) k : kdata :=
  match st, i with
  | (StateIdle | StateListening | StateAwaitingFullResult | StateAwaitingResponse |
     StateAwaitingResponsePlayout), CData frame => k_data frame k
  | (StateIdle | StateListening | StateAwaitingFullResult | StateAwaitingResponse), CStop =>
      k_complete TriggerCallEnd k
  | StateListening, CEndUtterance => k_dispatchSTT k
  | StateListening, CTurnEnd => k_silence k
  | (StateIdle | StateListening | StateAwaitingFullResult | StateAwaitingResponse |
     StateAwaitingResponsePlayout), CAccept stopword text => k_accept stopword pend text k
  | (StateIdle | StateListening | StateAwaitingFullResult), CTimer SourceIdleTimer =>
      k ▷ k_complete TriggerIdleTimeout ▷ k_ctl (ControlOutMark farewellMarkName)
  | (StateIdle | StateListening | StateAwaitingFullResult), CTimer SourceUtteranceTimer =>
      k ▷ k_complete TriggerUtteranceCap ▷ k_ctl (ControlOutMark farewellMarkName)
  | (StateIdle | StateListening | StateAwaitingFullResult), CTimer SourceTurnTimer =>
      k ▷ k_complete TriggerTurnCap ▷ k_ctl (ControlOutMark farewellMarkName)
  | StateAwaitingResponse, CTimer SourceResponseTimer =>
      k ▷ k_complete TriggerResponseCap ▷ k_ctl (ControlOutMark farewellMarkName)
  | StateAwaitingResponse, CReply ok _ =>
      let k := k_ctl ControlOutClear k in
      if ok then k_ctl (ControlOutMark responseMarkName) k else k
  | StateAwaitingMarkEcho, CMark name => if decide (name = farewellMarkName) then k_close k else k
  | StateAwaitingMarkEcho, CTimer SourceMarkEchoTimer => k_close k
  | _, _ => k
  end.
End Data.

Lemma if_same {A} (b : bool) (x : A) : (if b then x else x) = x.
Proof. by destruct b. Qed.

Section View.
Context {T : Type} `{TimerOps T}.
Variable o : SessionOptions.
Implicit Types (s : Session T).

Definition kview s : kdata :=
  mkK (turnBuf s) (sttDispatchCh s) (sttReqID s) (forwardCh s) (turnTranscripts s)
    (transcriptTurns s) (routeReported s) (turnSink s) (omap mark_of (trace s)).

Lemma kv_emit e s : kview (emit e s) =
  match mark_of e with Some m => k_emit m (kview s) | None => kview s end.
Proof.
  unfold kview, emit, k_emit, set; cbn. rewrite omap_app. cbn [omap list_omap].
  destruct (mark_of e); [done|]. by rewrite app_nil_r.
Qed.
Lemma kv_arm n d s : kview (arm n d s) = kview s. Proof. done. Qed.
Lemma kv_cancel n s : kview (cancel n s) = kview s. Proof. done. Qed.
Lemma kv_if (b : bool) s1 s2 : kview (if b then s1 else s2) = if b then kview s1 else kview s2.
Proof. by destruct b. Qed.
Lemma kv_active b s : kview (s <| turnActive := b |>) = kview s. Proof. done. Qed.
Lemma kv_setState n s : kview (setState n s) = kview s.
Proof. unfold setState. case_decide; reflexivity. Qed.
Lemma kv_data_send orc c s : kview (snd (data_send orc c s)) = kview s.
Proof.
  unfold data_send; cbn [snd]. transitivity (kview (emit (EDataSend c (orc (dataSends s))) s)); [done|].
  by rewrite kv_emit.
Qed.
Lemma kv_send_frames orc fs s : kview (send_frames orc fs s) = kview s.
Proof.
  revert s; induction fs as [|f fs IH]; intros s; [done|]. cbn [send_frames].
  rewrite <- (kv_data_send orc f s). destruct (data_send orc f s) as [[] s']; cbn [snd]; [by rewrite IH|done].
Qed.
Lemma kv_sendClip clip s : kview (sendClip o clip s) = kview s.
Proof. unfold sendClip. case_match; [apply kv_send_frames|done]. Qed.
Lemma kv_sendResponseFrames fs s : kview (sendResponseFrames o fs s) = kview s.
Proof. unfold sendResponseFrames. case_match; [apply kv_send_frames|done]. Qed.
Lemma kv_sendBedChunk s : kview (sendBedChunk o s) = kview s.
Proof.
  unfold sendBedChunk. repeat case_match; try done. by rewrite kv_data_send.
Qed.
Lemma kv_ctl_send m s : kview (ctl_send o m s) = k_ctl o m (kview s).
Proof.
  unfold ctl_send, k_ctl. destruct (ctlOut o) as [orc|]; [|done].
  transitivity (kview (emit (ECtlSend m (orc (ctlSends s))) s)); [done|]. by rewrite kv_emit.
Qed.
Lemma kv_open tr s : kview (openTurnToRouteVerdict tr s) = k_open tr (kview s).
Proof. unfold openTurnToRouteVerdict, k_open. by case_decide. Qed.
Lemma kv_recordSTTDispatch r n s : kview (recordSTTDispatch o r n s) = kview s.
Proof. unfold recordSTTDispatch, Record_. by rewrite kv_emit. Qed.
Lemma kv_recordSTTResult r s : kview (recordSTTResult o r s) = kview s.
Proof.
  unfold recordSTTResult. destruct (sttDispatchTimes s !! res_RequestID r); unfold Record_; by rewrite kv_emit.
Qed.
Lemma kv_recordVAD k p v ev e r s :
  k <> DecisionKindModelRoute -> k ∉ closing_kinds ->
  kview (recordVADDecision k p v ev e r s) = kview s.
Proof.
  intros H1 H2. unfold recordVADDecision, Record_. rewrite kv_emit. cbn [mark_of set d_Kind].
  rewrite bool_decide_false by done. by rewrite bool_decide_false.
Qed.
Lemma kv_recordEOU ev b s : kview (recordEndOfUtterance ev b s) = kview s.
Proof. unfold recordEndOfUtterance. apply kv_recordVAD; [done|]. not_closing. Qed.
Lemma kv_recordTurnEnd ev s :
  kview (recordTurnEnd ev s) = k_emit (KEndOfTurn DecisionKindTurnEnd) (kview s).
Proof. unfold recordTurnEnd, recordVADDecision, Record_. by rewrite kv_emit. Qed.
Lemma kv_recordTurnCompletion tr s : kview (recordTurnCompletion o tr s) =
  match trigger_kind tr with Some kind => k_emit (KEndOfTurn kind) (kview s) | None => kview s end.
Proof.
  destruct tr; cbn [recordTurnCompletion trigger_kind]; try done;
    unfold recordCap, recordStopwordTurnEnd, Record_; by rewrite kv_emit.
Qed.

Lemma kv_flush tr s : kview (flushTurnTranscripts tr s) = k_flush tr (kview s).
Proof.
  unfold flushTurnTranscripts, k_flush. cbn [k_parts kview].
  destruct (turnTranscripts s) as [|p ps] eqn:E; [done|]. cbn [turnSink k_sink set].
  rewrite kv_if, kv_emit. done.
Qed.

Lemma kv_completeTurn tr s : kview (completeTurn o tr s) = k_complete tr (kview s).
Proof.
  unfold completeTurn, k_complete, cancelTurnTimer. rewrite kv_recordTurnCompletion, kv_cancel.
  by rewrite <- kv_open, <- kv_flush.
Qed.

Lemma kv_onUtteranceEnd s : kview (onUtteranceEnd o s) = kview s.
Proof.
  unfold onUtteranceEnd, armIdleTimer, cancelUtteranceTimer.
  rewrite kv_arm, kv_cancel, kv_if, kv_emit. by destruct (turnSink s).
Qed.

Lemma kv_dispatchSTT s :
  kview (dispatchSTT o FullPass (turnBuf s) s <| turnBuf := [] |>) = k_dispatchSTT o (kview s).
Proof.
  unfold dispatchSTT, k_dispatchSTT. destruct (sttIn_wired o); [|done]. cbn [negb].
  cbn [k_req k_dispatch k_turnBuf kview set sttReqID sttDispatchCh req_RequestID].
  destruct (chan_try_send _ _ _) as [ch|]; [|done].
  transitivity (kview (recordSTTDispatch o (Z.succ (sttReqID s)) (len (turnBuf s))
    (s <| sttReqID ::= Z.succ |> <| sttDispatchCh := ch |>)) <| k_turnBuf := [] |>); [done|].
  by rewrite kv_recordSTTDispatch.
Qed.

(** ** The handlers *)

Definition khandled (r : SessionState * Session T) : kdata := kview (snd r).

Lemma dispatch_kview src p s :
  kview (dispatch o src p s) = khandled (transitions o (state s) src s (mkTransition src p)).
Proof. unfold dispatch, khandled. destruct (transitions _ _ _ _ _). by rewrite kv_setState. Qed.

Lemma kh_data src p s : khandled (handleDataFrame s (mkTransition src p)) = k_data (as_frame p) (kview s).
Proof.
  unfold handleDataFrame, k_data, khandled. cbn [ev_payload].
  cbn [k_forward kview set forwardCh]. destruct (chan_try_send _ _ _); by case_decide.
Qed.

Lemma kh_terminate tr clip s :
  khandled (s ▷ completeTurn o tr ▷ terminateWithClip o clip) =
  k_ctl o (ControlOutMark farewellMarkName) (k_complete tr (kview s)).
Proof.
  unfold terminateWithClip, khandled, sendMarkAndArmEcho, armMarkEchoTimer; cbn [snd].
  by rewrite kv_arm, kv_ctl_send, kv_setState, kv_sendClip, kv_completeTurn.
Qed.

Lemma kh_enter s : khandled (enterAwaitingResponse o s) = kview s.
Proof. done. Qed.

Lemma kh_accept text s :
  let '(_, s') := accept_full_pass o text s in
  kview s' = k_accept (is_stopword o text) (turnEndPending s) text (kview s).
Proof.
  unfold accept_full_pass, is_stopword, k_accept.
  destruct (match turnEndPolicy o with Some p => p text | None => false end); [by apply kv_completeTurn|].
  cbn [turnEndPending set]. destruct (turnEndPending s); [|done]. unfold k_silence.
  rewrite kv_completeTurn, kv_recordTurnEnd; done.
Qed.

Lemma recordSTTResult_fields res s :
  state (recordSTTResult o res s) = state s /\
  turnEndPending (recordSTTResult o res s) = turnEndPending s.
Proof. unfold recordSTTResult. by destruct (sttDispatchTimes s !! res_RequestID res). Qed.

Lemma kh_stt src p s :
  khandled (handleSTTResult o s (mkTransition src p)) =
  if accepted o s (as_stt p)
  then k_accept (is_stopword o (res_Text (as_stt p))) (turnEndPending s) (res_Text (as_stt p)) (kview s)
  else kview s.
Proof.
  unfold handleSTTResult, accepted. cbn [ev_payload]. set (res := as_stt p).
  destruct (bool_decide _); [|done]. cbn [negb andb].
  destruct (res_RequestID res =? sttReqID s); [|done]. cbn [negb andb].
  destruct (recordSTTResult_fields res s) as (E2 & E3).
  destruct (bool_decide (res_Kind res = FullPass)).
  - pose proof (kh_accept (res_Text res) (recordSTTResult o res s)) as Ha.
    rewrite E3, kv_recordSTTResult in Ha.
    destruct (accept_full_pass _ _ _) as [d s1]. cbn [andb].
    case_bool_decide; [destruct d|]; done.
  - apply kv_recordSTTResult.
Qed.

Lemma kh_vad src p s :
  (state s = StateListening ->
     khandled (withSpeechReset o (handleListeningVADEvent o) s (mkTransition src p)) =
     k_step o (state s) (turnEndPending s) (classify o s SourceVADEvent p) (kview s)) /\
  (state s = StateAwaitingFullResult ->
     khandled (withSpeechReset o (handleAwaitingFullResultVADEvent o) s (mkTransition src p)) =
     k_step o (state s) (turnEndPending s) (classify o s SourceVADEvent p) (kview s)).
Proof.
  assert (forall s', khandled (handleAwaitingFullResultVADEvent o s' (mkTransition src p)) = kview s') as Hafr.
  { intros s'. unfold handleAwaitingFullResultVADEvent, khandled, keep. cbn [ev_payload].
    case_decide; cbn [snd]; [by rewrite kv_recordEOU, kv_onUtteranceEnd|done]. }
  assert (forall s', khandled (handleListeningVADEvent o s' (mkTransition src p)) =
    if decide (Kind (as_vad p) = VADEndOfUtterance) then k_dispatchSTT o (kview s') else kview s') as Hlis.
  { intros s'. unfold handleListeningVADEvent. cbn [ev_payload]. case_decide; [|done].
    unfold dispatchFullPass, khandled; cbn [snd]. set (s1 := onUtteranceEnd o s').
    rewrite <- (kv_onUtteranceEnd s'), <- kv_dispatchSTT. fold s1.
    set (s2 := dispatchSTT o FullPass (turnBuf s1) s1).
    transitivity (kview (recordEndOfUtterance (as_vad p) true s2) <| k_turnBuf := [] |>); [done|].
    by rewrite kv_recordEOU. }
  assert (forall ev, khandled (handleSpeechOnset o s ev) = kview s) as Hsp.
  { intros ev. unfold handleSpeechOnset, khandled, keep; cbn [snd].
    rewrite kv_recordVAD; [|done|not_closing]. rewrite kv_if, kv_emit. cbn [mark_of].
    rewrite if_same, kv_active, kv_if. unfold armTurnTimer, armUtteranceTimer, cancelIdleTimer.
    rewrite ?kv_arm, ?kv_cancel. apply if_same. }
  split; intros Est; unfold withSpeechReset, classify, k_step; cbn [ev_payload];
    rewrite ?Est; destruct p as [| |vev| | |]; try (by rewrite ?Hafr, ?Hlis);
    destruct (Kind vev) eqn:Ek; try apply Hsp;
    rewrite ?Hafr, ?Hlis; cbn [as_vad]; rewrite ?Ek; try done.
  - apply kv_recordVAD; [done|not_closing].
  - rewrite decide_False by done. unfold k_silence.
    rewrite kh_enter, kv_completeTurn. by rewrite kv_recordTurnEnd.
  - apply kv_recordVAD; [done|not_closing].
Qed.

Lemma kh_hang_up s : khandled (StateClosed, closeTransport o s) = k_close o (kview s).
Proof.
  unfold closeTransport, khandled, k_close, cancelMarkEchoTimer; cbn [snd].
  rewrite kv_if, kv_emit, kv_cancel. done.
Qed.

Lemma kh_reply src p s :
  khandled (handleResponseReady o s (mkTransition src p)) =
  let k := k_ctl o ControlOutClear (kview s) in
  if OK (as_response p) then k_ctl o (ControlOutMark responseMarkName) k else k.
Proof.
  unfold handleResponseReady. cbn [ev_payload].
  destruct (OK (as_response p)); unfold khandled, sendResponseMarkAndArmEcho, armResponseMarkEchoTimer,
    sendControlClear, armIdleTimer, cancelBedTimer, cancelResponseTimer; cbn [negb snd].
  - by rewrite kv_arm, kv_ctl_send, kv_sendResponseFrames, kv_ctl_send, !kv_cancel.
  - by rewrite kv_arm, kv_ctl_send, !kv_cancel.
Qed.

Lemma dispatch_kdata src p s :
  kview (dispatch o src p s) =
  k_step o (state s) (turnEndPending s) (classify o s src p) (kview s).
Proof.
  rewrite dispatch_kview, transitions_eq. destruct (kh_vad src p s) as [Hl Ha].
  destruct (state s) eqn:Est, src; cbv beta iota.
  all: try (by apply Hl). all: try (by apply Ha).
  all: try apply kh_data.
  all: unfold classify, k_step.
  all: try (rewrite kh_stt; by destruct (accepted _ _ _)).
  all: try (unfold handleIdleTimer, handleUtteranceTimeout, handleTurnTimeout, handleResponseTimeout;
            rewrite kh_terminate; unfold cancelBedTimer; by rewrite ?kv_cancel).
  all: try apply kh_reply.
  all: try apply kh_hang_up.
  all: try (unfold handleBedTick, khandled, keep; cbn [snd]; unfold armBedTimer;
            by rewrite kv_arm, kv_sendBedChunk).
  all: try (unfold handleControlEvent; cbn [ev_payload]; repeat case_decide; try done;
            apply kv_completeTurn).
  all: try (unfold handleMarkEchoControlEvent, handleResponsePlayoutEcho, is_mark; cbn [ev_payload];
    unfold controlKindStop, controlKindMark in *; repeat case_decide; repeat case_bool_decide;
    try congruence; try (apply kh_hang_up); done).
  all: try (unfold handleUnexpected, handleAbsorb, handleClosed, khandled, keep; cbn [snd]; by repeat case_match).
  all: unfold handleNotImplemented; by case_bool_decide.
Qed.
End View.
