(* ===== verification/SessionFlow.v ===== *)
(** * SessionFlow: conservation and once-only properties of a call *)

From S2P Require Export SessionData.

Section Flow.
Context {T : Type} `{TimerOps T}.
Variable o : SessionOptions.
Implicit Types (s : Session T) (k : kdata).

(** The classified input a step of the session dispatches. *)
Definition session_input (l : label) s : cinput :=
  match l with
  | LStep ATimer =>
      match t_recv (timerFacility s) with
      | Some (cm, t) =>
          if t_isCurrent cm t then
            match timer_source (c_name cm) with Some src => CTimer src | None => COther end
          else COther
      | None => COther
      end
  | _ => match abs_label o l s with CIn i => i | _ => COther end
  end.

(** What the steps that dispatch nothing do to the data. *)
Definition k_env (l : label) k : kdata :=
  match l with
  | LStep AModelRoute => if k_routed k then k else k_emit KRoute (k <| k_routed := true |>)
  | LDrainSTT =>
      match k_dispatch k with req :: rest => k_emit (KSTT req) (k <| k_dispatch := rest |>) | [] => k end
  | LForwardVAD =>
      match k_forward k with f :: rest => k_emit (KVAD f) (k <| k_forward := rest |>) | [] => k end
  | _ => k
  end.

Lemma k_step_other st p k : k_step o st p COther k = k.
Proof. by destruct st. Qed.

Lemma kv_recordModelRoute v s ch :
  kview (recordModelRoute v (s <| modelRouteCh := ch |>)) =
  if routeReported s then kview s else k_emit KRoute (kview s <| k_routed := true |>).
Proof.
  unfold recordModelRoute. cbn [routeReported set]. destruct (routeReported s); [done|].
  unfold Record_. by rewrite kv_emit.
Qed.

Lemma sstep_kdata l s s' :
  sstep o l s s' ->
  kview s' = k_env l (k_step o (state s) (turnEndPending s) (session_input l s) (kview s)).
Proof.
  intros Hs. destruct Hs as [a s s' Ha|v s|s s' Hd|s s' Hf|s t' He].
  - destruct a; cbn [step] in Ha; unfold session_input; cbn [abs_label k_env]; cbv beta iota;
      try match type of Ha with (if ?b then _ else None) = _ => destruct b; [|discriminate] end;
      simplify_eq; try apply dispatch_kdata.
    + unfold dispatchVADEvent. by rewrite dispatch_kdata.
    + rewrite k_step_other. destruct (modelRouteCh s); simplify_eq. by rewrite kv_recordModelRoute.
    + destruct (t_recv (timerFacility s)) as [[cm t]|]; simplify_eq.
      unfold dispatchTimerCompletion. cbn [timerFacility set].
      destruct (t_isCurrent cm t); cbn [negb]; [|by rewrite k_step_other].
      destruct (timer_source (c_name cm)) as [src|] eqn:Es; [|by rewrite k_step_other].
      rewrite dispatch_kdata. f_equal. unfold timer_source in Es. repeat case_decide; simplify_eq; done.
  - cbn [k_env session_input abs_label]. rewrite k_step_other. unfold ReportModelRoute. by case_match.
  - cbn [k_env session_input abs_label]. rewrite k_step_other. unfold drainSTTDispatch_step in Hd.
    cbn [k_dispatch kview]. destruct (sttDispatchCh s) as [|r rest]; simplify_eq.
    transitivity (kview (emit (ESTTSend r) s) <| k_dispatch := rest |>); [done|]. by rewrite kv_emit.
  - cbn [k_env session_input abs_label]. rewrite k_step_other. unfold forwardToVAD_step in Hf.
    cbn [k_forward kview]. destruct (forwardCh s) as [|r rest]; simplify_eq.
    transitivity (kview (emit (EVADSend r) s) <| k_forward := rest |>); [done|]. by rewrite kv_emit.
  - cbn [k_env session_input abs_label]. by rewrite k_step_other.
Qed.

Lemma ctl_sys_cin i (c c' : ctl T) : ctl_sys o (CIn i) c c' -> c' = ctl_step o i c.
Proof. by inversion 1. Qed.

Lemma ctl_sys_tau (c c' : ctl T) : ctl_sys o CTau c c' -> exists t, c' = c <| c_timers := t |>.
Proof. inversion 1; subst; [by eexists|]. by exists (c_timers c'); destruct c'. Qed.

Lemma ctl_step_other (c : ctl T) : ctl_step o COther c = c.
Proof. by destruct c as [[] ? ? ?]. Qed.

(** The control side of a step, with the timers abstracted. *)
Lemma sstep_state l s s' :
  sstep o l s s' ->
  exists t, cview s' = ctl_step o (session_input l s) (cview s <| c_timers := t |>).
Proof.
  intros Hs. pose proof (sstep_ctl _ _ _ _ Hs) as Hc.
  assert (abs_label o l s = CTau -> session_input l s = COther -> exists t,
    cview s' = ctl_step o (session_input l s) (cview s <| c_timers := t |>)) as Htau.
  { intros E1 E2. rewrite E1 in Hc. destruct (ctl_sys_tau _ _ Hc) as [t E]. exists t.
    by rewrite E, E2, ctl_step_other. }
  assert (forall i, abs_label o l s = CIn i -> session_input l s = i -> exists t,
    cview s' = ctl_step o (session_input l s) (cview s <| c_timers := t |>)) as Hin.
  { intros i E1 E2. rewrite E1 in Hc. exists (timerFacility s). rewrite E2. by apply ctl_sys_cin. }
  destruct l as [a| | | |]; [|by apply Htau..].
  destruct a; try (by eapply Hin); try (by apply Htau).
  inversion Hs as [? ? ? Ha| | | |]; subst. cbn [step] in Ha. cbn [session_input abs_label] in *.
  destruct (t_recv (timerFacility s)) as [[cm t]|] eqn:Er; [|discriminate].
  inversion Hc as [|cm' t' c' Er' E1 E2 E3| |]; subst. cbn [c_timers cview] in Er'. simplify_eq.
  exists t. unfold fire. cbn [c_timers set].
  destruct (t_isCurrent cm t); [|by rewrite ctl_step_other].
  destruct (timer_source (c_name cm)); [done|by rewrite ctl_step_other].
Qed.

(** Invariants of the data along a run, with the control state as context. *)
Lemma sreach_kind (P : list label -> SessionState -> bool -> kdata -> Prop) tf ls s :
  (forall k, kview (NewSession o tf) = k -> P [] StateIdle false (k <| k_sink := true |>)) ->
  (forall ls l st pnd k i t0 t (s0 s1 : Session T), P ls st pnd k ->
     kview s0 = k -> state s0 = st -> turnEndPending s0 = pnd -> i = session_input l s0 ->
     let c := ctl_step o i (mkCtl st t0 pnd t) in
     P (ls ++ [l]) (c_state c) (c_pend c) (k_env l (k_step o st pnd i k))) ->
  sreach o tf ls s -> P ls (state s) (turnEndPending s) (kview s).
Proof.
  intros H0 Hstep. induction 1 as [s Hs|ls l s s' Hr IH Hs].
  - pose proof (Start_ctl _ _ _ Hs) as Hc.
    assert (kview s = kview (NewSession o tf) <| k_sink := true |>) as ->.
    { unfold Start in Hs. repeat (case_match; try discriminate); by simplify_eq. }
    change (state s) with (c_state (cview s)). change (turnEndPending s) with (c_pend (cview s)).
    rewrite Hc. by apply H0.
  - destruct (sstep_state _ _ _ Hs) as [t Hc]. rewrite (sstep_kdata _ _ _ Hs).
    change (state s') with (c_state (cview s')). change (turnEndPending s') with (c_pend (cview s')).
    rewrite Hc. by apply (Hstep ls l (state s) (turnEndPending s) (kview s) _ (turnActive s) t s s).
Qed.
End Flow.
