(* ===== verification/SessionOut.v ===== *)
(** * SessionOut: everything that leaves a session, in order

    [odata] is what a session has sent -- audio, control messages, TurnSink
    calls, STT requests, frames for the detector and the transport close, every
    effect but the decision log -- with the counters that choose the outcome of
    the next send and the position in the thinking bed.  [o_step] says what each
    classified input sends, in order; [dispatch_odata] shows that the handlers
    send exactly that. *)

From S2P Require Export SessionFlow.

(** ** The thinking bed *)

(** [n] bytes of the clip played in a loop, from byte [off]. *)
Definition cyclic (clip : bytes) (off n : nat) : bytes :=
  map (fun i => nth ((off + i) mod length clip) clip 0) (seq 0 n).

Lemma cyclic_lookup clip off n i :
  (i < n)%nat -> cyclic clip off n !! i = Some (nth ((off + i) mod length clip) clip 0).
Proof.
  intros Hi. unfold cyclic. rewrite lookup_map, lookup_seq_lt by done. done.
Qed.

Lemma cyclic_length clip off n : length (cyclic clip off n) = n.
Proof. unfold cyclic. by rewrite length_map, length_seq. Qed.

Lemma cyclic_app clip off n m :
  cyclic clip off (n + m) = cyclic clip off n ++ cyclic clip (off + n) m.
Proof.
  apply list_eq. intros i. destruct (decide (i < n)%nat) as [Hi|Hi].
  - rewrite lookup_app_l by (rewrite cyclic_length; lia). by rewrite !cyclic_lookup by lia.
  - rewrite lookup_app_r by (rewrite cyclic_length; lia). rewrite cyclic_length.
    destruct (decide (i < n + m)%nat) as [Hm|Hm].
    + rewrite !cyclic_lookup by lia. do 3 f_equal. lia.
    + rewrite !lookup_ge_None_2; rewrite ?cyclic_length; lia || done.
Qed.

Lemma cyclic_mod clip off n : cyclic clip (off mod length clip) n = cyclic clip off n.
Proof.
  unfold cyclic. apply map_ext. intros i. by rewrite Nat.Div0.add_mod_idemp_l.
Qed.

(** A run that does not reach the end of the clip is a slice of it. *)
Lemma cyclic_slice clip off n :
  (off + n <= length clip)%nat -> cyclic clip off n = slice off (off + n) clip.
Proof.
  intros Hn. apply list_eq. intros i. unfold slice.
  replace (off + n - off)%nat with n by lia. destruct (decide (i < n)%nat) as [Hi|Hi].
  - rewrite cyclic_lookup, lookup_take_lt, lookup_drop by lia.
    rewrite Nat.mod_small by lia.
    destruct (lookup_lt_is_Some_2 clip (off + i) ltac:(lia)) as [x Hx].
    rewrite Hx. f_equal. by apply nth_lookup_Some.
  - rewrite !lookup_ge_None_2; rewrite ?cyclic_length, ?length_take, ?length_drop; lia || done.
Qed.

Lemma bed_loop_cyclic clip off0 fuel : forall chunk off,
  (off < length clip)%nat ->
  chunk = cyclic clip off0 (length chunk) -> off = ((off0 + length chunk) mod length clip)%nat ->
  (length chunk <= Z.to_nat bedChunkBytes)%nat ->
  (Z.to_nat bedChunkBytes - length chunk <= fuel)%nat ->
  bed_loop fuel clip chunk off =
    (cyclic clip off0 (Z.to_nat bedChunkBytes),
     ((off0 + Z.to_nat bedChunkBytes) mod length clip)%nat).
Proof.
  induction fuel as [|fuel IH]; intros chunk off Hoff Hc Ho Hle Hf; cbn [bed_loop].
  { assert (length chunk = Z.to_nat bedChunkBytes) as El by lia. by rewrite Hc, <- El, <- Ho, <- Hc. }
  destruct (decide (length chunk < Z.to_nat bedChunkBytes)%nat) as [Hlt|Hge].
  - set (N := Z.to_nat bedChunkBytes) in *. set (L := length clip) in *.
    set (e := Nat.min (off + (N - length chunk)) L).
    assert (off < e <= L)%nat as He by lia.
    assert (slice off e clip = cyclic clip (off0 + length chunk) (e - off)) as Es.
    { rewrite <- cyclic_mod. fold L. rewrite <- Ho, cyclic_slice by (fold L; lia). f_equal. lia. }
    assert (length (chunk ++ slice off e clip) = length chunk + (e - off))%nat as El.
    { rewrite length_app, slice_length by (fold L; lia). lia. }
    apply IH; rewrite ?El.
    + case_decide; lia.
    + rewrite cyclic_app, <- Hc, Es. done.
    + rewrite Nat.add_assoc, <- Nat.Div0.add_mod_idemp_l, <- Ho.
      replace (off + (e - off))%nat with e by lia. case_decide as Hd.
      * replace e with L by lia. symmetry. apply Nat.Div0.mod_same.
      * symmetry. apply Nat.mod_small. lia.
    + lia.
    + lia.
  - assert (length chunk = Z.to_nat bedChunkBytes) as El by lia. by rewrite Hc, <- El, <- Ho, <- Hc.
Qed.


(** ** What each input sends *)

Definition out_of (e : effect) : option effect :=
  match e with ERecord _ => None | _ => Some e end.

Record odata := mkO { o_out : list effect; o_datas : nat; o_ctls : nat; o_bed : nat }.
#[export] Instance odata_eta : Eta odata := fun v => mkO (o_out v) (o_datas v) (o_ctls v) (o_bed v).

(** The sends a frame loop makes: one per frame, up to and with the first that fails. *)
Fixpoint attempts (oracle : nat -> bool) (n : nat) (frames : list bytes) : list effect :=
  match frames with
  | [] => []
  | f :: fs => EDataSend f (oracle n) :: if oracle n then attempts oracle (S n) fs else []
  end.

Section Out.
Variable o : SessionOptions.
Implicit Types (k : kdata) (v : odata).

Definition o_emit (e : effect) v : odata := v <| o_out ::= fun l => l ++ [e] |>.

Definition o_ctl (m : ControlOutMessage) v : odata :=
  match ctlOut o with
  | Some oracle => o_emit (ECtlSend m (oracle (o_ctls v))) v <| o_ctls ::= S |>
  | None => v
  end.

Definition o_sends (oracle : nat -> bool) (frames : list bytes) v : odata :=
  let sent := attempts oracle (o_datas v) frames in
  v <| o_out ::= fun l => l ++ sent |> <| o_datas ::= Nat.add (length sent) |>.

Definition o_frames (frames : list bytes) v : odata :=
  match dataOut o with Some oracle => o_sends oracle frames v | None => v end.

(** A clip goes out in frames of 20 ms. *)
Definition o_clip (clip : bytes) v : odata := o_frames (chunks 160 clip) v.

(** The next 200 ms of the bed, played in a loop. *)
Definition o_bed_chunk v : odata :=
  match LLMThinkingULaw o with
  | [] => v
  | clip =>
      match dataOut o with
      | Some _ => o_frames [cyclic clip (o_bed v) 1600] v
                    <| o_bed := ((o_bed v + 1600) mod length clip)%nat |>
      | None => v
      end
  end.

(** A completed turn: its joined text, when it has any. *)
Definition o_turn (tr : TurnTrigger) k v : odata :=
  match k_parts k with
  | [] => v
  | ts => if k_sink k then o_emit (EOnTurnComplete (GoStrings.Join ts " ") tr) v else v
  end.

(** The call is ended: the turn so far, the clip, the farewell mark. *)
Definition o_end (tr : TurnTrigger) (clip : bytes) k v : odata :=
  v ▷ o_turn tr k ▷ o_clip clip ▷ o_ctl (ControlOutMark farewellMarkName).

Definition o_accept (stopword pend : bool) (text : string) k v : odata :=
  if stopword then o_turn TriggerStopword k v
  else if pend
  then o_turn TriggerSilenceTurnEnd (k <| k_parts ::= fun l => l ++ [TrimSpace text] |>) v
  else v.

Definition o_sink (e : effect) k v : odata := if k_sink k then o_emit e v else v.
Definition o_close v : odata := if closeFunc_wired o then o_emit ECloseTransport v else v.

Definition o_step (st : SessionState) (pend : bool) (i : cinput) k v : odata :=
  match st, i with
  | (StateIdle | StateListening | StateAwaitingFullResult | StateAwaitingResponse), CStop =>
      o_turn TriggerCallEnd k v
  | (StateListening | StateAwaitingFullResult), CSpeech => o_sink EOnSpeechStart k v
  | (StateListening | StateAwaitingFullResult), CEndUtterance => o_sink EOnEndOfUtterance k v
  | StateListening, CTurnEnd => o_turn TriggerSilenceTurnEnd k v <| o_bed := O |>
  | StateAwaitingFullResult, CAccept stopword text =>
      let v := o_accept stopword pend text k v in
      if stopword || pend then v <| o_bed := O |> else v
  | (StateIdle | StateListening | StateAwaitingResponse | StateAwaitingResponsePlayout),
      CAccept stopword text => o_accept stopword pend text k v
  | (StateIdle | StateListening | StateAwaitingFullResult), CTimer SourceIdleTimer =>
      o_end TriggerIdleTimeout (FarewellULaw o) k v
  | (StateIdle | StateListening | StateAwaitingFullResult), CTimer SourceUtteranceTimer =>
      o_end TriggerUtteranceCap (AudioForcedStopULaw o) k v
  | (StateIdle | StateListening | StateAwaitingFullResult), CTimer SourceTurnTimer =>
      o_end TriggerTurnCap (AudioForcedStopULaw o) k v
  | StateAwaitingResponse, CTimer SourceResponseTimer =>
      o_end TriggerResponseCap (FarewellULaw o) k v
  | StateAwaitingResponse, CTimer SourceBedTick => o_bed_chunk v
  | StateAwaitingResponse, CReply false _ => o_ctl ControlOutClear v
  | StateAwaitingResponse, CReply true frames =>
      v ▷ o_ctl ControlOutClear ▷ o_frames frames ▷ o_ctl (ControlOutMark responseMarkName)
  | StateAwaitingMarkEcho, CMark name => if decide (name = farewellMarkName) then o_close v else v
  | StateAwaitingMarkEcho, CTimer SourceMarkEchoTimer => o_close v
  | _, _ => v
  end.

(** The two goroutines that drain the session's queues. *)
Definition o_env (l : label) k v : odata :=
  match l with
  | LDrainSTT => match k_dispatch k with req :: _ => o_emit (ESTTSend req) v | [] => v end
  | LForwardVAD => match k_forward k with f :: _ => o_emit (EVADSend f) v | [] => v end
  | _ => v
  end.

Lemma o_step_other st p k v : o_step st p COther k v = v.
Proof. by destruct st. Qed.

(** The offset stays inside the clip. *)
Definition bed_ok (v : odata) : Prop := LLMThinkingULaw o <> [] -> (o_bed v < length (LLMThinkingULaw o))%nat.
End Out.

(** ** The output view of each operation *)

Section View.
Context {T : Type} `{TimerOps T}.
Variable o : SessionOptions.
Implicit Types (s : Session T).

Definition oview s : odata := mkO (omap out_of (trace s)) (dataSends s) (ctlSends s) (bedOffset s).

Lemma ov_emit e s : oview (emit e s) = match out_of e with Some e => o_emit e (oview s) | None => oview s end.
Proof.
  unfold oview, emit, o_emit, set; cbn. rewrite omap_app. cbn [omap list_omap].
  destruct (out_of e); [done|]. by rewrite app_nil_r.
Qed.
Lemma ov_record d s : oview (Record_ d s) = oview s. Proof. apply ov_emit. Qed.
Lemma ov_arm n d s : oview (arm n d s) = oview s. Proof. done. Qed.
Lemma ov_cancel n s : oview (cancel n s) = oview s. Proof. done. Qed.
Lemma ov_if (b : bool) s1 s2 : oview (if b then s1 else s2) = if b then oview s1 else oview s2.
Proof. by destruct b. Qed.
Lemma ov_setState n s : oview (setState n s) = oview s.
Proof. unfold setState. case_decide; reflexivity. Qed.

Lemma ov_data_send oracle c s : oview (snd (data_send oracle c s)) = o_sends oracle [c] (oview s).
Proof.
  unfold data_send; cbn [snd].
  transitivity (oview (emit (EDataSend c (oracle (dataSends s))) s) <| o_datas ::= S |>); [done|].
  rewrite ov_emit. cbn [out_of]. unfold o_emit, o_sends, set; cbn. by destruct (oracle (dataSends s)).
Qed.

Lemma ov_send_frames oracle fs s : oview (send_frames oracle fs s) = o_sends oracle fs (oview s).
Proof.
  revert s; induction fs as [|f fs IH]; intros s; cbn [send_frames].
  - unfold o_sends, set; cbn. by rewrite app_nil_r.
  - pose proof (ov_data_send oracle f s) as E. cbn [data_send snd] in E |- *.
    destruct (oracle (dataSends s)) eqn:Eo; [rewrite IH|]; rewrite E; unfold o_sends, set; cbn;
      rewrite Eo; cbn; [|done]. rewrite <- app_assoc. f_equal. lia.
Qed.

Lemma ov_sendResponseFrames fs s : oview (sendResponseFrames o fs s) = o_frames o fs (oview s).
Proof. unfold sendResponseFrames, o_frames. case_match; [apply ov_send_frames|done]. Qed.
Lemma ov_sendClip clip s : oview (sendClip o clip s) = o_clip o clip (oview s).
Proof. apply (ov_sendResponseFrames (chunks 160 clip)). Qed.

Lemma ov_sendBedChunk s : bed_ok o (oview s) -> oview (sendBedChunk o s) = o_bed_chunk o (oview s).
Proof.
  intros Hb. unfold sendBedChunk, o_bed_chunk, o_frames, bed_ok in *.
  destruct (LLMThinkingULaw o) as [|b rest] eqn:Ec; [by case_match|].
  specialize (Hb ltac:(done)). destruct (dataOut o) as [oracle|]; [|done]. cbn [o_bed oview] in Hb |- *.
  rewrite (bed_loop_cyclic (b :: rest) (bedOffset s)); cbn [length] in *; try lia; [|done|].
  - by rewrite ov_data_send.
  - rewrite Nat.add_0_r. symmetry. by apply Nat.mod_small.
Qed.

Lemma ov_ctl_send m s : oview (ctl_send o m s) = o_ctl o m (oview s).
Proof.
  unfold ctl_send, o_ctl. destruct (ctlOut o) as [oracle|]; [|done].
  transitivity (oview (emit (ECtlSend m (oracle (ctlSends s))) s) <| o_ctls ::= S |>); [done|].
  by rewrite ov_emit.
Qed.

Lemma ov_open tr s : oview (openTurnToRouteVerdict tr s) = oview s.
Proof. unfold openTurnToRouteVerdict. by case_decide. Qed.
Lemma ov_flush tr s : oview (flushTurnTranscripts tr s) = o_turn tr (kview s) (oview s).
Proof.
  unfold flushTurnTranscripts, o_turn. cbn [k_parts k_sink kview].
  destruct (turnTranscripts s) as [|p ps] eqn:E; [done|]. cbn [turnSink set].
  rewrite ov_if, ov_emit. done.
Qed.
Lemma ov_completeTurn tr s : oview (completeTurn o tr s) = o_turn tr (kview s) (oview s).
Proof.
  transitivity (oview (flushTurnTranscripts tr (openTurnToRouteVerdict tr s))).
  - unfold completeTurn, cancelTurnTimer. destruct tr; cbn [recordTurnCompletion];
      unfold recordCap, recordStopwordTurnEnd; by rewrite ?ov_record.
  - rewrite ov_flush, ov_open, kv_open. unfold k_open. by case_decide.
Qed.

Lemma ov_recordVAD k p w ev e r s : oview (recordVADDecision k p w ev e r s) = oview s.
Proof. apply ov_record. Qed.
Lemma ov_recordTurnEnd ev s : oview (recordTurnEnd ev s) = oview s.
Proof. apply ov_recordVAD. Qed.
Lemma ov_onUtteranceEnd s : oview (onUtteranceEnd o s) = o_sink EOnEndOfUtterance (kview s) (oview s).
Proof.
  unfold onUtteranceEnd, armIdleTimer, cancelUtteranceTimer. by rewrite ov_arm, ov_cancel, ov_if, ov_emit.
Qed.
Lemma ov_dispatchSTT kind audio s : oview (dispatchSTT o kind audio s) = oview s.
Proof.
  unfold dispatchSTT. case_match; [done|]. cbv zeta. case_match; [|done].
  unfold recordSTTDispatch. by rewrite ov_record.
Qed.
Lemma ov_recordSTTResult r s : oview (recordSTTResult o r s) = oview s.
Proof.
  unfold recordSTTResult. destruct (sttDispatchTimes s !! res_RequestID r); by rewrite ov_record.
Qed.

(** ** The handlers *)

Definition ohandled (r : SessionState * Session T) : odata := oview (snd r).

Lemma dispatch_oview src p s :
  oview (dispatch o src p s) = ohandled (transitions o (state s) src s (mkTransition src p)).
Proof. unfold dispatch, ohandled. destruct (transitions _ _ _ _ _). by rewrite ov_setState. Qed.

Lemma oh_data src p s : ohandled (handleDataFrame s (mkTransition src p)) = oview s.
Proof.
  unfold handleDataFrame, ohandled. cbn [ev_payload]. cbn [forwardCh set].
  destruct (chan_try_send _ _ _); by case_decide.
Qed.

Lemma oh_terminate tr clip s :
  ohandled (s ▷ completeTurn o tr ▷ terminateWithClip o clip) = o_end o tr clip (kview s) (oview s).
Proof.
  unfold terminateWithClip, ohandled, sendMarkAndArmEcho, armMarkEchoTimer, o_end; cbn [snd].
  by rewrite ov_arm, ov_ctl_send, ov_setState, ov_sendClip, ov_completeTurn.
Qed.

Lemma oh_enter s : ohandled (enterAwaitingResponse o s) = oview s <| o_bed := O |>.
Proof. done. Qed.

Lemma oh_accept text s :
  let '(completed, s') := accept_full_pass o text s in
  completed = is_stopword o text || turnEndPending s /\
  oview s' = o_accept (is_stopword o text) (turnEndPending s) text (kview s) (oview s).
Proof.
  unfold accept_full_pass, is_stopword, o_accept.
  destruct (match turnEndPolicy o with Some p => p text | None => false end).
  - split; [done|]. apply ov_completeTurn.
  - cbn [turnEndPending set]. destruct (turnEndPending s); split; try done.
    rewrite ov_completeTurn, kv_recordTurnEnd. unfold recordTurnEnd. by rewrite ov_recordVAD.
Qed.

Lemma oh_stt src p s :
  ohandled (handleSTTResult o s (mkTransition src p)) =
  if accepted o s (as_stt p) then
    let stopword := is_stopword o (res_Text (as_stt p)) in
    let v := o_accept stopword (turnEndPending s) (res_Text (as_stt p)) (kview s) (oview s) in
    if bool_decide (state s = StateAwaitingFullResult) && (stopword || turnEndPending s)
    then v <| o_bed := O |> else v
  else oview s.
Proof.
  unfold handleSTTResult, accepted. cbn [ev_payload]. set (res := as_stt p).
  destruct (bool_decide _); [|done]. cbn [negb andb].
  destruct (res_RequestID res =? sttReqID s); [|done]. cbn [negb andb].
  destruct (recordSTTResult_fields o res s) as (E2 & E3).
  destruct (bool_decide (res_Kind res = FullPass)); [|apply ov_recordSTTResult].
  pose proof (oh_accept (res_Text res) (recordSTTResult o res s)) as Ha.
  pose proof (accept_full_pass_cview o (res_Text res) (recordSTTResult o res s)) as Hc.
  rewrite E3, kv_recordSTTResult, ov_recordSTTResult in Ha.
  destruct (accept_full_pass _ _ _) as [d s1]. destruct Ha as [-> Ea], Hc as [_ Ec]. cbn [andb].
  assert (state s1 = state s) as ->.
  { rewrite (state_cview s1), Ec, <- E2, (state_cview (recordSTTResult _ _ _)). unfold accept. by case_match. }
  case_bool_decide; cbn [andb]; [|exact Ea].
  destruct (is_stopword o (res_Text res) || turnEndPending s); [by rewrite oh_enter, Ea|exact Ea].
Qed.

Lemma oh_vad src p s :
  (state s = StateListening ->
     ohandled (withSpeechReset o (handleListeningVADEvent o) s (mkTransition src p)) =
     o_step o (state s) (turnEndPending s) (classify o s SourceVADEvent p) (kview s) (oview s)) /\
  (state s = StateAwaitingFullResult ->
     ohandled (withSpeechReset o (handleAwaitingFullResultVADEvent o) s (mkTransition src p)) =
     o_step o (state s) (turnEndPending s) (classify o s SourceVADEvent p) (kview s) (oview s)).
Proof.
  assert (forall s', ohandled (handleAwaitingFullResultVADEvent o s' (mkTransition src p)) =
    if decide (Kind (as_vad p) = VADEndOfUtterance) then o_sink EOnEndOfUtterance (kview s') (oview s')
    else oview s') as Hafr.
  { intros s'. unfold handleAwaitingFullResultVADEvent, ohandled, keep. cbn [ev_payload].
    case_decide; cbn [snd]; [|done]. unfold recordEndOfUtterance. by rewrite ov_recordVAD, ov_onUtteranceEnd. }
  assert (forall s', ohandled (handleListeningVADEvent o s' (mkTransition src p)) =
    if decide (Kind (as_vad p) = VADEndOfUtterance) then o_sink EOnEndOfUtterance (kview s') (oview s')
    else oview s') as Hlis.
  { intros s'. unfold handleListeningVADEvent. cbn [ev_payload]. case_decide; [|done].
    unfold dispatchFullPass, ohandled; cbn [snd].
    set (s1 := onUtteranceEnd o s'). set (s2 := dispatchSTT o FullPass (turnBuf s1) s1).
    transitivity (oview (recordEndOfUtterance (as_vad p) true s2)); [done|].
    unfold recordEndOfUtterance. rewrite ov_recordVAD. unfold s2, s1.
    by rewrite ov_dispatchSTT, ov_onUtteranceEnd. }
  assert (forall ev, ohandled (handleSpeechOnset o s ev) = o_sink EOnSpeechStart (kview s) (oview s)) as Hsp.
  { intros ev. unfold handleSpeechOnset, ohandled, keep; cbn [snd].
    rewrite ov_recordVAD, ov_if, ov_emit. cbn [out_of]. destruct s as [[] ? ? ? ? []]; reflexivity. }
  split; intros Est; unfold withSpeechReset, classify, o_step; cbn [ev_payload];
    rewrite ?Est; destruct p as [| |vev| | |]; try (by rewrite ?Hafr, ?Hlis);
    destruct (Kind vev) eqn:Ek; try apply Hsp;
    rewrite ?Hafr, ?Hlis; cbn [as_vad]; rewrite ?Ek; try done.
  - rewrite decide_False by done. apply ov_recordVAD.
  - rewrite decide_False by done. rewrite oh_enter, ov_completeTurn.
    by rewrite ov_recordTurnEnd, kv_recordTurnEnd.
  - rewrite decide_False by done. apply ov_recordVAD.
Qed.

Lemma oh_hang_up s : ohandled (StateClosed, closeTransport o s) = o_close o (oview s).
Proof.
  unfold closeTransport, ohandled, cancelMarkEchoTimer; cbn [snd]. by rewrite ov_if, ov_emit, ov_cancel.
Qed.

Lemma oh_reply src p s :
  ohandled (handleResponseReady o s (mkTransition src p)) =
  let v := o_ctl o ControlOutClear (oview s) in
  if OK (as_response p)
  then v ▷ o_frames o (Frames (as_response p)) ▷ o_ctl o (ControlOutMark responseMarkName)
  else v.
Proof.
  unfold handleResponseReady. cbn [ev_payload].
  destruct (OK (as_response p)); unfold ohandled, sendResponseMarkAndArmEcho, armResponseMarkEchoTimer,
    sendControlClear, armIdleTimer, cancelBedTimer, cancelResponseTimer; cbn [negb snd].
  - by rewrite ov_arm, ov_ctl_send, ov_sendResponseFrames, ov_ctl_send, !ov_cancel.
  - by rewrite ov_arm, ov_ctl_send, !ov_cancel.
Qed.

Lemma dispatch_odata src p s :
  bed_ok o (oview s) ->
  oview (dispatch o src p s) =
  o_step o (state s) (turnEndPending s) (classify o s src p) (kview s) (oview s).
Proof.
  intros Hb. rewrite dispatch_oview, transitions_eq. destruct (oh_vad src p s) as [Hl Ha].
  destruct (state s) eqn:Est, src; cbv beta iota.
  all: try (by apply Hl). all: try (by apply Ha).
  all: try apply oh_data.
  all: unfold classify, o_step.
  all: try (rewrite oh_stt, Est; destruct (accepted _ _ _); [|done]; cbv zeta;
            first [by rewrite bool_decide_false|by rewrite bool_decide_true]).
  all: try (unfold handleIdleTimer, handleUtteranceTimeout, handleTurnTimeout, handleResponseTimeout;
            rewrite oh_terminate; unfold cancelBedTimer; by rewrite ?kv_cancel, ?ov_cancel).
  all: try (rewrite oh_reply; by destruct (OK (as_response p))).
  all: try apply oh_hang_up.
  all: try (unfold handleBedTick, ohandled, keep; cbn [snd]; unfold armBedTimer;
            rewrite ov_arm; by apply ov_sendBedChunk).
  all: try (unfold handleControlEvent; cbn [ev_payload]; repeat case_decide; try done;
            apply ov_completeTurn).
  all: try (unfold handleMarkEchoControlEvent, handleResponsePlayoutEcho, is_mark; cbn [ev_payload];
    unfold controlKindStop, controlKindMark in *; repeat case_decide; repeat case_bool_decide;
    try congruence; try (apply oh_hang_up); done).
  all: try (unfold handleUnexpected, handleAbsorb, handleClosed, ohandled, keep; cbn [snd]; by repeat case_match).
  all: unfold handleNotImplemented; by case_bool_decide.
Qed.

(** ** The offset of the bed stays inside the clip *)

Lemma bed_keep (v v' : odata) : o_bed v' = o_bed v -> bed_ok o v -> bed_ok o v'.
Proof. unfold bed_ok. by intros ->. Qed.
Lemma bed_zero (v : odata) : bed_ok o (v <| o_bed := O |>).
Proof. intros Hc. cbn. destruct (LLMThinkingULaw o); [done|cbn; lia]. Qed.

Lemma o_bed_ctl m v : o_bed (o_ctl o m v) = o_bed v.
Proof. unfold o_ctl. by case_match. Qed.
Lemma o_bed_frames fs v : o_bed (o_frames o fs v) = o_bed v.
Proof. unfold o_frames. by case_match. Qed.
Lemma o_bed_turn tr k v : o_bed (o_turn tr k v) = o_bed v.
Proof. unfold o_turn. repeat case_match; done. Qed.
Lemma o_bed_accept sw pend text k v : o_bed (o_accept sw pend text k v) = o_bed v.
Proof. unfold o_accept. by rewrite <- (o_bed_turn TriggerStopword k v); repeat case_match; rewrite ?o_bed_turn. Qed.
Lemma o_bed_sink e k v : o_bed (o_sink e k v) = o_bed v.
Proof. unfold o_sink. by case_match. Qed.
Lemma o_bed_close v : o_bed (o_close o v) = o_bed v.
Proof. unfold o_close. by case_match. Qed.
Lemma o_bed_end tr clip k v : o_bed (o_end o tr clip k v) = o_bed v.
Proof. unfold o_end, o_clip. by rewrite o_bed_ctl, o_bed_frames, o_bed_turn. Qed.
Lemma o_bed_env l k v : o_bed (o_env l k v) = o_bed v.
Proof. unfold o_env. repeat case_match; done. Qed.

Lemma bed_bed_chunk v : bed_ok o v -> bed_ok o (o_bed_chunk o v).
Proof.
  unfold bed_ok, o_bed_chunk. intros Hb Hc. specialize (Hb Hc).
  destruct (LLMThinkingULaw o) as [|b rest] eqn:Ec; [done|]. destruct (dataOut o); [|done].
  cbn [o_bed set]. by apply Nat.mod_upper_bound.
Qed.

Lemma bed_step st pend i k v : bed_ok o v -> bed_ok o (o_step o st pend i k v).
Proof.
  intros Hb. unfold o_step.
  repeat case_match; try done; try apply bed_zero; try (by apply bed_bed_chunk);
    (eapply bed_keep; [|exact Hb]);
    by rewrite ?o_bed_ctl, ?o_bed_frames, ?o_bed_ctl, ?o_bed_turn, ?o_bed_accept, ?o_bed_sink,
      ?o_bed_close, ?o_bed_end.
Qed.

(** ** Every step of a session *)

Lemma sstep_odata l s s' :
  sstep o l s s' -> bed_ok o (oview s) ->
  oview s' = o_env l (kview s)
    (o_step o (state s) (turnEndPending s) (session_input o l s) (kview s) (oview s)) /\
  bed_ok o (oview s').
Proof.
  intros Hs Hb.
  enough (oview s' = o_env l (kview s)
    (o_step o (state s) (turnEndPending s) (session_input o l s) (kview s) (oview s))) as E.
  { split; [exact E|]. rewrite E. eapply bed_keep; [apply o_bed_env|]. by apply bed_step. }
  destruct Hs as [a s s' Ha|v s|s s' Hd|s s' Hf|s t' He].
  - destruct a; cbn [step] in Ha; unfold session_input; cbn [abs_label o_env]; cbv beta iota;
      try match type of Ha with (if ?b then _ else None) = _ => destruct b; [|discriminate] end;
      simplify_eq; try (by apply dispatch_odata).
    + unfold dispatchVADEvent. by rewrite dispatch_odata.
    + rewrite o_step_other. destruct (modelRouteCh s); simplify_eq.
      unfold recordModelRoute. cbn [routeReported set]. case_match; [done|]. by rewrite ov_record.
    + destruct (t_recv (timerFacility s)) as [[cm t]|]; simplify_eq.
      unfold dispatchTimerCompletion. cbn [timerFacility set].
      destruct (t_isCurrent cm t); cbn [negb]; [|by rewrite o_step_other].
      destruct (timer_source (c_name cm)) as [src|] eqn:Es; [|by rewrite o_step_other].
      rewrite dispatch_odata by done. f_equal.
      unfold timer_source in Es. repeat case_decide; simplify_eq; done.
  - cbn [o_env session_input abs_label]. rewrite o_step_other. unfold ReportModelRoute. by case_match.
  - cbn [o_env session_input abs_label]. rewrite o_step_other. unfold drainSTTDispatch_step in Hd.
    cbn [k_dispatch kview]. destruct (sttDispatchCh s) as [|r rest]; simplify_eq.
    transitivity (oview (emit (ESTTSend r) s)); [done|]. by rewrite ov_emit.
  - cbn [o_env session_input abs_label]. rewrite o_step_other. unfold forwardToVAD_step in Hf.
    cbn [k_forward kview]. destruct (forwardCh s) as [|r rest]; simplify_eq.
    transitivity (oview (emit (EVADSend r) s)); [done|]. by rewrite ov_emit.
  - cbn [o_env session_input abs_label]. by rewrite o_step_other.
Qed.

(** A running session has its bed offset inside the clip. *)
Lemma sreach_bed tf ls s : sreach o tf ls s -> bed_ok o (oview s).
Proof.
  induction 1 as [s Hs|ls l s s' Hr IH Hs]; [|by apply (sstep_odata l s s' Hs IH)].
  assert (oview s = mkO [] 0 0 0) as ->; [|apply (bed_zero (mkO [] 0 0 0))].
  unfold Start in Hs. repeat (case_match; try discriminate); by simplify_eq.
Qed.
End View.
