(* ===== verification/SessionOnce.v ===== *)
(** * SessionOnce: the conservation and once-only theorems of a call

    Transcripts, audio, tear-down and routing verdicts of a session, proved on
    the data automaton of SessionData.v and carried along runs by
    SessionFlow.v. *)

From S2P Require Export SessionFlow.

(** ** Transcripts *)

Definition live (st : SessionState) : bool :=
  match st with
  | StateIdle | StateListening | StateAwaitingFullResult | StateAwaitingResponse
  | StateAwaitingResponsePlayout => true
  | _ => false
  end.

Definition k_utterances (k : kdata) : list string := concat (k_turns k) ++ k_parts k.

Definition turn_texts (l : list mark) : list string :=
  omap (fun m => match m with KTurn text _ => Some text | _ => None end) l.

Lemma turn_texts_snoc l m : turn_texts (l ++ [m]) =
  turn_texts l ++ match m with KTurn text _ => [text] | _ => [] end.
Proof. unfold turn_texts. rewrite omap_app. by destruct m. Qed.

(** What the TurnSink has been told is what the transcript turns hold. *)
Record delivered_ok (k : kdata) : Prop := {
  do_sink : k_sink k = true;
  do_texts : turn_texts (k_marks k) = map (fun ts => GoStrings.Join ts " ") (k_turns k);
  do_nonempty : Forall (fun ts => ts <> []) (k_turns k)
}.

Section Transcripts.
Variable o : SessionOptions.

Lemma delivered_emit m k :
  (forall text tr, m <> KTurn text tr) -> delivered_ok k -> delivered_ok (k_emit m k).
Proof.
  intros Hm [H1 H2 H3]. split; cbn; [done| |done]. rewrite turn_texts_snoc, H2.
  destruct m; try by rewrite app_nil_r. by destruct (Hm text trigger).
Qed.

Lemma delivered_complete tr k : delivered_ok k -> delivered_ok (k_complete tr k).
Proof.
  intros [H1 H2 H3].
  assert (delivered_ok (k_flush tr (k_open tr k))) as Hf.
  { unfold k_flush, k_open. assert (k_parts (if decide (tr = TriggerCallEnd) then k
      else k <| k_routed := false |>) = k_parts k) as -> by by case_decide.
    destruct (k_parts k) as [|p ps]; [case_decide; by split|].
    case_decide; cbn [k_sink set]; rewrite H1; split; try done; cbn;
      rewrite ?turn_texts_snoc, ?H2, ?map_app; auto using Forall_snoc; by apply Forall_snoc. }
  unfold k_complete. destruct (trigger_kind tr); [by apply delivered_emit|done].
Qed.

Lemma delivered_step st p i k : delivered_ok k -> delivered_ok (k_step o st p i k).
Proof.
  intros Hk. pose proof Hk as [H1 H2 H3].
  assert (forall k', delivered_ok k' -> delivered_ok (k_silence k')) as Hsil.
  { intros k' Hk'. apply delivered_complete. by apply delivered_emit. }
  assert (forall m k', delivered_ok k' -> delivered_ok (k_ctl o m k')) as Hctl.
  { intros m k' Hk'. unfold k_ctl. case_match; [by apply delivered_emit|done]. }
  assert (delivered_ok (k_close o k)) as Hcl.
  { unfold k_close. case_match; [by apply delivered_emit|done]. }
  assert (forall f, delivered_ok (k_data f k)) as Hda.
  { intros f. unfold k_data. case_match; by split. }
  assert (delivered_ok (k_dispatchSTT o k)) as Hdi.
  { unfold k_dispatchSTT. repeat case_match; by split. }
  assert (forall sw pd tx, delivered_ok (k_accept sw pd tx k)) as Hac.
  { intros sw pd tx. unfold k_accept. destruct sw; [by apply delivered_complete|].
    assert (delivered_ok (k <| k_parts ::= fun l => l ++ [TrimSpace tx] |>)) by by split.
    destruct pd; auto. }
  unfold k_step. destruct st, i; auto using delivered_complete; repeat case_match; subst;
    auto using delivered_complete.
Qed.

Lemma utts_complete tr k : k_utterances (k_complete tr k) = k_utterances k.
Proof.
  assert (k_utterances (k_flush tr (k_open tr k)) = k_utterances k) as Hf.
  { unfold k_flush, k_open, k_utterances. assert (k_parts (if decide (tr = TriggerCallEnd) then k
      else k <| k_routed := false |>) = k_parts k) as -> by by case_decide.
    destruct (k_parts k) as [|p ps] eqn:E; [case_decide; cbn; by rewrite ?E|].
    case_decide; cbn [k_sink set]; case_match; cbn; rewrite concat_app; cbn;
      by rewrite !app_nil_r. }
  unfold k_complete. by destruct (trigger_kind tr).
Qed.

Lemma utts_step st p i k :
  k_utterances (k_step o st p i k) = k_utterances k ++
    match i with CAccept false text => if live st then [TrimSpace text] else [] | _ => [] end.
Proof.
  assert (forall k', k_utterances (k_silence k') = k_utterances k') as Hsil.
  { intros k'. unfold k_silence. by rewrite utts_complete. }
  assert (forall m k', k_utterances (k_ctl o m k') = k_utterances k') as Hctl.
  { intros m k'. unfold k_ctl. by case_match. }
  assert (k_utterances (k_close o k) = k_utterances k) as Hcl by (unfold k_close; by case_match).
  assert (forall f, k_utterances (k_data f k) = k_utterances k) as Hda.
  { intros f. unfold k_data. by case_match. }
  assert (k_utterances (k_dispatchSTT o k) = k_utterances k) as Hdi.
  { unfold k_dispatchSTT. by repeat case_match. }
  assert (forall sw pd tx, k_utterances (k_accept sw pd tx k) =
    k_utterances k ++ if sw then [] else [TrimSpace tx]) as Hac.
  { intros sw pd tx. unfold k_accept. destruct sw; [by rewrite utts_complete, app_nil_r|].
    assert (k_utterances (k <| k_parts ::= fun l => l ++ [TrimSpace tx] |>) =
      k_utterances k ++ [TrimSpace tx]) as E by (unfold k_utterances; cbn; by rewrite app_assoc).
    destruct pd; by rewrite ?Hsil. }
  unfold k_step. destruct st, i; cbn [live]; repeat case_match; subst;
    rewrite ?Hctl, ?Hac, ?utts_complete, ?Hsil, ?app_nil_r; auto.
Qed.
End Transcripts.

(** ** Audio *)

Definition sent (l : list mark) : list STTRequest :=
  omap (fun m => match m with KSTT r => Some r | _ => None end) l.
Definition forwarded (l : list mark) : list bytes :=
  omap (fun m => match m with KVAD f => Some f | _ => None end) l.

(** Every request made so far: those the drainer has sent, and those waiting. *)
Definition requests (k : kdata) : list STTRequest := sent (k_marks k) ++ k_dispatch k.
Definition frames_out (k : kdata) : list bytes := forwarded (k_marks k) ++ k_forward k.

(** The frames that arrived during a run. *)
Definition received (ls : list label) : list bytes :=
  omap (fun l => match l with LStep (AData f) => Some f | _ => None end) ls.

Lemma received_snoc ls l : received (ls ++ [l]) =
  received ls ++ match l with LStep (AData f) => [f] | _ => [] end.
Proof. unfold received. rewrite omap_app. destruct l as [[]| | | |]; done. Qed.

Fixpoint increasing (lo : Z) (l : list Z) : Prop :=
  match l with [] => True | x :: l' => lo < x /\ increasing x l' end.

Lemma increasing_snoc lo l x :
  increasing lo l -> Forall (fun y => y < x) l -> lo < x -> increasing lo (l ++ [x]).
Proof.
  revert lo; induction l as [|y l IH]; intros lo Hi HF Hx; [done|].
  destruct Hi as [Hy Hi]. inversion HF; subst. split; [done|]. by apply IH.
Qed.

Section Audio.
Variable o : SessionOptions.

Record audio_ok (heard : list bytes) (k : kdata) : Prop := {
  au_ids : increasing 0 (map req_RequestID (requests k));
  au_req : 0 <= k_req k;
  au_forms : Forall (fun r => req_RequestID r <= k_req k /\ req_SessionID r = CallSID o /\
    req_Kind r = FullPass) (requests k);
  au_bound : (length (k_dispatch k) <= sttDispatchDepth)%nat;
  au_audio : sublist (concat (map req_Audio (requests k)) ++ k_turnBuf k) (concat heard);
  au_frames : sublist (frames_out k) heard;
  au_fbound : (length (k_forward k) <= 4)%nat
}.

(** The audio side of the data, apart from which nothing matters. *)
Definition audio_part (k : kdata) :=
  (k_turnBuf k, k_dispatch k, k_req k, k_forward k, sent (k_marks k), forwarded (k_marks k)).

Lemma audio_ok_ext heard k k' : audio_part k' = audio_part k -> audio_ok heard k -> audio_ok heard k'.
Proof.
  unfold audio_part. intros E [H1 H2 H3 H4 H5 H6 H7]. injection E as E1 E2 E3 E4 E5 E6.
  unfold requests, frames_out in *. by split; unfold requests, frames_out; rewrite ?E1, ?E2, ?E3, ?E4, ?E5, ?E6.
Qed.

Lemma audio_emit m k : match m with KSTT _ | KVAD _ => False | _ => True end ->
  audio_part (k_emit m k) = audio_part k.
Proof.
  intros Hm. unfold audio_part, k_emit, sent, forwarded; cbn. rewrite !omap_app.
  destruct m; try done; cbn; by rewrite !app_nil_r.
Qed.

Lemma audio_complete tr k : audio_part (k_complete tr k) = audio_part k.
Proof.
  assert (audio_part (k_flush tr (k_open tr k)) = audio_part k) as E.
  { unfold k_flush, k_open. repeat case_match; cbn [k_sink set]; rewrite ?audio_emit; done. }
  unfold k_complete. destruct (trigger_kind tr); [by rewrite audio_emit|done].
Qed.

Lemma audio_other st p i k :
  (forall f, i <> CData f) -> ~ (st = StateListening /\ i = CEndUtterance) ->
  audio_part (k_step o st p i k) = audio_part k.
Proof.
  intros Hd He.
  assert (forall m k', audio_part (k_ctl o m k') = audio_part k') as Hctl.
  { intros m k'. unfold k_ctl. case_match; [by apply audio_emit|done]. }
  assert (audio_part (k_close o k) = audio_part k) as Hcl.
  { unfold k_close. case_match; [by apply audio_emit|done]. }
  assert (forall k', audio_part (k_silence k') = audio_part k') as Hsil.
  { intros k'. unfold k_silence. by rewrite audio_complete, audio_emit. }
  assert (forall sw pd tx, audio_part (k_accept sw pd tx k) = audio_part k) as Hac.
  { intros sw pd tx. unfold k_accept. destruct sw; [by rewrite audio_complete|].
    destruct pd; by rewrite ?Hsil. }
  unfold k_step. destruct st, i; try (by destruct (Hd frame)); try (by destruct He);
    repeat case_match; subst; rewrite ?Hctl, ?Hac, ?audio_complete, ?Hsil; auto.
Qed.

Lemma audio_data heard f k : audio_ok heard k -> audio_ok (heard ++ [f]) (k_data f k).
Proof.
  intros [H1 H2 H3 H4 H5 H6 H7]. unfold k_data. cbn [k_forward set].
  assert (sublist (concat (map req_Audio (requests k)) ++ k_turnBuf k ++ f) (concat (heard ++ [f]))) as Ha.
  { rewrite concat_app, app_assoc. cbn. rewrite app_nil_r. by apply sublist_app. }
  destruct (chan_try_send _ _ _) as [ch|] eqn:E.
  - apply chan_try_send_bound in E as [-> Hl]. split; try done.
    unfold frames_out; cbn. rewrite app_assoc. by apply sublist_app.
  - split; try done. by apply sublist_inserts_r.
Qed.

Lemma audio_heard heard f k : audio_ok heard k -> audio_ok (heard ++ [f]) k.
Proof.
  intros [H1 H2 H3 H4 H5 H6 H7]. split; try done; [|by apply sublist_inserts_r].
  rewrite concat_app. by apply sublist_inserts_r.
Qed.

Lemma audio_dispatch heard k : audio_ok heard k -> audio_ok heard (k_dispatchSTT o k).
Proof.
  intros [H1 H2 H3 H4 H5 H6 H7].
  assert (sublist (concat (map req_Audio (requests k)) ++ []) (concat heard)) as Ha.
  { rewrite app_nil_r. etrans; [|exact H5]. by apply sublist_inserts_r. }
  unfold k_dispatchSTT. destruct (sttIn_wired o); cbn [negb]; [|by split].
  cbn [k_dispatch k_req k_turnBuf set].
  assert (Forall (fun r => req_RequestID r <= Z.succ (k_req k) /\ req_SessionID r = CallSID o /\
    req_Kind r = FullPass) (requests k)) as H3'.
  { eapply Forall_impl; [exact H3|]. intros r [? ?]. split; [lia|done]. }
  destruct (chan_try_send _ _ _) as [ch|] eqn:E; [|split; try done; cbn; lia].
  apply chan_try_send_bound in E as [-> Hl].
  set (r := mkSTTRequest _ _ _ _).
  assert (requests (k <| k_req ::= Z.succ |> <| k_dispatch := k_dispatch k ++ [r] |> <| k_turnBuf := [] |>) =
    requests k ++ [r]) as Er by (unfold requests; cbn; by rewrite app_assoc).
  split; cbn [k_req k_turnBuf k_dispatch k_forward set]; try done; try lia; rewrite ?Er.
  - rewrite map_app. apply increasing_snoc; [done| |cbn; lia].
    apply Forall_map. eapply Forall_impl; [exact H3|]. intros x [? _]. cbn. lia.
  - apply Forall_snoc; [done|]. cbn. split; [lia|done].
  - rewrite map_app, concat_app. cbn. by rewrite !app_nil_r.
Qed.

Lemma audio_env heard l k : audio_ok heard k -> audio_ok heard (k_env l k).
Proof.
  intros Hk. pose proof Hk as [H1 H2 H3 H4 H5 H6 H7]. unfold k_env. destruct l as [[]| | | |]; try done.
  - destruct (k_routed k); [done|]. eapply audio_ok_ext; [by apply audio_emit|by split].
  - destruct (k_dispatch k) as [|r rest] eqn:E; [done|].
    assert (requests (k_emit (KSTT r) (k <| k_dispatch := rest |>)) = requests k) as Er.
    { unfold requests, sent; cbn. rewrite omap_app, E; cbn. by rewrite <- app_assoc. }
    split; rewrite ?Er; try done; [cbn in *; lia|].
    unfold frames_out, forwarded in *; cbn. rewrite omap_app; cbn. by rewrite app_nil_r.
  - destruct (k_forward k) as [|r rest] eqn:E; [done|].
    assert (requests (k_emit (KVAD r) (k <| k_forward := rest |>)) = requests k) as Er.
    { unfold requests, sent; cbn. rewrite omap_app; cbn. by rewrite app_nil_r. }
    split; rewrite ?Er; try done; [|cbn in *; lia].
    unfold frames_out, forwarded in *; cbn. rewrite omap_app, E in *; cbn in *. by rewrite <- app_assoc.
Qed.

Lemma audio_step heard st p i k :
  audio_ok heard k ->
  audio_ok (heard ++ match i with CData f => [f] | _ => [] end) (k_step o st p i k).
Proof.
  intros Hk.
  assert ((st = StateListening /\ i = CEndUtterance) \/ ~ (st = StateListening /\ i = CEndUtterance))
    as [[-> ->]|He]
    by (destruct st; try (right; intros [? ?]; discriminate);
        destruct i; (by left) || (right; intros [? ?]; discriminate)).
  { cbn [k_step]. rewrite app_nil_r. by apply audio_dispatch. }
  destruct i as [f| | | | | | | | |].
  { unfold k_step. destruct st; auto using audio_data, audio_heard. }
  all: rewrite app_nil_r; eapply audio_ok_ext; [by apply audio_other|done].
Qed.
End Audio.

(** ** Tear-down and routing verdicts *)

Definition count (f : mark -> bool) (l : list mark) : nat := length (filter f l).

Lemma count_snoc f l m : count f (l ++ [m]) = (count f l + if f m then 1 else 0)%nat.
Proof.
  unfold count. rewrite filter_app, length_app, filter_cons, filter_nil. f_equal.
  destruct (f m) eqn:E; case_decide as Hd; try done; by rewrite E in Hd.
Qed.

#[local] Arguments count : simpl never.

Definition is_farewell (m : mark) : bool :=
  match m with KCtl (ControlOutMark n) => bool_decide (n = farewellMarkName) | _ => false end.
Definition is_close (m : mark) : bool := match m with KClose => true | _ => false end.
Definition is_route (m : mark) : bool := match m with KRoute => true | _ => false end.
Definition is_end (m : mark) : bool := match m with KEndOfTurn _ => true | _ => false end.

Section Once.
Variable o : SessionOptions.

Definition budget_farewell (st : SessionState) : nat :=
  match st with StateAwaitingMarkEcho | StateClosed => 1 | _ => 0 end.
Definition budget_close (st : SessionState) : nat := match st with StateClosed => 1 | _ => 0 end.

Record once_ok (st : SessionState) (k : kdata) : Prop := {
  on_farewell : (count is_farewell (k_marks k) <= budget_farewell st)%nat;
  on_close : (count is_close (k_marks k) <= budget_close st)%nat;
  on_route : (count is_route (k_marks k) + (if k_routed k then 0 else 1) <=
              1 + count is_end (k_marks k))%nat
}.

(** What one transition adds. *)
Definition adds (k k' : kdata) (nf nc : nat) : Prop :=
  (count is_farewell (k_marks k') <= count is_farewell (k_marks k) + nf)%nat /\
  (count is_close (k_marks k') <= count is_close (k_marks k) + nc)%nat /\
  (count is_route (k_marks k') + (if k_routed k' then 0 else 1) + count is_end (k_marks k) <=
   count is_route (k_marks k) + (if k_routed k then 0 else 1) + count is_end (k_marks k'))%nat.

Lemma adds_refl k : adds k k 0 0.
Proof. unfold adds. lia. Qed.

Lemma adds_trans k1 k2 k3 a b c d : adds k1 k2 a b -> adds k2 k3 c d -> adds k1 k3 (a + c) (b + d).
Proof. unfold adds. lia. Qed.

Lemma adds_emit m k : adds k (k_emit m k) (if is_farewell m then 1 else 0) (if is_close m then 1 else 0) \/
  is_route m = true.
Proof.
  destruct (is_route m) eqn:E; [by right|left]. unfold adds, k_emit; cbn. rewrite !count_snoc, E. lia.
Qed.

Lemma flush_counts tr k f :
  (forall t u, f (KTurn t u) = false) ->
  count f (k_marks (k_flush tr (k_open tr k))) = count f (k_marks k).
Proof.
  intros Hf. unfold k_flush, k_open. case_decide; cbn [k_parts set]; destruct (k_parts k); try done;
    case_match; cbn; rewrite ?count_snoc, ?Hf; lia.
Qed.

Lemma flush_routed tr k :
  k_routed (k_flush tr (k_open tr k)) = if decide (tr = TriggerCallEnd) then k_routed k else false.
Proof.
  unfold k_flush, k_open. case_decide; cbn [k_parts set]; destruct (k_parts k); try done; by case_match.
Qed.

Lemma adds_complete tr k : adds k (k_complete tr k) 0 0 \/ tr = TriggerSilenceTurnEnd.
Proof.
  unfold k_complete, adds. pose proof (flush_routed tr k) as Er.
  pose proof (flush_counts tr k) as Ec. destruct tr; [left|by right|left..]; cbn [trigger_kind];
    cbn [k_emit k_marks k_routed set]; rewrite ?count_snoc, ?Ec, ?Er by done;
    rewrite ?decide_False, ?decide_True by done; destruct (k_routed k); cbn; lia.
Qed.

Lemma adds_silence k : adds k (k_silence k) 0 0.
Proof.
  unfold k_silence, k_complete, adds; cbn [trigger_kind].
  rewrite !flush_counts, flush_routed by done. rewrite decide_False by done.
  cbn [k_emit k_marks set]. rewrite !count_snoc. cbn. destruct (k_routed k); lia.
Qed.

Lemma adds_ctl m k : adds k (k_ctl o m k) (if is_farewell (KCtl m) then 1 else 0) 0.
Proof.
  unfold k_ctl. destruct (ctlOut o).
  - destruct (adds_emit (KCtl m) k) as [Ha|]; [exact Ha|done].
  - unfold adds. lia.
Qed.

Lemma adds_accept sw p tx k : adds k (k_accept sw p tx k) 0 0.
Proof.
  unfold k_accept. destruct sw; [by destruct (adds_complete TriggerStopword k)|].
  destruct p; [|by unfold adds; cbn; lia].
  set (k1 := k <| k_parts ::= _ |>). exact (adds_silence k1).
Qed.

Lemma adds_terminate tr k : tr <> TriggerSilenceTurnEnd ->
  adds k (k_ctl o (ControlOutMark farewellMarkName) (k_complete tr k)) 1 0.
Proof.
  intros Hne. destruct (adds_complete tr k) as [Ha|]; [|done].
  exact (adds_trans _ _ _ _ _ _ _ Ha (adds_ctl (ControlOutMark farewellMarkName) _)).
Qed.

(** Every transition pays for what it adds with its change of state. *)
Lemma once_step {T} `{TimerOps T} st p i k t0 (t : T) :
  once_ok st k ->
  once_ok (c_state (ctl_step o i (mkCtl st t0 p t))) (k_step o st p i k).
Proof.
  intros [H1 H2 H3].
  assert (forall nf nc k' st', adds k k' nf nc ->
    (budget_farewell st + nf <= budget_farewell st')%nat ->
    (budget_close st + nc <= budget_close st')%nat -> once_ok st' k') as Hpay.
  { intros nf nc k' st' (A1 & A2 & A3) B1 B2. split; lia. }
  assert (adds k (k_dispatchSTT o k) 0 0) as Hdi.
  { unfold k_dispatchSTT. repeat case_match; unfold adds; cbn; lia. }
  assert (forall f, adds k (k_data f k) 0 0) as Hda.
  { intros f. unfold k_data. destruct (chan_try_send _ _ _); unfold adds; cbn; lia. }
  assert (adds k (k_close o k) 0 1) as Hcl.
  { unfold k_close. destruct (closeFunc_wired o); [|unfold adds; lia]. by destruct (adds_emit KClose k). }
  assert (adds k (k_complete TriggerCallEnd k) 0 0) as Hce by by destruct (adds_complete TriggerCallEnd k).
  assert (adds k (k_ctl o ControlOutClear k) 0 0 /\
    adds k (k_ctl o (ControlOutMark responseMarkName) (k_ctl o ControlOutClear k)) 0 0) as [Hr1 Hr2].
  { split; [exact (adds_ctl ControlOutClear k)|].
    exact (adds_trans _ _ _ _ _ _ _ (adds_ctl ControlOutClear k) (adds_ctl (ControlOutMark responseMarkName) _)). }
  unfold k_step, ctl_step; cbn [c_state c_pend].
  destruct st, i; try destruct src; cbn [c_state]; try (by split);
    unfold accept, speech, terminate, end_turn, await_reply, end_utterance, arm_idle,
      hang_up, goto, tick, set; cbn [c_state c_pend c_turn c_timers]; repeat case_match; subst;
    cbn [c_state c_pend c_turn c_timers];
    first [by split|eapply Hpay;
      [solve [eauto using adds_silence, adds_accept, adds_terminate, adds_refl]|cbn; lia..]].
Qed.

Lemma once_env st l k : once_ok st k -> once_ok st (k_env l k).
Proof.
  intros [H1 H2 H3]. unfold k_env. destruct l as [[]| | | |]; try by split.
  - destruct (k_routed k) eqn:E; [by split; rewrite ?E|].
    split; cbn; rewrite ?count_snoc; cbn; lia.
  - destruct (k_dispatch k); [by split|]. split; cbn; rewrite ?count_snoc; cbn; lia.
  - destruct (k_forward k); [by split|]. split; cbn; rewrite ?count_snoc; cbn; lia.
Qed.
End Once.
