(* ===== verification/SessionClaims.v ===== *)
(** * SessionClaims: the guarantees of a session, with witnesses

    The properties of the session that later readers rely on, each proved from
    the automata of SessionCtl.v and SessionData.v, and [exec], an executor of
    sessions over the real timer facility that the witnesses run. *)

From S2P Require Export SessionOnce SessionOut.

(** ** An executor *)

Inductive cmd := Do (a : arrival) | Fire (g : Z) | Report (v : modelRouteVerdict) | DrainSTT | ForwardVAD.

Section Exec.
Variable o : SessionOptions.
Notation sess := (Session facility).

Definition exec1 (c : cmd) (s : sess) : option (label * sess) :=
  match c with
  | Do a => match step o a s with Some (true, s') => Some (LStep a, s') | _ => None end
  | Fire g =>
      let t := timerFacility s in
      match blocked t, goroutines t !! g with
      | None, Some r =>
          Some (LTimers, s <| timerFacility :=
            handleFireTimerIfCurrent (g_name r) g (g_duration r) (t <| goroutines ::= delete g |>) |>)
      | _, _ => None
      end
  | Report v => Some (LReport v, ReportModelRoute v s)
  | DrainSTT => (fun s' => (LDrainSTT, s')) <$> drainSTTDispatch_step s
  | ForwardVAD => (fun s' => (LForwardVAD, s')) <$> forwardToVAD_step s
  end.

Fixpoint exec (cs : list cmd) (s : sess) : option (list label * sess) :=
  match cs with
  | [] => Some ([], s)
  | c :: cs' =>
      match exec1 c s with
      | Some (l, s1) => match exec cs' s1 with Some (ls, s2) => Some (l :: ls, s2) | None => None end
      | None => None
      end
  end.

Lemma exec1_sound c s l s' : exec1 c s = Some (l, s') -> sstep o l s s'.
Proof.
  destruct c as [a|g|v| |]; cbn [exec1].
  - destruct (step o a s) as [[[] ?]|] eqn:E; intros; simplify_eq. by constructor.
  - destruct (blocked (timerFacility s)) eqn:Eb; [done|].
    destruct (goroutines (timerFacility s) !! g) as [r|] eqn:Eg; intros; simplify_eq.
    constructor. eapply tenv_fire. by constructor.
  - intros; simplify_eq. constructor.
  - destruct (drainSTTDispatch_step s) eqn:E; intros; simplify_eq/=. by constructor.
  - destruct (forwardToVAD_step s) eqn:E; intros; simplify_eq/=. by constructor.
Qed.

Lemma exec_sound tf cs : forall ls s ls' s',
  sreach o tf ls s -> exec cs s = Some (ls', s') -> sreach o tf (ls ++ ls') s'.
Proof.
  induction cs as [|c cs IH]; intros ls s ls' s' Hr E; cbn [exec] in E; simplify_eq.
  - by rewrite app_nil_r.
  - destruct (exec1 c s) as [[l s1]|] eqn:E1; [|done].
    destruct (exec cs s1) as [[ls2 s2]|] eqn:E2; simplify_eq.
    rewrite cons_middle, app_assoc. eapply IH; [|exact E2].
    eapply sreach_step; [exact Hr|by eapply exec1_sound].
Qed.

(** A fresh session, started, then driven by [cs]. *)
Definition exec_call (cs : list cmd) : option (list label * sess) :=
  match Start o (NewSession o NewTimerFacility) with Ok s => exec cs s | _ => None end.

Lemma exec_call_sound cs ls s :
  exec_call cs = Some (ls, s) -> sreach o NewTimerFacility ls s.
Proof.
  unfold exec_call. destruct (Start _ _) as [s0| |] eqn:E; try done. intros Hx.
  change ls with ([] ++ ls). eapply exec_sound; [by constructor|exact Hx].
Qed.
End Exec.

(** A session with every plane wired and the stopword policy. *)
Definition demo : SessionOptions :=
  mkOptions "CA1" (Some (Ok tt)) true (Some StopwordPolicy_IsEndOfTurn) defaultVADConfig
    true true true true (Some (fun _ => true)) (Some (fun _ => true)) true true 0 0 0 0 true ""
    (fun n => Z.of_nat n * 1000000) [1; 2; 3] [4; 5] [6; 7; 8].

Definition vad (k : VADKind) (w : Z) : arrival := AVAD (mkVADEvent k f_zero 0 0 w w "CA1").
Definition full (id : Z) (text : string) : arrival :=
  ASTT (mkSTTResult "CA1" id FullPass text "en" f_zero []).

(** One utterance: a frame, the caller speaks, and stops. *)
Definition utterance : list cmd :=
  [Do (AData [1; 2]); Do (vad VADSpeech 3); Do (vad VADEndOfUtterance 30)].

Lemma facility_fresh n : t_pending n NewTimerFacility = false.
Proof. reflexivity. Qed.

Definition turn_text (e : effect) : option string :=
  match e with EOnTurnComplete text _ => Some text | _ => None end.

Lemma turn_texts_trace tr : omap turn_text tr = turn_texts (omap mark_of tr).
Proof.
  induction tr as [|e tr IH]; [done|]. cbn [omap list_omap]. rewrite IH.
  destruct e as [| | | | |d| | | | | |]; try done. cbn [turn_text mark_of].
  destruct (bool_decide _); [done|]. by destruct (bool_decide _).
Qed.

(** ** Refinement *)

Section Claims.
Context {T : Type} `{TimerOps T}.
Variable o : SessionOptions.
Implicit Types (s : Session T).

(** C1: Every step of a session -- any input its select loop takes, a routing report, a
    drained queue or a timer goroutine -- is a step of the call-control automaton on the
    classified input; it changes the turn buffer, queues, transcripts and routing flag, and
    appends control messages, requests and turn-closing and routing records, exactly as the
    data automaton says; and in a running session it sends exactly what the output automaton
    says, in order: every audio frame (clips, reply frames, bed), control message, TurnSink
    call, STT request, VAD frame and transport close, the sends that fail included. Only the
    contents of the decision records are outside the automata. *)
Theorem session_refines l s s' :
  sstep o l s s' ->
  ctl_sys o (abs_label o l s) (cview s) (cview s') /\
  kview s' = k_env l (k_step o (state s) (turnEndPending s) (session_input o l s) (kview s)) /\
  (forall tf ls, sreach o tf ls s ->
     oview s' = o_env l (kview s)
       (o_step o (state s) (turnEndPending s) (session_input o l s) (kview s) (oview s))).
Proof.
  intros Hs. split; [by apply sstep_ctl|]. split; [by apply sstep_kdata|].
  intros tf ls Hr. apply (sstep_odata o _ _ _ Hs). by eapply sreach_bed.
Qed.

(** C5: Each step appends to the call transcript exactly the trimmed text of a full-pass
    result accepted in a live state that is not a stopword, in order, and nothing else; the
    TurnSink has been given exactly the joined text of each completed turn, in order, and no
    turn is empty. *)
Theorem session_transcripts_conserved tf ls s l s' :
  sreach o tf ls s -> sstep o l s s' ->
  concat (transcriptTurns s') ++ turnTranscripts s' =
    (concat (transcriptTurns s) ++ turnTranscripts s) ++
    (match session_input o l s with
     | CAccept false text => if live (state s) then [TrimSpace text] else []
     | _ => []
     end) /\
  omap turn_text (trace s') =
    map (fun ts => GoStrings.Join ts " ") (transcriptTurns s') /\
  Forall (fun ts => ts <> []) (transcriptTurns s').
Proof.
  intros Hr Hs. split.
  - change (k_utterances (kview s') = k_utterances (kview s) ++
      match session_input o l s with CAccept false text => if live (state s) then [TrimSpace text] else []
      | _ => [] end).
    rewrite (sstep_kdata _ _ _ _ Hs), <- (utts_step o (state s) (turnEndPending s)).
    destruct l as [[]| | | |]; cbn [k_env]; repeat case_match; done.
  - assert (delivered_ok (kview s')) as [_ Ht Hn].
    { apply (sreach_kind o (fun _ _ _ k => delivered_ok k) tf (ls ++ [l])); [| |by eapply sreach_step].
      - intros k <-. by split; cbn.
      - intros ls1 l1 st pnd k i t0 t s0 s1 Hk _ _ _ _. apply (delivered_step o st pnd i) in Hk.
        revert Hk. generalize (k_step o st pnd i k). intros k' Hk.
        destruct l1 as [[]| | | |]; cbn [k_env]; try done; case_match; try done;
          apply delivered_emit; try done; destruct Hk; by split. }
    split; [|exact Hn]. by rewrite turn_texts_trace.
Qed.
End Claims.

(** A reply arrives while one is awaited: clear, the frames, the mark. *)
Lemma session_refines_witness :
  let reply := AResponse (mkResponse true [[9]; [8]]) in
  exists s0 s1, sstep demo (LStep reply) s0 s1 /\ state s0 = StateAwaitingResponse /\
    state s1 = StateAwaitingResponsePlayout /\
    kview s1 = k_ctl demo (ControlOutMark responseMarkName) (k_ctl demo ControlOutClear (kview s0)) /\
    o_out (oview s1) = o_out (oview s0) ++
      [ECtlSend ControlOutClear true; EDataSend [9] true; EDataSend [8] true;
       ECtlSend (ControlOutMark responseMarkName) true].
Proof.
  intros reply.
  destruct (exec_call demo [Do (AData [1]); Do (vad VADTurnEnd 3)]) as [[ls s0]|] eqn:E; [|discriminate].
  destruct (step demo reply s0) as [[b s1]|] eqn:E1; [|discriminate].
  assert (b = true) as -> by (vm_compute in E; injection E as <- <-; vm_compute in E1; congruence).
  assert (sstep demo (LStep reply) s0 s1) as Hs by by constructor.
  pose proof (session_refines demo _ _ _ Hs) as (_ & Hk & Ho).
  specialize (Ho _ _ (exec_call_sound _ _ _ _ E)).
  assert (state s0 = StateAwaitingResponse /\ state s1 = StateAwaitingResponsePlayout /\
    o_ctls (oview s0) = 0%nat) as (Hst & Hst' & Hc).
  { vm_compute in E; injection E as <- <-; vm_compute in E1; injection E1 as <-. by split_and!. }
  rewrite Hst in Hk, Ho. exists s0, s1. split_and!; try done.
  rewrite Ho. cbn [o_out o_env o_step session_input abs_label]. vm_compute in E; injection E as <- <-.
  vm_compute. reflexivity.
Defined.

Lemma session_transcripts_conserved_witness :
  exists s s', sstep demo (LStep (full 1 " hello ")) s s' /\ turnTranscripts s = [] /\
    concat (transcriptTurns s') ++ turnTranscripts s' = ["hello"%string].
Proof.
  destruct (exec_call demo utterance) as [[ls s]|] eqn:E; [|discriminate].
  destruct (step demo (full 1 " hello ") s) as [[b s1]|] eqn:E1; [|discriminate].
  assert (b = true) as -> by (vm_compute in E; injection E as <- <-; vm_compute in E1; congruence).
  assert (sstep demo (LStep (full 1 " hello ")) s s1) as Hs by by constructor.
  exists s, s1. split; [exact Hs|].
  pose proof (proj1 (session_transcripts_conserved demo _ _ _ _ _ (exec_call_sound _ _ _ _ E) Hs)) as Hk.
  vm_compute in E; injection E as <- <-. split; [reflexivity|]. rewrite Hk. reflexivity.
Defined.

Section Claims2.
Context {T : Type} `{TimerLaws T}.
Variable o : SessionOptions.
Variable tf : T.
Implicit Types (s : Session T).

(** C6: STT requests carry strictly increasing ids, the session id and the full-pass kind;
    the audio of all requests followed by the turn buffer is a subsequence of the audio
    received, so no byte is dispatched twice or out of order; frames reach the VAD in order
    at most once; and both queues respect their depths. *)
Theorem session_audio_once ls s :
  sreach o tf ls s ->
  let reqs := omap (fun e => match e with ESTTSend r => Some r | _ => None end) (trace s)
              ++ sttDispatchCh s in
  increasing 0 (map req_RequestID reqs) /\
  Forall (fun r => req_RequestID r <= sttReqID s /\ req_SessionID r = CallSID o /\
                   req_Kind r = FullPass) reqs /\
  sublist (concat (map req_Audio reqs) ++ turnBuf s) (concat (received ls)) /\
  sublist (omap (fun e => match e with EVADSend f => Some f | _ => None end) (trace s)
           ++ forwardCh s) (received ls) /\
  (length (sttDispatchCh s) <= sttDispatchDepth)%nat /\ (length (forwardCh s) <= 4)%nat.
Proof.
  intros Hr reqs.
  assert (audio_ok o (received ls) (kview s)) as [H1 H2 H3 H4 H5 H6 H7].
  { apply (sreach_kind o (fun ls _ _ k => audio_ok o (received ls) k) tf ls); [| |done].
    - intros k <-. split; cbn; try done; try lia; constructor.
    - intros ls1 l st pnd k i t0 t s0 s1 Hk _ _ _ Hi. apply audio_env. rewrite received_snoc.
      pose proof (audio_step o _ st pnd i k Hk) as Ha.
      destruct l as [[f| | | | | | | |]| | | |]; try (subst i; exact Ha);
        rewrite app_nil_r; destruct i as [f| | | | | | | | |]; rewrite ?app_nil_r in Ha; try exact Ha;
        exfalso; clear -Hi; unfold session_input in Hi; cbn [abs_label] in Hi;
        unfold classify in Hi; repeat (case_match; try discriminate). }
  assert (forall tr, omap (fun e => match e with ESTTSend r => Some r | _ => None end) tr =
    sent (omap mark_of tr)) as Es.
  { induction tr as [|e tr IH]; [done|]. cbn [omap list_omap]. rewrite IH.
    destruct e as [| | | | |d| | | | | |]; try done. cbn [mark_of].
    destruct (bool_decide _); [done|]. by destruct (bool_decide _). }
  assert (forall tr, omap (fun e => match e with EVADSend r => Some r | _ => None end) tr =
    forwarded (omap mark_of tr)) as Ef.
  { induction tr as [|e tr IH]; [done|]. cbn [omap list_omap]. rewrite IH.
    destruct e as [| | | | |d| | | | | |]; try done. cbn [mark_of].
    destruct (bool_decide _); [done|]. by destruct (bool_decide _). }
  unfold reqs. rewrite Es, Ef. by split_and!.
Qed.

Lemma once_reach ls s : sreach o tf ls s -> once_ok (state s) (kview s).
Proof.
  intros Hr. apply (sreach_kind o (fun _ st _ k => once_ok st k) tf ls); [| |done].
  - intros k <-. split; cbn; lia.
  - intros ls1 l st pnd k i t0 t s0 s1 Hk _ _ _ _. by apply once_env, once_step.
Qed.

Definition occurrences (f : effect -> bool) s : nat := length (filter f (trace s)).

Lemma occurrences_marks (f : effect -> bool) (g : mark -> bool) s :
  (forall e, f e = match mark_of e with Some m => g m | None => false end) ->
  occurrences f s = count g (k_marks (kview s)).
Proof.
  intros Hfg. unfold occurrences, count, kview; cbn [k_marks].
  induction (trace s) as [|e tr IH]; [done|]. pose proof (Hfg e) as He.
  rewrite filter_cons. cbn [omap list_omap].
  destruct (mark_of e) as [m|]; [rewrite filter_cons|]; rewrite He.
  - destruct (decide (g m)); cbn [length]; by rewrite IH.
  - by rewrite decide_False by (intros []).
Qed.

(** C7: A call sends the farewell mark at most once and closes its transport at most once;
    after the mark the session is only in AwaitingMarkEcho or Closed, after the close only
    in Closed. *)
Theorem session_teardown_once ls s :
  sreach o tf ls s ->
  let farewells := occurrences (fun e => match e with
    | ECtlSend (ControlOutMark n) _ => bool_decide (n = farewellMarkName) | _ => false end) s in
  let closes := occurrences (fun e => match e with ECloseTransport => true | _ => false end) s in
  (farewells <= 1)%nat /\ (closes <= 1)%nat /\
  (farewells = 1%nat -> state s = StateAwaitingMarkEcho \/ state s = StateClosed) /\
  (closes = 1%nat -> state s = StateClosed).
Proof.
  intros Hr. apply once_reach in Hr as [H1 H2 _].
  rewrite (occurrences_marks _ is_farewell), (occurrences_marks _ is_close).
  - unfold budget_farewell, budget_close in *. destruct (state s); split_and!;
      first [lia|by auto|intros; exfalso; lia].
  - intros e. destruct e as [| | | | |d| | | | | |]; try done. cbn [mark_of].
    destruct (bool_decide _); [done|]. by destruct (bool_decide _).
  - intros e. destruct e as [|[]| | | |d| | | | | |]; try done. cbn [mark_of].
    destruct (bool_decide _); [done|]. by destruct (bool_decide _).
Qed.

(** However often verdicts are reported, the number of model-route records never exceeds
    the number of turn-closing records by more than one: each turn keeps at most one
    verdict. *)
Theorem session_one_verdict_per_turn ls s :
  sreach o tf ls s ->
  (occurrences (fun e => match e with
     | ERecord d => bool_decide (d_Kind d = DecisionKindModelRoute) | _ => false end) s
   <= 1 + occurrences (fun e => match e with
     | ERecord d => bool_decide (d_Kind d ∈ closing_kinds) | _ => false end) s)%nat.
Proof.
  intros Hr. apply once_reach in Hr as [_ _ H3].
  rewrite (occurrences_marks _ is_route), (occurrences_marks _ is_end); [lia| |].
  - intros e. destruct e as [| | | | |d| | | | | |]; try done. cbn [mark_of].
    destruct (decide (d_Kind d = DecisionKindModelRoute)) as [Ha|Ha]; [by rewrite Ha|].
    rewrite (bool_decide_false (d_Kind d = _)) by done. by destruct (bool_decide _).
  - intros e. destruct e as [| | | | |d| | | | | |]; try done. cbn [mark_of].
    destruct (bool_decide (d_Kind d = _)); [done|]. by destruct (bool_decide _).
Qed.
End Claims2.
