(* ===== verification/SessionTimes.v ===== *)
(** * SessionTimes: the end of a call, and the audio it plays

    The timers of a call can only bring it closer to its end; a closed call stays
    closed; the waits cover the audio they wait for; the thinking bed loops
    without a gap; and two behaviours the code does not intend, a session that
    stops listening when an STT result never comes and an utterance cap that
    outlives its utterance. *)

From S2P Require Export SessionClaims.

Section Ends.
Context {T : Type} `{TimerLaws T}.
Variable o : SessionOptions.
Variable tf : T.
Implicit Types (s : Session T).

(** ** Closed is final *)

(** What may still leave a closed session: the goroutines' queues drain and
    a routing verdict for the last turn may be recorded. *)
Definition residual (e : effect) : Prop :=
  match e with
  | ESTTSend _ | EVADSend _ => True
  | ERecord d => d_Type d = DecisionTypeModelRoute
  | _ => False
  end.

Lemma dispatch_closed src p s : state s = StateClosed -> dispatch o src p s = setState StateClosed s.
Proof. intros Hs. unfold dispatch. by rewrite transitions_eq, Hs. Qed.

(** Once Closed, a session stays Closed: no input changes its transcripts or its audio
    buffer, and all that still leaves it is what its queues already held and a routing
    verdict for the last turn. *)
Theorem session_closed_final l s s' :
  state s = StateClosed -> sstep o l s s' ->
  state s' = StateClosed /\ transcriptTurns s' = transcriptTurns s /\
  turnTranscripts s' = turnTranscripts s /\ turnBuf s' = turnBuf s /\
  exists tr, trace s' = trace s ++ tr /\ Forall residual tr.
Proof.
  intros Hc Hs.
  assert (forall s1, state s1 = StateClosed -> transcriptTurns s1 = transcriptTurns s ->
    turnTranscripts s1 = turnTranscripts s -> turnBuf s1 = turnBuf s -> forall tr, trace s1 = trace s ++ tr ->
    Forall residual tr ->
    state s1 = StateClosed /\ transcriptTurns s1 = transcriptTurns s /\
    turnTranscripts s1 = turnTranscripts s /\ turnBuf s1 = turnBuf s /\
    exists tr, trace s1 = trace s ++ tr /\ Forall residual tr) as Hmk by eauto 10.
  destruct Hs as [a s s' Ha|v s|s s' Hd|s s' Hf|s t' He].
  - destruct a; cbn [step] in Ha; unfold dispatchVADEvent in Ha;
      try match type of Ha with (if ?b then _ else None) = _ => destruct b; [|discriminate] end;
      simplify_eq; rewrite ?dispatch_closed by done;
      try (by apply Hmk with (tr := []); try done; rewrite app_nil_r).
    + destruct (modelRouteCh s) as [|v rest]; simplify_eq. unfold recordModelRoute.
      cbn [routeReported set]. destruct (routeReported s).
      * by apply Hmk with (tr := []); try done; rewrite app_nil_r.
      * eapply Hmk; [exact Hc|reflexivity..|by repeat constructor].
    + destruct (t_recv (timerFacility s)) as [[cm t]|]; simplify_eq. unfold dispatchTimerCompletion.
      repeat case_match; rewrite ?dispatch_closed by done;
        (by apply Hmk with (tr := []); try done; rewrite app_nil_r).
  - unfold ReportModelRoute. case_match;
      (by apply Hmk with (tr := []); try done; rewrite app_nil_r).
  - unfold drainSTTDispatch_step in Hd. case_match; simplify_eq.
    eapply Hmk; [exact Hc|reflexivity..|by repeat constructor].
  - unfold forwardToVAD_step in Hf. case_match; simplify_eq.
    eapply Hmk; [exact Hc|reflexivity..|by repeat constructor].
  - by apply Hmk with (tr := []); try done; rewrite app_nil_r.
Qed.

(** ** Timers bring a call closer to its end *)

Definition rank (st : SessionState) : nat :=
  match st with
  | StateClosed => 0
  | StateAwaitingMarkEcho => 1
  | StateIdle | StateListening | StateAwaitingFullResult | StateAwaitingResponse => 2
  | StateAwaitingResponsePlayout | StateTerminating => 3
  end.

Definition drives (st : SessionState) (name : string) : bool :=
  match st with
  | StateIdle | StateListening | StateAwaitingFullResult =>
      bool_decide (name = timerIdle) || bool_decide (name = timerUtterance)
  | StateAwaitingResponse => bool_decide (name = timerResponse)
  | StateAwaitingResponsePlayout | StateAwaitingMarkEcho => bool_decide (name = timerMarkEcho)
  | StateTerminating | StateClosed => false
  end.

Lemma rank_timer src (c : ctl T) :
  (rank (c_state (ctl_step o (CTimer src) c)) <= rank (c_state c))%nat.
Proof. destruct c as [[] ? ? ?], src; cbn; lia. Qed.

Lemma rank_driver name src (c : ctl T) :
  drives (c_state c) name = true -> timer_source name = Some src ->
  (rank (c_state (ctl_step o (CTimer src) c)) < rank (c_state c))%nat.
Proof.
  intros Hd Hsrc. assert (name ∈ [timerIdle; timerUtterance; timerResponse; timerMarkEcho]) as Hin.
  { destruct c as [[] ? ? ?]; cbn [drives c_state] in Hd; try discriminate;
      rewrite ?orb_true_iff, ?bool_decide_eq_true in Hd; set_solver. }
  destruct c as [st tu pd t]. cbn [c_state] in *.
  repeat (apply elem_of_cons in Hin as [->|Hin]); [..|by apply elem_of_nil in Hin];
    vm_compute in Hsrc; injection Hsrc as <-; destruct st; try (vm_compute in Hd; discriminate);
    cbn; lia.
Qed.

(** C3: From any reachable state, while the session is not closed, some timer that ends its
    wait is pending; every timer completion the loop takes leaves the session no further
    from Closed, on a scale of at most three whose zero is Closed alone, and a current
    completion of such a timer moves it strictly closer. That the facility delivers a
    completion is not part of the claim. *)
Theorem session_timers_close_call ls s cm t :
  t_ok tf -> (forall n, t_pending n tf = false) -> sreach o tf ls s ->
  (state s = StateClosed \/ exists n, drives (state s) n = true /\ t_pending n (timerFacility s) = true) /\
  (t_recv (timerFacility s) = Some (cm, t) ->
     exists s', step o ATimer s = Some (true, s') /\
       (rank (state s') <= rank (state s))%nat /\
       (t_isCurrent cm t = true -> drives (state s) (c_name cm) = true ->
          (rank (state s') < rank (state s))%nat)) /\
  (rank (state s) <= 3)%nat /\ (rank (state s) = 0%nat <-> state s = StateClosed).
Proof.
  intros Hok Hfr Hr. pose proof (session_inv o tf Hok Hfr ls s Hr) as [Htok [Hd _ _ _ _ _ _ _ _]].
  unfold pend, SessionCtl.driven in Hd. cbn [cview c_state c_timers] in Hd. split; [|split].
  - destruct (state s); try (by left); right; try discriminate;
      try (apply orb_true_iff in Hd as [Hd|Hd]); (eexists; split; [|exact Hd]); reflexivity.
  - intros Hrecv. cbn [step]. rewrite Hrecv. eexists. split; [reflexivity|].
    unfold dispatchTimerCompletion. cbn [timerFacility set].
    destruct (t_isCurrent cm t) eqn:Ec; cbn [negb]; [|by split].
    destruct (timer_source (c_name cm)) as [src|] eqn:Es.
    + set (s1 := s <| timerFacility := t |>). set (s2 := dispatch o src PayNil s1).
      assert (c_state (cview s2) = c_state (ctl_step o (CTimer src) (cview s1))) as E.
      { unfold s2. rewrite dispatch_ctl. do 2 f_equal. unfold timer_source in Es.
        repeat case_decide; simplify_eq; done. }
      change (state s2) with (c_state (cview s2)). change (state s) with (c_state (cview s1)). rewrite E.
      split; [apply rank_timer|]. intros _ Hdr. by apply (rank_driver (c_name cm)).
    + split; [done|]. intros _ Hdr. exfalso. unfold drives in Hdr.
      destruct (state s); try discriminate;
        rewrite ?orb_true_iff, ?bool_decide_eq_true in Hdr; destruct_or?; rewrite Hdr in Es; discriminate.
  - split; destruct (state s); cbn; try lia; by split.
Qed.

(** ** A session awaiting a result that never comes *)

Definition unanswered s s' : Prop :=
  exists l, sstep o l s s' /\ forall sw tx, session_input o l s <> CAccept sw tx.

Definition all_requests s : list STTRequest := requests (kview s).

Lemma requests_env l k : requests (k_env l k) = requests k.
Proof.
  assert (forall m k', requests (k_emit m k') =
    sent (k_marks k') ++ match m with KSTT r => [r] | _ => [] end ++ k_dispatch k') as He.
  { intros m k'. unfold requests, sent, k_emit, set. cbn [k_marks k_dispatch]. rewrite omap_app, <- app_assoc.
    by destruct m. }
  unfold k_env. destruct l as [[]| | | |]; try done.
  - destruct (k_routed k); [done|]. by rewrite He.
  - destruct (k_dispatch k) as [|r rest] eqn:E; [done|]. rewrite He. unfold requests. by rewrite E.
  - destruct (k_forward k); [done|]. by rewrite He.
Qed.

Lemma req_env l k : k_req (k_env l k) = k_req k.
Proof. unfold k_env. destruct l as [[]| | | |]; try done; by case_match. Qed.

Lemma requests_quiet st p i k :
  st = StateAwaitingFullResult \/ st = StateAwaitingMarkEcho \/ st = StateClosed ->
  requests (k_step o st p i k) = requests k /\ k_req (k_step o st p i k) = k_req k.
Proof.
  intros Hst. assert (~ (st = StateListening /\ i = CEndUtterance)) as Hne
    by (intros [-> _]; destruct_or!; discriminate).
  destruct i as [f| | | | | | | | |].
  { unfold k_step. destruct_or! Hst; subst; try done. unfold k_data, requests.
    by destruct (chan_try_send _ _ _). }
  all: match goal with |- requests ?k' = _ /\ _ =>
    assert (audio_part k' = audio_part k) as E by (by apply audio_other) end;
    unfold audio_part in E; injection E as E1 E2 E3 E4 E5 E6; unfold requests; by rewrite E2, E3, E5.
Qed.

(** While a full pass is awaited and no full-pass result with the awaited id arrives,
    no further STT request is ever made, whatever the caller says, and the session can only
    leave the state by terminating: an STT pass that fails leaves the call deaf. *)
Theorem awaiting_full_result_deaf s s' :
  state s = StateAwaitingFullResult -> rtc unanswered s s' ->
  all_requests s' = all_requests s /\ sttReqID s' = sttReqID s /\
  (state s' = StateAwaitingFullResult \/ state s' = StateAwaitingMarkEcho \/ state s' = StateClosed).
Proof.
  intros Hst Hrun. assert (state s = StateAwaitingFullResult \/ state s = StateAwaitingMarkEcho \/
    state s = StateClosed) as Hst' by auto. clear Hst.
  induction Hrun as [s|s s1 s2 (l & Hs & Hna) _ IH]; [done|].
  destruct (sstep_state _ _ _ _ Hs) as [t Ec].
  pose proof (sstep_kdata _ _ _ _ Hs) as Ek.
  destruct (requests_quiet (state s) (turnEndPending s) (session_input o l s) (kview s) Hst') as [E1 E2].
  assert (all_requests s1 = all_requests s) as E3.
  { unfold all_requests. by rewrite Ek, requests_env. }
  assert (sttReqID s1 = sttReqID s) as E4.
  { change (k_req (kview s1) = k_req (kview s)). by rewrite Ek, req_env. }
  rewrite <- E3, <- E4. apply IH. change (state s1) with (c_state (cview s1)). rewrite Ec.
  unfold ctl_step. cbn [c_state cview set].
  destruct (session_input o l s) as [f| |nm| | | |sw tx| |src|] eqn:Ei; try (by destruct (Hna sw tx));
    destruct_or! Hst'; rewrite Hst'; try destruct src; try case_match;
    unfold speech, terminate, end_turn, end_utterance, arm_idle, hang_up, goto, tick, set;
    cbn [c_turn c_state cview]; try destruct (turnActive s); cbn [c_turn c_state]; rewrite ?Hst'; auto.
Qed.
End Ends.

(** ** Waits cover the audio they wait for *)

Lemma total_bytes_concat (frames : list bytes) : forall n,
  fold_left (fun n f => n + len f) frames n = n + len (concat frames).
Proof.
  induction frames as [|f frames IH]; intros n; cbn [fold_left concat]; [unfold len; cbn [length]; lia|].
  rewrite IH. unfold len. rewrite length_app. lia.
Qed.

(** The mark-echo wait derived from a reply is that of its concatenated frames, and for
    any clip that fits in memory it exceeds the playout time of the clip by between 499 ms
    and the 500 ms grace. *)
Theorem mark_echo_covers_playout frames :
  (responseMarkEchoTimeout frames = MarkEchoTimeout (concat frames)) /\
  (len (concat frames) * Second < 2 ^ 63 ->
   MuLawDuration (len (concat frames)) + 499 * Millisecond <= MarkEchoTimeout (concat frames) /\
   MarkEchoTimeout (concat frames) <= MuLawDuration (len (concat frames)) + MarkEchoGraceMS * Millisecond).
Proof.
  split; [unfold responseMarkEchoTimeout, MarkEchoTimeout; by rewrite total_bytes_concat|].
  intros Hb. assert (0 <= len (concat frames)) as Hl by (unfold len; lia).
  rewrite MuLawDuration_exact by done. unfold MarkEchoTimeout, SampleRateHz, MarkEchoGraceMS, Millisecond.
  rewrite Z.quot_div_nonneg by lia.
  pose proof (Z.div_mod (len (concat frames) * 1000) 8000 ltac:(lia)).
  pose proof (Z.mod_pos_bound (len (concat frames) * 1000) 8000 ltac:(lia)). lia.
Qed.

Lemma mark_echo_covers_playout_witness :
  exists frames : list bytes, len (concat frames) * Second < 2 ^ 63 /\
    MuLawDuration (len (concat frames)) + 499 * Millisecond <= MarkEchoTimeout (concat frames).
Proof.
  exists [[1; 2; 3]; [4]]. split; [by vm_compute|].
  exact (proj1 (proj2 (mark_echo_covers_playout [[1; 2; 3]; [4]]) ltac:(by vm_compute))).
Defined.

(** ** The thinking bed *)

Section Bed.
Context {T : Type} `{TimerOps T}.
Variable o : SessionOptions.
Implicit Types (s : Session T).

(** With a data output wired and the offset inside the clip, one bed tick sends exactly
    the next 1600 bytes of the clip played in a loop and leaves the offset inside the clip,
    whatever the length of the clip. *)
Theorem bed_chunk_cyclic s oracle :
  dataOut o = Some oracle -> (bedOffset s < length (LLMThinkingULaw o))%nat ->
  let clip := LLMThinkingULaw o in
  let s' := sendBedChunk o s in
  trace s' = trace s ++ [EDataSend (cyclic clip (bedOffset s) 1600) (oracle (dataSends s))] /\
  bedOffset s' = ((bedOffset s + 1600) mod length clip)%nat /\
  (bedOffset s' < length clip)%nat.
Proof.
  intros Ho Hlt clip s'.
  assert (s' = snd (data_send oracle (cyclic clip (bedOffset s) (Z.to_nat bedChunkBytes))
    (s <| bedOffset := ((bedOffset s + Z.to_nat bedChunkBytes) mod length clip)%nat |>))) as ->.
  { unfold s', sendBedChunk. rewrite Ho. fold clip. destruct clip as [|b rest] eqn:Ec.
    { unfold clip in Ec. rewrite Ec in Hlt. cbn in Hlt. lia. }
    rewrite <- Ec. rewrite (bed_loop_cyclic clip (bedOffset s)); [done|exact Hlt|done| |cbn [length]; lia|cbn [length]; lia].
    cbn [length]. rewrite Nat.add_0_r. symmetry. by apply Nat.mod_small. }
  change (Z.to_nat bedChunkBytes) with 1600%nat. split_and!; try done.
  cbn [data_send snd bedOffset set emit]. apply Nat.mod_upper_bound. unfold clip. lia.
Qed.
End Bed.

(** ** A cap that outlives its utterance *)

(** The caller starts a second utterance while the first one's pass, a
    stopword, is in flight; its end arrives while the reply is awaited. *)
Definition stale_cap : list cmd :=
  utterance ++ [Do (vad VADSpeech 40); Do (full 1 "done"); Do (vad VADEndOfUtterance 60);
    Do (AResponse (mkResponse false [])); Fire 6].

(** A concrete call reaches Listening with no turn active and the utterance cap of a
    finished utterance still pending; when it fires, the forced-stop clip is played and the
    call ends although the caller is silent. *)
Theorem stale_utterance_cap :
  exists ls s s',
    exec_call demo stale_cap = Some (ls, s) /\ sreach demo NewTimerFacility ls s /\
    state s = StateListening /\ turnActive s = false /\
    t_pending timerUtterance (timerFacility s) = true /\
    step demo ATimer s = Some (true, s') /\ state s' = StateAwaitingMarkEcho /\
    EDataSend (AudioForcedStopULaw demo) true ∈ trace s'.
Proof.
  destruct (exec_call demo stale_cap) as [[ls s]|] eqn:E; [|vm_compute in E; discriminate].
  pose proof (exec_call_sound _ _ _ _ E) as Hr.
  destruct (step demo ATimer s) as [[b s']|] eqn:E1.
  - exists ls, s, s'. split; [done|]. split; [exact Hr|]. clear Hr.
    vm_compute in E. injection E as <- <-. vm_compute in E1. injection E1 as <- <-.
    split_and!; try reflexivity. cbn [trace]. apply list_elem_of_In. simpl. tauto.
  - exfalso. clear Hr. vm_compute in E. injection E as <- <-. vm_compute in E1. discriminate.
Qed.

(** ** Witnesses *)

Ltac call_reached cs :=
  let E := fresh "E" in
  destruct (exec_call demo cs) as [[ls s]|] eqn:E; [|vm_compute in E; discriminate];
  pose proof (exec_call_sound _ _ _ _ E) as Hr; vm_compute in E; injection E as <- <-.

Lemma session_wait_bounded_witness :
  exists ls (s : Session facility), sreach demo NewTimerFacility ls s /\
    state s = StateAwaitingFullResult /\
    t_pending timerIdle (timerFacility s) || t_pending timerUtterance (timerFacility s) = true.
Proof.
  call_reached utterance. eexists _, _. split; [exact Hr|]. split; [reflexivity|].
  exact (session_wait_bounded demo NewTimerFacility wf_init facility_fresh _ _ Hr).
Defined.

Lemma session_turn_capped_witness :
  exists ls (s : Session facility), sreach demo NewTimerFacility ls s /\
    turnActive s = true /\ turnActive s = t_pending timerTurn (timerFacility s).
Proof.
  call_reached utterance. eexists _, _. split; [exact Hr|]. split; [reflexivity|].
  exact (proj1 (session_turn_capped demo NewTimerFacility wf_init facility_fresh _ _ Hr)).
Defined.

Lemma session_timers_confined_witness :
  exists ls (s : Session facility), sreach demo NewTimerFacility ls s /\
    t_pending timerBedTick (timerFacility s) = true /\
    (state s = StateAwaitingResponse \/ state s = StateClosed).
Proof.
  call_reached (utterance ++ [Do (full 1 "done")]). eexists _, _. split; [exact Hr|].
  split; [vm_compute; reflexivity|].
  exact (proj1 (proj2 (session_timers_confined demo NewTimerFacility wf_init facility_fresh _ _ Hr))
    ltac:(vm_compute; reflexivity)).
Defined.

Lemma session_audio_once_witness :
  exists ls (s : Session facility), sreach demo NewTimerFacility ls s /\
    length (sttDispatchCh s) = 1%nat /\ (length (sttDispatchCh s) <= sttDispatchDepth)%nat.
Proof.
  call_reached utterance. eexists _, _. split; [exact Hr|]. split; [reflexivity|].
  exact (proj1 (proj2 (proj2 (proj2 (proj2 (session_audio_once demo NewTimerFacility _ _ Hr)))))).
Defined.

(** Idle timeout, then the farewell mark's echo. *)
Definition farewell_call : list cmd :=
  [Fire 2; Do ATimer; Do (AControl (mkControlEvent "mark" "farewell" "CA1"))].

Lemma session_teardown_once_witness :
  exists ls (s : Session facility), sreach demo NewTimerFacility ls s /\ state s = StateClosed /\
    (occurrences (fun e => match e with ECloseTransport => true | _ => false end) s <= 1)%nat.
Proof.
  call_reached farewell_call. eexists _, _. split; [exact Hr|]. split; [reflexivity|].
  exact (proj1 (proj2 (session_teardown_once demo NewTimerFacility _ _ Hr))).
Defined.

Lemma session_one_verdict_per_turn_witness :
  exists ls (s : Session facility), sreach demo NewTimerFacility ls s /\
    (occurrences (fun e => match e with
       | ERecord d => bool_decide (d_Kind d = DecisionKindModelRoute) | _ => false end) s
     <= 1 + occurrences (fun e => match e with
       | ERecord d => bool_decide (d_Kind d ∈ closing_kinds) | _ => false end) s)%nat.
Proof.
  call_reached (utterance ++ [Do (full 1 "done"); Report (mkVerdict "big" "long"); Report (mkVerdict "big" "x");
    Do AModelRoute; Do AModelRoute]).
  eexists _, _. split; [exact Hr|].
  exact (session_one_verdict_per_turn demo NewTimerFacility _ _ Hr).
Defined.

Lemma session_closed_final_witness :
  exists s s' : Session facility, state s = StateClosed /\ sstep demo (LStep (AData [9])) s s' /\
    state s' = StateClosed.
Proof.
  call_reached farewell_call. clear Hr.
  match goal with |- context [facility] => idtac end.
  destruct (exec_call demo farewell_call) as [[ls s]|] eqn:E; [|vm_compute in E; discriminate].
  destruct (step demo (AData [9]) s) as [[b s']|] eqn:E1;
    [|vm_compute in E; injection E as <- <-; vm_compute in E1; discriminate].
  assert (b = true /\ state s = StateClosed) as [-> Hc].
  { vm_compute in E; injection E as <- <-; vm_compute in E1; injection E1 as <- _. by split. }
  exists s, s'. split; [exact Hc|]. assert (sstep demo (LStep (AData [9])) s s') as Hs by by constructor.
  split; [exact Hs|]. exact (proj1 (session_closed_final demo _ _ _ Hc Hs)).
Defined.

Lemma session_timers_close_call_witness :
  exists ls (s : Session facility) cm t s', sreach demo NewTimerFacility ls s /\
    t_recv (timerFacility s) = Some (cm, t) /\ step demo ATimer s = Some (true, s') /\
    (rank (state s') < rank (state s))%nat.
Proof.
  destruct (exec_call demo [Fire 2]) as [[ls s]|] eqn:E; [|vm_compute in E; discriminate].
  pose proof (exec_call_sound _ _ _ _ E) as Hr.
  destruct (t_recv (timerFacility s)) as [[cm t]|] eqn:E1;
    [|vm_compute in E; injection E as <- <-; vm_compute in E1; discriminate].
  destruct (proj1 (proj2 (@session_timers_close_call facility facility_ops facility_laws demo NewTimerFacility ls s cm t wf_init facility_fresh Hr)) E1)
    as (s' & Hs & _ & Hlt).
  exists ls, s, cm, t, s'. split; [exact Hr|]. split; [exact E1|]. split; [exact Hs|].
  apply Hlt; clear -E E1; vm_compute in E; injection E as <- <-; vm_compute in E1;
    injection E1 as <- <-; vm_compute; reflexivity.
Defined.

Lemma awaiting_full_result_deaf_witness :
  exists s s' : Session facility, state s = StateAwaitingFullResult /\ rtc (unanswered demo) s s' /\
    s' <> s /\ all_requests s' = all_requests s.
Proof.
  destruct (exec_call demo utterance) as [[ls s]|] eqn:E; [|vm_compute in E; discriminate].
  destruct (step demo (vad VADEndOfUtterance 60) s) as [[b s']|] eqn:E1;
    [|vm_compute in E; injection E as <- <-; vm_compute in E1; discriminate].
  assert (b = true /\ state s = StateAwaitingFullResult /\ s' <> s) as (-> & Hc & Hne).
  { vm_compute in E; injection E as <- <-; vm_compute in E1; injection E1 as <- <-.
    split_and!; [done|done|]. intros Heq. apply (f_equal (fun x => length (trace x))) in Heq. discriminate. }
  assert (rtc (unanswered demo) s s') as Hrun.
  { apply rtc_once. exists (LStep (vad VADEndOfUtterance 60)). split; [by constructor|]. done. }
  exists s, s'. split; [exact Hc|]. split; [exact Hrun|]. split; [exact Hne|].
  exact (proj1 (awaiting_full_result_deaf demo _ _ Hc Hrun)).
Defined.

Lemma bed_chunk_cyclic_witness :
  exists s : Session facility, (bedOffset s < 3)%nat /\
    bedOffset (sendBedChunk demo s) = ((bedOffset s + 1600) mod 3)%nat.
Proof.
  exists (NewSession demo NewTimerFacility). split; [cbn; lia|].
  exact (proj1 (proj2 (bed_chunk_cyclic demo (NewSession demo NewTimerFacility) (fun _ => true)
    eq_refl ltac:(cbn; lia)))).
Defined.
