(* ===== verification/RtBase.v ===== *)
(** * RtBase: what the parts of the realtime call path share

    The Go runtime's [time.AfterFunc] timers as a table of callbacks, the
    consumer-facing channels with [sendOrDrop], the server events of
    [telephony/realtime/events.go] and the base64 payloads of
    [telephony/twilio/realtime_marks.go]. *)

From S2P Require Export Service.
From Stdlib Require Import Ascii.

(** ** Runtime timers

    [AfterFunc] registers a callback with its deadline.  Once the deadline has
    passed the runtime may start it, in a goroutine of its own: from then on
    [Stop] cannot hold it back, and its body runs when it gets the lock it
    waits for.  [tm_pending] are the callbacks not yet started, [tm_started]
    those started whose body has not run. *)

Record timers (C : Type) := mkTimers {
  tm_next : nat;
  tm_pending : gmap nat (Z * C);
  tm_started : gmap nat C
}.
Arguments mkTimers {C} _ _ _.
Arguments tm_next {C} _.
Arguments tm_pending {C} _.
Arguments tm_started {C} _.
#[export] Instance timers_eta {C} : Eta (timers C) := fun t =>
  mkTimers (tm_next t) (tm_pending t) (tm_started t).

Definition no_timers {C} : timers C := mkTimers O ∅ ∅.

Definition AfterFunc {C} (now d : Z) (cb : C) (t : timers C) : nat * timers C :=
  (tm_next t, t <| tm_pending ::= <[tm_next t := (now + d, cb)]> |> <| tm_next ::= S |>).

Definition Stop {C} (id : nat) (t : timers C) : timers C := t <| tm_pending ::= delete id |>.

Definition StopOpt {C} (id : option nat) (t : timers C) : timers C :=
  match id with Some id => Stop id t | None => t end.

(** The runtime starts a due callback; a started callback's body is taken. *)
Definition tm_start {C} (now : Z) (id : nat) (t : timers C) : option (timers C) :=
  match tm_pending t !! id with
  | Some (due, cb) =>
      if due <=? now
      then Some (t <| tm_pending ::= delete id |> <| tm_started ::= <[id := cb]> |>) else None
  | None => None
  end.

Definition tm_take {C} (id : nat) (t : timers C) : option (C * timers C) :=
  match tm_started t !! id with
  | Some cb => Some (cb, t <| tm_started ::= delete id |>)
  | None => None
  end.

(** A callback the runtime may still start, or has started and not finished. *)
Definition tm_live {C} (t : timers C) (id : nat) (cb : C) : Prop :=
  (exists due, tm_pending t !! id = Some (due, cb)) \/ tm_started t !! id = Some cb.

(** Identifiers are fresh: nothing live is at or above [tm_next], and no
    identifier is both pending and started. *)
Definition tm_wf {C} (t : timers C) : Prop :=
  (forall id due cb, tm_pending t !! id = Some (due, cb) -> (id < tm_next t)%nat) /\
  (forall id cb, tm_started t !! id = Some cb -> (id < tm_next t)%nat) /\
  (forall id, is_Some (tm_pending t !! id) -> is_Some (tm_started t !! id) -> False).

(** What asked for a filler countdown (realtime_filler.go), and the callbacks
    this path hands to [AfterFunc]: [filler.start], [markTracker.expire] and
    [callerSilence.fire] with the values their closures capture. *)
Inductive armTrigger := armedByTurn | armedByCallOpen.

Inductive callback :=
| CbStart (gen : nat) (by_ : armTrigger)
| CbExpire (name : string) (gen : nat)
| CbFire (gen : nat).

(** ** Consumer channels

    The consumer owns the channel, so whether a non-blocking send finds room
    (or a waiting reader) is the environment's: [ready].  [c_sent] is what the
    consumer was handed, oldest first; drops are counted. *)

Record consumer (A : Type) := mkConsumer { c_sent : list A; c_dropped : nat }.
Arguments mkConsumer {A} _ _.
Arguments c_sent {A} _.
Arguments c_dropped {A} _.
#[export] Instance consumer_eta {A} : Eta (consumer A) := fun c => mkConsumer (c_sent c) (c_dropped c).

Definition new_consumer {A} : consumer A := mkConsumer [] O.

Definition sendOrDrop {A} (ready : bool) (v : A) (c : consumer A) : consumer A :=
  if ready then c <| c_sent ::= fun l => l ++ [v] |> else c <| c_dropped ::= S |>.

Definition dropLogEvery : nat := 100.

Definition LogDrop (n : nat) : bool := (n =? 1)%nat || (n mod dropLogEvery =? 0)%nat.

(** ** Server events (realtime/events.go)

    [ev_probe] is what [json.Unmarshal] reads from the raw frame into
    [ResponseEndedInFunctionCall]'s probe: its type and the types of the
    response's output items, or nothing when the frame does not parse. *)

Record ServerEvent := mkServerEvent {
  ev_Type : string;
  ev_Delta : string;
  ev_Transcript : string;
  ev_probe : option (string * list string)
}.

Definition EventSpeechStarted : string := "input_audio_buffer.speech_started".
Definition EventSpeechStopped : string := "input_audio_buffer.speech_stopped".
Definition EventTranscriptDelta : string := "conversation.item.input_audio_transcription.delta".
Definition EventTranscriptDone : string := "conversation.item.input_audio_transcription.completed".
Definition EventAudioDelta : string := "response.output_audio.delta".
Definition EventResponseDone : string := "response.done".
Definition EventTurnEnded : string := "turn.ended".
Definition EventTurnResumed : string := "turn.resumed".
Definition ItemTypeFunctionCall : string := "function_call".

Definition ResponseEndedInFunctionCall (probe : option (string * list string)) : bool :=
  match probe with
  | Some (ty, items) =>
      bool_decide (ty = EventResponseDone) &&
      existsb (fun ty => bool_decide (ty = ItemTypeFunctionCall)) items
  | None => false
  end.

(** [EventSpeechStarted] and [EventTurnResumed] are one event to the engine. *)
Definition is_speech_start (ev : ServerEvent) : bool :=
  bool_decide (ev_Type ev = EventSpeechStarted) || bool_decide (ev_Type ev = EventTurnResumed).

(** ** Base64

    [base64.StdEncoding.EncodeToString] ([pad]) and the unpadded form. *)

Definition b64_alphabet : string :=
  "ABCDEFGHIJKLMNOPQRSTUVWXYZabcdefghijklmnopqrstuvwxyz0123456789+/".

Definition b64_char (i : Z) : ascii := default "A"%char (String.get (Z.to_nat i) b64_alphabet).

Fixpoint EncodeToString (pad : bool) (l : bytes) : string :=
  match l with
  | [] => ""
  | [a] =>
      String (b64_char (Z.shiftr a 2)) (String (b64_char (Z.shiftl (Z.land a 3) 4))
        (if pad then "==" else ""))
  | [a; b] =>
      String (b64_char (Z.shiftr a 2))
        (String (b64_char (Z.lor (Z.shiftl (Z.land a 3) 4) (Z.shiftr b 4)))
          (String (b64_char (Z.shiftl (Z.land b 15) 2)) (if pad then "=" else "")))
  | a :: b :: c :: l =>
      String (b64_char (Z.shiftr a 2))
        (String (b64_char (Z.lor (Z.shiftl (Z.land a 3) 4) (Z.shiftr b 4)))
          (String (b64_char (Z.lor (Z.shiftl (Z.land b 15) 2) (Z.shiftr c 6)))
            (String (b64_char (Z.land c 63)) (EncodeToString pad l))))
  end.

(** [for n > 0 && payloadB64[n-1] == '=' { n-- }] *)
Fixpoint strip_pad (s : string) (n : nat) : nat :=
  match n with
  | O => O
  | S m => if bool_decide (String.get m s = Some "="%char) then strip_pad s m else n
  end.

Definition muLawBytesInB64 (payloadB64 : string) : nat :=
  strip_pad payloadB64 (String.length payloadB64) * 6 / 8.

(** ** Facts *)

Lemma b64_char_not_pad i : b64_char i <> "="%char.
Proof.
  unfold b64_char. destruct (decide (Z.to_nat i < 64)%nat) as [H|H].
  - revert H. generalize (Z.to_nat i). intros n Hn.
    do 64 (destruct n as [|n]; [vm_compute; discriminate|]). lia.
  - assert (String.get (Z.to_nat i) b64_alphabet = None) as ->; [|discriminate].
    revert H. generalize (Z.to_nat i). intros n Hn.
    do 64 (destruct n as [|n]; [lia|]). reflexivity.
Qed.

Lemma strip_pad_cons c s n :
  strip_pad (String c s) (S n) =
  match strip_pad s n with
  | O => if bool_decide (c = "="%char) then O else 1%nat
  | S k => S (S k)
  end.
Proof.
  induction n as [|n IH].
  - cbn. case_bool_decide as H; case_bool_decide as H'; congruence.
  - change (strip_pad (String c s) (S (S n))) with
      (if bool_decide (String.get n s = Some "="%char) then strip_pad (String c s) (S n) else S (S n)).
    rewrite IH. cbn [strip_pad]. destruct (bool_decide (String.get n s = _)); reflexivity.
Qed.

(** An encoding strips to its data characters: four for every three bytes,
    rounded up. *)
Lemma strip_pad_encode pad l :
  strip_pad (EncodeToString pad l) (String.length (EncodeToString pad l)) = ((length l * 4 + 2) / 3)%nat.
Proof.
  revert l. fix IH 1. intros [|a [|b [|c l]]]; [reflexivity|..].
  1,2: clear IH; destruct pad; cbn [EncodeToString String.length]; repeat rewrite strip_pad_cons; cbn [strip_pad];
    rewrite ?(bool_decide_eq_false_2 _ (b64_char_not_pad _)); reflexivity.
  cbn [EncodeToString String.length]. repeat rewrite strip_pad_cons. rewrite IH.
  rewrite ?(bool_decide_eq_false_2 _ (b64_char_not_pad _)).
  assert (Hl : ((length (a :: b :: c :: l) * 4 + 2) / 3 = 4 + (length l * 4 + 2) / 3)%nat).
  { cbn [length]. replace (S (S (S (length l))) * 4 + 2)%nat with (4 * 3 + (length l * 4 + 2))%nat by lia.
    rewrite Nat.div_add_l by lia. reflexivity. }
  rewrite Hl. destruct ((length l * 4 + 2) / 3)%nat; reflexivity.
Qed.

(** The byte count read off the payload's length is exact. *)
Lemma muLawBytesInB64_encode pad l : muLawBytesInB64 (EncodeToString pad l) = length l.
Proof.
  unfold muLawBytesInB64. rewrite strip_pad_encode.
  set (n := length l).
  pose proof (Nat.div_mod_eq (n * 4 + 2) 3). pose proof (Nat.mod_upper_bound (n * 4 + 2) 3).
  pose proof (Nat.div_mod_eq ((n * 4 + 2) / 3 * 6) 8). pose proof (Nat.mod_upper_bound ((n * 4 + 2) / 3 * 6) 8).
  lia.
Qed.

Section TimerFacts.
Context {C : Type}.
Implicit Types t : timers C.

Lemma no_timers_wf : tm_wf (no_timers (C := C)).
Proof. split_and!; intros *; simpl; rewrite ?lookup_empty; try discriminate. intros [? H]; discriminate H. Qed.

Lemma AfterFunc_wf now d cb t : tm_wf t -> tm_wf (snd (AfterFunc now d cb t)).
Proof.
  intros (H1 & H2 & H3). unfold AfterFunc; usimpl. split_and!; intros id; usimpl.
  - intros due cb'. rewrite lookup_insert_Some. intros [[<- _]|[_ Hp]]; [lia|]. apply H1 in Hp. lia.
  - intros cb' Hs. apply H2 in Hs. lia.
  - destruct (decide (id = tm_next t)) as [->|Hn].
    + intros _ [cb' Hs]. apply H2 in Hs. lia.
    + rewrite lookup_insert_ne by done. apply H3.
Qed.

Lemma Stop_wf id t : tm_wf t -> tm_wf (Stop id t).
Proof.
  intros (H1 & H2 & H3). unfold Stop; split_and!; intros id'; usimpl.
  - intros due cb. rewrite lookup_delete_Some. intros [_ Hp]. eauto.
  - apply H2.
  - intros [x Hp]. apply lookup_delete_Some in Hp as [_ Hp]. apply H3. eauto.
Qed.

Lemma StopOpt_wf id t : tm_wf t -> tm_wf (StopOpt id t).
Proof. destruct id; [apply Stop_wf | done]. Qed.

Lemma tm_start_wf now id t t' : tm_start now id t = Some t' -> tm_wf t -> tm_wf t'.
Proof.
  unfold tm_start. destruct (tm_pending t !! id) as [[due cb]|] eqn:E; [|done].
  destruct (_ <=? _); [|done]. intros [= <-] (H1 & H2 & H3). split_and!; intros id'; usimpl.
  - intros due' cb'. rewrite lookup_delete_Some. intros [_ Hp]. eauto.
  - intros cb'. rewrite lookup_insert_Some. intros [[<- <-]|[_ Hs]]; eauto.
  - intros [x Hp]. apply lookup_delete_Some in Hp as [Hne Hp]. rewrite lookup_insert_ne by done. apply H3; eauto.
Qed.

Lemma tm_take_wf id t cb t' : tm_take id t = Some (cb, t') -> tm_wf t -> tm_wf t'.
Proof.
  unfold tm_take. destruct (tm_started t !! id) eqn:E; [|done].
  intros [= <- <-] (H1 & H2 & H3). split_and!; intros id'; usimpl.
  - apply H1.
  - intros cb'. rewrite lookup_delete_Some. intros [_ Hp]. eauto.
  - intros Hp [x Hs]. apply lookup_delete_Some in Hs as [_ Hs]. apply (H3 id'); eauto.
Qed.
End TimerFacts.

#[export] Hint Resolve no_timers_wf AfterFunc_wf Stop_wf StopOpt_wf tm_start_wf tm_take_wf : s2s.

(** Changes of the table made by a component: callbacks it registers satisfy
    [P], the others are at most stopped. *)
Definition tm_ext {C} (P : Z -> C -> Prop) (t t' : timers C) : Prop :=
  (forall id due cb, tm_pending t' !! id = Some (due, cb) -> tm_pending t !! id = Some (due, cb) \/ P due cb) /\
  tm_started t' = tm_started t.

Section TimerExt.
Context {C : Type} (P : Z -> C -> Prop).
Implicit Types t : timers C.

Lemma tm_ext_refl t : tm_ext P t t.
Proof. split; auto. Qed.

Lemma tm_ext_trans t1 t2 t3 : tm_ext P t1 t2 -> tm_ext P t2 t3 -> tm_ext P t1 t3.
Proof.
  intros [H1 E1] [H2 E2]. split; [|congruence].
  intros id due cb H. destruct (H2 _ _ _ H) as [H'|]; auto.
Qed.

Lemma tm_ext_Stop id t : tm_ext P t (Stop id t).
Proof. split; [|done]. intros id' due cb. usimpl. rewrite lookup_delete_Some. tauto. Qed.

Lemma tm_ext_StopOpt id t : tm_ext P t (StopOpt id t).
Proof. destruct id; [apply tm_ext_Stop | apply tm_ext_refl]. Qed.

Lemma tm_ext_AfterFunc now d cb t : P (now + d) cb -> tm_ext P t (snd (AfterFunc now d cb t)).
Proof.
  intros H. split; [|done]. intros id due cb'. usimpl. rewrite lookup_insert_Some. intros [[_ [= <- <-]]|[_ ?]]; auto.
Qed.
End TimerExt.

#[export] Hint Resolve tm_ext_refl tm_ext_Stop tm_ext_StopOpt : s2s.

Definition is_CbStart (due : Z) (cb : callback) : Prop := match cb with CbStart _ _ => True | _ => False end.
Definition is_CbExpire (due : Z) (cb : callback) : Prop := match cb with CbExpire _ _ => True | _ => False end.
Definition is_CbFire (due : Z) (cb : callback) : Prop := match cb with CbFire _ => True | _ => False end.
