(* ===== verification/Filler.v ===== *)
(** * Filler: the loop played while the backend is silent

    Models [telephony/twilio/realtime_filler.go].  [filler] is the state behind
    [filler.mu]; every operation below is one critical section of that mutex,
    on the filler and on the runtime's timers.  The play goroutine's loop is in
    Sink.v, where its frames compete for the carrier's write slot. *)

From S2P Require Export RtBase.

(** [MuLawFrameMS] of audio: one byte per sample. *)
Definition defaultFrameBytes : nat := 160.

Record FillerConfig := mkFillerConfig { Loop : bytes; Delay : Z }.

Record filler := mkFiller {
  f_loop : bytes;
  f_delay : Z;
  f_ctxDone : bool;
  f_gen : nat;
  f_timer : option nat;
  f_playing : bool;
  f_off : nat;
  f_stopped : bool
}.
#[export] Instance filler_eta : Eta filler := fun f =>
  mkFiller (f_loop f) (f_delay f) (f_ctxDone f) (f_gen f) (f_timer f) (f_playing f) (f_off f) (f_stopped f).

(** [if cfg.Delay <= 0 || len(cfg.Loop) == 0 { return nil }] *)
Definition newFiller (cfg : FillerConfig) : option filler :=
  if (Delay cfg <=? 0) || bool_decide (length (Loop cfg) = O) then None
  else Some (mkFiller (Loop cfg) (Delay cfg) false O None false O false).

Notation tms := (timers callback) (only parsing).

Definition cancelPendingLocked (f : filler) (tm : tms) : filler * tms :=
  (f <| f_gen ::= S |> <| f_timer := None |>, StopOpt (f_timer f) tm).

(** [arm]: a countdown already pending keeps counting, a loop already playing
    keeps playing. *)
Definition armFiller (by_ : armTrigger) (now : Z) (f : filler) (tm : tms) : filler * tms :=
  if f_stopped f then (f, tm)
  else if bool_decide (is_Some (f_timer f)) then (f, tm)
  else if f_playing f then (f, tm)
  else
    let '(f, tm) := cancelPendingLocked f tm in
    let '(id, tm) := AfterFunc now (f_delay f) (CbStart (f_gen f) by_) tm in
    (f <| f_timer := Some id |>, tm).

(** [stop] reports whether the loop was playing. *)
Definition stopFiller (f : filler) (tm : tms) : bool * (filler * tms) :=
  (f_playing f, cancelPendingLocked (f <| f_playing := false |>) tm).

(** [shutdown]: the latch, then [f.cancel()]. *)
Definition shutdownFiller (f : filler) (tm : tms) : filler * tms :=
  let '(f, tm) := cancelPendingLocked (f <| f_stopped := true |> <| f_playing := false |>) tm in
  (f <| f_ctxDone := true |>, tm).

(** [start]: [true] when it spawns [go f.play(gen)]. *)
Definition startFiller (gen : nat) (f : filler) : bool * filler :=
  if f_stopped f || negb (f_gen f =? gen)%nat || f_playing f then (false, f)
  else (true, f <| f_timer := None |> <| f_playing := true |> <| f_off := O |>).

Definition endEpisode (gen : nat) (f : filler) : filler :=
  if negb (f_gen f =? gen)%nat then f
  else f <| f_playing := false |> <| f_gen ::= S |>.

(** [for len(frame) < defaultFrameBytes]: every pass takes at least one byte of
    a non-empty loop, so [defaultFrameBytes] passes suffice. *)
Fixpoint frame_loop (fuel : nat) (loop frame : bytes) (off : nat) : bytes :=
  match fuel with
  | O => frame
  | S fuel =>
      if decide (length frame < defaultFrameBytes)%nat then
        let i := (off mod length loop)%nat in
        let take_ := Nat.min (defaultFrameBytes - length frame) (length loop - i) in
        frame_loop fuel loop (frame ++ slice i (i + take_) loop) (off + take_)
      else frame
  end.

Definition frameLocked (f : filler) : bytes := frame_loop defaultFrameBytes (f_loop f) [] (f_off f).

(** The closure [writeFrame] hands to the sink, run inside the write slot. *)
Definition nextFrame (gen : nat) (f : filler) : option string * filler :=
  if f_stopped f || negb (f_gen f =? gen)%nat || negb (f_playing f) then (None, f)
  else
    let frame := frameLocked f in
    (Some (EncodeToString true frame),
     f <| f_off ::= fun off => ((off + length frame) mod length (f_loop f))%nat |>).

(** [observe]: the arming half, driven from the server-event drain. *)
Definition observeFiller (ev : ServerEvent) (now : Z) (f : filler) (tm : tms) : filler * tms :=
  if bool_decide (ev_Type ev = EventSpeechStopped) || bool_decide (ev_Type ev = EventTurnEnded)
  then armFiller armedByTurn now f tm
  else if bool_decide (ev_Type ev = EventResponseDone)
  then if ResponseEndedInFunctionCall (ev_probe ev) then armFiller armedByTurn now f tm
       else snd (stopFiller f tm)
  else (f, tm).

(** ** The frame is the next window of the endless repetition of the loop *)

Lemma frame_loop_spec fuel loop frame off k :
  loop <> [] -> (length frame + k = defaultFrameBytes)%nat -> (k <= fuel)%nat ->
  frame_loop fuel loop frame off =
    frame ++ map (fun j => nth ((off + j) mod length loop) loop 0) (seq 0 k).
Proof.
  intros Hl. assert (0 < length loop)%nat as Hl0 by (destruct loop; [done|simpl; lia]).
  revert frame off k. induction fuel as [|fuel IH]; intros frame off k Hk Hf; cbn [frame_loop].
  - replace k with O by lia. by rewrite app_nil_r.
  - case_decide as Hd; [|replace k with O by lia; by rewrite app_nil_r].
    cbv zeta. set (i := (off mod length loop)%nat).
    assert (i < length loop)%nat as Hi by (apply Nat.mod_upper_bound; lia).
    set (n := Nat.min (defaultFrameBytes - length frame) (length loop - i)).
    assert (length (slice i (i + n) loop) = n) as Hn by (rewrite slice_length; lia).
    rewrite (IH _ _ (k - n)%nat); [|rewrite length_app; lia | lia].
    rewrite <- app_assoc. f_equal.
    replace k with (n + (k - n))%nat at 2 by lia.
    rewrite seq_app, map_app. f_equal.
    + apply nth_ext with (d := 0) (d' := 0); [rewrite length_map, length_seq; lia|].
      intros j Hj. rewrite Hn in Hj. unfold slice.
      rewrite nth_firstn. replace (j <? i + n - i)%nat with true by (symmetry; apply Nat.ltb_lt; lia).
      rewrite nth_skipn, (nth_indep (map _ _) 0 (nth ((off + O) mod length loop) loop 0))
        by (rewrite length_map, length_seq; lia).
      rewrite (map_nth (fun j => nth ((off + j) mod length loop) loop 0)), seq_nth by lia.
      f_equal. simpl. rewrite <- (Nat.Div0.add_mod_idemp_l off). fold i.
      rewrite Nat.mod_small by lia. done.
    + replace (0 + n)%nat with (n + 0)%nat by lia. rewrite <- (fmap_add_seq n 0), <- list_fmap_compose.
      apply list_fmap_ext. intros _ j _. simpl. f_equal. f_equal. lia.
Qed.

(** A frame is [defaultFrameBytes] long and reads the loop as a ring from the
    current offset: there is no gap at the wrap. *)
Lemma frameLocked_spec f :
  f_loop f <> [] ->
  frameLocked f = map (fun j => nth ((f_off f + j) mod length (f_loop f)) (f_loop f) 0) (seq 0 defaultFrameBytes).
Proof. intros. by apply (frame_loop_spec _ _ [] _ defaultFrameBytes). Qed.

Lemma frameLocked_length f : f_loop f <> [] -> length (frameLocked f) = defaultFrameBytes.
Proof. intros. by rewrite frameLocked_spec, length_map, length_seq. Qed.

(** ** The filler's operations register countdowns only *)

Lemma cancelPending_tm f tm : tm_ext is_CbStart tm (snd (cancelPendingLocked f tm)).
Proof. simpl. auto with s2s. Qed.

Lemma armFiller_tm by_ now f tm : tm_ext is_CbStart tm (snd (armFiller by_ now f tm)).
Proof.
  unfold armFiller. destruct (f_stopped f), (bool_decide (is_Some (f_timer f))), (f_playing f); auto with s2s.
  eapply tm_ext_trans; [apply tm_ext_StopOpt | by apply (tm_ext_AfterFunc is_CbStart now (f_delay f) (CbStart (S (f_gen f)) by_))].
Qed.

Lemma stopFiller_tm f tm : tm_ext is_CbStart tm (snd (snd (stopFiller f tm))).
Proof. simpl. auto with s2s. Qed.

Lemma shutdownFiller_tm f tm : tm_ext is_CbStart tm (snd (shutdownFiller f tm)).
Proof. simpl. auto with s2s. Qed.

Lemma observeFiller_tm ev now f tm : tm_ext is_CbStart tm (snd (observeFiller ev now f tm)).
Proof.
  unfold observeFiller. repeat case_match; auto using armFiller_tm, stopFiller_tm with s2s.
Qed.
