(* ===== verification/Silence.v ===== *)
(** * Silence: the caller-silence bound

    Models [telephony/twilio/realtime_callersilence.go].  [callerSilence] is
    the state behind [callerSilence.mu] with its two one-slot signal channels;
    every operation is one critical section of that mutex. *)

From S2P Require Export RtBase.

Definition realtimePlayoutMarkPrefix : string := "aatoolkit-playout-".

(** [cs_dueCh] and [cs_firedCh] hold whether the one slot is taken. *)
Record callerSilence := mkCallerSilence {
  cs_after : Z;
  cs_dueCh : bool;
  cs_firedCh : bool;
  cs_starts : nat;
  cs_heard : nat;
  cs_wantHeard : nat;
  cs_gen : nat;
  cs_seq : nat;
  cs_speaking : bool;
  cs_audio : bool;
  cs_pending : bool;
  cs_want : bool;
  cs_running : bool;
  cs_due : bool;
  cs_stopped : bool;
  cs_timer : option nat
}.
#[export] Instance callerSilence_eta : Eta callerSilence := fun s =>
  mkCallerSilence (cs_after s) (cs_dueCh s) (cs_firedCh s) (cs_starts s) (cs_heard s) (cs_wantHeard s)
    (cs_gen s) (cs_seq s) (cs_speaking s) (cs_audio s) (cs_pending s) (cs_want s) (cs_running s)
    (cs_due s) (cs_stopped s) (cs_timer s).

Notation tms := (timers callback) (only parsing).

Definition newCallerSilence (after : Z) : option callerSilence :=
  if after <=? 0 then None
  else Some (mkCallerSilence after false false O O O O O false false false false false false false None).

(** [stopTimerLocked]: the countdown, pending or fired but not acted upon. *)
Definition stopTimerLocked (s : callerSilence) (tm : tms) : callerSilence * tms :=
  (s <| cs_timer := None |> <| cs_running := false |> <| cs_due := false |>, StopOpt (cs_timer s) tm).

(** [callerSpoke]: from the sink's [Clear], for every speech start. *)
Definition callerSpoke (s : callerSilence) (tm : tms) : callerSilence * tms :=
  stopTimerLocked (s <| cs_starts ::= S |> <| cs_audio := false |> <| cs_gen ::= S |>) tm.

(** [agentAudio]: a frame of the backend's audio reached the carrier. *)
Definition agentAudio (s : callerSilence) (tm : tms) : callerSilence * tms :=
  stopTimerLocked (s <| cs_audio := true |> <| cs_gen ::= S |>) tm.

Definition is_tool_done (ev : ServerEvent) : bool :=
  bool_decide (ev_Type ev = EventResponseDone) && ResponseEndedInFunctionCall (ev_probe ev).

Definition observeSilence (ev : ServerEvent) (s : callerSilence) (tm : tms) : callerSilence * tms :=
  if is_speech_start ev then (s <| cs_heard ::= S |> <| cs_speaking := true |>, tm)
  else if bool_decide (ev_Type ev = EventSpeechStopped) then (s <| cs_speaking := false |>, tm)
  else if bool_decide (ev_Type ev = EventResponseDone) then
    if ResponseEndedInFunctionCall (ev_probe ev)
    then stopTimerLocked (s <| cs_pending := true |> <| cs_want := false |>) tm
    else
      let s := s <| cs_pending := false |> in
      if cs_speaking s then (s, tm)
      else (s <| cs_want := true |> <| cs_wantHeard := cs_heard s |> <| cs_dueCh := true |>, tm)
  else (s, tm).

(** [takeRequest]: the drain's speech count as of the request. *)
Definition takeRequest (s : callerSilence) : option nat * callerSilence :=
  if negb (cs_want s) || cs_stopped s then (None, s)
  else (Some (cs_wantHeard s), s <| cs_want := false |>).

Definition nextMarkName (streamSID : string) (s : callerSilence) : string * callerSilence :=
  let s := s <| cs_seq ::= S |> in
  ((realtimePlayoutMarkPrefix +:+ streamSID +:+ "-" +:+ pretty (cs_seq s))%string, s).

(** [claim]: taken inside the write slot. *)
Definition claim (tag : nat) (s : callerSilence) : option nat * callerSilence :=
  if cs_stopped s || negb (cs_starts s =? tag)%nat || negb (cs_audio s) then (None, s)
  else (Some (cs_gen s), s <| cs_audio := false |>).

(** [played]: the resolution of the playout mark claimed at [gen]; [true] when
    it starts the count. *)
Definition played (gen : nat) (now : Z) (s : callerSilence) (tm : tms) : bool * (callerSilence * tms) :=
  if cs_stopped s || negb (gen =? cs_gen s)%nat || cs_pending s || cs_running s then (false, (s, tm))
  else
    let '(id, tm) := AfterFunc now (cs_after s) (CbFire gen) tm in
    (true, (s <| cs_running := true |> <| cs_due := false |> <| cs_timer := Some id |>, tm)).

(** [fire]: the count ran out. *)
Definition fireSilence (gen : nat) (s : callerSilence) : callerSilence :=
  if cs_stopped s || negb (gen =? cs_gen s)%nat || negb (cs_running s) then s
  else s <| cs_running := false |> <| cs_timer := None |> <| cs_due := true |> <| cs_firedCh := true |>.

(** [end]: on the select loop, the decision to end the call. *)
Definition endSilence (s : callerSilence) (tm : tms) : bool * (callerSilence * tms) :=
  if cs_stopped s || negb (cs_due s) then (false, (s, tm))
  else (true, stopTimerLocked (s <| cs_stopped := true |>) tm).

Definition stopSilence (s : callerSilence) (tm : tms) : callerSilence * tms :=
  stopTimerLocked (s <| cs_stopped := true |>) tm.

(** ** The bound's operations register counts only *)

Lemma stopTimer_tm s tm : tm_ext is_CbFire tm (snd (stopTimerLocked s tm)).
Proof. simpl. auto with s2s. Qed.

Lemma callerSpoke_tm s tm : tm_ext is_CbFire tm (snd (callerSpoke s tm)).
Proof. apply stopTimer_tm. Qed.

Lemma agentAudio_tm s tm : tm_ext is_CbFire tm (snd (agentAudio s tm)).
Proof. apply stopTimer_tm. Qed.

Lemma observeSilence_tm ev s tm : tm_ext is_CbFire tm (snd (observeSilence ev s tm)).
Proof. unfold observeSilence. repeat case_match; auto using stopTimer_tm with s2s. Qed.

Lemma played_tm gen now s tm : tm_ext is_CbFire tm (snd (snd (played gen now s tm))).
Proof.
  unfold played. destruct (_ || _ || _ || _); [auto with s2s|].
  by apply (tm_ext_AfterFunc is_CbFire now (cs_after s) (CbFire gen)).
Qed.

Lemma endSilence_tm s tm : tm_ext is_CbFire tm (snd (snd (endSilence s tm))).
Proof. unfold endSilence. destruct (_ || _); simpl; auto using stopTimer_tm with s2s. Qed.

Lemma stopSilence_tm s tm : tm_ext is_CbFire tm (snd (stopSilence s tm)).
Proof. apply stopTimer_tm. Qed.
