(* ===== verification/Marks.v ===== *)
(** * Marks: playout accounting and the marks in flight

    Models [telephony/twilio/realtime_marks.go]: [playoutClock], which models
    the carrier as a real-time player, and [markTracker], whose operations are
    critical sections of [markTracker.mu]. *)

From S2P Require Export RtBase.

(** ** [playoutClock]: [through] is an instant, in nanoseconds *)

Definition fed (n : nat) (now through : Z) : Z := Z.max now through + MuLawDuration (Z.of_nat n).
Definition flush (now through : Z) : Z := now.
Definition outstanding (now through : Z) : Z := Z.max 0 (through - now).

(** ** [markTracker] *)

Record MarkEcho := mkMarkEcho { me_Name : string; me_TimedOut : bool }.

(** [om_played] is the generation captured by the closure
    [func() { s.silence.played(gen) }] of a playout mark. *)
Record outstandingMark := mkOutstandingMark { om_timer : nat; om_gen : nat; om_played : option nat }.

(** [mk_await] is [awaitName] with the identity of [awaitCh]; [mk_closed] lists
    the await channels closed so far, [mk_chans] the number made. *)
Record markTracker := mkMarkTracker {
  mk_echoCh : option (consumer MarkEcho);
  mk_logUnmatched : bool;
  mk_playoutArmed : bool;
  mk_outstanding : gmap string outstandingMark;
  mk_gen : nat;
  mk_await : option (string * nat);
  mk_chans : nat;
  mk_closed : list nat;
  mk_stopped : bool
}.
#[export] Instance markTracker_eta : Eta markTracker := fun t =>
  mkMarkTracker (mk_echoCh t) (mk_logUnmatched t) (mk_playoutArmed t) (mk_outstanding t) (mk_gen t)
    (mk_await t) (mk_chans t) (mk_closed t) (mk_stopped t).

Notation tms := (timers callback) (only parsing).

Definition newMarkTracker (wantsEchoes consumerMarks : bool) : markTracker :=
  mkMarkTracker (if wantsEchoes then Some new_consumer else None) consumerMarks false ∅ O None O [] false.

(** [armLocked]: a name already outstanding has its bound stopped and replaced. *)
Definition armLocked (name : string) (bound : Z) (played : option nat) (now : Z)
    (t : markTracker) (tm : tms) : markTracker * tms :=
  if mk_stopped t then (t, tm)
  else
    let tm := match mk_outstanding t !! name with Some old => Stop (om_timer old) tm | None => tm end in
    let t := t <| mk_gen ::= S |> in
    let '(id, tm) := AfterFunc now bound (CbExpire name (mk_gen t)) tm in
    (t <| mk_outstanding ::= <[name := mkOutstandingMark id (mk_gen t) played]> |>, tm).

Definition armMark (name : string) (bound now : Z) (t : markTracker) (tm : tms) : markTracker * tms :=
  armLocked name bound None now t tm.

Definition armPlayout (name : string) (bound : Z) (gen : nat) (now : Z) (t : markTracker) (tm : tms)
    : markTracker * tms :=
  armLocked name bound (Some gen) now (t <| mk_playoutArmed := true |>) tm.

(** [resolveAwaitLocked]: [None] is the empty name, which resolves whatever is
    waiting. *)
Definition resolveAwaitLocked (name : option string) (t : markTracker) : bool * markTracker :=
  match mk_await t with
  | Some (awaitName, ch) =>
      if match name with None => true | Some n => bool_decide (n = awaitName) end
      then (true, t <| mk_closed ::= fun l => l ++ [ch] |> <| mk_await := None |>)
      else (false, t)
  | None => (false, t)
  end.

(** The name as [resolveAwaitLocked] reads it. *)
Definition await_key (name : string) : option string := if bool_decide (name = "") then None else Some name.

(** [await] returns the channel; on a stopped tracker one closed already. *)
Definition await (name : string) (t : markTracker) : nat * markTracker :=
  let ch := mk_chans t in
  let t := t <| mk_chans ::= S |> in
  if mk_stopped t then (ch, t <| mk_closed ::= fun l => l ++ [ch] |>)
  else
    let t := snd (resolveAwaitLocked None t) in
    (ch, t <| mk_await := Some (name, ch) |>).

Definition deliver (ready : bool) (rec : MarkEcho) (t : markTracker) : markTracker :=
  t <| mk_echoCh ::= fmap (sendOrDrop ready rec) |>.

(** What a resolution came to: nothing was outstanding; a playout mark, whose
    [played] callback runs with the generation it captured; the mark the engine
    itself waits on; or a record for the consumer, for the arming [gen]. *)
Inductive resolution :=
| RsNothing
| RsPlayed (gen : nat)
| RsEngine
| RsConsumer (gen : nat) (rec : MarkEcho).

Definition echo (ready : bool) (name : string) (t : markTracker) (tm : tms)
    : resolution * (markTracker * tms) :=
  if mk_stopped t then (RsNothing, (t, tm))
  else match mk_outstanding t !! name with
  | None => (RsNothing, (t, tm))
  | Some m =>
      let tm := Stop (om_timer m) tm in
      let t := t <| mk_outstanding ::= delete name |> in
      match om_played m with
      | Some gen => (RsPlayed gen, (t, tm))
      | None =>
          let '(engineOwned, t) := resolveAwaitLocked (await_key name) t in
          let rec := mkMarkEcho name false in
          if engineOwned then (RsEngine, (t, tm))
          else (RsConsumer (om_gen m) rec, (deliver ready rec t, tm))
      end
  end.

Definition expire (ready : bool) (name : string) (gen : nat) (t : markTracker)
    : resolution * markTracker :=
  if mk_stopped t then (RsNothing, t)
  else match mk_outstanding t !! name with
  | None => (RsNothing, t)
  | Some m =>
      if negb (om_gen m =? gen)%nat then (RsNothing, t)
      else
        let t := t <| mk_outstanding ::= delete name |> in
        let '(engineOwned, t) := resolveAwaitLocked (await_key name) t in
        let rec := mkMarkEcho name true in
        match om_played m with
        | Some g => (RsPlayed g, t)
        | None =>
            if engineOwned then (RsEngine, t)
            else (RsConsumer (om_gen m) rec, deliver ready rec t)
        end
  end.

Definition stopMarks (t : markTracker) (tm : tms) : markTracker * tms :=
  let t := t <| mk_stopped := true |> in
  let t := snd (resolveAwaitLocked None t) in
  (t <| mk_outstanding := ∅ |>,
   map_fold (fun _ m tm => Stop (om_timer m) tm) tm (mk_outstanding t)).
