(* ===== verification/Sink.v ===== *)
(** * Sink: one call on the realtime path, with all its goroutines

    Models [carrierMediaSink], [playFarewell], the select loop and the
    goroutines of [telephony/twilio/realtime.go], [Bridge.Run] of
    [telephony/realtime/bridge.go] and the play loop of
    [telephony/twilio/realtime_filler.go], as one transition system [rstep].

    A goroutine is a program counter naming the next statement that touches
    shared state; a step executes that statement, so every interleaving the
    scheduler may choose is a run of [rstep].  A carrier write holds the slot
    ([writeSem]) through four steps -- build, the socket write, the bookkeeping
    after it, release -- between which the other goroutines run.  The socket
    may fail at any write; the carrier may echo any mark at any time. *)

From S2P Require Export RtBase.
From S2P Require Import Filler Silence Marks.

Definition MarkEchoGrace : Z := 500 * Millisecond.
Definition realtimeClientEventSendTimeout : Z := 5 * Second.
Definition realtimeFarewellMarkPrefix : string := "aatoolkit-farewell-".

(** [make(chan ServerEvent, 16)], [make(chan Transcript, 16)]. *)
Definition bridgeBuffer : nat := 16.

Record CarrierAudio := mkCarrierAudio {
  ca_Payload : string; ca_Clear : bool; ca_Filler : bool; ca_Farewell : bool
}.

Record Transcript := mkTranscript { tr_Text : string; tr_Final : bool }.

(** ** The options of one call ([realtimeConfig], resolved) *)

Record config := mkConfig {
  cfg_idleTimeout : Z;
  cfg_callerSilenceTimeout : Z;
  cfg_farewell : bytes;
  cfg_filler : FillerConfig;
  cfg_carrierAudio : bool;
  cfg_markRequests : bool;
  cfg_markEchoes : bool;
  cfg_streamSID : string
}.

(** ** Messages

    What goes on the carrier's wire.  The tags that JSON does not carry record
    who wrote a media frame and, for a clear or for a reply frame that stopped
    the loop, the generation the filler was at once stopped: episodes below it
    are over. *)

Inductive source := SrcBackend (over : option nat) | SrcFiller (gen : nat) | SrcFarewell.

Inductive wmsg :=
| WmMedia (src : source) (payload : string)
| WmClear (over : nat)
| WmMark (name : string).

(** A call of [carrierMediaSink.write]: what [build] and [afterWrite] will do. *)
Inductive wreq :=
| WqMedia (payload : string) (over : option nat)
| WqFarewell (payload : string)
| WqFiller (gen : nat)
| WqClear (over : nat)
| WqMark (name : string)
| WqPlayout (name : string) (tag : nat).

Inductive wres := RWrote | RDeclined | RFailed.

(** The progress of the goroutine that holds [writeSem]; [g] is the generation
    a playout mark's claim captured. *)
Inductive phase :=
| PhBuild
| PhWrite (m : wmsg) (g : option nat)
| PhAfter (m : wmsg) (g : option nat)
| PhRelease (res : wres).

(** ** Goroutines *)

Inductive tid := TBridge | TSelect | TPlayer (i : nat).
#[export] Instance tid_eq_dec : EqDecision tid.
Proof. solve_decision. Defined.

(** What [Bridge.Run]'s goroutine does after a clear: the next read, or the
    reply frame that interrupted the loop. *)
Inductive bcont := KRead | KMedia (payload : string) (over : nat).

Inductive bpc :=
| BRead
| BActivity (ev : ServerEvent)
| BPublish (ev : ServerEvent)
| BDispatch (ev : ServerEvent)
| BMedia (payload : string)
| BMediaStop (payload : string)
| BSpoke
| BClear (k : bcont)
| BClearStop (k : bcont)
| BWrite (w : wreq) (k : bcont)
| BTranscript (tr : Transcript)
| BEnd.

Inductive call_end := EndBackend | EndCarrier | EndIdle | EndSilence | EndSend.

Inductive scont := KLoop | KFwFlag (e : call_end) | KFwFrames (e : call_end) (rest : list string)
| KFwWait (e : call_end) (ch : option nat).

Inductive spc :=
| SLoop
| SExpired
| SDue
| SName (tag : nat)
| SFwStop (e : call_end)
| SFwClear (e : call_end)
| SFwClearStop (e : call_end)
| SFwFlag (e : call_end)
| SFwShutdown (e : call_end)
| SFwFrames (e : call_end) (rest : list string)
| SFwWait (e : call_end) (ch : option nat)
| SWrite (w : wreq) (deadline : Z) (k : scont)
| SDeferFill (e : call_end)
| SDeferMarks (e : call_end)
| SDeferSilence (e : call_end)
| SDone (e : call_end).

Inductive dpc := DRecv | DFill (ev : ServerEvent) | DSilence (ev : ServerEvent).

Inductive ppc := PlTick | PlWrite | PlEnd | PlGone.

(** ** The log of a run *)

Inductive tev :=
| TvRead (ev : ServerEvent)
| TvDispatch (ev : ServerEvent)
| TvDrained (ev : ServerEvent)
| TvWire (m : wmsg)
| TvStopEdge (gen : nat)
| TvSpawn (gen : nat)
| TvSpoke
| TvAgentAudio
| TvTool
| TvClaim (name : string) (gen : nat)
| TvCount (gen : nat) (at_ : Z)
| TvSilent (at_ : Z)
| TvArm (name : string) (gen : nat) (due : Z) (playout : bool)
| TvEcho (name : string)
| TvDeliver (gen : nat) (rec : MarkEcho) (at_ : Z).

(** ** The state of a call *)

Record rt := mkRt {
  r_now : Z;
  r_filler : option filler;
  r_marks : option markTracker;
  r_silence : option callerSilence;
  r_timers : timers callback;
  r_slot : option (tid * wreq * phase);
  r_through : Z;
  r_farewelling : bool;
  r_carrierAudio : option (consumer CarrierAudio);
  r_bridge : bpc;
  r_select : spc;
  r_drain : dpc;
  r_players : list (nat * ppc);
  r_events : list ServerEvent;
  r_eventsDropped : nat;
  r_transcripts : list Transcript;
  r_activity : bool;
  r_idle : option (Z * bool);
  r_carrierDone : bool;
  r_ctxDone : bool;
  r_runCancelled : bool;
  r_closed : bool;
  r_log : list tev
}.
#[export] Instance rt_eta : Eta rt := fun s =>
  mkRt (r_now s) (r_filler s) (r_marks s) (r_silence s) (r_timers s) (r_slot s) (r_through s)
    (r_farewelling s) (r_carrierAudio s) (r_bridge s) (r_select s) (r_drain s) (r_players s)
    (r_events s) (r_eventsDropped s) (r_transcripts s) (r_activity s) (r_idle s) (r_carrierDone s)
    (r_ctxDone s) (r_runCancelled s) (r_closed s) (r_log s).

Definition log_ (e : tev) (s : rt) : rt := s <| r_log ::= fun l => l ++ [e] |>.

(** ** The call's components, each of which may be nil *)

Definition with_filler (op : filler -> timers callback -> filler * timers callback) (s : rt) : rt :=
  match r_filler s with
  | None => s
  | Some f => let '(f, tm) := op f (r_timers s) in s <| r_filler := Some f |> <| r_timers := tm |>
  end.

Definition with_silence (op : callerSilence -> timers callback -> callerSilence * timers callback)
    (s : rt) : rt :=
  match r_silence s with
  | None => s
  | Some c => let '(c, tm) := op c (r_timers s) in s <| r_silence := Some c |> <| r_timers := tm |>
  end.

Definition with_marks (op : markTracker -> timers callback -> markTracker * timers callback) (s : rt) : rt :=
  match r_marks s with
  | None => s
  | Some t => let '(t, tm) := op t (r_timers s) in s <| r_marks := Some t |> <| r_timers := tm |>
  end.

Definition fill_gen (s : rt) : nat := match r_filler s with Some f => f_gen f | None => O end.

(** [s.filler.stop()]: the edge is logged when an episode was playing. *)
Definition fill_stop (s : rt) : bool * rt :=
  match r_filler s with
  | None => (false, s)
  | Some f =>
      let s' := with_filler (fun f tm => snd (stopFiller f tm)) s in
      (f_playing f, if f_playing f then log_ (TvStopEdge (f_gen f)) s' else s')
  end.

Definition fill_shutdown : rt -> rt := with_filler shutdownFiller.

Definition silence_spoke (s : rt) : rt :=
  match r_silence s with
  | None => s
  | Some _ => with_silence callerSpoke s ▷ log_ TvSpoke
  end.

Definition silence_agentAudio (s : rt) : rt :=
  match r_silence s with
  | None => s
  | Some _ => with_silence agentAudio s ▷ log_ TvAgentAudio
  end.

(** The closure [func() { s.silence.played(gen) }]. *)
Definition silence_played (gen : nat) (s : rt) : rt :=
  match r_silence s with
  | None => s
  | Some c =>
      let s' := with_silence (fun c tm => snd (played gen (r_now s) c tm)) s in
      if fst (played gen (r_now s) c (r_timers s)) then log_ (TvCount gen (r_now s)) s' else s'
  end.

(** What a mark's resolution calls: the playout closure, or the consumer. *)
Definition resolved (r : resolution) (s : rt) : rt :=
  match r with
  | RsNothing | RsEngine => s
  | RsPlayed gen => silence_played gen s
  | RsConsumer gen rec => log_ (TvDeliver gen rec (r_now s)) s
  end.

Definition marks_echo (ready : bool) (name : string) (s : rt) : rt :=
  match r_marks s with
  | None => s
  | Some t =>
      let '(r, (t, tm)) := echo ready name t (r_timers s) in
      log_ (TvEcho name) s <| r_marks := Some t |> <| r_timers := tm |> ▷ resolved r
  end.

Definition marks_expire (ready : bool) (name : string) (gen : nat) (s : rt) : rt :=
  match r_marks s with
  | None => s
  | Some t =>
      let '(r, t) := expire ready name gen t in
      s <| r_marks := Some t |> ▷ resolved r
  end.

Definition markEchoBound (s : rt) : Z := outstanding (r_now s) (r_through s) + MarkEchoGrace.

(** [s.marks.arm(name, bound)] and [s.marks.armPlayout(name, bound, played)]. *)
Definition marks_arm (name : string) (playout : option nat) (s : rt) : rt :=
  match r_marks s with
  | None => s
  | Some t =>
      let bound := markEchoBound s in
      let s' := with_marks (match playout with
                            | None => armMark name bound (r_now s)
                            | Some gen => armPlayout name bound gen (r_now s)
                            end) s in
      if mk_stopped t then s'
      else log_ (TvArm name (S (mk_gen t)) (r_now s + bound) (bool_decide (is_Some playout))) s'
  end.

(** [await] registers before the mark is written; a nil tracker gives a closed
    channel. *)
Definition marks_await (name : string) (s : rt) : option nat * rt :=
  match r_marks s with
  | None => (None, s)
  | Some t => let '(ch, t) := await name t in (Some ch, s <| r_marks := Some t |>)
  end.

Definition await_closed (ch : option nat) (s : rt) : bool :=
  match ch, r_marks s with
  | Some ch, Some t => bool_decide (ch ∈ mk_closed t)
  | _, _ => true
  end.

(** ** The carrier write *)

Definition deliverCarrierAudio (ready : bool) (rec : CarrierAudio) (s : rt) : rt :=
  s <| r_carrierAudio ::= fmap (sendOrDrop ready rec) |>.

(** [build]: [None] declines the write.  [gatedMessage] declines once the
    farewell owns the carrier, the filler's closure once its episode is over,
    the playout mark's claim as the bound decides. *)
Definition build (w : wreq) (s : rt) : option (wmsg * option nat) * rt :=
  match w with
  | WqMedia p over =>
      (if r_farewelling s then None else Some (WmMedia (SrcBackend over) p, None), s)
  | WqClear over => (if r_farewelling s then None else Some (WmClear over, None), s)
  | WqFarewell p => (Some (WmMedia SrcFarewell p, None), s)
  | WqFiller gen =>
      match r_filler s with
      | None => (None, s)
      | Some f =>
          let '(p, f) := nextFrame gen f in
          (match p with Some p => Some (WmMedia (SrcFiller gen) p, None) | None => None end,
           s <| r_filler := Some f |>)
      end
  | WqMark name => (Some (WmMark name, None), s)
  | WqPlayout name tag =>
      match r_silence s with
      | None => (None, s)
      | Some c =>
          let '(g, c) := claim tag c in
          match g with
          | Some g => (Some (WmMark name, Some g), s <| r_silence := Some c |> ▷ log_ (TvClaim name g))
          | None => (None, s <| r_silence := Some c |>)
          end
      end
  end.

(** [afterWrite]: the playout clock and the consumer's record, or the arming of
    the mark's bound, inside the slot beside the write. *)
Definition fed_media (ready : bool) (p : string) (rec : CarrierAudio) (s : rt) : rt :=
  s <| r_through := fed (muLawBytesInB64 p) (r_now s) (r_through s) |> ▷ deliverCarrierAudio ready rec.

Definition afterWrite (ready : bool) (m : wmsg) (g : option nat) (s : rt) : rt :=
  match m with
  | WmMedia (SrcBackend _) p =>
      fed_media ready p (mkCarrierAudio p false false false) s ▷ silence_agentAudio
  | WmMedia (SrcFiller _) p => fed_media ready p (mkCarrierAudio p false true false) s
  | WmMedia SrcFarewell p => fed_media ready p (mkCarrierAudio p false false true) s
  | WmClear _ =>
      s <| r_through := flush (r_now s) (r_through s) |>
        ▷ deliverCarrierAudio ready (mkCarrierAudio "" true false false)
  | WmMark name => marks_arm name g s
  end.

(** ** The idle guard ([idleGuard]): the deadline, and whether the timer's
    channel holds its value *)

Definition newIdleGuard (after now : Z) : option (Z * bool) :=
  if after <=? 0 then None else Some (now + after, false).

Definition idle_reset (after now : Z) (g : option (Z * bool)) : option (Z * bool) :=
  match g with None => None | Some _ => Some (now + after, false) end.

Definition idle_fired (g : option (Z * bool)) : bool := match g with Some (_, b) => b | None => false end.

(** ** The start of a call ([HandleStreamRealtime] up to its loop) *)

Definition consumerMarks (c : config) : bool := cfg_markRequests c || cfg_markEchoes c.

Definition rt_init (c : config) (now : Z) : rt :=
  let silence := newCallerSilence (cfg_callerSilenceTimeout c) in
  let marks :=
    if consumerMarks c || (0 <? Z.of_nat (length (cfg_farewell c))) || bool_decide (is_Some silence)
    then Some (newMarkTracker (cfg_markEchoes c) (consumerMarks c)) else None in
  let s := mkRt now (newFiller (cfg_filler c)) marks silence no_timers None now false
    (if cfg_carrierAudio c then Some new_consumer else None) BRead SLoop DRecv [] [] O [] false
    (newIdleGuard (cfg_idleTimeout c) now) false false false false [] in
  with_filler (armFiller armedByCallOpen now) s.

(** ** [Bridge.Run]'s goroutine *)

(** The frame whose call stopped the loop is written once the clear is. *)
Definition bridge_continue (k : bcont) : bpc :=
  match k with KRead => BRead | KMedia p over => BWrite (WqMedia p (Some over)) KRead end.

(** [Bridge.dispatch], by the event's type. *)
Definition dispatch (ev : ServerEvent) : bpc :=
  if bool_decide (ev_Type ev = EventAudioDelta) then BMedia (ev_Delta ev)
  else if is_speech_start ev then BSpoke
  else if bool_decide (ev_Type ev = EventTranscriptDelta) then BTranscript (mkTranscript (ev_Transcript ev) false)
  else if bool_decide (ev_Type ev = EventTranscriptDone) then BTranscript (mkTranscript (ev_Transcript ev) true)
  else BRead.

(** [publishEvent]: never blocks, drops when the buffer is full. *)
Definition publishEvent (ev : ServerEvent) (s : rt) : rt :=
  match chan_try_send bridgeBuffer ev (r_events s) with
  | Some ch => s <| r_events := ch |>
  | None => s <| r_eventsDropped ::= S |>
  end.

(** The statement at the bridge's program counter; [None] while it waits (for
    an event, for the write slot, for room in the transcript channel) and once
    [Run] has returned. *)
Definition bridge_local (s : rt) : option rt :=
  match r_bridge s with
  | BRead | BWrite _ _ | BEnd => None
  | BActivity ev => Some (s <| r_activity := true |> <| r_bridge := BPublish ev |>)
  | BPublish ev => Some (publishEvent ev s <| r_bridge := BDispatch ev |>)
  | BDispatch ev => Some (log_ (TvDispatch ev) s <| r_bridge := dispatch ev |>)
  | BMedia p => Some (s <| r_bridge := if r_farewelling s then BRead else BMediaStop p |>)
  | BMediaStop p =>
      let '(was, s) := fill_stop s in
      Some (s <| r_bridge := if was then BClear (KMedia p (fill_gen s)) else BWrite (WqMedia p None) KRead |>)
  | BSpoke => Some (silence_spoke s <| r_bridge := BClear KRead |>)
  | BClear k => Some (s <| r_bridge := if r_farewelling s then bridge_continue k else BClearStop k |>)
  | BClearStop k =>
      let s := snd (fill_stop s) in Some (s <| r_bridge := BWrite (WqClear (fill_gen s)) k |>)
  | BTranscript tr =>
      match chan_try_send bridgeBuffer tr (r_transcripts s) with
      | Some ch => Some (s <| r_transcripts := ch |> <| r_bridge := BRead |>)
      | None => None
      end
  end.

(** ** The server-event drain ([deliver] with the two observers) *)

Definition drain_local (s : rt) : option rt :=
  match r_drain s with
  | DRecv =>
      match r_events s with
      | ev :: rest => Some (log_ (TvDrained ev) s <| r_events := rest |> <| r_drain := DFill ev |>)
      | [] => None
      end
  | DFill ev => Some (with_filler (observeFiller ev (r_now s)) s <| r_drain := DSilence ev |>)
  | DSilence ev =>
      let s' := with_silence (observeSilence ev) s in
      Some ((if is_tool_done ev then log_ TvTool s' else s') <| r_drain := DRecv |>)
  end.

(** ** The select loop *)

(** [return] from [HandleStreamRealtime]: the deferred calls run next, the idle
    guard's and the bridge's first. *)
Definition finish (e : call_end) (s : rt) : rt :=
  s <| r_select := SDeferFill e |> <| r_runCancelled := true |> <| r_idle := None |>.

Definition farewell_frames (c : config) : list string :=
  map (EncodeToString true) (chunks defaultFrameBytes (cfg_farewell c)).

Definition farewell_mark (c : config) : string := (realtimeFarewellMarkPrefix +:+ cfg_streamSID c)%string.

Definition endWithFarewell (c : config) (e : call_end) (s : rt) : rt :=
  if bool_decide (length (cfg_farewell c) = O) then finish e s else s <| r_select := SFwStop e |>.

(** [boundedWrite]. *)
Definition select_write (w : wreq) (k : scont) (s : rt) : rt :=
  s <| r_select := SWrite w (r_now s + realtimeClientEventSendTimeout) k |>.

(** The body of [playFarewell]'s loop, then its mark. *)
Definition farewell_next (c : config) (e : call_end) (rest : list string) (s : rt) : rt :=
  match rest with
  | p :: rest => select_write (WqFarewell p) (KFwFrames e rest) s
  | [] =>
      let '(ch, s) := marks_await (farewell_mark c) s in
      select_write (WqMark (farewell_mark c)) (KFwWait e ch) s
  end.

Definition select_continue (res : wres) (k : scont) (s : rt) : rt :=
  match res, k with
  | RFailed, KLoop => finish EndSend s
  | RFailed, (KFwFlag e | KFwFrames e _ | KFwWait e _) => finish e s
  | _, KLoop => s <| r_select := SLoop |>
  | _, KFwFlag e => s <| r_select := SFwFlag e |>
  | _, KFwFrames e rest => s <| r_select := SFwFrames e rest |>
  | _, KFwWait e ch => s <| r_select := SFwWait e ch |>
  end.

Definition select_local (c : config) (s : rt) : option rt :=
  match r_select s with
  | SLoop | SWrite _ _ _ | SDone _ => None
  | SExpired =>
      match r_silence s with
      | None => Some (s <| r_select := SLoop |>)
      | Some b =>
          let '(ended, (b, tm)) := endSilence b (r_timers s) in
          let s := s <| r_silence := Some b |> <| r_timers := tm |> in
          Some (if ended then log_ (TvSilent (r_now s)) s ▷ endWithFarewell c EndSilence
                else s <| r_select := SLoop |>)
      end
  | SDue =>
      match r_silence s with
      | None => Some (s <| r_select := SLoop |>)
      | Some b =>
          let '(tag, b) := takeRequest b in
          Some (s <| r_silence := Some b |>
                  <| r_select := match tag with Some tag => SName tag | None => SLoop end |>)
      end
  | SName tag =>
      match r_silence s with
      | None => Some (s <| r_select := SLoop |>)
      | Some b =>
          let '(name, b) := nextMarkName (cfg_streamSID c) b in
          Some (select_write (WqPlayout name tag) KLoop (s <| r_silence := Some b |>))
      end
  | SFwStop e => Some (snd (fill_stop s) <| r_select := SFwClear e |>)
  | SFwClear e => Some (s <| r_select := if r_farewelling s then SFwFlag e else SFwClearStop e |>)
  | SFwClearStop e =>
      let s := snd (fill_stop s) in Some (select_write (WqClear (fill_gen s)) (KFwFlag e) s)
  | SFwFlag e => Some (s <| r_farewelling := true |> <| r_select := SFwShutdown e |>)
  | SFwShutdown e => Some (fill_shutdown s <| r_select := SFwFrames e (farewell_frames c) |>)
  | SFwFrames e rest => Some (farewell_next c e rest s)
  | SFwWait e ch => if await_closed ch s || r_ctxDone s then Some (finish e s) else None
  | SDeferFill e => Some (fill_shutdown s <| r_select := SDeferMarks e |>)
  | SDeferMarks e => Some (with_marks stopMarks s <| r_select := SDeferSilence e |>)
  | SDeferSilence e => Some (with_silence stopSilence s <| r_select := SDone e |> <| r_closed := true |>)
  end.

(** One receive of the select statement. *)
Inductive sel_case :=
| CaseBackend | CaseCarrier | CaseIdle | CaseExpired | CaseMarkDue | CaseActivity
| CaseSend (ok : bool) | CaseMark (name : string).

Definition select_case (c : config) (k : sel_case) (s : rt) : option rt :=
  match k with
  | CaseBackend => match r_bridge s with BEnd => Some (finish EndBackend s) | _ => None end
  | CaseCarrier => if r_carrierDone s then Some (finish EndCarrier s) else None
  | CaseIdle => if idle_fired (r_idle s) then Some (endWithFarewell c EndIdle s) else None
  | CaseExpired =>
      match r_silence s with
      | Some b => if cs_firedCh b
                  then Some (s <| r_silence := Some (b <| cs_firedCh := false |>) |> <| r_select := SExpired |>)
                  else None
      | None => None
      end
  | CaseMarkDue =>
      match r_silence s with
      | Some b => if cs_dueCh b
                  then Some (s <| r_silence := Some (b <| cs_dueCh := false |>) |> <| r_select := SDue |>)
                  else None
      | None => None
      end
  | CaseActivity =>
      if r_activity s
      then Some (s <| r_activity := false |> <| r_idle ::= idle_reset (cfg_idleTimeout c) (r_now s) |>)
      else None
  | CaseSend ok => Some (if ok then s else finish EndSend s)
  | CaseMark name =>
      if cfg_markRequests c then
        if bool_decide (name = "") then Some s else Some (select_write (WqMark name) KLoop s)
      else None
  end.

(** ** The play goroutines and the runtime's callbacks *)

Definition set_player (i : nat) (p : ppc) (s : rt) : rt := s <| r_players ::= alter (fun r => (fst r, p)) i |>.

Definition player_continue (res : wres) : ppc := match res with RWrote => PlTick | _ => PlEnd end.

Definition player_ctxDone (s : rt) : bool :=
  r_ctxDone s || match r_filler s with Some f => f_ctxDone f | None => true end.

Definition run_callback (ready : bool) (cb : callback) (s : rt) : rt :=
  match cb with
  | CbStart gen by_ =>
      match r_filler s with
      | None => s
      | Some f =>
          let '(spawn, f) := startFiller gen f in
          let s := s <| r_filler := Some f |> in
          if spawn then log_ (TvSpawn gen) s <| r_players ::= fun l => l ++ [(gen, PlTick)] |> else s
      end
  | CbExpire name gen => marks_expire ready name gen s
  | CbFire gen => with_silence (fun c tm => (fireSilence gen c, tm)) s
  end.

(** ** The write slot *)

(** The write a goroutine is in, whether queueing for the slot or holding it. *)
Definition writing (t : tid) (s : rt) : option wreq :=
  match t with
  | TBridge => match r_bridge s with BWrite w _ => Some w | _ => None end
  | TSelect => match r_select s with SWrite w _ _ => Some w | _ => None end
  | TPlayer i => match r_players s !! i with Some (gen, PlWrite) => Some (WqFiller gen) | _ => None end
  end.

Definition continue (t : tid) (res : wres) (s : rt) : rt :=
  match t with
  | TBridge =>
      match r_bridge s with
      | BWrite _ k => s <| r_bridge := match res with RFailed => BEnd | _ => bridge_continue k end |>
      | _ => s
      end
  | TSelect => match r_select s with SWrite _ _ k => select_continue res k s | _ => s end
  | TPlayer i => set_player i (player_continue res) s
  end.

(** [ctx.Done()] of the context the write was given. *)
Definition write_ctxDone (t : tid) (s : rt) : bool :=
  match t with
  | TBridge => r_ctxDone s || r_runCancelled s
  | TSelect => r_ctxDone s || match r_select s with SWrite _ d _ => d <=? r_now s | _ => false end
  | TPlayer i => player_ctxDone s
  end.

Definition holds (t : tid) (s : rt) : bool :=
  match r_slot s with Some (t', _, _) => bool_decide (t = t') | None => false end.

(** The statement of [write] at the holder's progress; [ok] is whether the
    socket takes the message, [ready] whether the consumer's channel has room. *)
Definition slot_local (ok ready : bool) (s : rt) : option rt :=
  match r_slot s with
  | None => None
  | Some (t, w, PhBuild) =>
      let '(r, s) := build w s in
      Some (s <| r_slot := Some (t, w, match r with Some (m, g) => PhWrite m g | None => PhRelease RDeclined end) |>)
  | Some (t, w, PhWrite m g) =>
      Some (if ok && negb (r_closed s)
            then log_ (TvWire m) s <| r_slot := Some (t, w, PhAfter m g) |>
            else s <| r_slot := Some (t, w, PhRelease RFailed) |>)
  | Some (t, w, PhAfter m g) =>
      Some (afterWrite ready m g s <| r_slot := Some (t, w, PhRelease RWrote) |>)
  | Some (t, w, PhRelease res) => Some (continue t res (s <| r_slot := None |>))
  end.

(** ** The transition system *)

Inductive rstep (c : config) : rt -> rt -> Prop :=
| rs_tick d s : 0 <= d -> rstep c s (s <| r_now ::= Z.add d |>)
| rs_cancel s : rstep c s (s <| r_ctxDone := true |>)
| rs_read ev s : r_bridge s = BRead -> rstep c s (log_ (TvRead ev) s <| r_bridge := BActivity ev |>)
| rs_read_error s : r_bridge s = BRead -> rstep c s (s <| r_bridge := BEnd |>)
| rs_publish_cancelled tr s : r_bridge s = BTranscript tr -> r_ctxDone s || r_runCancelled s = true ->
    rstep c s (s <| r_bridge := BRead |>)
| rs_bridge s s' : bridge_local s = Some s' -> rstep c s s'
| rs_drain s s' : drain_local s = Some s' -> rstep c s s'
| rs_transcript tr rest s : r_transcripts s = tr :: rest -> rstep c s (s <| r_transcripts := rest |>)
| rs_echo ready name s : r_carrierDone s = false -> rstep c s (marks_echo ready name s)
| rs_hangup s : rstep c s (s <| r_carrierDone := true |>)
| rs_select k s s' : r_select s = SLoop -> select_case c k s = Some s' -> rstep c s s'
| rs_select_local s s' : select_local c s = Some s' -> rstep c s s'
| rs_idle due s : r_idle s = Some (due, false) -> due <= r_now s -> rstep c s (s <| r_idle := Some (due, true) |>)
| rs_timer id tm s : tm_start (r_now s) id (r_timers s) = Some tm -> rstep c s (s <| r_timers := tm |>)
| rs_callback id cb tm ready s : tm_take id (r_timers s) = Some (cb, tm) ->
    rstep c s (run_callback ready cb (s <| r_timers := tm |>))
| rs_player_tick i gen s : r_players s !! i = Some (gen, PlTick) -> rstep c s (set_player i PlWrite s)
| rs_player_done i gen s : r_players s !! i = Some (gen, PlTick) -> player_ctxDone s = true ->
    rstep c s (set_player i PlEnd s)
| rs_player_end i gen s : r_players s !! i = Some (gen, PlEnd) ->
    rstep c s (with_filler (fun f tm => (endEpisode gen f, tm)) s ▷ set_player i PlGone)
| rs_acquire t w s : writing t s = Some w -> r_slot s = None -> rstep c s (s <| r_slot := Some (t, w, PhBuild) |>)
| rs_abort t w s : writing t s = Some w -> holds t s = false -> write_ctxDone t s = true ->
    rstep c s (continue t RFailed s)
| rs_slot ok ready s s' : slot_local ok ready s = Some s' -> rstep c s s'.

Inductive rreach (c : config) (now : Z) : rt -> Prop :=
| rr_init : rreach c now (rt_init c now)
| rr_step s s' : rreach c now s -> rstep c s s' -> rreach c now s'.

(** ** Executable runs

    [ract] names a step; [rexec] performs it, [rrun] a schedule of them.  The
    witnesses of the theorems evaluate schedules. *)

Inductive ract :=
| ATick (d : Z) | ACancel | ARead (ev : ServerEvent) | AReadError | APublishCancelled | ABridge | ADrain
| ATranscript | AEcho (ready : bool) (name : string) | AHangup | ASelect (k : sel_case) | ASelectLocal
| AIdle | ATimer (id : nat) | ACallback (id : nat) (ready : bool) | APlayerTick (i : nat)
| APlayerDone (i : nat) | APlayerEnd (i : nat) | AAcquire (t : tid) | AAbort (t : tid)
| ASlot (ok ready : bool).

Definition rexec (c : config) (a : ract) (s : rt) : option rt :=
  match a with
  | ATick d => if 0 <=? d then Some (s <| r_now ::= Z.add d |>) else None
  | ACancel => Some (s <| r_ctxDone := true |>)
  | ARead ev => match r_bridge s with BRead => Some (log_ (TvRead ev) s <| r_bridge := BActivity ev |>) | _ => None end
  | AReadError => match r_bridge s with BRead => Some (s <| r_bridge := BEnd |>) | _ => None end
  | APublishCancelled =>
      match r_bridge s with
      | BTranscript _ => if r_ctxDone s || r_runCancelled s then Some (s <| r_bridge := BRead |>) else None
      | _ => None
      end
  | ABridge => bridge_local s
  | ADrain => drain_local s
  | ATranscript => match r_transcripts s with _ :: rest => Some (s <| r_transcripts := rest |>) | [] => None end
  | AEcho ready name => if r_carrierDone s then None else Some (marks_echo ready name s)
  | AHangup => Some (s <| r_carrierDone := true |>)
  | ASelect k => match r_select s with SLoop => select_case c k s | _ => None end
  | ASelectLocal => select_local c s
  | AIdle =>
      match r_idle s with
      | Some (due, false) => if due <=? r_now s then Some (s <| r_idle := Some (due, true) |>) else None
      | _ => None
      end
  | ATimer id => match tm_start (r_now s) id (r_timers s) with Some tm => Some (s <| r_timers := tm |>) | None => None end
  | ACallback id ready =>
      match tm_take id (r_timers s) with
      | Some (cb, tm) => Some (run_callback ready cb (s <| r_timers := tm |>))
      | None => None
      end
  | APlayerTick i => match r_players s !! i with Some (_, PlTick) => Some (set_player i PlWrite s) | _ => None end
  | APlayerDone i =>
      match r_players s !! i with
      | Some (_, PlTick) => if player_ctxDone s then Some (set_player i PlEnd s) else None
      | _ => None
      end
  | APlayerEnd i =>
      match r_players s !! i with
      | Some (gen, PlEnd) => Some (with_filler (fun f tm => (endEpisode gen f, tm)) s ▷ set_player i PlGone)
      | _ => None
      end
  | AAcquire t =>
      match writing t s, r_slot s with
      | Some w, None => Some (s <| r_slot := Some (t, w, PhBuild) |>)
      | _, _ => None
      end
  | AAbort t =>
      match writing t s with
      | Some _ => if negb (holds t s) && write_ctxDone t s then Some (continue t RFailed s) else None
      | None => None
      end
  | ASlot ok ready => slot_local ok ready s
  end.

Fixpoint rrun (c : config) (l : list ract) (s : rt) : option rt :=
  match l with [] => Some s | a :: l => match rexec c a s with Some s => rrun c l s | None => None end end.

Lemma rexec_sound c a s s' : rexec c a s = Some s' -> rstep c s s'.
Proof.
  destruct a; simpl; intros H.
  - destruct (0 <=? d) eqn:E; simplify_eq. apply Z.leb_le in E. by apply rs_tick.
  - simplify_eq. apply rs_cancel.
  - destruct (r_bridge s) eqn:E; simplify_eq. by apply rs_read.
  - destruct (r_bridge s) eqn:E; simplify_eq. by apply rs_read_error.
  - destruct (r_bridge s) eqn:E; simplify_eq. case_match; simplify_eq. by eapply rs_publish_cancelled.
  - by apply rs_bridge.
  - by apply rs_drain.
  - destruct (r_transcripts s) eqn:E; simplify_eq. by eapply rs_transcript.
  - destruct (r_carrierDone s) eqn:E; simplify_eq. by apply rs_echo.
  - simplify_eq. apply rs_hangup.
  - destruct (r_select s) eqn:E; simplify_eq. by eapply rs_select.
  - by apply rs_select_local.
  - destruct (r_idle s) as [[due []]|] eqn:E; simplify_eq. case_match eqn:E2; simplify_eq.
    apply Z.leb_le in E2. by apply rs_idle.
  - case_match eqn:E; simplify_eq. by eapply rs_timer.
  - destruct (tm_take id _) as [[cb tm]|] eqn:E; simplify_eq. by eapply rs_callback.
  - destruct (r_players s !! i) as [[g []]|] eqn:E; simplify_eq. by eapply rs_player_tick.
  - destruct (r_players s !! i) as [[g []]|] eqn:E; simplify_eq. case_match; simplify_eq. by eapply rs_player_done.
  - destruct (r_players s !! i) as [[g []]|] eqn:E; simplify_eq. by eapply rs_player_end.
  - destruct (writing t s) eqn:E; simplify_eq. destruct (r_slot s) eqn:E2; simplify_eq. by apply rs_acquire.
  - destruct (writing t s) eqn:E; simplify_eq. case_match eqn:E2; simplify_eq.
    apply andb_true_iff in E2 as [E2 E3]. apply negb_true_iff in E2. by eapply rs_abort.
  - by eapply rs_slot.
Qed.

Lemma rrun_sound c now l s s' : rrun c l s = Some s' -> rreach c now s -> rreach c now s'.
Proof.
  revert s. induction l as [|a l IH]; simpl; intros s; [by intros [= ->]|].
  destruct (rexec c a s) eqn:E; [|done]. intros H Hr. apply (IH r H). econstructor; [done | by eapply rexec_sound].
Qed.

(** The end of a schedule from the start of a call. *)
Definition rend (c : config) (now : Z) (l : list ract) : rt := default (rt_init c now) (rrun c l (rt_init c now)).

Lemma rend_reach c now l : rreach c now (rend c now l).
Proof.
  unfold rend. destruct (rrun c l (rt_init c now)) eqn:E; simpl; [|constructor].
  eapply rrun_sound; [done | constructor].
Qed.
