(* ===== verification/SinkInv.v ===== *)
(** * SinkInv: what every step of a realtime call does to the carrier's wire

    The summary of a step ([rsum]) that the theorems about the wire use: how
    the log grows, that the filler's generation and the latches only go up, and
    which phase of the write slot moved. *)

From S2P Require Export Sink.
From S2P Require Import Filler Silence Marks.

Definition is_wire (e : tev) : bool := match e with TvWire _ => true | _ => false end.
Definition nowire (l : list tev) : Prop := forallb (fun e => negb (is_wire e)) l = true.

Lemma nowire_nil : nowire [].
Proof. done. Qed.
Lemma nowire_app l l' : nowire l -> nowire l' -> nowire (l ++ l').
Proof. unfold nowire. rewrite forallb_app. intros -> ->. done. Qed.

(** The filler only moves forward. *)
Definition fle (o o' : option filler) : Prop :=
  match o, o' with
  | Some f, Some f' =>
      (f_gen f <= f_gen f')%nat /\ (f_stopped f = true -> f_stopped f' = true) /\
      f_loop f' = f_loop f /\ f_delay f' = f_delay f
  | None, None => True
  | _, _ => False
  end.

#[export] Instance fle_refl : Reflexive fle.
Proof. intros [f|]; simpl; auto. Qed.
#[export] Instance fle_trans : Transitive fle.
Proof.
  intros [a|] [b|] [d|]; simpl; try done. intros (?&?&?&?) (?&?&?&?). split_and!; [lia|auto|congruence..].
Qed.

(** ** The filler's operations move it forward *)

Lemma cancelPending_fle f tm : fle (Some f) (Some (fst (cancelPendingLocked f tm))).
Proof. unfold cancelPendingLocked; simpl; auto. Qed.

Ltac fle_op := simpl; repeat (case_match; simpl; simplify_eq/=); auto with lia.

Lemma armFiller_fle b now f tm : fle (Some f) (Some (fst (armFiller b now f tm))).
Proof. unfold armFiller, cancelPendingLocked, AfterFunc. fle_op. Qed.
Lemma stopFiller_fle f tm : fle (Some f) (Some (fst (snd (stopFiller f tm)))).
Proof. unfold stopFiller, cancelPendingLocked. fle_op. Qed.
Lemma shutdownFiller_fle f tm : fle (Some f) (Some (fst (shutdownFiller f tm))).
Proof. unfold shutdownFiller, cancelPendingLocked. fle_op. Qed.
Lemma startFiller_fle g f : fle (Some f) (Some (snd (startFiller g f))).
Proof. unfold startFiller. fle_op. Qed.
Lemma endEpisode_fle g f : fle (Some f) (Some (endEpisode g f)).
Proof. unfold endEpisode. fle_op. Qed.
Lemma nextFrame_fle g f : fle (Some f) (Some (snd (nextFrame g f))).
Proof. unfold nextFrame. fle_op. Qed.
Lemma observeFiller_fle ev now f tm : fle (Some f) (Some (fst (observeFiller ev now f tm))).
Proof.
  unfold observeFiller. repeat case_match; eauto using armFiller_fle, stopFiller_fle; reflexivity.
Qed.

(** ** Effects that leave the wire alone

    [aux s s' l]: only a component (filler, silence, marks, timers, playout
    clock, consumer channels) and the log changed, the log by [l]. *)

Record aux (s s' : rt) (l : list tev) : Prop := mkAux {
  aux_log : r_log s' = r_log s ++ l;
  aux_nowire : nowire l;
  aux_fle : fle (r_filler s) (r_filler s');
  aux_slot : r_slot s' = r_slot s;
  aux_farewelling : r_farewelling s' = r_farewelling s;
  aux_bridge : r_bridge s' = r_bridge s;
  aux_select : r_select s' = r_select s;
  aux_players : r_players s' = r_players s;
  aux_closed : r_closed s' = r_closed s
}.

Lemma aux_refl s : aux s s [].
Proof. constructor; rewrite ?app_nil_r; try done; try reflexivity. Qed.

Lemma aux_trans s1 s2 s3 l1 l2 : aux s1 s2 l1 -> aux s2 s3 l2 -> aux s1 s3 (l1 ++ l2).
Proof.
  intros [] []. constructor; try congruence.
  - rewrite aux_log1, aux_log0, app_assoc. done.
  - by apply nowire_app.
  - by etrans.
Qed.

Lemma aux_log_ e s : is_wire e = false -> aux s (log_ e s) [e].
Proof. intros He. constructor; try done. unfold nowire; simpl; by rewrite He. Qed.

Lemma with_filler_aux op s :
  (forall f tm, fle (Some f) (Some (fst (op f tm)))) -> aux s (with_filler op s) [].
Proof.
  intros Hop. unfold with_filler. destruct (r_filler s) as [f|] eqn:E; [|apply aux_refl].
  specialize (Hop f (r_timers s)). destruct (op f (r_timers s)) as [f' tm].
  constructor; usimpl; rewrite ?app_nil_r; try done. by rewrite E.
Qed.

Lemma with_silence_aux op s : aux s (with_silence op s) [].
Proof.
  unfold with_silence. destruct (r_silence s) as [f|]; [|apply aux_refl].
  destruct (op f _). constructor; usimpl; rewrite ?app_nil_r; try done; try reflexivity.
Qed.

Lemma with_marks_aux op s : aux s (with_marks op s) [].
Proof.
  unfold with_marks. destruct (r_marks s) as [f|]; [|apply aux_refl].
  destruct (op f _). constructor; usimpl; rewrite ?app_nil_r; try done; try reflexivity.
Qed.

Lemma fill_stop_aux s : exists l, aux s (snd (fill_stop s)) l.
Proof.
  unfold fill_stop. destruct (r_filler s) as [f|] eqn:E; [|eexists; apply aux_refl].
  assert (H : aux s (with_filler (fun f tm => snd (stopFiller f tm)) s) [])
    by (apply with_filler_aux; intros; apply stopFiller_fle).
  simpl. destruct (f_playing f); [|eauto].
  eexists. eapply aux_trans; [exact H | by apply aux_log_].
Qed.

Lemma silence_spoke_aux s : exists l, aux s (silence_spoke s) l.
Proof.
  unfold silence_spoke. destruct (r_silence s) eqn:E; [|eexists; apply aux_refl].
  eexists. eapply aux_trans; [apply with_silence_aux | by apply aux_log_].
Qed.

Lemma silence_agentAudio_aux s : exists l, aux s (silence_agentAudio s) l.
Proof.
  unfold silence_agentAudio. destruct (r_silence s) eqn:E; [|eexists; apply aux_refl].
  eexists. eapply aux_trans; [apply with_silence_aux | by apply aux_log_].
Qed.

Lemma silence_played_aux g s : exists l, aux s (silence_played g s) l.
Proof.
  unfold silence_played. destruct (r_silence s) eqn:E; [|eexists; apply aux_refl].
  case_match; [|eexists; apply with_silence_aux].
  eexists. eapply aux_trans; [apply with_silence_aux | by apply aux_log_].
Qed.

Lemma resolved_aux r s : exists l, aux s (resolved r s) l.
Proof.
  destruct r; simpl; [eexists; apply aux_refl | apply silence_played_aux | eexists; apply aux_refl
    | eexists; by apply aux_log_].
Qed.

Lemma aux_marks s t tm : aux s (s <| r_marks := t |> <| r_timers := tm |>) [].
Proof. constructor; usimpl; rewrite ?app_nil_r; try done; try reflexivity. Qed.
Lemma aux_marks' s t : aux s (s <| r_marks := t |>) [].
Proof. constructor; usimpl; rewrite ?app_nil_r; try done; try reflexivity. Qed.
Lemma aux_silence s t : aux s (s <| r_silence := t |>) [].
Proof. constructor; usimpl; rewrite ?app_nil_r; try done; try reflexivity. Qed.
Lemma aux_timers s tm : aux s (s <| r_timers := tm |>) [].
Proof. constructor; usimpl; rewrite ?app_nil_r; try done; try reflexivity. Qed.
Lemma aux_filler s f : fle (r_filler s) (Some f) -> aux s (s <| r_filler := Some f |>) [].
Proof. constructor; usimpl; rewrite ?app_nil_r; try done. Qed.

Lemma marks_echo_aux ready name s : exists l, aux s (marks_echo ready name s) l.
Proof.
  unfold marks_echo. destruct (r_marks s) eqn:E; [|eexists; apply aux_refl].
  destruct (echo _ _ _ _) as [r [t tm]].
  destruct (resolved_aux r (log_ (TvEcho name) s <| r_marks := Some t |> <| r_timers := tm |>)) as [l Hl].
  eexists. eapply aux_trans; [apply (aux_log_ (TvEcho name)); reflexivity|].
  eapply aux_trans; [apply aux_marks | exact Hl].
Qed.

Lemma marks_expire_aux ready name gen s : exists l, aux s (marks_expire ready name gen s) l.
Proof.
  unfold marks_expire. destruct (r_marks s) eqn:E; [|eexists; apply aux_refl].
  destruct (expire _ _ _ _) as [r t].
  destruct (resolved_aux r (s <| r_marks := Some t |>)) as [l Hl].
  eexists. eapply aux_trans; [apply aux_marks' | exact Hl].
Qed.

Lemma marks_arm_aux name p s : exists l, aux s (marks_arm name p s) l.
Proof.
  unfold marks_arm. destruct (r_marks s) as [t|] eqn:E; [|eexists; apply aux_refl]. cbv zeta.
  destruct (mk_stopped t); [eexists; apply with_marks_aux|].
  eexists. eapply aux_trans; [apply with_marks_aux | by apply aux_log_].
Qed.

Lemma marks_await_aux name s : aux s (snd (marks_await name s)) [].
Proof.
  unfold marks_await. destruct (r_marks s); [|apply aux_refl]. destruct (await _ _). apply aux_marks'.
Qed.

Lemma fed_media_aux ready p rec s : aux s (fed_media ready p rec s) [].
Proof. constructor; usimpl; rewrite ?app_nil_r; try done; try reflexivity. Qed.

Lemma afterWrite_aux ready m g s : exists l, aux s (afterWrite ready m g s) l.
Proof.
  destruct m as [[o|gn|] p | d | name]; simpl; eauto using fed_media_aux, marks_arm_aux.
  - destruct (silence_agentAudio_aux (fed_media ready p (mkCarrierAudio p false false false) s)) as [l Hl].
    eexists. eapply aux_trans; [apply fed_media_aux | exact Hl].
  - exists []. constructor; usimpl; rewrite ?app_nil_r; try done; try reflexivity.
Qed.

Lemma fill_shutdown_aux s : aux s (fill_shutdown s) [].
Proof. apply with_filler_aux. intros. apply shutdownFiller_fle. Qed.

(** ** The summary of a step *)

Inductive slotmove (s s' : rt) (l : list tev) : Prop :=
| sm_same : nowire l -> r_slot s' = r_slot s -> slotmove s s' l
| sm_acquire t w : nowire l -> r_slot s = None -> writing t s = Some w ->
    r_slot s' = Some (t, w, PhBuild) -> slotmove s s' l
| sm_build t w : nowire l -> r_slot s = Some (t, w, PhBuild) ->
    r_slot s' = Some (t, w, match fst (build w s) with Some (m, g) => PhWrite m g | None => PhRelease RDeclined end) ->
    slotmove s s' l
| sm_write t w m g : l = [TvWire m] -> r_slot s = Some (t, w, PhWrite m g) ->
    r_slot s' = Some (t, w, PhAfter m g) -> slotmove s s' l
| sm_fail t w m g : nowire l -> r_slot s = Some (t, w, PhWrite m g) ->
    r_slot s' = Some (t, w, PhRelease RFailed) -> slotmove s s' l
| sm_after t w m g : nowire l -> r_slot s = Some (t, w, PhAfter m g) ->
    r_slot s' = Some (t, w, PhRelease RWrote) -> slotmove s s' l
| sm_release t w res : nowire l -> r_slot s = Some (t, w, PhRelease res) -> r_slot s' = None ->
    r_select s' = r_select (continue t res s) -> slotmove s s' l.

Record rsum (s s' : rt) (l : list tev) : Prop := mkRsum {
  rs_log : r_log s' = r_log s ++ l;
  rs_fle : fle (r_filler s) (r_filler s');
  rs_farewelling : r_farewelling s = true -> r_farewelling s' = true;
  rs_move : slotmove s s' l
}.

(** A step outside the slot. *)
Record rloc (s s' : rt) (l : list tev) : Prop := mkRloc {
  rl_log : r_log s' = r_log s ++ l;
  rl_nowire : nowire l;
  rl_fle : fle (r_filler s) (r_filler s');
  rl_farewelling : r_farewelling s = true -> r_farewelling s' = true;
  rl_slot : r_slot s' = r_slot s
}.

Lemma rloc_sum s s' l : rloc s s' l -> rsum s s' l.
Proof. intros []. constructor; try done. by apply sm_same. Qed.

Lemma rsum_aux s s' l : aux s s' l -> rsum s s' l.
Proof. intros []. constructor; try done; [congruence | by apply sm_same]. Qed.

(** [local] effects after a component's: program counters and flags. *)
Record pcs (s s' : rt) : Prop := mkPcs {
  pcs_log : r_log s' = r_log s;
  pcs_filler : r_filler s' = r_filler s;
  pcs_slot : r_slot s' = r_slot s;
  pcs_farewelling : r_farewelling s = true -> r_farewelling s' = true
}.

Lemma rsum_pcs s s1 s' l : aux s s1 l -> pcs s1 s' -> rloc s s' l.
Proof.
  intros [] []. constructor; try congruence.
  intros H. apply pcs_farewelling0. congruence.
Qed.

Lemma rsum_pcs' s s' : pcs s s' -> rloc s s' [].
Proof. apply rsum_pcs, aux_refl. Qed.

Ltac pcs_done := constructor; usimpl; repeat case_match; simpl; auto.

Lemma finish_pcs e s : pcs s (finish e s).
Proof. by constructor. Qed.
Lemma select_write_pcs w k s : pcs s (select_write w k s).
Proof. by constructor. Qed.
Lemma endWithFarewell_pcs c e s : pcs s (endWithFarewell c e s).
Proof. unfold endWithFarewell. by case_match; constructor. Qed.
Lemma select_continue_pcs res k s : pcs s (select_continue res k s).
Proof. destruct res, k; by constructor. Qed.
Lemma pcs_trans s1 s2 s3 : pcs s1 s2 -> pcs s2 s3 -> pcs s1 s3.
Proof. intros [] []. constructor; auto; congruence. Qed.

Lemma bridge_local_sum s s' : bridge_local s = Some s' -> exists l, rloc s s' l.
Proof.
  unfold bridge_local. destruct (r_bridge s) eqn:Eb; try discriminate.
  - intros [= <-]. eexists. apply rsum_pcs'. by constructor.
  - intros [= <-]. eexists. apply rsum_pcs'. unfold publishEvent. case_match; by constructor.
  - intros [= <-]. eexists. eapply rsum_pcs; [by apply (aux_log_ (TvDispatch ev)) | by constructor].
  - intros [= <-]. eexists. apply rsum_pcs'. by constructor.
  - destruct (fill_stop_aux s) as [l Hl]. destruct (fill_stop s) as [was s1]. intros [= <-].
    exists l. eapply rsum_pcs; [exact Hl | by constructor].
  - intros [= <-]. destruct (silence_spoke_aux s) as [l Hl]. exists l. eapply rsum_pcs; [exact Hl | by constructor].
  - intros [= <-]. eexists. apply rsum_pcs'. by constructor.
  - intros [= <-]. destruct (fill_stop_aux s) as [l Hl]. exists l. eapply rsum_pcs; [exact Hl | by constructor].
  - case_match; intros; simplify_eq/=. eexists. apply rsum_pcs'. by constructor.
Qed.

Lemma drain_local_sum s s' : drain_local s = Some s' -> exists l, rloc s s' l.
Proof.
  unfold drain_local. destruct (r_drain s) eqn:Ed.
  - case_match; intros [= <-]. eexists. eapply rsum_pcs; [by apply (aux_log_ (TvDrained s0)) | by constructor].
  - intros [= <-]. eexists. eapply rsum_pcs;
      [apply with_filler_aux; intros; apply observeFiller_fle | by constructor].
  - intros [= <-]. case_match.
    + eexists. eapply rsum_pcs; [eapply aux_trans; [apply with_silence_aux | by apply (aux_log_ TvTool)] | by constructor].
    + eexists. eapply rsum_pcs; [apply with_silence_aux | by constructor].
Qed.

Lemma select_local_sum c s s' : select_local c s = Some s' -> exists l, rloc s s' l.
Proof.
  unfold select_local. destruct (r_select s) eqn:Es; try discriminate.
  - destruct (r_silence s) as [b|]; [|intros [= <-]; eexists; apply rsum_pcs'; by constructor].
    destruct (endSilence b (r_timers s)) as [ended [b' tm]].
    assert (H : aux s (s <| r_silence := Some b' |> <| r_timers := tm |>) [])
      by (eapply (aux_trans _ _ _ [] []); [apply aux_silence | apply aux_timers]).
    destruct ended; intros [= <-].
    + eexists. eapply rsum_pcs; [eapply aux_trans; [exact H | by apply (aux_log_ (TvSilent (r_now s)))] |].
      apply endWithFarewell_pcs.
    + eexists. eapply rsum_pcs; [exact H | by constructor].
  - destruct (r_silence s) as [b|]; [|intros [= <-]; eexists; apply rsum_pcs'; by constructor].
    destruct (takeRequest b) as [tag b']. intros [= <-]. eexists. eapply rsum_pcs; [apply (aux_silence s (Some b')) | by constructor].
  - destruct (r_silence s) as [b|]; [|intros [= <-]; eexists; apply rsum_pcs'; by constructor].
    destruct (nextMarkName _ b) as [nm b']. intros [= <-]. eexists. eapply rsum_pcs; [apply (aux_silence s (Some b')) | apply select_write_pcs].
  - intros [= <-]. destruct (fill_stop_aux s) as [l Hl]. exists l. eapply rsum_pcs; [exact Hl | by constructor].
  - intros [= <-]. eexists. apply rsum_pcs'. by constructor.
  - intros [= <-]. destruct (fill_stop_aux s) as [l Hl]. exists l. eapply rsum_pcs; [exact Hl | apply select_write_pcs].
  - intros [= <-]. eexists. apply rsum_pcs'. by constructor.
  - intros [= <-]. eexists. eapply rsum_pcs; [apply fill_shutdown_aux | by constructor].
  - intros [= <-]. unfold farewell_next. destruct rest.
    + pose proof (marks_await_aux (farewell_mark c) s) as H. destruct (marks_await _ _) as [ch s1].
      eexists. eapply rsum_pcs; [exact H | apply select_write_pcs].
    + eexists. apply rsum_pcs', select_write_pcs.
  - case_match; intros [= <-]. eexists. apply rsum_pcs', finish_pcs.
  - intros [= <-]. eexists. eapply rsum_pcs; [apply fill_shutdown_aux | by constructor].
  - intros [= <-]. eexists. eapply rsum_pcs; [apply with_marks_aux | by constructor].
  - intros [= <-]. eexists. eapply rsum_pcs; [apply with_silence_aux | by constructor].
Qed.

Lemma select_case_sum c k s s' : select_case c k s = Some s' -> exists l, rloc s s' l.
Proof.
  intros H. exists []. apply rsum_pcs'. destruct k; simpl in H; repeat case_match; simplify_eq;
    try (by constructor); apply endWithFarewell_pcs.
Qed.

Lemma run_callback_aux ready cb s :
  exists l s1, aux s s1 l /\ pcs s1 (run_callback ready cb s).
Proof.
  destruct cb as [gen b | name gen | gen]; simpl.
  - destruct (r_filler s) as [f|] eqn:Ef; [|exists [], s; split; [apply aux_refl | by constructor]].
    pose proof (startFiller_fle gen f) as Hf. destruct (startFiller gen f) as [spawn f']. simpl in Hf.
    assert (H : aux s (s <| r_filler := Some f' |>) []) by (apply aux_filler; by rewrite Ef).
    destruct spawn; [|exists [], (s <| r_filler := Some f' |>); split; [exact H | by constructor]].
    exists ([] ++ [TvSpawn gen]). eexists. split; [eapply aux_trans; [exact H | by apply aux_log_] | by constructor].
  - destruct (marks_expire_aux ready name gen s) as [l Hl]. exists l. eexists. split; [exact Hl | by constructor].
  - exists []. eexists. split; [apply with_silence_aux | by constructor].
Qed.

Lemma build_aux w s : exists l, aux s (snd (build w s)) l.
Proof.
  destruct w; simpl; try (eexists; apply aux_refl).
  - destruct (r_filler s) as [f|] eqn:Ef; [|eexists; apply aux_refl].
    pose proof (nextFrame_fle gen f) as Hf. destruct (nextFrame gen f) as [p f'].
    eexists. apply aux_filler. by rewrite Ef.
  - destruct (r_silence s) as [f|] eqn:Ef; [|eexists; apply aux_refl].
    destruct (claim tag f) as [[g|] f'].
    + eexists. eapply aux_trans; [apply aux_silence | by apply aux_log_].
    + eexists. apply aux_silence.
Qed.

Lemma continue_pcs t res s : pcs s (continue t res s).
Proof.
  destruct t; simpl; [case_match; by constructor | case_match; try (by constructor); apply select_continue_pcs
    | by constructor].
Qed.

Lemma continue_slot t res v s : continue t res (s <| r_slot := v |>) = continue t res s <| r_slot := v |>.
Proof. destruct t; simpl; [by destruct (r_bridge s) | | done]. destruct (r_select s); try done. by destruct res, k. Qed.

Lemma continue_same t res s :
  r_log (continue t res s) = r_log s /\ r_farewelling (continue t res s) = r_farewelling s /\
  r_filler (continue t res s) = r_filler s /\ r_slot (continue t res s) = r_slot s.
Proof. destruct t; simpl; [by destruct (r_bridge s) | | done]. destruct (r_select s); try done. by destruct res, k. Qed.

Lemma slot_local_sum ok ready s s' : slot_local ok ready s = Some s' -> exists l, rsum s s' l.
Proof.
  unfold slot_local. destruct (r_slot s) as [[[t w] [|m g|m g|res]]|] eqn:Es; [..|done].
  - destruct (build_aux w s) as [l Hl]. destruct (build w s) as [r s1] eqn:Eb. intros [= <-].
    exists l. destruct Hl. constructor; usimpl; try done; [congruence|].
    eapply sm_build; [done..|]. simpl. by rewrite Eb.
  - destruct (ok && negb (r_closed s)); intros [= <-].
    + exists [TvWire m]. constructor; try done. by eapply sm_write.
    + exists []. constructor; usimpl; rewrite ?app_nil_r; try done. by eapply sm_fail.
  - intros [= <-]. destruct (afterWrite_aux ready m g s) as [l Hl].
    exists l. destruct Hl. constructor; usimpl; try done; [congruence|]. by eapply sm_after.
  - intros [= <-]. exists []. rewrite continue_slot. destruct (continue_same t res s) as (El & Ew & Ef & E).
    constructor.
    + change (r_log (continue t res s) = r_log s ++ []). by rewrite El, app_nil_r.
    + change (fle (r_filler s) (r_filler (continue t res s))). by rewrite Ef.
    + change (r_farewelling s = true -> r_farewelling (continue t res s) = true). by rewrite Ew.
    + by eapply sm_release.
Qed.

Lemma rstep_sum c s s' : rstep c s s' -> exists l, rsum s s' l.
Proof.
  assert (Hloc : (exists l, rloc s s' l) -> exists l, rsum s s' l) by (intros [l Hl]; eauto using rloc_sum).
  destruct 1; try (apply Hloc; eexists; apply rsum_pcs'; by constructor);
    eauto using bridge_local_sum, drain_local_sum, select_local_sum, select_case_sum, slot_local_sum.
  - apply Hloc. eexists. eapply rsum_pcs; [by apply (aux_log_ (TvRead ev)) | by constructor].
  - destruct (marks_echo_aux ready name s) as [l Hl]. eexists. by apply rsum_aux.
  - destruct (run_callback_aux ready cb (s <| r_timers := tm |>)) as (l & s1 & Ha & Hp).
    apply Hloc. eexists. eapply rsum_pcs; [|exact Hp]. eapply aux_trans; [apply aux_timers | exact Ha].
  - apply Hloc. eexists. eapply (rsum_pcs _ (with_filler (fun f tm => (endEpisode gen f, tm)) s));
      [apply with_filler_aux; intros f tm; apply (endEpisode_fle gen f) | by constructor].
  - exists []. constructor; usimpl; rewrite ?app_nil_r; try done. by eapply sm_acquire.
  - apply Hloc. eexists. apply rsum_pcs'. apply continue_pcs.
Qed.

(** ** Which goroutine a step moves *)

Definition writes_b (p : bpc) : bool := match p with BWrite _ _ => true | _ => false end.
Definition writes_s (p : spc) : bool := match p with SWrite _ _ _ => true | _ => false end.

Inductive moved (c : config) (s s' : rt) : Prop :=
| mv_none l : r_bridge s' = r_bridge s -> r_select s' = r_select s -> r_players s' = r_players s ++ l ->
    moved c s s'
| mv_bridge : writes_b (r_bridge s) = false ->
    bridge_local s = Some s' \/ (match r_bridge s' with BActivity _ | BEnd | BRead => True | _ => False end) ->
    r_select s' = r_select s -> r_players s' = r_players s ->
    moved c s s'
| mv_select : writes_s (r_select s) = false ->
    select_local c s = Some s' \/ (r_select s = SLoop /\ exists k, select_case c k s = Some s') ->
    r_bridge s' = r_bridge s -> r_players s' = r_players s ->
    moved c s s'
| mv_player i gen p p' : r_players s !! i = Some (gen, p) -> p <> PlWrite -> r_players s' = <[i := (gen, p')]> (r_players s) ->
    r_bridge s' = r_bridge s -> r_select s' = r_select s -> moved c s s'
| mv_continue t w res : writing t s = Some w -> (forall ph, r_slot s' <> Some (t, w, ph)) ->
    res = RFailed \/ r_slot s = Some (t, w, PhRelease res) ->
    r_log s' = r_log s -> r_farewelling s' = r_farewelling s -> r_filler s' = r_filler s ->
    r_bridge s' = r_bridge (continue t res s) -> r_select s' = r_select (continue t res s) ->
    r_players s' = r_players (continue t res s) -> moved c s s'.

Lemma mv_aux c s s' l : aux s s' l -> moved c s s'.
Proof. intros []. eapply (mv_none _ _ _ []); rewrite ?app_nil_r; done. Qed.

Lemma set_player_alter i gen p p' s : r_players s !! i = Some (gen, p) ->
  r_players (set_player i p' s) = <[i := (gen, p')]> (r_players s).
Proof. intros H. usimpl. apply list_eq. intros j. destruct (decide (j = i)) as [->|Hn].
  - rewrite list_lookup_alter_eq, H. simpl. rewrite list_lookup_insert_eq; [done|]. by eapply lookup_lt_Some.
  - by rewrite list_lookup_alter_ne, list_lookup_insert_ne by done.
Qed.

Lemma rs_log_nil s : r_log s = r_log s ++ [].
Proof. by rewrite app_nil_r. Qed.

Ltac mv_b H0 := apply mv_bridge; [by match goal with E : r_bridge _ = _ |- _ => rewrite E end | by left | |];
  clear H0; unfold publishEvent; usimpl; repeat case_match; try done; congruence.

Lemma bridge_local_moved c s s' : bridge_local s = Some s' -> moved c s s'.
Proof.
  intros H. assert (Hb : writes_b (r_bridge s) = false)
    by (unfold bridge_local in H; destruct (r_bridge s); done).
  pose proof H as H0. revert H. unfold bridge_local. destruct (r_bridge s) eqn:Eb; try discriminate.
  - intros [= <-]. mv_b H0.
  - intros [= <-]. mv_b H0.
  - intros [= <-]. mv_b H0.
  - intros [= <-]. mv_b H0.
  - destruct (fill_stop_aux s) as [l Hl]. destruct (fill_stop s) as [was s1]. intros [= <-].
    destruct Hl. mv_b H0.
  - destruct (silence_spoke_aux s) as [l Hl]. intros [= <-]. destruct Hl. mv_b H0.
  - intros [= <-]. mv_b H0.
  - destruct (fill_stop_aux s) as [l Hl]. intros [= <-]. destruct Hl. mv_b H0.
  - case_match; intros; simplify_eq/=. mv_b H0.
Qed.

Ltac mv_same := eapply (mv_none _ _ _ []); usimpl; rewrite ?app_nil_r; congruence.

Lemma drain_local_moved c s s' : drain_local s = Some s' -> moved c s s'.
Proof.
  unfold drain_local. destruct (r_drain s) eqn:Ed.
  - case_match; intros [= <-]. mv_same.
  - intros [= <-]. destruct (with_filler_aux (observeFiller ev (r_now s)) s
      (fun f tm => observeFiller_fle ev (r_now s) f tm)). mv_same.
  - intros [= <-]. destruct (with_silence_aux (observeSilence ev) s). case_match; mv_same.
Qed.

Ltac mv_s := apply mv_select; [by match goal with E : r_select _ = _ |- _ => rewrite E end | by eauto | |];
  usimpl; try done; try congruence.

Lemma select_local_moved c s s' : select_local c s = Some s' -> moved c s s'.
Proof.
  intros H. pose proof H as H0. revert H. unfold select_local.
  destruct (fill_stop_aux s) as [l []]. destruct (fill_shutdown_aux s).
  pose proof (with_marks_aux stopMarks s) as []. pose proof (with_silence_aux stopSilence s) as [].
  destruct (r_select s) eqn:Es; try discriminate; repeat case_match; intros [= <-]; try (by mv_s).
  all: unfold endWithFarewell, farewell_next in *; repeat case_match; try (by mv_s).
  all: pose proof (marks_await_aux (farewell_mark c) s) as Ha;
    match goal with E : marks_await _ _ = _ |- _ => rewrite E in Ha end; destruct Ha; simpl in *; mv_s.
Qed.

Lemma select_case_moved c k s s' : r_select s = SLoop -> select_case c k s = Some s' -> moved c s s'.
Proof.
  intros Hs H. pose proof H as H0.
  destruct k; simpl in H; repeat case_match; simplify_eq; unfold endWithFarewell in *;
    repeat case_match; mv_s.
Qed.

(** ** The holder of the slot is in the write it holds it for *)

Definition msg_of (w : wreq) (m : wmsg) : Prop :=
  match w, m with
  | WqMedia p o, WmMedia (SrcBackend o') p' => o' = o /\ p' = p
  | WqFarewell p, WmMedia SrcFarewell p' => p' = p
  | WqFiller g, WmMedia (SrcFiller g') _ => g' = g
  | WqClear d, WmClear d' => d' = d
  | WqMark n, WmMark n' | WqPlayout n _, WmMark n' => n' = n
  | _, _ => False
  end.

Definition slot_wf (s : rt) : Prop :=
  match r_slot s with
  | Some (t, w, ph) =>
      writing t s = Some w /\ match ph with PhWrite m _ | PhAfter m _ => msg_of w m | _ => True end
  | None => True
  end.

Lemma rstep_moved c s s' : slot_wf s -> rstep c s s' -> moved c s s'.
Proof.
  intros Hwf. destruct 1; try (by mv_same);
    eauto using bridge_local_moved, drain_local_moved, select_local_moved, select_case_moved.
  - apply mv_bridge; [by rewrite H | by right | done | done].
  - apply mv_bridge; [by rewrite H | by right | done | done].
  - apply mv_bridge; [by rewrite H | by right | done | done].
  - destruct (marks_echo_aux ready name s) as [l Hl]. by eapply mv_aux.
  - destruct cb as [gen b | name gen | gen]; simpl.
    + destruct (r_filler _); [|mv_same]. destruct (startFiller _ _) as [[] f']; [|mv_same].
      by eapply (mv_none _ _ _ [_]).
    + destruct (marks_expire_aux ready name gen (s <| r_timers := tm |>)) as [l Hl].
      eapply mv_aux, (aux_trans _ _ _ _ _ (aux_timers s tm) Hl).
    + eapply mv_aux, (aux_trans _ _ _ _ _ (aux_timers s tm) (with_silence_aux _ _)).
  - eapply mv_player; [exact H | done | eapply set_player_alter; exact H | done..].
  - eapply mv_player; [exact H | done | eapply set_player_alter; exact H | done..].
  - destruct (with_filler_aux (fun f tm => (endEpisode gen f, tm)) s (fun f tm => endEpisode_fle gen f)) as [].
    eapply mv_player; [exact H | done | | usimpl; congruence..].
    rewrite <- aux_players0. eapply set_player_alter. rewrite aux_players0. exact H.
  - destruct (continue_same t RFailed s) as (El & Ew & Ef & E).
    eapply (mv_continue _ _ _ t w RFailed); [done | | by left | done..].
    intros ph Hsl. rewrite E in Hsl. unfold holds in H0. rewrite Hsl in H0. by rewrite bool_decide_eq_true_2 in H0.
  - revert H. unfold slot_local. destruct (r_slot s) as [[[t w] [|m g|m g|res]]|] eqn:Es; [..|done].
    + destruct (build_aux w s) as [l []]. destruct (build w s) as [r s1]. intros [= <-]. mv_same.
    + case_match; intros [= <-]; mv_same.
    + intros [= <-]. destruct (afterWrite_aux ready m g s) as [l []]. mv_same.
    + intros [= <-]. unfold slot_wf in Hwf. rewrite Es in Hwf. destruct Hwf as [Hw _].
      rewrite continue_slot. destruct (continue_same t res s) as (El & Ew & Ef & E).
      eapply mv_continue; [done | done | by right | done..].
Qed.

Lemma continue_others t res s :
  (t <> TBridge -> r_bridge (continue t res s) = r_bridge s) /\
  (t <> TSelect -> r_select (continue t res s) = r_select s) /\
  (forall j, t <> TPlayer j -> r_players (continue t res s) !! j = r_players s !! j).
Proof.
  destruct t as [| |i]; simpl.
  - destruct (r_bridge s) eqn:E; auto; split_and!; try done.
  - destruct (r_select s) eqn:E; auto; destruct res, k; auto; split_and!; try done.
  - split_and!; try done. intros j Hj. usimpl. rewrite list_lookup_alter_ne; [done|congruence].
Qed.

Lemma writing_stable c s s' t w ph :
  slot_wf s -> rstep c s s' -> writing t s = Some w -> r_slot s' = Some (t, w, ph) -> writing t s' = Some w.
Proof.
  intros Hwf Hst Hw Hs'. destruct (rstep_moved _ _ _ Hwf Hst) as [l Hb Hs Hp | Hb Ho Hs Hp | Hs Ho Hb Hp
    | i gen p p' Hi Hne Hp Hb Hs | t' w' res Hw' Hno Hres Hl Hfw Hff Hb Hs Hp].
  - destruct t as [| |j]; simpl in *; [by rewrite Hb | by rewrite Hs |].
    rewrite Hp. destruct (r_players s !! j) eqn:E; [|done]. by erewrite lookup_app_l_Some.
  - destruct t as [| |j]; simpl in *; [by destruct (r_bridge s) | by rewrite Hs | by rewrite Hp].
  - destruct t as [| |j]; simpl in *; [by rewrite Hb | by destruct (r_select s) | by rewrite Hp].
  - destruct t as [| |j]; simpl in *; [by rewrite Hb | by rewrite Hs |].
    rewrite Hp. destruct (decide (i = j)) as [->|Hij]; [|by rewrite list_lookup_insert_ne].
    rewrite Hi in Hw. by destruct p.
  - assert (t <> t') as Hne.
    { intros ->. rewrite Hw' in Hw. simplify_eq. by destruct (Hno ph). }
    destruct (continue_others t' res s) as (Ho1 & Ho2 & Ho3).
    destruct t as [| |j]; simpl.
    + rewrite Hb, Ho1 by congruence. done.
    + rewrite Hs, Ho2 by congruence. done.
    + rewrite Hp, Ho3 by congruence. done.
Qed.

Lemma build_msg w s m g : fst (build w s) = Some (m, g) -> msg_of w m.
Proof.
  destruct w; simpl; repeat case_match; simpl; intros; simplify_eq/=; auto.
Qed.

Lemma slot_wf_step c s s' : slot_wf s -> rstep c s s' -> slot_wf s'.
Proof.
  intros Hwf Hst. pose proof (writing_stable c s s') as Hws.
  destruct (rstep_sum _ _ _ Hst) as [l [_ _ _ Hm]]. unfold slot_wf in *.
  destruct Hm as [_ E | t w _ E Hw E' | t w _ E E' | t w m g _ E E' | t w m g _ E E' | t w m g _ E E' | t w res _ E E' Esel].
  all: rewrite ?E in *; rewrite ?E' in *.
  - destruct (r_slot s) as [[[t w] ph]|] eqn:Es; [|done]. destruct Hwf. split; eauto.
  - split; eauto.
  - destruct Hwf as [Hw _]. split; [eauto|]. destruct (fst (build w s)) as [[m g]|] eqn:Eb; [|done].
    by eapply build_msg.
  - destruct Hwf. split; eauto.
  - destruct Hwf. split; eauto.
  - destruct Hwf. split; eauto.
  - done.
Qed.

Lemma rt_init_slot c now : r_slot (rt_init c now) = None.
Proof.
  unfold rt_init, with_filler. usimpl. destruct (newFiller _); [|done]. by destruct (armFiller _ _ _ _).
Qed.

Lemma slot_wf_reach c now s : rreach c now s -> slot_wf s.
Proof. induction 1; [unfold slot_wf; by rewrite rt_init_slot | by eapply slot_wf_step]. Qed.
