(* ===== verification/SinkWire.v ===== *)
(** * SinkWire: the order of frames, clears and marks on the carrier's wire

    A clear ends the filler's episodes for the wire; a reply that interrupted
    the loop follows the clear that discards it; nothing interleaves with the
    farewell. *)

From S2P Require Export SinkInv.
From S2P Require Import Filler Silence Marks.

(** ** Episodes that are over *)

Definition nofiller (d : nat) (l : list tev) : Prop :=
  forall g p, TvWire (WmMedia (SrcFiller g) p) ∈ l -> (d <= g)%nat.

(** Every episode below [d] is over: the machine is past it and no frame of it
    is about to be written. *)
Definition over (d : nat) (s : rt) : Prop :=
  (d <= fill_gen s)%nat /\
  match r_slot s with
  | Some (_, _, PhWrite (WmMedia (SrcFiller g) _) _) => (d <= g)%nat
  | _ => True
  end.

Lemma fle_gen s s' : fle (r_filler s) (r_filler s') -> (fill_gen s <= fill_gen s')%nat.
Proof. unfold fle, fill_gen. repeat case_match; intuition. Qed.

Lemma nofiller_nowire d l : nowire l -> nofiller d l.
Proof.
  intros H g p Hin. unfold nowire in H. rewrite forallb_forall in H.
  apply list_elem_of_In in Hin. by apply H in Hin.
Qed.

Lemma nofiller_app d l l' : nofiller d l -> nofiller d l' -> nofiller d (l ++ l').
Proof. intros H H' g p [Hin|Hin]%elem_of_app; eauto. Qed.

Lemma nofiller_le d d' l : (d <= d')%nat -> nofiller d' l -> nofiller d l.
Proof. intros Hd H g p Hin. apply H in Hin. lia. Qed.

Lemma build_filler_gen w s g p g' :
  fst (build w s) = Some (WmMedia (SrcFiller g) p, g') -> g = fill_gen s.
Proof.
  destruct w; simpl; repeat case_match; simpl; intros; simplify_eq/=.
  unfold fill_gen. revert H0. rewrite H. unfold nextFrame.
  destruct (f_gen f =? g)%nat eqn:E; [apply Nat.eqb_eq in E|]; repeat case_match; simpl; intros; simplify_eq; auto;
    by rewrite ?orb_true_r in *.
Qed.

Lemma over_step c s s' l d : rstep c s s' -> rsum s s' l -> over d s -> over d s' /\ nofiller d l.
Proof.
  intros Hst [_ Hf _ Hm] [Hg Hs]. apply fle_gen in Hf.
  assert (d <= fill_gen s')%nat as Hg' by lia. unfold over.
  destruct Hm as [Hl E | t w Hl E Hw E' | t w Hl E E' | t w m g -> E E' | t w m g Hl E E' | t w m g Hl E E' | t w res Hl E E' Esel];
    rewrite ?E'; try (split; [by split | by apply nofiller_nowire]).
  - rewrite E. split; [by split | by apply nofiller_nowire].
  - split; [|by apply nofiller_nowire]. split; [done|].
    destruct (fst (build w s)) as [[m g]|] eqn:Eb; [|done].
    destruct m as [[|g'|] p| |]; try done. apply build_filler_gen in Eb. lia.
  - split; [by split|]. intros g' p Hin%list_elem_of_singleton. simplify_eq. by rewrite E in Hs.
Qed.

(** ** Clears and the frames behind them *)

(** The loop was stopped at generation [g]; [d] is the generation after. *)
Definition edge (d : nat) (l : list tev) : Prop := exists g, d = S g /\ TvStopEdge g ∈ l.

Definition cleared (d : nat) (l : list tev) : Prop :=
  exists g d' a1 a2 a3, d = S g /\ (d <= d')%nat /\
    l = a1 ++ TvStopEdge g :: a2 ++ TvWire (WmClear d') :: a3.

Lemma edge_app d l l' : edge d l -> edge d (l ++ l').
Proof. intros (g & -> & H). exists g. split; [done|]. set_solver. Qed.

Lemma cleared_app d l l' : cleared d l -> cleared d (l ++ l').
Proof.
  intros (g & d' & a1 & a2 & a3 & -> & Hd & ->). exists g, d', a1, a2, (a3 ++ l').
  split_and!; [done..|]. by rewrite <- !app_assoc, <- !app_comm_cons, <- app_assoc.
Qed.

Lemma edge_cleared d d' l : edge d l -> (d <= d')%nat -> cleared d (l ++ [TvWire (WmClear d')]).
Proof.
  intros (g & -> & H) Hd. apply list_elem_of_split in H as (a1 & a2 & ->).
  exists g, d', a1, a2, []. split_and!; [done..|]. by rewrite <- app_assoc.
Qed.

Definition kinv (k : bcont) (s : rt) : Prop :=
  match k with KRead => True | KMedia _ d => edge d (r_log s) /\ (d <= fill_gen s)%nat end.

(** The bridge's progress inside the slot. *)
Definition bslot (s : rt) : option phase :=
  match r_slot s with Some (TBridge, _, ph) => Some ph | _ => None end.

Definition cslot (d : nat) (s : rt) : Prop :=
  match bslot s with
  | Some (PhAfter _ _) | Some (PhRelease RWrote) => cleared d (r_log s)
  | Some (PhRelease RDeclined) => r_farewelling s = true
  | _ => True
  end.

Definition binv (s : rt) : Prop :=
  match r_bridge s with
  | BClear k | BClearStop k => kinv k s
  | BWrite (WqClear d') k =>
      (d' <= fill_gen s)%nat /\
      match k with KRead => True | KMedia _ d => edge d (r_log s) /\ (d <= d')%nat /\ cslot d s end
  | BWrite (WqMedia _ (Some d)) k => k = KRead /\ (r_farewelling s = true \/ cleared d (r_log s))
  | BWrite (WqMedia _ None) k => k = KRead
  | BWrite _ _ => False
  | _ => True
  end.

(** What the select loop may be writing. *)
Definition sinv (s : rt) : Prop :=
  match r_select s with
  | SWrite (WqClear d) _ (KFwFlag _) => (d <= fill_gen s)%nat
  | SWrite (WqFarewell _) _ (KFwFrames _ _) => True
  | SWrite (WqMark _) _ (KLoop | KFwWait _ _) => True
  | SWrite (WqPlayout _ _) _ KLoop => True
  | SWrite _ _ _ => False
  | _ => True
  end.

Lemma kinv_mono s s' l k :
  r_log s' = r_log s ++ l -> (fill_gen s <= fill_gen s')%nat -> kinv k s -> kinv k s'.
Proof. destruct k; simpl; [done|]. intros -> Hg [He Hd]. split; [by apply edge_app | lia]. Qed.

Lemma cslot_step s s' l d d' k :
  slot_wf s -> r_bridge s = BWrite (WqClear d') k -> rsum s s' l -> edge d (r_log s) -> (d <= d')%nat ->
  cslot d s -> cslot d s'.
Proof.
  intros Hwf Hb [Hlog Hf Hfw Hm] He Hd Hc. unfold cslot, bslot in *.
  destruct Hm as [Hl E | t w Hl E Hw E' | t w Hl E E' | t w m g -> E E' | t w m g Hl E E' | t w m g Hl E E' | t w res Hl E E' Esel];
    rewrite ?E', ?E in *; try (by destruct t).
  - destruct (r_slot s) as [[[[] w] [| | |[]]]|]; rewrite ?Hlog; auto using cleared_app.
  - destruct t; [|done..]. unfold slot_wf in Hwf. rewrite E in Hwf. destruct Hwf as [Hw _].
    simpl in Hw. rewrite Hb in Hw. simplify_eq. simpl. destruct (r_farewelling s) eqn:Efw; auto.
  - destruct t; [|done..]. unfold slot_wf in Hwf. rewrite E in Hwf. destruct Hwf as [Hw Hmsg].
    simpl in Hw. rewrite Hb in Hw. simplify_eq. destruct m as [[]| |]; try done. simpl in Hmsg. subst.
    rewrite Hlog. by eapply edge_cleared.
  - destruct t; [|done..]. rewrite Hlog. by apply cleared_app.
Qed.

Lemma binv_frame s s' l :
  slot_wf s -> rsum s s' l -> r_bridge s' = r_bridge s -> binv s -> binv s'.
Proof.
  intros Hwf Hsum Hb. pose proof Hsum as [Hlog Hf Hfw _]. apply fle_gen in Hf.
  unfold binv. rewrite Hb. destruct (r_bridge s) as [| | | | | | |k|k|w k| |] eqn:Eb; auto.
  - by eapply kinv_mono.
  - by eapply kinv_mono.
  - destruct w as [p [d|]| | |d'| |]; auto.
    + intros [-> [H|H]]; split; auto. right. rewrite Hlog. by apply cleared_app.
    + intros [Hd Hk]. split; [lia|]. destruct k as [|p d]; [done|]. destruct Hk as (He & Hdd & Hc).
      split_and!; [rewrite Hlog; by apply edge_app | done | by eapply cslot_step].
Qed.

Lemma fill_stop_edge s s1 : fill_stop s = (true, s1) -> edge (fill_gen s1) (r_log s1).
Proof.
  unfold fill_stop, fill_gen, with_filler. destruct (r_filler s) as [f|] eqn:Ef; [|done].
  intros H. destruct (f_playing f) eqn:Ep; simplify_eq. usimpl.
  exists (f_gen f). split; [done|]. set_solver.
Qed.

Lemma fill_stop_sum s : exists l, rsum s (snd (fill_stop s)) l.
Proof. destruct (fill_stop_aux s) as [l Hl]. exists l. by apply rsum_aux. Qed.

Lemma bslot_none s : slot_wf s -> writes_b (r_bridge s) = false -> bslot s = None.
Proof.
  unfold slot_wf, bslot. intros Hwf Hb. destruct (r_slot s) as [[[[] w] ph]|]; try done.
  destruct Hwf as [Hw _]. simpl in Hw. by destruct (r_bridge s).
Qed.

(** The goroutine's own steps. *)
Lemma bridge_local_binv s s' : slot_wf s -> bridge_local s = Some s' -> binv s -> binv s'.
Proof.
  intros Hwf. unfold bridge_local, binv. destruct (r_bridge s) as [| | |ev|p|p| |k|k|w k|tr|] eqn:Eb; try discriminate.
  - intros [= <-] _. done.
  - intros [= <-] _. done.
  - intros [= <-] _. usimpl. unfold dispatch. repeat case_match; done.
  - intros [= <-] _. usimpl. by destruct (r_farewelling s).
  - pose proof (fill_stop_edge s) as He. destruct (fill_stop s) as [was s1]. intros [= <-] _.
    usimpl. destruct was; [|done]. split; [exact (He s1 eq_refl) | done].
  - intros [= <-] _. done.
  - intros [= <-] Hk. usimpl. destruct (r_farewelling s) eqn:Ef; [|done].
    destruct k; simpl; auto.
  - intros [= <-] Hk. usimpl. split; [done|]. destruct k as [|p d]; [done|].
    destruct (fill_stop_aux s) as [l [Al _ Af Asl _ _ _ _ _]]. apply fle_gen in Af. destruct Hk as [He Hd].
    split_and!; [by rewrite Al; apply edge_app | usimpl; unfold fill_gen in *; simpl in *; lia |].
    unfold cslot. replace (bslot _) with (@None phase); [done|].
    unfold bslot; usimpl. rewrite Asl. symmetry. by apply (bslot_none s); [|rewrite Eb].
  - case_match; intros; simplify_eq. done.
Qed.

(** Leaving a write, the slot released or never got. *)
Lemma bridge_continue_binv s s' w k :
  r_bridge s = BWrite w k -> r_log s' = r_log s -> r_farewelling s' = r_farewelling s ->
  r_bridge s' = bridge_continue k ->
  (forall d', w = WqClear d' -> forall p d, k = KMedia p d -> r_farewelling s = true \/ cleared d (r_log s)) ->
  binv s -> binv s'.
Proof.
  intros Hb Hl Hf Hb' Hc. unfold binv. rewrite Hb, Hb'.
  destruct k as [|p d]; simpl; [done|]. rewrite Hl, Hf.
  destruct w as [? [?|]| | |d'| |]; try done.
  - intros [[=] _].
  - intros _. split; [done|]. by eapply Hc.
Qed.

Lemma binv_step c s s' : slot_wf s -> rstep c s s' -> binv s -> binv s'.
Proof.
  intros Hwf Hst Hb. destruct (rstep_sum _ _ _ Hst) as [l Hsum].
  destruct (rstep_moved _ _ _ Hwf Hst) as [l' Eb Es Ep | Hw [Ho|Ho] Es Ep | Hw Ho Eb Ep
    | i gen p p' Hi Hne Ep Eb Es | t w res Hw Hno Hres El Ew Ef Eb Es Ep].
  - by eapply binv_frame.
  - by eapply bridge_local_binv.
  - unfold binv. by destruct (r_bridge s').
  - by eapply binv_frame.
  - by eapply binv_frame.
  - destruct t; [|eapply binv_frame; try done; rewrite Eb; apply (continue_others _ _ s); done..].
    simpl in Hw, Eb. destruct (r_bridge s) as [| | | | | | | | |w' k| |] eqn:Eq; simplify_eq.
    destruct res; [eapply bridge_continue_binv; try done | eapply bridge_continue_binv; try done|].
    3: by unfold binv; rewrite Eb.
    all: intros d' -> p d ->; destruct Hres as [Hres|Hres]; [done|].
    all: unfold binv in Hb; rewrite Eq in Hb; destruct Hb as (_ & _ & _ & Hc).
    all: unfold cslot, bslot in Hc; rewrite Hres in Hc; auto.
Qed.

(** ** The select loop's writes *)

Lemma sinv_frame s s' l : rsum s s' l -> r_select s' = r_select s -> sinv s -> sinv s'.
Proof.
  intros [_ Hf _ _] Hs. apply fle_gen in Hf. unfold sinv. rewrite Hs.
  repeat case_match; try done. lia.
Qed.

Lemma sinv_finish c e s : sinv (finish e s) /\ sinv (endWithFarewell c e s).
Proof. split; [done|]. unfold endWithFarewell. by case_match. Qed.

Lemma select_local_sinv c s s' : select_local c s = Some s' -> sinv s'.
Proof.
  unfold select_local. destruct (r_select s); try discriminate.
  - repeat case_match; intros [= <-]; try done; apply (sinv_finish c).
  - repeat case_match; by intros [= <-].
  - repeat case_match; by intros [= <-].
  - by intros [= <-].
  - intros [= <-]. unfold sinv. usimpl. by destruct (r_farewelling s).
  - intros [= <-]. unfold sinv. by usimpl.
  - by intros [= <-].
  - by intros [= <-].
  - intros [= <-]. unfold farewell_next. repeat case_match; done.
  - case_match; by intros [= <-].
  - by intros [= <-].
  - by intros [= <-].
  - by intros [= <-].
Qed.

Lemma select_case_sinv c k s s' : r_select s = SLoop -> select_case c k s = Some s' -> sinv s'.
Proof.
  intros Hs H. destruct k; simpl in H; repeat case_match; simplify_eq; try done;
    try apply (sinv_finish c); unfold sinv; usimpl; by rewrite Hs.
Qed.

Lemma sinv_step c s s' : slot_wf s -> rstep c s s' -> sinv s -> sinv s'.
Proof.
  intros Hwf Hst Hs. destruct (rstep_sum _ _ _ Hst) as [l Hsum].
  destruct (rstep_moved _ _ _ Hwf Hst) as [l' Eb Es Ep | Hw Ho Es Ep | Hw [Ho|[Hl [k Ho]]] Eb Ep
    | i gen p p' Hi Hne Ep Eb Es | t w res Hw Hno Hres El Ew Ef Eb Es Ep];
    try (by eapply sinv_frame); eauto using select_local_sinv, select_case_sinv.
  destruct t; try (eapply sinv_frame; try done; rewrite Es; apply (continue_others _ _ s); done).
  simpl in Es, Hw. destruct (r_select s) eqn:Eq; try done.
  unfold sinv. rewrite Es. by destruct res, k.
Qed.

(** ** The wire *)

(** Splitting an extended log at one of its events. *)
Lemma log_split {A} (l l' a b : list A) x :
  l ++ l' = a ++ x :: b ->
  (exists b', b = b' ++ l' /\ l = a ++ x :: b') \/ (exists a', a = l ++ a' /\ l' = a' ++ x :: b).
Proof.
  intros H. apply app_eq_inv in H as [(m & -> & Hx)|(m & -> & ->)].
  - destruct m as [|y m]; simpl in *; [right; exists []; by rewrite !app_nil_r, Hx|].
    left. simplify_eq. eauto.
  - right. eauto.
Qed.

Lemma nowire_no_event l a m b : nowire l -> l = a ++ TvWire m :: b -> False.
Proof. intros H ->. unfold nowire in H. rewrite forallb_app in H. by apply andb_true_iff in H as [_ H]. Qed.

Definition clears (s : rt) : Prop :=
  forall a d b, r_log s = a ++ TvWire (WmClear d) :: b -> over d s /\ nofiller d b.

Definition replies (s : rt) : Prop :=
  forall a d p b, r_log s = a ++ TvWire (WmMedia (SrcBackend (Some d)) p) :: b -> cleared d a.

(** A reply frame in the slot that is past its gate follows its clear. *)
Definition mslot (s : rt) : Prop :=
  match r_slot s with
  | Some (_, WqMedia _ (Some d), PhWrite _ _) => cleared d (r_log s)
  | _ => True
  end.

Record wire_inv (s : rt) : Prop := mkWireInv {
  wi_slot : slot_wf s; wi_bridge : binv s; wi_select : sinv s;
  wi_mslot : mslot s; wi_clears : clears s; wi_replies : replies s
}.

Lemma writing_clear s t d : binv s -> sinv s -> writing t s = Some (WqClear d) -> (d <= fill_gen s)%nat.
Proof.
  intros Hb Hs. destruct t; simpl.
  - unfold binv in Hb. destruct (r_bridge s); try done. intros [= ->]. apply Hb.
  - unfold sinv in Hs. destruct (r_select s); try done. intros [= ->]. by destruct k.
  - by repeat case_match.
Qed.

Lemma writing_reply s t p d : binv s -> sinv s -> writing t s = Some (WqMedia p (Some d)) ->
  r_farewelling s = true \/ cleared d (r_log s).
Proof.
  intros Hb Hs. destruct t; simpl.
  - unfold binv in Hb. destruct (r_bridge s); try done. intros [= ->]. apply Hb.
  - unfold sinv in Hs. destruct (r_select s); try done. by intros [= ->].
  - by repeat case_match.
Qed.

Lemma mslot_step s s' l : slot_wf s -> binv s -> sinv s -> rsum s s' l -> mslot s -> mslot s'.
Proof.
  intros Hwf Hb Hs [Hlog _ _ Hm] H. unfold mslot in *.
  destruct Hm as [Hl E | t w Hl E Hw E' | t w Hl E E' | t w m g -> E E' | t w m g Hl E E' | t w m g Hl E E' | t w res Hl E E' Esel];
    rewrite ?E', ?E in *; try (by repeat case_match).
  - destruct (r_slot s) as [[[t w] ph]|]; [|done]. repeat case_match; try done. rewrite Hlog. by apply cleared_app.
  - unfold slot_wf in Hwf. rewrite E in Hwf. destruct Hwf as [Hw _].
    destruct w as [p [d|]| | | | |]; try (by repeat case_match).
    pose proof (writing_reply _ _ _ _ Hb Hs Hw) as [Hr|Hr]; [simpl; by rewrite Hr|].
    simpl. destruct (r_farewelling s); [done|]. rewrite Hlog. by apply cleared_app.
Qed.

Lemma clears_step c s s' l : wire_inv s -> rstep c s s' -> rsum s s' l -> clears s'.
Proof.
  intros [Hwf Hb Hs _ Hc _] Hst Hsum a d b Hlog. pose proof Hsum as [Hl _ _ Hm].
  rewrite Hl in Hlog. apply log_split in Hlog as [(b' & -> & Hlog)|(a' & -> & ->)].
  - apply Hc in Hlog as [Ho Hn]. destruct (over_step _ _ _ _ _ Hst Hsum Ho) as [Ho' Hn'].
    split; [done | by apply nofiller_app].
  - destruct Hm as [Hn _|? ? Hn|? ? Hn|t w m g Heq E E'|? ? ? ? Hn|? ? ? ? Hn|? ? ? Hn];
      try (exfalso; by eapply nowire_no_event).
    destruct a' as [|? [|? ?]]; simplify_eq/=.
    unfold slot_wf in Hwf. rewrite E in Hwf. destruct Hwf as [Hw Hmsg].
    assert (w = WqClear d) as -> by (destruct w; try done; simpl in Hmsg; by subst).
    pose proof (writing_clear _ _ _ Hb Hs Hw). destruct Hsum as [_ Hf _ _]. apply fle_gen in Hf.
    split; [split; [lia | by rewrite E'] | by apply nofiller_nowire].
Qed.

Lemma replies_step s s' l : wire_inv s -> rsum s s' l -> replies s'.
Proof.
  intros [Hwf Hb Hs Hms _ Hr] [Hl _ _ Hm] a d p b Hlog.
  rewrite Hl in Hlog. apply log_split in Hlog as [(b' & -> & Hlog)|(a' & -> & ->)].
  - by eapply Hr.
  - destruct Hm as [Hn _|? ? Hn|? ? Hn|t w m g Heq E E'|? ? ? ? Hn|? ? ? ? Hn|? ? ? Hn];
      try (exfalso; by eapply nowire_no_event).
    destruct a' as [|? [|? ?]]; simplify_eq/=.
    unfold slot_wf in Hwf. rewrite E in Hwf. destruct Hwf as [Hw Hmsg].
    unfold mslot in Hms. rewrite E in Hms.
    destruct w; try done; simpl in Hmsg; destruct_and?; simplify_eq. by rewrite app_nil_r.
Qed.

Lemma wire_inv_init c now : wire_inv (rt_init c now).
Proof.
  assert (H : exists f tm, rt_init c now =
    (mkRt now f (r_marks (rt_init c now)) (newCallerSilence (cfg_callerSilenceTimeout c)) tm None now false
      (r_carrierAudio (rt_init c now)) BRead SLoop DRecv [] [] O [] false
      (newIdleGuard (cfg_idleTimeout c) now) false false false false [])).
  { unfold rt_init, with_filler. usimpl. destruct (newFiller _); [|eauto].
    destruct (armFiller _ _ _ _). eauto. }
  destruct H as (f & tm & ->). constructor; try done; [intros a ? ? H | intros a ? ? ? H]; by destruct a.
Qed.

Lemma wire_inv_reach c now s : rreach c now s -> wire_inv s.
Proof.
  induction 1 as [|s s' _ IH Hst]; [apply wire_inv_init|].
  destruct (rstep_sum _ _ _ Hst) as [l Hsum]. pose proof IH as [Hwf Hb Hs Hms Hc Hr].
  constructor; eauto using slot_wf_step, binv_step, sinv_step, mslot_step, clears_step, replies_step.
Qed.

(** ** The farewell's frames *)

Definition wires (l : list tev) : list wmsg := omap (fun e => match e with TvWire m => Some m | _ => None end) l.

Definition is_farewell (m : wmsg) : bool := match m with WmMedia SrcFarewell _ => true | _ => false end.

Definition no_farewell (l : list wmsg) : Prop := forallb (fun m => negb (is_farewell m)) l = true.

(** The clip's frames in order, then the mark behind them. *)
Definition farewell_script (c : config) : list wmsg :=
  map (WmMedia SrcFarewell) (farewell_frames c) ++ [WmMark (farewell_mark c)].

Lemma wires_app l l' : wires (l ++ l') = wires l ++ wires l'.
Proof. apply omap_app. Qed.

Lemma wires_nowire l : nowire l -> wires l = [].
Proof. induction l as [|[] l IH]; simpl; auto; intros H; done. Qed.

Lemma no_farewell_app l l' : no_farewell l -> no_farewell l' -> no_farewell (l ++ l').
Proof. unfold no_farewell. rewrite forallb_app. by intros -> ->. Qed.

(** The goodbye owns the carrier: the gate is closed and the filler is off. *)
Definition owned (s : rt) : Prop :=
  r_farewelling s = true /\ match r_filler s with Some f => f_stopped f = true | None => True end.

Definition owned_slot (s : rt) : Prop :=
  match r_slot s with Some (t, _, PhWrite _ _) => t = TSelect | _ => True end.

(** The select loop's write is on the wire but not yet behind it. *)
Definition sslot (s : rt) : option phase := match r_slot s with Some (TSelect, _, ph) => Some ph | _ => None end.
Definition wrote (s : rt) : nat :=
  match sslot s with Some (PhAfter _ _) | Some (PhRelease RWrote) => 1%nat | _ => O end.
Definition undeclined (s : rt) : Prop := sslot s <> Some (PhRelease RDeclined).

(** How much of the script is on the wire, by where the select loop is. *)
Definition spos (c : config) (k : nat) (s : rt) : Prop :=
  match r_select s with
  | SFwFrames _ rest => (k <= length (farewell_frames c))%nat /\ rest = drop k (farewell_frames c) /\ owned s
  | SWrite (WqFarewell p) _ (KFwFrames _ rest) =>
      exists j, p :: rest = drop j (farewell_frames c) /\ k = (j + wrote s)%nat /\ undeclined s /\ owned s
  | SWrite (WqMark n) _ (KFwWait _ _) =>
      n = farewell_mark c /\ k = (length (farewell_frames c) + wrote s)%nat /\ undeclined s /\ owned s
  | SFwShutdown _ => k = O /\ r_farewelling s = true
  | SFwWait _ _ | SDeferFill _ | SDeferMarks _ | SDeferSilence _ | SDone _ => True
  | _ => k = O
  end.

Record finv (c : config) (s : rt) (pre : list wmsg) (k : nat) : Prop := mkFinv {
  fi_wires : wires (r_log s) = pre ++ take k (farewell_script c);
  fi_pre : no_farewell pre;
  fi_owned : (0 < k)%nat -> owned s /\ owned_slot s;
  fi_pos : spos c k s
}.

Lemma owned_mono s s' l : rsum s s' l -> owned s -> owned s'.
Proof.
  intros [_ Hf Hw _] [H1 H2]. split; [by apply Hw|]. unfold fle in Hf.
  repeat case_match; try done. by apply Hf.
Qed.

(** Nobody else passes the gate once it is closed. *)
Lemma build_owned s t w : binv s -> writing t s = Some w -> t <> TSelect -> owned s -> fst (build w s) = None.
Proof.
  intros Hb Hw Ht [Hf Hs]. destruct t; [|done|]; simpl in Hw.
  - unfold binv in Hb. destruct (r_bridge s) as [| | | | | | | | |w' k| |]; simplify_eq.
    destruct w as [? [?|]| | | | |]; try done; simpl; by rewrite Hf.
  - destruct (r_players s !! i) as [[g []]|]; simplify_eq. simpl.
    destruct (r_filler s) as [f|]; [|done]. unfold nextFrame. by rewrite Hs.
Qed.

Lemma owned_slot_step s s' l : slot_wf s -> binv s -> rsum s s' l -> owned s -> owned_slot s -> owned_slot s'.
Proof.
  intros Hwf Hb [_ _ _ Hm] Ho Hs. unfold owned_slot in *.
  destruct Hm as [Hl E | t w Hl E Hw E' | t w Hl E E' | t w m g -> E E' | t w m g Hl E E' | t w m g Hl E E' | t w res Hl E E' Esel];
    rewrite ?E', ?E in *; try done.
  unfold slot_wf in Hwf. rewrite E in Hwf. destruct Hwf as [Hw _].
  destruct (decide (t = TSelect)) as [->|Ht]; [by repeat case_match|].
  by rewrite (build_owned s t w).
Qed.

(** Messages of the others are not farewell frames. *)
Lemma others_no_farewell s t w m : slot_wf s -> binv s -> writing t s = Some w -> t <> TSelect -> msg_of w m ->
  no_farewell [m].
Proof.
  intros Hwf Hb Hw Ht Hm. unfold no_farewell. simpl. rewrite andb_true_r.
  destruct t; [|done|]; simpl in Hw.
  - unfold binv in Hb. destruct (r_bridge s) as [| | | | | | | | |w' k| |]; simplify_eq.
    destruct w as [? [?|]| | | | |], m as [[]| |]; done.
  - destruct (r_players s !! i) as [[g []]|]; simplify_eq. by destruct m as [[]| |].
Qed.

Lemma sslot_wf s ph : slot_wf s -> sslot s = Some ph ->
  exists w d k, r_select s = SWrite w d k /\ r_slot s = Some (TSelect, w, ph).
Proof.
  unfold slot_wf, sslot. destruct (r_slot s) as [[[[] w] ph']|]; try done.
  intros [Hw _] [= ->]. simpl in Hw. destruct (r_select s); simplify_eq. eauto.
Qed.

Lemma sslot_none s : slot_wf s -> writes_s (r_select s) = false -> sslot s = None.
Proof.
  intros Hwf Hw. destruct (sslot s) eqn:E; [|done].
  apply sslot_wf in E as (w & d & k & E & _); [|done]. by rewrite E in Hw.
Qed.

(** A step that neither writes nor moves the select loop. *)
Lemma spos_frame c s s' k :
  r_select s' = r_select s -> (owned s -> owned s') -> (r_farewelling s = true -> r_farewelling s' = true) ->
  (writes_s (r_select s) = true -> wrote s' = wrote s /\
     (undeclined s -> match r_select s with SWrite (WqFarewell _ | WqMark _) _ _ => undeclined s' | _ => True end)) ->
  spos c k s -> spos c k s'.
Proof.
  intros Hs Ho Hf Hw. unfold spos. rewrite Hs. destruct (r_select s) as [| | | | | | | | | | |w d kk| | | |]; auto.
  - intros [? ?]; auto.
  - intros (? & ? & ?); auto.
  - destruct (Hw eq_refl) as [Ew Hu]. destruct w, kk; auto.
    + intros (j & H1 & H2 & H3 & H4). exists j. rewrite Ew. split_and!; auto.
    + intros (H1 & H2 & H3 & H4). rewrite Ew. split_and!; auto.
Qed.

Lemma spos_same c s s' l k :
  slot_wf s -> rsum s s' l -> nowire l -> r_select s' = r_select s -> spos c k s -> spos c k s'.
Proof.
  intros Hwf Hsum Hl Hs. pose proof Hsum as [_ _ Hfw Hm].
  apply spos_frame; [done | by eapply owned_mono | done |]. intros Hw.
  unfold wrote, undeclined, sslot, slot_wf in *.
  destruct Hm as [_ E | t w _ E Hw' E' | t w _ E E' | t w m g -> E E' | t w m g _ E E' | t w m g _ E E' | t w res _ E E' Esel];
    rewrite ?E', ?E in *.
  1: split; [done | intros; by repeat case_match].
  1,2,3,4: destruct t; (split; [|intros]); try done; try (by repeat case_match).
  - destruct Hwf as [Hw' _]. simpl in Hw'. destruct (r_select s); simplify_eq. by destruct w.
  - destruct t; (split; [|intros]); try done; by repeat case_match.
  - destruct t; [by split; [|repeat case_match]| |by split; [|repeat case_match]].
    exfalso. simpl in Esel. destruct (r_select s) as [| | | | | | | | | | |w1 d1 k1| | | |]; try done.
    rewrite Hs in Esel. by destruct res, k1.
Qed.

Lemma finv_nowire c s s' l pre k :
  slot_wf s -> binv s -> rsum s s' l -> nowire l -> spos c k s' -> finv c s pre k -> finv c s' pre k.
Proof.
  intros Hwf Hb Hsum Hl Hp [Hw Hpre Ho _]. pose proof Hsum as [Hlog _ _ _]. constructor; try done.
  - rewrite Hlog, wires_app, (wires_nowire l), app_nil_r by done. done.
  - intros Hk. destruct (Ho Hk) as [Ho1 Ho2]. split; [by eapply owned_mono | by eapply owned_slot_step].
Qed.

Lemma take_script_frame c j p rest : p :: rest = drop j (farewell_frames c) ->
  take (j + 1) (farewell_script c) = take j (farewell_script c) ++ [WmMedia SrcFarewell p].
Proof.
  intros H. replace (j + 1)%nat with (S j) by lia. apply take_S_r. unfold farewell_script.
  assert (farewell_frames c !! j = Some p) as Hj
    by (rewrite <- (Nat.add_0_r j), <- lookup_drop, <- H; done).
  rewrite lookup_app_l; [|rewrite length_map; by eapply lookup_lt_Some].
  by rewrite lookup_map, Hj.
Qed.

Lemma take_script_mark c : take (length (farewell_frames c) + 1) (farewell_script c) =
  take (length (farewell_frames c)) (farewell_script c) ++ [WmMark (farewell_mark c)].
Proof.
  replace (length (farewell_frames c) + 1)%nat with (S (length (farewell_frames c))) by lia.
  apply take_S_r. unfold farewell_script.
  rewrite lookup_app_r by (by rewrite length_map). by rewrite length_map, Nat.sub_diag.
Qed.

(** A message reaching the wire: somebody else's while nothing of the goodbye
    is out, or the script's next. *)
Lemma finv_write c s s' l t w m g pre k :
  slot_wf s -> binv s -> sinv s -> rsum s s' l -> l = [TvWire m] ->
  r_slot s = Some (t, w, PhWrite m g) -> r_slot s' = Some (t, w, PhAfter m g) -> r_select s' = r_select s ->
  finv c s pre k -> exists pre' k', finv c s' pre' k'.
Proof.
  intros Hwf Hb Hsi Hsum -> E E' Hs [Hw Hpre Ho Hp]. pose proof Hsum as [Hlog _ Hfw _].
  pose proof Hwf as Hwf'. unfold slot_wf in Hwf'. rewrite E in Hwf'. destruct Hwf' as [Hwr Hmsg].
  assert (Hwires : wires (r_log s') = wires (r_log s) ++ [m]) by (by rewrite Hlog, wires_app).
  assert (Hzero : no_farewell [m] -> k = O -> spos c 0 s' -> exists pre' k', finv c s' pre' k').
  { intros Hm -> Hp'. exists (pre ++ [m]), O. constructor.
    - rewrite Hwires, Hw. by rewrite !take_0, !app_nil_r.
    - by apply no_farewell_app.
    - lia.
    - done. }
  assert (Hone : forall j, k = j -> take (j + 1) (farewell_script c) = take j (farewell_script c) ++ [m] ->
    owned s -> t = TSelect -> spos c (j + 1) s' -> exists pre' k', finv c s' pre' k').
  { intros j -> Ht Hown -> Hp'. exists pre, (j + 1)%nat. constructor; [|done| |done].
    - by rewrite Hwires, Hw, Ht, <- app_assoc.
    - intros _. split; [by eapply owned_mono | unfold owned_slot; by rewrite E']. }
  assert (Hs0 : t = TSelect -> wrote s = O /\ wrote s' = 1%nat).
  { intros ->. unfold wrote, sslot. by rewrite E, E'. }
  destruct (decide (t = TSelect)) as [Ht|Ht].
  - destruct (Hs0 Ht) as [W W']. subst t. simpl in Hwr. unfold spos, sinv in *. rewrite Hs in *.
    assert (Hu : undeclined s') by (unfold undeclined, sslot; by rewrite E').
    destruct (r_select s) as [| | | | | | | | | | |w0 d kk| | | |]; simplify_eq.
    destruct w; try done; destruct kk; try done; destruct m as [[]| |]; simpl in Hmsg; try done; subst.
    + destruct Hp as (j & H1 & H2 & H3 & H4). rewrite W, Nat.add_0_r in H2.
      apply (Hone j); try done; [by eapply take_script_frame|].
      exists j. rewrite W'. split_and!; try done. by eapply owned_mono.
    + by apply Hzero.
    + by apply Hzero.
    + destruct Hp as (-> & H2 & H3 & H4). rewrite W, Nat.add_0_r in H2.
      apply (Hone (length (farewell_frames c))); try done; [by apply take_script_mark|].
      rewrite W'. split_and!; try done. by eapply owned_mono.
    + by apply Hzero.
  - assert (k = O) as ->.
    { destruct k; [done|]. destruct (Ho ltac:(lia)) as [_ Hos]. unfold owned_slot in Hos. by rewrite E in Hos. }
    apply Hzero; [by eapply others_no_farewell | done|].
    eapply spos_frame; [done | by eapply owned_mono | done | | exact Hp].
    intros _. unfold wrote, undeclined, sslot. rewrite E, E'. destruct t; (split; [|intros]); try done; by repeat case_match.
Qed.

(** The select loop's own statements. *)
Lemma fill_shutdown_off s : match r_filler (fill_shutdown s) with Some f => f_stopped f = true | None => True end.
Proof.
  unfold fill_shutdown, with_filler. destruct (r_filler s) eqn:E; [done | by rewrite E].
Qed.

Lemma select_local_spos c s s' k :
  slot_wf s -> select_local c s = Some s' -> spos c k s -> spos c k s'.
Proof.
  intros Hwf H. destruct (select_local_sum _ _ _ H) as [l Hloc].
  assert (Hw : writes_s (r_select s) = false) by (unfold select_local in H; by destruct (r_select s)).
  pose proof (owned_mono _ _ _ (rloc_sum _ _ _ Hloc)) as Ho. destruct Hloc as [_ _ _ Hfw Hslot].
  assert (Hsl : sslot s' = None) by (unfold sslot; rewrite Hslot; by apply sslot_none).
  assert (W : wrote s' = O) by (unfold wrote; by rewrite Hsl).
  assert (Hu : undeclined s') by (unfold undeclined; by rewrite Hsl).
  revert H. unfold select_local.
  destruct (r_select s) eqn:Es; try discriminate; unfold spos at 1; rewrite Es.
  - unfold endWithFarewell. repeat case_match; intros [= <-]; done.
  - repeat case_match; intros [= <-]; done.
  - repeat case_match; intros [= <-]; done.
  - by intros [= <-].
  - intros [= <-]. unfold spos. usimpl. by destruct (r_farewelling s).
  - by intros [= <-].
  - intros [= <-] ->. done.
  - intros [= <-] [-> Hf]. unfold spos. usimpl. split_and!; [lia | done |].
    pose proof (fill_shutdown_off s). split; [by apply Hfw | done].
  - intros [= <-] (Hk & -> & Hown). specialize (Ho Hown). revert W Hu Ho. unfold farewell_next.
    destruct (drop k (farewell_frames c)) as [|p rest] eqn:Ed.
    + destruct (marks_await _ _) as [ch s1]. intros W Hu Ho. unfold spos. simpl.
      assert (length (farewell_frames c) <= k)%nat by (apply (f_equal length) in Ed; rewrite length_drop in Ed; simpl in Ed; lia).
      split_and!; [done | simpl in W; rewrite W; lia | done..].
    + intros W Hu Ho. unfold spos. simpl. exists k. simpl in W. split_and!; [done | rewrite W; lia | done..].
  - case_match; by intros [= <-].
  - by intros [= <-].
  - by intros [= <-].
  - by intros [= <-].
Qed.

Lemma select_case_spos c k s s' n : r_select s = SLoop -> select_case c k s = Some s' -> spos c n s -> spos c n s'.
Proof.
  intros Hs H. unfold spos at 1. rewrite Hs. intros ->.
  destruct k; simpl in H; repeat case_match; simplify_eq; try done;
    unfold endWithFarewell, spos; usimpl; rewrite ?Hs; try done; by destruct (bool_decide (length (cfg_farewell c) = O)).
Qed.

Lemma select_continue_spos c s s' w d kk res k :
  r_select s = SWrite w d kk -> r_select s' = r_select (select_continue res kk s) ->
  res = RFailed \/ sslot s = Some (PhRelease res) -> (owned s -> owned s') -> sinv s ->
  spos c k s -> spos c k s'.
Proof.
  intros Hs Hs' Hres Ho Hsi. unfold sinv in Hsi. rewrite Hs in Hsi. unfold spos at 1. rewrite Hs. unfold spos. rewrite Hs'.
  destruct res; [destruct Hres as [|Hres]; [done|] | destruct Hres as [|Hres]; [done|] |].
  - destruct kk; simpl; try done; destruct w; try done.
    intros (j & Hj & -> & _ & Hown). unfold wrote. rewrite Hres.
    assert (Hlt : (j < length (farewell_frames c))%nat)
      by (apply (f_equal length) in Hj; rewrite length_drop in Hj; simpl in Hj; lia).
    split_and!; [lia | | auto].
    replace (j + 1)%nat with (1 + j)%nat by lia.
    by rewrite Nat.add_comm, <- drop_drop, <- Hj.
  - destruct kk; simpl; try done; destruct w; try done; intros; destruct_and?; unfold undeclined in *; try done.
    destruct H as (? & ? & ? & ? & ?); done.
  - by destruct kk.
Qed.

Lemma finv_step c s s' pre k : wire_inv s -> rstep c s s' -> finv c s pre k -> exists pre' k', finv c s' pre' k'.
Proof.
  intros [Hwf Hb Hsi _ _ _] Hst Hf. destruct (rstep_sum _ _ _ Hst) as [l Hsum].
  assert (Hnw : nowire l -> spos c k s' -> exists pre' k', finv c s' pre' k')
    by (intros; exists pre, k; by eapply finv_nowire).
  pose proof (owned_mono _ _ _ Hsum) as Hom.
  assert (Hsame : r_select s' = r_select s -> exists pre' k', finv c s' pre' k').
  { intros Hs. pose proof Hsum as [_ _ _ Hm].
    assert (Hsp : nowire l -> exists pre' k', finv c s' pre' k')
      by (intros Hl; apply Hnw; [done | eapply spos_same; try done; apply Hf]).
    destruct Hm; auto. by eapply finv_write. }
  destruct (rstep_moved _ _ _ Hwf Hst) as [l' Eb Es Ep | Hw Ho Es Ep | Hw [Ho|[Hl [kk Ho]]] Eb Ep
    | i gen p p' Hi Hne Ep Eb Es | t w res Hw Hno Hres El Ew Ef Eb Es Ep]; auto.
  - clear Hnw Hsame. destruct (select_local_sum _ _ _ Ho) as [l' Hloc].
    exists pre, k. eapply finv_nowire; [done | done | by apply rloc_sum | apply Hloc | | done].
    eapply select_local_spos; try done. apply Hf.
  - clear Hnw Hsame. destruct (select_case_sum _ _ _ _ Ho) as [l' Hloc].
    exists pre, k. eapply finv_nowire; [done | done | by apply rloc_sum | apply Hloc | | done].
    eapply select_case_spos; try done. apply Hf.
  - destruct (decide (t = TSelect)) as [->|Ht].
    + apply Hnw.
      * destruct Hsum as [Hlog _ _ _]. rewrite El in Hlog.
        apply (f_equal length) in Hlog. rewrite length_app in Hlog. destruct l; [done | simpl in Hlog; lia].
      * simpl in Hw, Es. destruct (r_select s) as [| | | | | | | | | | |w0 d kk| | | |] eqn:Eq; simplify_eq.
        eapply select_continue_spos; try done; [|apply Hf].
        destruct Hres as [|Hres]; [by left|]. right. unfold sslot. by rewrite Hres.
    + apply Hsame. rewrite Es. by apply (continue_others t res s).
Qed.

Lemma finv_reach c now s : rreach c now s -> exists pre k, finv c s pre k.
Proof.
  induction 1 as [|s s' Hr (pre & k & IH) Hst].
  - exists [], O. constructor; try done; try lia.
    + unfold rt_init, with_filler. usimpl. destruct (newFiller _); [|done]. by destruct (armFiller _ _ _ _).
    + unfold spos, rt_init, with_filler. usimpl. destruct (newFiller _); [|done]. by destruct (armFiller _ _ _ _).
  - eapply finv_step; try done. by eapply wire_inv_reach.
Qed.

(** ** The theorems *)

(** C8: In every run of a realtime call, a reply frame that interrupted the filler is
    written only after the filler was stopped and a clear was written behind that stop, and
    no frame of the stopped episode or of an earlier one goes out between that clear and the
    reply or after it. *)
Theorem filler_cleared_before_reply c now s a d p b :
  rreach c now s ->
  r_log s = a ++ TvWire (WmMedia (SrcBackend (Some d)) p) :: b ->
  exists g d' a1 a2 a3,
    d = S g /\ (d <= d')%nat /\
    a = a1 ++ TvStopEdge g :: a2 ++ TvWire (WmClear d') :: a3 /\
    nofiller d (a3 ++ b).
Proof.
  intros Hr Hlog. pose proof (wire_inv_reach _ _ _ Hr) as [_ _ _ _ Hc Hre].
  destruct (Hre _ _ _ _ Hlog) as (g & d' & a1 & a2 & a3 & -> & Hd & ->).
  exists g, d', a1, a2, a3. split_and!; [done..|].
  destruct (Hc (a1 ++ TvStopEdge g :: a2) d' (a3 ++ TvWire (WmMedia (SrcBackend (Some (S g))) p) :: b)) as [_ Hn].
  { by rewrite Hlog, <- !app_assoc, <- !app_comm_cons, <- app_assoc. }
  intros g' p' Hin. apply (nofiller_le _ _ _ Hd) in Hn. eapply (Hn g' p'). set_solver.
Qed.

(** C9: From its first frame on, what the carrier is sent is a prefix of the farewell
    script: the frames of the clip in order and then the farewell mark, with no reply frame,
    filler frame, clear or other mark in between, whatever the backend, the filler and the
    consumer do. *)
Theorem farewell_uninterrupted c now s pre p post :
  rreach c now s ->
  wires (r_log s) = pre ++ WmMedia SrcFarewell p :: post -> no_farewell pre ->
  WmMedia SrcFarewell p :: post `prefix_of` farewell_script c.
Proof.
  intros Hr Hw Hpre. destruct (finv_reach _ _ _ Hr) as (pre0 & k & [Hw0 Hpre0 _ _]).
  rewrite Hw in Hw0. apply app_eq_inv in Hw0 as [(x & -> & Hx)|(x & -> & Hx)].
  - (* [pre] ends inside the script *)
    assert (Hpf : take k (farewell_script c) `prefix_of` farewell_script c) by apply prefix_take.
    rewrite Hx in Hpf. destruct x as [|m x]; [done|]. exfalso.
    assert (Hm : is_farewell m = false).
    { unfold no_farewell in Hpre. rewrite forallb_app in Hpre. apply andb_true_iff in Hpre as [_ Hpre].
      simpl in Hpre. apply andb_true_iff in Hpre as [Hpre _]. by apply negb_true_iff. }
    destruct Hpf as [q Hq]. unfold farewell_script in Hq.
    destruct (farewell_frames c); simpl in Hq; simplify_eq/=. by destruct x.
  - destruct x as [|m x]; simpl in Hx.
    + destruct (take k (farewell_script c)) as [|m' l] eqn:Et; [done|]. rewrite Hx, <- Et. apply prefix_take.
    + exfalso. simplify_eq. unfold no_farewell in Hpre0. rewrite forallb_app in Hpre0.
      apply andb_true_iff in Hpre0 as [_ H]. done.
Qed.
