(* ===== verification/SinkMarks.v ===== *)
(** * SinkMarks: the marks in flight and what the consumer is told

    Each arming of a mark is resolved at most once; a record the consumer gets
    belongs to an arming of that name which was not the engine's own playout
    mark, says [TimedOut] only after the arming's bound and an echo only as the
    carrier's echo comes in. *)

From S2P Require Export SinkInv.
From S2P Require Import Filler Silence Marks.

Definition is_arm (e : tev) : bool := match e with TvArm _ _ _ _ => true | _ => false end.
Definition is_deliver (e : tev) : bool := match e with TvDeliver _ _ _ => true | _ => false end.

Definition arms (l : list tev) : nat := length (List.filter is_arm l).

Lemma arms_app l l' : arms (l ++ l') = (arms l + arms l')%nat.
Proof. unfold arms. by rewrite List.filter_app, length_app. Qed.

(** What a delivered record rests on, [a] being the log before it. *)
Definition delivered_ok (a : list tev) (g : nat) (rec : MarkEcho) (at_ : Z) : Prop :=
  (exists due, TvArm (me_Name rec) g due false ∈ a /\
     if me_TimedOut rec then due <= at_ else exists a', a = a' ++ [TvEcho (me_Name rec)]) /\
  forall rec' at', TvDeliver g rec' at' ∉ a.

Record minv (now : Z) (t : markTracker) (tm : timers callback) (log : list tev) : Prop := mkMinv {
  mi_gen : mk_gen t = arms log;
  mi_arm : forall a n g due po c, log = a ++ TvArm n g due po :: c -> g = S (arms a);
  mi_out : forall n m, mk_outstanding t !! n = Some m ->
    (exists due, TvArm n (om_gen m) due (bool_decide (is_Some (om_played m))) ∈ log) /\
    forall rec at_, TvDeliver (om_gen m) rec at_ ∉ log;
  mi_pend : forall id due n g, tm_pending tm !! id = Some (due, CbExpire n g) -> exists po, TvArm n g due po ∈ log;
  mi_start : forall id n g, tm_started tm !! id = Some (CbExpire n g) ->
    exists due po, TvArm n g due po ∈ log /\ due <= now;
  mi_deliver : forall a g rec at_ c, log = a ++ TvDeliver g rec at_ :: c -> delivered_ok a g rec at_
}.

Definition marks_ok (s : rt) : Prop :=
  match r_marks s with
  | Some t => minv (r_now s) t (r_timers s) (r_log s)
  | None => forall g rec at_, TvDeliver g rec at_ ∉ r_log s
  end.

(** An arming is known by its generation. *)
Lemma arm_unique now t tm log n g due po n' due' po' : minv now t tm log ->
  TvArm n g due po ∈ log -> TvArm n' g due' po' ∈ log -> n = n' /\ due = due' /\ po = po'.
Proof.
  intros [_ Ha _ _ _ _] H1 H2. apply list_elem_of_split in H1 as (a1 & c1 & E1).
  apply list_elem_of_split in H2 as (a2 & c2 & E2).
  pose proof (Ha _ _ _ _ _ _ E1) as G1. pose proof (Ha _ _ _ _ _ _ E2) as G2.
  rewrite E1 in E2. apply app_eq_inv in E2 as [(m & -> & Hm)|(m & -> & Hm)].
  - destruct m as [|e m]; simpl in Hm; [by simplify_eq|]. injection Hm as <- _.
    rewrite arms_app in G1. change (arms (TvArm n' g due' po' :: m)) with (S (arms m)) in G1. lia.
  - destruct m as [|e m]; simpl in Hm; [by simplify_eq|]. injection Hm as <- _.
    rewrite arms_app in G2. change (arms (TvArm n g due po :: m)) with (S (arms m)) in G2. lia.
Qed.

(** An arming's generation is bounded by the tracker's. *)
Lemma arm_le now t tm log n g due po : minv now t tm log -> TvArm n g due po ∈ log -> (g <= mk_gen t)%nat.
Proof.
  intros [Hg Ha _ _ _ _] H. apply list_elem_of_split in H as (a & c & E). rewrite (Ha _ _ _ _ _ _ E), Hg, E.
  rewrite arms_app. change (arms (TvArm n g due po :: c)) with (S (arms c)). lia.
Qed.

Lemma deliver_armed now t tm log g rec at_ : minv now t tm log -> TvDeliver g rec at_ ∈ log ->
  exists n due po, TvArm n g due po ∈ log.
Proof.
  intros [_ _ _ _ _ Hd] H. apply list_elem_of_split in H as (a & c & E).
  destruct (Hd _ _ _ _ _ E) as [(due & Hin & _) _]. exists (me_Name rec), due, false. rewrite E. set_solver.
Qed.

(** ** Preservation *)

Definition plain (e : tev) : Prop := is_arm e = false /\ is_deliver e = false.

Lemma log_split1 {A} (l : list A) a x y b : l ++ [y] = a ++ x :: b -> (exists b', b = b' ++ [y] /\ l = a ++ x :: b') \/ (a = l /\ x = y /\ b = []).
Proof.
  intros H. destruct (decide (b = [])) as [->|Hb].
  - right. apply app_inj_tail in H as [-> ->]. done.
  - left. destruct (exists_last Hb) as [b' [z ->]]. exists b'.
    change (a ++ x :: b' ++ [z]) with (a ++ (x :: b') ++ [z]) in H. rewrite app_assoc in H.
    apply app_inj_tail in H as [-> ->]. done.
Qed.

Lemma minv_plain now t tm log e : plain e -> minv now t tm log -> minv now t tm (log ++ [e]).
Proof.
  intros [Ha Hd] [H1 H2 H3 H4 H5 H6]. constructor.
  - rewrite arms_app. unfold arms at 2. simpl. rewrite Ha. simpl. lia.
  - intros a n g due po c E. apply log_split1 in E as [(b & -> & E)|(-> & <- & ->)]; [eauto | done].
  - intros n m Hm. destruct (H3 _ _ Hm) as [(due & Hin) Hno]. split; [exists due; set_solver|].
    intros rec at_ Hin'. apply elem_of_app in Hin' as [Hin'|Hin']; [by apply (Hno rec at_)|].
    apply list_elem_of_singleton in Hin'. by subst e.
  - intros id due n g Hp. destruct (H4 _ _ _ _ Hp) as [po Hin]. exists po. set_solver.
  - intros id n g Hs. destruct (H5 _ _ _ Hs) as (due & po & Hin & Hle). exists due, po. set_solver.
  - intros a g rec at_ c E. apply log_split1 in E as [(b & -> & E)|(-> & <- & ->)]; [eauto | done].
Qed.

Lemma minv_tm now now' t tm tm' log :
  now <= now' ->
  (forall id due n g, tm_pending tm' !! id = Some (due, CbExpire n g) -> exists id', tm_pending tm !! id' = Some (due, CbExpire n g)) ->
  (forall id n g, tm_started tm' !! id = Some (CbExpire n g) ->
     (exists id', tm_started tm !! id' = Some (CbExpire n g)) \/
     (exists id' due, tm_pending tm !! id' = Some (due, CbExpire n g) /\ due <= now')) ->
  minv now t tm log -> minv now' t tm' log.
Proof.
  intros Hn Hp Hs [H1 H2 H3 H4 H5 H6]. constructor; try done.
  - intros id due n g H. apply Hp in H as [id' H]. eauto.
  - intros id n g H. destruct (Hs _ _ _ H) as [[id' H']|(id' & due & H' & Hle)].
    + destruct (H5 _ _ _ H') as (due & po & Hin & Hle). exists due, po. split; [done | lia].
    + destruct (H4 _ _ _ _ H') as [po Hin]. eauto.
Qed.

Lemma minv_tm_ext now t tm tm' log P : tm_ext P tm tm' -> (forall due n g, ~ P due (CbExpire n g)) ->
  minv now t tm log -> minv now t tm' log.
Proof.
  intros [Hp Hs] HP. apply minv_tm; [lia | |].
  - intros id due n g H. destruct (Hp _ _ _ H) as [|H']; [eauto | by apply HP in H'].
  - intros id n g H. rewrite Hs in H. eauto.
Qed.

Lemma marks_ok_log e s : plain e -> marks_ok s -> marks_ok (log_ e s).
Proof.
  intros He. unfold marks_ok. usimpl. destruct (r_marks s); [by apply minv_plain|].
  intros H g rec at_ Hin. apply elem_of_app in Hin as [Hin|Hin]; [by eapply H|].
  apply list_elem_of_singleton in Hin. subst e. by destruct He.
Qed.

Lemma marks_ok_filler op s :
  (forall f tm, tm_ext is_CbStart tm (snd (op f tm))) -> marks_ok s -> marks_ok (with_filler op s).
Proof.
  intros Hop. unfold with_filler. destruct (r_filler s) as [f|]; [|done].
  specialize (Hop f (r_timers s)). destruct (op f (r_timers s)) as [f' tm]. unfold marks_ok. usimpl.
  destruct (r_marks s); [|done]. eapply minv_tm_ext; [exact Hop | auto].
Qed.

Lemma marks_ok_silence op s :
  (forall f tm, tm_ext is_CbFire tm (snd (op f tm))) -> marks_ok s -> marks_ok (with_silence op s).
Proof.
  intros Hop. unfold with_silence. destruct (r_silence s) as [f|]; [|done].
  specialize (Hop f (r_timers s)). destruct (op f (r_timers s)) as [f' tm]. unfold marks_ok. usimpl.
  destruct (r_marks s); [|done]. eapply minv_tm_ext; [exact Hop | auto].
Qed.

Lemma marks_ok_fill_stop s : marks_ok s -> marks_ok (snd (fill_stop s)).
Proof.
  intros H. unfold fill_stop. destruct (r_filler s) as [f|]; [|done]. simpl.
  assert (marks_ok (with_filler (fun f tm => snd (stopFiller f tm)) s))
    by (apply marks_ok_filler; [apply stopFiller_tm | done]).
  destruct (f_playing f); [by apply marks_ok_log | done].
Qed.

Lemma marks_ok_played g s : marks_ok s -> marks_ok (silence_played g s).
Proof.
  intros H. unfold silence_played. destruct (r_silence s) as [f|]; [|done]. cbv zeta.
  assert (marks_ok (with_silence (fun c tm => snd (played g (r_now s) c tm)) s))
    by (apply marks_ok_silence; [intros; apply played_tm | done]).
  case_match; [by apply marks_ok_log | done].
Qed.

Lemma marks_ok_spoke s : marks_ok s -> marks_ok (silence_spoke s).
Proof.
  intros H. unfold silence_spoke. destruct (r_silence s) as [f|]; [|done].
  apply marks_ok_log; [done|]. apply marks_ok_silence; [apply callerSpoke_tm | done].
Qed.

Lemma marks_ok_agentAudio s : marks_ok s -> marks_ok (silence_agentAudio s).
Proof.
  intros H. unfold silence_agentAudio. destruct (r_silence s) as [f|]; [|done].
  apply marks_ok_log; [done|]. apply marks_ok_silence; [apply agentAudio_tm | done].
Qed.

(** ** The tracker's operations *)

Lemma minv_tracker now t t' tm log :
  mk_gen t' = mk_gen t -> (forall n m, mk_outstanding t' !! n = Some m -> mk_outstanding t !! n = Some m) ->
  minv now t tm log -> minv now t' tm log.
Proof. intros Hg Ho [H1 H2 H3 H4 H5 H6]. constructor; try done; [congruence | eauto]. Qed.

Lemma resolveAwait_same n t : mk_gen (snd (resolveAwaitLocked n t)) = mk_gen t /\
  mk_outstanding (snd (resolveAwaitLocked n t)) = mk_outstanding t /\
  mk_stopped (snd (resolveAwaitLocked n t)) = mk_stopped t.
Proof. unfold resolveAwaitLocked. repeat case_match; done. Qed.

Lemma resolved_arm_ok now t tm log n g due po :
  minv now t tm log -> g = S (mk_gen t) ->
  forall t' tm', mk_gen t' = g ->
  (forall n' m, mk_outstanding t' !! n' = Some m -> mk_outstanding t !! n' = Some m \/
     (n' = n /\ om_gen m = g /\ po = bool_decide (is_Some (om_played m)))) ->
  tm_ext (fun d cb => d = due /\ cb = CbExpire n g) tm tm' ->
  minv now t' tm' (log ++ [TvArm n g due po]).
Proof.
  intros Hm Hg t' tm' Hg' Ho [Hp Hs]. pose proof Hm as [H1 H2 H3 H4 H5 H6]. constructor.
  - rewrite arms_app. unfold arms at 2. simpl. lia.
  - intros a n' g' due' po' c E. apply log_split1 in E as [(b & -> & E)|(-> & E & ->)]; [eauto|].
    simplify_eq. lia.
  - intros n' m Hn. destruct (Ho _ _ Hn) as [Hn'|(-> & Hgm & ->)].
    + destruct (H3 _ _ Hn') as [(d & Hin) Hno]. split; [exists d; set_solver|]. 
      intros rec at_ [Hin'|Hin']%elem_of_app; [by apply (Hno rec at_) | by apply list_elem_of_singleton in Hin'].
    + rewrite Hgm. split; [exists due; set_solver|]. intros rec at_ Hin.
      apply elem_of_app in Hin as [Hin|Hin]; [|by apply list_elem_of_singleton in Hin].
      destruct (deliver_armed _ _ _ _ _ _ _ Hm Hin) as (n' & d & p & Hin').
      apply (arm_le _ _ _ _ _ _ _ _ Hm) in Hin'. lia.
  - intros id due' n' g' H. destruct (Hp _ _ _ H) as [H'|(-> & [= -> ->])].
    + destruct (H4 _ _ _ _ H') as [p Hin]. exists p. set_solver.
    + exists po. set_solver.
  - intros id n' g' H. rewrite Hs in H. destruct (H5 _ _ _ H) as (d & p & Hin & Hle). exists d, p. set_solver.
  - intros a g' rec at_ c E. apply log_split1 in E as [(b & -> & E)|(-> & E & ->)]; [eauto | done].
Qed.

Lemma marks_ok_arm name p s : marks_ok s -> marks_ok (marks_arm name p s).
Proof.
  unfold marks_arm, marks_ok. destruct (r_marks s) as [t|] eqn:Et; [|by rewrite Et].
  intros Hm. set (bound := markEchoBound s). cbv zeta.
  assert (Hst : forall op, with_marks op s = s <| r_marks := Some (fst (op t (r_timers s))) |> <| r_timers := snd (op t (r_timers s)) |>)
    by (intros op; unfold with_marks; rewrite Et; by destruct (op t _)).
  rewrite Hst. clear Hst. destruct (mk_stopped t) eqn:Es.
  - destruct p as [g|]; simpl; unfold armPlayout, armMark, armLocked; simpl; rewrite Es; simpl; [|done].
    by eapply (minv_tracker _ t).
  - destruct p as [g|]; simpl; unfold armPlayout, armMark, armLocked; simpl; rewrite Es; simpl.
    all: eapply (resolved_arm_ok _ t _ _ name (S (mk_gen t)) (r_now s + bound)); try done.
    all: try (usimpl; intros n' m; rewrite lookup_insert_Some; intros [[<- <-]|[_ ?]]; auto; fail).
    all: eapply tm_ext_trans; [|by apply (tm_ext_AfterFunc _ (r_now s) bound (CbExpire name (S (mk_gen t))))].
    all: destruct (mk_outstanding t !! name); auto with s2s.
Qed.

Lemma marks_ok_await name s : marks_ok s -> marks_ok (snd (marks_await name s)).
Proof.
  unfold marks_await, marks_ok. destruct (r_marks s) as [t|] eqn:Et; [|simpl; by rewrite ?Et].
  unfold await. cbv zeta. destruct (mk_stopped _); simpl; intros H.
  - by eapply minv_tracker; [| |exact H].
  - destruct (resolveAwait_same None (t <| mk_chans ::= S |>)) as (E1 & E2 & _).
    eapply minv_tracker; [| |exact H]; usimpl; [by rewrite E1|]. intros n m. by rewrite E2.
Qed.

Lemma stop_all_pending (l : gmap string outstandingMark) (tm : timers callback) id x :
  tm_pending (map_fold (fun _ m tm => Stop (om_timer m) tm) tm l) !! id = Some x -> tm_pending tm !! id = Some x.
Proof.
  revert id x. apply (map_fold_weak_ind (fun r (l : gmap string outstandingMark) => forall id x,
    tm_pending r !! id = Some x -> tm_pending tm !! id = Some x)); [done|].
  intros n m l' r _ IH id x H. apply IH. revert H. usimpl. rewrite lookup_delete_Some. tauto.
Qed.

Lemma stop_all_started (l : gmap string outstandingMark) (tm : timers callback) :
  tm_started (map_fold (fun _ m tm => Stop (om_timer m) tm) tm l) = tm_started tm.
Proof.
  apply (map_fold_weak_ind (fun r (l : gmap string outstandingMark) => tm_started r = tm_started tm)); [done|].
  intros n m l' r _ IH. usimpl. done.
Qed.

Lemma marks_ok_stop s : marks_ok s -> marks_ok (with_marks stopMarks s).
Proof.
  unfold with_marks, marks_ok. destruct (r_marks s) as [t|] eqn:Et; [|by rewrite Et].
  intros H. unfold stopMarks. usimpl. apply (minv_tm (r_now s) _ _ (r_timers s)); [lia | | |].
  - intros id due n g Hp. exists id. by eapply stop_all_pending.
  - intros id n g. rewrite stop_all_started. eauto.
  - eapply minv_tracker; [| |exact H].
    + by destruct (resolveAwait_same None (t <| mk_stopped := true |>)) as [Eg _].
    + intros n m Hn. usimpl. by rewrite lookup_empty in Hn.
Qed.

(** A record for the consumer, from the arming that was outstanding. *)
Lemma minv_deliver now t t' tm log n m rec due :
  minv now t tm log -> mk_outstanding t !! n = Some m -> om_played m = None -> me_Name rec = n ->
  TvArm n (om_gen m) due false ∈ log ->
  (if me_TimedOut rec then due <= now else exists a', log = a' ++ [TvEcho n]) ->
  mk_gen t' = mk_gen t -> mk_outstanding t' = delete n (mk_outstanding t) ->
  minv now t' tm (log ++ [TvDeliver (om_gen m) rec now]).
Proof.
  intros Hm Ho Hpl Hn Hin Hrec Hg Hout. pose proof Hm as [H1 H2 H3 H4 H5 H6]. constructor.
  - rewrite arms_app. unfold arms at 2. simpl. lia.
  - intros a n' g' due' po' c E. apply log_split1 in E as [(b & -> & E)|(-> & E & ->)]; [eauto | done].
  - intros n' m' Hn'. rewrite Hout, lookup_delete_Some in Hn'. destruct Hn' as [Hne Hn'].
    destruct (H3 _ _ Hn') as [(d & Hd) Hno]. split; [exists d; set_solver|].
    intros rec' at_ [Hin'|Hin']%elem_of_app; [by apply (Hno rec' at_)|].
    apply list_elem_of_singleton in Hin'. injection Hin' as Eg _ _. rewrite Eg in Hd.
    destruct (arm_unique _ _ _ _ _ _ _ _ _ _ _ Hm Hin Hd) as [Hx _]. congruence.
  - intros id due' n' g' H. destruct (H4 _ _ _ _ H) as [p Hp]. exists p. set_solver.
  - intros id n' g' H. destruct (H5 _ _ _ H) as (d & p & Hp & Hle). exists d, p. set_solver.
  - intros a g' rec' at_ c E. apply log_split1 in E as [(b & -> & E)|(-> & E & ->)]; [eauto|].
    simplify_eq. split; [exists due; split; [done | exact Hrec]|].
    apply (H3 _ _ Ho).
Qed.

Lemma marks_ok_echo ready name s : marks_ok s -> marks_ok (marks_echo ready name s).
Proof.
  intros H. apply (marks_ok_log (TvEcho name)) in H; [|done]. revert H.
  unfold marks_echo. destruct (r_marks s) as [t|] eqn:Et; [|unfold marks_ok; usimpl; rewrite Et; set_solver].
  unfold echo. destruct (mk_stopped t); [unfold marks_ok; usimpl; by rewrite Et|].
  destruct (mk_outstanding t !! name) as [m|] eqn:Em; [|unfold marks_ok; usimpl; by rewrite Et]. cbv zeta.
  assert (Hdel : forall t', mk_gen t' = mk_gen t -> mk_outstanding t' = delete name (mk_outstanding t) ->
    marks_ok (log_ (TvEcho name) s) ->
    marks_ok (log_ (TvEcho name) s <| r_marks := Some t' |> <| r_timers := Stop (om_timer m) (r_timers s) |>)).
  { intros t' Hg Ho. unfold marks_ok. usimpl. rewrite Et. intros H.
    eapply minv_tm_ext; [apply (tm_ext_Stop (fun _ _ => False)) | auto |].
    eapply minv_tracker; [done | | exact H]. rewrite Ho. intros n' m'. rewrite lookup_delete_Some. tauto. }
  destruct (om_played m) as [g|] eqn:Ep.
  - intros H. simpl. apply marks_ok_played. by apply Hdel.
  - pose proof (resolveAwait_same (await_key name) (t <| mk_outstanding ::= delete name |>)) as (E1 & E2 & _).
    destruct (resolveAwaitLocked _ _) as [[] t']; simpl in E1, E2.
    + intros H. simpl. by apply Hdel.
    + intros H. pose proof (Hdel (deliver ready (mkMarkEcho name false) t') E1 E2 H) as Hs.
      unfold marks_ok in *. usimpl. rewrite Et in H.
      pose proof (mi_out _ _ _ _ H _ _ Em) as [(due & Hin) _]. rewrite Ep in Hin.
      eapply (minv_deliver _ t _ _ _ name m _ due); try done; [|by eexists].
      eapply minv_tm_ext; [apply (tm_ext_Stop (fun _ _ => False)) | auto | exact H].
Qed.

Lemma marks_ok_expire ready name gen s :
  (r_marks s <> None -> exists due po, TvArm name gen due po ∈ r_log s /\ due <= r_now s) ->
  marks_ok s -> marks_ok (marks_expire ready name gen s).
Proof.
  intros Harm. unfold marks_expire. destruct (r_marks s) as [t|] eqn:Et; [|done].
  destruct Harm as (due & po & Harm & Hle); [done|].
  unfold expire. destruct (mk_stopped t); [unfold marks_ok; usimpl; by rewrite Et|].
  destruct (mk_outstanding t !! name) as [m|] eqn:Em; [|unfold marks_ok; usimpl; by rewrite Et].
  destruct (om_gen m =? gen)%nat eqn:Eg; simpl; [|unfold marks_ok; usimpl; by rewrite Et].
  apply Nat.eqb_eq in Eg. subst gen.
  assert (Hdel : forall t', mk_gen t' = mk_gen t -> mk_outstanding t' = delete name (mk_outstanding t) ->
    marks_ok s -> marks_ok (s <| r_marks := Some t' |>)).
  { intros t' Hg Ho. unfold marks_ok. usimpl. rewrite Et. intros H.
    eapply minv_tracker; [done | | exact H]. rewrite Ho. intros n' m'. rewrite lookup_delete_Some. tauto. }
  pose proof (resolveAwait_same (await_key name) (t <| mk_outstanding ::= delete name |>)) as (E1 & E2 & _).
  destruct (resolveAwaitLocked _ _) as [owned t']; simpl in E1, E2. intros H.
  destruct (om_played m) as [g|] eqn:Ep; [simpl; apply marks_ok_played; by apply Hdel|].
  destruct owned; simpl; [by apply Hdel|].
  unfold marks_ok in *. usimpl. rewrite Et in H.
  pose proof (mi_out _ _ _ _ H _ _ Em) as [(due' & Hin) _]. rewrite Ep in Hin.
  destruct (arm_unique _ _ _ _ _ _ _ _ _ _ _ H Harm Hin) as (_ & <- & _).
  eapply (minv_deliver _ t _ _ _ name m _ due); done.
Qed.

(** ** Every step *)

Lemma marks_ok_timers s tm :
  (forall id due n g, tm_pending tm !! id = Some (due, CbExpire n g) ->
     exists id', tm_pending (r_timers s) !! id' = Some (due, CbExpire n g)) ->
  (forall id n g, tm_started tm !! id = Some (CbExpire n g) ->
     (exists id', tm_started (r_timers s) !! id' = Some (CbExpire n g)) \/
     (exists id' due, tm_pending (r_timers s) !! id' = Some (due, CbExpire n g) /\ due <= r_now s)) ->
  marks_ok s -> marks_ok (s <| r_timers := tm |>).
Proof. intros Hp Hs. unfold marks_ok. usimpl. destruct (r_marks s); [by apply minv_tm | done]. Qed.

Lemma marks_ok_tm_start id tm s : tm_start (r_now s) id (r_timers s) = Some tm -> marks_ok s ->
  marks_ok (s <| r_timers := tm |>).
Proof.
  unfold tm_start. destruct (tm_pending (r_timers s) !! id) as [[due cb]|] eqn:E; [|done].
  destruct (due <=? r_now s) eqn:El; [|done]. intros [= <-]. apply Z.leb_le in El. apply marks_ok_timers; usimpl.
  - intros id' due' n g. rewrite lookup_delete_Some. intros [_ H]. eauto.
  - intros id' n g. rewrite lookup_insert_Some. intros [[<- ->]|[_ H]]; eauto.
Qed.

Lemma marks_ok_tm_take id cb tm s : tm_take id (r_timers s) = Some (cb, tm) -> marks_ok s ->
  marks_ok (s <| r_timers := tm |>).
Proof.
  unfold tm_take. destruct (tm_started (r_timers s) !! id) as [cb'|] eqn:E; [|done].
  intros [= <- <-]. apply marks_ok_timers; usimpl; [eauto|].
  intros id' n g. rewrite lookup_delete_Some. intros [_ H]. eauto.
Qed.

Lemma taken_armed id name gen tm s : tm_take id (r_timers s) = Some (CbExpire name gen, tm) -> marks_ok s ->
  r_marks s <> None -> exists due po, TvArm name gen due po ∈ r_log s /\ due <= r_now s.
Proof.
  unfold tm_take, marks_ok. destruct (tm_started (r_timers s) !! id) as [cb|] eqn:E; [|done].
  intros [= -> <-]. destruct (r_marks s); [|done]. intros H _. by eapply mi_start.
Qed.

Lemma marks_ok_callback ready id cb tm s : tm_take id (r_timers s) = Some (cb, tm) -> marks_ok s ->
  marks_ok (run_callback ready cb (s <| r_timers := tm |>)).
Proof.
  intros Ht H. pose proof (marks_ok_tm_take _ _ _ _ Ht H) as Hm. destruct cb as [g b|n g|g]; simpl.
  - destruct (r_filler s); [|done]. destruct (startFiller _ _) as [[] f']; [|exact Hm].
    by apply (marks_ok_log (TvSpawn g)) in Hm.
  - apply marks_ok_expire; [|done]. intros Hn. exact (taken_armed _ _ _ _ _ Ht H Hn).
  - apply marks_ok_silence; [intros; apply tm_ext_refl | done].
Qed.

Lemma marks_ok_build w s : marks_ok s -> marks_ok (snd (build w s)).
Proof.
  intros H. destruct w; simpl; try done.
  - destruct (r_filler s); [|done]. by destruct (nextFrame _ _).
  - destruct (r_silence s); [|done]. destruct (claim _ _) as [[g|] b]; [|exact H].
    by apply (marks_ok_log (TvClaim name g)) in H.
Qed.

Lemma marks_ok_afterWrite ready m g s : marks_ok s -> marks_ok (afterWrite ready m g s).
Proof.
  intros H. destruct m as [[]| |]; simpl; try done; [by apply marks_ok_agentAudio | by apply marks_ok_arm].
Qed.

Lemma marks_ok_bridge s s' : bridge_local s = Some s' -> marks_ok s -> marks_ok s'.
Proof.
  intros H Hm. revert H. unfold bridge_local. destruct (r_bridge s); try discriminate.
  - intros [= <-]. exact Hm.
  - intros [= <-]. unfold publishEvent. case_match; exact Hm.
  - intros [= <-]. by apply (marks_ok_log (TvDispatch ev)) in Hm.
  - intros [= <-]. exact Hm.
  - pose proof (marks_ok_fill_stop s Hm) as H. destruct (fill_stop s). intros [= <-]. exact H.
  - intros [= <-]. exact (marks_ok_spoke s Hm).
  - intros [= <-]. exact Hm.
  - intros [= <-]. exact (marks_ok_fill_stop s Hm).
  - case_match; intros [= <-]. exact Hm.
Qed.

Lemma marks_ok_drain s s' : drain_local s = Some s' -> marks_ok s -> marks_ok s'.
Proof.
  intros H Hm. revert H. unfold drain_local. destruct (r_drain s).
  - destruct (r_events s) as [|e l]; intros [= <-]. by apply (marks_ok_log (TvDrained e)) in Hm.
  - intros [= <-]. apply (marks_ok_filler (observeFiller ev (r_now s))) in Hm; [exact Hm | intros; apply observeFiller_tm].
  - intros [= <-]. apply (marks_ok_silence (observeSilence ev)) in Hm; [|intros; apply observeSilence_tm].
    destruct (is_tool_done ev); [apply (marks_ok_log TvTool) in Hm; [exact Hm | done] | exact Hm].
Qed.

Lemma marks_ok_endFarewell c e s : marks_ok s -> marks_ok (endWithFarewell c e s).
Proof. unfold endWithFarewell. by case_match. Qed.

Lemma marks_ok_shutdown s : marks_ok s -> marks_ok (fill_shutdown s).
Proof. apply marks_ok_filler, shutdownFiller_tm. Qed.

(** [endSilence] and its kin on a bound that is there. *)
Lemma marks_ok_silence_op b b' tm s :
  r_silence s = Some b -> tm_ext is_CbFire (r_timers s) tm -> marks_ok s ->
  marks_ok (s <| r_silence := Some b' |> <| r_timers := tm |>).
Proof.
  intros Hb Ht. unfold marks_ok. usimpl. destruct (r_marks s); [|done]. eapply minv_tm_ext; [exact Ht | auto].
Qed.

Lemma marks_ok_select c s s' : select_local c s = Some s' -> marks_ok s -> marks_ok s'.
Proof.
  intros H Hm. revert H. unfold select_local. destruct (r_select s); try discriminate.
  - destruct (r_silence s) as [b|] eqn:Eb; [|intros [= <-]; exact Hm].
    pose proof (endSilence_tm b (r_timers s)) as Ht. destruct (endSilence b (r_timers s)) as [ended [b' tm]].
    pose proof (marks_ok_silence_op b b' tm s Eb Ht Hm) as H. destruct ended; intros [= <-]; [|exact H].
    apply marks_ok_endFarewell. by apply marks_ok_log.
  - destruct (r_silence s); [|intros [= <-]; exact Hm]. destruct (takeRequest _). intros [= <-]. exact Hm.
  - destruct (r_silence s); [|intros [= <-]; exact Hm]. destruct (nextMarkName _ _). intros [= <-]. exact Hm.
  - intros [= <-]. exact (marks_ok_fill_stop s Hm).
  - intros [= <-]. exact Hm.
  - intros [= <-]. exact (marks_ok_fill_stop s Hm).
  - intros [= <-]. exact Hm.
  - intros [= <-]. exact (marks_ok_shutdown s Hm).
  - intros [= <-]. unfold farewell_next. destruct rest; [|exact Hm].
    pose proof (marks_ok_await (farewell_mark c) s Hm) as H. destruct (marks_await _ _). exact H.
  - destruct (_ || _); intros [= <-]. exact Hm.
  - intros [= <-]. exact (marks_ok_shutdown s Hm).
  - intros [= <-]. exact (marks_ok_stop s Hm).
  - intros [= <-]. apply (marks_ok_silence stopSilence) in Hm; [exact Hm | intros; apply stopSilence_tm].
Qed.

Lemma marks_ok_case c k s s' : select_case c k s = Some s' -> marks_ok s -> marks_ok s'.
Proof.
  intros H Hm. destruct k; simpl in H; repeat case_match; simplify_eq; try exact Hm; by apply marks_ok_endFarewell.
Qed.

Lemma marks_ok_continue t res s : marks_ok s -> marks_ok (continue t res s).
Proof.
  intros H. destruct t; simpl; [by destruct (r_bridge s) | | exact H].
  destruct (r_select s); try done. by destruct res, k.
Qed.

Lemma marks_ok_slot ok ready s s' : slot_local ok ready s = Some s' -> marks_ok s -> marks_ok s'.
Proof.
  intros H Hm. revert H. unfold slot_local. destruct (r_slot s) as [[[t w] [|m g|m g|res]]|]; [..|done].
  - pose proof (marks_ok_build w s Hm) as H. destruct (build w s). intros [= <-]. exact H.
  - destruct (ok && _); intros [= <-]; [|exact Hm]. by apply (marks_ok_log (TvWire m)) in Hm.
  - intros [= <-]. exact (marks_ok_afterWrite ready m g s Hm).
  - intros [= <-]. by apply marks_ok_continue.
Qed.

Lemma marks_ok_step c s s' : rstep c s s' -> marks_ok s -> marks_ok s'.
Proof.
  destruct 1; intros Hm; try exact Hm;
    eauto using marks_ok_bridge, marks_ok_drain, marks_ok_select, marks_ok_case, marks_ok_slot, marks_ok_echo,
      marks_ok_tm_start, marks_ok_callback, marks_ok_continue.
  - unfold marks_ok in *. usimpl. destruct (r_marks s); [|done]. eapply minv_tm; [| | |exact Hm]; eauto. lia.
  - by apply (marks_ok_log (TvRead ev)) in Hm.
  - apply (marks_ok_filler (fun f tm => (endEpisode gen f, tm))) in Hm; [exact Hm | intros; apply tm_ext_refl].
Qed.

Lemma marks_ok_init c now : marks_ok (rt_init c now).
Proof.
  unfold rt_init. apply marks_ok_filler; [apply armFiller_tm|]. unfold marks_ok. usimpl.
  destruct (_ || _); [|set_solver]. constructor; simpl; [done | intros a ? ? ? ? ? H0; by destruct a | | | | intros a ? ? ? ? H0; by destruct a].
  - intros n m. by rewrite lookup_empty.
  - intros id due n g. by rewrite lookup_empty.
  - intros id n g. by rewrite lookup_empty.
Qed.

Lemma marks_ok_reach c now s : rreach c now s -> marks_ok s.
Proof. induction 1; eauto using marks_ok_init, marks_ok_step. Qed.

(** C11: Each arming of a mark gives the consumer at most one record; the record carries the
    name of that arming, which was not the engine's playout mark, says TimedOut only once
    the arming's bound is over, and an echo only directly after that echo came in. *)
Theorem mark_resolved_once c now s a g rec at_ b :
  rreach c now s -> r_log s = a ++ TvDeliver g rec at_ :: b ->
  (exists due, TvArm (me_Name rec) g due false ∈ a /\
     if me_TimedOut rec then due <= at_ else exists a', a = a' ++ [TvEcho (me_Name rec)]) /\
  forall rec' at', TvDeliver g rec' at' ∉ a ++ b.
Proof.
  intros Hr Hlog. apply marks_ok_reach in Hr. unfold marks_ok in Hr.
  destruct (r_marks s) as [t|]; [|exfalso; apply (Hr g rec at_); rewrite Hlog; set_solver].
  destruct (mi_deliver _ _ _ _ Hr _ _ _ _ _ Hlog) as [H1 H2]. split; [done|].
  intros rec' at' [Hin|Hin]%elem_of_app; [by apply (H2 rec' at')|].
  apply list_elem_of_split in Hin as (b1 & b2 & ->).
  destruct (mi_deliver _ _ _ _ Hr (a ++ TvDeliver g rec at_ :: b1) g rec' at' b2) as [_ Hno].
  { by rewrite Hlog, <- app_assoc. }
  apply (Hno rec at_). set_solver.
Qed.
