(* ===== verification/SinkSilence.v ===== *)
(** * SinkSilence: a call ended on the caller's silence was silent

    The count that ends a call was started by the resolution of a playout mark
    (echoed by the carrier, or past its bound) written behind the agent's
    audio; since that mark was claimed the caller has not spoken and no agent
    audio has followed, and the whole bound has elapsed. *)

From S2P Require Export SinkMarks.
From S2P Require Import Filler Silence Marks.

Definition is_bump (e : tev) : bool := match e with TvSpoke | TvAgentAudio => true | _ => false end.
Definition is_tool (e : tev) : bool := match e with TvTool => true | _ => false end.

(** Caller speech and agent audio so far: what [callerSilence.gen] counts. *)
Definition bumps (l : list tev) : nat := length (List.filter is_bump l).

Lemma bumps_app l l' : bumps (l ++ l') = (bumps l + bumps l')%nat.
Proof. unfold bumps. by rewrite List.filter_app, length_app. Qed.
Lemma bumps_cons e l : bumps (e :: l) = ((if is_bump e then 1 else 0) + bumps l)%nat.
Proof. unfold bumps. simpl. by destruct (is_bump e). Qed.

Definition no_tool (l : list tev) : Prop := existsb is_tool l = false.

Lemma no_tool_snoc l e : no_tool l -> is_tool e = false -> no_tool (l ++ [e]).
Proof. unfold no_tool. rewrite existsb_app. intros -> H. simpl. by rewrite H. Qed.

(** The playout mark [n] claimed at generation [g] has been written and has
    resolved by [at_]: echoed, or its bound is over. *)
Definition mark_played (n : string) (at_ : Z) (l : list tev) : Prop :=
  TvWire (WmMark n) ∈ l /\
  (TvEcho n ∈ l \/ exists mg due, TvArm n mg due true ∈ l /\ due <= at_).

Definition count_ok (a : list tev) (g : nat) (at_ : Z) : Prop :=
  bumps a = g /\
  (exists n a1 a2, a = a1 ++ TvClaim n g :: a2 /\ mark_played n at_ a2) /\
  forall at', TvCount g at' ∉ a.

(** What the decision to end the call rests on. *)
Definition silent_ok (after : Z) (a : list tev) (T : Z) : Prop :=
  exists a1 n g a2 at_ a3,
    a = a1 ++ TvClaim n g :: a2 ++ TvCount g at_ :: a3 /\
    bumps a2 = O /\ bumps a3 = O /\ no_tool a3 /\ mark_played n at_ a2 /\ at_ + after <= T.

(** The claim a playout mark in the slot was written under. *)
Definition tok (s : rt) : option (string * nat * bool) :=
  match r_slot s with
  | Some (_, WqPlayout n _, PhWrite _ (Some g)) => Some (n, g, false)
  | Some (_, WqPlayout n _, PhAfter _ (Some g)) => Some (n, g, true)
  | _ => None
  end.

Definition claimed (n : string) (g : nat) (P : list tev -> Prop) (log : list tev) : Prop :=
  exists a1 a2, log = a1 ++ TvClaim n g :: a2 /\ P a2.

Record qinv (after now : Z) (b : callerSilence) (t : markTracker) (tm : timers callback)
    (tk : option (string * nat * bool)) (log : list tev) : Prop := mkQinv {
  q_after : cs_after b = after;
  q_gen : cs_gen b = bumps log;
  q_claim : forall a n g l, log = a ++ TvClaim n g :: l -> g = bumps a;
  q_audio : cs_audio b = true -> forall n, TvClaim n (cs_gen b) ∉ log;
  q_count : forall a g at_ l, log = a ++ TvCount g at_ :: l -> count_ok a g at_;
  q_out : forall n m g, mk_outstanding t !! n = Some m -> om_played m = Some g ->
    claimed n g (fun l => TvWire (WmMark n) ∈ l /\ exists due, TvArm n (om_gen m) due true ∈ l) log /\
    forall at_, TvCount g at_ ∉ log;
  q_inj : forall n n' m m' g, mk_outstanding t !! n = Some m -> mk_outstanding t !! n' = Some m' ->
    om_played m = Some g -> om_played m' = Some g -> n = n';
  q_tok : forall n g w, tk = Some (n, g, w) ->
    claimed n g (fun l => w = true -> TvWire (WmMark n) ∈ l) log /\
    (forall at_, TvCount g at_ ∉ log) /\
    forall n' m, mk_outstanding t !! n' = Some m -> om_played m <> Some g;
  q_pend : forall id due g, tm_pending tm !! id = Some (due, CbFire g) ->
    exists at_, TvCount g at_ ∈ log /\ at_ + after <= due;
  q_start : forall id g, tm_started tm !! id = Some (CbFire g) ->
    exists at_, TvCount g at_ ∈ log /\ at_ + after <= now;
  q_running : cs_running b = true -> exists a at_ l, log = a ++ TvCount (cs_gen b) at_ :: l /\ no_tool l;
  q_due : cs_due b = true -> exists a at_ l, log = a ++ TvCount (cs_gen b) at_ :: l /\ no_tool l /\ at_ + after <= now;
  q_silent : forall a T l, log = a ++ TvSilent T :: l -> silent_ok after a T
}.

(** ** The log *)

Lemma claimed_snoc n g (P Q : list tev -> Prop) log e :
  (forall l, P l -> Q (l ++ [e])) -> claimed n g P log -> claimed n g Q (log ++ [e]).
Proof.
  intros HPQ (a1 & a2 & -> & HP). exists a1, (a2 ++ [e]). split; [by rewrite <- app_assoc | auto].
Qed.

Lemma notin_snoc {A} (l : list A) x y : x ∉ l -> x <> y -> x ∉ l ++ [y].
Proof. intros H Hne [Hin|Hin]%elem_of_app; [done | by apply list_elem_of_singleton in Hin]. Qed.

(** Appending an event that neither claims nor counts nor ends; speech, agent
    audio and a tool call come with the bound's own reaction [b']. *)
Definition inert (e : tev) : bool :=
  match e with TvClaim _ _ | TvCount _ _ | TvSilent _ => false | _ => true end.

Lemma qinv_snoc after now b b' t tm tk log e :
  inert e = true -> cs_after b' = cs_after b ->
  cs_gen b' = ((if is_bump e then 1 else 0) + cs_gen b)%nat ->
  (is_bump e = false -> cs_audio b' = true -> cs_audio b = true) ->
  (cs_running b' = true -> is_bump e = false /\ is_tool e = false /\ cs_running b = true) ->
  (cs_due b' = true -> is_bump e = false /\ is_tool e = false /\ cs_due b = true) ->
  qinv after now b t tm tk log -> qinv after now b' t tm tk (log ++ [e]).
Proof.
  intros He Ea Eg Hau Hru Hdu [H1 H2 H3 H4 H5 H6 H7 H8 H9 H10 H11 H12 H13]. constructor; try done.
  - congruence.
  - rewrite bumps_app, bumps_cons. change (bumps []) with O. lia.
  - intros a n g l E. apply log_split1 in E as [(l' & -> & E)|(_ & <- & _)]; [eauto | done].
  - intros Ha n. apply notin_snoc; [|by intros <-]. destruct (is_bump e) eqn:Eb; simpl in Eg.
    + intros Hin. apply list_elem_of_split in Hin as (l1 & l2 & E). pose proof (H3 _ _ _ _ E) as Hg.
      rewrite E, bumps_app in H2. lia.
    + rewrite Eg. apply H4. auto.
  - intros a g at_ l E. apply log_split1 in E as [(l' & -> & E)|(_ & <- & _)]; [eauto | done].
  - intros n m g Hn Hp. destruct (H6 _ _ _ Hn Hp) as [Hc Hno]. split.
    + revert Hc. apply claimed_snoc. intros l [? [due ?]]. split; [set_solver|]. exists due. set_solver.
    + intros at_. apply notin_snoc; [auto|]. by intros <-.
  - intros n g w E. destruct (H8 _ _ _ E) as (Hc & Hno & Ho). split_and!; [| |done].
    + revert Hc. apply claimed_snoc. intros l Hl Hw. set_solver.
    + intros at_. apply notin_snoc; [auto|]. by intros <-.
  - intros id due g Hp. destruct (H9 _ _ _ Hp) as (at_ & Hin & Hle). exists at_. set_solver.
  - intros id g Hp. destruct (H10 _ _ Hp) as (at_ & Hin & Hle). exists at_. set_solver.
  - intros Hr. destruct (Hru Hr) as (Eb & Et & Hr'). destruct (H11 Hr') as (a & at_ & l & -> & Hl).
    exists a, at_, (l ++ [e]). rewrite Eb in Eg. simpl in Eg. rewrite Eg.
    split; [by rewrite <- app_assoc | by apply no_tool_snoc].
  - intros Hr. destruct (Hdu Hr) as (Eb & Et & Hr'). destruct (H12 Hr') as (a & at_ & l & -> & Hl & Hle).
    exists a, at_, (l ++ [e]). rewrite Eb in Eg. simpl in Eg. rewrite Eg.
    split_and!; [by rewrite <- app_assoc | by apply no_tool_snoc | done].
  - intros a T l E. apply log_split1 in E as [(l' & -> & E)|(_ & <- & _)]; [eauto | done].
Qed.

(** Events the invariant does not speak of at all. *)
Definition neutral (e : tev) : bool := inert e && negb (is_bump e) && negb (is_tool e).

Lemma qinv_neutral after now b t tm tk log e : neutral e = true ->
  qinv after now b t tm tk log -> qinv after now b t tm tk (log ++ [e]).
Proof.
  unfold neutral. intros He. apply andb_true_iff in He as [He Ht]. apply andb_true_iff in He as [He Hb].
  apply negb_true_iff in Ht, Hb. apply qinv_snoc; try done; by rewrite Hb.
Qed.

(** ** Changes outside the log *)

Lemma qinv_state after now b b' t tm tk log :
  cs_after b' = cs_after b -> cs_gen b' = cs_gen b -> (cs_audio b' = true -> cs_audio b = true) ->
  (cs_running b' = true -> cs_running b = true) -> (cs_due b' = true -> cs_due b = true) ->
  qinv after now b t tm tk log -> qinv after now b' t tm tk log.
Proof.
  intros Ea Eg Hau Hru Hdu [H1 H2 H3 H4 H5 H6 H7 H8 H9 H10 H11 H12 H13].
  constructor; rewrite ?Eg; auto; congruence.
Qed.

Lemma qinv_tracker after now b t t' tm tk log :
  (forall n m, mk_outstanding t' !! n = Some m -> om_played m <> None -> mk_outstanding t !! n = Some m) ->
  qinv after now b t tm tk log -> qinv after now b t' tm tk log.
Proof.
  intros Ho [H1 H2 H3 H4 H5 H6 H7 H8 H9 H10 H11 H12 H13].
  assert (Ho' : forall n m g, mk_outstanding t' !! n = Some m -> om_played m = Some g -> mk_outstanding t !! n = Some m)
    by (intros n m g Hn Hp; apply Ho; [done | congruence]).
  constructor; eauto. intros n g w E. destruct (H8 _ _ _ E) as (Hc & Hno & Hd). split_and!; [done..|].
  intros n' m Hn Hp. by eapply Hd; [eapply Ho'|].
Qed.

Lemma qinv_tok after now b t tm tk log : qinv after now b t tm tk log -> qinv after now b t tm None log.
Proof. intros []. by constructor. Qed.

Lemma qinv_tm after now now' b t tm tm' tk log :
  now <= now' ->
  (forall id due g, tm_pending tm' !! id = Some (due, CbFire g) -> exists id', tm_pending tm !! id' = Some (due, CbFire g)) ->
  (forall id g, tm_started tm' !! id = Some (CbFire g) ->
     (exists id', tm_started tm !! id' = Some (CbFire g)) \/
     (exists id' due, tm_pending tm !! id' = Some (due, CbFire g) /\ due <= now')) ->
  qinv after now b t tm tk log -> qinv after now' b t tm' tk log.
Proof.
  intros Hn Hp Hs [H1 H2 H3 H4 H5 H6 H7 H8 H9 H10 H11 H12 H13]. constructor; try done.
  - intros id due g H. apply Hp in H as [id' H]. eauto.
  - intros id g H. destruct (Hs _ _ H) as [[id' H']|(id' & due & H' & Hle)].
    + destruct (H10 _ _ H') as (at_ & Hin & ?). exists at_. split; [done | lia].
    + destruct (H9 _ _ _ H') as (at_ & Hin & ?). exists at_. split; [done | lia].
  - intros Hr. destruct (H12 Hr) as (a & at_ & l & E & Hl & Hle). exists a, at_, l. split_and!; [done..|lia].
Qed.

Lemma qinv_tm_ext after now b t tm tm' tk log P : tm_ext P tm tm' -> (forall due g, ~ P due (CbFire g)) ->
  qinv after now b t tm tk log -> qinv after now b t tm' tk log.
Proof.
  intros [Hp Hs] HP. apply qinv_tm; [lia | |].
  - intros id due g H. destruct (Hp _ _ _ H) as [|H']; [eauto | by apply HP in H'].
  - intros id g H. rewrite Hs in H. eauto.
Qed.

(** ** The call's bound *)

Definition sil_ok (c : config) (tk : option (string * nat * bool)) (s : rt) : Prop :=
  match r_silence s, r_marks s with
  | Some b, Some t => qinv (cfg_callerSilenceTimeout c) (r_now s) b t (r_timers s) tk (r_log s)
  | Some _, None => False
  | None, _ => forall T, TvSilent T ∉ r_log s
  end.

Section SilOk.
Context (c : config) (tk : option (string * nat * bool)).
Implicit Types s : rt.

Lemma sil_log e s : neutral e = true -> sil_ok c tk s -> sil_ok c tk (log_ e s).
Proof.
  intros He. unfold sil_ok. usimpl. destruct (r_silence s), (r_marks s); try done; [by apply qinv_neutral|..].
  all: intros H T; apply notin_snoc; [done | by intros <-].
Qed.

Lemma sil_filler op s :
  (forall f tm, tm_ext is_CbStart tm (snd (op f tm))) -> sil_ok c tk s -> sil_ok c tk (with_filler op s).
Proof.
  intros Hop. unfold with_filler. destruct (r_filler s) as [f|]; [|done].
  specialize (Hop f (r_timers s)). destruct (op f (r_timers s)) as [f' tm]. unfold sil_ok. usimpl.
  destruct (r_silence s), (r_marks s); try done. eapply qinv_tm_ext; [exact Hop | auto].
Qed.

Lemma sil_fill_stop s : sil_ok c tk s -> sil_ok c tk (snd (fill_stop s)).
Proof.
  intros H. unfold fill_stop. destruct (r_filler s) as [f|]; [|done]. simpl.
  assert (sil_ok c tk (with_filler (fun f tm => snd (stopFiller f tm)) s))
    by (apply sil_filler; [apply stopFiller_tm | done]).
  destruct (f_playing f); [by apply sil_log | done].
Qed.

(** The bound's timer is stopped and an event logged: speech, agent audio, a
    tool call. *)
Lemma sil_stopped b b' tm e s :
  r_silence s = Some b -> tm_ext (fun _ _ => False) (r_timers s) tm -> inert e = true ->
  cs_after b' = cs_after b -> cs_gen b' = ((if is_bump e then 1 else 0) + cs_gen b)%nat ->
  (is_bump e = false -> cs_audio b' = true -> cs_audio b = true) ->
  cs_running b' = false -> cs_due b' = false ->
  sil_ok c tk s -> sil_ok c tk (log_ e (s <| r_silence := Some b' |> <| r_timers := tm |>)).
Proof.
  intros Hb Ht He Ea Eg Hau Hr Hd. unfold sil_ok. usimpl. rewrite Hb. destruct (r_marks s); [|done].
  intros H. eapply qinv_tm_ext; [exact Ht | auto |]. eapply qinv_snoc; [done..| | |exact H]; congruence.
Qed.

Lemma sil_spoke s : sil_ok c tk s -> sil_ok c tk (silence_spoke s).
Proof.
  intros H. unfold silence_spoke, with_silence. destruct (r_silence s) as [b|] eqn:Eb; [|done]. simpl.
  eapply sil_stopped; [exact Eb | apply tm_ext_StopOpt | done..].
Qed.

Lemma sil_agentAudio s : sil_ok c tk s -> sil_ok c tk (silence_agentAudio s).
Proof.
  intros H. unfold silence_agentAudio, with_silence. destruct (r_silence s) as [b|] eqn:Eb; [|done]. simpl.
  eapply sil_stopped; [exact Eb | apply tm_ext_StopOpt | done..].
Qed.

(** The bound itself changes, nothing starts. *)
Lemma sil_state b b' tm s :
  r_silence s = Some b -> tm_ext (fun _ _ => False) (r_timers s) tm ->
  cs_after b' = cs_after b -> cs_gen b' = cs_gen b -> (cs_audio b' = true -> cs_audio b = true) ->
  (cs_running b' = true -> cs_running b = true) -> (cs_due b' = true -> cs_due b = true) ->
  sil_ok c tk s -> sil_ok c tk (s <| r_silence := Some b' |> <| r_timers := tm |>).
Proof.
  intros Hb Ht ? ? ? ? ?. unfold sil_ok. usimpl. rewrite Hb. destruct (r_marks s); [|done].
  intros Hq. eapply qinv_tm_ext; [exact Ht | auto |]. by eapply qinv_state; [..|exact Hq].
Qed.

Lemma sil_state' b b' s :
  r_silence s = Some b -> cs_after b' = cs_after b -> cs_gen b' = cs_gen b ->
  (cs_audio b' = true -> cs_audio b = true) ->
  (cs_running b' = true -> cs_running b = true) -> (cs_due b' = true -> cs_due b = true) ->
  sil_ok c tk s -> sil_ok c tk (s <| r_silence := Some b' |>).
Proof.
  intros Hb ? ? ? ? ?. unfold sil_ok. usimpl. rewrite Hb. destruct (r_marks s); [|done].
  by apply qinv_state.
Qed.

Lemma sil_observe ev s : sil_ok c tk s ->
  sil_ok c tk ((if is_tool_done ev then log_ TvTool else id) (with_silence (observeSilence ev) s)).
Proof.
  intros H. unfold with_silence. destruct (r_silence s) as [b|] eqn:Eb.
  2:{ destruct (is_tool_done ev); [|done]. revert H. unfold sil_ok. usimpl. rewrite Eb. intros H T.
      by apply notin_snoc. }
  unfold is_tool_done, observeSilence. destruct (is_speech_start ev) eqn:Es.
  { assert (bool_decide (ev_Type ev = EventResponseDone) = false) as ->.
    { unfold is_speech_start in Es. apply bool_decide_eq_false. intros E. by rewrite E in Es. }
    simpl. eapply sil_state; [done | apply tm_ext_refl | done..]. }
  destruct (bool_decide (ev_Type ev = EventSpeechStopped)) eqn:Et.
  { assert (bool_decide (ev_Type ev = EventResponseDone) = false) as ->.
    { apply bool_decide_eq_true in Et. apply bool_decide_eq_false. rewrite Et. discriminate. }
    simpl. eapply sil_state; [done | apply tm_ext_refl | done..]. }
  destruct (bool_decide (ev_Type ev = EventResponseDone)); simpl.
  2:{ eapply sil_state; [done | apply tm_ext_refl | done..]. }
  destruct (ResponseEndedInFunctionCall (ev_probe ev)); simpl.
  - eapply sil_stopped; [exact Eb | apply tm_ext_StopOpt | done..].
  - destruct (cs_speaking b); eapply sil_state; try exact Eb; try apply tm_ext_refl; done.
Qed.
End SilOk.

(** ** The claim, the arming and the count of a playout mark *)

Lemma count_claimed after now b t tm tk log g at_ :
  qinv after now b t tm tk log -> TvCount g at_ ∈ log -> exists n, TvClaim n g ∈ log.
Proof.
  intros Hq H. apply list_elem_of_split in H as (a & l & E).
  destruct (q_count _ _ _ _ _ _ _ Hq _ _ _ _ E) as (_ & (n & a1 & a2 & -> & _) & _). exists n. rewrite E. set_solver.
Qed.

Lemma claimed_in n g P log : claimed n g P log -> TvClaim n g ∈ log.
Proof. intros (a1 & a2 & -> & _). set_solver. Qed.

Lemma qinv_claim after now b b' t tm log n g :
  cs_after b' = cs_after b -> cs_gen b' = cs_gen b -> cs_audio b' = false ->
  (cs_running b' = true -> cs_running b = true) -> (cs_due b' = true -> cs_due b = true) ->
  cs_audio b = true -> g = cs_gen b ->
  qinv after now b t tm None log -> qinv after now b' t tm (Some (n, g, false)) (log ++ [TvClaim n g]).
Proof.
  intros Ea Eg Eau Hru Hdu Ha -> Hq. pose proof Hq as [H1 H2 H3 H4 H5 H6 H7 H8 H9 H10 H11 H12 H13].
  specialize (H4 Ha).
  assert (Hcnt : forall at_, TvCount (cs_gen b) at_ ∉ log).
  { intros at_ Hin. destruct (count_claimed _ _ _ _ _ _ _ _ _ Hq Hin) as [n' Hc]. by apply (H4 n'). }
  constructor; try done.
  - congruence.
  - rewrite bumps_app, bumps_cons. change (bumps []) with O. simpl. lia.
  - intros a n' g' l E. apply log_split1 in E as [(l' & -> & E)|(-> & E & _)]; [eauto | by simplify_eq].
  - congruence.
  - intros a g at_ l E. apply log_split1 in E as [(l' & -> & E)|(_ & E & _)]; [eauto | done].
  - intros n' m g Hn Hp. destruct (H6 _ _ _ Hn Hp) as [Hc Hno]. split.
    + revert Hc. apply claimed_snoc. intros l [? [due ?]]. split; [set_solver|]. exists due. set_solver.
    + intros at_. by apply notin_snoc.
  - intros n' g w [= -> <- <-]. split_and!.
    + exists log, []. done.
    + intros at_. by apply notin_snoc.
    + intros n'' m Hn Hp. destruct (H6 _ _ _ Hn Hp) as [Hc _]. apply claimed_in in Hc. by apply (H4 n'').
  - intros id due g Hp. destruct (H9 _ _ _ Hp) as (at_ & Hin & Hle). exists at_. set_solver.
  - intros id g Hp. destruct (H10 _ _ Hp) as (at_ & Hin & Hle). exists at_. set_solver.
  - intros Hr. destruct (H11 (Hru Hr)) as (a & at_ & l & -> & Hl). rewrite Eg.
    exists a, at_, (l ++ [TvClaim n (cs_gen b)]). split; [by rewrite <- app_assoc | by apply no_tool_snoc].
  - intros Hr. destruct (H12 (Hdu Hr)) as (a & at_ & l & -> & Hl & Hle). rewrite Eg.
    exists a, at_, (l ++ [TvClaim n (cs_gen b)]).
    split_and!; [by rewrite <- app_assoc | by apply no_tool_snoc | done].
  - intros a T l E. apply log_split1 in E as [(l' & -> & E)|(_ & E & _)]; [eauto | done].
Qed.

(** The token passes to the tracker when its mark is armed. *)
Lemma qinv_arm after now b t t' tm tk log name m due :
  (forall g, om_played m = Some g -> tk = Some (name, g, true)) ->
  mk_outstanding t' = <[name := m]> (mk_outstanding t) ->
  qinv after now b t tm tk log ->
  qinv after now b t' tm (match om_played m with Some _ => None | None => tk end)
    (log ++ [TvArm name (om_gen m) due (bool_decide (is_Some (om_played m)))]).
Proof.
  intros Htk Ho Hq. apply (qinv_neutral _ _ _ _ _ _ _ (TvArm name (om_gen m) due (bool_decide (is_Some (om_played m))))) in Hq as Hq'; [|done].
  pose proof Hq as [H1 H2 H3 H4 H5 H6 H7 H8 H9 H10 H11 H12 H13].
  destruct Hq' as [H1' H2' H3' H4' H5' H6' H7' H8' H9' H10' H11' H12' H13'].
  constructor; try done.
  - intros n m' g. rewrite Ho, lookup_insert_Some. intros [[<- <-]|[_ Hn]] Hp; [|by eapply H6'].
    destruct (H8 _ _ _ (Htk _ Hp)) as (Hc & Hno & _). split; [|intros at_; by apply notin_snoc].
    revert Hc. apply claimed_snoc. intros l Hw. specialize (Hw eq_refl). rewrite Hp. split; [set_solver|].
    exists due. rewrite bool_decide_eq_true_2 by eauto. set_solver.
  - intros n n' m1 m2 g. rewrite Ho, !lookup_insert_Some. intros [[<- <-]|[Hx Hn]] [[<- <-]|[Hx' Hn']] Hp Hp'; try done.
    + destruct (H8 _ _ _ (Htk _ Hp)) as (_ & _ & Hd). by destruct (Hd _ _ Hn').
    + destruct (H8 _ _ _ (Htk _ Hp')) as (_ & _ & Hd). by destruct (Hd _ _ Hn).
    + by eapply H7.
  - destruct (om_played m) as [g0|] eqn:Ep; [done|]. intros n g w E. destruct (H8' _ _ _ E) as (Hc & Hno & Hd).
    split_and!; [done..|]. intros n' m'. rewrite Ho, lookup_insert_Some. intros [[<- <-]|[_ Hn]]; [congruence | by apply (Hd n')].
Qed.

(** The resolution of a claimed mark starts the count. *)
Lemma qinv_count after now b b' t tm tk log n g :
  cs_after b' = cs_after b -> cs_gen b' = cs_gen b -> (cs_audio b' = true -> cs_audio b = true) ->
  cs_due b' = false -> g = cs_gen b ->
  claimed n g (mark_played n now) log -> (forall at_, TvCount g at_ ∉ log) ->
  (forall n' m, mk_outstanding t !! n' = Some m -> om_played m <> Some g) ->
  (forall n' w, tk <> Some (n', g, w)) ->
  qinv after now b t tm tk log ->
  qinv after now b' t (snd (AfterFunc now after (CbFire g) tm)) tk (log ++ [TvCount g now]).
Proof.
  intros Ea Eg Hau Hdu -> Hcl Hno Hout Htk [H1 H2 H3 H4 H5 H6 H7 H8 H9 H10 H11 H12 H13].
  constructor; try done.
  - congruence.
  - rewrite bumps_app, bumps_cons. change (bumps []) with O. simpl. lia.
  - intros a n' g' l E. apply log_split1 in E as [(l' & -> & E)|(_ & E & _)]; [eauto | done].
  - intros Ha n'. rewrite Eg. apply notin_snoc; [by apply H4, Hau | done].
  - intros a g at_ l E. apply log_split1 in E as [(l' & -> & E)|(-> & E & _)]; [eauto|].
    injection E as -> ->. split_and!; [done | | done]. destruct Hcl as (a1 & a2 & E & Hmp).
    exists n, a1, a2. split; [exact E | exact Hmp].
  - intros n' m g Hn Hp. destruct (H6 _ _ _ Hn Hp) as [Hc Hno']. split.
    + revert Hc. apply claimed_snoc. intros l [? [due ?]]. split; [set_solver|]. exists due. set_solver.
    + intros at_. apply notin_snoc; [done|]. intros [= -> _]. by apply (Hout _ _ Hn).
  - intros n' g w E. destruct (H8 _ _ _ E) as (Hc & Hno' & Hd). split_and!; [| |done].
    + revert Hc. apply claimed_snoc. intros l Hl Hw. set_solver.
    + intros at_. apply notin_snoc; [done|]. intros [= -> _]. by apply (Htk n' w).
  - intros id due g. usimpl. rewrite lookup_insert_Some. intros [[_ [= <- <-]]|[_ Hp]].
    + exists now. split; [set_solver | lia].
    + destruct (H9 _ _ _ Hp) as (at_ & Hin & Hle). exists at_. set_solver.
  - intros id g Hp. destruct (H10 _ _ Hp) as (at_ & Hin & Hle). exists at_. set_solver.
  - intros _. exists log, now, []. by rewrite Eg.
  - congruence.
  - intros a T l E. apply log_split1 in E as [(l' & -> & E)|(_ & E & _)]; [eauto | done].
Qed.

Lemma sil_played c tk n g s :
  claimed n g (mark_played n (r_now s)) (r_log s) -> (forall at_, TvCount g at_ ∉ r_log s) ->
  (forall t n' m, r_marks s = Some t -> mk_outstanding t !! n' = Some m -> om_played m <> Some g) ->
  (forall n' w, tk <> Some (n', g, w)) ->
  sil_ok c tk s -> sil_ok c tk (silence_played g s).
Proof.
  intros Hcl Hno Hout Htk. unfold silence_played, with_silence, sil_ok.
  destruct (r_silence s) as [b|] eqn:Eb; [|by rewrite Eb]. unfold played.
  destruct (cs_stopped b || negb (g =? cs_gen b)%nat || cs_pending b || cs_running b) eqn:Eg; usimpl; [done|].
  destruct (r_marks s) as [t|]; [|done]. intros Hq.
  repeat (apply orb_false_iff in Eg as [Eg ?]).
  assert (g = cs_gen b) as -> by (by apply Nat.eqb_eq, negb_false_iff).
  pose proof (q_after _ _ _ _ _ _ _ Hq) as Ha. rewrite Ha.
  eapply qinv_count; try exact Hq; try exact Hcl; try done. intros n' m Hn. by eapply Hout.
Qed.

(** ** The tracker's operations *)

Section SilMarks.
Context (c : config) (tk : option (string * nat * bool)).
Implicit Types s : rt.

(** Marks leave the tracker, none of them resolved for the bound. *)
Lemma sil_tracker t t' tm s :
  r_marks s = Some t -> tm_ext (fun _ _ => False) (r_timers s) tm ->
  (forall n m, mk_outstanding t' !! n = Some m -> om_played m <> None -> mk_outstanding t !! n = Some m) ->
  sil_ok c tk s -> sil_ok c tk (s <| r_marks := Some t' |> <| r_timers := tm |>).
Proof.
  intros Et Ht Ho. unfold sil_ok. usimpl. rewrite Et. destruct (r_silence s); [|done].
  intros H. eapply qinv_tm_ext; [exact Ht | auto |]. by eapply qinv_tracker; [exact Ho|].
Qed.

Lemma sil_tracker' t t' s :
  r_marks s = Some t ->
  (forall n m, mk_outstanding t' !! n = Some m -> om_played m <> None -> mk_outstanding t !! n = Some m) ->
  sil_ok c tk s -> sil_ok c tk (s <| r_marks := Some t' |>).
Proof.
  intros Et Ho. unfold sil_ok. usimpl. rewrite Et. destruct (r_silence s); [|done]. by apply qinv_tracker.
Qed.

(** A playout mark leaves the tracker, resolved. *)
Lemma sil_resolved t t' tm n m g s :
  r_marks s = Some t -> mk_outstanding t !! n = Some m -> om_played m = Some g ->
  mk_outstanding t' = delete n (mk_outstanding t) -> tm_ext (fun _ _ => False) (r_timers s) tm ->
  (r_silence s <> None -> claimed n g (mark_played n (r_now s)) (r_log s)) ->
  sil_ok c tk s -> sil_ok c tk (silence_played g (s <| r_marks := Some t' |> <| r_timers := tm |>)).
Proof.
  intros Et Hn Hp Ho Ht Hcl H.
  assert (Hs : sil_ok c tk (s <| r_marks := Some t' |> <| r_timers := tm |>)).
  { apply (sil_tracker t); try done. intros n' m'. rewrite Ho, lookup_delete_Some. tauto. }
  destruct (r_silence s) as [b|] eqn:Eb; [|unfold silence_played; usimpl; rewrite Eb in *; exact Hs].
  unfold sil_ok in H. rewrite Eb, Et in H. destruct (q_out _ _ _ _ _ _ _ H _ _ _ Hn Hp) as [_ Hno].
  apply (sil_played c tk n g); usimpl; [by apply Hcl | done | | | done].
  - intros t0 n' m' [= <-]. rewrite Ho, lookup_delete_Some. intros [Hne Hn'] Hp'.
    apply Hne. exact (q_inj _ _ _ _ _ _ _ H _ _ _ _ _ Hn Hn' Hp Hp').
  - intros n' w ->. destruct (q_tok _ _ _ _ _ _ _ H _ _ _ eq_refl) as (_ & _ & Hd). by apply (Hd _ _ Hn).
Qed.

Lemma sil_echo ready name s : sil_ok c tk s -> sil_ok c tk (marks_echo ready name s).
Proof.
  intros H0. pose proof (sil_log _ _ (TvEcho name) _ eq_refl H0) as H. revert H.
  unfold marks_echo. destruct (r_marks s) as [t|] eqn:Et.
  2:{ intros _. revert H0. unfold sil_ok. by rewrite Et. }
  intros H. set (s1 := log_ (TvEcho name) s) in *.
  assert (Et1 : r_marks s1 = Some t) by done.
  assert (Hsame : forall t' tm, tm_ext (fun _ _ => False) (r_timers s) tm ->
    (forall n m, mk_outstanding t' !! n = Some m -> mk_outstanding t !! n = Some m) ->
    sil_ok c tk (s1 <| r_marks := Some t' |> <| r_timers := tm |>))
    by (intros t' tm Ht Ho; apply (sil_tracker t); auto).
  unfold echo. destruct (mk_stopped t); [simpl; apply Hsame; auto using tm_ext_refl|].
  destruct (mk_outstanding t !! name) as [m|] eqn:Em; [|simpl; apply Hsame; auto using tm_ext_refl]. cbv zeta.
  assert (Hdel : forall n' m', delete name (mk_outstanding t) !! n' = Some m' -> mk_outstanding t !! n' = Some m')
    by (intros n' m'; rewrite lookup_delete_Some; tauto).
  destruct (om_played m) as [g|] eqn:Ep.
  - simpl. apply (sil_resolved t _ _ name m); [done..|apply tm_ext_Stop| |exact H]. intros Hb.
    change (r_silence s <> None) in Hb. unfold sil_ok in H0. destruct (r_silence s); [|done]. rewrite Et in H0.
    destruct (q_out _ _ _ _ _ _ _ H0 _ _ _ Em Ep) as [Hc _]. revert Hc. apply claimed_snoc.
    intros l [Hw _]. split; [set_solver | left; set_solver].
  - pose proof (resolveAwait_same (await_key name) (t <| mk_outstanding ::= delete name |>)) as (E1 & E2 & _).
    destruct (resolveAwaitLocked _ _) as [[] t']; simpl in E2; simpl.
    + apply Hsame; [apply tm_ext_Stop | by rewrite E2].
    + apply (sil_log _ _ (TvDeliver _ _ _)); [done|]. apply Hsame; [apply tm_ext_Stop|]. usimpl. by rewrite E2.
Qed.

Lemma sil_expire ready name gen s : marks_ok s ->
  (r_marks s <> None -> exists due po, TvArm name gen due po ∈ r_log s /\ due <= r_now s) ->
  sil_ok c tk s -> sil_ok c tk (marks_expire ready name gen s).
Proof.
  intros Hm Harm H. unfold marks_expire. destruct (r_marks s) as [t|] eqn:Et; [|done].
  destruct Harm as (due & po & Harm & Hle); [done|].
  assert (Hsame : forall t', (forall n m, mk_outstanding t' !! n = Some m -> mk_outstanding t !! n = Some m) ->
    sil_ok c tk (s <| r_marks := Some t' |>)) by (intros t' Ho; apply (sil_tracker' t); auto).
  unfold expire. destruct (mk_stopped t); [simpl; by apply Hsame|].
  destruct (mk_outstanding t !! name) as [m|] eqn:Em; [|simpl; by apply Hsame].
  destruct (om_gen m =? gen)%nat eqn:Eg; simpl; [|by apply Hsame]. apply Nat.eqb_eq in Eg. subst gen.
  pose proof (resolveAwait_same (await_key name) (t <| mk_outstanding ::= delete name |>)) as (E1 & E2 & _).
  destruct (resolveAwaitLocked _ _) as [owned t']; simpl in E2.
  assert (Ht' : sil_ok c tk (s <| r_marks := Some t' |>)).
  { apply Hsame. rewrite E2. intros n' m'. rewrite lookup_delete_Some. tauto. }
  destruct (om_played m) as [g|] eqn:Ep; simpl.
  - replace (s <| r_marks := Some t' |>) with (s <| r_marks := Some t' |> <| r_timers := r_timers s |>)
      by (by destruct s).
    apply (sil_resolved t _ _ name m); try done; [apply tm_ext_refl|]. intros Hb.
    unfold sil_ok, marks_ok in *. rewrite Et in *. destruct (r_silence s); [|done].
    destruct (q_out _ _ _ _ _ _ _ H _ _ _ Em Ep) as [(a1 & a2 & E & Hw & due' & Hin) _].
    exists a1, a2. split; [done|]. split; [done|]. right. exists (om_gen m), due'. split; [done|].
    assert (Hin' : TvArm name (om_gen m) due' true ∈ r_log s) by (rewrite E; set_solver).
    by destruct (arm_unique _ _ _ _ _ _ _ _ _ _ _ Hm Hin' Harm) as (_ & -> & _).
  - destruct owned; simpl; [done|]. apply (sil_log _ _ (TvDeliver _ _ _)); [done|].
    apply Hsame. usimpl. rewrite E2. intros n' m'. rewrite lookup_delete_Some. tauto.
Qed.

Lemma sil_await name s : sil_ok c tk s -> sil_ok c tk (snd (marks_await name s)).
Proof.
  unfold marks_await. destruct (r_marks s) as [t|] eqn:Et; [|done]. intros H.
  unfold await. cbv zeta. destruct (mk_stopped _); simpl; apply (sil_tracker' t); try done.
  destruct (resolveAwait_same None (t <| mk_chans ::= S |>)) as (_ & E2 & _). intros n m. usimpl. by rewrite E2.
Qed.

Lemma sil_stop_marks s : sil_ok c tk s -> sil_ok c tk (with_marks stopMarks s).
Proof.
  unfold with_marks. destruct (r_marks s) as [t|] eqn:Et; [|done]. intros H. unfold stopMarks. usimpl.
  apply (sil_tracker t); [done | | intros n m; usimpl; by rewrite lookup_empty | done]. split.
  - intros id due cb Hp. left. by eapply stop_all_pending.
  - apply stop_all_started.
Qed.

(** An arming, in the slot: the claim's token passes on. *)
Lemma sil_arm name p s :
  (forall g, p = Some g -> tk = Some (name, g, true)) ->
  sil_ok c tk s -> sil_ok c (match p with Some _ => None | None => tk end) (marks_arm name p s).
Proof.
  intros Htk H. unfold marks_arm, sil_ok in *. destruct (r_marks s) as [t|] eqn:Et.
  2:{ rewrite Et. by destruct (r_silence s). }
  set (bound := markEchoBound s). cbv zeta.
  assert (Hst : forall op, with_marks op s = s <| r_marks := Some (fst (op t (r_timers s))) |> <| r_timers := snd (op t (r_timers s)) |>)
    by (intros op; unfold with_marks; rewrite Et; by destruct (op t _)).
  rewrite Hst. clear Hst. destruct (mk_stopped t) eqn:Es.
  - destruct p as [g|]; simpl; unfold armPlayout, armMark, armLocked; simpl; rewrite Es; simpl;
      destruct (r_silence s); try done. apply qinv_tok in H. by eapply qinv_tracker; [|exact H].
  - assert (Hext : tm_ext is_CbExpire (r_timers s)
        (snd (AfterFunc (r_now s) bound (CbExpire name (S (mk_gen t)))
           (match mk_outstanding t !! name with Some old => Stop (om_timer old) (r_timers s) | None => r_timers s end)))).
    { eapply tm_ext_trans; [|by apply (tm_ext_AfterFunc is_CbExpire)]. destruct (mk_outstanding t !! name); auto with s2s. }
    destruct p as [g|]; simpl; unfold armPlayout, armMark, armLocked; simpl; rewrite Es; simpl.
    all: destruct (r_silence s); [|intros T; apply notin_snoc; [apply H | done]].
    all: eapply qinv_tm_ext; [exact Hext | auto |].
    all: match goal with |- context [insert _ ?m] =>
           apply (qinv_arm _ _ _ t _ _ tk _ name m (r_now s + bound)); done end.
Qed.
End SilMarks.

(** ** The decision to end the call *)

Lemma qinv_end after now b b' t tm tk log :
  cs_after b' = cs_after b -> cs_gen b' = cs_gen b -> (cs_audio b' = true -> cs_audio b = true) ->
  cs_running b' = false -> cs_due b' = false -> cs_due b = true ->
  qinv after now b t tm tk log -> qinv after now b' t tm tk (log ++ [TvSilent now]).
Proof.
  intros Ea Eg Hau Hr Hd Hdue [H1 H2 H3 H4 H5 H6 H7 H8 H9 H10 H11 H12 H13]. constructor; try done.
  - congruence.
  - rewrite bumps_app, bumps_cons. change (bumps []) with O. simpl. lia.
  - intros a n' g' l E. apply log_split1 in E as [(l' & -> & E)|(_ & E & _)]; [eauto | done].
  - intros Ha n'. rewrite Eg. apply notin_snoc; [by apply H4, Hau | done].
  - intros a g at_ l E. apply log_split1 in E as [(l' & -> & E)|(_ & E & _)]; [eauto | done].
  - intros n' m g Hn Hp. destruct (H6 _ _ _ Hn Hp) as [Hc Hno]. split.
    + revert Hc. apply claimed_snoc. intros l [? [due ?]]. split; [set_solver|]. exists due. set_solver.
    + intros at_. by apply notin_snoc.
  - intros n' g w E. destruct (H8 _ _ _ E) as (Hc & Hno & Ho). split_and!; [| |done].
    + revert Hc. apply claimed_snoc. intros l Hl Hw. set_solver.
    + intros at_. by apply notin_snoc.
  - intros id due g Hp. destruct (H9 _ _ _ Hp) as (at_ & Hin & Hle). exists at_. set_solver.
  - intros id g Hp. destruct (H10 _ _ Hp) as (at_ & Hin & Hle). exists at_. set_solver.
  - congruence.
  - congruence.
  - intros a T l E. apply log_split1 in E as [(l' & -> & E)|(-> & E & _)]; [eauto|]. injection E as ->.
    destruct (H12 Hdue) as (a1 & at_ & l2 & -> & Hl & Hle).
    destruct (H5 _ _ _ _ eq_refl) as (Hb & (n & c1 & c2 & -> & Hmp) & _).
    pose proof (H3 c1 n (cs_gen b) (c2 ++ TvCount (cs_gen b) at_ :: l2)) as Hg. rewrite <- app_assoc in Hg.
    specialize (Hg eq_refl). rewrite !bumps_app, !bumps_cons in *. simpl in *.
    exists c1, n, (cs_gen b), c2, at_, l2. rewrite <- app_assoc. split_and!; try done; lia.
Qed.

(** The countdown that ran out at its generation was this count's. *)
Lemma qinv_fire after now b t tm tk log id g :
  tm_started tm !! id = Some (CbFire g) ->
  qinv after now b t tm tk log -> qinv after now (fireSilence g b) t tm tk log.
Proof.
  intros Hid Hq. unfold fireSilence.
  destruct (cs_stopped b || negb (g =? cs_gen b)%nat || negb (cs_running b)) eqn:E; [done|].
  apply orb_false_iff in E as [E Er]. apply orb_false_iff in E as [_ Eg].
  apply negb_false_iff in Eg, Er. apply Nat.eqb_eq in Eg. subst g.
  pose proof Hq as [H1 H2 H3 H4 H5 H6 H7 H8 H9 H10 H11 H12 H13].
  constructor; simpl; try done. intros _.
  destruct (H11 Er) as (a & at_ & l & E & Hl). destruct (H10 _ _ Hid) as (at' & Hin & Hle).
  exists a, at_, l. split_and!; [done..|].
  apply list_elem_of_split in Hin as (a' & l' & E').
  destruct (H5 _ _ _ _ E) as (_ & _ & Hu). destruct (H5 _ _ _ _ E') as (_ & _ & Hu').
  rewrite E in E'. apply app_eq_inv in E' as [(m & -> & Hm)|(m & -> & Hm)]; destruct m as [|e m]; simpl in Hm; simplify_eq; try lia.
  - destruct (Hu' at_). set_solver.
  - destruct (Hu at'). set_solver.
Qed.

(** ** Every step *)

Section SilSteps.
Context (c : config).
Implicit Types s : rt.

Lemma sil_tok tk s : sil_ok c tk s -> sil_ok c None s.
Proof. unfold sil_ok. destruct (r_silence s), (r_marks s); try done. apply qinv_tok. Qed.

Lemma sil_tick tk d s : 0 <= d -> sil_ok c tk s -> sil_ok c tk (s <| r_now ::= Z.add d |>).
Proof.
  intros Hd. unfold sil_ok. usimpl. destruct (r_silence s), (r_marks s); try done.
  apply qinv_tm; [lia | eauto..].
Qed.

Lemma sil_timers tk tm s :
  (forall id due g, tm_pending tm !! id = Some (due, CbFire g) ->
     exists id', tm_pending (r_timers s) !! id' = Some (due, CbFire g)) ->
  (forall id g, tm_started tm !! id = Some (CbFire g) ->
     (exists id', tm_started (r_timers s) !! id' = Some (CbFire g)) \/
     (exists id' due, tm_pending (r_timers s) !! id' = Some (due, CbFire g) /\ due <= r_now s)) ->
  sil_ok c tk s -> sil_ok c tk (s <| r_timers := tm |>).
Proof. intros Hp Hs. unfold sil_ok. usimpl. destruct (r_silence s), (r_marks s); try done. by apply qinv_tm. Qed.

Lemma sil_tm_start tk id tm s : tm_start (r_now s) id (r_timers s) = Some tm -> sil_ok c tk s ->
  sil_ok c tk (s <| r_timers := tm |>).
Proof.
  unfold tm_start. destruct (tm_pending (r_timers s) !! id) as [[due cb]|] eqn:E; [|done].
  destruct (due <=? r_now s) eqn:El; [|done]. intros [= <-]. apply Z.leb_le in El. apply sil_timers; usimpl.
  - intros id' due' g. rewrite lookup_delete_Some. intros [_ H]. eauto.
  - intros id' g. rewrite lookup_insert_Some. intros [[<- ->]|[_ H]]; eauto.
Qed.

Lemma sil_tm_take tk id cb tm s : tm_take id (r_timers s) = Some (cb, tm) -> sil_ok c tk s ->
  sil_ok c tk (s <| r_timers := tm |>).
Proof.
  unfold tm_take. destruct (tm_started (r_timers s) !! id) as [cb'|] eqn:E; [|done].
  intros [= <- <-]. apply sil_timers; usimpl; [eauto|].
  intros id' g. rewrite lookup_delete_Some. intros [_ H]. eauto.
Qed.

Lemma sil_callback tk ready id cb tm s : marks_ok s -> tm_take id (r_timers s) = Some (cb, tm) ->
  sil_ok c tk s -> sil_ok c tk (run_callback ready cb (s <| r_timers := tm |>)).
Proof.
  intros Hm Ht H. pose proof (sil_tm_take tk _ _ _ _ Ht H) as Hs. destruct cb as [g b|n g|g]; simpl.
  - destruct (r_filler s); [|done]. destruct (startFiller _ _) as [[] f']; [|exact Hs].
    by apply (sil_log c tk (TvSpawn g)) in Hs.
  - apply sil_expire; [by eapply marks_ok_tm_take | | done].
    intros Hn. exact (taken_armed _ _ _ _ _ Ht Hm Hn).
  - unfold tm_take in Ht. destruct (tm_started (r_timers s) !! id) as [cb|] eqn:E; [|done]. simplify_eq.
    unfold with_silence. usimpl. destruct (r_silence s) as [b|] eqn:Eb; [|done].
    unfold sil_ok in *. usimpl. rewrite Eb in *. destruct (r_marks s); [|done].
    eapply (qinv_tm _ (r_now s)); [lia | | | by eapply qinv_fire]; usimpl; [eauto|].
    intros id' g'. rewrite lookup_delete_Some. intros [_ ?]. eauto.
Qed.

Lemma sil_bridge tk s s' : bridge_local s = Some s' -> sil_ok c tk s -> sil_ok c tk s'.
Proof.
  intros H Hm. revert H. unfold bridge_local. destruct (r_bridge s); try discriminate.
  - intros [= <-]. exact Hm.
  - intros [= <-]. unfold publishEvent. case_match; exact Hm.
  - intros [= <-]. by apply (sil_log c tk (TvDispatch ev)) in Hm.
  - intros [= <-]. exact Hm.
  - pose proof (sil_fill_stop c tk s Hm) as H. destruct (fill_stop s). intros [= <-]. exact H.
  - intros [= <-]. exact (sil_spoke c tk s Hm).
  - intros [= <-]. exact Hm.
  - intros [= <-]. exact (sil_fill_stop c tk s Hm).
  - case_match; intros [= <-]. exact Hm.
Qed.

Lemma sil_drain tk s s' : drain_local s = Some s' -> sil_ok c tk s -> sil_ok c tk s'.
Proof.
  intros H Hm. revert H. unfold drain_local. destruct (r_drain s).
  - destruct (r_events s) as [|e l]; intros [= <-]. by apply (sil_log c tk (TvDrained e)) in Hm.
  - intros [= <-]. apply (sil_filler c tk (observeFiller ev (r_now s))) in Hm; [exact Hm | intros; apply observeFiller_tm].
  - intros [= <-]. apply (sil_observe c tk ev) in Hm. by destruct (is_tool_done ev).
Qed.

Lemma sil_shutdown tk s : sil_ok c tk s -> sil_ok c tk (fill_shutdown s).
Proof. apply sil_filler, shutdownFiller_tm. Qed.

Lemma sil_expired tk b s : r_silence s = Some b -> sil_ok c tk s ->
  let '(ended, (b', tm)) := endSilence b (r_timers s) in
  let s' := s <| r_silence := Some b' |> <| r_timers := tm |> in
  sil_ok c tk (if ended then log_ (TvSilent (r_now s)) s' else s').
Proof.
  intros Eb H. unfold endSilence. destruct (cs_stopped b || negb (cs_due b)) eqn:E.
  { cbv zeta. eapply sil_state; [exact Eb | apply tm_ext_refl | done..]. }
  apply orb_false_iff in E as [_ Ed]. apply negb_false_iff in Ed. simpl.
  unfold sil_ok in *. usimpl. rewrite Eb in H. destruct (r_marks s); [|done].
  eapply qinv_tm_ext; [apply (tm_ext_StopOpt (fun _ _ => False)) | auto |]. by eapply qinv_end; [..|exact H].
Qed.

Lemma sil_select tk s s' : select_local c s = Some s' -> sil_ok c tk s -> sil_ok c tk s'.
Proof.
  intros H Hm. revert H. unfold select_local. destruct (r_select s); try discriminate.
  - destruct (r_silence s) as [b|] eqn:Eb; [|intros [= <-]; exact Hm].
    pose proof (sil_expired tk b s Eb Hm) as H. destruct (endSilence b (r_timers s)) as [[] [b' tm]];
      intros [= <-]; [|exact H]. unfold endWithFarewell. by case_match.
  - destruct (r_silence s) as [b|] eqn:Eb; [|intros [= <-]; exact Hm].
    destruct (takeRequest b) as [tag b'] eqn:Er. intros [= <-]. unfold takeRequest in Er.
    destruct (_ || _); simplify_eq; by apply (sil_state' c tk _ _ _ Eb).
  - destruct (r_silence s) as [b|] eqn:Eb; [|intros [= <-]; exact Hm]. simpl. intros [= <-].
    by apply (sil_state' c tk b _ _ Eb).
  - intros [= <-]. exact (sil_fill_stop c tk s Hm).
  - intros [= <-]. exact Hm.
  - intros [= <-]. exact (sil_fill_stop c tk s Hm).
  - intros [= <-]. exact Hm.
  - intros [= <-]. exact (sil_shutdown tk s Hm).
  - intros [= <-]. unfold farewell_next. destruct rest; [|exact Hm].
    pose proof (sil_await c tk (farewell_mark c) s Hm) as H. destruct (marks_await _ _). exact H.
  - destruct (_ || _); intros [= <-]. exact Hm.
  - intros [= <-]. exact (sil_shutdown tk s Hm).
  - intros [= <-]. exact (sil_stop_marks c tk s Hm).
  - intros [= <-]. unfold with_silence. destruct (r_silence s) as [b|] eqn:Eb; [|exact Hm]. simpl.
    change (sil_ok c tk (s <| r_silence := Some (fst (stopSilence b (r_timers s))) |>
      <| r_timers := snd (stopSilence b (r_timers s)) |>)).
    eapply sil_state; [exact Eb | apply tm_ext_StopOpt | done..].
Qed.

Lemma sil_case tk k s s' : select_case c k s = Some s' -> sil_ok c tk s -> sil_ok c tk s'.
Proof.
  intros H Hm. destruct k; simpl in H; repeat case_match; simplify_eq; try exact Hm;
    try (unfold endWithFarewell; by case_match).
  all: by eapply sil_state'.
Qed.

(** Only a playout mark's message carries a claim. *)
Definition gslot s : Prop :=
  match r_slot s with
  | Some (_, w, PhWrite _ (Some _)) | Some (_, w, PhAfter _ (Some _)) => exists n tag, w = WqPlayout n tag
  | _ => True
  end.

Definition silence_ok s : Prop := sil_ok c (tok s) s /\ gslot s.

Lemma silence_ok_same s s' : r_slot s' = r_slot s -> gslot s -> sil_ok c (tok s) s' -> silence_ok s'.
Proof. intros E Hg H. unfold silence_ok, gslot, tok in *. by rewrite E. Qed.

Lemma sil_build w s : sil_ok c None s -> r_slot s <> None ->
  sil_ok c (match fst (build w s) with
            | Some (m, g) => match w, g with WqPlayout n _, Some g => Some (n, g, false) | _, _ => None end
            | None => None end) (snd (build w s)) /\
  forall m g, fst (build w s) = Some (m, Some g) -> exists n tag, w = WqPlayout n tag.
Proof.
  intros H Hs. destruct w as [p o|p|gen|o|name|name tag]; simpl; try (destruct (r_farewelling s); done); try done.
  - destruct (r_filler s); [|done]. destruct (nextFrame _ _) as [[?|] ?]; done.
  - destruct (r_silence s) as [b|] eqn:Eb; [|done]. unfold claim.
    destruct (cs_stopped b || negb (cs_starts b =? tag)%nat || negb (cs_audio b)) eqn:E; simpl.
    { split; [|done]. by apply (sil_state' c None _ _ _ Eb). }
    apply orb_false_iff in E as [_ E]. apply negb_false_iff in E. split; [|eauto].
    unfold sil_ok in *. usimpl. revert H. rewrite Eb. destruct (r_marks s); [|done]. by apply qinv_claim.
Qed.

Lemma sil_afterWrite ready m g s tk :
  (forall g', g = Some g' -> exists n, m = WmMark n /\ tk = Some (n, g', true)) ->
  sil_ok c tk s -> sil_ok c None (afterWrite ready m g s).
Proof.
  intros Hg H. assert (H0 := sil_tok _ _ H). destruct m as [[]| |name]; simpl; try exact H0.
  - by apply sil_agentAudio.
  - destruct g as [g|].
    + apply (sil_arm c tk name (Some g)); [|done]. intros g' [= ->]. by destruct (Hg _ eq_refl) as (n & [= <-] & ->).
    + by apply (sil_arm c None name None).
Qed.

Lemma sil_continue tk t res s : sil_ok c tk s -> sil_ok c tk (continue t res s).
Proof.
  intros H. destruct t; simpl; [by destruct (r_bridge s) | | exact H].
  destruct (r_select s); try done. by destruct res, k.
Qed.

Lemma sil_slot_none tk v s : sil_ok c tk s -> sil_ok c tk (s <| r_slot := v |>).
Proof. done. Qed.

Lemma silence_ok_slot ok ready s s' : slot_wf s -> slot_local ok ready s = Some s' -> silence_ok s -> silence_ok s'.
Proof.
  intros Hwf H [Hs Hg]. revert H. unfold slot_local. unfold silence_ok, gslot, tok, slot_wf in *.
  destruct (r_slot s) as [[[t w] [|m g|m g|res]]|] eqn:Es; [..|done].
  - assert (Hn : sil_ok c None s) by (by destruct w).
    destruct (sil_build w s Hn) as [Hb Hgs]; [congruence|]. destruct (build w s) as [r s1].
    intros [= <-]. usimpl. simpl in Hb, Hgs. destruct r as [[m [g|]]|].
    + destruct (Hgs _ _ eq_refl) as (n & tag & ->). split; [exact Hb | eauto].
    + split; [by destruct w | done].
    + split; [by destruct w | done].
  - destruct (ok && negb (r_closed s)); intros [= <-]; usimpl.
    2:{ split; [|done]. destruct w; exact (sil_tok _ _ Hs). }
    split; [|by destruct g].
    assert (Hl : sil_ok c (match w, g with WqPlayout n _, Some g => Some (n, g, false) | _, _ => None end)
                   (log_ (TvWire m) s)) by (by apply sil_log; destruct w, g).
    destruct w; try exact (sil_tok _ _ Hl). destruct g as [g|]; [|exact (sil_tok _ _ Hl)].
    destruct m as [| |n]; try by destruct Hwf. destruct Hwf as [_ ->].
    revert Hl. unfold sil_ok. usimpl. destruct (r_silence s), (r_marks s); try done. intros [].
    constructor; try done. intros n' g' w [= <- <- <-]. destruct (q_tok0 _ _ _ eq_refl) as ((a1 & a2 & E & _) & Ho).
    split; [|exact Ho]. destruct (decide (a2 = [])) as [->|Hne].
    + apply app_inj_tail in E as [_ E]. done.
    + destruct (exists_last Hne) as (a3 & e & ->). exists a1, (a3 ++ [e]). split; [done|]. intros _.
      rewrite app_comm_cons, app_assoc in E. apply app_inj_tail in E as [_ <-]. set_solver.
  - intros [= <-]. usimpl. split; [|done].
    assert (H : sil_ok c None (afterWrite ready m g s)); [|by destruct w].
    eapply sil_afterWrite; [|exact Hs]. intros g' ->. destruct Hg as (n & tag & ->).
    destruct m as [| |n']; try by destruct Hwf. destruct Hwf as [_ Hn]. simpl in Hn. subst n'. eauto.
  - intros [= <-]. rewrite continue_slot. usimpl. split; [|done]. apply sil_slot_none, sil_continue. by destruct w.
Qed.

Lemma silence_ok_step s s' : slot_wf s -> marks_ok s -> rstep c s s' -> silence_ok s -> silence_ok s'.
Proof.
  intros Hwf Hmk Hst [Hs Hg].
  assert (Hloc : (exists l, rloc s s' l) -> sil_ok c (tok s) s' -> silence_ok s')
    by (intros [l Hl]; by apply silence_ok_same; [apply Hl|]).
  destruct Hst; try (by apply (silence_ok_same s));
    eauto using bridge_local_sum, sil_bridge, drain_local_sum, sil_drain, select_local_sum, sil_select,
      select_case_sum, sil_case, silence_ok_slot.
  - by apply (silence_ok_same s); [..|apply sil_tick].
  - apply (silence_ok_same s); [done..|]. by apply (sil_log c _ (TvRead ev)) in Hs.
  - destruct (marks_echo_aux ready name s) as [l Hl]. apply (silence_ok_same s); [apply Hl | done | by apply sil_echo].
  - apply (silence_ok_same s); [done..|]. by eapply sil_tm_start.
  - destruct (run_callback_aux ready cb (s <| r_timers := tm |>)) as (l & s1 & Ha & Hp).
    apply (silence_ok_same s); [|done | by eapply sil_callback].
    rewrite (pcs_slot _ _ Hp), (aux_slot _ _ _ Ha). done.
  - pose proof (with_filler_aux (fun f tm => (endEpisode gen f, tm)) s (fun f tm => endEpisode_fle gen f)) as Ha.
    apply (silence_ok_same s); [apply Ha | done|].
    apply (sil_filler c _ (fun f tm => (endEpisode gen f, tm))) in Hs; [exact Hs | intros; apply tm_ext_refl].
  - unfold silence_ok, gslot, tok in *. usimpl. rewrite H0 in *. split; [by destruct w | done].
  - destruct (continue_same t RFailed s) as (_ & _ & _ & E). apply (silence_ok_same s); [done..|]. by apply sil_continue.
  - by eapply silence_ok_slot.
Qed.

Lemma silence_ok_init now : silence_ok (rt_init c now).
Proof.
  unfold silence_ok, gslot, tok. rewrite rt_init_slot. split; [|done].
  apply sil_filler; [apply armFiller_tm|]. unfold sil_ok. usimpl. unfold newCallerSilence.
  destruct (cfg_callerSilenceTimeout c <=? 0); [set_solver|]. rewrite orb_true_r.
  constructor; simpl; try done; try (intros *; by rewrite lookup_empty).
  all: try (intros a *; by destruct a).
Qed.
End SilSteps.

Lemma silence_ok_reach c now s : rreach c now s -> silence_ok c s.
Proof.
  induction 1; [apply silence_ok_init|]. eapply silence_ok_step; eauto using slot_wf_reach, marks_ok_reach.
Qed.

(** C10: When a call is ended on the caller's silence, a playout mark was claimed, written
    and resolved (echoed, or past its bound), the count started at that resolution, neither
    caller speech nor agent audio came after the claim, no tool call ended a response after
    the count began, and the configured bound has elapsed. *)
Theorem silence_ended_call_was_silent c now s a T b :
  rreach c now s -> r_log s = a ++ TvSilent T :: b ->
  exists a1 n g a2 at_ a3,
    a = a1 ++ TvClaim n g :: a2 ++ TvCount g at_ :: a3 /\
    bumps (a2 ++ a3) = O /\ no_tool a3 /\ mark_played n at_ a2 /\
    at_ + cfg_callerSilenceTimeout c <= T.
Proof.
  intros Hr Hlog. apply silence_ok_reach in Hr as [H _]. unfold sil_ok in H.
  destruct (r_silence s).
  - destruct (r_marks s); [|done].
    destruct (q_silent _ _ _ _ _ _ _ H _ _ _ Hlog) as (a1 & n & g & a2 & at_ & a3 & -> & H2 & H3 & Ht & Hm & Hle).
    exists a1, n, g, a2, at_, a3. rewrite bumps_app. split_and!; try done; lia.
  - exfalso. apply (H T). rewrite Hlog. set_solver.
Qed.
