(* ===== verification/SinkBridge.v ===== *)
(** * SinkBridge: what becomes of every server event

    [Bridge.Run] reads the backend's events one by one: each is published to
    the call's event channel, or counted as dropped when its sixteen slots are
    taken, and then dispatched.  The drain sees the published ones in order. *)

From S2P Require Export Sink.
From S2P Require Import Filler Silence Marks.

Definition reads (l : list tev) : list ServerEvent := omap (fun e => match e with TvRead ev => Some ev | _ => None end) l.
Definition dispatched (l : list tev) : list ServerEvent := omap (fun e => match e with TvDispatch ev => Some ev | _ => None end) l.
Definition drained (l : list tev) : list ServerEvent := omap (fun e => match e with TvDrained ev => Some ev | _ => None end) l.

(** The event the bridge has read and not dispatched, not published. *)
Definition inflight (b : bpc) : list ServerEvent :=
  match b with BActivity ev | BPublish ev | BDispatch ev => [ev] | _ => [] end.
Definition unpublished (b : bpc) : list ServerEvent :=
  match b with BActivity ev | BPublish ev => [ev] | _ => [] end.

(** What the accounting is about. *)
Record bview := mkBview {
  bv_reads : list ServerEvent; bv_dispatched : list ServerEvent; bv_drained : list ServerEvent;
  bv_events : list ServerEvent; bv_dropped : nat
}.

Definition core (s : rt) : bview :=
  mkBview (reads (r_log s)) (dispatched (r_log s)) (drained (r_log s)) (r_events s) (r_eventsDropped s).
Definition view (s : rt) : bview * bpc := (core s, r_bridge s).

Record accounted (v : bview) (b : bpc) : Prop := mkAccounted {
  ac_dispatched : bv_reads v = bv_dispatched v ++ inflight b;
  ac_published : exists pub, bv_reads v = pub ++ unpublished b /\
    bv_drained v ++ bv_events v `sublist_of` pub /\
    length pub = (length (bv_drained v) + length (bv_events v) + bv_dropped v)%nat;
  ac_bound : (length (bv_events v) <= bridgeBuffer)%nat
}.

(** ** Steps the accounting does not see *)

Definition bev (e : tev) : bool := match e with TvRead _ | TvDispatch _ | TvDrained _ => true | _ => false end.

Lemma view_log e s : bev e = false -> view (log_ e s) = view s.
Proof.
  intros He. unfold view, core, reads, dispatched, drained. usimpl. rewrite !omap_app.
  destruct e; try discriminate He; simpl; by rewrite !app_nil_r.
Qed.

Ltac view_case := repeat case_match; try done; rewrite ?view_log by done; try done.

Lemma view_filler op s : view (with_filler op s) = view s.
Proof. unfold with_filler. view_case. Qed.
Lemma view_silence op s : view (with_silence op s) = view s.
Proof. unfold with_silence. view_case. Qed.
Lemma view_marks op s : view (with_marks op s) = view s.
Proof. unfold with_marks. view_case. Qed.

#[local] Hint Rewrite view_filler view_silence view_marks : view.

Lemma view_fill_stop s : view (snd (fill_stop s)) = view s.
Proof. unfold fill_stop. destruct (r_filler s); [|done]. simpl. destruct (f_playing _); rewrite ?view_log by done; by autorewrite with view. Qed.
Lemma view_spoke s : view (silence_spoke s) = view s.
Proof. unfold silence_spoke. destruct (r_silence s); [|done]. rewrite view_log by done. by autorewrite with view. Qed.
Lemma view_agentAudio s : view (silence_agentAudio s) = view s.
Proof. unfold silence_agentAudio. destruct (r_silence s); [|done]. rewrite view_log by done. by autorewrite with view. Qed.
Lemma view_played g s : view (silence_played g s) = view s.
Proof. unfold silence_played. destruct (r_silence s); [|done]. cbv zeta. case_match; rewrite ?view_log by done; by autorewrite with view. Qed.

Lemma view_resolved r s : view (resolved r s) = view s.
Proof. destruct r; simpl; [done | apply view_played | done | by apply view_log]. Qed.

Lemma view_echo ready name s : view (marks_echo ready name s) = view s.
Proof.
  unfold marks_echo. destruct (r_marks s); [|done]. destruct (echo _ _ _ _) as [r [t tm]].
  rewrite view_resolved. exact (view_log (TvEcho name) s eq_refl).
Qed.
Lemma view_expire ready name gen s : view (marks_expire ready name gen s) = view s.
Proof. unfold marks_expire. destruct (r_marks s); [|done]. destruct (expire _ _ _ _). by rewrite view_resolved. Qed.
Lemma view_arm name p s : view (marks_arm name p s) = view s.
Proof. unfold marks_arm. destruct (r_marks s); [|done]. cbv zeta. case_match; rewrite ?view_log by done; by autorewrite with view. Qed.
Lemma view_await name s : view (snd (marks_await name s)) = view s.
Proof. unfold marks_await. destruct (r_marks s); [|done]. by destruct (await _ _). Qed.
Lemma view_build w s : view (snd (build w s)) = view s.
Proof.
  destruct w; simpl; try done.
  - destruct (r_filler s); [|done]. by destruct (nextFrame _ _).
  - destruct (r_silence s); [|done]. destruct (claim _ _) as [[g|] b]; [|done].
    exact (view_log (TvClaim name g) (s <| r_silence := Some b |>) eq_refl).
Qed.
Lemma view_afterWrite ready m g s : view (afterWrite ready m g s) = view s.
Proof. destruct m as [[]| |]; simpl; try done; [by rewrite view_agentAudio | by rewrite view_arm]. Qed.
Lemma view_callback ready cb tm s : view (run_callback ready cb (s <| r_timers := tm |>)) = view s.
Proof.
  destruct cb; simpl; [|by rewrite view_expire | by rewrite view_silence].
  destruct (r_filler s); [|done]. destruct (startFiller _ _) as [[] f']; [|done].
  exact (view_log (TvSpawn gen) (s <| r_timers := tm |> <| r_filler := Some f' |>) eq_refl).
Qed.

(** The bridge's counter, where it is between events. *)
Definition idle_pc (b : bpc) : Prop := inflight b = [] /\ unpublished b = [].

Lemma accounted_idle v b b' : idle_pc b -> idle_pc b' -> accounted v b -> accounted v b'.
Proof. intros [E1 E2] [E1' E2'] [H1 H2 H3]. constructor; rewrite ?E1', ?E2'; rewrite E1, ?E2 in *; done. Qed.

Lemma view_inv s s' : view s' = view s -> core s' = core s /\ r_bridge s' = r_bridge s.
Proof. intros H. split; [exact (f_equal fst H) | exact (f_equal snd H)]. Qed.

(** ** The bridge, the drain, the others *)

Lemma accounted_bridge s s' : bridge_local s = Some s' -> accounted (core s) (r_bridge s) -> accounted (core s') (r_bridge s').
Proof.
  intros H Hi. revert H. unfold bridge_local.
  destruct (r_bridge s) as [|ev|ev|ev|p|p| |k|k|w k|tr|] eqn:Eb; try discriminate.
  - intros [= <-]. by destruct Hi; constructor.
  - intros [= <-]. destruct Hi as [H1 (pub & H2 & H3 & H4) H5]. unfold publishEvent. simpl in *.
    destruct (chan_try_send bridgeBuffer ev (r_events s)) as [ch|] eqn:Ec.
    + apply chan_try_send_bound in Ec as [-> Hl]. constructor; simpl in *; [done | | done].
      exists (pub ++ [ev]). rewrite app_nil_r. split_and!; [done | |rewrite !length_app; simpl; lia].
      rewrite app_assoc. by apply sublist_app.
    + constructor; simpl in *; [done | | done].
      exists (pub ++ [ev]). rewrite app_nil_r. split_and!; [done | |rewrite !length_app; simpl; lia].
      by apply sublist_inserts_r.
  - intros [= <-]. destruct Hi as [H1 (pub & H2 & H3 & H4) H5]. unfold core, reads, dispatched, drained in *. simpl in *.
    assert (inflight (dispatch ev) = [] /\ unpublished (dispatch ev) = []) as [E1 E2]
      by (unfold dispatch; repeat case_match; done).
    constructor; simpl; rewrite ?omap_app; simpl; rewrite ?E1, ?E2, ?app_nil_r in *; [done | | done]. exists pub. by rewrite app_nil_r.
  - intros [= <-]. simpl. eapply accounted_idle; [..|exact Hi]; [done | by case_match].
  - pose proof (view_fill_stop s) as Ev. destruct (fill_stop s) as [was s1]. simpl in Ev. intros [= <-].
    apply (view_inv s) in Ev as [Ev _]. change (accounted (core s1) (if was then BClear (KMedia p (fill_gen s1)) else BWrite (WqMedia p None) KRead)).
    rewrite Ev. eapply accounted_idle; [..|exact Hi]; [done | by destruct was].
  - intros [= <-]. simpl. change (accounted (core (silence_spoke s)) (BClear KRead)).
    destruct (view_inv _ _ (view_spoke s)) as [-> _].
    by eapply accounted_idle; [..|exact Hi].
  - intros [= <-]. eapply accounted_idle; [..|exact Hi]; [done|]. simpl. case_match; [by destruct k | done].
  - intros [= <-]. change (accounted (core (snd (fill_stop s))) (BWrite (WqClear (fill_gen (snd (fill_stop s)))) k)).
    destruct (view_inv _ _ (view_fill_stop s)) as [-> _]. by eapply accounted_idle; [..|exact Hi].
  - case_match; intros [= <-]. by eapply accounted_idle; [..|exact Hi].
Qed.

Lemma accounted_drain s s' : drain_local s = Some s' -> accounted (core s) (r_bridge s) ->
  accounted (core s') (r_bridge s').
Proof.
  intros H Hi. revert H. unfold drain_local. destruct (r_drain s).
  - destruct (r_events s) as [|ev rest] eqn:Ee; [done|]. intros [= <-].
    destruct Hi as [H1 (pub & H2 & H3 & H4) H5]. unfold core, reads, dispatched, drained in *. simpl in *. rewrite Ee in *.
    constructor; simpl; rewrite ?omap_app; simpl; rewrite ?app_nil_r; [done | | simpl in H5; lia].
    exists pub. rewrite <- app_assoc, length_app. simpl in *. split_and!; [done..|lia].
  - intros [= <-]. destruct (view_inv _ _ (view_filler (observeFiller ev (r_now s)) s)) as [Ec Eb].
    change (accounted (core (with_filler (observeFiller ev (r_now s)) s)) (r_bridge (with_filler (observeFiller ev (r_now s)) s))).
    by rewrite Ec, Eb.
  - intros [= <-]. set (s1 := if is_tool_done ev then _ else _).
    assert (view s1 = view s) as [Ec Eb]%view_inv.
    { unfold s1. destruct (is_tool_done ev); rewrite ?view_log by done; apply view_silence. }
    change (accounted (core s1) (r_bridge s1)). by rewrite Ec, Eb.
Qed.

Lemma view_select c s s' : select_local c s = Some s' -> view s' = view s.
Proof.
  unfold select_local. destruct (r_select s); try discriminate.
  - destruct (r_silence s) as [b|]; [|by intros [= <-]].
    destruct (endSilence b (r_timers s)) as [[] [b' tm]]; intros [= <-]; [|done].
    transitivity (view (log_ (TvSilent (r_now s)) (s <| r_silence := Some b' |> <| r_timers := tm |>))); [|by rewrite view_log].
    unfold endWithFarewell. by case_match.
  - destruct (r_silence s); [|by intros [= <-]]. destruct (takeRequest _). by intros [= <-].
  - destruct (r_silence s); [|by intros [= <-]]. destruct (nextMarkName _ _). by intros [= <-].
  - intros [= <-]. exact (view_fill_stop s).
  - by intros [= <-].
  - intros [= <-]. exact (view_fill_stop s).
  - by intros [= <-].
  - intros [= <-]. exact (view_filler shutdownFiller s).
  - intros [= <-]. unfold farewell_next. destruct rest; [|done].
    pose proof (view_await (farewell_mark c) s) as H. by destruct (marks_await _ _).
  - destruct (_ || _); by intros [= <-].
  - intros [= <-]. exact (view_filler shutdownFiller s).
  - intros [= <-]. exact (view_marks stopMarks s).
  - intros [= <-]. exact (view_silence stopSilence s).
Qed.

Lemma view_select_case c k s s' : select_case c k s = Some s' -> view s' = view s.
Proof.
  intros H. destruct k; simpl in H; repeat case_match; simplify_eq; try done; unfold endWithFarewell; by case_match.
Qed.

Lemma continue_accounted t res s : accounted (core s) (r_bridge s) ->
  accounted (core (continue t res s)) (r_bridge (continue t res s)).
Proof.
  intros H. destruct t; simpl; [| |exact H].
  - destruct (r_bridge s) eqn:Eb; try (rewrite Eb; exact H).
    eapply accounted_idle; [..|exact H]; [done|]. simpl. destruct res; [by destruct k..|done].
  - destruct (r_select s); try exact H. by destruct res, k.
Qed.

Lemma accounted_slot ok ready s s' : slot_local ok ready s = Some s' -> accounted (core s) (r_bridge s) ->
  accounted (core s') (r_bridge s').
Proof.
  intros H Hi. revert H. unfold slot_local. destruct (r_slot s) as [[[t w] [|m g|m g|res]]|]; [..|done].
  - pose proof (view_build w s) as H. destruct (build w s) as [r s1]. simpl in H. apply view_inv in H as [Ec Eb]. intros [= <-].
    change (accounted (core s1) (r_bridge s1)). by rewrite Ec, Eb.
  - destruct (ok && _); intros [= <-]; [|exact Hi].
    destruct (view_inv _ _ (view_log (TvWire m) s eq_refl)) as [Ec Eb]. change (accounted (core (log_ (TvWire m) s)) (r_bridge s)).
    by rewrite Ec.
  - intros [= <-]. destruct (view_inv _ _ (view_afterWrite ready m g s)) as [Ec Eb].
    change (accounted (core (afterWrite ready m g s)) (r_bridge (afterWrite ready m g s))). by rewrite Ec, Eb.
  - intros [= <-]. apply continue_accounted. exact Hi.
Qed.

Lemma accounted_view s s' : view s' = view s -> accounted (core s) (r_bridge s) -> accounted (core s') (r_bridge s').
Proof. by intros [-> ->]%view_inv. Qed.

Lemma accounted_step c s s' : rstep c s s' -> accounted (core s) (r_bridge s) -> accounted (core s') (r_bridge s').
Proof.
  destruct 1; intros Hi; try exact Hi;
    eauto using accounted_bridge, accounted_drain, accounted_slot, accounted_view, view_select, view_select_case,
      view_echo, view_callback, continue_accounted.
  - rewrite H in Hi. destruct Hi as [H1 (pub & H2 & H3 & H4) H5]. unfold core, reads, dispatched, drained in *.
    simpl in *. constructor; simpl; rewrite ?omap_app; simpl; rewrite ?app_nil_r in *; [by rewrite H1 | | done].
    exists pub. by rewrite H2.
  - rewrite H in Hi. by eapply accounted_idle; [..|exact Hi].
  - rewrite H in Hi. by eapply accounted_idle; [..|exact Hi].
  - destruct (view_inv _ _ (view_filler (fun f tm => (endEpisode gen f, tm)) s)) as [Ec Eb].
    change (accounted (core (with_filler (fun f tm => (endEpisode gen f, tm)) s))
      (r_bridge (with_filler (fun f tm => (endEpisode gen f, tm)) s))). by rewrite Ec, Eb.
Qed.

Lemma accounted_init c now : accounted (core (rt_init c now)) (r_bridge (rt_init c now)).
Proof.
  unfold rt_init. eapply accounted_view; [apply view_filler|]. constructor; simpl; [done | | lia].
  by exists [].
Qed.

Lemma accounted_reach c now s : rreach c now s -> accounted (core s) (r_bridge s).
Proof. induction 1; eauto using accounted_init, accounted_step. Qed.

(** C13: Every server event read is dispatched once and in order; those published and not
    yet drained, those drained and those counted as dropped add up to those read; the drain
    sees a subsequence of them in order; and at most sixteen wait. *)
Theorem bridge_events_accounted c now s :
  rreach c now s ->
  reads (r_log s) = dispatched (r_log s) ++ inflight (r_bridge s) /\
  exists pub, reads (r_log s) = pub ++ unpublished (r_bridge s) /\
    drained (r_log s) ++ r_events s `sublist_of` pub /\
    length pub = (length (drained (r_log s)) + length (r_events s) + r_eventsDropped s)%nat /\
    (length (r_events s) <= bridgeBuffer)%nat.
Proof.
  intros H. apply accounted_reach in H as [H1 (pub & H2 & H3 & H4) H5]. split; [exact H1|].
  by exists pub.
Qed.
