(* ===== verification/SinkCrit.v ===== *)
(** * SinkCrit: a call's steps as critical sections

    Every step of a call is a sequence of critical sections of its components
    ([crit]).  An invariant of the components is shown by cases on these few
    sections: who holds a countdown (SinkHeld), the end of a call (SinkEnd). *)

From S2P Require Export SinkWire SinkSilence.
From S2P Require Import Filler Silence Marks.

(** The components of a call, with the generations of the play goroutines and
    whether the connection is closed. *)
Record comps := mkComps {
  k_filler : option filler;
  k_silence : option callerSilence;
  k_marks : option markTracker;
  k_timers : timers callback;
  k_spawned : list nat;
  k_closed : bool
}.
#[export] Instance comps_eta : Eta comps := fun k =>
  mkComps (k_filler k) (k_silence k) (k_marks k) (k_timers k) (k_spawned k) (k_closed k).

Definition comps_of (s : rt) : comps :=
  mkComps (r_filler s) (r_silence s) (r_marks s) (r_timers s) (map fst (r_players s)) (r_closed s).

(** Sections only some program points reach: arming a mark, registering the
    engine's wait, stopping the tracker. *)
Inductive privilege := PvArm | PvAwait | PvStop.

(** What the other sections of the bound come to. *)
Definition same_count (b b' : callerSilence) : Prop :=
  cs_timer b' = cs_timer b /\ cs_running b' = cs_running b /\ cs_gen b' = cs_gen b /\ cs_stopped b' = cs_stopped b.
Definition count_stopped (b b' : callerSilence) : Prop :=
  cs_timer b' = None /\ cs_running b' = false /\ (cs_stopped b = true -> cs_stopped b' = true).

Inductive crit (pv : privilege -> bool) : comps -> comps -> Prop :=
| cr_frame k f gen : k_filler k = Some f -> crit pv k (k <| k_filler := Some (snd (nextFrame gen f)) |>)
| cr_fill_arm k f by_ now : k_filler k = Some f ->
    crit pv k (k <| k_filler := Some (fst (armFiller by_ now f (k_timers k))) |>
                 <| k_timers := snd (armFiller by_ now f (k_timers k)) |>)
| cr_fill_stop k f : k_filler k = Some f ->
    crit pv k (k <| k_filler := Some (fst (snd (stopFiller f (k_timers k)))) |>
                 <| k_timers := snd (snd (stopFiller f (k_timers k))) |>)
| cr_fill_shutdown k f : k_filler k = Some f ->
    crit pv k (k <| k_filler := Some (fst (shutdownFiller f (k_timers k))) |>
                 <| k_timers := snd (shutdownFiller f (k_timers k)) |>)
| cr_fill_end k f gen : k_filler k = Some f -> gen ∈ k_spawned k ->
    crit pv k (k <| k_filler := Some (endEpisode gen f) |>)
| cr_bound_same k b b' : k_silence k = Some b -> same_count b b' -> crit pv k (k <| k_silence := Some b' |>)
| cr_bound_stop k b b' : k_silence k = Some b -> count_stopped b b' ->
    crit pv k (k <| k_silence := Some b' |> <| k_timers ::= StopOpt (cs_timer b) |>)
| cr_played k b gen now : k_silence k = Some b -> (forall id, ~ tm_live (k_timers k) id (CbFire gen)) ->
    crit pv k (k <| k_silence := Some (fst (snd (played gen now b (k_timers k)))) |>
                 <| k_timers := snd (snd (played gen now b (k_timers k))) |>)
| cr_arm k t name bound p now : pv PvArm = true -> k_marks k = Some t ->
    crit pv k (k <| k_marks := Some (fst (armLocked name bound p now t (k_timers k))) |>
                 <| k_timers := snd (armLocked name bound p now t (k_timers k)) |>)
| cr_playoutArmed k t : k_marks k = Some t -> crit pv k (k <| k_marks := Some (t <| mk_playoutArmed := true |>) |>)
| cr_await k t name : pv PvAwait = true -> k_marks k = Some t ->
    crit pv k (k <| k_marks := Some (snd (await name t)) |>)
| cr_echo k t ready name : k_marks k = Some t ->
    crit pv k (k <| k_marks := Some (fst (snd (echo ready name t (k_timers k)))) |>
                 <| k_timers := snd (snd (echo ready name t (k_timers k))) |>)
| cr_marks_stop k t : pv PvStop = true -> k_marks k = Some t ->
    crit pv k (k <| k_marks := Some (fst (stopMarks t (k_timers k))) |>
                 <| k_timers := snd (stopMarks t (k_timers k)) |>)
| cr_close k : crit pv k (k <| k_closed := true |>)
| cr_due k now id tm : tm_start now id (k_timers k) = Some tm -> crit pv k (k <| k_timers := tm |>)
| cr_start k id gen by_ tm : tm_take id (k_timers k) = Some (CbStart gen by_, tm) ->
    crit pv k (match k_filler k with
               | Some f => k <| k_filler := Some (snd (startFiller gen f)) |> <| k_timers := tm |>
                             <| k_spawned ::= fun l => l ++ (if fst (startFiller gen f) then [gen] else []) |>
               | None => k <| k_timers := tm |>
               end)
| cr_fire k id gen tm : tm_take id (k_timers k) = Some (CbFire gen, tm) ->
    crit pv k (k <| k_silence ::= fmap (fireSilence gen) |> <| k_timers := tm |>)
| cr_expire k id name gen ready tm : tm_take id (k_timers k) = Some (CbExpire name gen, tm) ->
    crit pv k (k <| k_marks ::= fmap (fun t => snd (expire ready name gen t)) |> <| k_timers := tm |>).

Definition crits pv : comps -> comps -> Prop := rtc (crit pv).

(** ** Every step is a sequence of critical sections *)

Section Crits.
Context (pv : privilege -> bool).
Implicit Types s : rt.

Lemma crits_refl k : crits pv k k.
Proof. apply rtc_refl. Qed.

Lemma crits_eq k k' : k = k' -> crits pv k k'.
Proof. intros ->. apply crits_refl. Qed.

Lemma crits_fill_stop s : crits pv (comps_of s) (comps_of (snd (fill_stop s))).
Proof.
  unfold fill_stop, with_filler. destruct (r_filler s) as [f|] eqn:Ef; [|apply crits_refl]. apply rtc_once.
  pose proof (cr_fill_stop pv (comps_of s) f Ef) as H. unfold comps_of in *. by destruct (f_playing f).
Qed.

Lemma crits_shutdown s : crits pv (comps_of s) (comps_of (fill_shutdown s)).
Proof.
  unfold fill_shutdown, with_filler. destruct (r_filler s) as [f|] eqn:Ef; [|apply crits_refl]. apply rtc_once.
  exact (cr_fill_shutdown pv (comps_of s) f Ef).
Qed.

Lemma crits_observeFiller ev now s : crits pv (comps_of s) (comps_of (with_filler (observeFiller ev now) s)).
Proof.
  unfold with_filler. destruct (r_filler s) as [f|] eqn:Ef; [|apply crits_refl]. unfold observeFiller.
  destruct (_ || _); [|destruct (bool_decide _); [destruct (ResponseEndedInFunctionCall _)|]].
  - apply rtc_once. pose proof (cr_fill_arm pv (comps_of s) f armedByTurn now Ef) as H.
    unfold comps_of in *. usimpl. by destruct (armFiller _ _ _ _).
  - apply rtc_once. pose proof (cr_fill_arm pv (comps_of s) f armedByTurn now Ef) as H.
    unfold comps_of in *. usimpl. by destruct (armFiller _ _ _ _).
  - apply rtc_once. exact (cr_fill_stop pv (comps_of s) f Ef).
  - apply crits_eq. unfold comps_of. by rewrite Ef.
Qed.

(** An operation of the bound that leaves its countdown, or stops it. *)
Lemma crits_silence op s :
  (forall b tm, same_count b (fst (op b tm)) /\ snd (op b tm) = tm \/
                count_stopped b (fst (op b tm)) /\ snd (op b tm) = StopOpt (cs_timer b) tm) ->
  crits pv (comps_of s) (comps_of (with_silence op s)).
Proof.
  intros Hop. unfold with_silence. destruct (r_silence s) as [b|] eqn:Eb; [|apply crits_refl].
  specialize (Hop b (r_timers s)). destruct (op b (r_timers s)) as [b' tm]. simpl in Hop.
  apply rtc_once. destruct Hop as [[H ->]|[H ->]].
  - exact (cr_bound_same pv (comps_of s) b b' Eb H).
  - exact (cr_bound_stop pv (comps_of s) b b' Eb H).
Qed.

Lemma observeSilence_count ev b tm :
  same_count b (fst (observeSilence ev b tm)) /\ snd (observeSilence ev b tm) = tm \/
  count_stopped b (fst (observeSilence ev b tm)) /\ snd (observeSilence ev b tm) = StopOpt (cs_timer b) tm.
Proof. unfold observeSilence. repeat case_match; simpl; auto; try (by left). by right. Qed.

Lemma crits_played g s : (forall id, ~ tm_live (r_timers s) id (CbFire g)) -> crits pv (comps_of s) (comps_of (silence_played g s)).
Proof.
  intros Hg. unfold silence_played, with_silence. destruct (r_silence s) as [b|] eqn:Eb; [|apply crits_refl].
  apply rtc_once. pose proof (cr_played pv (comps_of s) b g (r_now s) Eb Hg) as H.
  unfold comps_of in *. cbn [k_timers] in H. destruct (played g (r_now s) b (r_timers s)) as [[] [b' tm]]; exact H.
Qed.

Lemma crits_resolved r s :
  (forall g, r = RsPlayed g -> r_silence s <> None -> forall id, ~ tm_live (r_timers s) id (CbFire g)) ->
  crits pv (comps_of s) (comps_of (resolved r s)).
Proof.
  intros Hr. destruct r; simpl; try apply crits_refl. destruct (r_silence s) eqn:Eb.
  - apply crits_played. by apply Hr.
  - unfold silence_played. rewrite Eb. apply crits_refl.
Qed.

(** A playout mark in flight has started no count yet. *)
Definition uncounted s : Prop := r_silence s <> None ->
  forall t n m g, r_marks s = Some t -> mk_outstanding t !! n = Some m -> om_played m = Some g ->
  forall id, ~ tm_live (r_timers s) id (CbFire g).

Lemma echo_played ready name t tm g : fst (echo ready name t tm) = RsPlayed g ->
  exists m, mk_outstanding t !! name = Some m /\ om_played m = Some g.
Proof.
  unfold echo. destruct (mk_stopped t); [done|]. destruct (mk_outstanding t !! name) as [m|]; [|done].
  destruct (om_played m) eqn:E; [intros [= <-]; eauto|]. by destruct (resolveAwaitLocked _ _) as [[] ?].
Qed.

Lemma expire_played ready name gen t g : fst (expire ready name gen t) = RsPlayed g ->
  exists m, mk_outstanding t !! name = Some m /\ om_played m = Some g.
Proof.
  unfold expire. destruct (mk_stopped t); [done|]. destruct (mk_outstanding t !! name) as [m|]; [|done].
  destruct (negb _); [done|]. destruct (resolveAwaitLocked _ _) as [o ?].
  destruct (om_played m) eqn:E; [intros [= <-]; eauto|]. by destruct o.
Qed.

Lemma echo_tm ready name t tm id cb : tm_live (snd (snd (echo ready name t tm))) id cb -> tm_live tm id cb.
Proof.
  unfold echo. destruct (mk_stopped t); [done|]. destruct (mk_outstanding t !! name) as [m|]; [|done].
  assert (H : tm_live (Stop (om_timer m) tm) id cb -> tm_live tm id cb).
  { intros [[d H]|H]; [left; exists d|by right]. revert H. usimpl. rewrite lookup_delete_Some. tauto. }
  destruct (om_played m); [exact H|]. by destruct (resolveAwaitLocked _ _) as [[] ?].
Qed.

Lemma crits_echo ready name s : uncounted s -> crits pv (comps_of s) (comps_of (marks_echo ready name s)).
Proof.
  intros Hu. unfold marks_echo. destruct (r_marks s) as [t|] eqn:Et; [|apply crits_refl].
  pose proof (cr_echo pv (comps_of s) t ready name Et) as H. cbn [k_timers comps_of] in H.
  pose proof (fun g => echo_played ready name t (r_timers s) g) as Hp.
  pose proof (fun id cb => echo_tm ready name t (r_timers s) id cb) as Hl.
  destruct (echo ready name t (r_timers s)) as [r [t' tm]]. eapply rtc_l; [exact H|].
  set (s1 := log_ (TvEcho name) s <| r_marks := Some t' |> <| r_timers := tm |>).
  assert (Hr : crits pv (comps_of s1) (comps_of (resolved r s1))); [|exact Hr]. apply crits_resolved.
  intros g -> Hb id Hid. destruct (Hp g eq_refl) as (m & Hm & Hg). by eapply (Hu Hb), Hl.
Qed.

Lemma take_live_inv {C} (t : timers C) id cb t' i cb' : tm_take id t = Some (cb, t') -> tm_live t' i cb' -> tm_live t i cb'.
Proof.
  unfold tm_take. destruct (tm_started t !! id) as [cb0|]; [|done]. intros [= -> <-] [[d H]|H]; [left; by exists d|].
  right. revert H. usimpl. rewrite lookup_delete_Some. tauto.
Qed.

Lemma crits_callback ready id cb tm s : uncounted s -> tm_take id (r_timers s) = Some (cb, tm) ->
  crits pv (comps_of s) (comps_of (run_callback ready cb (s <| r_timers := tm |>))).
Proof.
  intros Hu Ht. destruct cb as [g b|n g|g]; simpl.
  - apply rtc_once. pose proof (cr_start pv (comps_of s) id g b tm Ht) as H. unfold comps_of in *. cbn [k_filler] in H.
    destruct (r_filler s) as [f|] eqn:Ef; [|usimpl; by rewrite Ef].
    destruct (startFiller g f) as [[] f']; usimpl; [by rewrite map_app|]. by rewrite app_nil_r in H.
  - pose proof (cr_expire pv (comps_of s) id n g ready tm Ht) as H. unfold marks_expire. usimpl.
    destruct (r_marks s) as [t|] eqn:Et; usimpl.
    + pose proof (fun g' => expire_played ready n g t g') as Hp.
      destruct (expire ready n g t) as [r t']. simpl in H. eapply rtc_l; [exact H|].
      set (s1 := s <| r_timers := tm |> <| r_marks := Some t' |>).
      assert (Hr : crits pv (comps_of s1) (comps_of (resolved r s1))); [|exact Hr]. apply crits_resolved.
      intros g' -> Hb i Hi. destruct (Hp g' eq_refl) as (m & Hm & Hg). eapply (Hu Hb); [exact Et | done..|].
      by eapply take_live_inv.
    + apply rtc_once. exact H.
  - apply rtc_once. pose proof (cr_fire pv (comps_of s) id g tm Ht) as H. unfold with_silence. usimpl.
    destruct (r_silence s) eqn:Eb; usimpl; rewrite ?Eb; exact H.
Qed.

Lemma crits_arm name p s : pv PvArm = true -> crits pv (comps_of s) (comps_of (marks_arm name p s)).
Proof.
  intros Hp. unfold marks_arm. destruct (r_marks s) as [t|] eqn:Et; [|apply crits_refl]. cbv zeta.
  set (bound := markEchoBound s). unfold with_marks. rewrite Et.
  assert (H : crits pv (comps_of s) (comps_of (let '(t', tm) := (match p with
      | Some gen => armPlayout name bound gen (r_now s) | None => armMark name bound (r_now s) end) t (r_timers s) in
      s <| r_marks := Some t' |> <| r_timers := tm |>))).
  { destruct p as [g|]; unfold armPlayout, armMark.
    - eapply rtc_l; [exact (cr_playoutArmed pv (comps_of s) t Et)|]. apply rtc_once.
      pose proof (cr_arm pv (comps_of s <| k_marks := Some (t <| mk_playoutArmed := true |>) |>)
        (t <| mk_playoutArmed := true |>) name bound (Some g) (r_now s) Hp eq_refl) as H.
      unfold comps_of in *. cbn [k_timers] in H. by destruct (armLocked _ _ _ _ _ _).
    - apply rtc_once. pose proof (cr_arm pv (comps_of s) t name bound None (r_now s) Hp Et) as H.
      unfold comps_of in *. cbn [k_timers] in H. by destruct (armLocked _ _ _ _ _ _). }
  destruct (_ t (r_timers s)) as [t' tm]. by destruct (mk_stopped t).
Qed.
End Crits.

(** The sections a state's next step may reach. *)
Definition allow (s : rt) (p : privilege) : bool :=
  match p with
  | PvArm => match r_slot s with Some (_, _, PhAfter (WmMark _) _) => true | _ => false end
  | PvAwait => match r_select s with SFwFrames _ [] => true | _ => false end
  | PvStop => match r_select s with SDeferMarks _ => true | _ => false end
  end.

Lemma set_player_fst i p l : map fst (alter (fun r : nat * ppc => (fst r, p)) i l) = map fst l.
Proof.
  apply list_eq. intros j. rewrite !lookup_map. destruct (decide (i = j)) as [->|Hn].
  - rewrite list_lookup_alter_eq. by destruct (l !! j).
  - by rewrite list_lookup_alter_ne.
Qed.

Lemma comps_set_player i p s : comps_of (set_player i p s) = comps_of s.
Proof. unfold comps_of. usimpl. by rewrite set_player_fst. Qed.

Lemma bridge_crits s s' : bridge_local s = Some s' -> crits (allow s) (comps_of s) (comps_of s').
Proof.
  unfold bridge_local. destruct (r_bridge s); try discriminate.
  - intros [= <-]. apply crits_refl.
  - intros [= <-]. unfold publishEvent. case_match; apply crits_refl.
  - intros [= <-]. apply crits_refl.
  - intros [= <-]. apply crits_refl.
  - pose proof (crits_fill_stop (allow s) s) as H. destruct (fill_stop s). intros [= <-]. exact H.
  - intros [= <-]. change (crits (allow s) (comps_of s) (comps_of (silence_spoke s))). unfold silence_spoke.
    destruct (r_silence s); [|apply crits_refl]. apply (crits_silence _ callerSpoke). by right.
  - intros [= <-]. apply crits_refl.
  - intros [= <-]. exact (crits_fill_stop (allow s) s).
  - case_match; intros [= <-]. apply crits_refl.
Qed.

Lemma drain_crits s s' : drain_local s = Some s' -> crits (allow s) (comps_of s) (comps_of s').
Proof.
  unfold drain_local. destruct (r_drain s).
  - destruct (r_events s); intros [= <-]. apply crits_refl.
  - intros [= <-]. exact (crits_observeFiller (allow s) ev (r_now s) s).
  - intros [= <-]. transitivity (comps_of (with_silence (observeSilence ev) s)).
    + apply crits_silence, observeSilence_count.
    + apply crits_eq. by destruct (is_tool_done ev).
Qed.

Lemma comps_endWithFarewell c e s : comps_of (endWithFarewell c e s) = comps_of s.
Proof. unfold endWithFarewell. by case_match. Qed.

Lemma bound_same_crits pv b b' s : r_silence s = Some b -> same_count b b' ->
  crits pv (comps_of s) (comps_of (s <| r_silence := Some b' |>)).
Proof. intros Eb H. apply rtc_once. exact (cr_bound_same pv (comps_of s) b b' Eb H). Qed.

Lemma select_crits c s s' : select_local c s = Some s' -> crits (allow s) (comps_of s) (comps_of s').
Proof.
  unfold select_local. destruct (r_select s) eqn:Es; try discriminate.
  - destruct (r_silence s) as [b|] eqn:Eb; [|intros [= <-]; apply crits_refl].
    assert (H : crits (allow s) (comps_of s) (comps_of (with_silence (fun b tm => snd (endSilence b tm)) s))).
    { apply crits_silence. intros b0 tm. unfold endSilence. destruct (_ || _); [by left | by right]. }
    unfold with_silence in H. rewrite Eb in H.
    destruct (endSilence b (r_timers s)) as [[] [b' tm]]; intros [= <-]; [|exact H].
    rewrite comps_endWithFarewell. exact H.
  - destruct (r_silence s) as [b|] eqn:Eb; [|intros [= <-]; apply crits_refl].
    unfold takeRequest. destruct (_ || _); intros [= <-]; by apply (bound_same_crits _ b).
  - destruct (r_silence s) as [b|] eqn:Eb; [|intros [= <-]; apply crits_refl]. simpl. intros [= <-].
    by apply (bound_same_crits _ b).
  - intros [= <-]. exact (crits_fill_stop (allow s) s).
  - intros [= <-]. apply crits_refl.
  - intros [= <-]. exact (crits_fill_stop (allow s) s).
  - intros [= <-]. apply crits_refl.
  - intros [= <-]. exact (crits_shutdown (allow s) s).
  - intros [= <-]. unfold farewell_next. destruct rest; [|apply crits_refl].
    unfold marks_await. destruct (r_marks s) as [t|] eqn:Et; [|apply crits_refl].
    assert (Hpv : allow s PvAwait = true) by (simpl; by rewrite Es).
    pose proof (cr_await (allow s) (comps_of s) t (farewell_mark c) Hpv Et) as H.
    destruct (await _ t). apply rtc_once. exact H.
  - destruct (_ || _); intros [= <-]. apply crits_refl.
  - intros [= <-]. exact (crits_shutdown (allow s) s).
  - intros [= <-]. unfold with_marks. destruct (r_marks s) as [t|] eqn:Et; [|apply crits_refl].
    assert (Hpv : allow s PvStop = true) by (simpl; by rewrite Es).
    pose proof (cr_marks_stop (allow s) (comps_of s) t Hpv Et) as H. apply rtc_once. exact H.
  - intros [= <-]. eapply rtc_r; [apply (crits_silence (allow s) stopSilence); by right|].
    exact (cr_close (allow s) (comps_of (with_silence stopSilence s))).
Qed.

Lemma case_crits c k s s' : select_case c k s = Some s' -> crits (allow s) (comps_of s) (comps_of s').
Proof.
  intros H. destruct k; simpl in H; repeat case_match; simplify_eq; rewrite ?comps_endWithFarewell;
    try apply crits_refl; by eapply bound_same_crits.
Qed.

Lemma comps_continue t res s : comps_of (continue t res s) = comps_of s.
Proof.
  destruct t; simpl; [by destruct (r_bridge s) | | apply comps_set_player].
  destruct (r_select s); try done. by destruct res, k.
Qed.

Lemma slot_crits ok ready s s' : slot_local ok ready s = Some s' -> crits (allow s) (comps_of s) (comps_of s').
Proof.
  unfold slot_local. destruct (r_slot s) as [[[t w] [|m g|m g|res]]|] eqn:Es; [..|done].
  - assert (H : crits (allow s) (comps_of s) (comps_of (snd (build w s)))).
    { destruct w; simpl; try apply crits_refl.
      - destruct (r_filler s) as [f|] eqn:Ef; [|apply crits_refl].
        pose proof (cr_frame (allow s) (comps_of s) f gen Ef) as H.
        destruct (nextFrame gen f). apply rtc_once. exact H.
      - destruct (r_silence s) as [b|] eqn:Eb; [|apply crits_refl]. unfold claim.
        destruct (_ || _ || _); by apply (bound_same_crits _ b). }
    destruct (build w s). intros [= <-]. exact H.
  - destruct (ok && _); intros [= <-]; apply crits_refl.
  - intros [= <-]. assert (H : crits (allow s) (comps_of s) (comps_of (afterWrite ready m g s))); [|exact H].
    destruct m as [[]| |]; simpl; try apply crits_refl.
    + unfold silence_agentAudio. usimpl. destruct (r_silence s) eqn:Eb; [|apply crits_refl].
      apply (crits_silence _ agentAudio (fed_media ready payload (mkCarrierAudio payload false false false) s)). by right.
    + apply crits_arm. simpl. by rewrite Es.
  - intros [= <-]. rewrite comps_continue. apply crits_refl.
Qed.

Lemma rstep_crits c s s' : uncounted s -> rstep c s s' -> crits (allow s) (comps_of s) (comps_of s').
Proof.
  intros Hu. destruct 1; rewrite ?comps_set_player, ?comps_continue; try apply crits_refl;
    eauto using bridge_crits, drain_crits, select_crits, case_crits, slot_crits, crits_echo, crits_callback.
  - apply rtc_once. exact (cr_due (allow s) (comps_of s) _ _ _ H).
  - unfold with_filler. destruct (r_filler s) as [f|] eqn:Ef; [|apply crits_refl].
    apply rtc_once. apply (cr_fill_end (allow s) (comps_of s) f gen Ef).
    simpl. apply list_elem_of_In, in_map_iff. exists (gen, PlEnd). split; [done|]. apply list_elem_of_In.
    by eapply list_elem_of_lookup_2.
Qed.

Lemma uncounted_ok c s : silence_ok c s -> uncounted s.
Proof.
  intros [H _] Hb t n m g Et Hn Hp. unfold sil_ok in H. rewrite Et in H. destruct (r_silence s); [|done].
  destruct (q_out _ _ _ _ _ _ _ H _ _ _ Hn Hp) as [_ Hno]. intros id [[due Hi]|Hi].
  - destruct (q_pend _ _ _ _ _ _ _ H _ _ _ Hi) as (at_ & Hin & _). by apply (Hno at_).
  - destruct (q_start _ _ _ _ _ _ _ H _ _ Hi) as (at_ & Hin & _). by apply (Hno at_).
Qed.

Lemma reach_crits c now s s' : rreach c now s -> rstep c s s' -> crits (allow s) (comps_of s) (comps_of s').
Proof. intros Hr. apply rstep_crits, (uncounted_ok c). by eapply silence_ok_reach. Qed.
