(* ===== verification/SinkHeld.v ===== *)
(** * SinkHeld: who holds a countdown

    A component of a call holds a countdown exactly when the runtime will run
    it for that component: no countdown is lost, none outlives its owner, and no
    component stops another's. *)

From S2P Require Export SinkCrit.
From S2P Require Import Filler Silence Marks.

Inductive ckind := KdStart | KdFire | KdExpire.
#[export] Instance ckind_eq_dec : EqDecision ckind.
Proof. solve_decision. Defined.

Definition kind_of (cb : callback) : ckind :=
  match cb with CbStart _ _ => KdStart | CbFire _ => KdFire | CbExpire _ _ => KdExpire end.

(** A change of the table that concerns other kinds of countdown. *)
Definition tm_keeps (kd : ckind) (tm tm' : timers callback) : Prop :=
  (forall id cb, kind_of cb = kd -> tm_live tm' id cb <-> tm_live tm id cb) /\
  (forall id due cb, kind_of cb = kd -> tm_pending tm' !! id = Some (due, cb) -> tm_pending tm !! id = Some (due, cb)).

Section Live.
Context {C : Type}.
Implicit Types t : timers C.

Lemma live_unique t id cb cb' : tm_wf t -> tm_live t id cb -> tm_live t id cb' -> cb = cb'.
Proof.
  intros (_ & _ & H3) [[d H]|H] [[d' H']|H']; try congruence; exfalso; apply (H3 id); eauto.
Qed.

Lemma live_Stop t id id' cb : id <> id' -> tm_live (Stop id' t) id cb <-> tm_live t id cb.
Proof. intros Hn. unfold tm_live. usimpl. by rewrite lookup_delete_ne. Qed.

Lemma live_Stop_inv t id id' cb : tm_live (Stop id' t) id cb -> tm_live t id cb.
Proof. intros [[d H]|H]; [left; exists d|by right]. revert H. usimpl. rewrite lookup_delete_Some. tauto. Qed.

Lemma pend_Stop t id id' x : tm_pending (Stop id' t) !! id = Some x -> id <> id' /\ tm_pending t !! id = Some x.
Proof. usimpl. rewrite lookup_delete_Some. intros [? ?]. by split. Qed.

Lemma live_AfterFunc t now d cb id cb' : tm_wf t ->
  tm_live (snd (AfterFunc now d cb t)) id cb' <-> id = tm_next t /\ cb' = cb \/ tm_live t id cb'.
Proof.
  intros (H1 & H2 & _). unfold tm_live. usimpl. split.
  - intros [[due H]|H]; [|by right; right]. rewrite lookup_insert_Some in H.
    destruct H as [[<- [= _ <-]]|[_ H]]; [by left | right; left; by exists due].
  - intros [[-> ->]|[[due H]|H]]; [left; exists (now + d); by rewrite lookup_insert_eq | | by right].
    left. exists due. rewrite lookup_insert_ne; [done|]. apply H1 in H. lia.
Qed.

Lemma pend_AfterFunc t now d cb id due cb' : tm_pending (snd (AfterFunc now d cb t)) !! id = Some (due, cb') ->
  id = tm_next t /\ cb' = cb \/ tm_pending t !! id = Some (due, cb').
Proof. usimpl. rewrite lookup_insert_Some. intros [[<- [= _ <-]]|[_ ?]]; auto. Qed.

Lemma live_start t now id t' : tm_wf t -> tm_start now id t = Some t' ->
  (forall i cb, tm_live t' i cb <-> tm_live t i cb) /\
  (forall i x, tm_pending t' !! i = Some x -> tm_pending t !! i = Some x).
Proof.
  intros (_ & _ & H3). unfold tm_start. destruct (tm_pending t !! id) as [[due cb]|] eqn:E; [|done].
  destruct (due <=? now); [|done]. intros [= <-]. split.
  - intros i cb'. unfold tm_live. usimpl. destruct (decide (i = id)) as [->|Hn].
    + rewrite lookup_delete_eq, lookup_insert_eq, E. split.
      * intros [[d [=]]|[= ->]]. left. by exists due.
      * intros [[d [= _ ->]]|H]; [by right|]. exfalso. apply (H3 id); eauto.
    + by rewrite lookup_delete_ne, lookup_insert_ne.
  - intros i x. usimpl. rewrite lookup_delete_Some. tauto.
Qed.

Lemma live_take t id cb t' : tm_wf t -> tm_take id t = Some (cb, t') ->
  tm_live t id cb /\ (forall i cb', tm_live t' i cb' <-> tm_live t i cb' /\ i <> id) /\
  tm_pending t' = tm_pending t.
Proof.
  intros (_ & _ & H3). unfold tm_take. destruct (tm_started t !! id) as [cb0|] eqn:E; [|done].
  intros [= -> <-]. split_and!; [by right | |done].
  intros i cb'. unfold tm_live. usimpl. destruct (decide (i = id)) as [->|Hn].
  - rewrite lookup_delete_eq. split; [|by intros [_ ?]]. intros [[d H]|[=]]. exfalso. apply (H3 id); eauto.
  - rewrite lookup_delete_ne by done. tauto.
Qed.
End Live.

Lemma keeps_refl kd tm : tm_keeps kd tm tm.
Proof. by split. Qed.

Lemma keeps_trans kd tm1 tm2 tm3 : tm_keeps kd tm1 tm2 -> tm_keeps kd tm2 tm3 -> tm_keeps kd tm1 tm3.
Proof. intros [A B] [A' B']. split; [|eauto]. intros. rewrite A' by done. by apply A. Qed.

(** Stopping or taking a live countdown of another kind. *)
Lemma keeps_Stop kd tm id cb : tm_wf tm -> tm_live tm id cb -> kind_of cb <> kd -> tm_keeps kd tm (Stop id tm).
Proof.
  intros Hwf Hl Hk. split.
  - intros i cb' Hk'. split; [apply live_Stop_inv|]. intros Hl'. apply live_Stop; [|done]. intros ->.
    pose proof (live_unique _ _ _ _ Hwf Hl Hl'). congruence.
  - intros i due cb' _ H. by apply pend_Stop in H as [_ H].
Qed.

Lemma keeps_AfterFunc kd tm now d cb : tm_wf tm -> kind_of cb <> kd -> tm_keeps kd tm (snd (AfterFunc now d cb tm)).
Proof.
  intros Hwf Hk. split.
  - intros i cb' Hk'. rewrite live_AfterFunc by done. split; [|by right]. intros [[_ ->]|]; [congruence | done].
  - intros i due cb' Hk' H. apply pend_AfterFunc in H as [[_ ->]|H]; [congruence | done].
Qed.

Lemma keeps_take kd tm id cb tm' : tm_wf tm -> tm_take id tm = Some (cb, tm') -> kind_of cb <> kd -> tm_keeps kd tm tm'.
Proof.
  intros Hwf Ht Hk. destruct (live_take _ _ _ _ Hwf Ht) as (Hl & H & Hp). split.
  - intros i cb' Hk'. rewrite H. split; [by intros [? _]|]. intros Hl'. split; [done|]. intros ->.
    pose proof (live_unique _ _ _ _ Hwf Hl Hl'). congruence.
  - intros i due cb' _. by rewrite Hp.
Qed.

Lemma keeps_start kd tm now id tm' : tm_wf tm -> tm_start now id tm = Some tm' -> tm_keeps kd tm tm'.
Proof. intros Hwf Ht. destruct (live_start _ _ _ _ Hwf Ht) as [H1 H2]. split; eauto. Qed.

(** The filler, the bound and the tracker each hold exactly the countdowns of
    their kind that still count. *)
Record fill_held (o : option filler) (spawned : list nat) (tm : timers callback) : Prop := mkFillHeld {
  fh_timer : forall f id, o = Some f -> f_timer f = Some id ->
    f_playing f = false /\ f_stopped f = false /\ exists by_, tm_live tm id (CbStart (f_gen f) by_);
  fh_pend : forall id due gen by_, tm_pending tm !! id = Some (due, CbStart gen by_) ->
    exists f, o = Some f /\ f_timer f = Some id /\ f_gen f = gen;
  fh_live : forall f id gen by_, o = Some f -> tm_live tm id (CbStart gen by_) ->
    (gen <= f_gen f)%nat /\ (gen = f_gen f -> f_timer f = Some id);
  fh_spawned : forall f gen, o = Some f -> gen ∈ spawned ->
    (gen <= f_gen f)%nat /\ (gen = f_gen f -> f_timer f = None)
}.

Record bound_held (o : option callerSilence) (tm : timers callback) : Prop := mkBoundHeld {
  bh_timer : forall b id, o = Some b -> cs_timer b = Some id ->
    cs_running b = true /\ cs_stopped b = false /\ tm_live tm id (CbFire (cs_gen b));
  bh_running : forall b, o = Some b -> cs_timer b = None -> cs_running b = false;
  bh_pend : forall id due gen, tm_pending tm !! id = Some (due, CbFire gen) ->
    exists b, o = Some b /\ cs_timer b = Some id;
  bh_live : forall b id, o = Some b -> cs_running b = true -> tm_live tm id (CbFire (cs_gen b)) ->
    cs_timer b = Some id
}.

Record marks_held (o : option markTracker) (tm : timers callback) : Prop := mkMarksHeld {
  mh_timer : forall t n m, o = Some t -> mk_outstanding t !! n = Some m ->
    mk_stopped t = false /\ tm_live tm (om_timer m) (CbExpire n (om_gen m));
  mh_pend : forall id due n g, tm_pending tm !! id = Some (due, CbExpire n g) ->
    exists t m, o = Some t /\ mk_outstanding t !! n = Some m /\ om_timer m = id /\ om_gen m = g;
  mh_live : forall t id n g, o = Some t -> tm_live tm id (CbExpire n g) ->
    (g <= mk_gen t)%nat /\ forall m, mk_outstanding t !! n = Some m -> om_gen m = g -> om_timer m = id
}.

Record held (k : comps) : Prop := mkHeld {
  hd_wf : tm_wf (k_timers k);
  hd_fill : fill_held (k_filler k) (k_spawned k) (k_timers k);
  hd_bound : bound_held (k_silence k) (k_timers k);
  hd_marks : marks_held (k_marks k) (k_timers k)
}.

Lemma fill_held_keeps o sp tm tm' : tm_keeps KdStart tm tm' -> fill_held o sp tm -> fill_held o sp tm'.
Proof.
  intros [Hl Hp] [H1 H2 H3 H4]. constructor; [|intros; eapply H2; by eapply Hp | | exact H4].
  - intros f id Ho Ht. destruct (H1 _ _ Ho Ht) as (? & ? & by_ & H). split_and!; [done..|]. exists by_. by apply Hl.
  - intros f id gen by_ Ho H. apply Hl in H; [|done]. by eapply H3.
Qed.

Lemma bound_held_keeps o tm tm' : tm_keeps KdFire tm tm' -> bound_held o tm -> bound_held o tm'.
Proof.
  intros [Hl Hp] [H1 H2 H3 H4]. constructor; [|exact H2 | intros; eapply H3; by eapply Hp |].
  - intros b id Ho Ht. destruct (H1 _ _ Ho Ht) as (? & ? & ?). split_and!; [done..|by apply Hl].
  - intros b id Ho Hr H. apply Hl in H; [|done]. by eapply H4.
Qed.

Lemma marks_held_keeps o tm tm' : tm_keeps KdExpire tm tm' -> marks_held o tm -> marks_held o tm'.
Proof.
  intros [Hl Hp] [H1 H2 H3]. constructor; [|intros; eapply H2; by eapply Hp |].
  - intros t n m Ho Ht. destruct (H1 _ _ _ Ho Ht). split; [done | by apply Hl].
  - intros t id n g Ho H. apply Hl in H; [|done]. by eapply H3.
Qed.

(** ** Each critical section keeps the holdings *)

Section FillHeld.
Context (sp : list nat) (tm : timers callback) (Hwf : tm_wf tm).
Implicit Types f : filler.

Lemma fh_same f f' : f_timer f' = f_timer f -> f_gen f' = f_gen f -> f_playing f' = f_playing f ->
  f_stopped f' = f_stopped f -> fill_held (Some f) sp tm -> fill_held (Some f') sp tm.
Proof.
  intros Et Eg Ep Es [H1 H2 H3 H4]. constructor.
  - intros f0 id [= <-]. rewrite Et, Eg, Ep, Es. by apply H1.
  - intros id due gen by_ H. destruct (H2 _ _ _ _ H) as (f0 & [= <-] & ? & ?). exists f'. by rewrite Et, Eg.
  - intros f0 id gen by_ [= <-]. rewrite Et, Eg. by apply H3.
  - intros f0 gen [= <-]. rewrite Et, Eg. by apply H4.
Qed.

Lemma fh_cancel f f' : f_timer f' = None -> (f_gen f < f_gen f')%nat ->
  fill_held (Some f) sp tm -> fill_held (Some f') sp (StopOpt (f_timer f) tm).
Proof.
  intros Et Eg [H1 H2 H3 H4]. constructor.
  - intros f0 id [= <-]. by rewrite Et.
  - intros id due gen by_ H. exfalso. destruct (f_timer f) as [i|] eqn:Ef; simpl in H.
    + apply pend_Stop in H as [Hne H]. destruct (H2 _ _ _ _ H) as (f0 & [= <-] & ? & _). congruence.
    + destruct (H2 _ _ _ _ H) as (f0 & [= <-] & ? & _). congruence.
  - intros f0 id gen by_ [= <-] H. assert (tm_live tm id (CbStart gen by_)) as Hl
      by (destruct (f_timer f); [by apply live_Stop_inv in H | done]).
    destruct (H3 _ _ _ _ eq_refl Hl). split; lia.
  - intros f0 gen [= <-] Hin. destruct (H4 _ _ eq_refl Hin). split; [lia | done].
Qed.

Lemma fill_stop_keeps f kd : kd <> KdStart -> fill_held (Some f) sp tm -> tm_keeps kd tm (StopOpt (f_timer f) tm).
Proof.
  intros Hk [H1 _ _ _]. destruct (f_timer f) as [id|] eqn:Ef; [|apply keeps_refl].
  destruct (H1 _ _ eq_refl Ef) as (_ & _ & by_ & Hl). apply (keeps_Stop kd tm id _ Hwf Hl). simpl. congruence.
Qed.

Lemma fh_arm by_ now f : fill_held (Some f) sp tm ->
  let r := armFiller by_ now f tm in
  tm_wf (snd r) /\ fill_held (Some (fst r)) sp (snd r) /\ forall kd, kd <> KdStart -> tm_keeps kd tm (snd r).
Proof.
  intros Hf. unfold armFiller.
  destruct (f_stopped f) eqn:Es; [by split_and!; auto using keeps_refl|].
  destruct (f_timer f) eqn:Et; [by split_and!; auto using keeps_refl|]. simpl.
  destruct (f_playing f) eqn:Ep; [by split_and!; auto using keeps_refl|]. rewrite Et. simpl. split_and!.
  - by apply AfterFunc_wf.
  - destruct Hf as [H1 H2 H3 H4]. constructor.
    + intros f0 id [= <-] [= <-]. simpl. split_and!; [done..|]. exists by_.
      apply (live_AfterFunc tm now (f_delay f) (CbStart (S (f_gen f)) by_)); auto.
    + intros id due gen b H. apply (pend_AfterFunc tm now (f_delay f) (CbStart (S (f_gen f)) by_)) in H as [[-> [= -> _]]|H].
      * by eexists.
      * destruct (H2 _ _ _ _ H) as (f0 & [= <-] & ? & _). congruence.
    + intros f0 id gen b [= <-] H. apply (live_AfterFunc tm now (f_delay f) (CbStart (S (f_gen f)) by_)) in H as [[-> [= -> _]]|H]; [done | | done].
      destruct (H3 _ _ _ _ eq_refl H). simpl. split; lia.
    + intros f0 gen [= <-] Hin. destruct (H4 _ _ eq_refl Hin). simpl. split; lia.
  - intros kd Hk. apply (keeps_AfterFunc kd tm now (f_delay f) (CbStart (S (f_gen f)) by_)); [done | simpl; congruence].
Qed.

Lemma fh_end gen f : gen ∈ sp -> fill_held (Some f) sp tm -> fill_held (Some (endEpisode gen f)) sp tm.
Proof.
  intros Hin Hf. unfold endEpisode. destruct (f_gen f =? gen)%nat eqn:E; simpl; [|done]. apply Nat.eqb_eq in E.
  destruct (fh_spawned _ _ _ Hf _ _ eq_refl Hin) as [_ Ht]. specialize (Ht (eq_sym E)).
  replace tm with (StopOpt (f_timer f) tm) by (by rewrite Ht). apply fh_cancel; simpl; [done | lia | done].
Qed.

Lemma fh_start id gen by_ tm' f : tm_take id tm = Some (CbStart gen by_, tm') -> fill_held (Some f) sp tm ->
  fill_held (Some (snd (startFiller gen f))) (sp ++ (if fst (startFiller gen f) then [gen] else [])) tm'.
Proof.
  intros Ht Hf. destruct (live_take _ _ _ _ Hwf Ht) as (Hl & Hl' & Hp). pose proof Hf as [H1 H2 H3 H4].
  destruct (H3 _ _ _ _ eq_refl Hl) as [Hle Heq]. unfold startFiller.
  destruct (f_stopped f || negb (f_gen f =? gen)%nat || f_playing f) eqn:E; simpl.
  - rewrite app_nil_r. constructor; [| |intros f0 i g b [= <-] H; apply Hl' in H as [H _]; by eapply H3 | exact H4].
    + intros f0 i [= <-] Hi. destruct (H1 _ _ eq_refl Hi) as (Ep & Es & b & Hb). split_and!; [done..|].
      exists b. apply Hl'. split; [done|]. intros ->. pose proof (live_unique _ _ _ _ Hwf Hl Hb) as [= -> _].
      by rewrite Ep, Es, Nat.eqb_refl in E.
    + intros i due g b. rewrite Hp. apply H2.
  - apply orb_false_iff in E as [E Ep]. apply orb_false_iff in E as [Es Eg]. apply negb_false_iff, Nat.eqb_eq in Eg.
    subst gen. specialize (Heq eq_refl). constructor.
    + by intros f0 i [= <-].
    + intros i due g b. rewrite Hp. intros H. exfalso. destruct (H2 _ _ _ _ H) as (f0 & [= <-] & Hi & _).
      assert (i = id) as -> by congruence. unfold tm_take in Ht. destruct Hwf as (_ & _ & H3').
      destruct (tm_started tm !! id) eqn:Ei; [|done]. apply (H3' id); eauto.
    + intros f0 i g b [= <-] H. apply Hl' in H as [H Hne]. destruct (H3 _ _ _ _ eq_refl H) as [? Hi].
      split; [done|]. intros ->. specialize (Hi eq_refl). congruence.
    + intros f0 g [= <-] [Hin|Hin]%elem_of_app; [by destruct (H4 _ _ eq_refl Hin)|].
      apply list_elem_of_singleton in Hin as ->. done.
Qed.
End FillHeld.

Section BoundHeld.
Context (tm : timers callback) (Hwf : tm_wf tm).
Implicit Types b : callerSilence.

Lemma bh_same b b' : same_count b b' -> bound_held (Some b) tm -> bound_held (Some b') tm.
Proof.
  intros (Et & Er & Eg & Es) [H1 H2 H3 H4]. constructor.
  - intros b0 id [= <-]. rewrite Et, Er, Eg, Es. by apply H1.
  - intros b0 [= <-]. rewrite Et, Er. by apply H2.
  - intros id due gen H. destruct (H3 _ _ _ H) as (b0 & [= <-] & ?). exists b'. by rewrite Et.
  - intros b0 id [= <-]. rewrite Et, Er, Eg. by apply H4.
Qed.

Lemma bound_stop_keeps b kd : kd <> KdFire -> bound_held (Some b) tm -> tm_keeps kd tm (StopOpt (cs_timer b) tm).
Proof.
  intros Hk [H1 _ _ _]. destruct (cs_timer b) as [id|] eqn:Ef; [|apply keeps_refl].
  destruct (H1 _ _ eq_refl Ef) as (_ & _ & Hl). apply (keeps_Stop kd tm id _ Hwf Hl). simpl. congruence.
Qed.

Lemma bh_stop b b' : count_stopped b b' -> bound_held (Some b) tm -> bound_held (Some b') (StopOpt (cs_timer b) tm).
Proof.
  intros (Et & Er & _) [H1 H2 H3 H4]. constructor.
  - intros b0 id [= <-]. by rewrite Et.
  - by intros b0 [= <-].
  - intros id due gen H. exfalso. destruct (cs_timer b) as [i|] eqn:Ef; simpl in H.
    + apply pend_Stop in H as [Hne H]. destruct (H3 _ _ _ H) as (b0 & [= <-] & ?). congruence.
    + destruct (H3 _ _ _ H) as (b0 & [= <-] & ?). congruence.
  - intros b0 id [= <-]. by rewrite Er.
Qed.

Lemma bh_played gen now b : (forall id, ~ tm_live tm id (CbFire gen)) -> bound_held (Some b) tm ->
  let r := snd (played gen now b tm) in
  tm_wf (snd r) /\ bound_held (Some (fst r)) (snd r) /\ forall kd, kd <> KdFire -> tm_keeps kd tm (snd r).
Proof.
  intros Hno Hb. unfold played.
  destruct (cs_stopped b || negb (gen =? cs_gen b)%nat || cs_pending b || cs_running b) eqn:E;
    [by split_and!; auto using keeps_refl|].
  repeat (apply orb_false_iff in E as [E ?]). apply negb_false_iff, Nat.eqb_eq in H1. subst gen.
  pose proof (fun id cb => live_AfterFunc tm now (cs_after b) (CbFire (cs_gen b)) id cb Hwf) as Hl.
  destruct Hb as [H1 H2 H3 H4].
  assert (Ht : cs_timer b = None) by (destruct (cs_timer b) eqn:Et; [by destruct (H1 _ _ eq_refl Et); congruence | done]).
  split_and!.
  - by apply (AfterFunc_wf now (cs_after b) (CbFire (cs_gen b))).
  - constructor.
    + intros b0 id [= <-] [= <-]. simpl. split_and!; [done..|]. apply Hl. auto.
    + by intros b0 [= <-].
    + intros id due g Hp. apply (pend_AfterFunc tm now (cs_after b) (CbFire (cs_gen b))) in Hp as [[-> _]|Hp]; [by eexists|].
      destruct (H3 _ _ _ Hp) as (b0 & [= <-] & ?). congruence.
    + intros b0 id [= <-] _ Hx. apply Hl in Hx as [[-> _]|Hx]; [done | by apply Hno in Hx].
  - intros kd Hk. apply (keeps_AfterFunc kd tm now (cs_after b) (CbFire (cs_gen b))); [done | simpl; congruence].
Qed.

Lemma bh_fire id gen tm' o : tm_take id tm = Some (CbFire gen, tm') -> bound_held o tm ->
  bound_held (fireSilence gen <$> o) tm'.
Proof.
  intros Ht Hb. destruct (live_take _ _ _ _ Hwf Ht) as (Hl & Hl' & Hp). pose proof Hb as [H1 H2 H3 H4].
  destruct o as [b|]; simpl.
  2:{ constructor; try done. intros i due g. rewrite Hp. intros H. by destruct (H3 _ _ _ H) as (? & ? & _). }
  unfold fireSilence. destruct (cs_stopped b || negb (gen =? cs_gen b)%nat || negb (cs_running b)) eqn:E.
  - constructor; [|done|by rewrite Hp|intros b0 i [= <-] Hr H; apply Hl' in H as [H _]; by apply H4].
    intros b0 i [= <-] Hi. destruct (H1 _ _ eq_refl Hi) as (Er & Es & Hb'). split_and!; [done..|].
    apply Hl'. split; [done|]. intros ->. pose proof (live_unique _ _ _ _ Hwf Hl Hb') as [= ->].
    by rewrite Er, Es, Nat.eqb_refl in E.
  - apply orb_false_iff in E as [E Er]. apply orb_false_iff in E as [Es Eg].
    apply negb_false_iff in Er, Eg. apply Nat.eqb_eq in Eg. subst gen.
    pose proof (H4 _ _ eq_refl Er Hl) as Hi. constructor; [by intros b0 i [= <-] | by intros b0 [= <-] | | by intros b0 i [= <-]].
    intros i due g. rewrite Hp. intros H. exfalso. destruct (H3 _ _ _ H) as (b0 & [= <-] & Hi').
    assert (i = id) as -> by congruence. unfold tm_take in Ht. destruct Hwf as (_ & _ & H3').
    destruct (tm_started tm !! id) eqn:Ei; [|done]. apply (H3' id); eauto.
Qed.
End BoundHeld.

Section MarksHeld.
Context (tm : timers callback) (Hwf : tm_wf tm).
Implicit Types t : markTracker.

Lemma mh_same t t' : mk_gen t' = mk_gen t -> mk_outstanding t' = mk_outstanding t -> mk_stopped t' = mk_stopped t ->
  marks_held (Some t) tm -> marks_held (Some t') tm.
Proof.
  intros Eg Eo Es [H1 H2 H3]. constructor.
  - intros t0 n m [= <-]. rewrite Eo, Es. by apply H1.
  - intros id due n g H. destruct (H2 _ _ _ _ H) as (t0 & m & [= <-] & ?). exists t', m. by rewrite Eo.
  - intros t0 id n g [= <-]. rewrite Eg, Eo. by apply H3.
Qed.

(** A mark leaves the tracker and its countdown is stopped. *)
Lemma mh_drop t t' n m : mk_outstanding t !! n = Some m -> mk_gen t' = mk_gen t ->
  mk_outstanding t' = delete n (mk_outstanding t) -> mk_stopped t' = mk_stopped t ->
  marks_held (Some t) tm ->
  tm_wf (Stop (om_timer m) tm) /\ marks_held (Some t') (Stop (om_timer m) tm) /\
  forall kd, kd <> KdExpire -> tm_keeps kd tm (Stop (om_timer m) tm).
Proof.
  intros Hm Eg Eo Es [H1 H2 H3]. destruct (H1 _ _ _ eq_refl Hm) as [_ Hl]. split_and!; [by apply Stop_wf| |].
  - constructor.
    + intros t0 n' m' [= <-]. rewrite Eo, Es, lookup_delete_Some. intros [Hne Hm'].
      destruct (H1 _ _ _ eq_refl Hm') as [? Hl']. split; [done|]. apply live_Stop; [|done].
      intros E. rewrite E in Hl'. pose proof (live_unique _ _ _ _ Hwf Hl Hl'). congruence.
    + intros id due n' g H. apply pend_Stop in H as [Hne H]. destruct (H2 _ _ _ _ H) as (t0 & m' & [= <-] & Hm' & Hi & Hg).
      exists t', m'. rewrite Eo, lookup_delete_Some. split_and!; try done. intros <-. congruence.
    + intros t0 id n' g [= <-] H. apply live_Stop_inv in H. destruct (H3 _ _ _ _ eq_refl H) as [? Hu].
      rewrite Eg, Eo. split; [done|]. intros m'. rewrite lookup_delete_Some. intros [_ Hm']. by apply Hu.
  - intros kd Hk. apply (keeps_Stop kd tm _ _ Hwf Hl). simpl. congruence.
Qed.

Lemma mh_echo ready name t : marks_held (Some t) tm ->
  let r := snd (echo ready name t tm) in
  tm_wf (snd r) /\ marks_held (Some (fst r)) (snd r) /\ forall kd, kd <> KdExpire -> tm_keeps kd tm (snd r).
Proof.
  intros Ht. unfold echo. destruct (mk_stopped t) eqn:Es; [by split_and!; auto using keeps_refl|].
  destruct (mk_outstanding t !! name) as [m|] eqn:Em; [|by split_and!; auto using keeps_refl]. cbv zeta.
  destruct (om_played m); simpl; [by apply (mh_drop t _ name)|].
  pose proof (resolveAwait_same (await_key name) (t <| mk_outstanding ::= delete name |>)) as (E1 & E2 & E3).
  destruct (resolveAwaitLocked _ _) as [[] t']; simpl in *; by apply (mh_drop t _ name).
Qed.

Lemma mh_arm name bound p now t : marks_held (Some t) tm ->
  let r := armLocked name bound p now t tm in
  tm_wf (snd r) /\ marks_held (Some (fst r)) (snd r) /\ forall kd, kd <> KdExpire -> tm_keeps kd tm (snd r).
Proof.
  intros Ht. unfold armLocked. destruct (mk_stopped t) eqn:Es; [by split_and!; auto using keeps_refl|].
  set (tm1 := match mk_outstanding t !! name with Some old => Stop (om_timer old) tm | None => tm end).
  assert (H : tm_wf tm1 /\ marks_held (Some (t <| mk_outstanding ::= delete name |>)) tm1 /\
    forall kd, kd <> KdExpire -> tm_keeps kd tm tm1).
  { unfold tm1. destruct (mk_outstanding t !! name) as [m|] eqn:Em; [by apply (mh_drop t _ name)|].
    split_and!; auto using keeps_refl. eapply mh_same; [..|exact Ht]; try done. simpl. by apply delete_id. }
  destruct H as (Hwf1 & [H1 H2 H3] & Hk1). simpl. set (cb := CbExpire name (S (mk_gen t))).
  pose proof (fun id cb' => live_AfterFunc tm1 now bound cb id cb' Hwf1) as Hl.
  split_and!.
  - by apply (AfterFunc_wf now bound cb).
  - constructor.
    + intros t0 n m [= <-]. simpl. rewrite lookup_insert_Some. intros [[<- <-]|[Hne Hm]]; (split; [done|]); apply Hl; [by left|].
      right. destruct (H1 _ n m eq_refl) as [_ ?]; [|done]. simpl. by rewrite lookup_delete_ne.
    + intros id due n g Hp. apply (pend_AfterFunc tm1 now bound cb) in Hp as [[-> [= -> ->]]|Hp].
      * do 2 eexists. split; [reflexivity|]. simpl. rewrite lookup_insert_eq. done.
      * destruct (H2 _ _ _ _ Hp) as (t0 & m & [= <-] & Hm & ? & ?). simpl in Hm. apply lookup_delete_Some in Hm as [Hne Hm].
        do 2 eexists. split; [reflexivity|]. simpl. rewrite lookup_insert_ne; done.
    + intros t0 id n g [= <-] Hx. simpl. apply Hl in Hx as [[-> [= -> ->]]|Hx].
      * split; [done|]. intros m. rewrite lookup_insert_eq. by intros [= <-].
      * destruct (H3 _ _ _ _ eq_refl Hx) as [Hle Hu]. simpl in Hle. split; [lia|]. intros m.
        rewrite lookup_insert_Some. intros [[_ <-]|[Hne Hm]]; simpl; [lia|]. apply Hu. simpl. by rewrite lookup_delete_ne.
  - intros kd Hk. eapply keeps_trans; [by apply Hk1|]. apply (keeps_AfterFunc kd tm1 now bound cb); [done | simpl; congruence].
Qed.

Lemma mh_expire id name gen ready tm' o : tm_take id tm = Some (CbExpire name gen, tm') -> marks_held o tm ->
  marks_held ((fun t => snd (expire ready name gen t)) <$> o) tm'.
Proof.
  intros Htk Hh. destruct (live_take _ _ _ _ Hwf Htk) as (Hl & Hl' & Hp). pose proof Hh as [H1 H2 H3].
  destruct o as [t|]; simpl.
  2:{ constructor; try done. intros i due n g. rewrite Hp. intros H. by destruct (H2 _ _ _ _ H) as (? & ? & ? & _). }
  assert (Hsame : (forall m, mk_outstanding t !! name = Some m -> om_gen m <> gen) -> marks_held (Some t) tm').
  { intros Hno. constructor; [|by rewrite Hp|intros t0 i n g [= <-] H; apply Hl' in H as [H _]; by apply H3].
    intros t0 n m [= <-] Hm. destruct (H1 _ _ _ eq_refl Hm) as [? Hlm]. split; [done|]. apply Hl'. split; [done|].
    intros E. rewrite E in Hlm. pose proof (live_unique _ _ _ _ Hwf Hl Hlm) as [= -> ->]. by apply (Hno _ Hm). }
  unfold expire. destruct (mk_stopped t) eqn:Es.
  { simpl. apply Hsame. intros m Hm. by destruct (H1 t name m eq_refl Hm) as [? _]; congruence. }
  destruct (mk_outstanding t !! name) as [m|] eqn:Em; [|by apply Hsame].
  destruct (om_gen m =? gen)%nat eqn:Eg; simpl; [|apply Hsame; intros m' [= <-]; by apply Nat.eqb_neq].
  apply Nat.eqb_eq in Eg.
  destruct (H3 _ _ _ _ eq_refl Hl) as [_ Hu]. specialize (Hu _ Em Eg).
  assert (Hd : forall t', mk_gen t' = mk_gen t -> mk_outstanding t' = delete name (mk_outstanding t) ->
    mk_stopped t' = mk_stopped t -> marks_held (Some t') tm').
  { intros t' E1 E2 E3. constructor.
    - intros t0 n m' [= <-]. rewrite E2, E3, lookup_delete_Some. intros [Hne Hm].
      destruct (H1 _ _ _ eq_refl Hm) as [? Hlm]. split; [done|]. apply Hl'. split; [done|].
      intros E. rewrite E in Hlm. pose proof (live_unique _ _ _ _ Hwf Hl Hlm). congruence.
    - intros i due n g. rewrite Hp. intros H. destruct (H2 _ _ _ _ H) as (t0 & m' & [= <-] & Hm & Hi & Hg).
      exists t', m'. rewrite E2, lookup_delete_Some. split_and!; try done. intros <-.
      assert (i = id) as -> by congruence. unfold tm_take in Htk. destruct Hwf as (_ & _ & H3').
      destruct (tm_started tm !! id) eqn:Ei; [|done]. apply (H3' id); eauto.
    - intros t0 i n g [= <-] H. apply Hl' in H as [H _]. destruct (H3 _ _ _ _ eq_refl H) as [? Hu'].
      rewrite E1, E2. split; [done|]. intros m'. rewrite lookup_delete_Some. intros [_ Hm]. by apply Hu'. }
  pose proof (resolveAwait_same (await_key name) (t <| mk_outstanding ::= delete name |>)) as (E1 & E2 & E3).
  destruct (resolveAwaitLocked _ _) as [owned t']; simpl in *.
  destruct (om_played m); simpl; [by apply Hd|]. destruct owned; simpl; by apply Hd.
Qed.
End MarksHeld.

(** The tracker's stop takes every countdown it holds. *)
Lemma stop_all_pend (l : gmap string outstandingMark) (tm : timers callback) id x :
  tm_pending (map_fold (fun _ m tm => Stop (om_timer m) tm) tm l) !! id = Some x ->
  forall n m, l !! n = Some m -> om_timer m <> id.
Proof.
  revert id x. apply (map_fold_weak_ind (fun r (l : gmap string outstandingMark) => forall id x,
    tm_pending r !! id = Some x -> forall n m, l !! n = Some m -> om_timer m <> id)); [by intros; rewrite lookup_empty in *|].
  intros n m l' r _ IH id x H n' m'. apply pend_Stop in H as [Hne H].
  rewrite lookup_insert_Some. intros [[_ <-]|[_ Hm]]; [done | by eapply IH].
Qed.

Lemma stop_all_live (l : gmap string outstandingMark) (tm : timers callback) id cb :
  (forall n m, l !! n = Some m -> om_timer m <> id) ->
  tm_live (map_fold (fun _ m tm => Stop (om_timer m) tm) tm l) id cb <-> tm_live tm id cb.
Proof.
  apply (map_fold_weak_ind (fun r (l : gmap string outstandingMark) =>
    (forall n m, l !! n = Some m -> om_timer m <> id) -> tm_live r id cb <-> tm_live tm id cb)); [done|].
  intros n m l' r Hn IH H. rewrite live_Stop by (apply not_eq_sym, (H n); by rewrite lookup_insert_eq).
  apply IH. intros n' m' Hm. apply (H n'). rewrite lookup_insert_ne; [done | congruence].
Qed.

Lemma stop_all_live_inv (l : gmap string outstandingMark) (tm : timers callback) id cb :
  tm_live (map_fold (fun _ m tm => Stop (om_timer m) tm) tm l) id cb -> tm_live tm id cb.
Proof.
  intros [[due H]|H]; [left; exists due; by eapply stop_all_pending | right].
  rewrite stop_all_started in H. exact H.
Qed.

Lemma stop_all_wf (l : gmap string outstandingMark) (tm : timers callback) :
  tm_wf tm -> tm_wf (map_fold (fun _ m tm => Stop (om_timer m) tm) tm l).
Proof.
  intros H. apply (map_fold_weak_ind (fun r (_ : gmap string outstandingMark) => tm_wf r)); [done|].
  intros. by apply Stop_wf.
Qed.

Lemma mh_stop t tm : tm_wf tm -> marks_held (Some t) tm ->
  let r := stopMarks t tm in
  tm_wf (snd r) /\ marks_held (Some (fst r)) (snd r) /\ forall kd, kd <> KdExpire -> tm_keeps kd tm (snd r).
Proof.
  intros Hwf [H1 H2 H3]. unfold stopMarks. simpl.
  destruct (resolveAwait_same None (t <| mk_stopped := true |>)) as (Eg & Eo & _).
  rewrite Eo. clear Eo. simpl. split_and!; [by apply stop_all_wf| |].
  - constructor.
    + intros t0 n m [= <-]. simpl. by rewrite lookup_empty.
    + intros id due n g H. exfalso. pose proof (stop_all_pend _ _ _ _ H) as Hno. apply stop_all_pending in H.
      destruct (H2 _ _ _ _ H) as (t0 & m & [= <-] & Hm & Hi & _). by apply (Hno n m).
    + intros t0 id n g [= <-] H. simpl. split; [|by intros m; rewrite lookup_empty].
      assert (Hl : tm_live tm id (CbExpire n g)) by (by eapply stop_all_live_inv).
      destruct (H3 _ _ _ _ eq_refl Hl) as [? _]. simpl in Eg. by rewrite Eg.
  - intros kd Hk. split; [|intros id due cb _; apply stop_all_pending].
    intros id cb Hkd. destruct (decide (exists n m, mk_outstanding t !! n = Some m /\ om_timer m = id)) as [(n & m & Hm & <-)|Hno].
    + destruct (H1 _ _ _ eq_refl Hm) as [_ Hl]. split; intros H; exfalso.
      * assert (Hl' : tm_live tm (om_timer m) cb) by (by eapply stop_all_live_inv).
        pose proof (live_unique _ _ _ _ Hwf Hl Hl'). subst cb. simpl in Hkd. congruence.
      * pose proof (live_unique _ _ _ _ Hwf Hl H). subst cb. simpl in Hkd. congruence.
    + apply stop_all_live. intros n m Hm E. apply Hno. by exists n, m.
Qed.

(** A section of one component keeps the others' holdings with the table's
    entries of their kinds. *)
Lemma held_fill k f' tm' sp' :
  tm_wf tm' -> fill_held (Some f') sp' tm' -> (forall kd, kd <> KdStart -> tm_keeps kd (k_timers k) tm') ->
  held k -> held (k <| k_filler := Some f' |> <| k_timers := tm' |> <| k_spawned := sp' |>).
Proof.
  intros Hwf Hf Hk [_ _ Hb Hm].
  constructor; simpl; [done | done | eapply bound_held_keeps; [by apply Hk|exact Hb] | eapply marks_held_keeps; [by apply Hk|exact Hm]].
Qed.

Lemma held_bound k o tm' :
  tm_wf tm' -> bound_held o tm' -> (forall kd, kd <> KdFire -> tm_keeps kd (k_timers k) tm') ->
  held k -> held (k <| k_silence := o |> <| k_timers := tm' |>).
Proof.
  intros Hwf Hb Hk [_ Hf _ Hm].
  constructor; simpl; [done | eapply fill_held_keeps; [by apply Hk|exact Hf] | done | eapply marks_held_keeps; [by apply Hk|exact Hm]].
Qed.

Lemma held_marks k o tm' :
  tm_wf tm' -> marks_held o tm' -> (forall kd, kd <> KdExpire -> tm_keeps kd (k_timers k) tm') ->
  held k -> held (k <| k_marks := o |> <| k_timers := tm' |>).
Proof.
  intros Hwf Hm Hk [_ Hf Hb _].
  constructor; simpl; [done | eapply fill_held_keeps; [by apply Hk|exact Hf] | eapply bound_held_keeps; [by apply Hk|exact Hb] | done].
Qed.

Lemma held_crit pv k k' : crit pv k k' -> held k -> held k'.
Proof.
  intros Hc H. pose proof H as [Hwf Hf Hb Hm].
  destruct Hc as [k f gen E | k f by_ now E | k f E | k f E | k f gen E Hg | k b b' E Hc | k b b' E Hc | k b gen now E Hno
    | k t name bound p now Hpv E | k t E | k t name Hpv E | k t ready name E | k t Hpv E | k | k now id tm E | k id gen by_ tm E
    | k id gen tm E | k id name gen ready tm E].
  - rewrite E in Hf. apply (held_fill k _ (k_timers k) (k_spawned k)); auto using keeps_refl.
    unfold nextFrame. destruct (_ || _); [done|]. by eapply fh_same; [..|exact Hf].
  - rewrite E in Hf. destruct (fh_arm _ _ Hwf by_ now f Hf) as (W & A & K).
    exact (held_fill k _ _ _ W A K H).
  - rewrite E in Hf. apply (held_fill k _ (StopOpt (f_timer f) (k_timers k)) (k_spawned k)); [by apply StopOpt_wf | | by intros; eapply fill_stop_keeps | done].
    apply (fh_cancel _ _ f); [done | simpl; lia | done].
  - rewrite E in Hf. apply (held_fill k _ (StopOpt (f_timer f) (k_timers k)) (k_spawned k)); [by apply StopOpt_wf | | by intros; eapply fill_stop_keeps | done].
    apply (fh_cancel _ _ f); [done | simpl; lia | done].
  - rewrite E in Hf. apply (held_fill k _ (k_timers k) (k_spawned k)); auto using keeps_refl. by apply fh_end.
  - rewrite E in Hb. apply (held_bound k _ (k_timers k)); auto using keeps_refl. by eapply bh_same.
  - rewrite E in Hb. apply (held_bound k _ (StopOpt (cs_timer b) (k_timers k))); [by apply StopOpt_wf | by apply bh_stop | | done].
    intros. by apply bound_stop_keeps.
  - rewrite E in Hb. destruct (bh_played _ Hwf gen now b Hno Hb) as (W & A & K). exact (held_bound k _ _ W A K H).
  - rewrite E in Hm. destruct (mh_arm _ Hwf name bound p now t Hm) as (W & A & K). exact (held_marks k _ _ W A K H).
  - rewrite E in Hm. apply (held_marks k _ (k_timers k)); auto using keeps_refl. by eapply mh_same; [..|exact Hm].
  - rewrite E in Hm. apply (held_marks k _ (k_timers k)); auto using keeps_refl.
    unfold await. cbv zeta. destruct (resolveAwait_same None (t <| mk_chans ::= S |>)) as (E1 & E2 & E3).
    simpl in *. destruct (mk_stopped t) eqn:Es; (eapply mh_same; [..|exact Hm]); simpl; congruence.
  - rewrite E in Hm. destruct (mh_echo _ Hwf ready name t Hm) as (W & A & K). exact (held_marks k _ _ W A K H).
  - rewrite E in Hm. destruct (mh_stop t _ Hwf Hm) as (W & A & K). exact (held_marks k _ _ W A K H).
  - by constructor.
  - pose proof (fun kd => keeps_start kd _ _ _ _ Hwf E) as Hk. constructor; simpl; [by eapply tm_start_wf | | |].
    + by eapply fill_held_keeps.
    + by eapply bound_held_keeps.
    + by eapply marks_held_keeps.
  - assert (Hwf' : tm_wf tm) by (by eapply tm_take_wf).
    assert (Hk : forall kd, kd <> KdStart -> tm_keeps kd (k_timers k) tm)
      by (intros; eapply keeps_take; [done | exact E | simpl; congruence]).
    destruct (k_filler k) as [f|] eqn:Ef.
    + apply (held_fill k _ tm (k_spawned k ++ (if fst (startFiller gen f) then [gen] else []))); try done.
      exact (fh_start _ _ Hwf _ _ _ _ _ E Hf).
    + assert (Hn : fill_held (k_filler k) (k_spawned k) tm).
      { rewrite Ef. destruct (live_take _ _ _ _ Hwf E) as (_ & _ & Hp). constructor; try done.
        intros i due g b. rewrite Hp. intros Hi. by destruct (fh_pend _ _ _ Hf _ _ _ _ Hi) as (? & ? & _). }
      constructor; simpl; [done | done | eapply bound_held_keeps; [by apply Hk|exact Hb] | eapply marks_held_keeps; [by apply Hk|exact Hm]].
  - apply (held_bound k _ tm); [by eapply tm_take_wf | by eapply bh_fire | | done].
    intros. eapply keeps_take; [done | exact E | simpl; congruence].
  - apply (held_marks k _ tm); [by eapply tm_take_wf | by eapply mh_expire | | done].
    intros. eapply keeps_take; [done | exact E | simpl; congruence].
Qed.

Lemma held_crits pv k k' : crits pv k k' -> held k -> held k'.
Proof. induction 1; eauto using held_crit. Qed.

Lemma no_timers_live id cb : ~ tm_live (no_timers (C := callback)) id cb.
Proof. intros [[due H]|H]; simpl in H; by rewrite lookup_empty in H. Qed.

Lemma held_start f b m :
  (forall f0, f = Some f0 -> f_timer f0 = None) ->
  (forall b0, b = Some b0 -> cs_timer b0 = None /\ cs_running b0 = false) ->
  (forall t, m = Some t -> mk_outstanding t = ∅) ->
  held (mkComps f b m no_timers [] false).
Proof.
  intros Hf Hb Hm. constructor; simpl; [auto with s2s | ..]; constructor.
  - intros f0 id E H. rewrite (Hf _ E) in H. done.
  - intros id due gen b0. simpl. by rewrite lookup_empty.
  - intros f0 id gen b0 _ H. by apply no_timers_live in H.
  - intros f0 gen _ H. by apply elem_of_nil in H.
  - intros b0 id E H. destruct (Hb _ E). congruence.
  - intros b0 E _. by destruct (Hb _ E).
  - intros id due gen. simpl. by rewrite lookup_empty.
  - intros b0 id _ _ H. by apply no_timers_live in H.
  - intros t n m' E H. by rewrite (Hm _ E), lookup_empty in H.
  - intros id due n g. simpl. by rewrite lookup_empty.
  - intros t id n g _ H. by apply no_timers_live in H.
Qed.

Lemma held_init c now : held (comps_of (rt_init c now)).
Proof.
  unfold rt_init. cbv zeta. set (m := if _ || _ then _ else None). set (b := newCallerSilence _).
  assert (H : held (mkComps (newFiller (cfg_filler c)) b m no_timers [] false)).
  { apply held_start.
    - intros f. unfold newFiller. case_match; [done|]. by intros [= <-].
    - intros b0. unfold b, newCallerSilence. case_match; [done|]. by intros [= <-].
    - intros t. unfold m. case_match; [|done]. by intros [= <-]. }
  unfold with_filler. simpl. destruct (newFiller (cfg_filler c)) as [f|] eqn:Ef; [|exact H].
  apply (held_crit (fun _ => true) _ _ (cr_fill_arm _ (mkComps (Some f) b m no_timers [] false) f armedByCallOpen now eq_refl)) in H.
  unfold comps_of. simpl in H. destruct (armFiller armedByCallOpen now f no_timers). exact H.
Qed.

Lemma held_reach c now s : rreach c now s -> held (comps_of s).
Proof. induction 1; [apply held_init|]. eapply held_crits; [by eapply reach_crits | done]. Qed.

(** The filler, the caller-silence bound and the mark tracker hold a countdown exactly
    when the runtime will run it for them, with the generation they hold: none is lost,
    every pending countdown has its owner, and no component stops another's. *)
Theorem countdowns_held c now s : rreach c now s ->
  (forall f id, r_filler s = Some f -> f_timer f = Some id ->
     f_playing f = false /\ f_stopped f = false /\ exists by_, tm_live (r_timers s) id (CbStart (f_gen f) by_)) /\
  (forall b id, r_silence s = Some b -> cs_timer b = Some id ->
     cs_running b = true /\ cs_stopped b = false /\ tm_live (r_timers s) id (CbFire (cs_gen b))) /\
  (forall t n m, r_marks s = Some t -> mk_outstanding t !! n = Some m ->
     mk_stopped t = false /\ tm_live (r_timers s) (om_timer m) (CbExpire n (om_gen m))) /\
  (forall id due cb, tm_pending (r_timers s) !! id = Some (due, cb) ->
     match cb with
     | CbStart gen _ => exists f, r_filler s = Some f /\ f_timer f = Some id /\ f_gen f = gen
     | CbFire _ => exists b, r_silence s = Some b /\ cs_timer b = Some id
     | CbExpire n g => exists t m, r_marks s = Some t /\ mk_outstanding t !! n = Some m /\
                                   om_timer m = id /\ om_gen m = g
     end).
Proof.
  intros Hr. apply held_reach in Hr as [Hwf [H1 H2 _ _] [H3 _ H4 _] [H5 H6 _]]. split_and!; [done..|].
  intros id due [g b|n g|g] H; simpl in *; eauto.
Qed.
