(* ===== verification/SinkEnd.v ===== *)
(** * SinkEnd: how a call ends

    From the moment the select loop is left the call only moves towards its
    end: [rank] falls with every statement of the select goroutine, and the
    service's own steps (time, its timers, its goroutines, a socket that fails
    or not) always get it there -- the carrier, the backend and the consumer
    need not do anything.  At the end every countdown is stopped and nothing
    more is written. *)

From S2P Require Export SinkHeld.
From S2P Require Import Filler Silence Marks.

(** ** Past the loop *)

Definition ended (p : spc) : bool :=
  match p with
  | SLoop | SExpired | SDue | SName _ | SWrite _ _ KLoop => false
  | _ => true
  end.

(** Statements of the select goroutine still to come. *)
Definition rank (c : config) (p : spc) : nat :=
  let F := (2 * length (farewell_frames c))%nat in
  match p with
  | SFwStop _ => F + 12
  | SFwClear _ => F + 11
  | SFwClearStop _ => F + 10
  | SWrite _ _ (KFwFlag _) => F + 9
  | SFwFlag _ => F + 8
  | SFwShutdown _ => F + 7
  | SFwFrames _ rest => 2 * length rest + 6
  | SWrite _ _ (KFwFrames _ rest) => 2 * length rest + 7
  | SWrite _ _ (KFwWait _ _) => 5
  | SFwWait _ _ => 4
  | SDeferFill _ => 3
  | SDeferMarks _ => 2
  | SDeferSilence _ => 1
  | _ => 0
  end.

Definition falls (c : config) (p p' : spc) : Prop := ended p' = true /\ (rank c p' < rank c p)%nat.

Lemma select_local_falls c s s' : select_local c s = Some s' -> ended (r_select s) = true ->
  falls c (r_select s) (r_select s').
Proof.
  unfold select_local, falls. destruct (r_select s); try discriminate; intros H _.
  - injection H as <-. simpl. split; [done | lia].
  - injection H as <-. simpl. destruct (r_farewelling s); simpl; split; try done; lia.
  - injection H as <-. simpl. split; [done | lia].
  - injection H as <-. simpl. split; [done | lia].
  - injection H as <-. simpl. split; [done | lia].
  - injection H as <-. unfold farewell_next. destruct rest as [|p rest]; simpl; [|split; [done | lia]].
    destruct (marks_await _ _). simpl. split; [done | lia].
  - destruct (_ || _); [|done]. injection H as <-. simpl. split; [done | lia].
  - injection H as <-. simpl. split; [done | lia].
  - injection H as <-. simpl. split; [done | lia].
  - injection H as <-. simpl. split; [done | lia].
Qed.

Lemma continue_falls c w d k res s : r_select s = SWrite w d k -> ended (r_select s) = true ->
  falls c (r_select s) (r_select (continue TSelect res s)).
Proof.
  intros E He. unfold falls. simpl. rewrite E in *. destruct res, k; try discriminate He; simpl; (split; [done | lia]).
Qed.

(** A step leaves the select goroutine where it is or brings it nearer. *)
Lemma rank_step c s s' : slot_wf s -> rstep c s s' -> ended (r_select s) = true ->
  r_select s' = r_select s \/ falls c (r_select s) (r_select s').
Proof.
  intros Hwf Hst He. destruct (rstep_moved _ _ _ Hwf Hst) as [l' Eb Es Ep | Hw Ho Es Ep | Hw [Ho|[Hl [k Ho]]] Eb Ep
    | i gen p p' Hi Hne Ep Eb Es | t w res Hw Hno Hres El Ew Ef Eb Es Ep]; auto.
  - right. by eapply select_local_falls.
  - by rewrite Hl in He.
  - destruct t; try (left; rewrite Es; apply (continue_others _ _ s); done).
    right. rewrite Es. simpl in Hw. destruct (r_select s) eqn:Eq; try done. rewrite <- Eq in *.
    by eapply continue_falls.
Qed.

(** ** What is stopped at each stage *)

Definition fill_off (k : comps) : Prop := match k_filler k with Some f => f_stopped f = true | None => True end.
Definition bound_off (k : comps) : Prop := match k_silence k with Some b => cs_stopped b = true | None => True end.
Definition marks_off (k : comps) : Prop := match k_marks k with Some t => mk_stopped t = true | None => True end.

Lemma crit_off pv k k' : crit pv k k' ->
  (fill_off k -> fill_off k') /\ (bound_off k -> bound_off k') /\ (marks_off k -> marks_off k') /\
  (k_closed k = true -> k_closed k' = true).
Proof.
  intros Hc. unfold fill_off, bound_off, marks_off.
  destruct Hc as [k f gen E | k f by_ now E | k f E | k f E | k f gen E Hg | k b b' E Hc | k b b' E Hc | k b gen now E Hno
    | k t name bound p now Hpv E | k t E | k t name Hpv E | k t ready name E | k t Hpv E | k | k now id tm E | k id gen by_ tm E
    | k id gen tm E | k id name gen ready tm E]; simpl; try rewrite E; split_and!; try done.
  - unfold nextFrame. by destruct (_ || _).
  - unfold armFiller. intros Hs. rewrite Hs. done.
  - unfold endEpisode. by destruct (negb _).
  - destruct Hc as (_ & _ & _ & Hs). by rewrite Hs.
  - destruct Hc as (_ & _ & H). done.
  - unfold played. intros Hs. rewrite Hs. done.
  - unfold armLocked. intros Hs. rewrite Hs. done.
  - unfold await. simpl. intros Hs. rewrite Hs. done.
  - unfold echo. intros Hs. rewrite Hs. done.
  - by destruct (resolveAwait_same None (t <| mk_stopped := true |>)) as (_ & _ & ->).
  - destruct (k_filler k) as [f|] eqn:Ef; simpl; [|by rewrite Ef]. unfold startFiller. intros Hs. rewrite Hs. done.
  - by destruct (k_filler k).
  - by destruct (k_filler k).
  - by destruct (k_filler k).
  - destruct (k_silence k); [|done]. simpl. unfold fireSilence. intros Hs. rewrite Hs. done.
  - destruct (k_marks k); [|done]. simpl. unfold expire. intros Hs. rewrite Hs. done.
Qed.

Lemma crits_off pv k k' : crits pv k k' ->
  (fill_off k -> fill_off k') /\ (bound_off k -> bound_off k') /\ (marks_off k -> marks_off k') /\
  (k_closed k = true -> k_closed k' = true).
Proof.
  induction 1 as [|k1 k2 k3 H _ (A & B & C & D)]; [done|]. destruct (crit_off _ _ _ H) as (A' & B' & C' & D').
  split_and!; auto.
Qed.

(** The deferred calls done so far. *)
Definition stage_ok (s : rt) : Prop :=
  let k := comps_of s in
  match r_select s with
  | SDeferMarks _ => fill_off k
  | SDeferSilence _ => fill_off k /\ marks_off k
  | SDone _ => fill_off k /\ marks_off k /\ bound_off k /\ k_closed k = true
  | _ => True
  end.

Lemma stage_keep pv s s' : crits pv (comps_of s) (comps_of s') -> r_select s' = r_select s -> stage_ok s -> stage_ok s'.
Proof.
  intros Hc Es. apply crits_off in Hc as (A & B & C & D). unfold stage_ok. rewrite Es.
  destruct (r_select s); try done; [tauto..|]. intros (?&?&?&?). auto.
Qed.

Lemma stage_select c s s' : select_local c s = Some s' -> stage_ok s -> stage_ok s'.
Proof.
  intros H. pose proof (select_crits c s s' H) as Hc. apply crits_off in Hc as (A & B & C & D). revert H A B C D.
  unfold select_local, stage_ok. destruct (r_select s); try discriminate.
  1-10: intros H _ _ _ _ _; revert H; repeat case_match; intros [= <-]; try done;
    unfold farewell_next, endWithFarewell in *; repeat case_match; simplify_eq/=; done.
  - intros [= <-]. intros _ _ _ _ _. simpl. unfold fill_off, fill_shutdown, with_filler. simpl.
    destruct (r_filler s) eqn:E; simpl; [done | by rewrite E].
  - intros [= <-] A B C D H. simpl in *. split; [by apply A|]. unfold marks_off, with_marks. simpl.
    destruct (r_marks s) as [t|] eqn:E; simpl; [|by rewrite E].
    by destruct (resolveAwait_same None (t <| mk_stopped := true |>)) as (_ & _ & ->).
  - intros [= <-] A B C D [H1 H2]. simpl in *. split_and!; auto.
    unfold bound_off, with_silence. simpl. destruct (r_silence s) eqn:E; simpl; [done | by rewrite E].
Qed.

Lemma stage_step c now s s' : rreach c now s -> rstep c s s' -> stage_ok s -> stage_ok s'.
Proof.
  intros Hr Hst Hs. pose proof (reach_crits _ _ _ _ Hr Hst) as Hc.
  destruct (rstep_moved _ _ _ (slot_wf_reach _ _ _ Hr) Hst) as [l' Eb Es Ep | Hw Ho Es Ep | Hw [Ho|[Hl [k Ho]]] Eb Ep
    | i gen p p' Hi Hne Ep Eb Es | t w res Hw Hno Hres El Ew Ef Eb Es Ep]; try (by eapply stage_keep).
  - by eapply stage_select.
  - unfold stage_ok. destruct k; simpl in Ho; repeat case_match; simplify_eq/=; try done;
      unfold endWithFarewell in *; repeat case_match; simplify_eq/=; congruence.
  - destruct t; try (eapply stage_keep; [exact Hc | rewrite Es; apply (continue_others _ _ s); done | done]).
    simpl in Hw, Es. destruct (r_select s) eqn:Eq; try done. unfold stage_ok. rewrite Es. by destruct res, k.
Qed.

Lemma stage_reach c now s : rreach c now s -> stage_ok s.
Proof.
  induction 1; [|by eapply stage_step]. unfold stage_ok, rt_init, with_filler. simpl.
  destruct (newFiller _); [destruct (armFiller _ _ _ _)|]; done.
Qed.

(** ** After the end *)

Lemma closed_wires c s s' : r_closed s = true -> rstep c s s' -> wires (r_log s') = wires (r_log s).
Proof.
  intros Hc Hst. assert (H : exists l, r_log s' = r_log s ++ l /\ nowire l).
  { assert (Hloc : (exists l, rloc s s' l) -> exists l, r_log s' = r_log s ++ l /\ nowire l)
      by (intros [l []]; eauto).
    destruct Hst; try (exists []; by rewrite app_nil_r);
      eauto using bridge_local_sum, drain_local_sum, select_local_sum, select_case_sum.
    - exists [TvRead ev]. done.
    - destruct (marks_echo_aux ready name s) as [l []]. eauto.
    - destruct (run_callback_aux ready cb (s <| r_timers := tm |>)) as (l & s1 & Ha & Hp).
      exists l. rewrite (pcs_log _ _ Hp), (aux_log _ _ _ Ha). split; [done | apply Ha].
    - exists []. rewrite app_nil_r. split; [|done].
      exact (eq_trans (aux_log _ _ _ (with_filler_aux (fun f tm => (endEpisode gen f, tm)) s (fun f tm => endEpisode_fle gen f)))
        (app_nil_r _)).
    - exists []. rewrite app_nil_r. split; [apply continue_same | done].
    - revert H. unfold slot_local. destruct (r_slot s) as [[[t w] [|m g|m g|res]]|]; [..|done].
      + destruct (build_aux w s) as [l Hl]. destruct (build w s). intros [= <-]. exists l. split; apply Hl.
      + rewrite Hc, andb_false_r. intros [= <-]. exists []. by rewrite app_nil_r.
      + intros [= <-]. destruct (afterWrite_aux ready m g s) as [l Hl]. exists l. split; apply Hl.
      + intros [= <-]. exists []. rewrite app_nil_r. split; [|done].
        by destruct (continue_same t res (s <| r_slot := None |>)) as (-> & _). }
  destruct H as (l & -> & Hl). by rewrite wires_app, (wires_nowire l), app_nil_r.
Qed.

Lemma off_no_countdown s : held (comps_of s) -> fill_off (comps_of s) -> marks_off (comps_of s) ->
  bound_off (comps_of s) -> tm_pending (r_timers s) = ∅.
Proof.
  intros [_ [H1 H2 _ _] [H3 _ H4 _] [H5 H6 _]] Hf Hm Hb. unfold fill_off, marks_off, bound_off in *. simpl in *.
  apply map_empty. intros id. destruct (tm_pending (r_timers s) !! id) as [[due [g b|n g|g]]|] eqn:E; [exfalso..|done].
  - destruct (H2 _ _ _ _ E) as (f & Ef & Et & _). rewrite Ef in Hf. destruct (H1 _ _ Ef Et) as (_ & Hs & _). congruence.
  - destruct (H6 _ _ _ _ E) as (t & m & Et & Ho & _). rewrite Et in Hm. destruct (H5 _ _ _ Et Ho). congruence.
  - destruct (H4 _ _ _ E) as (b & Eb & Et). rewrite Eb in Hb. destruct (H3 _ _ Eb Et) as (_ & Hs & _). congruence.
Qed.

Lemma rtc_reach c now s s' : rreach c now s -> rtc (rstep c) s s' -> rreach c now s'.
Proof. intros Hr. induction 1; [done|]. apply IHrtc. by econstructor. Qed.

(** After the call has returned nothing more is written to the carrier, whatever steps
    the goroutines and callbacks left over take, and no countdown is pending. *)
Theorem call_end_quiet c now s e s' :
  rreach c now s -> r_select s = SDone e -> rtc (rstep c) s s' ->
  r_select s' = SDone e /\ wires (r_log s') = wires (r_log s) /\ tm_pending (r_timers s') = ∅.
Proof.
  intros Hr He Hst. induction Hst as [s|s s1 s2 H _ IH].
  - split_and!; try done. pose proof (stage_reach _ _ _ Hr) as Hs. unfold stage_ok in Hs. rewrite He in Hs.
    destruct Hs as (?&?&?&_). apply off_no_countdown; try done. by eapply held_reach.
  - assert (He1 : r_select s1 = SDone e).
    { destruct (rank_step _ _ _ (slot_wf_reach _ _ _ Hr) H) as [->|[_ Hlt]]; [by rewrite He | done|].
      rewrite He in Hlt. simpl in Hlt. lia. }
    pose proof (stage_reach _ _ _ Hr) as Hs. unfold stage_ok in Hs. rewrite He in Hs. destruct Hs as (_&_&_&Hc).
    assert (Hr1 : rreach c now s1) by (by econstructor).
    destruct (IH Hr1 He1) as (-> & -> & ->). split_and!; try done. by eapply closed_wires.
Qed.

(** ** The farewell's wait *)

Section Wait.
Context (fm : string).

Lemma closed_old (l : list nat) ch ch' : ch ∈ l -> ch ∈ l ++ [ch'].
Proof. intros. apply elem_of_app. by left. Qed.
Lemma closed_new (l : list nat) ch : ch ∈ l ++ [ch].
Proof. apply elem_of_app. right. by apply list_elem_of_singleton. Qed.
#[local] Hint Resolve closed_old closed_new : core.

(** The engine's wait is registered; its mark is in flight. *)
Definition waiting (t : markTracker) (ch : nat) : Prop := ch ∈ mk_closed t \/ mk_await t = Some (fm, ch).
Definition waiting_on (t : markTracker) (ch : nat) : Prop :=
  ch ∈ mk_closed t \/
  mk_await t = Some (fm, ch) /\ exists m, mk_outstanding t !! fm = Some m /\ om_played m = None.

Lemma resolve_waiting key t ch : waiting t ch -> waiting (snd (resolveAwaitLocked key t)) ch.
Proof.
  unfold waiting, resolveAwaitLocked. intros H. destruct (mk_await t) as [[n ch']|] eqn:Ea; simpl; [|by rewrite Ea].
  destruct (match key with None => true | Some n' => bool_decide (n' = n) end); simpl; [left|by rewrite Ea].
  destruct H as [H|[= -> ->]]; auto.
Qed.

Lemma resolve_own t ch : waiting t ch -> ch ∈ mk_closed (snd (resolveAwaitLocked (await_key fm) t)).
Proof.
  unfold waiting, resolveAwaitLocked, await_key. intros [H|E].
  - destruct (mk_await t) as [[n ch']|]; [|done]. case_match; simpl; auto.
  - rewrite E. case_bool_decide; simpl; [auto|]. rewrite bool_decide_eq_true_2 by done. simpl. auto.
Qed.

Lemma resolve_own_true t ch : mk_await t = Some (fm, ch) -> fst (resolveAwaitLocked (await_key fm) t) = true.
Proof.
  intros E. unfold resolveAwaitLocked, await_key. rewrite E. case_bool_decide; simpl; [done|].
  by rewrite bool_decide_eq_true_2.
Qed.

Lemma resolve_other key t : mk_await (snd (resolveAwaitLocked key t)) = mk_await t \/
  exists n ch, mk_await t = Some (n, ch) /\ ch ∈ mk_closed (snd (resolveAwaitLocked key t)).
Proof.
  unfold resolveAwaitLocked. destruct (mk_await t) as [[n ch]|] eqn:Ea; simpl; [|by left].
  case_match; simpl; [right | by left]. exists n, ch. split; [done | auto].
Qed.

Lemma waiting_weaken t ch : waiting_on t ch -> waiting t ch.
Proof. intros [H|[H _]]; [by left | by right]. Qed.

(** A mark other than the farewell's leaves the tracker. *)
Lemma waiting_on_drop key n t t' ch : n <> fm -> waiting_on t ch ->
  t' = snd (resolveAwaitLocked key (t <| mk_outstanding ::= delete n |>)) -> waiting_on t' ch.
Proof.
  intros Hn H ->. set (t0 := t <| mk_outstanding ::= delete n |>).
  destruct (resolveAwait_same key t0) as (_ & Eo & _).
  destruct H as [H|[Ha (m & Hm & Hp)]].
  - left. destruct (resolve_waiting key t0 ch) as [?|Hx]; [by left | done |].
    unfold resolveAwaitLocked in *. destruct (mk_await t0) as [[]|]; simpl in *; [|done]. case_match; simpl; auto.
  - destruct (resolve_other key t0) as [E|(n' & ch' & E & Hin)].
    + right. rewrite E, Eo. split; [done|]. exists m. unfold t0. simpl. by rewrite lookup_delete_ne.
    + left. simpl in E. rewrite Ha in E. by injection E as -> ->.
Qed.

Definition tracker (k : comps) (P : markTracker -> Prop) : Prop := exists t, k_marks k = Some t /\ P t.

Lemma waiting_deliver ready rec t ch :
  (waiting t ch -> waiting (deliver ready rec t) ch) /\ (waiting_on t ch -> waiting_on (deliver ready rec t) ch).
Proof. done. Qed.

Lemma echo_waiting ready name t tm ch :
  (waiting t ch -> waiting (fst (snd (echo ready name t tm))) ch) /\
  (waiting_on t ch -> waiting_on (fst (snd (echo ready name t tm))) ch).
Proof.
  unfold echo. destruct (mk_stopped t); [done|]. destruct (mk_outstanding t !! name) as [m|] eqn:Em; [|done]. cbv zeta.
  set (t0 := t <| mk_outstanding ::= delete name |>).
  destruct (om_played m) as [g|] eqn:Ep.
  - split; [done|]. simpl. intros [H|[Ha (m' & Hm & Hp)]]; [by left|]. right. split; [done|]. exists m'. simpl.
    rewrite lookup_delete_ne; [done|]. intros ->. congruence.
  - pose proof (resolve_waiting (await_key name) t0 ch) as H1.
    assert (H2 : waiting_on t ch -> waiting_on (snd (resolveAwaitLocked (await_key name) t0)) ch).
    { intros H. destruct (decide (name = fm)) as [->|Hn].
      - left. apply resolve_own. by apply waiting_weaken in H.
      - by eapply waiting_on_drop. }
    destruct (resolveAwaitLocked _ _) as [[] t']; simpl in *; auto.
Qed.

Lemma expire_waiting ready name gen t ch :
  (waiting t ch -> waiting (snd (expire ready name gen t)) ch) /\
  (waiting_on t ch -> waiting_on (snd (expire ready name gen t)) ch).
Proof.
  unfold expire. destruct (mk_stopped t); [done|]. destruct (mk_outstanding t !! name) as [m|] eqn:Em; [|done].
  destruct (negb _); [done|]. set (t0 := t <| mk_outstanding ::= delete name |>).
  pose proof (resolve_waiting (await_key name) t0 ch) as H1.
  assert (H2 : waiting_on t ch -> waiting_on (snd (resolveAwaitLocked (await_key name) t0)) ch).
  { intros H. destruct (decide (name = fm)) as [->|Hn].
    - left. apply resolve_own. by apply waiting_weaken in H.
    - by eapply waiting_on_drop. }
  destruct (resolveAwaitLocked _ _) as [owned t']; simpl in *. destruct (om_played m); simpl; [auto|].
  destruct owned; simpl; auto.
Qed.

Lemma crit_waiting pv k k' ch : crit pv k k' -> pv PvAwait = false ->
  (tracker k (fun t => waiting t ch) -> tracker k' (fun t => waiting t ch)) /\
  (pv PvArm = false -> tracker k (fun t => waiting_on t ch) -> tracker k' (fun t => waiting_on t ch)).
Proof.
  intros Hc Hpv. unfold tracker.
  assert (Hid : forall k', k_marks k' = k_marks k ->
    ((exists t, k_marks k = Some t /\ waiting t ch) -> exists t, k_marks k' = Some t /\ waiting t ch) /\
    (pv PvArm = false -> (exists t, k_marks k = Some t /\ waiting_on t ch) -> exists t, k_marks k' = Some t /\ waiting_on t ch))
    by (intros k0 ->; done).
  destruct Hc as [k f gen E | k f by_ now E | k f E | k f E | k f gen E Hg | k b b' E Hc | k b b' E Hc | k b gen now E Hno
    | k t name bound p now Hp E | k t E | k t name Hp E | k t ready name E | k t Hp E | k | k now id tm E | k id gen by_ tm E
    | k id gen tm E | k id name gen ready tm E]; try (by apply Hid); rewrite ?E.
  - split; [|congruence]. intros (t0 & [= <-] & H). eexists. split; [done|].
    unfold armLocked. by destruct (mk_stopped t).
  - split; [|intros _]; intros (t0 & [= <-] & H); by eexists.
  - congruence.
  - destruct (echo_waiting ready name t (k_timers k) ch) as [H1 H2].
    split; [|intros _]; intros (t0 & [= <-] & H); (eexists; split; [done | auto]).
  - assert (Hcl : waiting t ch -> ch ∈ mk_closed (fst (stopMarks t (k_timers k)))).
    { intros [H|H]; unfold stopMarks, resolveAwaitLocked; simpl; [|rewrite H; simpl; auto].
      destruct (mk_await t) as [[]|]; simpl; auto. }
    split; [|intros _]; intros (t0 & [= <-] & H); (eexists; split; [done | left; apply Hcl; auto using waiting_weaken]).
  - apply Hid. by destruct (k_filler k).
  - simpl. destruct (k_marks k) as [t|]; [|by split; [|intros _]; intros (? & [=] & _)].
    destruct (expire_waiting ready name gen t ch) as [H1 H2].
    split; [|intros _]; intros (t0 & [= <-] & H); (eexists; split; [done | auto]).
Qed.

Lemma crits_waiting pv k k' ch : crits pv k k' -> pv PvAwait = false ->
  (tracker k (fun t => waiting t ch) -> tracker k' (fun t => waiting t ch)) /\
  (pv PvArm = false -> tracker k (fun t => waiting_on t ch) -> tracker k' (fun t => waiting_on t ch)).
Proof.
  intros H Hp. induction H as [|k1 k2 k3 H _ [A B]]; [done|].
  destruct (crit_waiting _ _ _ ch H Hp) as [A' B']. split; auto.
Qed.
End Wait.

(** A stopped tracker waits for nothing. *)
Definition stopped_quiet (k : comps) : Prop :=
  forall t, k_marks k = Some t -> mk_stopped t = true -> mk_await t = None.

Lemma resolve_none key t : mk_await t = None -> mk_await (snd (resolveAwaitLocked key t)) = None.
Proof. unfold resolveAwaitLocked. intros H. by rewrite H. Qed.

Lemma stopped_quiet_crit pv k k' : crit pv k k' -> stopped_quiet k -> stopped_quiet k'.
Proof.
  intros Hc. unfold stopped_quiet.
  destruct Hc as [k f gen E | k f by_ now E | k f E | k f E | k f gen E Hg | k b b' E Hc | k b b' E Hc | k b gen now E Hno
    | k t name bound p now Hp E | k t E | k t name Hp E | k t ready name E | k t Hp E | k | k now id tm E | k id gen by_ tm E
    | k id gen tm E | k id name gen ready tm E]; try done; intros H; simpl.
  - intros t0 [= <-]. specialize (H _ E). unfold armLocked. destruct (mk_stopped t) eqn:Es; simpl; [auto|congruence].
  - intros t0 [= <-]. exact (H _ E).
  - intros t0 [= <-]. specialize (H _ E). unfold await. simpl. destruct (mk_stopped t) eqn:Es; simpl; [auto|].
    destruct (resolveAwait_same None (t <| mk_chans ::= S |>)) as (_ & _ & ->). simpl. congruence.
  - intros t0 [= <-]. specialize (H _ E). unfold echo. destruct (mk_stopped t) eqn:Es; [auto|].
    destruct (mk_outstanding t !! name) as [m|]; [|simpl; congruence]. cbv zeta.
    destruct (om_played m); simpl; [congruence|].
    destruct (resolveAwait_same (await_key name) (t <| mk_outstanding ::= delete name |>)) as (_ & _ & E3).
    destruct (resolveAwaitLocked _ _) as [[] t']; simpl in *; congruence.
  - intros t0 [= <-]. simpl. intros _. unfold resolveAwaitLocked. simpl. destruct (mk_await t) as [[]|] eqn:Ea; simpl; [done | exact Ea].
  - intros t0. destruct (k_filler k); simpl; apply H.
  - intros t0. destruct (k_marks k) as [t|]; [|done]. intros [= <-]. specialize (H _ eq_refl). unfold expire.
    destruct (mk_stopped t) eqn:Es; [auto|]. destruct (mk_outstanding t !! name) as [m|]; [|simpl; congruence].
    destruct (negb _); [simpl; congruence|].
    destruct (resolveAwait_same (await_key name) (t <| mk_outstanding ::= delete name |>)) as (_ & _ & E3).
    destruct (resolveAwaitLocked _ _) as [o t']; simpl in *. destruct (om_played m); simpl; [congruence|].
    destruct o; simpl; congruence.
Qed.

Lemma stopped_quiet_reach c now s : rreach c now s -> stopped_quiet (comps_of s).
Proof.
  induction 1 as [|s s' Hr IH Hst].
  - intros t. unfold rt_init, with_filler. simpl. destruct (newFiller _); [destruct (armFiller _ _ _ _)|]; simpl;
      (destruct (_ || _); [|done]); by intros [= <-].
  - pose proof (reach_crits _ _ _ _ Hr Hst) as Hc. induction Hc; eauto using stopped_quiet_crit.
Qed.

Section Farewell.
Context (c : config).
Implicit Types s : rt.

Definition fw s : Prop :=
  match r_select s with
  | SWrite w _ (KFwWait e (Some ch)) =>
      w = WqMark (farewell_mark c) /\ tracker (comps_of s) (fun t => waiting (farewell_mark c) t ch) /\
      match r_slot s with
      | Some (TSelect, _, PhRelease RFailed) => True
      | Some (TSelect, _, PhRelease _) => tracker (comps_of s) (fun t => waiting_on (farewell_mark c) t ch)
      | _ => True
      end
  | SFwWait e (Some ch) => tracker (comps_of s) (fun t => waiting_on (farewell_mark c) t ch)
  | _ => True
  end.

(** Only the select goroutine writes marks. *)
Lemma mark_in_slot s t w m g n : slot_wf s -> binv s -> r_slot s = Some (t, w, PhAfter m g) -> m = WmMark n ->
  t = TSelect.
Proof.
  intros Hwf Hb Es ->. unfold slot_wf in Hwf. rewrite Es in Hwf. destruct Hwf as [Hw Hm].
  destruct t as [| |i]; [exfalso | done | exfalso]; simpl in Hw.
  - unfold binv in Hb. destruct (r_bridge s); simplify_eq. destruct w; simpl in Hm; try done.
  - destruct (r_players s !! i) as [[? []]|]; simplify_eq. done.
Qed.

Lemma fw_idle s s' : slot_wf s -> binv s -> crits (allow s) (comps_of s) (comps_of s') ->
  (forall w d k, r_select s <> SWrite w d k) -> r_select s' = r_select s -> fw s -> fw s'.
Proof.
  intros Hwf Hb Hc Hnw Es. unfold fw. rewrite Es. destruct (r_select s) as [| | | | | | | | | |e [ch|]|w d k| | | |] eqn:Eq; try done;
    [|by destruct (Hnw w d k)].
  apply (crits_waiting _ _ _ _ ch Hc); simpl; [by rewrite Eq|].
  destruct (r_slot s) as [[[t w] [|m g|m g|res]]|] eqn:El; try done. destruct m as [| |n]; try done. exfalso.
  pose proof (mark_in_slot _ _ _ _ _ _ Hwf Hb El eq_refl) as ->.
  unfold slot_wf in Hwf. rewrite El in Hwf. destruct Hwf as [Hw _]. simpl in Hw. by rewrite Eq in Hw.
Qed.

(** The slot around the farewell's mark. *)
Lemma fw_slot ok ready s s' w d e ch : slot_wf s -> gslot s -> stopped_quiet (comps_of s) -> slot_local ok ready s = Some s' ->
  crits (allow s) (comps_of s) (comps_of s') ->
  r_select s = SWrite w d (KFwWait e (Some ch)) -> r_select s' = r_select s -> fw s -> fw s'.
Proof.
  intros Hwf Hg Hq Hsl Hc Eq Es. unfold fw. rewrite Es, Eq. intros (Hw & Ht & Hr). subst w.
  destruct (crits_waiting (farewell_mark c) _ _ _ ch Hc) as [H1 H2]; [simpl; by rewrite Eq|].
  split_and!; [done | auto |]. revert Hsl. unfold slot_local. unfold slot_wf, gslot in *.
  destruct (r_slot s) as [[[t w'] [|m g|m g|res]]|] eqn:El; [..|done].
  - destruct (build w' s) as [r s1] eqn:Eb. intros [= <-]. simpl. destruct t; try done. destruct r as [[m g]|]; [done|].
    exfalso. destruct Hwf as [Hw _]. simpl in Hw. rewrite Eq in Hw. injection Hw as <-. simpl in Eb. done.
  - destruct (ok && _); intros [= <-]; simpl; by destruct t.
  - intros [= <-]. simpl. destruct t; try done. destruct Hwf as [Hw Hm]. simpl in Hw. rewrite Eq in Hw.
    injection Hw as <-. destruct m as [| |n]; try done. simpl in Hm. subst n.
    destruct g as [g|]; [by destruct Hg as (? & ? & ?)|]. simpl.
    destruct Ht as (t0 & Et & Hwt). simpl in Et. specialize (Hq _ Et).
    unfold tracker, marks_arm, with_marks. simpl. rewrite Et. cbv zeta.
    unfold armMark, armLocked. destruct (mk_stopped t0) eqn:Est; simpl.
    + exists t0. split; [done|]. destruct Hwt as [Hx|Hx]; [by left | by rewrite (Hq eq_refl) in Hx].
    + eexists. split; [done|]. destruct Hwt as [Hx|Hx]; [by left | right]. split; [done|].
      eexists. simpl. by rewrite lookup_insert_eq.
  - intros [= <-]. rewrite continue_slot. simpl. done.
Qed.

Lemma select_local_fw s s' : slot_wf s -> select_local c s = Some s' -> fw s'.
Proof.
  intros Hwf H. unfold select_local in H. destruct (r_select s) eqn:Es; try discriminate.
  all: try (injection H as <-; done).
  - repeat case_match; simplify_eq; try done; unfold endWithFarewell; by case_match.
  - repeat case_match; simplify_eq; done.
  - repeat case_match; simplify_eq; done.
  - injection H as <-. unfold fw. simpl. by destruct (r_farewelling s).
  - injection H as <-. unfold farewell_next. destruct rest; [|done].
    unfold marks_await. destruct (r_marks s) as [t|] eqn:Et; [|done].
    unfold await. simpl. unfold fw.
    destruct (mk_stopped t); simpl; (split_and!; [done | unfold tracker; simpl; eexists; (split; [done|]) |]).
    1: left; apply closed_new. 2: by right.
    all: unfold slot_wf in Hwf; destruct (r_slot s) as [[[[] w'] ph]|]; try done;
      destruct Hwf as [Hw _]; simpl in Hw; by rewrite Es in Hw.
  - destruct (_ || _); simplify_eq. done.
Qed.

Lemma select_case_fw k s s' : r_select s = SLoop -> select_case c k s = Some s' -> fw s'.
Proof.
  intros Hs H. unfold fw. destruct k; simpl in H; repeat case_match; simplify_eq/=; try done;
    unfold endWithFarewell in *; repeat case_match; simplify_eq/=; congruence.
Qed.

Lemma fw_continue t w res s s' : slot_wf s -> sinv s -> binv s -> writing t s = Some w ->
  (forall ph, r_slot s' <> Some (t, w, ph)) -> res = RFailed \/ r_slot s = Some (t, w, PhRelease res) ->
  crits (allow s) (comps_of s) (comps_of s') ->
  r_select s' = r_select (continue TSelect res s) -> t = TSelect -> fw s -> fw s'.
Proof.
  intros Hwf Hsi Hb Hw Hno Hres Hc Es -> Hf. simpl in Hw. unfold fw. rewrite Es. simpl.
  destruct (r_select s) as [| | | | | | | | | | |w' d k| | | |] eqn:Eq; try done. injection Hw as ->.
  destruct k as [|e|e rest|e [ch|]]; try (by destruct res).
  unfold fw in Hf. rewrite Eq in Hf. destruct Hf as (-> & Ht & Hr).
  destruct Hres as [->|El]; [done|]. rewrite El in Hr.
  destruct (crits_waiting (farewell_mark c) _ _ _ ch Hc) as [_ H2]; [simpl; by rewrite Eq|].
  specialize (H2 ltac:(simpl; by rewrite El)). destruct res; simpl; auto.
Qed.

(** Between the slot's steps. *)
Lemma fw_same s s' : slot_wf s -> crits (allow s) (comps_of s) (comps_of s') -> binv s ->
  r_select s' = r_select s -> r_slot s' = r_slot s \/ (r_slot s = None /\ exists t w, r_slot s' = Some (t, w, PhBuild)) ->
  fw s -> fw s'.
Proof.
  intros Hwf Hc Hb Es Hsl Hf.
  destruct (r_select s) as [| | | | | | | | | |e o|w d k| | | |] eqn:Eq; try (unfold fw; by rewrite Es).
  { eapply fw_idle; try done; rewrite Eq; [intros *; discriminate | exact Es]. }
  unfold fw in *. rewrite Es. rewrite Eq in Hf. destruct k as [|e|e rest|e [ch|]]; try done.
  destruct Hf as (-> & Ht & Hr).
  destruct (crits_waiting (farewell_mark c) _ _ _ ch Hc) as [H1 H2]; [simpl; by rewrite Eq|].
  split_and!; [done | auto |]. destruct Hsl as [->|(_ & t & w & ->)]; [|by destruct t].
  destruct (r_slot s) as [[[[] w'] [|m g|m g|res]]|] eqn:El; try done.
  destruct res; [..|done]; apply H2; try done; simpl; by rewrite El.
Qed.

Lemma rstep_slot s s' : rstep c s s' ->
  r_slot s' = r_slot s \/ (r_slot s = None /\ exists t w, r_slot s' = Some (t, w, PhBuild)) \/
  exists ok ready, slot_local ok ready s = Some s'.
Proof.
  assert (Hloc : (exists l, rloc s s' l) -> r_slot s' = r_slot s) by (by intros [l []]).
  destruct 1; try (by left);
    eauto using bridge_local_sum, drain_local_sum, select_local_sum, select_case_sum.
  - left. destruct (marks_echo_aux ready name s) as [l []]. done.
  - left. destruct (run_callback_aux ready cb (s <| r_timers := tm |>)) as (l & s1 & Ha & Hp).
    by rewrite (pcs_slot _ _ Hp), (aux_slot _ _ _ Ha).
  - left. exact (aux_slot _ _ _ (with_filler_aux (fun f tm => (endEpisode gen f, tm)) s (fun f tm => endEpisode_fle gen f))).
  - right. left. eauto.
  - left. apply continue_same.
Qed.

Lemma fw_stays now s s' : rreach c now s -> rstep c s s' -> r_select s' = r_select s -> fw s -> fw s'.
Proof.
  intros Hr Hst Es Hf. pose proof (reach_crits _ _ _ _ Hr Hst) as Hc.
  pose proof (wire_inv_reach _ _ _ Hr) as [Hwf Hb _ _ _ _].
  destruct (rstep_slot _ _ Hst) as [Hs|[Hs|(ok & ready & Hs)]]; [by eapply fw_same; eauto..|].
  destruct (r_select s) as [| | | | | | | | | |e o|w d k| | | |] eqn:Eq; try (unfold fw; by rewrite Es).
  { eapply fw_idle; try done; rewrite Eq; [intros *; discriminate | exact Es]. }
  destruct k as [|e|e rest|e [ch|]]; try (unfold fw; by rewrite Es).
  eapply fw_slot; try done; [by apply (silence_ok_reach c now) | by eapply stopped_quiet_reach | by rewrite Eq].
Qed.

Lemma fw_step now s s' : rreach c now s -> rstep c s s' -> fw s -> fw s'.
Proof.
  intros Hr Hst Hf. pose proof (reach_crits _ _ _ _ Hr Hst) as Hc.
  pose proof (wire_inv_reach _ _ _ Hr) as [Hwf Hb Hsi _ _ _].
  destruct (rstep_moved _ _ _ Hwf Hst) as [l' Eb Es Ep | Hw Ho Es Ep | Hw [Ho|[Hl [k Ho]]] Eb Ep
    | i gen p p' Hi Hne Ep Eb Es | t w res Hw Hno Hres El Ew Ef Eb Es Ep]; try (by eapply fw_stays).
  - by eapply select_local_fw.
  - by eapply select_case_fw.
  - destruct (decide (t = TSelect)) as [->|Hn].
    + by eapply fw_continue.
    + eapply fw_stays; try done. rewrite Es. by apply (continue_others _ _ s).
Qed.

Lemma fw_reach now s : rreach c now s -> fw s.
Proof.
  induction 1; [|by eapply fw_step]. unfold fw, rt_init, with_filler. simpl.
  destruct (newFiller _); [destruct (armFiller _ _ _ _)|]; done.
Qed.
End Farewell.

(** ** The end is always reached *)

(** Steps the service takes by itself; [ok] and [ready] say how the socket and
    the consumer's channels behave. *)
Definition own (ok ready : bool) (a : ract) : bool :=
  match a with
  | ATick _ | ASelectLocal | ATimer _ | AAbort TSelect => true
  | ASlot o r => Bool.eqb o ok && Bool.eqb r ready
  | ACallback _ r => Bool.eqb r ready
  | _ => false
  end.

Section Progress.
Context (c : config) (ok ready : bool).
Implicit Types s : rt.

Definition nearer s : Prop := exists l s',
  forallb (own ok ready) l = true /\ rrun c l s = Some s' /\ falls c (r_select s) (r_select s').

(** A step that stays at the same statement may be taken first. *)
Lemma nearer_step a s s1 : own ok ready a = true -> rexec c a s = Some s1 -> r_select s1 = r_select s ->
  nearer s1 -> nearer s.
Proof.
  intros Ha He Es (l & s' & Hl & Hr & Hf). exists (a :: l), s'. simpl. rewrite Ha, He. by rewrite <- Es.
Qed.

Lemma nearer_now a s s1 : own ok ready a = true -> rexec c a s = Some s1 ->
  falls c (r_select s) (r_select s1) -> nearer s.
Proof. intros Ha He Hf. exists [a], s1. simpl. by rewrite Ha, He. Qed.

Definition phases (ph : phase) : nat :=
  match ph with PhBuild => 3 | PhWrite _ _ => 2 | PhAfter _ _ => 1 | PhRelease _ => 0 end.

Lemma slot_advances s w ph : r_slot s = Some (TSelect, w, ph) -> (0 < phases ph)%nat ->
  exists s1 ph', slot_local ok ready s = Some s1 /\ r_slot s1 = Some (TSelect, w, ph') /\
    (phases ph' < phases ph)%nat /\ r_select s1 = r_select s.
Proof.
  intros Es Hp. unfold slot_local. rewrite Es. destruct ph as [|m g|m g|res]; simpl in Hp; [..|lia].
  - destruct (build_aux w s) as [l Hl]. destruct (build w s) as [r s1].
    eexists _, _. split; [done|]. split; [done|]. split; [|apply Hl]. destruct r as [[m g]|]; simpl; lia.
  - destruct (ok && negb (r_closed s)); eexists _, _; (split; [done|]); (split; [done|]); simpl; (split; [lia|done]).
  - destruct (afterWrite_aux ready m g s) as [l Hl]. eexists _, _. split; [done|]. split; [done|].
    split; [simpl; lia | apply Hl].
Qed.

Lemma holder_nearer n s w d k ph : (phases ph <= n)%nat -> r_slot s = Some (TSelect, w, ph) ->
  r_select s = SWrite w d k -> ended (r_select s) = true -> nearer s.
Proof.
  assert (Hown : own ok ready (ASlot ok ready) = true) by (simpl; by rewrite !eqb_reflx).
  revert s ph. induction n as [|n IH]; intros s ph Hn Es Eq He; (destruct (decide (phases ph = O)) as [Hz|Hz]; [|try lia]).
  1,2: apply (nearer_now (ASlot ok ready) s (continue TSelect (match ph with PhRelease res => res | _ => RFailed end) (s <| r_slot := None |>)));
    [done | simpl; unfold slot_local; rewrite Es; by destruct ph | rewrite continue_slot; by eapply continue_falls].
  destruct (slot_advances s w ph Es) as (s1 & ph' & Hs & E1 & Hlt & E2); [lia|].
  apply (nearer_step (ASlot ok ready) s s1); try done. apply (IH s1 ph'); [lia | done | congruence | congruence].
Qed.

Lemma write_nearer s w d k : slot_wf s -> r_select s = SWrite w d k -> ended (r_select s) = true -> nearer s.
Proof.
  intros Hwf Eq He. destruct (holds TSelect s) eqn:Hh.
  - unfold holds in Hh. destruct (r_slot s) as [[[t w'] ph]|] eqn:Es; [|done]. apply bool_decide_eq_true in Hh. subst t.
    unfold slot_wf in Hwf. rewrite Es in Hwf. destruct Hwf as [Hw _]. simpl in Hw. rewrite Eq in Hw. injection Hw as <-.
    by eapply (holder_nearer (phases ph)).
  - set (t := Z.max 0 (d - r_now s)). set (s1 := s <| r_now ::= Z.add t |>).
    apply (nearer_step (ATick t) s s1); [done | simpl; by rewrite (proj2 (Z.leb_le 0 t)) by lia | done|].
    apply (nearer_now (AAbort TSelect) s1 (continue TSelect RFailed s1)); [done | | by eapply (continue_falls _ w d k)].
    simpl. rewrite Eq. change (holds TSelect s1) with (holds TSelect s). rewrite Hh. simpl.
    rewrite (proj2 (Z.leb_le d (t + r_now s))) by lia. by rewrite orb_true_r.
Qed.

(** The bound of the farewell's mark ends its wait. *)
Lemma expire_closes t m ch : mk_stopped t = false -> mk_outstanding t !! farewell_mark c = Some m ->
  om_played m = None -> mk_await t = Some (farewell_mark c, ch) ->
  let '(r, t') := expire ready (farewell_mark c) (om_gen m) t in r = RsEngine /\ ch ∈ mk_closed t'.
Proof.
  intros Hs Hm Hp Ha. unfold expire. rewrite Hs, Hm, Nat.eqb_refl, Hp. simpl.
  set (t0 := t <| mk_outstanding ::= delete (farewell_mark c) |>).
  pose proof (resolve_own_true (farewell_mark c) t0 ch Ha) as H1.
  pose proof (resolve_own (farewell_mark c) t0 ch (or_intror Ha)) as H2.
  destruct (resolveAwaitLocked _ _) as [o t']. simpl in H1, H2. by subst o.
Qed.

Lemma wait_callback s e ch t m id tm : r_select s = SFwWait e (Some ch) -> r_marks s = Some t ->
  mk_stopped t = false -> mk_outstanding t !! farewell_mark c = Some m -> om_played m = None ->
  mk_await t = Some (farewell_mark c, ch) ->
  tm_take id (r_timers s) = Some (CbExpire (farewell_mark c) (om_gen m), tm) -> nearer s.
Proof.
  intros Eq Et Hs Hm Hp Ha Htk. pose proof (expire_closes t m ch Hs Hm Hp Ha) as Hx.
  apply (nearer_step (ACallback id ready) s (marks_expire ready (farewell_mark c) (om_gen m) (s <| r_timers := tm |>)));
    [simpl; apply eqb_reflx | simpl; by rewrite Htk | |].
  - unfold marks_expire. simpl. rewrite Et. destruct (expire _ _ _ _) as [r t']. by destruct Hx as [-> _].
  - unfold marks_expire. simpl. rewrite Et. destruct (expire _ _ _ _) as [r t']. destruct Hx as [-> Hin]. simpl.
    set (s1 := s <| r_timers := tm |> <| r_marks := Some t' |>).
    apply (nearer_now ASelectLocal s1 (finish e s1)); [done | | change (falls c (r_select s) (SDeferFill e)); rewrite Eq; split; [done | simpl; lia]].
    simpl. unfold select_local. change (r_select s1) with (r_select s). rewrite Eq. simpl. by rewrite bool_decide_eq_true_2.
Qed.

Lemma wait_nearer s e ch : held (comps_of s) -> fw c s -> r_select s = SFwWait e ch -> nearer s.
Proof.
  intros Hh Hf Eq.
  destruct (await_closed ch s || r_ctxDone s) eqn:Ew.
  { apply (nearer_now ASelectLocal s (finish e s)); [done | simpl; unfold select_local; by rewrite Eq, Ew |].
    split; rewrite ?Eq; [done | simpl; lia]. }
  apply orb_false_iff in Ew as [Ew _]. destruct ch as [ch|]; [|done]. unfold fw in Hf. rewrite Eq in Hf.
  destruct Hf as (t & Et & Hw). simpl in Et. unfold await_closed in Ew. rewrite Et in Ew. apply bool_decide_eq_false in Ew.
  destruct Hw as [Hw|(Ha & m & Hm & Hp)]; [done|].
  destruct (mh_timer _ _ (hd_marks _ Hh) t _ _ Et Hm) as [Hs Hl]. simpl in Hl.
  destruct Hl as [[due Hl]|Hl].
  - set (d := Z.max 0 (due - r_now s)). set (s1 := s <| r_now ::= Z.add d |>).
    apply (nearer_step (ATick d) s s1); [done | simpl; by rewrite (proj2 (Z.leb_le 0 d)) by lia | done|].
    set (tm := r_timers s <| tm_pending ::= delete (om_timer m) |>
                 <| tm_started ::= <[om_timer m := CbExpire (farewell_mark c) (om_gen m)]> |>).
    apply (nearer_step (ATimer (om_timer m)) s1 (s1 <| r_timers := tm |>)); [done | | done|].
    { simpl. unfold tm_start. rewrite Hl. by rewrite (proj2 (Z.leb_le due (d + r_now s))) by lia. }
    eapply (wait_callback _ e ch t m (om_timer m)); try done. unfold tm_take. simpl. by rewrite lookup_insert_eq.
  - eapply (wait_callback _ e ch t m (om_timer m)); try done. unfold tm_take. by rewrite Hl.
Qed.

Lemma ended_nearer now s : rreach c now s -> ended (r_select s) = true -> (forall e, r_select s <> SDone e) -> nearer s.
Proof.
  intros Hr He Hn.
  assert (Hloc : (exists s1, select_local c s = Some s1) -> nearer s).
  { intros [s1 H]. by eapply (nearer_now ASelectLocal), select_local_falls. }
  destruct (r_select s) as [| | |tag|e|e|e|e|e|e rest|e ch|w d k|e|e|e|e] eqn:Eq; try discriminate He;
    try (apply Hloc; unfold select_local; rewrite Eq; by eexists).
  - eapply wait_nearer; [by eapply held_reach | by eapply fw_reach | done].
  - eapply write_nearer; [by eapply slot_wf_reach | done | by rewrite Eq].
  - by destruct (Hn e).
Qed.
End Progress.

Lemma rrun_app c l l' s : rrun c (l ++ l') s = match rrun c l s with Some s => rrun c l' s | None => None end.
Proof. revert s. induction l as [|a l IH]; intros s; simpl; [done|]. by destruct (rexec c a s). Qed.

(** C12: Once a realtime call has left its loop, every step of any goroutine leaves the
    select goroutine where it is or strictly lowers its rank, and steps of the service alone
    (time, its timers, its own statements), whether the socket takes messages or not and
    whether or not the consumer reads, always lead to its return. *)
Theorem call_end_terminates c now s :
  rreach c now s -> ended (r_select s) = true ->
  (forall s', rstep c s s' -> r_select s' = r_select s \/ (rank c (r_select s') < rank c (r_select s))%nat) /\
  forall ok ready, exists l s' e,
    forallb (own ok ready) l = true /\ rrun c l s = Some s' /\ r_select s' = SDone e.
Proof.
  intros Hr He. split.
  { intros s' Hst. destruct (rank_step _ _ _ (slot_wf_reach _ _ _ Hr) Hst He) as [|[_ ?]]; auto. }
  intros ok ready. remember (rank c (r_select s)) as n eqn:En. revert s Hr He En.
  induction n as [n IH] using lt_wf_ind. intros s Hr He ->.
  destruct (r_select s) as [| | |tag|e|e|e|e|e|e rest|e ch|w d k|e|e|e|e] eqn:Eq;
    try (exists [], s, e; done).
  all: rewrite <- Eq in *; destruct (ended_nearer c ok ready now s Hr He) as (l & s' & Hl & Hrun & He' & Hlt);
    [intros e0 E0; congruence|].
  all: destruct (IH _ Hlt s') as (l' & s'' & e' & Hl' & Hrun' & Hd); [by eapply rrun_sound | done | done|].
  all: exists (l ++ l'), s'', e'; rewrite forallb_app, Hl, Hl', rrun_app, Hrun; done.
Qed.
