(* ===== verification/SinkClaims.v ===== *)
(** * SinkClaims: concrete calls on the realtime path

    Schedules of one call each, run by [rrun]: the filler stopped by a reply,
    the farewell of an idle call, a consumer's mark echoed, and a call ended on
    the caller's silence.  Each is the concrete input of one theorem about the
    wire or the marks. *)

From S2P Require Import SinkWire SinkMarks SinkSilence SinkBridge SinkHeld SinkEnd.
From S2P Require Import Filler Silence Marks.

Definition reply : ServerEvent := mkServerEvent EventAudioDelta "AAAA" "" None.
Definition reply_done : ServerEvent := mkServerEvent EventResponseDone "" "" (Some (EventResponseDone, [])).
Definition no_filler : FillerConfig := mkFillerConfig [] 0.

(** The four steps of a carrier write by goroutine [t]. *)
Definition one_write (t : tid) : list ract := AAcquire t :: replicate 4 (ASlot true true).

(** ** The filler, then a reply *)

Definition filler_call : config := mkConfig 0 0 [] (mkFillerConfig [1; 2; 3] Second) true false false "S".

Definition filler_schedule : list ract :=
  [ATick Second; ATimer 0; ACallback 0 true; APlayerTick 0] ++ one_write (TPlayer 0) ++
  ARead reply :: replicate 7 ABridge ++ one_write TBridge ++ one_write TBridge.

Lemma filler_cleared_before_reply_witness :
  let s := rend filler_call 0 filler_schedule in
  exists a b, r_log s = a ++ TvWire (WmMedia (SrcBackend (Some 2%nat)) "AAAA") :: b /\
    exists g d' a1 a2 a3,
      2%nat = S g /\ (2 <= d')%nat /\ a = a1 ++ TvStopEdge g :: a2 ++ TvWire (WmClear d') :: a3 /\
      nofiller 2 (a3 ++ b).
Proof.
  cbv zeta. set (s := rend filler_call 0 filler_schedule).
  exists (take 6 (r_log s)), []. assert (E : r_log s = take 6 (r_log s) ++ [TvWire (WmMedia (SrcBackend (Some 2%nat)) "AAAA")])
    by (vm_compute; reflexivity).
  split; [exact E|]. exact (filler_cleared_before_reply filler_call 0 s _ _ _ _ (rend_reach _ _ _) E).
Defined.

(** ** An idle call says farewell *)

Definition farewell_call : config := mkConfig (30 * Second) 0 (repeat 255 200) no_filler true false false "S".

Definition farewell_schedule : list ract :=
  [ATick (30 * Second); AIdle; ASelect CaseIdle] ++ replicate 3 ASelectLocal ++ one_write TSelect ++
  replicate 3 ASelectLocal ++ one_write TSelect ++ ASelectLocal :: one_write TSelect ++
  ASelectLocal :: one_write TSelect ++ [AEcho true (farewell_mark farewell_call); ASelectLocal].

Lemma farewell_uninterrupted_witness :
  let s := rend farewell_call 0 farewell_schedule in
  exists p post, wires (r_log s) = [WmClear 0] ++ WmMedia SrcFarewell p :: post /\ length post = 2%nat /\
    WmMedia SrcFarewell p :: post `prefix_of` farewell_script farewell_call.
Proof.
  cbv zeta. set (s := rend farewell_call 0 farewell_schedule).
  set (w := wires (r_log s)).
  set (p := match nth 1 w (WmClear 0) with WmMedia _ p => p | _ => "" end).
  assert (E : w = [WmClear 0] ++ WmMedia SrcFarewell p :: drop 2 w) by (vm_compute; reflexivity).
  exists p, (drop 2 w). split; [exact E|]. split; [vm_compute; reflexivity|].
  refine (farewell_uninterrupted farewell_call 0 s [WmClear 0] p (drop 2 w) (rend_reach _ _ _) E _).
  vm_compute. reflexivity.
Defined.

(** ** A consumer's mark, echoed *)

Definition mark_call : config := mkConfig 0 0 [] no_filler true true true "S".

Definition mark_schedule : list ract :=
  ASelect (CaseMark "m") :: one_write TSelect ++ [ATick (50 * Millisecond); AEcho true "m"].

Lemma mark_resolved_once_witness :
  let s := rend mark_call 0 mark_schedule in
  exists a, r_log s = a ++ [TvDeliver 1 (mkMarkEcho "m" false) (50 * Millisecond)] /\
    (exists due, TvArm "m" 1 due false ∈ a /\ exists a', a = a' ++ [TvEcho "m"]) /\
    forall rec' at', TvDeliver 1 rec' at' ∉ a ++ [].
Proof.
  cbv zeta. set (s := rend mark_call 0 mark_schedule). exists (take 3 (r_log s)).
  assert (E : r_log s = take 3 (r_log s) ++ [TvDeliver 1 (mkMarkEcho "m" false) (50 * Millisecond)])
    by (vm_compute; reflexivity).
  split; [exact E|]. exact (mark_resolved_once mark_call 0 s _ 1 (mkMarkEcho "m" false) _ [] (rend_reach _ _ _) E).
Defined.

(** ** A call ended on the caller's silence *)

Definition silence_call : config := mkConfig 0 (10 * Second) [] no_filler true false false "S".

Definition silence_schedule : list ract :=
  ARead reply :: replicate 5 ABridge ++ one_write TBridge ++ replicate 3 ADrain ++
  ARead reply_done :: replicate 3 ABridge ++ replicate 3 ADrain ++
  [ASelect CaseMarkDue; ASelectLocal; ASelectLocal] ++ one_write TSelect ++
  [ATick (50 * Millisecond); AEcho true "aatoolkit-playout-S-1"; ATick (10 * Second); ATimer 1;
   ACallback 1 true; ASelect CaseExpired; ASelectLocal].

Lemma silence_ended_call_was_silent_witness :
  let s := rend silence_call 0 silence_schedule in
  let T := 10 * Second + 50 * Millisecond in
  exists a, r_log s = a ++ [TvSilent T] /\
    exists a1 n g a2 at_ a3,
      a = a1 ++ TvClaim n g :: a2 ++ TvCount g at_ :: a3 /\
      bumps (a2 ++ a3) = O /\ no_tool a3 /\ mark_played n at_ a2 /\
      at_ + cfg_callerSilenceTimeout silence_call <= T.
Proof.
  cbv zeta. set (s := rend silence_call 0 silence_schedule). exists (take 13 (r_log s)).
  assert (E : r_log s = take 13 (r_log s) ++ [TvSilent (10 * Second + 50 * Millisecond)])
    by (vm_compute; reflexivity).
  split; [exact E|]. exact (silence_ended_call_was_silent silence_call 0 s _ _ [] (rend_reach _ _ _) E).
Defined.

(** ** The books of the filler's call: one event read, published and dispatched *)

Lemma bridge_events_accounted_witness :
  let s := rend filler_call 0 filler_schedule in
  reads (r_log s) = [reply] /\
  reads (r_log s) = dispatched (r_log s) ++ inflight (r_bridge s) /\
  exists pub, reads (r_log s) = pub ++ unpublished (r_bridge s) /\
    drained (r_log s) ++ r_events s `sublist_of` pub /\
    length pub = (length (drained (r_log s)) + length (r_events s) + r_eventsDropped s)%nat /\
    (length (r_events s) <= bridgeBuffer)%nat.
Proof.
  cbv zeta. split; [vm_compute; reflexivity|].
  exact (bridge_events_accounted filler_call 0 _ (rend_reach _ _ _)).
Defined.

(** ** The countdown armed as the call opens is the filler's *)

Lemma countdowns_held_witness :
  let s := rend filler_call 0 [] in
  tm_pending (r_timers s) !! 0%nat = Some (Second, CbStart 1 armedByCallOpen) /\
  exists f, r_filler s = Some f /\ f_timer f = Some 0%nat /\ f_gen f = 1%nat.
Proof.
  cbv zeta. set (s := rend filler_call 0 []).
  assert (E : tm_pending (r_timers s) !! 0%nat = Some (Second, CbStart 1 armedByCallOpen)) by (vm_compute; reflexivity).
  split; [exact E|].
  destruct (countdowns_held filler_call 0 s (rend_reach _ _ _)) as (_ & _ & _ & H). exact (H _ _ _ E).
Defined.

(** ** The idle call, cut off in its farewell, still ends *)

Definition cut_schedule : list ract :=
  [ATick (30 * Second); AIdle; ASelect CaseIdle] ++ replicate 3 ASelectLocal ++ one_write TSelect ++ [ASelectLocal].

Lemma call_end_terminates_witness :
  let s := rend farewell_call 0 cut_schedule in
  ended (r_select s) = true /\
  forall ok ready, exists l s' e,
    forallb (own ok ready) l = true /\ rrun farewell_call l s = Some s' /\ r_select s' = SDone e.
Proof.
  cbv zeta. set (s := rend farewell_call 0 cut_schedule).
  assert (E : ended (r_select s) = true) by (vm_compute; reflexivity). split; [exact E|].
  exact (proj2 (call_end_terminates farewell_call 0 s (rend_reach _ _ _) E)).
Defined.

(** ** After its end, a call's late timer finds nothing to do *)

Definition done_schedule : list ract := farewell_schedule ++ replicate 3 ASelectLocal.

Lemma call_end_quiet_witness :
  let s := rend farewell_call 0 done_schedule in
  let s' := s <| r_now ::= Z.add Second |> in
  r_select s = SDone EndIdle /\
  r_select s' = SDone EndIdle /\ wires (r_log s') = wires (r_log s) /\ tm_pending (r_timers s') = ∅.
Proof.
  cbv zeta. set (s := rend farewell_call 0 done_schedule).
  assert (E : r_select s = SDone EndIdle) by (vm_compute; reflexivity). split; [exact E|].
  apply (call_end_quiet farewell_call 0 s EndIdle _ (rend_reach _ _ _) E).
  apply rtc_once. apply rs_tick. vm_compute. discriminate.
Defined.

(** ** An echo that overtakes its mark's arming *)

Definition early_schedule : list ract :=
  [ASelect (CaseMark "m"); AAcquire TSelect; ASlot true true; ASlot true true; AEcho true "m";
   ASlot true true; ASlot true true; ATick (500 * Millisecond); ATimer 0; ACallback 0 true].

(** A concrete run in which the carrier echoes a mark after it is written and before
    its bound is armed: the echo is dropped and the consumer is told the mark timed out. *)
Theorem early_echo_reported_timed_out :
  let s := rend mark_call 0 early_schedule in
  rreach mark_call 0 s /\
  r_log s = [TvWire (WmMark "m"); TvEcho "m"; TvArm "m" 1 (500 * Millisecond) false;
             TvDeliver 1 (mkMarkEcho "m" true) (500 * Millisecond)].
Proof. split; [apply rend_reach | vm_compute; reflexivity]. Qed.
