(* ===== verification/Playout.v ===== *)
(** * Playout: the playout clock is a real-time player

    [playoutClock] (telephony/twilio/realtime_marks.go) keeps one instant.  The
    reference is the carrier itself: a queue of frames played in order in real
    time, emptied by a clear. *)

From S2P Require Import Marks.

(** What happens to the carrier's buffer, and when. *)
Inductive playout_op := PFed (n : nat) | PFlush.

Definition clock_step (o : Z * playout_op) (through : Z) : Z :=
  match snd o with PFed n => fed n (fst o) through | PFlush => flush (fst o) through end.

Fixpoint clock_run (ops : list (Z * playout_op)) (through : Z) : Z :=
  match ops with [] => through | o :: ops => clock_run ops (clock_step o through) end.

(** The player: what is left of each queued frame, as of an instant. *)
Fixpoint play (dt : Z) (q : list Z) : list Z :=
  match q with
  | [] => []
  | d :: q => if dt <? d then (d - dt) :: q else play (dt - d) q
  end.

Definition player_step (o : Z * playout_op) (p : Z * list Z) : Z * list Z :=
  match snd o with
  | PFed n => (fst o, play (fst o - fst p) (snd p) ++ [MuLawDuration (Z.of_nat n)])
  | PFlush => (fst o, [])
  end.

Fixpoint player_run (ops : list (Z * playout_op)) (p : Z * list Z) : Z * list Z :=
  match ops with [] => p | o :: ops => player_run ops (player_step o p) end.

Definition queued (q : list Z) : Z := foldr Z.add 0 q.

Fixpoint in_order (t : Z) (ops : list (Z * playout_op)) (now : Z) : Prop :=
  match ops with [] => t <= now | o :: ops => t <= fst o /\ in_order (fst o) ops now end.

(** A frame's duration fits an [int64] of nanoseconds: under nine gigabytes. *)
Definition fits (o : playout_op) : Prop :=
  match o with PFed n => Z.of_nat n * Second < 2 ^ 63 | PFlush => True end.

Lemma MuLawDuration_nonneg n : fits (PFed n) -> 0 <= MuLawDuration (Z.of_nat n).
Proof. simpl. intros H. rewrite MuLawDuration_exact by lia. lia. Qed.

Lemma queued_app q q' : queued (q ++ q') = queued q + queued q'.
Proof. induction q as [|d q IH]; simpl; [done|]. unfold queued in *. simpl in *. lia. Qed.

Lemma queued_nonneg q : Forall (fun d => 0 <= d) q -> 0 <= queued q.
Proof. induction 1; unfold queued in *; simpl; lia. Qed.

Lemma queued_play dt q : 0 <= dt -> Forall (fun d => 0 <= d) q ->
  queued (play dt q) = Z.max 0 (queued q - dt) /\ Forall (fun d => 0 <= d) (play dt q).
Proof.
  intros Hdt Hq. revert dt Hdt. induction Hq as [|d q Hd Hq IH]; intros dt Hdt; simpl; [split; [unfold queued; simpl; lia | constructor]|].
  pose proof (queued_nonneg q Hq). destruct (dt <? d) eqn:E.
  - apply Z.ltb_lt in E. split; [unfold queued in *; simpl; lia | constructor; [lia | done]].
  - apply Z.ltb_ge in E. destruct (IH (dt - d)) as [-> ?]; [lia|]. split; [unfold queued; simpl; fold (queued q); lia | done].
Qed.

(** C21: For any sequence of frames and clears in time order, the playout clock's single
    instant gives the same outstanding playout as a real-time player that keeps the queue of
    frames. *)
Theorem playout_clock_is_player ops t0 through now :
  through <= t0 -> in_order t0 ops now -> Forall (fun o => fits (snd o)) ops ->
  let p := player_run ops (t0, []) in
  outstanding now (clock_run ops through) = queued (play (now - fst p) (snd p)).
Proof.
  intros Ht. cbv zeta.
  assert (H : forall q, Forall (fun d => 0 <= d) q -> outstanding t0 through = queued q -> in_order t0 ops now ->
    Forall (fun o => fits (snd o)) ops -> let p := player_run ops (t0, q) in
    outstanding now (clock_run ops through) = queued (play (now - fst p) (snd p))).
  2:{ intros Ho Hf. apply (H []); [constructor | unfold outstanding, queued; simpl; lia | done..]. }
  clear Ht. revert t0 through. induction ops as [|[t o] ops IH]; intros t0 through q Hq Hout Ho Hfit; simpl in *.
  - destruct (queued_play (now - t0) q) as [-> _]; [lia | done|]. rewrite <- Hout. unfold outstanding. lia.
  - destruct Ho as [Hle Ho]. apply Forall_cons in Hfit as [Hn Hfit]. destruct (queued_play (t - t0) q) as [Hp Hf]; [lia | done|].
    destruct o as [n|]; unfold clock_step, player_step; simpl.
    + pose proof (MuLawDuration_nonneg n Hn). apply IH; [|rewrite queued_app, Hp, <- Hout|done..].
      * apply Forall_app. split; [done | by repeat constructor].
      * unfold outstanding, fed, queued. simpl. lia.
    + apply IH; [constructor | unfold outstanding, flush, queued; simpl; lia | done..].
Qed.

Lemma playout_clock_is_player_witness :
  let ops := [(0, PFed 160); (10 * Millisecond, PFed 160); (45 * Millisecond, PFed 80); (46 * Millisecond, PFlush);
              (50 * Millisecond, PFed 160)] in
  let p := player_run ops (0, []) in
  outstanding (55 * Millisecond) (clock_run ops 0) = 15 * Millisecond /\
  outstanding (55 * Millisecond) (clock_run ops 0) = queued (play (55 * Millisecond - fst p) (snd p)).
Proof.
  cbv zeta. split; [vm_compute; reflexivity|].
  apply (playout_clock_is_player _ 0 0); [lia | vm_compute; intuition discriminate | repeat constructor].
Defined.
