(* ===== verification/Tap.v ===== *)
(** * Tap: the call recorder

    Models [telephony/twilio/tap.go].  A [Tap] records each direction of a call
    to a raw mu-law file.  Every operation below is one critical section of
    [t.mu].  The file system is the record [world]: the three files the tap
    writes, and the answers the operating system will give to the calls to come
    ([opens], [writes], ...; when a plan is used up, calls succeed), so that an
    operation is a function of its arguments, the tap and the world. *)

From S2P Require Export Filler.
From S2P Require Vad.

Definition maxOutQueueFrames : nat := Z.to_nat (5 * 60 * 1000 / MuLawFrameMS).
#[global] Arguments maxOutQueueFrames : simpl never.
Definition silenceChunkFrames : Z := 100.

(** [0xFF]: mu-law silence. *)
Definition silenceByte : Z := 255.

Definition ChannelIn : string := "in".
Definition ChannelOut : string := "out".

Definition duplexAlignment : string := "inbound-frame-clock, 20ms/frame, silence=0xFF".
Definition outboundWallClockAlignment : string :=
  "wall-clock, 20ms/frame, silence=0xFF, t0=first outbound frame".
Definition inboundArrivalAlignment : string := "inbound-frame-arrival, 20ms/frame".

Record tapSidecar := mkSidecar {
  sc_StreamSID : string; sc_CallSID : string; sc_Label : string; sc_StartedAt : Z;
  sc_Frames : Z; sc_Bytes : Z; sc_VADConfig : Vad.vadConfig; sc_Alignment : string;
  sc_Channels : list string; sc_OutTruncated : bool; sc_OutDroppedFrames : Z
}.

(** [w] and [wOut] are the writers: opened or not.  A zero [time.Time] is [None];
    a nil [outQueue] is the empty list. *)
Record Tap := mkTap {
  streamSID : string; callSID : string; dir : string; label : string; startedAt : Z;
  t_w : bool; t_wOut : bool;
  outQueue : list bytes; outHead : nat; outCount : nat; lastInFrameN : nat;
  channels : list string;
  fedThrough : option Z;
  inOpenFailed : bool; outOpenFailed : bool; closed : bool;
  frames : Z; t_bytes : Z; outFrames : Z; outBytes : Z; outDrops : Z;
  logged : bool; dropLogged : bool
}.
#[export] Instance tap_eta : Eta Tap := fun t =>
  mkTap (streamSID t) (callSID t) (dir t) (label t) (startedAt t) (t_w t) (t_wOut t)
    (outQueue t) (outHead t) (outCount t) (lastInFrameN t) (channels t) (fedThrough t)
    (inOpenFailed t) (outOpenFailed t) (closed t) (frames t) (t_bytes t) (outFrames t)
    (outBytes t) (outDrops t) (logged t) (dropLogged t).

(** ** The file system *)

Record world := mkWorld {
  in_file : option bytes; out_file : option bytes; sidecar_file : option tapSidecar;
  opens : list bool; writes : list nat; closes : list bool; removes : list bool;
  sidecars : list bool;
  log_lines : nat
}.
#[export] Instance world_eta : Eta world := fun w =>
  mkWorld (in_file w) (out_file w) (sidecar_file w) (opens w) (writes w) (closes w)
    (removes w) (sidecars w) (log_lines w).

(** The next answer of a plan: whether the call succeeds. *)
Definition answer (plan : list bool) : bool * list bool :=
  match plan with [] => (true, []) | b :: plan => (b, plan) end.

(** [os.OpenFile(path, O_CREATE|O_WRONLY|O_APPEND)] of a file's content. *)
Definition open_append (ok : bool) (f : option bytes) : option bytes :=
  if ok then Some (default [] f) else f.

(** [f.Write(buf)] reports how many bytes landed; an error exactly when fewer
    than all. *)
Definition accepted (plan : list nat) (buf : bytes) : nat * list nat :=
  match plan with [] => (length buf, []) | n :: plan => (Nat.min n (length buf), plan) end.

Notation st := (Tap * world)%type (only parsing).

(** ** Logging *)

Definition logOnce (s : st) : st :=
  let '(t, w) := s in
  if logged t then (t, w) else (t <| logged := true |>, w <| log_lines ::= S |>).

Definition logDropOnce (s : st) : st :=
  let '(t, w) := s in
  if dropLogged t then (t, w) else (t <| dropLogged := true |>, w <| log_lines ::= S |>).

(** ** Construction *)

Definition addChannel (set : list string) (ch : string) : list string :=
  if bool_decide (ch ≠ ChannelIn) && bool_decide (ch ≠ ChannelOut) then set
  else if bool_decide (ch ∈ set) then set
  else set ++ [ch].

Definition WithChannels (chs : list string) (t : Tap) : Tap :=
  let set := foldl addChannel [] chs in
  match set with [] => t | _ => t <| channels := set |> end.

Definition NewTap (dir streamSID callSID label : string) (startedAt : Z)
    (opts : list (Tap -> Tap)) : option Tap :=
  if bool_decide (dir = EmptyString) then None
  else Some (foldl (fun t opt => opt t)
    (mkTap streamSID callSID dir label startedAt false false [] O O O [ChannelIn; ChannelOut]
       None false false false 0 0 0 0 0 false false) opts).

Definition hasChannel (ch : string) (t : Tap) : bool := existsb (String.eqb ch) (channels t).

Definition duplex (t : Tap) : bool := hasChannel ChannelIn t && hasChannel ChannelOut t.

(** ** Writing *)

(** [if t.w == nil { OpenFile ... }]: the writer is there afterwards. *)
Definition openIn (s : st) : bool * st :=
  let '(t, w) := s in
  if t_w t then (true, (t, w))
  else
    let '(ok, plan) := answer (opens w) in
    let w := w <| opens := plan |> <| in_file ::= open_append ok |> in
    if ok then (true, (t <| t_w := true |>, w))
    else (false, logOnce (t <| inOpenFailed := true |>, w)).

Definition WriteIn (payload : bytes) (s : st) : st :=
  let t := fst s in
  if bool_decide (length payload = O) then s
  else if closed t || inOpenFailed t || negb (hasChannel ChannelIn t) then s
  else
    match openIn s with
    | (false, s) => s
    | (true, (t, w)) =>
        let '(n, plan) := accepted (writes w) payload in
        let w := w <| writes := plan |> <| in_file ::= fmap (fun c => c ++ take n payload) |> in
        let '(t, w) := if (n <? length payload)%nat then logOnce (t, w) else (t, w) in
        if (0 <? n)%nat
        then (t <| frames ::= Z.succ |> <| t_bytes ::= Z.add (Z.of_nat n) |>
                <| lastInFrameN := length payload |>, w)
        else (t, w)
    end.

Definition ensureOutWriter (s : st) : bool * st :=
  let '(t, w) := s in
  if outOpenFailed t then (false, (t, w))
  else if t_wOut t then (true, (t, w))
  else
    let '(ok, plan) := answer (opens w) in
    let w := w <| opens := plan |> <| out_file ::= open_append ok |> in
    if ok then (true, (t <| t_wOut := true |>, w))
    else (false, logOnce (t <| outOpenFailed := true |>, w)).

Definition appendOutFrames (buf : bytes) (n_frames : Z) (s : st) : st :=
  let '(t, w) := s in
  let '(n, plan) := accepted (writes w) buf in
  let w := w <| writes := plan |> <| out_file ::= fmap (fun c => c ++ take n buf) |> in
  let '(t, w) := if (n <? length buf)%nat then logOnce (t, w) else (t, w) in
  if (0 <? n)%nat
  then (t <| outFrames ::= Z.add n_frames |> <| outBytes ::= Z.add (Z.of_nat n) |>, w)
  else (t, w).

Definition appendOut (frame : bytes) (s : st) : st := appendOutFrames frame 1 s.

Definition fedThrough_Add (d : Z) (s : st) : st :=
  let '(t, w) := s in (t <| fedThrough ::= fmap (Z.add d) |>, w).

(** [time.Time.Sub] saturates at the bounds of an int64. *)
Definition time_Sub (a b : Z) : Z := Z.max (- 2 ^ 63) (Z.min (2 ^ 63 - 1) (a - b)).

Definition frameDur : Z := MuLawDuration (Z.of_nat defaultFrameBytes).

(** [for frames > 0 { ... }]; the fuel is the number of frames, and each turn
    writes at least one. *)
Fixpoint fill_loop (fuel : nat) (n_frames chunk : Z) (silence : bytes) (s : st) : st :=
  match fuel with
  | O => s
  | S fuel =>
      if 0 <? n_frames then
        let n := Z.min n_frames chunk in
        let s := appendOutFrames (take (Z.to_nat n * defaultFrameBytes) silence) n s in
        let s := fedThrough_Add (n * frameDur) s in
        fill_loop fuel (n_frames - n) chunk silence s
      else s
  end.

Definition fillOutGap (now : Z) (s : st) : st :=
  let '(t, w) := s in
  match fedThrough t with
  | None => (t <| fedThrough := Some now |>, w)
  | Some fed =>
      let n_frames := Z.quot (time_Sub now fed) frameDur in
      if n_frames <=? 0 then (t, w)
      else
        let chunk := if silenceChunkFrames <? n_frames then silenceChunkFrames else n_frames in
        let silence := replicate (Z.to_nat chunk * defaultFrameBytes) silenceByte in
        fill_loop (Z.to_nat n_frames) n_frames chunk silence (t, w)
  end.

Definition WriteOut (payload : bytes) (now : Z) (s : st) : st :=
  let '(t, w) := s in
  if bool_decide (length payload = O) then s
  else if closed t || negb (hasChannel ChannelOut t) then s
  else if negb (duplex t) then
    match ensureOutWriter s with
    | (false, s) => s
    | (true, s) =>
        s ▷ fillOutGap now ▷ appendOut payload
          ▷ fedThrough_Add (MuLawDuration (Z.of_nat (length payload)))
    end
  else
    let t := match outQueue t with [] => t <| outQueue := replicate maxOutQueueFrames [] |> | _ => t end in
    if (outCount t =? maxOutQueueFrames)%nat then
      logDropOnce
        (t <| outQueue ::= <[outHead t := payload]> |>
           <| outHead := ((outHead t + 1) mod maxOutQueueFrames)%nat |> <| outDrops ::= Z.succ |>, w)
    else
      let idx := ((outHead t + outCount t) mod maxOutQueueFrames)%nat in
      (t <| outQueue ::= <[idx := payload]> |> <| outCount ::= S |>, w).

(** The silence [nextOutFrame] makes up when nothing is queued. *)
Definition pace (t : Tap) : nat := if (lastInFrameN t =? 0)%nat then defaultFrameBytes else lastInFrameN t.

Definition nextOutFrame (t : Tap) : bytes * Tap :=
  if (0 <? outCount t)%nat then
    (outQueue t !!! outHead t,
     t <| outQueue ::= <[outHead t := []]> |>
       <| outHead := ((outHead t + 1) mod maxOutQueueFrames)%nat |>
       <| outCount := (outCount t - 1)%nat |>)
  else (replicate (pace t) silenceByte, t).

Definition DrainOut (s : st) : st :=
  let t := fst s in
  if closed t || negb (duplex t) then s
  else
    match ensureOutWriter s with
    | (false, s) => s
    | (true, (t, w)) => let '(frame, t) := nextOutFrame t in appendOut frame (t, w)
    end.

(** ** Close *)

Definition close_writer (opened : bool) (s : st) : st :=
  let '(t, w) := s in
  if opened then
    let '(ok, plan) := answer (closes w) in
    let w := w <| closes := plan |> in
    if ok then (t, w) else logOnce (t, w)
  else s.

Definition closeWriters (s : st) : st :=
  s ▷ close_writer (t_w (fst s)) ▷ close_writer (t_wOut (fst s)).

Definition remove_if (empty : bool) (unlink : world -> world) (s : st) : st :=
  let '(t, w) := s in
  if empty then
    let '(ok, plan) := answer (removes w) in
    let w := w <| removes := plan |> in
    if ok then (t, unlink w) else logOnce (t, w)
  else s.

Definition removeEmptyRecordings (s : st) : st :=
  let t := fst s in
  s ▷ remove_if (t_w t && (frames t =? 0)) (fun w => w <| in_file := None |>)
    ▷ remove_if (t_wOut t && (outFrames t =? 0)) (fun w => w <| out_file := None |>).

Definition alignment (t : Tap) : string :=
  if duplex t then duplexAlignment
  else if hasChannel ChannelOut t then outboundWallClockAlignment
  else inboundArrivalAlignment.

Definition declaredChannels (t : Tap) : list string := channels t.

Definition sidecar_of (t : Tap) : tapSidecar :=
  mkSidecar (streamSID t) (callSID t) (label t) (startedAt t) (frames t) (t_bytes t)
    Vad.defaultVADConfig (alignment t) (declaredChannels t) (0 <? outCount t)%nat (outDrops t).

Definition writeSidecar (s : st) : st :=
  let '(t, w) := s in
  let '(ok, plan) := answer (sidecars w) in
  let w := w <| sidecars := plan |> in
  if ok then (t, w <| sidecar_file := Some (sidecar_of t) |>) else logOnce (t, w).

Definition is_some {A} (o : option A) : bool := match o with Some _ => true | None => false end.

Definition Close (now : Z) (s : st) : st :=
  let '(t, w) := s in
  if closed t then s
  else
    let s := (t <| closed := true |>, w) in
    let s :=
      if negb (duplex t) && hasChannel ChannelOut t && is_some (fedThrough t)
      then match ensureOutWriter s with (true, s) => fillOutGap now s | (false, s) => s end
      else s in
    let s := s ▷ closeWriters ▷ removeEmptyRecordings in
    if (frames (fst s) =? 0) && (outFrames (fst s) =? 0) then s else writeSidecar s.
