(* ===== verification/TapRing.v ===== *)
(** * TapRing: the ring buffer is a queue, the tap is a recorder

    The outbound queue of a duplex [Tap] (telephony/twilio/tap.go) is a ring:
    an array with a head and a count.  [view] reads it as the queue it stands
    for.  [Rec] is the recorder the tap promises to be -- a queue of frames and
    two growing files -- and the tap on a working file system implements it. *)

From S2P Require Export Tap.

Section Ring.
Context {A : Type} `{Inhabited A} (cap : nat).

Definition view (head count : nat) (q : list A) : list A :=
  map (fun i => q !!! ((head + i) mod cap)%nat) (seq 0 count).

Lemma view_length head count q : length (view head count q) = count.
Proof. unfold view. by rewrite length_map, length_seq. Qed.

Lemma ring_inj head i j : (i < cap)%nat -> (j < cap)%nat ->
  ((head + i) mod cap = (head + j) mod cap)%nat -> i = j.
Proof.
  intros Hi Hj E. pose proof (Nat.div_mod_eq (head + i) cap). pose proof (Nat.div_mod_eq (head + j) cap).
  rewrite E in *. assert ((head + i) / cap = (head + j) / cap)%nat; [|nia].
  destruct (lt_eq_lt_dec ((head + i) / cap) ((head + j) / cap)) as [[?|?]|?]; [nia|done|nia].
Qed.

Lemma view_insert_other head count q idx x :
  (forall i, (i < count)%nat -> ((head + i) mod cap)%nat <> idx) ->
  view head count (<[idx := x]> q) = view head count q.
Proof.
  intros Hne. unfold view. apply map_ext_in. intros i Hi. apply in_seq in Hi.
  apply list_lookup_total_insert_ne. intros E. by apply (Hne i); [lia|].
Qed.

Lemma view_push head count q x : length q = cap -> (count < cap)%nat ->
  view head (S count) (<[((head + count) mod cap)%nat := x]> q) = view head count q ++ [x].
Proof.
  intros Hq Hc. unfold view at 1. rewrite seq_S, map_app. simpl. f_equal.
  - apply view_insert_other. intros i Hi E. apply ring_inj in E; lia.
  - rewrite list_lookup_total_insert_eq; [done|]. rewrite Hq. apply Nat.mod_upper_bound. lia.
Qed.

Lemma view_cons head count q : (head < cap)%nat ->
  view head (S count) q = q !!! head :: view ((head + 1) mod cap) count q.
Proof.
  intros Hh. unfold view. simpl. rewrite Nat.add_0_r, Nat.mod_small by done. f_equal.
  rewrite <- seq_shift, map_map. apply map_ext. intros i. f_equal.
  rewrite Nat.Div0.add_mod_idemp_l. f_equal. lia.
Qed.

Lemma view_pop head count q x : (head < cap)%nat -> (S count <= cap)%nat ->
  view ((head + 1) mod cap) count (<[head := x]> q) = view ((head + 1) mod cap) count q.
Proof.
  intros Hh Hc. apply view_insert_other. intros i Hi E.
  rewrite Nat.Div0.add_mod_idemp_l in E. rewrite <- (Nat.mod_small head cap) in E at 2 by done.
  replace (head + 1 + i)%nat with (head + S i)%nat in E by lia.
  rewrite <- (Nat.add_0_r head) in E at 2. apply ring_inj in E; lia.
Qed.

(** The full ring: the oldest slot is overwritten and becomes the newest. *)
Lemma view_overwrite head q x : length q = cap -> (head < cap)%nat ->
  view ((head + 1) mod cap) cap (<[head := x]> q) = tail (view head cap q) ++ [x].
Proof.
  intros Hq Hh. assert (exists c, cap = S c) as [c Ec] by (exists (cap - 1)%nat; lia).
  assert (Hv : forall h (l : list A), view h cap l = view h (S c) l) by (intros; by rewrite <- Ec).
  rewrite !Hv, (view_cons head c q) by done. simpl. rewrite <- (view_pop head c q x) by lia.
  unfold view at 1. rewrite seq_S, map_app. simpl. do 2 f_equal.
  rewrite Nat.Div0.add_mod_idemp_l. replace (head + 1 + c)%nat with (head + 1 * cap)%nat by lia.
  rewrite Nat.Div0.mod_add, Nat.mod_small by done. apply list_lookup_total_insert_eq. lia.
Qed.
End Ring.

(** ** The recorder a duplex tap promises

    A queue of at most [maxOutQueueFrames] frames, the two files, and what the
    sidecar counts.  [rplayed] is the frames taken off the queue so far and [rid]
    the identity of the call. *)
Record Rec := mkRec {
  rid : string * string * string * Z;
  rq : list bytes; rin : bytes; rout : bytes; rlast : nat; rframes : Z; rdrops : Z;
  rplayed : list bytes
}.
#[export] Instance rec_eta : Eta Rec := fun r =>
  mkRec (rid r) (rq r) (rin r) (rout r) (rlast r) (rframes r) (rdrops r) (rplayed r).

Definition rec0 (id : string * string * string * Z) : Rec := mkRec id [] [] [] O 0 0 [].

Inductive tap_op := OpIn (p : bytes) | OpOut (p : bytes) (now : Z) | OpDrain.

Definition rec_step (o : tap_op) (r : Rec) : Rec :=
  match o with
  | OpIn [] | OpOut [] _ => r
  | OpIn p => r <| rin ::= fun c => c ++ p |> <| rlast := length p |> <| rframes ::= Z.succ |>
  | OpOut p _ =>
      if bool_decide (length (rq r) = maxOutQueueFrames)
      then r <| rq := tail (rq r) ++ [p] |> <| rdrops ::= Z.succ |>
      else r <| rq ::= fun q => q ++ [p] |>
  | OpDrain =>
      match rq r with
      | f :: q => r <| rq := q |> <| rout ::= fun c => c ++ f |> <| rplayed ::= fun l => l ++ [f] |>
      | [] => r <| rout ::= fun c => c ++ replicate (if bool_decide (rlast r = O) then 160%nat else rlast r) 255 |>
      end
  end.

Definition tap_step (o : tap_op) (s : st) : st :=
  match o with OpIn p => WriteIn p s | OpOut p now => WriteOut p now s | OpDrain => DrainOut s end.

Fixpoint rec_run (ops : list tap_op) (r : Rec) : Rec :=
  match ops with [] => r | o :: ops => rec_run ops (rec_step o r) end.
Fixpoint tap_run (ops : list tap_op) (s : st) : st :=
  match ops with [] => s | o :: ops => tap_run ops (tap_step o s) end.

(** A file system on which every call succeeds, and no file of this stream yet. *)
Definition healthy (w : world) : Prop :=
  opens w = [] /\ writes w = [] /\ closes w = [] /\ removes w = [] /\ sidecars w = [].
Definition no_files (w : world) : Prop :=
  in_file w = None /\ out_file w = None /\ sidecar_file w = None.

(** What a file of [n] opened-or-not bytes looks like. *)
Definition file_of (opened : bool) (c : bytes) (f : option bytes) : Prop :=
  f = (if opened then Some c else None) /\ (opened = false -> c = []).

Record implements (s : st) (r : Rec) : Prop := {
  im_id : (streamSID (fst s), callSID (fst s), label (fst s), startedAt (fst s)) = rid r;
  im_live : closed (fst s) = false /\ inOpenFailed (fst s) = false /\ outOpenFailed (fst s) = false;
  im_duplex : channels (fst s) = [ChannelIn; ChannelOut];
  im_world : healthy (snd s);
  im_ring : (outHead (fst s) < maxOutQueueFrames)%nat /\ (outCount (fst s) <= maxOutQueueFrames)%nat /\
    (length (outQueue (fst s)) = maxOutQueueFrames \/ outQueue (fst s) = [] /\ outCount (fst s) = O);
  im_view : view maxOutQueueFrames (outHead (fst s)) (outCount (fst s)) (outQueue (fst s)) = rq r;
  im_frames_nonempty : Forall (fun f => f <> []) (rq r);
  im_in : file_of (t_w (fst s)) (rin r) (in_file (snd s));
  im_out : file_of (t_wOut (fst s)) (rout r) (out_file (snd s));
  im_last : lastInFrameN (fst s) = rlast r;
  im_counts : frames (fst s) = rframes r /\ t_bytes (fst s) = Z.of_nat (length (rin r)) /\ outDrops (fst s) = rdrops r;
  im_pos : 0 <= rframes r /\ 0 <= outFrames (fst s);
  im_zero : (rframes r = 0 <-> rin r = []) /\ (outFrames (fst s) = 0 <-> rout r = []);
  im_side : sidecar_file (snd s) = None
}.

Lemma maxOutQueueFrames_pos : (0 < maxOutQueueFrames)%nat.
Proof. unfold maxOutQueueFrames. vm_compute. lia. Qed.
#[global] Opaque maxOutQueueFrames.

(** Cases of the code on a healthy file system. *)
Lemma accepted_all buf : accepted [] buf = (length buf, []).
Proof. done. Qed.

Lemma appendOut_healthy f t w c : writes w = [] -> out_file w = Some c -> f <> [] ->
  appendOut f (t, w) =
  (t <| outFrames ::= Z.add 1 |> <| outBytes ::= Z.add (Z.of_nat (length f)) |>, w <| out_file := Some (c ++ f) |>).
Proof.
  intros Hw Hc Hf. unfold appendOut, appendOutFrames. rewrite Hw, accepted_all, Nat.ltb_irrefl.
  destruct f; [done|]. destruct w; usimpl. subst. simpl. by rewrite firstn_all.
Qed.

Lemma ensureOutWriter_healthy t w c : outOpenFailed t = false -> opens w = [] -> file_of (t_wOut t) c (out_file w) ->
  ensureOutWriter (t, w) = (true, (t <| t_wOut := true |>, w <| out_file := Some c |>)).
Proof.
  intros H1 H2 [H3 H4]. unfold ensureOutWriter. rewrite H1. destruct (t_wOut t) eqn:E.
  - destruct t, w; usimpl. by subst.
  - rewrite H2. simpl. rewrite H4 in * by done. destruct t, w; usimpl. by subst.
Qed.

Lemma openIn_healthy t w c : opens w = [] -> file_of (t_w t) c (in_file w) ->
  openIn (t, w) = (true, (t <| t_w := true |>, w <| in_file := Some c |>)).
Proof.
  intros H2 [H3 H4]. unfold openIn. destruct (t_w t) eqn:E.
  - destruct t, w; usimpl. by subst.
  - rewrite H2. simpl. rewrite H4 in * by done. destruct t, w; usimpl. by subst.
Qed.

Lemma duplex_both t : channels t = [ChannelIn; ChannelOut] ->
  duplex t = true /\ hasChannel ChannelIn t = true /\ hasChannel ChannelOut t = true.
Proof. unfold duplex, hasChannel. intros ->. by vm_compute. Qed.

Lemma rec_step_in p r : p <> [] ->
  rec_step (OpIn p) r = r <| rin ::= fun c => c ++ p |> <| rlast := length p |> <| rframes ::= Z.succ |>.
Proof. by destruct p. Qed.

Lemma rec_step_out p now r : p <> [] ->
  rec_step (OpOut p now) r =
  if bool_decide (length (rq r) = maxOutQueueFrames)
  then r <| rq := tail (rq r) ++ [p] |> <| rdrops ::= Z.succ |> else r <| rq ::= fun q => q ++ [p] |>.
Proof. by destruct p. Qed.

Lemma implements_in p s r : implements s r -> implements (WriteIn p s) (rec_step (OpIn p) r).
Proof.
  intros H. destruct (decide (p = [])) as [->|Hp]; [done|]. rewrite rec_step_in by done.
  destruct s as [t w]. destruct H as [Hid (H1 & H2 & H3) Hd Hw Hr Hv Hf Hi Ho Hl (Hc1 & Hc2 & Hc3) Hpos Hz Hs]. usimpl.
  destruct (duplex_both t Hd) as (_ & HI & _). destruct Hw as (Hw1 & Hw2 & Hw3).
  unfold WriteIn. rewrite bool_decide_eq_false_2 by (by destruct p). cbn [fst]. rewrite H1, H2, HI. cbn [orb negb].
  rewrite (openIn_healthy _ _ (rin r)) by done.
  usimpl. rewrite Hw2, accepted_all, Nat.ltb_irrefl, firstn_all.
  replace (0 <? length p)%nat with true by (by destruct p).
  split; usimpl; try done.
  - by rewrite Hc1, Hc2, length_app, Nat2Z.inj_add, Z.add_comm.
  - lia.
  - split; [|tauto]. split; [lia | intros E; by apply app_eq_nil in E as [_ ?]].
Qed.

Lemma push_length {A} (q : list A) x n : length q = S n -> length (tail q ++ [x]) = S n.
Proof. destruct q; [done|]. simpl. intros [= <-]. rewrite length_app. simpl. lia. Qed.

Lemma implements_out p now s r : implements s r -> implements (WriteOut p now s) (rec_step (OpOut p now) r).
Proof.
  intros H. destruct (decide (p = [])) as [->|Hp]; [by destruct s|]. rewrite rec_step_out by done.
  destruct s as [t w]. destruct H as [Hid (H1 & H2 & H3) Hd Hw (Hr1 & Hr2 & Hr3) Hv Hf Hi Ho Hl (Hc1 & Hc2 & Hc3) Hpos Hz Hs]. usimpl.
  destruct (duplex_both t Hd) as (HD & _ & HO). pose proof maxOutQueueFrames_pos.
  unfold WriteOut. rewrite bool_decide_eq_false_2 by (by destruct p). rewrite H1, HO, HD. cbn [orb negb].
  set (t1 := match outQueue t with [] => _ | _ => t end).
  assert (length (outQueue t1) = maxOutQueueFrames /\ t1 = t <| outQueue := outQueue t1 |> /\
    view maxOutQueueFrames (outHead t) (outCount t) (outQueue t1) = rq r) as (Hlen & Ht1 & Hv1).
  { destruct (outQueue t) eqn:E; subst t1.
    - assert (outCount t = O) as E0 by (destruct Hr3 as [Hr3|[_ ?]]; [simpl in Hr3; lia | done]).
      usimpl. rewrite length_replicate. rewrite E0 in *. done.
    - destruct Hr3 as [Hr3|[? _]]; [|done]. rewrite E in *. split; [done|]. split; [|done].
      destruct t; usimpl. congruence. }
  clearbody t1. rewrite Ht1.
  rewrite <- Hv1, view_length, Hv1. usimpl. destruct (Nat.eqb_spec (outCount t) maxOutQueueFrames) as [Hfull|Hroom].
  - rewrite bool_decide_eq_true_2 by done. unfold logDropOnce. usimpl.
    assert (Forall (fun f : bytes => f <> []) (tail (rq r) ++ [p])) by (apply Forall_snoc; [by destruct Hf | done]).
    destruct (dropLogged t); split; usimpl; rewrite ?length_insert; try done;
      try (split; [apply Nat.mod_upper_bound; lia | split; [lia | by left]]);
      try (rewrite Hfull in *; rewrite view_overwrite by done; by rewrite Hv1);
      try (by rewrite Hc3).
  - rewrite bool_decide_eq_false_2 by done. split; usimpl; rewrite ?length_insert; try done.
    + split; [done | split; [lia | by left]].
    + rewrite view_push by (done || lia). by rewrite Hv1.
    + by apply Forall_snoc.
Qed.

Lemma appendOut_implements f t w r r' :
  implements (t, w) r -> f <> [] -> t_wOut t = true ->
  rq r' = rq r -> rin r' = rin r -> rout r' = rout r ++ f -> rlast r' = rlast r ->
  rframes r' = rframes r -> rdrops r' = rdrops r -> rid r' = rid r ->
  implements (appendOut f (t, w)) r'.
Proof.
  intros H Hf Ht E1 E2 E3 E4 E5 E6 E7.
  pose proof (im_out _ _ H) as Ho. cbn [fst snd] in Ho. rewrite Ht in Ho. destruct Ho as [Ho _].
  pose proof (im_world _ _ H) as (_ & Hw & _). cbn [snd] in Hw.
  rewrite (appendOut_healthy f _ w (rout r)) by done.
  destruct H as [Hid Hlive Hd Hw' Hr Hv Hne Hi _ Hl Hc Hpos Hz Hs].
  split; usimpl; rewrite ?E1, ?E2, ?E3, ?E4, ?E5, ?E6, ?E7, ?Ht; try done.
  - lia.
  - split; [tauto|]. split; [lia|]. intros E. by apply app_eq_nil in E as [_ ?].
Qed.

Lemma pop_implements t w r f q : implements (t, w) r -> rq r = f :: q ->
  (0 <? outCount t)%nat = true /\ f <> [] /\
  nextOutFrame t = (f, (nextOutFrame t).2) /\ implements ((nextOutFrame t).2, w) (r <| rq := q |>) /\
  t_wOut ((nextOutFrame t).2) = t_wOut t.
Proof.
  intros H E. destruct H as [Hid Hlive Hd Hw (Hr1 & Hr2 & Hr3) Hv Hne Hi Ho Hl Hc Hpos Hz Hs]. usimpl.
  pose proof (view_length maxOutQueueFrames (outHead t) (outCount t) (outQueue t)) as Hn.
  rewrite Hv, E in Hn. simpl in Hn. rewrite E in Hne. apply Forall_cons in Hne as [Hf Hq].
  assert ((0 <? outCount t)%nat = true) as Ep by (apply Nat.ltb_lt; lia). split; [done|]. split; [done|].
  unfold nextOutFrame. rewrite Ep. rewrite E, <- Hn, view_cons in Hv by done. injection Hv as Hhd Htl.
  rewrite <- Hn in *. split; [by rewrite Hhd|]. split; [|done].
  split; usimpl; rewrite ?length_insert; try done.
  - split; [apply Nat.mod_upper_bound; lia|]. split; [lia | left]. destruct Hr3 as [?|[_ ?]]; [done | lia].
  - rewrite Nat.sub_0_r. by rewrite view_pop by (done || lia).
Qed.

Lemma ensureOutWriter_implements t w r : implements (t, w) r ->
  exists t' w', ensureOutWriter (t, w) = (true, (t', w')) /\ implements (t', w') r /\ t_wOut t' = true.
Proof.
  intros H. exists (t <| t_wOut := true |>), (w <| out_file := Some (rout r) |>).
  destruct H as [Hid (H1 & H2 & H3) Hd (Hw1 & Hw) Hr Hv Hne Hi Ho Hl Hc Hpos Hz Hs]. cbn [fst snd] in *.
  rewrite (ensureOutWriter_healthy _ _ (rout r)) by done. split; [done|]. split; [|done]. by split; usimpl.
Qed.

Lemma implements_drain s r : implements s r -> implements (DrainOut s) (rec_step OpDrain r).
Proof.
  intros H. destruct s as [t w]. unfold DrainOut. cbn [fst].
  pose proof H as [_ (H1 & _) Hd _ _ _ _ _ _ _ _ _ _ _]. cbn [fst] in *.
  destruct (duplex_both t Hd) as (HD & _). rewrite H1, HD. cbn [orb negb].
  destruct (ensureOutWriter_implements t w r H) as (t' & w' & -> & H' & Ht'). clear dependent t w.
  cbn [rec_step]. destruct (rq r) as [|f q] eqn:E.
  - pose proof (view_length maxOutQueueFrames (outHead t') (outCount t') (outQueue t')) as Hn.
    pose proof (im_view _ _ H') as Hv. cbn [fst] in Hv. rewrite Hv, E in Hn.
    unfold nextOutFrame. rewrite <- Hn. cbn [length Nat.ltb Nat.leb].
    pose proof (im_last _ _ H') as Hl. cbn [fst] in Hl. unfold pace. rewrite Hl.
    destruct (Nat.eqb_spec (rlast r) 0) as [E0|E0];
      [rewrite bool_decide_eq_true_2 by done | rewrite bool_decide_eq_false_2 by done];
      (eapply appendOut_implements; [exact H'| |done..]).
    + done.
    + by destruct (rlast r).
  - destruct (pop_implements _ _ _ _ _ H' E) as (_ & Hf & En & Hp & Ht2). rewrite En.
    eapply appendOut_implements; [exact Hp | done | by rewrite Ht2 | done..].
Qed.

Lemma implements_run ops s r : implements s r -> implements (tap_run ops s) (rec_run ops r).
Proof.
  revert s r. induction ops as [|o ops IH]; intros s r H; simpl; [done|]. apply IH.
  destruct o; [by apply implements_in | by apply implements_out | by apply implements_drain].
Qed.
