(* ===== verification/TapThms.v ===== *)
(** * TapThms: what a recording holds

    The theorems on [Tap] (telephony/twilio/tap.go): the duplex tap is the
    recorder of TapRing.v; how far out.ulaw drifts from in.ulaw; which files are
    kept whatever the file system does; and the timeline of an outbound-only
    recording. *)

From S2P Require Import TapRing.

(** ** The duplex tap implements the recorder *)

(** A file with at least one byte is kept, an empty one is removed. *)
Definition recorded (c : bytes) : option bytes := match c with [] => None | _ => Some c end.

Lemma implements_init dir sid csid lbl at_ t w :
  NewTap dir sid csid lbl at_ [] = Some t -> healthy w -> no_files w ->
  implements (t, w) (rec0 (sid, csid, lbl, at_)).
Proof.
  unfold NewTap. case_bool_decide; [done|]. intros [= <-] Hh (Hf1 & Hf2 & Hf3).
  pose proof maxOutQueueFrames_pos. split; usimpl; try done; try lia.
  split; [done|]. split; [lia | by right].
Qed.

Lemma close_writer_healthy b t w : closes w = [] -> close_writer b (t, w) = (t, w).
Proof. intros H. unfold close_writer. rewrite H. destruct b, w; usimpl; by subst. Qed.

Lemma remove_if_healthy b u t w : removes w = [] -> remove_if b u (t, w) = (t, if b then u w else w).
Proof. intros H. unfold remove_if. rewrite H. destruct b; [|done]. simpl. f_equal. f_equal. destruct w; usimpl; by subst. Qed.

Definition sidecar_spec (r : Rec) : option tapSidecar :=
  match rin r, rout r, rid r with
  | [], [], _ => None
  | _, _, (sid, csid, lbl, at_) =>
      Some (mkSidecar sid csid lbl at_ (rframes r) (Z.of_nat (length (rin r))) Vad.defaultVADConfig
        duplexAlignment ["in"; "out"] (match rq r with [] => false | _ => true end) (rdrops r))
  end.

Lemma close_implements now t w r : implements (t, w) r ->
  let '(t', w') := Close now (t, w) in
  closed t' = true /\ in_file w' = recorded (rin r) /\ out_file w' = recorded (rout r) /\ sidecar_file w' = sidecar_spec r.
Proof.
  intros [Hid (H1 & H2 & H3) Hd (Hw1 & Hw2 & Hw3 & Hw4 & Hw5) _ Hv _ [Hi1 Hi2] [Ho1 Ho2] _ (Hc1 & Hc2 & Hc3) _ (Hz1 & Hz2) Hs].
  cbn [fst snd] in *. unfold Close. rewrite H1.
  destruct (duplex_both t Hd) as (HD & _).
  change (duplex (t <| closed := true |>)) with (duplex t). cbv zeta. rewrite HD. cbn [negb andb].
  unfold closeWriters. cbn [fst]. rewrite !close_writer_healthy by done. unfold removeEmptyRecordings. cbn [fst].
  rewrite !remove_if_healthy by (by repeat case_match). cbn [fst].
  change (frames (t <| closed := true |>)) with (frames t). change (outFrames (t <| closed := true |>)) with (outFrames t).
  rewrite Hc1.
  assert ((rframes r =? 0) = match rin r with [] => true | _ => false end) as ->
    by (destruct (Z.eqb_spec (rframes r) 0), (rin r); intuition discriminate).
  assert ((outFrames t =? 0) = match rout r with [] => true | _ => false end) as ->
    by (destruct (Z.eqb_spec (outFrames t) 0), (rout r); intuition discriminate).
  pose proof (view_length maxOutQueueFrames (outHead t) (outCount t) (outQueue t)) as Hn. rewrite Hv in Hn.
  destruct (rid r) as [[[a b] c] d] eqn:Eid. injection Hid as <- <- <- <-.
  unfold sidecar_spec. rewrite Eid, <- Hc3, <- Hc1. unfold recorded.
  destruct (rin r) as [|bi li], (rout r) as [|bo lo], (t_w t) eqn:Etw, (t_wOut t) eqn:Eto; usimpl;
    rewrite ?Etw, ?Eto; cbn [andb]; unfold writeSidecar; usimpl; rewrite ?Hw5; simpl;
    try (discriminate (Hi2 eq_refl)); try (discriminate (Ho2 eq_refl));
    unfold sidecar_of, alignment, declaredChannels; rewrite ?HD, ?Hd, ?Hc2, <- ?Hn;
    (repeat split; try done; by destruct (rq r)).
Qed.

(** C32: On a disk that takes every write, a duplex tap implements an abstract recorder: for
    any sequence of inbound frames, outbound payloads and drains, the two files hold what
    the recorder's two tapes hold, and closing leaves exactly the tapes that are not empty
    and the sidecar that describes them, the ring with its overwriting and its silence
    included. *)
Theorem duplex_recorder_refines dir sid csid lbl at_ ops now t w :
  NewTap dir sid csid lbl at_ [] = Some t -> healthy w -> no_files w ->
  let r := rec_run ops (rec0 (sid, csid, lbl, at_)) in
  let '(t1, w1) := tap_run ops (t, w) in
  let '(_, w2) := Close now (t1, w1) in
  default [] (in_file w1) = rin r /\ default [] (out_file w1) = rout r /\
  in_file w2 = recorded (rin r) /\ out_file w2 = recorded (rout r) /\ sidecar_file w2 = sidecar_spec r.
Proof.
  intros Ht Hh Hf r. pose proof (implements_init _ _ _ _ _ _ _ Ht Hh Hf) as H0.
  apply (implements_run ops) in H0. fold r in H0. destruct (tap_run ops (t, w)) as [t1 w1].
  pose proof (close_implements now _ _ _ H0) as Hc. destruct (Close now (t1, w1)) as [t2 w2].
  destruct (im_in _ _ H0) as [Hi1 Hi2], (im_out _ _ H0) as [Ho1 Ho2]. cbn [fst snd] in *.
  split; [rewrite Hi1; destruct (t_w t1); [done | by rewrite Hi2]|].
  split; [rewrite Ho1; destruct (t_wOut t1); [done | by rewrite Ho2]|]. tauto.
Qed.

(** ** Drift between the two files *)

(** One inbound frame of the data pump: what the session sent meanwhile, then
    [WriteIn] and [DrainOut]. *)
Record round := mkRound { sent : list (bytes * Z); inbound : bytes }.

Definition round_ops (rd : round) : list tap_op :=
  map (fun x => OpOut x.1 x.2) (sent rd) ++ [OpIn (inbound rd); OpDrain].
Definition pump (rds : list round) : list tap_op := concat (map round_ops rds).
Definition payloads (rds : list round) : list bytes := concat (map (fun rd => map fst (sent rd)) rds).

Definition excess (n : nat) (fs : list bytes) : Z := foldr (fun f z => Z.of_nat (length f) - Z.of_nat n + z) 0 fs.

Lemma excess_snoc n fs f : excess n (fs ++ [f]) = excess n fs + (Z.of_nat (length f) - Z.of_nat n).
Proof. induction fs; simpl; unfold excess in *; simpl; lia. Qed.

Lemma rec_run_app ops ops' r : rec_run (ops ++ ops') r = rec_run ops' (rec_run ops r).
Proof. revert r. induction ops; simpl; auto. Qed.

(** The drift law of the recorder at frame boundaries. *)
Definition drift_ok (n : nat) (ps : list bytes) (r : Rec) : Prop :=
  Z.of_nat (length (rout r)) - Z.of_nat (length (rin r)) = excess n (rplayed r) /\
  sublist (rplayed r ++ rq r) ps.

Lemma drift_out n ps r p now : drift_ok n ps r -> drift_ok n (ps ++ [p]) (rec_step (OpOut p now) r).
Proof.
  intros [H1 H2]. destruct (decide (p = [])) as [->|Hp].
  { split; [done|]. simpl. etransitivity; [exact H2|]. by apply sublist_inserts_r. }
  rewrite rec_step_out by done. case_bool_decide; split; usimpl; try done; rewrite app_assoc; apply sublist_app; try done.
  destruct (rq r); [done|]. simpl. etransitivity; [|exact H2]. by apply sublist_app, sublist_cons.
Qed.

Lemma drift_outs n sent ps r : drift_ok n ps r ->
  drift_ok n (ps ++ map fst sent) (rec_run (map (fun x => OpOut x.1 x.2) sent) r).
Proof.
  revert ps r. induction sent as [|[p t] sent IH]; intros ps r H; cbn [map rec_run fst snd]; [by rewrite app_nil_r|].
  replace (ps ++ p :: map fst sent) with ((ps ++ [p]) ++ map fst sent) by (by rewrite <- app_assoc).
  by apply IH, drift_out.
Qed.

Lemma drift_frame n ps r p : length p = n -> (0 < n)%nat -> drift_ok n ps r ->
  drift_ok n ps (rec_step OpDrain (rec_step (OpIn p) r)).
Proof.
  intros Hn Hpos [H1 H2]. rewrite rec_step_in by (by destruct p; [simpl in *; lia|]). unfold drift_ok. cbn [rec_step]. usimpl.
  destruct (rq r) as [|f q]; usimpl.
  - rewrite bool_decide_eq_false_2 by lia. rewrite !length_app, length_replicate. split; [lia | done].
  - rewrite !length_app, excess_snoc. split; [lia|]. by rewrite <- app_assoc.
Qed.

(** When every inbound frame has n bytes and a session's pattern of writes and drains
    runs, the outbound recording differs from the inbound one by exactly the sum, over the
    queued payloads that were drained, of their length less n: it is aligned byte for byte
    only if every payload has the inbound frame's size. *)
Theorem duplex_drift dir sid csid lbl at_ t w n rds :
  NewTap dir sid csid lbl at_ [] = Some t -> healthy w -> no_files w ->
  (0 < n)%nat -> Forall (fun rd => length (inbound rd) = n) rds ->
  exists played, sublist played (payloads rds) /\
    let w' := snd (tap_run (pump rds) (t, w)) in
    Z.of_nat (length (default [] (out_file w'))) - Z.of_nat (length (default [] (in_file w'))) = excess n played.
Proof.
  intros Ht Hh Hf Hn Hrds. pose proof (implements_init _ _ _ _ _ _ _ Ht Hh Hf) as H0.
  apply (implements_run (pump rds)) in H0. set (r := rec_run _ _) in H0.
  destruct (im_in _ _ H0) as [Hi1 Hi2], (im_out _ _ H0) as [Ho1 Ho2].
  assert (Hd : drift_ok n (payloads rds) r).
  { subst r. clear -Hn Hrds. change (payloads rds) with ([] ++ payloads rds).
    assert (Hd : drift_ok n [] (rec0 (sid, csid, lbl, at_))) by (split; [done | constructor]).
    revert Hd. generalize (rec0 (sid, csid, lbl, at_)) ([] : list bytes).
    induction Hrds as [|rd rds Hrd _ IH]; intros r ps Hd; simpl; [by rewrite app_nil_r|].
    unfold pump, payloads. simpl. rewrite rec_run_app, app_assoc. apply IH. unfold round_ops. rewrite rec_run_app.
    apply drift_frame; [done..|]. by apply drift_outs. }
  exists (rplayed r). destruct Hd as [Hd1 Hd2]. split; [|].
  - etransitivity; [|exact Hd2]. by apply sublist_inserts_r.
  - cbv zeta. rewrite <- Hd1. f_equal; [f_equal; f_equal; rewrite Ho1; destruct (t_wOut _); [done | by rewrite Ho2]|].
    f_equal. f_equal. f_equal. rewrite Hi1. destruct (t_w _); [done | by rewrite Hi2].
Qed.

(** ** Concrete recordings *)

Definition empty_world : world := mkWorld None None None [] [] [] [] [] O.
Definition fresh_tap (chs : list string) : Tap :=
  WithChannels chs (mkTap "MZ1" "CA1" "tap" "l" 0 false false [] O O O [ChannelIn; ChannelOut]
    None false false false 0 0 0 0 0 false false).

Definition caller_frame : bytes := replicate 160 7.
(** A bed tick's chunk goes to the tap as one payload; the caller's next 200 ms
    are ten frames. *)
Definition bed_rounds : list round :=
  mkRound [(replicate 1600 9, 0)] caller_frame :: replicate 9 (mkRound [] caller_frame).

Lemma duplex_recorder_refines_witness :
  let ops := [OpOut [1; 2] 0; OpIn [5; 6; 7]; OpDrain; OpDrain; OpOut [3] 0] in
  let r := rec_run ops (rec0 ("MZ1", "CA1", "l", 0)) in
  (rin r = [5; 6; 7] /\ rout r = [1; 2; 255; 255; 255]) /\
  let '(t1, w1) := tap_run ops (fresh_tap [], empty_world) in
  let '(_, w2) := Close 0 (t1, w1) in
  default [] (in_file w1) = rin r /\ default [] (out_file w1) = rout r /\
  in_file w2 = recorded (rin r) /\ out_file w2 = recorded (rout r) /\ sidecar_file w2 = sidecar_spec r.
Proof.
  cbv zeta. split; [split; vm_compute; reflexivity|].
  apply (duplex_recorder_refines "tap" "MZ1" "CA1" "l" 0); [reflexivity | repeat split | repeat split].
Defined.

Lemma duplex_drift_witness :
  let w' := snd (tap_run (pump bed_rounds) (fresh_tap [], empty_world)) in
  (length (default [] (in_file w')) = 1600%nat /\ length (default [] (out_file w')) = 3040%nat) /\
  exists played, sublist played (payloads bed_rounds) /\
    Z.of_nat (length (default [] (out_file w'))) - Z.of_nat (length (default [] (in_file w'))) = excess 160 played.
Proof.
  cbv zeta. split; [split; vm_compute; reflexivity|].
  apply (duplex_drift "tap" "MZ1" "CA1" "l" 0); [reflexivity | repeat split | repeat split | lia | repeat constructor].
Defined.
