(* ===== verification/TapFiles.v ===== *)
(** * TapFiles: recordings on a failing file system

    Whatever [open], [write], [close] and [unlink] answer, [Tap]
    (telephony/twilio/tap.go) keeps a file exactly when bytes landed in it,
    writes a sidecar only beside a recording, logs at most twice, and does
    nothing more once closed. *)

From S2P Require Import TapRing.

(** A file beside the tap's counters for it. *)
Definition side_ok (opened : bool) (f : option bytes) (nf nb : Z) : Prop :=
  if opened then exists c, f = Some c /\ 0 <= nf /\ (nf = 0 <-> c = []) /\ nb = Z.of_nat (length c)
  else f = None /\ nf = 0 /\ nb = 0.

#[local] Arguments logOnce : simpl never.

Definition b2n (b : bool) : nat := if b then 1 else 0.

Definition content (f : option bytes) : bytes := default [] f.

(** [s'] follows [s] by the tap's own writes: in.ulaw as it was, out.ulaw grown
    by silence alone. *)
Definition follows (s s' : st) : Prop :=
  in_file (snd s') = in_file (snd s) /\
  exists z, content (out_file (snd s')) = content (out_file (snd s)) ++ z /\ Forall (fun b => b = silenceByte) z.

#[export] Instance follows_pre : PreOrder follows.
Proof.
  split.
  - intros s. split; [done|]. exists []. by rewrite app_nil_r.
  - intros a b c (H1 & z & H2 & Hz) (H3 & z' & H4 & Hz'). split; [congruence|].
    exists (z ++ z'). split; [by rewrite H4, H2, app_assoc | by apply Forall_app].
Qed.

Lemma follows_same s s' : in_file (snd s') = in_file (snd s) -> content (out_file (snd s')) = content (out_file (snd s)) -> follows s s'.
Proof. intros H1 H2. split; [done|]. exists []. by rewrite app_nil_r. Qed.

(** A short write logs, and changes nothing else. *)
Lemma short_write (short : bool) l0 t w : log_lines w = (l0 + b2n (logged t) + b2n (dropLogged t))%nat ->
  exists lg, (if short then logOnce (t, w) else (t, w)) =
    (t <| logged := lg |>, w <| log_lines := (l0 + b2n lg + b2n (dropLogged t))%nat |>).
Proof.
  intros H. destruct short; [|exists (logged t); rewrite <- H; by destruct t, w].
  unfold logOnce. destruct (logged t) eqn:E; exists true; destruct t, w; usimpl; subst; simpl; do 2 f_equal; lia.
Qed.

Section Inv.
(** [cl]: the tap is being closed; [l0]: lines logged before; [rm]: the answers
    the unlinks and the sidecar's write will get. *)
Context (cl : bool) (l0 : nat) (rm : list bool * list bool).

Record tap_inv (s : st) : Prop := {
  ti_closed : closed (fst s) = cl;
  ti_in : side_ok (t_w (fst s)) (in_file (snd s)) (frames (fst s)) (t_bytes (fst s));
  ti_out : side_ok (t_wOut (fst s)) (out_file (snd s)) (outFrames (fst s)) (outBytes (fst s));
  ti_side : sidecar_file (snd s) = None;
  ti_plan : (removes (snd s), sidecars (snd s)) = rm;
  ti_log : log_lines (snd s) = (l0 + b2n (logged (fst s)) + b2n (dropLogged (fst s)))%nat
}.

Lemma inv_logOnce s : tap_inv s -> tap_inv (logOnce s) /\ follows s (logOnce s).
Proof.
  destruct s as [t w]. intros [H0 H1 H2 H3 H4 H5]. unfold logOnce. destruct (logged t) eqn:E; (split; [|by apply follows_same]); [by split|].
  split; usimpl; try done. rewrite H5, E. simpl. lia.
Qed.

Lemma inv_logDropOnce s : tap_inv s -> tap_inv (logDropOnce s).
Proof.
  destruct s as [t w]. intros [H0 H1 H2 H3 H4 H5]. unfold logDropOnce. destruct (dropLogged t) eqn:E; [by split|].
  split; usimpl; try done. rewrite H5, E. simpl. lia.
Qed.

Lemma side_opened f nf nb : side_ok false f nf nb -> side_ok true (open_append true f) nf nb.
Proof. intros (-> & -> & ->). exists []. by repeat split. Qed.

Lemma side_append f nf nb buf n k : side_ok true f nf nb -> (n <= length buf)%nat -> 1 <= k ->
  let f' := fmap (fun c => c ++ take n buf) f in
  if (0 <? n)%nat then side_ok true f' (k + nf) (Z.of_nat n + nb) else side_ok true f' nf nb.
Proof.
  intros (c & -> & H1 & H2 & ->) Hn Hk. cbn [fmap option_fmap option_map]. destruct (Nat.ltb_spec 0 n) as [Hp|Hp].
  - exists (c ++ take n buf). split; [done|]. split; [lia|]. split.
    + split; [lia|]. intros E. apply app_eq_nil in E as [_ E]. apply (f_equal length) in E. rewrite length_take in E. simpl in E. lia.
    + rewrite length_app, length_take. lia.
  - assert (n = O) as -> by lia. rewrite take_0, app_nil_r. exists c. by repeat split; try apply H2.
Qed.

Lemma inv_openIn s b s' : tap_inv s -> openIn s = (b, s') -> tap_inv s' /\ (b = true -> t_w (fst s') = true).
Proof.
  destruct s as [t w]. intros H. unfold openIn. destruct (t_w t) eqn:E; [by intros [= <- <-]|].
  pose proof H as [H0 H1 H2 H3 H4 H5]. cbn [fst snd] in *. rewrite E in H1.
  destruct (answer (opens w)) as [[] plan]; intros [= <- <-].
  - split; [|done]. split; usimpl; try done. by apply side_opened.
  - split; [|done]. apply inv_logOnce. split; usimpl; try done. rewrite E. done.
Qed.

Lemma inv_ensure s b s' : tap_inv s -> ensureOutWriter s = (b, s') ->
  tap_inv s' /\ (b = true -> t_wOut (fst s') = true) /\ follows s s'.
Proof.
  destruct s as [t w]. intros H. unfold ensureOutWriter.
  destruct (outOpenFailed t); [by intros [= <- <-]|]. destruct (t_wOut t) eqn:E; [by intros [= <- <-]|].
  pose proof H as [H0 H1 H2 H3 H4 H5]. cbn [fst snd] in *. rewrite E in H2.
  destruct (answer (opens w)) as [[] plan]; intros [= <- <-].
  - split; [|split; [done|]]; [split; usimpl; try done; by apply side_opened|].
    apply follows_same; [done|]. usimpl. by destruct H2 as (-> & _).
  - edestruct inv_logOnce as [Hi Hf]; [|split; [exact Hi|split; [done|]]].
    + split; usimpl; try done. by rewrite E.
    + etransitivity; [|exact Hf]. by apply follows_same.
Qed.

Lemma inv_append s buf k : tap_inv s -> t_wOut (fst s) = true -> 1 <= k ->
  tap_inv (appendOutFrames buf k s) /\ t_wOut (fst (appendOutFrames buf k s)) = true /\
  (Forall (fun b => b = silenceByte) buf -> follows s (appendOutFrames buf k s)).
Proof.
  destruct s as [t w]. intros [H0 H1 H2 H3 H4 H5] Ht Hk. cbn [fst snd] in *. rewrite Ht in H2.
  unfold appendOutFrames. destruct (accepted (writes w) buf) as [n plan] eqn:Ea.
  assert (n <= length buf)%nat as Hn by (unfold accepted in Ea; destruct (writes w); injection Ea as <- <-; lia).
  pose proof (side_append _ _ _ buf n k H2 Hn Hk) as Hs. cbv zeta in Hs.
  set (w' := w <| writes := plan |> <| out_file ::= _ |>).
  destruct (short_write (n <? length buf)%nat l0 t w' H5) as [lg ->]. destruct (0 <? n)%nat; (split; [|split]); try done;
    try (split; usimpl; try done; by rewrite Ht).
  all: intros Hf; destruct H2 as (c & E & _); split; [done|]; exists (take n buf); usimpl; rewrite E;
    split; [done | by apply Forall_take].
Qed.

(** Changes of the tap that the files and counters do not see. *)
Lemma inv_tap t t' w : tap_inv (t, w) ->
  closed t' = closed t -> t_w t' = t_w t -> t_wOut t' = t_wOut t -> frames t' = frames t -> t_bytes t' = t_bytes t ->
  outFrames t' = outFrames t -> outBytes t' = outBytes t -> logged t' = logged t -> dropLogged t' = dropLogged t ->
  tap_inv (t', w).
Proof. intros [H0 H1 H2 H3 H4 H5] E0 E1 E2 E3 E4 E5 E6 E7 E8. split; cbn [fst snd] in *; congruence. Qed.

Lemma inv_add d s : tap_inv s -> tap_inv (fedThrough_Add d s) /\ t_wOut (fst (fedThrough_Add d s)) = t_wOut (fst s) /\
  follows s (fedThrough_Add d s).
Proof. destruct s as [t w]. intros H. split; [by eapply inv_tap|]. split; [done|]. by apply follows_same. Qed.

Lemma inv_fill_loop fuel n chunk sil s : tap_inv s -> t_wOut (fst s) = true -> 1 <= chunk ->
  Forall (fun b => b = silenceByte) sil ->
  let s' := fill_loop fuel n chunk sil s in tap_inv s' /\ t_wOut (fst s') = true /\ follows s s'.
Proof.
  intros H Ht Hc Hsil. revert n s H Ht. induction fuel as [|fuel IH]; intros n s H Ht; simpl; [done|].
  destruct (Z.ltb_spec 0 n); [|done].
  destruct (inv_append s (take (Z.to_nat (Z.min n chunk) * defaultFrameBytes) sil) (Z.min n chunk)) as (H1 & H2 & H3); [done | done | lia|].
  edestruct (inv_add (Z.min n chunk * frameDur)) as (H4 & H5 & H6); [exact H1|].
  destruct (IH (n - chunk `min` n) _ H4) as (H7 & H8 & H9); [congruence|].
  replace (n - Z.min n chunk) with (n - chunk `min` n) by lia.
  split; [done|]. split; [done|]. etransitivity; [by apply H3, Forall_take|]. by etransitivity.
Qed.

Lemma inv_fillOutGap now s : tap_inv s -> t_wOut (fst s) = true ->
  tap_inv (fillOutGap now s) /\ t_wOut (fst (fillOutGap now s)) = true /\ follows s (fillOutGap now s).
Proof.
  destruct s as [t w]. intros H Ht. unfold fillOutGap. destruct (fedThrough t).
  - destruct (Z.leb_spec (Z.quot (time_Sub now z) frameDur) 0); [done|].
    apply inv_fill_loop; [done..| |by apply Forall_replicate]. unfold silenceChunkFrames. case_match; lia.
  - split; [by eapply inv_tap|]. split; [done|]. by apply follows_same.
Qed.

Lemma inv_close_writer b s : tap_inv s -> tap_inv (close_writer b s) /\ follows s (close_writer b s).
Proof.
  destruct s as [t w]. intros H. unfold close_writer. destruct b; [|done].
  destruct (answer (closes w)) as [[] plan]; [split; [|by apply follows_same]; by destruct H; split; usimpl|].
  edestruct inv_logOnce as [Hi Hf]; [|split; [exact Hi|]]; [by destruct H; split; usimpl|].
  etransitivity; [|exact Hf]. by apply follows_same.
Qed.
End Inv.

(** ** The operations on a live tap *)

Section Ops.
Context (l0 : nat) (rm : list bool * list bool).
Notation inv := (tap_inv false l0 rm).

Lemma inv_in p s : inv s -> inv (WriteIn p s).
Proof.
  destruct s as [t w]. intros H. unfold WriteIn. case_bool_decide as Hp; [done|]. cbn [fst].
  destruct (_ || _); [done|]. destruct (openIn (t, w)) as [b s'] eqn:Eo.
  apply (inv_openIn _ _ _ _ _ _ H) in Eo as [H' Ht]. destruct b; [|done]. specialize (Ht eq_refl). clear H. clear t w.
  destruct s' as [t w]. destruct (accepted (writes w) p) as [n plan] eqn:Ea.
  assert (n <= length p)%nat as Hn by (unfold accepted in Ea; destruct (writes w); injection Ea as <- <-; lia).
  pose proof H' as [H0 H1 H2 H3 H4 H5]. cbn [fst snd] in *. rewrite Ht in H1.
  pose proof (side_append _ _ _ p n 1 H1 Hn) as Hs. cbv zeta in Hs.
  set (w' := w <| writes := plan |> <| in_file ::= _ |>).
  destruct (short_write (n <? length p)%nat l0 t w' H5) as [lg ->]. destruct (0 <? n)%nat; split; usimpl; try done; rewrite Ht.
  - rewrite <- Z.add_1_l. apply Hs. lia.
  - apply Hs. lia.
Qed.

Lemma inv_out p now s : inv s -> inv (WriteOut p now s).
Proof.
  destruct s as [t w]. intros H. unfold WriteOut. case_bool_decide; [done|]. destruct (_ || _); [done|].
  destruct (negb (duplex t)).
  - destruct (ensureOutWriter (t, w)) as [b s'] eqn:Eo. apply (inv_ensure _ _ _ _ _ _ H) in Eo as (H' & Ht & _).
    destruct b; [|done]. specialize (Ht eq_refl). destruct (inv_fillOutGap _ _ _ now s' H' Ht) as (H1 & H2 & _).
    destruct (inv_append _ _ _ _ p 1 H1 H2) as (H3 & _); [lia|]. by destruct (inv_add _ _ _ (MuLawDuration (Z.of_nat (length p))) _ H3).
  - set (t1 := match outQueue t with [] => _ | _ => t end).
    assert (inv (t1, w)) as H' by (subst t1; case_match; [by eapply inv_tap | done]). clearbody t1.
    destruct (_ =? _)%nat; [apply inv_logDropOnce|]; by eapply inv_tap.
Qed.

Lemma nextOutFrame_inv cl t w : tap_inv cl l0 rm (t, w) -> t_wOut t = true ->
  tap_inv cl l0 rm (snd (nextOutFrame t), w) /\ t_wOut (snd (nextOutFrame t)) = true.
Proof. intros H Ht. unfold nextOutFrame. case_match; [split; [by eapply inv_tap | done] | done]. Qed.

Lemma inv_drain s : inv s -> inv (DrainOut s).
Proof.
  destruct s as [t w]. intros H. unfold DrainOut. cbn [fst]. destruct (_ || _); [done|].
  destruct (ensureOutWriter (t, w)) as [b [t' w']] eqn:Eo. apply (inv_ensure _ _ _ _ _ _ H) in Eo as (H' & Ht & _).
  destruct b; [|done]. destruct (nextOutFrame_inv _ _ _ H' (Ht eq_refl)) as [H1 H2].
  destruct (nextOutFrame t') as [f t'']. by destruct (inv_append _ _ _ _ f 1 H1 H2) as (H3 & _); [lia|].
Qed.

Lemma tap_inv_run ops s : inv s -> inv (tap_run ops s).
Proof.
  revert s. induction ops as [|o ops IH]; intros s H; simpl; [done|]. apply IH.
  destruct o; [by apply inv_in | by apply inv_out | by apply inv_drain].
Qed.
End Ops.

(** ** Close *)

(** What is left of a file: nothing when no byte landed. *)
Definition kept (f f' : option bytes) (nb : Z) : Prop :=
  match content f with [] => f' = None /\ nb = 0 | c => f' = Some c /\ nb = Z.of_nat (length c) end.

Lemma side_content opened f nf nb : side_ok opened f nf nb ->
  nb = Z.of_nat (length (content f)) /\ (nf = 0 <-> content f = []) /\ (opened = false -> f = None) /\ (f = None -> opened = false).
Proof.
  destruct opened; simpl.
  - intros (c & -> & _ & Hz & ->). by repeat split; try apply Hz.
  - intros (-> & -> & ->). done.
Qed.

Lemma close_writers_inv cl l0 rm s : tap_inv cl l0 rm s ->
  tap_inv cl l0 rm (closeWriters s) /\ follows s (closeWriters s).
Proof.
  intros H. unfold closeWriters. edestruct inv_close_writer as [H1 F1]; [exact H|].
  edestruct inv_close_writer as [H2 F2]; [exact H1|]. split; [exact H2|]. etransitivity; [exact F1 | exact F2].
Qed.

Lemma side_kept opened f nf nb : side_ok opened f nf nb ->
  kept f (if opened && (nf =? 0) then None else f) nb.
Proof.
  unfold kept. destruct opened; simpl.
  - intros (c & -> & _ & Hz & ->). destruct (Z.eqb_spec nf 0) as [E|E]; simpl.
    + by rewrite (proj1 Hz E).
    + destruct c; [by destruct E; apply Hz | done].
  - intros (-> & -> & ->). done.
Qed.

(** Unlinks that succeed. *)
Lemma remove_if_ok b u t w : Forall (eq true) (removes w) ->
  exists plan, remove_if b u (t, w) = (t, if b then u (w <| removes := plan |>) else w) /\ Forall (eq true) plan.
Proof.
  intros Hw. unfold remove_if. destruct b; [|by exists (removes w)].
  destruct (removes w) as [|b l]; simpl; [by exists []|]. apply Forall_cons in Hw as [<- Hw]. by exists l.
Qed.

Lemma remove_empty cl l0 rm scs s : tap_inv cl l0 (rm, scs) s -> Forall (eq true) rm ->
  let s' := removeEmptyRecordings s in
  fst s' = fst s /\ kept (in_file (snd s)) (in_file (snd s')) (t_bytes (fst s)) /\
  kept (out_file (snd s)) (out_file (snd s')) (outBytes (fst s)) /\
  sidecar_file (snd s') = None /\ log_lines (snd s') = log_lines (snd s) /\ sidecars (snd s') = scs.
Proof.
  destruct s as [t w]. intros [_ H1 H2 H3 H4 _] Hrm. cbn [fst snd] in *. injection H4 as H4 H4'. rewrite <- H4 in Hrm.
  apply side_kept in H1, H2. unfold removeEmptyRecordings. cbn [fst].
  destruct (remove_if_ok (t_w t && (frames t =? 0)) (fun w => w <| in_file := None |>) t w Hrm) as (p1 & -> & Hp1).
  match goal with |- context [remove_if _ _ (t, ?x)] => set (w1 := x) end.
  destruct (remove_if_ok (t_wOut t && (outFrames t =? 0)) (fun w => w <| out_file := None |>) t w1) as (p2 & -> & _);
    [by subst w1; destruct (t_w t && (frames t =? 0))|].
  subst w1. cbn [fst snd]. split; [done|].
  destruct (t_w t && (frames t =? 0)), (t_wOut t && (outFrames t =? 0)); usimpl; by repeat split.
Qed.

Lemma inv_start l0 dir sid csid lbl at_ opts t w : NewTap dir sid csid lbl at_ [WithChannels opts] = Some t ->
  no_files w -> l0 = log_lines w -> tap_inv false l0 (removes w, sidecars w) (t, w).
Proof.
  unfold NewTap. case_bool_decide; [done|]. cbn [foldl]. intros [= <-] (H1 & H2 & H3) ->.
  unfold WithChannels. case_match; split; usimpl; try done; lia.
Qed.

(** The last statements of [Close]. *)
Definition finish_close (s : st) : st :=
  if (frames (fst s) =? 0) && (outFrames (fst s) =? 0) then s else writeSidecar s.

Lemma close_shape l0 rm now s : tap_inv false l0 rm s ->
  exists sm, Close now s = finish_close (removeEmptyRecordings sm) /\ tap_inv true l0 rm sm /\ follows s sm.
Proof.
  destruct s as [t w]. intros H. pose proof (ti_closed _ _ _ _ H) as Hc. cbn [fst] in Hc. unfold Close. rewrite Hc.
  assert (H' : tap_inv true l0 rm (t <| closed := true |>, w)) by (destruct H; split; usimpl; done).
  set (t' := t <| closed := true |>) in *.
  set (sm := if negb (duplex t') && hasChannel ChannelOut t' && is_some (fedThrough t')
             then match ensureOutWriter (t', w) with (true, s) => fillOutGap now s | (false, s) => s end else (t', w)).
  exists (closeWriters sm).
  assert (tap_inv true l0 rm sm /\ follows (t, w) sm) as [Hm Fm].
  { subst sm. assert (follows (t, w) (t <| closed := true |>, w)) as F by (by apply follows_same).
    destruct (_ && _); [|done]. destruct (ensureOutWriter _) as [b s'] eqn:Eo.
    apply (inv_ensure _ _ _ _ _ _ H') in Eo as (H1 & Ht & F1). assert (follows (t, w) s') by (by etransitivity).
    destruct b; [|done]. destruct (inv_fillOutGap _ _ _ now s' H1 (Ht eq_refl)) as (H2 & _ & F2). split; [done | by etransitivity]. }
  apply close_writers_inv in Hm as [Hm F]. split; [reflexivity|]. split; [done | by etransitivity].
Qed.

Lemma finish_close_spec s : closed (fst s) = true -> sidecar_file (snd s) = None ->
  let s' := finish_close s in
  in_file (snd s') = in_file (snd s) /\ out_file (snd s') = out_file (snd s) /\ closed (fst s') = true /\
  (sidecar_file (snd s') = None \/
   sidecar_file (snd s') = Some (sidecar_of (fst s)) /\ (frames (fst s) <> 0 \/ outFrames (fst s) <> 0)) /\
  (sidecars (snd s) = [] -> frames (fst s) <> 0 \/ outFrames (fst s) <> 0 -> sidecar_file (snd s') <> None) /\
  (log_lines (snd s') + b2n (logged (fst s)) <= log_lines (snd s) + 1)%nat.
Proof.
  destruct s as [t w]. intros Hc Hs. cbn [fst snd] in *. unfold finish_close. cbn [fst].
  assert (b2n (logged t) <= 1)%nat by (destruct (logged t); simpl; lia).
  destruct (Z.eqb_spec (frames t) 0), (Z.eqb_spec (outFrames t) 0); cbn [andb].
  { cbn [fst snd]. intuition lia. }
  all: unfold writeSidecar; destruct (sidecars w) as [|[] l]; cbn [answer]; unfold logOnce; try (destruct (logged t));
    usimpl; rewrite ?Hs, ?Hc; repeat split; try done; try lia; try (by left); try (right; split; [done | by auto]).
Qed.

(** For any channels, any operations and any failures of opening, writing, closing or
    the sidecar, closing a tap keeps every byte that landed, adds only silence, removes
    exactly the empty recordings, writes a sidecar only beside a recording and with its byte
    count, logs at most two lines, and leaves the tap closed for good. *)
Theorem recordings_kept dir sid csid lbl at_ chs ops now t w :
  NewTap dir sid csid lbl at_ [WithChannels chs] = Some t -> no_files w -> Forall (eq true) (removes w) ->
  let s1 := tap_run ops (t, w) in
  let s2 := Close now s1 in
  content (in_file (snd s2)) = content (in_file (snd s1)) /\
  (exists z, content (out_file (snd s2)) = content (out_file (snd s1)) ++ z /\ Forall (fun b => b = silenceByte) z) /\
  in_file (snd s2) <> Some [] /\ out_file (snd s2) <> Some [] /\
  (sidecars w = [] -> sidecar_file (snd s2) = None <-> in_file (snd s2) = None /\ out_file (snd s2) = None) /\
  (forall sc, sidecar_file (snd s2) = Some sc ->
     sc_Bytes sc = Z.of_nat (length (content (in_file (snd s2)))) /\
     (in_file (snd s2) <> None \/ out_file (snd s2) <> None)) /\
  (log_lines (snd s2) <= log_lines w + 2)%nat /\
  (forall o, tap_step o s2 = s2) /\ (forall now', Close now' s2 = s2).
Proof.
  intros Ht Hf Hrm s1 s2.
  pose proof (tap_inv_run _ _ ops _ (inv_start _ _ _ _ _ _ _ _ _ Ht Hf eq_refl)) as H1. fold s1 in H1.
  destruct (close_shape _ _ now _ H1) as (sm & E2 & Hm & Fi & z & Fo & Hz). fold s2 in E2.
  destruct (remove_empty _ _ _ _ _ Hm Hrm) as (Et & Ki & Ko & Hns & Hl & Hsc).
  pose proof Hm as [Hcl Si So _ _ Hlog]. rewrite <- Et in Hcl.
  destruct (finish_close_spec _ Hcl Hns) as (Ei & Eo & Hcl2 & Hside & Hside2 & Hlog2). rewrite <- E2 in *. rewrite Et in *.
  apply side_content in Si as (Ebi & Zi & _), So as (Ebo & Zo & _). rewrite Ei, Eo.
  assert (Hin : content (in_file (removeEmptyRecordings sm).2) = content (in_file sm.2) /\
     in_file (removeEmptyRecordings sm).2 <> Some [] /\
     (in_file (removeEmptyRecordings sm).2 = None <-> frames sm.1 = 0)).
  { unfold kept in Ki. rewrite Zi. destruct (content (in_file sm.2)) as [|b l]; destruct Ki as [-> _]; by repeat split. }
  assert (Hout : content (out_file (removeEmptyRecordings sm).2) = content (out_file sm.2) /\
     out_file (removeEmptyRecordings sm).2 <> Some [] /\
     (out_file (removeEmptyRecordings sm).2 = None <-> outFrames sm.1 = 0)).
  { unfold kept in Ko. rewrite Zo. destruct (content (out_file sm.2)) as [|b l]; destruct Ko as [-> _]; by repeat split. }
  destruct Hin as (-> & Hni & Hin), Hout as (-> & Hno & Hout). rewrite Hin, Hout, Fi, Fo.
  split; [done|]. split; [by exists z|]. split; [done|]. split; [done|]. split; [|split; [|split; [|split]]].
  - intros Hs. rewrite Hs in Hsc. specialize (Hside2 Hsc).
    destruct (decide (frames sm.1 = 0)), (decide (outFrames sm.1 = 0)); try tauto.
  - intros sc E. destruct Hside as [?|[E' Hor]]; [congruence|]. rewrite E in E'. injection E' as ->. split; [|tauto].
    simpl. by rewrite Ebi, Fi.
  - rewrite Hl, Hlog in Hlog2. assert (b2n (dropLogged sm.1) <= 1)%nat by (destruct (dropLogged sm.1); simpl; lia). lia.
  - intros o. destruct s2 as [t2 w2]. cbn [fst] in Hcl2. destruct o; simpl; unfold WriteIn, WriteOut, DrainOut; cbn [fst]; rewrite Hcl2; simpl; by repeat case_match.
  - intros now'. destruct s2 as [t2 w2]. cbn [fst] in Hcl2. unfold Close. by rewrite Hcl2.
Qed.

(** The caller's file cannot be opened; the agent's recording is kept, with a
    sidecar that counts no inbound byte. *)
Lemma recordings_kept_witness :
  let t := mkTap "MZ1" "CA1" "tap" "l" 0 false false [] O O O [ChannelIn; ChannelOut]
    None false false false 0 0 0 0 0 false false in
  let w := mkWorld None None None [false] [2%nat] [] [true] [] O in
  let s1 := tap_run [OpIn [1; 2]; OpOut [3; 4; 5] 0; OpDrain] (t, w) in
  let s2 := Close 0 s1 in
  (in_file (snd s2) = None /\ out_file (snd s2) = Some [3; 4] /\ log_lines (snd s2) = 1%nat) /\
  content (in_file (snd s2)) = content (in_file (snd s1)) /\
  (exists z, content (out_file (snd s2)) = content (out_file (snd s1)) ++ z /\ Forall (fun b => b = silenceByte) z) /\
  in_file (snd s2) <> Some [] /\ out_file (snd s2) <> Some [] /\
  (sidecars w = [] -> sidecar_file (snd s2) = None <-> in_file (snd s2) = None /\ out_file (snd s2) = None) /\
  (forall sc, sidecar_file (snd s2) = Some sc ->
     sc_Bytes sc = Z.of_nat (length (content (in_file (snd s2)))) /\
     (in_file (snd s2) <> None \/ out_file (snd s2) <> None)) /\
  (log_lines (snd s2) <= log_lines w + 2)%nat /\
  (forall o, tap_step o s2 = s2) /\ (forall now', Close now' s2 = s2).
Proof.
  cbv zeta. split; [repeat split; vm_compute; reflexivity|].
  apply (recordings_kept "tap" "MZ1" "CA1" "l" 0 []); [reflexivity | repeat split | by repeat constructor].
Defined.
