(* ===== verification/TapTimeline.v ===== *)
(** * TapTimeline: the outbound-only recording

    With no inbound frames to clock it, [Tap] (telephony/twilio/tap.go) paces
    out.ulaw by the wall clock: [fillOutGap] writes whole frames of silence.  The
    theorem says where each payload lands. *)

From S2P Require Import TapRing.

(** 20 ms, and the playout of [n] bytes. *)
Definition frame_ns : Z := 20 * Millisecond.
Definition bytes_ns (n : nat) : Z := 125000 * Z.of_nat n.

Lemma frameDur_20ms : frameDur = frame_ns.
Proof. reflexivity. Qed.

Definition silent_frames (g : nat) : bytes := replicate (g * defaultFrameBytes) silenceByte.

(** The tap has been recording outbound audio [c] up to the instant [at_]. *)
Record recording (cl : bool) (s : st) (c : bytes) (at_ : Z) : Prop := {
  rc_closed : closed (fst s) = cl;
  rc_live : outOpenFailed (fst s) = false;
  rc_chan : channels (fst s) = [ChannelOut];
  rc_world : healthy (snd s);
  rc_out : t_wOut (fst s) = true /\ out_file (snd s) = Some c;
  rc_in : t_w (fst s) = false /\ in_file (snd s) = None /\ frames (fst s) = 0;
  rc_fed : fedThrough (fst s) = Some at_;
  rc_count : 0 <= outFrames (fst s) /\ (outFrames (fst s) = 0 -> c = [])
}.

Lemma out_only t : channels t = [ChannelOut] -> duplex t = false /\ hasChannel ChannelOut t = true.
Proof. unfold duplex, hasChannel. intros ->. by vm_compute. Qed.

Lemma append_recording cl s c at_ buf k : recording cl s c at_ -> 1 <= k -> buf <> [] ->
  recording cl (appendOutFrames buf k s) (c ++ buf) at_.
Proof.
  destruct s as [t w]. intros [H0 H1 H2 (H3 & H3' & H3'') [H4 H5] H6 H7 [H8 _]] Hk Hb. cbn [fst snd] in *.
  unfold appendOutFrames. rewrite H3', accepted_all, Nat.ltb_irrefl, firstn_all. destruct buf as [|b buf]; [done|].
  split; usimpl; try done; rewrite ?H5; try done. split; lia.
Qed.

Lemma add_recording cl s c at_ d : recording cl s c at_ -> recording cl (fedThrough_Add d s) c (at_ + d).
Proof.
  destruct s as [t w]. intros [H0 H1 H2 H3 H4 H6 H7 H8]. split; usimpl; try done. rewrite H7. simpl. f_equal. lia.
Qed.

Lemma silent_take chunk n : (n <= chunk)%nat ->
  take (n * defaultFrameBytes) (silent_frames chunk) = silent_frames n.
Proof. intros. unfold silent_frames. rewrite take_replicate. f_equal. nia. Qed.

Lemma silent_app n m : silent_frames n ++ silent_frames m = silent_frames (n + m).
Proof. unfold silent_frames. by rewrite <- replicate_add, Nat.mul_add_distr_r. Qed.

Lemma fill_loop_recording fuel n chunk s cl c at_ : recording cl s c at_ -> 0 <= n -> (Z.to_nat n <= fuel)%nat -> 1 <= chunk ->
  recording cl (fill_loop fuel n chunk (silent_frames (Z.to_nat chunk)) s) (c ++ silent_frames (Z.to_nat n)) (at_ + n * frame_ns).
Proof.
  intros H Hn Hf Hc. revert n s c at_ H Hn Hf. induction fuel as [|fuel IH]; intros n s c at_ H Hn Hf; simpl.
  { assert (n = 0) as -> by lia. simpl. by rewrite app_nil_r, Z.add_0_r. }
  destruct (Z.ltb_spec 0 n) as [Hp|Hp]; [|assert (n = 0) as -> by lia; simpl; by rewrite app_nil_r, Z.add_0_r].
  rewrite silent_take, frameDur_20ms by lia.
  apply append_recording with (buf := silent_frames (Z.to_nat (Z.min n chunk))) (k := Z.min n chunk) in H; [|lia|].
  2:{ unfold silent_frames, defaultFrameBytes. intros E. apply (f_equal length) in E. rewrite length_replicate in E. simpl in E. lia. }
  apply (add_recording _ _ _ _ (Z.min n chunk * frame_ns)) in H. apply (IH (n - Z.min n chunk)) in H; [|lia..].
  rewrite <- app_assoc, silent_app in H. replace (Z.to_nat (Z.min n chunk) + Z.to_nat (n - Z.min n chunk))%nat with (Z.to_nat n) in H by lia.
  by replace (at_ + n * frame_ns) with (at_ + Z.min n chunk * frame_ns + (n - Z.min n chunk) * frame_ns) by ring.
Qed.

(** The whole frames of silence that fit between [at_] and [now]. *)
Definition gap (at_ now : Z) : nat := Z.to_nat ((now - at_) / frame_ns).

Lemma quot_gap d : Z.quot d frame_ns <= 0 /\ Z.to_nat (d / frame_ns) = O \/
  0 < Z.quot d frame_ns /\ Z.quot d frame_ns = d / frame_ns.
Proof.
  unfold frame_ns. change (20 * Millisecond) with 20000000. destruct (Z.le_gt_cases 0 d) as [Hd|Hd].
  - rewrite Z.quot_div_nonneg by lia. destruct (Z.le_gt_cases (d / 20000000) 0); [left | right]; lia.
  - left. pose proof (Z.quot_opp_l d 20000000 ltac:(lia)). pose proof (Z.quot_pos (- d) 20000000 ltac:(lia) ltac:(lia)).
    pose proof (Z.div_lt_upper_bound d 20000000 0 ltac:(lia) ltac:(lia)). lia.
Qed.

(** The saturation of [Sub] does not show. *)
Lemma gap_sub now at_ : now - at_ < 2 ^ 63 -> Z.to_nat (time_Sub now at_ / frame_ns) = gap at_ now.
Proof.
  intros H. unfold gap, time_Sub, frame_ns. change (20 * Millisecond) with 20000000.
  destruct (Z.le_gt_cases (- 2 ^ 63) (now - at_)); [do 2 f_equal; lia|].
  pose proof (Z.div_lt_upper_bound (now - at_) 20000000 0 ltac:(lia) ltac:(lia)).
  replace (Z.max (- 2 ^ 63) (Z.min (2 ^ 63 - 1) (now - at_))) with (- 2 ^ 63) by lia.
  change (- 2 ^ 63 / 20000000) with (-461168601843). lia.
Qed.

Lemma fill_recording cl s c at_ now : recording cl s c at_ -> now - at_ < 2 ^ 63 ->
  recording cl (fillOutGap now s) (c ++ silent_frames (gap at_ now)) (at_ + Z.of_nat (gap at_ now) * frame_ns).
Proof.
  intros H Hb. destruct s as [t w]. unfold fillOutGap. pose proof (rc_fed _ _ _ _ H) as Hfed. cbn [fst] in Hfed. rewrite Hfed.
  rewrite frameDur_20ms, <- gap_sub by lia. destruct (quot_gap (time_Sub now at_)) as [[Hle E]|[Hgt E]].
  - replace (_ <=? 0) with true by lia. rewrite E, app_nil_r. by rewrite Z.add_0_r.
  - replace (_ <=? 0) with false by lia. rewrite E in *.
    assert (E' : Z.of_nat (Z.to_nat (time_Sub now at_ / frame_ns)) = time_Sub now at_ / frame_ns) by lia. rewrite E'.
    apply fill_loop_recording; [done | lia | lia |]. unfold silenceChunkFrames. case_match; lia.
Qed.

(** ** Where the payloads land *)

(** [placed at_ gs ps now g]: from the instant [at_] on, the recording is each
    payload of [ps] behind its gap of silent frames, then [g] silent frames.  A
    payload starts no more than a frame before it was written; a gap is only
    filled up to the present; and at [now] less than a frame is missing. *)
Fixpoint placed (at_ : Z) (gs : list nat) (ps : list (bytes * Z)) (now : Z) (g : nat) : Prop :=
  match gs, ps with
  | g0 :: gs, (p, t) :: ps =>
      let start := at_ + Z.of_nat g0 * frame_ns in
      t - frame_ns < start /\ (g0 <> O -> start <= t) /\ placed (start + bytes_ns (length p)) gs ps now g
  | [], [] =>
      let finish := at_ + Z.of_nat g * frame_ns in now - frame_ns < finish /\ (g <> O -> finish <= now)
  | _, _ => False
  end.

Fixpoint laid_out (gs : list nat) (ps : list (bytes * Z)) : bytes :=
  match gs, ps with g0 :: gs, (p, _) :: ps => silent_frames g0 ++ p ++ laid_out gs ps | _, _ => [] end.

Fixpoint in_time (t : Z) (ps : list (bytes * Z)) (now : Z) : Prop :=
  match ps with [] => t <= now | (_, u) :: ps => t <= u /\ in_time u ps now end.

Lemma gap_placed at_ now : now - frame_ns < at_ + Z.of_nat (gap at_ now) * frame_ns /\
  (gap at_ now <> O -> at_ + Z.of_nat (gap at_ now) * frame_ns <= now).
Proof.
  unfold gap, frame_ns. change (20 * Millisecond) with 20000000.
  pose proof (Z.div_mod (now - at_) 20000000 ltac:(lia)). pose proof (Z.mod_pos_bound (now - at_) 20000000 ltac:(lia)). lia.
Qed.

(** Payloads whose playout time an [int64] holds. *)
Definition payload_ok (x : bytes * Z) : Prop := fst x <> [] /\ Z.of_nat (length (fst x)) * Second < 2 ^ 63.

Lemma bytes_ns_exact p t : payload_ok (p, t) -> MuLawDuration (Z.of_nat (length p)) = bytes_ns (length p).
Proof. intros [_ H]. cbn [fst] in H. unfold bytes_ns. rewrite MuLawDuration_exact; lia. Qed.

Lemma WriteOut_alone t w p now : channels t = [ChannelOut] -> closed t = false -> p <> [] ->
  WriteOut p now (t, w) =
  match ensureOutWriter (t, w) with
  | (false, s) => s
  | (true, s) => s ▷ fillOutGap now ▷ appendOut p ▷ fedThrough_Add (MuLawDuration (Z.of_nat (length p)))
  end.
Proof.
  intros Hc Hl Hp. destruct (out_only t Hc) as [HD HO]. unfold WriteOut.
  rewrite bool_decide_eq_false_2 by (by destruct p). by rewrite Hl, HO, HD.
Qed.

(** [WriteOut] on a tap that is recording. *)
Lemma out_recording s c at_ p now : recording false s c at_ -> payload_ok (p, now) -> now - at_ < 2 ^ 63 ->
  let start := at_ + Z.of_nat (gap at_ now) * frame_ns in
  recording false (WriteOut p now s) (c ++ silent_frames (gap at_ now) ++ p) (start + bytes_ns (length p)).
Proof.
  intros H Hp Hb. destruct s as [t w]. pose proof H as [H0 H1 H2 _ [H3 _] _ _ _]. cbn [fst snd] in *.
  rewrite WriteOut_alone by (done || by destruct Hp). unfold ensureOutWriter. rewrite H1, H3.
  rewrite (bytes_ns_exact p now Hp), app_assoc. apply add_recording. apply append_recording; [|lia | by destruct Hp].
  by apply fill_recording.
Qed.

Lemma run_recording ps s c at_ t now : recording false s c at_ -> Forall payload_ok ps -> in_time t ps now -> now - at_ < 2 ^ 63 ->
  exists gs at', recording false (tap_run (map (fun x => OpOut x.1 x.2) ps) s) (c ++ laid_out gs ps) at' /\
    now - at' < 2 ^ 63 /\ forall g, now - frame_ns < at' + Z.of_nat g * frame_ns /\ (g <> O -> at' + Z.of_nat g * frame_ns <= now) ->
      placed at_ gs ps now g.
Proof.
  revert s c at_ t. induction ps as [|[p u] ps IH]; intros s c at_ t H Hok Hin Hb.
  - exists [], at_. simpl. rewrite app_nil_r. split; [done|]. split; [done|]. intros g Hg. exact Hg.
  - apply Forall_cons in Hok as [Hp Hok]. destruct Hin as [_ Hin]. cbn [map tap_run tap_step fst snd].
    assert (Hu : u <= now) by (clear -Hin; revert u Hin; induction ps as [|[? v] ps IH]; simpl; intros u; [done|]; intros [? H]; specialize (IH _ H); lia).
    pose proof (out_recording _ _ _ _ _ H Hp ltac:(lia)) as H'. cbv zeta in H'.
    destruct (IH _ _ _ _ H' Hok Hin) as (gs & at' & Hr & Hat & Hpl); [unfold frame_ns, bytes_ns, Millisecond; lia|].
    exists (gap at_ u :: gs), at'. rewrite <- !app_assoc in Hr. split; [done|]. split; [done|]. intros g Hg. cbn [placed].
    destruct (gap_placed at_ u). split; [done|]. split; [done|]. by apply Hpl.
Qed.

Lemma first_recording sid csid lbl at0 dir t w p now : NewTap dir sid csid lbl at0 [WithChannels [ChannelOut]] = Some t ->
  healthy w -> no_files w -> payload_ok (p, now) ->
  recording false (WriteOut p now (t, w)) p (now + bytes_ns (length p)).
Proof.
  unfold NewTap. case_bool_decide; [done|]. cbn [foldl]. intros [= <-] (Hh1 & Hh2 & Hh) (Hf1 & Hf2 & Hf3) Hp.
  rewrite WriteOut_alone by (done || by destruct Hp). unfold ensureOutWriter. simpl. rewrite Hh1. cbn [answer].
  rewrite (bytes_ns_exact p now Hp).
  apply add_recording. change p with ([] ++ p) at 2. apply append_recording; [|lia | by destruct Hp].
  split; usimpl; try done; by rewrite ?Hf2.
Qed.

Lemma close_recording s c at_ now : recording false s c at_ -> c <> [] -> now - at_ < 2 ^ 63 ->
  let w' := snd (Close now s) in
  out_file w' = Some (c ++ silent_frames (gap at_ now)) /\ in_file w' = None /\
  exists sc, sidecar_file w' = Some sc /\ sc_Alignment sc = outboundWallClockAlignment /\ sc_Channels sc = ["out"] /\ sc_Frames sc = 0.
Proof.
  intros H Hc Hb. destruct s as [t w]. pose proof H as [H0 H1 H2 _ [H3 _] _ H6 _]. cbn [fst snd] in *.
  destruct (out_only t H2) as [HD HO]. unfold Close. rewrite H0. set (t' := t <| closed := true |>).
  assert (H' : recording true (t', w) c at_) by (destruct H; split; done).
  cbv zeta. change (duplex t') with (duplex t). change (hasChannel ChannelOut t') with (hasChannel ChannelOut t).
  change (fedThrough t') with (fedThrough t). rewrite HD, HO, H6. cbn [negb andb is_some].
  assert (ensureOutWriter (t', w) = (true, (t', w))) as ->.
  { unfold ensureOutWriter. change (outOpenFailed t') with (outOpenFailed t). change (t_wOut t') with (t_wOut t). by rewrite H1, H3. }
  apply (fill_recording _ _ _ _ now) in H'; [|done]. cbv beta iota zeta. destruct (fillOutGap now (t', w)) as [t2 w2].
  clear t' H H0 H1 H2 H3 H6 HD HO.
  destruct H' as [_ _ Hch (_ & _ & Hcl & Hrm & Hsc) [Ho Hout] (Hi & Hin & Hfr) _ [_ Hcnt]]. cbn [fst snd] in *.
  assert (outFrames t2 <> 0) as Hn by (intros E; apply Hcnt in E; by apply app_eq_nil in E as [-> _]).
  unfold closeWriters, close_writer, removeEmptyRecordings. cbn [fst]. rewrite Hi, Ho, Hcl. cbn [answer].
  unfold remove_if. usimpl. rewrite Hi, Ho, Hfr. replace (outFrames t2 =? 0) with false by lia. simpl.
  rewrite Hfr. replace (outFrames t2 =? 0) with false by lia. simpl. rewrite Hsc. usimpl.
  split; [done|]. split; [done|]. eexists. split; [reflexivity|]. destruct (out_only t2 Hch) as [HD HO].
  cbn [sc_Alignment sc_Channels sc_Frames sidecar_of]. unfold alignment, declaredChannels. by rewrite HD, HO, Hch, Hfr.
Qed.

(** An outbound-only recording places each payload at the byte offset of its arrival,
    to within one 20 ms frame: between payloads lies exactly the silence that fills the
    whole frames of the gap, and the tail is padded to the closing time. *)
Theorem outbound_timeline dir sid csid lbl at0 t w p t0 ps now :
  NewTap dir sid csid lbl at0 [WithChannels [ChannelOut]] = Some t -> healthy w -> no_files w ->
  Forall payload_ok ((p, t0) :: ps) -> in_time t0 ps now -> now - t0 < 2 ^ 63 ->
  let writes := (p, t0) :: ps in
  let w' := snd (Close now (tap_run (map (fun x => OpOut x.1 x.2) writes) (t, w))) in
  exists gs g, placed t0 (O :: gs) writes now g /\
    out_file w' = Some (laid_out (O :: gs) writes ++ silent_frames g) /\ in_file w' = None /\
    exists sc, sidecar_file w' = Some sc /\ sc_Alignment sc = outboundWallClockAlignment /\ sc_Channels sc = ["out"] /\ sc_Frames sc = 0.
Proof.
  intros Ht Hh Hf Hok Hin Hb writes w'. apply Forall_cons in Hok as [Hp Hok].
  pose proof (first_recording _ _ _ _ _ _ _ _ t0 Ht Hh Hf Hp) as H1.
  destruct (run_recording ps _ _ _ t0 now H1 Hok Hin) as (gs & at' & Hr & Hat & Hpl); [unfold bytes_ns; lia|].
  destruct (close_recording _ _ _ now Hr) as (Ho & Hi & Hs); [by (destruct Hp as [Hp _]; destruct p) | done|].
  exists gs, (gap at' now). subst w'. cbn [writes map tap_run tap_step fst snd]. split; [|split; [|done]].
  - cbn [placed]. rewrite Z.mul_0_l, Z.add_0_r. unfold frame_ns at 1, Millisecond. split; [lia|]. split; [done|].
    apply Hpl, gap_placed.
  - by rewrite Ho.
Qed.

(** Two frames 50 ms apart, the call ending at 95 ms: 30 ms of gap holds one
    silent frame, and two fit in what is left. *)
Lemma outbound_timeline_witness :
  let w := mkWorld None None None [] [] [] [] [] O in
  let t := WithChannels [ChannelOut] (mkTap "MZ1" "CA1" "tap" "l" 0 false false [] O O O [ChannelIn; ChannelOut]
    None false false false 0 0 0 0 0 false false) in
  let ps := [(replicate 160 9, 50 * Millisecond)] in
  let writes := (replicate 160 8, 0) :: ps in
  let w' := snd (Close (95 * Millisecond) (tap_run (map (fun x => OpOut x.1 x.2) writes) (t, w))) in
  length (default [] (out_file w')) = 640%nat /\
  exists gs g, placed 0 (O :: gs) writes (95 * Millisecond) g /\
    out_file w' = Some (laid_out (O :: gs) writes ++ silent_frames g) /\ in_file w' = None /\
    exists sc, sidecar_file w' = Some sc /\ sc_Alignment sc = outboundWallClockAlignment /\ sc_Channels sc = ["out"] /\ sc_Frames sc = 0.
Proof.
  cbv zeta. split; [vm_compute; reflexivity|].
  apply (outbound_timeline "tap" "MZ1" "CA1" "l" 0);
    [reflexivity | by repeat split | by repeat split | repeat constructor; discriminate | vm_compute; intuition discriminate | reflexivity].
Defined.
