(* ===== verification/Tail.v ===== *)
(** * Tail: the last lines of a log

    Models [tailLines] and [sliceTail] of
    [cmd/aa-server-status/engine.go]: the file is read backward from its end in
    chunks until the last [n] lines are complete.  The theorem says the chunks
    do not show: the result is that of slicing the whole file. *)

From S2P Require Import GoStrings.

#[local] Open Scope N_scope.

Definition viewTailLines : nat := 50.
Definition viewWrapWidth : nat := 80.
Definition tailChunkSize : nat := N.to_nat 8192.
#[global] Arguments tailChunkSize : simpl never.

Definition newline : N := 10.
Definition is_nl (b : N) : bool := b =? newline.

(** [strings.Split(s, "\n")]. *)
Fixpoint split_nl (l : list N) : list (list N) :=
  match l with
  | [] => [[]]
  | b :: l =>
      if is_nl b then [] :: split_nl l
      else match split_nl l with h :: t => (b :: h) :: t | [] => [[b]] end
  end.

(** [for len(lines) > 0 && lines[len(lines)-1] == "" { drop the last }] *)
Fixpoint drop_empty (l : list (list N)) : list (list N) :=
  match l with [] :: l => drop_empty l | _ => l end.
Definition strip_trailing (l : list (list N)) : list (list N) := rev (drop_empty (rev l)).

(** [string([]rune(l)[:width])]: each rune re-encoded, an invalid byte as U+FFFD. *)
Definition rune_error : list N := [0xEF; 0xBF; 0xBD].

Definition first_rune (l : list N) : list N :=
  match l with
  | b :: _ => if (rune_len l =? 1)%nat && (0x80 <=? b) then rune_error else take (rune_len l) l
  | [] => []
  end.

Fixpoint runes (fuel : nat) (l : list N) : list (list N) :=
  match fuel, l with
  | S f, _ :: _ => first_rune l :: runes f (drop (rune_len l) l)
  | _, _ => []
  end.

Definition wrap (l : list N) : list N :=
  if (length l <=? viewWrapWidth)%nat then l
  else
    let r := runes (length l) l in
    if (viewWrapWidth <? length r)%nat then concat (take viewWrapWidth r) else l.

Definition sliceTail (buf : list N) (n : nat) (nowrap : bool) : list (list N) :=
  let lines := strip_trailing (split_nl buf) in
  let lines := if (n <? length lines)%nat then drop (length lines - n) lines else lines in
  if nowrap then map wrap lines else lines.

(** [ra.ReadAt(chunk, start)]: the bytes read, or an error that is not EOF. *)
Definition readerAt : Type := nat -> nat -> option (list N).

(** A file of fixed content. *)
Definition file_reader (data : list N) : readerAt := fun start len => Some (take len (drop start data)).

Definition count_nl (l : list N) : nat := length (List.filter is_nl l).

(** [len(chunk) - len(bytes.TrimRight(chunk, "\n"))] *)
Fixpoint leading_nl (l : list N) : nat := match l with b :: l => if is_nl b then S (leading_nl l) else O | [] => O end.
Definition trailing_nl (l : list N) : nat := leading_nl (rev l).

(** The loop's variables; [chunks] holds the chunks end-first. *)
Record tail_state := mkTail {
  frontier : nat; tail_chunks : list (list N); newlines : nat; trailing : nat; inTrailing : bool
}.

Definition read_chunk (chunk : list N) (start : nat) (s : tail_state) : tail_state :=
  let stripped := trailing_nl chunk in
  mkTail start (tail_chunks s ++ [chunk]) (newlines s + count_nl chunk)
    (if inTrailing s then trailing s + stripped else trailing s)
    (if inTrailing s then negb (stripped <? length chunk)%nat else false).

(** [for frontier := size; frontier > 0; { ... }]: each turn moves the frontier
    down, so [size] turns are enough. *)
Fixpoint tail_loop (fuel : nat) (ra : readerAt) (n : nat) (s : tail_state) : option tail_state :=
  match fuel with
  | O => Some s
  | S fuel =>
      if (0 <? frontier s)%nat then
        let readLen := Nat.min (frontier s) tailChunkSize in
        let start := (frontier s - readLen)%nat in
        match ra start readLen with
        | None => None
        | Some chunk =>
            let s := read_chunk chunk start s in
            if (Z.of_nat n <=? Z.of_nat (newlines s) - Z.of_nat (trailing s))%Z then Some s
            else tail_loop fuel ra n s
        end
      else Some s
  end.

Definition tailLines (ra : readerAt) (size n : nat) (nowrap : bool) : option (list (list N)) :=
  if (size =? 0)%nat then Some []
  else
    match tail_loop size ra n (mkTail size [] 0 0 true) with
    | None => None
    | Some s => Some (sliceTail (concat (rev (tail_chunks s))) n nowrap)
    end.

(** ** Splitting *)

Lemma split_nl_nonempty l : exists h t, split_nl l = h :: t.
Proof.
  induction l as [|b l (h & t & IH)]; simpl; [by eauto|]. rewrite IH. destruct (is_nl b); eauto.
Qed.

(** A piece that ends where a line is still open joins the next piece's first line. *)
Lemma split_nl_app a b : exists ia la hb tb,
  split_nl b = hb :: tb /\ split_nl (a ++ b) = ia ++ (la ++ hb) :: tb.
Proof.
  destruct (split_nl_nonempty b) as (hb & tb & Hb).
  induction a as [|x a (ia & la & hb' & tb' & Hb' & IH)]; simpl.
  - exists [], [], hb, tb. split; [done | by rewrite Hb].
  - exists (if is_nl x then [] :: ia else match ia with h :: t => (x :: h) :: t | [] => [] end),
      (if is_nl x then la else match ia with [] => x :: la | _ => la end), hb', tb'.
    split; [done|]. rewrite IH. destruct (is_nl x); [done|]. by destruct ia.
Qed.

Lemma drop_empty_app l l' : drop_empty l <> [] -> drop_empty (l ++ l') = drop_empty l ++ l'.
Proof. induction l as [|[|] l IH]; simpl; auto. done. Qed.

Lemma strip_trailing_app l l' : strip_trailing l' <> [] -> strip_trailing (l ++ l') = l ++ strip_trailing l'.
Proof.
  unfold strip_trailing. intros H. rewrite rev_app_distr, drop_empty_app, rev_app_distr, rev_involutive; [done|].
  intros E. rewrite E in H. done.
Qed.

Lemma drop_empty_length l : (length (drop_empty l) <= length l)%nat.
Proof. induction l as [|[|] l IH]; simpl; lia. Qed.

(** The last [n] lines of a text depend on its tail alone, once the tail holds
    [n] complete lines after its first. *)
Definition last_lines (n : nat) (lines : list (list N)) : list (list N) :=
  if (n <? length lines)%nat then drop (length lines - n) lines else lines.

Lemma last_lines_drop n l : last_lines n l = drop (length l - n) l.
Proof.
  unfold last_lines. destruct (Nat.ltb_spec n (length l)); [done|]. by replace (length l - n)%nat with 0%nat by lia.
Qed.

Lemma last_lines_app n l l' : (n <= length l')%nat -> last_lines n (l ++ l') = last_lines n l'.
Proof.
  intros H. rewrite !last_lines_drop, length_app, drop_app_ge by lia. f_equal. lia.
Qed.

Lemma sliceTail_suffix pre buf n nowrap hb tb :
  split_nl buf = hb :: tb -> (n <= length (strip_trailing tb))%nat ->
  sliceTail (pre ++ buf) n nowrap = sliceTail buf n nowrap.
Proof.
  intros Hb Hn. unfold sliceTail. fold (last_lines n (strip_trailing (split_nl (pre ++ buf)))).
  fold (last_lines n (strip_trailing (split_nl buf))).
  enough (last_lines n (strip_trailing (split_nl (pre ++ buf))) = last_lines n (strip_trailing (split_nl buf))) as -> by done.
  destruct (split_nl_app pre buf) as (ia & la & hb' & tb' & Hb' & ->). rewrite Hb in *. injection Hb' as <- <-.
  destruct n as [|n]; [by rewrite !last_lines_drop, !Nat.sub_0_r, !drop_all|].
  assert (strip_trailing tb <> []) as Hne by (intros E; rewrite E in Hn; simpl in Hn; lia).
  change (hb :: tb) with ([hb] ++ tb). change ((la ++ hb) :: tb) with ([la ++ hb] ++ tb). rewrite app_assoc.
  by rewrite !strip_trailing_app, !last_lines_app by done.
Qed.

(** ** Counting *)

Lemma trailing_snoc l b : trailing_nl (l ++ [b]) = if is_nl b then S (trailing_nl l) else 0%nat.
Proof. unfold trailing_nl. by rewrite rev_app_distr. Qed.

Lemma count_app l l' : count_nl (l ++ l') = (count_nl l + count_nl l')%nat.
Proof. unfold count_nl. by rewrite List.filter_app, length_app. Qed.

Lemma trailing_app l l' :
  trailing_nl (l ++ l') = if (trailing_nl l' <? length l')%nat then trailing_nl l' else (trailing_nl l + trailing_nl l')%nat.
Proof.
  induction l' as [|b l' IH] using rev_ind; [by rewrite app_nil_r, Nat.add_0_r|].
  rewrite app_assoc, !trailing_snoc, IH, length_app. simpl. destruct (is_nl b).
  - destruct (Nat.ltb_spec (trailing_nl l') (length l')), (Nat.ltb_spec (S (trailing_nl l')) (length l' + 1)); lia.
  - by replace (0 <? length l' + 1)%nat with true by (symmetry; apply Nat.ltb_lt; lia).
Qed.

Lemma trailing_le l : (trailing_nl l <= length l)%nat /\ (trailing_nl l <= count_nl l)%nat.
Proof.
  induction l as [|b l [IH1 IH2]] using rev_ind; [by vm_compute|].
  rewrite trailing_snoc, count_app, length_app. unfold count_nl at 2. simpl. destruct (is_nl b); simpl; lia.
Qed.

(** The complete lines after the first, the trailing empty ones dropped. *)
Lemma split_nl_snoc l b : exists i z,
  split_nl l = i ++ [z] /\ split_nl (l ++ [b]) = if is_nl b then i ++ [z; []] else i ++ [z ++ [b]].
Proof.
  induction l as [|x l (i & z & H1 & H2)]; simpl.
  - exists [], []. split; [done|]. by destruct (is_nl b).
  - rewrite H1, H2. destruct (is_nl x).
    + exists ([] :: i), z. split; [done|]. by destruct (is_nl b).
    + destruct i as [|h i]; simpl.
      * exists [], (x :: z). split; [done|]. by destruct (is_nl b).
      * exists ((x :: h) :: i), z. split; [done|]. by destruct (is_nl b).
Qed.

Lemma strip_snoc_nil l : strip_trailing (l ++ [[]]) = strip_trailing l.
Proof. unfold strip_trailing. by rewrite rev_app_distr. Qed.

Lemma strip_snoc_line l z : z <> [] -> strip_trailing (l ++ [z]) = l ++ [z].
Proof. intros H. unfold strip_trailing. rewrite rev_app_distr. simpl. destruct z; [done|]. by rewrite <- (rev_involutive l) at 2. Qed.

Lemma tail_lines l : (length (strip_trailing (tl (split_nl l))) = count_nl l - trailing_nl l)%nat /\
  (length (tl (split_nl l)) = count_nl l)%nat.
Proof.
  induction l as [|b l [IH1 IH2]] using rev_ind; [done|].
  destruct (split_nl_snoc l b) as (i & z & E1 & E2). rewrite trailing_snoc, count_app, E2.
  rewrite E1 in IH1, IH2. pose proof (trailing_le l) as [_ Ht].
  unfold count_nl at 2 4. simpl. destruct (is_nl b) eqn:Eb; simpl.
  - assert (E : forall A (i : list A) (z b : A), tl (i ++ [z; b]) = tl (i ++ [z]) ++ [b]).
    { intros A i' z' b'. destruct i'; simpl; [done | by rewrite <- app_assoc]. }
    rewrite E, strip_snoc_nil, length_app. simpl. lia.
  - destruct i as [|h i]; simpl in *; [lia|]. rewrite strip_snoc_line by (by destruct z).
    rewrite length_app in *. simpl in *. lia.
Qed.

(** ** The loop *)

Section Loop.
Context (data : list N) (n : nat).

Definition buffer (s : tail_state) : list N := concat (rev (tail_chunks s)).

(** The buffer is a suffix of the file and the counters are those of the buffer. *)
Record tail_ok (s : tail_state) : Prop := {
  tl_suffix : data = take (frontier s) data ++ buffer s;
  tl_frontier : (frontier s <= length data)%nat;
  tl_newlines : newlines s = count_nl (buffer s);
  tl_trailing : trailing s = trailing_nl (buffer s);
  tl_in : inTrailing s = negb (trailing_nl (buffer s) <? length (buffer s))%nat
}.

Lemma read_chunk_ok s k : tail_ok s -> (k <= frontier s)%nat ->
  tail_ok (read_chunk (take k (drop (frontier s - k) data)) (frontier s - k) s).
Proof.
  intros [H1 H2 H3 H4 H5] Hk. set (c := take k (drop (frontier s - k) data)).
  assert (Hb : buffer (read_chunk c (frontier s - k) s) = c ++ buffer s).
  { unfold buffer, read_chunk. simpl. rewrite rev_app_distr. done. }
  pose proof (trailing_le (buffer s)) as [Hle _]. pose proof (trailing_le c) as [Hlc _].
  split; rewrite ?Hb; unfold read_chunk; simpl; rewrite ?count_app, ?trailing_app, ?length_app, ?H3, ?H4, ?H5; try lia.
  - rewrite H1 at 1. rewrite app_assoc. f_equal. subst c.
    rewrite <- (take_drop (frontier s - k) (take (frontier s) data)). rewrite take_take, skipn_firstn_comm.
    do 2 f_equal; lia.
  - destruct (Nat.ltb_spec (trailing_nl (buffer s)) (length (buffer s))); simpl; lia.
  - destruct (Nat.ltb_spec (trailing_nl (buffer s)) (length (buffer s))); simpl.
    + symmetry. apply negb_false_iff, Nat.ltb_lt. lia.
    + f_equal. destruct (Nat.ltb_spec (trailing_nl c) (length c)); symmetry; [apply Nat.ltb_lt | apply Nat.ltb_ge]; lia.
Qed.

(** The loop ends with all the file, or with [n] complete lines. *)
Lemma tail_loop_ok fuel s : tail_ok s -> (frontier s <= fuel)%nat ->
  exists s', tail_loop fuel (file_reader data) n s = Some s' /\ tail_ok s' /\
    (frontier s' = 0%nat \/ (n <= newlines s' - trailing s')%nat).
Proof.
  revert s. induction fuel as [|fuel IH]; intros s H Hf; cbn [tail_loop].
  { exists s. split; [done|]. split; [done|]. left. lia. }
  unfold file_reader. fold (file_reader data).
  destruct (Nat.ltb_spec 0 (frontier s)) as [Hp|Hp]; [|exists s; split; [done|]; split; [done|]; left; lia].
  set (k := Nat.min (frontier s) tailChunkSize).
  assert (0 < tailChunkSize)%nat by (unfold tailChunkSize; lia).
  pose proof (read_chunk_ok s k H ltac:(lia)) as H'. set (s' := read_chunk _ _ s) in *.
  destruct (Z.leb_spec (Z.of_nat n) (Z.of_nat (newlines s') - Z.of_nat (trailing s'))) as [Hn|Hn].
  - exists s'. split; [done|]. split; [done|]. right. lia.
  - apply IH; [done|]. subst s'. simpl. lia.
Qed.
End Loop.

(** A log: each line is followed by a newline, and the last is not empty. *)
Definition log_of (ls : list (list N)) : list N := concat (map (fun l => l ++ [newline]) ls).
Definition is_line (l : list N) : Prop := Forall (fun b => is_nl b = false) l.

Lemma split_line l r : is_line l -> split_nl (l ++ newline :: r) = l :: split_nl r.
Proof. induction 1 as [|b l Hb _ IH]; simpl; [done|]. by rewrite Hb, IH. Qed.

Lemma split_log ls : Forall is_line ls -> split_nl (log_of ls) = ls ++ [[]].
Proof.
  induction 1 as [|l ls Hl _ IH]; [done|]. unfold log_of in *. simpl. rewrite <- app_assoc. simpl.
  by rewrite split_line, IH.
Qed.

(** Reading a log backward in 8 KiB chunks until enough lines are complete gives what
    slicing the whole file gives, for every content, count and chunk alignment; on a
    well-formed log that is its last n lines. *)
Theorem tailLines_last_lines data n nowrap :
  tailLines (file_reader data) (length data) n nowrap = Some (sliceTail data n nowrap) /\
  forall ls l, Forall is_line (ls ++ [l]) -> l <> [] -> data = log_of (ls ++ [l]) ->
    sliceTail data n nowrap = (if nowrap then map wrap else fun x => x) (last_lines n (ls ++ [l])).
Proof.
  split.
  - unfold tailLines. destruct (Nat.eqb_spec (length data) 0) as [E|E].
    { destruct data; [|done]. unfold sliceTail. simpl. by destruct nowrap. }
    assert (H0 : tail_ok data (mkTail (length data) [] 0 0 true)).
    { split; simpl; try done. by rewrite firstn_all, app_nil_r. }
    destruct (tail_loop_ok data n (length data) _ H0) as (s & -> & [H1 H2 H3 H4 H5] & Hend); [simpl; lia|].
    f_equal. fold (buffer s). destruct Hend as [Ez|Hn].
    + rewrite Ez in H1. simpl in H1. by rewrite <- H1.
    + transitivity (sliceTail (take (frontier s) data ++ buffer s) n nowrap); [|by rewrite <- H1]. destruct (split_nl_nonempty (buffer s)) as (hb & tb & Hb). symmetry.
      eapply sliceTail_suffix; [exact Hb|]. pose proof (tail_lines (buffer s)) as [Ht _]. rewrite Hb in Ht. simpl in Ht. lia.
  - intros ls l Hls Hl ->. unfold sliceTail. rewrite split_log, strip_snoc_nil, strip_snoc_line by done.
    fold (last_lines n (ls ++ [l])). by destruct nowrap.
Qed.

(** Three chunks: a file of 20 000 bytes whose last lines are read. *)
Lemma tailLines_last_lines_witness :
  let ls := replicate 100 (replicate 199 65) in
  let data := log_of (ls ++ [[66; 67]]) in
  tailLines (file_reader data) (length data) 2 false = Some [replicate 199 65; [66; 67]] /\
  sliceTail data 2 false = last_lines 2 (ls ++ [[66; 67]]).
Proof.
  cbv zeta. split; [vm_compute; reflexivity|].
  apply (proj2 (tailLines_last_lines (log_of (replicate 100 (replicate 199 65) ++ [[66; 67]])) 2 false)); [|done|done].
  apply Forall_app. split; [apply Forall_replicate, Forall_replicate; reflexivity | repeat constructor].
Defined.
