(* ===== verification/Player.v ===== *)
(** * Player: the client's audio queue and its paced writer

    Models [audioPlayer] of [cmd/twilio-cli/playback.go] as a
    transition system: one caller, which plays, flushes, settles and closes; one
    writer goroutine; the queue between them; the clock.  A receive from the
    queue, a send to it, a sink write and a sleep are one step each, so a flush
    and the writer can take turns emptying the queue.

    [accepted], [taken], [writes] and [heard] are not the program's: they record
    the frames the queue took in, where each one taken out went, each write with
    its outcome, and the instant at which a player that renders the sink in real
    time runs out of audio. *)

From S2P Require Export Service.

Definition playerQueueFrames : nat := N.to_nat 8192.
#[global] Arguments playerQueueFrames : simpl never.
Definition playerLead : Z := 200 * Millisecond.
Definition maxPaceCatchUp : Z := 2 * Second.

(** A barrier is a channel to close, named by a number. *)
Inductive playItem := Data (f : bytes) | Barrier (b : nat).

(** [writeLoop] at its receive, in [awaitTurn]'s sleep, in the sink's write,
    returned. *)
Inductive wphase := WRecv | WSleep (f : bytes) (until : Z) | WWrite (f : bytes) | WDone.

(** The calling goroutine. *)
Inductive cphase := CIdle | CFlush | CSettle (b : nat) | CClosing | CClosed.

(** Where a frame taken from the queue went. *)
Inductive fate := ToSink | Discarded.

Record audioPlayer := mkPlayer {
  paced : bool;
  now : Z;
  writeThrough : option Z;
  frames : list playItem;
  frames_closed : bool;
  writer : wphase;
  caller : cphase;
  err : bool;
  dropped : nat;
  barriers : nat;
  closed_barriers : list nat;
  writes : list (bytes * bool);
  accepted : list bytes;
  taken : list (bytes * fate);
  heard : Z
}.
#[export] Instance player_eta : Eta audioPlayer := fun p =>
  mkPlayer (paced p) (now p) (writeThrough p) (frames p) (frames_closed p) (writer p) (caller p) (err p)
    (dropped p) (barriers p) (closed_barriers p) (writes p) (accepted p) (taken p) (heard p).

(** [newAudioPlayer]; the prime goes to the sink before the writer starts. *)
Definition newAudioPlayer (paced : bool) (prime : bytes) (now : Z) : audioPlayer :=
  mkPlayer paced now None [] false WRecv CIdle false O O []
    [] [] [] (now + MuLawDuration (Z.of_nat (length prime))).

(** ** [awaitTurn]

    The clock restarts on the first frame and when the writer is too far behind;
    the result is the clock and the instant the frame is due. *)
Definition pace_clock (p : audioPlayer) : Z :=
  match writeThrough p with
  | None => now p
  | Some t => if maxPaceCatchUp <? now p - t then now p else t
  end.

Definition due (p : audioPlayer) : Z :=
  let d := pace_clock p - now p - playerLead in
  if 0 <? d then now p + d else now p.

(** The writer's receive of a frame: straight to the write when not paced. *)
Definition awaitTurn (f : bytes) (p : audioPlayer) : audioPlayer :=
  if negb (paced p) then p <| writer := WWrite f |>
  else p <| writeThrough := Some (pace_clock p) |> <| writer := WSleep f (due p) |>.

(** The sleep is over: [p.writeThrough = p.writeThrough.Add(...)]. *)
Definition woken (f : bytes) (p : audioPlayer) : audioPlayer :=
  p <| writeThrough ::= fmap (fun t => t + MuLawDuration (Z.of_nat (length f))) |> <| writer := WWrite f |>.

(** [sink.Write] returns. *)
Definition written (f : bytes) (ok : bool) (p : audioPlayer) : audioPlayer :=
  if ok then
    p <| writes ::= fun s => s ++ [(f, true)] |> <| writer := WRecv |>
      <| heard ::= fun h => Z.max h (now p) + MuLawDuration (Z.of_nat (length f)) |>
  else p <| writes ::= fun s => s ++ [(f, false)] |> <| err := true |> <| writer := WRecv |>.

(** What reached the sink behind the prime. *)
Definition sink (p : audioPlayer) : list bytes := map fst (List.filter snd (writes p)).

(** ** The caller *)

Definition enqueue (it : playItem) (p : audioPlayer) : option audioPlayer :=
  if (length (frames p) <? playerQueueFrames)%nat then Some (p <| frames ::= fun q => q ++ [it] |>) else None.

(** [play]: reports the first failure once; an empty frame is ignored; a full
    queue drops. *)
Definition play (f : bytes) (p : audioPlayer) : bool * audioPlayer :=
  if err p then (true, p <| err := false |>)
  else if bool_decide (length f = O) then (false, p)
  else match enqueue (Data f) p with
       | Some p => (false, p <| accepted ::= fun l => l ++ [f] |>)
       | None => (false, p <| dropped ::= S |>)
       end.

(** [settle]'s send of its barrier; on a full queue it returns at once. *)
Definition settle (p : audioPlayer) : audioPlayer :=
  let b := barriers p in
  match enqueue (Barrier b) (p <| barriers := S b |>) with
  | Some p => p <| caller := CSettle b |>
  | None => p <| barriers := S b |>
  end.

(** One turn of [flush]'s loop. *)
Definition flush_step (p : audioPlayer) : audioPlayer :=
  match frames p with
  | [] => p <| caller := CIdle |>
  | Data f :: q => p <| frames := q |> <| taken ::= fun l => l ++ [(f, Discarded)] |>
  | Barrier b :: q => p <| frames := q |> <| closed_barriers ::= cons b |>
  end.

(** ** The steps *)

Definition is_done (p : audioPlayer) : bool := match writer p with WDone => true | _ => false end.

(** The writer's own step; [ok] is what the sink answers. *)
Definition writer_step (ok : bool) (p : audioPlayer) : option audioPlayer :=
  match writer p with
  | WRecv =>
      match frames p with
      | Data f :: q => Some (awaitTurn f (p <| frames := q |> <| taken ::= fun l => l ++ [(f, ToSink)] |>))
      | Barrier b :: q => Some (p <| frames := q |> <| closed_barriers ::= cons b |>)
      | [] => if frames_closed p then Some (p <| writer := WDone |>) else None
      end
  | WSleep f u => if u <=? now p then Some (woken f p) else None
  | WWrite f => Some (written f ok p)
  | WDone => None
  end.

(** What the caller does when it is free, and what it waits for. *)
Inductive call := CallPlay (f : bytes) | CallFlush | CallSettle | CallClose.

Definition caller_start (c : call) (p : audioPlayer) : audioPlayer :=
  match c with
  | CallPlay f => snd (play f p)
  | CallFlush => p <| caller := CFlush |>
  | CallSettle => settle p
  | CallClose => p <| frames_closed := true |> <| caller := CClosing |>
  end.

Definition caller_step (p : audioPlayer) : option audioPlayer :=
  match caller p with
  | CFlush => Some (flush_step p)
  | CSettle b => if existsb (Nat.eqb b) (closed_barriers p) || is_done p then Some (p <| caller := CIdle |>) else None
  | CClosing => if is_done p then Some (p <| caller := CClosed |>) else None
  | CIdle | CClosed => None
  end.

Inductive pstep : audioPlayer -> audioPlayer -> Prop :=
| ps_time p d : 0 <= d -> pstep p (p <| now ::= Z.add d |>)
| ps_writer p ok p' : writer_step ok p = Some p' -> pstep p p'
| ps_call p c : caller p = CIdle -> pstep p (caller_start c p)
| ps_caller p p' : caller_step p = Some p' -> pstep p p'.

Inductive preach (pc : bool) (prime : bytes) (t0 : Z) : audioPlayer -> Prop :=
| pr_init : preach pc prime t0 (newAudioPlayer pc prime t0)
| pr_step p p' : preach pc prime t0 p -> pstep p p' -> preach pc prime t0 p'.
