(* ===== verification/PlayerThms.v ===== *)
(** * PlayerThms: the audio queue loses nothing silently, its waits end, and
    its pacing bounds what the sink holds

    Invariants of the transition system of Player.v, by induction on reachable
    states ([cmd/twilio-cli/playback.go]). *)

From S2P Require Export Player.

(** ** Every frame is accounted for *)

Definition datas (q : list playItem) : list bytes :=
  omap (fun it => match it with Data f => Some f | Barrier _ => None end) q.
Definition is_to_sink (x : bytes * fate) : bool := match snd x with ToSink => true | Discarded => false end.
Definition handed (p : audioPlayer) : list bytes := map fst (List.filter is_to_sink (taken p)).
Definition in_hand (p : audioPlayer) : list bytes :=
  match writer p with WSleep f _ | WWrite f => [f] | WRecv | WDone => [] end.

(** The queue's bound, the order of frames, and what each of the caller's waits
    means: behind a barrier nothing is queued, and a returned writer has left
    nothing behind. *)
Record player_ok (p : audioPlayer) : Prop := {
  po_bound : (length (frames p) <= playerQueueFrames)%nat;
  po_queue : map fst (taken p) ++ datas (frames p) = accepted p;
  po_handed : map fst (writes p) ++ in_hand p = handed p;
  po_settle : forall b, caller p = CSettle b ->
    (exists q, frames p = q ++ [Barrier b]) \/ (frames p = [] /\ In b (closed_barriers p) /\ in_hand p = []);
  po_done : writer p = WDone -> frames p = [] /\ frames_closed p = true;
  po_closing : frames_closed p = true <-> caller p = CClosing \/ caller p = CClosed;
  po_closed : caller p = CClosed -> writer p = WDone
}.

Lemma datas_app q q' : datas (q ++ q') = datas q ++ datas q'.
Proof. apply omap_app. Qed.

Lemma handed_snoc p f ft : handed p ++ (match ft with ToSink => [f] | Discarded => [] end) =
  map fst (List.filter is_to_sink (taken p ++ [(f, ft)])).
Proof. unfold handed. rewrite List.filter_app, map_app. by destruct ft. Qed.

Lemma enqueue_some it p p' : enqueue it p = Some p' ->
  p' = p <| frames ::= fun q => q ++ [it] |> /\ (length (frames p') <= playerQueueFrames)%nat.
Proof.
  unfold enqueue. destruct (Nat.ltb_spec (length (frames p)) playerQueueFrames); intros [= <-].
  split; [done|]. usimpl. rewrite length_app. simpl. lia.
Qed.

Lemma player_ok_init pc prime t0 : player_ok (newAudioPlayer pc prime t0).
Proof. split; simpl; try done; try lia. split; [done | by intros [?|?]]. Qed.

Lemma player_ok_time p d : player_ok p -> player_ok (p <| now ::= Z.add d |>).
Proof. by intros []. Qed.

(** The caller's wait, after the head of the queue is taken. *)
Lemma settle_pop it q b cls : (exists q0, it :: q = q0 ++ [Barrier b]) ->
  (exists q0, q = q0 ++ [Barrier b]) \/ q = [] /\ it = Barrier b /\ In b (b :: cls).
Proof.
  intros [[|x q0] E]; simpl in E; injection E as -> ->; [right; repeat split; by left | left; by exists q0].
Qed.

Lemma player_ok_recv_data p f q : player_ok p -> writer p = WRecv -> frames p = Data f :: q ->
  player_ok (awaitTurn f (p <| frames := q |> <| taken ::= fun l => l ++ [(f, ToSink)] |>)).
Proof.
  intros [H1 H2 H3 H4 H5 H6 H7] Ew Ef. unfold in_hand in *. rewrite Ew, Ef in *. simpl in H1.
  assert (G : forall wt w, (w = WWrite f \/ exists u, w = WSleep f u) ->
    player_ok (p <| frames := q |> <| taken ::= fun l => l ++ [(f, ToSink)] |> <| writeThrough := wt |> <| writer := w |>)).
  { intros wt w Hw. split; usimpl; try done; try lia.
    - rewrite map_app. simpl. rewrite <- app_assoc. exact H2.
    - unfold in_hand, handed. usimpl. rewrite <- (handed_snoc p f ToSink), <- H3, app_nil_r. by destruct Hw as [-> | [u ->]].
    - intros b Hb. destruct (H4 b Hb) as [H|[H _]]; [|done].
      destruct (settle_pop _ _ _ (closed_barriers p) H) as [?|(_ & ? & _)]; [by left | done].
    - by destruct Hw as [-> | [u ->]].
    - intros Hc. by apply H7 in Hc. }
  unfold awaitTurn. usimpl. destruct (paced p).
  - apply (G _ (WSleep f _)). right. by eexists.
  - apply (G (writeThrough p) (WWrite f)). by left.
Qed.

Lemma player_ok_writer ok p p' : player_ok p -> writer_step ok p = Some p' -> player_ok p'.
Proof.
  intros H. pose proof H as [H1 H2 H3 H4 H5 H6 H7]. unfold writer_step.
  destruct (writer p) as [|f u|f|] eqn:Ew; [|destruct (u <=? now p)| |]; try done.
  - destruct (frames p) as [|[f|b] q] eqn:Ef.
    + destruct (frames_closed p) eqn:Ec; intros [= <-]. split; usimpl; rewrite ?Ef, ?Ec; try done; try lia.
      * by unfold in_hand in *; rewrite Ew in H3.
      * intros b Hb. destruct (H4 b Hb) as [[[|? ?] ?]|?]; done || (right; tauto).
    + intros [= <-]. by apply player_ok_recv_data.
    + intros [= <-]. unfold in_hand in *. rewrite Ew in *. simpl in H1. split; unfold in_hand, handed; usimpl; rewrite ?Ew; try done; try lia.
      * intros b' Hb. destruct (H4 b' Hb) as [H0|[H0 _]]; [|done].
        destruct (settle_pop _ _ _ (closed_barriers p) H0) as [?|(-> & [= ->] & _)]; [by left | right; repeat split; by left].
  - intros [= <-]. unfold in_hand in *. rewrite Ew in *. split; unfold in_hand, handed, woken; usimpl; try done.
    intros Hc. by apply H7 in Hc.
  - unfold written. intros [= <-]. unfold in_hand in *. rewrite Ew in *.
    destruct ok; split; unfold in_hand, handed; usimpl; try done; rewrite ?map_app, ?app_nil_r; try done;
      try (intros b Hb; destruct (H4 b Hb) as [?|[_ [_ ?]]]; [by left | done]); intros Hc; by apply H7 in Hc.
Qed.

Lemma player_ok_flush p : player_ok p -> caller p = CFlush -> player_ok (flush_step p).
Proof.
  intros [H1 H2 H3 H4 H5 H6 H7] Hc. unfold flush_step.
  destruct (frames p) as [|[f|b] q] eqn:Ef; simpl in H1; split; unfold in_hand, handed in *; usimpl; rewrite ?Ef, ?Hc in *; try done; try lia.
  all: try (rewrite H6; intuition discriminate).
  - rewrite map_app. simpl. by rewrite <- app_assoc.
  - rewrite H3. rewrite <- (handed_snoc p f Discarded). by rewrite app_nil_r.
Qed.

Lemma player_ok_call p c : player_ok p -> caller p = CIdle -> player_ok (caller_start c p).
Proof.
  intros H Hc. pose proof H as [H1 H2 H3 H4 H5 H6 H7].
  assert (Hopen : frames_closed p = false) by (destruct (frames_closed p); [by destruct (proj1 H6 eq_refl); congruence | done]).
  assert (Hlive : writer p <> WDone) by (intros Hd; by destruct (H5 Hd); congruence).
  destruct c as [f| | |]; simpl.
  - unfold play. destruct (err p); [by destruct H; split; usimpl|]. destruct (bool_decide _); [done|].
    destruct (enqueue (Data f) p) as [p'|] eqn:Ee; [|by destruct H; split; usimpl].
    destruct (enqueue_some _ _ _ Ee) as [-> Hb]. usimpl.
    split; unfold in_hand, handed in *; usimpl; rewrite ?Hc; try done.
    + by rewrite datas_app, app_assoc, H2.
    + rewrite Hopen. intuition discriminate.
  - split; unfold in_hand, handed in *; usimpl; rewrite ?Hc, ?Hopen in *; try done. by rewrite H6; intuition discriminate.
  - unfold settle. destruct (enqueue _ _) as [p'|] eqn:Ee; [|by destruct H; split; usimpl].
    destruct (enqueue_some _ _ _ Ee) as [-> Hb]. usimpl.
    split; unfold in_hand, handed in *; usimpl; rewrite ?Hopen; try done.
    + rewrite datas_app. simpl. by rewrite app_nil_r.
    + intros b [= <-]. left. by eexists.
    + intuition discriminate.
  - split; unfold in_hand, handed in *; usimpl; try done. intuition.
Qed.

Lemma player_ok_caller p p' : player_ok p -> caller_step p = Some p' -> player_ok p'.
Proof.
  intros H. pose proof H as [H1 H2 H3 H4 H5 H6 H7]. unfold caller_step. destruct (caller p) eqn:Hc; try done.
  - intros [= <-]. by apply player_ok_flush.
  - destruct (_ || _); intros [= <-]. split; unfold in_hand, handed in *; usimpl; try done; rewrite ?H6; intuition discriminate.
  - destruct (is_done p) eqn:Ed; intros [= <-]. unfold is_done in Ed.
    split; unfold in_hand, handed in *; usimpl; try done; [rewrite H6; intuition | intros _; by destruct (writer p)].
Qed.

Lemma player_ok_reach pc prime t0 p : preach pc prime t0 p -> player_ok p.
Proof.
  induction 1 as [|p p' _ IH Hs]; [apply player_ok_init|]. destruct Hs.
  - by apply player_ok_time.
  - by eapply player_ok_writer.
  - by apply player_ok_call.
  - by eapply player_ok_caller.
Qed.

(** ** Barriers are fresh *)

Definition bars (q : list playItem) : list nat :=
  omap (fun it => match it with Barrier b => Some b | Data _ => None end) q.

Definition bar_ok (p : audioPlayer) : Prop :=
  NoDup (bars (frames p) ++ closed_barriers p) /\ Forall (fun b => (b < barriers p)%nat) (bars (frames p) ++ closed_barriers p).

Lemma bars_app q q' : bars (q ++ q') = bars q ++ bars q'.
Proof. apply omap_app. Qed.

(** The barrier at the head is closed. *)
Lemma bar_ok_pop p b q w : bar_ok p -> frames p = Barrier b :: q ->
  bar_ok (p <| frames := q |> <| closed_barriers ::= cons b |> <| writer := w |>).
Proof.
  unfold bar_ok. intros [H1 H2] E. rewrite E in *. usimpl.
  assert (P : bars q ++ b :: closed_barriers p ≡ₚ b :: bars q ++ closed_barriers p) by (by rewrite Permutation_middle).
  by rewrite P.
Qed.

Lemma bar_ok_same p p' : bar_ok p -> bars (frames p') = bars (frames p) -> closed_barriers p' = closed_barriers p ->
  barriers p' = barriers p -> bar_ok p'.
Proof. unfold bar_ok. by intros H -> -> ->. Qed.

Lemma bar_ok_step p p' : bar_ok p -> pstep p p' -> bar_ok p'.
Proof.
  intros H Hs. destruct Hs as [p d _|p ok p' Hw|p c _|p p' Hc].
  - by eapply bar_ok_same.
  - unfold writer_step in Hw. destruct (writer p) as [|f u|f|]; [|destruct (u <=? now p)| |]; try done.
    + destruct (frames p) as [|[f|b] q] eqn:Ef; [destruct (frames_closed p)| |]; try done; injection Hw as <-.
      * by eapply bar_ok_same; [exact H | usimpl; rewrite ?Ef|..].
      * unfold awaitTurn. usimpl. destruct (paced p); by eapply bar_ok_same; [exact H | usimpl; rewrite ?Ef|..].
      * by apply (bar_ok_pop p b q (writer p)).
    + injection Hw as <-. by eapply bar_ok_same.
    + injection Hw as <-. unfold written. destruct ok; by eapply bar_ok_same.
  - destruct c as [f| | |]; simpl; try by eapply bar_ok_same.
    + unfold play. destruct (err p); [by eapply bar_ok_same|]. case_bool_decide; [done|].
      destruct (enqueue (Data f) p) as [p'|] eqn:Ee; [|by eapply bar_ok_same].
      destruct (enqueue_some _ _ _ Ee) as [-> _]. eapply bar_ok_same; [exact H|usimpl; by rewrite bars_app, app_nil_r|done..].
    + destruct H as [H1 H2]. unfold settle. destruct (enqueue _ _) as [p'|] eqn:Ee.
      * destruct (enqueue_some _ _ _ Ee) as [-> _]. unfold bar_ok. usimpl. rewrite bars_app. simpl.
        assert (P : (bars (frames p) ++ [barriers p]) ++ closed_barriers p ≡ₚ barriers p :: bars (frames p) ++ closed_barriers p)
          by (rewrite <- app_assoc; simpl; by rewrite Permutation_middle).
        rewrite P. split.
        { constructor; [|done]. intros Hin. rewrite Forall_forall in H2. specialize (H2 _ Hin). lia. }
        constructor; [lia|]. eapply Forall_impl; [exact H2|]. simpl. lia.
      * split; usimpl; [done|]. eapply Forall_impl; [exact H2|]. simpl. lia.
  - unfold caller_step in Hc. destruct (caller p) as [| |b| |]; try done.
    + injection Hc as <-. unfold flush_step. destruct (frames p) as [|[f|b] q] eqn:Ef.
      * by eapply bar_ok_same; [exact H | usimpl; rewrite ?Ef|..].
      * by eapply bar_ok_same; [exact H | usimpl; rewrite ?Ef|..].
      * by apply (bar_ok_pop p b q (writer p)).
    + destruct (_ || _); [injection Hc as <-|done]. by eapply bar_ok_same.
    + destruct (is_done p); [injection Hc as <-|done]. by eapply bar_ok_same.
Qed.

Lemma bar_ok_reach pc prime t0 p : preach pc prime t0 p -> bar_ok p.
Proof. induction 1 as [|p p' _ IH Hs]; [split; constructor | by eapply bar_ok_step]. Qed.

(** C33: In every interleaving of the caller and the writer, the frames taken out of the
    queue followed by those still in it are the frames accepted, in order; those handed to
    the writer and not in its hand are the writes made, in order; the queue never holds more
    than its capacity; and after close nothing is left behind. *)
Theorem player_frames_accounted pc prime t0 p : preach pc prime t0 p ->
  map fst (taken p) ++ datas (frames p) = accepted p /\
  map fst (writes p) ++ in_hand p = handed p /\
  (length (frames p) <= playerQueueFrames)%nat /\
  (caller p = CClosed -> map fst (taken p) = accepted p /\ map fst (writes p) = handed p).
Proof.
  intros H. destruct (player_ok_reach _ _ _ _ H) as [H1 H2 H3 _ H5 _ H7]. repeat split; try done.
  - destruct (H5 (H7 H0)) as [E _]. rewrite E in H2. by rewrite app_nil_r in H2.
  - unfold in_hand in H3. rewrite (H7 H0) in H3. by rewrite app_nil_r in H3.
Qed.

(** ** Waits end *)

Definition phase_rank (w : wphase) : nat := match w with WDone => 0 | WRecv => 1 | WWrite _ => 2 | WSleep _ _ => 3 end.
Definition rank (p : audioPlayer) : nat := 3 * length (frames p) + phase_rank (writer p).
Definition waiting (p : audioPlayer) : Prop := (exists b, caller p = CSettle b) \/ caller p = CClosing.

Lemma writer_rank ok p p' : writer_step ok p = Some p' -> (rank p' < rank p)%nat.
Proof.
  unfold writer_step, rank. destruct (writer p) as [|f u|f|] eqn:Ew; [|destruct (u <=? now p)| |]; try done.
  - destruct (frames p) as [|[f|b] q] eqn:Ef; [destruct (frames_closed p)| |]; try done; intros [= <-].
    + usimpl. rewrite Ef. simpl. lia.
    + unfold awaitTurn. usimpl. destruct (paced p); usimpl; lia.
    + usimpl. rewrite Ew. simpl. lia.
  - intros [= <-]. unfold woken. usimpl. lia.
  - intros [= <-]. unfold written. destruct ok; usimpl; lia.
Qed.

(** A settle or a close that waits is never stuck: some step of the writer or the
    caller is always possible, after a wait if the writer sleeps; no step raises the rank,
    every writer step lowers it; and when the wait ends all that was handed to the writer
    was written. *)
Theorem player_waits_end pc prime t0 p : preach pc prime t0 p -> waiting p ->
  (caller_step p <> None \/ exists d, 0 <= d /\ forall ok, writer_step ok (p <| now ::= Z.add d |>) <> None) /\
  (forall p', pstep p p' -> (rank p' <= rank p)%nat) /\
  (forall ok p', writer_step ok p = Some p' -> (rank p' < rank p)%nat) /\
  (forall p', caller_step p = Some p' -> frames p = [] /\ in_hand p = [] /\ map fst (writes p) = handed p).
Proof.
  intros Hr Hw. pose proof (player_ok_reach _ _ _ _ Hr) as H. pose proof (bar_ok_reach _ _ _ _ Hr) as [Hnd _].
  destruct H as [H1 H2 H3 H4 H5 H6 H7]. split; [|split; [|split]].
  - destruct (writer p) as [|f u|f|] eqn:Ew.
    + destruct (frames p) as [|it q] eqn:Ef.
      * destruct Hw as [[b Hb]|Hc].
        -- left. unfold caller_step. rewrite Hb. destruct (H4 b Hb) as [[[|? ?] ?]|[_ [Hin _]]]; [done..|].
           assert (existsb (Nat.eqb b) (closed_barriers p) = true) as -> by (apply existsb_exists; exists b; split; [done | by apply Nat.eqb_eq]). done.
        -- right. exists 0. split; [lia|]. intros ok. unfold writer_step. usimpl. rewrite Ew, Ef.
           assert (frames_closed p = true) as -> by (apply H6; by left). done.
      * right. exists 0. split; [lia|]. intros ok. unfold writer_step. usimpl. rewrite Ew, Ef. by destruct it.
    + right. exists (Z.max 0 (u - now p)). split; [lia|]. intros ok. unfold writer_step. usimpl. rewrite Ew.
      by replace (u <=? Z.max 0 (u - now p) + now p) with true by lia.
    + right. exists 0. split; [lia|]. intros ok. unfold writer_step. usimpl. by rewrite Ew.
    + left. unfold caller_step, is_done. rewrite Ew. destruct Hw as [[b ->]| ->]; [by rewrite orb_true_r | done].
  - intros p' Hs. destruct Hs as [p d _|p ok p' Hws|p c Hc|p p' Hc].
    + done.
    + apply writer_rank in Hws. lia.
    + destruct Hw as [[b Hb]|Hb]; congruence.
    + unfold caller_step in Hc. destruct Hw as [[b Hb]|Hb]; rewrite Hb in Hc;
        [destruct (_ || _) | destruct (is_done p)]; try discriminate; injection Hc as <-; unfold rank; usimpl; lia.
  - intros ok p'. apply writer_rank.
  - intros p' Hc. assert (Hend : frames p = [] /\ in_hand p = []).
    { unfold caller_step in Hc. assert (Hd : is_done p = true -> frames p = [] /\ in_hand p = []).
      { unfold is_done, in_hand. intros Ed. destruct (writer p); try done. by destruct (H5 eq_refl). }
      destruct Hw as [[b Hb]|Hb]; rewrite Hb in Hc.
      - destruct (existsb _ _) eqn:Ee; [|destruct (is_done p); [by apply Hd | done]].
        apply existsb_exists in Ee as (b' & Hin & Eb). apply Nat.eqb_eq in Eb as <-.
        destruct (H4 b Hb) as [[q Eq]|?]; [|tauto]. exfalso. rewrite Eq, bars_app in Hnd. simpl in Hnd.
        apply NoDup_app in Hnd as (_ & Hnd & _). apply (Hnd b); [|by apply list_elem_of_In].
        apply elem_of_app. right. by left.
      - destruct (is_done p); [by apply Hd | done]. }
    destruct Hend as [E1 E2]. split; [done|]. split; [done|]. by rewrite E2, app_nil_r in H3.
Qed.
