(* ===== verification/PlayerPace.v ===== *)
(** * PlayerPace: what the paced writer lets the sink hold

    [awaitTurn] (cmd/twilio-cli/playback.go) keeps the sink close to real time.
    The sink's unplayed audio is [heard p - now p]; the theorem bounds it from
    above, and shows that a wait never lets the player run short. *)

From S2P Require Export PlayerThms.

Definition dur (f : bytes) : Z := MuLawDuration (Z.of_nat (length f)).

Section Pace.
(** [D] bounds a frame's playout, [P] is the prime's. *)
Context (prime : bytes) (t0 D : Z) (HD : 0 <= D).
Definition P : Z := dur prime.
Hypothesis HP : 0 <= P.
Definition C : Z := Z.max P (maxPaceCatchUp + D).

Definition frames_ok (p : audioPlayer) : Prop := Forall (fun f => 0 <= dur f <= D) (accepted p).

(** The clock less the frame in the writer's hand that it already counts. *)
Definition clock_before (p : audioPlayer) : option Z :=
  match writer p with WWrite f => (fun t => t - dur f) <$> writeThrough p | _ => writeThrough p end.

Definition no_failure (p : audioPlayer) : Prop := Forall (fun x => snd x = true) (writes p).

Record pace_ok (p : audioPlayer) : Prop := {
  pk_paced : paced p = true;
  pk_zero : writeThrough p = None -> heard p = t0 + P /\ t0 <= now p /\ (writer p = WRecv \/ writer p = WDone);
  pk_ahead : forall t, clock_before p = Some t -> t <= now p + playerLead + D;
  pk_late : forall t, clock_before p = Some t ->
    heard p <= t + C \/ (writer p = WRecv \/ writer p = WDone) /\ heard p <= now p + D;
  pk_sleep : forall f u t, writer p = WSleep f u -> writeThrough p = Some t -> t - playerLead <= u;
  pk_write : forall f t, writer p = WWrite f -> clock_before p = Some t -> t - playerLead <= now p;
  pk_heard : forall t, no_failure p -> clock_before p = Some t -> t <= Z.max (heard p) (now p);
  pk_wait : forall f u t, writer p = WSleep f u -> writeThrough p = Some t -> u <= now p \/ u = t - playerLead
}.

Lemma pace_ok_init : pace_ok (newAudioPlayer true prime t0).
Proof. split; simpl; try done. intros _. split; [done|]. split; [lia | by left]. Qed.

Lemma pace_ok_time p d : 0 <= d -> pace_ok p -> pace_ok (p <| now ::= Z.add d |>).
Proof.
  intros Hd [H1 H2 H3 H4 H5 H6 H7 H8]. unfold clock_before, no_failure in *.
  split; unfold clock_before, no_failure; usimpl; try done.
  - intros E. destruct (H2 E) as (? & ? & ?). split; [done|]. split; [lia | done].
  - intros t E. specialize (H3 t E). lia.
  - intros t E. destruct (H4 t E) as [?|[? ?]]; [by left | right; split; [done | lia]].
  - intros f t E E'. specialize (H6 f t E E'). lia.
  - intros t E E'. specialize (H7 t E E'). lia.
  - intros f u t E E'. destruct (H8 f u t E E'); lia.
Qed.

(** Steps that leave the clocks, the writer and the writes alone. *)
Lemma pace_ok_same p p' : pace_ok p -> paced p' = paced p -> writeThrough p' = writeThrough p -> heard p' = heard p ->
  now p' = now p -> writer p' = writer p -> writes p' = writes p -> pace_ok p'.
Proof.
  intros [H1 H2 H3 H4 H5 H6 H7 H8] E1 E2 E3 E4 E5 E6. unfold clock_before, no_failure in *.
  split; unfold clock_before, no_failure; rewrite ?E1, ?E2, ?E3, ?E4, ?E5, ?E6; done.
Qed.

Lemma pace_ok_await p f : pace_ok p -> writer p = WRecv -> pace_ok (awaitTurn f p).
Proof.
  intros [H1 H2 H3 H4 H5 H6 H7 H8] Ew. unfold clock_before, no_failure in *. rewrite Ew in *.
  unfold awaitTurn. rewrite H1. cbn [negb].
  assert (Hcl : pace_clock p <= now p + playerLead + D /\ heard p <= pace_clock p + C /\
    (no_failure p -> pace_clock p <= Z.max (heard p) (now p))).
  { unfold pace_clock, no_failure, C in *. destruct (writeThrough p) as [t|] eqn:Et.
    - specialize (H3 t eq_refl). specialize (H4 t eq_refl). specialize (fun Hn => H7 t Hn eq_refl).
      destruct (Z.ltb_spec maxPaceCatchUp (now p - t)); (split; [|split]); try lia; try (intros Hn; specialize (H7 Hn); lia);
        unfold maxPaceCatchUp, playerLead, Millisecond, Second in *; lia.
    - destruct (H2 eq_refl) as (? & ? & _). unfold playerLead, Millisecond. lia. }
  destruct Hcl as (C1 & C2 & C3).
  split; unfold clock_before, no_failure; usimpl; try done; try (intros; simplify_eq).
  - done.
  - by left.
  - unfold due. destruct (Z.ltb_spec 0 (pace_clock p - now p - playerLead)); lia.
  - by apply C3.
  - unfold due. destruct (Z.ltb_spec 0 (pace_clock p - now p - playerLead)); [right | left]; lia.
Qed.

Lemma pace_ok_woken p f u : pace_ok p -> writer p = WSleep f u -> u <= now p -> pace_ok (woken f p).
Proof.
  intros [H1 H2 H3 H4 H5 H6 H7 H8] Ew Hu. unfold clock_before, no_failure in *. rewrite Ew in *.
  unfold woken. destruct (writeThrough p) as [t|] eqn:Et; [|by destruct (H2 eq_refl) as (_ & _ & [?|?])].
  specialize (H3 t eq_refl). specialize (H5 f u t eq_refl eq_refl).
  assert (Et' : t + MuLawDuration (Z.of_nat (length f)) - dur f = t) by (unfold dur; lia).
  split; unfold clock_before, no_failure; usimpl; rewrite ?Et; try done; simpl; rewrite ?Et'; try (intros; simplify_eq; lia).
  - intros t' [= <-]. destruct (H4 t eq_refl) as [?|[[?|?] _]]; [by left | done | done].
  - intros t' Hn [= <-]. by apply H7.
Qed.

Lemma pace_ok_written p f ok : pace_ok p -> writer p = WWrite f -> 0 <= dur f <= D -> pace_ok (written f ok p).
Proof.
  intros [H1 H2 H3 H4 H5 H6 H7 H8] Ew Hd. unfold clock_before, no_failure in *. rewrite Ew in *.
  destruct (writeThrough p) as [t|] eqn:Et; [|by destruct (H2 eq_refl) as (_ & _ & [?|?])].
  specialize (H3 _ eq_refl). specialize (H6 f _ eq_refl eq_refl).
  destruct (H4 _ eq_refl) as [H4'|[[?|?] _]]; [|done|done]. unfold written, dur in *.
  destruct ok; split; unfold clock_before, no_failure; usimpl; rewrite ?Et; try done; try (intros; simplify_eq; lia).
  - intros t' [= <-]. destruct (Z.le_gt_cases (now p) (heard p)); [left; lia | right; split; [by left | lia]].
  - intros t' Hn [= <-]. apply Forall_app in Hn as [Hn _]. specialize (H7 _ Hn eq_refl). lia.
  - intros t' Hn. apply Forall_app in Hn as [_ Hn]. apply Forall_cons in Hn as [? _]. done.
Qed.

Lemma in_hand_dur p f : player_ok p -> frames_ok p -> writer p = WWrite f -> 0 <= dur f <= D.
Proof.
  intros [_ H2 H3 _ _ _ _] Hok Ew. unfold frames_ok in Hok. rewrite Forall_forall in Hok. apply Hok.
  rewrite <- H2. apply elem_of_app. left. unfold in_hand, handed in H3. rewrite Ew in H3.
  assert (f ∈ map fst (List.filter is_to_sink (taken p))) as Hf by (rewrite <- H3; apply elem_of_app; right; by left).
  apply list_elem_of_fmap in Hf as ([x ft] & -> & Hin). apply list_elem_of_In, filter_In in Hin as [Hin _].
  apply list_elem_of_fmap. exists (x, ft). split; [done | by apply list_elem_of_In].
Qed.

Lemma pace_ok_step p p' : player_ok p -> frames_ok p -> pace_ok p -> pstep p p' -> pace_ok p'.
Proof.
  intros Hpl Hok H Hs. destruct Hs as [p d Hd|p ok p' Hw|p c _|p p' Hc].
  - by apply pace_ok_time.
  - unfold writer_step in Hw. destruct (writer p) as [|f u|f|] eqn:Ew; [|destruct (Z.leb_spec u (now p))| |]; try done.
    + destruct (frames p) as [|[f|b] q]; [destruct (frames_closed p)| |]; try done; injection Hw as <-.
      * destruct H as [H1 H2 H3 H4 H5 H6 H7 H8]. unfold clock_before, no_failure in *. rewrite Ew in *.
        split; unfold clock_before, no_failure; usimpl; try done.
        -- intros E. destruct (H2 E) as (? & ? & _). repeat split; try done. by right.
        -- intros t E. destruct (H4 t E) as [?|[_ ?]]; [by left | right; split; [by right | done]].
      * apply pace_ok_await; [|done]. by eapply pace_ok_same.
      * by eapply pace_ok_same.
    + injection Hw as <-. by eapply pace_ok_woken.
    + injection Hw as <-. apply pace_ok_written; [done | done|]. by apply (in_hand_dur p).
  - destruct c as [f| | |]; simpl; try by eapply pace_ok_same.
    + unfold play. destruct (err p); [by eapply pace_ok_same|]. case_bool_decide; [done|].
      destruct (enqueue (Data f) p) as [p'|] eqn:Ee; [|by eapply pace_ok_same].
      destruct (enqueue_some _ _ _ Ee) as [-> _]. by eapply pace_ok_same.
    + unfold settle. destruct (enqueue _ _) as [p'|] eqn:Ee; [|by eapply pace_ok_same].
      destruct (enqueue_some _ _ _ Ee) as [-> _]. by eapply pace_ok_same.
  - unfold caller_step in Hc. destruct (caller p) as [| |b| |]; try done.
    + injection Hc as <-. unfold flush_step. destruct (frames p) as [|[f|b] q]; by eapply pace_ok_same.
    + destruct (_ || _); [injection Hc as <-|done]. by eapply pace_ok_same.
    + destruct (is_done p); [injection Hc as <-|done]. by eapply pace_ok_same.
Qed.

Lemma accepted_grows p p' : pstep p p' -> exists l, accepted p' = accepted p ++ l.
Proof.
  assert (Hrefl : forall q, accepted q = accepted p -> exists l, accepted q = accepted p ++ l)
    by (intros q ->; exists []; by rewrite app_nil_r).
  intros Hs. destruct Hs as [p d _|p ok p' Hw|p c _|p p' Hc].
  - by apply Hrefl.
  - apply Hrefl. unfold writer_step in Hw. destruct (writer p) as [|f u|f|]; [|destruct (u <=? now p)| |]; try done.
    + destruct (frames p) as [|[f|b] q]; [destruct (frames_closed p)| |]; try done; injection Hw as <-; [done| |done].
      unfold awaitTurn. by case_match.
    + by injection Hw as <-.
    + injection Hw as <-. by destruct ok.
  - destruct c as [f| | |]; simpl; try by apply Hrefl.
    + unfold play. destruct (err p); [by apply Hrefl|]. case_bool_decide; [by apply Hrefl|].
      destruct (enqueue (Data f) p) as [p'|] eqn:Ee; [|by apply Hrefl].
      destruct (enqueue_some _ _ _ Ee) as [-> _]. by exists [f].
    + apply Hrefl. unfold settle. destruct (enqueue _ _) as [p'|] eqn:Ee; [|done]. by destruct (enqueue_some _ _ _ Ee) as [-> _].
  - apply Hrefl. unfold caller_step in Hc. destruct (caller p) as [| |b| |]; try done.
    + injection Hc as <-. unfold flush_step. by destruct (frames p) as [|[f|b] q].
    + destruct (_ || _); [by injection Hc as <- | done].
    + destruct (is_done p); [by injection Hc as <- | done].
Qed.

Lemma pace_ok_reach p : preach true prime t0 p -> frames_ok p -> pace_ok p.
Proof.
  induction 1 as [|p p' Hr IH Hs]; [intros _; apply pace_ok_init|]. intros Hok.
  assert (frames_ok p) as Hok'.
  { destruct (accepted_grows _ _ Hs) as [l E]. unfold frames_ok in *. rewrite E in Hok. by apply Forall_app in Hok as [? _]. }
  eapply pace_ok_step; [by eapply player_ok_reach | done | by apply IH | done].
Qed.
End Pace.

(** C34: With frames of at most D, the audio the sink has taken and not played never exceeds
    the lead plus D plus the larger of the prime and the catch-up bound plus D, and as long
    as no write has failed the writer never sleeps past the instant at which the lead is
    left. *)
Theorem sink_holds_bounded prime t0 D p :
  0 <= dur prime -> 0 <= D -> preach true prime t0 p -> frames_ok D p ->
  heard p - now p <= playerLead + D + Z.max (dur prime) (maxPaceCatchUp + D) /\
  (no_failure p -> forall f u, writer p = WSleep f u -> u <= Z.max (now p) (heard p - playerLead)).
Proof.
  intros HP HD Hr Hok. pose proof (pace_ok_reach prime t0 D HD HP p Hr Hok) as [H1 H2 H3 H4 H5 H6 H7 H8].
  unfold clock_before, no_failure, C, P in *. split.
  - destruct (writer p) as [|f u|f|] eqn:Ew, (writeThrough p) as [t|] eqn:Et; simpl in *;
      try (destruct (H2 eq_refl) as (? & ? & [?|?]); try done; unfold playerLead, maxPaceCatchUp, Millisecond, Second; lia);
      pose proof (H3 _ eq_refl); destruct (H4 _ eq_refl) as [?|[_ ?]]; unfold playerLead, maxPaceCatchUp, Millisecond, Second in *; lia.
  - intros Hn f u Ew. rewrite Ew in *. destruct (writeThrough p) as [t|] eqn:Et; [|by destruct (H2 eq_refl) as (_ & _ & [?|?])].
    specialize (H7 t Hn eq_refl). specialize (H8 f u t eq_refl eq_refl). unfold playerLead, Millisecond in *. lia.
Qed.

(** ** Theorems: schedules of the client's player

    Concrete runs of the transition system of Player.v, executed by [exec]; they
    show that the theorems' hypotheses hold. *)

(** One scheduled step. *)
Inductive act := ATime (d : Z) | AWriter (ok : bool) | ACall (c : call) | ACaller.

Definition act_step (a : act) (p : audioPlayer) : option audioPlayer :=
  match a with
  | ATime d => if 0 <=? d then Some (p <| now ::= Z.add d |>) else None
  | AWriter ok => writer_step ok p
  | ACall c => match caller p with CIdle => Some (caller_start c p) | _ => None end
  | ACaller => caller_step p
  end.

Fixpoint exec (l : list act) (p : audioPlayer) : option audioPlayer :=
  match l with [] => Some p | a :: l => match act_step a p with Some p => exec l p | None => None end end.

Lemma exec_reach pc prime t0 l p p' : preach pc prime t0 p -> exec l p = Some p' -> preach pc prime t0 p'.
Proof.
  revert p. induction l as [|a l IH]; simpl; intros p H E; [by injection E as <-|].
  destruct (act_step a p) as [q|] eqn:Ea; [|done]. apply (IH q); [|done]. eapply pr_step; [exact H|].
  destruct a as [d|ok|c|]; simpl in Ea.
  - destruct (Z.leb_spec 0 d); [|done]. injection Ea as <-. by apply ps_time.
  - by eapply ps_writer.
  - destruct (caller p) eqn:Ec; try done. injection Ea as <-. by apply ps_call.
  - by apply ps_caller.
Qed.

Definition after (l : list act) (p : audioPlayer) : audioPlayer := default p (exec l p).

Definition frame : bytes := replicate 160 9.
Definition write_one : list act := [AWriter true; AWriter true; AWriter true].

(** A frame, a gap of a second and a half, then a reply of 84 frames in one burst. *)
Definition burst : list act :=
  [ACall (CallPlay frame)] ++ write_one ++ [ATime (1500 * Millisecond)]
  ++ replicate 84 (ACall (CallPlay frame)) ++ concat (replicate 84 write_one).

Lemma sink_holds_bounded_witness :
  let p := after burst (newAudioPlayer true [] 0) in
  heard p - now p = 1680 * Millisecond /\
  heard p - now p <= playerLead + 20 * Millisecond + Z.max (dur []) (maxPaceCatchUp + 20 * Millisecond) /\
  (no_failure p -> forall f u, writer p = WSleep f u -> u <= Z.max (now p) (heard p - playerLead)).
Proof.
  cbv zeta. split; [vm_compute; reflexivity|].
  apply (sink_holds_bounded [] 0 (20 * Millisecond)); [by vm_compute | by vm_compute | |].
  - apply (exec_reach _ _ _ burst (newAudioPlayer true [] 0)); [apply pr_init | vm_compute; reflexivity].
  - apply (Forall_replicate (fun f => 0 <= dur f <= 20 * Millisecond) 85 frame). by vm_compute.
Defined.

(** Two frames and a barrier; the first write fails. *)
Definition settling : list act :=
  [ACall (CallPlay frame); ACall (CallPlay [1; 2]); ACall CallSettle; AWriter true; AWriter true; AWriter false;
   AWriter true; AWriter true].

Lemma player_frames_accounted_witness :
  let p := after settling (newAudioPlayer true [] 0) in
  writes p = [(frame, false)] /\
  map fst (taken p) ++ datas (frames p) = accepted p /\ map fst (writes p) ++ in_hand p = handed p /\
  (length (frames p) <= playerQueueFrames)%nat /\
  (caller p = CClosed -> map fst (taken p) = accepted p /\ map fst (writes p) = handed p).
Proof.
  cbv zeta. split; [vm_compute; reflexivity|]. apply (player_frames_accounted true [] 0).
  apply (exec_reach _ _ _ settling (newAudioPlayer true [] 0)); [apply pr_init | vm_compute; reflexivity].
Defined.

Lemma player_waits_end_witness :
  let p := after settling (newAudioPlayer true [] 0) in
  waiting p /\ rank p = 5%nat /\
  (caller_step p <> None \/ exists d, 0 <= d /\ forall ok, writer_step ok (p <| now ::= Z.add d |>) <> None) /\
  (forall p', pstep p p' -> (rank p' <= rank p)%nat) /\
  (forall ok p', writer_step ok p = Some p' -> (rank p' < rank p)%nat) /\
  (forall p', caller_step p = Some p' -> frames p = [] /\ in_hand p = [] /\ map fst (writes p) = handed p).
Proof.
  cbv zeta.
  assert (H : waiting (after settling (newAudioPlayer true [] 0))) by (left; exists O; vm_compute; reflexivity).
  split; [exact H|]. split; [vm_compute; reflexivity|].
  apply (player_waits_end true [] 0); [|exact H].
  apply (exec_reach _ _ _ settling (newAudioPlayer true [] 0)); [apply pr_init | vm_compute; reflexivity].
Defined.
