(* ===== verification/Config.v ===== *)
(** * Config: the supervisor's configuration and its validation

    Models package [config]: the types a TOML file decodes into
    ([config/types.go]), the structural checks ([config/validate.go]) and the
    lookups ([config/lookup.go]).  An error is an [Err] with the text of the
    message less its formatted values. *)

From S2P Require Export GoStrings.

(** ** Types (types.go) *)

Record Supervisor := mkSupervisor {
  LogDir : string; LockFile : string; sv_GracePeriod : Z; sv_ReadyTimeout : Z; sv_PollInterval : Z;
  sv_HealthTimeout : Z; BaseDir : string
}.
#[export] Instance supervisor_eta : Eta Supervisor := fun s =>
  mkSupervisor (LogDir s) (LockFile s) (sv_GracePeriod s) (sv_ReadyTimeout s) (sv_PollInterval s)
    (sv_HealthTimeout s) (BaseDir s).

Definition DefaultGracePeriod : Z := 5000000000.
Definition DefaultReadyTimeout : Z := 15000000000.
Definition DefaultPollInterval : Z := 500000000.
Definition DefaultHealthTimeout : Z := 2000000000.

Definition or_default (d x : Z) : Z := if x =? 0 then d else x.

Definition applyDefaults (s : Supervisor) : Supervisor :=
  s <| sv_GracePeriod ::= or_default DefaultGracePeriod |>
    <| sv_ReadyTimeout ::= or_default DefaultReadyTimeout |>
    <| sv_PollInterval ::= or_default DefaultPollInterval |>
    <| sv_HealthTimeout ::= or_default DefaultHealthTimeout |>.

Definition TypeMLX : string := "mlx".
Definition TypePython : string := "python".
Definition TypeExec : string := "exec".
Definition TypeSource : string := "source".

Record SourceExec := mkSourceExec { se_Build : string; se_Binary : string }.
Definition se_Declared (se : SourceExec) : bool :=
  bool_decide (se_Build se ≠ EmptyString) || bool_decide (se_Binary se ≠ EmptyString).

Record Health := mkHealth {
  h_Host : string; h_Port : Z; h_Path : string; h_Exec : list string; h_Source : SourceExec
}.
#[export] Instance health_eta : Eta Health := fun h =>
  mkHealth (h_Host h) (h_Port h) (h_Path h) (h_Exec h) (h_Source h).

Definition h_IsExec (h : Health) : bool := (0 <? length (h_Exec h))%nat.
Definition h_Declared (h : Health) : bool := bool_decide (h_Path h ≠ EmptyString) || h_IsExec h.

Record Warm := mkWarm { w_Host : string; w_Port : Z; w_Method : string; w_Path : string; w_Body : string }.
#[export] Instance warm_eta : Eta Warm := fun w => mkWarm (w_Host w) (w_Port w) (w_Method w) (w_Path w) (w_Body w).

Record PromptSpec := mkPrompt {
  Question : string; YesArgs : list string; NoArgs : list string;
  YesEnv : list (string * string); NoEnv : list (string * string)
}.

Record Server := mkServer {
  Name : string; Type_ : string; Enabled : bool; Host : string; Prompt : option PromptSpec;
  Port : Z; Listens : list Z; Model : string; Drafter : string; Venv : string; Entry : string;
  Packages : list string; Build : string; Binary : string; Dir : string; Command : string;
  Args : list string; Detached : bool; TeardownArgs : list string; Health_ : Health; Warm_ : Warm;
  Env : list (string * string); GracePeriod : Z; ReadyTimeout : Z
}.
#[export] Instance server_eta : Eta Server := fun s =>
  mkServer (Name s) (Type_ s) (Enabled s) (Host s) (Prompt s) (Port s) (Listens s) (Model s) (Drafter s) (Venv s)
    (Entry s) (Packages s) (Build s) (Binary s) (Dir s) (Command s) (Args s) (Detached s) (TeardownArgs s)
    (Health_ s) (Warm_ s) (Env s) (GracePeriod s) (ReadyTimeout s).

Record Config := mkConfig { Supervisor_ : Supervisor; Servers : list Server }.

(** ** Decoding the health and warm keys (types.go)

    What the TOML decoder hands to [UnmarshalTOML]. *)
Inductive toml :=
| TString (s : string) | TInt (n : Z) | TArray (l : list toml) | TTable (l : list (string * toml)) | TOther.

(** [strings.Cut(s, " ")]. *)
Fixpoint Cut (s : string) : option (string * string) :=
  match s with
  | EmptyString => None
  | String c s' =>
      if bool_decide (c = Ascii.ascii_of_nat 32) then Some (EmptyString, s')
      else match Cut s' with Some (a, b) => Some (String c a, b) | None => None end
  end.

Definition field (k : string) (l : list (string * toml)) : option toml :=
  snd <$> List.find (fun kv => bool_decide (kv.1 = k)) l.
Definition as_string (t : option toml) : option string := match t with Some (TString s) => Some s | _ => None end.
Definition as_int (t : option toml) : option Z := match t with Some (TInt n) => Some n | _ => None end.

Fixpoint execArgv_elems (l : list toml) : result (list string) :=
  match l with
  | [] => Ok []
  | TString s :: l => match execArgv_elems l with Ok r => Ok (s :: r) | e => e end
  | _ :: _ => Err "health: exec element must be a string"
  end.

Definition execArgv (raw : toml) : result (list string) :=
  match raw with
  | TArray [] => Err "health: exec is empty"
  | TArray l => execArgv_elems l
  | _ => Err "health: exec must be an array of strings"
  end.

Definition sourceExecFrom (raw : toml) : result SourceExec :=
  match raw with
  | TTable m => Ok (mkSourceExec (default EmptyString (as_string (field "build" m)))
                                 (default EmptyString (as_string (field "binary" m))))
  | _ => Err "health: source must be a table"
  end.

Definition UnmarshalHealth (data : toml) (h : Health) : result Health :=
  match data with
  | TString v =>
      match Cut v with
      | Some (method, path) =>
          if bool_decide (path = EmptyString) then Err "health: string form must be METHOD /path"
          else if negb (bool_decide (ToLower method = "get"%string)) then Err "health: string form only supports GET"
          else Ok (h <| h_Path := path |>)
      | None => Err "health: string form must be METHOD /path"
      end
  | TTable v =>
      let h := h <| h_Host ::= fun x => default x (as_string (field "host" v)) |>
                 <| h_Port ::= fun x => default x (as_int (field "port" v)) |>
                 <| h_Path ::= fun x => default x (as_string (field "path" v)) |> in
      h ← (match field "exec" v with
          | Some raw => argv ← execArgv raw; Ok (h <| h_Exec := argv |>)
          | None => Ok h
          end);
      match field "source" v with
      | Some raw => src ← sourceExecFrom raw; Ok (h <| h_Source := src |>)
      | None => Ok h
      end
  | _ => Err "health: expected a table or a string"
  end.

Definition ToUpper (s : string) : string :=
  bytes_str (map (fun b => if between 97 122 b then (b - 32)%N else b) (str_bytes s)).

Definition UnmarshalWarm (data : toml) (w : Warm) : result Warm :=
  match data with
  | TString v =>
      match Cut (TrimSpace v) with
      | Some (method, rest) =>
          if bool_decide (rest = EmptyString) then Err "warm: string form must be METHOD /path [body]"
          else
            let '(path, body) := default (rest, EmptyString) (Cut rest) in
            if negb (String.prefix "/" path) then Err "warm: path must start with /"
            else Ok (w <| w_Method := ToUpper method |> <| w_Path := path |> <| w_Body := TrimSpace body |>)
      | None => Err "warm: string form must be METHOD /path [body]"
      end
  | _ => Err "warm: expected a string"
  end.

(** ** Validation (validate.go) *)

Definition reservedNames : list string :=
  ["status"; "up"; "down"; "dead"; "build"; "logs"; "details"; "help"; "quit"; "exit"; "bye"].

Definition validateName (s : Server) (seen : gset string) : result (gset string) :=
  if bool_decide (Name s = EmptyString) then Err "server: name is required"
  else if bool_decide (Name s ∈ reservedNames) then Err "name collides with a reserved REPL verb"
  else if bool_decide (Name s ∈ seen) then Err "duplicate name"
  else Ok ({[Name s]} ∪ seen).

Definition serverPortSet (s : Server) : list Z := (if Port s =? 0 then [] else [Port s]) ++ Listens s.

Fixpoint claimPorts (name : string) (ports : list Z) (owners : gmap Z string) : result (gmap Z string) :=
  match ports with
  | [] => Ok owners
  | p :: ports =>
      match owners !! p with
      | Some _ => Err "port collides"
      | None => claimPorts name ports (<[p := name]> owners)
      end
  end.

Definition validatePorts (s : Server) (owners : gmap Z string) : result (gmap Z string) :=
  let ports := serverPortSet s in
  if bool_decide (length ports = O) then Err "needs at least one port (port or listens)"
  else claimPorts (Name s) ports owners.

Definition validateType (s : Server) : result unit :=
  if bool_decide (Type_ s = TypeMLX) then
    if bool_decide (Model s = EmptyString) then Err "type mlx requires 'model'" else Ok tt
  else if bool_decide (Type_ s = TypePython) then
    if bool_decide (Venv s = EmptyString) || bool_decide (Entry s = EmptyString) || bool_decide (length (Packages s) = O)
    then Err "type python requires 'venv', 'entry', and 'packages'" else Ok tt
  else if bool_decide (Type_ s = TypeSource) then
    if bool_decide (Build s = EmptyString) || bool_decide (Binary s = EmptyString)
    then Err "type source requires 'build' and 'binary'"
    else if bool_decide (Dir s ≠ EmptyString) && negb (String.prefix "go " (TrimSpace (Build s)))
    then Err "'dir' requires a 'go build' command"
    else Ok tt
  else if bool_decide (Type_ s = TypeExec) then
    if bool_decide (Command s = EmptyString) then Err "type exec requires 'command'"
    else if Detached s && bool_decide (length (TeardownArgs s) = O) then Err "detached requires 'teardown_args'"
    else if negb (Detached s) && (0 <? length (TeardownArgs s))%nat
    then Err "'teardown_args' is only valid with detached = true"
    else Ok tt
  else Err "unknown type".

Definition validateSourceExec (s : Server) : result unit :=
  let se := h_Source (Health_ s) in
  if bool_decide (se_Build se = EmptyString) then Err "health.source declares binary but not build"
  else if bool_decide (se_Binary se = EmptyString) then Err "health.source declares build but not binary"
  else match h_Exec (Health_ s) with
       | [] => Panic "index out of range"
       | a :: _ => if bool_decide (a ≠ se_Binary se) then Err "health.exec[0] must equal health.source.binary" else Ok tt
       end.

Definition validateHealth (s : Server) : result unit :=
  let h := Health_ s in
  if bool_decide (h_Path h ≠ EmptyString) && h_IsExec h then Err "health declares both path and exec"
  else if negb (h_Declared h) then Err "a readiness check is required"
  else if se_Declared (h_Source h) && negb (h_IsExec h) then Err "health.source requires health.exec"
  else if h_IsExec h then
    if bool_decide (h_Host h ≠ EmptyString) then Err "health.host has no meaning for an exec check"
    else if negb (h_Port h =? 0) then Err "health.port has no meaning for an exec check"
    else if bool_decide (w_Path (Warm_ s) ≠ EmptyString) then Err "warm cannot be combined with an exec health check"
    else if se_Declared (h_Source h) then validateSourceExec s
    else Ok tt
  else if h_Port h =? 0 then
    if Port s =? 0 then Err "health.port is required" else Ok tt
  else if bool_decide (h_Port h ∈ serverPortSet s) then Ok tt
  else Err "health.port is not one of the server's declared ports".

Definition promptCapableTypes : list string := [TypeExec; TypeSource].

Definition promptDeclaresArgs (p : PromptSpec) : bool := (0 <? length (YesArgs p))%nat || (0 <? length (NoArgs p))%nat.

Definition validatePrompt (s : Server) : result unit :=
  match Prompt s with
  | None => Ok tt
  | Some p =>
      if bool_decide (Question p = EmptyString) then Err "prompt.question is required"
      else if negb (promptDeclaresArgs p) && bool_decide (length (YesEnv p) = O) && bool_decide (length (NoEnv p) = O)
      then Err "the answer would change nothing"
      else if promptDeclaresArgs p && negb (bool_decide (Type_ s ∈ promptCapableTypes))
      then Err "prompt is not supported for this type"
      else Ok tt
  end.

Fixpoint validate_servers (l : list Server) (seen : gset string) (owners : gmap Z string) : result unit :=
  match l with
  | [] => Ok tt
  | s :: l =>
      seen ← validateName s seen;
      _ ← validateType s;
      owners ← validatePorts s owners;
      _ ← validateHealth s;
      _ ← validatePrompt s;
      validate_servers l seen owners
  end.

Definition Validate (cfg : Config) : result unit := validate_servers (Servers cfg) ∅ ∅.

(** [Load] past the decoder and [resolveBaseDir]. *)
Definition load_checked (cfg : Config) : result Config :=
  let cfg := mkConfig (applyDefaults (Supervisor_ cfg)) (Servers cfg) in
  _ ← Validate cfg; Ok cfg.

(** ** Lookup (lookup.go) *)

Definition ServerByName (cfg : Config) (name : string) : option Server :=
  List.find (fun s => bool_decide (Name s = name)) (Servers cfg).

Definition WebhookPort (s : Server) : option Z := if (length (Listens s) <? 2)%nat then None else Listens s !! 1%nat.

(** ** Theorems: what validation accepts

    [Validate] (config/validate.go) accepts exactly the well-formed
    configurations, stated without its control flow. *)

Inductive wf_type (s : Server) : Prop :=
| wt_mlx : Type_ s = TypeMLX -> Model s <> "" -> wf_type s
| wt_python : Type_ s = TypePython -> Venv s <> "" -> Entry s <> "" -> Packages s <> [] -> wf_type s
| wt_source : Type_ s = TypeSource -> Build s <> "" -> Binary s <> "" ->
    (Dir s <> "" -> String.prefix "go " (TrimSpace (Build s)) = true) -> wf_type s
| wt_exec : Type_ s = TypeExec -> Command s <> "" -> (Detached s = true <-> TeardownArgs s <> []) -> wf_type s.

(** One readiness check: an HTTP path on a declared port, or a command. *)
Inductive wf_health (s : Server) : Prop :=
| wh_http : h_Path (Health_ s) <> "" -> h_Exec (Health_ s) = [] -> h_Source (Health_ s) = mkSourceExec "" "" ->
    (h_Port (Health_ s) = 0 -> Port s <> 0) -> (h_Port (Health_ s) <> 0 -> h_Port (Health_ s) ∈ serverPortSet s) ->
    wf_health s
| wh_exec prog argv : h_Path (Health_ s) = "" -> h_Exec (Health_ s) = prog :: argv ->
    h_Host (Health_ s) = "" -> h_Port (Health_ s) = 0 -> w_Path (Warm_ s) = "" ->
    (h_Source (Health_ s) = mkSourceExec "" "" \/ se_Build (h_Source (Health_ s)) <> "" /\ prog <> "" /\ se_Binary (h_Source (Health_ s)) = prog) ->
    wf_health s.

Definition wf_prompt (s : Server) : Prop :=
  forall p, Prompt s = Some p ->
    Question p <> "" /\ (YesArgs p <> [] \/ NoArgs p <> [] \/ YesEnv p <> [] \/ NoEnv p <> []) /\
    (YesArgs p <> [] \/ NoArgs p <> [] -> Type_ s = TypeExec \/ Type_ s = TypeSource).

(** The words that open a line of the prompt with a meaning of their own, as the
    command table of the supervisor's design has them, and the word [details],
    which is kept back.  Two of them may still name a server. *)
Definition repl_words : list string :=
  ["status"; "up"; "down"; "dead"; "build"; "logs"; "details"; "help"; "quit"; "exit"; "bye"; "kill"; "command"].
Definition unreserved_words : list string := ["kill"; "command"].

Definition legal_name (s : Server) : Prop :=
  Name s <> "" /\ (Name s ∈ repl_words -> Name s ∈ unreserved_words).

(** Teardown arguments belong to the detached servers, all of them and no
    others; validation asks this of type [exec] alone. *)
Definition teardown_declared (s : Server) : Prop := Detached s = true <-> TeardownArgs s <> [].

Record wf_server (s : Server) : Prop := {
  ws_name : legal_name s;
  ws_type : wf_type s;
  ws_ports : serverPortSet s <> [];
  ws_health : wf_health s;
  ws_prompt : wf_prompt s
}.

(** Names are distinct, and no port is declared twice anywhere. *)
Definition wf_config (cfg : Config) : Prop :=
  NoDup (map Name (Servers cfg)) /\ NoDup (concat (map serverPortSet (Servers cfg))) /\ Forall wf_server (Servers cfg).

(** What the comments ask of a configuration: in addition no name is a word of
    the prompt, and a detached server of any type says how it is torn down. *)
Definition intended_config (cfg : Config) : Prop :=
  wf_config cfg /\ Forall (fun s => Name s ∉ repl_words /\ teardown_declared s) (Servers cfg).

(** What validation lets through of it: the two words, and the teardown
    arguments of a server that is not of type [exec]. *)
Definition let_through (s : Server) : Prop :=
  Name s ∈ unreserved_words \/ Type_ s <> TypeExec /\ ~ teardown_declared s.

Lemma legal_name_iff s : legal_name s <-> Name s <> "" /\ Name s ∉ reservedNames.
Proof.
  unfold legal_name. split; intros [Hn H]; (split; [done|]).
  - intros Hr. assert (Hw : Name s ∈ unreserved_words) by (apply H; unfold repl_words, reservedNames in *; set_solver).
    apply (bool_decide_pack _) in Hr. unfold unreserved_words in Hw.
    repeat (apply elem_of_cons in Hw as [Hw|Hw]; [by rewrite Hw in Hr|]). by apply elem_of_nil in Hw.
  - intros Hr. unfold repl_words, reservedNames, unreserved_words in *. set_solver.
Qed.

Lemma unreserved_is_word s : Name s ∈ unreserved_words -> Name s ∈ repl_words.
Proof. unfold unreserved_words, repl_words. set_solver. Qed.

#[export] Instance teardown_declared_dec s : Decision (teardown_declared s).
Proof. unfold teardown_declared. destruct (Detached s), (decide (TeardownArgs s = [])) as [E|E];
  first [left; naive_solver | right; naive_solver]. Defined.

Lemma wf_exec_teardown s : wf_type s -> Type_ s = TypeExec -> teardown_declared s.
Proof. intros [E|E|E|E _ H]; intros E'; [rewrite E in E'; discriminate..|exact H]. Qed.

(** A well-formed server falls short of the intention exactly where it is let through. *)
Lemma let_through_iff s : wf_server s -> (Name s ∉ repl_words /\ teardown_declared s <-> ~ let_through s).
Proof.
  intros [[_ Hn] Ht _ _ _]. unfold let_through. split.
  - intros [H1 H2] [H|[_ H]]; [|done]. by apply H1, unreserved_is_word.
  - intros H. split; [intros Hw; apply H; left; by apply Hn|].
    destruct (decide (Type_ s = TypeExec)) as [E|E]; [by apply wf_exec_teardown|].
    destruct (decide (teardown_declared s)) as [Hd|Hd]; [done|]. destruct H. by right.
Qed.

Lemma intended_iff cfg : intended_config cfg <-> wf_config cfg /\ Forall (fun s => ~ let_through s) (Servers cfg).
Proof.
  unfold intended_config. split; intros [Hwf H]; (split; [done|]); destruct Hwf as (_ & _ & Hs);
    rewrite Forall_forall in *; intros s Hin; apply let_through_iff; auto.
Qed.

(** ** Each check *)

(** Decides the comparisons of two server types. *)
Ltac type_tests :=
  repeat match goal with
  | |- context [bool_decide (?a = ?b)] =>
      first [constr_eq a TypeMLX | constr_eq a TypePython | constr_eq a TypeExec | constr_eq a TypeSource];
      first [constr_eq b TypeMLX | constr_eq b TypePython | constr_eq b TypeExec | constr_eq b TypeSource];
      let v := eval vm_compute in (bool_decide (a = b)) in change (bool_decide (a = b)) with v
  end; cbv iota.

Lemma length_zero {A} (l : list A) : length l = O <-> l = [].
Proof. destruct l; naive_solver. Qed.

Lemma length_pos {A} (l : list A) : (0 <? length l)%nat = true <-> l <> [].
Proof. destruct l; simpl; naive_solver. Qed.

Lemma validateType_ok s : validateType s = Ok tt <-> wf_type s.
Proof.
  unfold validateType. split.
  - destruct (bool_decide_reflect (Type_ s = TypeMLX)) as [Ht|_].
    { destruct (bool_decide_reflect (Model s = "")); [discriminate|]. intros _. by apply wt_mlx. }
    destruct (bool_decide_reflect (Type_ s = TypePython)) as [Ht|_].
    { destruct (bool_decide_reflect (Venv s = "")), (bool_decide_reflect (Entry s = "")),
        (bool_decide_reflect (length (Packages s) = O)) as [|E3]; try discriminate.
      rewrite length_zero in E3. intros _. by apply wt_python. }
    destruct (bool_decide_reflect (Type_ s = TypeSource)) as [Ht|_].
    { destruct (bool_decide_reflect (Build s = "")), (bool_decide_reflect (Binary s = "")); try discriminate. cbn [orb].
      destruct (bool_decide_reflect (Dir s <> "")); cbn [andb]; [destruct (String.prefix _ _) eqn:E4; [|discriminate]|];
        intros _; by apply wt_source. }
    destruct (bool_decide_reflect (Type_ s = TypeExec)) as [Ht|_]; [|discriminate].
    destruct (bool_decide_reflect (Command s = "")) as [|Hc]; [discriminate|]. intros H. apply wt_exec; [done..|].
    destruct (Detached s), (TeardownArgs s); simpl in H; try discriminate; naive_solver.
  - intros [-> Hm| -> H1 H2 H3| -> H1 H2 H3| -> H1 H2]; type_tests.
    + by rewrite (bool_decide_eq_false_2 (Model s = "")).
    + rewrite (bool_decide_eq_false_2 (Venv s = "")), (bool_decide_eq_false_2 (Entry s = "")), (bool_decide_eq_false_2 (length (Packages s) = O)) by (by rewrite ?length_zero). done.
    + rewrite (bool_decide_eq_false_2 (Build s = "")), (bool_decide_eq_false_2 (Binary s = "")) by done. simpl.
      case_bool_decide; [by rewrite H3 | done].
    + rewrite (bool_decide_eq_false_2 (Command s = "")) by done. destruct (Detached s), (TeardownArgs s); simpl; naive_solver.
Qed.

Lemma validateSourceExec_ok s prog argv : h_Exec (Health_ s) = prog :: argv ->
  validateSourceExec s = Ok tt <->
  se_Build (h_Source (Health_ s)) <> "" /\ prog <> "" /\ se_Binary (h_Source (Health_ s)) = prog.
Proof.
  intros E. unfold validateSourceExec. rewrite E.
  destruct (bool_decide_reflect (se_Build (h_Source (Health_ s)) = "")); [naive_solver|].
  destruct (bool_decide_reflect (se_Binary (h_Source (Health_ s)) = "")); [naive_solver|].
  destruct (bool_decide_reflect (prog <> se_Binary (h_Source (Health_ s)))) as [E1|E1];
    [split; [discriminate | intros (_ & _ & E2); congruence]|].
  apply dec_stable in E1. split; [|done]. intros _. repeat split; congruence.
Qed.

Lemma se_Declared_false se : se_Declared se = false <-> se = mkSourceExec "" "".
Proof.
  unfold se_Declared. destruct (bool_decide_reflect (se_Build se <> "")) as [E1|E1], (bool_decide_reflect (se_Binary se <> "")) as [E2|E2];
    destruct se as [b c]; simpl in *; (split; [try done; intros _; by rewrite (dec_stable E1), (dec_stable E2) | naive_solver]).
Qed.

Lemma validateHealth_ok s : validateHealth s = Ok tt <-> wf_health s.
Proof.
  unfold validateHealth, h_Declared, h_IsExec.
  destruct (h_Exec (Health_ s)) as [|prog argv] eqn:Ee; simpl.
  - rewrite andb_false_r, orb_false_r. split.
    + destruct (bool_decide_reflect (h_Path (Health_ s) <> "")); [|discriminate]. cbn [negb].
      destruct (se_Declared (h_Source (Health_ s))) eqn:Es; [discriminate|]. apply se_Declared_false in Es. cbn [andb].
      destruct (Z.eqb_spec (h_Port (Health_ s)) 0); [destruct (Z.eqb_spec (Port s) 0); [discriminate|]|
        destruct (bool_decide_reflect (h_Port (Health_ s) ∈ serverPortSet s)); [|discriminate]]; intros _; by apply wh_http.
    + intros [H1 H2 H3 H4 H5|]; [|congruence]. rewrite bool_decide_eq_true_2 by done. apply se_Declared_false in H3. rewrite H3. simpl.
      destruct (Z.eqb_spec (h_Port (Health_ s)) 0); [destruct (Z.eqb_spec (Port s) 0); tauto|]. by rewrite bool_decide_eq_true_2 by auto.
  - rewrite andb_true_r, orb_true_r, andb_false_r. simpl. split.
    + destruct (bool_decide_reflect (h_Path (Health_ s) <> "")) as [|Hp]; [discriminate|].
      destruct (bool_decide_reflect (h_Host (Health_ s) <> "")) as [|Hh]; [discriminate|].
      destruct (Z.eqb_spec (h_Port (Health_ s)) 0); [|discriminate]. simpl.
      destruct (bool_decide_reflect (w_Path (Warm_ s) <> "")) as [|Hw]; [discriminate|].
      apply dec_stable in Hp, Hh, Hw. intros H. apply (wh_exec s prog argv); try done.
      destruct (se_Declared (h_Source (Health_ s))) eqn:Es; [right; by apply (validateSourceExec_ok _ prog argv) | left; by apply se_Declared_false].
    + intros [|prog' argv' H1 H2 H3 H4 H5 H6]; [congruence|]. assert (prog' = prog) as -> by congruence.
      rewrite (bool_decide_eq_false_2 (h_Path _ <> "")), (bool_decide_eq_false_2 (h_Host _ <> "")), (bool_decide_eq_false_2 (w_Path _ <> "")) by tauto.
      rewrite H4. simpl. destruct H6 as [H6|H6]; [apply se_Declared_false in H6; by rewrite H6|].
      destruct (se_Declared _); [|done]. by apply (validateSourceExec_ok _ prog argv).
Qed.

Lemma promptDeclaresArgs_iff p : promptDeclaresArgs p = true <-> YesArgs p <> [] \/ NoArgs p <> [].
Proof. unfold promptDeclaresArgs. by rewrite orb_true_iff, !length_pos. Qed.

Lemma validatePrompt_ok s : validatePrompt s = Ok tt <-> wf_prompt s.
Proof.
  unfold validatePrompt, wf_prompt. destruct (Prompt s) as [p|]; [|naive_solver].
  destruct (bool_decide_reflect (Question p = "")) as [|Hq]; [naive_solver|].
  pose proof (promptDeclaresArgs_iff p) as Ha. destruct (promptDeclaresArgs p); simpl.
  - destruct (bool_decide_reflect (Type_ s ∈ promptCapableTypes)) as [Ht|Ht]; simpl.
    + split; [|done]. intros _ p' [= <-]. unfold promptCapableTypes in Ht. set_solver.
    + split; [done|]. intros H. destruct (H p eq_refl) as (_ & _ & H'). destruct Ht.
      unfold promptCapableTypes. destruct (H' (proj1 Ha eq_refl)) as [->| ->]; set_solver.
  - assert (Hno : ~ (YesArgs p <> [] \/ NoArgs p <> [])) by (intros H; by apply Ha in H).
    destruct (bool_decide_reflect (length (YesEnv p) = O)) as [E1|E1], (bool_decide_reflect (length (NoEnv p) = O)) as [E2|E2];
      rewrite length_zero in E1, E2; simpl;
      first [ split; [discriminate | intros H; destruct (H p eq_refl) as (_ & H' & _); tauto]
            | split; [intros _ p' [= <-]; tauto | done] ].
Qed.

(** ** All servers *)

Lemma claimPorts_ok name ports owners owners' : claimPorts name ports owners = Ok owners' <->
  NoDup ports /\ (forall p, p ∈ ports -> owners !! p = None) /\
  owners' = foldl (fun m p => <[p := name]> m) owners ports.
Proof.
  revert owners. induction ports as [|p ports IH]; intros owners; simpl.
  - split; [intros [= <-]; repeat split; [constructor | set_solver] | by intros (_ & _ & ->)].
  - destruct (owners !! p) as [o|] eqn:E.
    + split; [discriminate|]. intros (_ & H & _). specialize (H p). rewrite E in H. by discriminate H; left.
    + rewrite IH, NoDup_cons. split.
      * intros (H1 & H2 & ->). repeat split; try done.
        -- intros Hin. specialize (H2 p Hin). by rewrite lookup_insert_eq in H2.
        -- intros q Hq. apply elem_of_cons in Hq as [->|Hq]; [done|]. specialize (H2 q Hq).
           by apply lookup_insert_None in H2 as [? _].
      * intros ([H1 H2] & H3 & ->). repeat split; try done. intros q Hq. rewrite lookup_insert_ne by (intros ->; done).
        apply H3. by right.
Qed.

Lemma claimed_dom name ports (owners : gmap Z string) q :
  foldl (fun m p => <[p := name]> m) owners ports !! q = None <-> owners !! q = None /\ q ∉ ports.
Proof.
  revert owners. induction ports as [|p ports IH]; intros owners; simpl; [set_solver|].
  rewrite IH, lookup_insert_None, not_elem_of_cons. naive_solver.
Qed.

Lemma validateName_ok s seen seen' : validateName s seen = Ok seen' <->
  legal_name s /\ Name s ∉ seen /\ seen' = {[Name s]} ∪ seen.
Proof.
  rewrite legal_name_iff. unfold validateName. destruct (bool_decide_reflect (Name s = "")); [naive_solver|].
  destruct (bool_decide_reflect (Name s ∈ reservedNames)); [naive_solver|].
  destruct (bool_decide_reflect (Name s ∈ seen)); naive_solver.
Qed.

Lemma validatePorts_ok s owners owners' : validatePorts s owners = Ok owners' <->
  serverPortSet s <> [] /\ NoDup (serverPortSet s) /\ (forall p, p ∈ serverPortSet s -> owners !! p = None) /\
  owners' = foldl (fun m p => <[p := Name s]> m) owners (serverPortSet s).
Proof.
  unfold validatePorts. destruct (bool_decide_reflect (length (serverPortSet s) = O)) as [E|E]; rewrite length_zero in E.
  - naive_solver.
  - rewrite claimPorts_ok. naive_solver.
Qed.

Lemma bind_Ok {A B} (m : result A) (f : A -> result B) b : m ≫= f = Ok b <-> exists a, m = Ok a /\ f a = Ok b.
Proof. split; [apply bind_ok | by intros (a & -> & H)]. Qed.

Definition fresh (l : list Server) (seen : gset string) (owners : gmap Z string) : Prop :=
  (forall s, s ∈ l -> Name s ∉ seen) /\ (forall p, p ∈ concat (map serverPortSet l) -> owners !! p = None).

Definition wf_servers (l : list Server) : Prop :=
  NoDup (map Name l) /\ NoDup (concat (map serverPortSet l)) /\ Forall wf_server l.

Lemma wf_servers_cons s l : wf_servers (s :: l) <->
  wf_server s /\ NoDup (serverPortSet s) /\ wf_servers l /\
  (forall u, u ∈ l -> Name u <> Name s) /\ (forall p, p ∈ serverPortSet s -> p ∉ concat (map serverPortSet l)).
Proof.
  unfold wf_servers. simpl. rewrite NoDup_cons, NoDup_app, Forall_cons.
  split.
  - intros ((H1 & H2) & (H3 & H4 & H5) & H6 & H7). split_and!; try done. intros u Hu E. apply H1. rewrite <- E.
    by apply list_elem_of_fmap_2.
  - intros (H1 & H2 & (H3 & H4 & H5) & H6 & H7). split_and!; try done. intros Hin.
    apply list_elem_of_fmap in Hin as (u & E & Hu). by apply (H6 u).
Qed.

Lemma validate_servers_ok l seen owners :
  validate_servers l seen owners = Ok tt <-> wf_servers l /\ fresh l seen owners.
Proof.
  revert seen owners. induction l as [|s l IH]; intros seen owners; simpl.
  { split; [|done]. intros _. split; [repeat constructor|]. split; set_solver. }
  rewrite wf_servers_cons. split.
  - intros H. apply bind_Ok in H as (seen' & H1 & H). apply bind_Ok in H as ([] & H2 & H). apply bind_Ok in H as (owners' & H3 & H).
    apply bind_Ok in H as ([] & H4 & H). apply bind_Ok in H as ([] & H5 & H).
    apply validateName_ok in H1 as (Hn & Hs & ->). apply validatePorts_ok in H3 as (Hp1 & Hp2 & Hp3 & ->).
    apply validateType_ok in H2. apply validateHealth_ok in H4. apply validatePrompt_ok in H5.
    apply IH in H as (Hwf & Hf1 & Hf2). split; [|split].
    + split; [by split|]. split; [done|]. split; [done|]. split.
      * intros u Hu E. apply (Hf1 u Hu). rewrite E. set_solver.
      * intros p Hp Hin. specialize (Hf2 p Hin). apply claimed_dom in Hf2 as [_ ?]. done.
    + intros u Hu. apply elem_of_cons in Hu as [->|Hu]; [done|]. specialize (Hf1 u Hu). set_solver.
    + intros p Hp. simpl in Hp. apply elem_of_app in Hp as [Hp|Hp]; [by apply Hp3|]. specialize (Hf2 p Hp).
      by apply claimed_dom in Hf2 as [? _].
  - intros ((Hw & Hnd & Hl & Hne & Hdj) & Hf1 & Hf2). destruct Hw as [Hn Ht Hp Hh Hpr].
    apply bind_Ok. eexists. split; [apply validateName_ok; split; [done|]; split; [apply Hf1; by left | reflexivity]|].
    apply bind_Ok. exists tt. split; [by apply validateType_ok|].
    apply bind_Ok. eexists. split; [apply validatePorts_ok; split; [done|]; split; [done|]; split; [|reflexivity]|].
    { intros p Hin. apply Hf2. simpl. apply elem_of_app. by left. }
    apply bind_Ok. exists tt. split; [by apply validateHealth_ok|]. apply bind_Ok. exists tt. split; [by apply validatePrompt_ok|].
    apply IH. split; [done|]. split.
    + intros u Hu. rewrite not_elem_of_union, not_elem_of_singleton. split; [by apply Hne|]. apply Hf1. by right.
    + intros p Hin. apply claimed_dom. split; [apply Hf2; simpl; apply elem_of_app; by right|]. intros Hq. by apply (Hdj p).
Qed.

(** No check panics: the argv that [validateSourceExec] indexes is not empty. *)
Lemma validate_no_panic l seen owners m : validate_servers l seen owners <> Panic m.
Proof.
  revert seen owners. induction l as [|s l IH]; intros seen owners; simpl; [done|].
  assert (Hn : forall m, validateName s seen <> Panic m) by (intros; unfold validateName; repeat case_bool_decide; done).
  assert (Ht : forall m, validateType s <> Panic m) by (intros; unfold validateType; repeat (case_match; try done)).
  assert (Hc : forall o n, forall m ps, claimPorts n ps o <> Panic m).
  { intros o n m' ps. revert o. induction ps as [|p ps IHp]; intros o; simpl; [done|]. by case_match. }
  assert (Hp : forall m, validatePorts s owners <> Panic m) by (intros; unfold validatePorts; case_bool_decide; done).
  assert (Hh : forall m, validateHealth s <> Panic m).
  { intros m'. unfold validateHealth, h_IsExec, validateSourceExec. destruct (h_Exec (Health_ s)); repeat (case_match; try done). }
  assert (Hpr : forall m, validatePrompt s <> Panic m) by (intros; unfold validatePrompt; repeat (case_match; try done)).
  destruct (validateName s seen) eqn:E1; simpl; [|done|by destruct (Hn msg)].
  destruct (validateType s) eqn:E2; simpl; [|done|by destruct (Ht msg)].
  destruct (validatePorts s owners) eqn:E3; simpl; [|done|by destruct (Hp msg)].
  destruct (validateHealth s) eqn:E4; simpl; [|done|by destruct (Hh msg)].
  destruct (validatePrompt s) eqn:E5; simpl; [|done|by destruct (Hpr msg)]. apply IH.
Qed.

Lemma Validate_iff cfg : Validate cfg = Ok tt <-> wf_config cfg.
Proof.
  unfold Validate, wf_config. rewrite validate_servers_ok. fold (wf_servers (Servers cfg)).
  split; [tauto|]. intros H. split; [done|]. split; set_solver.
Qed.

Lemma lookup_by_name l s : NoDup (map Name l) -> s ∈ l -> List.find (fun u => bool_decide (Name u = Name s)) l = Some s.
Proof.
  intros H Hs. induction l as [|u l IH]; [by apply elem_of_nil in Hs|].
  simpl in *. apply NoDup_cons in H as [Hn H]. apply elem_of_cons in Hs as [->|Hs].
  - by rewrite bool_decide_eq_true_2.
  - rewrite bool_decide_eq_false_2; [by apply IH|]. intros E. apply Hn. rewrite E. by apply list_elem_of_fmap_2.
Qed.

(** What a client of an accepted configuration relies on. *)
Lemma Validate_facts cfg : Validate cfg = Ok tt ->
  Forall wf_server (Servers cfg) /\ forall s, s ∈ Servers cfg -> ServerByName cfg (Name s) = Some s.
Proof.
  intros H. apply Validate_iff in H as (Hn & _ & Hw). split; [done|]. intros s Hs. by apply lookup_by_name.
Qed.

(** C35: Validation accepts exactly the well-formed configurations: unique names that are no
    words of the prompt, kill and command excepted; ports declared once in the whole fleet;
    the fields its type needs, the teardown arguments of a detached server being asked of
    type exec alone; one readiness check on a declared port or a command; a prompt whose
    answer changes something. Of what the comments ask for, where no word of the prompt is a
    name and every detached server has its teardown arguments, exactly these two exceptions
    are let through. Validation never panics, and every server of an accepted configuration
    is found by its name. *)
Theorem Validate_wellformed cfg :
  (Validate cfg = Ok tt <-> wf_config cfg) /\ (forall m, Validate cfg <> Panic m) /\
  (intended_config cfg <-> Validate cfg = Ok tt /\ forall s, s ∈ Servers cfg -> ~ let_through s) /\
  (Validate cfg = Ok tt -> forall s, s ∈ Servers cfg -> ServerByName cfg (Name s) = Some s).
Proof.
  split; [apply Validate_iff|]. split; [intros m; apply validate_no_panic|]. split; [|apply Validate_facts].
  rewrite intended_iff, Validate_iff, Forall_forall. done.
Qed.

(** ** A concrete configuration *)

Definition no_health : Health := mkHealth "" 0 "" [] (mkSourceExec "" "").
Definition no_warm : Warm := mkWarm "" 0 "" "" "".
Definition blank (name typ : string) : Server :=
  mkServer name typ true "127.0.0.1" None 0 [] "" "" "" "" [] "" "" "" "" [] false [] no_health no_warm [] 0 0.

Definition ex_router : Server :=
  blank "router" TypeSource <| Build := "go build -o bin/router ./cmd/router" |> <| Binary := "bin/router" |>
    <| Port := 9730 |> <| Listens := [9740] |> <| Health_ := no_health <| h_Path := "/health" |> |>.
Definition ex_db : Server :=
  blank "db" TypeExec <| Command := "docker" |> <| Detached := true |> <| TeardownArgs := ["compose"; "down"] |>
    <| Listens := [5432] |> <| Health_ := no_health <| h_Exec := ["db-probe"] |> |>.
Definition ex_supervisor : Supervisor := mkSupervisor "logs" "lock" 0 0 0 0 "".
Definition ex_config : Config := mkConfig ex_supervisor [ex_router; ex_db].

(** A server named after a verb, and a detached server of type [source] that
    nothing can tear down; validation accepts both. *)
Definition ex_gaps : Config :=
  mkConfig ex_supervisor [ex_router <| Detached := true |>; ex_db <| Name := "kill" |>].

Lemma ex_gaps_accepted : Validate ex_gaps = Ok tt /\ Forall let_through (Servers ex_gaps).
Proof.
  split; [vm_compute; reflexivity|]. apply Forall_cons. split; [|apply Forall_singleton].
  - right. split; [discriminate|]. intros [H _]. by apply H.
  - left. left.
Qed.

Lemma Validate_wellformed_witness :
  (Validate ex_config = Ok tt /\ ex_db ∈ Servers ex_config /\ ServerByName ex_config (Name ex_db) = Some ex_db) /\
  wf_config ex_gaps /\ ~ intended_config ex_gaps.
Proof.
  split; [|split; [apply (proj1 (Validate_wellformed ex_gaps)); vm_compute; reflexivity|]].
  2: { intros H. apply (proj1 (proj2 (proj2 (Validate_wellformed ex_gaps)))) in H as [_ H].
       apply (H (ex_db <| Name := "kill" |>)); [right; left | left; left]. }
  assert (H : Validate ex_config = Ok tt) by (vm_compute; reflexivity).
  assert (Hin : ex_db ∈ Servers ex_config) by (right; left).
  split; [exact H|]. split; [exact Hin|].
  exact (proj2 (proj2 (proj2 (Validate_wellformed ex_config))) H ex_db Hin).
Defined.
