(* ===== verification/Grammar.v ===== *)
(** * Grammar: the supervisor's command language

    Models [ParseCommand] of [cmd/aa-server-status/grammar.go].  Its lines name
    servers of the configuration, so the theorem on which names a line can
    address is stated against [Validate]. *)

From S2P Require Import Config.

Inductive Verb :=
| VerbStatus | VerbUp | VerbDown | VerbDead | VerbBuild | VerbLogs | VerbHelp | VerbKill | VerbCommand | VerbView
| VerbBounce | VerbQuit | VerbExit | VerbBye.
#[export] Instance verb_eq_dec : EqDecision Verb.
Proof. solve_decision. Defined.

Record Cmd := mkCmd { cmd_Verb : Verb; Target : string; Modifier : string }.

Definition globalVerbs : list (string * Verb) :=
  [("status"%string, VerbStatus); ("up"%string, VerbUp); ("down"%string, VerbDown); ("dead"%string, VerbDead);
   ("build"%string, VerbBuild); ("help"%string, VerbHelp); ("quit"%string, VerbQuit); ("exit"%string, VerbExit);
   ("bye"%string, VerbBye)].

Definition perServerVerbs : list (string * Verb) :=
  [("up"%string, VerbUp); ("down"%string, VerbDown); ("build"%string, VerbBuild); ("view"%string, VerbView);
   ("bounce"%string, VerbBounce)].

Definition verb_of (tbl : list (string * Verb)) (s : string) : option Verb :=
  snd <$> List.find (fun kv => bool_decide (kv.1 = s)) tbl.

(** ** [strings.Fields], on bytes: runs of white space separate. *)

Fixpoint fields_bytes (fuel : nat) (cur : list N) (l : list N) : list (list N) :=
  let flush := match cur with [] => [] | _ => [cur] end in
  match fuel, l with
  | S f, b :: l' =>
      match space_prefix l with
      | O => fields_bytes f (cur ++ [b]) l'
      | n => flush ++ fields_bytes f [] (drop n l)
      end
  | _, _ => flush
  end.

Definition Fields (s : string) : list string := map bytes_str (fields_bytes (length (str_bytes s)) [] (str_bytes s)).

Definition parse_fields (fields : list string) : result Cmd :=
  match fields with
  | [] => Ok (mkCmd VerbStatus "" "")
  | first :: rest =>
      if bool_decide (first = "logs"%string) then
        match rest with [x] => Ok (mkCmd VerbLogs x "") | _ => Err "'logs' requires exactly one server name" end
      else if bool_decide (first = "kill"%string) then
        match rest with
        | [x] => match Atoi x with
                 | Some pid => if pid <=? 0 then Err "PID must be a positive integer" else Ok (mkCmd VerbKill x "")
                 | None => Err "PID must be a positive integer"
                 end
        | _ => Err "'kill' requires exactly one PID"
        end
      else if bool_decide (first = "command"%string) then
        match rest with [x] => Ok (mkCmd VerbCommand x "") | _ => Err "'command' requires exactly one server name" end
      else
        match rest with
        | [] =>
            match verb_of globalVerbs first with
            | Some verb => Ok (mkCmd verb "" "")
            | None => Ok (mkCmd VerbStatus first "")
            end
        | [v] =>
            match verb_of perServerVerbs v with
            | Some verb => Ok (mkCmd verb first "")
            | None => Err "not a valid verb"
            end
        | [v; m] =>
            match verb_of perServerVerbs v with
            | Some VerbView =>
                if bool_decide (m ≠ "nowrap"%string) then Err "not a valid modifier for view" else Ok (mkCmd VerbView first "nowrap")
            | _ => Err "too many tokens"
            end
        | _ => Err "too many tokens"
        end
  end.

Definition ParseCommand (line : string) : result Cmd := parse_fields (Fields line).

(** ** Splitting a line of plain words *)

(** Printable ASCII without white space. *)
Definition plain_byte (b : N) : Prop := (33 <= b <= 126)%N.
Definition plain (s : string) : Prop := s <> "" /\ Forall plain_byte (str_bytes s).

Lemma plain_no_space b l : plain_byte b -> space_prefix (b :: l) = O.
Proof.
  intros [H1 H2]. unfold space_prefix, ascii_space, between.
  replace (9 <=? b)%N with true by (symmetry; apply N.leb_le; lia).
  replace (b <=? 13)%N with false by (symmetry; apply N.leb_gt; lia).
  replace (b =? 32)%N with false by (symmetry; apply N.eqb_neq; lia).
  replace (b =? 0xC2)%N with false by (symmetry; apply N.eqb_neq; lia).
  replace (b =? 0xE1)%N with false by (symmetry; apply N.eqb_neq; lia).
  replace (b =? 0xE2)%N with false by (symmetry; apply N.eqb_neq; lia).
  replace (b =? 0xE3)%N with false by (symmetry; apply N.eqb_neq; lia).
  simpl. by destruct l as [|? [|? ?]].
Qed.

(** A plain word at the front goes to the current field; a blank ends it. *)
Lemma fields_word f cur w l : Forall plain_byte w -> (length w <= f)%nat ->
  fields_bytes f cur (w ++ l) = fields_bytes (f - length w) (cur ++ w) l.
Proof.
  intros Hw. revert f cur. induction Hw as [|b w Hb _ IH]; intros f cur Hf; simpl; [by rewrite app_nil_r, Nat.sub_0_r|].
  destruct f as [|f]; [simpl in Hf; lia|]. change (fields_bytes (S f) cur (b :: w ++ l)) with
    (match space_prefix (b :: w ++ l) with
     | O => fields_bytes f (cur ++ [b]) (w ++ l)
     | n => (match cur with [] => [] | _ => [cur] end) ++ fields_bytes f [] (drop n (b :: w ++ l)) end).
  rewrite plain_no_space by done. rewrite IH by (simpl in Hf; lia). by rewrite <- app_assoc.
Qed.

Definition line_bytes (ws : list (list N)) : list N :=
  match ws with [] => [] | w :: ws => w ++ concat (map (fun w => 32%N :: w) ws) end.

Lemma fields_line_aux f cur ws : Forall (fun w => w <> [] /\ Forall plain_byte w) ws -> cur <> [] ->
  (length (concat (map (fun w => 32%N :: w) ws)) <= f)%nat ->
  fields_bytes f cur (concat (map (fun w => 32%N :: w) ws)) = cur :: ws.
Proof.
  intros Hws. revert f cur. induction Hws as [|w ws [Hne Hw] _ IH]; intros f cur Hc Hf; simpl in *.
  - destruct f; by destruct cur.
  - destruct f as [|f]; [lia|].
    change (fields_bytes (S f) cur (32%N :: w ++ concat (map (fun w => 32%N :: w) ws))) with
      ((match cur with [] => [] | _ => [cur] end) ++ fields_bytes f [] (w ++ concat (map (fun w => 32%N :: w) ws))).
    rewrite length_app in Hf. rewrite fields_word by (done || lia). rewrite IH by (done || lia). by destruct cur.
Qed.

Lemma fields_line ws : Forall (fun w => w <> [] /\ Forall plain_byte w) ws ->
  fields_bytes (length (line_bytes ws)) [] (line_bytes ws) = ws.
Proof.
  intros H. destruct H as [|w ws [Hne Hw] Hws]; [done|]. unfold line_bytes.
  rewrite fields_word by (done || rewrite length_app; lia).
  apply fields_line_aux; [done | done |]. rewrite length_app. lia.
Qed.

(** ** Strings and their bytes *)

Fixpoint words (ws : list string) : string :=
  match ws with [] => "" | [w] => w | w :: ws => w ++ " " ++ words ws end.

Lemma words_bytes ws : str_bytes (words ws) = line_bytes (map str_bytes ws).
Proof.
  induction ws as [|w [|w' ws] IH]; [done | simpl; by rewrite app_nil_r|].
  change (words (w :: w' :: ws)) with (w ++ " " ++ words (w' :: ws))%string. rewrite !str_bytes_app, IH. done.
Qed.

Lemma Fields_words ws : Forall plain ws -> Fields (words ws) = ws.
Proof.
  intros H. unfold Fields. rewrite words_bytes, fields_line.
  - rewrite map_map. rewrite (map_ext _ id) by (intros; apply bytes_str_bytes). apply map_id.
  - apply Forall_fmap. eapply Forall_impl; [exact H|]. intros w [H1 H2]. split; [|done]. by destruct w.
Qed.

(** ** Which names a line can address *)

(** The verbs whose target is a server. *)
Definition server_verbs : list Verb := [VerbStatus; VerbUp; VerbDown; VerbBuild; VerbView; VerbBounce].

Lemma verb_of_in tbl s v : verb_of tbl s = Some v -> (s, v) ∈ tbl.
Proof.
  unfold verb_of. intros H. apply fmap_Some in H as ([k x] & H & ->). apply find_some in H as [H E].
  apply bool_decide_eq_true in E. simpl in *. subst. by apply list_elem_of_In.
Qed.

Lemma global_reserved s v : verb_of globalVerbs s = Some v -> s ∈ reservedNames.
Proof. intros H. apply verb_of_in in H. unfold globalVerbs, reservedNames in *. set_solver. Qed.

(** [kill] and [command] open a line of their own. *)
Lemma shadowed_target fs c : parse_fields fs = Ok c -> Target c = "kill"%string \/ Target c = "command"%string ->
  cmd_Verb c ∉ server_verbs.
Proof.
  unfold parse_fields. destruct fs as [|first rest]; [intros [= <-]; naive_solver|].
  destruct (bool_decide_reflect (first = "logs"%string)); [destruct rest as [|x [|]]; try done; intros [= <-] _; set_solver|].
  destruct (bool_decide_reflect (first = "kill"%string)).
  { destruct rest as [|x [|]]; try done. destruct (Atoi x); [|done]. destruct (_ <=? 0); [done|]. intros [= <-] _. set_solver. }
  destruct (bool_decide_reflect (first = "command"%string)); [destruct rest as [|x [|]]; try done; intros [= <-] _; set_solver|].
  destruct rest as [|v [|m [|]]]; try done.
  - destruct (verb_of globalVerbs first) as [verb|]; intros [= <-]; naive_solver.
  - destruct (verb_of perServerVerbs v) as [verb|]; intros [= <-]; naive_solver.
  - destruct (verb_of perServerVerbs v) as [[]|]; try done. destruct (bool_decide _); intros [= <-]; naive_solver.
Qed.

Lemma verb_plain v verb : verb_of perServerVerbs v = Some verb -> plain v.
Proof.
  intros H. apply verb_of_in in H. unfold perServerVerbs in H. unfold plain, plain_byte.
  repeat (apply elem_of_cons in H as [[= -> ->]|H]; [split; [done | repeat constructor; simpl; lia]|]).
  by apply elem_of_nil in H.
Qed.

Lemma plain_nowrap : plain "nowrap".
Proof. split; [done|]. unfold plain_byte. repeat constructor; simpl; lia. Qed.

(** The code's table of verbs, and the words that take a line for themselves. *)
Definition line_words : list string := ["kill"%string; "command"%string].

(** A server of a valid configuration is reached by every line form that names it,
    unless its name is one of the words that open a line of their own; then no line
    addresses it, although validation accepts two such names. *)
Theorem names_addressable cfg s : Validate cfg = Ok tt -> s ∈ Servers cfg -> plain (Name s) ->
  (Name s ∉ line_words ->
     ParseCommand (Name s) = Ok (mkCmd VerbStatus (Name s) "") /\
     (forall v verb, verb_of perServerVerbs v = Some verb -> ParseCommand (words [Name s; v]) = Ok (mkCmd verb (Name s) "")) /\
     ParseCommand (words [Name s; "view"%string; "nowrap"%string]) = Ok (mkCmd VerbView (Name s) "nowrap") /\
     ServerByName cfg (Name s) = Some s) /\
  (Name s ∈ line_words ->
     forall line c, ParseCommand line = Ok c -> Target c = Name s -> cmd_Verb c ∉ server_verbs).
Proof.
  intros Hv Hs Hp. destruct (Validate_facts cfg Hv) as [Hwf Hby]. rewrite Forall_forall in Hwf.
  destruct (Hwf s Hs) as [Hname _ _ _ _]. apply legal_name_iff in Hname as [_ Hres]. split.
  - intros Hn. assert (Hfirst : forall rest, (forall x, x ∈ rest -> plain x) ->
      ParseCommand (words (Name s :: rest)) = parse_fields (Name s :: rest)).
    { intros rest Hr. unfold ParseCommand. rewrite Fields_words; [done|]. constructor; [done|]. by apply Forall_forall. }
    assert (Hl : Name s <> "logs"%string) by (intros E; rewrite E in Hres; apply Hres; unfold reservedNames; set_solver).
    assert (Hk : Name s <> "kill"%string) by (intros E; rewrite E in Hn; apply Hn; unfold line_words; set_solver).
    assert (Hc : Name s <> "command"%string) by (intros E; rewrite E in Hn; apply Hn; unfold line_words; set_solver).
    assert (Hpf : forall rest, parse_fields (Name s :: rest) =
      match rest with
      | [] => match verb_of globalVerbs (Name s) with Some verb => Ok (mkCmd verb "" "") | None => Ok (mkCmd VerbStatus (Name s) "") end
      | [v] => match verb_of perServerVerbs v with Some verb => Ok (mkCmd verb (Name s) "") | None => Err "not a valid verb" end
      | [v; m] => match verb_of perServerVerbs v with
                  | Some VerbView => if bool_decide (m ≠ "nowrap"%string) then Err "not a valid modifier for view" else Ok (mkCmd VerbView (Name s) "nowrap")
                  | _ => Err "too many tokens" end
      | _ => Err "too many tokens"
      end) by (intros rest; unfold parse_fields; by rewrite !bool_decide_eq_false_2).
    split; [|split; [|split]].
    + change (Name s) with (words [Name s]) at 1. rewrite Hfirst, Hpf by set_solver.
      destruct (verb_of globalVerbs (Name s)) as [verb|] eqn:E; [|done]. by apply global_reserved in E.
    + intros v verb E. rewrite Hfirst, Hpf, E; [done|]. intros x Hx. apply list_elem_of_singleton in Hx as ->. by eapply verb_plain.
    + rewrite Hfirst, Hpf; [by vm_compute|]. intros x Hx. apply elem_of_cons in Hx as [->|Hx]; [by apply (verb_plain _ VerbView)|].
      apply list_elem_of_singleton in Hx as ->. apply plain_nowrap.
    + by apply Hby.
  - intros Hn line c Hc Ht. eapply shadowed_target; [exact Hc|]. rewrite Ht. unfold line_words in Hn. set_solver.
Qed.

(** A configuration with a server named [kill] is accepted; the line [kill]
    is an error. *)
Definition ex_kill : Server := ex_db <| Name := "kill" |> <| Listens := [6000] |>.
Definition ex_shadowed : Config := mkConfig ex_supervisor [ex_router; ex_kill].

Lemma names_addressable_witness :
  (Validate ex_shadowed = Ok tt /\ ParseCommand "kill" = Err "'kill' requires exactly one PID" /\
   is_ok (ParseCommand "kill up") = false) /\
  (forall line c, ParseCommand line = Ok c -> Target c = Name ex_kill -> cmd_Verb c ∉ server_verbs) /\
  ParseCommand (Name ex_router) = Ok (mkCmd VerbStatus (Name ex_router) "").
Proof.
  assert (H : Validate ex_shadowed = Ok tt) by (vm_compute; reflexivity).
  split; [split; [exact H | split; vm_compute; reflexivity]|]. split.
  - apply (proj2 (names_addressable ex_shadowed ex_kill H ltac:(right; left) ltac:(split; [discriminate | unfold plain_byte; repeat constructor; simpl; lia]))).
    left.
  - apply (proj1 (names_addressable ex_shadowed ex_router H ltac:(left) ltac:(split; [discriminate | unfold plain_byte; repeat constructor; simpl; lia]))).
    apply (bool_decide_unpack _). vm_compute. exact I.
Defined.
