(* ===== verification/Health.v ===== *)
(** * Health: the readiness gate

    Models [internal/health/health.go]: the resolved probe targets, the capped
    buffer a probe program writes to, the verdict drawn from what the network or
    the program answered, and the loops that warm a server up and wait for it.
    The answers themselves (an HTTP exchange, a program run) are arguments; in
    the loops, which of the deadline and the ticker a [select] takes is the
    sequence of events. *)

From stdpp Require Import pretty.
From S2P Require Export Config.

#[local] Open Scope Z_scope.

Record Spec := mkSpec { spec_Host : string; spec_Port : Z; spec_Path : string; spec_Exec : list string }.
#[export] Instance spec_eta : Eta Spec := fun s => mkSpec (spec_Host s) (spec_Port s) (spec_Path s) (spec_Exec s).

Definition spec_IsExec (s : Spec) : bool := (0 <? length (spec_Exec s))%nat.

Definition str_or (d s : string) : string := if bool_decide (s = EmptyString) then d else s.

Definition ResolveSpec (h : Health) (serverHost : string) (serverPort : Z) : Spec :=
  let spec := mkSpec (h_Host h) (h_Port h) (h_Path h) (h_Exec h) in
  if spec_IsExec spec then spec
  else spec <| spec_Host ::= str_or serverHost |> <| spec_Port ::= or_default serverPort |>.

Definition SpecFor (s : Server) : option Spec :=
  if negb (h_Declared (Health_ s)) then None else Some (ResolveSpec (Health_ s) (Host s) (Port s)).

Definition URL (s : Spec) : string := "http://" +:+ spec_Host s +:+ ":" +:+ pretty (spec_Port s) +:+ spec_Path s.

Definition Describe (s : Spec) : string :=
  if spec_IsExec s then "exec " +:+ String.concat " " (spec_Exec s) else "GET " +:+ URL s.

Record probe_result := mkProbe {
  Healthy : bool; StatusCode : Z; p_Err : bool; Rendered : string; Output : string
}.

(** ** The capped buffer *)

Definition maxProbeOutput : nat := N.to_nat 4096.
#[global] Arguments maxProbeOutput : simpl never.

Record cappedBuffer := mkCapped { c_buf : list N; overflow : bool }.

(** [Write]; it always reports a full write. *)
Definition c_Write (p : list N) (c : cappedBuffer) : cappedBuffer :=
  let room := (Z.of_nat maxProbeOutput - Z.of_nat (length (c_buf c)))%Z in
  mkCapped (if (0 <? room)%Z then c_buf c ++ take (Z.to_nat (Z.min room (Z.of_nat (length p)))) p else c_buf c)
    (if (room <? Z.of_nat (length p))%Z then true else overflow c).

Definition c_String (c : cappedBuffer) : string :=
  let s := TrimSpace (bytes_str (c_buf c)) in
  if overflow c then s +:+ " […truncated]" else s.

(** ** Probe *)

(** What [http.DefaultClient.Do] answers: no response, or one with a status;
    and how a program's run ends, after the writes it made. *)
Inductive http_reply := HttpFailed | HttpStatus (code : Z).
Inductive exec_end := ExecExit (code : Z) | ExecFailed.
Record answers := mkAnswers { http : http_reply; exec_writes : list (list N); exec : exec_end }.

Definition is_2xx (code : Z) : bool := (200 <=? code) && (code <? 300).

Definition probeExec (spec : Spec) (a : answers) : probe_result :=
  let out := foldl (fun c p => c_Write p c) (mkCapped [] false) (exec_writes a) in
  let prog := default EmptyString (spec_Exec spec !! 0%nat) in
  match exec a with
  | ExecExit code =>
      if code =? 0 then mkProbe true 0 false (prog +:+ " exit 0") (c_String out)
      else mkProbe false 0 true (prog +:+ " exit " +:+ pretty code) (c_String out)
  | ExecFailed => mkProbe false 0 true (prog +:+ " failed") (c_String out)
  end.

Definition http_result (path : string) (r : http_reply) : probe_result :=
  match r with
  | HttpFailed => mkProbe false 0 true path EmptyString
  | HttpStatus code => mkProbe (is_2xx code) code false (path +:+ " " +:+ pretty code) EmptyString
  end.

Definition Probe (spec : Spec) (a : answers) : probe_result :=
  if spec_IsExec spec then probeExec spec a else http_result (spec_Path spec) (http a).

(** ** Warm-up *)

Record WarmSpec := mkWarmSpec { ws_Host : string; ws_Port : Z; ws_Method : string; ws_Path : string; ws_Body : string }.

Definition ResolveWarmSpec (w : Warm) (serverHost : string) (serverPort : Z) : WarmSpec :=
  mkWarmSpec (str_or serverHost (w_Host w)) (or_default serverPort (w_Port w)) (str_or "POST" (w_Method w)) (w_Path w) (w_Body w).

Definition ProbeWarm (spec : WarmSpec) (r : http_reply) : probe_result := http_result (ws_Path spec) r.

Definition isWarmRequestRejected (status : Z) : bool :=
  if (status =? 408) || (status =? 429) then false else (400 <=? status) && (status <? 500).

Inductive warm_end := WarmReady (r : probe_result) | WarmRejected (r : probe_result) | WarmTimedOut (r : probe_result).

(** [Warm]: each attempt with the select's choice behind it, true for the
    deadline.  [None]: the events end before the loop does. *)
Fixpoint WarmLoop (spec : WarmSpec) (events : list (http_reply * bool)) : option warm_end :=
  match events with
  | [] => None
  | (r, deadline) :: events =>
      let result := ProbeWarm spec r in
      if Healthy result then Some (WarmReady result)
      else if isWarmRequestRejected (StatusCode result) then Some (WarmRejected result)
      else if (deadline : bool) then Some (WarmTimedOut result)
      else WarmLoop spec events
  end.

(** ** Waiting for readiness *)

Inductive poll_event := PollTick (a : answers) | PollDeadline.
Inductive poll_end := PollReadyOk (r : probe_result) | PollTimedOut (r : probe_result) (explanation : string).

(** [attempt]: the closure's two captured variables are its state. *)
Definition attempt (spec : Spec) (a : answers) (explanation : string) : probe_result * string :=
  let result := Probe spec a in (result, str_or explanation (Output result)).

Fixpoint poll_loop (spec : Spec) (events : list poll_event) (result : probe_result) (explanation : string) : option poll_end :=
  match events with
  | [] => None
  | PollDeadline :: _ => Some (PollTimedOut result explanation)
  | PollTick a :: events =>
      let '(result, explanation) := attempt spec a explanation in
      if Healthy result then Some (PollReadyOk result) else poll_loop spec events result explanation
  end.

Definition PollReady (spec : Spec) (first : answers) (events : list poll_event) : option poll_end :=
  let '(result, explanation) := attempt spec first EmptyString in
  if Healthy result then Some (PollReadyOk result) else poll_loop spec events result explanation.

(** ** Theorems: the readiness verdict and its diagnosis

    The capped buffer keeps the head of what a program wrote, however the writes
    are cut; the poll loop's verdict is that of the first healthy attempt before
    the deadline, and its error carries the last diagnosis given. *)

#[local] Open Scope Z_scope.

(** ** The capped buffer *)

Lemma c_Write_spec p c : (length (c_buf c) <= maxProbeOutput)%nat ->
  c_Write p c = mkCapped (take maxProbeOutput (c_buf c ++ p)) (overflow c || (maxProbeOutput <? length (c_buf c ++ p))%nat).
Proof.
  intros Hc. unfold c_Write. rewrite length_app, take_app_ge by done. f_equal.
  - destruct (Z.ltb_spec 0 (Z.of_nat maxProbeOutput - Z.of_nat (length (c_buf c)))) as [Hr|Hr].
    + f_equal. destruct (decide (length p <= maxProbeOutput - length (c_buf c))%nat).
      * rewrite Z.min_r, Nat2Z.id by lia. by rewrite !take_ge by lia.
      * rewrite Z.min_l by lia. f_equal. lia.
    + replace (maxProbeOutput - length (c_buf c))%nat with O by lia. by rewrite take_0, app_nil_r.
  - destruct (Z.ltb_spec (Z.of_nat maxProbeOutput - Z.of_nat (length (c_buf c))) (Z.of_nat (length p))) as [H|H].
    + rewrite (proj2 (Nat.ltb_lt _ _)) by lia. by rewrite orb_true_r.
    + rewrite (proj2 (Nat.ltb_ge _ _)) by lia. by rewrite orb_false_r.
Qed.

Lemma c_Write_fold ws c : (length (c_buf c) <= maxProbeOutput)%nat ->
  foldl (fun c p => c_Write p c) c ws =
  mkCapped (take maxProbeOutput (c_buf c ++ concat ws)) (overflow c || (maxProbeOutput <? length (c_buf c ++ concat ws))%nat).
Proof.
  revert c. induction ws as [|p ws IH]; intros c Hc; cbn [foldl concat].
  - rewrite app_nil_r, take_ge by done. rewrite (proj2 (Nat.ltb_ge _ _)), orb_false_r by done. by destruct c.
  - rewrite IH by (rewrite c_Write_spec by done; cbn [c_buf]; rewrite length_take; lia). rewrite c_Write_spec by done.
    cbn [c_buf overflow]. rewrite app_assoc.
    set (l := c_buf c ++ p). destruct (decide (length l <= maxProbeOutput)%nat) as [Hl|Hl].
    + rewrite (take_ge l) by done. by rewrite (proj2 (Nat.ltb_ge _ (length l))), orb_false_r by done.
    + rewrite (proj2 (Nat.ltb_lt _ (length l))) by lia.
      rewrite orb_true_r, !take_app_le by (rewrite ?length_take; lia).
      rewrite take_take, Nat.min_id.
      rewrite (proj2 (Nat.ltb_lt _ (length (l ++ _)))) by (rewrite length_app; lia). by rewrite orb_true_r.
Qed.

(** What is kept of a program's output. *)
Definition kept_output (ws : list (list N)) : string :=
  let all := concat ws in
  let s := TrimSpace (bytes_str (take maxProbeOutput all)) in
  if (maxProbeOutput <? length all)%nat then s +:+ " […truncated]" else s.

Lemma Probe_output spec a : Output (Probe spec a) = if spec_IsExec spec then kept_output (exec_writes a) else EmptyString.
Proof.
  unfold Probe. destruct (spec_IsExec spec); [|by destruct (http a)].
  unfold probeExec, kept_output. rewrite c_Write_fold by (simpl; lia). cbn [c_buf overflow app orb].
  unfold c_String. cbn [c_buf overflow]. by destruct (exec a) as [code|]; [destruct (code =? 0)|].
Qed.

(** ** The poll loop *)

(** The attempts made before the deadline fires, and whether it does. *)
Fixpoint before_deadline (events : list poll_event) : list answers * bool :=
  match events with
  | [] => ([], false)
  | PollDeadline :: _ => ([], true)
  | PollTick a :: events => let '(l, d) := before_deadline events in (a :: l, d)
  end.

Definition last_output (results : list probe_result) : string :=
  default EmptyString (last (List.filter (fun o => negb (bool_decide (o = EmptyString))) (map Output results))).

Lemma last_output_snoc results r : last_output (results ++ [r]) = str_or (last_output results) (Output r).
Proof.
  unfold last_output, str_or. rewrite map_app, List.filter_app. simpl.
  case_bool_decide; simpl; [by rewrite app_nil_r|]. by rewrite last_snoc.
Qed.

Definition poll_verdict (results : list probe_result) (deadline : bool) : option poll_end :=
  match List.find Healthy results with
  | Some r => Some (PollReadyOk r)
  | None => if deadline then Some (PollTimedOut (List.last results (mkProbe false 0 false EmptyString EmptyString)) (last_output results)) else None
  end.

Lemma find_none_app {A} (f : A -> bool) l l' : List.find f l = None -> List.find f (l ++ l') = List.find f l'.
Proof. induction l as [|x l IH]; simpl; [done|]. by destruct (f x). Qed.

Lemma poll_loop_verdict spec events done r : List.find Healthy (done ++ [r]) = None ->
  let '(ticks, deadline) := before_deadline events in
  poll_loop spec events r (last_output (done ++ [r])) =
  poll_verdict ((done ++ [r]) ++ map (Probe spec) ticks) deadline.
Proof.
  revert done r. induction events as [|[a|] events IH]; intros done r Hn; simpl.
  - unfold poll_verdict. by rewrite app_nil_r, Hn.
  - specialize (IH (done ++ [r]) (Probe spec a)). destruct (before_deadline events) as [ticks deadline]. simpl.
    destruct (Healthy (Probe spec a)) eqn:E.
    + unfold poll_verdict. rewrite find_none_app by done. simpl. by rewrite E.
    + rewrite <- last_output_snoc, IH; [by rewrite <- !app_assoc|]. rewrite find_none_app by done. simpl. by rewrite E.
  - unfold poll_verdict. rewrite app_nil_r, Hn. by rewrite last_last.
Qed.

(** The readiness poll succeeds with the first healthy attempt made before the deadline
    fires, the immediate first attempt included; otherwise it fails with the last attempt's
    result and the last diagnosis any attempt gave, which for a program is the trimmed first
    4096 bytes of what it wrote, however the writes were cut, marked when there was more. *)
Theorem PollReady_verdict (spec : Spec) (first : answers) (events : list poll_event) :
  let '(ticks, deadline) := before_deadline events in
  PollReady spec first events = poll_verdict (map (Probe spec) (first :: ticks)) deadline /\
  forall a, Output (Probe spec a) = if spec_IsExec spec then kept_output (exec_writes a) else EmptyString.
Proof.
  pose proof (poll_loop_verdict spec events [] (Probe spec first)) as H.
  destruct (before_deadline events) as [ticks deadline]. split; [|apply Probe_output].
  unfold PollReady, attempt, poll_verdict. simpl.
  destruct (Healthy (Probe spec first)) eqn:E; [done|].
  simpl in H. rewrite E in H. specialize (H eq_refl). unfold poll_verdict in H. simpl in H. rewrite E in H.
  rewrite <- H. f_equal. unfold last_output, str_or. simpl. by case_bool_decide.
Qed.
