(* ===== verification/Observe.v ===== *)
(** * Observe: which process listens where

    Models [internal/observe/observe.go]: walking a process tree, reading each
    process's listening ports with a second opinion on empty reads, the
    host-wide scan, and the comparison of declared and actual ports.  What the
    operating system answers (through a third-party package) is the record
    [host_view]: a walk asks each question once, so a view is as general as a
    sequence of answers.  Go's map iteration order is arbitrary; a list made from
    a map is here in the map's own order. *)

From S2P Require Export Config.

Record conn := mkConn { conn_pid : Z; conn_port : Z; conn_listen : bool }.

(** [NewProcess]: the process, gone for certain, or neither. *)
Inductive root_state := RootAlive | RootGone | RootUnknown.

Record host_view := mkView {
  NewProcess : Z -> root_state;
  Children : Z -> option (list Z);
  ConnectionsPid : Z -> option (list conn);
  Connections : option (list conn);
  CmdlineSlice : Z -> option (list string)
}.

Record Identity := mkIdentity { PID : Z; Cmdline : list string; Ours : bool }.
Record Holder := mkHolder { h_port : Z; h_ident : Identity }.
Record TreeObservation := mkObs { Holders : gmap Z Holder; Degraded : list Z }.

Definition empty_obs : TreeObservation := mkObs ∅ [].

(** ** The host-wide scan *)

Definition hostTCPScan (v : host_view) : option (list conn * list conn) :=
  match Connections v with
  | Some conns => Some (conns, List.filter conn_listen conns)
  | None => None
  end.

Definition SystemListenSet (v : host_view) : option (gmap Z Z) :=
  match hostTCPScan v with
  | Some (_, listening) => Some (foldl (fun m c => <[conn_port c := conn_pid c]> m) ∅ listening)
  | None => None
  end.

Inductive corroborationResult := corroborationEmpty | corroborationHolds | corroborationFailed.

(** One scan per walk: [hostCorroboration]'s cache is the view itself. *)
Definition holdsListen (v : host_view) (pid : Z) : corroborationResult :=
  match hostTCPScan v with
  | None => corroborationFailed
  | Some ([], _) => corroborationFailed
  | Some (_, listening) =>
      if existsb (fun c => conn_pid c =? pid) listening then corroborationHolds else corroborationEmpty
  end.

Definition ambiguousEmptyReadIsDegraded (v : host_view) (pid : Z) : bool :=
  match holdsListen v pid with corroborationEmpty => false | _ => true end.

Definition listeningPorts (v : host_view) (pid : Z) : option (list Z) :=
  match ConnectionsPid v pid with
  | Some conns => Some (map conn_port (List.filter conn_listen conns))
  | None => None
  end.

(** ** The walk *)

(** [for _, child := range children { ... }]: the children not seen yet join
    the set, the order and the queue. *)
Fixpoint add_children (children : list Z) (visited : gset Z) (order queue : list Z) : gset Z * list Z * list Z :=
  match children with
  | [] => (visited, order, queue)
  | c :: cs =>
      if bool_decide (c ∈ visited) then add_children cs visited order queue
      else add_children cs ({[c]} ∪ visited) (order ++ [c]) (queue ++ [c])
  end.

(** [for len(queue) > 0 { ... }]; [None] when the fuel runs out. *)
Fixpoint walk (fuel : nat) (v : host_view) (visited : gset Z) (order queue : list Z) : option (list Z) :=
  match queue with
  | [] => Some order
  | current :: queue =>
      match fuel with
      | O => None
      | S fuel =>
          match Children v current with
          | None => walk fuel v visited order queue
          | Some children =>
              let '(visited, order, queue) := add_children children visited order queue in
              walk fuel v visited order queue
          end
      end
  end.

Definition collectTreeProcesses (fuel : nat) (v : host_view) (root : Z) : option (list Z) :=
  walk fuel v {[root]} [root] [root].

(** One process of the walk. *)
Definition observe_process (v : host_view) (ours : bool) (obs : TreeObservation) (pid : Z) : TreeObservation :=
  match listeningPorts v pid with
  | None => mkObs (Holders obs) (Degraded obs ++ [pid])
  | Some [] =>
      if ambiguousEmptyReadIsDegraded v pid then mkObs (Holders obs) (Degraded obs ++ [pid]) else obs
  | Some ports =>
      let '(cmdline, degraded) :=
        match CmdlineSlice v pid with
        | Some cmdline => (cmdline, Degraded obs)
        | None => ([], Degraded obs ++ [pid])
        end in
      let ident := mkIdentity pid cmdline ours in
      mkObs (foldl (fun m port => <[port := mkHolder port ident]> m) (Holders obs) ports) degraded
  end.

(** The result of [treeListenSet]: an observation, or which error. *)
Inductive tree_result := TreeOk (obs : TreeObservation) | TreeGone | TreeUnknown | TreeNoFuel.

Definition treeListenSet (fuel : nat) (v : host_view) (root : Z) (ours : bool) : tree_result :=
  match NewProcess v root with
  | RootGone => TreeGone
  | RootUnknown => TreeUnknown
  | RootAlive =>
      match collectTreeProcesses fuel v root with
      | None => TreeNoFuel
      | Some procs => TreeOk (foldl (observe_process v ours) empty_obs procs)
      end
  end.

Definition TreeListenSet (fuel : nat) (v : host_view) (root : Z) : tree_result := treeListenSet fuel v root true.
Definition ListenSet (fuel : nat) (v : host_view) (root : Z) : tree_result := treeListenSet fuel v root false.
Definition IsRootProcessGone (r : tree_result) : bool := match r with TreeGone => true | _ => false end.

(** ** Classification *)

Inductive Classification := CandidateUp | Partial | StrayPort.
#[export] Instance classification_eq_dec : EqDecision Classification.
Proof. solve_decision. Defined.

Record Result := mkResult {
  Class : Classification; Declared : list Z; Actual : list Z; Missing : list Z; Stray : list Z;
  ForeignHolders : gmap Z Identity; r_Degraded : list Z
}.

(** [dedup]: the first occurrence of each port. *)
Fixpoint dedup_from (seen : gset Z) (l : list Z) : list Z :=
  match l with
  | [] => []
  | p :: l => if bool_decide (p ∈ seen) then dedup_from seen l else p :: dedup_from ({[p]} ∪ seen) l
  end.
Definition dedup (l : list Z) : list Z := dedup_from ∅ l.

Definition missing_ports (actual : gmap Z Holder) (l : list Z) : list Z :=
  List.filter (fun p => negb (bool_decide (is_Some (actual !! p)))) l.

Definition foreign_holders (actual : gmap Z Holder) (l : list Z) : gmap Z Identity :=
  foldl (fun m p => match actual !! p with
                    | Some h => if negb (Ours (h_ident h)) then <[p := h_ident h]> m else m
                    | None => m end) ∅ l.

Definition Classify (declared : list Z) (obs : TreeObservation) : Result :=
  let actual := Holders obs in
  let dd := dedup declared in
  let actualPorts := map fst (map_to_list actual) in
  let missing := missing_ports actual dd in
  let stray := List.filter (fun p => negb (bool_decide (p ∈ dd))) actualPorts in
  let class := if (0 <? length stray)%nat then StrayPort
               else if (0 <? length missing)%nat then Partial else CandidateUp in
  mkResult class dd actualPorts missing stray (foreign_holders actual dd) (Degraded obs).

(** [lifecycle.DeclaredPorts] (internal/lifecycle/teardown.go): the loop over
    [Listens] behind the scalar port. *)
Fixpoint declare_listens (seen : gset Z) (l : list Z) : list Z :=
  match l with
  | [] => []
  | p :: l => if bool_decide (p ∈ seen) then declare_listens seen l else p :: declare_listens ({[p]} ∪ seen) l
  end.
Definition DeclaredPorts (s : Server) : list Z :=
  if Port s =? 0 then declare_listens ∅ (Listens s) else Port s :: declare_listens {[Port s]} (Listens s).

(** ** Theorems: what a walk of a process tree finds

    The walk of [Observe.v] visits the processes reachable from the root, each
    once, within as many turns as there are processes; the observation made of
    them holds a port exactly when one of them was read listening on it, and
    names every process that could not be read. *)

#[local] Open Scope Z_scope.

(** The processes under [root], as [Children] answers. *)
Inductive reach (v : host_view) (root : Z) : Z -> Prop :=
| reach_root : reach v root root
| reach_child p cs c : reach v root p -> Children v p = Some cs -> c ∈ cs -> reach v root c.

Definition closed_under (v : host_view) (U : gset Z) : Prop :=
  forall p cs c, p ∈ U -> Children v p = Some cs -> c ∈ cs -> c ∈ U.

Lemma reach_closed v root U p : root ∈ U -> closed_under v U -> reach v root p -> p ∈ U.
Proof. intros Hr HU. induction 1; [done | by eapply HU]. Qed.

Lemma add_children_spec cs vis ord q : exists new,
  add_children cs vis ord q = (vis ∪ list_to_set new, ord ++ new, q ++ new) /\ NoDup new /\
  forall x, x ∈ new <-> x ∈ cs /\ x ∉ vis.
Proof.
  revert vis ord q. induction cs as [|c cs IH]; intros vis ord q; simpl.
  - exists []. rewrite !app_nil_r, list_to_set_nil, union_empty_r_L. split; [done|]. split; [constructor | set_solver].
  - case_bool_decide as Hc.
    + destruct (IH vis ord q) as (new & -> & Hn & Hx). exists new. split; [done|]. split; [done | set_solver].
    + destruct (IH ({[c]} ∪ vis) (ord ++ [c]) (q ++ [c])) as (new & -> & Hn & Hx).
      exists (c :: new). rewrite <- !app_assoc, list_to_set_cons, (union_comm_L {[c]}), <- union_assoc_L. split; [done|].
      split; [constructor; [rewrite Hx; set_solver | done]|].
      intros x. rewrite !elem_of_cons, Hx, not_elem_of_union, elem_of_singleton.
      destruct (decide (x = c)) as [->|]; tauto.
Qed.

(** [order] is what was handled followed by the queue. *)
Lemma walk_spec v root U fuel done queue : closed_under v U -> root ∈ U ->
  let order := done ++ queue in
  NoDup order -> list_to_set order ⊆ U -> (forall p, p ∈ order -> reach v root p) ->
  (forall p cs c, p ∈ done -> Children v p = Some cs -> c ∈ cs -> c ∈ order) ->
  (length queue + size (U ∖ list_to_set order) <= fuel)%nat ->
  exists l, walk fuel v (list_to_set order) order queue = Some (order ++ l) /\ NoDup (order ++ l) /\
    (forall p, p ∈ order ++ l -> reach v root p) /\
    forall p cs c, p ∈ order ++ l -> Children v p = Some cs -> c ∈ cs -> c ∈ order ++ l.
Proof.
  intros HU Hroot. revert done queue. induction fuel as [|fuel IH]; intros done queue order Hnd Hsub Hr Hc Hf; subst order.
  - destruct queue as [|p queue]; [|simpl in Hf; lia]. exists []. rewrite !app_nil_r in *. simpl. auto.
  - destruct queue as [|p queue]; simpl.
    { exists []. rewrite !app_nil_r in *. auto. }
    assert (Happ : done ++ p :: queue = (done ++ [p]) ++ queue) by by rewrite <- app_assoc.
    destruct (Children v p) as [cs|] eqn:E.
    + destruct (add_children_spec cs (list_to_set (done ++ p :: queue)) (done ++ p :: queue) queue) as (new & -> & Hn & Hx).
      rewrite Happ in *. rewrite <- (app_assoc (done ++ [p]) queue new).
      replace (list_to_set ((done ++ [p]) ++ queue) ∪ list_to_set new : gset Z)
        with (list_to_set ((done ++ [p]) ++ queue ++ new) : gset Z) by set_solver.
      assert (Hnew : list_to_set new ⊆ U ∖ list_to_set ((done ++ [p]) ++ queue)).
      { intros x Hx'. apply elem_of_list_to_set, Hx in Hx' as [Hx1 Hx2].
        apply elem_of_difference. split; [|done]. eapply HU, Hx1; [|exact E]. set_solver. }
      destruct (IH (done ++ [p]) (queue ++ new)) as (l & Hl & Hl').
      * rewrite app_assoc. apply NoDup_app. split; [done|]. split; [|done]. set_solver.
      * set_solver.
      * intros x Hx'. rewrite app_assoc, elem_of_app in Hx'. destruct Hx' as [Hx'|Hx']; [by apply Hr|].
        apply Hx in Hx' as [Hx' _]. eapply reach_child; [|exact E|exact Hx']. apply Hr. set_solver.
      * intros q cs' c Hq Hcs Hin. apply elem_of_app in Hq as [Hq|Hq].
        { pose proof (Hc q cs' c Hq Hcs Hin). set_solver. }
        apply list_elem_of_singleton in Hq as ->. rewrite E in Hcs. injection Hcs as <-.
        destruct (decide (c ∈ (list_to_set ((done ++ [p]) ++ queue) : gset Z))) as [Hin'|Hin'].
        { apply elem_of_list_to_set in Hin'. rewrite app_assoc. apply elem_of_app. by left. }
        rewrite app_assoc. apply elem_of_app. right. by apply Hx.
      * rewrite length_app. simpl in Hf.
        replace (U ∖ list_to_set ((done ++ [p]) ++ queue ++ new))
          with ((U ∖ list_to_set ((done ++ [p]) ++ queue)) ∖ list_to_set new) by set_solver.
        rewrite size_difference by done. rewrite size_list_to_set by done.
        apply subseteq_size in Hnew. rewrite size_list_to_set in Hnew by done. lia.
      * exists (new ++ l). rewrite !app_assoc in *. rewrite <- Hl. split; [|done]. by rewrite <- !app_assoc.
    + destruct (IH (done ++ [p]) queue) as (l & Hl & Hl'); rewrite <- ?Happ; [done|done|done| |simpl in Hf; lia|].
      * intros q cs' c Hq Hcs Hin. apply elem_of_app in Hq as [Hq|Hq]; [by eapply Hc|].
        apply list_elem_of_singleton in Hq as ->. congruence.
      * rewrite <- Happ in *. by exists l.
Qed.

(** ** One observation *)

(** [pid] was read listening on [port]. *)
Definition listens (v : host_view) (pid port : Z) : Prop :=
  exists ports, listeningPorts v pid = Some ports /\ port ∈ ports.

(** What the observation notes of [pid] as not fully read. *)
Definition unread (v : host_view) (pid : Z) : bool :=
  match listeningPorts v pid with
  | None => true
  | Some [] => ambiguousEmptyReadIsDegraded v pid
  | Some _ => match CmdlineSlice v pid with Some _ => false | None => true end
  end.

Lemma fold_insert_ports ident ports (m : gmap Z Holder) port :
  foldl (fun m p => <[p := mkHolder p ident]> m) m ports !! port =
  if bool_decide (port ∈ ports) then Some (mkHolder port ident) else m !! port.
Proof.
  revert m. induction ports as [|p ports IH]; intros m; simpl; [done|]. rewrite IH.
  destruct (decide (port = p)) as [->|Hp].
  - rewrite (bool_decide_true (p ∈ p :: ports)) by set_solver. rewrite lookup_insert_eq. by case_bool_decide.
  - rewrite lookup_insert_ne by done. by rewrite (bool_decide_ext (port ∈ p :: ports) (port ∈ ports)) by set_solver.
Qed.

Lemma observe_process_holders v ours obs pid port :
  Holders (observe_process v ours obs pid) !! port =
  match listeningPorts v pid with
  | Some ports =>
      if bool_decide (port ∈ ports)
      then Some (mkHolder port (mkIdentity pid (default [] (CmdlineSlice v pid)) ours)) else Holders obs !! port
  | None => Holders obs !! port
  end.
Proof.
  unfold observe_process. destruct (listeningPorts v pid) as [[|p ports]|]; [by destruct (ambiguousEmptyReadIsDegraded v pid)| |done].
  destruct (CmdlineSlice v pid); cbn [Holders]; by rewrite fold_insert_ports.
Qed.

Lemma observe_process_degraded v ours obs pid :
  Degraded (observe_process v ours obs pid) = Degraded obs ++ (if unread v pid then [pid] else []).
Proof.
  unfold observe_process, unread. destruct (listeningPorts v pid) as [[|p ports]|]; simpl; [| |done].
  - destruct (ambiguousEmptyReadIsDegraded v pid); simpl; by rewrite ?app_nil_r.
  - destruct (CmdlineSlice v pid); simpl; by rewrite ?app_nil_r.
Qed.

(** The observation of a list of processes; the last one read on a port holds it. *)
Lemma observe_holders v ours procs port :
  let obs := foldl (observe_process v ours) empty_obs procs in
  match Holders obs !! port with
  | Some h => h_port h = port /\ Ours (h_ident h) = ours /\ PID (h_ident h) ∈ procs /\ listens v (PID (h_ident h)) port
  | None => forall pid, pid ∈ procs -> ~ listens v pid port
  end.
Proof.
  induction procs as [|pid procs IH] using rev_ind; simpl; [rewrite lookup_empty; intros pid Hp; set_solver|].
  rewrite foldl_snoc, observe_process_holders. simpl in IH.
  set (m := Holders (foldl _ _ _)) in *.
  assert (Hold : ~ listens v pid port -> match m !! port with
    | Some h => h_port h = port /\ Ours (h_ident h) = ours /\ PID (h_ident h) ∈ procs ++ [pid] /\ listens v (PID (h_ident h)) port
    | None => forall p, p ∈ procs ++ [pid] -> ~ listens v p port end).
  { intros Hn. destruct (m !! port) as [h|]; [destruct IH as (? & ? & ? & ?); set_solver|].
    intros p Hp. apply elem_of_app in Hp as [Hp|Hp]; [by apply IH|]. by apply list_elem_of_singleton in Hp as ->. }
  destruct (listeningPorts v pid) as [ports|] eqn:E; [case_bool_decide as Hp|].
  - simpl. repeat split; [set_solver|]. by exists ports.
  - apply Hold. intros (ports' & Hl & Hin). congruence.
  - apply Hold. intros (ports' & Hl & Hin). congruence.
Qed.

Lemma observe_degraded v ours procs :
  Degraded (foldl (observe_process v ours) empty_obs procs) = List.filter (unread v) procs.
Proof.
  induction procs as [|pid procs IH] using rev_ind; [done|].
  rewrite foldl_snoc, observe_process_degraded, IH, List.filter_app. simpl. by destruct (unread v pid).
Qed.

(** What the whole walk finds. *)
Lemma TreeListenSet_full (v : host_view) (root : Z) (U : gset Z) (fuel : nat)
    (Halive : NewProcess v root = RootAlive) (Hroot : root ∈ U) (HU : closed_under v U) (Hfuel : (size U <= fuel)%nat) :
  exists obs, TreeListenSet fuel v root = TreeOk obs /\
    (forall port, match Holders obs !! port with
                  | Some h => h_port h = port /\ Ours (h_ident h) = true /\ reach v root (PID (h_ident h)) /\
                              listens v (PID (h_ident h)) port
                  | None => forall pid, reach v root pid -> ~ listens v pid port
                  end) /\
    NoDup (Degraded obs) /\ (forall pid, pid ∈ Degraded obs <-> reach v root pid /\ unread v pid = true).
Proof.
  destruct (walk_spec v root U fuel [] [root]) as (l & Hw & Hnd & Hr & Hcl); simpl.
  - done.
  - done.
  - apply NoDup_singleton.
  - set_solver.
  - intros p ->%list_elem_of_singleton. constructor.
  - intros p cs c Hp. set_solver.
  - assert (Hs : (size ({[root]} : gset Z) <= size U)%nat) by (apply subseteq_size; set_solver).
    rewrite union_empty_r_L, size_difference by set_solver. rewrite size_singleton in *. lia.
  - set (procs := [root] ++ l) in *.
    assert (Hall : forall p, p ∈ procs <-> reach v root p).
    { intros p. split; [apply Hr|]. induction 1 as [|p cs c _ IH Hcs Hin]; [set_solver | by eapply Hcl]. }
    exists (foldl (observe_process v true) empty_obs procs).
    unfold TreeListenSet, treeListenSet, collectTreeProcesses. rewrite Halive.
    simpl in Hw. rewrite union_empty_r_L in Hw. rewrite Hw. split; [done|]. split; [|split].
    + intros port. pose proof (observe_holders v true procs port) as H. simpl in H.
      destruct (Holders _ !! port) as [h|]; [by rewrite Hall in H|]. intros pid Hp. by apply H, Hall.
    + rewrite observe_degraded. rewrite NoDup_ListNoDup in *. by apply List.NoDup_filter.
    + intros pid. rewrite observe_degraded, list_elem_of_In, filter_In, <- list_elem_of_In, Hall. done.
Qed.

(** The part the status table's proofs use. *)
Lemma TreeListenSet_holders v root U fuel : NewProcess v root = RootAlive -> root ∈ U -> closed_under v U -> (size U <= fuel)%nat ->
  exists obs, TreeListenSet fuel v root = TreeOk obs /\
    (forall port, match Holders obs !! port with
                  | Some h => h_port h = port /\ Ours (h_ident h) = true /\ reach v root (PID (h_ident h)) /\
                              listens v (PID (h_ident h)) port
                  | None => forall pid, reach v root pid -> ~ listens v pid port
                  end) /\
    forall pid, pid ∈ Degraded obs <-> reach v root pid /\ unread v pid = true.
Proof. intros H1 H2 H3 H4. destruct (TreeListenSet_full v root U fuel H1 H2 H3 H4) as (obs & ? & ? & ? & ?). by exists obs. Qed.

(** Walking a process tree visits exactly the processes reachable from the root, cycles
    and all, in at most as many turns as there are processes; a port is reported held
    exactly when a visited process was read listening on it, by such a process and marked
    ours; and exactly the processes that could not be read for certain are listed as
    degraded, once each. *)
Theorem TreeListenSet_observes (v : host_view) (root : Z) (U : gset Z) (fuel : nat)
    (Halive : NewProcess v root = RootAlive) (Hroot : root ∈ U) (HU : closed_under v U) (Hfuel : (size U <= fuel)%nat) :
  exists obs, TreeListenSet fuel v root = TreeOk obs /\
    (forall port, match Holders obs !! port with
                  | Some h => h_port h = port /\ Ours (h_ident h) = true /\ reach v root (PID (h_ident h)) /\
                              listens v (PID (h_ident h)) port
                  | None => forall pid, reach v root pid -> ~ listens v pid port
                  end) /\
    NoDup (Degraded obs) /\ (forall pid, pid ∈ Degraded obs <-> reach v root pid /\ unread v pid = true).
Proof. by apply (TreeListenSet_full v root U). Qed.

(** A process tree with a cycle, a process whose ports cannot be read and one
    whose empty read the host-wide scan confirms. *)
Definition ex_tree : host_view :=
  mkView (fun _ => RootAlive) (fun p => if p =? 10 then Some [11; 12] else if p =? 11 then Some [10] else None)
    (fun p => if p =? 10 then Some [mkConn 10 8080 true; mkConn 10 50000 false] else if p =? 11 then None else Some [])
    (Some [mkConn 10 8080 true]) (fun _ => Some ["prog"]).

Lemma TreeListenSet_observes_witness : exists obs, TreeListenSet 3 ex_tree 10 = TreeOk obs /\
  is_Some (Holders obs !! 8080) /\ Degraded obs = [11].
Proof.
  destruct (TreeListenSet_observes ex_tree 10 {[10; 11; 12]} 3) as (obs & H & _).
  - reflexivity.
  - set_solver.
  - intros p cs c _. cbn. destruct (p =? 10); [intros [= <-]; set_solver|]. destruct (p =? 11); [intros [= <-]; set_solver | done].
  - vm_compute. lia.
  - exists obs. split; [exact H|]. vm_compute in H. injection H as <-. split; [by eexists | reflexivity].
Defined.
