(* ===== verification/Status.v ===== *)
(** * Status: the state of each server and its row in the table

    Models the status path of [cmd/aa-server-status]: [ownedPIDLocked],
    [statusForLocked] and their helpers ([engine.go]), the states and rows
    ([lifecycle.go]) and their rendering ([render.go]).  The process registry is
    a map from server names to launched children; what the operating system, the
    health check and the staleness probe answer are arguments. *)

From stdpp Require Import pretty sorting.
From S2P Require Export Health Observe.

#[local] Open Scope Z_scope.

(** ** The registry *)

(** [lifecycle.Process]: the pid of the command, if it has one, and whether the
    Wait goroutine has seen it exit. *)
Record Process := mkProcess { p_pid : option Z; Exited : bool }.

Definition pidOf (p : Process) : option Z := p_pid p.

Definition ownedPIDLocked (procs : gmap string Process) (s : Server) : option Z :=
  match procs !! Name s with
  | None => None
  | Some p => if negb (Detached s) && Exited p then None else pidOf p
  end.

(** ** Rows *)

Inductive ServerState :=
| StateUp | StateDown | StateDisabled | StateStray | StatePartial | StateExtraListener | StateForeignConflict | StateBlocked.
#[export] Instance server_state_eq_dec : EqDecision ServerState.
Proof. solve_decision. Defined.

Definition state_text (st : ServerState) : string :=
  match st with
  | StateUp => "up" | StateDown => "down" | StateDisabled => "disabled" | StateStray => "STRAY" | StatePartial => "partial"
  | StateExtraListener => "extra-listener" | StateForeignConflict => "foreign-conflict" | StateBlocked => "BLOCKED"
  end.

Record PortStatus := mkPort { ps_Port : Z; ps_Up : bool; ps_Unexpected : bool }.

Record ServerStatus := mkStatus {
  st_Name : string; st_Type : string; st_Enabled : bool; State : ServerState; Ports : list PortStatus; st_PID : Z;
  st_Health : string; OwnedDisabled : bool; Stale : bool; AnomalyDetail : string
}.
#[export] Instance status_eta : Eta ServerStatus := fun s =>
  mkStatus (st_Name s) (st_Type s) (st_Enabled s) (State s) (Ports s) (st_PID s) (st_Health s) (OwnedDisabled s) (Stale s)
    (AnomalyDetail s).

(** ** Observing *)

(** [None]: the walk ran out of fuel. *)
Definition observeOwnedTree (fuel : nat) (v : host_view) (pid : Z) : option (TreeObservation * bool) :=
  match TreeListenSet fuel v pid with
  | TreeOk obs => Some (obs, false)
  | TreeGone => Some (empty_obs, false)
  | TreeUnknown => Some (empty_obs, true)
  | TreeNoFuel => None
  end.

Definition cmdlineForPID (v : host_view) (pid : Z) : option (list string) :=
  match NewProcess v pid with RootAlive => CmdlineSlice v pid | _ => None end.

Definition NewForeignIdentity (v : host_view) (pid : Z) : option Identity :=
  match cmdlineForPID v pid with Some cmdline => Some (mkIdentity pid cmdline false) | None => None end.

Fixpoint host_holders (v : host_view) (holders : gmap Z Z) (declared : list Z) (out : gmap Z Holder) : gmap Z Holder :=
  match declared with
  | [] => out
  | port :: declared =>
      match holders !! port with
      | None => host_holders v holders declared out
      | Some pid =>
          let ident := default (mkIdentity pid [] false) (NewForeignIdentity v pid) in
          host_holders v holders declared (<[port := mkHolder port ident]> out)
      end
  end.

Definition hostObservationFor (v : host_view) (declared : list Z) : TreeObservation :=
  match SystemListenSet v with
  | None => empty_obs
  | Some holders => mkObs (host_holders v holders declared ∅) []
  end.

Definition isUnconfirmedObservation (isOurs : bool) (class : Result) (unconfirmedRoot : bool) : bool :=
  isOurs && (length (Actual class) =? 0)%nat && (unconfirmedRoot || (0 <? length (r_Degraded class))%nat).

Definition classifyOwned (class : Result) : ServerState :=
  match Class class with StrayPort => StateExtraListener | Partial => StatePartial | CandidateUp => StateUp end.

Definition sortedKeys (m : gmap Z Identity) : list Z := merge_sort Z.le (map fst (map_to_list m)).

(** Called on a map that is not empty. *)
Definition firstForeignHolder (m : gmap Z Identity) : Identity :=
  default (mkIdentity 0 [] false) (k ← head (sortedKeys m); m !! k).

Definition renderPorts (declared : list Z) (class : Result) : list PortStatus :=
  map (fun p => mkPort p (bool_decide (p ∈ Actual class)) false) declared ++ map (fun p => mkPort p false true) (Stray class).

Definition resolveHealthTimeout (sup : Supervisor) : Z := or_default DefaultHealthTimeout (sv_HealthTimeout sup).
Definition resolveReadyTimeout (s : Server) (sup : Supervisor) : Z :=
  if negb (ReadyTimeout s =? 0) then ReadyTimeout s else or_default DefaultReadyTimeout (sv_ReadyTimeout sup).
Definition resolvePollInterval (sup : Supervisor) : Z := or_default DefaultPollInterval (sv_PollInterval sup).

Definition unconfirmed_detail : string := "observation unconfirmed this cycle — reported ports may not reflect reality".
Definition incomplete_detail : string := "a tree member could not be fully observed — treat this reading as incomplete".

(** The [switch] of [statusForLocked]. *)
Definition status_state (s : Server) (pid : option Z) (class : Result) (unconfirmed : bool) (st : ServerStatus) : ServerStatus :=
  let isOurs := bool_decide (is_Some pid) in
  if (length (Actual class) =? 0)%nat && negb unconfirmed then st <| State := StateDown |>
  else if isOurs && negb (Detached s) then
    let st := st <| st_PID := default 0 pid |> <| State := classifyOwned class |> in
    let st := if unconfirmed then st <| AnomalyDetail := unconfirmed_detail |>
              else if (0 <? length (r_Degraded class))%nat then st <| AnomalyDetail := incomplete_detail |> else st in
    if bool_decide (State st = StateUp) && negb (Enabled s) then st <| OwnedDisabled := true |> else st
  else if Detached s && bool_decide (Class class = CandidateUp) then st <| State := StateUp |>
  else if (0 <? size (ForeignHolders class))%nat then
    let holder := firstForeignHolder (ForeignHolders class) in
    st <| AnomalyDetail := "pid " +:+ pretty (PID holder) +:+ ", foreign" |> <| State := StateStray |>
  else if bool_decide (Class class = StrayPort) then st <| State := StateExtraListener |>
  else st <| State := StatePartial |>.

(** Its observation: by the host's ports when the server is detached or not ours. *)
Definition observe_server (fuel : nat) (v : host_view) (s : Server) (pid : option Z) : option (TreeObservation * bool) :=
  match pid with
  | Some pid => if Detached s then Some (hostObservationFor v (DeclaredPorts s), false) else observeOwnedTree fuel v pid
  | None => Some (hostObservationFor v (DeclaredPorts s), false)
  end.

(** Its last two statements: the health cell, and [staleness], what
    [ProbeStaleness] says, [None] for an error. *)
Definition status_finish (probe : answers) (staleness : option bool) (s : Server) (st : ServerStatus) : ServerStatus :=
  let st :=
    if (bool_decide (State st = StateUp) || bool_decide (State st = StateStray)) && h_Declared (Health_ s)
    then st <| st_Health := Rendered (Probe (ResolveSpec (Health_ s) (Host s) (Port s)) probe) |> else st in
  if bool_decide (Type_ s = TypeSource) then match staleness with Some b => st <| Stale := b |> | None => st end else st.

Definition statusForLocked (fuel : nat) (v : host_view) (probe : answers) (staleness : option bool)
    (procs : gmap string Process) (s : Server) : option ServerStatus :=
  let declared := DeclaredPorts s in
  let pid := ownedPIDLocked procs s in
  match observe_server fuel v s pid with
  | None => None
  | Some (obs, unconfirmedRoot) =>
      let class := Classify declared obs in
      let st := mkStatus (Name s) (Type_ s) (Enabled s) StateDown (renderPorts declared class) 0 "" false false "" in
      let unconfirmed := isUnconfirmedObservation (bool_decide (is_Some pid)) class unconfirmedRoot in
      Some (status_finish probe staleness s (status_state s pid class unconfirmed st))
  end.

(** ** Rendering *)

Definition quietDisabled (s : ServerStatus) : bool :=
  if st_Enabled s || Stale s || negb (st_PID s =? 0) then false
  else if negb (bool_decide (State s = StateDown)) && negb (bool_decide (State s = StateDisabled)) then false
  else negb (existsb (fun p => ps_Up p || ps_Unexpected p) (Ports s)).

Definition esc (code : string) : string := String (Ascii.ascii_of_nat 27) code.
Definition ansiReset : string := esc "[0m".
Definition ansiGreen : string := esc "[32m".
Definition ansiDim : string := esc "[2m".
Definition ansiYellow : string := esc "[33m".
Definition ansiRed : string := esc "[31m".

Definition colorize (code text : string) : string := code +:+ text +:+ ansiReset.

Definition redStates (st : ServerState) : bool :=
  match st with StateStray | StatePartial | StateExtraListener | StateForeignConflict | StateBlocked => true | _ => false end.

Definition anomalyDetailStates (st : ServerState) : bool :=
  match st with StateStray | StateBlocked | StatePartial | StateUp | StateExtraListener => true | _ => false end.

Definition withAnomalyDetail (s : ServerStatus) (text : string) : string :=
  if negb (bool_decide (AnomalyDetail s = "")) && anomalyDetailStates (State s)
  then text +:+ " (" +:+ AnomalyDetail s +:+ ")" else text.

Definition colorForState (st : ServerState) : string :=
  match st with
  | StateUp => ansiGreen
  | StateDown | StateDisabled => ansiDim
  | st => if redStates st then ansiRed else ""
  end.

Definition formatStateCell (s : ServerStatus) : string :=
  if Stale s then colorize ansiYellow "stale"
  else if bool_decide (State s = StateUp) && negb (st_Enabled s) && OwnedDisabled s
  then colorize ansiYellow (withAnomalyDetail s "up (disabled)")
  else
    let text := withAnomalyDetail s (state_text (State s)) in
    let color := colorForState (State s) in
    if negb (bool_decide (color = "")) then colorize color text else text.

Definition formatPort (p : PortStatus) : string :=
  if ps_Unexpected p then "+" +:+ pretty (ps_Port p) +:+ " ✗unexpected"
  else pretty (ps_Port p) +:+ " " +:+ (if ps_Up p then "✓" else "✗").
Definition formatPorts (ports : list PortStatus) : string :=
  match ports with [] => "-" | _ => String.concat " " (map formatPort ports) end.

Definition formatDesired (enabled : bool) : string := if enabled then "up" else "down".
Definition formatPID (pid : Z) : string := if pid =? 0 then "-" else pretty pid.
Definition formatHealth (health : string) : string := if bool_decide (health = "") then "-" else health.

Definition maxNameLen : nat := 16.
Definition formatRow (s : ServerStatus) : list string :=
  let name := if (maxNameLen <? String.length (st_Name s))%nat then String.substring 0 maxNameLen (st_Name s) else st_Name s in
  [name; st_Type s; formatDesired (st_Enabled s); formatStateCell s; formatPorts (Ports s); formatPID (st_PID s);
   formatHealth (st_Health s)].

(** [printStatus] (repl.go), up to the table it prints: one row per server, less
    the quiet disabled ones. *)
Fixpoint printStatus (statuses : list ServerStatus) : list (list string) :=
  match statuses with
  | [] => []
  | s :: statuses => if quietDisabled s then printStatus statuses else formatRow s :: printStatus statuses
  end.
