(* ===== verification/StatusThms.v ===== *)
(** * StatusThms: what a row of the status table says

    A row without an anomaly note tells the truth about the ports of the processes
    the walk was told of, for every way the operating system's answers may fail
    short of an invented or a truncated list; a row with a note shows it; and
    where the program falls short of this: a reading of a process's children
    that fails, and a host-wide scan that fails. *)

From stdpp Require Import pretty sorting.
From S2P Require Import Config Observe Status.

#[local] Open Scope Z_scope.

(** ** An honest host

    [kids] and [real] are the processes and their listening ports as they are.
    Any read fails, comes back empty, or is right, the reading of a process's
    children included; a process said to be gone has nothing. *)
Definition rows_of (cs : list conn) (pid port : Z) : Prop :=
  exists c, c ∈ cs /\ conn_listen c = true /\ conn_pid c = pid /\ conn_port c = port.

Record honest (v : host_view) (kids : Z -> list Z) (real : Z -> gset Z) : Prop := {
  hn_children p cs : Children v p = Some cs -> cs = [] \/ cs = kids p;
  hn_conns p cs : ConnectionsPid v p = Some cs ->
    cs = [] \/ forall port, (exists c, c ∈ cs /\ conn_listen c = true /\ conn_port c = port) <-> port ∈ real p;
  hn_scan cs : Connections v = Some cs -> cs = [] \/ forall p port, rows_of cs p port <-> port ∈ real p;
  hn_gone p : NewProcess v p = RootGone -> real p = ∅ /\ kids p = []
}.

Inductive descends (kids : Z -> list Z) (root : Z) : Z -> Prop :=
| descends_root : descends kids root root
| descends_child p c : descends kids root p -> c ∈ kids p -> descends kids root c.

(** The ports the tree under [root] listens on, and those of the whole host. *)
Definition tree_port (kids : Z -> list Z) (real : Z -> gset Z) (root port : Z) : Prop :=
  exists p, descends kids root p /\ port ∈ real p.
Definition host_port (real : Z -> gset Z) (port : Z) : Prop := exists p, port ∈ real p.

(** The children the walk is told of, and a walk that is told of them all. *)
Definition told (v : host_view) (p : Z) : list Z := default [] (Children v p).
Definition children_read (v : host_view) (kids : Z -> list Z) (root : Z) : Prop :=
  forall p, descends kids root p -> told v p = kids p.










(** ** The comparison with the declared ports *)

Lemma dedup_from_elem l seen p : p ∈ dedup_from seen l <-> p ∈ l /\ p ∉ seen.
Proof.
  revert seen. induction l as [|x l IH]; intros seen; simpl; [set_solver|].
  case_bool_decide as Hx; rewrite ?elem_of_cons, IH, ?not_elem_of_union, ?elem_of_singleton; [set_solver|].
  destruct (decide (p = x)) as [->|]; tauto.
Qed.

Lemma dedup_elem l p : p ∈ dedup l <-> p ∈ l.
Proof. unfold dedup. rewrite dedup_from_elem. set_solver. Qed.

Lemma Actual_elem declared obs p : p ∈ Actual (Classify declared obs) <-> is_Some (Holders obs !! p).
Proof.
  simpl. rewrite list_elem_of_In, in_map_iff. split.
  - intros ([q h] & <- & Hin). exists h. by apply elem_of_map_to_list, list_elem_of_In.
  - intros [h Hh]. exists (p, h). split; [done|]. by apply list_elem_of_In, elem_of_map_to_list.
Qed.

Lemma filter_length_pos {A} (f : A -> bool) l : (0 <? length (List.filter f l))%nat = true <-> exists x, x ∈ l /\ f x = true.
Proof.
  rewrite length_pos. split.
  - destruct (List.filter f l) as [|x k] eqn:E; [done|]. intros _. exists x.
    rewrite list_elem_of_In. apply filter_In. rewrite E. by left.
  - intros (x & Hx & Hf) E. assert (Hin : In x (List.filter f l)) by (apply filter_In; by rewrite <- list_elem_of_In).
    by rewrite E in Hin.
Qed.

(** [Classify], as sets. *)
Lemma Classify_class declared obs :
  match Class (Classify declared obs) with
  | StrayPort => exists p, is_Some (Holders obs !! p) /\ p ∉ declared
  | Partial => (forall p, is_Some (Holders obs !! p) -> p ∈ declared) /\ exists p, p ∈ declared /\ ~ is_Some (Holders obs !! p)
  | CandidateUp => forall p, is_Some (Holders obs !! p) <-> p ∈ declared
  end.
Proof.
  set (f := fun p => negb (bool_decide (p ∈ dedup declared))). set (g := fun p => negb (bool_decide (is_Some (Holders obs !! p)))).
  assert (Hf : forall p, f p = true <-> p ∉ declared) by (intros p; unfold f; rewrite negb_true_iff, bool_decide_eq_false, dedup_elem; done).
  assert (Hg : forall p, g p = true <-> ~ is_Some (Holders obs !! p)) by (intros p; unfold g; by rewrite negb_true_iff, bool_decide_eq_false).
  assert (Ha : forall p, p ∈ map fst (map_to_list (Holders obs)) <-> is_Some (Holders obs !! p)) by (intros p; exact (Actual_elem declared obs p)).
  pose proof (filter_length_pos f (map fst (map_to_list (Holders obs)))) as Hstray.
  pose proof (filter_length_pos g (dedup declared)) as Hmiss.
  cbn [Classify Class]. fold f. unfold missing_ports. fold g.
  destruct (0 <? length (List.filter f _))%nat.
  - destruct (proj1 Hstray eq_refl) as (p & Hp & Hfp). exists p. split; [by apply Ha | by apply Hf].
  - assert (Hsub : forall p, is_Some (Holders obs !! p) -> p ∈ declared).
    { intros p Hp. destruct (decide (p ∈ declared)) as [|Hn]; [done|].
      discriminate (proj2 Hstray). exists p. split; [by apply Ha | by apply Hf]. }
    destruct (0 <? length (List.filter g _))%nat.
    + split; [done|]. destruct (proj1 Hmiss eq_refl) as (p & Hp & Hgp). exists p. split; [by apply dedup_elem | by apply Hg].
    + intros p. split; [apply Hsub|]. intros Hp. destruct (decide (is_Some (Holders obs !! p))) as [|Hn]; [done|].
      discriminate (proj2 Hmiss). exists p. split; [by apply dedup_elem | by apply Hg].
Qed.

Lemma Actual_empty declared obs : (length (Actual (Classify declared obs)) =? 0)%nat = true <-> forall p, ~ is_Some (Holders obs !! p).
Proof.
  rewrite Nat.eqb_eq, length_zero. split.
  - intros E p Hp. apply (Actual_elem declared) in Hp. rewrite E in Hp. set_solver.
  - intros H. destruct (Actual (Classify declared obs)) as [|p l] eqn:E; [done|]. exfalso. apply (H p), (Actual_elem declared).
    rewrite E. set_solver.
Qed.

(** ** An owned server *)










(** The last two statements of [statusForLocked] leave these fields alone. *)
Lemma status_finish_same probe stale s st :
  State (status_finish probe stale s st) = State st /\ Ports (status_finish probe stale s st) = Ports st /\
  AnomalyDetail (status_finish probe stale s st) = AnomalyDetail st.
Proof. unfold status_finish. repeat case_match; done. Qed.


(** ** A server observed by the ports of the host *)

Lemma foldl_scan (l : list conn) (m : gmap Z Z) p :
  is_Some (foldl (fun m c => <[conn_port c := conn_pid c]> m) m l !! p) <-> is_Some (m !! p) \/ exists c, c ∈ l /\ conn_port c = p.
Proof.
  revert m. induction l as [|c l IH]; intros m; simpl; [split; [by left | intros [?|(c & Hc & _)]; [done | set_solver]]|].
  rewrite IH. destruct (decide (p = conn_port c)) as [->|Hp].
  - rewrite lookup_insert_eq. split; [intros _; right; exists c; set_solver | intros _; left; by eexists].
  - rewrite lookup_insert_ne by done. split; (intros [?|(c' & Hc & <-)]; [by left | right; exists c'; set_solver]).
Qed.

Lemma SystemListenSet_honest v kids real cs : honest v kids real -> Connections v = Some cs -> cs <> [] ->
  exists m, SystemListenSet v = Some m /\ forall p, is_Some (m !! p) <-> host_port real p.
Proof.
  intros H Hc Hne. unfold SystemListenSet, hostTCPScan. rewrite Hc. eexists. split; [done|]. intros p.
  rewrite foldl_scan, lookup_empty. destruct (hn_scan _ _ _ H cs Hc) as [|Hr]; [done|]. unfold host_port. split.
  - intros [[? ?]|(c & Hin & <-)]; [done|]. apply list_elem_of_In, filter_In in Hin as [Hin Hl].
    exists (conn_pid c). apply Hr. exists c. by rewrite list_elem_of_In.
  - intros [q Hq]. right. apply Hr in Hq as (c & Hin & Hl & _ & Hp). exists c. split; [|done].
    apply list_elem_of_In, filter_In. by rewrite <- list_elem_of_In.
Qed.

Lemma host_holders_lookup v m declared out p : host_holders v m declared out !! p =
  if bool_decide (p ∈ declared) then
    match m !! p with
    | Some pid => Some (mkHolder p (default (mkIdentity pid [] false) (NewForeignIdentity v pid)))
    | None => out !! p end
  else out !! p.
Proof.
  revert out. induction declared as [|q declared IH]; intros out; simpl; [done|].
  destruct (decide (p = q)) as [->|Hp].
  - rewrite (bool_decide_true (q ∈ q :: declared)) by set_solver.
    destruct (m !! q) as [pid|] eqn:E; rewrite IH; [rewrite lookup_insert_eq|]; by case_bool_decide.
  - rewrite (bool_decide_ext (p ∈ q :: declared) (p ∈ declared)) by set_solver.
    destruct (m !! q) as [pid|]; rewrite IH; [by rewrite lookup_insert_ne by done | done].
Qed.

Lemma foreign_holders_empty actual l : (forall p h, actual !! p = Some h -> Ours (h_ident h) = false) ->
  (exists p, p ∈ l /\ is_Some (actual !! p)) -> (0 <? size (foreign_holders actual l))%nat = true.
Proof.
  intros Hf Hex. apply Nat.ltb_lt.
  assert (Hgen : forall l m, (m <> ∅ \/ exists p, p ∈ l /\ is_Some (actual !! p)) ->
    foldl (fun m p => match actual !! p with Some h => if negb (Ours (h_ident h)) then <[p := h_ident h]> m else m | None => m end) m l <> (∅ : gmap Z Identity)).
  { clear l Hex. induction l as [|p l IH]; intros m Hm; simpl; [destruct Hm as [|(p & Hp & _)]; [done | set_solver]|].
    apply IH. destruct (actual !! p) as [h|] eqn:E.
    - rewrite (Hf p h E). left. apply insert_non_empty.
    - destruct Hm as [|(q & Hq & Hs)]; [by left|]. right. exists q. split; [|done].
      apply elem_of_cons in Hq as [->|]; [|done]. rewrite E in Hs. by destruct Hs. }
  destruct (size (foreign_holders actual l)) eqn:E; [|lia]. exfalso. apply map_size_empty_inv in E.
  by apply (Hgen l ∅ (or_intror Hex)).
Qed.

(** For a server observed by the ports of the host, when the host-wide scan delivers:
    up means a detached server with all its ports held, down means none is, and STRAY that
    some are, and not all for a detached one; no other state is rendered. *)
Theorem host_status_true (fuel : nat) (v : host_view) (probe : answers) (stale : option bool)
    (procs : gmap string Process) (s : Server) (kids : Z -> list Z) (real : Z -> gset Z) (cs : list conn)
    (Hhost : honest v kids real) (Hby : Detached s = true \/ ownedPIDLocked procs s = None)
    (Hscan : Connections v = Some cs) (Hcs : cs <> []) :
  exists st, statusForLocked fuel v probe stale procs s = Some st /\
    match State st with
    | StateUp => Detached s = true /\ forall p, p ∈ DeclaredPorts s -> host_port real p
    | StateDown => forall p, p ∈ DeclaredPorts s -> ~ host_port real p
    | StateStray =>
        (exists p, p ∈ DeclaredPorts s /\ host_port real p) /\
        (Detached s = true -> exists p, p ∈ DeclaredPorts s /\ ~ host_port real p)
    | _ => False
    end.
Proof.
  destruct (SystemListenSet_honest v kids real cs Hhost Hscan Hcs) as (m & Hm & Hreal).
  set (declared := DeclaredPorts s). set (obs := mkObs (host_holders v m declared ∅) []).
  assert (Hlook : forall p, is_Some (Holders obs !! p) <-> p ∈ declared /\ host_port real p).
  { intros p. cbn. rewrite host_holders_lookup, lookup_empty, <- Hreal.
    case_bool_decide; [|by split; [intros [? ?] | intros [? _]]].
    destruct (m !! p); split; intros Hx; [split; [done | by eexists] | by eexists | by destruct Hx | by destruct Hx as [_ [? ?]]]. }
  assert (Hfor : forall p h, Holders obs !! p = Some h -> Ours (h_ident h) = false).
  { intros p h. cbn. rewrite host_holders_lookup, lookup_empty. case_bool_decide; [|done].
    destruct (m !! p); [|done]. intros [= <-]. unfold NewForeignIdentity. cbn. by destruct (cmdlineForPID v _). }
  set (class := Classify declared obs).
  assert (Hst : exists st0 st, statusForLocked fuel v probe stale procs s = Some st /\
    State st = State (status_state s (ownedPIDLocked procs s) class false st0)).
  { unfold statusForLocked.
    assert (Hobs : observe_server fuel v s (ownedPIDLocked procs s) = Some (obs, false)).
    { unfold observe_server, hostObservationFor. rewrite Hm. destruct Hby as [-> | ->]; [by destruct (ownedPIDLocked procs s) | done]. }
    rewrite Hobs. fold declared class. eexists _, _. split; [reflexivity|].
    rewrite (proj1 (status_finish_same _ _ _ _)). f_equal. f_equal.
    unfold isUnconfirmedObservation. cbn. by rewrite andb_false_r. }
  destruct Hst as (st0 & st & Hst & Hs). exists st. split; [done|]. rewrite Hs. clear Hs Hst.
  pose proof (Classify_class declared obs) as Hc. fold class in Hc.
  pose proof (Actual_empty declared obs) as He. fold class in He.
  unfold status_state. destruct (length (Actual class) =? 0)%nat.
  { cbn. intros p Hp Hh. by apply (proj1 He eq_refl p), Hlook. }
  replace (bool_decide (is_Some (ownedPIDLocked procs s)) && negb (Detached s)) with false
    by (destruct Hby as [-> | ->]; [by rewrite andb_false_r | done]).
  assert (Hex : exists p, p ∈ declared /\ is_Some (Holders obs !! p)).
  { destruct (decide (Exists (fun p => is_Some (Holders obs !! p)) declared)) as [(p & Hp & Hi)%Exists_exists|Hn]; [by exists p|].
    discriminate (proj2 He). intros p Hp. apply Hn, Exists_exists. exists p. split; [by apply Hlook | done]. }
  assert (Hpos : (0 <? size (ForeignHolders class))%nat = true).
  { apply (foreign_holders_empty (Holders obs) (dedup declared) Hfor). destruct Hex as (p & Hp & Hi). exists p. by rewrite dedup_elem. }
  rewrite Hpos.
  cbn [andb negb].
  destruct (Detached s) eqn:Hd, (Class class) eqn:Ec; cbn; try (split; [destruct Hex as (p & Hp & Hi); exists p; split; [done|]; by apply Hlook|]; try done).
  - rewrite bool_decide_true by done. split; [done|]. intros p Hp. by apply Hlook, Hc.
  - intros _. destruct Hc as [_ (p & Hp & Hn)]. exists p. split; [done|]. intros Hh. by apply Hn, Hlook.
  - intros _. destruct Hc as (p & Hs & Hn). by apply Hlook in Hs as [? _].
Qed.

(** ** Examples

    A router (pid 20) with a worker (pid 21) under it, another server's process
    (pid 30), and reads that fail or come back empty for a listed pid. *)

Definition ex_kids (p : Z) : list Z := if p =? 20 then [21] else [].
Definition ex_real (p : Z) : gset Z := if p =? 20 then {[8080]} else if p =? 21 then {[9090]} else if p =? 30 then {[5432]} else ∅.
Definition ex_rows : list conn := [mkConn 20 8080 true; mkConn 21 9090 true; mkConn 30 5432 true].

Definition ex_view (swallowed : list Z) (scan : option (list conn)) : host_view :=
  mkView (fun _ => RootAlive) (fun p => Some (ex_kids p))
    (fun p => Some (if existsb (Z.eqb p) swallowed then [] else List.filter (fun c => conn_pid c =? p) ex_rows)) scan
    (fun _ => Some ["prog"]).

Lemma ex_rows_real p port : rows_of ex_rows p port <-> port ∈ ex_real p.
Proof.
  unfold rows_of, ex_rows, ex_real. split.
  - intros (c & Hc & _ & <- & <-). repeat (apply elem_of_cons in Hc as [->|Hc]; [cbn; set_solver|]). set_solver.
  - intros Hp. destruct (Z.eqb_spec p 20) as [->|]; [|destruct (Z.eqb_spec p 21) as [->|]; [|destruct (Z.eqb_spec p 30) as [->|]; [|set_solver]]];
      apply elem_of_singleton in Hp as ->; [exists (mkConn 20 8080 true) | exists (mkConn 21 9090 true) | exists (mkConn 30 5432 true)]; set_solver.
Qed.

Lemma ex_honest swallowed scan : scan = None \/ scan = Some [] \/ scan = Some ex_rows -> honest (ex_view swallowed scan) ex_kids ex_real.
Proof.
  intros Hscan. split; cbn [ex_view NewProcess Children ConnectionsPid Connections].
  - intros p cs [= <-]. by right.
  - intros p cs. destruct (existsb _ _); intros Hcs; apply (inj Some) in Hcs as <-; [by left|right]. intros port. rewrite <- ex_rows_real. unfold rows_of. split.
    + intros (c & Hc & Hl & Hp). apply list_elem_of_In, filter_In in Hc as [Hc Hq%Z.eqb_eq]. exists c. by rewrite list_elem_of_In.
    + intros (c & Hc & Hl & Hq & Hp). exists c. split; [|done]. apply list_elem_of_In, filter_In.
      rewrite <- list_elem_of_In. split; [done | by apply Z.eqb_eq].
  - intros cs ->. destruct Hscan as [|[[= ->]|[= ->]]]; [done | by left | right]. apply ex_rows_real.
  - done.
Qed.

Definition ex_router2 : Server := ex_router <| Port := 8080 |> <| Listens := [9090] |>.
Definition ex_procs : gmap string Process := {[Name ex_router2 := mkProcess (Some 20) false]}.
Definition no_answer : answers := mkAnswers HttpFailed [] ExecFailed.
Definition ex_pg : Server :=
  blank "pg" TypeExec <| Enabled := false |> <| Command := "postgres" |> <| Listens := [5432] |>
    <| Health_ := no_health <| h_Exec := ["db-probe"] |> |>.

(** A host on which the children of no process can be read. *)
Definition ex_deaf : host_view := let v := ex_view [] (Some ex_rows) in
  mkView (NewProcess v) (fun _ => None) (ConnectionsPid v) (Connections v) (CmdlineSlice v).
Definition ex_router1 : Server := ex_router <| Port := 8080 |> <| Listens := [] |>.

Lemma ex_deaf_honest : honest ex_deaf ex_kids ex_real.
Proof. destruct (ex_honest [] (Some ex_rows)) as [_ H2 H3 H4]; [by right; right|]. by split. Qed.

(** The router declares 8080 only, and its worker listens on 9090 as well: the row
    names the extra listener when the children are read, and is unmarked, on 8080 only, when
    their reading fails. *)
Lemma failed_children_unnoticed :
  tree_port ex_kids ex_real 20 9090 /\ 9090 ∉ DeclaredPorts ex_router1 /\
  option_map State (statusForLocked 3 (ex_view [] (Some ex_rows)) no_answer None ex_procs ex_router1) = Some StateExtraListener /\
  exists st, statusForLocked 3 ex_deaf no_answer None ex_procs ex_router1 = Some st /\
    AnomalyDetail st = "" /\ State st <> StateExtraListener /\ ~ children_read ex_deaf ex_kids 20.
Proof.
  split; [exists 21; split; [eapply (descends_child _ _ 20); [constructor | vm_compute; left] | vm_compute; set_solver]|].
  split; [apply (bool_decide_unpack _); vm_compute; exact I|]. split; [vm_compute; reflexivity|].
  eexists. split; [vm_compute; reflexivity|]. split; [done|]. split; [done|].
  intros H. specialize (H 20 (descends_root _ _)). discriminate H.
Qed.


(** The database's container, seen by its port. *)
Lemma host_status_true_witness :
  option_map State (statusForLocked 0 (ex_view [] (Some ex_rows)) no_answer None ∅ ex_db) = Some StateUp /\
  forall p, p ∈ DeclaredPorts ex_db -> host_port ex_real p.
Proof.
  split; [vm_compute; reflexivity|].
  destruct (host_status_true 0 (ex_view [] (Some ex_rows)) no_answer None ∅ ex_db ex_kids ex_real ex_rows) as (st & Hst & H).
  - apply ex_honest. by right; right.
  - by left.
  - reflexivity.
  - done.
  - vm_compute in Hst. injection Hst as <-. apply H.
Defined.

(** A disabled server whose declared port is held by a foreign process is STRAY under a
    working scan; when the scan fails, or comes back without a row, the same server is
    reported down without a note and its row is left out of the table. *)
Theorem failed_scan_hides_server (scan : option (list conn)) (Hscan : scan = None \/ scan = Some []) :
  option_map State (statusForLocked 0 (ex_view [] (Some ex_rows)) no_answer None ∅ ex_pg) = Some StateStray /\
  host_port ex_real 5432 /\ 5432 ∈ DeclaredPorts ex_pg /\
  exists st, statusForLocked 0 (ex_view [] scan) no_answer None ∅ ex_pg = Some st /\
    State st = StateDown /\ AnomalyDetail st = "" /\ printStatus [st] = [].
Proof.
  split; [vm_compute; reflexivity|]. split; [by exists 30; set_solver|]. split; [vm_compute; set_solver|].
  destruct Hscan as [-> | ->]; (eexists; split; [vm_compute; reflexivity|]); done.
Qed.

Lemma failed_scan_hides_server_witness :
  exists st, statusForLocked 0 (ex_view [] None) no_answer None ∅ ex_pg = Some st /\ printStatus [st] = [].
Proof.
  destruct (failed_scan_hides_server None) as (_ & _ & _ & st & Hst & _ & _ & H); [by left|]. by exists st.
Defined.
