(* ===== verification/Teardown.v ===== *)
(** * Teardown: stopping a server and making sure

    Models [internal/lifecycle/teardown.go] and [teardownDetached] of
    [cmd/aa-server-status/engine.go].  The operating system answers each call as
    it likes, from the whole history of calls: an [env] is such a way of
    answering, and a computation maps a history to a result and the longer
    history ([None] when a loop's fuel runs out).  The events record each call
    with its answer, so that a theorem can speak of what was done, to whom and
    when. *)

From S2P Require Export Health Observe.

#[local] Open Scope Z_scope.

(** ** Calls and answers *)

(** [syscall.Kill]'s signal, 0 for the existence check, and its errno. *)
Inductive signal := Sig0 | SIGTERM | SIGKILL.
Inductive errno := ENone | ESRCH | EOther.
#[export] Instance signal_eq_dec : EqDecision signal.
Proof. solve_decision. Defined.
#[export] Instance errno_eq_dec : EqDecision errno.
Proof. solve_decision. Defined.

Inductive event :=
| ENow (t : Z)
| ESleep (d : Z)
| EKill (pid : Z) (sig : signal) (r : errno)
| EScan (r : option (gmap Z Z))
| EProbe (spec : Spec) (healthy : bool)
| ECommand (name : string) (ok : bool)
| EExited (pid : Z) (b : bool)
| EView (v : host_view)
| EStale (s : Server) (r : option bool)
| EReplace (s : Server) (ok : bool)
| ELaunch (s : Server) (r : option (Z * string))
| EWarm (r : option warm_end)
| EPoll (r : option poll_end).

Record env := mkEnv {
  now_at : list event -> Z;
  kill_at : list event -> Z -> signal -> errno;
  scan_at : list event -> option (gmap Z Z);
  probe_at : list event -> Spec -> bool;
  command_at : list event -> string -> bool;
  exited_at : list event -> Z -> bool;
  view_at : list event -> host_view;
  stale_at : list event -> Server -> option bool;
  replace_at : list event -> Server -> bool;
  launch_at : list event -> Server -> option (Z * string);
  warm_at : list event -> list (http_reply * bool);
  poll_at : list event -> answers * list poll_event
}.

Definition M (A : Type) : Type := env -> list event -> option (A * list event).
#[export] Instance M_ret : MRet M := fun _ a _ h => Some (a, h).
#[export] Instance M_bind : MBind M := fun _ _ f m e h =>
  match m e h with Some (a, h) => f a e h | None => None end.

(** One call: its answer from the history, and its event behind it. *)
Definition call {A} (ask : env -> list event -> A) (ev : A -> event) : M A :=
  fun e h => let a := ask e h in Some (a, h ++ [ev a]).

Definition Now : M Z := call now_at ENow.
Definition Sleep (d : Z) : M unit := call (fun _ _ => tt) (fun _ => ESleep d).
(** [syscall.Kill(-pid, sig)]. *)
Definition killGroup (pid : Z) (sig : signal) : M errno := call (fun e h => kill_at e h pid sig) (EKill pid sig).
Definition hostScan : M (option (gmap Z Z)) := call scan_at EScan.
Definition probeHealth (spec : Spec) : M bool := call (fun e h => probe_at e h spec) (EProbe spec).
Definition runTeardownCommand (s : Server) : M bool := call (fun e h => command_at e h (Name s)) (ECommand (Name s)).
Definition hasExited (pid : Z) : M bool := call (fun e h => exited_at e h pid) (EExited pid).
(** What the process tables show, a build compared with the file on disk, the
    file replaced, a child started (its pid and log). *)
Definition hostView : M host_view := call view_at EView.
Definition probeStale (s : Server) : M (option bool) := call (fun e h => stale_at e h s) (EStale s).
Definition replaceBinary (s : Server) : M bool := call (fun e h => replace_at e h s) (EReplace s).
Definition startChild (s : Server) : M (option (Z * string)) := call (fun e h => launch_at e h s) (ELaunch s).
(** The loops of [Health.v] on the answers to come. *)
Definition runWarm (spec : WarmSpec) : M (option warm_end) := call (fun e h => WarmLoop spec (warm_at e h)) EWarm.
Definition runPoll (spec : Spec) : M (option poll_end) := call (fun e h => PollReady spec (fst (poll_at e h)) (snd (poll_at e h))) EPoll.
Definition noFuel {A} : M A := fun _ _ => None.

(** ** Teardown *)

Inductive KillSignal := KillSignalNone | KillSignalTerm | KillSignalKill.

Record Target := mkTarget { tg_Name : string; tg_PID : Z; tg_Ports : list Z; tg_Health : option Spec }.
Record td_result := mkTdResult { td_Name : string; td_Signal : KillSignal; VerifiedClean : bool }.

(** True for success: a group already gone is no failure. *)
Definition groupSignal (pid : Z) (sig : signal) : M bool :=
  r ← killGroup pid sig; mret (match r with EOther => false | _ => true end).

Definition groupAlive (pid : Z) : M bool := r ← killGroup pid Sig0; mret (bool_decide (r = ENone)).

Definition still_listening (ports : list Z) (r : option (gmap Z Z)) : list Z :=
  match r with None => ports | Some holders => List.filter (fun p => bool_decide (is_Some (holders !! p))) ports end.

Definition listeningPortSet (ports : list Z) : M (list Z) := r ← hostScan; mret (still_listening ports r).

Definition portsFree (ports : list Z) : M bool := l ← listeningPortSet ports; mret (bool_decide (length l = O)).

(** [!groupAlive(pid) && portsFree(ports)]: no scan while the group lives. *)
Definition groupGone (pid : Z) (ports : list Z) : M bool :=
  alive ← groupAlive pid; if (alive : bool) then mret false else portsFree ports.

(** [groupAlive(pid) || !portsFree(ports)]. *)
Definition groupRemains (pid : Z) (ports : list Z) : M bool := g ← groupGone pid ports; mret (negb g).

(** [for time.Now().Before(deadline) { if gone { stop }; time.Sleep(pause) }]. *)
Fixpoint wait_gone (fuel : nat) (pid : Z) (ports : list Z) (deadline pause : Z) : M unit :=
  match fuel with
  | O => noFuel
  | S fuel =>
      t ← Now;
      if t <? deadline then
        gone ← groupGone pid ports;
        if (gone : bool) then mret tt
        else _ ← Sleep pause; wait_gone fuel pid ports deadline pause
      else mret tt
  end.

Definition Millisecond : Z := 1000000.

Definition waitUntilDead (fuel : nat) (pid : Z) (ports : list Z) (timeout : Z) : M unit :=
  t ← Now; wait_gone fuel pid ports (t + timeout) (20 * Millisecond).

Definition verify (target : Target) (sig : KillSignal) : M (result td_result) :=
  l ← listeningPortSet (tg_Ports target);
  if (0 <? length l)%nat then mret (Err "port(s) still listening after SIGKILL")
  else
    match tg_Health target with
    | None => mret (Ok (mkTdResult (tg_Name target) sig true))
    | Some spec =>
        healthy ← probeHealth spec;
        if (healthy : bool) then mret (Err "health probe still reports ready after SIGKILL")
        else mret (Ok (mkTdResult (tg_Name target) sig true))
    end.

Definition Teardown (fuel : nat) (target : Target) (grace : Z) : M (result td_result) :=
  let pid := tg_PID target in
  let ports := tg_Ports target in
  alive ← groupAlive pid;
  if negb alive then verify target KillSignalNone
  else
    ok ← groupSignal pid SIGTERM;
    if negb ok then mret (Err "SIGTERM process group")
    else
      t ← Now;
      _ ← wait_gone fuel pid ports (t + grace) (50 * Millisecond);
      remains ← groupRemains pid ports;
      if (remains : bool) then
        ok ← groupSignal pid SIGKILL;
        if negb ok then mret (Err "SIGKILL process group")
        else _ ← waitUntilDead fuel pid ports 2000000000; verify target KillSignalKill
      else verify target KillSignalTerm.

Definition TeardownForeign (fuel : nat) (name : string) (pid : Z) (ports : list Z) (grace : Z) : M (result td_result) :=
  Teardown fuel (mkTarget name pid ports None) grace.

Definition ResolveGracePeriod (s : Server) (sup : Supervisor) : Z := or_default (sv_GracePeriod sup) (GracePeriod s).

Definition target_of (s : Server) (pid : Z) : Target := mkTarget (Name s) pid (DeclaredPorts s) (SpecFor s).

(** [for i := len(servers) - 1; i >= 0; i--], over the reversed list: the
    results and how many failed. *)
Fixpoint teardown_each (fuel : nat) (servers : list Server) (sup : Supervisor) (pids : gmap string Z) :
    M (list (string * result td_result)) :=
  match servers with
  | [] => mret []
  | s :: servers =>
      match pids !! Name s with
      | None => teardown_each fuel servers sup pids
      | Some pid =>
          r ← Teardown fuel (target_of s pid) (ResolveGracePeriod s sup);
          rest ← teardown_each fuel servers sup pids;
          mret ((Name s, r) :: rest)
      end
  end.

Definition TeardownAll (fuel : nat) (servers : list Server) (sup : Supervisor) (pids : gmap string Z) :
    M (list (string * result td_result)) :=
  teardown_each fuel (rev servers) sup pids.

(** ** A detached server: its own command *)

Fixpoint wait_free (fuel : nat) (ports : list Z) (deadline : Z) : M bool :=
  match fuel with
  | O => noFuel
  | S fuel =>
      t ← Now;
      if t <? deadline then
        r ← hostScan;
        match r with
        | Some holders =>
            if forallb (fun p => negb (bool_decide (is_Some (holders !! p)))) ports then mret true
            else _ ← Sleep (100 * Millisecond); wait_free fuel ports deadline
        | None => _ ← Sleep (100 * Millisecond); wait_free fuel ports deadline
        end
      else mret false
  end.

Definition teardownDetached (fuel : nat) (s : Server) (sup : Supervisor) : M (result unit) :=
  ok ← runTeardownCommand s;
  if negb ok then mret (Err "teardown command failed")
  else
    t ← Now;
    free ← wait_free fuel (DeclaredPorts s) (t + ResolveGracePeriod s sup);
    if (free : bool) then mret (Ok tt) else mret (Err "port(s) still listening after teardown command").
