(* ===== verification/TeardownThms.v ===== *)
(** * TeardownThms: a kill is never reported that was not achieved

    A teardown signals only its own process group, at most SIGTERM and then
    SIGKILL, and the latter only once the grace period is over or the group was
    seen gone; it reports success only after a scan and a probe that confirm it;
    and under a clock that advances as one sleeps it always returns, within the
    grace period and two seconds. *)

From S2P Require Import Teardown.

#[local] Open Scope Z_scope.

(** ** What a computation does *)

(** Whenever it returns, it has appended events that satisfy [P]. *)
Definition does {A} (m : M A) (P : list event -> A -> Prop) : Prop :=
  forall e h a h', m e h = Some (a, h') -> exists ev, h' = h ++ ev /\ P ev a.

Lemma does_weaken {A} (m : M A) (P Q : list event -> A -> Prop) : does m P -> (forall ev a, P ev a -> Q ev a) -> does m Q.
Proof. intros Hm HPQ e h a h' H. destruct (Hm e h a h' H) as (ev & -> & HP). eauto. Qed.

Lemma does_ret {A} (a : A) : does (mret a) (fun ev b => ev = [] /\ b = a).
Proof. intros e h b h' [= <- <-]. exists []. by rewrite app_nil_r. Qed.

Lemma does_noFuel {A} P : does (noFuel : M A) P.
Proof. intros e h a h' H. discriminate H. Qed.

Lemma does_call {A} (ask : env -> list event -> A) f : does (call ask f) (fun ev a => ev = [f a]).
Proof. intros e h a h' [= <- <-]. by eexists. Qed.

Lemma does_bind {A B} (m : M A) (f : A -> M B) P Q : does m P -> (forall a, does (f a) (Q a)) ->
  does (m ≫= f) (fun ev b => exists ev1 a ev2, ev = ev1 ++ ev2 /\ P ev1 a /\ Q a ev2 b).
Proof.
  intros Hm Hf e h b h' H. unfold mbind, M_bind in H. destruct (m e h) as [[a h1]|] eqn:E; [|done].
  destruct (Hm _ _ _ _ E) as (ev1 & -> & HP). destruct (Hf a _ _ _ _ H) as (ev2 & -> & HQ).
  exists (ev1 ++ ev2). rewrite app_assoc. eauto 10.
Qed.

(** The step of a sequence: what the first part did stays ahead of the rest. *)
Lemma does_seq {A B} (m : M A) (f : A -> M B) P Q : does m P ->
  (forall ev1 a, P ev1 a -> does (f a) (fun ev2 b => Q (ev1 ++ ev2) b)) -> does (m ≫= f) Q.
Proof.
  intros Hm Hf e h b h' H. unfold mbind, M_bind in H. destruct (m e h) as [[a h1]|] eqn:E; [|done].
  destruct (Hm _ _ _ _ E) as (ev1 & -> & HP). destruct (Hf ev1 a HP _ _ _ _ H) as (ev2 & -> & HQ).
  exists (ev1 ++ ev2). by rewrite app_assoc.
Qed.

Lemma does_done {A} (a : A) (Q : list event -> A -> Prop) : Q [] a -> does (mret a) Q.
Proof. intros HQ. eapply does_weaken; [apply does_ret|]. by intros ev b [-> ->]. Qed.

(** ** The observations *)

Lemma does_groupSignal pid sig : does (groupSignal pid sig) (fun ev ok => exists r, ev = [EKill pid sig r] /\ ok = bool_decide (r <> EOther)).
Proof.
  eapply does_seq; [apply does_call|]. intros ev1 r ->. apply does_done. exists r. split; [done|].
  by destruct r; [rewrite bool_decide_true|rewrite bool_decide_true|rewrite bool_decide_false by tauto].
Qed.

Lemma does_groupAlive pid : does (groupAlive pid) (fun ev b => exists r, ev = [EKill pid Sig0 r] /\ b = bool_decide (r = ENone)).
Proof. eapply does_seq; [apply does_call|]. intros ev1 r ->. apply does_done. by exists r. Qed.

Lemma does_listening ports : does (listeningPortSet ports) (fun ev l => exists r, ev = [EScan r] /\ l = still_listening ports r).
Proof. eapply does_seq; [apply does_call|]. intros ev1 r ->. apply does_done. by exists r. Qed.

Definition ports_free (ports : list Z) (r : option (gmap Z Z)) : Prop := still_listening ports r = [].

Lemma does_portsFree ports : does (portsFree ports) (fun ev b => exists r, ev = [EScan r] /\ (b = true <-> ports_free ports r)).
Proof.
  eapply does_seq; [apply does_listening|]. intros ev1 l (r & -> & ->). apply does_done. exists r. split; [done|].
  unfold ports_free. rewrite bool_decide_eq_true. by destruct (still_listening ports r).
Qed.

(** One look at the group: gone with its ports free, or what remains. *)
Inductive look (pid : Z) (ports : list Z) : list event -> bool -> Prop :=
| look_alive : look pid ports [EKill pid Sig0 ENone] false
| look_held r sc : r <> ENone -> ~ ports_free ports sc -> look pid ports [EKill pid Sig0 r; EScan sc] false
| look_gone r sc : r <> ENone -> ports_free ports sc -> look pid ports [EKill pid Sig0 r; EScan sc] true.

Lemma does_groupGone pid ports : does (groupGone pid ports) (look pid ports).
Proof.
  eapply does_seq; [apply does_groupAlive|]. intros ev1 b (r & -> & ->). case_bool_decide as Hr.
  - apply does_done. rewrite Hr. constructor.
  - eapply does_weaken; [apply does_portsFree|]. intros ev b (sc & -> & Hb).
    destruct b; [apply look_gone | apply look_held]; naive_solver.
Qed.

(** ** The waiting loop

    Rounds of a clock reading before the deadline, a look that finds something,
    and a sleep; then a reading past the deadline, or a look that finds nothing. *)
Inductive waited (pid : Z) (ports : list Z) (deadline pause : Z) : list event -> Prop :=
| waited_over t : deadline <= t -> waited pid ports deadline pause [ENow t]
| waited_gone t ev : t < deadline -> look pid ports ev true -> waited pid ports deadline pause (ENow t :: ev)
| waited_round t ev ev' : t < deadline -> look pid ports ev false -> waited pid ports deadline pause ev' ->
    waited pid ports deadline pause ((ENow t :: ev) ++ ESleep pause :: ev').

Lemma does_wait_gone fuel pid ports deadline pause : does (wait_gone fuel pid ports deadline pause) (fun ev _ => waited pid ports deadline pause ev).
Proof.
  induction fuel as [|fuel IH]; simpl; [apply does_noFuel|].
  eapply does_seq; [apply does_call|]. intros ev1 t ->. destruct (Z.ltb_spec t deadline) as [Ht|Ht].
  - eapply does_seq; [apply does_groupGone|]. intros ev2 b Hb. destruct b.
    + apply does_done. rewrite app_nil_r. by apply waited_gone.
    + eapply does_seq; [apply does_call|]. intros ev3 _ ->. eapply does_weaken; [apply IH|]. intros ev u Hw.
      apply (waited_round pid ports deadline pause t ev2 ev Ht Hb Hw).
  - apply does_done. by apply waited_over.
Qed.

(** ** The outcome *)

Definition verified (target : Target) (ev : list event) : Prop :=
  exists sc, ports_free (tg_Ports target) sc /\
    ev = EScan sc :: match tg_Health target with Some spec => [EProbe spec false] | None => [] end.

Definition is_ok_result (r : result td_result) (target : Target) (sig : KillSignal) : Prop :=
  r = Ok (mkTdResult (tg_Name target) sig true).

Definition does_verified (target : Target) (sig : KillSignal) (ev : list event) (r : result td_result) : Prop :=
  (is_ok_result r target sig /\ verified target ev) \/
  ((exists m, r = Err m) /\
   exists sc, ev = [EScan sc] \/ exists spec, tg_Health target = Some spec /\ ev = [EScan sc; EProbe spec true]).

Lemma does_verify target sig : does (verify target sig) (does_verified target sig).
Proof.
  eapply does_seq; [apply does_listening|]. intros ev1 l (sc & -> & ->).
  destruct (still_listening _ sc) as [|p l] eqn:E; simpl.
  - destruct (tg_Health target) as [spec|] eqn:Hh.
    + eapply does_seq; [apply does_call|]. intros ev2 b ->. destruct b; apply does_done.
      * right. split; [by eexists|]. exists sc. right. by exists spec.
      * left. split; [done|]. exists sc. by rewrite Hh.
    + apply does_done. left. split; [done|]. exists sc. by rewrite Hh.
  - apply does_done. right. split; [by eexists|]. exists sc. by left.
Qed.

Lemma does_groupRemains pid ports : does (groupRemains pid ports) (fun ev b => look pid ports ev (negb b)).
Proof.
  eapply does_seq; [apply does_groupGone|]. intros ev b Hl. apply does_done. by rewrite app_nil_r, negb_involutive.
Qed.

Lemma does_waitUntilDead fuel pid ports timeout : does (waitUntilDead fuel pid ports timeout)
  (fun ev _ => exists t w, ev = ENow t :: w /\ waited pid ports (t + timeout) (20 * Millisecond) w).
Proof.
  eapply does_seq; [apply does_call|]. intros ev t ->. eapply does_weaken; [apply does_wait_gone|].
  intros w u Hw. by exists t, w.
Qed.

(** ** The shapes of a teardown *)

Inductive teardown_trace (tg : Target) (grace : Z) : list event -> result td_result -> Prop :=
| tr_none r ev res : r <> ENone -> does_verified tg KillSignalNone ev res -> teardown_trace tg grace (EKill (tg_PID tg) Sig0 r :: ev) res
| tr_no_term m : teardown_trace tg grace [EKill (tg_PID tg) Sig0 ENone; EKill (tg_PID tg) SIGTERM EOther] (Err m)
| tr_term r t0 w l ev res : r <> EOther -> waited (tg_PID tg) (tg_Ports tg) (t0 + grace) (50 * Millisecond) w ->
    look (tg_PID tg) (tg_Ports tg) l true -> does_verified tg KillSignalTerm ev res ->
    teardown_trace tg grace ([EKill (tg_PID tg) Sig0 ENone; EKill (tg_PID tg) SIGTERM r; ENow t0] ++ w ++ l ++ ev) res
| tr_no_kill r t0 w l m : r <> EOther -> waited (tg_PID tg) (tg_Ports tg) (t0 + grace) (50 * Millisecond) w ->
    look (tg_PID tg) (tg_Ports tg) l false ->
    teardown_trace tg grace ([EKill (tg_PID tg) Sig0 ENone; EKill (tg_PID tg) SIGTERM r; ENow t0] ++ w ++ l ++ [EKill (tg_PID tg) SIGKILL EOther]) (Err m)
| tr_kill r t0 w l r2 t1 w2 ev res : r <> EOther -> waited (tg_PID tg) (tg_Ports tg) (t0 + grace) (50 * Millisecond) w ->
    look (tg_PID tg) (tg_Ports tg) l false -> r2 <> EOther ->
    waited (tg_PID tg) (tg_Ports tg) (t1 + 2000000000) (20 * Millisecond) w2 -> does_verified tg KillSignalKill ev res ->
    teardown_trace tg grace ([EKill (tg_PID tg) Sig0 ENone; EKill (tg_PID tg) SIGTERM r; ENow t0] ++ w ++ l ++
      EKill (tg_PID tg) SIGKILL r2 :: ENow t1 :: w2 ++ ev) res.

Lemma does_Teardown fuel tg grace : does (Teardown fuel tg grace) (teardown_trace tg grace).
Proof.
  unfold Teardown. eapply does_seq; [apply does_groupAlive|]. intros ev1 b (r & -> & ->).
  case_bool_decide as Hr; cbn [negb].
  2:{ eapply does_weaken; [apply does_verify|]. intros ev res H. by apply tr_none. }
  rewrite Hr. eapply does_seq; [apply does_groupSignal|]. intros ev2 b (r1 & -> & ->). case_bool_decide as Hr1; cbn [negb].
  2:{ apply does_done. destruct r1; [naive_solver | naive_solver | apply tr_no_term]. }
  eapply does_seq; [apply does_call|]. intros ev3 t0 ->.
  eapply does_seq; [apply does_wait_gone|]. intros w u Hw.
  eapply does_seq; [apply does_groupRemains|]. intros l b Hl. destruct b; cbn [negb] in Hl.
  - eapply does_seq; [apply does_groupSignal|]. intros ev4 b (r2 & -> & ->). case_bool_decide as Hr2; cbn [negb].
    2:{ apply does_done. rewrite app_nil_r. destruct r2; [naive_solver | naive_solver | by apply tr_no_kill]. }
    eapply does_seq; [apply does_waitUntilDead|].
    intros ev5 u2 (t1 & w2 & -> & Hw2). eapply does_weaken; [apply does_verify|]. intros ev res H. by apply tr_kill.
  - eapply does_weaken; [apply does_verify|]. intros ev res H. by apply tr_term.
Qed.

(** ** What is signalled *)

Definition only_group (pid : Z) (ev : list event) : Prop :=
  Forall (fun x => match x with EKill p _ _ => p = pid | ENow _ | ESleep _ | EScan _ | EProbe _ _ => True | _ => False end) ev.

Fixpoint signalled (ev : list event) : list signal :=
  match ev with
  | EKill _ Sig0 _ :: ev => signalled ev
  | EKill _ sig _ :: ev => sig :: signalled ev
  | _ :: ev => signalled ev
  | [] => []
  end.

Definition sent (k : KillSignal) : list signal :=
  match k with KillSignalNone => [] | KillSignalTerm => [SIGTERM] | KillSignalKill => [SIGTERM; SIGKILL] end.

(** What came before the first SIGKILL, when there is one. *)
Fixpoint before_kill (ev : list event) : option (list event) :=
  match ev with
  | EKill _ SIGKILL _ :: _ => Some []
  | x :: ev => cons x <$> before_kill ev
  | [] => None
  end.

Lemma signalled_app a b : signalled (a ++ b) = signalled a ++ signalled b.
Proof. induction a as [|[] a IH]; simpl; try done. destruct sig; simpl; by rewrite IH. Qed.

Lemma before_kill_app a b : signalled a = [] -> before_kill (a ++ b) = app a <$> before_kill b.
Proof.
  induction a as [|x a IH]; simpl; [by destruct (before_kill b)|].
  destruct x; intros Hs; try (rewrite IH by done; by destruct (before_kill b)).
  destruct sig; [|done|done]. rewrite IH by done. by destruct (before_kill b).
Qed.

(** Looking, waiting and verifying signal nothing. *)
Definition quiet (pid : Z) (ev : list event) : Prop := only_group pid ev /\ signalled ev = [].

Lemma quiet_app pid a b : quiet pid a -> quiet pid b -> quiet pid (a ++ b).
Proof. intros [Ha Hsa] [Hb Hsb]. split; [by apply Forall_app | by rewrite signalled_app, Hsa, Hsb]. Qed.

Lemma look_quiet pid ports ev b : look pid ports ev b -> quiet pid ev.
Proof. destruct 1; split; simpl; by repeat constructor. Qed.

Lemma waited_quiet pid ports deadline pause ev : waited pid ports deadline pause ev -> quiet pid ev.
Proof.
  induction 1 as [t Ht|t ev Ht Hl|t ev ev' Ht Hl _ IH].
  - split; [by repeat constructor | done].
  - destruct (look_quiet _ _ _ _ Hl) as [H1 H2]. split; [by constructor | done].
  - apply (quiet_app pid (ENow t :: ev) (ESleep pause :: ev')).
    + destruct (look_quiet _ _ _ _ Hl) as [H1 H2]. split; [by constructor | done].
    + destruct IH as [H1 H2]. split; [by constructor | done].
Qed.

Lemma verify_quiet tg sig ev res pid : does_verified tg sig ev res -> quiet pid ev.
Proof.
  intros [[_ (sc & _ & ->)]|[_ (sc & [-> | (spec & _ & ->)])]]; [destruct (tg_Health tg)| |]; split; simpl; by repeat constructor.
Qed.

(** The grace period: the clock was read past it, or the group was seen gone. *)
Definition grace_given (pid grace : Z) (before : list event) : Prop :=
  exists r t0 w, before = [EKill pid Sig0 ENone; EKill pid SIGTERM r; ENow t0] ++ w /\
    ((exists t, ENow t ∈ w /\ t0 + grace <= t) \/ exists r', EKill pid Sig0 r' ∈ w /\ r' <> ENone).

(** The last call before it found the group alive or a port held. *)
Definition seen_remaining (pid : Z) (ports : list Z) (before : list event) : Prop :=
  last before = Some (EKill pid Sig0 ENone) \/ exists sc, last before = Some (EScan sc) /\ ~ ports_free ports sc.

Lemma waited_reason pid ports deadline pause ev : waited pid ports deadline pause ev ->
  (exists t, ENow t ∈ ev /\ deadline <= t) \/ exists r', EKill pid Sig0 r' ∈ ev /\ r' <> ENone.
Proof.
  induction 1 as [t Ht|t ev Ht Hl|t ev ev' Ht Hl _ IH].
  - left. exists t. split; [set_solver|done].
  - right. inversion Hl as [| |r sc Hr Hf]; subst. exists r. split; [set_solver|done].
  - destruct IH as [(t' & Hin & Hle)|(r & Hin & Hr)]; [left; exists t' | right; exists r]; split; try done; set_solver.
Qed.

Lemma look_last pid ports a l : look pid ports l false -> seen_remaining pid ports (a ++ l).
Proof.
  inversion 1 as [|r sc Hr Hf|]; subst; [left|right; exists sc; split; [|done]].
  - by rewrite last_snoc.
  - change [EKill pid Sig0 r; EScan sc] with ([EKill pid Sig0 r] ++ [EScan sc]). by rewrite app_assoc, last_snoc.
Qed.

(** A SIGKILL behind the wait and a look that found something. *)
Lemma kill_at_end pid grace ports r t0 w l rest : waited pid ports (t0 + grace) (50 * Millisecond) w -> look pid ports l false ->
  (exists r' rest', rest = EKill pid SIGKILL r' :: rest') ->
  forall before, before_kill ([EKill pid Sig0 ENone; EKill pid SIGTERM r; ENow t0] ++ w ++ l ++ rest) = Some before ->
    grace_given pid grace before /\ seen_remaining pid ports before.
Proof.
  intros Hw Hl (r' & rest' & ->) before. destruct (quiet_app _ _ _ (waited_quiet _ _ _ _ _ Hw) (look_quiet _ _ _ _ Hl)) as [_ Hq].
  cbn [app before_kill]. rewrite (app_assoc w), before_kill_app by done. cbn. rewrite app_nil_r. intros [= <-]. split.
  - exists r, t0, (w ++ l). split; [done|]. destruct (waited_reason _ _ _ _ _ Hw) as [(t & Hin & Ht)|(r1 & Hin & Hr1)].
    + left. exists t. split; [set_solver|done].
    + right. exists r1. split; [set_solver|done].
  - apply (look_last pid ports ([EKill pid Sig0 ENone; EKill pid SIGTERM r; ENow t0] ++ w) l Hl).
Qed.

(** What a result says of the events. *)
Definition outcome_of (tg : Target) (ev : list event) (r : result td_result) : Prop :=
  match r with
  | Ok res =>
      td_Name res = tg_Name tg /\ VerifiedClean res = true /\ signalled ev = sent (td_Signal res) /\
      exists pre post, ev = pre ++ post /\ verified tg post
  | Err _ => signalled ev `prefix_of` [SIGTERM; SIGKILL]
  | Panic _ => False
  end.

Lemma outcome_verify tg sig pre ev res : signalled pre = sent sig -> does_verified tg sig ev res -> outcome_of tg (pre ++ ev) res.
Proof.
  intros Hs Hv. destruct (verify_quiet _ _ _ _ 0 Hv) as [_ Hq].
  assert (Hse : signalled (pre ++ ev) = sent sig) by (by rewrite signalled_app, Hq, app_nil_r).
  destruct Hv as [[-> Hv]|[[m ->] _]]; simpl; [by eauto 10|]. rewrite Hse.
  destruct sig; [by exists [SIGTERM; SIGKILL] | by exists [SIGKILL] | by exists []].
Qed.

(** What is true of every teardown that returns. *)
Definition teardown_good (tg : Target) (grace : Z) (ev : list event) (r : result td_result) : Prop :=
  only_group (tg_PID tg) ev /\ outcome_of tg ev r /\
  forall before, before_kill ev = Some before ->
    grace_given (tg_PID tg) grace before /\ seen_remaining (tg_PID tg) (tg_Ports tg) before.

Lemma does_Teardown_good fuel tg grace : does (Teardown fuel tg grace) (teardown_good tg grace).
Proof.
  intros e h r h' Hrun. destruct (does_Teardown _ _ _ _ _ _ _ Hrun) as (ev & -> & Htr). exists ev. split; [done|]. clear Hrun.
  set (pid := tg_PID tg) in *.
  destruct Htr as [r1 ev res Hr Hv|m|r1 t0 w l ev res Hr Hw Hl Hv|r1 t0 w l m Hr Hw Hl|r1 t0 w l r2 t1 w2 ev res Hr Hw Hl Hr2 Hw2 Hv].
  - pose proof (verify_quiet _ _ _ _ pid Hv) as [Hg Hq]. split; [by constructor|]. split.
    + by apply (outcome_verify tg KillSignalNone [EKill pid Sig0 r1]).
    + intros before. pose proof (before_kill_app ev [] Hq) as Hb. rewrite app_nil_r in Hb. simpl. by rewrite Hb.
  - split; [by repeat constructor|]. split; [by exists [SIGKILL]|]. done.
  - pose proof (waited_quiet _ _ _ _ _ Hw) as Hqw. pose proof (look_quiet _ _ _ _ Hl) as Hql. pose proof (verify_quiet _ _ _ _ pid Hv) as Hqv.
    pose proof (quiet_app _ _ _ Hqw (quiet_app _ _ _ Hql Hqv)) as [Hg Hq]. split; [|split].
    + apply Forall_app. split; [by repeat constructor | done].
    + rewrite !app_assoc. apply (outcome_verify tg KillSignalTerm); [|done].
      rewrite !signalled_app. destruct Hqw as [_ ->], Hql as [_ ->]. done.
    + intros before. simpl. pose proof (before_kill_app (w ++ l ++ ev) [] Hq) as Hb. rewrite app_nil_r in Hb. by rewrite Hb.
  - pose proof (waited_quiet _ _ _ _ _ Hw) as Hqw. pose proof (look_quiet _ _ _ _ Hl) as Hql.
    pose proof (quiet_app _ _ _ Hqw Hql) as [Hg Hq]. split; [|split].
    + rewrite (app_assoc w). apply Forall_app. split; [by repeat constructor|]. apply Forall_app. split; [done | by repeat constructor].
    + simpl. rewrite !signalled_app. destruct Hqw as [_ ->], Hql as [_ ->]. by exists [].
    + apply (kill_at_end pid grace (tg_Ports tg) r1 t0 w l [EKill pid SIGKILL EOther]); [done..|by eexists _, _].
  - pose proof (waited_quiet _ _ _ _ _ Hw) as Hqw. pose proof (look_quiet _ _ _ _ Hl) as Hql. pose proof (verify_quiet _ _ _ _ pid Hv) as Hqv.
    pose proof (waited_quiet _ _ _ _ _ Hw2) as Hqw2. pose proof (quiet_app _ _ _ Hqw Hql) as [Hg Hq]. split; [|split].
    + rewrite (app_assoc w). apply Forall_app. split; [by repeat constructor|]. apply Forall_app. split; [done|].
      destruct (quiet_app _ _ _ Hqw2 Hqv) as [Hg2 _]. constructor; [done|]. by constructor.
    + assert (Hs : signalled ([EKill pid Sig0 ENone; EKill pid SIGTERM r1; ENow t0] ++ w ++ l ++ EKill pid SIGKILL r2 :: ENow t1 :: w2) = sent KillSignalKill).
      { simpl. rewrite !signalled_app. simpl. by destruct Hqw as [_ ->], Hql as [_ ->], Hqw2 as [_ ->]. }
      pose proof (outcome_verify tg KillSignalKill _ ev res Hs Hv) as Ho. rewrite <- !app_assoc in Ho. exact Ho.
    + apply (kill_at_end pid grace (tg_Ports tg) r1 t0 w l (EKill pid SIGKILL r2 :: ENow t1 :: w2 ++ ev)); [done..|by eexists _, _].
Qed.


(** C37: Whatever the system answers, a teardown signals only its own process group, nothing
    but SIGTERM and then SIGKILL; SIGKILL only once the grace period is over or the group
    was seen gone, and only while the group or a port remains; and it reports success only
    after a last scan that finds every declared port free and a probe that is dead, naming
    the signal it took. *)
Theorem teardown_sound (fuel : nat) (tg : Target) (grace : Z) (e : env) (h h' : list event) (r : result td_result)
    (Hrun : Teardown fuel tg grace e h = Some (r, h')) :
  exists ev, h' = h ++ ev /\ only_group (tg_PID tg) ev /\ outcome_of tg ev r /\
    forall before, before_kill ev = Some before ->
      grace_given (tg_PID tg) grace before /\ seen_remaining (tg_PID tg) (tg_Ports tg) before.
Proof. exact (does_Teardown_good fuel tg grace e h r h' Hrun). Qed.

(** ** Returning

    A clock that advances at least as much as one sleeps. *)
Fixpoint slept (ev : list event) : Z :=
  match ev with [] => 0 | ESleep d :: ev => d + slept ev | _ :: ev => slept ev end.

Definition clock_runs (e : env) : Prop := forall h ev, now_at e h + slept ev <= now_at e (h ++ ev).

Lemma slept_app a b : slept (a ++ b) = slept a + slept b.
Proof. induction a as [|[] a IH]; simpl; lia. Qed.

(** A computation that always returns, having slept no more than [b] allows
    from the instant it starts at. *)
Definition returns {A} (m : M A) (b : Z -> Z) : Prop :=
  forall e h, clock_runs e -> exists a ev, m e h = Some (a, h ++ ev) /\ slept ev <= b (now_at e h).

Lemma returns_call {A} (ask : env -> list event -> A) f : (forall a, slept [f a] = 0) -> returns (call ask f) (fun _ => 0).
Proof. intros Hf e h _. eexists _, _. split; [reflexivity|]. by rewrite Hf. Qed.

Lemma returns_ret {A} (a : A) : returns (mret a) (fun _ => 0).
Proof. intros e h _. exists a, []. by rewrite app_nil_r. Qed.

Lemma returns_weaken {A} (m : M A) b b' : returns m b -> (forall t, b t <= b' t) -> returns m b'.
Proof. intros Hm Hb e h Hc. destruct (Hm e h Hc) as (a & ev & ? & ?). exists a, ev. split; [done|]. specialize (Hb (now_at e h)). lia. Qed.

(** The sleeps of a sequence add up, for bounds that do not depend on the time. *)
Lemma returns_bind {A B} (m : M A) (f : A -> M B) b1 b2 : returns m (fun _ => b1) -> (forall a, returns (f a) (fun _ => b2)) ->
  returns (m ≫= f) (fun _ => b1 + b2).
Proof.
  intros Hm Hf e h Hc. destruct (Hm e h Hc) as (a & ev & E & H1). destruct (Hf a e (h ++ ev) Hc) as (b & ev' & E' & H2).
  exists b, (ev ++ ev'). unfold mbind, M_bind. rewrite E, E', app_assoc. split; [done|]. rewrite slept_app. lia.
Qed.

Lemma returns_zero {A B} (m : M A) (f : A -> M B) : returns m (fun _ => 0) -> (forall a, returns (f a) (fun _ => 0)) ->
  returns (m ≫= f) (fun _ => 0).
Proof. intros Hm Hf. exact (returns_bind m f 0 0 Hm Hf). Qed.

Lemma returns_if {A} (b : bool) (m m' : M A) k : returns m k -> returns m' k -> returns (if b then m else m') k.
Proof. by destruct b. Qed.

Create HintDb returns.
#[local] Hint Resolve returns_ret returns_call returns_zero returns_if : returns.

Lemma returns_groupAlive pid : returns (groupAlive pid) (fun _ => 0).
Proof. unfold groupAlive, killGroup. auto with returns. Qed.
Lemma returns_groupSignal pid sig : returns (groupSignal pid sig) (fun _ => 0).
Proof. unfold groupSignal, killGroup. auto with returns. Qed.
Lemma returns_listening ports : returns (listeningPortSet ports) (fun _ => 0).
Proof. unfold listeningPortSet, hostScan. auto with returns. Qed.
#[local] Hint Resolve returns_groupAlive returns_groupSignal returns_listening : returns.
Lemma returns_groupGone pid ports : returns (groupGone pid ports) (fun _ => 0).
Proof. unfold groupGone, portsFree. auto 8 with returns. Qed.
#[local] Hint Resolve returns_groupGone : returns.
Lemma returns_verify tg sig : returns (verify tg sig) (fun _ => 0).
Proof. unfold verify. apply returns_zero; [auto with returns|]. intros l. destruct (0 <? length l)%nat, (tg_Health tg); unfold probeHealth; auto 8 with returns. Qed.

Lemma slept_look pid ports ev e h b : groupGone pid ports e h = Some (b, h ++ ev) -> slept ev = 0.
Proof.
  intros E. destruct (does_groupGone pid ports e h b _ E) as (ev' & Heq & Hl). apply app_inv_head in Heq as ->.
  by destruct Hl.
Qed.

(** With a turn per pause and one more, the loop ends by its deadline. *)
Lemma returns_wait_gone fuel pid ports deadline pause e h : clock_runs e -> 0 < pause -> (1 <= fuel)%nat ->
  deadline - now_at e h <= (Z.of_nat fuel - 1) * pause ->
  exists ev, wait_gone fuel pid ports deadline pause e h = Some (tt, h ++ ev) /\ slept ev <= Z.max 0 (deadline - now_at e h) + pause /\
    (deadline <= now_at e h -> slept ev = 0).
Proof.
  intros Hc Hp. revert h. induction fuel as [|fuel IH]; intros h Hf Hd; [lia|].
  cbn [wait_gone]. unfold mbind, M_bind, Now, call at 1.
  destruct (Z.ltb_spec (now_at e h) deadline) as [Ht|Ht]; [|exists [ENow (now_at e h)]; split; [done|]; simpl; lia].
  destruct (returns_groupGone pid ports e (h ++ [ENow (now_at e h)]) Hc) as (b & ev & E & H0).
  pose proof (Hc (h ++ [ENow (now_at e h)]) ev) as Hc1. pose proof (Hc h [ENow (now_at e h)]) as Hc0. simpl in Hc0.
  unfold mbind, M_bind in E |- *. rewrite E. destruct b.
  { exists ([ENow (now_at e h)] ++ ev). rewrite app_assoc. split; [done|]. rewrite slept_app. simpl. lia. }
  unfold Sleep, call. set (h1 := ((h ++ [ENow (now_at e h)]) ++ ev) ++ [ESleep pause]).
  assert (Hh1 : now_at e h + pause <= now_at e h1).
  { pose proof (Hc (h ++ [ENow (now_at e h)]) (ev ++ [ESleep pause])) as H. rewrite app_assoc, slept_app in H. fold h1 in H. simpl in H.
    pose proof (slept_look pid ports ev e _ _ E). lia. }
  destruct (decide (fuel = O)) as [->|]; [simpl in Hd; lia|].
  destruct (IH h1) as (ev' & E' & Hs & Hz); [lia|lia|]. rewrite E'.
  exists ([ENow (now_at e h)] ++ ev ++ [ESleep pause] ++ ev'). split.
  - unfold h1. by rewrite <- !app_assoc.
  - rewrite !slept_app. simpl. split; [|lia]. destruct (decide (deadline <= now_at e h1)); [rewrite Hz by done|]; lia.
Qed.

Lemma returns_wait_then {A} fuel pid ports timeout pause (k : M A) b : 0 < pause -> (1 <= fuel)%nat ->
  timeout <= (Z.of_nat fuel - 1) * pause -> returns k (fun _ => b) ->
  returns (t ← Now; _ ← wait_gone fuel pid ports (t + timeout) pause; k) (fun _ => Z.max 0 timeout + pause + b).
Proof.
  intros Hp Hf Ht Hk e h Hc. unfold mbind, M_bind, Now, call at 1. set (t := now_at e h). pose proof (Hc h [ENow t]) as Hn. simpl in Hn. fold t in Hn.
  destruct (returns_wait_gone fuel pid ports (t + timeout) pause e (h ++ [ENow t]) Hc Hp Hf) as (ev & E & Hs & _); [lia|].
  rewrite E. destruct (Hk e ((h ++ [ENow t]) ++ ev) Hc) as (a & ev' & E' & Hs'). rewrite E'.
  exists a, ([ENow t] ++ ev ++ ev'). rewrite <- !app_assoc. split; [done|]. rewrite !slept_app. simpl. lia.
Qed.

Lemma returns_Teardown fuel tg grace : (101 <= fuel)%nat -> grace <= (Z.of_nat fuel - 1) * (50 * Millisecond) ->
  returns (Teardown fuel tg grace) (fun _ => Z.max 0 grace + 2070 * Millisecond).
Proof.
  intros Hf Hg. assert (Hms : Millisecond = 1000000) by done. unfold Teardown.
  assert (H0 : 0 <= Z.max 0 grace + 2070 * Millisecond) by lia.
  eapply returns_weaken; [apply (returns_bind _ _ 0 (Z.max 0 grace + 50 * Millisecond + 2020 * Millisecond)); [auto with returns|]|intros t; cbv beta; lia].
  intros alive. destruct (negb alive); [eapply returns_weaken; [apply returns_verify|intros t; cbv beta; lia]|].
  eapply returns_weaken; [apply (returns_bind _ _ 0 (Z.max 0 grace + 50 * Millisecond + 2020 * Millisecond)); [auto with returns|]|intros t; cbv beta; lia].
  intros ok. destruct (negb ok); [eapply returns_weaken; [apply returns_ret|intros t; cbv beta; lia]|].
  apply returns_wait_then; [lia..|].
  eapply returns_weaken; [apply (returns_bind _ _ 0 (2020 * Millisecond)); [unfold groupRemains; auto with returns|]|intros t; cbv beta; lia].
  intros remains. destruct remains; [|eapply returns_weaken; [apply returns_verify|intros t; cbv beta; lia]].
  eapply returns_weaken; [apply (returns_bind _ _ 0 (2020 * Millisecond)); [auto with returns|]|intros t; cbv beta; lia].
  intros ok2. destruct (negb ok2); [eapply returns_weaken; [apply returns_ret|intros t; cbv beta; lia]|].
  intros e h Hc. destruct (returns_wait_then fuel (tg_PID tg) (tg_Ports tg) 2000000000 (20 * Millisecond) (verify tg KillSignalKill) 0) with e h as (a & ev & E & Hs);
    [lia|lia|lia|apply returns_verify|done|].
  exists a, ev. split; [|lia]. unfold mbind, M_bind, waitUntilDead, Now, call in *. exact E.
Qed.

(** Under a clock that advances at least as far as one sleeps, a teardown always
    returns, having slept at most the grace period and 2.07 s. *)
Theorem teardown_returns (fuel : nat) (tg : Target) (grace : Z) (e : env) (h : list event)
    (Hclock : clock_runs e) (Hfuel : (101 <= fuel)%nat) (Hgrace : grace <= (Z.of_nat fuel - 1) * (50 * Millisecond)) :
  exists r ev, Teardown fuel tg grace e h = Some (r, h ++ ev) /\ slept ev <= Z.max 0 grace + 2070 * Millisecond.
Proof. exact (returns_Teardown fuel tg grace Hfuel Hgrace e h Hclock). Qed.

(** ** Example: a server that ignores SIGTERM

    It holds its port until it is killed; the clock counts what was slept. *)
Definition was_killed (h : list event) : bool := existsb (fun x => match x with EKill _ SIGKILL _ => true | _ => false end) h.

Definition nothing_seen : host_view := mkView (fun _ => RootUnknown) (fun _ => None) (fun _ => None) None (fun _ => None).

Definition stubborn (pid port : Z) : env :=
  mkEnv slept (fun h _ sig => match sig with Sig0 => if was_killed h then ESRCH else ENone | _ => ENone end)
    (fun h => Some (if was_killed h then ∅ else {[port := pid]})) (fun _ _ => false) (fun _ _ => true) (fun _ _ => false)
    (fun _ => nothing_seen) (fun _ _ => None) (fun _ _ => false) (fun _ _ => None) (fun _ => []) (fun _ => (mkAnswers HttpFailed [] ExecFailed, [])).

Lemma stubborn_clock pid port : clock_runs (stubborn pid port).
Proof. intros h ev. cbn. rewrite slept_app. lia. Qed.

Definition ex_target : Target := mkTarget "router" 20 [8080; 9090] None.

Lemma teardown_sound_witness : exists r h', Teardown 200 ex_target (100 * Millisecond) (stubborn 20 8080) [] = Some (r, h') /\
  signalled h' = [SIGTERM; SIGKILL] /\ exists before, before_kill h' = Some before /\ grace_given 20 (100 * Millisecond) before.
Proof.
  destruct (Teardown 200 ex_target (100 * Millisecond) (stubborn 20 8080) []) as [[r h']|] eqn:E; [|vm_compute in E; discriminate].
  destruct (teardown_sound 200 ex_target (100 * Millisecond) (stubborn 20 8080) [] h' r E) as (ev & -> & _ & _ & H).
  exists r, ev. split; [reflexivity|]. vm_compute in E. injection E as <- <-. split; [reflexivity|].
  eexists. split; [reflexivity|]. apply H. reflexivity.
Defined.

Lemma teardown_returns_witness : exists r ev, Teardown 200 ex_target (100 * Millisecond) (stubborn 20 8080) [] = Some (r, [] ++ ev) /\
  slept ev <= Z.max 0 (100 * Millisecond) + 2070 * Millisecond.
Proof. apply teardown_returns; [apply stubborn_clock | lia | unfold Millisecond; lia]. Defined.
