(* ===== verification/Engine.v ===== *)
(** * Engine: taking servers down

    Models the down, dead and exit paths of [cmd/aa-server-status/engine.go]
    over the registry of launched children and the environment of
    [Teardown.v].  A verb is a computation that takes the registry and returns
    it; the mutex is held around each registry access only, and the REPL runs
    one verb at a time. *)

From stdpp Require Import pretty.
From S2P Require Export Teardown.
From S2P Require Import Config TeardownThms.

#[local] Open Scope Z_scope.

(** [e.procs]: each launched child with the pid of its command. *)
Abbreviation registry := (gmap string (option Z)).

(** [ownedPIDLocked], asking whether the child has exited. *)
Definition ownedPID (procs : registry) (s : Server) : M (option Z) :=
  match procs !! Name s with
  | Some (Some pid) =>
      if Detached s then mret (Some pid)
      else b ← hasExited pid; if (b : bool) then mret None else mret (Some pid)
  | _ => mret None
  end.

(** ** Outcomes *)

Record verbOutcome := mkOutcome { vo_Name : string; vo_Err : option string; vo_LogPath : string; vo_Warn : bool }.

Definition ok_outcome (name : string) : verbOutcome := mkOutcome name None "" false.
Definition err_outcome {A} (name : string) (r : result A) : verbOutcome :=
  mkOutcome name (match r with Ok _ => None | Err m | Panic m => Some m end) "" false.

(** [strings.Contains]. *)
Fixpoint Contains (s sub : string) : bool :=
  String.prefix sub s || match s with EmptyString => false | String _ s => Contains s sub end.

Definition formatOutcomeLine (o : verbOutcome) : string :=
  match vo_Err o with
  | None =>
      if bool_decide (vo_LogPath o ≠ "") then vo_Name o +:+ " ✓ (" +:+ vo_LogPath o +:+ ")" else vo_Name o +:+ " ✓"
  | Some err =>
      if vo_Warn o then vo_Name o +:+ " ⚠ (" +:+ err +:+ ")"
      else
        let detail := if bool_decide (vo_LogPath o ≠ "") && negb (Contains err (vo_LogPath o))
                      then err +:+ ", see " +:+ vo_LogPath o else err in
        vo_Name o +:+ " ✗ (" +:+ detail +:+ ")"
  end.

Definition failed_outcome (o : verbOutcome) : bool := match vo_Err o with Some _ => negb (vo_Warn o) | None => false end.

Definition newline_string : string := String (Ascii.ascii_of_nat 10) "".

Definition formatAggregate (verb : string) (outcomes : list verbOutcome) : option string :=
  let failed := length (List.filter failed_outcome outcomes) in
  if (failed =? 0)%nat then None
  else Some (verb +:+ ": " +:+ pretty failed +:+ " of " +:+ pretty (length outcomes) +:+ " server(s) failed:"
             +:+ newline_string +:+ String.concat newline_string (map formatOutcomeLine outcomes)).

(** ** One server *)

Section Verbs.
Context (fuel : nat) (cfg : Config).
Let sup := Supervisor_ cfg.

Definition teardownPID (s : Server) (pid : Z) : M (result unit) :=
  r ← Teardown fuel (target_of s pid) (ResolveGracePeriod s sup);
  mret (match r with Ok _ => Ok tt | Err m => Err m | Panic m => Panic m end).

Definition teardownOne (procs : registry) (s : Server) : M (result unit) :=
  owned ← ownedPID procs s;
  match owned with
  | None => mret (Ok tt)
  | Some pid => if Detached s then teardownDetached fuel s sup else teardownPID s pid
  end.

Fixpoint first_holder (ports : list Z) (holders : gmap Z Z) : option Z :=
  match ports with
  | [] => None
  | p :: ports => match holders !! p with Some pid => Some pid | None => first_holder ports holders end
  end.

(** The pid and whether it is ours; [None] when nothing runs. *)
Definition observedRunningPID (procs : registry) (s : Server) : M (option (Z * bool)) :=
  owned ← ownedPID procs s;
  match owned with
  | Some pid => mret (Some (pid, true))
  | None =>
      r ← hostScan;
      mret (match r with
            | None => None
            | Some holders => (fun pid => (pid, false)) <$> first_holder (DeclaredPorts s) holders
            end)
  end.

Definition killForeignOrOwned (procs : registry) (s : Server) (pid : Z) (isOurs : bool) : M (verbOutcome * registry) :=
  if isOurs then
    r ← teardownPID s pid;
    mret (err_outcome (Name s) r, delete (Name s) procs)
  else
    r ← TeardownForeign fuel (Name s) pid (DeclaredPorts s) (ResolveGracePeriod s sup);
    mret (err_outcome (Name s) r, procs).

Definition downOne (procs : registry) (name : string) : M (verbOutcome * registry) :=
  match ServerByName cfg name with
  | None => mret (mkOutcome name (Some "no such server") "" false, procs)
  | Some s =>
      owned ← ownedPID procs s;
      match owned with
      | None =>
          if Detached s then
            r ← teardownDetached fuel s sup; mret (err_outcome name r, procs)
          else
            let procs := delete name procs in
            running ← observedRunningPID procs s;
            match running with
            | None => mret (ok_outcome name, procs)
            | Some (pid, isOurs) => killForeignOrOwned procs s pid isOurs
            end
      | Some _ =>
          r ← teardownOne procs s;
          match r with
          | Ok _ => mret (ok_outcome name, delete name procs)
          | _ => mret (err_outcome name r, procs)
          end
      end
  end.

(** ** The fleet *)

Definition stray_warning (s : Server) : verbOutcome :=
  mkOutcome (Name s) (Some (Name s +:+ " is up but not enabled, so ignoring it")) "" true.

(** One turn of [downOrDead]'s loop. *)
Definition fleet_one (killStrays : bool) (procs : registry) (s : Server) : M (list verbOutcome * registry) :=
  owned ← ownedPID procs s;
  if Enabled s && bool_decide (is_Some owned) then
    r ← downOne procs (Name s); mret ([fst r], snd r)
  else if negb (Enabled s) then
    running ← observedRunningPID procs s;
    match running with
    | None => mret ([], procs)
    | Some (pid, isOurs) =>
        if killStrays then r ← killForeignOrOwned procs s pid isOurs; mret ([fst r], snd r)
        else mret ([stray_warning s], procs)
    end
  else mret ([], procs).

Fixpoint fleet_down (killStrays : bool) (procs : registry) (servers : list Server) : M (list verbOutcome * registry) :=
  match servers with
  | [] => mret ([], procs)
  | s :: servers =>
      r ← fleet_one killStrays procs s;
      rest ← fleet_down killStrays (snd r) servers;
      mret (fst r ++ fst rest, snd rest)
  end.

(** The error the verb returns, and the registry. *)
Definition downOrDead (procs : registry) (name : string) (killStrays : bool) : M (option string * registry) :=
  if bool_decide (name ≠ "") then
    match ServerByName cfg name with
    | None => mret (Some ("down " +:+ name +:+ ": no such server"), procs)
    | Some _ => r ← downOne procs name; mret (vo_Err (fst r), snd r)
    end
  else
    r ← fleet_down killStrays procs (Servers cfg);
    mret (match fst r with
          | [] => None
          | outcomes => formatAggregate (if killStrays then "dead" else "down") outcomes
          end, snd r).

Definition Down (procs : registry) (name : string) : M (option string * registry) := downOrDead procs name false.
Definition Dead (procs : registry) (name : string) : M (option string * registry) := downOrDead procs name true.

(** The REPL's exit: every registered child with a pid, in reverse
    configuration order; then all of them are forgotten. *)
Definition exitTeardown (procs : registry) : M (list (string * result td_result) * registry) :=
  let pids := omap (fun p => p) procs in
  r ← TeardownAll fuel (Servers cfg) sup pids;
  mret (r, filter (fun kv => pids !! kv.1 = None) procs).
End Verbs.

(** ** Theorems: what taking a server down achieves

    A down that reports success has seen every declared port free, signals only
    the registered child or a process it saw holding a declared port, and forgets
    at most the server it was asked about; with the three cases in which the
    program falls short. *)

#[local] Open Scope Z_scope.

(** ** The pieces *)

Definition registered (procs : registry) (s : Server) (pid : Z) : Prop := procs !! Name s = Some (Some pid).

Inductive owned_events (procs : registry) (s : Server) : list event -> option Z -> Prop :=
| oe_none : (forall pid, ~ registered procs s pid) -> owned_events procs s [] None
| oe_detached pid : registered procs s pid -> Detached s = true -> owned_events procs s [] (Some pid)
| oe_exited pid : registered procs s pid -> Detached s = false -> owned_events procs s [EExited pid true] None
| oe_alive pid : registered procs s pid -> Detached s = false -> owned_events procs s [EExited pid false] (Some pid).

Lemma does_ownedPID procs s : does (ownedPID procs s) (owned_events procs s).
Proof.
  unfold ownedPID. destruct (procs !! Name s) as [[pid|]|] eqn:E.
  - destruct (Detached s) eqn:Hd; [by apply does_done, oe_detached|].
    eapply does_seq; [apply does_call|]. intros ev b ->. destruct b; apply does_done; [by apply oe_exited | by apply oe_alive].
  - apply does_done, oe_none. intros pid. unfold registered. congruence.
  - apply does_done, oe_none. intros pid. unfold registered. congruence.
Qed.

(** Every kill is of the registered child or of a holder that was seen. *)
Definition seen_holder (s : Server) (ev : list event) (pid : Z) : Prop :=
  exists holders port, EScan (Some holders) ∈ ev /\ port ∈ DeclaredPorts s /\ holders !! port = Some pid.

Definition kills_justified (procs : registry) (s : Server) (ev : list event) : Prop :=
  forall pid sig r, EKill pid sig r ∈ ev -> registered procs s pid \/ seen_holder s ev pid.

Definition no_kill (ev : list event) : Prop := forall pid sig r, EKill pid sig r ∉ ev.
Definition no_command (ev : list event) : Prop := forall name ok, ECommand name ok ∉ ev.

(** The last scan saw every declared port free. *)
Definition confirmed_free (s : Server) (ev : list event) : Prop :=
  exists holders pre post, ev = pre ++ EScan (Some holders) :: post /\ (forall r, EScan r ∉ post) /\
    forall port, port ∈ DeclaredPorts s -> holders !! port = None.

Lemma confirmed_free_after s ev ev' : confirmed_free s ev' -> confirmed_free s (ev ++ ev').
Proof. intros (holders & pre & post & -> & H). exists holders, (ev ++ pre), post. by rewrite <- app_assoc. Qed.

Lemma kills_justified_seen procs s ev : (exists pid, (registered procs s pid \/ seen_holder s ev pid) /\ forall p sig r, EKill p sig r ∈ ev -> p = pid) ->
  kills_justified procs s ev.
Proof. intros (pid & Hj & Hall) p sig r Hin. by rewrite (Hall p sig r Hin). Qed.

Lemma only_group_kills pid ev : only_group pid ev -> forall p sig r, EKill p sig r ∈ ev -> p = pid.
Proof. intros H p sig r Hin. by apply (proj1 (Forall_forall _ _) H _ Hin). Qed.

Lemma only_group_no_command pid ev : only_group pid ev -> no_command ev.
Proof. intros H name ok Hin. by apply (proj1 (Forall_forall _ _) H _ Hin). Qed.

Lemma still_listening_nil ports holders : still_listening ports (Some holders) = [] -> forall p, p ∈ ports -> holders !! p = None.
Proof.
  intros E p Hp. destruct (holders !! p) as [pid|] eqn:Hh; [|done]. exfalso.
  assert (Hin : In p (still_listening ports (Some holders))).
  { apply filter_In. split; [by apply list_elem_of_In|]. apply bool_decide_eq_true. by rewrite Hh. }
  by rewrite E in Hin.
Qed.

(** The last scan was good enough for the ports to be free. *)
Definition seen_free (s : Server) (ev : list event) : Prop :=
  exists sc pre post, ev = pre ++ EScan sc :: post /\ (forall r, EScan r ∉ post) /\ ports_free (DeclaredPorts s) sc.

Lemma seen_free_after s ev ev' : seen_free s ev' -> seen_free s (ev ++ ev').
Proof. intros (sc & pre & post & -> & H). exists sc, (ev ++ pre), post. by rewrite <- app_assoc. Qed.

Lemma seen_free_confirmed s ev : seen_free s ev -> EScan None ∉ ev -> confirmed_free s ev.
Proof.
  intros (sc & pre & post & -> & Hp & Hf) Hno. destruct sc as [holders|]; [|set_solver].
  exists holders, pre, post. split; [done|]. split; [done|]. by apply still_listening_nil.
Qed.

Lemma confirmed_seen_free s ev : confirmed_free s ev -> seen_free s ev.
Proof.
  intros (holders & pre & post & -> & Hp & Hf). exists (Some holders), pre, post. split; [done|]. split; [done|].
  unfold ports_free, still_listening. induction (DeclaredPorts s) as [|p ports IH]; [done|].
  simpl. rewrite Hf by set_solver. simpl. apply IH. set_solver.
Qed.

Lemma outcome_seen_free s tg ev res : tg_Ports tg = DeclaredPorts s -> outcome_of tg ev (Ok res) -> seen_free s ev.
Proof.
  intros Hp (_ & _ & _ & pre & post & -> & sc & Hf & ->). exists sc, pre. eexists. split; [reflexivity|]. rewrite <- Hp.
  split; [|done]. intros r. destruct (tg_Health tg); set_solver.
Qed.

(** A teardown by pid, as the engine uses it. *)
Definition pid_teardown (s : Server) (pid : Z) (ev : list event) (ok : Prop) : Prop :=
  only_group pid ev /\ (ok -> seen_free s ev).

Lemma does_teardownPID fuel cfg s pid : does (teardownPID fuel cfg s pid) (fun ev r => pid_teardown s pid ev (r = Ok tt)).
Proof.
  eapply does_seq; [apply does_Teardown_good|]. intros ev r (Hg & Ho & _). apply does_done. rewrite app_nil_r.
  split; [done|]. intros Hok. destruct r as [res|m|m]; [|done..]. exact (outcome_seen_free s (target_of s pid) ev res eq_refl Ho).
Qed.

Lemma does_TeardownForeign fuel s pid grace : does (TeardownForeign fuel (Name s) pid (DeclaredPorts s) grace)
  (fun ev r => pid_teardown s pid ev (exists res, r = Ok res)).
Proof.
  eapply does_weaken; [apply does_Teardown_good|]. intros ev r (Hg & Ho & _). split; [done|].
  intros [res ->]. exact (outcome_seen_free s (mkTarget (Name s) pid (DeclaredPorts s) None) ev res eq_refl Ho).
Qed.

Lemma does_wait_free fuel ports deadline : does (wait_free fuel ports deadline)
  (fun ev b => no_kill ev /\ (b = true -> exists holders pre, ev = pre ++ [EScan (Some holders)] /\ forall p, p ∈ ports -> holders !! p = None)).
Proof.
  induction fuel as [|fuel IH]; simpl; [apply does_noFuel|].
  assert (Hround : forall ev1, no_kill ev1 -> does (_ ← Sleep (100 * Millisecond); wait_free fuel ports deadline)
    (fun ev2 b => no_kill (ev1 ++ ev2) /\ (b = true -> exists holders pre, ev1 ++ ev2 = pre ++ [EScan (Some holders)] /\ forall p, p ∈ ports -> holders !! p = None))).
  { intros ev1 Hn. eapply does_seq; [apply does_call|]. intros ev2 u ->. eapply does_weaken; [apply IH|].
    intros ev b [Hk Hb]. split; [intros p sig r; specialize (Hn p sig r); specialize (Hk p sig r); set_solver|].
    intros Ht. destruct (Hb Ht) as (holders & pre & -> & Hf). exists holders, (ev1 ++ [ESleep (100 * Millisecond)] ++ pre). by rewrite <- !app_assoc. }
  eapply does_seq; [apply does_call|]. intros ev1 t ->. destruct (t <? deadline).
  - eapply does_seq; [apply does_call|]. intros ev2 sc ->. destruct sc as [holders|].
    + destruct (forallb _ ports) eqn:Hfree.
      * apply does_done. split; [intros p sig r; set_solver|]. intros _. exists holders, [ENow t]. split; [done|].
        intros p Hp. apply list_elem_of_In in Hp. rewrite forallb_forall in Hfree. specialize (Hfree p Hp).
        apply negb_true_iff, bool_decide_eq_false in Hfree. destruct (holders !! p); [exfalso; apply Hfree; by eexists | done].
      * eapply does_weaken; [apply (Hround ([ENow t] ++ [EScan (Some holders)])); intros p sig r; set_solver|]. intros ev b H. by rewrite app_assoc.
    + eapply does_weaken; [apply (Hround ([ENow t] ++ [EScan None])); intros p sig r; set_solver|]. intros ev b H. by rewrite app_assoc.
  - apply does_done. split; [intros p sig r; set_solver | done].
Qed.

Lemma does_teardownDetached fuel s sup : does (teardownDetached fuel s sup)
  (fun ev r => no_kill ev /\ (exists ok ev', ev = ECommand (Name s) ok :: ev') /\ (r = Ok tt -> confirmed_free s ev)).
Proof.
  eapply does_seq; [apply does_call|]. intros ev1 ok ->. destruct ok; cbn [negb].
  - eapply does_seq; [apply does_call|]. intros ev2 t ->. eapply does_seq; [apply does_wait_free|]. intros ev3 b [Hn Hb].
    destruct b; apply does_done; rewrite app_nil_r; (split; [intros p sig r; specialize (Hn p sig r); set_solver|]); (split; [by eexists _, _|]).
    + intros _. destruct (Hb eq_refl) as (holders & pre & -> & Hf). exists holders, ([ECommand (Name s) true] ++ [ENow t] ++ pre), [].
      rewrite <- !app_assoc. split; [done|]. split; [set_solver|done].
    + done.
  - apply does_done. split; [intros p sig r; set_solver|]. split; [by eexists _, _ | done].
Qed.

(** ** One server *)

Lemma ServerByName_name cfg name s : ServerByName cfg name = Some s -> Name s = name.
Proof. intros H. apply find_some in H as [_ H]. by apply bool_decide_eq_true in H. Qed.

Lemma first_holder_some ports holders pid : first_holder ports holders = Some pid -> exists p, p ∈ ports /\ holders !! p = Some pid.
Proof.
  induction ports as [|p ports IH]; [done|]. simpl.
  destruct (holders !! p) as [q|] eqn:E; [intros [= <-]; exists p; set_solver|].
  intros H. destruct (IH H) as (p' & Hp & Hh). exists p'. set_solver.
Qed.

Lemma first_holder_none ports holders : first_holder ports holders = None -> forall p, p ∈ ports -> holders !! p = None.
Proof.
  induction ports as [|p ports IH]; [set_solver|]. simpl.
  destruct (holders !! p) as [q|] eqn:E; [done|]. intros H p' [->|Hp]%elem_of_cons; [done | by apply IH].
Qed.

Lemma owned_events_quiet procs s ev o : owned_events procs s ev o -> (forall pid sig r, EKill pid sig r ∉ ev) /\ (forall sc, EScan sc ∉ ev) /\ no_command ev.
Proof. destruct 1; (split; [|split]); try (intros name ok); intros; set_solver. Qed.

Lemma err_outcome_ok {A} name (r : result A) : vo_Err (err_outcome name r) = None -> exists a, r = Ok a.
Proof. destruct r; [eauto | done..]. Qed.

(** What is true of a down of [s]. *)
Definition down_good (procs : registry) (s : Server) (ev : list event) (res : verbOutcome * registry) : Prop :=
  kills_justified procs s ev /\ (snd res = procs \/ snd res = delete (Name s) procs) /\
  (vo_Err (fst res) = None -> EScan None ∉ ev ->
     confirmed_free s ev \/ exists pid, ev = [EExited pid false; EExited pid true]).

Lemma pid_teardown_good procs s pid ev0 ev ok res : no_kill ev0 ->
  (registered procs s pid \/ seen_holder s (ev0 ++ ev) pid) -> pid_teardown s pid ev ok ->
  (snd res = procs \/ snd res = delete (Name s) procs) -> (vo_Err (fst res) = None -> ok) -> down_good procs s (ev0 ++ ev) res.
Proof.
  intros Hn Hj [Hg Hok] Hp Herr. split; [|split; [done|]].
  - apply kills_justified_seen. exists pid. split; [done|]. intros p sig r [Hin|Hin]%elem_of_app; [by destruct (Hn p sig r)|].
    by apply (only_group_kills pid ev Hg p sig r).
  - intros He Hno. left. apply seen_free_confirmed; [|done]. by apply seen_free_after, Hok, Herr.
Qed.

Lemma does_foreign fuel cfg procs s : does (r ← hostScan;
    match (match r with None => None | Some holders => (fun pid => (pid, false)) <$> first_holder (DeclaredPorts s) holders end) with
    | None => mret (ok_outcome (Name s), delete (Name s) procs)
    | Some (pid, isOurs) => killForeignOrOwned fuel cfg (delete (Name s) procs) s pid isOurs
    end)
  (fun ev res => forall ev0, no_kill ev0 -> (forall sc, EScan sc ∉ ev0) -> down_good procs s (ev0 ++ ev) res).
Proof.
  eapply does_seq; [apply does_call|]. intros ev1 sc ->. destruct sc as [holders|].
  - destruct (first_holder (DeclaredPorts s) holders) as [pid|] eqn:E; cbn.
    + unfold killForeignOrOwned. eapply does_seq; [apply does_TeardownForeign|]. intros ev r Hr. apply does_done.
      intros ev0 Hn Hs. rewrite app_nil_r. destruct (first_holder_some _ _ _ E) as (p & Hp & Hh).
      change (EScan (Some holders) :: ev) with ([EScan (Some holders)] ++ ev). rewrite app_assoc. eapply pid_teardown_good; [| |exact Hr| |].
      * intros q sig r'. specialize (Hn q sig r'). set_solver.
      * right. exists holders, p. set_solver.
      * by right.
      * apply err_outcome_ok.
    + apply does_done. intros ev0 Hn Hs. split; [|split; [by right|]].
      * intros q sig r Hin. specialize (Hn q sig r). set_solver.
      * intros _ Hno. left. exists holders, ev0, []. split; [done|]. split; [set_solver|]. by apply first_holder_none.
  - apply does_done. intros ev0 Hn Hs. split; [|split; [by right|]].
    + intros q sig r Hin. specialize (Hn q sig r). set_solver.
    + intros _ Hno. set_solver.
Qed.

Lemma ownedPID_deleted procs s : ownedPID (delete (Name s) procs) s = mret None.
Proof. unfold ownedPID. by rewrite lookup_delete_eq. Qed.

(** Stopping our own child: nothing to do, a child that has just exited, or its
    ports seen free. *)
Definition stopped_free (procs : registry) (s : Server) (ev : list event) : Prop :=
  seen_free s ev \/ (ev = [] /\ forall pid, ~ registered procs s pid) \/
  exists pid, ev = [EExited pid true] /\ registered procs s pid /\ Detached s = false.

Lemma does_teardownOne fuel cfg procs s : does (teardownOne fuel cfg procs s)
  (fun ev r => kills_justified procs s ev /\ (r = Ok tt -> stopped_free procs s ev)).
Proof.
  unfold teardownOne. eapply does_seq; [apply does_ownedPID|]. intros ev o Ho.
  destruct (owned_events_quiet _ _ _ _ Ho) as (Hk & Hsc & _). destruct o as [pid|].
  - assert (registered procs s pid) by (by inversion Ho). destruct (Detached s).
    + eapply does_weaken; [apply does_teardownDetached|]. intros ev2 r (Hn & _ & Hok). split.
      * intros q sig r' [Hin|Hin]%elem_of_app; [by destruct (Hk q sig r') | by destruct (Hn q sig r')].
      * intros Hr. left. by apply seen_free_after, confirmed_seen_free, Hok.
    + eapply does_weaken; [apply does_teardownPID|]. intros ev2 r [Hg Hok]. split.
      * apply kills_justified_seen. exists pid. split; [by left|]. intros q sig r' [Hin|Hin]%elem_of_app; [by destruct (Hk q sig r')|].
        by apply (only_group_kills pid ev2 Hg q sig r').
      * intros Hr. left. by apply seen_free_after, Hok.
  - apply does_done. rewrite app_nil_r. split; [intros q sig r Hin; by destruct (Hk q sig r)|]. intros _. right.
    inversion Ho as [Hn| |pid Hreg Hd|]; subst; [by left|]. right. by exists pid.
Qed.

Lemma does_downOne fuel cfg procs name s : ServerByName cfg name = Some s ->
  does (downOne fuel cfg procs name) (down_good procs s).
Proof.
  intros Hs. pose proof (ServerByName_name _ _ _ Hs) as <-. unfold downOne. rewrite Hs.
  eapply does_seq; [apply does_ownedPID|]. intros ev o Ho. destruct (owned_events_quiet _ _ _ _ Ho) as (Hk & Hsc & _).
  destruct o as [pid|].
  - assert (Hreg : registered procs s pid) by (by inversion Ho).
    eapply does_seq; [apply does_teardownOne|]. intros ev1 r [Hj Hok].
    assert (Hg : forall res, (snd res = procs \/ snd res = delete (Name s) procs) -> (vo_Err (fst res) = None -> r = Ok tt) -> down_good procs s (ev ++ ev1) res).
    { intros res Hp Herr. split; [|split; [done|]].
      - intros q sig r' [Hin|Hin]%elem_of_app; [by destruct (Hk q sig r')|]. destruct (Hj q sig r' Hin) as [|(holders & port & Hin' & H)]; [by left|].
        right. exists holders, port. set_solver.
      - intros He Hno. destruct (Hok (Herr He)) as [Hf|[[_ Hn]|(pid1 & -> & Hr1 & Hd1)]]; [|by destruct (Hn pid)|].
        + left. apply seen_free_confirmed; [by apply seen_free_after | done].
        + right. exists pid. unfold registered in *. inversion Ho as [|p Hr Hd|p Hr Hd|p Hr Hd]; subst; [congruence|].
          unfold registered in *. simplify_eq. done. }
    destruct r as [[]|m|m]; apply does_done; rewrite app_nil_r; apply Hg; simpl; [by right | done | by left | done | by left | done].
  - destruct (Detached s).
    + eapply does_seq; [apply does_teardownDetached|]. intros ev1 r (Hn & _ & Hok). apply does_done. rewrite app_nil_r.
      split; [intros q sig r' [Hin|Hin]%elem_of_app; [by destruct (Hk q sig r') | by destruct (Hn q sig r')]|]. split; [by left|].
      intros He Hno. left. apply confirmed_free_after, Hok. destruct (err_outcome_ok _ _ He) as [[] ->]. done.
    + unfold observedRunningPID. rewrite ownedPID_deleted.
      intros e h res h' Hrun. destruct (does_foreign fuel cfg procs s e h res h') as (ev1 & -> & H).
      { rewrite <- Hrun. unfold mbind, M_bind, mret, M_ret, hostScan, call. by destruct (scan_at e h). }
      exists ev1. split; [done|]. by apply H.
Qed.

(** C38: Taking a server down signals only the process group of its registered child or of a
    process a scan saw on one of its declared ports, forgets at most that server, and, when
    no scan failed, reports success only if the last scan saw every declared port free, or
    if the child exited between its two ownership checks, when nothing at all was scanned. *)
Theorem down_sound (fuel : nat) (cfg : Config) (procs : registry) (name : string) (s : Server) (e : env) (h h' : list event)
    (o : verbOutcome) (procs' : registry) (Hs : ServerByName cfg name = Some s)
    (Hrun : downOne fuel cfg procs name e h = Some ((o, procs'), h')) :
  exists ev, h' = h ++ ev /\
    (forall pid sig r, EKill pid sig r ∈ ev -> registered procs s pid \/ seen_holder s ev pid) /\
    (procs' = procs \/ procs' = delete name procs) /\
    (vo_Err o = None -> EScan None ∉ ev -> confirmed_free s ev \/ exists pid, ev = [EExited pid false; EExited pid true]).
Proof.
  destruct (does_downOne fuel cfg procs name s Hs _ _ _ _ Hrun) as (ev & -> & Hj & Hp & Hok). exists ev.
  by rewrite <- (ServerByName_name _ _ _ Hs).
Qed.

(** ** A detached server of ours *)

Lemma does_Teardown_first fuel tg grace : does (Teardown fuel tg grace)
  (fun ev _ => only_group (tg_PID tg) ev /\ exists r ev', ev = EKill (tg_PID tg) Sig0 r :: ev').
Proof.
  intros e h r h' Hrun. destruct (does_Teardown_good _ _ _ _ _ _ _ Hrun) as (ev & -> & Hg & _).
  destruct (does_Teardown _ _ _ _ _ _ _ Hrun) as (ev' & Heq & Htr). apply app_inv_head in Heq as <-.
  exists ev. split; [done|]. split; [done|]. destruct Htr; by eexists _, _.
Qed.

Lemma does_teardown_each fuel servers sup pids : does (teardown_each fuel servers sup pids) (fun ev _ => no_command ev).
Proof.
  induction servers as [|s servers IH]; simpl.
  - apply does_done. intros name ok. set_solver.
  - destruct (pids !! Name s) as [pid|]; [|done].
    eapply does_seq; [apply does_Teardown_first|]. intros ev1 r [Hg _].
    eapply does_seq; [apply IH|]. intros ev2 rest Hn. apply does_done. rewrite app_nil_r. intros name ok.
    pose proof (only_group_no_command _ _ Hg name ok). specialize (Hn name ok). set_solver.
Qed.

(** Taking down a registered detached server runs its teardown command; dead on the
    same server when disabled, and the exit of the program, signal the pid of its launcher
    instead, run no command, and forget the server. *)
Theorem detached_teardown_paths (fuel : nat) (cfg : Config) (procs : registry) (s : Server) (pid : Z) (e : env) (h : list event)
    (Hdet : Detached s = true) (Hreg : registered procs s pid) (Hname : ServerByName cfg (Name s) = Some s) :
  (forall o procs' h', downOne fuel cfg procs (Name s) e h = Some ((o, procs'), h') ->
     exists ok ev, h' = h ++ ECommand (Name s) ok :: ev) /\
  (Enabled s = false -> forall outs procs' h', fleet_one fuel cfg true procs s e h = Some ((outs, procs'), h') ->
     procs' = delete (Name s) procs /\ exists r ev, h' = h ++ EKill pid Sig0 r :: ev /\ no_command ev) /\
  (forall rs procs' h', exitTeardown fuel cfg procs e h = Some ((rs, procs'), h') ->
     procs' !! Name s = None /\ exists ev, h' = h ++ ev /\ no_command ev).
Proof.
  unfold registered in Hreg. assert (Ho : ownedPID procs s = mret (Some pid)) by (unfold ownedPID; by rewrite Hreg, Hdet).
  split; [|split].
  - intros o procs' h' Hrun. unfold downOne, teardownOne in Hrun. rewrite Hname, Ho in Hrun.
    unfold mbind, M_bind, mret, M_ret in Hrun. rewrite Hdet in Hrun.
    destruct (teardownDetached fuel s (Supervisor_ cfg) e h) as [[r h1]|] eqn:E; [|done].
    destruct (does_teardownDetached _ _ _ _ _ _ _ E) as (ev & -> & _ & (ok & ev' & ->) & _).
    exists ok, ev'. destruct r; by simplify_eq.
  - intros Hen outs procs' h' Hrun. unfold fleet_one, observedRunningPID, killForeignOrOwned, teardownPID in Hrun. rewrite Ho, Hen in Hrun.
    unfold mbind, M_bind, mret, M_ret in Hrun. cbn in Hrun.
    destruct (Teardown fuel (target_of s pid) _ e h) as [[r h1]|] eqn:E; [|done].
    destruct (does_Teardown_first _ _ _ _ _ _ _ E) as (ev & -> & Hg & r' & ev' & ->). simplify_eq. split; [done|].
    exists r', ev'. split; [done|]. intros name ok. pose proof (only_group_no_command _ _ Hg name ok). set_solver.
  - intros rs procs' h' Hrun. unfold exitTeardown, TeardownAll in Hrun. unfold mbind, M_bind, mret, M_ret in Hrun.
    destruct (teardown_each fuel _ _ _ e h) as [[r h1]|] eqn:E; [|done].
    destruct (does_teardown_each _ _ _ _ _ _ _ _ E) as (ev & -> & Hn). simplify_eq. split; [|by exists ev].
    apply map_lookup_filter_None. right. intros x Hx. cbn. rewrite lookup_omap, Hreg. done.
Qed.

(** ** Strays *)

(** A bare down with no enabled server touches nothing and says nothing, whatever strays it saw. *)
Theorem down_strays_silent (fuel : nat) (cfg : Config) (procs procs' : registry) (e : env) (h h' : list event) (r : option string)
    (Hoff : Forall (fun s => Enabled s = false) (Servers cfg))
    (Hrun : Down fuel cfg procs "" e h = Some ((r, procs'), h')) :
  r = None /\ procs' = procs /\ exists ev, h' = h ++ ev /\ no_kill ev /\ no_command ev.
Proof.
  unfold Down, downOrDead in Hrun. rewrite bool_decide_false in Hrun by (intros H; by apply H). 
  assert (Hfleet : does (fleet_down fuel cfg false procs (Servers cfg)) (fun ev res =>
    snd res = procs /\ Forall (fun o => vo_Warn o = true) (fst res) /\ no_kill ev /\ no_command ev)).
  { clear Hrun. induction Hoff as [|s servers Hen _ IH]; simpl.
    - apply does_done. repeat split; [done | intros q sig r'; set_solver | intros q ok; set_solver].
    - eapply does_seq.
      { unfold fleet_one. eapply does_seq; [apply does_ownedPID|]. intros ev o Ho. rewrite Hen. cbn [andb negb].
        unfold observedRunningPID. eapply does_seq.
        { eapply does_seq; [apply does_ownedPID|]. intros ev1 o1 Ho1.
          instantiate (1 := fun ev _ => no_kill ev /\ no_command ev).
          destruct (owned_events_quiet _ _ _ _ Ho1) as (Hk & _ & Hc). destruct o1 as [pid|].
          - apply does_done. by rewrite app_nil_r.
          - eapply does_seq; [apply does_call|]. intros ev2 sc ->. apply does_done. split.
            + intros q sig r'. specialize (Hk q sig r'). set_solver.
            + intros q ok. specialize (Hc q ok). set_solver. }
        intros ev1 o1 [Hk Hc]. destruct (owned_events_quiet _ _ _ _ Ho) as (Hk0 & _ & Hc0).
        instantiate (1 := fun ev res => snd res = procs /\ Forall (fun o => vo_Warn o = true) (fst res) /\ no_kill ev /\ no_command ev).
        assert (Hn : no_kill (ev ++ ev1) /\ no_command (ev ++ ev1)).
        { split; [intros q sig r'; specialize (Hk q sig r'); specialize (Hk0 q sig r') | intros q ok; specialize (Hc q ok); specialize (Hc0 q ok)]; set_solver. }
        destruct o1 as [[pid ours]|]; apply does_done; rewrite app_nil_r; (split; [done|]); (split; [by repeat constructor | done]). }
      intros ev1 res1 (Hp1 & Hw1 & Hk1 & Hc1). rewrite Hp1. eapply does_seq; [apply IH|]. intros ev2 res2 (Hp2 & Hw2 & Hk2 & Hc2).
      apply does_done. rewrite app_nil_r. split; [done|]. split; [by apply Forall_app|].
      split; [intros q sig r'; specialize (Hk1 q sig r'); specialize (Hk2 q sig r') | intros q ok; specialize (Hc1 q ok); specialize (Hc2 q ok)]; set_solver. }
  unfold mbind, M_bind, mret, M_ret in Hrun. destruct (fleet_down _ _ _ _ _ e h) as [[[outs procs1] h1]|] eqn:E; [|done].
  destruct (Hfleet _ _ _ _ E) as (ev & -> & Hp & Hw & Hk & Hc). cbn in Hp, Hw, Hrun. simplify_eq.
  split; [|split; [done | by exists ev]].
  destruct outs as [|o outs]; [done|]. unfold formatAggregate.
  assert (Hnil : List.filter failed_outcome (o :: outs) = []).
  { clear -Hw. induction Hw as [|x l Hx _ IH]; [done|]. simpl. rewrite IH. unfold failed_outcome. rewrite Hx. by destruct (vo_Err x). }
  by rewrite Hnil.
Qed.

(** ** Examples

    The router of [Config.v], started as pid 20, and the database, whose
    launcher was pid 30 and whose container holds port 5432. *)

Definition ex_procs_running : registry := {["router" := Some 20]}.

Lemma down_sound_witness : exists o procs' h', downOne 200 ex_config ex_procs_running "router" (stubborn 20 9730) [] = Some ((o, procs'), h') /\
  vo_Err o = None /\ (confirmed_free ex_router h' \/ exists pid, h' = [EExited pid false; EExited pid true]).
Proof.
  destruct (downOne 200 ex_config ex_procs_running "router" (stubborn 20 9730) []) as [[[o procs'] h']|] eqn:E; [|vm_compute in E; discriminate].
  destruct (down_sound 200 ex_config ex_procs_running "router" ex_router (stubborn 20 9730) [] h' o procs') as (ev & -> & _ & _ & H);
    [reflexivity | exact E |].
  exists o, procs', ev. split; [reflexivity|]. vm_compute in E. injection E as <- <- <-. split; [reflexivity|].
  apply H; [reflexivity|]. intros Hin. repeat (apply elem_of_cons in Hin as [Hin|Hin]; [discriminate|]). by apply not_elem_of_nil in Hin.
Defined.

Definition ex_db_off : Server := ex_db <| Enabled := false |>.
Definition ex_config_off : Config := mkConfig ex_supervisor [ex_db_off].
Definition ex_procs_db : registry := {["db" := Some 30]}.

(** The container outlives its launcher. *)
Definition container : env :=
  mkEnv slept (fun _ _ _ => ESRCH) (fun _ => Some {[5432 := 31]}) (fun _ _ => true) (fun _ _ => true) (fun _ _ => true)
    (fun _ => nothing_seen) (fun _ _ => None) (fun _ _ => false) (fun _ _ => None) (fun _ => []) (fun _ => (mkAnswers HttpFailed [] ExecFailed, [])).

Lemma detached_teardown_paths_witness :
  exists outs procs' h', fleet_one 200 ex_config_off true ex_procs_db ex_db_off container [] = Some ((outs, procs'), h') /\
    procs' = ∅ /\ (exists r ev, h' = [] ++ EKill 30 Sig0 r :: ev /\ no_command ev) /\
    map vo_Err outs = [Some "port(s) still listening after SIGKILL"].
Proof.
  destruct (fleet_one 200 ex_config_off true ex_procs_db ex_db_off container []) as [[[outs procs'] h']|] eqn:E; [|vm_compute in E; discriminate].
  destruct (detached_teardown_paths 200 ex_config_off ex_procs_db ex_db_off 30 container []) as (_ & H & _);
    [reflexivity | reflexivity | reflexivity |].
  destruct (H eq_refl outs procs' h' E) as [Hp Hev]. exists outs, procs', h'. split; [reflexivity|].
  split; [rewrite Hp; reflexivity|]. split; [exact Hev|]. vm_compute in E. injection E as <- <- <-. reflexivity.
Defined.

Lemma down_strays_silent_witness : exists procs' h', Down 200 ex_config_off ∅ "" container [] = Some ((None, procs'), h').
Proof.
  destruct (Down 200 ex_config_off ∅ "" container []) as [[[r procs'] h']|] eqn:E; [|vm_compute in E; discriminate].
  destruct (down_strays_silent 200 ex_config_off ∅ procs' container [] h' r) as [-> _]; [by repeat constructor | exact E|]. by eexists _, _.
Defined.
