(* ===== verification/Up.v ===== *)
(** * Up: launching servers and waiting for them

    Models the up, build and bounce paths of [cmd/aa-server-status/engine.go],
    the replace step [PerformBuild] of [internal/lifecycle/source.go] and the
    command lines of the builds.  Like [Engine.v], over a registry and the
    environment of [Teardown.v].  [Up] runs its targets on goroutines of their
    own; here each target's [upOne] is one computation. *)

From stdpp Require Import pretty.
From S2P Require Export Engine Status.

#[local] Open Scope Z_scope.

(** ** Building (source.go) *)

(** [rewriteBuildOutputFields], on the fields of the build command. *)
Fixpoint rewriteBuildOutputFields (fields : list string) (newPath : string) : result (list string) :=
  match fields with
  | [] => Err "missing required -o <path> flag"
  | f :: rest =>
      if bool_decide (f = "-o"%string) then
        match rest with
        | [] => Err "-o flag has no path argument"
        | _ :: rest => Ok (f :: newPath :: rest)
        end
      else match rewriteBuildOutputFields rest newPath with Ok r => Ok (f :: r) | e => e end
  end.

(** The index behind the first ["-o"] and its argument. *)
Fixpoint insert_at (fields : list string) : nat :=
  match fields with
  | [] => O
  | f :: rest => if bool_decide (f = "-o"%string) then 2%nat else S (insert_at rest)
  end.

Definition insertBuildVCSFalse (fields : list string) : list string :=
  if existsb (fun f => bool_decide (f = "-buildvcs=false"%string) || bool_decide (f = "-buildvcs"%string)) fields then fields
  else
    let insertAt := insert_at fields in
    take insertAt fields ++ ["-buildvcs=false"%string] ++ drop insertAt fields.

(** [expanded] is [dir] with its tilde expanded, [None] when that fails. *)
Definition insertGoDirFlag (fields : list string) (expanded : option string) : result (list string) :=
  match fields with
  | f :: rest =>
      if bool_decide (f = "go"%string) then
        match expanded with None => Err "expanding dir" | Some dir => Ok (f :: "-C"%string :: dir :: rest) end
      else Err "'dir' requires a 'go' build command"
  | [] => Err "'dir' requires a 'go' build command"
  end.

(** The argument vector [buildToTemp] runs. *)
Definition build_argv (s : Server) (fields : list string) (tempPath : string) (expanded : option string) : result (list string) :=
  fields ← rewriteBuildOutputFields fields tempPath;
  fields ← (if bool_decide (Dir s ≠ "") then insertGoDirFlag fields expanded else Ok fields);
  Ok (insertBuildVCSFalse fields).

(** ** Replacing a binary

    The callbacks of [BuildLifecycle] share state with their maker: the registry,
    and for a rebuild the [logPath] the Start callback assigns. *)
Abbreviation callback St := (St -> M (result unit * St)).

Definition PerformBuild {St} (s : Server) (stop start : option (callback St)) (procs : St) : M (result unit * St) :=
  if negb (bool_decide (Type_ s = TypeSource)) then mret (Err "build verb only applies to source servers", procs)
  else
    probe ← probeStale s;
    match probe with
    | None => mret (Err "probing staleness", procs)
    | Some false => mret (Ok tt, procs)
    | Some true =>
        stopped ← (match stop with Some f => f procs | None => mret (Ok tt, procs) end);
        match stopped with
        | (Ok _, procs) =>
            replaced ← replaceBinary s;
            if negb replaced then mret (Err "replacing binary", procs)
            else match start with Some f => f procs | None => mret (Ok tt, procs) end
        | (e, procs) => mret (e, procs)
        end
    end.

(** [EnsureHealthProbeBuilt]: the synthetic source server of the probe. *)
Definition probe_server (s : Server) : Server :=
  mkServer (Name s) TypeSource false "" None 0 [] "" "" "" "" [] (se_Build (h_Source (Health_ s))) (se_Binary (h_Source (Health_ s)))
    "" "" [] false [] (mkHealth "" 0 "" [] (mkSourceExec "" "")) (mkWarm "" 0 "" "" "") [] 0 0.

Definition EnsureHealthProbeBuilt (s : Server) : M (result unit) :=
  if negb (se_Declared (h_Source (Health_ s))) then mret (Ok tt)
  else r ← PerformBuild (probe_server s) None None tt; mret (fst r).

Section Verbs.
Context (fuel : nat) (cfg : Config).
Let sup := Supervisor_ cfg.

(** ** Waiting for readiness *)

Definition observe_declared (v : host_view) (s : Server) (pid : Z) : tree_result :=
  if Detached s then TreeOk (hostObservationFor v (DeclaredPorts s)) else TreeListenSet fuel v pid.

Definition exhausted (r : tree_result) : bool := match r with TreeNoFuel => true | _ => false end.

(** The exact listen-set, held by processes of ours; a detached server's ports
    may be held by anyone. *)
Definition listen_set_exact (s : Server) (obs : TreeObservation) : bool :=
  let class := Classify (DeclaredPorts s) obs in
  bool_decide (Class class = CandidateUp) && (Detached s || (size (ForeignHolders class) =? 0)%nat).

(** [for { probe; ...; time.Sleep(min(remaining, max(interval, probeCost))) }] *)
Fixpoint poll_ports (turns : nat) (s : Server) (pid deadline interval : Z) : M (result unit) :=
  match turns with
  | O => noFuel
  | S turns =>
      probeStart ← Now;
      v ← hostView;
      let r := observe_declared v s pid in
      let ready := match r with TreeOk obs => listen_set_exact s obs | _ => false end in
      if exhausted r then noFuel
      else if ready then mret (Ok tt)
      else
        t1 ← Now;
        let probeCost := t1 - probeStart in
        t2 ← Now;
        let remaining := deadline - t2 in
        if remaining <=? 0 then
          mret (Err (match r with TreeOk _ => "declared listen-set not reached" | _ => "observing listening ports" end))
        else
          _ ← Sleep (Z.min remaining (Z.max interval probeCost));
          poll_ports turns s pid deadline interval
  end.

Definition pollPortsReady (s : Server) (pid budget : Z) : M (result unit) :=
  if bool_decide (length (DeclaredPorts s) = O) then mret (Ok tt)
  else t ← Now; poll_ports fuel s pid (t + budget) (resolvePollInterval sup).

Definition pollPortsVerdict (s : Server) (pid deadline : Z) (stageErr : result unit) : M (result unit) :=
  t ← Now;
  r ← pollPortsReady s pid (deadline - t);
  mret (match r with Ok _ => stageErr | e => e end).

Definition warmUp (s : Server) : M (result unit) :=
  if bool_decide (w_Path (Warm_ s) = "") then mret (Ok tt)
  else
    r ← runWarm (ResolveWarmSpec (Warm_ s) (Host s) (Port s));
    match r with
    | None => noFuel
    | Some (WarmReady _) => mret (Ok tt)
    | Some (WarmRejected _) => mret (Err "warm-up request is rejected")
    | Some (WarmTimedOut _) => mret (Err "warm-up did not return 2xx")
    end.

Definition pollReady (s : Server) (pid : Z) : M (result unit) :=
  t ← Now;
  let deadline := t + resolveReadyTimeout s sup in
  _ ← Now;
  warm ← warmUp s;
  match warm with
  | Ok _ =>
      if h_Declared (Health_ s) then
        _ ← Now;
        r ← runPoll (ResolveSpec (Health_ s) (Host s) (Port s));
        match r with
        | None => noFuel
        | Some (PollReadyOk _) => pollPortsVerdict s pid deadline (Ok tt)
        | Some (PollTimedOut _ _) => pollPortsVerdict s pid deadline (Err "did not become healthy")
        end
      else pollPortsVerdict s pid deadline (Ok tt)
  | e => pollPortsVerdict s pid deadline e
  end.

Definition buildProbeAndPollReady (s : Server) (pid : Z) : M (result unit) :=
  b ← EnsureHealthProbeBuilt s;
  match b with Ok _ => pollReady s pid | e => mret e end.

(** ** Launching *)

Definition known_type (s : Server) : bool :=
  bool_decide (Type_ s ∈ [TypeMLX; TypePython; TypeExec; TypeSource]).

Definition launch (s : Server) : M (option (Z * string)) :=
  if known_type s then startChild s else mret None.

(** The Start callback of a rebuild. *)
Definition start_child (s : Server) : callback (registry * string) := fun st =>
  p ← launch s;
  match p with
  | None => mret (Err "launching", st)
  | Some (pid, logPath) =>
      r ← buildProbeAndPollReady s pid;
      mret (r, (<[Name s := Some pid]> (fst st), logPath))
  end.

Definition our_ports (ownPID : option Z) (v : host_view) : gmap Z Holder :=
  match ownPID with
  | Some pid => match TreeListenSet fuel v pid with TreeOk obs => Holders obs | _ => ∅ end
  | None => ∅
  end.

(** [checkPortConflict]: whether it refuses. *)
Definition checkPortConflict (declared : list Z) (ownPID : option Z) : M bool :=
  r ← hostScan;
  match r with
  | None => mret true
  | Some holders =>
      ours ← (match ownPID with
              | Some pid => v ← hostView; if exhausted (TreeListenSet fuel v pid) then noFuel else mret (our_ports ownPID v)
              | None => mret ∅
              end);
      mret (existsb (fun p => bool_decide (is_Some (holders !! p)) && negb (bool_decide (is_Some (ours !! p)))) declared)
  end.

(** [None]: not stale, the caller goes on. *)
Definition rebuild (s : Server) (stop : option (callback (registry * string))) (procs : registry) : M (option (verbOutcome * registry)) :=
  probe ← probeStale s;
  match probe with
  | None => mret (Some (mkOutcome (Name s) (Some "probing staleness") "" false, procs))
  | Some false => mret None
  | Some true =>
      r ← PerformBuild s stop (Some (start_child s)) (procs, ""%string);
      mret (Some (mkOutcome (Name s) (vo_Err (err_outcome (Name s) (fst r))) (snd (snd r)) false, fst (snd r)))
  end.

Definition rebuildIfStaleOwned (s : Server) (procs : registry) : M (option (verbOutcome * registry)) :=
  rebuild s (Some (fun st => r ← teardownOne fuel cfg (fst st) s; mret (r, st))) procs.

Definition rebuildIfStaleCold (s : Server) (procs : registry) : M (option (verbOutcome * registry)) := rebuild s None procs.

Definition upOne (procs : registry) (s : Server) : M (verbOutcome * registry) :=
  owned ← ownedPID procs s;
  match owned with
  | Some _ =>
      handled ← (if bool_decide (Type_ s = TypeSource) then rebuildIfStaleOwned s procs else mret None);
      mret (default (ok_outcome (Name s), procs) handled)
  | None =>
      conflict ← checkPortConflict (DeclaredPorts s) None;
      if (conflict : bool) then mret (mkOutcome (Name s) (Some "port is held; refusing to launch") "" false, procs)
      else
        handled ← (if bool_decide (Type_ s = TypeSource) then rebuildIfStaleCold s procs else mret None);
        match handled with
        | Some res => mret res
        | None =>
            p ← launch s;
            match p with
            | None => mret (mkOutcome (Name s) (Some "launching") "" false, procs)
            | Some (pid, logPath) =>
                r ← buildProbeAndPollReady s pid;
                mret (mkOutcome (Name s) (vo_Err (err_outcome (Name s) r)) logPath false, <[Name s := Some pid]> procs)
            end
        end
  end.

(** ** The build and bounce verbs *)

(** [Build]; [resolve] is [askPrompts] on the one server, whose answer the
    operator types. *)
Definition BuildVerb (resolve : Server -> result Server) (procs : registry) (name : string) : M (result unit * registry) :=
  match ServerByName cfg name with
  | None => mret (Err "no such server", procs)
  | Some s =>
      if negb (bool_decide (Type_ s = TypeSource)) then mret (Err "build verb only applies to source servers", procs)
      else
        owned ← ownedPID procs s;
        match owned with
        | None => PerformBuild s None None procs
        | Some pid =>
            PerformBuild s
              (Some (fun procs => r ← teardownPID fuel cfg s pid; mret (r, delete name procs)))
              (Some (fun procs =>
                 match resolve s with
                 | Ok launchable =>
                     p ← launch launchable;
                     match p with
                     | None => mret (Err "launching", procs)
                     | Some (pid, logPath) => r ← pollReady launchable pid; mret (r, <[Name launchable := Some pid]> procs)
                     end
                 | Err m => mret (Err m, procs)
                 | Panic m => mret (Panic m, procs)
                 end)) procs
        end
  end.

(** [Bounce] of one server that declares no prompt. *)
Definition Bounce (procs : registry) (name : string) : M (option string * registry) :=
  if bool_decide (name = "") then mret (Some "bounce: a server name is required", procs)
  else
    down ← Down fuel cfg procs name;
    match down with
    | (Some e, procs) => mret (Some e, procs)
    | (None, procs) =>
        match ServerByName cfg name with
        | None => mret (Some "no such server", procs)
        | Some s => r ← upOne procs s; mret (vo_Err (fst r), snd r)
        end
    end.
End Verbs.
