(* ===== verification/UpThms.v ===== *)
(** * UpThms: what bringing a server up achieves

    [up] launches at most one child, only behind a scan that found every declared
    port free (or a teardown of our own child that did), registers whatever it
    launched, and reports success only for a child that was warmed up, healthy
    and seen on exactly its declared ports; the wait for the ports ends; a build
    never names the deployed binary. *)

From S2P Require Import Config TeardownThms Engine Up.

#[local] Open Scope Z_scope.

(** ** Computations without a launch *)

Definition only {A} (Q : event -> Prop) (m : M A) : Prop := does m (fun ev _ => Forall Q ev).

Section Only.
Context (Q : event -> Prop).

Lemma only_ret {A} (a : A) : only Q (mret a).
Proof. by apply does_done. Qed.

Lemma only_noFuel {A} : only Q (noFuel : M A).
Proof. apply does_noFuel. Qed.

Lemma only_call {A} (ask : env -> list event -> A) f : (forall a, Q (f a)) -> only Q (call ask f).
Proof. intros Hf. eapply does_weaken; [apply does_call|]. intros ev a ->. by constructor. Qed.

Lemma only_bind {A B} (m : M A) (f : A -> M B) : only Q m -> (forall a, only Q (f a)) -> only Q (m ≫= f).
Proof.
  intros Hm Hf. eapply does_seq; [exact Hm|]. intros ev1 a H1. eapply does_weaken; [apply Hf|].
  intros ev2 b H2. by apply Forall_app.
Qed.
End Only.

Lemma does_and {A} (m : M A) P Q : does m P -> does m Q -> does m (fun ev a => P ev a /\ Q ev a).
Proof.
  intros HP HQ e h a h' H. destruct (HP _ _ _ _ H) as (ev & -> & Hp). destruct (HQ _ _ _ _ H) as (ev' & Heq & Hq).
  apply app_inv_head in Heq as <-. eauto.
Qed.

Ltac only_step :=
  first [ apply only_ret | apply only_noFuel | apply only_call; done
        | apply only_bind; [|intros ?]
        | match goal with |- context [match ?x with _ => _ end] => destruct x end ].
Ltac events_solve := repeat first [done | apply Forall_nil_2 | apply Forall_cons; split | apply Forall_app; split].
Ltac only_solve := repeat (assumption || eassumption || only_step).

Definition no_launch (x : event) : Prop := match x with ELaunch _ _ => False | _ => True end.

Lemma only_Teardown fuel tg grace : only no_launch (Teardown fuel tg grace).
Proof.
  eapply does_weaken; [apply does_Teardown_good|]. intros ev r (Hg & _).
  eapply Forall_impl; [exact Hg|]. by intros [].
Qed.

Lemma only_wait_free fuel ports deadline : only no_launch (wait_free fuel ports deadline).
Proof. induction fuel as [|fuel IH]; simpl; [apply only_noFuel|]. unfold Now, Sleep, hostScan. only_solve. Qed.

Lemma only_ownedPID procs s : only no_launch (ownedPID procs s).
Proof. unfold ownedPID, hasExited. only_solve. Qed.

Lemma only_teardownOne fuel cfg procs s : only no_launch (teardownOne fuel cfg procs s).
Proof.
  unfold teardownOne. apply only_bind; [apply only_ownedPID|]. intros [pid|]; [|apply only_ret].
  destruct (Detached s).
  - unfold teardownDetached, runTeardownCommand, Now. repeat (apply only_wait_free || only_step).
  - unfold teardownPID. apply only_bind; [apply only_Teardown|]. intros r. apply only_ret.
Qed.

(** ** Readiness *)

(** The last view shows the child on exactly its declared ports. *)
Definition seen_on_ports (fuel : nat) (s : Server) (pid : Z) (ev : list event) : Prop :=
  exists v obs, last ev = Some (EView v) /\ observe_declared fuel v s pid = TreeOk obs /\ listen_set_exact s obs = true.

Definition ready_evidence (fuel : nat) (s : Server) (pid : Z) (ev : list event) : Prop :=
  (w_Path (Warm_ s) <> ""%string -> exists n, EWarm (Some (WarmReady n)) ∈ ev) /\
  (h_Declared (Health_ s) = true -> exists n, EPoll (Some (PollReadyOk n)) ∈ ev) /\
  (DeclaredPorts s <> [] -> seen_on_ports fuel s pid ev).

Lemma seen_on_ports_after fuel s pid ev ev' : seen_on_ports fuel s pid ev' -> seen_on_ports fuel s pid (ev ++ ev').
Proof. intros (v & obs & Hl & H). exists v, obs. split; [|done]. by rewrite last_app, Hl. Qed.

Lemma ready_evidence_after fuel s pid ev ev' : ready_evidence fuel s pid ev' -> ready_evidence fuel s pid (ev ++ ev').
Proof.
  intros (Hw & Hp & Hl). split; [|split].
  - intros H. destruct (Hw H) as [n Hin]. exists n. set_solver.
  - intros H. destruct (Hp H) as [n Hin]. exists n. set_solver.
  - intros H. by apply seen_on_ports_after, Hl.
Qed.

Lemma does_poll_ports fuel turns s pid deadline interval : does (poll_ports fuel turns s pid deadline interval)
  (fun ev r => r = Ok tt -> seen_on_ports fuel s pid ev).
Proof.
  induction turns as [|turns IH]; simpl; [apply does_noFuel|].
  eapply does_seq; [apply does_call|]. intros ev1 t0 ->. eapply does_seq; [apply does_call|]. intros ev2 v ->.
  destruct (observe_declared fuel v s pid) as [obs| | |] eqn:Eo; [destruct (listen_set_exact s obs) eqn:Er| | |apply does_noFuel]; cbn [exhausted].
  { apply does_done. intros _. exists v, obs. by rewrite app_nil_r. }
  all: eapply does_seq; [apply does_call|]; intros ev3 t1 ->; eapply does_seq; [apply does_call|]; intros ev4 t2 ->.
  all: destruct (deadline - t2 <=? 0); [by apply does_done|].
  all: eapply does_seq; [apply does_call|]; intros ev5 u ->; eapply does_weaken; [apply IH|].
  all: intros ev r H Hr; by do 5 apply seen_on_ports_after; apply H.
Qed.

Lemma does_pollPortsReady fuel cfg s pid budget : does (pollPortsReady fuel cfg s pid budget)
  (fun ev r => r = Ok tt -> DeclaredPorts s <> [] -> seen_on_ports fuel s pid ev).
Proof.
  unfold pollPortsReady. case_bool_decide as Hl.
  - apply does_done. intros _ H. by destruct (DeclaredPorts s).
  - eapply does_seq; [apply does_call|]. intros ev2 t2 ->. eapply does_weaken; [apply does_poll_ports|].
    intros ev r H Hr _. by apply seen_on_ports_after, H.
Qed.

Lemma does_verdict fuel cfg s pid deadline stage : does (pollPortsVerdict fuel cfg s pid deadline stage)
  (fun ev r => r = Ok tt -> stage = Ok tt /\ (DeclaredPorts s <> [] -> seen_on_ports fuel s pid ev)).
Proof.
  eapply does_seq; [apply does_call|]. intros ev1 t ->. eapply does_seq; [apply does_pollPortsReady|].
  intros ev2 r H. apply does_done. rewrite app_nil_r. destruct r as [[]|m|m]; [|done..]. intros ->. split; [done|].
  intros Hp. apply seen_on_ports_after. by apply H.
Qed.

Lemma does_warmUp s : does (warmUp s) (fun ev r => r = Ok tt -> w_Path (Warm_ s) <> ""%string -> exists n, EWarm (Some (WarmReady n)) ∈ ev).
Proof.
  unfold warmUp. case_bool_decide as Hw; [by apply does_done|].
  eapply does_seq; [apply does_call|]. intros ev r ->. destruct r as [[n|n|n]|]; [|by apply does_done..|apply does_noFuel].
  apply does_done. intros _ _. exists n. set_solver.
Qed.

Lemma does_pollReady fuel cfg s pid : does (pollReady fuel cfg s pid) (fun ev r => r = Ok tt -> ready_evidence fuel s pid ev).
Proof.
  eapply does_seq; [apply does_call|]. intros ev1 t ->. eapply does_seq; [apply does_call|]. intros ev2 t2 ->.
  eapply does_seq; [apply does_warmUp|]. intros ev3 warm Hw. destruct warm as [[]|m|m].
  - destruct (h_Declared (Health_ s)) eqn:Hh.
    + eapply does_seq; [apply does_call|]. intros ev4 t3 ->. eapply does_seq; [apply does_call|]. intros ev5 r ->.
      destruct r as [[n|n to]|].
      * eapply does_weaken; [apply does_verdict|]. intros ev r H Hr. destruct (H Hr) as [_ Hp].
        do 2 apply ready_evidence_after. split; [|split].
        -- intros Hn. destruct (Hw eq_refl Hn) as [k Hk]. exists k. set_solver.
        -- intros _. exists n. set_solver.
        -- intros Hd. do 3 apply seen_on_ports_after. by apply Hp.
      * eapply does_weaken; [apply does_verdict|]. intros ev r H Hr. by destruct (H Hr).
      * apply does_noFuel.
    + eapply does_weaken; [apply does_verdict|]. intros ev r H Hr. destruct (H Hr) as [_ Hp].
      do 2 apply ready_evidence_after. split; [|split].
      * intros Hn. destruct (Hw eq_refl Hn) as [k Hk]. exists k. set_solver.
      * congruence.
      * intros Hd. apply seen_on_ports_after. by apply Hp.
  - eapply does_weaken; [apply does_verdict|]. intros ev r H Hr. by destruct (H Hr).
  - eapply does_weaken; [apply does_verdict|]. intros ev r H Hr. by destruct (H Hr).
Qed.

Lemma only_PerformBuild s : only no_launch (PerformBuild s None None tt).
Proof. unfold PerformBuild, probeStale, replaceBinary. only_solve. Qed.

Lemma only_EnsureHealthProbeBuilt s : only no_launch (EnsureHealthProbeBuilt s).
Proof.
  unfold EnsureHealthProbeBuilt. destruct (se_Declared _); [|apply only_ret].
  apply only_bind; [apply only_PerformBuild|]. intros r. apply only_ret.
Qed.

Lemma does_build_and_poll fuel cfg s pid : does (buildProbeAndPollReady fuel cfg s pid) (fun ev r => r = Ok tt -> ready_evidence fuel s pid ev).
Proof.
  eapply does_seq; [apply only_EnsureHealthProbeBuilt|]. intros ev1 b _. destruct b as [[]|m|m]; [|by apply does_done..].
  eapply does_weaken; [apply does_pollReady|]. intros ev r H Hr. by apply ready_evidence_after, H.
Qed.

Lemma only_poll_ports fuel turns s pid deadline interval : only no_launch (poll_ports fuel turns s pid deadline interval).
Proof. induction turns as [|turns IH]; simpl; [apply only_noFuel|]. unfold Now, hostView, Sleep. only_solve. Qed.

Lemma only_verdict fuel cfg s pid deadline stage : only no_launch (pollPortsVerdict fuel cfg s pid deadline stage).
Proof.
  unfold pollPortsVerdict, pollPortsReady, Now. apply only_bind; [by apply only_call|]. intros t. apply only_bind; [|intros r; apply only_ret].
  case_bool_decide; [apply only_ret|]. apply only_bind; [by apply only_call|]. intros t'. apply only_poll_ports.
Qed.

Lemma only_pollReady fuel cfg s pid : only no_launch (pollReady fuel cfg s pid).
Proof. unfold pollReady, warmUp, Now, runWarm, runPoll. pose proof only_verdict as Hv. repeat (apply Hv || only_step). Qed.

Lemma only_build_and_poll fuel cfg s pid : only no_launch (buildProbeAndPollReady fuel cfg s pid).
Proof.
  apply only_bind; [apply only_EnsureHealthProbeBuilt|]. intros [[]|m|m]; [apply only_pollReady | apply only_ret..].
Qed.

(** ** Launching *)

(** The ports were clear: the last scan found them free, or our child had just
    exited. *)
Definition clear (procs : registry) (s : Server) (ev : list event) : Prop :=
  seen_free s ev \/ exists pid, registered procs s pid /\ last ev = Some (EExited pid true).

Definition no_scan (x : event) : Prop := match x with EScan _ => False | _ => True end.

(** How an [up] of one server ends.  A child that was launched is registered even
    when it does not become ready. *)
Inductive up_end (fuel : nat) (procs : registry) (s : Server) (ev : list event) (o : verbOutcome) : registry -> Prop :=
| up_not_launched : Forall no_launch ev ->
    (vo_Err o = None -> (exists pid, registered procs s pid /\ (Detached s = true \/ EExited pid false ∈ ev)) \/ (EStale s (Some true) ∈ ev /\ EStale s (Some false) ∈ ev)) ->
    up_end fuel procs s ev o procs
| up_launch_failed pre : ev = pre ++ [ELaunch s None] -> Forall no_launch pre -> vo_Err o <> None -> up_end fuel procs s ev o procs
| up_launched pre stop mid pid log post : ev = pre ++ stop ++ mid ++ ELaunch s (Some (pid, log)) :: post ->
    Forall no_launch (pre ++ stop ++ mid) -> Forall no_launch post ->
    clear procs s stop -> Forall no_scan mid ->
    vo_LogPath o = log -> (vo_Err o = None -> ready_evidence fuel s pid post) ->
    up_end fuel procs s ev o (<[Name s := Some pid]> procs).

Lemma up_end_after fuel procs s ev0 ev o procs' : Forall no_launch ev0 -> up_end fuel procs s ev o procs' -> up_end fuel procs s (ev0 ++ ev) o procs'.
Proof.
  intros H0 Hup. inversion Hup as [H1 H2|pre -> H1 H2|pre stop mid pid log post -> H1 H2 H3 H4 H5 H6]; subst.
  - apply up_not_launched; [by apply Forall_app|]. intros He. destruct (H2 He) as [(pid & Hr & Hd)|[]]; [left; exists pid; set_solver | right; set_solver].
  - eapply (up_launch_failed _ _ _ _ _ (ev0 ++ pre)); [by rewrite app_assoc | by apply Forall_app | done].
  - eapply (up_launched _ _ _ _ _ (ev0 ++ pre) stop mid); [by rewrite <- app_assoc| |done..]. rewrite <- app_assoc. by apply Forall_app.
Qed.

(** Launching and waiting, behind events that cleared the ports; [out] is the
    outcome and the registry a result stands for. *)
Lemma does_launch {B} fuel cfg procs s (out : B -> verbOutcome * registry) (k_none : B) (k : Z -> string -> result unit -> B) :
  vo_Err (fst (out k_none)) <> None -> snd (out k_none) = procs ->
  (forall pid log r, snd (out (k pid log r)) = <[Name s := Some pid]> procs /\ vo_LogPath (fst (out (k pid log r))) = log /\
     (vo_Err (fst (out (k pid log r))) = None -> r = Ok tt)) ->
  forall pre mid, clear procs s pre -> Forall no_launch pre -> Forall no_scan mid -> Forall no_launch mid ->
  does (p ← launch s; match p with
                      | None => mret k_none
                      | Some (pid, log) => r ← buildProbeAndPollReady fuel cfg s pid; mret (k pid log r)
                      end)
    (fun ev b => up_end fuel procs s ((pre ++ mid) ++ ev) (fst (out b)) (snd (out b))).
Proof.
  intros Hnone Hreg Hk pre mid Hc Hp Hm Hm'. unfold launch. destruct (known_type s).
  - eapply does_seq; [apply does_call|]. intros ev1 r ->. destruct r as [[pid log]|].
    + eapply does_seq; [apply (does_and _ _ _ (does_build_and_poll fuel cfg s pid) (only_build_and_poll fuel cfg s pid))|].
      intros post r [Hr Hpost]. apply does_done. rewrite app_nil_r. destruct (Hk pid log r) as (-> & Hlog & He).
      eapply (up_launched _ _ _ _ _ [] pre mid pid log post); [by rewrite <- app_assoc | by apply (Forall_app _ pre mid) | done..|].
      intros H. by apply Hr, He.
    + apply does_done. rewrite Hreg. eapply (up_launch_failed _ _ _ _ _ (pre ++ mid)); [done | by apply Forall_app | done].
  - eapply (does_seq _ _ (fun ev1 r => ev1 = [] /\ r = None)); [by apply does_done|].
    intros ev1 r [-> ->]. apply does_done. rewrite Hreg. apply up_not_launched; [rewrite app_nil_r; by apply Forall_app | done].
Qed.

(** The stop of a rebuild leaves the state alone and clears the ports; without
    one they must be clear already. *)
Definition stop_clears (procs : registry) (s : Server) (pre : list event) (stop : option (callback (registry * string))) : Prop :=
  match stop with
  | None => clear procs s pre
  | Some f => does (f (procs, ""%string)) (fun ev r => snd r = (procs, ""%string) /\ Forall no_launch ev /\ (fst r = Ok tt -> clear procs s ev))
  end.

Definition start_out (s : Server) (b : result unit * (registry * string)) : verbOutcome * registry :=
  (mkOutcome (Name s) (vo_Err (err_outcome (Name s) (fst b))) (snd (snd b)) false, fst (snd b)).

Lemma does_start_child fuel cfg procs s pre mid : clear procs s pre -> Forall no_launch pre -> Forall no_scan mid -> Forall no_launch mid ->
  does (start_child fuel cfg s (procs, ""%string))
    (fun ev b => up_end fuel procs s ((pre ++ mid) ++ ev) (fst (start_out s b)) (snd (start_out s b))).
Proof.
  intros. unfold start_child.
  apply (does_launch fuel cfg procs s (start_out s) (Err "launching", (procs, ""%string)) (fun pid log r => (r, (<[Name s := Some pid]> procs, log)))); try done.
  intros pid log r. split; [done|]. split; [done|]. by destruct r as [[]|m|m].
Qed.

Lemma does_rebuild fuel cfg procs s stop pre : Forall no_launch pre -> stop_clears procs s pre stop ->
  does (rebuild fuel cfg s stop procs)
    (fun ev res => match res with
                   | None => Forall no_launch ev /\ Forall no_scan ev
                   | Some (o, procs') => up_end fuel procs s (pre ++ ev) o procs'
                   end).
Proof.
  intros Hpre Hstop. unfold rebuild. eapply does_seq; [apply does_call|]. intros ev1 st ->.
  destruct st as [[]|]; [|by apply does_done; repeat constructor|].
  2:{ apply does_done. apply up_not_launched; [events_solve | done]. }
  eapply (does_seq _ _ (fun ev b => up_end fuel procs s (pre ++ EStale s (Some true) :: ev) (fst (start_out s b)) (snd (start_out s b)))).
  2:{ intros ev b H. apply does_done. rewrite app_nil_r. exact H. }
  unfold PerformBuild. case_bool_decide as Ht; cbn [negb].
  2:{ apply does_done. apply up_not_launched; [events_solve | done]. }
  eapply does_seq; [apply does_call|]. intros ev2 st ->. destruct st as [[]|].
  2:{ apply does_done. apply up_not_launched; [events_solve|]. intros _. right. set_solver. }
  2:{ apply does_done. apply up_not_launched; [events_solve | done]. }
  set (two := [EStale s (Some true); EStale s (Some true)]).
  assert (Htwo : Forall no_launch two) by (by repeat constructor).
  eapply (does_seq _ _ (fun ev r => snd r = (procs, ""%string) /\ Forall no_launch ev /\
    (fst r = Ok tt -> exists before pre' mid, pre ++ two ++ ev = before ++ pre' ++ mid /\ clear procs s pre' /\ Forall no_scan mid))).
  { destruct stop as [f|]; simpl in Hstop.
    - eapply does_weaken; [exact Hstop|]. intros ev r (H1 & H2 & H3). split; [done|]. split; [done|].
      intros Hr. exists (pre ++ two), ev, []. rewrite app_nil_r, app_assoc. eauto.
    - apply does_done. split; [done|]. split; [done|]. intros _. exists [], pre, two. split; [by rewrite app_nil_r|]. split; [done|]. by repeat constructor. }
  intros ev3 [r st] (Hst & Hl3 & Hok). simpl in Hst, Hok. subst st.
  assert (Hfail : forall m, up_end fuel procs s (pre ++ EStale s (Some true) :: [EStale s (Some true)] ++ ev3) (mkOutcome (Name s) (Some m) "" false) procs).
  { intros m. apply up_not_launched; [|done]. events_solve. }
  destruct r as [[]|m|m]; [|apply does_done; rewrite app_nil_r; apply Hfail..].
  eapply does_seq; [apply does_call|]. intros ev4 ok ->. destruct ok; cbn [negb].
  2:{ apply does_done. apply up_not_launched; [|done]. events_solve. }
  destruct (Hok eq_refl) as (before & pre' & mid & Heq & Hc & Hm).
  assert (Hall : Forall no_launch (before ++ pre' ++ mid)) by (rewrite <- Heq; events_solve).
  apply Forall_app in Hall as [Hb [Hp' Hm']%Forall_app].
  eapply does_weaken; [apply (does_start_child fuel cfg procs s pre' (mid ++ [EReplace s true])); [done | done | events_solve..]|].
  intros ev5 b Hup. apply (up_end_after _ _ _ before) in Hup; [|done].
  assert (Hev : pre ++ EStale s (Some true) :: [EStale s (Some true)] ++ ev3 ++ [EReplace s true] ++ ev5 = before ++ (pre' ++ mid ++ [EReplace s true]) ++ ev5).
  { transitivity ((pre ++ two ++ ev3) ++ EReplace s true :: ev5); [by rewrite <- !app_assoc|]. change (two ++ ev3) with (EStale s (Some true) :: EStale s (Some true) :: ev3). rewrite Heq. by rewrite <- !app_assoc. }
  by rewrite <- Hev in Hup.
Qed.

Lemma clear_scan procs s holders ev : (forall p, p ∈ DeclaredPorts s -> holders !! p = None) -> clear procs s (ev ++ [EScan (Some holders)]).
Proof.
  intros Hf. left. apply seen_free_after, confirmed_seen_free. exists holders, [], []. split; [done|]. split; [set_solver|done].
Qed.

Lemma does_checkPortConflict fuel declared : does (checkPortConflict fuel declared None)
  (fun ev b => exists r, ev = [EScan r] /\ (b = false -> exists holders, r = Some holders /\ forall p, p ∈ declared -> holders !! p = None)).
Proof.
  eapply does_seq; [apply does_call|]. intros ev1 r ->. destruct r as [holders|].
  - eapply does_seq; [by apply (does_done _ (fun ev a => ev = [] /\ a = ∅))|]. intros ev2 ours [-> ->]. apply does_done.
    eexists. split; [done|]. intros Hex. exists holders. split; [done|]. intros p Hp.
    destruct (holders !! p) as [q|] eqn:E; [|done]. exfalso. apply list_elem_of_In in Hp.
    rewrite <- not_true_iff_false in Hex. apply Hex, existsb_exists. exists p. split; [done|]. by rewrite E, lookup_empty.
  - apply does_done. eexists. split; [done|]. done.
Qed.

Lemma does_upOne fuel cfg procs s : does (upOne fuel cfg procs s) (fun ev res => up_end fuel procs s ev (fst res) (snd res)).
Proof.
  unfold upOne. eapply does_seq; [apply (does_and _ _ _ (does_ownedPID procs s) (only_ownedPID procs s))|].
  intros ev o [Ho Hl]. destruct o as [pid|].
  - assert (Hreg : registered procs s pid) by (by inversion Ho).
    assert (Hok : forall ev', Forall no_launch ev' -> up_end fuel procs s (ev ++ ev') (ok_outcome (Name s)) procs).
    { intros ev' H. apply up_not_launched; [events_solve|]. intros _. left. exists pid. split; [done|]. inversion Ho; subst; [by left | right; set_solver]. }
    case_bool_decide.
    + eapply does_seq; [apply (does_rebuild fuel cfg procs s _ ev Hl)|].
      * simpl. eapply does_seq; [apply (does_and _ _ _ (does_teardownOne fuel cfg procs s) (only_teardownOne fuel cfg procs s))|].
        intros ev1 r [[_ Hr] Hl1]. apply does_done. rewrite app_nil_r. split; [done|]. split; [done|]. intros Hrok.
        destruct (Hr Hrok) as [Hf|[[_ Hn]|(p & -> & Hp & _)]]; [by left | by destruct (Hn pid) | right; by exists p].
      * intros ev1 [[o procs']|] H1; apply does_done; rewrite app_nil_r; [exact H1|]. apply Hok, H1.
    + eapply (does_seq _ _ (fun ev r => ev = [] /\ r = None)); [by apply does_done|]. intros ev1 r [-> ->]. apply does_done. by apply Hok.
  - eapply does_seq; [apply does_checkPortConflict|]. intros ev1 b (r & -> & Hfree). destruct b.
    + apply does_done. apply up_not_launched; [events_solve | done].
    + destruct (Hfree eq_refl) as (holders & -> & Hf). pose proof (clear_scan procs s holders ev Hf) as Hc.
      assert (Hl1 : Forall no_launch (ev ++ [EScan (Some holders)])) by events_solve.
      eapply (does_seq _ _ (fun ev1 res => match res with
                   | None => Forall no_launch ev1 /\ Forall no_scan ev1
                   | Some (o, procs') => up_end fuel procs s ((ev ++ [EScan (Some holders)]) ++ ev1) o procs'
                   end)).
      { case_bool_decide; [by apply does_rebuild | by apply does_done]. }
      intros ev2 [[o procs']|] H2; [apply does_done; by rewrite app_nil_r, app_assoc|]. destruct H2 as [H2 H2'].
      eapply does_weaken; [|intros ev3 b H3; rewrite !app_assoc; exact H3].
      apply (does_launch fuel cfg procs s (fun b => b) (mkOutcome (Name s) (Some "launching"%string) "" false, procs)
        (fun pid log r => (mkOutcome (Name s) (vo_Err (err_outcome (Name s) r)) log false, <[Name s := Some pid]> procs))); try done.
      intros pid log r. split; [done|]. split; [done|]. by destruct r as [[]|m|m].
Qed.

(** ** The wait for the ports ends

    Each round that finds the deadline ahead sleeps at least the interval, and
    never past the deadline. *)
Lemma app3 {A} (h : list A) a b c : ((h ++ [a]) ++ [b]) ++ [c] = h ++ [a; b; c].
Proof. by rewrite <- !app_assoc. Qed.

Lemma returns_poll_ports fuel s pid deadline interval e : clock_runs e -> 0 < interval ->
  (forall h, exhausted (observe_declared fuel (view_at e h) s pid) = false) ->
  forall turns h, (1 <= turns)%nat -> deadline - now_at e h <= (Z.of_nat turns - 1) * interval ->
  exists r ev, poll_ports fuel turns s pid deadline interval e h = Some (r, h ++ ev) /\ slept ev <= Z.max 0 (deadline - now_at e h).
Proof.
  intros Hc Hi Hex. induction turns as [|turns IH]; intros h Ht Hd; [lia|].
  cbn [poll_ports]. unfold mbind, M_bind, Now, hostView, call, Sleep.
  set (h1 := h ++ [ENow (now_at e h)]). rewrite Hex. set (h2 := h1 ++ [EView (view_at e h1)]).
  destruct (match observe_declared fuel (view_at e h1) s pid with TreeOk obs => listen_set_exact s obs | _ => false end).
  { exists (Ok tt), [ENow (now_at e h); EView (view_at e h1)]. unfold h2, h1. rewrite <- app_assoc. split; [done|]. simpl. lia. }
  set (h3 := h2 ++ [ENow (now_at e h2)]). set (h4 := h3 ++ [ENow (now_at e h3)]).
  set (four := [ENow (now_at e h); EView (view_at e h1); ENow (now_at e h2); ENow (now_at e h3)]).
  assert (H3 : h3 = h ++ [ENow (now_at e h); EView (view_at e h1); ENow (now_at e h2)]) by exact (app3 _ _ _ _).
  assert (H4 : h4 = h ++ four) by (unfold h4, four; rewrite H3 at 1; by rewrite <- app_assoc).
  assert (Hn : now_at e h <= now_at e h3).
  { pose proof (Hc h [ENow (now_at e h); EView (view_at e h1); ENow (now_at e h2)]) as H. simpl in H.
    rewrite <- H3 in H. lia. }
  destruct (Z.leb_spec (deadline - now_at e h3) 0) as [Hr|Hr].
  { eexists _, four. rewrite H4. split; [done|]. simpl. lia. }
  set (d := Z.min _ _). pose proof (Hc h3 [ENow (now_at e h3); ESleep d]) as Hs.
  assert (H5 : h4 ++ [ESleep d] = h3 ++ [ENow (now_at e h3); ESleep d]) by (unfold h4; by rewrite <- app_assoc).
  rewrite <- H5 in Hs. simpl in Hs.
  assert (Hd1 : interval <= d \/ d = deadline - now_at e h3) by lia. assert (Hd2 : d <= deadline - now_at e h3) by lia. clearbody d.
  assert (Ht' : (1 <= turns)%nat) by (destruct turns; [lia|lia]).
  assert (Hd' : deadline - now_at e (h4 ++ [ESleep d]) <= (Z.of_nat turns - 1) * interval).
  { rewrite Nat2Z.inj_succ in Hd. assert (0 <= (Z.of_nat turns - 1) * interval) by (apply Z.mul_nonneg_nonneg; lia). destruct Hd1; lia. }
  destruct (IH (h4 ++ [ESleep d])) as (r & ev & E & Hev); [done|done|]. unfold call. rewrite E.
  exists r, (four ++ [ESleep d] ++ ev). split; [by rewrite H4, <- !app_assoc|].
  rewrite slept_app. change (slept four) with 0. change (slept ([ESleep d] ++ ev)) with (d + slept ev). lia.
Qed.

(** Under a clock that advances at least as far as one sleeps, the wait for the
    listen-set always ends, never sleeping past its budget, and it succeeds only if the last
    look saw exactly the declared ports. *)
Theorem ports_wait_bounded (fuel : nat) (cfg : Config) (s : Server) (pid budget : Z) (e : env) (h : list event)
    (Hclock : clock_runs e) (Hinterval : 0 < resolvePollInterval (Supervisor_ cfg))
    (Hwalk : forall h, exhausted (observe_declared fuel (view_at e h) s pid) = false)
    (Hfuel : (1 <= fuel)%nat) (Hbudget : budget <= (Z.of_nat fuel - 1) * resolvePollInterval (Supervisor_ cfg)) :
  exists r ev, pollPortsReady fuel cfg s pid budget e h = Some (r, h ++ ev) /\ slept ev <= Z.max 0 budget /\
    (r = Ok tt -> DeclaredPorts s <> [] -> seen_on_ports fuel s pid ev).
Proof.
  assert (Hrun : exists r ev, pollPortsReady fuel cfg s pid budget e h = Some (r, h ++ ev) /\ slept ev <= Z.max 0 budget).
  { unfold pollPortsReady. case_bool_decide as Hd.
    { exists (Ok tt), []. rewrite app_nil_r. split; [done|]. simpl. lia. }
    pose proof (Hclock h [ENow (now_at e h)]) as Hn. simpl in Hn.
    destruct (returns_poll_ports fuel s pid (now_at e h + budget) _ e Hclock Hinterval Hwalk fuel (h ++ [ENow (now_at e h)]) Hfuel) as (r & ev & E & Hs); [lia|].
    exists r, ([ENow (now_at e h)] ++ ev). rewrite app_assoc. split; [exact E|]. simpl. lia. }
  destruct Hrun as (r & ev & E & Hs). exists r, ev. split; [done|]. split; [done|]. intros -> Hd.
  destruct (does_pollPortsReady fuel cfg s pid budget _ _ _ _ E) as (ev' & Heq & H). apply app_inv_head in Heq as <-. by apply H.
Qed.

(** C39: An up of one server launches at most one child, only after a last scan that saw
    every declared port free or the exit of our own child; a launched child is registered,
    ready or not. Success after a launch means that the warm-up and the health check it
    declares passed and that the last look found its declared ports: for a server that is
    not detached, these and no others, all held by the process tree of our child; for a
    detached one, each held by some process, whichever it is. Success without a launch means
    that our registered child was running, or, for a detached server, only that its launcher
    is registered, whatever became of its service; or that a stale build turned out fresh on
    the second look, when nothing was launched. *)
Theorem up_sound (fuel : nat) (cfg : Config) (procs procs' : registry) (s : Server) (e : env) (h h' : list event) (o : verbOutcome)
    (Hrun : upOne fuel cfg procs s e h = Some ((o, procs'), h')) :
  exists ev, h' = h ++ ev /\ up_end fuel procs s ev o procs'.
Proof. exact (does_upOne fuel cfg procs s e h (o, procs') h' Hrun). Qed.

(** ** Builds *)

Lemma rewriteBuildOutputFields_ok fields newPath out : rewriteBuildOutputFields fields newPath = Ok out ->
  exists pre old rest, fields = pre ++ "-o"%string :: old :: rest /\ "-o"%string ∉ pre /\ out = pre ++ "-o"%string :: newPath :: rest.
Proof.
  revert out. induction fields as [|f fields IH]; intros out; [done|]. cbn [rewriteBuildOutputFields]. case_bool_decide as Hf.
  - destruct fields as [|old rest]; [done|]. intros [= <-]. exists [], old, rest. subst f. split; [done|]. split; [set_solver|done].
  - destruct (rewriteBuildOutputFields fields newPath) as [out'|m|m]; [|done..]. intros [= <-].
    destruct (IH out' eq_refl) as (pre & old & rest & -> & Hn & ->). exists (f :: pre), old, rest. set_solver.
Qed.

Lemma insert_at_split pre new rest : "-o"%string ∉ pre -> insert_at (pre ++ "-o"%string :: new :: rest) = (length pre + 2)%nat.
Proof.
  induction pre as [|f pre IH]; [done|]. intros Hn. cbn [app insert_at length]. rewrite bool_decide_false by set_solver.
  rewrite IH by set_solver. lia.
Qed.

Definition buildvcs (f : string) : Prop := f = "-buildvcs=false"%string \/ f = "-buildvcs"%string.

(** Behind the output flag, unless the command has the flag already. *)
Definition vcs_flag (argv flag : list string) : Prop :=
  (flag = [] /\ exists f, f ∈ argv /\ buildvcs f) \/ flag = ["-buildvcs=false"%string].

Lemma insertBuildVCSFalse_split pre new rest : "-o"%string ∉ pre ->
  exists flag, insertBuildVCSFalse (pre ++ "-o"%string :: new :: rest) = pre ++ "-o"%string :: new :: flag ++ rest /\
    vcs_flag (pre ++ "-o"%string :: new :: flag ++ rest) flag.
Proof.
  intros Hn. unfold insertBuildVCSFalse. destruct (existsb _ _) eqn:Hex.
  - exists []. split; [done|]. left. split; [done|]. apply existsb_exists in Hex as (f & Hin & Hf).
    exists f. split; [by apply list_elem_of_In|]. apply orb_true_iff in Hf as [Hf|Hf]; apply bool_decide_eq_true in Hf; [by left | by right].
  - exists ["-buildvcs=false"%string]. split; [|by right]. rewrite insert_at_split by done.
    rewrite take_app_add, drop_app_add. simpl. by rewrite <- app_assoc.
Qed.

(** The argument vector of a build: the temporary output behind the first -o, the -buildvcs flag behind it, -C behind go. *)
Theorem build_argv_redirected (s : Server) (fields argv : list string) (tempPath : string) (expanded : option string)
    (Hok : build_argv s fields tempPath expanded = Ok argv) (Hdir : expanded <> Some "-o"%string) :
  exists pre old rest pre' flag,
    fields = pre ++ "-o"%string :: old :: rest /\ "-o"%string ∉ pre /\
    argv = pre' ++ "-o"%string :: tempPath :: flag ++ rest /\ vcs_flag argv flag /\
    (if bool_decide (Dir s = "") then pre' = pre
     else exists dir tl, expanded = Some dir /\ pre = "go"%string :: tl /\ pre' = "go"%string :: "-C"%string :: dir :: tl).
Proof.
  unfold build_argv in Hok. cbn in Hok. destruct (rewriteBuildOutputFields fields tempPath) as [out|m|m] eqn:Eo; [|done..].
  destruct (rewriteBuildOutputFields_ok _ _ _ Eo) as (pre & old & rest & -> & Hn & ->). cbn in Hok.
  destruct (decide (Dir s = "")) as [Hd|Hd].
  - rewrite bool_decide_false in Hok by (intros H; by apply H). cbn in Hok. injection Hok as <-.
    destruct (insertBuildVCSFalse_split pre tempPath rest Hn) as (flag & -> & Hf).
    exists pre, old, rest, pre, flag. by rewrite bool_decide_true.
  - rewrite bool_decide_true in Hok by done. rewrite (bool_decide_false (Dir s = "")) by done.
    destruct pre as [|f tl]; cbn [app insertGoDirFlag] in Hok; [by rewrite bool_decide_false in Hok|].
    case_bool_decide as Hf; [|done]. subst f. destruct expanded as [dir|]; [|done]. cbn in Hok. injection Hok as <-.
    assert (Hn' : "-o"%string ∉ "go"%string :: "-C"%string :: dir :: tl) by set_solver.
    destruct (insertBuildVCSFalse_split _ tempPath rest Hn') as (flag & E & Hvcs). cbn [app] in E. rewrite E.
    exists ("go"%string :: tl), old, rest, ("go"%string :: "-C"%string :: dir :: tl), flag.
    split; [done|]. split; [done|]. split; [done|]. split; [done|]. by exists dir, tl.
Qed.

(** ** Examples

    A router that shows its ports once it is launched as pid 20, and a database
    that never binds its own. *)
Definition was_launched (h : list event) : bool := existsb (fun x => match x with ELaunch _ _ => true | _ => false end) h.

Definition ex_listening (ports : list Z) : host_view :=
  mkView (fun _ => RootAlive) (fun _ => Some []) (fun p => Some (map (fun port => mkConn p port true) ports)) (Some []) (fun _ => Some ["prog"%string]).

Definition launcher (ports : list Z) : env :=
  mkEnv slept (fun _ _ _ => ESRCH) (fun _ => Some ∅) (fun _ _ => false) (fun _ _ => true) (fun _ _ => false)
    (fun h => ex_listening (if was_launched h then ports else []))
    (fun _ _ => Some false) (fun _ _ => true) (fun _ _ => Some (20, "logs/router.log"%string)) (fun _ => [])
    (fun _ => (mkAnswers (HttpStatus 200) [] ExecFailed, [])).

Lemma launcher_clock ports : clock_runs (launcher ports).
Proof. intros h ev. cbn. rewrite slept_app. lia. Qed.

Lemma up_sound_witness : exists o procs' h', upOne 3 ex_config ∅ ex_router (launcher [9730; 9740]) [] = Some ((o, procs'), h') /\
  vo_Err o = None /\ procs' !! "router" = Some (Some 20) /\ up_end 3 ∅ ex_router h' o procs'.
Proof.
  destruct (upOne 3 ex_config ∅ ex_router (launcher [9730; 9740]) []) as [[[o procs'] h']|] eqn:E; [|vm_compute in E; discriminate].
  destruct (up_sound 3 ex_config ∅ procs' ex_router (launcher [9730; 9740]) [] h' o E) as (ev & Hev & Hup). cbn in Hev. subst ev.
  exists o, procs', h'. split; [reflexivity|]. split; [vm_compute in E; injection E as <- <- <-; reflexivity|].
  split; [vm_compute in E; injection E as <- <- <-; reflexivity | exact Hup].
Defined.

Lemma ports_wait_bounded_witness : exists m ev, pollPortsReady 11 ex_config ex_router 20 1000000000 (launcher []) [] = Some (Err m, [] ++ ev) /\
  slept ev <= Z.max 0 1000000000.
Proof.
  destruct (ports_wait_bounded 11 ex_config ex_router 20 1000000000 (launcher []) []) as (r & ev & E & Hs & _);
    [apply launcher_clock | reflexivity | | lia | vm_compute; discriminate |].
  - intros h. cbn [view_at launcher]. destruct (was_launched h); reflexivity.
  - destruct r as [u|m|m]; [exfalso; vm_compute in E; discriminate| |exfalso; vm_compute in E; discriminate].
    exists m, ev. split; [exact E | exact Hs].
Defined.

Lemma build_argv_redirected_witness :
  build_argv (ex_router <| Dir := "~/src" |>) ["go"; "build"; "-o"; "bin/router"; "./cmd/router"] "/tmp/b/router" (Some "/home/u/src") =
    Ok ["go"; "-C"; "/home/u/src"; "build"; "-o"; "/tmp/b/router"; "-buildvcs=false"; "./cmd/router"] /\
  exists pre' flag, ["go"; "-C"; "/home/u/src"; "build"; "-o"; "/tmp/b/router"; "-buildvcs=false"; "./cmd/router"]%string =
    pre' ++ "-o"%string :: "/tmp/b/router"%string :: flag ++ ["./cmd/router"%string].
Proof.
  split; [reflexivity|].
  destruct (build_argv_redirected (ex_router <| Dir := "~/src" |>) ["go"; "build"; "-o"; "bin/router"; "./cmd/router"]%string
    ["go"; "-C"; "/home/u/src"; "build"; "-o"; "/tmp/b/router"; "-buildvcs=false"; "./cmd/router"]%string "/tmp/b/router" (Some "/home/u/src"%string))
    as (pre & old & rest & pre' & flag & Hf & Hn & -> & _ & _); [reflexivity | done |].
  exists pre', flag. destruct pre as [|a [|b [|c pre]]]; cbn [app] in Hf; [discriminate Hf..| |].
  - injection Hf as <- <- <- <-. reflexivity.
  - exfalso. injection Hf as <- <- <- _. apply Hn. set_solver.
Defined.
