(* ===== verification/Stream.v ===== *)
(** * Stream: the frames of a Media Streams connection

    The types of [telephony/twilio/stream.go]: an event type is the string that
    names it on the wire, and a [Frame] is a decoded message. *)

From S2P Require Export Service.

Definition EventType : Type := string.
Definition EventStart : EventType := "start".
Definition EventMedia : EventType := "media".
Definition EventStop : EventType := "stop".
Definition EventMark : EventType := "mark".
Definition EventClear : EventType := "clear".
Definition EventConnected : EventType := "connected".

(** A Go string is its bytes; so is a payload. *)
Record Frame := mkFrame {
  f_Event : EventType;
  f_StreamSID : string;
  f_Payload : bytes;
  f_EncodedPayload : string;
  f_Chunk : Z;
  f_Timestamp : string;
  f_MarkName : string;
  f_CallSID : string;
  f_From : string;
  f_To : string
}.
#[export] Instance frame_eta : Eta Frame := fun f =>
  mkFrame (f_Event f) (f_StreamSID f) (f_Payload f) (f_EncodedPayload f) (f_Chunk f) (f_Timestamp f) (f_MarkName f)
    (f_CallSID f) (f_From f) (f_To f).

(** [Frame{Event: event}]. *)
Definition blank_frame (event : EventType) : Frame := mkFrame event "" [] "" 0 "" "" "" "" "".
