(* ===== verification/Demux.v ===== *)
(** * Demux: the two planes of a call's inbound frames

    Models [telephony/twilio/demux.go].  The data plane is a bounded queue that
    makes room by dropping its oldest frame; the control plane one that signals
    a teardown when it is full; [RouteFrame] sends a frame to one of them.

    [Send] on the data plane holds the plane's mutex and touches the channel up
    to three times; a receiver takes frames without the mutex, so it can run in
    between.  Each touch of the channel is one step: [DSend] is the first select,
    [DEvict] the second, [DInsert] the last send.  [taken] and [offered] are not
    the program's: the frames removed, each with whether a receiver got it, and
    the frames sent while the plane was open. *)

From S2P Require Export Stream.

Definition controlPlaneDepth : nat := 16.

(** ** The data plane *)

(** Where the holder of [p.mu] is, when there is one. *)
Inductive send_phase := Free | Full (f : Frame) | Insert (f : Frame).

Record dropOldestPlane := mkPlane {
  d_ch : list Frame; d_depth : nat;
  d_closed : bool; d_dropping : bool; d_dropCount : nat; d_dropStart : Z;
  d_phase : send_phase;
  d_starts : nat; d_stops : list (nat * Z);
  d_offered : list Frame; d_taken : list (Frame * bool)
}.
#[export] Instance plane_eta : Eta dropOldestPlane := fun p =>
  mkPlane (d_ch p) (d_depth p) (d_closed p) (d_dropping p) (d_dropCount p) (d_dropStart p) (d_phase p) (d_starts p) (d_stops p)
    (d_offered p) (d_taken p).

Definition newDataPlane (depth : nat) : dropOldestPlane := mkPlane [] depth false false 0 0 Free 0 [] [] [].

(** [now] is the reading of the plane's clock; each log line is kept. *)
Definition recordDropped (now : Z) (p : dropOldestPlane) : dropOldestPlane :=
  let p :=
    if d_dropping p then p
    else p <| d_dropping := true |> <| d_dropStart := now |> <| d_dropCount := O |> <| d_starts ::= S |> in
  p <| d_dropCount ::= S |>.

Definition recordNotDropping (now : Z) (p : dropOldestPlane) : dropOldestPlane :=
  if negb (d_dropping p) then p
  else p <| d_stops ::= (fun l => l ++ [(d_dropCount p, now - d_dropStart p)]) |> <| d_dropping := false |> <| d_dropCount := O |>.

Inductive dstep := DSend (f : Frame) (now : Z) | DEvict (now : Z) | DInsert | DRecv | DClose.

(** [None]: the step cannot be taken now. *)
Definition data_step (l : dstep) (p : dropOldestPlane) : option dropOldestPlane :=
  match l, d_phase p with
  | DSend f now, Free =>
      if d_closed p then Some p
      else
        let p := p <| d_offered ::= (fun l => l ++ [f]) |> in
        if (length (d_ch p) <? d_depth p)%nat
        then Some (recordNotDropping now (p <| d_ch ::= (fun l => l ++ [f]) |>))
        else Some (p <| d_phase := Full f |>)
  | DEvict now, Full f =>
      let p := p <| d_phase := Insert f |> in
      match d_ch p with
      | x :: rest => Some (recordDropped now (p <| d_ch := rest |> <| d_taken ::= (fun l => l ++ [(x, false)]) |>))
      | [] => Some p
      end
  | DInsert, Insert f =>
      if (length (d_ch p) <? d_depth p)%nat then Some (p <| d_ch ::= (fun l => l ++ [f]) |> <| d_phase := Free |>) else None
  | DClose, Free => Some (p <| d_closed := true |>)
  | DRecv, _ =>
      match d_ch p with
      | x :: rest => Some (p <| d_ch := rest |> <| d_taken ::= (fun l => l ++ [(x, true)]) |>)
      | [] => None
      end
  | _, _ => None
  end.

(** [Recv] reports [errPlaneClosed] when the channel is closed and empty. *)
Definition recv_closed (p : dropOldestPlane) : bool := d_closed p && bool_decide (d_ch p = []).

Fixpoint data_run (ls : list dstep) (p : dropOldestPlane) : option dropOldestPlane :=
  match ls with
  | [] => Some p
  | l :: ls => match data_step l p with Some p => data_run ls p | None => None end
  end.

(** ** The control plane *)

Record controlPlaneInput := mkControl { c_ch : list Frame; c_depth : nat; c_teardown : bool }.
#[export] Instance control_eta : Eta controlPlaneInput := fun c => mkControl (c_ch c) (c_depth c) (c_teardown c).

Definition NewControlPlane (depth : nat) : controlPlaneInput := mkControl [] depth false.

(** [Send], and whether it returned nil. *)
Definition control_Send (f : Frame) (c : controlPlaneInput) : bool * controlPlaneInput :=
  if (length (c_ch c) <? c_depth c)%nat then (true, c <| c_ch ::= (fun l => l ++ [f]) |>)
  else (false, c <| c_teardown := true |>).

(** ** Routing *)

Record gap_state := mkGap { lastChunk : Z; haveChunk : bool; gap_lines : list (Z * Z) }.
#[export] Instance gap_eta : Eta gap_state := fun g => mkGap (lastChunk g) (haveChunk g) (gap_lines g).

Definition checkChunkGap (f : Frame) (g : gap_state) : gap_state :=
  let g :=
    if haveChunk g && negb (f_Chunk f =? lastChunk g + 1)
    then g <| gap_lines ::= (fun l => l ++ [(lastChunk g + 1, f_Chunk f - 1)]) |> else g in
  g <| lastChunk := f_Chunk f |> <| haveChunk := true |>.

Definition is_media (f : Frame) : bool := bool_decide (f_Event f = EventMedia).

(** ** Theorems: what the data plane keeps and reports

    In every interleaving of a sender and a receiver the data plane is a queue
    that loses only its oldest frames, never blocks its sender, and accounts for
    every frame lost. *)

Definition in_hand (p : dropOldestPlane) : list Frame :=
  match d_phase p with Free => [] | Full f | Insert f => [f] end.

Definition received (p : dropOldestPlane) : list Frame := map fst (List.filter snd (d_taken p)).
Definition evicted (p : dropOldestPlane) : list Frame := map fst (List.filter (fun x => negb (snd x)) (d_taken p)).

Definition reported (p : dropOldestPlane) : nat := sum_list (map fst (d_stops p)).

Record plane_inv (depth : nat) (p : dropOldestPlane) : Prop := mkPlaneInv {
  pi_depth : d_depth p = depth;
  pi_order : map fst (d_taken p) ++ d_ch p ++ in_hand p = d_offered p;
  pi_bound : (length (d_ch p) <= depth)%nat;
  pi_room : forall f, d_phase p = Insert f -> (length (d_ch p) < depth)%nat;
  pi_count : (length (evicted p) = reported p + d_dropCount p)%nat;
  pi_episode : if d_dropping p then (0 < d_dropCount p)%nat else d_dropCount p = O;
  pi_starts : d_starts p = (length (d_stops p) + (if d_dropping p then 1 else 0))%nat
}.

Lemma plane_inv_new depth : plane_inv depth (newDataPlane depth).
Proof. by split; simpl; try lia. Qed.

(** Evaluates the operations on a plane given by its fields, updates first. *)
Ltac plane_cbn :=
  cbv beta iota zeta delta [recordNotDropping recordDropped set reported evicted in_hand negb
    d_ch d_depth d_closed d_dropping d_dropCount d_dropStart d_phase d_starts d_stops d_offered d_taken] in *.

(** The log lines do not touch the queue. *)
Lemma inv_not_dropping depth now p : plane_inv depth p -> plane_inv depth (recordNotDropping now p).
Proof.
  destruct p as [ch dep cl [] cnt st ph ss stops off tk]; [|by intros H].
  intros [H1 H2 H3 H4 H5 H6 H7]. plane_cbn. split; plane_cbn; try done.
  - rewrite map_app, sum_list_with_app in *. cbn. lia.
  - rewrite length_app. cbn. lia.
Qed.

Lemma inv_evict depth now p f : plane_inv depth p -> d_phase p = Full f -> (0 < depth)%nat ->
  forall p', data_step (DEvict now) p = Some p' -> plane_inv depth p'.
Proof.
  destruct p as [ch dep cl dr cnt st ph ss stops off tk]. cbn. intros [H1 H2 H3 H4 H5 H6 H7] -> Hd p'. cbn in *.
  destruct ch as [|x rest]; intros [= <-].
  - split; plane_cbn; try done; intros; lia.
  - assert (Hord : map fst (tk ++ [(x, false)]) ++ rest ++ [f] = off) by (rewrite <- H2, map_app, <- app_assoc; done).
    destruct dr; plane_cbn; split; plane_cbn; try done; try lia;
      try (simpl in H3; lia); try (rewrite List.filter_app, map_app, length_app; cbn; lia).
Qed.

Lemma recv_any_phase p : data_step DRecv p =
  match d_ch p with
  | x :: rest => Some (p <| d_ch := rest |> <| d_taken ::= (fun l => l ++ [(x, true)]) |>)
  | [] => None
  end.
Proof. unfold data_step. by destruct (d_phase p). Qed.

Lemma data_step_inv depth l p p' : (0 < depth)%nat -> plane_inv depth p -> data_step l p = Some p' -> plane_inv depth p'.
Proof.
  intros Hd Hinv. destruct l as [f now|now| | |].
  - destruct (d_phase p) eqn:Hph; unfold data_step; rewrite Hph; [|done..].
    destruct (d_closed p) eqn:Hcl; [by intros [= <-]|]. destruct (_ <? _)%nat eqn:Hlt.
    + intros [= <-]. apply Nat.ltb_lt in Hlt. apply inv_not_dropping.
      destruct p as [ch dep cl dr cnt st ph ss stops off tk]. destruct Hinv as [H1 H2 H3 H4 H5 H6 H7]. cbn in *. subst ph.
      split; plane_cbn; try done.
      * rewrite <- H2, app_nil_r, app_assoc. by rewrite <- !app_assoc.
      * rewrite length_app. cbn. lia.
    + intros [= <-]. destruct p as [ch dep cl dr cnt st ph ss stops off tk]. destruct Hinv as [H1 H2 H3 H4 H5 H6 H7]. cbn in *. subst ph.
      split; plane_cbn; try done. rewrite <- H2, app_nil_r. by rewrite <- !app_assoc.
  - destruct (d_phase p) eqn:Hph; [unfold data_step; by rewrite Hph| |unfold data_step; by rewrite Hph].
    by apply (inv_evict depth now p f).
  - destruct (d_phase p) eqn:Hph; unfold data_step; rewrite Hph; [done..|].
    destruct (Nat.ltb_spec (length (d_ch p)) (d_depth p)); [|done]. intros [= <-].
    destruct p as [ch dep cl dr cnt st ph ss stops off tk]. destruct Hinv as [H1 H2 H3 H4 H5 H6 H7]. cbn in *. subst ph.
    split; plane_cbn; try done.
    + by rewrite app_nil_r.
    + rewrite length_app. cbn. lia.
  - rewrite recv_any_phase. destruct p as [ch dep cl dr cnt st ph ss stops off tk]. destruct Hinv as [H1 H2 H3 H4 H5 H6 H7]. cbn in *.
    destruct ch as [|x rest]; [done|]. intros [= <-]. split; plane_cbn; try done.
    + rewrite <- H2, map_app, <- app_assoc. done.
    + simpl in H3. lia.
    + rewrite List.filter_app, map_app, app_nil_r. done.
  - destruct (d_phase p) eqn:Hph; unfold data_step; rewrite Hph; [|done..]. intros [= <-].
    destruct p as [ch dep cl dr cnt st ph ss stops off tk]. destruct Hinv as [H1 H2 H3 H4 H5 H6 H7]. cbn in *. subst ph. by split.
Qed.

Lemma data_run_inv depth ls p p' : (0 < depth)%nat -> plane_inv depth p -> data_run ls p = Some p' -> plane_inv depth p'.
Proof.
  intros Hd. revert p. induction ls as [|l ls IH]; intros p Hinv; cbn; [by intros [= <-]|].
  destruct (data_step l p) as [p1|] eqn:E; [|done]. intros Hrun. apply (IH p1); [by eapply data_step_inv | done].
Qed.

(** A sender never waits: whatever it holds, its next step can be taken. *)
Definition sender_can_go (p : dropOldestPlane) : Prop :=
  match d_phase p with
  | Free => forall f now, is_Some (data_step (DSend f now) p)
  | Full _ => forall now, is_Some (data_step (DEvict now) p)
  | Insert _ => is_Some (data_step DInsert p)
  end.

Lemma sender_goes depth p : plane_inv depth p -> sender_can_go p.
Proof.
  intros H. unfold sender_can_go. destruct (d_phase p) eqn:Hph.
  - intros f now. unfold data_step. rewrite Hph. destruct (d_closed p); [by eexists|]. destruct (_ <? _)%nat; by eexists.
  - intros now. unfold data_step. rewrite Hph. destruct (d_ch (p <| d_phase := Insert f |>)); by eexists.
  - unfold data_step. rewrite Hph, (pi_depth _ _ H). destruct (Nat.ltb_spec (length (d_ch p)) depth); [by eexists|].
    pose proof (pi_room _ _ H f Hph). lia.
Qed.

(** C16: In every interleaving of one sender, a receiver and a close: the frames taken,
    queued and in hand are the frames offered, in order; the queue stays within its depth;
    the evictions are those reported by stop lines and those of the open episode; and the
    sender is never stuck. *)
Theorem data_plane_drops_oldest (depth : nat) (ls : list dstep) (p : dropOldestPlane) (Hdepth : (0 < depth)%nat)
    (Hrun : data_run ls (newDataPlane depth) = Some p) :
  map fst (d_taken p) ++ d_ch p ++ in_hand p = d_offered p /\
  (length (d_ch p) <= depth)%nat /\
  (length (evicted p) = reported p + d_dropCount p)%nat /\
  (d_dropCount p = O <-> d_dropping p = false) /\
  sender_can_go p.
Proof.
  pose proof (data_run_inv depth ls _ p Hdepth (plane_inv_new depth) Hrun) as H.
  split; [apply (pi_order _ _ H)|]. split; [apply (pi_bound _ _ H)|]. split; [apply (pi_count _ _ H)|].
  split; [|by apply (sender_goes depth)]. pose proof (pi_episode _ _ H) as He. destruct (d_dropping p); split; intros; [lia|done|done|done].
Qed.

(** ** Example

    A plane of depth two that receives five frames while its receiver takes one:
    the two oldest are dropped, one episode is reported. *)
Definition media_frame (n : Z) : Frame := blank_frame EventMedia <| f_Chunk := n |>.

Definition ex_steps : list dstep :=
  [DSend (media_frame 1) 0; DSend (media_frame 2) 0; DSend (media_frame 3) 20; DEvict 20; DInsert;
   DSend (media_frame 4) 40; DEvict 41; DInsert; DRecv; DSend (media_frame 5) 60].

Lemma data_plane_drops_oldest_witness : exists p,
  data_run ex_steps (newDataPlane 2) = Some p /\
  d_taken p = [(media_frame 1, false); (media_frame 2, false); (media_frame 3, true)] /\ d_stops p = [(2%nat, 40)] /\
  (length (evicted p) = reported p + d_dropCount p)%nat.
Proof.
  destruct (data_run ex_steps (newDataPlane 2)) as [p|] eqn:E; [|vm_compute in E; discriminate].
  assert (H2 : (0 < 2)%nat) by lia. pose proof (data_plane_drops_oldest 2 ex_steps p H2 E) as (_ & _ & H & _).
  exists p. split; [reflexivity|]. vm_compute in E. injection E as <-. split; [reflexivity|]. split; [reflexivity | exact H].
Defined.
