(* ===== verification/StreamSession.v ===== *)
(** * StreamSession: one Media Streams call

    Models [handleStream], [pumpDataPlane], [pumpControlPlane] and
    [waitForClosed] of [telephony/twilio/session.go] as a transition system: the
    goroutine that reads the connection, the two pumps, and the session, of
    which only what it takes from its inputs, and when it closes, is seen here.
    [c_log] is the sequence of what the call does to the tap, to the session and
    to the reply router; it is not the program's. *)

From S2P Require Export Demux.
From S2P Require Session.

Definition streamDepth : nat := Z.to_nat (ComputeDepth DataPlaneBufferMS MuLawFrameMS).

Notation ControlEvent := Session.ControlEvent (only parsing).
Definition control_event (f : Frame) : ControlEvent := Session.mkControlEvent (f_Event f) (f_MarkName f) (f_CallSID f).

Inductive effect := TapWriteIn (payload : bytes) | TapDrainOut | TapClose | SessionClose | ReplySinkClose.

(** The reading goroutine: in its loop, in [waitForClosed], in the deferred calls
    in the order they run, and returned. *)
Inductive reader_phase := Reading | Waiting | Unregistering | StoppingInput | Joining | ClosingTap | ClosingSession | Returned.
#[export] Instance reader_phase_eq_dec : EqDecision reader_phase.
Proof. solve_decision. Defined.

Inductive pump_phase (A : Type) := Receiving | Forwarding (a : A) | Ended.
Arguments Receiving {A}.
Arguments Forwarding {A} _.
Arguments Ended {A}.

Record call := mkCall {
  c_reader : reader_phase;
  c_data : dropOldestPlane; c_control : controlPlaneInput; c_gap : gap_state;
  c_dpump : pump_phase bytes; c_cpump : pump_phase ControlEvent;
  c_cancelled : bool; c_ctxDone : bool;
  c_dataIn : list bytes; c_controlIn : list ControlEvent;
  c_sessData : list bytes; c_sessControl : list ControlEvent;
  c_registered : bool;
  c_log : list effect
}.
#[export] Instance call_eta : Eta call := fun c =>
  mkCall (c_reader c) (c_data c) (c_control c) (c_gap c) (c_dpump c) (c_cpump c) (c_cancelled c) (c_ctxDone c)
    (c_dataIn c) (c_controlIn c) (c_sessData c) (c_sessControl c) (c_registered c) (c_log c).

(** [registered]: a [ReplyRouter] is in the context. *)
Definition newCall (registered : bool) : call :=
  mkCall Reading (newDataPlane streamDepth) (NewControlPlane controlPlaneDepth) (mkGap 0 false []) Receiving Receiving false false
    [] [] [] [] registered [].

Definition log (e : effect) (c : call) : call := c <| c_log ::= (fun l => l ++ [e]) |>.

(** ** Routing a frame *)

(** [RouteFrame]; what it returns is only logged.  [now] is the plane's clock. *)
Definition RouteFrame (f : Frame) (now : Z) (c : call) : option call :=
  if is_media f then
    match data_step (DSend f now) (c_data c) with
    | Some p => Some (c <| c_gap ::= checkChunkGap f |> <| c_data := p |>)
    | None => None
    end
  else Some (c <| c_control := snd (control_Send f (c_control c)) |>).

(** ** Steps *)

Inductive label :=
| LRead (f : Frame) (now : Z) | LReadUndecodable | LReadError
| LEvict (now : Z) | LInsert
| LWaited | LUnregister | LStopInput | LJoin | LTapClose | LSessionClose
| LDataRecv | LDataClosed | LDataAbort | LDataSend
| LControlRecv | LControlAbort | LControlSend
| LSessionData | LSessionControl
| LCtxDone.

Definition with_data (l : dstep) (c : call) : option call :=
  match data_step l (c_data c) with Some p => Some (c <| c_data := p |>) | None => None end.

Definition sending (c : call) : bool := match d_phase (c_data c) with Free => false | _ => true end.

Definition control_aborted (c : call) : bool := c_cancelled c || c_ctxDone c.

(** One turn of the reading goroutine. *)
Definition reader_step (l : label) (c : call) : option call :=
  match l, c_reader c with
  | LRead f now, Reading =>
      if sending c then None
      else
        match RouteFrame f now c with
        | Some c => Some (if bool_decide (f_Event f = EventStop) then c <| c_reader := Waiting |> else c)
        | None => None
        end
  | LReadUndecodable, Reading => if sending c then None else Some c
  | LReadError, Reading => if sending c then None else Some (c <| c_reader := Unregistering |>)
  | LEvict now, Reading => with_data (DEvict now) c
  | LInsert, Reading => with_data DInsert c
  | LWaited, Waiting => Some (c <| c_reader := Unregistering |>)
  | LUnregister, Unregistering =>
      let c := if c_registered c then log ReplySinkClose (c <| c_registered := false |>) else c in
      Some (c <| c_reader := StoppingInput |>)
  | LStopInput, StoppingInput =>
      match with_data DClose c with
      | Some c => Some (c <| c_cancelled := true |> <| c_reader := Joining |>)
      | None => None
      end
  | LJoin, Joining =>
      match c_dpump c, c_cpump c with
      | Ended, Ended => Some (c <| c_reader := ClosingTap |>)
      | _, _ => None
      end
  | LTapClose, ClosingTap => Some (log TapClose (c <| c_reader := ClosingSession |>))
  | LSessionClose, ClosingSession => Some (log SessionClose (c <| c_reader := Returned |>))
  | _, _ => None
  end.

(** [pumpDataPlane]. *)
Definition data_pump_step (l : label) (c : call) : option call :=
  match l, c_dpump c with
  | LDataRecv, Receiving =>
      match d_ch (c_data c) with
      | f :: _ =>
          match with_data DRecv c with
          | Some c => Some (log TapDrainOut (log (TapWriteIn (f_Payload f)) (c <| c_dpump := Forwarding (f_Payload f) |>)))
          | None => None
          end
      | [] => None
      end
  | LDataClosed, Receiving => if recv_closed (c_data c) then Some (c <| c_dpump := Ended |>) else None
  | LDataSend, Forwarding payload =>
      if (length (c_dataIn c) <? streamDepth)%nat
      then Some (c <| c_dataIn ::= (fun l => l ++ [payload]) |> <| c_dpump := Receiving |>) else None
  | LDataAbort, (Receiving | Forwarding _) => if c_ctxDone c then Some (c <| c_dpump := Ended |>) else None
  | _, _ => None
  end.

(** [pumpControlPlane]. *)
Definition control_pump_step (l : label) (c : call) : option call :=
  match l, c_cpump c with
  | LControlRecv, Receiving =>
      match c_ch (c_control c) with
      | f :: rest => Some (c <| c_control ::= (fun p => p <| c_ch := rest |>) |> <| c_cpump := Forwarding (control_event f) |>)
      | [] => None
      end
  | LControlSend, Forwarding ev =>
      if (length (c_controlIn c) <? controlPlaneDepth)%nat
      then Some (c <| c_controlIn ::= (fun l => l ++ [ev]) |> <| c_cpump := Receiving |>) else None
  | LControlAbort, (Receiving | Forwarding _) => if control_aborted c then Some (c <| c_cpump := Ended |>) else None
  | _, _ => None
  end.

(** The session takes its inputs until [Close]. *)
Definition session_step (l : label) (c : call) : option call :=
  if bool_decide (c_reader c = Returned) then None
  else
    match l with
    | LSessionData =>
        match c_dataIn c with
        | x :: rest => Some (c <| c_dataIn := rest |> <| c_sessData ::= (fun l => l ++ [x]) |>)
        | [] => None
        end
    | LSessionControl =>
        match c_controlIn c with
        | x :: rest => Some (c <| c_controlIn := rest |> <| c_sessControl ::= (fun l => l ++ [x]) |>)
        | [] => None
        end
    | LCtxDone => Some (c <| c_ctxDone := true |>)
    | _ => None
    end.

Definition call_step (l : label) (c : call) : option call :=
  match l with
  | LRead _ _ | LReadUndecodable | LReadError | LEvict _ | LInsert | LWaited | LUnregister | LStopInput | LJoin | LTapClose
  | LSessionClose => reader_step l c
  | LDataRecv | LDataClosed | LDataAbort | LDataSend => data_pump_step l c
  | LControlRecv | LControlAbort | LControlSend => control_pump_step l c
  | LSessionData | LSessionControl | LCtxDone => session_step l c
  end.

Fixpoint call_run (ls : list label) (c : call) : option call :=
  match ls with
  | [] => Some c
  | l :: ls => match call_step l c with Some c => call_run ls c | None => None end
  end.
