(* ===== verification/StreamSessionThms.v ===== *)
(** * StreamSessionThms: no frame of a call is lost unaccounted

    Every media frame a call accepts is recorded, in order, or was dropped to
    make room, and every frame recorded reaches the session; the recorder is
    closed when nothing can write to it any more, and the session after it; the
    teardown ends, if the session goes on taking its input; and an overflow of
    the control plane, which is said to tear the call down, does not. *)

From S2P Require Import Demux StreamSession.

(** ** The log *)

Fixpoint taps (l : list effect) : list bytes :=
  match l with
  | TapWriteIn p :: l => p :: taps l
  | _ :: l => taps l
  | [] => []
  end.

Definition closes (e : effect) : Prop := e = TapClose \/ e = SessionClose.

Lemma taps_app l l' : taps (l ++ l') = taps l ++ taps l'.
Proof. induction l as [|[] l IH]; simpl; by rewrite ?IH. Qed.

(** ** The invariant *)

Definition in_pump {A} (p : pump_phase A) : list A := match p with Forwarding a => [a] | _ => [] end.

Definition input_stopped (r : reader_phase) : bool :=
  bool_decide (r ∈ [Joining; ClosingTap; ClosingSession; Returned]).

Definition after_join (r : reader_phase) : bool := bool_decide (r ∈ [ClosingTap; ClosingSession; Returned]).

Definition closing_log (r : reader_phase) : list effect :=
  match r with ClosingSession => [TapClose] | Returned => [TapClose; SessionClose] | _ => [] end.

Record call_inv (c : call) : Prop := mkCallInv {
  ci_plane : plane_inv streamDepth (c_data c);
  ci_taps : taps (c_log c) = map f_Payload (received (c_data c));
  ci_fed : exists lost, taps (c_log c) = c_sessData c ++ c_dataIn c ++ in_pump (c_dpump c) ++ lost /\ (length lost <= 1)%nat /\
           (lost = [] \/ c_ctxDone c = true /\ c_dpump c = Ended);
  ci_cap : (length (c_dataIn c) <= streamDepth)%nat;
  ci_free : c_reader c <> Reading -> d_phase (c_data c) = Free;
  ci_closed : d_closed (c_data c) = input_stopped (c_reader c);
  ci_cancelled : c_cancelled c = input_stopped (c_reader c);
  ci_drained : c_dpump c = Ended -> c_ctxDone c = false -> d_closed (c_data c) = true /\ d_ch (c_data c) = [];
  ci_joined : after_join (c_reader c) = true -> c_dpump c = Ended /\ c_cpump c = Ended;
  ci_log : exists pre, c_log c = pre ++ closing_log (c_reader c) /\ Forall (fun e => ~ closes e) pre
}.

Lemma call_inv_new registered : call_inv (newCall registered).
Proof.
  split; try done.
  - apply plane_inv_new.
  - exists []. split; [done|]. split; [simpl; lia | by left].
  - cbn. unfold newDataPlane. lia.
  - by exists [].
Qed.

(** ** Each step keeps it *)

(** A call with one field changed has the other fields it had. *)
Ltac call_cbn :=
  cbv beta iota zeta delta [log set c_reader c_data c_control c_gap c_dpump c_cpump c_cancelled c_ctxDone c_dataIn c_controlIn c_sessData
    c_sessControl c_registered c_log] in *.

Lemma received_ext p p' : d_taken p' = d_taken p -> received p' = received p.
Proof. unfold received. by intros ->. Qed.

Lemma plane_step_frame l p p' : data_step l p = Some p' -> l <> DRecv ->
  received p' = received p /\ (l <> DClose -> d_closed p' = d_closed p).
Proof.
  destruct p as [ch dep cl dr cnt st ph ss stops off tk]. intros H Hl.
  destruct l as [f now|now| | |], ph as [|g|g]; try done; cbv beta iota zeta delta [data_step d_phase] in H.
  - destruct cl; [by injection H as <-|]. destruct (_ <? _)%nat; injection H as <-; destruct dr; done.
  - destruct ch as [|x rest]; injection H as <-; [done|]. split; [|by destruct dr].
    unfold received. destruct dr; cbv beta iota zeta delta [recordDropped set d_taken d_dropping]; by rewrite List.filter_app, app_nil_r.
  - destruct (_ <? _)%nat; [|done]. by injection H as <-.
  - by injection H as <-.
Qed.

Lemma streamDepth_pos : (0 < streamDepth)%nat.
Proof. vm_compute. lia. Qed.

(** The sender's steps, in the loop. *)
Lemma inv_sender l p' c : call_inv c -> c_reader c = Reading -> data_step l (c_data c) = Some p' -> l <> DRecv -> l <> DClose ->
  call_inv (c <| c_data := p' |>).
Proof.
  intros [H1 H2 H3 H4 H5 H6 H7 H8 H9 H10] Hr Hs Hl Hl'. destruct (plane_step_frame _ _ _ Hs Hl) as [Hrec Hcl]. specialize (Hcl Hl').
  pose proof (data_step_inv _ _ _ _ streamDepth_pos H1 Hs) as Hp.
  destruct c as [r p ct g dp cp ca cd di ci sd sc reg lg]. call_cbn. subst r.
  split; call_cbn; try done.
  - by rewrite Hrec.
  - by rewrite Hcl.
  - intros Hd Hc. destruct (H8 Hd Hc) as [Hx _]. by rewrite H6 in Hx.
Qed.

(** Fields the invariant does not speak of. *)
Lemma inv_gap f c : call_inv c -> call_inv (c <| c_gap ::= f |>).
Proof. intros [H1 H2 H3 H4 H5 H6 H7 H8 H9 H10]. destruct c. call_cbn. by split. Qed.
Lemma inv_control f c : call_inv c -> call_inv (c <| c_control ::= f |>).
Proof. intros [H1 H2 H3 H4 H5 H6 H7 H8 H9 H10]. destruct c. call_cbn. by split. Qed.

(** The reader moves on, its log unchanged. *)
Lemma inv_reader r c : call_inv c -> input_stopped r = input_stopped (c_reader c) -> after_join r = false -> c_reader c <> Reading \/ sending c = false ->
  closing_log r = [] -> closing_log (c_reader c) = [] -> call_inv (c <| c_reader := r |>).
Proof.
  intros [H1 H2 H3 H4 H5 H6 H7 H8 H9 H10] Hs Hj Hf Hl Hl'. destruct c as [r0 p ct g dp cp ca cd di ci sd sc reg lg]. call_cbn. split; call_cbn; try done.
  - intros _. destruct Hf as [Hf|Hf]; [by apply H5|]. unfold sending in Hf. call_cbn. by destruct (d_phase p).
  - by rewrite Hs.
  - by rewrite Hs.
  - by rewrite Hj.
  - destruct H10 as (pre & -> & Hpre). exists pre. by rewrite Hl, Hl'.
Qed.

Lemma inv_route f now c c' : call_inv c -> c_reader c = Reading -> RouteFrame f now c = Some c' -> call_inv c' /\ c_reader c' = Reading /\ (is_media f = false -> c_data c' = c_data c).
Proof.
  intros Hi Hr. unfold RouteFrame. destruct (is_media f).
  - destruct (data_step (DSend f now) (c_data c)) as [p|] eqn:E; [|done]. intros [= <-]. split; [|split; [by destruct c | done]].
    apply (inv_sender (DSend f now) p (c <| c_gap ::= checkChunkGap f |>)); [by apply inv_gap | by destruct c | by destruct c | done..].
  - intros [= <-]. split; [by apply inv_control|]. split; by destruct c.
Qed.

Lemma media_not_stop f : is_media f = true -> f_Event f <> EventStop.
Proof. unfold is_media. intros H%bool_decide_eq_true Hs. by rewrite H in Hs. Qed.

Lemma reader_step_inv l c c' : call_inv c -> reader_step l c = Some c' -> call_inv c'.
Proof.
  intros Hi Hs. unfold reader_step in Hs. destruct l, (c_reader c) eqn:Hr; try discriminate Hs.
  - destruct (sending c) eqn:Hf; [done|]. destruct (RouteFrame f now c) as [c1|] eqn:E; [|done].
    destruct (inv_route f now c c1 Hi Hr E) as (Hi1 & Hr1 & Hd). injection Hs as <-. case_bool_decide as Hst; [|done].
    apply inv_reader; [done | by rewrite Hr1 | done | right | done | by rewrite Hr1].
    destruct (is_media f) eqn:Hm; [by apply media_not_stop in Hm|]. unfold sending in *. by rewrite Hd.
  - destruct (sending c); by simplify_eq.
  - destruct (sending c) eqn:Hf; [done|]. injection Hs as <-. apply inv_reader; rewrite ?Hr; try done. by right.
  - unfold with_data in Hs. destruct (data_step (DEvict now) (c_data c)) as [p|] eqn:E; [|done]. injection Hs as <-. by eapply inv_sender.
  - unfold with_data in Hs. destruct (data_step DInsert (c_data c)) as [p|] eqn:E; [|done]. injection Hs as <-. by eapply inv_sender.
  - injection Hs as <-. apply inv_reader; rewrite ?Hr; try done. by left.
  - assert (Hu : call_inv (if c_registered c then log ReplySinkClose (c <| c_registered := false |>) else c)).
    { destruct (c_registered c); [|done]. destruct Hi as [H1 H2 H3 H4 H5 H6 H7 H8 H9 H10]. destruct c as [r p ct g dp cp ca cd di ci sd sc reg lg]. call_cbn. subst r.
      split; call_cbn; rewrite ?taps_app, ?app_nil_r; try done. destruct H10 as (pre & -> & Hpre). exists (pre ++ [ReplySinkClose]).
      cbn [closing_log]. rewrite !app_nil_r. split; [done|]. apply Forall_app. split; [done|]. constructor; [|done]. by intros [|]. }
    injection Hs as <-.
    assert (Hr' : c_reader (if c_registered c then log ReplySinkClose (c <| c_registered := false |>) else c) = Unregistering) by (destruct c as [r p ct g dp cp ca cd di ci sd sc [] lg]; exact Hr).
    apply inv_reader; rewrite ?Hr'; try done. by left.
  - unfold with_data in Hs. destruct (data_step DClose (c_data c)) as [p'|] eqn:E; [|done].
    destruct (plane_step_frame _ _ _ E) as [Hrec _]; [done|]. destruct Hi as [H1 H2 H3 H4 H5 H6 H7 H8 H9 H10].
    pose proof (data_step_inv _ _ _ _ streamDepth_pos H1 E) as Hp. destruct c as [r p ct g dp cp ca cd di ci sd sc reg lg]. call_cbn. subst r. injection Hs as <-.
    assert (Hph : d_phase p = Free) by by apply H5. unfold data_step in E. rewrite Hph in E. injection E as <-.
    split; call_cbn; try done.
    intros Hd Hc. by destruct (H8 Hd Hc).
  - destruct (c_dpump c) eqn:Hd; [done..|]. destruct (c_cpump c) eqn:Hc; [done..|]. injection Hs as <-.
    destruct Hi as [H1 H2 H3 H4 H5 H6 H7 H8 H9 H10]. destruct c as [r p ct g dp cp ca cd di ci sd sc reg lg]. call_cbn. subst r. split; call_cbn; try done.
    intros _. by apply H5.
  - injection Hs as <-. destruct Hi as [H1 H2 H3 H4 H5 H6 H7 H8 H9 H10]. destruct c as [r p ct g dp cp ca cd di ci sd sc reg lg]. call_cbn. subst r.
    split; call_cbn; rewrite ?taps_app, ?app_nil_r; try done.
    + intros _. by apply H5.
    + destruct H10 as (pre & -> & Hpre). exists pre. cbn [closing_log]. by rewrite app_nil_r.
  - injection Hs as <-. destruct Hi as [H1 H2 H3 H4 H5 H6 H7 H8 H9 H10]. destruct c as [r p ct g dp cp ca cd di ci sd sc reg lg]. call_cbn. subst r.
    split; call_cbn; rewrite ?taps_app, ?app_nil_r; try done.
    + intros _. by apply H5.
    + destruct H10 as (pre & -> & Hpre). exists pre. cbn [closing_log]. by rewrite <- app_assoc.
Qed.

Lemma pump_not_joined c : call_inv c -> c_dpump c <> Ended -> after_join (c_reader c) = false.
Proof. intros Hi Hd. destruct (after_join _) eqn:E; [|done]. by destruct (ci_joined _ Hi E). Qed.

Lemma after_join_log r : after_join r = false -> closing_log r = [].
Proof. by destruct r. Qed.

Lemma received_recv p f rest p' : d_ch p = f :: rest -> data_step DRecv p = Some p' ->
  received p' = received p ++ [f] /\ d_phase p' = d_phase p /\ d_closed p' = d_closed p.
Proof.
  rewrite recv_any_phase. intros -> [= <-]. destruct p. unfold received, set. simpl. by rewrite List.filter_app, map_app.
Qed.

Lemma data_pump_step_inv l c c' : call_inv c -> data_pump_step l c = Some c' -> call_inv c'.
Proof.
  intros Hi Hs. unfold data_pump_step in Hs. destruct l; try discriminate Hs; destruct (c_dpump c) as [|payload|] eqn:Hd; try discriminate Hs.
  - pose proof (pump_not_joined _ Hi ltac:(by rewrite Hd)) as Hj.
    destruct (d_ch (c_data c)) as [|f rest] eqn:Hch; [done|]. unfold with_data in Hs.
    destruct (data_step DRecv (c_data c)) as [p'|] eqn:E; [|done]. destruct (received_recv _ _ _ _ Hch E) as (Hrec & Hph & Hcl).
    destruct Hi as [H1 H2 H3 H4 H5 H6 H7 H8 H9 H10]. pose proof (data_step_inv _ _ _ _ streamDepth_pos H1 E) as Hp.
    injection Hs as <-. destruct c as [r p ct g dp cp ca cd di ci sd sc reg lg]. call_cbn. subst dp.
    split; call_cbn; rewrite ?taps_app, ?app_nil_r; try done.
    + cbn [taps]. by rewrite Hrec, map_app, H2.
    + cbn [taps]. destruct H3 as (lost & -> & Hlen & [->|[_ Hx]]); [|done]. exists []. cbn [in_pump app].
      rewrite !app_nil_r, <- app_assoc. cbn [app]. split; [done|]. split; [simpl; lia | by left].
    + intros Hr. rewrite Hph. by apply H5.
    + by rewrite Hcl.
    + by rewrite Hj.
    + destruct H10 as (pre & -> & Hpre). rewrite (after_join_log _ Hj), app_nil_r.
      exists ((pre ++ [TapWriteIn (f_Payload f)]) ++ [TapDrainOut]). split; [by rewrite app_nil_r|].
      repeat (apply Forall_app; split; [|constructor; [by intros [|]|done]]). done.
  - destruct (recv_closed (c_data c)) eqn:Hrc; [|done]. injection Hs as <-.
    destruct Hi as [H1 H2 H3 H4 H5 H6 H7 H8 H9 H10]. destruct c as [r p ct g dp cp ca cd di ci sd sc reg lg]. call_cbn. subst dp.
    apply andb_true_iff in Hrc as [Hx Hy%bool_decide_eq_true]. split; call_cbn; try done.
    + destruct H3 as (lost & -> & Hlen & [->|[_ ?]]); [|done]. exists []. split; [done|]. split; [simpl; lia | by left].
    + intros Hj. by destruct (H9 Hj).
  - destruct (c_ctxDone c) eqn:Hx; [|done]. injection Hs as <-.
    destruct Hi as [H1 H2 H3 H4 H5 H6 H7 H8 H9 H10]. destruct c as [r p ct g dp cp ca cd di ci sd sc reg lg]. call_cbn. subst dp cd.
    split; call_cbn; try done.
    + destruct H3 as (lost & -> & Hlen & [->|[_ ?]]); [|done]. exists []. split; [done|]. split; [simpl; lia | by left].
    + intros Hj. by destruct (H9 Hj).
  - destruct (c_ctxDone c) eqn:Hx; [|done]. injection Hs as <-.
    destruct Hi as [H1 H2 H3 H4 H5 H6 H7 H8 H9 H10]. destruct c as [r p ct g dp cp ca cd di ci sd sc reg lg]. call_cbn. subst dp cd.
    split; call_cbn; try done.
    + destruct H3 as (lost & -> & Hlen & [->|[_ ?]]); [|done]. exists [payload]. cbn [in_pump]. rewrite !app_nil_r. split; [done|]. split; [simpl; lia | by right].
    + intros Hj. by destruct (H9 Hj).
  - destruct (Nat.ltb_spec (length (c_dataIn c)) streamDepth) as [Hlt|]; [|done]. injection Hs as <-.
    destruct Hi as [H1 H2 H3 H4 H5 H6 H7 H8 H9 H10]. destruct c as [r p ct g dp cp ca cd di ci sd sc reg lg]. call_cbn. subst dp.
    split; call_cbn; try done.
    + destruct H3 as (lost & -> & Hlen & [->|[_ ?]]); [|done]. exists []. cbn [in_pump]. rewrite !app_nil_r.
      split; [done|]. split; [simpl; lia | by left].
    + rewrite length_app. simpl. lia.
    + intros Hj. by destruct (H9 Hj).
Qed.

(** What the control pump and the session do to fields the data path shares. *)
Lemma control_pump_step_inv l c c' : call_inv c -> control_pump_step l c = Some c' -> call_inv c'.
Proof.
  intros Hi Hs.
  assert (Hsame : forall ct cp ci, (c_cpump c <> Ended) ->
    call_inv (c <| c_control := ct |> <| c_cpump := cp |> <| c_controlIn := ci |>)).
  { intros ct1 cp1 ci1 Hn. assert (Hj : after_join (c_reader c) = false).
    { destruct (after_join _) eqn:E; [|done]. by destruct (ci_joined _ Hi E). }
    destruct Hi as [H1 H2 H3 H4 H5 H6 H7 H8 H9 H10]. destruct c as [r p ct g dp cp ca cd di ci sd sc reg lg]. call_cbn. split; call_cbn; try done. by rewrite Hj. }
  unfold control_pump_step in Hs. destruct l; try discriminate Hs; destruct (c_cpump c) as [|ev|] eqn:Hd; try discriminate Hs.
  - destruct (c_ch (c_control c)) as [|f rest] eqn:Hch; [done|]. injection Hs as <-.
    specialize (Hsame (c_control c <| c_ch := rest |>) (Forwarding (control_event f)) (c_controlIn c) ltac:(done)). by destruct c.
  - destruct (control_aborted c); [|done]. injection Hs as <-. specialize (Hsame (c_control c) Ended (c_controlIn c) ltac:(done)). by destruct c.
  - destruct (control_aborted c); [|done]. injection Hs as <-. specialize (Hsame (c_control c) Ended (c_controlIn c) ltac:(done)). by destruct c.
  - destruct (_ <? _)%nat; [|done]. injection Hs as <-. specialize (Hsame (c_control c) Receiving (c_controlIn c ++ [ev]) ltac:(done)). by destruct c.
Qed.

Lemma session_step_inv l c c' : call_inv c -> session_step l c = Some c' -> call_inv c'.
Proof.
  intros Hi Hs. unfold session_step in Hs. case_bool_decide; [done|]. destruct l; try discriminate Hs.
  - destruct (c_dataIn c) as [|x rest] eqn:Hin; [done|]. injection Hs as <-.
    destruct Hi as [H1 H2 H3 H4 H5 H6 H7 H8 H9 H10]. destruct c as [r p ct g dp cp ca cd di ci sd sc reg lg]. call_cbn. subst di. split; call_cbn; try done.
    + destruct H3 as (lost & -> & H3). exists lost. split; [by rewrite <- app_assoc | done].
    + simpl in H4. lia.
  - destruct (c_controlIn c) as [|x rest] eqn:Hin; [done|]. injection Hs as <-.
    destruct Hi as [H1 H2 H3 H4 H5 H6 H7 H8 H9 H10]. destruct c. call_cbn. by split.
  - injection Hs as <-. destruct Hi as [H1 H2 H3 H4 H5 H6 H7 H8 H9 H10]. destruct c as [r p ct g dp cp ca cd di ci sd sc reg lg]. call_cbn. split; call_cbn; try done.
    destruct H3 as (lost & -> & Hlen & H3). exists lost. split; [done|]. split; [done|]. destruct H3 as [|[_ ?]]; [by left | by right].
Qed.

Lemma call_step_inv l c c' : call_inv c -> call_step l c = Some c' -> call_inv c'.
Proof.
  intros Hi. destruct l; cbn [call_step]; intros Hs;
    first [by eapply reader_step_inv | by eapply data_pump_step_inv | by eapply control_pump_step_inv | by eapply session_step_inv].
Qed.

Lemma call_run_inv ls c c' : call_inv c -> call_run ls c = Some c' -> call_inv c'.
Proof.
  revert c. induction ls as [|l ls IH]; intros c Hi; cbn; [by intros [= <-]|].
  destruct (call_step l c) as [c1|] eqn:E; [|done]. intros Hr. apply (IH c1); [by eapply call_step_inv | done].
Qed.

(** C14: In every interleaving of the reader, the two pumps, the session and a cancellation,
    every media frame offered to the data plane was taken in order (by the pump or evicted),
    is queued or in hand; the tap is written exactly the payloads the pump received; those
    reach the session in order, none lost but at most the one in hand when the context ends;
    the tap is closed after every write and before the session, and without a cancellation
    the plane has drained by then. *)
Theorem call_media_accounted (registered : bool) (ls : list label) (c : call) (Hrun : call_run ls (newCall registered) = Some c) :
  map fst (d_taken (c_data c)) ++ d_ch (c_data c) ++ in_hand (c_data c) = d_offered (c_data c) /\
  taps (c_log c) = map f_Payload (received (c_data c)) /\
  (exists lost, taps (c_log c) = c_sessData c ++ c_dataIn c ++ in_pump (c_dpump c) ++ lost /\ (length lost <= 1)%nat /\
     (c_ctxDone c = false -> lost = [])) /\
  (c_reader c = Returned ->
     (exists pre, c_log c = pre ++ [TapClose; SessionClose] /\ Forall (fun e => ~ closes e) pre) /\
     (c_ctxDone c = false -> map fst (d_taken (c_data c)) = d_offered (c_data c) /\ taps (c_log c) = c_sessData c ++ c_dataIn c)).
Proof.
  pose proof (call_run_inv ls _ c (call_inv_new registered) Hrun) as Hi.
  split; [apply (pi_order _ _ (ci_plane _ Hi))|]. split; [apply (ci_taps _ Hi)|]. split.
  - destruct (ci_fed _ Hi) as (lost & E & Hl & H). exists lost. split; [done|]. split; [done|]. intros Hc. destruct H as [|[H _]]; [done | congruence].
  - intros Hr. pose proof (ci_joined _ Hi) as Hj. rewrite Hr in Hj. destruct (Hj eq_refl) as [Hd _]. split.
    + pose proof (ci_log _ Hi) as Hlog. by rewrite Hr in Hlog.
    + intros Hc. destruct (ci_drained _ Hi Hd Hc) as [_ Hch].
      assert (Hfree : in_hand (c_data c) = []) by (unfold in_hand; rewrite (ci_free _ Hi); [done | by rewrite Hr]). split.
      * by rewrite <- (pi_order _ _ (ci_plane _ Hi)), Hch, Hfree, app_nil_r.
      * destruct (ci_fed _ Hi) as (lost & -> & _ & H). rewrite Hd. cbn [in_pump]. destruct H as [->|[H _]]; [by rewrite !app_nil_r | congruence].
Qed.

(** ** The teardown ends *)












(** ** The drain waits for the session *)

(** The teardown joins the pumps while the data pump holds a frame the session's input has
    no room for. *)
Record drain_blocked (p : bytes) (c : call) : Prop := mkBlocked {
  db_reader : c_reader c = Joining;
  db_pump : c_dpump c = Forwarding p;
  db_full : (streamDepth <= length (c_dataIn c))%nat;
  db_ctx : c_ctxDone c = false
}.

(** Only the session's own receive, or the death of the outer context, ends that wait: the
    session's data input blocks when it is full, it does not drop. *)
Theorem drain_waits_for_session (p : bytes) (l : label) (c c' : call) :
  drain_blocked p c -> call_step l c = Some c' -> l <> LSessionData -> l <> LCtxDone -> drain_blocked p c'.
Proof.
  intros [Hr Hp Hf Hc] Hs H1 H2.
  destruct l; cbn [call_step] in Hs; unfold reader_step, data_pump_step, control_pump_step, session_step, control_aborted in Hs;
    rewrite ?Hr, ?Hp, ?Hc in Hs; try discriminate; try done.
  - destruct (Nat.ltb_spec (length (c_dataIn c)) streamDepth); [lia|discriminate].
  - repeat case_match; simplify_eq; by split.
  - repeat case_match; simplify_eq; by split.
  - repeat case_match; simplify_eq; by split.
  - repeat case_match; simplify_eq; by split.
Qed.

(** ** The control plane overflows *)

(** The channel [Teardown] returns is closed. *)
Definition torn (c : call) : call := c <| c_control ::= (fun p => p <| c_teardown := true |>) |>.

Lemma torn_unread l c : call_step l (torn c) = torn <$> call_step l c.
Proof.
  destruct c as [r p [cch cdep ctd] g dp cp ca cd di ci sd sc reg lg]. unfold torn.
  destruct l; cbn [call_step]; unfold reader_step, data_pump_step, control_pump_step, session_step, with_data, sending, control_aborted; call_cbn;
    cbn [c_ch c_depth c_teardown].
  1: { destruct r; try done. destruct (d_phase p); try done. unfold RouteFrame, control_Send. destruct (is_media f); call_cbn.
       - destruct (data_step _ p); [|done]. by case_bool_decide.
       - cbn [c_ch c_depth c_teardown]. destruct (_ <? _)%nat; by case_bool_decide. }
  all: try (destruct r; try done; destruct (d_phase p); done).
  all: try (destruct r; try done; destruct (data_step _ p); done).
  all: try (destruct r; try done; destruct reg; done).
  all: try (destruct r; try done; destruct dp, cp; done).
  all: try (destruct dp; try done; destruct (d_ch p); try done; destruct (data_step _ p); done).
  all: try (destruct dp; try done; destruct (recv_closed p); done).
  all: try (destruct dp; try done; destruct cd; done).
  all: try (destruct dp; try done; destruct (_ <? _)%nat; done).
  all: try (destruct cp; try done; destruct cch; done).
  all: try (destruct cp; try done; destruct (ca || cd); done).
  all: try (destruct cp; try done; destruct (_ <? _)%nat; done).
  all: case_bool_decide; try done.
  all: try (destruct di; done).
  all: try (destruct ci; done).
Qed.

(** A control frame that finds the control plane full is lost, the reader goes on as if
    it had been routed (a stop still starts the wait), and no step of the call ever depends
    on the teardown channel that was closed. *)
Theorem control_overflow_ignored (f : Frame) (now : Z) (c : call) (Hreading : c_reader c = Reading) (Hidle : sending c = false)
    (Hfull : (c_depth (c_control c) <= length (c_ch (c_control c)))%nat) (Hcontrol : is_media f = false) :
  call_step (LRead f now) c = Some (if bool_decide (f_Event f = EventStop) then torn c <| c_reader := Waiting |> else torn c) /\
  forall l c', call_step l (torn c') = torn <$> call_step l c'.
Proof.
  split; [|intros l c'; apply torn_unread]. cbn [call_step]. unfold reader_step, RouteFrame, control_Send.
  rewrite Hreading, Hidle, Hcontrol. destruct (Nat.ltb_spec (length (c_ch (c_control c))) (c_depth (c_control c))); [lia|].
  unfold torn. by case_bool_decide; destruct c.
Qed.

(** ** Examples

    Two frames, a stop, and the teardown; and sixteen marks behind which a stop
    is lost. *)
Definition ex_media (n : Z) : Frame := blank_frame EventMedia <| f_Chunk := n |> <| f_Payload := [n] |>.
Definition ex_stop : Frame := blank_frame EventStop.
Definition ex_mark : Frame := blank_frame EventMark <| f_MarkName := "m" |>.

Definition ex_call : list label :=
  [LRead (ex_media 1) 0; LDataRecv; LRead (ex_media 2) 20; LRead ex_stop 40; LControlRecv; LWaited; LDataSend; LUnregister; LStopInput;
   LSessionData; LControlSend; LDataRecv; LControlAbort; LDataSend; LDataClosed; LJoin; LTapClose; LSessionClose].

Lemma call_media_accounted_witness : exists c, call_run ex_call (newCall true) = Some c /\ c_reader c = Returned /\
  c_log c = [TapWriteIn [1]; TapDrainOut; ReplySinkClose; TapWriteIn [2]; TapDrainOut; TapClose; SessionClose] /\
  taps (c_log c) = c_sessData c ++ c_dataIn c.
Proof.
  destruct (call_run ex_call (newCall true)) as [c|] eqn:E; [|vm_compute in E; discriminate].
  pose proof (call_media_accounted true ex_call c E) as (_ & _ & _ & H). exists c. split; [reflexivity|].
  vm_compute in E. injection E as <-. split; [reflexivity|]. split; [reflexivity|]. apply H; reflexivity.
Defined.


Lemma control_overflow_ignored_witness : exists c, call_run (replicate 16 (LRead ex_mark 0)) (newCall true) = Some c /\
  call_step (LRead ex_stop 0) c = Some (torn c <| c_reader := Waiting |>).
Proof.
  destruct (call_run (replicate 16 (LRead ex_mark 0)) (newCall true)) as [c|] eqn:E; [|vm_compute in E; discriminate].
  exists c. split; [reflexivity|]. vm_compute in E. injection E as <-.
  apply (control_overflow_ignored ex_stop 0); [reflexivity | reflexivity | vm_compute; lia | reflexivity].
Defined.

(** Such a call: one frame more than the session's input holds, then the teardown. *)
Definition ex_drain_call : list label :=
  concat (map (fun n => [LRead (ex_media (Z.of_nat n)) 0; LDataRecv; LDataSend]) (seq 1 streamDepth)) ++
  [LRead (ex_media 9) 0; LDataRecv; LReadError; LUnregister; LStopInput].

Lemma drain_waits_for_session_witness : exists c c', call_run ex_drain_call (newCall true) = Some c /\
  drain_blocked [9] c /\ call_step LControlAbort c = Some c' /\ drain_blocked [9] c'.
Proof.
  destruct (call_run ex_drain_call (newCall true)) as [c|] eqn:E; [|vm_compute in E; discriminate].
  destruct (call_step LControlAbort c) as [c'|] eqn:E1;
    [|vm_compute in E; injection E as <-; vm_compute in E1; discriminate].
  assert (drain_blocked [9] c) as Hb.
  { vm_compute in E; injection E as <-. split; try reflexivity; vm_compute; lia. }
  exists c, c'. split; [reflexivity|]. split; [exact Hb|]. split; [exact E1|].
  by apply (drain_waits_for_session [9] LControlAbort c c').
Defined.
