(* ===== verification/Base64.v ===== *)
(** * Base64: decoding, and the hash of a webhook's signature

    [base64.StdEncoding.DecodeString] beside the encoder of [RtBase.v], and
    [hmac.New(sha1.New, key)], both of Go's standard library, on bytes. *)

From S2P Require Export RtBase GoStrings.
From Stdlib Require Export Ascii.

#[local] Open Scope Z_scope.

(** A Go string and its bytes. *)
Definition go_bytes (s : string) : bytes := map (fun c => Z.of_N (Ascii.N_of_ascii c)) (String.list_ascii_of_string s).
Definition go_string (l : bytes) : string := String.string_of_list_ascii (map (fun b => Ascii.ascii_of_N (Z.to_N b)) l).

(** ** Decoding *)

Fixpoint alphabet_index (c : ascii) (s : string) (i : Z) : option Z :=
  match s with
  | EmptyString => None
  | String c' s => if Ascii.eqb c c' then Some i else alphabet_index c s (i + 1)
  end.

Definition b64_value (c : ascii) : option Z := alphabet_index c b64_alphabet 0.

Definition is_newline (c : ascii) : bool := Ascii.eqb c (Ascii.ascii_of_nat 10) || Ascii.eqb c (Ascii.ascii_of_nat 13).

Fixpoint decode_quanta (l : list ascii) : option bytes :=
  match l with
  | [] => Some []
  | a :: b :: c :: d :: l =>
      x ← b64_value a; y ← b64_value b;
      let first := Z.lor (Z.shiftl x 2) (Z.shiftr y 4) in
      if Ascii.eqb c "=" then
        if Ascii.eqb d "=" && bool_decide (l = []) then Some [first] else None
      else
        z ← b64_value c;
        let second := Z.lor (Z.shiftl (Z.land y 15) 4) (Z.shiftr z 2) in
        if Ascii.eqb d "=" then if bool_decide (l = []) then Some [first; second] else None
        else
          t ← b64_value d;
          rest ← decode_quanta l;
          Some (first :: second :: Z.lor (Z.shiftl (Z.land z 3) 6) t :: rest)
  | _ => None
  end.

(** Line breaks are skipped wherever they stand. *)
Definition DecodeString (s : string) : option bytes :=
  decode_quanta (List.filter (fun c => negb (is_newline c)) (String.list_ascii_of_string s)).

(** ** SHA-1 *)

Definition word (x : Z) : Z := x mod 2 ^ 32.
Definition rotl (n x : Z) : Z := Z.lor (word (Z.shiftl x n)) (Z.shiftr x (32 - n)).

Fixpoint be_put (n : nat) (x : Z) : bytes :=
  match n with O => [] | S n => Z.land (Z.shiftr x (8 * Z.of_nat n)) 255 :: be_put n x end.
Definition be_word (l : bytes) : Z := foldl (fun acc b => 256 * acc + b) 0 l.

Definition sha1_pad (msg : bytes) : bytes :=
  let n := Z.of_nat (length msg) in
  msg ++ 128 :: replicate (Z.to_nat ((55 - n) mod 64)) 0 ++ be_put 8 (8 * n).

(** The words of the schedule, latest first. *)
Fixpoint sha1_extend (n : nat) (w : list Z) : list Z :=
  match n with
  | O => w
  | S n => sha1_extend n (rotl 1 (Z.lxor (Z.lxor (nth 2 w 0) (nth 7 w 0)) (Z.lxor (nth 13 w 0) (nth 15 w 0))) :: w)
  end.

Definition sha1_f (t : nat) (b c d : Z) : Z * Z :=
  if (t <? 20)%nat then (Z.lor (Z.land b c) (Z.land (Z.lxor b (2 ^ 32 - 1)) d), 1518500249)
  else if (t <? 40)%nat then (Z.lxor (Z.lxor b c) d, 1859775393)
  else if (t <? 60)%nat then (Z.lor (Z.lor (Z.land b c) (Z.land b d)) (Z.land c d), 2400959708)
  else (Z.lxor (Z.lxor b c) d, 3395469782).

Definition sha1_round (st : nat * (Z * Z * Z * Z * Z)) (w : Z) : nat * (Z * Z * Z * Z * Z) :=
  let '(t, (a, b, c, d, e)) := st in
  let '(f, k) := sha1_f t b c d in
  (S t, (word (rotl 5 a + f + e + k + w), a, rotl 30 b, c, d)).

Definition sha1_block (h : Z * Z * Z * Z * Z) (block : bytes) : Z * Z * Z * Z * Z :=
  let w := rev (sha1_extend 64 (rev (map be_word (chunks 4 block)))) in
  let '(_, (a', b', c', d', e')) := foldl sha1_round (O, h) w in
  let '(a, b, c, d, e) := h in
  (word (a + a'), word (b + b'), word (c + c'), word (d + d'), word (e + e')).

Definition sha1 (msg : bytes) : bytes :=
  let '(a, b, c, d, e) := foldl sha1_block (1732584193, 4023233417, 2562383102, 271733878, 3285377520) (chunks 64 (sha1_pad msg)) in
  be_put 4 a ++ be_put 4 b ++ be_put 4 c ++ be_put 4 d ++ be_put 4 e.

Definition hmac_sha1 (key msg : bytes) : bytes :=
  let key := if (64 <? length key)%nat then sha1 key else key in
  let key := key ++ replicate (64 - length key) 0 in
  sha1 (map (Z.lxor 92) key ++ sha1 (map (Z.lxor 54) key ++ msg)).

(** RFC 2202, test case 2. *)
Example hmac_jefe : hmac_sha1 (go_bytes "Jefe") (go_bytes "what do ya want for nothing?") =
  [239; 252; 223; 106; 229; 235; 47; 162; 210; 116; 22; 213; 241; 132; 223; 156; 37; 154; 124; 121].
Proof. vm_compute. reflexivity. Qed.

(** ** Facts *)

Lemma lor_shiftl hi lo n : 0 <= n -> 0 <= lo < 2 ^ n -> Z.lor (Z.shiftl hi n) lo = hi * 2 ^ n + lo.
Proof.
  intros Hn Hlo. rewrite <- Z.shiftl_mul_pow2 by done.
  assert (Hdis : Z.land (Z.shiftl hi n) lo = 0).
  { apply Z.bits_inj'. intros i Hi. rewrite Z.land_spec, Z.bits_0. destruct (Z.ltb_spec i n).
    - by rewrite Z.shiftl_spec_low.
    - rewrite <- (Z.mod_small lo (2 ^ n)) by done. rewrite Z.mod_pow2_bits_high by lia. apply andb_false_r. }
  rewrite <- Z.lxor_lor by done. symmetry. by apply Z.add_nocarry_lxor.
Qed.

Lemma b64_value_char i : 0 <= i < 64 -> b64_value (b64_char i) = Some i.
Proof.
  intros Hi. assert (H : forallb (fun k => bool_decide (b64_value (b64_char (Z.of_nat k)) = Some (Z.of_nat k))) (seq 0 64) = true) by reflexivity.
  rewrite forallb_forall in H. specialize (H (Z.to_nat i)). rewrite in_seq, Z2Nat.id in H by lia. apply bool_decide_eq_true in H; [done | lia].
Qed.

Lemma b64_char_newline i : is_newline (b64_char i) = false.
Proof.
  unfold b64_char. destruct (decide (Z.to_nat i < 64)%nat) as [H|H].
  - assert (Hall : forallb (fun k => negb (is_newline (default "A"%char (String.get k b64_alphabet)))) (seq 0 64) = true) by reflexivity.
    rewrite forallb_forall in Hall. specialize (Hall (Z.to_nat i)). rewrite in_seq in Hall. by apply negb_true_iff, Hall; lia.
  - assert (String.get (Z.to_nat i) b64_alphabet = None) as ->; [|done].
    revert H. generalize (Z.to_nat i). intros n Hn. do 64 (destruct n as [|n]; [lia|]). reflexivity.
Qed.

Lemma b64_char_eqb_pad i : Ascii.eqb (b64_char i) "=" = false.
Proof. apply Ascii.eqb_neq, b64_char_not_pad. Qed.

(** The four sextets of three bytes, and back. *)
Lemma sextets a b c : is_byte a -> is_byte b -> is_byte c ->
  let y := Z.lor (Z.shiftl (Z.land a 3) 4) (Z.shiftr b 4) in
  let z := Z.lor (Z.shiftl (Z.land b 15) 2) (Z.shiftr c 6) in
  (0 <= Z.shiftr a 2 < 64 /\ 0 <= y < 64 /\ 0 <= z < 64 /\ 0 <= Z.land c 63 < 64) /\
  Z.lor (Z.shiftl (Z.shiftr a 2) 2) (Z.shiftr y 4) = a /\
  Z.lor (Z.shiftl (Z.land y 15) 4) (Z.shiftr z 2) = b /\
  Z.lor (Z.shiftl (Z.land z 3) 6) (Z.land c 63) = c.
Proof.
  intros Ha Hb Hc y z. unfold y, z. clear y z. unfold is_byte in *.
  change 3 with (Z.ones 2). change 15 with (Z.ones 4). change 63 with (Z.ones 6).
  rewrite !Z.land_ones, !Z.shiftr_div_pow2 by lia. change (2 ^ 2) with 4. change (2 ^ 4) with 16. change (2 ^ 6) with 64.
  rewrite (lor_shiftl (a mod 4) (b / 16) 4), (lor_shiftl (b mod 16) (c / 64) 2) by (try change (2 ^ 4) with 16; try change (2 ^ 2) with 4; Z.to_euclidean_division_equations; lia).
  change (2 ^ 2) with 4. change (2 ^ 4) with 16.
  rewrite (lor_shiftl (a / 4) _ 2), (lor_shiftl ((a mod 4 * 16 + b / 16) mod 16) _ 4), (lor_shiftl _ (c mod 64) 6)
    by (try change (2 ^ 2) with 4; try change (2 ^ 4) with 16; try change (2 ^ 6) with 64; Z.to_euclidean_division_equations; lia).
  change (2 ^ 2) with 4. change (2 ^ 4) with 16. change (2 ^ 6) with 64.
  Z.to_euclidean_division_equations; lia.
Qed.

Lemma decode_quanta_encode l : wf_bytes l -> decode_quanta (String.list_ascii_of_string (EncodeToString true l)) = Some l.
Proof.
  revert l. fix IH 1. intros [|a [|b [|c l]]] Hl.
  - reflexivity.
  - apply Forall_cons in Hl as [Ha _]. destruct (sextets a 0 0 Ha ltac:(unfold is_byte; lia) ltac:(unfold is_byte; lia)) as ((H1 & H2 & _) & E1 & _).
    cbn [EncodeToString String.list_ascii_of_string decode_quanta]. change (Z.shiftr 0 4) with 0 in *. rewrite Z.lor_0_r in H2, E1.
    rewrite !b64_value_char by done. cbn. by rewrite E1.
  - apply Forall_cons in Hl as [Ha [Hb _]%Forall_cons]. destruct (sextets a b 0 Ha Hb ltac:(unfold is_byte; lia)) as ((H1 & H2 & H3 & _) & E1 & E2 & _).
    cbn [EncodeToString String.list_ascii_of_string decode_quanta]. change (Z.shiftr 0 6) with 0 in *. rewrite Z.lor_0_r in H3, E2.
    rewrite !b64_value_char by done. cbn [mbind option_bind]. rewrite b64_char_eqb_pad. cbn [mbind option_bind]. rewrite Ascii.eqb_refl, bool_decide_true by done. by rewrite E1, E2.
  - apply Forall_cons in Hl as [Ha [Hb [Hc Hl]%Forall_cons]%Forall_cons]. destruct (sextets a b c Ha Hb Hc) as ((H1 & H2 & H3 & H4) & E1 & E2 & E3).
    cbn [EncodeToString String.list_ascii_of_string decode_quanta].
    rewrite !b64_value_char by done. cbn [mbind option_bind]. rewrite !b64_char_eqb_pad, (IH l Hl). cbn [mbind option_bind]. by rewrite E1, E2, E3.
Qed.

Lemma encode_no_newline l : List.filter (fun c => negb (is_newline c)) (String.list_ascii_of_string (EncodeToString true l)) =
  String.list_ascii_of_string (EncodeToString true l).
Proof.
  revert l. fix IH 1. intros [|a [|b [|c l]]]; cbn [EncodeToString String.list_ascii_of_string List.filter]; rewrite ?b64_char_newline; cbn; [done..|].
  by rewrite IH.
Qed.

Lemma DecodeString_encode l : wf_bytes l -> DecodeString (EncodeToString true l) = Some l.
Proof. intros Hl. unfold DecodeString. rewrite encode_no_newline. by apply decode_quanta_encode. Qed.
