(* ===== verification/Webhook.v ===== *)
(** * Webhook: answering Twilio's requests

    Models [telephony/twilio/server.go] and [signature.go]: the signature of a
    webhook, what each route answers, the table of the callers of the calls it
    answered, and the start of a Media Streams connection.  A request comes
    parsed ([rq_form] is [None] when [ParseForm] fails on it); the consumer's
    callbacks are functions; a response is its status or its document. *)

From S2P Require Export Base64 Stream.
From stdpp Require Export strings sorting.

(** ** Signatures (signature.go) *)

Abbreviation Values := (gmap string (list string)).

(** [url.Values.Get]. *)
Definition Get (params : Values) (key : string) : string := default "" (params !! key ≫= head).

Definition string_le (a b : string) : Prop := Is_true (String.leb a b).
#[export] Instance string_le_dec : RelDecision string_le.
Proof. intros a b. unfold string_le. apply _. Defined.

Definition ComputeSignature (authToken rawURL : string) (params : Values) : string :=
  let keys := merge_sort string_le (map fst (map_to_list params)) in
  EncodeToString true (hmac_sha1 (go_bytes authToken) (go_bytes rawURL ++ concat (map (fun k => go_bytes k ++ go_bytes (Get params k)) keys))).

(** [hmac.Equal] is equality. *)
Definition ValidateSignature (authToken rawURL : string) (params : Values) (signature : string) : bool :=
  if bool_decide (authToken = "") || bool_decide (signature = "") then false
  else bool_decide (ComputeSignature authToken rawURL params = signature).

(** ** Text in a document *)

(** What XML 1.0 can carry of the rune of [n] bytes that [l] opens with. *)
Definition keep_rune (l : list N) (n : nat) : bool :=
  match n, l with
  | 1%nat, b :: _ => (bool_decide (b ∈ [9; 10; 13]) || (32 <=? b))%N && (b <? 128)%N
  | 3%nat, [b0; b1; b2] => negb (bool_decide (b0 = 239 /\ b1 = 191 /\ (b2 = 190 \/ b2 = 191))%N)
  | _, _ => true
  end.

Fixpoint keep_runes (fuel : nat) (l : list N) : list N :=
  match fuel, l with
  | S fuel, _ :: _ =>
      let n := rune_len l in
      (if keep_rune (take n l) n then take n l else []) ++ keep_runes fuel (drop n l)
  | _, _ => []
  end.

(** [strings.Map] over [strings.ToValidUTF8]. *)
Definition sanitize (l : list N) : list N := keep_runes (length l) l.

Definition escape_byte (b : N) : list N :=
  str_bytes (if (b =? 38)%N then "&amp;" else if (b =? 39)%N then "&#39;" else if (b =? 60)%N then "&lt;"
             else if (b =? 62)%N then "&gt;" else if (b =? 34)%N then "&#34;" else bytes_str [b]).

(** [html.EscapeString]. *)
Definition escape_html (l : list N) : list N := concat (map escape_byte l).

Definition EscapeString (s : string) : string := bytes_str (escape_html (str_bytes s)).
Definition escapeTwiML (text : string) : string := bytes_str (escape_html (sanitize (str_bytes text))).

(** ** The server *)

Definition RejectReasonRejected : string := "rejected".
Definition RejectReasonBusy : string := "busy".

Record InboundSMS := mkInboundSMS { in_MessageSID : string; in_From : string; in_To : string; in_Body : string; in_HasMedia : bool }.
Record SMSStatus := mkSMSStatus { ss_MessageSID : string; ss_Status : string; ss_ErrorCode : string; ss_To : string; ss_From : string }.

Record Server := mkServer {
  AuthToken : string; StreamScheme : string;
  HandleStream : bool; HandleSMS : bool; HandleSMSStatus : bool;
  Authorize : option (string -> bool);
  VoiceRejectText : string; SMSRejectText : string; VoiceRejectReason : string;
  HasReplyRouter : bool;
  AnswerCall : option (string -> string -> string * bool);
  RejectCall : option (string -> string -> string * bool)
}.

Record callParties := mkParties { p_from : string; p_to : string }.

Definition maxPendingFrom : nat := N.to_nat 1024.
#[global] Arguments maxPendingFrom : simpl never.

Record pending := mkPending { fromBySID : gmap string callParties; fromOrder : list string }.
Definition no_pending : pending := mkPending ∅ [].

Definition recordCall (callSid from to : string) (p : pending) : pending :=
  if bool_decide (callSid = "") then p
  else
    let '(m, order) :=
      match fromBySID p !! callSid with
      | Some _ => (fromBySID p, fromOrder p)
      | None =>
          let order := fromOrder p ++ [callSid] in
          if (maxPendingFrom <? length order)%nat
          then (match order with oldest :: _ => delete oldest (fromBySID p) | [] => fromBySID p end, tail order)
          else (fromBySID p, order)
      end in
    mkPending (<[callSid := mkParties from to]> m) order.

Definition lookupCall (callSid : string) (p : pending) : callParties := default (mkParties "" "") (fromBySID p !! callSid).

Definition streamScheme (s : Server) : string := if bool_decide (StreamScheme s = "ws") then "ws" else "wss".
Definition validateScheme (s : Server) : string := if bool_decide (streamScheme s = "ws") then "http" else "https".

(** ** Requests and answers *)

Record request := mkRequest { rq_form : option Values; rq_signature : string; rq_host : string; rq_uri : string }.

(** [Doc] is a 200 with content type [text/xml]. *)
Inductive reply := HttpError (code : Z) | Doc (doc : string).

(** What the consumer was asked or told. *)
Inductive consult :=
| CAuthorize (from : string) | CReject (from to : string) | CAnswer (from to : string)
| CSMS (msg : InboundSMS) | CStatus (status : SMSStatus).

(** The error to answer, or the parsed body. *)
Definition authenticate (s : Server) (rq : request) : reply + Values :=
  match rq_form rq with
  | None => inl (HttpError 400)
  | Some form =>
      let rawURL := validateScheme s +:+ "://" +:+ rq_host rq +:+ rq_uri rq in
      if ValidateSignature (AuthToken s) rawURL form (rq_signature rq) then inr form else inl (HttpError 403)
  end.

Definition is_digit (c : ascii) : bool := let n := Ascii.N_of_ascii c in (48 <=? n)%N && (n <=? 57)%N.

(** [^\+[1-9]\d{1,14}$] *)
Definition e164 (s : string) : bool :=
  match String.list_ascii_of_string s with
  | p :: d :: rest =>
      Ascii.eqb p "+" && is_digit d && negb (Ascii.eqb d "0") && forallb is_digit rest && (1 <=? length rest)%nat && (length rest <=? 14)%nat
  | _ => false
  end.

Definition rejectTwiML : string := "<Response><Reject/></Response>".
Definition quote : string := bytes_str [34%N].
Definition rejectBusyTwiML : string := "<Response><Reject reason=" +:+ quote +:+ RejectReasonBusy +:+ quote +:+ "/></Response>".

Definition writeVoiceReject (reason : string) : reply :=
  Doc (if bool_decide (reason = RejectReasonBusy) then rejectBusyTwiML else rejectTwiML).
Definition writeVoiceRefusal (text : string) : reply :=
  Doc ("<Response><Say>" +:+ escapeTwiML text +:+ "</Say><Hangup/></Response>").
Definition writeEmptyTwiML : reply := Doc "<Response></Response>".
Definition stream_doc (s : Server) (rq : request) : string :=
  "<Response><Connect><Stream url=" +:+ quote +:+ EscapeString (streamScheme s +:+ "://" +:+ rq_host rq +:+ "/streams") +:+ quote
  +:+ "/></Connect></Response>".

(** [f != nil && f(...)], for the two callbacks that may refuse a call. *)
Definition refused {A} (f : option (string -> string -> A * bool)) (from to : string) : option A :=
  match f with Some f => if snd (f from to) then Some (fst (f from to)) else None | None => None end.
Definition asked {A} (f : option A) (c : consult) : list consult := match f with Some _ => [c] | None => [] end.

Definition ServeHTTP (s : Server) (rq : request) (p : pending) : reply * list consult * pending :=
  match authenticate s rq with
  | inl r => (r, [], p)
  | inr form =>
      let from := Get form "From" in
      if negb (e164 from) then (HttpError 403, [], p)
      else
        let to := if e164 (Get form "To") then Get form "To" else "" in
        let c1 := asked (Authorize s) (CAuthorize from) in
        if match Authorize s with Some f => negb (f from) | None => false end then
          (if bool_decide (VoiceRejectReason s ≠ "") then writeVoiceReject (VoiceRejectReason s) else writeVoiceRefusal (VoiceRejectText s), c1, p)
        else
          let c2 := c1 ++ asked (RejectCall s) (CReject from to) in
          match refused (RejectCall s) from to with
          | Some reason => (writeVoiceReject reason, c2, p)
          | None =>
              let c3 := c2 ++ asked (AnswerCall s) (CAnswer from to) in
              match refused (AnswerCall s) from to with
              | Some say => (writeVoiceRefusal say, c3, p)
              | None => (Doc (stream_doc s rq), c3, recordCall (Get form "CallSid") from to p)
              end
          end
  end.

Definition hasMedia (numMedia : string) : bool := match Atoi numMedia with Some n => (0 <? n)%Z | None => false end.

Definition ServeSMS (s : Server) (rq : request) : reply * list consult :=
  match authenticate s rq with
  | inl r => (r, [])
  | inr form =>
      let from := Get form "From" in
      let c1 := asked (Authorize s) (CAuthorize from) in
      if match Authorize s with Some f => negb (f from) | None => false end
      then (Doc ("<Response><Message>" +:+ escapeTwiML (SMSRejectText s) +:+ "</Message></Response>"), c1)
      else
        let msg := mkInboundSMS (Get form "MessageSid") from (Get form "To") (Get form "Body") (hasMedia (Get form "NumMedia")) in
        (writeEmptyTwiML, c1 ++ if HandleSMS s then [CSMS msg] else [])
  end.

Definition ServeSMSStatus (s : Server) (rq : request) : reply * list consult :=
  match authenticate s rq with
  | inl r => (r, [])
  | inr form =>
      let status := mkSMSStatus (Get form "MessageSid") (Get form "MessageStatus") (Get form "ErrorCode") (Get form "To") (Get form "From") in
      (writeEmptyTwiML, if HandleSMSStatus s then [CStatus status] else [])
  end.

(** ** Media Streams connections

    A read of the connection gives an error ([None]) or a message, decoded or
    not. *)
Inductive stream_end :=
| StreamGone
| StreamClosed (reason : string)
| StreamHandled (start : Frame) (router : bool)
| StreamDiscarded.

Definition start_stream (s : Server) (f : Frame) (p : pending) : stream_end :=
  if negb (bool_decide (f_Event f = EventStart)) then StreamClosed "expected start frame"
  else
    let parties := lookupCall (f_CallSID f) p in
    let f := f <| f_From := p_from parties |> <| f_To := p_to parties |> in
    if HandleStream s then StreamHandled f (HasReplyRouter s) else StreamDiscarded.

Definition ServeStreams (s : Server) (reads : list (option (option Frame))) (p : pending) : stream_end :=
  match reads with
  | Some (Some f) :: reads =>
      if bool_decide (f_Event f = EventConnected) then
        match reads with
        | Some (Some f) :: _ => start_stream s f p
        | Some None :: _ => StreamClosed "decode"
        | None :: _ | [] => StreamGone
        end
      else start_stream s f p
  | Some None :: _ => StreamClosed "decode"
  | None :: _ | [] => StreamGone
  end.

(** ** A run of the server *)

Inductive arrival := AVoice (rq : request) | AStream (reads : list (option (option Frame))).

(** The streams handled, in order. *)
Fixpoint serve (s : Server) (arrivals : list arrival) (p : pending) : list stream_end :=
  match arrivals with
  | [] => []
  | AVoice rq :: arrivals => serve s arrivals (snd (ServeHTTP s rq p))
  | AStream reads :: arrivals => ServeStreams s reads p :: serve s arrivals p
  end.
