(* ===== verification/WebhookThms.v ===== *)
(** * WebhookThms: who gets a stream, and under whose name

    The order and effect of the checks of the voice webhook, the table of
    callers as an evict-oldest list, the identity a stream's handler is given,
    and the text of a refusal. *)

From S2P Require Export Webhook.

(** ** The gate *)

(** The signed request [rq] lets a call of [callSid] be answered: what the
    documentation of [ServeHTTP] asks of it. *)
Definition vouched (s : Server) (rq : request) (callSid from to : string) : Prop :=
  exists form,
    rq_form rq = Some form /\
    AuthToken s ≠ "" /\ rq_signature rq ≠ "" /\
    ComputeSignature (AuthToken s) (validateScheme s +:+ "://" +:+ rq_host rq +:+ rq_uri rq) form = rq_signature rq /\
    callSid = Get form "CallSid" /\
    from = Get form "From" /\ e164 from = true /\
    to = (if e164 (Get form "To") then Get form "To" else "") /\
    match Authorize s with Some f => f from = true | None => True end /\
    match RejectCall s with Some f => snd (f from to) = false | None => True end /\
    match AnswerCall s with Some f => snd (f from to) = false | None => True end.

Definition consults (s : Server) (from to : string) : list consult :=
  asked (Authorize s) (CAuthorize from) ++ asked (RejectCall s) (CReject from to) ++ asked (AnswerCall s) (CAnswer from to).

(** The request is genuine and names a caller: all the checks but the consumer's. *)
Definition identified (s : Server) (rq : request) (from to : string) : Prop :=
  exists form,
    rq_form rq = Some form /\
    AuthToken s ≠ "" /\ rq_signature rq ≠ "" /\
    ComputeSignature (AuthToken s) (validateScheme s +:+ "://" +:+ rq_host rq +:+ rq_uri rq) form = rq_signature rq /\
    from = Get form "From" /\ e164 from = true /\
    to = (if e164 (Get form "To") then Get form "To" else "").

(** Whether the consumer's answer to a question refuses the call, and the document
    that refusal is answered with. *)
Definition refuses (s : Server) (c : consult) : bool :=
  match c with
  | CAuthorize from => match Authorize s with Some f => negb (f from) | None => false end
  | CReject from to => match RejectCall s with Some f => snd (f from to) | None => false end
  | CAnswer from to => match AnswerCall s with Some f => snd (f from to) | None => false end
  | CSMS _ | CStatus _ => false
  end.

Definition refusal (s : Server) (c : consult) : reply :=
  match c with
  | CAuthorize _ =>
      if bool_decide (VoiceRejectReason s = "") then writeVoiceRefusal (VoiceRejectText s)
      else writeVoiceReject (VoiceRejectReason s)
  | CReject from to => writeVoiceReject (match RejectCall s with Some f => fst (f from to) | None => "" end)
  | CAnswer from to => writeVoiceRefusal (match AnswerCall s with Some f => fst (f from to) | None => "" end)
  | CSMS _ | CStatus _ => writeEmptyTwiML
  end.

Lemma authenticate_inr s rq form :
  authenticate s rq = inr form <->
  rq_form rq = Some form /\ AuthToken s ≠ "" /\ rq_signature rq ≠ "" /\
  ComputeSignature (AuthToken s) (validateScheme s +:+ "://" +:+ rq_host rq +:+ rq_uri rq) form = rq_signature rq.
Proof.
  unfold authenticate, ValidateSignature. destruct (rq_form rq) as [form'|]; [|naive_solver].
  repeat case_bool_decide; cbn [orb]; naive_solver.
Qed.

Lemma refused_None {A} (f : option (string -> string -> A * bool)) from to :
  refused f from to = None <-> match f with Some f => snd (f from to) = false | None => True end.
Proof. unfold refused. destruct f as [f|]; [destruct (snd (f from to))|]; naive_solver. Qed.

Lemma refused_Some {A} (f : option (string -> string -> A * bool)) from to a :
  refused f from to = Some a -> ~ match f with Some f => snd (f from to) = false | None => True end.
Proof. unfold refused. destruct f as [f|]; [destruct (snd (f from to))|]; naive_solver. Qed.

Lemma reject_not_stream s rq reason : writeVoiceReject reason ≠ Doc (stream_doc s rq).
Proof. unfold writeVoiceReject. case_bool_decide; discriminate. Qed.
Lemma refusal_not_stream s rq text : writeVoiceRefusal text ≠ Doc (stream_doc s rq).
Proof. discriminate. Qed.
#[export] Hint Resolve reject_not_stream refusal_not_stream : s2s.

(** ** The table of callers *)

(** The specification: an association list in order of first recording. *)
Definition table := list (string * callParties).

Definition spec_record (callSid : string) (parties : callParties) (t : table) : table :=
  if bool_decide (callSid = "") then t
  else if bool_decide (callSid ∈ t.*1)
  then map (fun e => if bool_decide (e.1 = callSid) then (e.1, parties) else e) t
  else let t := t ++ [(callSid, parties)] in if (maxPendingFrom <? length t)%nat then tail t else t.

Record tabulates (p : pending) (t : table) : Prop := {
  tab_order : fromOrder p = t.*1;
  tab_nodup : NoDup t.*1;
  tab_map : fromBySID p = list_to_map t;
  tab_bound : (length t <= maxPendingFrom)%nat
}.

Lemma tabulates_none : tabulates no_pending [].
Proof. split; [done|constructor|done|cbn; lia]. Qed.

Lemma replace_keys k v (t : table) :
  (map (fun e => if bool_decide (e.1 = k) then (e.1, v) else e) t).*1 = t.*1.
Proof. induction t as [|[a b] t IH]; cbn; [done|]. case_bool_decide; cbn; by rewrite IH. Qed.

Lemma replace_absent k v (t : table) :
  k ∉ t.*1 -> map (fun e => if bool_decide (e.1 = k) then (e.1, v) else e) t = t.
Proof.
  induction t as [|[a b] t IH]; cbn; [done|]. rewrite not_elem_of_cons. intros [Hne Ht].
  rewrite bool_decide_false by congruence. by rewrite IH.
Qed.

Lemma replace_map k v (t : table) :
  NoDup t.*1 -> k ∈ t.*1 ->
  <[k:=v]> (list_to_map t : gmap string callParties) = list_to_map (map (fun e => if bool_decide (e.1 = k) then (e.1, v) else e) t).
Proof.
  induction t as [|[a b] t IH]; cbn; [by intros ? ?%elem_of_nil|].
  rewrite NoDup_cons, elem_of_cons. intros [Ha Hnd] Hin. case_bool_decide as E; cbn.
  - subst a. rewrite insert_insert_eq. by rewrite replace_absent.
  - rewrite insert_insert_ne by done. rewrite IH; [done|done|]. naive_solver.
Qed.

Lemma list_to_map_snoc k v (t : table) :
  k ∉ t.*1 -> <[k:=v]> (list_to_map t : gmap string callParties) = list_to_map (t ++ [(k, v)]).
Proof. intros. rewrite list_to_map_snoc by done. reflexivity. Qed.

Lemma recordCall_tabulates callSid from to p t :
  tabulates p t -> tabulates (recordCall callSid from to p) (spec_record callSid (mkParties from to) t).
Proof.
  intros [Ho Hn Hm Hb]. unfold recordCall, spec_record. case_bool_decide as E; [by split|].
  destruct (fromBySID p !! callSid) as [v|] eqn:Hl; rewrite Hm in Hl.
  - assert (Hin : callSid ∈ t.*1).
    { apply list_elem_of_fmap. exists (callSid, v). split; [done|]. by apply elem_of_list_to_map_2. }
    rewrite bool_decide_true by done. split; cbn.
    + by rewrite replace_keys.
    + by rewrite replace_keys.
    + rewrite Hm. by apply replace_map.
    + by rewrite length_map.
  - apply not_elem_of_list_to_map in Hl. rewrite (bool_decide_false (callSid ∈ t.*1)) by done.
    rewrite Ho, Hm, !length_app, length_fmap. cbn [length].
    assert (Hnd : NoDup (t ++ [(callSid, mkParties from to)]).*1).
    { rewrite fmap_app. apply NoDup_app. repeat split; [done| |apply NoDup_singleton].
      intros x Hx ->%list_elem_of_singleton. done. }
    destruct (Nat.ltb_spec maxPendingFrom (length t + 1)) as [Hlt|Hge].
    + destruct t as [|[k0 v0] t]; [cbn in Hlt; unfold maxPendingFrom in Hlt; lia|]. cbn in *.
      apply NoDup_cons in Hnd as [Hk0 Hnd]. split; cbn.
      * by rewrite fmap_app.
      * done.
      * rewrite fmap_app, not_elem_of_app in Hk0. destruct Hk0 as [Hk0 Hk1].
        rewrite delete_insert_id by (by apply not_elem_of_list_to_map).
        apply list_to_map_snoc. set_solver.
      * rewrite length_app. cbn. lia.
    + split; cbn.
      * by rewrite fmap_app.
      * done.
      * by apply list_to_map_snoc.
      * rewrite length_app. cbn. lia.
Qed.

Lemma vouched_det s rq sid from to sid' from' to' :
  vouched s rq sid from to -> vouched s rq sid' from' to' -> sid = sid' /\ from = from' /\ to = to'.
Proof. intros (f & ? & H) (f' & ? & H'). naive_solver. Qed.

Lemma vouched_dec s rq :
  (exists sid from to, vouched s rq sid from to) \/ (forall sid from to, ~ vouched s rq sid from to).
Proof.
  destruct (rq_form rq) as [form|] eqn:Hf; [|right; intros ? ? ? (f & E & _); congruence].
  set (from := Get form "From"). set (to := if e164 (Get form "To") then Get form "To" else "").
  assert (Hd : Decision (AuthToken s ≠ "" /\ rq_signature rq ≠ "" /\
    ComputeSignature (AuthToken s) (validateScheme s +:+ "://" +:+ rq_host rq +:+ rq_uri rq) form = rq_signature rq /\
    e164 from = true /\ match Authorize s with Some f => f from = true | None => True end /\
    match RejectCall s with Some f => snd (f from to) = false | None => True end /\
    match AnswerCall s with Some f => snd (f from to) = false | None => True end)).
  { destruct (Authorize s), (RejectCall s), (AnswerCall s); apply _. }
  destruct Hd as [Hv|Hv].
  - left. exists (Get form "CallSid"), from, to, form. naive_solver.
  - right. intros sid f t (form' & Hf' & Hv'). naive_solver.
Qed.

Lemma ServeHTTP_vouched s rq p sid from to :
  vouched s rq sid from to -> ServeHTTP s rq p = (Doc (stream_doc s rq), consults s from to, recordCall sid from to p).
Proof.
  intros (form & Hf & Ht & Hs & Hc & -> & -> & He & -> & Ha & Hr & Hw).
  assert (Hauth : authenticate s rq = inr form) by (apply authenticate_inr; auto).
  unfold ServeHTTP. rewrite Hauth, He. cbn [negb]. cbv zeta.
  replace (match Authorize s with Some f => negb (f (Get form "From")) | None => false end) with false
    by (destruct (Authorize s); [by rewrite Ha|done]).
  apply refused_None in Hr. apply refused_None in Hw. rewrite Hr, Hw. unfold consults. by rewrite <- app_assoc.
Qed.

(** Refused by the first consumer callback that refuses, nobody after it asked. *)
Definition refused_by (s : Server) (rq : request) (p : pending) : Prop :=
  exists from to pre c post,
    identified s rq from to /\ consults s from to = pre ++ c :: post /\
    Forall (fun c => refuses s c = false) pre /\ refuses s c = true /\
    ServeHTTP s rq p = (refusal s c, pre ++ [c], p).

(** Refused before any of them is asked. *)
Definition turned_away (s : Server) (rq : request) (p : pending) : Prop :=
  (forall from to, ~ identified s rq from to) /\
  ServeHTTP s rq p = (HttpError (match rq_form rq with None => 400 | Some _ => 403 end), [], p).

Lemma asked_accepts {A} s (f : option A) c :
  refuses s c = false -> Forall (fun c => refuses s c = false) (asked f c).
Proof. intros Hc. unfold asked. case_match; repeat constructor. exact Hc. Qed.

Lemma ServeHTTP_refusal s rq p :
  (exists sid from to, vouched s rq sid from to) \/ refused_by s rq p \/ turned_away s rq p.
Proof.
  destruct (authenticate s rq) as [r|form] eqn:Ha.
  { right; right. split.
    - intros from to (form & H1 & H2 & H3 & H4 & _).
      assert (authenticate s rq = inr form) by (apply authenticate_inr; auto). congruence.
    - unfold ServeHTTP. rewrite Ha. unfold authenticate in Ha. by repeat case_match; simplify_eq. }
  pose proof Ha as (Hf & Ht & Hs & Hc)%authenticate_inr.
  destruct (e164 (Get form "From")) eqn:He.
  2: { right; right. split; [|unfold ServeHTTP; by rewrite Ha, He, Hf].
       intros from to (form' & Hf' & _ & _ & _ & -> & He' & _). congruence. }
  set (from := Get form "From") in *. set (to := if e164 (Get form "To") then Get form "To" else "").
  assert (identified s rq from to) as Hid by (exists form; auto 10).
  pose proof (eq_refl (ServeHTTP s rq p)) as Hserve. unfold ServeHTTP in Hserve at 2. rewrite Ha in Hserve.
  cbv zeta in Hserve. fold from to in Hserve. rewrite He in Hserve. cbn [negb] in Hserve.
  destruct (refuses s (CAuthorize from)) eqn:H1; cbn [refuses] in H1; rewrite H1 in Hserve.
  { right; left. exists from, to, [], (CAuthorize from), (asked (RejectCall s) (CReject from to) ++ asked (AnswerCall s) (CAnswer from to)).
    unfold consults, refusal, asked in *. cbn [refuses]. destruct (Authorize s) as [f|]; [|done].
    split_and!; try done. rewrite Hserve. by repeat case_bool_decide. }
  assert (Forall (fun c => refuses s c = false) (asked (Authorize s) (CAuthorize from))) as F1 by by apply asked_accepts.
  destruct (refuses s (CReject from to)) eqn:H2.
  { right; left. exists from, to, (asked (Authorize s) (CAuthorize from)), (CReject from to), (asked (AnswerCall s) (CAnswer from to)).
    unfold consults, refusal. cbn [refuses] in *. unfold refused, asked in *.
    destruct (RejectCall s) as [f|]; [|done]. rewrite H2 in Hserve. by split_and!. }
  destruct (refuses s (CAnswer from to)) eqn:H3.
  { right; left. exists from, to, (asked (Authorize s) (CAuthorize from) ++ asked (RejectCall s) (CReject from to)), (CAnswer from to), [].
    assert (Forall (fun c => refuses s c = false) (asked (RejectCall s) (CReject from to))) as F2 by by apply asked_accepts.
    unfold consults, refusal. cbn [refuses] in *.
    assert (refused (RejectCall s) from to = None) as E2.
    { apply refused_None. by destruct (RejectCall s). }
    rewrite E2 in Hserve. unfold refused, asked in *. destruct (AnswerCall s) as [f|]; [|done].
    rewrite H3 in Hserve. split_and!; try done; [by rewrite <- app_assoc|by apply Forall_app]. }
  left. exists (Get form "CallSid"), from, to, form. cbn [refuses] in *.
  split_and!; try done.
  - destruct (Authorize s); [by apply negb_false_iff|done].
  - by destruct (RejectCall s).
  - by destruct (AnswerCall s).
Qed.

Lemma refusal_not_stream_doc s rq c : refusal s c ≠ Doc (stream_doc s rq).
Proof. destruct c; cbn; repeat case_match; auto with s2s; try discriminate. Qed.

Lemma ServeHTTP_refused s rq p :
  (forall sid from to, ~ vouched s rq sid from to) ->
  snd (ServeHTTP s rq p) = p /\ fst (fst (ServeHTTP s rq p)) ≠ Doc (stream_doc s rq) /\
  (refused_by s rq p \/ turned_away s rq p).
Proof.
  intros Hno. destruct (ServeHTTP_refusal s rq p) as [(sid & from & to & Hv)|Hr]; [by destruct (Hno sid from to)|].
  split; [|split; [|exact Hr]].
  - by destruct Hr as [(? & ? & ? & ? & ? & _ & _ & _ & _ & ->)|[_ ->]].
  - destruct Hr as [(? & ? & ? & ? & ? & _ & _ & _ & _ & ->)|[_ ->]]; cbn; [apply refusal_not_stream_doc|done].
Qed.

(** C17: A voice webhook is answered with a stream, and its caller recorded, exactly when
    its form parses, the token and the signature are not empty, the signature is the one
    computed over the public URL and the body, its From is E.164 and none of Authorize,
    RejectCall and AnswerCall refuses it; they are asked in that order. Otherwise nothing is
    recorded: either a genuine request that names its caller is refused by one of the three,
    those before it agreeing, those after it not asked, and its refusal answered, or nobody
    is asked and the answer is 400 for a form that does not parse and 403 otherwise. *)
Theorem stream_gate (s : Server) (rq : request) (p : pending) :
  (exists callSid from to, vouched s rq callSid from to /\
     ServeHTTP s rq p = (Doc (stream_doc s rq), consults s from to, recordCall callSid from to p)) \/
  ((forall callSid from to, ~ vouched s rq callSid from to) /\
   snd (ServeHTTP s rq p) = p /\ fst (fst (ServeHTTP s rq p)) ≠ Doc (stream_doc s rq) /\
   (refused_by s rq p \/ turned_away s rq p)).
Proof.
  destruct (vouched_dec s rq) as [(sid & from & to & Hv)|Hno].
  - left. exists sid, from, to. split; [done|]. by apply ServeHTTP_vouched.
  - right. split; [done|]. by apply ServeHTTP_refused.
Qed.

(** ** Under whose name a stream runs *)

(** The pending callers after [arrivals]. *)
Fixpoint pending_after (s : Server) (arrivals : list arrival) (p : pending) : pending :=
  match arrivals with
  | [] => p
  | AVoice rq :: arrivals => pending_after s arrivals (snd (ServeHTTP s rq p))
  | AStream _ :: arrivals => pending_after s arrivals p
  end.

Definition voices (arrivals : list arrival) : nat :=
  length (List.filter (fun a => match a with AVoice _ => true | AStream _ => false end) arrivals).

Lemma serve_app s pre post p : serve s (pre ++ post) p = serve s pre p ++ serve s post (pending_after s pre p).
Proof. revert p. induction pre as [|[rq|reads] pre IH]; intros p; cbn; [done|apply IH|by rewrite IH]. Qed.

Lemma pending_after_app s pre post p : pending_after s (pre ++ post) p = pending_after s post (pending_after s pre p).
Proof. revert p. induction pre as [|[rq|reads] pre IH]; intros p; cbn; auto. Qed.

Lemma pending_after_snoc s pre rq p :
  pending_after s (pre ++ [AVoice rq]) p = snd (ServeHTTP s rq (pending_after s pre p)).
Proof. by rewrite pending_after_app. Qed.

Lemma voice_step s rq p :
  (exists sid from to, vouched s rq sid from to /\ snd (ServeHTTP s rq p) = recordCall sid from to p) \/
  ((forall sid from to, ~ vouched s rq sid from to) /\ snd (ServeHTTP s rq p) = p).
Proof.
  destruct (vouched_dec s rq) as [(sid & from & to & Hv)|Hno].
  - left. exists sid, from, to. by rewrite (ServeHTTP_vouched _ _ _ _ _ _ Hv).
  - right. split; [done|]. by apply ServeHTTP_refused.
Qed.

Lemma spec_record_in sid v t e : e ∈ spec_record sid v t -> e = (sid, v) \/ e ∈ t.
Proof.
  unfold spec_record. case_bool_decide; [auto|]. case_bool_decide.
  - intros (e' & -> & Hin)%list_elem_of_fmap. destruct e' as [a b]; cbn. case_bool_decide; subst; auto.
  - assert (Hin : forall t' : table, e ∈ tail (t' : table) -> e ∈ t') by (intros [|? ?]; cbn; [done|]; by right).
    case_match; [intros H2%Hin; revert H2|]; rewrite elem_of_app, list_elem_of_singleton; tauto.
Qed.

Lemma spec_record_no_evict sid v t e :
  (length t < maxPendingFrom)%nat -> e.1 ≠ sid -> e ∈ t -> e ∈ spec_record sid v t.
Proof.
  intros Hlen Hne Hin. unfold spec_record. case_bool_decide; [done|]. case_bool_decide.
  - apply list_elem_of_fmap. exists e. by rewrite bool_decide_false.
  - cbv zeta. rewrite length_app. cbn [length]. destruct (Nat.ltb_spec maxPendingFrom (length t + 1)); [lia|].
    apply elem_of_app. by left.
Qed.

Lemma spec_record_new sid v t :
  sid ≠ "" -> (0 < length t)%nat \/ (0 < maxPendingFrom)%nat -> (sid, v) ∈ spec_record sid v t.
Proof.
  intros Hs Hl. unfold spec_record. rewrite bool_decide_false by done. case_bool_decide as Hin.
  - apply list_elem_of_fmap in Hin as ([k u] & -> & Hin). apply list_elem_of_fmap. exists (k, u).
    by rewrite bool_decide_true.
  - cbv zeta. destruct (Nat.ltb_spec maxPendingFrom (length (t ++ [(sid, v)]))).
    + destruct t; cbn; [rewrite length_app in *; cbn in *; lia|]. apply elem_of_app. right. by apply list_elem_of_singleton.
    + apply elem_of_app. right. by apply list_elem_of_singleton.
Qed.

Lemma spec_record_length sid v t : (length (spec_record sid v t) <= S (length t))%nat.
Proof.
  unfold spec_record. repeat case_bool_decide; [lia|rewrite length_map; lia|]. cbv zeta.
  case_match; [destruct t; cbn|]; rewrite ?length_app; cbn; lia.
Qed.

(** Every entry of the table was vouched for by an earlier webhook; none has
    been evicted while fewer than [maxPendingFrom] webhooks came. *)
Lemma pending_after_table s pre :
  exists t, tabulates (pending_after s pre no_pending) t /\
    (length t <= voices pre)%nat /\
    forall sid v, (sid, v) ∈ t -> sid ≠ "" /\ exists rq, AVoice rq ∈ pre /\ vouched s rq sid (p_from v) (p_to v).
Proof.
  induction pre as [|a pre IH] using rev_ind.
  { exists []. split; [apply tabulates_none|]. split; [cbn; lia|]. intros ? ? []%elem_of_nil. }
  destruct IH as (t & Ht & Hlen & Hall).
  assert (Hweak : forall sid v, (sid, v) ∈ t -> sid ≠ "" /\ exists rq, AVoice rq ∈ pre ++ [a] /\ vouched s rq sid (p_from v) (p_to v)).
  { intros sid v (Hs & rq & Hin & Hv)%Hall. split; [done|]. exists rq. split; [set_solver|done]. }
  unfold voices. rewrite List.filter_app, length_app. fold (voices pre).
  destruct a as [rq|reads].
  2: { exists t. rewrite pending_after_app. cbn. split_and!; [done|lia|done]. }
  rewrite pending_after_snoc.
  destruct (voice_step s rq (pending_after s pre no_pending)) as [(sid & from & to & Hv & ->)|[Hno ->]].
  - exists (spec_record sid (mkParties from to) t). split; [by apply recordCall_tabulates|]. cbn.
    split; [pose proof (spec_record_length sid (mkParties from to) t); lia|].
    intros sid' v' Hin. destruct (decide (sid = "")) as [->|Hne].
    { unfold spec_record in Hin. rewrite bool_decide_true in Hin by done. auto. }
    apply spec_record_in in Hin as [[= -> ->]|Hin]; [|auto].
    split; [done|]. exists rq. split; [set_solver|done].
  - exists t. cbn. split_and!; [done|lia|done].
Qed.

Lemma tabulates_lookup p t sid v : tabulates p t -> (sid, v) ∈ t -> lookupCall sid p = v.
Proof.
  intros [_ Hn Hm _] Hin. unfold lookupCall. rewrite Hm.
  by rewrite (elem_of_list_to_map_1 _ _ _ Hn Hin).
Qed.

Lemma lookup_vouched s pre sid :
  lookupCall sid (pending_after s pre no_pending) = mkParties "" "" \/
  exists rq, AVoice rq ∈ pre /\ vouched s rq sid (p_from (lookupCall sid (pending_after s pre no_pending)))
                                        (p_to (lookupCall sid (pending_after s pre no_pending))).
Proof.
  destruct (pending_after_table s pre) as (t & Ht & _ & Hall). unfold lookupCall.
  destruct (fromBySID (pending_after s pre no_pending) !! sid) as [v|] eqn:Hl; cbn; [right|by left].
  rewrite (tab_map _ _ Ht) in Hl. apply elem_of_list_to_map_2 in Hl. by apply Hall.
Qed.

Lemma lookup_kept s pre1 rq pre2 sid from to :
  vouched s rq sid from to -> sid ≠ "" ->
  (voices (pre1 ++ AVoice rq :: pre2) <= maxPendingFrom)%nat ->
  (forall rq' from' to', AVoice rq' ∈ pre2 -> ~ vouched s rq' sid from' to') ->
  lookupCall sid (pending_after s (pre1 ++ AVoice rq :: pre2) no_pending) = mkParties from to.
Proof.
  intros Hv Hne. induction pre2 as [|a pre2 IH] using rev_ind; intros Hlen Hno.
  - rewrite pending_after_snoc, (ServeHTTP_vouched _ _ _ _ _ _ Hv). cbn.
    destruct (pending_after_table s pre1) as (t & Ht & _).
    apply (recordCall_tabulates sid from to) in Ht. apply (tabulates_lookup _ _ _ _ Ht).
    apply spec_record_new; [done|]. right. unfold maxPendingFrom. lia.
  - rewrite app_comm_cons, app_assoc in Hlen |- *.
    unfold voices in Hlen. rewrite List.filter_app, length_app in Hlen. fold (voices (pre1 ++ AVoice rq :: pre2)) in Hlen.
    assert (IH' := IH ltac:(lia) ltac:(set_solver)). clear IH.
    destruct a as [rq'|reads]; [|by rewrite pending_after_app].
    rewrite pending_after_snoc. cbn in Hlen.
    destruct (voice_step s rq' (pending_after s (pre1 ++ AVoice rq :: pre2) no_pending)) as [(sid' & f' & t' & Hv' & ->)|[_ ->]]; [|done].
    assert (sid' ≠ sid) by (intros ->; eapply Hno; [apply elem_of_app; right; by apply list_elem_of_singleton|done]).
    destruct (pending_after_table s (pre1 ++ AVoice rq :: pre2)) as (t & Ht & Hl & Hall).
    assert (Hin : (sid, mkParties from to) ∈ t).
    { unfold lookupCall in IH'. rewrite (tab_map _ _ Ht) in IH'.
      destruct (list_to_map t !! sid) as [v|] eqn:E; cbn in IH'.
      - subst v. by apply elem_of_list_to_map_2.
      - injection IH' as <- <-. destruct Hv as (form & _ & _ & _ & _ & _ & _ & He & _). discriminate He. }
    apply (recordCall_tabulates sid' f' t') in Ht. apply (tabulates_lookup _ _ _ _ Ht).
    apply spec_record_no_evict; [lia|cbn; congruence|done].
Qed.

(** ** A run *)

Lemma start_stream_handled s f p f' router :
  start_stream s f p = StreamHandled f' router ->
  f_CallSID f' = f_CallSID f /\ f_From f' = p_from (lookupCall (f_CallSID f) p) /\ f_To f' = p_to (lookupCall (f_CallSID f) p).
Proof.
  unfold start_stream. case_bool_decide; cbn; [|discriminate].
  destruct (HandleStream s); [|discriminate]. intros [= <- <-]. destruct f; done.
Qed.

Lemma ServeStreams_handled s reads p f router :
  ServeStreams s reads p = StreamHandled f router ->
  f_From f = p_from (lookupCall (f_CallSID f) p) /\ f_To f = p_to (lookupCall (f_CallSID f) p).
Proof.
  intros H. assert (exists f0, start_stream s f0 p = StreamHandled f router) as [f0 (-> & -> & ->)%start_stream_handled]; [|done].
  unfold ServeStreams in H. destruct reads as [|[[f0|]|] reads]; try discriminate.
  case_bool_decide; [|by exists f0]. destruct reads as [|[[f1|]|] reads]; try discriminate. by exists f1.
Qed.

(** C18: A stream is handled under a From and To that are empty, or those of an earlier
    signed and admitted voice webhook with the stream's CallSid; with at most 1024 voice
    webhooks before it, they are those of the latest such webhook. *)
Theorem stream_caller_vouched (s : Server) (pre : list arrival) (reads : list (option (option Frame))) (f : Frame) (router : bool)
    (Hrun : last (serve s (pre ++ [AStream reads]) no_pending) = Some (StreamHandled f router)) :
  (f_From f = "" /\ f_To f = "" \/
   exists rq, AVoice rq ∈ pre /\ vouched s rq (f_CallSID f) (f_From f) (f_To f)) /\
  (forall pre1 rq pre2 from to,
     pre = pre1 ++ AVoice rq :: pre2 -> f_CallSID f ≠ "" -> vouched s rq (f_CallSID f) from to ->
     (forall rq' from' to', AVoice rq' ∈ pre2 -> ~ vouched s rq' (f_CallSID f) from' to') ->
     (voices pre <= maxPendingFrom)%nat ->
     f_From f = from /\ f_To f = to).
Proof.
  rewrite serve_app in Hrun. cbn [serve] in Hrun. rewrite last_snoc in Hrun. injection Hrun as Hrun.
  apply ServeStreams_handled in Hrun as [-> ->]. split.
  - destruct (lookup_vouched s pre (f_CallSID f)) as [->|?]; auto.
  - intros pre1 rq pre2 from to -> Hne Hv Hno Hlen. by rewrite (lookup_kept _ _ _ _ _ from to).
Qed.

(** A call from +15551230001 is answered, then its stream opens. *)
Definition ex_server : Server :=
  mkServer "token" "" true false false (Some (fun from => bool_decide (from = "+15551230001"))) "no" "no" "" false
    (Some (fun _ _ => ("", false))) None.
Definition ex_form : Values := <["CallSid" := ["CA1"]]> (<["From" := ["+15551230001"]]> (<["To" := ["+15550000001"]]> ∅)).
Definition ex_voice : request :=
  mkRequest (Some ex_form) (ComputeSignature "token" "https://host/voice" ex_form) "host" "/voice".
Definition ex_start : Frame := blank_frame EventStart <| f_CallSID := "CA1" |>.

Lemma ex_voice_vouched : vouched ex_server ex_voice "CA1" "+15551230001" "+15550000001".
Proof.
  exists ex_form. split; [reflexivity|]. split; [discriminate|]. split; [vm_compute; discriminate|]. split; [vm_compute; reflexivity|].
  repeat split; vm_compute; reflexivity.
Qed.

Lemma stream_caller_vouched_witness :
  exists f, last (serve ex_server ([AVoice ex_voice] ++ [AStream [Some (Some ex_start)]]) no_pending) = Some (StreamHandled f false) /\
    f_From f = "+15551230001" /\ f_To f = "+15550000001".
Proof.
  exists (ex_start <| f_From := "+15551230001" |> <| f_To := "+15550000001" |>).
  assert (Hrun : last (serve ex_server ([AVoice ex_voice] ++ [AStream [Some (Some ex_start)]]) no_pending)
    = Some (StreamHandled (ex_start <| f_From := "+15551230001" |> <| f_To := "+15550000001" |>) false)) by (vm_compute; reflexivity).
  split; [exact Hrun|].
  refine (proj2 (stream_caller_vouched _ _ _ _ _ Hrun) [] ex_voice [] "+15551230001" "+15550000001" eq_refl _ ex_voice_vouched _ _).
  - discriminate.
  - intros rq' from' to' []%elem_of_nil.
  - unfold voices, maxPendingFrom. cbn. lia.
Defined.

(** ** The text of a refusal *)

Definition entities : list (string * N) := [("&amp;", 38); ("&#39;", 39); ("&lt;", 60); ("&gt;", 62); ("&#34;", 34)]%N.

Fixpoint strip (p l : list N) : option (list N) :=
  match p, l with
  | [], _ => Some l
  | a :: p, b :: l => if (a =? b)%N then strip p l else None
  | _, [] => None
  end.

Fixpoint entity_of (es : list (string * N)) (l : list N) : option (N * list N) :=
  match es with
  | [] => None
  | (e, b) :: es => match strip (str_bytes e) l with Some l' => Some (b, l') | None => entity_of es l end
  end.

(** The character data an XML reader finds up to the next tag, and what it
    leaves; [None] for a reference that is not one. *)
Fixpoint read_text (fuel : nat) (l : list N) : option (list N * list N) :=
  match fuel, l with
  | _, [] => Some ([], [])
  | O, _ => None
  | S fuel, b :: l' =>
      if (b =? 60)%N then Some ([], l)
      else if (b =? 38)%N then
        '(c, l'') ← entity_of entities l; '(t, r) ← read_text fuel l''; Some (c :: t, r)
      else '(t, r) ← read_text fuel l'; Some (b :: t, r)
  end.

Lemma read_text_mono f f' l t r : (f <= f')%nat -> read_text f l = Some (t, r) -> read_text f' l = Some (t, r).
Proof.
  revert f' l t r. induction f as [|f IH]; intros f' l t r Hle.
  { destruct l; cbn; [|discriminate]. destruct f'; done. }
  destruct f' as [|f']; [lia|]. destruct l as [|b l]; cbn [read_text]; [done|].
  case_match; [done|]. case_match.
  - destruct (entity_of entities (b :: l)) as [[c l'']|]; cbn; [|done].
    destruct (read_text f l'') as [[t' r']|] eqn:E; [|done]. by rewrite (IH f' _ _ _ ltac:(lia) E).
  - destruct (read_text f l) as [[t' r']|] eqn:E; [|done]. by rewrite (IH f' _ _ _ ltac:(lia) E).
Qed.

Definition meta (b : N) : bool := bool_decide (b ∈ [38; 39; 60; 62; 34]%N).

Lemma escape_byte_cases b :
  (b < 256)%N ->
  (meta b = false /\ escape_byte b = [b]) \/
  (meta b = true /\ exists e, (e, b) ∈ entities /\ escape_byte b = str_bytes e).
Proof.
  intros Hb. unfold escape_byte, meta.
  repeat match goal with
         | |- context [(b =? ?k)%N] => destruct (N.eqb_spec b k); [subst; right; split; [done|]; eexists; split; [|done]; set_solver|]
         end.
  left. split; [apply bool_decide_eq_false; set_solver|].
  apply bytes_bytes_str. by constructor.
Qed.

Lemma entity_read e b rest :
  (e, b) ∈ entities -> entity_of entities (str_bytes e ++ rest) = Some (b, rest) /\ exists l, str_bytes e = 38%N :: l /\ Forall (fun x => x ≠ 60%N) l.
Proof.
  intros H. unfold entities in H.
  repeat (apply elem_of_cons in H as [[= -> ->]|H]; [split; [reflexivity|eexists; split; [reflexivity|repeat constructor; discriminate]]|]).
  by apply elem_of_nil in H.
Qed.

(** Reading the escaped text gives the text back, up to the tag that follows. *)
Lemma read_escaped l rest :
  Forall (fun b => (b < 256)%N) l -> (match rest with [] => True | b :: _ => b = 60%N end) ->
  forall f, (length l < f)%nat -> read_text f (escape_html l ++ rest) = Some (l, rest).
Proof.
  intros Hl Hrest. induction Hl as [|b l Hb _ IH]; intros f Hf.
  - destruct f as [|f]; [cbn in Hf; lia|]. destruct rest as [|c rest]; cbn; [done|]. by subst.
  - destruct f as [|f]; [cbn in Hf; lia|]. cbn [length] in Hf. specialize (IH f ltac:(lia)).
    unfold escape_html in *. cbn [map concat]. rewrite <- app_assoc.
    destruct (escape_byte_cases b Hb) as [[Hm ->]|[Hm (e & He & ->)]].
    + cbn [app read_text]. unfold meta in Hm. apply bool_decide_eq_false in Hm.
      rewrite !(proj2 (N.eqb_neq _ _)) by set_solver. by rewrite IH.
    + destruct (entity_read e b (concat (map escape_byte l) ++ rest) He) as [Hr (l' & Hl' & _)].
      rewrite Hl' in *. cbn [app read_text] in *. cbn [N.eqb]. change (38 =? 60)%N with false. change (38 =? 38)%N with true. cbv iota.
      rewrite Hr. cbn. by rewrite IH.
Qed.

Lemma keep_runes_subset f l b : b ∈ keep_runes f l -> b ∈ l.
Proof.
  revert l. induction f as [|f IH]; intros l H; [by apply elem_of_nil in H|].
  destruct l as [|a l]; [by apply elem_of_nil in H|]. cbn [keep_runes] in H. cbv zeta in H.
  rewrite <- (take_drop (rune_len (a :: l)) (a :: l)). apply elem_of_app. apply elem_of_app in H as [H|H]; [left|right; auto].
  case_match; [done|by apply elem_of_nil in H].
Qed.

Definition plain_char (b : N) : Prop := (b = 9 \/ b = 10 \/ b = 13 \/ 32 <= b)%N.

(** A kept rune holds no control character and is read as one again. *)
Lemma kept_rune l :
  l ≠ [] -> keep_rune (take (rune_len l) l) (rune_len l) = true ->
  take (rune_len l) l ≠ [] /\ Forall plain_char (take (rune_len l) l) /\ length (take (rune_len l) l) = rune_len l /\
  forall rest, rune_len (take (rune_len l) l ++ rest) = rune_len l.
Proof.
  intros Hl Hk. destruct (rune_len_cases l Hl) as [E|(n & Hn & E & Hlen & Hhi & Hrest)]; rewrite E in *.
  - destruct l as [|b l]; [done|]. cbn [take keep_rune] in *. apply andb_true_iff in Hk as [Hc Hb]. apply N.ltb_lt in Hb.
    split_and!; [done| |done|intros; by apply rune_len_ascii].
    apply Forall_singleton. unfold plain_char. apply orb_true_iff in Hc as [Hc|Hc]; [apply bool_decide_eq_true in Hc; set_solver|].
    apply N.leb_le in Hc. lia.
  - split_and!; [intros H0; apply (f_equal length) in H0; rewrite Hlen in H0; cbn in H0; lia| |done|done].
    eapply Forall_impl; [exact Hhi|]. intros b Hb. cbv beta in Hb. unfold plain_char. lia.
Qed.

Lemma keep_runes_plain f l : Forall plain_char (keep_runes f l).
Proof.
  revert l. induction f as [|f IH]; intros l; [apply Forall_nil_2|]. destruct l as [|b l]; [apply Forall_nil_2|].
  cbn [keep_runes]. cbv zeta. apply Forall_app. split; [|apply IH].
  destruct (keep_rune _ _) eqn:Hk; [|apply Forall_nil_2]. by apply kept_rune in Hk as (_ & ? & _).
Qed.

Lemma keep_runes_idem f g l : (length (keep_runes f l) <= g)%nat -> keep_runes g (keep_runes f l) = keep_runes f l.
Proof.
  revert g l. induction f as [|f IH]; intros g l Hg; [by destruct g|]. destruct l as [|b l]; [by destruct g|].
  cbn [keep_runes] in *. cbv zeta in *. set (n := rune_len (b :: l)) in *.
  destruct (keep_rune (take n (b :: l)) n) eqn:Hk; [|by apply IH].
  pose proof Hk as (Hne & _ & Hlen & Hrest)%kept_rune; [|done]. fold n in Hne, Hlen, Hrest.
  rewrite length_app in Hg. set (r := take n (b :: l)) in *. set (rest := keep_runes f (drop n (b :: l))) in *.
  destruct r as [|r0 r]; [done|]. destruct g as [|g]; [cbn in Hg; lia|]. cbn [app keep_runes length] in *. cbv zeta.
  rewrite Hrest. change (r0 :: r ++ rest) with ((r0 :: r) ++ rest).
  rewrite take_app_length', drop_app_length' by (symmetry; exact Hlen). rewrite Hk. unfold rest. by rewrite IH by (fold rest; lia).
Qed.

Lemma keep_runes_id_ascii f l : Forall (fun b => plain_char b /\ b < 128)%N l -> (length l <= f)%nat -> keep_runes f l = l.
Proof.
  intros Hl. revert f. induction Hl as [|b l [Hb Hlt] _ IH]; intros f Hf; [by destruct f|].
  destruct f as [|f]; [cbn in Hf; lia|]. cbn [keep_runes length] in *. cbv zeta. rewrite rune_len_ascii by done.
  cbn [take drop keep_rune]. rewrite (proj2 (N.ltb_lt _ _) Hlt), andb_true_r.
  replace (bool_decide (b ∈ [9; 10; 13]%N) || (32 <=? b)%N) with true; [cbn; by rewrite IH by lia|].
  symmetry. apply orb_true_iff. unfold plain_char in Hb. destruct Hb as [->|[->|[->|Hb]]]; [by left|by left|by left|].
  right. by apply N.leb_le.
Qed.

(** A spoken refusal is a document whose text, read back by an XML reader up to the
    next tag, is the consumer's text without what XML cannot carry: no control characters
    stay, sanitizing again changes nothing, and plain ASCII is kept as it is. *)
Theorem refusal_text_read_back (say : string) :
  exists body : list N,
    writeVoiceRefusal say = Doc ("<Response><Say>" +:+ bytes_str body +:+ "</Say><Hangup/></Response>") /\
    (forall fuel, (length (sanitize (str_bytes say)) < fuel)%nat ->
       read_text fuel (body ++ str_bytes "</Say><Hangup/></Response>") =
       Some (sanitize (str_bytes say), str_bytes "</Say><Hangup/></Response>")) /\
    Forall plain_char (sanitize (str_bytes say)) /\
    sanitize (sanitize (str_bytes say)) = sanitize (str_bytes say) /\
    (Forall (fun b => plain_char b /\ b < 128)%N (str_bytes say) -> sanitize (str_bytes say) = str_bytes say).
Proof.
  exists (escape_html (sanitize (str_bytes say))). split_and!.
  - reflexivity.
  - intros fuel Hf. apply read_escaped; [|reflexivity|done].
    apply List.Forall_forall. intros b Hb%list_elem_of_In. apply keep_runes_subset in Hb.
    pose proof (str_bytes_wf say) as Hw. rewrite Forall_forall in Hw. by apply Hw.
  - apply keep_runes_plain.
  - by apply keep_runes_idem.
  - intros H. by apply keep_runes_id_ascii.
Qed.

(** A genuine call the consumer rejects as busy: nobody is asked to answer it. *)
Definition ex_busy_server : Server :=
  mkServer "tok" "ws" true false false (Some (fun _ => true)) "no" "no" ""
    false (Some (fun _ _ => ("later", true))) (Some (fun _ _ => (RejectReasonBusy, true))).
Definition ex_busy_form : Values := {["From" := ["+15550001111"]; "CallSid" := ["CA1"]]}.
Definition ex_busy_request : request :=
  mkRequest (Some ex_busy_form) (ComputeSignature "tok" "http://h/twilio" ex_busy_form) "h" "/twilio".

Lemma stream_gate_witness :
  snd (ServeHTTP ex_busy_server ex_busy_request no_pending) = no_pending /\
  refused_by ex_busy_server ex_busy_request no_pending /\
  ServeHTTP ex_busy_server ex_busy_request no_pending =
    (Doc rejectBusyTwiML, [CAuthorize "+15550001111"; CReject "+15550001111" ""], no_pending).
Proof.
  assert (ServeHTTP ex_busy_server ex_busy_request no_pending =
    (Doc rejectBusyTwiML, [CAuthorize "+15550001111"; CReject "+15550001111" ""], no_pending)) as E
    by (vm_compute; reflexivity).
  pose proof (stream_gate ex_busy_server ex_busy_request no_pending) as Hg.
  revert E Hg. generalize ex_busy_request. intros rq E Hg. rewrite E. split; [done|]. split; [|done].
  destruct Hg as [(sid & from & to & _ & Hd)|(_ & _ & _ & [Hr|[_ Ht]])]; [exfalso|exact Hr|exfalso].
  - rewrite E in Hd. apply (f_equal (fun r => length (snd (fst r)))) in Hd. discriminate Hd.
  - rewrite E in Ht. apply (f_equal (fun r => length (snd (fst r)))) in Ht. discriminate Ht.
Defined.
