(* ===== verification/Json.v ===== *)
(** * Json: the documents the program reads and writes

    Go's [encoding/json] as the program uses it: the text of a value as
    [Marshal] writes it (object members in the order given, HTML characters
    escaped, invalid UTF-8 replaced), the reader behind [Unmarshal] with its
    nesting limit, and the lookup of a struct's fields, which prefers an exact
    name and falls back to one that differs in case only.

    Text is its bytes.  The readers recurse on fuel; [Unmarshal] gives enough of
    it (JsonThms.v). *)

From S2P Require Export GoStrings.

Local Open Scope N_scope.

(** A number is its literal. *)
Inductive json :=
| JNull
| JBool (b : bool)
| JNum (lit : string)
| JStr (s : string)
| JArr (elems : list json)
| JObj (members : list (string * json)).

(** ** Integers *)

Fixpoint decimal (fuel : nat) (n : N) : list N :=
  match fuel with
  | O => []
  | S fuel => (if n <? 10 then [] else decimal fuel (n / 10)) ++ [48 + n mod 10]
  end.

(** [strconv.Itoa]. *)
Definition Itoa (z : Z) : string :=
  bytes_str ((if (z <? 0)%Z then [45] else []) ++ decimal (S (N.size_nat (Z.abs_N z))) (Z.abs_N z)).

(** ** Writing *)

Definition hex_digit (n : N) : N := if n <? 10 then 48 + n else 87 + n.

(** [\u00XX]. *)
Definition u00 (b : N) : list N := [92; 117; 48; 48; hex_digit (b / 16); hex_digit (b mod 16)].

Definition quote_byte (b : N) : list N :=
  if (b =? 34) || (b =? 92) then [92; b]
  else if b =? 8 then [92; 98]
  else if b =? 9 then [92; 116]
  else if b =? 10 then [92; 110]
  else if b =? 12 then [92; 102]
  else if b =? 13 then [92; 114]
  else if (b <? 32) || (b =? 38) || (b =? 60) || (b =? 62) then u00 b
  else [b].

(** The rune of [n] bytes [l]; U+2028 and U+2029 are written [\u2028] and
    [\u2029], a byte that is not UTF-8 [\ufffd]. *)
Definition quote_rune (l : list N) (n : nat) : list N :=
  match n, l with
  | 1%nat, b :: _ => if b <? 128 then quote_byte b else str_bytes "\ufffd"
  | _, _ =>
      if bool_decide (l = [226; 128; 168]) then str_bytes "\u2028"
      else if bool_decide (l = [226; 128; 169]) then str_bytes "\u2029"
      else l
  end.

Fixpoint quote_chars (fuel : nat) (l : list N) : list N :=
  match fuel, l with
  | S fuel, _ :: _ => let n := rune_len l in quote_rune (take n l) n ++ quote_chars fuel (drop n l)
  | _, _ => []
  end.

Definition quote_string (s : string) : list N :=
  let l := str_bytes s in 34 :: quote_chars (length l) l ++ [34].

Definition comma_sep (ls : list (list N)) : list N :=
  match ls with [] => [] | l :: ls => l ++ concat (map (fun l => 44 :: l) ls) end.

(** [json.Marshal]. *)
Fixpoint Marshal (v : json) : list N :=
  match v with
  | JNull => str_bytes "null"
  | JBool b => str_bytes (if b then "true" else "false")
  | JNum lit => str_bytes lit
  | JStr s => quote_string s
  | JArr elems => 91 :: comma_sep (map Marshal elems) ++ [93]
  | JObj members => 123 :: comma_sep (map (fun m => quote_string (fst m) ++ 58 :: Marshal (snd m)) members) ++ [125]
  end.

(** ** Reading *)

Definition is_ws (b : N) : bool := (b =? 32) || (b =? 9) || (b =? 10) || (b =? 13).
Fixpoint skip_ws (l : list N) : list N :=
  match l with b :: l' => if is_ws b then skip_ws l' else l | [] => [] end.

Definition hex_val (b : N) : option N :=
  if between 48 57 b then Some (b - 48)
  else if between 97 102 b then Some (b - 87)
  else if between 65 70 b then Some (b - 55)
  else None.

(** Four hexadecimal digits. *)
Definition parse_u4 (l : list N) : option (N * list N) :=
  match l with
  | a :: b :: c :: d :: l =>
      a ← hex_val a; b ← hex_val b; c ← hex_val c; d ← hex_val d;
      Some (a * 4096 + b * 256 + c * 16 + d, l)
  | _ => None
  end.

(** [utf8.AppendRune]. *)
Definition encode_rune (r : N) : list N :=
  if r <? 0x80 then [r]
  else if r <? 0x800 then [0xC0 + r / 64; 0x80 + r mod 64]
  else if r <? 0x10000 then [0xE0 + r / 4096; 0x80 + r / 64 mod 64; 0x80 + r mod 64]
  else [0xF0 + r / 262144; 0x80 + r / 4096 mod 64; 0x80 + r / 64 mod 64; 0x80 + r mod 64].

Definition replacement : list N := [239; 191; 189].

(** What follows [\u]: half of a surrogate pair stands for U+FFFD, unless the
    other half follows. *)
Definition parse_unicode (l : list N) : option (list N * list N) :=
  '(r, l) ← parse_u4 l;
  if between 0xD800 0xDFFF r then
    match l with
    | 92 :: 117 :: l' =>
        '(r2, l'') ← parse_u4 l';
        if between 0xD800 0xDBFF r && between 0xDC00 0xDFFF r2
        then Some (encode_rune (0x10000 + (r - 0xD800) * 1024 + (r2 - 0xDC00)), l'')
        else Some (replacement, l)
    | _ => Some (replacement, l)
    end
  else Some (encode_rune r, l).

Definition parse_escape (l : list N) : option (list N * list N) :=
  match l with
  | [] => None
  | e :: l =>
      if (e =? 34) || (e =? 92) || (e =? 47) then Some ([e], l)
      else if e =? 98 then Some ([8], l)
      else if e =? 102 then Some ([12], l)
      else if e =? 110 then Some ([10], l)
      else if e =? 114 then Some ([13], l)
      else if e =? 116 then Some ([9], l)
      else if e =? 117 then parse_unicode l
      else None
  end.

(** The characters of a string up to its closing quote, and what follows. *)
Fixpoint parse_chars (fuel : nat) (l : list N) : option (list N * list N) :=
  match fuel, l with
  | S fuel, b :: l' =>
      if b =? 34 then Some ([], l')
      else if b =? 92 then
        '(c, l'') ← parse_escape l'; '(s, r) ← parse_chars fuel l''; Some (c ++ s, r)
      else if b <? 32 then None
      else
        let n := rune_len l in
        '(s, r) ← parse_chars fuel (drop n l);
        Some ((if (n =? 1)%nat && (128 <=? b) then replacement else take n l) ++ s, r)
  | _, _ => None
  end.

Definition parse_string (l : list N) : option (string * list N) :=
  '(s, r) ← parse_chars (S (length l)) l; Some (bytes_str s, r).

Definition digit (b : N) : bool := between 48 57 b.
Fixpoint take_digits (l : list N) : list N * list N :=
  match l with
  | b :: l' => if digit b then let '(d, r) := take_digits l' in (b :: d, r) else ([], l)
  | [] => ([], [])
  end.

(** One digit at least. *)
Definition digits1 (l : list N) : option (list N * list N) :=
  match take_digits l with ([], _) => None | dr => Some dr end.

Definition parse_int_part (l : list N) : option (list N * list N) :=
  match l with
  | b :: l' => if b =? 48 then Some ([b], l') else digits1 l
  | [] => None
  end.

Definition parse_frac (l : list N) : option (list N * list N) :=
  match l with
  | b :: l' => if b =? 46 then '(d, r) ← digits1 l'; Some (b :: d, r) else Some ([], l)
  | [] => Some ([], [])
  end.

Definition parse_exp (l : list N) : option (list N * list N) :=
  match l with
  | b :: l' =>
      if (b =? 101) || (b =? 69) then
        match l' with
        | c :: l'' =>
            if (c =? 43) || (c =? 45) then '(d, r) ← digits1 l''; Some (b :: c :: d, r)
            else '(d, r) ← digits1 l'; Some (b :: d, r)
        | [] => None
        end
      else Some ([], l)
  | [] => Some ([], [])
  end.

Definition parse_number (l : list N) : option (string * list N) :=
  let '(sign, l) := match l with b :: l' => if b =? 45 then ([b], l') else ([], l) | [] => ([], []) end in
  '(i, l) ← parse_int_part l; '(f, l) ← parse_frac l; '(e, l) ← parse_exp l;
  Some (bytes_str (sign ++ i ++ f ++ e), l).

Fixpoint strip_prefix (p l : list N) : option (list N) :=
  match p, l with
  | [], _ => Some l
  | a :: p, b :: l => if a =? b then strip_prefix p l else None
  | _, [] => None
  end.

Definition maxNestingDepth : N := 10000.

(** [depth] containers are open. *)
Fixpoint parse_value (fuel : nat) (depth : N) (l : list N) : option (json * list N) :=
  match fuel with
  | O => None
  | S fuel =>
      match skip_ws l with
      | [] => None
      | b :: l' =>
          if b =? 34 then '(s, r) ← parse_string l'; Some (JStr s, r)
          else if (b =? 123) || (b =? 91) then
            if maxNestingDepth <=? depth then None
            else
              match skip_ws l' with
              | c :: r =>
                  if c =? (if b =? 123 then 125 else 93) then Some (if b =? 123 then JObj [] else JArr [], r)
                  else if b =? 123 then '(ms, r) ← parse_members fuel (depth + 1) l'; Some (JObj ms, r)
                  else '(vs, r) ← parse_elems fuel (depth + 1) l'; Some (JArr vs, r)
              | [] => None
              end
          else
            match strip_prefix (str_bytes "null") (b :: l'), strip_prefix (str_bytes "true") (b :: l'), strip_prefix (str_bytes "false") (b :: l') with
            | Some r, _, _ => Some (JNull, r)
            | _, Some r, _ => Some (JBool true, r)
            | _, _, Some r => Some (JBool false, r)
            | _, _, _ => '(lit, r) ← parse_number (b :: l'); Some (JNum lit, r)
            end
      end
  end
with parse_elems (fuel : nat) (depth : N) (l : list N) : option (list json * list N) :=
  match fuel with
  | O => None
  | S fuel =>
      '(v, l) ← parse_value fuel depth l;
      match skip_ws l with
      | b :: l' =>
          if b =? 44 then '(vs, r) ← parse_elems fuel depth l'; Some (v :: vs, r)
          else if b =? 93 then Some ([v], l') else None
      | [] => None
      end
  end
with parse_members (fuel : nat) (depth : N) (l : list N) : option (list (string * json) * list N) :=
  match fuel with
  | O => None
  | S fuel =>
      match skip_ws l with
      | q :: l =>
          if q =? 34 then
            '(k, l) ← parse_string l;
            match skip_ws l with
            | c :: l =>
                if c =? 58 then
                  '(v, l) ← parse_value fuel depth l;
                  match skip_ws l with
                  | b :: l' =>
                      if b =? 44 then '(ms, r) ← parse_members fuel depth l'; Some ((k, v) :: ms, r)
                      else if b =? 125 then Some ([(k, v)], l') else None
                  | [] => None
                  end
                else None
            | [] => None
            end
          else None
      | [] => None
      end
  end.

Definition parse_fuel (l : list N) : nat := S (S (2 * length l)).

(** The value of a whole text. *)
Definition Unmarshal (l : list N) : option json :=
  '(v, r) ← parse_value (parse_fuel l) 0 l;
  if bool_decide (skip_ws r = []) then Some v else None.

(** ** Struct fields *)

(** The fold of a key as far as ASCII names can tell: U+017F folds to s, the
    Kelvin sign to k. *)
Fixpoint fold_bytes (l : list N) : list N :=
  match l with
  | 197 :: 191 :: l => 115 :: fold_bytes l
  | 226 :: 132 :: 170 :: l => 107 :: fold_bytes l
  | b :: l => (if between 65 90 b then b + 32 else b) :: fold_bytes l
  | [] => []
  end.

Definition fold_key (s : string) : list N := fold_bytes (str_bytes s).

(** The field of a struct with the fields [names] that [key] sets. *)
Definition field_of (names : list string) (key : string) : option string :=
  if bool_decide (key ∈ names) then Some key
  else List.find (fun n => bool_decide (fold_key n = fold_key key)) names.

(** Decoding an object into a struct: each member in turn updates the struct
    through [set], which fails when the value has the wrong type. *)
Definition decode_struct {A} (names : list string) (set : string -> json -> A -> option A) (v : json) (a : A) : option A :=
  match v with
  | JNull => Some a
  | JObj ms =>
      foldl (fun acc m =>
        a ← acc;
        match field_of names (fst m) with Some n => set n (snd m) a | None => Some a end) (Some a) ms
  | _ => None
  end.

(** Into a string and into an int: null leaves what was there. *)
Definition decode_string (v : json) (s : string) : option string :=
  match v with JNull => Some s | JStr s => Some s | _ => None end.
Definition decode_int (v : json) (n : Z) : option Z :=
  match v with JNull => Some n | JNum lit => Atoi lit | _ => None end.
