(* ===== verification/JsonThms.v ===== *)
(** * JsonThms: what is written is read back

    The readers never run out of the fuel [Unmarshal] gives them, and a value
    whose strings are UTF-8, whose numbers are JSON numbers and whose nesting is
    within the limit is read back as it was written. *)

From S2P Require Export Json.

Local Open Scope N_scope.

(** ** Strings *)

(** UTF-8 throughout. *)
Fixpoint utf8_from (fuel : nat) (l : list N) : bool :=
  match fuel, l with
  | S fuel, b :: _ => let n := rune_len l in (negb (n =? 1)%nat || (b <? 128)) && utf8_from fuel (drop n l)
  | _, _ => true
  end.
Definition Valid (s : string) : bool := utf8_from (length (str_bytes s)) (str_bytes s).

Lemma parse_u4_00 b rest : b < 256 -> parse_u4 (48 :: 48 :: hex_digit (b / 16) :: hex_digit (b mod 16) :: rest) = Some (b, rest).
Proof.
  intros Hb.
  assert (Hex : forall n, n < 16 -> hex_val (hex_digit n) = Some n).
  { intros n Hn. unfold hex_digit. destruct (N.ltb_spec n 10); unfold hex_val, between.
    - rewrite !(proj2 (N.leb_le _ _)) by lia. cbn. f_equal. lia.
    - rewrite (proj2 (N.leb_gt (87 + n) 57)) by lia. rewrite andb_false_r. rewrite !(proj2 (N.leb_le _ _)) by lia. cbn. f_equal. lia. }
  unfold parse_u4. change (hex_val 48) with (Some 0). cbn [mbind option_bind].
  rewrite !Hex by (apply N.mod_lt || apply N.Div0.div_lt_upper_bound; lia). cbn [mbind option_bind]. f_equal. f_equal.
  pose proof (N.div_mod b 16). lia.
Qed.

Lemma parse_escape_quoted b rest fuel :
  b < 128 -> (0 < fuel)%nat ->
  parse_chars fuel (quote_byte b ++ rest) = '(s, r) ← parse_chars (pred fuel) rest; Some (b :: s, r).
Proof.
  intros Hb Hf. destruct fuel as [|fuel]; [lia|]. cbn [pred]. unfold quote_byte.
  destruct ((b =? 34) || (b =? 92)) eqn:E.
  { cbn [app parse_chars]. change (92 =? 34) with false. change (92 =? 92) with true. cbn [parse_escape].
    assert (H : (b =? 34) || (b =? 92) || (b =? 47) = true) by (by rewrite E). rewrite H. done. }
  apply orb_false_iff in E as [E1 E2]. apply N.eqb_neq in E1, E2.
  repeat match goal with |- context [if b =? ?k then _ else _] => destruct (N.eqb_spec b k) as [->|]; [done|] end.
  destruct ((b <? 32) || (b =? 38) || (b =? 60) || (b =? 62)) eqn:E.
  { unfold u00. cbn [app parse_chars]. change (92 =? 34) with false. change (92 =? 92) with true. cbv iota. cbn [parse_escape].
    change ((117 =? 34) || (117 =? 92) || (117 =? 47)) with false. cbv iota.
    change (117 =? 98) with false. change (117 =? 102) with false. change (117 =? 110) with false. change (117 =? 114) with false.
    change (117 =? 116) with false. change (117 =? 117) with true. cbv iota.
    unfold parse_unicode. rewrite parse_u4_00 by lia. cbn [mbind option_bind].
    unfold between. rewrite (proj2 (N.leb_gt _ _)) by lia. cbn [andb]. unfold encode_rune. by rewrite (proj2 (N.ltb_lt _ _)) by lia. }
  repeat (apply orb_false_iff in E as [E ?]). apply N.ltb_ge in E.
  cbn [app parse_chars]. rewrite (proj2 (N.eqb_neq b 34)), (proj2 (N.eqb_neq b 92)), (proj2 (N.ltb_ge b 32)) by done.
  cbv zeta. rewrite rune_len_ascii by done. cbn [drop take Nat.eqb]. rewrite (proj2 (N.leb_gt 128 b)) by done. done.
Qed.

Lemma parse_chars_rune r n rest g :
  length r = n -> (2 <= n)%nat -> Forall (fun b => 128 <= b) r -> rune_len (r ++ rest) = n ->
  parse_chars (S g) (r ++ rest) = '(s, x) ← parse_chars g rest; Some (r ++ s, x).
Proof.
  intros Hlen Hn Hhi Hrune. destruct r as [|b r]; [cbn in Hlen; lia|]. apply Forall_cons in Hhi as [Hb _].
  cbn [app parse_chars]. rewrite (proj2 (N.eqb_neq b 34)), (proj2 (N.eqb_neq b 92)), (proj2 (N.ltb_ge b 32)) by lia.
  cbv zeta. change (b :: r ++ rest) with ((b :: r) ++ rest). rewrite Hrune.
  rewrite (proj2 (Nat.eqb_neq n 1)) by lia. cbn [andb].
  by rewrite take_app_length', drop_app_length' by done.
Qed.

Lemma parse_chars_quote_rune r n rest g :
  length r = n -> (2 <= n <= 4)%nat -> Forall (fun b => 128 <= b) r -> rune_len (r ++ rest) = n ->
  parse_chars (S g) (quote_rune r n ++ rest) = '(s, x) ← parse_chars g rest; Some (r ++ s, x).
Proof.
  intros Hlen Hn Hhi Hrune. unfold quote_rune. destruct n as [|[|n]]; [lia|lia|]. destruct r as [|b r]; [done|].
  case_bool_decide as E; [rewrite E; reflexivity|]. case_bool_decide as E'; [rewrite E'; reflexivity|].
  rewrite (parse_chars_rune _ (S (S n))) by (done || lia). done.
Qed.

Lemma parse_chars_quoted fuel l rest g :
  utf8_from fuel l = true -> (length l <= fuel)%nat -> (length l < g)%nat ->
  parse_chars g (quote_chars fuel l ++ 34 :: rest) = Some (l, rest).
Proof.
  revert l g. induction fuel as [|fuel IH]; intros l g Hv Hf Hg.
  { destruct l; [|cbn in Hf; lia]. destruct g; [lia|]. reflexivity. }
  destruct l as [|b l]; [destruct g; [lia|]; reflexivity|].
  cbn [quote_chars utf8_from] in *. cbv zeta in *. apply andb_true_iff in Hv as [Hb Hv].
  destruct g as [|g]; [lia|]. rewrite <- app_assoc.
  destruct (rune_len_cases (b :: l) ltac:(done)) as [E|(n & Hn & E & Hlen & Hhi & Hrest)]; rewrite E in *.
  - cbn [Nat.eqb negb orb] in Hb. apply N.ltb_lt in Hb. cbn [take drop quote_rune length] in *. rewrite drop_0 in *.
    rewrite (proj2 (N.ltb_lt b 128)) by done. rewrite parse_escape_quoted by (done || lia). cbn [pred].
    by rewrite IH by (done || lia).
  - rewrite (parse_chars_quote_rune _ n) by auto. cbn [length] in *.
    rewrite IH; [|done|rewrite length_drop; cbn; lia..]. cbn. by rewrite take_drop.
Qed.

Lemma length_quote_chars fuel l : (length l <= fuel)%nat -> (length l <= length (quote_chars fuel l))%nat.
Proof.
  revert l. induction fuel as [|fuel IH]; intros l Hf; [destruct l; cbn in *; lia|]. destruct l as [|b l]; [cbn; lia|].
  cbn [quote_chars]. cbv zeta. rewrite length_app.
  destruct (rune_len_cases (b :: l) ltac:(done)) as [E|(n & Hn & E & Hlen & _)]; rewrite E.
  - cbn [take drop length quote_rune] in *. rewrite drop_0. specialize (IH l ltac:(lia)).
    assert (1 <= length (if (b <? 128)%N then quote_byte b else str_bytes "\ufffd"))%nat; [|lia].
    case_match; [|cbn; lia]. unfold quote_byte, u00. repeat case_match; cbn; lia.
  - specialize (IH (drop n (b :: l))). rewrite length_drop in IH. cbn [length] in *.
    assert (n <= length (quote_rune (take n (b :: l)) n))%nat; [|lia].
    unfold quote_rune. destruct n as [|[|n]]; [lia|lia|].
    destruct (take _ _) eqn:Et; rewrite <- Et in *; repeat case_bool_decide; cbn [length str_bytes]; try lia;
      change (length (str_bytes "\u2028")) with 6%nat; change (length (str_bytes "\u2029")) with 6%nat; lia.
Qed.

Lemma parse_string_quoted s rest :
  Valid s = true -> parse_string (quote_chars (length (str_bytes s)) (str_bytes s) ++ 34 :: rest) = Some (s, rest).
Proof.
  intros Hv. unfold parse_string. rewrite parse_chars_quoted; [|done|done|].
  - cbn. by rewrite bytes_str_bytes.
  - rewrite length_app. pose proof (length_quote_chars (length (str_bytes s)) (str_bytes s) ltac:(done)). lia.
Qed.

(** ** Numbers *)

Definition number_ok (lit : string) : bool := bool_decide (parse_number (str_bytes lit) = Some (lit, [])).

(** Nothing of a number. *)
Definition num_end (rest : list N) : Prop :=
  match rest with [] => True | b :: _ => digit b = false /\ b ≠ 46 /\ b ≠ 101 /\ b ≠ 69 end.

Definition extends (p : list N -> option (list N * list N)) : Prop :=
  forall l d r rest, num_end rest -> p l = Some (d, r) -> p (l ++ rest) = Some (d, r ++ rest).

Lemma take_digits_app l d r rest : num_end rest -> take_digits l = (d, r) -> take_digits (l ++ rest) = (d, r ++ rest).
Proof.
  intros Hend. revert d r. induction l as [|b l IH]; intros d r; cbn.
  - intros [= <- <-]. destruct rest as [|b rest]; [done|]. destruct Hend as [Hd _]. cbn. by rewrite Hd.
  - destruct (digit b); [|by intros [= <- <-]].
    destruct (take_digits l) as [d' r'] eqn:E. intros [= <- <-]. by rewrite (IH _ _ eq_refl).
Qed.

Lemma digits1_app : extends digits1.
Proof.
  intros l d r rest Hend. unfold digits1. destruct (take_digits l) as [d' r'] eqn:E.
  rewrite (take_digits_app _ _ _ _ Hend E). destruct d'; [done|]. by intros [= <- <-].
Qed.

Lemma int_part_app : extends parse_int_part.
Proof.
  intros l d r rest Hend. destruct l as [|b l]; [done|]. cbn. destruct (b =? 48); [by intros [= <- <-]|].
  intros H. by apply (digits1_app (b :: l)).
Qed.

Lemma frac_app : extends parse_frac.
Proof.
  intros l d r rest Hend. destruct l as [|b l]; cbn.
  - intros [= <- <-]. destruct rest as [|b rest]; [done|]. destruct Hend as (_ & H & _). cbn. by rewrite (proj2 (N.eqb_neq _ _) H).
  - destruct (b =? 46); [|by intros [= <- <-]]. destruct (digits1 l) as [[d' r']|] eqn:E; [|done].
    rewrite (digits1_app _ _ _ _ Hend E). by intros [= <- <-].
Qed.

Lemma exp_app : extends parse_exp.
Proof.
  intros l d r rest Hend. destruct l as [|b l]; cbn.
  - intros [= <- <-]. destruct rest as [|b rest]; [done|]. destruct Hend as (_ & _ & H & H'). cbn.
    by rewrite (proj2 (N.eqb_neq _ _) H), (proj2 (N.eqb_neq _ _) H').
  - destruct ((b =? 101) || (b =? 69)); [|by intros [= <- <-]]. destruct l as [|c l]; [done|]. cbn [app].
    destruct ((c =? 43) || (c =? 45)).
    + destruct (digits1 l) as [[d' r']|] eqn:E; [|done]. rewrite (digits1_app _ _ _ _ Hend E). by intros [= <- <-].
    + destruct (digits1 (c :: l)) as [[d' r']|] eqn:E; [|done].
      change (c :: l ++ rest) with ((c :: l) ++ rest). rewrite (digits1_app _ _ _ _ Hend E). by intros [= <- <-].
Qed.

Lemma parse_number_app l lit r rest : num_end rest -> parse_number l = Some (lit, r) -> parse_number (l ++ rest) = Some (lit, r ++ rest).
Proof.
  intros Hend. unfold parse_number.
  set (sl := match l with b :: l' => if b =? 45 then ([b], l') else ([], l) | [] => ([], []) end).
  destruct sl as [s l1] eqn:E. subst sl.
  destruct (parse_int_part l1) as [[i l2]|] eqn:Ei; cbn [mbind option_bind]; [|done].
  assert (El : (match l ++ rest with b :: l' => if b =? 45 then ([b], l') else ([], l ++ rest) | [] => ([], []) end) = (s, l1 ++ rest)).
  { destruct l as [|b l]; [injection E as <- <-; discriminate|]. cbn [app]. destruct (b =? 45); by injection E as <- <-. }
  rewrite El, (int_part_app _ _ _ _ Hend Ei). cbn [mbind option_bind].
  destruct (parse_frac l2) as [[f l3]|] eqn:Ef; cbn [mbind option_bind]; [|done]. rewrite (frac_app _ _ _ _ Hend Ef). cbn [mbind option_bind].
  destruct (parse_exp l3) as [[e l4]|] eqn:Ee; cbn [mbind option_bind]; [|done]. rewrite (exp_app _ _ _ _ Hend Ee). cbn [mbind option_bind].
  by intros [= <- <-].
Qed.

Lemma parse_number_lit lit rest : number_ok lit = true -> num_end rest -> parse_number (str_bytes lit ++ rest) = Some (lit, rest).
Proof. intros H%bool_decide_eq_true Hend. by rewrite (parse_number_app _ _ _ _ Hend H). Qed.

(** A number opens with a digit or a minus sign. *)
Lemma number_head lit : number_ok lit = true -> exists b l, str_bytes lit = b :: l /\ (digit b = true \/ b = 45).
Proof.
  intros H%bool_decide_eq_true. destruct (str_bytes lit) as [|b l]; [discriminate|]. exists b, l. split; [done|].
  unfold parse_number in H. destruct (N.eqb_spec b 45); [by right|]. left.
  unfold parse_int_part in H. destruct (N.eqb_spec b 48) as [->|]; [done|].
  unfold digits1 in H. cbn [take_digits] in H. destruct (digit b); [done|discriminate].
Qed.

(** ** Values *)

Section json_induction.
Context (P : json -> Prop).
Context (Hnull : P JNull) (Hbool : forall b, P (JBool b)) (Hnum : forall lit, P (JNum lit)) (Hstr : forall s, P (JStr s)).
Context (Harr : forall vs, Forall P vs -> P (JArr vs)) (Hobj : forall ms, Forall (fun m => P (snd m)) ms -> P (JObj ms)).

Fixpoint json_nested_ind (v : json) : P v :=
  match v with
  | JNull => Hnull
  | JBool b => Hbool b
  | JNum lit => Hnum lit
  | JStr s => Hstr s
  | JArr vs => Harr vs ((fix go vs := match vs return Forall P vs with [] => List.Forall_nil _ | v :: vs => List.Forall_cons _ _ _ (json_nested_ind v) (go vs) end) vs)
  | JObj ms => Hobj ms ((fix go ms := match ms return Forall (fun m => P (snd m)) ms with [] => List.Forall_nil _ | m :: ms => List.Forall_cons _ _ _ (json_nested_ind (snd m)) (go ms) end) ms)
  end.
End json_induction.

(** What can be written and read back. *)
Fixpoint json_ok (v : json) : bool :=
  match v with
  | JNull | JBool _ => true
  | JNum lit => number_ok lit
  | JStr s => Valid s
  | JArr vs => forallb json_ok vs
  | JObj ms => forallb (fun m => Valid (fst m) && json_ok (snd m)) ms
  end.

Fixpoint height (v : json) : N :=
  match v with
  | JArr vs => 1 + foldr (fun v h => N.max (height v) h) 0 vs
  | JObj ms => 1 + foldr (fun m h => N.max (height (snd m)) h) 0 ms
  | _ => 0
  end.

Definition plain_head (l : list N) : Prop :=
  exists b l', l = b :: l' /\ is_ws b = false /\ b ≠ 93 /\ b ≠ 125.

Lemma Marshal_head v : json_ok v = true -> plain_head (Marshal v).
Proof.
  destruct v as [|b|lit|s|vs|ms]; intros Hok; try (eexists _, _; split; [reflexivity|done]).
  - destruct b; eexists _, _; (split; [reflexivity|done]).
  - destruct (number_head lit Hok) as (b & l & E & Hb). exists b, l. split; [done|].
    unfold is_ws, digit, between in *. destruct Hb as [Hb| ->]; [|done].
    apply andb_true_iff in Hb as [H1%N.leb_le H2%N.leb_le]. split_and!; [|lia..].
    rewrite !(proj2 (N.eqb_neq _ _)) by lia. done.
Qed.

Lemma skip_plain l rest : plain_head l -> skip_ws (l ++ rest) = l ++ rest.
Proof. intros (b & l' & -> & Hb & _). cbn. by rewrite Hb. Qed.

Definition reads (v : json) : Prop := forall f depth rest,
  (2 * length (Marshal v) + 1 <= f)%nat -> height v + depth <= maxNestingDepth -> num_end rest ->
  parse_value f depth (Marshal v ++ rest) = Some (v, rest).

Lemma parse_elems_read vs f depth rest :
  vs ≠ [] -> Forall (fun v => reads v /\ plain_head (Marshal v) /\ height v + depth <= maxNestingDepth) vs ->
  (2 * length (comma_sep (map Marshal vs)) + 2 <= f)%nat ->
  parse_elems f depth (comma_sep (map Marshal vs) ++ 93 :: rest) = Some (vs, rest).
Proof.
  intros Hne Hall. revert f. induction Hall as [|v vs (Hv & _ & Hh) Hvs IH]; intros f Hf; [done|].
  destruct f as [|f]; [lia|]. cbn [parse_elems map comma_sep] in *. rewrite length_app in Hf. rewrite <- app_assoc.
  destruct vs as [|v' vs].
  - cbn [concat map app]. rewrite Hv by (done || cbn in *; lia). cbn. done.
  - change (concat (map (fun l => 44 :: l) (map Marshal (v' :: vs))))
      with (44 :: comma_sep (map Marshal (v' :: vs))) in *.
    cbn [app]. rewrite Hv by (done || cbn [length] in *; lia).
    cbn [mbind option_bind skip_ws]. change (is_ws 44) with false. cbv iota. change (44 =? 44) with true. cbv iota.
    rewrite IH by (done || cbn [length] in *; lia). done.
Qed.

Definition member_text (m : string * json) : list N := quote_string (fst m) ++ 58 :: Marshal (snd m).

Lemma parse_members_read ms f depth rest :
  ms ≠ [] -> Forall (fun m => Valid (fst m) = true /\ reads (snd m) /\ height (snd m) + depth <= maxNestingDepth) ms ->
  (2 * length (comma_sep (map member_text ms)) + 2 <= f)%nat ->
  parse_members f depth (comma_sep (map member_text ms) ++ 125 :: rest) = Some (ms, rest).
Proof.
  intros Hne Hall. revert f. induction Hall as [|[k v] ms (Hk & Hv & Hh) Hms IH]; intros f Hf; [done|].
  destruct f as [|f]; [lia|]. cbn [parse_members map comma_sep fst snd] in *. rewrite length_app in Hf. rewrite <- app_assoc.
  unfold member_text at 1, quote_string. cbn [fst snd app skip_ws]. change (is_ws 34) with false. cbv iota. change (34 =? 34) with true. cbv iota.
  rewrite <- !app_assoc. cbn [app]. rewrite parse_string_quoted by done. cbn [mbind option_bind skip_ws]. change (is_ws 58) with false. cbv iota.
  change (58 =? 58) with true. cbv iota.
  assert (Hlen : (2 * length (Marshal v) + 1 <= f)%nat).
  { unfold member_text in Hf. cbn [fst snd] in Hf. rewrite length_app in Hf. cbn [length] in Hf. lia. }
  destruct ms as [|m' ms].
  - cbn [concat map app]. rewrite Hv by done. done.
  - change (concat (map (fun l => 44 :: l) (map member_text (m' :: ms))))
      with (44 :: comma_sep (map member_text (m' :: ms))) in *.
    cbn [app]. rewrite Hv by done.
    cbn [mbind option_bind skip_ws]. change (is_ws 44) with false. cbv iota. change (44 =? 44) with true. cbv iota.
    rewrite IH by (done || cbn [length] in *; lia). done.
Qed.

Lemma foldr_max_bound {A} (g : A -> N) (l : list A) bound x : foldr (fun v h => N.max (g v) h) 0 l <= bound -> x ∈ l -> g x <= bound.
Proof.
  induction l as [|a l IH]; intros Hb Hx; [by apply elem_of_nil in Hx|]. cbn in Hb.
  apply elem_of_cons in Hx as [->|Hx]; [lia|]. apply IH; [lia|done].
Qed.

Lemma comma_sep_head l ls rest : plain_head l -> plain_head (comma_sep (l :: ls) ++ rest).
Proof. intros (b & l' & -> & H). cbn. eexists _, _. split; [reflexivity|done]. Qed.

Lemma reads_literal (b : N) l v :
  Marshal v = b :: l -> (b =? 34) = false -> (b =? 123) = false -> (b =? 91) = false -> is_ws b = false ->
  (forall rest, num_end rest ->
     match strip_prefix (str_bytes "null") (b :: l ++ rest), strip_prefix (str_bytes "true") (b :: l ++ rest), strip_prefix (str_bytes "false") (b :: l ++ rest) with
     | Some r, _, _ => Some (JNull, r)
     | _, Some r, _ => Some (JBool true, r)
     | _, _, Some r => Some (JBool false, r)
     | _, _, _ => '(lit, r) ← parse_number (b :: l ++ rest); Some (JNum lit, r)
     end = Some (v, rest)) -> reads v.
Proof.
  intros E H1 H2 H3 Hw H f depth rest Hf _ Hend. rewrite E in *. destruct f as [|f]; [lia|].
  cbn [parse_value app skip_ws]. rewrite Hw, H1, H2, H3. cbn [orb]. by apply H.
Qed.

Lemma json_reads v : json_ok v = true -> reads v.
Proof.
  induction v as [|b|lit|s|vs IH|ms IH] using json_nested_ind; intros Hok.
  - by eapply (reads_literal 110).
  - destruct b; [by eapply (reads_literal 116)|by eapply (reads_literal 102)].
  - destruct (number_head lit Hok) as (b & l & E & Hb).
    assert (Hr : b = 45 \/ 48 <= b <= 57).
    { destruct Hb as [Hb|Hb]; [right|by left]. unfold digit, between in Hb. bool_lia. }
    eapply (reads_literal b l (JNum lit) E); [apply N.eqb_neq; lia..| |].
    { unfold is_ws. by rewrite !(proj2 (N.eqb_neq _ _)) by lia. }
    intros rest Hend. change (str_bytes "null") with [110; 117; 108; 108]. change (str_bytes "true") with [116; 114; 117; 101].
    change (str_bytes "false") with [102; 97; 108; 115; 101]. cbn [strip_prefix]. rewrite !(proj2 (N.eqb_neq _ b)) by lia.
    change (b :: l ++ rest) with ((b :: l) ++ rest). rewrite <- E. by rewrite parse_number_lit.
  - intros f depth rest Hf _ _. destruct f as [|f]; [lia|]. cbn [Marshal]. unfold quote_string.
    cbn [app parse_value skip_ws]. change (is_ws 34) with false. cbv iota. change (34 =? 34) with true. cbv iota.
    rewrite <- app_assoc. cbn [app]. by rewrite parse_string_quoted.
  - intros f depth rest Hf Hh _. destruct f as [|f]; [lia|]. cbn [Marshal height json_ok] in *.
    cbn [app parse_value skip_ws]. change (is_ws 91) with false. cbv iota. change (91 =? 34) with false. change (91 =? 123) with false.
    change (91 =? 91) with true. cbn [orb]. cbv iota. rewrite (proj2 (N.leb_gt _ _)) by lia.
    destruct vs as [|v vs]; [reflexivity|].
    assert (Hhead : plain_head (Marshal v)) by (apply Marshal_head; cbn in Hok; by apply andb_true_iff in Hok as [? _]).
    rewrite <- app_assoc. destruct (comma_sep_head _ (map Marshal vs) ([93] ++ rest) Hhead) as (b & l & E & Hw & H93 & _).
    cbn [map]. rewrite E. cbn [skip_ws]. rewrite Hw. rewrite (proj2 (N.eqb_neq b 93)) by done. rewrite <- E.
    change (Marshal v :: map Marshal vs) with (map Marshal (v :: vs)). cbn [length] in Hf. rewrite length_app in Hf. cbn [length] in Hf.
    cbn [app]. rewrite parse_elems_read; [done|done| |lia].
    rewrite Forall_forall in IH |- *. intros x Hx. rewrite forallb_forall in Hok. specialize (Hok x (proj1 (list_elem_of_In _ _) Hx)).
    split_and!; [by apply IH|by apply Marshal_head|].
    pose proof (foldr_max_bound height (v :: vs) (maxNestingDepth - 1 - depth) x ltac:(lia) Hx). lia.
  - intros f depth rest Hf Hh _. destruct f as [|f]; [lia|]. cbn [Marshal height json_ok] in *.
    change (map (fun m : string * json => quote_string (fst m) ++ 58 :: Marshal (snd m)) ms) with (map member_text ms) in *.
    cbn [app parse_value skip_ws]. change (is_ws 123) with false. cbv iota. change (123 =? 34) with false. change (123 =? 123) with true.
    cbn [orb]. cbv iota. rewrite (proj2 (N.leb_gt _ _)) by lia.
    destruct ms as [|m ms]; [reflexivity|].
    assert (Hhead : plain_head (member_text m)) by (unfold member_text, quote_string; eexists _, _; split; [reflexivity|done]).
    rewrite <- app_assoc. destruct (comma_sep_head _ (map member_text ms) ([125] ++ rest) Hhead) as (b & l & E & Hw & _ & H125).
    cbn [map]. rewrite E. cbn [skip_ws]. rewrite Hw. rewrite (proj2 (N.eqb_neq b 125)) by done. rewrite <- E.
    change (member_text m :: map member_text ms) with (map member_text (m :: ms)). cbn [length] in Hf. rewrite length_app in Hf. cbn [length] in Hf.
    cbn [app]. rewrite parse_members_read; [done|done| |lia].
    rewrite Forall_forall in IH |- *. intros x Hx. rewrite forallb_forall in Hok. specialize (Hok x (proj1 (list_elem_of_In _ _) Hx)).
    apply andb_true_iff in Hok as [Hk Hok]. split_and!; [done|by apply IH|].
    pose proof (foldr_max_bound (fun m => height (snd m)) (m :: ms) (maxNestingDepth - 1 - depth) x ltac:(lia) Hx). cbn beta in *. lia.
Qed.

Lemma Unmarshal_Marshal v : json_ok v = true -> height v <= maxNestingDepth -> Unmarshal (Marshal v) = Some v.
Proof.
  intros Hok Hh. unfold Unmarshal, parse_fuel.
  assert (H : parse_value (S (S (2 * length (Marshal v)))) 0 (Marshal v ++ []) = Some (v, [])).
  { apply (json_reads v Hok); [lia|lia|done]. }
  rewrite app_nil_r in H. by rewrite H.
Qed.

(** ** The fuel is enough

    Each reader leaves less than it was given, so more fuel than [Unmarshal]
    provides changes nothing. *)

Lemma skip_ws_length l : (length (skip_ws l) <= length l)%nat.
Proof. induction l as [|b l IH]; cbn; [done|]. case_match; cbn; lia. Qed.

Lemma parse_u4_length l n r : parse_u4 l = Some (n, r) -> (length r < length l)%nat.
Proof.
  unfold parse_u4. destruct l as [|a [|b [|c [|d l]]]]; try done.
  destruct (hex_val a); [|done]. destruct (hex_val b); [|done]. destruct (hex_val c); [|done]. destruct (hex_val d); [|done].
  cbn. intros [= <- <-]. lia.
Qed.

Lemma parse_unicode_length l s r : parse_unicode l = Some (s, r) -> (length r < length l)%nat.
Proof.
  unfold parse_unicode. destruct (parse_u4 l) as [[n l1]|] eqn:E; [|done]. apply parse_u4_length in E. cbn [mbind option_bind].
  destruct (between _ _ n); [|by intros [= <- <-]].
  assert (Hd : forall a (o : option (list N * list N)), (forall s' r', o = Some (s', r') -> (length r' < length l)%nat) ->
    (match a with true => o | false => Some (replacement, l1) end) = Some (s, r) -> (length r < length l)%nat).
  { intros [] o Ho; [apply Ho|by intros [= <- <-]]. }
  intros H. destruct l1 as [|x [|y l2]]; cbn in H.
  1,2: repeat case_match; simplify_eq; done.
  destruct (parse_u4 l2) as [[n2 l3]|] eqn:E2; [apply parse_u4_length in E2|]; cbn [mbind option_bind] in H;
    repeat case_match; simplify_eq; cbn in *; lia.
Qed.

Lemma parse_escape_length l s r : parse_escape l = Some (s, r) -> (length r < length l)%nat.
Proof.
  destruct l as [|e l]; [done|]. unfold parse_escape. repeat (case_match; [intros [= <- <-]; cbn; lia|]).
  case_match; [|done]. intros Hu%parse_unicode_length. cbn. lia.
Qed.

Lemma rune_len_pos b l : (1 <= rune_len (b :: l))%nat.
Proof. destruct (rune_len_cases (b :: l) ltac:(done)) as [->|(n & ? & -> & _)]; lia. Qed.

Lemma parse_chars_length f l s r : parse_chars f l = Some (s, r) -> (length r < length l)%nat.
Proof.
  revert l s r. induction f as [|f IH]; intros l s r; [done|]. destruct l as [|b l]; [done|]. cbn [parse_chars].
  case_match; [intros [= <- <-]; cbn; lia|]. case_match.
  - destruct (parse_escape l) as [[c l1]|] eqn:E; [|done]. apply parse_escape_length in E. cbn.
    destruct (parse_chars f l1) as [[s1 r1]|] eqn:E1; [|done]. apply IH in E1. cbn. intros [= <- <-]. lia.
  - case_match; [done|]. cbv zeta. pose proof (rune_len_pos b l).
    destruct (parse_chars f _) as [[s1 r1]|] eqn:E1; [|done]. apply IH in E1. rewrite length_drop in E1. cbn in *. intros [= <- <-]. lia.
Qed.

Lemma parse_chars_fuel f g l : (length l < f)%nat -> (length l < g)%nat -> parse_chars f l = parse_chars g l.
Proof.
  revert g l. induction f as [|f IH]; intros g l Hf Hg; [lia|]. destruct g as [|g]; [lia|]. destruct l as [|b l]; [done|].
  cbn [parse_chars length] in *. case_match; [done|]. case_match.
  - destruct (parse_escape l) as [[c l1]|] eqn:E; [|done]. apply parse_escape_length in E. cbn. by rewrite (IH g) by lia.
  - case_match; [done|]. cbv zeta. pose proof (rune_len_pos b l). rewrite (IH g); [done|rewrite length_drop; cbn [length]; lia..].
Qed.

Lemma parse_string_length l s r : parse_string l = Some (s, r) -> (length r < length l)%nat.
Proof.
  unfold parse_string. destruct (parse_chars _ l) as [[c r1]|] eqn:E; [|done]. apply parse_chars_length in E. cbn. by intros [= <- <-].
Qed.

Lemma take_digits_split l d r : take_digits l = (d, r) -> l = d ++ r.
Proof.
  revert d r. induction l as [|b l IH]; intros d r; cbn; [by intros [= <- <-]|].
  destruct (digit b); [|by intros [= <- <-]]. destruct (take_digits l) as [d' r']. intros [= <- <-]. cbn. by rewrite (IH _ _ eq_refl).
Qed.

Lemma digits1_length l d r : digits1 l = Some (d, r) -> (length r < length l)%nat.
Proof.
  unfold digits1. destruct (take_digits l) as [d' r'] eqn:E. apply take_digits_split in E as ->.
  destruct d' as [|b d']; [done|]. intros [= <- <-]. rewrite length_app. cbn. lia.
Qed.

Lemma parse_number_length l lit r : parse_number l = Some (lit, r) -> (length r < length l)%nat.
Proof.
  unfold parse_number.
  set (sl := match l with b :: l' => if b =? 45 then ([b], l') else ([], l) | [] => ([], []) end).
  assert (Hs : (length (snd sl) <= length l)%nat) by (subst sl; destruct l as [|b l]; [done|]; case_match; cbn; lia).
  destruct sl as [s l1]. cbn [snd] in Hs.
  destruct (parse_int_part l1) as [[i l2]|] eqn:Ei; [|done].
  assert (Hi : (length l2 < length l1)%nat).
  { destruct l1 as [|b l1]; [done|]. cbn in Ei. case_match; [injection Ei as <- <-; cbn; lia|]. by apply digits1_length in Ei. }
  cbn [mbind option_bind]. destruct (parse_frac l2) as [[f l3]|] eqn:Ef; [|done].
  assert (Hfr : (length l3 <= length l2)%nat).
  { destruct l2 as [|b l2]; [injection Ef as <- <-; done|]. cbn in Ef. case_match; [|injection Ef as <- <-; done].
    destruct (digits1 l2) as [[d r']|] eqn:E; [|done]. apply digits1_length in E. injection Ef as <- <-. cbn. lia. }
  cbn [mbind option_bind]. destruct (parse_exp l3) as [[e l4]|] eqn:Ee; [|done].
  assert (Hex : (length l4 <= length l3)%nat).
  { destruct l3 as [|b l3]; [injection Ee as <- <-; done|]. cbn in Ee. case_match; [|injection Ee as <- <-; done].
    destruct l3 as [|c l3]; [done|].
    case_match; (destruct (digits1 _) as [[d r']|] eqn:E; [|done]); apply digits1_length in E; injection Ee as <- <-; cbn in *; lia. }
  cbn [mbind option_bind]. intros [= <- <-]. lia.
Qed.

Definition shrinks {A} (o : option (A * list N)) (l : list N) : Prop := forall v r, o = Some (v, r) -> (length r < length l)%nat.

Lemma strip_prefix_length p l r : strip_prefix p l = Some r -> (length l = length p + length r)%nat.
Proof.
  revert l. induction p as [|a p IH]; intros l; cbn; [by intros [= <-]|]. destruct l as [|b l]; [done|]. case_match; [|done].
  intros Hr%IH. cbn [length]. lia.
Qed.

Lemma literal_shrinks l : l ≠ [] ->
  shrinks (match strip_prefix (str_bytes "null") l, strip_prefix (str_bytes "true") l, strip_prefix (str_bytes "false") l with
           | Some r, _, _ => Some (JNull, r)
           | _, Some r, _ => Some (JBool true, r)
           | _, _, Some r => Some (JBool false, r)
           | _, _, _ => '(lit, r) ← parse_number l; Some (JNum lit, r)
           end) l.
Proof.
  intros Hl v r. destruct (strip_prefix (str_bytes "null") l) eqn:E1; [apply strip_prefix_length in E1; change (length (str_bytes "null")) with 4%nat in E1; intros [= <- <-]; lia|].
  destruct (strip_prefix (str_bytes "true") l) eqn:E2; [apply strip_prefix_length in E2; change (length (str_bytes "true")) with 4%nat in E2; intros [= <- <-]; lia|].
  destruct (strip_prefix (str_bytes "false") l) eqn:E3; [apply strip_prefix_length in E3; change (length (str_bytes "false")) with 5%nat in E3; intros [= <- <-]; lia|].
  destruct (parse_number l) as [[lit r']|] eqn:E; [|done]. apply parse_number_length in E. by intros [= <- <-].
Qed.

Lemma readers_shrink f :
  (forall d l, shrinks (parse_value f d l) l) /\ (forall d l, shrinks (parse_elems f d l) l) /\ (forall d l, shrinks (parse_members f d l) l).
Proof.
  induction f as [|f (IHv & IHe & IHm)]; [by split_and!|]. split_and!; intros d l v r; cbn [parse_value parse_elems parse_members].
  - pose proof (skip_ws_length l) as Hws. destruct (skip_ws l) as [|b l'] eqn:El; [done|]. cbn [length] in Hws.
    destruct (b =? 34).
    { destruct (parse_string l') as [[s r']|] eqn:E; [|done]. apply parse_string_length in E. intros [= <- <-]. lia. }
    destruct ((b =? 123) || (b =? 91)).
    2: { intros H%(literal_shrinks (b :: l')); [|done]. cbn in H. lia. }
    case_match; [done|]. pose proof (skip_ws_length l') as Hws'. destruct (skip_ws l') as [|c l'']; [done|]. cbn [length] in Hws'.
    case_match; [intros [= <- <-]; lia|]. destruct (b =? 123).
    + destruct (parse_members f (d + 1) l') as [[ms r']|] eqn:E; [|done]. apply IHm in E. intros [= <- <-]. lia.
    + destruct (parse_elems f (d + 1) l') as [[ms r']|] eqn:E; [|done]. apply IHe in E. intros [= <- <-]. lia.
  - destruct (parse_value f d l) as [[v1 l1]|] eqn:E; [|done]. apply IHv in E. cbn [mbind option_bind].
    pose proof (skip_ws_length l1). destruct (skip_ws l1) as [|b l2]; [done|]. cbn [length] in *. case_match; [|case_match; [intros [= <- <-]; lia|done]].
    destruct (parse_elems f d l2) as [[vs r']|] eqn:E2; [|done]. apply IHe in E2. intros [= <- <-]. lia.
  - pose proof (skip_ws_length l). destruct (skip_ws l) as [|q l1]; [done|]. cbn [length] in *. case_match; [|done].
    destruct (parse_string l1) as [[k l2]|] eqn:E1; [|done]. apply parse_string_length in E1. cbn [mbind option_bind].
    pose proof (skip_ws_length l2). destruct (skip_ws l2) as [|c l3]; [done|]. cbn [length] in *. case_match; [|done].
    destruct (parse_value f d l3) as [[v1 l4]|] eqn:E; [|done]. apply IHv in E. cbn [mbind option_bind].
    pose proof (skip_ws_length l4). destruct (skip_ws l4) as [|b l5]; [done|]. cbn [length] in *. case_match; [|case_match; [intros [= <- <-]; lia|done]].
    destruct (parse_members f d l5) as [[vs r']|] eqn:E2; [|done]. apply IHm in E2. intros [= <- <-]. lia.
Qed.

Lemma readers_fuel f : forall g d l,
  ((2 * length l < f)%nat -> (2 * length l < g)%nat -> parse_value f d l = parse_value g d l) /\
  ((2 * length l + 1 < f)%nat -> (2 * length l + 1 < g)%nat -> parse_elems f d l = parse_elems g d l) /\
  ((2 * length l + 1 < f)%nat -> (2 * length l + 1 < g)%nat -> parse_members f d l = parse_members g d l).
Proof.
  induction f as [|f IH]; intros g d l; [split_and!; lia|].
  split_and!; intros Hf Hg; (destruct g as [|g]; [lia|]); cbn [parse_value parse_elems parse_members].
  - pose proof (skip_ws_length l). destruct (skip_ws l) as [|b l']; [done|]. cbn [length] in *.
    case_match; [done|]. case_match; [|done]. case_match; [done|]. destruct (skip_ws l') as [|c l'']; [done|].
    case_match; [done|]. destruct (IH g (d + 1) l') as (_ & He & Hm). rewrite He, Hm by lia. done.
  - destruct (IH g d l) as (Hv & _ & _). rewrite Hv by lia.
    destruct (parse_value g d l) as [[v1 l1]|] eqn:E; [|done]. apply (proj1 (readers_shrink g)) in E. cbn [mbind option_bind].
    pose proof (skip_ws_length l1). destruct (skip_ws l1) as [|b l2]; [done|]. cbn [length] in *. case_match; [|done].
    destruct (IH g d l2) as (_ & He & _). by rewrite He by lia.
  - pose proof (skip_ws_length l). destruct (skip_ws l) as [|q l1]; [done|]. cbn [length] in *. case_match; [|done].
    destruct (parse_string l1) as [[k l2]|] eqn:E1; [|done]. apply parse_string_length in E1. cbn [mbind option_bind].
    pose proof (skip_ws_length l2). destruct (skip_ws l2) as [|c l3]; [done|]. cbn [length] in *. case_match; [|done].
    destruct (IH g d l3) as (Hv & _ & _). rewrite Hv by lia.
    destruct (parse_value g d l3) as [[v1 l4]|] eqn:E; [|done]. apply (proj1 (readers_shrink g)) in E. cbn [mbind option_bind].
    pose proof (skip_ws_length l4). destruct (skip_ws l4) as [|b l5]; [done|]. cbn [length] in *. case_match; [|done].
    destruct (IH g d l5) as (_ & _ & Hm). by rewrite Hm by lia.
Qed.

(** More fuel than [Unmarshal] gives changes nothing. *)
Lemma Unmarshal_fuel l f : (parse_fuel l <= f)%nat -> parse_value f 0 l = parse_value (parse_fuel l) 0 l.
Proof. unfold parse_fuel. intros. apply readers_fuel; lia. Qed.

(** ** Integers *)

Lemma decimal_digits fuel n : n < 2 ^ N.of_nat fuel -> (0 < fuel)%nat ->
  decimal fuel n ≠ [] /\ Forall (fun b => digit b = true) (decimal fuel n) /\
  forall acc l, digits (decimal fuel n ++ l) acc = digits l (acc * 10 ^ Z.of_nat (length (decimal fuel n)) + Z.of_N n).
Proof.
  revert n. induction fuel as [|fuel IH]; intros n Hn Hf; [lia|]. cbn [decimal].
  assert (Hd : forall l acc, digits ((48 + n mod 10) :: l) acc = digits l (10 * acc + Z.of_N (n mod 10))).
  { intros l acc. cbn [digits]. pose proof (N.mod_lt n 10 ltac:(lia)) as Hm. unfold between.
    set (m := n mod 10) in *. clearbody m. rewrite (proj2 (N.leb_le 48 _)), (proj2 (N.leb_le _ 57)) by lia. cbn [andb]. rewrite N2Z.inj_add. f_equal. lia. }
  assert (Hdig : digit (48 + n mod 10) = true).
  { pose proof (N.mod_lt n 10 ltac:(lia)) as Hm. unfold digit, between. set (m := n mod 10) in *. clearbody m. by rewrite (proj2 (N.leb_le 48 _)), (proj2 (N.leb_le _ 57)) by lia. }
  destruct (N.ltb_spec n 10) as [Hlt|Hge].
  - cbn [app]. split_and!; [done|by constructor|]. intros acc l. rewrite Hd. cbn [length].
    rewrite N.mod_small by done. f_equal. lia.
  - assert (Hfuel : (0 < fuel)%nat).
    { destruct fuel; [|lia]. change (2 ^ N.of_nat 1) with 2 in Hn. lia. }
    assert (Hq : n / 10 < 2 ^ N.of_nat fuel).
    { apply N.Div0.div_lt_upper_bound. rewrite Nat2N.inj_succ, N.pow_succ_r' in Hn. lia. }
    destruct (IH _ Hq Hfuel) as (Hne & Hall & Heq). split_and!.
    + intros E. by apply app_eq_nil in E as [_ ?].
    + apply Forall_app. split; [done|by constructor].
    + intros acc l. rewrite <- app_assoc. rewrite Heq. cbn [app]. rewrite Hd. f_equal. rewrite length_app. cbn [length].
      rewrite Nat2Z.inj_add, Z.pow_add_r by lia. pose proof (N.div_mod n 10 ltac:(lia)). change (10 ^ Z.of_nat 1)%Z with 10%Z. lia.
Qed.

Lemma size_bound n : n < 2 ^ N.of_nat (S (N.size_nat n)).
Proof.
  rewrite Nat2N.inj_succ, N.pow_succ_r'. destruct n as [|p]; [done|]. cbn [N.size_nat].
  assert (H : N.pos p < 2 ^ N.of_nat (Pos.size_nat p)); [|lia].
  induction p as [p IH|p IH|]; cbn [Pos.size_nat]; rewrite ?Nat2N.inj_succ, ?N.pow_succ_r'; [lia|lia|done].
Qed.

Lemma Itoa_bytes z : str_bytes (Itoa z) = (if (z <? 0)%Z then [45] else []) ++ decimal (S (N.size_nat (Z.abs_N z))) (Z.abs_N z).
Proof.
  unfold Itoa. apply bytes_bytes_str. destruct (decimal_digits (S (N.size_nat (Z.abs_N z))) (Z.abs_N z) (size_bound _) ltac:(lia)) as (_ & Hall & _).
  apply Forall_app. split; [case_match; [by constructor|constructor]|].
  eapply Forall_impl; [exact Hall|]. intros b Hb. cbv beta in Hb. unfold digit, between in Hb. bool_lia.
Qed.

Lemma Atoi_Itoa z : (- 2 ^ 63 <= z < 2 ^ 63)%Z -> Atoi (Itoa z) = Some z.
Proof.
  intros Hz. unfold Atoi. rewrite Itoa_bytes.
  destruct (decimal_digits (S (N.size_nat (Z.abs_N z))) (Z.abs_N z) (size_bound _) ltac:(lia)) as (Hne & Hall & Heq).
  set (l := decimal _ _) in *. specialize (Heq 0%Z []). rewrite app_nil_r in Heq. cbn [digits] in Heq.
  destruct (Z.ltb_spec z 0) as [Hneg|Hpos]; cbn [app].
  - destruct l as [|b l]; [done|]. rewrite Heq. rewrite Z.mul_0_l, Z.add_0_l. rewrite N2Z.inj_abs_N, Z.abs_neq, Z.opp_involutive by lia.
    rewrite (proj2 (Z.leb_le _ _)), (proj2 (Z.ltb_lt _ _)) by lia. done.
  - destruct l as [|b l]; [done|]. apply Forall_cons in Hall as [Hb _].
    assert (Hsign : (match b :: l with 45 :: l => (true, l) | 43 :: l => (false, l) | l => (false, l) end) = (false, b :: l)).
    { unfold digit, between in Hb. apply andb_true_iff in Hb as [H1%N.leb_le H2%N.leb_le].
      destruct b as [|p]; [lia|]. do 6 (destruct p as [p|p|]; try done; try lia). }
    rewrite Hsign, Heq. rewrite Z.mul_0_l, Z.add_0_l. rewrite N2Z.inj_abs_N, Z.abs_eq by lia.
    rewrite (proj2 (Z.leb_le _ _)), (proj2 (Z.ltb_lt _ _)) by lia. done.
Qed.
