(* ===== verification/StreamWire.v ===== *)
(** * StreamWire: the frames of a Media Streams connection as text

    Models [DecodeFrame] and the encoders of [telephony/twilio/stream.go], and
    the two senders of [output.go].  A message is its bytes; a write to the
    connection succeeds or not, as the argument says. *)

From S2P Require Export Json Base64 Stream.
From S2P Require Session.
From S2P Require Export JsonThms.

(** ** Decoding *)

Record inbound := mkInbound {
  i_Event : string; i_StreamSID : string;
  i_Payload : string; i_Chunk : option json; i_Timestamp : string;
  i_MarkName : string; i_CallSID : string
}.
#[export] Instance inbound_eta : Eta inbound := fun i =>
  mkInbound (i_Event i) (i_StreamSID i) (i_Payload i) (i_Chunk i) (i_Timestamp i) (i_MarkName i) (i_CallSID i).
Definition inbound0 : inbound := mkInbound "" "" "" None "" "" "".

(** [json.RawMessage] keeps the value, null included. *)
Definition set_media (n : string) (v : json) (i : inbound) : option inbound :=
  if bool_decide (n = "payload") then s ← decode_string v (i_Payload i); Some (i <| i_Payload := s |>)
  else if bool_decide (n = "chunk") then Some (i <| i_Chunk := Some v |>)
  else s ← decode_string v (i_Timestamp i); Some (i <| i_Timestamp := s |>).

Definition set_mark (n : string) (v : json) (i : inbound) : option inbound :=
  s ← decode_string v (i_MarkName i); Some (i <| i_MarkName := s |>).

Definition set_start (n : string) (v : json) (i : inbound) : option inbound :=
  s ← decode_string v (i_CallSID i); Some (i <| i_CallSID := s |>).

Definition set_inbound (n : string) (v : json) (i : inbound) : option inbound :=
  if bool_decide (n = "event") then s ← decode_string v (i_Event i); Some (i <| i_Event := s |>)
  else if bool_decide (n = "streamSid") then s ← decode_string v (i_StreamSID i); Some (i <| i_StreamSID := s |>)
  else if bool_decide (n = "media") then decode_struct ["payload"; "chunk"; "timestamp"] set_media v i
  else if bool_decide (n = "mark") then decode_struct ["name"] set_mark v i
  else decode_struct ["callSid"] set_start v i.

Definition decode_inbound (v : json) : option inbound :=
  decode_struct ["event"; "streamSid"; "media"; "mark"; "start"] set_inbound v inbound0.

Definition parseChunk (raw : json) : option Z :=
  match decode_int raw 0 with
  | Some n => Some n
  | None => match decode_string raw "" with Some s => Atoi s | None => None end
  end.

Inductive decode_error := ErrDecode | ErrPayload | ErrChunk | ErrUnknownEvent (event : string).

(** The switch over the event. *)
Definition frame_of (i : inbound) : decode_error + Frame :=
  let f := blank_frame (i_Event i) <| f_StreamSID := i_StreamSID i |> in
  if bool_decide (i_Event i = EventMedia) then
    match DecodeString (i_Payload i) with
    | None => inl ErrPayload
    | Some payload =>
        let f := f <| f_Payload := payload |> <| f_EncodedPayload := i_Payload i |> in
        match match i_Chunk i with Some raw => parseChunk raw | None => Some 0%Z end with
        | None => inl ErrChunk
        | Some chunk => inr (f <| f_Chunk := chunk |> <| f_Timestamp := i_Timestamp i |>)
        end
    end
  else if bool_decide (i_Event i = EventMark) then inr (f <| f_MarkName := i_MarkName i |>)
  else if bool_decide (i_Event i = EventStart) then inr (f <| f_CallSID := i_CallSID i |>)
  else if bool_decide (i_Event i = EventStop) || bool_decide (i_Event i = EventClear) || bool_decide (i_Event i = EventConnected)
  then inr f
  else inl (ErrUnknownEvent (i_Event i)).

Definition DecodeFrame (raw : list N) : decode_error + Frame :=
  match v ← Unmarshal raw; decode_inbound v with
  | None => inl ErrDecode
  | Some i => frame_of i
  end.

(** ** Encoding

    [json.Marshal] of a struct of strings never fails. *)

Definition outboundBase (event : EventType) (streamSID : string) : list (string * json) :=
  [("event", JStr event); ("streamSid", JStr streamSID)].

Definition EncodeMediaB64 (streamSID payloadB64 : string) : list N :=
  Marshal (JObj (outboundBase EventMedia streamSID ++ [("media", JObj [("payload", JStr payloadB64)])])).

Definition EncodeMedia (streamSID : string) (payload : bytes) : list N := EncodeMediaB64 streamSID (EncodeToString true payload).

(** [int] arithmetic wraps. *)
Definition EncodeMediaWithMetadata (streamSID : string) (payload : bytes) (chunk seqNum : Z) : list N :=
  Marshal (JObj (outboundBase EventMedia streamSID ++
    [("sequenceNumber", JStr (Itoa seqNum));
     ("media", JObj [("track", JStr "inbound"); ("payload", JStr (EncodeToString true payload));
                     ("chunk", JStr (Itoa chunk)); ("timestamp", JStr (Itoa (wrap_s 64 (wrap_s 64 (chunk - 1) * 20))))])])).

Definition EncodeMark (streamSID name : string) : list N :=
  Marshal (JObj (outboundBase EventMark streamSID ++ [("mark", JObj [("name", JStr name)])])).

Definition EncodeClear (streamSID : string) : list N := Marshal (JObj (outboundBase EventClear streamSID)).

Definition EncodeStop (streamSID callSID accountSID : string) (seqNum : Z) : list N :=
  Marshal (JObj (outboundBase EventStop streamSID ++
    [("sequenceNumber", JStr (Itoa seqNum)); ("stop", JObj [("accountSid", JStr accountSID); ("callSid", JStr callSID)])])).

Definition mediaFormat : json :=
  JObj [("encoding", JStr "audio/x-mulaw"); ("sampleRate", JNum (Itoa 8000)); ("channels", JNum (Itoa 1))].

Definition EncodeStart (streamSID callSID accountSID : string) (seqNum : Z) : list N :=
  Marshal (JObj (outboundBase EventStart streamSID ++
    [("sequenceNumber", JStr (Itoa seqNum));
     ("start", JObj [("streamSid", JStr streamSID); ("accountSid", JStr accountSID); ("callSid", JStr callSID);
                     ("tracks", JArr [JStr "inbound"]); ("customParameters", JObj []); ("mediaFormat", mediaFormat)])])).

Definition EncodeConnected : list N :=
  Marshal (JObj [("event", JStr "connected"); ("protocol", JStr "Call"); ("version", JStr "1.0.0")]).

(** ** The outputs of a call (output.go) *)

Inductive out_effect := Written (msg : list N) | TapWriteOut (payload : bytes).

(** The payload is recorded whether or not the write went through. *)
Definition dataPlaneOutput_Send (streamSID : string) (payload : bytes) (write_ok : bool) : list out_effect * bool :=
  ([Written (EncodeMedia streamSID payload); TapWriteOut payload], write_ok).

Definition controlPlaneOutput_Send (streamSID : string) (msg : Session.ControlOutMessage) (write_ok : bool) : list out_effect * bool :=
  ([Written (match msg with
             | Session.ControlOutMark name => EncodeMark streamSID name
             | Session.ControlOutClear => EncodeClear streamSID
             end)], write_ok).

(** ** Theorems: a frame sent is the frame received

    Every message the encoders write decodes to the frame it was made from, and
    a decoded frame carries what its event allows and nothing else. *)

Local Open Scope N_scope.

(** ** Texts that are UTF-8 *)

Lemma utf8_ascii fuel l : Forall (fun b => b < 128) l -> utf8_from fuel l = true.
Proof.
  revert l. induction fuel as [|fuel IH]; intros l Hl; [done|]. destruct Hl as [|b l Hb Hl]; [done|].
  cbn [utf8_from]. cbv zeta. rewrite rune_len_ascii by done. rewrite (proj2 (N.ltb_lt _ _) Hb). cbn [drop]. rewrite drop_0. by rewrite IH.
Qed.

Lemma Valid_Itoa z : Valid (Itoa z) = true.
Proof.
  unfold Valid. rewrite Itoa_bytes. apply utf8_ascii.
  destruct (decimal_digits (S (N.size_nat (Z.abs_N z))) (Z.abs_N z) (size_bound _) ltac:(lia)) as (_ & Hall & _).
  apply Forall_app. split; [case_match; [by constructor|constructor]|].
  eapply Forall_impl; [exact Hall|]. intros b Hb. cbv beta in Hb. unfold digit, between in Hb. bool_lia.
Qed.

Definition ascii_string (s : string) : Prop := Forall (fun b => b < 128) (str_bytes s).

Lemma get_ascii n s c : ascii_string s -> String.get n s = Some c -> Ascii.N_of_ascii c < 128.
Proof.
  revert n. induction s as [|c' s IH]; intros n; [done|]. intros Hs. apply Forall_cons in Hs as [Hc Hs].
  destruct n as [|n]; cbn; [by intros [= ->]|]. by apply IH.
Qed.

Lemma ascii_cons c s : Ascii.N_of_ascii c < 128 -> ascii_string s -> ascii_string (String c s).
Proof. intros Hc Hs. by constructor. Qed.

Lemma b64_char_ascii i : Ascii.N_of_ascii (b64_char i) < 128.
Proof.
  unfold b64_char. destruct (String.get (Z.to_nat i) b64_alphabet) as [c|] eqn:E; [|done].
  apply get_ascii in E; [done|]. unfold ascii_string. apply Forall_forall. intros b Hb%list_elem_of_In.
  assert (H : forallb (fun b => b <? 128) (str_bytes b64_alphabet) = true) by (vm_compute; reflexivity).
  rewrite forallb_forall in H. by apply N.ltb_lt, H.
Qed.

Lemma EncodeToString_ascii l : ascii_string (EncodeToString true l).
Proof.
  revert l. fix IH 1. intros [|a [|b [|c l]]]; cbn [EncodeToString]; repeat apply ascii_cons;
    first [apply b64_char_ascii | apply IH | repeat constructor].
Qed.

Lemma Valid_ascii s : ascii_string s -> Valid s = true.
Proof. apply utf8_ascii. Qed.

(** ** Messages *)

Lemma DecodeFrame_message ms i :
  forallb (fun m => Valid (fst m) && json_ok (snd m)) ms = true -> height (JObj ms) <= maxNestingDepth ->
  decode_inbound (JObj ms) = Some i -> DecodeFrame (Marshal (JObj ms)) = frame_of i.
Proof. intros Hok Hh Hi. unfold DecodeFrame. rewrite Unmarshal_Marshal by done. cbn [mbind option_bind]. by rewrite Hi. Qed.

Ltac message :=
  eapply eq_trans; [apply DecodeFrame_message;
    [cbn [app outboundBase forallb fst snd json_ok mediaFormat]; rewrite ?Valid_Itoa, ?(Valid_ascii _ (EncodeToString_ascii _));
     repeat match goal with H : Valid _ = true |- _ => rewrite H end; reflexivity
    | vm_compute; discriminate
    | vm_compute; reflexivity]
  | unfold frame_of; cbn [i_Event i_StreamSID i_Payload i_Chunk i_Timestamp i_MarkName i_CallSID]].

(** [int] values. *)
Definition is_int (z : Z) : Prop := (- 2 ^ 63 <= z < 2 ^ 63)%Z.

(** C19: Every message the encoders write -- media, media with metadata, mark, clear, stop,
    start, connected -- decodes to the frame it was made from, for any UTF-8 identifiers and
    any payload. *)
Theorem frames_read_back (sid callSID accountSID name : string) (payload : bytes) (chunk seqNum : Z)
    (Hsid : Valid sid = true) (Hcall : Valid callSID = true) (Haccount : Valid accountSID = true) (Hname : Valid name = true)
    (Hpayload : wf_bytes payload) (Hchunk : is_int chunk) :
  DecodeFrame (EncodeMedia sid payload) =
    inr (blank_frame EventMedia <| f_StreamSID := sid |> <| f_Payload := payload |> <| f_EncodedPayload := EncodeToString true payload |>) /\
  DecodeFrame (EncodeMediaWithMetadata sid payload chunk seqNum) =
    inr (blank_frame EventMedia <| f_StreamSID := sid |> <| f_Payload := payload |> <| f_EncodedPayload := EncodeToString true payload |>
           <| f_Chunk := chunk |> <| f_Timestamp := Itoa (wrap_s 64 (wrap_s 64 (chunk - 1) * 20)) |>) /\
  DecodeFrame (EncodeMark sid name) = inr (blank_frame EventMark <| f_StreamSID := sid |> <| f_MarkName := name |>) /\
  DecodeFrame (EncodeClear sid) = inr (blank_frame EventClear <| f_StreamSID := sid |>) /\
  DecodeFrame (EncodeStop sid callSID accountSID seqNum) = inr (blank_frame EventStop <| f_StreamSID := sid |>) /\
  DecodeFrame (EncodeStart sid callSID accountSID seqNum) = inr (blank_frame EventStart <| f_StreamSID := sid |> <| f_CallSID := callSID |>) /\
  DecodeFrame EncodeConnected = inr (blank_frame EventConnected).
Proof.
  split_and!.
  - unfold EncodeMedia, EncodeMediaB64. assert (Hd := DecodeString_encode payload Hpayload). pose proof (Valid_ascii _ (EncodeToString_ascii payload)) as Hv.
    revert Hd Hv. generalize (EncodeToString true payload). intros e Hd Hv. message. rewrite Hd. reflexivity.
  - unfold EncodeMediaWithMetadata. assert (Hd := DecodeString_encode payload Hpayload). pose proof (Valid_ascii _ (EncodeToString_ascii payload)) as Hv.
    pose proof (Valid_Itoa chunk) as Hc. pose proof (Atoi_Itoa chunk Hchunk) as Ha. pose proof (Valid_Itoa seqNum) as Hs.
    pose proof (Valid_Itoa (wrap_s 64 (wrap_s 64 (chunk - 1) * 20))) as Ht.
    revert Hd Hv Hc Ha Hs Ht. generalize (EncodeToString true payload) (Itoa chunk) (Itoa seqNum) (Itoa (wrap_s 64 (wrap_s 64 (chunk - 1) * 20))).
    intros e c n t Hd Hv Hc Ha Hs Ht. message. rewrite Hd. unfold parseChunk. cbn [decode_int decode_string]. rewrite Ha. reflexivity.
  - unfold EncodeMark. message. reflexivity.
  - unfold EncodeClear. message. reflexivity.
  - unfold EncodeStop. pose proof (Valid_Itoa seqNum) as Hs. revert Hs. generalize (Itoa seqNum). intros n Hs. message. reflexivity.
  - unfold EncodeStart. pose proof (Valid_Itoa seqNum) as Hs. revert Hs. generalize (Itoa seqNum). intros n Hs. message. reflexivity.
  - vm_compute. reflexivity.
Qed.

Lemma frames_read_back_witness :
  DecodeFrame (EncodeMediaWithMetadata "MZ1" [127; 255; 0]%Z 2 3) =
    inr (blank_frame EventMedia <| f_StreamSID := "MZ1" |> <| f_Payload := [127; 255; 0]%Z |> <| f_EncodedPayload := "f/8A" |>
           <| f_Chunk := 2%Z |> <| f_Timestamp := "20" |>).
Proof.
  assert (Hp : wf_bytes [127; 255; 0]%Z) by (repeat constructor; lia).
  assert (Hc : is_int 2) by (unfold is_int; lia).
  pose proof (frames_read_back "MZ1" "CA1" "AC1" "m" [127; 255; 0]%Z 2 3 eq_refl eq_refl eq_refl eq_refl Hp Hc) as (_ & H & _). exact H.
Defined.

(** What a decoded frame carries: a known event, the fields of that event only,
    and a caller only by the server's hand. *)
Lemma decoded_frame_fields raw f :
  DecodeFrame raw = inr f ->
  f_Event f ∈ [EventStart; EventMedia; EventStop; EventMark; EventClear; EventConnected] /\
  f_From f = "" /\ f_To f = "" /\
  (f_Event f = EventMedia -> DecodeString (f_EncodedPayload f) = Some (f_Payload f)) /\
  (f_Event f ≠ EventMedia -> f_Payload f = [] /\ f_EncodedPayload f = "" /\ f_Chunk f = 0%Z /\ f_Timestamp f = "") /\
  (f_Event f ≠ EventMark -> f_MarkName f = "") /\ (f_Event f ≠ EventStart -> f_CallSID f = "").
Proof.
  unfold DecodeFrame. destruct (Unmarshal raw ≫= decode_inbound) as [i|]; [|done]. unfold frame_of.
  case_bool_decide as E; [|case_bool_decide as E1; [|case_bool_decide as E2; [|destruct (_ || _) eqn:E3; [|done]]]].
  - destruct (DecodeString (i_Payload i)) as [p|] eqn:Ep; [|done]. destruct (match i_Chunk i with Some raw0 => parseChunk raw0 | None => Some 0%Z end); [|done].
    intros [= <-]. cbn. rewrite E. repeat split; try done. set_solver.
  - intros [= <-]. cbn. rewrite E1. repeat split; try done. set_solver.
  - intros [= <-]. cbn. rewrite E2. repeat split; try done. set_solver.
  - intros [= <-]. cbn. apply orb_true_iff in E3 as [[E3|E3]%orb_true_iff|E3]; apply bool_decide_eq_true in E3; rewrite E3; repeat split; try done; set_solver.
Qed.
