(* ===== verification/ModelStream.v ===== *)
(** * ModelStream: a streamed chat completion

    Models the request path of [driver/driver.go]: the body of a request, the
    lines of the server-sent event stream and what they decode to, the
    accumulator that cuts speech segments, [streamChat] with its cancellation
    checks, and the classification of a failure.

    A context becomes done at some point of a run; [done_at] says before which of
    the run's checks.  The HTTP exchange gives an error or a body; what
    [bufio.Scanner] makes of the body is modelled. *)

From S2P Require Export Json.

Definition Second : Z := 1000000000.
Definition sendTimeout : Z := 300 * Second.
Definition minSegmentChars : nat := 30.

(** ** The request *)

Record Tier := mkTier {
  t_URL : string; t_Model : string; t_Reasoning : bool; t_MaxTokens : Z; t_APIKey : string; t_NoTools : bool; t_IncludeUsage : bool
}.

Local Open Scope N_scope.

(** [json.Compact] with HTML escaping, as a [json.RawMessage] is written. *)
Fixpoint compact (fuel : nat) (instr : bool) (l : list N) : list N :=
  match fuel, l with
  | S fuel, b :: l' =>
      if (b =? 38) || (b =? 60) || (b =? 62) then u00 b ++ compact fuel instr l'
      else if bool_decide (take 3 l = [226; 128; 168]) then str_bytes "\u2028" ++ compact fuel instr (drop 3 l)
      else if bool_decide (take 3 l = [226; 128; 169]) then str_bytes "\u2029" ++ compact fuel instr (drop 3 l)
      else if instr then
        if b =? 92 then match l' with c :: l'' => b :: c :: compact fuel true l'' | [] => [b] end
        else b :: compact fuel (negb (b =? 34)) l'
      else if is_ws b then compact fuel false l'
      else b :: compact fuel (b =? 34) l'
  | _, _ => []
  end.

(** A nil message is null; one that is not JSON cannot be written. *)
Definition raw_message (raw : option (list N)) : option (list N) :=
  match raw with
  | None => Some (str_bytes "null")
  | Some l => match Unmarshal l with Some _ => Some (compact (length l) false l) | None => None end
  end.

(** [json.Marshal (buildStreamPayload ep contextWindow)]: the keys of a map are
    written in order. *)
Definition buildStreamPayload (ep : Tier) (contextWindow : option (list N)) : option (list N) :=
  messages ← raw_message contextWindow;
  let field (k : string) (v : list N) := quote_string k ++ 58 :: v in
  Some (123 :: comma_sep (
    (if t_Reasoning ep then [] else [field "chat_template_kwargs" (Marshal (JObj [("enable_thinking", JBool false)]))]) ++
    [field "frequency_penalty" (Marshal (JNum "0.6")); field "max_tokens" (Marshal (JNum (Itoa (t_MaxTokens ep))));
     field "messages" messages; field "model" (Marshal (JStr (t_Model ep)));
     field "presence_penalty" (Marshal (JNum "0.3")); field "stream" (Marshal (JBool true))] ++
    (if t_IncludeUsage ep then [field "stream_options" (Marshal (JObj [("include_usage", JBool true)]))] else []) ++
    [field "temperature" (Marshal (JNum "0.7"))] ++
    (if t_NoTools ep then [field "tools" (Marshal (JArr []))] else [])) ++ [125]).

(** ** Errors *)

Inductive ctx_error := Canceled | DeadlineExceeded.
#[export] Instance ctx_error_eq_dec : EqDecision ctx_error.
Proof. solve_decision. Defined.

Inductive go_error :=
| EContext (e : ctx_error)
| EOther (name : string)
| EStatus (url : string) (status : Z) (body : list N)
| EUpstream (msg : string)
| EDecode (line : list N)
| ENoContent (finishReason : string)
| ECalling (url : string) (err : go_error)
| EReading (err : go_error)
| EContextDone (err ctxErr cause : go_error).
#[export] Instance go_error_eq_dec : EqDecision go_error.
Proof. solve_decision. Defined.

(** [errors.Is]. *)
Fixpoint Is (err target : go_error) : bool :=
  bool_decide (err = target) ||
  match err with
  | ECalling _ e | EReading e => Is e target
  | EContextDone e c d => Is e target || Is c target || Is d target
  | _ => false
  end.

(** [errors.As] for [*upstreamStatusError] and [*upstreamErrorPayload]. *)
Fixpoint as_status (err : go_error) : option Z :=
  match err with
  | EStatus _ status _ => Some status
  | ECalling _ e | EReading e => as_status e
  | EContextDone e c d => match as_status e with Some s => Some s | None => match as_status c with Some s => Some s | None => as_status d end end
  | _ => None
  end.
Fixpoint as_upstream (err : go_error) : bool :=
  match err with
  | EUpstream _ => true
  | ECalling _ e | EReading e => as_upstream e
  | EContextDone e c d => as_upstream e || as_upstream c || as_upstream d
  | _ => false
  end.

(** ** Chunks *)

Record sseUsage := mkUsage { PromptTokens : Z; CompletionTokens : Z }.

Record sseDelta := mkDelta {
  Content : string; ReasoningContent : string; Reasoning : string;
  d_finishReason : string; d_model : string; d_id : string; d_usage : option sseUsage
}.
#[export] Instance delta_eta : Eta sseDelta := fun d =>
  mkDelta (Content d) (ReasoningContent d) (Reasoning d) (d_finishReason d) (d_model d) (d_id d) (d_usage d).
Definition delta0 : sseDelta := mkDelta "" "" "" "" "" "" None.

Record sseChunk := mkChunk { k_ID : string; k_Model : string; k_Choices : list sseDelta; k_Usage : option sseUsage; k_Error : option string }.
#[export] Instance chunk_eta : Eta sseChunk := fun c => mkChunk (k_ID c) (k_Model c) (k_Choices c) (k_Usage c) (k_Error c).

(** Best effort: a value of another type changes nothing. *)
Definition chunkString (v : json) (s : string) : string := match v with JStr v => v | _ => s end.

Definition set_usage (n : string) (v : json) (u : sseUsage) : option sseUsage :=
  if bool_decide (n = "prompt_tokens") then z ← decode_int v (PromptTokens u); Some (mkUsage z (CompletionTokens u))
  else z ← decode_int v (CompletionTokens u); Some (mkUsage (PromptTokens u) z).

Definition chunkUsage (v : json) (u : option sseUsage) : option sseUsage :=
  match v with
  | JObj _ => match decode_struct ["prompt_tokens"; "completion_tokens"] set_usage v (mkUsage 0 0) with Some u => Some u | None => u end
  | _ => u
  end.

Definition set_delta (n : string) (v : json) (d : sseDelta) : option sseDelta :=
  if bool_decide (n = "content") then s ← decode_string v (Content d); Some (d <| Content := s |>)
  else if bool_decide (n = "reasoning_content") then s ← decode_string v (ReasoningContent d); Some (d <| ReasoningContent := s |>)
  else s ← decode_string v (Reasoning d); Some (d <| Reasoning := s |>).

Definition set_choice (n : string) (v : json) (d : sseDelta) : option sseDelta :=
  if bool_decide (n = "delta") then decode_struct ["content"; "reasoning_content"; "reasoning"] set_delta v d
  else s ← decode_string v (d_finishReason d); Some (d <| d_finishReason := s |>).

(** An array is decoded over the elements that are there. *)
Fixpoint decode_choices (vs : list json) (old : list sseDelta) : option (list sseDelta) :=
  match vs with
  | [] => Some []
  | v :: vs =>
      d ← decode_struct ["delta"; "finish_reason"] set_choice v (default delta0 (head old));
      ds ← decode_choices vs (tail old);
      Some (d :: ds)
  end.

Definition set_error (n : string) (v : json) (msg : string) : option string := decode_string v msg.

Definition set_chunk (n : string) (v : json) (c : sseChunk) : option sseChunk :=
  if bool_decide (n = "id") then Some (c <| k_ID ::= chunkString v |>)
  else if bool_decide (n = "model") then Some (c <| k_Model ::= chunkString v |>)
  else if bool_decide (n = "choices") then
    match v with
    | JNull => Some (c <| k_Choices := [] |>)
    | JArr vs => ds ← decode_choices vs (k_Choices c); Some (c <| k_Choices := ds |>)
    | _ => None
    end
  else if bool_decide (n = "usage") then Some (c <| k_Usage ::= chunkUsage v |>)
  else
    match v with
    | JNull => Some (c <| k_Error := None |>)
    | _ => msg ← decode_struct ["message"] set_error v (default "" (k_Error c)); Some (c <| k_Error := Some msg |>)
    end.

Definition decode_chunk (l : list N) : option sseChunk :=
  v ← Unmarshal l; decode_struct ["id"; "model"; "choices"; "usage"; "error"] set_chunk v (mkChunk "" "" [] None None).

Definition reasoningText (d : sseDelta) : string := if bool_decide (ReasoningContent d ≠ "") then ReasoningContent d else Reasoning d.

(** [inr None]: a line with nothing to apply. *)
Definition decodeSSELine (line : list N) : go_error + option sseDelta :=
  match strip_prefix (str_bytes "data: ") line with
  | None => inr None
  | Some sseData =>
      if bool_decide (sseData = str_bytes "[DONE]") then inr None
      else
        match decode_chunk sseData with
        | None => inl (EDecode line)
        | Some chunk =>
            match k_Error chunk with
            | Some msg => inl (EUpstream msg)
            | None =>
                let delta := default delta0 (head (k_Choices chunk)) in
                inr (Some (delta <| d_model := k_Model chunk |> <| d_id := k_ID chunk |> <| d_usage := k_Usage chunk |>))
            end
        end
  end.

(** ** Segments *)

Definition isSegmentDelimiter (b : N) : bool := (b =? 46) || (b =? 63) || (b =? 33) || (b =? 44) || (b =? 10).

(** [strings.TrimSpace text == ""]. *)
Definition blank (text : list N) : bool := bool_decide (TrimSpace (bytes_str text) = "").

Record segmentAccumulator := mkAcc { s_buf : list N; s_min : nat }.
Definition newSegmentAccumulator (min : nat) : segmentAccumulator := mkAcc [] min.

Definition seg_take (s : segmentAccumulator) : option (list N) * segmentAccumulator :=
  (if blank (s_buf s) then None else Some (s_buf s), mkAcc [] (s_min s)).

Definition seg_write (b : N) (s : segmentAccumulator) : option (list N) * segmentAccumulator :=
  let s := mkAcc (s_buf s ++ [b]) (s_min s) in
  if negb (isSegmentDelimiter b) || (length (s_buf s) <? s_min s)%nat then (None, s) else seg_take s.

Definition seg_flush (s : segmentAccumulator) : option (list N) * segmentAccumulator := seg_take s.

(** ** The context and the consumer *)

Record context := mkContext { done_at : option nat; ctx_err : ctx_error; ctx_cause : go_error }.

(** Checks of the context made so far, and segments handed to [onSegment]. *)
Record run_state := mkRun { checks : nat; segments : list (list N) }.

Definition is_done (ctx : context) (r : run_state) : bool :=
  match done_at ctx with Some n => (n <=? checks r)%nat | None => false end.
Definition checked (r : run_state) : run_state := mkRun (S (checks r)) (segments r).
Definition onSegment (seg : list N) (r : run_state) : run_state := mkRun (checks r) (segments r ++ [seg]).

(** The closure [emit] of [streamChat]. *)
Definition emit (ctx : context) (seg : list N) (r : run_state) : run_state :=
  if is_done ctx r then checked r else onSegment seg (checked r).

(** ** The state of a stream *)

Record streamState := mkStream {
  contentBuf : list N; reasoningBuf : list N; acc : segmentAccumulator; hasContent : bool; finishReason : string;
  chunks : nat; st_model : string; st_id : string; st_usage : option sseUsage
}.
#[export] Instance stream_eta : Eta streamState := fun s =>
  mkStream (contentBuf s) (reasoningBuf s) (acc s) (hasContent s) (finishReason s) (chunks s) (st_model s) (st_id s) (st_usage s).
Definition newStream : streamState := mkStream [] [] (newSegmentAccumulator minSegmentChars) false "" 0 "" "" None.

Definition write_byte (ctx : context) (sr : streamState * run_state) (b : N) : streamState * run_state :=
  let '(st, r) := sr in
  let '(seg, a) := seg_write b (acc st) in
  (st <| acc := a |>, match seg with Some seg => emit ctx seg r | None => r end).

(** What a delta does to the state before its text is cut. *)
Definition fold_delta (d : sseDelta) (st : streamState) : streamState :=
  mkStream (contentBuf st ++ str_bytes (Content d)) (reasoningBuf st ++ str_bytes (reasoningText d)) (acc st)
    (if bool_decide (Content d ≠ "") then true else hasContent st)
    (if bool_decide (d_finishReason d ≠ "") then d_finishReason d else finishReason st)
    (S (chunks st))
    (if bool_decide (st_model st = "") then d_model d else st_model st)
    (if bool_decide (st_id st = "") then d_id d else st_id st)
    (match d_usage d with Some u => Some u | None => st_usage st end).

Definition processSSELine (ctx : context) (line : list N) (st : streamState) (r : run_state) : go_error + streamState * run_state :=
  match decodeSSELine line with
  | inl e => inl e
  | inr None => inr (st, r)
  | inr (Some d) => inr (foldl (write_byte ctx) (fold_delta d st, r) (str_bytes (Content d)))
  end.

(** ** Failures *)

Definition errTypeTimeout : string := "timeout".
Definition errTypeCanceled : string := "canceled".
Definition errTypeTransport : string := "transport_error".
Definition errTypeStreamRead : string := "stream_read_error".
Definition errTypeUpstream : string := "upstream_error".
Definition errTypeDecode : string := "decode_error".
Definition errTypeEmpty : string := "empty_response".

Definition streamErrorType (ctx : context) (err : go_error) (fallback : string) (r : run_state) : string * run_state :=
  if is_done ctx r && bool_decide (ctx_err ctx = DeadlineExceeded) then (errTypeTimeout, checked r)
  else
    let r := checked r in
    if is_done ctx r && bool_decide (ctx_err ctx = Canceled) then (errTypeCanceled, checked r)
    else
      (match as_status err with
       | Some status => Itoa status
       | None => if as_upstream err then errTypeUpstream else fallback
       end, checked r).

Inductive chat_result :=
| Answered (content reasoning : list N)
| Failed (errType : string) (err : go_error).

Definition failed (ctx : context) (err : go_error) (fallback : string) (r : run_state) : chat_result * run_state :=
  let '(errType, r) := streamErrorType ctx err fallback r in
  let ctxErr := EContext (ctx_err ctx) in
  (Failed errType
     (if is_done ctx r && (negb (Is err ctxErr) || negb (Is err (ctx_cause ctx)))
      then EContextDone err ctxErr (ctx_cause ctx) else err), checked r).

(** ** [streamChat] *)

Definition maxTokenSize : N := 262144.

(** The line [bufio.ScanLines] makes of the bytes before a newline. *)
Definition drop_cr (l : list N) : list N := match rev l with 13 :: l => rev l | _ => l end.

(** The lines of a body, and whether one filled the buffer. *)
Fixpoint scan_lines (cur : list N) (size : N) (body : list N) : list (list N) * bool :=
  if maxTokenSize <=? size then ([], true)
  else
    match body with
    | [] => (match cur with [] => [] | _ => [drop_cr (rev cur)] end, false)
    | b :: body =>
        if b =? 10 then let '(ls, long) := scan_lines [] 0 body in (drop_cr (rev cur) :: ls, long)
        else scan_lines (b :: cur) (size + 1) body
    end.

(** The body of a 200 response, and how its read ended. *)
Record response := mkResponse { body : list N; read_err : option go_error }.

Definition scanner_err (resp : response) : option go_error :=
  if snd (scan_lines [] 0 (body resp)) then Some (EOther "bufio.Scanner: token too long") else read_err resp.

Fixpoint stream_lines (ctx : context) (lines : list (list N)) (st : streamState) (r : run_state) : (chat_result * run_state) + (streamState * run_state) :=
  match lines with
  | [] => inr (st, r)
  | line :: lines =>
      if is_done ctx r then inl (failed ctx (EReading (ctx_cause ctx)) errTypeStreamRead (checked r))
      else
        match processSSELine ctx line st (checked r) with
        | inl e => inl (failed ctx e errTypeDecode (checked r))
        | inr (st, r) => stream_lines ctx lines st r
        end
  end.

(** [post] is what [postStreamRequest] returned. *)
Definition streamChat (ctx : context) (post : go_error + response) (r : run_state) : chat_result * run_state :=
  match post with
  | inl err => failed ctx err errTypeTransport r
  | inr resp =>
      match stream_lines ctx (fst (scan_lines [] 0 (body resp))) newStream r with
      | inl out => out
      | inr (st, r) =>
          let err := if is_done ctx r then Some (ctx_cause ctx) else scanner_err resp in
          let r := checked r in
          match err with
          | Some err => failed ctx (EReading err) errTypeStreamRead r
          | None =>
              if negb (hasContent st) then failed ctx (ENoContent (finishReason st)) errTypeEmpty r
              else
                (Answered (contentBuf st) (reasoningBuf st),
                 match fst (seg_flush (acc st)) with Some seg => onSegment seg r | None => r end)
          end
      end
  end.

(** What a request that reached its upstream answered. *)
Inductive exchange :=
| NoRequest (err : go_error)
| NotSent (err : go_error)
| Status (status : Z) (errBody : list N)
| Ok200 (resp : response).

Definition postStreamRequest (ep : Tier) (x : exchange) : go_error + response :=
  match x with
  | NoRequest err => inl err
  | NotSent err => inl (ECalling (t_URL ep) err)
  | Status status errBody => inl (EStatus (t_URL ep) status (take 301 errBody))
  | Ok200 resp => inr resp
  end.

Inductive send_result :=
| UnknownTier (tier : string) | Unencodable | Sent (request : list N) (out : chat_result) (r : run_state).

(** [upstream] is the server's answer to a request body. *)
Definition SendStreamContext (tiers : gmap string Tier) (ctx : context) (upstream : Tier -> list N -> exchange)
    (contextWindow : option (list N)) (tier : string) : send_result :=
  match tiers !! tier with
  | None => UnknownTier tier
  | Some ep =>
      match buildStreamPayload ep contextWindow with
      | None => Unencodable
      | Some request =>
          let '(out, r) := streamChat ctx (postStreamRequest ep (upstream ep request)) (mkRun 0 []) in
          Sent request out r
      end
  end.

Local Close Scope N_scope.

(** ** Theorems: what is spoken of an answer, and how a request fails

    The segments handed to the consumer are a function of the answer's text
    alone, whatever the chunks it came in; a cancelled request matches its
    context's error and cause at whichever point it was cut short. *)

(** ** The specification of the segments *)

(** The text cut behind every delimiter that ends at least [min] bytes, and what
    is left over. *)
Fixpoint cut (min : nat) (cur text : list N) : list (list N) * list N :=
  match text with
  | [] => ([], cur)
  | b :: text =>
      let cur := cur ++ [b] in
      if isSegmentDelimiter b && (min <=? length cur)%nat
      then let '(ps, rest) := cut min [] text in (cur :: ps, rest)
      else cut min cur text
  end.

Definition pieces (text : list N) : list (list N) := fst (cut minSegmentChars [] text).
Definition remainder (text : list N) : list N := snd (cut minSegmentChars [] text).

(** What is said of a complete answer. *)
Definition speech (text : list N) : list (list N) := filter (fun p => blank p = false) (pieces text ++ [remainder text]).

Lemma cut_app min cur t1 t2 :
  cut min cur (t1 ++ t2) = (fst (cut min cur t1) ++ fst (cut min (snd (cut min cur t1)) t2), snd (cut min (snd (cut min cur t1)) t2)).
Proof.
  revert cur. induction t1 as [|b t1 IH]; intros cur; cbn [app cut]; [cbn; by destruct (cut min cur t2)|].
  destruct (_ && _).
  - rewrite IH. destruct (cut min [] t1) as [ps rest]. done.
  - apply IH.
Qed.

Lemma cut_concat min cur text : concat (fst (cut min cur text)) ++ snd (cut min cur text) = cur ++ text.
Proof.
  revert cur. induction text as [|b text IH]; intros cur; cbn [cut]; [by rewrite app_nil_r|].
  destruct (_ && _).
  - specialize (IH []). destruct (cut min [] text) as [ps rest]. cbn in *. rewrite <- app_assoc, IH, <- app_assoc. done.
  - rewrite IH, <- app_assoc. done.
Qed.

(** A piece ends at the first delimiter that has [min] bytes up to it. *)
Definition piece_ok (min : nat) (p : list N) : Prop :=
  exists q b, p = q ++ [b] /\ isSegmentDelimiter b = true /\ (min <= length p)%nat /\
    forall q1 b1 q2, q = q1 ++ [b1] ++ q2 -> isSegmentDelimiter b1 = true -> (length q1 + 1 < min)%nat.

Definition uncut (min : nat) (cur : list N) : Prop :=
  forall q1 b1 q2, cur = q1 ++ [b1] ++ q2 -> isSegmentDelimiter b1 = true -> (length q1 + 1 < min)%nat.

Lemma uncut_snoc min cur b : uncut min cur -> isSegmentDelimiter b && (min <=? length (cur ++ [b]))%nat = false -> uncut min (cur ++ [b]).
Proof.
  intros Hc Hb q1 b1 q2 E Hd. destruct q2 as [|x q2] using rev_ind.
  - cbn [app] in E. apply snoc_inj in E as [-> ->]. rewrite Hd, length_app in Hb. cbn in Hb. apply Nat.leb_gt in Hb. done.
  - rewrite !app_assoc in E. apply snoc_inj in E as [E ->]. apply (Hc q1 b1 q2); [|done]. by rewrite E, <- app_assoc.
Qed.

Lemma cut_pieces min cur text : uncut min cur -> Forall (piece_ok min) (fst (cut min cur text)) /\ uncut min (snd (cut min cur text)).
Proof.
  revert cur. induction text as [|b text IH]; intros cur Hc; cbn [cut]; [by split|].
  destruct (isSegmentDelimiter b && (min <=? length (cur ++ [b]))%nat) eqn:E.
  - apply andb_true_iff in E as [Hd Hlen%Nat.leb_le].
    destruct (IH []) as [Hp Hr]; [intros q1 b1 q2 H; by destruct q1|].
    destruct (cut min [] text) as [ps rest]. cbn in *. split; [|done]. constructor; [|done].
    exists cur, b. done.
  - apply IH. by apply uncut_snoc.
Qed.

(** ** Cutting while reading *)

(** What [emit] does to the segments of one text. *)
Fixpoint emit_all (ctx : context) (segs : list (list N)) (r : run_state) : run_state :=
  match segs with [] => r | s :: segs => emit_all ctx segs (emit ctx s r) end.

Lemma emit_all_app ctx s1 s2 r : emit_all ctx (s1 ++ s2) r = emit_all ctx s2 (emit_all ctx s1 r).
Proof. revert r. induction s1 as [|s s1 IH]; intros r; cbn; auto. Qed.

Ltac stream_cbn :=
  cbv beta iota zeta delta [set contentBuf reasoningBuf acc hasContent finishReason chunks st_model st_id st_usage s_buf s_min] in *.

Lemma write_text ctx text st r :
  s_min (acc st) = minSegmentChars ->
  foldl (write_byte ctx) (st, r) text =
  (st <| acc := mkAcc (snd (cut minSegmentChars (s_buf (acc st)) text)) minSegmentChars |>,
   emit_all ctx (filter (fun p => blank p = false) (fst (cut minSegmentChars (s_buf (acc st)) text))) r).
Proof.
  revert st r. induction text as [|b text IH]; intros st r Hm.
  - cbn. destruct st as [? ? [buf m] ? ? ? ? ? ?]. cbn in *. by subst.
  - cbn [foldl cut write_byte]. destruct st as [cb rb [buf m] hc fr ch mo id us]. cbn [acc s_buf s_min] in *. subst m.
    unfold seg_write, seg_take. cbn [s_buf s_min].
    replace (negb (isSegmentDelimiter b) || (length (buf ++ [b]) <? minSegmentChars)%nat)
      with (negb (isSegmentDelimiter b && (minSegmentChars <=? length (buf ++ [b]))%nat))
      by (rewrite negb_andb; f_equal; by rewrite Nat.leb_antisym, negb_involutive).
    destruct (isSegmentDelimiter b && _) eqn:E; cbn [negb].
    + rewrite IH by done. stream_cbn. destruct (cut minSegmentChars [] text) as [ps rest]. cbn [fst snd].
      rewrite filter_cons. destruct (blank (buf ++ [b])); [by rewrite decide_False|by rewrite decide_True].
    + rewrite IH by done. stream_cbn. done.
Qed.

Lemma processSSELine_spec ctx line st r :
  s_min (acc st) = minSegmentChars ->
  match decodeSSELine line with
  | inl e => processSSELine ctx line st r = inl e
  | inr None => processSSELine ctx line st r = inr (st, r)
  | inr (Some d) =>
      processSSELine ctx line st r =
      inr (fold_delta d st <| acc := mkAcc (snd (cut minSegmentChars (s_buf (acc st)) (str_bytes (Content d)))) minSegmentChars |>,
           emit_all ctx (filter (fun p => blank p = false) (fst (cut minSegmentChars (s_buf (acc st)) (str_bytes (Content d))))) r)
  end.
Proof.
  intros Hm. unfold processSSELine. destruct (decodeSSELine line) as [e|[d|]]; [done| |done]. by rewrite write_text.
Qed.

(** ** Cancellation *)

Lemma is_done_later ctx r r' : (checks r <= checks r')%nat -> is_done ctx r = true -> is_done ctx r' = true.
Proof. unfold is_done. destruct (done_at ctx); [|done]. rewrite !Nat.leb_le. lia. Qed.

(** All of [segs] was handed over, or the context is done and a part was. *)
Definition handed (ctx : context) (segs : list (list N)) (r : run_state) : Prop :=
  segments r = segs \/ is_done ctx r = true /\ segments r `prefix_of` segs.

Lemma handed_prefix ctx segs r : handed ctx segs r -> segments r `prefix_of` segs.
Proof. intros [->|[_ ?]]; [done|done]. Qed.

Lemma handed_checked ctx segs r : handed ctx segs r -> handed ctx segs (checked r).
Proof. intros [H|[Hd H]]; [by left|right]. split; [|done]. eapply is_done_later; [|exact Hd]. cbn. lia. Qed.

Lemma handed_emit ctx segs seg r : handed ctx segs r -> handed ctx (segs ++ [seg]) (emit ctx seg r).
Proof.
  intros H. unfold emit. destruct (is_done ctx r) eqn:E.
  - right. split; [eapply is_done_later; [|exact E]; cbn; lia|]. apply handed_prefix in H. by apply prefix_app_r.
  - destruct H as [H|[Hd _]]; [|congruence]. left. cbn. by rewrite H.
Qed.

Lemma handed_emit_all ctx segs more r : handed ctx segs r -> handed ctx (segs ++ more) (emit_all ctx more r).
Proof.
  revert segs r. induction more as [|s more IH]; intros segs r H; cbn; [by rewrite app_nil_r|].
  replace (segs ++ s :: more) with ((segs ++ [s]) ++ more) by by rewrite <- app_assoc. by apply IH, handed_emit.
Qed.

(** ** The stream's state *)

Definition said (ps : list (list N)) : list (list N) := filter (fun p => blank p = false) ps.

Definition line_content (line : list N) : list N := match decodeSSELine line with inr (Some d) => str_bytes (Content d) | _ => [] end.
Definition line_reasoning (line : list N) : list N := match decodeSSELine line with inr (Some d) => str_bytes (reasoningText d) | _ => [] end.

Record stream_inv (ctx : context) (text reasoning : list N) (st : streamState) (r : run_state) : Prop := {
  si_min : s_min (acc st) = minSegmentChars;
  si_content : contentBuf st = text;
  si_reasoning : reasoningBuf st = reasoning;
  si_buf : s_buf (acc st) = remainder text;
  si_has : hasContent st = bool_decide (text ≠ []);
  si_handed : handed ctx (said (pieces text)) r
}.

Lemma stream_inv_new ctx : stream_inv ctx [] [] newStream (mkRun 0 []).
Proof. split; try done. by left. Qed.

Lemma stream_inv_checked ctx text rs st r : stream_inv ctx text rs st r -> stream_inv ctx text rs st (checked r).
Proof. intros [? ? ? ? ? ?]. split; auto using handed_checked. Qed.

Lemma pieces_app t1 t2 : pieces (t1 ++ t2) = pieces t1 ++ fst (cut minSegmentChars (remainder t1) t2) /\
  remainder (t1 ++ t2) = snd (cut minSegmentChars (remainder t1) t2).
Proof. unfold pieces, remainder. by rewrite cut_app. Qed.

Lemma process_inv ctx line text rs st r st' r' :
  stream_inv ctx text rs st r -> processSSELine ctx line st r = inr (st', r') ->
  stream_inv ctx (text ++ line_content line) (rs ++ line_reasoning line) st' r'.
Proof.
  intros [Hm Hc Hr Hb Hh Hs] Hp. pose proof (processSSELine_spec ctx line st r Hm) as Hspec. unfold line_content, line_reasoning.
  destruct (decodeSSELine line) as [e|[d|]]; rewrite Hspec in Hp; [done| |injection Hp as <- <-; by rewrite !app_nil_r].
  injection Hp as <- <-. clear Hspec. pose proof (pieces_app text (str_bytes (Content d))) as [Hpc Hrm].
  destruct st as [cb rb [buf m] hc fr ch mo id us]. unfold fold_delta. stream_cbn. subst cb rb hc m buf. split; stream_cbn.
  - done.
  - done.
  - done.
  - by rewrite Hrm.
  - destruct (Content d) as [|c s]; [rewrite bool_decide_false by naive_solver; by rewrite app_nil_r|].
    rewrite bool_decide_true by done. symmetry. apply bool_decide_eq_true. intros H. by apply app_eq_nil in H as [_ H].
  - unfold said. rewrite Hpc, filter_app. by apply handed_emit_all.
Qed.

(** ** Failures *)

Definition error_types : list string :=
  [errTypeTimeout; errTypeCanceled; errTypeTransport; errTypeStreamRead; errTypeUpstream; errTypeDecode; errTypeEmpty].

(** The state before the last check of the context. *)
Definition last_check (r : run_state) : run_state := mkRun (pred (checks r)) (segments r).

Record failure_ok (ctx : context) (r : run_state) (out : chat_result) (r' : run_state) : Prop := {
  fo_failed : exists ty e, out = Failed ty e /\
    (ty ∈ error_types \/ exists status, as_status e = Some status /\ ty = Itoa status) /\
    (is_done ctx (last_check r') = true -> Is e (EContext (ctx_err ctx)) = true /\ Is e (ctx_cause ctx) = true) /\
    (is_done ctx r = true -> ty = match ctx_err ctx with Canceled => errTypeCanceled | DeadlineExceeded => errTypeTimeout end);
  fo_segments : segments r' = segments r;
  fo_later : (checks r <= pred (checks r'))%nat
}.

Lemma Is_refl e : Is e e = true.
Proof. destruct e; cbn; by rewrite bool_decide_true. Qed.

Lemma Is_context_done e c d : Is (EContextDone e c d) c = true /\ Is (EContextDone e c d) d = true.
Proof. cbn [Is]. rewrite !Is_refl, !orb_true_r. done. Qed.

Lemma failed_ok ctx err fallback r :
  fallback ∈ error_types -> let '(out, r') := failed ctx err fallback r in failure_ok ctx r out r'.
Proof.
  intros Hf. unfold failed. destruct (streamErrorType ctx err fallback r) as [ty r1] eqn:Ety.
  assert (Hty : (ty ∈ error_types \/ exists status, as_status err = Some status /\ ty = Itoa status) /\
    (is_done ctx r = true -> ty = match ctx_err ctx with Canceled => errTypeCanceled | DeadlineExceeded => errTypeTimeout end) /\
    segments r1 = segments r /\ (checks r <= checks r1)%nat).
  { unfold streamErrorType in Ety. destruct (is_done ctx r && _) eqn:E1.
    { injection Ety as <- <-. apply andb_true_iff in E1 as [_ E1%bool_decide_eq_true]. rewrite E1. split_and!; [left; set_solver|done|done|cbn; lia]. }
    destruct (is_done ctx (checked r) && _) eqn:E2; injection Ety as <- <-.
    { apply andb_true_iff in E2 as [_ E2%bool_decide_eq_true]. rewrite E2. split_and!; [left; set_solver|done|done|cbn; lia]. }
    split_and!; [|intros Hd|done|cbn; lia].
    - destruct (as_status err) as [s|]; [right; by exists s|left]. destruct (as_upstream err); [set_solver|done].
    - exfalso. assert (Hd' : is_done ctx (checked r) = true) by (eapply is_done_later; [|exact Hd]; cbn; lia).
      rewrite Hd in E1. rewrite Hd' in E2. cbn in E1, E2. destruct (ctx_err ctx); [by rewrite bool_decide_true in E2|by rewrite bool_decide_true in E1]. }
  destruct Hty as (Hty & Hdone & Hseg & Hchk). split; [|cbn; congruence|cbn; lia].
  eexists ty, _. split; [reflexivity|]. split_and!; [|unfold last_check; cbn; intros Hl|done].
  - destruct Hty as [?|(s & Hs & ->)]; [by left|right]. exists s. split; [|done]. destruct (is_done ctx r1 && _); [cbn; by rewrite Hs|done].
  - assert (Hd1 : is_done ctx r1 = true) by (by destruct r1). rewrite Hd1. cbn [andb].
    destruct (Is err _) eqn:E1, (Is err (ctx_cause ctx)) eqn:E2; cbn [negb orb]; auto using Is_context_done.
Qed.

Lemma stream_lines_ok ctx lines text rs st r :
  stream_inv ctx text rs st r ->
  match stream_lines ctx lines st r with
  | inr (st', r') =>
      stream_inv ctx (text ++ concat (map line_content lines)) (rs ++ concat (map line_reasoning lines)) st' r' /\
      (checks r <= checks r')%nat
  | inl (out, r') => exists r0, failure_ok ctx r0 out r' /\ (checks r <= checks r0)%nat /\
      segments r' `prefix_of` said (pieces (text ++ concat (map line_content lines)))
  end.
Proof.
  revert text rs st r. induction lines as [|line lines IH]; intros text rs st r Hi; cbn [stream_lines map concat].
  { rewrite !app_nil_r. done. }
  assert (Hpre : segments r `prefix_of` said (pieces (text ++ line_content line ++ concat (map line_content lines)))).
  { apply (transitivity (handed_prefix _ _ _ (si_handed _ _ _ _ _ Hi))).
    unfold said. rewrite (proj1 (pieces_app _ _)), filter_app. by apply prefix_app_r. }
  destruct (is_done ctx r) eqn:E.
  { pose proof (failed_ok ctx (EReading (ctx_cause ctx)) errTypeStreamRead (checked r) ltac:(set_solver)) as Hf.
    destruct (failed _ _ _ _) as [out r']. exists (checked r). split; [done|]. split; [cbn; lia|]. rewrite (fo_segments _ _ _ _ Hf). done. }
  destruct (processSSELine ctx line st (checked r)) as [e|[st1 r1]] eqn:Ep.
  { pose proof (failed_ok ctx e errTypeDecode (checked r) ltac:(set_solver)) as Hf.
    destruct (failed _ _ _ _) as [out r']. exists (checked r). split; [done|]. split; [cbn; lia|]. rewrite (fo_segments _ _ _ _ Hf). done. }
  assert (Hc : (checks r <= checks r1)%nat).
  { pose proof (processSSELine_spec ctx line st (checked r) (si_min _ _ _ _ _ Hi)) as Hs.
    assert (Hall : forall segs r, (checks r <= checks (emit_all ctx segs r))%nat).
    { induction segs as [|s segs IHs]; intros r0; cbn; [done|]. specialize (IHs (emit ctx s r0)). unfold emit in *. destruct (is_done ctx r0); cbn in *; lia. }
    destruct (decodeSSELine line) as [?|[d|]]; rewrite Hs in Ep; [done| |]; injection Ep as <- <-; [|cbn; lia].
    specialize (Hall (filter (fun p => blank p = false) (fst (cut minSegmentChars (s_buf (acc st)) (str_bytes (Content d))))) (checked r)). cbn in Hall |- *. lia. }
  apply (process_inv _ _ _ _ _ _ _ _ (stream_inv_checked _ _ _ _ _ Hi)) in Ep. specialize (IH _ _ _ _ Ep).
  rewrite !app_assoc. destruct (stream_lines ctx lines st1 r1) as [[out r']|[st' r']].
  - destruct IH as (r0 & H1 & H2 & H3). exists r0. split_and!; [done|lia|done].
  - destruct IH as [H1 H2]. split; [done|lia].
Qed.

(** The body's text, as far as its lines decode. *)
Definition body_lines (resp : response) : list (list N) := fst (scan_lines [] 0 (body resp)).
Definition body_content (resp : response) : list N := concat (map line_content (body_lines resp)).
Definition body_reasoning (resp : response) : list N := concat (map line_reasoning (body_lines resp)).

Lemma streamChat_cases ctx resp :
  let '(out, r) := streamChat ctx (inr resp) (mkRun 0 []) in
  (out = Answered (body_content resp) (body_reasoning resp) /\ body_content resp ≠ [] /\
   segments r = speech (body_content resp) /\ is_done ctx (mkRun (pred (checks r)) []) = false /\ scanner_err resp = None) \/
  (exists r0, failure_ok ctx r0 out r /\ segments r `prefix_of` said (pieces (body_content resp))).
Proof.
  cbn [streamChat]. pose proof (stream_lines_ok ctx (body_lines resp) [] [] newStream (mkRun 0 []) (stream_inv_new ctx)) as H.
  fold (body_lines resp). destruct (stream_lines ctx (body_lines resp) newStream (mkRun 0 [])) as [[out r]|[st r]].
  { right. destruct H as (r0 & H1 & _ & H2). by exists r0. }
  destruct H as [[Hm Hc Hr Hb Hh Hs] _]. cbn [app] in *. fold (body_content resp) in *. fold (body_reasoning resp) in *.
  assert (Hfail : forall e fb r1, fb ∈ error_types -> segments r1 = segments r ->
    let '(out, r') := failed ctx e fb r1 in exists r0, failure_ok ctx r0 out r' /\ segments r' `prefix_of` said (pieces (body_content resp))).
  { intros e fb r1 Hfb Hseg. pose proof (failed_ok ctx e fb r1 Hfb) as Hf. destruct (failed ctx e fb r1) as [out r'].
    exists r1. split; [done|]. rewrite (fo_segments _ _ _ _ Hf), Hseg. by eapply handed_prefix. }
  destruct (is_done ctx r) eqn:Hd.
  { pose proof (Hfail (EReading (ctx_cause ctx)) errTypeStreamRead (checked r) ltac:(set_solver) eq_refl) as Hf. cbn [streamChat] in *.
    destruct (failed _ _ _ _). by right. }
  destruct (scanner_err resp) as [e|] eqn:He.
  { pose proof (Hfail (EReading e) errTypeStreamRead (checked r) ltac:(set_solver) eq_refl) as Hf. destruct (failed _ _ _ _). by right. }
  rewrite Hh. destruct (bool_decide (body_content resp ≠ [])) eqn:Hne; cbn [negb].
  2: { pose proof (Hfail (ENoContent (finishReason st)) errTypeEmpty (checked r) ltac:(set_solver) eq_refl) as Hf. destruct (failed _ _ _ _). by right. }
  apply bool_decide_eq_true in Hne. left. destruct Hs as [Hs|[Hs _]]; [|congruence].
  rewrite Hc, Hr. split; [done|]. split; [done|].
  unfold speech. rewrite filter_app. fold (said (pieces (body_content resp))). unfold seg_flush, seg_take. rewrite Hb, Hm. cbn [fst].
  rewrite filter_cons, filter_nil. destruct (blank (remainder (body_content resp))); [rewrite decide_False by done|rewrite decide_True by done]; cbn.
  - rewrite app_nil_r. split_and!; [done| |done]. unfold is_done in *. cbn. by destruct (done_at ctx).
  - rewrite Hs. split_and!; [done| |done]. unfold is_done in *. cbn. by destruct (done_at ctx).
Qed.

(** C22: The segments of an answered request are those of a reference cut of its whole text
    behind every delimiter that ends at least 30 bytes, blank ones left out, however the
    text was split into chunks; content and reasoning are the concatenated deltas; a failed
    request has handed over a prefix of them. *)
Theorem answer_spoken (ctx : context) (resp : response) :
  let text := body_content resp in
  let '(out, r) := streamChat ctx (inr resp) (mkRun 0 []) in
  (forall content reasoning, out = Answered content reasoning ->
     content = text /\ text ≠ [] /\ reasoning = body_reasoning resp /\ segments r = speech text) /\
  (forall ty e, out = Failed ty e -> segments r `prefix_of` speech text) /\
  concat (pieces text) ++ remainder text = text /\
  Forall (piece_ok minSegmentChars) (pieces text) /\ uncut minSegmentChars (remainder text).
Proof.
  cbv zeta. pose proof (streamChat_cases ctx resp) as H. destruct (streamChat ctx (inr resp) (mkRun 0 [])) as [out r].
  destruct (cut_pieces minSegmentChars [] (body_content resp)) as [Hp Hu]; [intros q1 b1 q2 E; by destruct q1|].
  split_and!; [| |apply cut_concat|done|done].
  - intros c rs ->. destruct H as [(E & ? & ? & _)|(r0 & [(ty & e & E & _) _ _] & _)]; [|done]. injection E as -> ->. done.
  - intros ty e ->. destruct H as [(E & _)|(r0 & _ & Hpre)]; [done|]. apply (transitivity Hpre).
    unfold speech. rewrite filter_app. by apply prefix_app_r.
Qed.

(** C23: A failed request reports an error type of the closed set or the upstream's status;
    when its context was done by its last check the error matches both the context's error
    and its cause, wherever it failed; and under a context done from the start nothing is
    handed over and the type names the cancellation. *)
Theorem request_failure_matches (ctx : context) (post : go_error + response) (ty : string) (e : go_error) (r : run_state)
    (Hfailed : streamChat ctx post (mkRun 0 []) = (Failed ty e, r)) :
  (ty ∈ error_types \/ exists status, as_status e = Some status /\ ty = Itoa status) /\
  (is_done ctx (last_check r) = true -> Is e (EContext (ctx_err ctx)) = true /\ Is e (ctx_cause ctx) = true) /\
  (done_at ctx = Some 0%nat -> segments r = [] /\ ty = match ctx_err ctx with Canceled => errTypeCanceled | DeadlineExceeded => errTypeTimeout end).
Proof.
  assert (H : exists r0, failure_ok ctx r0 (Failed ty e) r /\ (done_at ctx = Some 0%nat -> segments r0 = [])).
  { destruct post as [err|resp].
    - cbn [streamChat] in Hfailed. pose proof (failed_ok ctx err errTypeTransport (mkRun 0 []) ltac:(set_solver)) as Hf.
      rewrite Hfailed in Hf. by exists (mkRun 0 []).
    - pose proof (streamChat_cases ctx resp) as H. rewrite Hfailed in H. destruct H as [(E & _)|(r0 & Hf & _)]; [done|].
      exists r0. split; [done|]. intros H0. rewrite <- (fo_segments _ _ _ _ Hf).
      clear Hf. cbn [streamChat] in Hfailed.
      assert (Hd : forall r, is_done ctx r = true) by (intros r1; unfold is_done; by rewrite H0).
      destruct (fst (scan_lines [] 0 (body resp))) as [|line lines]; cbn [stream_lines] in Hfailed; rewrite Hd in Hfailed.
      + pose proof (failed_ok ctx (EReading (ctx_cause ctx)) errTypeStreamRead (checked (mkRun 0 [])) ltac:(set_solver)) as Hf.
        rewrite Hfailed in Hf. by rewrite (fo_segments _ _ _ _ Hf).
      + pose proof (failed_ok ctx (EReading (ctx_cause ctx)) errTypeStreamRead (checked (mkRun 0 [])) ltac:(set_solver)) as Hf.
        rewrite Hfailed in Hf. by rewrite (fo_segments _ _ _ _ Hf). }
  destruct H as (r0 & [(ty' & e' & E & Hty & His & Hstart) Hseg _] & H0). injection E as <- <-. split_and!; [done|done|].
  intros Hz. split; [by rewrite Hseg, H0|]. apply Hstart. unfold is_done. by rewrite Hz.
Qed.

(** ** Examples *)

Definition ex_line (s : string) : list N := str_bytes "data: " ++ Marshal (JObj [("choices", JArr [JObj [("delta", JObj [("content", JStr s)])]])]) ++ [10%N].
Definition ex_body : list N :=
  ex_line "Hello there, this is a sentence" ++ ex_line " that ends here. And" ++ ex_line " more." ++ str_bytes "data: [DONE]".

(** Cancelled before the third check: the first segment is not handed over. *)
Lemma request_failure_matches_witness : exists ty e r,
  streamChat (mkContext (Some 2%nat) Canceled (EOther "hung up")) (inr (mkResponse ex_body None)) (mkRun 0 []) = (Failed ty e, r) /\
  ty = errTypeCanceled /\ segments r = [] /\ Is e (EContext Canceled) = true /\ Is e (EOther "hung up") = true.
Proof.
  destruct (streamChat (mkContext (Some 2%nat) Canceled (EOther "hung up")) (inr (mkResponse ex_body None)) (mkRun 0 [])) as [[|ty e] r] eqn:E;
    [vm_compute in E; discriminate|].
  pose proof (request_failure_matches _ _ _ _ _ E) as (_ & H & _). exists ty, e, r. split; [reflexivity|].
  assert (Hl : is_done (mkContext (Some 2%nat) Canceled (EOther "hung up")) (last_check r) = true) by (vm_compute in E; injection E as <- <- <-; reflexivity).
  specialize (H Hl). split; [|split; [|exact H]]; vm_compute in E; injection E as <- <- <-; reflexivity.
Defined.

Example ex_spoken :
  let '(out, r) := streamChat (mkContext None Canceled (EContext Canceled)) (inr (mkResponse ex_body None)) (mkRun 0 []) in
  map bytes_str (segments r) = ["Hello there, this is a sentence that ends here."; " And more."].
Proof. vm_compute. reflexivity. Qed.
