(* ===== verification/Driver.v ===== *)
(** * Driver: the host an agent runs on

    Models the rest of [driver/driver.go] and of [driver/trace.go] that is not
    the request itself (ModelStream.v): the conversation history and the window
    built from it, the messages a span captures, the prompt file, the silence put
    behind a clip, and [speech.go]'s queue with its worker. *)

From S2P Require Export ModelStream Wav.
From S2P Require Export JsonThms.

(** ** Conversation memory *)

Record message := mkMessage { Role : string; MContent : string }.

Definition Remember (role content : string) (history : list message) : list message := history ++ [mkMessage role content].

Definition Forget (history : list message) : list message :=
  if (0 <? length history)%nat then take (length history - 1) history else history.

Definition Clear (history : list message) : list message := [].

(** [None] is nil. *)
Definition LastAnswer (history : list message) : option string :=
  MContent <$> List.find (fun m => bool_decide (Role m = "assistant")) (rev history).

Definition message_json (m : message) : json := JObj [("role", JStr (Role m)); ("content", JStr (MContent m))].

(** The user-context block the provider returned is [""] when there is none. *)
Definition window (prompt userCtx : string) (history : list message) : list message :=
  mkMessage "system" prompt :: (if bool_decide (userCtx ≠ "") then [mkMessage "system" userCtx] else []) ++ history.

Definition ContextFor (prompt : string) (userContext : option (string -> string)) (queryText : string) (history : list message) : list N :=
  let userCtx := match userContext with Some f => f queryText | None => "" end in
  Marshal (JArr (map message_json (window prompt userCtx history))).

(** ** Captured messages (trace.go) *)

Record genAIPart := mkPart { p_Type : string; p_Content : string }.
Record genAIMessage := mkGenAI { g_Role : string; g_Parts : list genAIPart }.

Definition part_json (p : genAIPart) : json := JObj [("type", JStr (p_Type p)); ("content", JStr (p_Content p))].
Definition genai_json (m : genAIMessage) : json := JObj [("role", JStr (g_Role m)); ("parts", JArr (map part_json (g_Parts m)))].

(** One item of an array content: its type and text. *)
Definition set_item (n : string) (v : json) (it : string * string) : option (string * string) :=
  if bool_decide (n = "type") then s ← decode_string v (fst it); Some (s, snd it)
  else s ← decode_string v (snd it); Some (fst it, s).

Definition decode_item (v : json) : option (string * string) := decode_struct ["type"; "text"] set_item v ("", "").

Definition contentParts (content : option json) : list genAIPart :=
  match content with
  | Some (JStr s) => [mkPart "text" s]
  | Some (JArr vs) =>
      match mapM decode_item vs with
      | Some items => map (fun it => mkPart "text" (snd it)) (filter (fun it => fst it = "text") items)
      | None => []
      end
  | _ => []
  end.

(** A message's role and raw content. *)
Definition set_message (n : string) (v : json) (m : string * option json) : option (string * option json) :=
  if bool_decide (n = "role") then s ← decode_string v (fst m); Some (s, snd m) else Some (fst m, Some v).

Definition gen_message (v : json) : option genAIMessage :=
  match v with
  | JObj _ => '(role, content) ← decode_struct ["role"; "content"] set_message v ("", None); Some (mkGenAI role (contentParts content))
  | _ => None
  end.

(** [None] when the window is not an array of objects. *)
Definition genAIInputMessages (contextWindow : list N) : option (list N) :=
  match Unmarshal contextWindow with
  | Some (JArr vs) => ms ← mapM gen_message vs; Some (Marshal (JArr (map genai_json ms)))
  | _ => None
  end.

Definition genAIOutputMessages (content reasoning finishReason : string) : option (list N) :=
  if bool_decide (content = "") && bool_decide (reasoning = "") then None
  else
    let parts := (if bool_decide (reasoning ≠ "") then [mkPart "reasoning" reasoning] else []) ++
                 (if bool_decide (content ≠ "") then [mkPart "text" content] else []) in
    Some (Marshal (JArr [JObj [("role", JStr "assistant"); ("parts", JArr (map part_json parts)); ("finish_reason", JStr finishReason)]])).

(** [strconv.ParseBool] of the variable is true. *)
Definition captureMessageContent (env : string) : bool := bool_decide (env ∈ ["1"; "t"; "T"; "TRUE"; "true"; "True"]).

(** ** The prompt file *)

Record promptFile := mkPrompt {
  pf_path : string; pf_def : string;
  pf_modt : Z; pf_text : string; pf_loaded : bool; pf_lastErr : string
}.
#[export] Instance prompt_eta : Eta promptFile := fun p =>
  mkPrompt (pf_path p) (pf_def p) (pf_modt p) (pf_text p) (pf_loaded p) (pf_lastErr p).

Definition newPromptFile (path defaultText : string) : promptFile := mkPrompt path defaultText 0 "" false "".

(** What a call says on the terminal. *)
Inductive notice := PromptNotice (msg fallback : string).

(** [quoted] is the path as [%q] writes it. *)
Definition prompt_fail (quoted err : string) (p : promptFile) : string * list notice * promptFile :=
  let msg := "system prompt: attempted to load " +:+ quoted +:+ ", failed: " +:+ err in
  let '(said, p) :=
    if bool_decide (msg ≠ pf_lastErr p)
    then ([PromptNotice msg (if pf_loaded p then "last successfully loaded prompt" else "built-in default prompt")], p <| pf_lastErr := msg |>)
    else ([], p) in
  (if pf_loaded p then pf_text p else pf_def p, said, p).

(** The file system's answers to one call: of [os.Stat] the modification time,
    of [os.ReadFile] the content. *)
Record file_look := mkLook { lk_stat : string + Z; lk_read : string + string }.

Definition prompt_get (quoted : string) (look : file_look) (p : promptFile) : string * list notice * promptFile :=
  match lk_stat look with
  | inl err => prompt_fail quoted err p
  | inr modt =>
      if pf_loaded p && (modt =? pf_modt p) then (pf_text p, [], p)
      else
        match lk_read look with
        | inl err => prompt_fail quoted err p
        | inr b =>
            let p := p <| pf_text := TrimSpace b |> <| pf_modt := modt |> <| pf_loaded := true |> <| pf_lastErr := "" |> in
            (pf_text p, [], p)
        end
  end.

Fixpoint prompt_run (quoted : string) (looks : list file_look) (p : promptFile) : list (string * list notice) * promptFile :=
  match looks with
  | [] => ([], p)
  | look :: looks =>
      let '(text, said, p) := prompt_get quoted look p in
      let '(outs, p) := prompt_run quoted looks p in ((text, said) :: outs, p)
  end.

(** ** Silence behind a clip *)

(** The byte rate, the offset of the data chunk's size, and its end. *)
Record pad_scan := mkScan { byteRate : Z; dataSizeOff : Z; dataEnd : Z }.

Definition pad_visit (wav : bytes) (id : bytes) (body sz : Z) (st : pad_scan) : bool * pad_scan :=
  if bool_decide (id = fmt_) then
    (true, if body + 16 <=? len wav then mkScan (le_get (zslice (body + 8) (body + 12) wav)) (dataSizeOff st) (dataEnd st) else st)
  else if bool_decide (id = data_) then (false, mkScan (byteRate st) (body - 4) (body + sz))
  else (true, st).

(** [binary.LittleEndian.PutUint32(out[off:off+4], x)]. *)
Definition put_uint32 (off : Z) (x : Z) (out : bytes) : bytes :=
  take (Z.to_nat off) out ++ le_put 4 (uint32 x) ++ drop (Z.to_nat (off + 4)) out.

(** The products with the two float constants are exact. *)
Definition padWAVSilence (wav : bytes) : bytes :=
  if (len wav <? 12) || negb (bool_decide (zslice 0 4 wav = RIFF)) || negb (bool_decide (zslice 8 12 wav = WAVE)) then wav
  else
    let sc := WalkWAVChunks (pad_visit wav) wav (mkScan 0 (-1) (-1)) in
    if (byteRate sc <=? 0) || (dataSizeOff sc <? 0) || (dataEnd sc <? dataSizeOff sc + 4) || (len wav <? dataEnd sc) then wav
    else
      let dataBytes := dataEnd sc - (dataSizeOff sc + 4) in
      let padBytes := byteRate sc in
      let floor := byteRate sc * 4 - dataBytes in
      let padBytes := if padBytes <? floor then floor else padBytes in
      let out := take (Z.to_nat (dataEnd sc)) wav ++ replicate (Z.to_nat padBytes) 0 in
      let out := put_uint32 (dataSizeOff sc) (dataBytes + padBytes) out in
      put_uint32 4 (len out - 8) out.

(** ** The speech queue

    Clips are numbered by the caller.  The worker is idle or renders a clip; a
    call of [cancelQueued] takes clips from the channel and closes each one's
    [done]. *)

Definition speechDepth : nat := 32.

Record speechQueue := mkQueue {
  q_ch : list nat;
  q_rendering : option nat;
  q_cancelling : list nat;
  q_closed : list nat;
  q_enqueued : list nat;
  q_taken : list (nat * bool)
}.
#[export] Instance queue_eta : Eta speechQueue := fun q =>
  mkQueue (q_ch q) (q_rendering q) (q_cancelling q) (q_closed q) (q_enqueued q) (q_taken q).

Definition newSpeechQueue : speechQueue := mkQueue [] None [] [] [] [].

Inductive speech_label := QEnqueue (clip : nat) | QTake | QRendered | QCancel | QCancelled (clip : nat).

Definition speech_step (l : speech_label) (q : speechQueue) : option speechQueue :=
  match l with
  | QEnqueue clip =>
      if (length (q_ch q) <? speechDepth)%nat
      then Some (q <| q_ch ::= (fun ch => ch ++ [clip]) |> <| q_enqueued ::= (fun l => l ++ [clip]) |>) else None
  | QTake =>
      match q_rendering q, q_ch q with
      | None, clip :: ch => Some (q <| q_ch := ch |> <| q_rendering := Some clip |> <| q_taken ::= (fun l => l ++ [(clip, true)]) |>)
      | _, _ => None
      end
  | QRendered =>
      match q_rendering q with
      | Some clip => Some (q <| q_rendering := None |> <| q_closed ::= (fun l => l ++ [clip]) |>)
      | None => None
      end
  | QCancel =>
      match q_ch q with
      | clip :: ch => Some (q <| q_ch := ch |> <| q_cancelling ::= cons clip |> <| q_taken ::= (fun l => l ++ [(clip, false)]) |>)
      | [] => None
      end
  | QCancelled clip =>
      if bool_decide (clip ∈ q_cancelling q)
      then Some (q <| q_cancelling ::= (fun l => List.remove Nat.eq_dec clip l) |> <| q_closed ::= (fun l => l ++ [clip]) |>) else None
  end.

Fixpoint speech_run (ls : list speech_label) (q : speechQueue) : option speechQueue :=
  match ls with [] => Some q | l :: ls => match speech_step l q with Some q => speech_run ls q | None => None end end.

(** ** Environment *)

(** The variable is [""] when it is not set. *)
Definition EnvOr (v def : string) : string := if bool_decide (v ≠ "") then v else def.
Definition EnvBool (v : string) : bool := bool_decide (ToLower v ∈ ["1"; "true"; "yes"; "on"]).

(** What a [-stream-scheme] that parsed is worth; its default is wss. *)
Definition stream_scheme_ok (scheme : string) : option string :=
  if bool_decide (scheme ≠ "ws") && bool_decide (scheme ≠ "wss") then None else Some scheme.

(** A typed line. *)
Definition turn_text (line : string) : string := TrimSpace line.

(** ** Theorems: the window, the prompt, the clips

    What a span captures of a window is the conversation; the prompt served is
    the last good one; a padded clip keeps its audio; each clip of the speech
    queue is rendered or dropped, in order, and released once. *)

(** ** The window *)

Definition message_ok (m : message) : bool := Valid (Role m) && Valid (MContent m).

Lemma window_ok prompt userCtx history :
  Valid prompt = true -> Valid userCtx = true -> forallb message_ok history = true -> forallb message_ok (window prompt userCtx history) = true.
Proof.
  intros Hp Hu Hh. unfold window. cbn [forallb]. unfold message_ok at 1. cbn [Role MContent]. rewrite Hp.
  case_bool_decide; cbn [app forallb]; [unfold message_ok at 1; cbn [Role MContent]; rewrite Hu|]; by rewrite Hh.
Qed.

Lemma messages_json_ok ms : forallb message_ok ms = true -> json_ok (JArr (map message_json ms)) = true /\ (height (JArr (map message_json ms)) <= 2)%N.
Proof.
  intros H. cbn [json_ok height]. induction ms as [|m ms IH]; cbn; [done|].
  cbn in H. apply andb_true_iff in H as [Hm H]. destruct (IH H) as [H1 H2]. unfold message_ok in Hm. apply andb_true_iff in Hm as [Hr Hc].
  rewrite Hr, Hc. split; [done|]. cbn. lia.
Qed.

Lemma window_read ms : forallb message_ok ms = true -> Unmarshal (Marshal (JArr (map message_json ms))) = Some (JArr (map message_json ms)).
Proof. intros H. destruct (messages_json_ok ms H) as [H1 H2]. apply Unmarshal_Marshal; [done|]. unfold maxNestingDepth. lia. Qed.

Definition text_message (m : message) : genAIMessage := mkGenAI (Role m) [mkPart "text" (MContent m)].

Lemma gen_message_json m : gen_message (message_json m) = Some (text_message m).
Proof. destruct m as [r c]. vm_compute. reflexivity. Qed.

Lemma gen_messages ms : mapM gen_message (map message_json ms) = Some (map text_message ms).
Proof. induction ms as [|m ms IH]; [done|]. cbn [map mapM]. rewrite gen_message_json. cbn [mbind option_bind]. by rewrite IH. Qed.

(** What a span captures of a window is the conversation. *)
Theorem captured_window (prompt : string) (userContext : option (string -> string)) (queryText : string) (history : list message)
    (Hprompt : Valid prompt = true) (Huser : match userContext with Some f => Valid (f queryText) = true | None => True end)
    (Hhistory : forallb message_ok history = true) :
  let ms := window prompt (match userContext with Some f => f queryText | None => "" end) history in
  Unmarshal (ContextFor prompt userContext queryText history) = Some (JArr (map message_json ms)) /\
  genAIInputMessages (ContextFor prompt userContext queryText history) = Some (Marshal (JArr (map genai_json (map text_message ms)))).
Proof.
  cbv zeta. set (u := match userContext with Some f => f queryText | None => "" end).
  assert (Hu : Valid u = true) by (subst u; by destruct userContext).
  assert (Hok := window_ok prompt u history Hprompt Hu Hhistory).
  unfold genAIInputMessages, ContextFor. fold u. rewrite (window_read _ Hok). split; [done|]. by rewrite gen_messages.
Qed.

Lemma captured_window_witness :
  genAIInputMessages (ContextFor "Be brief." (Some (fun q => "About " +:+ q)) "tea" [mkMessage "user" "A <b>?"]) =
  Some (Marshal (JArr (map genai_json [mkGenAI "system" [mkPart "text" "Be brief."]; mkGenAI "system" [mkPart "text" "About tea"]; mkGenAI "user" [mkPart "text" "A <b>?"]]))).
Proof. exact (proj2 (captured_window "Be brief." (Some (fun q => "About " +:+ q)) "tea" [mkMessage "user" "A <b>?"] eq_refl eq_refl eq_refl)). Defined.

(** A failed turn is rolled back; an answer is found behind later turns. *)
Lemma Forget_Remember role content history : Forget (Remember role content history) = history.
Proof.
  unfold Forget, Remember. rewrite length_app. cbn [length]. rewrite (proj2 (Nat.ltb_lt _ _)) by lia.
  by rewrite Nat.add_sub, take_app_length.
Qed.

Lemma LastAnswer_Remember role content history :
  LastAnswer (Remember role content history) = if bool_decide (role = "assistant") then Some content else LastAnswer history.
Proof. unfold LastAnswer, Remember. rewrite rev_app_distr. cbn. by case_bool_decide. Qed.

(** ** The prompt file *)

(** The text of the last look that read the file. *)
Definition last_good (def : string) (p : promptFile) : string := if pf_loaded p then pf_text p else def.

Lemma prompt_get_text quoted look p : fst (fst (prompt_get quoted look p)) = last_good (pf_def p) (snd (prompt_get quoted look p)) /\
  pf_def (snd (prompt_get quoted look p)) = pf_def p.
Proof.
  destruct p as [pa de mo te lo la]. unfold prompt_get, prompt_fail, last_good. cbn [pf_loaded pf_modt].
  destruct (lk_stat look) as [e|m]; [case_bool_decide; by destruct lo|].
  destruct (lo && (m =? mo)) eqn:E; [apply andb_true_iff in E as [-> _]; done|].
  destruct (lk_read look) as [e|b]; [case_bool_decide; by destruct lo|]. done.
Qed.

(** What the file says at a time: a modification time stands for one content. *)
Definition stable (content : Z -> string) (look : file_look) : Prop :=
  forall m b, lk_stat look = inr m -> lk_read look = inr b -> b = content m.

(** The prompt to serve after [looks]: of the last one whose stat and read
    answered, or whose time was seen before. *)
Fixpoint good_prompt (content : Z -> string) (looks : list file_look) (seen : option Z) : option Z :=
  match looks with
  | [] => seen
  | look :: looks =>
      good_prompt content looks
        (match lk_stat look, lk_read look with
         | inr m, inr _ => Some m
         | _, _ => seen
         end)
  end.

Lemma prompt_step content quoted look p :
  stable content look -> (pf_loaded p = true -> pf_text p = TrimSpace (content (pf_modt p))) ->
  let p' := snd (prompt_get quoted look p) in
  (pf_loaded p' = true -> pf_text p' = TrimSpace (content (pf_modt p'))) /\
  (if pf_loaded p' then Some (pf_modt p') else None) = good_prompt content [look] (if pf_loaded p then Some (pf_modt p) else None).
Proof.
  intros Hs Hi. destruct p as [pa de mo te lo la]. unfold prompt_get, prompt_fail. cbn [pf_loaded pf_modt pf_text good_prompt] in *.
  destruct (lk_stat look) as [e|m] eqn:Es; [case_bool_decide; by destruct lo|].
  destruct (lo && (m =? mo)) eqn:E.
  - apply andb_true_iff in E as [-> Em%Z.eqb_eq]. subst m. cbn. split; [done|]. by destruct (lk_read look).
  - destruct (lk_read look) as [e|b] eqn:Er; [case_bool_decide; by destruct lo|]. cbn. split; [|done]. intros _. by rewrite (Hs m b Es Er).
Qed.

Lemma prompt_run_good content quoted looks p n text said :
  Forall (stable content) looks -> (pf_loaded p = true -> pf_text p = TrimSpace (content (pf_modt p))) ->
  fst (prompt_run quoted looks p) !! n = Some (text, said) ->
  text = match good_prompt content (take (S n) looks) (if pf_loaded p then Some (pf_modt p) else None) with
         | Some m => TrimSpace (content m) | None => pf_def p end.
Proof.
  intros Hst. revert p n. induction Hst as [|look looks Hl Hls IH]; intros p n Hi Hn; [done|].
  cbn [prompt_run] in Hn. pose proof (prompt_get_text quoted look p) as [Ht Hd]. pose proof (prompt_step content quoted look p Hl Hi) as [Hi' Hg].
  destruct (prompt_get quoted look p) as [[t0 s0] p'] eqn:E. cbn [fst snd] in *.
  specialize (IH p'). destruct (prompt_run quoted looks p') as [outs p'']. cbn [fst] in *. destruct n as [|n].
  - cbn in Hn. injection Hn as <- <-. rewrite firstn_cons, firstn_O, <- Hg, Ht. unfold last_good. destruct (pf_loaded p'); [by apply Hi'|done].
  - cbn in Hn. rewrite <- Hd, (IH n Hi' Hn), firstn_cons. cbn [good_prompt] in Hg |- *. by rewrite Hg.
Qed.

(** Over any sequence of answers of the file system in which a modification time stands
    for one content, each call serves the trimmed content of the last look that could stat
    and read the file, and the default before there was one. *)
Theorem prompt_last_good (content : Z -> string) (quoted path def : string) (looks : list file_look)
    (Hstable : Forall (stable content) looks) (n : nat) (text : string) (said : list notice)
    (Hn : fst (prompt_run quoted looks (newPromptFile path def)) !! n = Some (text, said)) :
  text = match good_prompt content (take (S n) looks) None with Some m => TrimSpace (content m) | None => def end.
Proof. by apply (prompt_run_good content quoted looks (newPromptFile path def) n text said). Qed.

Definition ex_looks : list file_look :=
  [mkLook (inl "no such file") (inl ""); mkLook (inr 5%Z) (inr " Be kind. "); mkLook (inr 5%Z) (inr " Be kind. "); mkLook (inr 6%Z) (inl "denied")].

Lemma prompt_last_good_witness :
  fst (prompt_run "p" ex_looks (newPromptFile "p" "default")) !! 3%nat =
    Some ("Be kind.", [PromptNotice "system prompt: attempted to load p, failed: denied" "last successfully loaded prompt"]) /\
  "Be kind." = TrimSpace " Be kind. ".
Proof.
  split; [vm_compute; reflexivity|].
  assert (Hst : Forall (stable (fun _ => " Be kind. ")) ex_looks).
  { repeat constructor; intros m b H1 H2; vm_compute in H1, H2; congruence. }
  refine (prompt_last_good (fun _ => " Be kind. ") "p" "p" "default" ex_looks Hst 3 "Be kind." _ _). vm_compute. reflexivity.
Defined.

(** ** The speech queue *)

Definition in_render (q : speechQueue) : list nat := match q_rendering q with Some c => [c] | None => [] end.

Record speech_inv (q : speechQueue) : Prop := {
  sq_order : map fst (q_taken q) ++ q_ch q = q_enqueued q;
  sq_closed : q_closed q ++ q_cancelling q ++ in_render q ≡ₚ map fst (q_taken q);
  sq_bound : (length (q_ch q) <= speechDepth)%nat
}.

Ltac queue_cbn := cbv beta iota zeta delta [set q_ch q_rendering q_cancelling q_closed q_enqueued q_taken in_render] in *.

Lemma speech_step_inv l q q' : NoDup (q_enqueued q) -> speech_inv q -> speech_step l q = Some q' -> speech_inv q'.
Proof.
  intros Hnd [Ho Hc Hb] Hs. destruct q as [ch re ca cl en ta]. unfold speech_step in Hs. destruct l as [clip| | | |clip]; queue_cbn.
  - destruct (Nat.ltb_spec (length ch) speechDepth); [|done]. injection Hs as <-. split; queue_cbn; [by rewrite <- Ho, <- app_assoc|done|].
    rewrite length_app. cbn. lia.
  - destruct re; [done|]. destruct ch as [|c ch]; [done|]. injection Hs as <-. split; queue_cbn.
    + rewrite map_app, <- app_assoc. done.
    + rewrite map_app, <- Hc, app_nil_r, <- !app_assoc. done.
    + cbn in Hb. lia.
  - destruct re as [c|]; [|done]. injection Hs as <-. split; queue_cbn; [done| |done].
    rewrite <- Hc, app_nil_r, <- app_assoc. cbn [app]. by rewrite (Permutation_app_comm ca [c]).
  - destruct ch as [|c ch]; [done|]. injection Hs as <-. split; queue_cbn.
    + rewrite map_app, <- app_assoc. done.
    + rewrite map_app, <- Hc, (Permutation_app_comm (cl ++ _) _). cbn [map fst app]. symmetry. apply Permutation_middle.
    + cbn in Hb. lia.
  - case_bool_decide as Hin; [|done]. injection Hs as <-. split; queue_cbn; [done| |done].
    rewrite <- Hc, <- app_assoc. f_equiv. cbn [app].
    assert (Hca : NoDup ca).
    { rewrite <- Ho in Hnd. apply NoDup_app in Hnd as (Hnd & _). rewrite <- Hc in Hnd. apply NoDup_app in Hnd as (_ & _ & Hnd). by apply NoDup_app in Hnd as (Hnd & _). }
    change (clip :: List.remove Nat.eq_dec clip ca ++ match re with Some c => [c] | None => [] end)
      with ((clip :: List.remove Nat.eq_dec clip ca) ++ match re with Some c => [c] | None => [] end). f_equiv.
    clear -Hin Hca. induction Hca as [|x ca Hx Hca IH]; [by apply elem_of_nil in Hin|]. cbn.
    destruct (Nat.eq_dec clip x) as [->|Hne].
    + rewrite List.notin_remove; [done|]. by rewrite <- list_elem_of_In.
    + apply elem_of_cons in Hin as [?|Hin]; [done|]. rewrite Permutation_swap. f_equiv. by apply IH.
Qed.

Lemma speech_step_grows l q q' : speech_step l q = Some q' -> q_enqueued q `prefix_of` q_enqueued q'.
Proof.
  intros Hs. destruct q as [ch re ca cl en ta]. unfold speech_step in Hs. destruct l as [clip| | | |clip]; queue_cbn.
  - destruct (length ch <? speechDepth)%nat; [|done]. injection Hs as <-. by apply prefix_app_r.
  - destruct re; [done|]. destruct ch; [done|]. by injection Hs as <-.
  - destruct re; [|done]. by injection Hs as <-.
  - destruct ch; [done|]. by injection Hs as <-.
  - destruct (bool_decide _); [|done]. by injection Hs as <-.
Qed.

Lemma speech_run_grows ls q q' : speech_run ls q = Some q' -> q_enqueued q `prefix_of` q_enqueued q'.
Proof.
  revert q. induction ls as [|l ls IH]; intros q; cbn; [by intros [= <-]|]. destruct (speech_step l q) as [q1|] eqn:E; [|done].
  intros H. apply speech_step_grows in E. etrans; [exact E|by apply IH].
Qed.

Lemma prefix_NoDup {A} (l1 l2 : list A) : l1 `prefix_of` l2 -> NoDup l2 -> NoDup l1.
Proof. intros [k ->]. rewrite NoDup_app. tauto. Qed.

Lemma speech_run_inv ls q q' : speech_inv q -> NoDup (q_enqueued q') -> speech_run ls q = Some q' -> speech_inv q'.
Proof.
  revert q. induction ls as [|l ls IH]; intros q Hi Hnd; cbn; [by intros [= <-]|]. destruct (speech_step l q) as [q1|] eqn:E; [|done].
  intros H. apply (IH q1); [|done|done]. apply (speech_step_inv l q); [|done|done].
  eapply prefix_NoDup; [|exact Hnd]. etrans; [by eapply speech_step_grows|by eapply speech_run_grows].
Qed.

(** Clips that are not released yet, those of the channel twice. *)
Definition speech_rank (q : speechQueue) : nat := 2 * length (q_ch q) + length (in_render q) + length (q_cancelling q).

Lemma remove_length (x : nat) l : x ∈ l -> (length (List.remove Nat.eq_dec x l) < length l)%nat.
Proof. intros H. apply List.remove_length_lt. by apply list_elem_of_In. Qed.

Lemma speech_step_ranks l q q' : (forall c, l ≠ QEnqueue c) -> speech_step l q = Some q' -> (speech_rank q' < speech_rank q)%nat.
Proof.
  intros Hl. destruct q as [ch re ca cl en ta]. unfold speech_step, speech_rank. destruct l as [c| | | |c]; queue_cbn; [by destruct (Hl c)|..].
  - destruct re; [done|]. destruct ch; [done|]. intros [= <-]. queue_cbn. cbn. lia.
  - destruct re; [|done]. intros [= <-]. queue_cbn. cbn. lia.
  - destruct ch; [done|]. intros [= <-]. queue_cbn. cbn. lia.
  - case_bool_decide as H; [|done]. intros [= <-]. queue_cbn. apply remove_length in H. lia.
Qed.

Lemma speech_goes q : speech_rank q ≠ 0%nat -> exists l, (forall c, l ≠ QEnqueue c) /\ is_Some (speech_step l q).
Proof.
  destruct q as [ch re ca cl en ta]. unfold speech_rank, speech_step. queue_cbn. intros H.
  destruct re as [c|]; [exists QRendered; split; [done|by eexists]|].
  destruct ca as [|c ca]; [|exists (QCancelled c); split; [done|]; rewrite bool_decide_true by (by left); by eexists].
  destruct ch as [|c ch]; [done|]. exists QTake. split; [done|by eexists].
Qed.

(** C30: In every interleaving of callers, the worker and cancellations each clip enqueued
    is in the channel or was taken once, in order, to be rendered or dropped; every clip
    taken is released once, or in hand; and with no new clips every step brings the release
    of all of them closer, and one is always possible. *)
Theorem speech_clips_accounted (ls : list speech_label) (q : speechQueue) (Hrun : speech_run ls newSpeechQueue = Some q)
    (Hdistinct : NoDup (q_enqueued q)) :
  map fst (q_taken q) ++ q_ch q = q_enqueued q /\
  q_closed q ++ q_cancelling q ++ in_render q ≡ₚ map fst (q_taken q) /\ NoDup (q_closed q) /\
  (length (q_ch q) <= speechDepth)%nat /\
  (forall l q', (forall c, l ≠ QEnqueue c) -> speech_step l q = Some q' -> (speech_rank q' < speech_rank q)%nat) /\
  (speech_rank q ≠ 0%nat -> exists l, (forall c, l ≠ QEnqueue c) /\ is_Some (speech_step l q)) /\
  (speech_rank q = 0%nat -> q_closed q ≡ₚ q_enqueued q).
Proof.
  assert (Hi : speech_inv q) by (apply (speech_run_inv ls newSpeechQueue); [split; cbn; [done|done|lia]|done|done]).
  destruct Hi as [Ho Hc Hb]. split_and!; [done|done| |done|intros l q'; apply speech_step_ranks|apply speech_goes|].
  - rewrite <- Ho in Hdistinct. apply NoDup_app in Hdistinct as (Hd & _). rewrite <- Hc in Hd. by apply NoDup_app in Hd as (Hd & _).
  - unfold speech_rank. intros Hr. destruct (q_ch q) eqn:E1; [|cbn in Hr; lia]. destruct (q_cancelling q) eqn:E2; [|cbn in Hr; lia].
    destruct (in_render q) eqn:E3; [|cbn in Hr; lia]. rewrite app_nil_r in Ho. rewrite <- Ho, <- Hc. by rewrite !app_nil_r.
Qed.

Lemma speech_clips_accounted_witness : exists q,
  speech_run [QEnqueue 1; QEnqueue 2; QTake; QEnqueue 3; QCancel; QCancelled 2; QRendered; QTake; QRendered]%nat newSpeechQueue = Some q /\
  q_taken q = [(1, true); (2, false); (3, true)]%nat /\ q_closed q ≡ₚ q_enqueued q.
Proof.
  destruct (speech_run [QEnqueue 1; QEnqueue 2; QTake; QEnqueue 3; QCancel; QCancelled 2; QRendered; QTake; QRendered]%nat newSpeechQueue) as [q|] eqn:E;
    [|vm_compute in E; discriminate].
  exists q. split; [reflexivity|]. assert (Hnd : NoDup (q_enqueued q)) by (vm_compute in E; injection E as <-; cbn; repeat constructor; set_solver).
  pose proof (speech_clips_accounted _ q E Hnd) as (_ & _ & _ & _ & _ & _ & H).
  split; [vm_compute in E; injection E as <-; reflexivity|]. apply H. vm_compute in E. injection E as <-. reflexivity.
Defined.

(** ** Silence behind a clip *)

Local Open Scope Z_scope.

Definition scan_ok (wav : bytes) (sc : pad_scan) : Prop :=
  0 <= byteRate sc /\
  (dataSizeOff sc = -1 \/ 16 <= dataSizeOff sc /\ dataSizeOff sc + 4 <= len wav /\ dataSizeOff sc + 4 <= dataEnd sc).

Lemma le_get_nonneg l : wf_bytes l -> 0 <= le_get l.
Proof. intros H. pose proof (le_get_bound l H). lia. Qed.

Lemma zslice_wf lo hi l : wf_bytes l -> wf_bytes (zslice lo hi l).
Proof. apply slice_wf. Qed.

Lemma pad_walk_ok wav fuel i sc : wf_bytes wav -> 12 <= i -> scan_ok wav sc ->
  scan_ok wav (WalkWAVChunks_from (pad_visit wav) fuel i wav sc).
Proof.
  intros Hwf. revert i sc. induction fuel as [|fuel IH]; intros i sc Hi Hsc; [done|]. cbn [WalkWAVChunks_from].
  destruct (Z.leb_spec (i + 8) (len wav)) as [Hlen|]; [|done]. cbv zeta.
  pose proof (le_get_nonneg _ (zslice_wf (i + 4) (i + 8) wav Hwf)) as Hsz.
  assert (Hland : 0 <= Z.land (le_get (zslice (i + 4) (i + 8) wav)) 1) by (apply Z.land_nonneg; by right).
  unfold pad_visit at 1. case_bool_decide as Hf; [|case_bool_decide as Hd]; cbn [negb].
  - apply IH; [lia|]. case_match; [|done]. destruct Hsc as [_ Hsc]. split; [|done]. cbn. apply le_get_nonneg, zslice_wf, Hwf.
  - destruct Hsc as [Hr _]. split; [done|]. right. cbn. lia.
  - apply IH; [lia|done].
Qed.

Lemma put_uint32_app (p q r : bytes) x : length q = 4%nat -> put_uint32 (len p) x (p ++ q ++ r) = p ++ le_put 4 (uint32 x) ++ r.
Proof.
  intros Hq. unfold put_uint32, len. rewrite Nat2Z.id. rewrite take_app_length. f_equal. f_equal.
  replace (Z.to_nat (Z.of_nat (length p) + 4)) with (length p + 4)%nat by lia.
  rewrite app_assoc. by rewrite drop_app_length' by (rewrite length_app; lia).
Qed.

Lemma zslice_mid (p q r : bytes) a b : a = len p -> b = len p + len q -> zslice a b (p ++ q ++ r) = q.
Proof.
  intros -> ->. unfold zslice, slice, len. rewrite <- Nat2Z.inj_add, !Nat2Z.id.
  rewrite drop_app_length. replace (length p + length q - length p)%nat with (length q) by lia. by rewrite take_app_length.
Qed.

Lemma split_at (n : Z) (l : bytes) : 0 <= n <= len l -> exists p r, l = p ++ r /\ len p = n.
Proof.
  intros Hn. exists (take (Z.to_nat n) l), (drop (Z.to_nat n) l). split; [by rewrite take_drop|].
  unfold len in *. rewrite length_take. lia.
Qed.

Lemma len_put off x (l : bytes) : 0 <= off -> off + 4 <= len l -> len (put_uint32 off x l) = len l.
Proof. unfold len, put_uint32. intros. rewrite !length_app, le_put_length, length_take, length_drop. lia. Qed.

Lemma len4 (l : bytes) : len l = 4 -> length l = 4%nat.
Proof. unfold len. lia. Qed.

Lemma le_get_uint32 x : le_get (le_put 4 (uint32 x)) = uint32 x.
Proof. rewrite le_get_put. change (256 ^ Z.of_nat 4) with (2 ^ 32). unfold uint32, wrap_u. apply Z.mod_mod. lia. Qed.

(** The two sizes patched into a file laid out as [a sz c d e]. *)
Lemma put_sizes (a sz c d e : bytes) off x1 x2 :
  len a = 4 -> len sz = 4 -> len c = off - 8 -> len d = 4 ->
  put_uint32 4 x2 (put_uint32 off x1 (a ++ sz ++ c ++ d ++ e)) = a ++ le_put 4 (uint32 x2) ++ c ++ le_put 4 (uint32 x1) ++ e.
Proof.
  intros Ha Hsz Hc Hd.
  replace off with (len (a ++ sz ++ c)) by (rewrite !len_app; lia).
  replace (a ++ sz ++ c ++ d ++ e) with ((a ++ sz ++ c) ++ d ++ e) by by rewrite <- !app_assoc.
  rewrite put_uint32_app by by apply len4. rewrite <- !app_assoc.
  replace 4 with (len a) by done. by rewrite put_uint32_app by by apply len4.
Qed.

(** Reading such a file. *)
Lemma read_layout (a sz c d e : bytes) off dend :
  len a = 4 -> len sz = 4 -> len c = off - 8 -> len d = 4 -> dend = off + 4 + len e -> forall z,
  let l := a ++ sz ++ c ++ d ++ e ++ z in
  zslice 0 4 l = a /\ zslice 4 8 l = sz /\ zslice 8 off l = c /\ zslice off (off + 4) l = d /\ zslice (off + 4) dend l = e /\
  zslice dend (dend + len z) l = z.
Proof.
  intros Ha Hsz Hc Hd He z l. subst l. split_and!.
  - apply (zslice_mid [] a); [done|by rewrite Ha].
  - apply zslice_mid; lia.
  - rewrite (app_assoc a). apply zslice_mid; rewrite !len_app; lia.
  - rewrite (app_assoc a), (app_assoc (a ++ sz)). apply zslice_mid; rewrite !len_app; lia.
  - rewrite (app_assoc a), (app_assoc (a ++ sz)), (app_assoc ((a ++ sz) ++ c)). apply zslice_mid; rewrite !len_app; lia.
  - rewrite (app_assoc a), (app_assoc (a ++ sz)), (app_assoc ((a ++ sz) ++ c)), (app_assoc (((a ++ sz) ++ c) ++ d)).
    rewrite <- (app_nil_r z) at 2. apply zslice_mid; rewrite !len_app; lia.
Qed.

(** A file with a data chunk whose size stands at [off] is laid out so. *)
Lemma clip_layout (wav : bytes) off dend :
  16 <= off -> off + 4 <= dend -> dend <= len wav ->
  exists a sz c d e rest, wav = a ++ sz ++ c ++ d ++ e ++ rest /\ take (Z.to_nat dend) wav = a ++ sz ++ c ++ d ++ e /\
    len a = 4 /\ len sz = 4 /\ len c = off - 8 /\ len d = 4 /\ dend = off + 4 + len e.
Proof.
  intros H1 H2 H3. destruct (split_at dend wav ltac:(lia)) as (body & rest & Ew & Hb).
  destruct (split_at 4 body ltac:(lia)) as (a & b1 & E1 & Ha). destruct (split_at 4 b1) as (sz & b2 & E2 & Hsz); [subst body; rewrite len_app in Hb; lia|].
  destruct (split_at (off - 8) b2) as (c & b3 & E3 & Hc); [subst body b1; rewrite !len_app in Hb; lia|].
  destruct (split_at 4 b3) as (d & e & E4 & Hd); [subst body b1 b2; rewrite !len_app in Hb; lia|].
  exists a, sz, c, d, e, rest. subst body b1 b2 b3. rewrite !len_app in Hb. split_and!; [by rewrite Ew, <- !app_assoc| |done..|lia].
  rewrite Ew. apply take_app_length'. unfold len in *. rewrite !length_app. lia.
Qed.

(** A padded clip keeps its header and audio; silence and sizes are patched. *)
Theorem padded_clip (wav : bytes) (Hwf : wf_bytes wav) :
  padWAVSilence wav = wav \/
  exists off dataEnd rate pad,
    16 <= off /\ off + 4 <= dataEnd <= len wav /\ 0 < rate /\
    pad = Z.max rate (4 * rate - (dataEnd - (off + 4))) /\
    len (padWAVSilence wav) = dataEnd + pad /\
    zslice 0 4 (padWAVSilence wav) = RIFF /\
    le_get (zslice 4 8 (padWAVSilence wav)) = uint32 (len (padWAVSilence wav) - 8) /\
    zslice 8 off (padWAVSilence wav) = zslice 8 off wav /\
    le_get (zslice off (off + 4) (padWAVSilence wav)) = uint32 (dataEnd - (off + 4) + pad) /\
    zslice (off + 4) dataEnd (padWAVSilence wav) = zslice (off + 4) dataEnd wav /\
    zslice dataEnd (dataEnd + pad) (padWAVSilence wav) = replicate (Z.to_nat pad) 0.
Proof.
  unfold padWAVSilence.
  destruct ((len wav <? 12) || _ || _) eqn:Eh; [by left|]. apply orb_false_iff in Eh as [Eh _]. apply orb_false_iff in Eh as [_ HR].
  apply negb_false_iff, bool_decide_eq_true in HR.
  assert (Hok : scan_ok wav (WalkWAVChunks (pad_visit wav) wav (mkScan 0 (-1) (-1)))) by (apply pad_walk_ok; [done|lia|split; cbn; lia]).
  cbv zeta. set (sc := WalkWAVChunks (pad_visit wav) wav (mkScan 0 (-1) (-1))) in *. clearbody sc. destruct sc as [rate off dend]. cbn [byteRate dataSizeOff dataEnd] in *.
  destruct ((rate <=? 0) || _ || _ || _) eqn:Eg; [by left|right].
  apply orb_false_iff in Eg as [Eg H4%Z.ltb_ge]. apply orb_false_iff in Eg as [Eg H3%Z.ltb_ge]. apply orb_false_iff in Eg as [H1%Z.leb_gt H2%Z.ltb_ge].
  destruct Hok as [_ [Hoff|(Ho1 & _ & _)]]; cbn in Hoff || cbn in Ho1; [lia|].
  set (pad := if rate <? rate * 4 - (dend - (off + 4)) then rate * 4 - (dend - (off + 4)) else rate).
  assert (Hpad : pad = Z.max rate (4 * rate - (dend - (off + 4)))) by (subst pad; destruct (Z.ltb_spec rate (rate * 4 - (dend - (off + 4)))); lia).
  clearbody pad. destruct (clip_layout wav off dend Ho1 H3 H4) as (a & sz & c & d & e & rest & Ew & Et & Ha & Hsz & Hc & Hd & He).
  destruct (read_layout a sz c d e off dend Ha Hsz Hc Hd He rest) as (Ra & _ & Rc & _ & Re & _). rewrite <- Ew in Ra, Rc, Re.
  rewrite Et, <- !app_assoc, (put_sizes a sz c d (e ++ replicate (Z.to_nat pad) 0) off) by done.
  set (x := len _ - 8). set (z := replicate (Z.to_nat pad) 0) in *.
  assert (Hz : len z = pad) by (subst z; unfold len; rewrite length_replicate; lia).
  assert (Hput : forall y, len (le_put 4 y) = 4) by (intros y; unfold len; by rewrite le_put_length).
  destruct (read_layout a (le_put 4 (uint32 x)) c (le_put 4 (uint32 (dend - (off + 4) + pad))) e off dend Ha (Hput _) Hc (Hput _) He z)
    as (Oa & Os & Oc & Od & Oe & Oz). rewrite Hz in Oz.
  assert (Hl : len (a ++ le_put 4 (uint32 x) ++ c ++ le_put 4 (uint32 (dend - (off + 4) + pad)) ++ e ++ z) = dend + pad)
    by (rewrite !len_app, !Hput, Hz; lia).
  exists off, dend, rate, pad. rewrite Oa, Os, Oc, Od, Oe, Oz, Hl, !le_get_uint32. split_and!; try lia; try congruence.
  - subst x. rewrite len_put by (rewrite ?len_app, ?Hz; lia). rewrite !len_app, Hz. f_equal. lia.
  - done.
Qed.

(** A header of 44 bytes and one sample pair, at two bytes a second. *)
Definition ex_wav : bytes :=
  RIFF ++ le_put 4 38 ++ WAVE ++ fmt_ ++ le_put 4 16 ++ le_put 4 65537 ++ le_put 4 1 ++ le_put 4 2 ++ le_put 4 1048578 ++ data_ ++ le_put 4 2 ++ [7; 8] ++ [9; 9].

Lemma padded_clip_witness :
  padWAVSilence ex_wav ≠ ex_wav /\ zslice 44 46 (padWAVSilence ex_wav) = [7; 8] /\ le_get (zslice 40 44 (padWAVSilence ex_wav)) = 8 /\
  exists off dataEnd : Z, 16 <= off /\ off + 4 <= dataEnd /\ zslice (off + 4) dataEnd (padWAVSilence ex_wav) = zslice (off + 4) dataEnd ex_wav.
Proof.
  assert (Hwf : wf_bytes ex_wav) by (unfold wf_bytes, is_byte, ex_wav; vm_compute; repeat constructor; intros; discriminate).
  assert (Hne : padWAVSilence ex_wav ≠ ex_wav) by (vm_compute; discriminate).
  split; [exact Hne|]. split; [vm_compute; reflexivity|]. split; [vm_compute; reflexivity|].
  destruct (padded_clip ex_wav Hwf) as [E|(off & de & rate & pad & H1 & H2 & _ & _ & _ & _ & _ & _ & _ & H & _)]; [destruct (Hne E)|].
  exists off, de. split; [exact H1|]. split; [exact (proj1 H2)|exact H].
Defined.
