(* ===== verification/RtWire.v ===== *)
(** * RtWire: the messages of the speech-to-speech service

    [telephony/realtime/events.go] and [client.go]: the session handshake with
    its spliced tools, the mid-call voice update, the server events read from
    their bytes, and [Dial]'s wait for the session; and the two select cases of
    [telephony/twilio/realtime.go] that write a consumer's event and a voice. *)

From S2P Require Export RtBase Json.

Local Open Scope N_scope.

(** ** Messages written *)

Definition EventSessionUpdate : string := "session.update".
Definition EventAudioAppend : string := "input_audio_buffer.append".
Definition EventSessionCreated : string := "session.created".
Definition EventError : string := "error".
Definition FormatG711ULaw : string := "audio/pcmu".
Definition sessionTypeRealtime : string := "realtime".

(** A field marked omitempty. *)
Definition omitempty (name value : string) : list (string * json) :=
  if bool_decide (value = "") then [] else [(name, JStr value)].

Definition audioChannel (format voice : string) : json :=
  JObj ([("format", JObj [("type", JStr format)])] ++ omitempty "voice" voice).

Definition sessionSpec (instructions voice sessionID : string) : list (string * json) :=
  [("type", JStr sessionTypeRealtime)] ++ omitempty "instructions" instructions ++ omitempty "client_session_id" sessionID ++
  [("audio", JObj [("input", audioChannel FormatG711ULaw ""); ("output", audioChannel FormatG711ULaw voice)])].

Definition newSessionUpdate (instructions voice sessionID : string) : json :=
  JObj [("type", JStr EventSessionUpdate); ("session", JObj (sessionSpec instructions voice sessionID))].

(** [json.Valid]. *)
Definition json_Valid (l : list N) : bool := match Unmarshal l with Some _ => true | None => false end.

Definition HasSuffix (l suffix : list N) : bool := bool_decide (drop (length l - length suffix) l = suffix).

Inductive build_error := ErrToolsInvalid | ErrClosingBraces.

Definition buildSessionUpdate (instructions voice sessionID : string) (tools : list N) : build_error + list N :=
  let base := Marshal (newSessionUpdate instructions voice sessionID) in
  if bool_decide (tools = []) then inr base
  else if negb (json_Valid tools) then inl ErrToolsInvalid
  else if negb (HasSuffix base (str_bytes "}}")) then inl ErrClosingBraces
  else inr (take (length base - 2) base ++ (44 :: quote_string "tools" ++ [58]) ++ tools ++ [125; 125]).

Definition BuildVoiceUpdate (voice : string) : list N :=
  Marshal (JObj [("type", JStr EventSessionUpdate);
    ("session", JObj [("type", JStr sessionTypeRealtime); ("audio", JObj [("output", JObj [("voice", JStr voice)])])])]).

(** [Client.AppendAudio]'s message. *)
Definition audioAppend (payload : string) : list N := Marshal (JObj [("type", JStr EventAudioAppend); ("audio", JStr payload)]).

(** ** Server events *)

Definition set_event (n : string) (v : json) (e : ServerEvent) : option ServerEvent :=
  if bool_decide (n = "type") then s ← decode_string v (ev_Type e); Some (mkServerEvent s (ev_Delta e) (ev_Transcript e) (ev_probe e))
  else if bool_decide (n = "delta") then s ← decode_string v (ev_Delta e); Some (mkServerEvent (ev_Type e) s (ev_Transcript e) (ev_probe e))
  else s ← decode_string v (ev_Transcript e); Some (mkServerEvent (ev_Type e) (ev_Delta e) s (ev_probe e)).

(** [ResponseEndedInFunctionCall]'s probe: the frame's type, and the types of
    the response's output items. *)
Definition set_item_type (n : string) (v : json) (ty : string) : option string := decode_string v ty.

Fixpoint decode_items (vs : list json) (old : list string) : option (list string) :=
  match vs with
  | [] => Some []
  | v :: vs =>
      ty ← decode_struct ["type"] set_item_type v (default "" (head old));
      tys ← decode_items vs (tail old);
      Some (ty :: tys)
  end.

Definition set_response (n : string) (v : json) (items : list string) : option (list string) :=
  match v with JNull => Some [] | JArr vs => decode_items vs items | _ => None end.

Definition set_probe (n : string) (v : json) (p : string * list string) : option (string * list string) :=
  if bool_decide (n = "type") then s ← decode_string v (fst p); Some (s, snd p)
  else items ← decode_struct ["output"] set_response v (snd p); Some (fst p, items).

Definition read_probe (raw : list N) : option (string * list string) :=
  v ← Unmarshal raw; decode_struct ["type"; "response"] set_probe v ("", []).

(** [Client.Read] on a message's bytes. *)
Definition read_event (data : list N) : option ServerEvent :=
  v ← Unmarshal data; decode_struct ["type"; "delta"; "transcript"] set_event v (mkServerEvent "" "" "" (read_probe data)).

(** ** Dial *)

Definition maxFrameInError : nat := 512.

(** The clipped text, and how many bytes are left out. *)
Definition clipFrame (raw : list N) : list N * option nat :=
  if (length raw <=? maxFrameInError)%nat then (raw, None) else (take maxFrameInError raw, Some (length raw - maxFrameInError)%nat).

Inductive read_error := ErrRead | ErrDecoding.

Inductive dial_error :=
| ErrDial
| ErrBuilding (e : build_error)
| ErrSending
| ErrAwaiting (e : read_error) (last : option (list N * option nat)).

(** The wait for the session: [None] while it waits for another message.  A
    read yields a message's bytes or fails. *)
Fixpoint await_session (reads : list (option (list N))) (last : list N) (haveError : bool) : option (option dial_error) :=
  match reads with
  | [] => None
  | r :: reads =>
      let failed e := Some (Some (ErrAwaiting e (if (0 <? length last)%nat then Some (clipFrame last) else None))) in
      match r with
      | None => failed ErrRead
      | Some data =>
          match read_event data with
          | None => failed ErrDecoding
          | Some ev =>
              if bool_decide (ev_Type ev = EventSessionCreated) then Some None
              else if negb haveError then await_session reads data (bool_decide (ev_Type ev = EventError))
              else await_session reads last haveError
          end
      end
  end.

Inductive net_event := NSent (msg : list N) | NClosed.

(** What the network is asked, and how [Dial] returns: a client, or an error. *)
Definition Dial (instructions voice sessionID : string) (tools : list N) (connects write_ok : bool) (reads : list (option (list N))) :
    list net_event * option (option dial_error) :=
  if negb connects then ([], Some (Some ErrDial))
  else
    match buildSessionUpdate instructions voice sessionID tools with
    | inl e => ([NClosed], Some (Some (ErrBuilding e)))
    | inr handshake =>
        if negb write_ok then ([NClosed], Some (Some ErrSending))
        else
          let r := await_session reads [] false in
          ([NSent handshake] ++ match r with Some (Some _) => [NClosed] | _ => [] end, r)
    end.

(** ** The consumer's events and voices *)

Definition set_type (n : string) (v : json) (ty : string) : option string := decode_string v ty.

(** The message written, if one is; whether the channel stays; and whether the
    call ends.  [None] is a closed channel. *)
Definition handleClientEvent (ev : option (list N)) (write_ok : bool) : option (list N) * bool * bool :=
  match ev with
  | None => (None, false, false)
  | Some ev =>
      if bool_decide ((v ← Unmarshal ev; decode_struct ["type"] set_type v "") = Some EventSessionUpdate) then (None, true, false)
      else (Some ev, true, negb write_ok)
  end.

Definition handleVoiceUpdate (voice : option string) (write_ok : bool) : option (list N) * bool * bool :=
  match voice with
  | None => (None, false, false)
  | Some voice => if bool_decide (voice = "") then (None, true, false) else (Some (BuildVoiceUpdate voice), true, negb write_ok)
  end.
