(* ===== verification/RtWireThms.v ===== *)
(** * RtWireThms: the handshake reads back

    A JSON value read from a text is read the same way where the text stands
    inside another, at any depth the nesting limit allows; so the handshake with
    its spliced tools is read as the session it declares. *)

From S2P Require Export RtWire JsonThms.

Local Open Scope N_scope.

(** ** A value inside a longer text *)

Lemma rune_len_app b l rest : 34 ∈ l -> rune_len ((b :: l) ++ rest) = rune_len (b :: l).
Proof.
  assert (H34 : forall lo hi, (35 <= lo) -> GoStrings.between lo hi 34 = false).
  { intros. unfold GoStrings.between. by rewrite (proj2 (N.leb_gt _ _)) by lia. }
  assert (Hc : is_cont 34 = false) by done.
  intros H. destruct l as [|b1 [|b2 [|b3 l]]]; [by apply elem_of_nil in H| | |done];
    repeat (apply elem_of_cons in H as [<-|H]); try (by apply elem_of_nil in H);
    destruct rest as [|r0 [|r1 [|r2 rest]]]; cbn [app]; try done; unfold rune_len; rewrite ?Hc, ?H34 by lia;
    rewrite ?andb_false_r; cbn [orb andb]; rewrite ?andb_false_r, ?orb_false_r; cbn [andb]; try done; by repeat case_match.
Qed.

Lemma rune_len_le b l : (rune_len (b :: l) <= length (b :: l))%nat.
Proof.
  destruct (rune_len_cases (b :: l) ltac:(done)) as [E|(n & _ & E & H & _)]; rewrite E; [cbn; lia|].
  rewrite <- H at 1. rewrite length_take. lia.
Qed.

Lemma parse_u4_app l n r rest : parse_u4 l = Some (n, r) -> parse_u4 (l ++ rest) = Some (n, r ++ rest).
Proof.
  destruct l as [|a [|b [|c [|d l]]]]; try done. cbn [app parse_u4].
  destruct (hex_val a), (hex_val b), (hex_val c), (hex_val d); cbn; try done. by intros [= <- <-].
Qed.

(** Half a surrogate pair looks ahead, but not past the closing quote. *)
Lemma parse_unicode_app l s r rest : 34 ∈ r -> parse_unicode l = Some (s, r) -> parse_unicode (l ++ rest) = Some (s, r ++ rest).
Proof.
  intros Hq. unfold parse_unicode. destruct (parse_u4 l) as [[n l1]|] eqn:E; [|done]. rewrite (parse_u4_app _ _ _ rest E). cbn [mbind option_bind].
  destruct (GoStrings.between _ _ n); [|by intros [= <- <-]].
  destruct l1 as [|x l1]; [intros [= _ <-]; by apply elem_of_nil in Hq|]. cbn [app].
  destruct x as [|x]; [by intros [= <- <-]|]. do 7 (destruct x as [x|x|]; try (by intros [= <- <-])).
  destruct l1 as [|y l1]; [intros [= _ <-]; by apply elem_of_cons in Hq as [?|?%elem_of_nil]|]. cbn [app].
  destruct y as [|y]; [by intros [= <- <-]|]. do 7 (destruct y as [y|y|]; try (by intros [= <- <-])).
  destruct (parse_u4 l1) as [[n2 l2]|] eqn:E2; [|done]. rewrite (parse_u4_app _ _ _ rest E2). cbn [mbind option_bind].
  destruct (_ && _); by intros [= <- <-].
Qed.

Lemma parse_escape_app l s r rest : 34 ∈ r -> parse_escape l = Some (s, r) -> parse_escape (l ++ rest) = Some (s, r ++ rest).
Proof.
  intros Hq. destruct l as [|e l]; [done|]. cbn [app parse_escape].
  repeat (case_match; [try (by intros [= <- <-]); try (by apply parse_unicode_app)|]); done.
Qed.

Lemma parse_unicode_suffix l s r : parse_unicode l = Some (s, r) -> r `suffix_of` l.
Proof.
  assert (H4 : forall l n r, parse_u4 l = Some (n, r) -> r `suffix_of` l).
  { intros l' n' r' H. destruct l' as [|a [|b [|c [|d l']]]]; try done. cbn in H.
    destruct (hex_val a), (hex_val b), (hex_val c), (hex_val d); try done. injection H as _ <-. by exists [a; b; c; d]. }
  unfold parse_unicode. destruct (parse_u4 l) as [[n l1]|] eqn:E; [|done]. apply H4 in E. cbn [mbind option_bind].
  destruct (GoStrings.between _ _ n); [|by intros [= _ <-]].
  destruct l1 as [|x l1]; [by intros [= _ <-]|]. destruct x as [|x]; [by intros [= <- <-]|]. do 7 (destruct x as [x|x|]; try (by intros [= <- <-])).
  destruct l1 as [|y l1]; [by intros [= _ <-]|]. destruct y as [|y]; [by intros [= <- <-]|]. do 7 (destruct y as [y|y|]; try (by intros [= <- <-])).
  destruct (parse_u4 l1) as [[n2 l2]|] eqn:E2; [|done]. apply H4 in E2. cbn [mbind option_bind].
  destruct (_ && _); intros [= _ <-]; [|done]. etrans; [exact E2|]. etrans; [|exact E]. by exists [92; 117].
Qed.

Lemma parse_escape_quote l s r : 34 ∈ r -> parse_escape l = Some (s, r) -> 34 ∈ l.
Proof.
  intros Hq. destruct l as [|e l]; [done|]. cbn [parse_escape].
  repeat (case_match; [try (by intros [= _ <-]; right)|]); [|done].
  intros [p ->]%parse_unicode_suffix. right. apply elem_of_app. by right.
Qed.

Lemma parse_chars_app f l s r rest : parse_chars f l = Some (s, r) -> 34 ∈ l /\ parse_chars f (l ++ rest) = Some (s, r ++ rest).
Proof.
  revert l s r. induction f as [|f IH]; intros l s r; [done|]. destruct l as [|b l]; [done|]. cbn [app parse_chars].
  destruct (N.eqb_spec b 34) as [->|Hb]; [intros [= <- <-]; split; [by left|done]|].
  destruct (N.eqb_spec b 92) as [->|Hb'].
  - destruct (parse_escape l) as [[c l1]|] eqn:E; [|done]. cbn [mbind option_bind].
    destruct (parse_chars f l1) as [[s1 r1]|] eqn:E1; [|done]. destruct (IH _ _ _ E1) as [Hq Ha]. cbn. intros [= <- <-].
    split; [right; by eapply parse_escape_quote|]. rewrite (parse_escape_app _ _ _ rest Hq E). cbn. by rewrite Ha.
  - destruct (b <? 32); [done|]. cbv zeta. 
    destruct (parse_chars f (drop (rune_len (b :: l)) (b :: l))) as [[s1 r1]|] eqn:E1; [|done]. destruct (IH _ _ _ E1) as [Hq Ha].
    pose proof (rune_len_pos b l) as Hpos. pose proof (rune_len_le b l) as Hle.
    assert (Hl : 34 ∈ l).
    { destruct (rune_len (b :: l)) as [|n]; [lia|]. cbn [drop] in Hq. eapply (subseteq_drop n l). exact Hq. }
    intros [= <- <-]. split; [by right|].
    change (b :: l ++ rest) with ((b :: l) ++ rest). rewrite rune_len_app by done. rewrite drop_app_le, take_app_le by done. by rewrite Ha.
Qed.

Lemma parse_string_app l s r rest : parse_string l = Some (s, r) -> parse_string (l ++ rest) = Some (s, r ++ rest).
Proof.
  unfold parse_string. destruct (parse_chars (S (length l)) l) as [[c r1]|] eqn:E; [|done]. cbn [mbind option_bind]. intros [= <- <-].
  rewrite (parse_chars_fuel _ (S (length (l ++ rest)))) in E by (rewrite ?length_app; lia).
  destruct (parse_chars_app _ _ _ _ rest E) as [_ Ha]. by rewrite Ha.
Qed.

Lemma skip_ws_app l b r rest : skip_ws l = b :: r -> skip_ws (l ++ rest) = b :: r ++ rest.
Proof. induction l as [|a l IH]; [done|]. cbn. destruct (is_ws a); [done|]. by intros [= <- <-]. Qed.

Lemma strip_prefix_app p l r rest : strip_prefix p l = Some r -> strip_prefix p (l ++ rest) = Some (r ++ rest).
Proof. revert l. induction p as [|a p IH]; intros [|b l]; cbn; try done; [by intros [= <-]..|]. destruct (a =? b); [apply IH|done]. Qed.

(** A literal: null, true, false, or a number. *)
Definition parse_literal (l : list N) : option (json * list N) :=
  match strip_prefix (str_bytes "null") l, strip_prefix (str_bytes "true") l, strip_prefix (str_bytes "false") l with
  | Some r, _, _ => Some (JNull, r)
  | _, Some r, _ => Some (JBool true, r)
  | _, _, Some r => Some (JBool false, r)
  | _, _, _ => '(lit, r) ← parse_number l; Some (JNum lit, r)
  end.

Lemma number_first l lit r : parse_number l = Some (lit, r) -> exists b l', l = b :: l' /\ (b = 45 \/ 48 <= b <= 57).
Proof.
  destruct l as [|b l]; [done|]. intros H. exists b, l. split; [done|]. unfold parse_number in H. destruct (N.eqb_spec b 45); [by left|]. right.
  unfold parse_int_part in H. destruct (N.eqb_spec b 48) as [->|]; [lia|].
  unfold digits1 in H. cbn [take_digits] in H. destruct (digit b) eqn:E; [|done]. unfold digit, GoStrings.between in E. bool_lia.
Qed.

Lemma parse_literal_app l v r rest : num_end rest -> parse_literal l = Some (v, r) -> parse_literal (l ++ rest) = Some (v, r ++ rest).
Proof.
  intros Hend. unfold parse_literal.
  destruct (strip_prefix (str_bytes "null") l) as [r0|] eqn:E0; [intros [= <- <-]; by rewrite (strip_prefix_app _ _ _ rest E0)|].
  destruct (strip_prefix (str_bytes "true") l) as [r1|] eqn:E1.
  { intros [= <- <-]. rewrite (strip_prefix_app _ _ _ rest E1). destruct l as [|b l]; [done|].
    cbn [app]. change (str_bytes "null") with [110; 117; 108; 108]. change (str_bytes "true") with [116; 114; 117; 101] in E1.
    cbn [strip_prefix] in *. destruct (N.eqb_spec 116 b) as [<-|]; [done|done]. }
  destruct (strip_prefix (str_bytes "false") l) as [r2|] eqn:E2.
  { intros [= <- <-]. rewrite (strip_prefix_app _ _ _ rest E2). destruct l as [|b l]; [done|].
    cbn [app]. change (str_bytes "null") with [110; 117; 108; 108]. change (str_bytes "true") with [116; 114; 117; 101].
    change (str_bytes "false") with [102; 97; 108; 115; 101] in E2. cbn [strip_prefix] in *. destruct (N.eqb_spec 102 b) as [<-|]; done. }
  destruct (parse_number l) as [[lit r']|] eqn:E; [|done]. intros [= <- <-]. destruct (number_first _ _ _ E) as (b & l' & -> & Hb).
  rewrite (parse_number_app _ _ _ _ Hend E). cbn [app].
  change (str_bytes "null") with [110; 117; 108; 108]. change (str_bytes "true") with [116; 114; 117; 101].
  change (str_bytes "false") with [102; 97; 108; 115; 101]. cbn [strip_prefix]. by rewrite !(proj2 (N.eqb_neq _ b)) by lia.
Qed.

Lemma parse_value_step f d l :
  parse_value (S f) d l =
  match skip_ws l with
  | [] => None
  | b :: l' =>
      if b =? 34 then '(s, r) ← parse_string l'; Some (JStr s, r)
      else if (b =? 123) || (b =? 91) then
        if maxNestingDepth <=? d then None
        else
          match skip_ws l' with
          | c :: r =>
              if c =? (if b =? 123 then 125 else 93) then Some (if b =? 123 then JObj [] else JArr [], r)
              else if b =? 123 then '(ms, r) ← parse_members f (d + 1) l'; Some (JObj ms, r)
              else '(vs, r) ← parse_elems f (d + 1) l'; Some (JArr vs, r)
          | [] => None
          end
      else parse_literal (b :: l')
  end.
Proof. reflexivity. Qed.

(** The nesting of a list of values, and of members. *)
Definition heights (vs : list json) : N := foldr (fun v h => N.max (height v) h) 0 vs.
Definition member_heights (ms : list (string * json)) : N := foldr (fun m h => N.max (height (snd m)) h) 0 ms.

Lemma num_end_comma : forall rest, num_end (44 :: rest). Proof. done. Qed.

(** At another depth, and before something that does not continue a number. *)
Lemma readers_app f : forall d d' l rest, num_end rest ->
  (forall v r, parse_value f d l = Some (v, r) -> height v + d' <= maxNestingDepth -> parse_value f d' (l ++ rest) = Some (v, r ++ rest)) /\
  (forall vs r, parse_elems f d l = Some (vs, r) -> heights vs + d' <= maxNestingDepth -> parse_elems f d' (l ++ rest) = Some (vs, r ++ rest)) /\
  (forall ms r, parse_members f d l = Some (ms, r) -> member_heights ms + d' <= maxNestingDepth -> parse_members f d' (l ++ rest) = Some (ms, r ++ rest)).
Proof.
  induction f as [|f IH]; intros d d' l rest Hend; [by split_and!|]. split_and!.
  - intros v r. rewrite !parse_value_step. destruct (skip_ws l) as [|b l'] eqn:El; [done|]. rewrite (skip_ws_app _ _ _ rest El).
    destruct (b =? 34).
    { destruct (parse_string l') as [[s r']|] eqn:E; [|done]. rewrite (parse_string_app _ _ _ rest E). by intros [= <- <-] _. }
    destruct ((b =? 123) || (b =? 91)).
    2: { intros H _. by apply (parse_literal_app (b :: l')). }
    destruct (maxNestingDepth <=? d); [done|]. destruct (skip_ws l') as [|c l''] eqn:El'; [done|]. rewrite (skip_ws_app _ _ _ rest El').
    destruct (c =? _).
    { intros [= <- <-] Hh. rewrite (proj2 (N.leb_gt _ _)); [done|]. destruct (b =? 123); cbn in Hh; lia. }
    destruct (b =? 123).
    + destruct (parse_members f (d + 1) l') as [[ms r']|] eqn:E; [|done]. intros [= <- <-] Hh. cbn [height] in Hh. fold (member_heights ms) in Hh.
      rewrite (proj2 (N.leb_gt _ _)) by lia. destruct (IH (d + 1) (d' + 1) l' rest Hend) as (_ & _ & Hm). by rewrite (Hm _ _ E) by lia.
    + destruct (parse_elems f (d + 1) l') as [[vs r']|] eqn:E; [|done]. intros [= <- <-] Hh. cbn [height] in Hh. fold (heights vs) in Hh.
      rewrite (proj2 (N.leb_gt _ _)) by lia. destruct (IH (d + 1) (d' + 1) l' rest Hend) as (_ & He & _). by rewrite (He _ _ E) by lia.
  - intros vs r. cbn [parse_elems]. destruct (IH d d' l rest Hend) as (Hv & _ & _).
    destruct (parse_value f d l) as [[v l1]|] eqn:E; [|done]. cbn [mbind option_bind].
    destruct (skip_ws l1) as [|b l2] eqn:El; [done|]. destruct (b =? 44) eqn:Eb.
    + destruct (parse_elems f d l2) as [[vs' r']|] eqn:E2; [|done]. intros [= <- <-] Hh. cbn in Hh. fold (heights vs') in Hh.
      rewrite (Hv _ _ eq_refl) by lia. cbn [mbind option_bind]. rewrite (skip_ws_app _ _ _ rest El), Eb.
      destruct (IH d d' l2 rest Hend) as (_ & He & _). by rewrite (He _ _ E2) by lia.
    + destruct (b =? 93) eqn:Eb'; [|done]. intros [= <- <-] Hh. cbn in Hh.
      rewrite (Hv _ _ eq_refl) by lia. cbn [mbind option_bind]. by rewrite (skip_ws_app _ _ _ rest El), Eb, Eb'.
  - intros ms r. cbn [parse_members]. destruct (skip_ws l) as [|q l1] eqn:El; [done|]. rewrite (skip_ws_app _ _ _ rest El).
    destruct (q =? 34); [|done]. destruct (parse_string l1) as [[k l2]|] eqn:E1; [|done]. rewrite (parse_string_app _ _ _ rest E1). cbn [mbind option_bind].
    destruct (skip_ws l2) as [|c l3] eqn:El2; [done|]. rewrite (skip_ws_app _ _ _ rest El2). destruct (c =? 58); [|done].
    destruct (IH d d' l3 rest Hend) as (Hv & _ & _).
    destruct (parse_value f d l3) as [[v l4]|] eqn:E; [|done]. cbn [mbind option_bind].
    destruct (skip_ws l4) as [|b l5] eqn:El4; [done|]. destruct (b =? 44) eqn:Eb.
    + destruct (parse_members f d l5) as [[ms' r']|] eqn:E2; [|done]. intros [= <- <-] Hh. cbn in Hh. fold (member_heights ms') in Hh.
      rewrite (Hv _ _ eq_refl) by lia. cbn [mbind option_bind]. rewrite (skip_ws_app _ _ _ rest El4), Eb.
      destruct (IH d d' l5 rest Hend) as (_ & _ & Hm). by rewrite (Hm _ _ E2) by lia.
    + destruct (b =? 125) eqn:Eb'; [|done]. intros [= <- <-] Hh. cbn in Hh.
      rewrite (Hv _ _ eq_refl) by lia. cbn [mbind option_bind]. by rewrite (skip_ws_app _ _ _ rest El4), Eb, Eb'.
Qed.

(** ** Objects made of texts *)

(** The text [t] is read as [v], up to white space. *)
Definition text_reads (t : list N) (v : json) : Prop := forall f depth rest,
  (2 * length t + 1 <= f)%nat -> height v + depth <= maxNestingDepth -> num_end rest ->
  exists w, skip_ws w = [] /\ parse_value f depth (t ++ rest) = Some (v, w ++ rest).

Lemma text_reads_Marshal v : json_ok v = true -> text_reads (Marshal v) v.
Proof. intros H f depth rest Hf Hh Hr. exists []. split; [done|]. by apply (json_reads v H). Qed.

Lemma text_reads_Unmarshal t v : Unmarshal t = Some v -> text_reads t v.
Proof.
  unfold Unmarshal. destruct (parse_value (parse_fuel t) 0 t) as [[v' w]|] eqn:E; [|done]. cbn [mbind option_bind].
  case_bool_decide as Hw; [|done]. intros [= ->] f depth rest Hf Hh Hr. exists w. split; [done|].
  destruct (readers_fuel (parse_fuel t) f 0 t) as (Hv & _). unfold parse_fuel in *. rewrite Hv in E by lia.
  destruct (readers_app f 0 depth t rest Hr) as (Ha & _). by apply Ha.
Qed.

Lemma skip_blank w b rest : skip_ws w = [] -> is_ws b = false -> skip_ws (w ++ b :: rest) = b :: rest.
Proof. intros Hw Hb. induction w as [|a w IH]; cbn in *; [by rewrite Hb|]. destruct (is_ws a); [auto|done]. Qed.

Definition text_member (m : string * (list N * json)) : list N := quote_string (fst m) ++ 58 :: fst (snd m).

Lemma parse_members_texts ms f depth rest :
  ms <> [] -> Forall (fun m => Valid (fst m) = true /\ text_reads (fst (snd m)) (snd (snd m)) /\ height (snd (snd m)) + depth <= maxNestingDepth) ms ->
  (2 * length (comma_sep (map text_member ms)) + 2 <= f)%nat ->
  parse_members f depth (comma_sep (map text_member ms) ++ 125 :: rest) = Some (map (fun m => (fst m, snd (snd m))) ms, rest).
Proof.
  intros Hne Hall. revert f. induction Hall as [|[k [t v]] ms (Hk & Hv & Hh) Hms IH]; intros f Hf; [done|].
  destruct f as [|f]; [lia|]. cbn [parse_members map comma_sep fst snd] in *. rewrite length_app in Hf. rewrite <- app_assoc.
  unfold text_member at 1, quote_string. cbn [fst snd app skip_ws]. change (is_ws 34) with false. cbv iota. change (34 =? 34) with true. cbv iota.
  rewrite <- !app_assoc. cbn [app]. rewrite parse_string_quoted by done. cbn [mbind option_bind skip_ws]. change (is_ws 58) with false. cbv iota.
  change (58 =? 58) with true. cbv iota.
  assert (Hlen : (2 * length t + 1 <= f)%nat).
  { unfold text_member in Hf. cbn [fst snd] in Hf. rewrite length_app in Hf. cbn [length] in Hf. lia. }
  destruct ms as [|m' ms].
  - cbn [concat map app]. destruct (Hv f depth (125 :: rest) Hlen Hh ltac:(done)) as (w & Hw & ->). cbn [mbind option_bind].
    by rewrite (skip_blank w 125).
  - change (concat (map (fun l => 44 :: l) (map text_member (m' :: ms)))) with (44 :: comma_sep (map text_member (m' :: ms))) in *.
    destruct (Hv f depth ((44 :: comma_sep (map text_member (m' :: ms))) ++ 125 :: rest) Hlen Hh ltac:(done)) as (w & Hw & ->).
    cbn [mbind option_bind app]. rewrite (skip_blank w 44) by done. change (44 =? 44) with true. cbv iota.
    rewrite IH by (done || cbn [length] in *; lia). done.
Qed.

(** An object written member by member. *)
Definition object_text (ms : list (string * (list N * json))) : list N := 123 :: comma_sep (map text_member ms) ++ [125].
Definition object_value (ms : list (string * (list N * json))) : json := JObj (map (fun m => (fst m, snd (snd m))) ms).

Lemma object_text_reads ms :
  ms <> [] -> Forall (fun m => Valid (fst m) = true /\ text_reads (fst (snd m)) (snd (snd m))) ms -> text_reads (object_text ms) (object_value ms).
Proof.
  intros Hne Hall f depth rest Hf Hh Hr. exists []. split; [done|]. unfold object_text in *. cbn [length] in Hf. rewrite length_app in Hf. cbn [length] in Hf.
  destruct f as [|f]; [lia|]. rewrite parse_value_step. cbn [app skip_ws]. change (is_ws 123) with false. cbv iota.
  change (123 =? 34) with false. change (123 =? 123) with true. cbn [orb]. cbv iota. unfold object_value in *. cbn [height] in Hh.
  rewrite (proj2 (N.leb_gt _ _)) by lia. rewrite <- app_assoc. cbn [app].
  destruct ms as [|m ms]; [done|].
  assert (Hhead : exists b l, comma_sep (map text_member (m :: ms)) ++ 125 :: rest = b :: l /\ b = 34) by (eexists _, _; split; reflexivity).
  destruct Hhead as (b & l & E & ->). rewrite E. cbn [skip_ws]. change (is_ws 34) with false. cbv iota. change (34 =? 125) with false. cbv iota. rewrite <- E.
  rewrite parse_members_texts; [done|done| |lia].
  rewrite Forall_forall in Hall |- *. intros x Hx. destruct (Hall x Hx) as [H1 H2]. split_and!; [done|done|].
  set (vs := map (fun m : string * (list N * json) => (fst m, snd (snd m))) (m :: ms)) in *.
  assert (Hin : (fst x, snd (snd x)) ∈ vs).
  { apply list_elem_of_In, (in_map (fun m : string * (list N * json) => (fst m, snd (snd m)))). by apply list_elem_of_In. }
  assert (Hd : foldr (fun m h => N.max (height (snd m)) h) 0 vs <= maxNestingDepth - 1 - depth) by lia.
  pose proof (foldr_max_bound (fun m => height (snd m)) vs _ _ Hd Hin) as Hb. cbn [snd] in Hb. lia.
Qed.

(** ** The handshake *)

Definition marshalled (m : string * json) : string * (list N * json) := (fst m, (Marshal (snd m), snd m)).

Lemma Marshal_object ms : Marshal (JObj ms) = object_text (map marshalled ms).
Proof. unfold object_text. cbn [Marshal]. rewrite !map_map. done. Qed.

Lemma comma_sep_snoc ls l : ls <> [] -> comma_sep (ls ++ [l]) = comma_sep ls ++ 44 :: l.
Proof. destruct ls as [|l0 ls]; [done|]. intros _. cbn [comma_sep app]. rewrite map_app, concat_app. cbn. rewrite app_nil_r. by rewrite app_assoc. Qed.

Lemma omitempty_ok name value : Valid name = true -> Valid value = true -> forallb (fun m => Valid (fst m) && json_ok (snd m)) (omitempty name value) = true.
Proof. intros H1 H2. unfold omitempty. case_bool_decide; [done|]. cbn [forallb fst snd json_ok]. by rewrite H1, H2. Qed.

Lemma sessionSpec_ok instructions voice sessionID :
  Valid instructions = true -> Valid voice = true -> Valid sessionID = true ->
  forallb (fun m => Valid (fst m) && json_ok (snd m)) (sessionSpec instructions voice sessionID) = true.
Proof.
  intros H1 H2 H3. unfold sessionSpec. rewrite !forallb_app, !omitempty_ok by done. unfold audioChannel. cbn [forallb fst snd json_ok app].
  by rewrite !omitempty_ok by done.
Qed.

Lemma sessionSpec_height instructions voice sessionID : height (JObj (sessionSpec instructions voice sessionID)) = 4.
Proof. unfold sessionSpec, audioChannel, omitempty. repeat case_bool_decide; reflexivity. Qed.

(** What the far end reads: the session's members, and the tools as the last. *)
Definition session_value (instructions voice sessionID : string) (tools : list (string * json)) : json :=
  JObj [("type", JStr EventSessionUpdate); ("session", JObj (sessionSpec instructions voice sessionID ++ tools))].

Lemma session_text_head instructions voice sessionID :
  map text_member (map marshalled (sessionSpec instructions voice sessionID)) <> [].
Proof. done. Qed.

Ltac flat := repeat first [rewrite <- app_assoc | progress cbn [app]].

(** The splice: the handshake's text is that of the session's members and the
    tools' text as one more. *)
Lemma splice_text instructions voice sessionID tools v w :
  let base := Marshal (newSessionUpdate instructions voice sessionID) in
  HasSuffix base (str_bytes "}}") = true /\
  take (length base - 2) base ++ (44 :: quote_string "tools" ++ [58]) ++ tools ++ [125; 125] =
  object_text [("type", (Marshal (JStr EventSessionUpdate), JStr EventSessionUpdate));
    ("session", (object_text (map marshalled (sessionSpec instructions voice sessionID) ++ [("tools", (tools, v))]), w))].
Proof.
  cbv zeta. unfold newSessionUpdate. set (ms := sessionSpec instructions voice sessionID).
  assert (E : exists p, Marshal (JObj [("type", JStr EventSessionUpdate); ("session", JObj ms)]) = (p ++ comma_sep (map text_member (map marshalled ms))) ++ [125; 125] /\
    forall t, object_text [("type", (Marshal (JStr EventSessionUpdate), JStr EventSessionUpdate)); ("session", (123 :: t ++ [125], w))] = p ++ t ++ [125; 125]).
  { eexists (123 :: text_member (marshalled ("type", JStr EventSessionUpdate)) ++ 44 :: quote_string "session" ++ [58; 123]). split.
    - rewrite Marshal_object. cbn [map]. unfold object_text. cbn [comma_sep map concat]. unfold text_member at 2. unfold marshalled at 2 3. cbn [fst snd].
      rewrite Marshal_object. unfold object_text. rewrite app_nil_r. flat. done.
    - intros t. unfold object_text. cbn [comma_sep map concat]. unfold text_member at 2. cbn [fst snd]. rewrite app_nil_r. flat. done. }
  destruct E as (p & E & Ho). rewrite E. split.
  - unfold HasSuffix. apply bool_decide_eq_true. change (str_bytes "}}") with [125; 125]. rewrite length_app. cbn [length].
    replace (_ + 2 - 2)%nat with (length (p ++ comma_sep (map text_member (map marshalled ms)))) by lia. by rewrite drop_app_length.
  - unfold object_text at 2. rewrite Ho. rewrite length_app. cbn [length].
    replace (_ + 2 - 2)%nat with (length (p ++ comma_sep (map text_member (map marshalled ms)))) by lia. rewrite take_app_length.
    rewrite map_app. cbn [map]. rewrite comma_sep_snoc by done. unfold text_member at 3. cbn [fst snd].
    flat. done.
Qed.

Lemma marshalled_reads ms : forallb (fun m => Valid (fst m) && json_ok (snd m)) ms = true ->
  Forall (fun m => Valid (fst m) = true /\ text_reads (fst (snd m)) (snd (snd m))) (map marshalled ms).
Proof.
  intros H. apply Forall_map, Forall_forall. intros [k v] Hin. rewrite forallb_forall in H.
  specialize (H (k, v) (proj1 (list_elem_of_In _ _) Hin)). cbn [fst snd] in H. apply andb_true_iff in H as [H1 H2]. cbn.
  split; [done|by apply text_reads_Marshal].
Qed.

Lemma marshalled_values ms : map (fun m => (fst m, snd (snd m))) (map marshalled ms) = ms.
Proof. rewrite map_map. rewrite <- (map_id ms) at 2. apply map_ext. by intros [k v]. Qed.

Lemma heights_app (l1 l2 : list (string * json)) : member_heights (l1 ++ l2) = N.max (member_heights l1) (member_heights l2).
Proof. induction l1 as [|m l1 IH]; cbn [app member_heights foldr]; [by rewrite N.max_0_l|]. fold (member_heights (l1 ++ l2)). rewrite IH. unfold member_heights. lia. Qed.

(** A text read as a value, and nothing behind it. *)
Lemma Unmarshal_text t v : text_reads t v -> height v <= maxNestingDepth -> Unmarshal t = Some v.
Proof.
  intros Ht Hh. unfold Unmarshal, parse_fuel. destruct (Ht (S (S (2 * length t))) 0 [] ltac:(lia) ltac:(lia) I) as (w & Hw & E).
  rewrite !app_nil_r in E. rewrite E. cbn [mbind option_bind]. by rewrite Hw.
Qed.

(** A handshake, with tools or without, reads back as the session with the tools last. *)
Lemma session_reads_back instructions voice sessionID tools tv :
  Valid instructions = true -> Valid voice = true -> Valid sessionID = true ->
  tools = [] \/ Unmarshal tools = Some tv /\ height tv + 2 <= maxNestingDepth ->
  exists out, buildSessionUpdate instructions voice sessionID tools = inr out /\
    Unmarshal out = Some (session_value instructions voice sessionID (if bool_decide (tools = []) then [] else [("tools", tv)])) /\
    (tools <> [] -> exists p, out = p ++ tools ++ [125; 125]).
Proof.
  intros H1 H2 H3 Ht. pose proof (sessionSpec_ok _ _ _ H1 H2 H3) as Hok. pose proof (sessionSpec_height instructions voice sessionID) as Hh.
  cbn [height] in Hh. fold (member_heights (sessionSpec instructions voice sessionID)) in Hh.
  unfold buildSessionUpdate. case_bool_decide as E.
  - eexists. split; [done|]. split; [|done]. unfold session_value. rewrite app_nil_r. apply Unmarshal_Marshal.
    + cbn [json_ok forallb fst snd]. by rewrite Hok.
    + unfold newSessionUpdate. cbn [height foldr fst snd]. fold (member_heights (sessionSpec instructions voice sessionID)). unfold maxNestingDepth. lia.
  - destruct Ht as [?|[Ht Hd]]; [done|]. unfold json_Valid. rewrite Ht. cbn [negb].
    set (ms := map marshalled (sessionSpec instructions voice sessionID) ++ [("tools", (tools, tv))]).
    destruct (splice_text instructions voice sessionID tools tv (object_value ms)) as [Hs Ho]. rewrite Hs. cbn [negb]. rewrite Ho.
    eexists. split; [done|]. split; [|intros _; rewrite <- Ho; eexists; rewrite app_assoc; done].
    assert (Hms : object_value ms = JObj (sessionSpec instructions voice sessionID ++ [("tools", tv)])).
    { unfold object_value, ms. by rewrite map_app, marshalled_values. }
    unfold session_value. rewrite <- Hms.
    set (whole := [("type", (Marshal (JStr EventSessionUpdate), JStr EventSessionUpdate)); ("session", (object_text ms, object_value ms))]).
    assert (Hw : JObj [("type", JStr EventSessionUpdate); ("session", object_value ms)] = object_value whole) by (unfold object_value at 2; cbn [map fst snd whole]; reflexivity).
    rewrite Hw. apply Unmarshal_text.
    + apply object_text_reads; [done|]. unfold whole.
      apply List.Forall_cons; [split; [reflexivity|cbn [fst snd]; by apply text_reads_Marshal]|].
      apply List.Forall_cons; [|apply List.Forall_nil]. split; [reflexivity|]. cbn [fst snd].
      apply object_text_reads; [unfold ms; apply not_eq_sym, app_cons_not_nil|]. unfold ms. apply Forall_app. split; [by apply marshalled_reads|].
      apply List.Forall_cons; [|apply List.Forall_nil]. split; [done|by apply text_reads_Unmarshal].
    + rewrite <- Hw, Hms. cbn [map fst snd height foldr]. cbn [height]. fold (member_heights (sessionSpec instructions voice sessionID ++ [("tools", tv)])).
      rewrite heights_app. unfold member_heights at 2. cbn [foldr snd]. unfold maxNestingDepth in *. lia.
Qed.

Definition voice_value (voice : string) : json :=
  JObj [("type", JStr "session.update");
    ("session", JObj [("type", JStr "realtime"); ("audio", JObj [("output", JObj [("voice", JStr voice)])])])].

(** The voice update names the session's kind and the voice, nothing else. *)
Lemma voice_update_reads_back voice : Valid voice = true ->
  Unmarshal (BuildVoiceUpdate voice) = Some (voice_value voice).
Proof.
  intros Hv. unfold BuildVoiceUpdate, voice_value. apply Unmarshal_Marshal; [|vm_compute; discriminate].
  cbn [json_ok forallb fst snd]. rewrite Hv. reflexivity.
Qed.

(** C20: For any instructions, voice and session id that are valid UTF-8: a handshake
    without tools reads back as the session with its fields; with tools that are JSON nested
    at least two levels short of the decoder's limit of 10000 it reads back as the session
    with the tools' value as its last member, the bytes of the tools verbatim in it; tools
    that are not JSON (or nested beyond the limit) are refused; and a voice update reads
    back as the session's kind and the voice alone. *)
Theorem handshake_reads_back instructions voice sessionID tools :
  Valid instructions = true -> Valid voice = true -> Valid sessionID = true ->
  (tools = [] -> exists out, buildSessionUpdate instructions voice sessionID tools = inr out /\
     Unmarshal out = Some (session_value instructions voice sessionID [])) /\
  (forall tv, tools <> [] -> Unmarshal tools = Some tv -> height tv + 2 <= maxNestingDepth ->
     exists p, buildSessionUpdate instructions voice sessionID tools = inr (p ++ tools ++ [125; 125]) /\
       Unmarshal (p ++ tools ++ [125; 125]) = Some (session_value instructions voice sessionID [("tools", tv)])) /\
  (tools <> [] -> Unmarshal tools = None -> buildSessionUpdate instructions voice sessionID tools = inl ErrToolsInvalid) /\
  Unmarshal (BuildVoiceUpdate voice) = Some (voice_value voice).
Proof.
  intros H1 H2 H3. split_and!.
  - intros ->. destruct (session_reads_back instructions voice sessionID [] JNull H1 H2 H3) as (out & Hb & Hu & _); [by left|].
    exists out. by rewrite bool_decide_eq_true_2 in Hu.
  - intros tv Hne Ht Hd. destruct (session_reads_back instructions voice sessionID tools tv H1 H2 H3) as (out & Hb & Hu & Hp); [by right|].
    destruct (Hp Hne) as [p ->]. exists p. by rewrite bool_decide_eq_false_2 in Hu.
  - intros Hne Ht. unfold buildSessionUpdate, json_Valid. by rewrite bool_decide_eq_false_2, Ht.
  - by apply voice_update_reads_back.
Qed.

(** ** Dial *)

Definition event_type (data : list N) : option string := ev_Type <$> read_event data.

(** A message that is not the end of the wait. *)
Definition waiting (data : list N) : Prop := exists ty, event_type data = Some ty /\ ty <> EventSessionCreated.

(** The message a failure names: the first error message, or the last one. *)
Definition named (evs : list (list N)) : option (list N) :=
  match List.find (fun d => bool_decide (event_type d = Some EventError)) evs with Some d => Some d | None => last evs end.

Lemma waiting_nonempty d : waiting d -> d <> [].
Proof. intros (ty & H & _) ->. discriminate. Qed.

Lemma await_session_skip d reads lst : waiting d ->
  await_session (Some d :: reads) lst false = await_session reads d (bool_decide (event_type d = Some EventError)) /\
  await_session (Some d :: reads) lst true = await_session reads lst true.
Proof.
  intros (ty & Hty & Hne). unfold event_type in *. cbn [await_session]. destruct (read_event d) as [ev|]; [|done].
  cbn in Hty. injection Hty as Hty. rewrite Hty. rewrite (bool_decide_eq_false_2 (ty = EventSessionCreated)) by done. cbn [negb]. split; [|done].
  f_equal. cbn. rewrite Hty. apply bool_decide_ext. split; [by intros ->|by intros [= ->]].
Qed.

Lemma await_found evs reads lst : Forall waiting evs -> await_session (map Some evs ++ reads) lst true = await_session reads lst true.
Proof.
  intros H. induction H as [|d evs Hd H IH]; [done|]. cbn [map app]. destruct (await_session_skip d (map Some evs ++ reads) lst Hd) as [_ E]. by rewrite E.
Qed.

Lemma await_waiting evs reads lst : Forall waiting evs ->
  exists haveError, await_session (map Some evs ++ reads) lst false = await_session reads (default lst (named evs)) haveError.
Proof.
  intros H. revert lst. induction H as [|d evs Hd H IH]; intros lst; [by exists false|]. cbn [map app].
  destruct (await_session_skip d (map Some evs ++ reads) lst Hd) as [E _]. rewrite E. unfold named. cbn [List.find].
  case_bool_decide as He.
  - exists true. by rewrite await_found.
  - destruct (IH d) as [he Ha]. exists he. rewrite Ha. f_equal. unfold named. destruct (List.find _ evs); [done|]. destruct evs as [|d' evs]; [done|].
    change (last (d :: d' :: evs)) with (last (d' :: evs)). destruct (last (d' :: evs)) eqn:El; [done|]. by apply last_None in El.
Qed.

Lemma named_nonempty evs d : Forall waiting evs -> named evs = Some d -> d <> [].
Proof.
  intros H Hn. apply waiting_nonempty. rewrite Forall_forall in H. apply H. unfold named in Hn. destruct (List.find _ evs) eqn:E.
  - injection Hn as <-. apply find_some in E as [E _]. by apply list_elem_of_In.
  - apply last_Some in Hn as [l ->]. apply elem_of_app. right. by left.
Qed.

(** [Dial] returns a client at the first session.created; at a read that fails or
    does not decode it closes the connection and names, clipped, the first error
    frame it had read, or else the last frame; and with no such message it waits. *)
Theorem dial_names_the_refusal instructions voice sessionID tools handshake evs r rest :
  buildSessionUpdate instructions voice sessionID tools = inr handshake -> Forall waiting evs ->
  let dial := Dial instructions voice sessionID tools true true (map Some evs ++ r :: rest) in
  match r with
  | Some d =>
      match event_type d with
      | Some ty => ty = EventSessionCreated -> dial = ([NSent handshake], Some None)
      | None => dial = ([NSent handshake; NClosed], Some (Some (ErrAwaiting ErrDecoding (clipFrame <$> named evs))))
      end
  | None => dial = ([NSent handshake; NClosed], Some (Some (ErrAwaiting ErrRead (clipFrame <$> named evs))))
  end /\
  Dial instructions voice sessionID tools true true (map Some evs) = ([NSent handshake], None).
Proof.
  intros Hb Hw. cbv zeta.
  assert (Hpend : Dial instructions voice sessionID tools true true (map Some evs) = ([NSent handshake], None)).
  { unfold Dial. rewrite Hb. cbn [negb]. destruct (await_waiting evs [] [] Hw) as [he E]. rewrite app_nil_r in E. rewrite E. done. }
  split; [|done]. unfold Dial. rewrite Hb. cbn [negb]. destruct (await_waiting evs (r :: rest) [] Hw) as [he E]. rewrite E. clear E Hpend Hb.
  assert (Hlast : (if (0 <? length (default [] (named evs)))%nat then Some (clipFrame (default [] (named evs))) else None) = clipFrame <$> named evs).
  { destruct (named evs) as [d|] eqn:En; [|done]. cbn [default]. pose proof (named_nonempty _ _ Hw En). destruct d; done. }
  destruct r as [d|]; cbn [await_session]; [|by rewrite Hlast]. unfold event_type. destruct (read_event d) as [ev|]; cbn [fmap option_fmap option_map].
  - intros ->. by rewrite bool_decide_eq_true_2 by done.
  - by rewrite Hlast.
Qed.

(** ** Examples *)

(** The text of a list of one string, with blanks and characters the encoder
    would escape. *)
Definition ex_tools : list N := [91; 32; 34; 60; 97; 62; 38; 34; 32; 93; 10].

Lemma handshake_reads_back_witness :
  Unmarshal ex_tools = Some (JArr [JStr "<a>&"]) /\
  (exists p, buildSessionUpdate "be brief" "ada" "" ex_tools = inr (p ++ ex_tools ++ [125; 125]) /\
    Unmarshal (p ++ ex_tools ++ [125; 125]) = Some (session_value "be brief" "ada" "" [("tools", JArr [JStr "<a>&"])])) /\
  buildSessionUpdate "be brief" "ada" "" (str_bytes "[1,") = inl ErrToolsInvalid /\
  Unmarshal (BuildVoiceUpdate "ada") = Some (voice_value "ada").
Proof.
  split; [vm_compute; reflexivity|].
  pose proof (handshake_reads_back "be brief" "ada" "" ex_tools) as H.
  pose proof (handshake_reads_back "be brief" "ada" "" (str_bytes "[1,")) as Hn.
  destruct H as (_ & Ht & _ & Hv); [vm_compute; reflexivity..|]. destruct Hn as (_ & _ & Hn & _); [vm_compute; reflexivity..|].
  split; [|split; [|exact Hv]].
  - apply Ht; [discriminate|vm_compute; reflexivity|vm_compute; discriminate].
  - apply Hn; [discriminate|vm_compute; reflexivity].
Defined.

Definition ex_refusal : list N := Marshal (JObj [("type", JStr "error"); ("message", JStr "unknown field")]).
Definition ex_notice : list N := Marshal (JObj [("type", JStr "rate_limits.updated")]).

Lemma dial_names_the_refusal_witness :
  snd (Dial "" "" "" [] true true [Some ex_notice; Some ex_refusal; Some ex_notice; None]) =
    Some (Some (ErrAwaiting ErrRead (Some (ex_refusal, None)))).
Proof.
  assert (Hb : exists h, buildSessionUpdate "" "" "" [] = inr h) by (eexists; reflexivity). destruct Hb as [h Hb].
  assert (Hw : Forall waiting [ex_notice; ex_refusal; ex_notice]).
  { repeat apply List.Forall_cons; try apply List.Forall_nil; eexists; (split; [vm_compute; reflexivity|discriminate]). }
  change [Some ex_notice; Some ex_refusal; Some ex_notice; None] with (map Some [ex_notice; ex_refusal; ex_notice] ++ [None]).
  rewrite (proj1 (dial_names_the_refusal "" "" "" [] h [ex_notice; ex_refusal; ex_notice] None [] Hb Hw)). vm_compute. reflexivity.
Defined.

(** A consumer's event goes out as it is, unless it is a session.update. *)
Lemma client_event_verbatim ev ok :
  fst (fst (handleClientEvent (Some ev) ok)) = Some ev \/
  fst (fst (handleClientEvent (Some ev) ok)) = None /\ exists v, Unmarshal ev = Some v /\ decode_struct ["type"] set_type v "" = Some EventSessionUpdate.
Proof.
  unfold handleClientEvent. case_bool_decide as E; [|by left]. right. split; [done|]. destruct (Unmarshal ev) as [v|]; [by exists v|done].
Qed.

(** The bytes of a frame decide whether the turn goes on into a tool call. *)
Lemma ended_in_function_call ty items :
  Valid ty = true -> forallb Valid items = true ->
  let raw := Marshal (JObj [("type", JStr ty); ("response", JObj [("output", JArr (map (fun t => JObj [("type", JStr t)]) items))])]) in
  ResponseEndedInFunctionCall (read_probe raw) = bool_decide (ty = EventResponseDone) && existsb (fun t => bool_decide (t = ItemTypeFunctionCall)) items.
Proof.
  intros Ht Hi. cbv zeta. unfold read_probe. rewrite Unmarshal_Marshal.
  - cbn [mbind option_bind decode_struct foldl fst snd]. change (field_of ["type"; "response"] "type") with (Some "type").
    change (field_of ["type"; "response"] "response") with (Some "response"). cbn [set_probe]. unfold set_probe at 2. cbn [decode_string mbind option_bind].
    rewrite bool_decide_eq_true_2 by done. cbn [fst snd]. unfold set_probe. rewrite bool_decide_eq_false_2 by done. cbn [decode_struct foldl fst snd].
    change (field_of ["output"] "output") with (Some "output"). cbn [set_response mbind option_bind].
    assert (E : decode_items (map (fun t => JObj [("type", JStr t)]) items) [] = Some items).
    { clear Hi. induction items as [|t items IH]; [done|]. cbn [map decode_items head tail default decode_struct foldl fst snd mbind option_bind].
      change (field_of ["type"] "type") with (Some "type"). cbn [set_item_type decode_string mbind option_bind]. by rewrite IH. }
    cbn [snd fst]. rewrite E. done.
  - cbn [json_ok forallb fst snd]. rewrite Ht. change (Valid "type") with true. change (Valid "response") with true. change (Valid "output") with true.
    cbn [andb]. rewrite !andb_true_r. apply forallb_forall. intros x Hx.
    apply in_map_iff in Hx as (t & <- & Hin). rewrite forallb_forall in Hi. cbn [json_ok forallb fst snd]. by rewrite (Hi t Hin).
  - assert (Hh : height (JArr (map (fun t => JObj [("type", JStr t)]) items)) <= 2).
    { clear. cbn [height]. assert (foldr (fun v h => N.max (height v) h) 0 (map (fun t => JObj [("type", JStr t)]) items) <= 1); [|lia].
      induction items as [|t items IH]; [done|]. cbn [map foldr]. change (height (JObj [("type", JStr t)])) with 1. lia. }
    cbn [height foldr snd] in *. unfold maxNestingDepth. lia.
Qed.
