(* ===== verification/Client.v ===== *)
(** * Client: the command-line client's half of a call

    [cmd/twilio-cli]: [filler.go] (how far the player has been fed, and the
    silence written into the server's pauses), [gate.go] (the microphone is shut
    while the player has audio), and of [dial.go] and [capture.go] the inbound
    frame path ([callAudio], [handleFrame], the earcon) and the outbound one
    ([mediaFrameSender]).  The read loop and the frame source are two
    goroutines: a handler that hands audio to the player and then publishes the
    gate takes several steps, and frames are sent between them. *)

From S2P Require Export MuLaw StreamWire.

(** ** filler.go *)

Definition muLawFrame20ms : Z := SampleRateHz * 20 / 1000.
Definition maxFillCatchUp : Z := 2 * Second.

Record playoutFiller := mkFiller {
  fedThrough : Z;
  frame : bytes
}.
#[export] Instance filler_eta : Eta playoutFiller := fun f => mkFiller (fedThrough f) (frame f).

Definition newPlayoutFiller (now silence : Z) : playoutFiller :=
  mkFiller now (replicate (Z.to_nat muLawFrame20ms) silence).

Definition payload_time (payload : bytes) : Z := MuLawDuration (Z.of_nat (length payload)).

Definition filler_fed (payload : bytes) (now : Z) (f : playoutFiller) : playoutFiller :=
  f <| fedThrough := (if fedThrough f <? now then now else fedThrough f) + payload_time payload |>.

(** The loop: the frames written, and how far the player is fed then. *)
Fixpoint fill_loop (fuel : nat) (now : Z) (f : playoutFiller) : list bytes * playoutFiller :=
  match fuel with
  | O => ([], f)
  | S fuel =>
      if fedThrough f + payload_time (frame f) <=? now then
        let '(fs, f') := fill_loop fuel now (f <| fedThrough ::= (fun t => t + payload_time (frame f)) |>) in (frame f :: fs, f')
      else ([], f)
  end.

(** One frame per 20 ms of at most [maxFillCatchUp]. *)
Definition fill_fuel : nat := 101.

Definition fill (now : Z) (f : playoutFiller) : list bytes * playoutFiller :=
  if maxFillCatchUp <? now - fedThrough f then ([], f <| fedThrough := now |>) else fill_loop fill_fuel now f.

Definition filler_flush (now : Z) (f : playoutFiller) : playoutFiller := f <| fedThrough := now |>.

Definition outstanding (now : Z) (f : playoutFiller) : Z :=
  let remaining := fedThrough f - now in if 0 <? remaining then remaining else 0.

(** ** gate.go *)

Definition micGateHangover : Z := 250 * Millisecond.

(** [None] is the nil gate of --full-duplex; [Some n] holds [shutUntilNanos]. *)
Definition micGate := option Z.

Definition newMicGate : micGate := Some 0.
Definition shutUntil (horizon : Z) (g : micGate) : micGate :=
  match g with None => None | Some _ => Some (horizon + micGateHangover) end.
Definition gate_open (g : micGate) : micGate := match g with None => None | Some _ => Some 0 end.
Definition shut (now : Z) (g : micGate) : bool := match g with None => false | Some n => now <? n end.
Definition gated (now : Z) (payload : bytes) (g : micGate) : bytes :=
  if shut now g then replicate (length payload) MuLawSilence else payload.

(** ** callAudio *)

Record callAudio := mkCallAudio {
  bytesSinceMark : Z;
  serverSpoke : bool;
  filler : playoutFiller;
  gate : micGate
}.
#[export] Instance callAudio_eta : Eta callAudio := fun a =>
  mkCallAudio (bytesSinceMark a) (serverSpoke a) (filler a) (gate a).

Definition newCallAudio (now : Z) (fullDuplex : bool) : callAudio :=
  mkCallAudio 0 false (newPlayoutFiller now MuLawSilence) (if fullDuplex then None else newMicGate).

Definition audio_fed (payload : bytes) (now : Z) (a : callAudio) : callAudio :=
  let f := filler_fed payload now (filler a) in
  a <| filler := f |> <| gate ::= shutUntil (now + outstanding now f) |>.

Definition audio_flush (now : Z) (a : callAudio) : callAudio :=
  a <| filler ::= filler_flush now |> <| gate ::= gate_open |>.

(** ** capture.go *)

Record mediaFrameEncoder := mkEncoder {
  e_streamSID : string;
  e_chunk : Z;
  e_seqNum : Z
}.
#[export] Instance encoder_eta : Eta mediaFrameEncoder := fun e => mkEncoder (e_streamSID e) (e_chunk e) (e_seqNum e).

Definition encode (payload : bytes) (e : mediaFrameEncoder) : list N * mediaFrameEncoder :=
  let e := e <| e_chunk ::= Z.succ |> <| e_seqNum ::= Z.succ |> in
  (EncodeMediaWithMetadata (e_streamSID e) payload (e_chunk e) (e_seqNum e), e).

(** ** The two goroutines *)

(** Who produced what the player is handed. *)
Inductive source := FromServer | FromEarcon | FromFiller.
#[export] Instance source_eq : EqDecision source.
Proof. solve_decision. Defined.

Inductive effect :=
| Played (s : source) (payload : bytes)     (* player.play *)
| Flushed                                   (* player.flush *)
| RecordedIn (payload : bytes)              (* audio.recorder.write *)
| EchoScheduled (name : string) (due : Z)   (* go echoMark *)
| Wrote (msg : list N)                      (* conn.Write, successful *)
| RecordedOut (payload : bytes).            (* sentRecorder.write *)

(** Where the read loop is: between handlers, or inside one with the clock
    reading it works from. *)
Inductive loop_pc :=
| LSelect
| LPlay (payload : bytes) (now : Z)     (* media recorded, not handed over *)
| LFed (payload : bytes) (now : Z)      (* media handed over, not accounted for *)
| LToneFed (tone : bytes) (played : Z)  (* the tone handed over, not accounted for *)
| LFlush (now : Z).                     (* a clear accounted for, the player not flushed *)

Record client := mkClient {
  c_audio : callAudio;
  c_pc : loop_pc;
  c_encoder : mediaFrameEncoder;
  c_noEchoMarks : bool;
  c_log : list (Z * effect)
}.
#[export] Instance client_eta : Eta client := fun c =>
  mkClient (c_audio c) (c_pc c) (c_encoder c) (c_noEchoMarks c) (c_log c).

(** As [dial] makes it: the start frame took sequence number 1. *)
Definition newClient (streamSID : string) (now : Z) (fullDuplex noEchoMarks : bool) : client :=
  mkClient (newCallAudio now fullDuplex) LSelect (mkEncoder streamSID 0 1) noEchoMarks [].

Definition does (t : Z) (es : list effect) (c : client) : client := c <| c_log ::= (fun l => l ++ map (fun e => (t, e)) es) |>.

(** The start of [handleFrame] at the instant [t]. *)
Definition handleFrame (t : Z) (f : Frame) (c : client) : client :=
  if bool_decide (f_Event f = EventMedia) then does t [RecordedIn (f_Payload f)] (c <| c_pc := LPlay (f_Payload f) t |>)
  else if bool_decide (f_Event f = EventMark) then
    let delay := outstanding t (filler (c_audio c)) in
    let c := c <| c_audio ::= (fun a => a <| bytesSinceMark := 0 |>) |> in
    if c_noEchoMarks c then c else does t [EchoScheduled (f_MarkName f) (t + delay)] c
  else if bool_decide (f_Event f = EventClear) then
    c <| c_audio ::= audio_flush t |> <| c_pc := LFlush t |>
  else c.

(** [dialHandleReadResult] on a message. *)
Definition handleMessage (t : Z) (raw : list N) (c : client) : client :=
  match DecodeFrame raw with inl _ => c | inr f => handleFrame t f c end.

(** The rest of a handler that hands audio over or clears. *)
Definition continue (t : Z) (c : client) : option client :=
  match c_pc c with
  | LSelect => None
  | LPlay p now => Some (does t [Played FromServer p] (c <| c_pc := LFed p now |>))
  | LFed p now =>
      Some (c <| c_audio ::= (fun a => (audio_fed p now a) <| bytesSinceMark ::= Z.add (Z.of_nat (length p)) |> <| serverSpoke := true |>) |>
              <| c_pc := LSelect |>)
  | LToneFed tone _ => Some (c <| c_audio ::= audio_fed tone t |> <| c_pc := LSelect |>)
  | LFlush _ => Some (does t [Flushed] (c <| c_audio ::= (fun a => a <| bytesSinceMark := 0 |>) |> <| c_pc := LSelect |>))
  end.

(** [generateEarcon] is a function of the mathematics library's sine. *)
Section earcon.
Context (generateEarcon : bytes).

Definition playEarconUnlessServerSpoke (t : Z) (c : client) : client :=
  if serverSpoke (c_audio c) then c
  else does t [Played FromEarcon generateEarcon] (c <| c_pc := LToneFed generateEarcon t |>).

Definition tick (t tickTime : Z) (c : client) : client :=
  let '(fs, f) := fill tickTime (filler (c_audio c)) in
  does t (map (Played FromFiller) fs) (c <| c_audio ::= (fun a => a <| filler := f |>) |>).

(** [mediaFrameSender]; the write succeeds or fails. *)
Definition send (t : Z) (payload : bytes) (ok : bool) (c : client) : client :=
  let payload := gated t payload (gate (c_audio c)) in
  let '(msg, e) := encode payload (c_encoder c) in
  let c := c <| c_encoder := e |> in
  if ok then does t [Wrote msg; RecordedOut payload] c else c.

Inductive event :=
| EMessage (raw : list N)
| ETick (tickTime : Z)       (* the instant the ticker delivered *)
| EEarcon
| EContinue                  (* the read loop goes on with its handler *)
| ESend (payload : bytes) (ok : bool).

(** One step at the instant [t]. *)
Definition client_step (t : Z) (e : event) (c : client) : option client :=
  match e with
  | ESend payload ok => Some (send t payload ok c)
  | EContinue => continue t c
  | _ =>
      match c_pc c with
      | LSelect =>
          match e with
          | EMessage raw => Some (handleMessage t raw c)
          | ETick tau => if tau <=? t then Some (tick t tau c) else None
          | EEarcon => Some (playEarconUnlessServerSpoke t c)
          | _ => None
          end
      | _ => None
      end
  end.

(** Events in time order, from the instant [t0] on. *)
Fixpoint client_run (t0 : Z) (es : list (Z * event)) (c : client) : option client :=
  match es with
  | [] => Some c
  | (t, e) :: es => if t <? t0 then None else c' ← client_step t e c; client_run t es c'
  end.

End earcon.

(** ** playWarmTones *)

Fixpoint warm_frames (fuel : nat) (warm : bytes) : list bytes :=
  match fuel, warm with
  | S fuel, _ :: _ => take (Z.to_nat muLawFrame20ms) warm :: warm_frames fuel (drop (Z.to_nat muLawFrame20ms) warm)
  | _, _ => []
  end.

(** The frames it plays, and the filler it leaves. *)
Definition playWarmTones (warm : bytes) (now : Z) (f : playoutFiller) : list bytes * playoutFiller :=
  (warm_frames (length warm) warm, filler_fed warm now f).

(** ** Theorems: the gate is shut while the player sounds

    The reference is a device that renders what it is handed, in order and in
    real time, and drops its queue at a flush.  As long as the read loop does not
    fall more than [G] behind the clock readings it works from, nor writes
    silence when the feed is more than [B] behind, the filler's account is within
    the greater of the two of the device, so the microphone is shut whenever the
    device sounds and open again soon after. *)

(** ** The reference device *)

Record device := mkDevice {
  d_through : Z;   (* it has audio up to here *)
  d_heard : Z      (* the end of the last audio that is not the filler's silence *)
}.

Definition device_step (d : device) (x : Z * effect) : device :=
  let '(t, e) := x in
  match e with
  | Played s p =>
      let through := Z.max (d_through d) t + payload_time p in
      mkDevice through (if decide (s = FromFiller) then d_heard d else through)
  | Flushed => mkDevice t t
  | _ => d
  end.

Definition device_of (t0 : Z) (log : list (Z * effect)) : device := foldl device_step (mkDevice t0 t0) log.

Arguments device_of : simpl never.

(** What the device has left to play. *)
Definition remaining (t : Z) (d : device) : Z := Z.max 0 (d_through d - t).

Lemma device_of_app t0 l1 l2 : device_of t0 (l1 ++ l2) = foldl device_step (device_of t0 l1) l2.
Proof. unfold device_of. by rewrite foldl_app. Qed.

(** ** Payloads and timeliness *)

(** A payload's duration fits an [int64] of nanoseconds. *)
Definition fits (p : bytes) : bool := Z.of_nat (length p) * Second <? 2 ^ 63.

Lemma payload_time_nonneg p : fits p = true -> 0 <= payload_time p.
Proof. unfold fits, payload_time. intros H%Z.ltb_lt. rewrite MuLawDuration_exact by (unfold Second in *; lia). unfold Second. lia. Qed.

Definition event_fits (e : event) : bool :=
  match e with EMessage raw => match DecodeFrame raw with inr f => fits (f_Payload f) | inl _ => true end | _ => true end.

(** A payload and a flush reach the player within [G] of the clock reading, a tone
    is accounted for within [G], and silence is written while the feed is at most
    [B] behind: a player that stood still for longer is not made up for. *)
Definition on_time (G B t : Z) (e : event) (c : client) : bool :=
  match e with
  | ETick tau => match fst (fill tau (filler (c_audio c))) with [] => true | _ => t - fedThrough (filler (c_audio c)) <=? B end
  | EContinue => match c_pc c with LPlay _ now | LToneFed _ now | LFlush now => t - now <=? G | _ => true end
  | _ => true
  end.

Section gate.
Context (generateEarcon : bytes) (G B t0 : Z).

Fixpoint timely (es : list (Z * event)) (c : client) : bool :=
  match es with
  | [] => true
  | (t, e) :: es =>
      event_fits e && on_time G B t e c &&
      match client_step generateEarcon t e c with Some c => timely es c | None => true end
  end.

Definition last_time (es : list (Z * event)) : Z := List.last (map fst es) t0.

(** ** The filler *)

Definition frame_time : Z := MuLawDuration muLawFrame20ms.
Definition silent (f : playoutFiller) : Prop := frame f = replicate (Z.to_nat muLawFrame20ms) MuLawSilence.

Lemma frame_time_eq : frame_time = 20 * Millisecond.
Proof. reflexivity. Qed.

Lemma silent_time f : silent f -> payload_time (frame f) = frame_time.
Proof. unfold payload_time. intros ->. by rewrite length_replicate. Qed.

(** The frames written make up the time gained, and with fuel for the deficit
    the feed ends less than a frame behind. *)
Lemma fill_loop_spec fuel now f fs f' :
  silent f -> fill_loop fuel now f = (fs, f') ->
  silent f' /\ fedThrough f' = fedThrough f + Z.of_nat (length fs) * frame_time /\ Forall (fun p => p = frame f) fs /\
  (fs <> [] -> fedThrough f' <= now) /\
  (now - fedThrough f < Z.of_nat fuel * frame_time -> now < fedThrough f' + frame_time) /\ (length fs <= fuel)%nat.
Proof.
  revert f fs f'. induction fuel as [|fuel IH]; intros f fs f' Hs; cbn [fill_loop].
  { intros [= <- <-]. split_and!; [done|cbn; lia|constructor|done|cbn; rewrite frame_time_eq; unfold Millisecond; lia|done]. }
  rewrite silent_time by done. destruct (Z.leb_spec (fedThrough f + frame_time) now) as [Hle|Hgt].
  - destruct (fill_loop fuel now _) as [fs1 f1] eqn:E. intros [= <- <-].
    apply IH in E as (H1 & H2 & H3 & H4 & H5 & H6); [|done]. cbn in H2. split_and!; [done| |by constructor| | |cbn; lia].
    + rewrite H2. cbn [length]. lia.
    + intros _. destruct fs1; [cbn in H2; lia|]. apply H4. done.
    + intros Hfuel. apply H5. cbn. lia.
  - intros [= <- <-]. split_and!; [done|cbn; lia|constructor|done|lia|cbn; lia].
Qed.

(** However far behind, the filler writes at most a hundred frames, and ends
    less than one behind. *)
Lemma fill_spec now f fs f' :
  silent f -> fill now f = (fs, f') ->
  silent f' /\ now < fedThrough f' + frame_time /\ (length fs <= 100)%nat /\ Forall (fun p => p = frame f) fs /\
  (fs = [] -> fedThrough f' = fedThrough f \/ fedThrough f' = now /\ fedThrough f + maxFillCatchUp < now) /\
  (fs <> [] -> fedThrough f' = fedThrough f + Z.of_nat (length fs) * frame_time /\ fedThrough f' <= now).
Proof.
  intros Hs. unfold fill. destruct (Z.ltb_spec maxFillCatchUp (now - fedThrough f)) as [Hbig|Hsmall].
  - intros [= <- <-]. cbn. rewrite frame_time_eq. unfold Millisecond. split_and!; [done|lia|lia|constructor|intros _; right; lia|done].
  - intros E. apply fill_loop_spec in E as (H1 & H2 & H3 & H4 & H5 & H6); [|done].
    assert (Hlt : now < fedThrough f' + frame_time).
    { apply H5. rewrite frame_time_eq. unfold maxFillCatchUp, fill_fuel, Second, Millisecond in *. lia. }
    split_and!; [done|done| |done|intros ->; left; cbn in H2; lia|auto].
    destruct fs as [|p fs]; [cbn; lia|]. specialize (H4 ltac:(done)).
    rewrite frame_time_eq in *. unfold maxFillCatchUp, Second, Millisecond in *. lia.
Qed.

(** What a tick's silence does to the device. *)
Lemma device_fill t fs d p :
  payload_time p = frame_time -> Forall (fun q => q = p) fs ->
  foldl device_step d (map (fun e => (t, e)) (map (Played FromFiller) fs)) =
  match fs with [] => d | _ => mkDevice (Z.max (d_through d) t + Z.of_nat (length fs) * frame_time) (d_heard d) end.
Proof.
  intros Hp. induction fs as [|q fs IH] using rev_ind; intros Hall; [done|].
  apply Forall_app in Hall as [Hall Hq]. apply Forall_cons in Hq as [-> _].
  rewrite !map_app, foldl_app, IH by done. cbn [map foldl device_step]. rewrite Hp.
  assert (Hne : fs ++ [p] <> []) by (destruct fs; done). destruct (fs ++ [p]) eqn:E; [done|]. rewrite <- E. clear Hne E.
  destruct fs; cbn [d_through d_heard length app]; f_equal; rewrite ?length_app; cbn [length]; rewrite frame_time_eq; unfold Millisecond; lia.
Qed.

(** ** The invariant *)

Context (E : Z).

(** The feed [fed] and the device's end [D] agree within [E], as of [T]. *)
Definition near (T fed D : Z) : Prop := D <= fed + E /\ fed <= Z.max D T + E.

(** The gate covers what is heard, and not much more. *)
Definition covers (T heard : Z) (g : micGate) : Prop :=
  match g with
  | None => False
  | Some n => n = 0 /\ heard <= T \/ n - micGateHangover - E <= heard <= n - micGateHangover + E
  end.

Definition client_inv (T : Z) (c : client) : Prop :=
  let d := device_of t0 (c_log c) in
  let f := filler (c_audio c) in
  t0 <= T /\ silent f /\
  match c_pc c with
  | LSelect => near T (fedThrough f) (d_through d) /\ covers T (d_heard d) (gate (c_audio c))
  | LPlay p now => fits p = true /\ now <= T /\ near T (fedThrough f) (d_through d) /\ covers T (d_heard d) (gate (c_audio c))
  | LFed p now | LToneFed p now =>
      fits p = true /\ now <= T /\ gate (c_audio c) <> None /\ d_heard d = d_through d /\ now <= d_through d - payload_time p /\
      d_through d - payload_time p <= Z.max (fedThrough f) now + E /\ fedThrough f <= d_through d - payload_time p + E
  | LFlush now => now <= T /\ fedThrough f = now /\ gate (c_audio c) = Some 0
  end.

Context (HE : 0 <= E) (HGE : G <= E) (HBE : B <= E) (Htone : fits generateEarcon = true).

Lemma near_mono T T' fed D : T <= T' -> near T fed D -> near T' fed D.
Proof. unfold near. lia. Qed.
Lemma covers_mono T T' h g : T <= T' -> covers T h g -> covers T' h g.
Proof. destruct g; simpl; lia. Qed.

Lemma inv_mono T T' c : T <= T' -> client_inv T c -> client_inv T' c.
Proof.
  unfold client_inv. cbv zeta. intros HT (H0 & Hs & Hc). split_and!; [lia|done|].
  destruct (c_pc c); intuition eauto using near_mono, covers_mono; lia.
Qed.

Lemma newClient_inv sid noEcho : client_inv t0 (newClient sid t0 false noEcho).
Proof. unfold client_inv, near, covers, device_of. cbn. split_and!; try lia. done. Qed.

(** Accounting for a payload the device has. *)
Lemma audio_fed_covers p now a D T :
  0 <= payload_time p -> gate a <> None -> now <= T -> 
  D - payload_time p <= Z.max (fedThrough (filler a)) now + E -> fedThrough (filler a) <= D - payload_time p + E ->
  now <= D - payload_time p + E ->
  near T (fedThrough (filler (audio_fed p now a))) D /\ covers T D (gate (audio_fed p now a)).
Proof.
  intros Hp Hg HT H1 H2 H3. unfold audio_fed, filler_fed, shutUntil, outstanding. cbn.
  set (fd := (if fedThrough (filler a) <? now then now else fedThrough (filler a)) + payload_time p).
  assert (Hfd : fd = Z.max (fedThrough (filler a)) now + payload_time p) by (unfold fd; destruct (Z.ltb_spec (fedThrough (filler a)) now); lia).
  rewrite Hfd. split; [unfold near; lia|]. destruct (gate a); [|done]. cbn. right.
  destruct (Z.ltb_spec 0 (Z.max (fedThrough (filler a)) now + payload_time p - now)); unfold micGateHangover in *; lia.
Qed.

Lemma handleFrame_inv t f c :
  c_pc c = LSelect -> fits (f_Payload f) = true -> client_inv t c -> client_inv t (handleFrame t f c).
Proof.
  unfold client_inv, handleFrame. cbv zeta. intros Hpc Hfit (H0 & Hs & Hc). rewrite Hpc in Hc. destruct Hc as [Hn Hg].
  case_bool_decide.
  { cbn. rewrite device_of_app. cbn. split_and!; done || lia. }
  case_bool_decide.
  { cbn. destruct (c_noEchoMarks c); cbn; rewrite ?device_of_app; cbn; rewrite Hpc; split_and!; try done; lia. }
  case_bool_decide; cbn; [|rewrite Hpc; split_and!; done || lia].
  split_and!; [lia|done|lia|done|]. by destruct (gate (c_audio c)).
Qed.

Lemma continue_inv t c c' :
  on_time G B t EContinue c = true -> continue t c = Some c' -> client_inv t c -> client_inv t c'.
Proof.
  unfold client_inv, continue, on_time. cbv zeta. intros Hot Hc (H0 & Hs & Hi). destruct (c_pc c) as [|p now|p now|tone now|now]; [done|..].
  - destruct Hi as (Hfit & Hnow & Hn & Hg). apply Z.leb_le in Hot. injection Hc as <-. cbn. rewrite device_of_app. cbn.
    pose proof (payload_time_nonneg _ Hfit). unfold near in Hn. split_and!; try (done || lia).
    by destruct (gate (c_audio c)).
  - destruct Hi as (Hfit & Hnow & Hg & Hh & Hi1 & Hi2 & Hi3). injection Hc as <-. cbn. rewrite Hh. split_and!; [lia|done| |];
      apply (audio_fed_covers p now (c_audio c)); auto using payload_time_nonneg; lia.
  - destruct Hi as (Hfit & Hnow & Hg & Hh & Hi1 & Hi2 & Hi3). apply Z.leb_le in Hot. injection Hc as <-. cbn. rewrite Hh. split_and!; [lia|done| |];
      apply (audio_fed_covers tone t (c_audio c)); auto using payload_time_nonneg; lia.
  - destruct Hi as (Hnow & Hf & Hg). apply Z.leb_le in Hot. injection Hc as <-. cbn. rewrite device_of_app. cbn. rewrite Hg. unfold near.
    split_and!; [lia|done|lia|lia|]. left. lia.
Qed.

Lemma tick_inv t tau c :
  c_pc c = LSelect -> tau <= t -> on_time G B t (ETick tau) c = true -> client_inv t c -> client_inv t (tick t tau c).
Proof.
  unfold client_inv, tick, on_time. cbv zeta. intros Hpc Htau Hot (H0 & Hs & Hi). rewrite Hpc in Hi. destruct Hi as [Hn Hg].
  destruct (fill tau (filler (c_audio c))) as [fs f'] eqn:Ef. destruct (fill_spec _ _ _ _ Hs Ef) as (Hs' & Hlt & _ & Hall & Hnil & Hcons).
  cbn [fst] in Hot. unfold does. cbn. rewrite Hpc, device_of_app.
  rewrite (device_fill t fs _ (frame (filler (c_audio c)))) by (done || by apply silent_time).
  destruct fs as [|p fs].
  - destruct (Hnil eq_refl) as [->|[-> Hbig]]; [done|]. unfold near in *. unfold maxFillCatchUp, Second in *. split_and!; done || lia.
  - apply Z.leb_le in Hot. destruct (Hcons ltac:(done)) as [Hf Hle]. cbn [d_through d_heard]. rewrite frame_time_eq in Hf. rewrite frame_time_eq.
    unfold near in *. rewrite Hf in *. unfold Millisecond in *. split_and!; done || lia.
Qed.

Lemma client_step_inv t e c c' :
  event_fits e = true -> on_time G B t e c = true -> client_step generateEarcon t e c = Some c' -> client_inv t c -> client_inv t c'.
Proof.
  intros Hfit Hot. unfold client_step. destruct e as [raw|tau| | |p ok].
  - destruct (c_pc c) eqn:Hpc; try done. intros [= <-]. unfold handleMessage. cbn in Hfit. destruct (DecodeFrame raw); [done|]. by apply handleFrame_inv.
  - destruct (c_pc c) eqn:Hpc; try done. destruct (Z.leb_spec tau t); [|done]. intros [= <-]. by apply tick_inv.
  - destruct (c_pc c) eqn:Hpc; try done. intros [= <-]. unfold playEarconUnlessServerSpoke. destruct (serverSpoke (c_audio c)); [done|].
    unfold client_inv. cbv zeta. rewrite Hpc. intros (H0 & Hs & Hn & Hg). cbn. rewrite device_of_app. cbn.
    pose proof (payload_time_nonneg _ Htone). unfold near in Hn. split_and!; try (done || lia).
    by destruct (gate (c_audio c)).
  - by apply continue_inv.
  - intros [= <-]. unfold client_inv, send. cbv zeta. destruct (encode _ _) as [msg enc]. destruct ok; [|done].
    cbn. rewrite device_of_app. intros H. exact H.
Qed.

Lemma last_after (l : list Z) x y : List.last (x :: l) y = List.last l x.
Proof. revert x y. induction l as [|z l IH]; intros x y; [done|]. change (List.last (x :: z :: l) y) with (List.last (z :: l) y). by rewrite !IH. Qed.

Lemma client_run_inv es T c c' :
  timely es c = true -> client_run generateEarcon T es c = Some c' -> client_inv T c -> client_inv (List.last (map fst es) T) c'.
Proof.
  revert T c. induction es as [|[t e] es IH]; intros T c; cbn [timely client_run]; [by intros _ [= <-]|].
  destruct (Z.ltb_spec t T); [done|]. intros [[Hfit Hot]%andb_true_iff Ht]%andb_true_iff.
  destruct (client_step generateEarcon t e c) as [c1|] eqn:Ec; [|done]. cbn [mbind option_bind]. intros Hr Hi.
  assert (Hi1 : client_inv t c1) by (eapply client_step_inv; eauto using inv_mono).
  specialize (IH t c1 Ht Hr Hi1). cbn [map fst]. by rewrite last_after.
Qed.
End gate.

(** C26: On a half-duplex call whose read-loop handlers take at most G of clock time and
    write silence only while the feed is at most B behind (a 20 ms tick finds it at least 20
    ms behind, so B is one frame or more wherever the filler works), for payloads whose
    duration fits an int64, between handlers and with E the greater of G and B: while a
    player that plays what it was handed without a pause still has audio of the server or of
    the tone, and E is within the hangover, every outbound frame is silence; from the
    hangover and E behind that audio on, frames pass unchanged; and what a mark echo waits
    is within E of what the player has left, silence included. *)
Theorem gate_covers_playout tone G B sid t0 noEcho es c :
  0 <= t0 -> 0 <= G -> fits tone = true ->
  timely tone G B es (newClient sid t0 false noEcho) = true ->
  client_run tone t0 es (newClient sid t0 false noEcho) = Some c -> c_pc c = LSelect ->
  forall t payload, last_time t0 es <= t ->
    let d := device_of t0 (c_log c) in
    let E := Z.max G B in
    (E <= micGateHangover -> t < d_heard d -> gated t payload (gate (c_audio c)) = replicate (length payload) MuLawSilence) /\
    (d_heard d + micGateHangover + E <= t -> gated t payload (gate (c_audio c)) = payload) /\
    remaining t d <= outstanding t (filler (c_audio c)) + E /\ outstanding t (filler (c_audio c)) <= remaining t d + E.
Proof.
  intros Ht0 HG Htone Hti Hr Hpc t payload Ht d E.
  pose proof (client_run_inv tone G B t0 E ltac:(lia) ltac:(lia) ltac:(lia) Htone es t0 _ _ Hti Hr (newClient_inv t0 E ltac:(lia) sid noEcho)) as (H0 & _ & Hi).
  rewrite Hpc in Hi. destruct Hi as [Hn Hg]. fold (last_time t0 es) in *. unfold near in Hn.
  subst d. unfold gated, shut, outstanding, remaining. destruct (gate (c_audio c)) as [n|]; [|destruct Hg]. cbn in Hg.
  split_and!.
  - intros HG' Hh. rewrite (proj2 (Z.ltb_lt t n)); [done|]. lia.
  - intros Hh. rewrite (proj2 (Z.ltb_ge t n)); [done|]. unfold micGateHangover, Millisecond in *. lia.
  - destruct (Z.ltb_spec 0 (fedThrough (filler (c_audio c)) - t)); lia.
  - destruct (Z.ltb_spec 0 (fedThrough (filler (c_audio c)) - t)); lia.
Qed.

(** ** An example call *)

(** Silence for a while, half a second of speech with a tick while it is handed
    over, and a frame of the caller's. *)
Definition ex_events : list (Z * event) :=
  [(40 * Millisecond, ETick (40 * Millisecond));
   (60 * Millisecond, ETick (59 * Millisecond));
   (61 * Millisecond, EMessage (EncodeMedia "MZ1" (replicate 4000 7)));
   (62 * Millisecond, ESend [1; 2; 3] true);
   (63 * Millisecond, EContinue);
   (64 * Millisecond, EContinue);
   (80 * Millisecond, ETick (80 * Millisecond))].

Definition ex_client : client :=
  default (newClient "MZ1" 0 false false) (client_run (replicate 160 9) 0 ex_events (newClient "MZ1" 0 false false)).

Lemma gate_covers_playout_witness :
  let d := device_of 0 (c_log ex_client) in
  d_heard d = 580 * Millisecond /\
  gated (579 * Millisecond) [4; 5] (gate (c_audio ex_client)) = [255; 255] /\
  gated (870 * Millisecond) [4; 5] (gate (c_audio ex_client)) = [4; 5].
Proof.
  assert (H := gate_covers_playout (replicate 160 9) (5 * Millisecond) (40 * Millisecond) "MZ1" 0 false ex_events ex_client
    ltac:(lia) ltac:(vm_compute; discriminate) ltac:(vm_compute; reflexivity) ltac:(vm_compute; reflexivity) ltac:(vm_compute; reflexivity) ltac:(vm_compute; reflexivity)).
  split_and!; [vm_compute; reflexivity| |].
  - refine (proj1 (H (579 * Millisecond) [4; 5] _) _ _); vm_compute; (reflexivity || discriminate).
  - refine (proj1 (proj2 (H (870 * Millisecond) [4; 5] _)) _); vm_compute; (reflexivity || discriminate).
Defined.
