(* ===== verification/ClientCall.v ===== *)
(** * ClientCall: the life of a call the client dials

    [dial] of [cmd/twilio-cli/dial.go]: the goroutine that dials, shakes hands
    and reads, the one that streams the frame source, the one that reads the
    connection, the one that turns Ctrl-C into a stop frame, and the ones that
    echo the server's marks after a delay.  A step is one of them doing its next
    thing.  What the frames carry is Client.v; here they
    are their numbers. *)

From S2P Require Export Client.

(** ** Errors *)

(** What [errors.Is] and [websocket.CloseStatus] can find in an error. *)
Inductive cause := CloseStatus | Canceled | EOF | UnexpectedEOF | ECONNRESET | EPIPE | ErrClosed.
#[export] Instance cause_eq : EqDecision cause.
Proof. solve_decision. Defined.

Record error := mkError { e_text : string; e_causes : list cause }.

Definition has (e : error) (c : cause) : bool := bool_decide (c ∈ e_causes e).

Definition isCallEnded (e : error) : bool :=
  has e CloseStatus || has e Canceled || has e EOF || has e UnexpectedEOF || has e ECONNRESET || has e EPIPE || has e ErrClosed.

Definition callEndReason (e : error) : string :=
  if has e Canceled then "stopped (Ctrl-C)"
  else if has e CloseStatus then "peer closed the stream"
  else if has e EOF || has e UnexpectedEOF || has e ECONNRESET || has e EPIPE || has e ErrClosed then "server closed the connection"
  else e_text e.

Definition context_Canceled : error := mkError "context canceled" [Canceled].

(** ** State *)

(** The messages written, with their chunk and sequence numbers; the echo of a
    mark has a name and no number. *)
Inductive wire_msg := WConnected | WStart (seq : Z) | WMedia (chunk seq : Z) | WStop (seq : Z) | WMark (name : string).
#[export] Instance wire_msg_eq : EqDecision wire_msg.
Proof. solve_decision. Defined.

(** The goroutine of [dial] itself: the two handshake writes, the read loop,
    the wait for the source's result, the deferred calls. *)
Inductive main_pc :=
| MConnected
| MStart
| MLoop
| MJoin
| MReturn (r : option error)   (* cancelRead, cancelMic *)
| MClosing (r : option error)  (* the recorders, the player, CloseNow *)
| MDone (r : option error).

(** The goroutine that waits for ctx. *)
Inductive watch_pc := WWait | WSelect | WSendStop | WCancelRead | WDone.

(** The goroutine of the frame source. *)
Inductive mic_pc :=
| GNone
| GStream
| GReturned (err : option error)
| GSendStop (err : option error)
| GCancelRead (err : option error)
| GSendErr (err : option error)
| GClose
| GCancel
| GDone.

(** What [conn.Read] returns: a mark, any other message, or an error. *)
Inductive received := GotMark (name : string) | GotMessage | GotError (e : error).

(** The goroutine that reads the connection. *)
Inductive reader_pc := RNone | RRead | RHave (r : received) | RDone.

Record call := mkCall {
  k_ctx : bool;          (* ctx is done *)
  k_cancelMic : bool;
  k_readDone : bool;     (* readCtx is done *)
  k_stopOnce : bool;
  k_seqNum : Z;
  k_chunk : Z;
  k_micStopped : bool;   (* closed *)
  k_micErr : option (option error);  (* micErrCh *)
  k_closed : bool;       (* a method of the connection has failed, or CloseNow *)
  k_main : main_pc;
  k_watch : watch_pc;
  k_mic : mic_pc;
  k_reader : reader_pc;
  k_noEchoMarks : bool;
  k_echoes : list string;  (* the marks whose [echoMark] has not yet written *)
  k_wire : list wire_msg
}.
#[export] Instance call_eta : Eta call := fun k =>
  mkCall (k_ctx k) (k_cancelMic k) (k_readDone k) (k_stopOnce k) (k_seqNum k) (k_chunk k) (k_micStopped k) (k_micErr k)
    (k_closed k) (k_main k) (k_watch k) (k_mic k) (k_reader k) (k_noEchoMarks k) (k_echoes k) (k_wire k).

(** Connected, the watcher started. *)
Definition dialled (noEchoMarks : bool) : call :=
  mkCall false false false false 1 0 false None false MConnected WWait GNone RNone noEchoMarks [] [].

Definition micCtx_done (k : call) : bool := k_ctx k || k_cancelMic k.

(** [writeFrame]: [None] is success. *)
Definition write_frame (m : wire_msg) (res : option error) (k : call) : call :=
  match res with None => k <| k_wire ::= (fun w => w ++ [m]) |> | Some _ => k <| k_closed := true |> end.

Definition sendStop (res : option error) (k : call) : call :=
  if k_stopOnce k then k
  else write_frame (WStop (k_seqNum k + 1)) res (k <| k_stopOnce := true |> <| k_seqNum ::= Z.succ |>).

(** ** Steps *)

(** [writeHandshake] and what [dial] does with its error. *)
Definition handshake (m : wire_msg) (res : option error) (next : main_pc) (k : call) : call :=
  let k := write_frame m res k in
  match res with
  | None => k <| k_main := next |>
  | Some e => k <| k_main := MReturn (if isCallEnded e then None else Some (mkError ("send handshake frame: " ++ e_text e) (e_causes e))) |>
  end.

(** [finishCallEnded] up to its wait. *)
Definition finishCallEnded (k : call) : call := k <| k_cancelMic := true |> <| k_main := MJoin |>.

(** The read loop: the end of readCtx, or what the reader hands over.  [res] is
    the outcome of a write. *)
Definition main_step (res : option error) (k : call) : option call :=
  match k_main k with
  | MConnected => Some (handshake WConnected res MStart k)
  | MStart =>
      let k := handshake (WStart (k_seqNum k)) res MLoop k in
      Some (match k_main k with MLoop => k <| k_mic := GStream |> <| k_reader := RRead |> | _ => k end)
  | MLoop => if k_readDone k then Some (finishCallEnded k) else None
  | MJoin => match k_micErr k with Some e => Some (k <| k_micErr := None |> <| k_main := MReturn e |>) | None => None end
  | MReturn r => Some (k <| k_readDone := true |> <| k_cancelMic := true |> <| k_main := MClosing r |>)
  | MClosing r => Some (k <| k_closed := true |> <| k_main := MDone r |>)
  | MDone _ => None
  end.

(** [dialHandleReadResult]: a mark starts an [echoMark] unless echoes are
    suppressed. *)
Definition take_read (k : call) : option call :=
  match k_main k, k_reader k with
  | MLoop, RHave (GotMark name) =>
      let k := k <| k_reader := RRead |> in
      Some (if k_noEchoMarks k then k else k <| k_echoes ::= (fun l => l ++ [name]) |>)
  | MLoop, RHave GotMessage => Some (k <| k_reader := RRead |>)
  | MLoop, RHave (GotError e) =>
      let k := k <| k_reader := RDone |> in
      Some (if isCallEnded e then finishCallEnded k else k <| k_main := MReturn (Some (mkError ("read: " ++ e_text e) (e_causes e))) |>)
  | _, _ => None
  end.

Definition watch_step (res : option error) (k : call) : option call :=
  match k_watch k with
  | WWait => if k_ctx k then Some (k <| k_cancelMic := true |> <| k_watch := WSelect |>) else None
  | WSelect => if k_micStopped k || k_readDone k then Some (k <| k_watch := WSendStop |>) else None
  | WSendStop => Some (sendStop res k <| k_watch := WCancelRead |>)
  | WCancelRead => Some (k <| k_readDone := true |> <| k_watch := WDone |>)
  | WDone => None
  end.

(** What [drainFrames] meets: a whole frame, the end of the input, a read error,
    or its context done. *)
Inductive input := IFrame | IEnd | IError (e : error) | ICancelled.

Definition source_step (i : input) (res : option error) (k : call) : option call :=
  match k_mic k with
  | GStream =>
      match i with
      | IFrame =>
          let k := k <| k_chunk ::= Z.succ |> <| k_seqNum ::= Z.succ |> in
          let k := write_frame (WMedia (k_chunk k) (k_seqNum k)) res k in
          Some (match res with None => k | Some e => k <| k_mic := GReturned (Some e) |> end)
      | IEnd => Some (k <| k_mic := GReturned None |>)
      | IError e => Some (k <| k_mic := GReturned (Some e) |>)
      | ICancelled => if micCtx_done k then Some (k <| k_mic := GReturned (Some context_Canceled) |>) else None
      end
  | _ => None
  end.

(** The rest of the goroutine: [naturalEnd], the stop frame, the result. *)
Definition mic_step (res : option error) (k : call) : option call :=
  match k_mic k with
  | GNone | GStream | GDone => None
  | GReturned err =>
      let naturalEnd := negb (micCtx_done k) in
      let err := match err with Some e => if isCallEnded e then None else err | None => None end in
      Some (k <| k_mic := if naturalEnd then GSendStop err else GSendErr err |>)
  | GSendStop err => Some (sendStop res k <| k_mic := GCancelRead err |>)
  | GCancelRead err => Some (k <| k_readDone := true |> <| k_mic := GSendErr err |>)
  | GSendErr err => match k_micErr k with None => Some (k <| k_micErr := Some err |> <| k_mic := GClose |>) | Some _ => None end
  | GClose => Some (k <| k_micStopped := true |> <| k_mic := GCancel |>)
  | GCancel => Some (k <| k_cancelMic := true |> <| k_mic := GDone |>)
  end.

(** [conn.Read] returns a message or an error. *)
Definition reader_read (r : received) (k : call) : option call :=
  match k_reader k with
  | RRead => Some (match r with GotError _ => k <| k_closed := true |> | _ => k end <| k_reader := RHave r |>)
  | _ => None
  end.

(** The reader gives up on readCtx. *)
Definition reader_quit (k : call) : option call :=
  match k_reader k with RHave _ => if k_readDone k then Some (k <| k_reader := RDone |>) else None | _ => None end.

(** [echoMark] after its sleep, however long that is: the [i]-th of those that
    sleep writes its mark. *)
Definition echo_step (i : nat) (res : option error) (k : call) : option call :=
  match k_echoes k !! i with
  | Some name => Some (write_frame (WMark name) res (k <| k_echoes ::= delete i |>))
  | None => None
  end.

Inductive label :=
| LCtrlC
| LMain (res : option error)
| LTakeRead
| LWatch (res : option error)
| LSource (i : input) (res : option error)
| LMic (res : option error)
| LRead (r : received)
| LQuit
| LEcho (i : nat) (res : option error).

Definition call_step (l : label) (k : call) : option call :=
  match l with
  | LCtrlC => if k_ctx k then None else Some (k <| k_ctx := true |>)
  | LMain res => main_step res k
  | LTakeRead => take_read k
  | LWatch res => watch_step res k
  | LSource i res => source_step i res k
  | LMic res => mic_step res k
  | LRead r => reader_read r k
  | LQuit => reader_quit k
  | LEcho i res => echo_step i res k
  end.

(** The WebSocket library closes a connection on any error from any of its
    methods, so that every later use of it fails. *)
Fixpoint closes_on_error (ls : list label) (k : call) : bool :=
  match ls with
  | [] => true
  | l :: ls =>
      match call_step l k with
      | Some k' =>
          (negb (k_closed k) || bool_decide (k_wire k' = k_wire k) && match l with LRead (GotMark _ | GotMessage) => false | _ => true end) &&
          closes_on_error ls k'
      | None => true
      end
  end.

Fixpoint call_run (ls : list label) (k : call) : option call :=
  match ls with [] => Some k | l :: ls => k' ← call_step l k; call_run ls k' end.
