(* ===== verification/ClientCallThms.v ===== *)
(** * ClientCallThms: what the far end sees of a call, and how a call ends

    The messages of a call in any interleaving of its goroutines are accepted by
    a reference automaton of the protocol, with one unbroken numbering; and a
    call that starts to end comes to its end. *)

From S2P Require Export ClientCall.

(** ** The protocol *)

Inductive phase := PNew | POpen | PNumbered (last : Z) | PStopped.

(** Connected, start with number 1, media with consecutive numbers and chunks,
    one stop with the next number, and nothing numbered behind it; the echo of a
    mark anywhere behind the start, also behind the stop. *)
Definition wire_next (p : phase) (m : wire_msg) : option phase :=
  match p, m with
  | PNew, WConnected => Some POpen
  | POpen, WStart 1 => Some (PNumbered 1)
  | PNumbered n, WMedia c s => if (s =? n + 1) && (c =? n) then Some (PNumbered s) else None
  | PNumbered n, WStop s => if s =? n + 1 then Some PStopped else None
  | (PNumbered _ | PStopped), WMark _ => Some p
  | _, _ => None
  end.

Definition phase_of (w : list wire_msg) : option phase := foldl (fun p m => p ← p; wire_next p m) (Some PNew) w.
Arguments phase_of : simpl never.

Lemma phase_snoc w m p : phase_of w = Some p -> phase_of (w ++ [m]) = wire_next p m.
Proof. unfold phase_of. rewrite foldl_app. intros ->. done. Qed.

Lemma phase_media w c s : phase_of w = Some (PNumbered s) -> s = c + 1 ->
  phase_of (w ++ [WMedia (Z.succ c) (Z.succ s)]) = Some (PNumbered (Z.succ s)).
Proof. intros H ->. rewrite (phase_snoc _ _ _ H). cbn. by rewrite !(proj2 (Z.eqb_eq _ _)) by lia. Qed.

Lemma phase_stop w s : phase_of w = Some (PNumbered s) -> phase_of (w ++ [WStop (s + 1)]) = Some PStopped.
Proof. intros H. rewrite (phase_snoc _ _ _ H). cbn. by rewrite Z.eqb_refl. Qed.

Lemma phase_mark w name : phase_of w = Some PStopped -> phase_of (w ++ [WMark name]) = Some PStopped.
Proof. intros H. by rewrite (phase_snoc _ _ _ H). Qed.

Lemma phase_mark_numbered w name s : phase_of w = Some (PNumbered s) -> phase_of (w ++ [WMark name]) = Some (PNumbered s).
Proof. intros H. by rewrite (phase_snoc _ _ _ H). Qed.

Lemma phase_connected w : phase_of w = Some PNew -> phase_of (w ++ [WConnected]) = Some POpen.
Proof. intros H. by rewrite (phase_snoc _ _ _ H). Qed.

Lemma phase_start w : phase_of w = Some POpen -> phase_of (w ++ [WStart 1]) = Some (PNumbered 1).
Proof. intros H. by rewrite (phase_snoc _ _ _ H). Qed.

(** ** The invariant *)

Definition looping (k : call) : bool := match k_main k with MConnected | MStart | MLoop => true | _ => false end.


(** The source's goroutine may still send frames. *)
Definition streaming (k : call) : Prop := k_mic k = GNone \/ k_mic k = GStream.

(** Nothing that follows the last frame has happened. *)
Definition flowing (k : call) : Prop :=
  k_readDone k = false /\ k_micStopped k = false /\ k_stopOnce k = false /\ k_micErr k = None /\
  (k_main k = MConnected \/ k_main k = MStart \/ k_main k = MLoop) /\ (k_watch k = WWait \/ k_watch k = WSelect).

(** What is written, while the connection stands. *)
Definition numbered (k : call) : Prop :=
  match k_main k with
  | MConnected => k_mic k = GNone /\ k_echoes k = [] /\ k_stopOnce k = false /\ k_seqNum k = 1 /\ k_chunk k = 0 /\ phase_of (k_wire k) = Some PNew
  | MStart => k_mic k = GNone /\ k_echoes k = [] /\ k_stopOnce k = false /\ k_seqNum k = 1 /\ k_chunk k = 0 /\ phase_of (k_wire k) = Some POpen
  | _ => k_mic k <> GNone /\
      if k_stopOnce k then phase_of (k_wire k) = Some PStopped
      else phase_of (k_wire k) = Some (PNumbered (k_seqNum k)) /\ k_seqNum k = k_chunk k + 1
  end.

Definition wire_inv (k : call) : Prop :=
  is_Some (phase_of (k_wire k)) /\
  (k_closed k = false -> numbered k /\ (streaming k -> flowing k)).

Definition allowed (l : label) (k k' : call) : Prop :=
  k_closed k = true -> k_wire k' = k_wire k.

Lemma wire_inv_dialled b : wire_inv (dialled b).
Proof. split; [by eexists|]. intros _. unfold numbered, streaming, flowing. cbn. intuition. Qed.

Definition past_handshake (m : main_pc) : Prop := m <> MConnected /\ m <> MStart.

(** A closed connection takes nothing more. *)
Lemma wire_inv_closed k k' : wire_inv k -> k_closed k' = true -> k_wire k' = k_wire k -> wire_inv k'.
Proof. intros [Hp _] Hc Hw. split; [by rewrite Hw|congruence]. Qed.

Lemma numbered_past k : past_handshake (k_main k) -> numbered k <->
  (k_mic k <> GNone /\ if k_stopOnce k then phase_of (k_wire k) = Some PStopped
   else phase_of (k_wire k) = Some (PNumbered (k_seqNum k)) /\ k_seqNum k = k_chunk k + 1).
Proof. intros [H1 H2]. unfold numbered. by destruct (k_main k). Qed.

(** Steps that write nothing. *)
Lemma wire_inv_quiet k k' :
  wire_inv k -> k_wire k' = k_wire k -> k_seqNum k' = k_seqNum k -> k_chunk k' = k_chunk k -> k_stopOnce k' = k_stopOnce k ->
  k_closed k' = k_closed k ->
  (k_main k' = k_main k /\ k_echoes k' = k_echoes k \/ past_handshake (k_main k) /\ past_handshake (k_main k')) ->
  (k_mic k' = GNone <-> k_mic k = GNone) -> (streaming k' -> streaming k /\ (flowing k -> flowing k')) -> wire_inv k'.
Proof.
  intros [Hp Hn] Hw Hs Hc Ho Hcl Hm Hg Hf. split; [by rewrite Hw|]. rewrite Hcl. intros Hopen. destruct (Hn Hopen) as [Hnum Hfl]. split.
  - destruct Hm as [[Hm He]|[Hm Hm']].
    + unfold numbered in *. rewrite Hm, He, Hw, Hs, Hc, Ho. destruct (k_main k); tauto.
    + apply numbered_past in Hnum; [|done]. apply numbered_past; [done|]. rewrite Hw, Hs, Hc, Ho. tauto.
  - intros Hst. destruct (Hf Hst) as [H1 H2]. auto.
Qed.

(** The stop frame is written once the source has ended. *)
Lemma wire_inv_stop res k :
  wire_inv k -> (k_closed k = false -> ~ streaming k) -> (k_closed k = true -> k_wire (sendStop res k) = k_wire k) -> wire_inv (sendStop res k).
Proof.
  intros Hi Hst Hcl. destruct (k_closed k) eqn:Hc.
  - apply (wire_inv_closed k); auto. unfold sendStop, write_frame. by destruct (k_stopOnce k), res.
  - destruct Hi as [Hp Hn]. destruct (Hn Hc) as [Hnum Hfl]. specialize (Hst eq_refl). unfold sendStop. destruct (k_stopOnce k) eqn:Ho; [by split|].
    assert (Hpast : past_handshake (k_main k)).
    { unfold numbered, streaming in *. split; intros E; rewrite E in Hnum; tauto. }
    apply numbered_past in Hnum; [|done]. rewrite Ho in Hnum. destruct Hnum as (Hg & Hph & Hseq).
    destruct res as [e|]; cbn.
    + split; [|done]. by eexists.
    + split; [cbn; erewrite phase_stop by eassumption; by eexists|]. intros _. split.
      * apply numbered_past; [done|]. cbn. split; [done|]. by apply phase_stop.
      * intros H. by destruct Hst.
Qed.

(** Handing over is quiet; a new stretch of the pcs is a change of no account. *)
Lemma wire_inv_flags k k' : wire_inv k -> ~ streaming k -> ~ streaming k' -> k_main k' = k_main k -> k_echoes k' = k_echoes k ->
  k_wire k' = k_wire k -> k_seqNum k' = k_seqNum k -> k_chunk k' = k_chunk k -> k_stopOnce k' = k_stopOnce k -> k_closed k' = k_closed k ->
  wire_inv k'.
Proof.
  intros Hi Hs Hs'. unfold streaming in *. intros. apply (wire_inv_quiet k); auto; unfold streaming; tauto.
Qed.


Lemma main_step_inv res k k' : allowed (LMain res) k k' -> main_step res k = Some k' -> wire_inv k -> wire_inv k'.
Proof.
  intros Ha Hs Hi. destruct (k_closed k) eqn:Hc.
  { apply (wire_inv_closed k); auto. unfold main_step, handshake, write_frame, finishCallEnded in Hs. destruct (k_main k), res; simplify_eq; cbn; try done; repeat case_match; simplify_eq; cbn in *; done. }
  clear Ha. pose proof Hi as [Hp Hn]. destruct (Hn Hc) as [Hnum Hfl]. unfold main_step in Hs. destruct (k_main k) eqn:Hm.
  - injection Hs as <-. unfold numbered in Hnum. rewrite Hm in Hnum. destruct Hnum as (Hg & Hec & Ho & Hsq & Hch & Hph). destruct res as [e|]; [by split|].
    split; cbn; [erewrite phase_connected by done; by eexists|]. intros _. split; [unfold numbered; cbn; split_and!; auto using phase_connected|].
    intros Hst. destruct (Hfl Hst) as (? & ? & ? & ? & _ & ?). unfold flowing. cbn. tauto.
  - injection Hs as <-. unfold numbered in Hnum. rewrite Hm in Hnum. destruct Hnum as (Hg & Hec & Ho & Hsq & Hch & Hph). destruct res as [e|]; cbn; [by split|].
    rewrite Hsq. split; cbn; [erewrite phase_start by done; by eexists|]. intros _. split.
    + unfold numbered. cbn. rewrite Ho, Hsq, Hch. split; [done|]. split; [by apply phase_start|done].
    + intros _. destruct (Hfl (or_introl Hg)) as (? & ? & ? & ? & _ & ?). unfold flowing. cbn. tauto.
  - destruct (k_readDone k) eqn:Hr; [|done]. injection Hs as <-. apply (wire_inv_quiet k); try done; cbn; [right; by rewrite Hm|].
    intros Hst. destruct (Hfl Hst) as (? & _). congruence.
  - destruct (k_micErr k) eqn:He; [|done]. injection Hs as <-. apply (wire_inv_quiet k); try done; cbn; [right; by rewrite Hm|].
    intros Hst. destruct (Hfl Hst) as (_ & _ & _ & ? & _). congruence.
  - injection Hs as <-. apply (wire_inv_quiet k); try done; cbn; [right; by rewrite Hm|].
    intros Hst. destruct (Hfl Hst) as (_ & _ & _ & _ & [?|[?|?]] & _); congruence.
  - injection Hs as <-. apply (wire_inv_closed k); done.
  - done.
Qed.

Lemma watch_step_inv res k k' : allowed (LWatch res) k k' -> watch_step res k = Some k' -> wire_inv k -> wire_inv k'.
Proof.
  intros Ha Hs Hi. unfold watch_step in Hs. destruct (k_watch k) eqn:Hw.
  - destruct (k_ctx k); [|done]. injection Hs as <-. apply (wire_inv_quiet k); auto; try done. cbn. intros Hst. split; [done|].
    unfold flowing. cbn. tauto.
  - destruct (k_micStopped k || k_readDone k) eqn:E; [|done]. injection Hs as <-. apply (wire_inv_quiet k); auto; try done. cbn. intros Hst. split; [done|].
    unfold flowing. intros (? & ? & _). apply orb_true_iff in E as [?|?]; congruence.
  - injection Hs as <-. assert (H : wire_inv (sendStop res k)).
    { apply wire_inv_stop; [done| |].
      - intros Hc Hst. destruct Hi as [_ Hn]. destruct (Hn Hc) as [_ Hf]. destruct (Hf Hst) as (_ & _ & _ & _ & _ & [?|?]); congruence.
      - intros Hc. apply Ha in Hc. exact Hc. }
    apply (wire_inv_quiet (sendStop res k)); auto; try done. cbn. intros Hst. split; [done|]. 
    intros Hf. exfalso. destruct Hf as (_ & _ & _ & _ & _ & Hww). unfold sendStop, write_frame in Hww. destruct (k_stopOnce k), res; cbn in Hww; rewrite Hw in Hww; destruct Hww; discriminate.
  - injection Hs as <-. apply (wire_inv_quiet k); auto; try done. cbn. intros Hst. split; [done|].
    unfold flowing. intros (_ & _ & _ & _ & _ & [?|?]); congruence.
  - done.
Qed.

Lemma source_step_inv i res k k' : allowed (LSource i res) k k' -> source_step i res k = Some k' -> wire_inv k -> wire_inv k'.
Proof.
  intros Ha Hs Hi. unfold source_step in Hs. destruct (k_mic k) eqn:Hg; try done.
  assert (Hend : forall err, wire_inv (k <| k_mic := GReturned err |>)).
  { intros err. apply (wire_inv_quiet k); auto; cbn; [by rewrite Hg|]. unfold streaming. cbn. intros [?|?]; discriminate. }
  destruct i; [|injection Hs as <-; apply Hend..|destruct (micCtx_done k); [injection Hs as <-; apply Hend|done]].
  destruct res as [e|]; injection Hs as <-; cbn in *.
  { apply (wire_inv_closed k); done. }
  destruct (k_closed k) eqn:Hc; [apply (wire_inv_closed k); auto|]. destruct Hi as [Hp Hn]. destruct (Hn Hc) as [Hnum Hfl].
  assert (Hst : streaming k) by (right; done). destruct (Hfl Hst) as (? & ? & Ho & ? & Hm & ?).
  assert (Hpast : past_handshake (k_main k)).
  { unfold numbered in *. split; intros E; rewrite E in Hnum; destruct Hnum; congruence. }
  apply numbered_past in Hnum; [|done]. rewrite Ho in Hnum. destruct Hnum as (_ & Hph & Hsq).
  split; cbn; [erewrite phase_media by done; by eexists|]. intros _. split.
  - apply numbered_past; [done|]. cbn. rewrite Ho, Hg. split; [done|]. split; [by apply phase_media|lia].
  - intros _. unfold flowing. cbn. tauto.
Qed.

Lemma mic_step_inv res k k' : allowed (LMic res) k k' -> mic_step res k = Some k' -> wire_inv k -> wire_inv k'.
Proof.
  intros Ha Hs Hi. unfold mic_step in Hs.
  assert (Hns : k_mic k <> GNone -> k_mic k <> GStream -> ~ streaming k) by (intros ? ? [?|?]; done).
  destruct (k_mic k) as [| |err|err|err|err| | |] eqn:Hg; try done; specialize (Hns ltac:(done) ltac:(done)).
  - injection Hs as <-. apply (wire_inv_flags k); auto. unfold streaming. cbn. destruct (negb _); intros [?|?]; discriminate.
  - injection Hs as <-. assert (H : wire_inv (sendStop res k)) by (apply wire_inv_stop; auto).
    apply (wire_inv_flags (sendStop res k)); auto; unfold streaming; cbn; [|intros [?|?]; discriminate].
    unfold sendStop, write_frame. destruct (k_stopOnce k), res; cbn; rewrite Hg; intros [?|?]; discriminate.
  - injection Hs as <-. apply (wire_inv_flags k); auto. intros [?|?]; discriminate.
  - destruct (k_micErr k); [done|]. injection Hs as <-. apply (wire_inv_flags k); auto. intros [?|?]; discriminate.
  - injection Hs as <-. apply (wire_inv_flags k); auto. intros [?|?]; discriminate.
  - injection Hs as <-. apply (wire_inv_flags k); auto. intros [?|?]; discriminate.
Qed.

(** The echo of a mark has its place anywhere behind the start. *)
Lemma echo_step_inv i res k k' : allowed (LEcho i res) k k' -> echo_step i res k = Some k' -> wire_inv k -> wire_inv k'.
Proof.
  intros Ha Hs Hi. unfold echo_step in Hs. destruct (k_echoes k !! i) as [name|] eqn:He; [|done]. injection Hs as <-.
  destruct res as [e|]; [by apply (wire_inv_closed k)|]. destruct (k_closed k) eqn:Hc; [apply (wire_inv_closed k); auto|].
  destruct Hi as [Hp Hn]. destruct (Hn Hc) as [Hnum Hfl].
  assert (Hpast : past_handshake (k_main k)).
  { unfold numbered in Hnum. split; intros E; rewrite E in Hnum; destruct Hnum as (_ & Hec & _); by rewrite Hec in He. }
  apply numbered_past in Hnum; [|done]. destruct Hnum as [Hg Hph]. unfold write_frame. split; cbn.
  - destruct (k_stopOnce k); [erewrite phase_mark by done|erewrite phase_mark_numbered by apply Hph]; by eexists.
  - intros _. split; [|intros Hst; exact (Hfl Hst)]. apply numbered_past; [done|]. cbn. split; [done|].
    destruct (k_stopOnce k); [by apply phase_mark|]. destruct Hph as [Hph Hq]. split; [by apply phase_mark_numbered|done].
Qed.

Ltac step_cases Hs :=
  cbn [call_step] in Hs;
  unfold main_step, take_read, watch_step, source_step, mic_step, reader_read, reader_quit, echo_step, handshake, sendStop, write_frame, finishCallEnded in Hs;
  cbn in Hs;
  repeat (match type of Hs with context [match ?x with _ => _ end] => destruct x eqn:? end; cbn in Hs; try discriminate Hs);
  try discriminate Hs; injection Hs as <-.

(** The reader has an error to hand over only on a closed connection. *)
Definition read_closed (k : call) : Prop := forall e, k_reader k = RHave (GotError e) -> k_closed k = true.

Lemma read_closed_step l k k' : call_step l k = Some k' -> read_closed k -> read_closed k'.
Proof.
  unfold read_closed. intros Hs H e. destruct k. cbn in H. destruct l; step_cases Hs; subst; cbn; try discriminate; intros; simplify_eq; eauto.
Qed.

Lemma reader_inv l k k' : match l with LCtrlC | LTakeRead | LRead _ | LQuit => True | _ => False end ->
  call_step l k = Some k' -> read_closed k -> wire_inv k -> wire_inv k'.
Proof.
  intros Hl Hs Hrc Hi. destruct l; try done; cbn in Hs.
  - destruct (k_ctx k); [done|]. injection Hs as <-. apply (wire_inv_quiet k); auto; done.
  - unfold take_read in Hs. destruct (k_main k) eqn:Hm; try done. destruct (k_reader k) as [| |[name| |e]|] eqn:Hr; try done.
    + injection Hs as <-. cbn. destruct (k_noEchoMarks k); (apply (wire_inv_quiet k); auto; try done);
        cbn; rewrite Hm; first [by left|right; split; by split].
    + injection Hs as <-. apply (wire_inv_quiet k); auto; done.
    + specialize (Hrc _ Hr). injection Hs as <-. apply (wire_inv_closed k); auto; by destruct (isCallEnded e).
  - unfold reader_read in Hs. destruct (k_reader k) eqn:Hr; try done. injection Hs as <-.
    destruct r as [name| |e]; [apply (wire_inv_quiet k); auto; done..|by apply (wire_inv_closed k)].
  - unfold reader_quit in Hs. destruct (k_reader k) eqn:Hr; try done. destruct (k_readDone k); [|done]. injection Hs as <-.
    apply (wire_inv_quiet k); auto; done.
Qed.

Lemma wire_inv_step l k k' : allowed l k k' -> call_step l k = Some k' -> read_closed k -> wire_inv k -> wire_inv k'.
Proof.
  intros Ha Hs Hr Hi. destruct l; try (eapply reader_inv; [|exact Hs|done..]; exact I); eauto using main_step_inv, watch_step_inv, source_step_inv, mic_step_inv, echo_step_inv.
Qed.

(** ** A healthy connection *)

(** Nothing fails but a read after readCtx is done. *)
Definition healthy_label (l : label) (k : call) : bool :=
  match l with
  | LMain r | LWatch r | LMic r => bool_decide (r = None)
  | LSource IFrame r => bool_decide (r = None)
  | LRead (GotError _) => k_readDone k
  | LEcho _ r => bool_decide (r = None) || k_closed k
  | _ => true
  end.

Fixpoint healthy (ls : list label) (k : call) : bool :=
  match ls with
  | [] => true
  | l :: ls => healthy_label l k && match call_step l k with Some k' => healthy ls k' | None => true end
  end.

(** Whatever ends the loop follows the stop frame, and the stop frame the last
    of the media. *)
Definition healthy_inv (k : call) : Prop :=
  (k_stopOnce k = true -> phase_of (k_wire k) = Some PStopped /\ ~ streaming k /\ past_handshake (k_main k)) /\
  (k_readDone k = true \/ k_closed k = true \/ looping k = false \/ k_watch k = WCancelRead \/ (exists e, k_mic k = GCancelRead e) -> k_stopOnce k = true) /\
  (forall e, k_reader k = RHave (GotError e) -> k_stopOnce k = true).

Lemma stop_accepted k : wire_inv k -> k_closed k = false -> k_stopOnce k = false ->
  k_watch k = WSendStop \/ (exists e, k_mic k = GSendStop e) ->
  phase_of (k_wire k ++ [WStop (k_seqNum k + 1)]) = Some PStopped /\ ~ streaming k /\ past_handshake (k_main k).
Proof.
  intros [_ Hw] Hc Ho Hp. destruct (Hw Hc) as [Hn Hf].
  assert (Hst : ~ streaming k).
  { intros Hst. destruct (Hf Hst) as (_ & _ & _ & _ & _ & Hwatch). destruct Hp as [Hp|[e Hp]]; [rewrite Hp in Hwatch; destruct Hwatch; done|].
    destruct Hst; congruence. }
  assert (Hpast : past_handshake (k_main k)).
  { unfold numbered, streaming in *. split; intros E; rewrite E in Hn; tauto. }
  split_and!; auto; try apply Hpast. apply numbered_past in Hn; [|done]. rewrite Ho in Hn. destruct Hn as (_ & Hph & _). by apply phase_stop.
Qed.

Lemma healthy_stopped l k k' : call_step l k = Some k' -> k_stopOnce k = true -> healthy_inv k -> healthy_inv k'.
Proof.
  intros Hs Ho (H1 & _). destruct (H1 Ho) as (Hph & Hns & Hpa & Hpb). clear H1.
  unfold healthy_inv, streaming, past_handshake in *. destruct k as [ctx cm rd so seq ch ms me cl m w g r ne ec wire]. cbn in *. subst so.
  destruct l; step_cases Hs; cbn; subst; try (exfalso; by auto); split_and!; intros; try done; split_and!; try done; try (by auto); try (intros [?|?]; discriminate); try (by apply phase_mark).
Qed.

Lemma healthy_unstopped l k k' : healthy_label l k = true -> call_step l k = Some k' -> k_stopOnce k = false -> wire_inv k -> healthy_inv k -> healthy_inv k'.
Proof.
  intros Hl Hs Ho Hwi (_ & H2 & H3).
  assert (Hrd : k_readDone k = false) by (destruct (k_readDone k) eqn:?; [rewrite H2 in Ho by auto; done|done]).
  assert (Hcl : k_closed k = false) by (destruct (k_closed k) eqn:?; [rewrite H2 in Ho by auto; done|done]).
  assert (Hlp : looping k = true) by (destruct (looping k) eqn:?; [done|rewrite H2 in Ho by auto; done]).
  assert (Hw : k_watch k <> WCancelRead) by (intros E; rewrite H2 in Ho by auto; done).
  assert (Hg : forall e, k_mic k <> GCancelRead e) by (intros e E; rewrite H2 in Ho by eauto 6; done).
  assert (Hr : forall e, k_reader k <> RHave (GotError e)) by (intros e E; rewrite (H3 e E) in Ho; done).
  pose proof (stop_accepted k Hwi Hcl Ho) as Hst. clear Hwi H2 H3.
  unfold healthy_inv, looping, streaming, past_handshake in *. destruct k as [ctx cm rd so seq ch ms me cl m w g r ne ec wire]. cbn in *. subst so rd cl.
  destruct l; cbn in Hl; step_cases Hs; cbn; repeat match goal with H : bool_decide _ = true |- _ => apply bool_decide_eq_true in H end; subst; try discriminate.
  all: try (exfalso; by eauto).
  all: try (specialize (Hst ltac:(eauto)); split_and!; [done|done..]).
  all: split_and!; intros; destruct_or?; try done; repeat match goal with H : exists _, _ |- _ => destruct H end; first [congruence | exfalso; by eauto | exfalso; by eapply Hr | exfalso; by eapply Hg | idtac].
  all: try (destruct (Hst ltac:(eauto)) as (? & ? & ? & ?)).
  all: try (split_and!; auto; intros [?|?]; discriminate).
Qed.

Lemma healthy_step l k k' : healthy_label l k = true -> call_step l k = Some k' -> wire_inv k -> healthy_inv k -> healthy_inv k'.
Proof. intros. destruct (k_stopOnce k) eqn:E; eauto using healthy_stopped, healthy_unstopped. Qed.

Lemma healthy_dialled b : healthy_inv (dialled b).
Proof.
  unfold healthy_inv, dialled. cbn. split_and!; try done. intros H. destruct_or?; try done. destruct H; done.
Qed.

Lemma closes_allowed l ls k k' : closes_on_error (l :: ls) k = true -> call_step l k = Some k' -> allowed l k k' /\ closes_on_error ls k' = true.
Proof.
  intros H Hs. cbn [closes_on_error] in H. rewrite Hs in H. apply andb_true_iff in H as [H1 H2]. split; [|done]. intros Hc. rewrite Hc in H1. cbn in H1.
  apply andb_true_iff in H1 as [H1 _]. by apply bool_decide_eq_true in H1.
Qed.

Lemma dial_run_inv ls k k' : closes_on_error ls k = true -> call_run ls k = Some k' -> read_closed k -> wire_inv k ->
  wire_inv k' /\ (healthy ls k = true -> healthy_inv k -> healthy_inv k').
Proof.
  revert k. induction ls as [|l ls IH]; intros k Hc Hr Hrd Hw; cbn [call_run] in Hr; [by injection Hr as <-|].
  destruct (call_step l k) as [k1|] eqn:Hs; [|done]. cbn [mbind option_bind] in Hr. destruct (closes_allowed _ _ _ _ Hc Hs) as [Ha Hc1].
  destruct (IH k1 Hc1 Hr) as [H1 H2]; [by eapply read_closed_step|by eapply wire_inv_step|]. split; [done|].
  cbn [healthy]. rewrite Hs. intros [Hl Hh]%andb_true_iff Hi. apply H2; [done|]. by eapply healthy_step.
Qed.

(** ** The echoes of marks *)

Definition wire_marks (w : list wire_msg) : list string := omap (fun m => match m with WMark name => Some name | _ => None end) w.
(** The marks read off the connection. *)
Definition heard (ls : list label) : list string := omap (fun l => match l with LRead (GotMark name) => Some name | _ => None end) ls.
Definition held_mark (r : reader_pc) : list string := match r with RHave (GotMark name) => [name] | _ => [] end.

#[global] Arguments wire_marks : simpl never.
#[global] Arguments heard : simpl never.

Lemma wire_marks_snoc w m : wire_marks (w ++ [m]) = wire_marks w ++ match m with WMark name => [name] | _ => [] end.
Proof. unfold wire_marks. rewrite omap_app. f_equal. by destruct m. Qed.
Lemma heard_snoc ls l : heard (ls ++ [l]) = heard ls ++ match l with LRead (GotMark name) => [name] | _ => [] end.
Proof. unfold heard. rewrite omap_app. f_equal. by destruct l as [| | | | | |[]| |]. Qed.

Definition echo_inv (noEchoMarks : bool) (ls : list label) (k : call) : Prop :=
  k_noEchoMarks k = noEchoMarks /\
  (noEchoMarks = true -> wire_marks (k_wire k) = [] /\ k_echoes k = []) /\
  wire_marks (k_wire k) ++ k_echoes k ++ held_mark (k_reader k) ⊆+ heard ls.

Lemma echo_inv_step b ls l k k' : call_step l k = Some k' -> echo_inv b ls k -> echo_inv b (ls ++ [l]) k'.
Proof.
  unfold echo_inv. rewrite heard_snoc. intros Hs (Hb & He & Hi). destruct k as [ctx cm rd so seq ch ms me cl m w g r ne ec wire].
  cbn in Hb, He, Hi. subst ne.
  destruct l as [| | | | | |[name| |e]| |i res]; step_cases Hs; cbn; subst; rewrite ?wire_marks_snoc, ?app_nil_r in *; try done;
    (split; [done|split]); try done; try exact Hi; try exact He.
  all: try (apply delete_Permutation in Heqo).
  all: try (intros E; destruct (He E) as [_ ->]; by apply Permutation_nil_cons in Heqo).
  all: cbn [held_mark] in Hi; rewrite ?app_nil_r in Hi.
  all: try (etrans; [|exact Hi]; apply submseteq_app; [done|]; by apply submseteq_inserts_r).
  - rewrite app_assoc. by apply submseteq_skips_r.
  - etrans; [|exact Hi]. apply submseteq_skips_l, submseteq_skips_r. rewrite Heqo at 2. by apply submseteq_cons.
  - etrans; [|exact Hi]. rewrite <- app_assoc. apply submseteq_skips_l. cbn [app]. by rewrite Heqo at 2.
Qed.

Lemma echo_run_inv b ls k : call_run ls (dialled b) = Some k -> echo_inv b ls k.
Proof.
  assert (forall ls2 ls1 k1, echo_inv b ls1 k1 -> call_run ls2 k1 = Some k -> echo_inv b (ls1 ++ ls2) k) as H.
  { induction ls2 as [|l ls2 IH]; intros ls1 k1 Hi Hr; cbn [call_run] in Hr; [simplify_eq; by rewrite app_nil_r|].
    destruct (call_step l k1) as [k2|] eqn:Hs; [|done]. rewrite cons_middle, app_assoc. apply (IH _ k2); [|done].
    by eapply echo_inv_step. }
  intros Hr. apply (H ls [] (dialled b)); [|done]. by split_and!.
Qed.

Lemma echoes_heard b ls k : echo_inv b ls k -> wire_marks (k_wire k) ⊆+ (if b then [] else heard ls).
Proof.
  intros (_ & He & Hi). destruct b; [by destruct (He eq_refl) as [-> _]|].
  etrans; [|exact Hi]. by apply submseteq_inserts_r.
Qed.


(** C24: In every interleaving of the goroutines of a dialled call -- those that echo marks
    included -- on a connection that fails for good at its first error, what is written is
    connected, then start with number 1, then media whose chunk and sequence numbers count
    on by one, then at most one stop with the next number, and nothing numbered behind it;
    echoes of marks may stand anywhere behind the start, the stop included, at most one for
    each mark read and none when echoes are suppressed. When no write failed before the
    connection was closed and no read failed before the read context was done (the server
    did not hang up first), the stop has been written once the read loop is over. *)
Theorem call_wire_numbered noEchoMarks ls k :
  closes_on_error ls (dialled noEchoMarks) = true -> call_run ls (dialled noEchoMarks) = Some k ->
  is_Some (phase_of (k_wire k)) /\
  wire_marks (k_wire k) ⊆+ (if noEchoMarks then [] else heard ls) /\
  (healthy ls (dialled noEchoMarks) = true -> looping k = false -> phase_of (k_wire k) = Some PStopped).
Proof.
  intros Hc Hr. destruct (dial_run_inv ls (dialled noEchoMarks) k Hc Hr) as [[Hp _] Hh]; [done|apply wire_inv_dialled|].
  split; [done|]. split; [by apply echoes_heard, echo_run_inv|].
  intros H Hl. destruct (Hh H (healthy_dialled _)) as (H1 & H2 & _). apply H1, H2. auto.
Qed.

(** ** The end of a call *)

(** Ctrl-C, the end of the source, the loss of the connection, or a step that
    follows one of them. *)
Definition ending (k : call) : bool :=
  k_ctx k || k_readDone k || negb (looping k) ||
  match k_mic k with GNone | GStream => false | _ => true end ||
  match k_reader k with RHave (GotError _) | RDone => true | _ => false end.

Definition delivered (g : mic_pc) : bool := match g with GClose | GCancel | GDone => true | _ => false end.
Definition told (g : mic_pc) : bool := match g with GCancel | GDone => true | _ => false end.
Definition unnatural (g : mic_pc) : bool := match g with GSendErr _ | GClose | GCancel | GDone => true | _ => false end.
Definition gone (g : mic_pc) : bool := match g with GDone => true | _ => false end.
Definition absent (g : mic_pc) : bool := match g with GNone => true | _ => false end.
Definition quit (r : reader_pc) : bool := match r with RDone => true | _ => false end.
Definition unread (r : reader_pc) : bool := match r with RNone => true | _ => false end.
Definition watched (w : watch_pc) : bool := match w with WDone => true | _ => false end.
Definition has_result (m : option (option error)) : bool := match m with Some _ => true | None => false end.

Definition end_inv (k : call) : Prop :=
  (has_result (k_micErr k) = true -> delivered (k_mic k) = true) /\
  (told (k_mic k) = true -> k_micStopped k = true) /\
  (watched (k_watch k) = true -> k_readDone k = true) /\
  match k_main k with
  | MConnected | MStart => absent (k_mic k) = true /\ unread (k_reader k) = true /\ (k_cancelMic k = true -> k_ctx k = true)
  | MLoop =>
      absent (k_mic k) = false /\ unread (k_reader k) = false /\ (quit (k_reader k) = true -> k_readDone k = true) /\
      (k_cancelMic k = true -> k_ctx k = true \/ gone (k_mic k) = true) /\
      (delivered (k_mic k) = true -> has_result (k_micErr k) = true) /\
      (unnatural (k_mic k) = true -> k_readDone k = true \/ k_ctx k = true)
  | MJoin => absent (k_mic k) = false /\ k_cancelMic k = true /\ (delivered (k_mic k) = true -> has_result (k_micErr k) = true)
  | _ => True
  end.

Lemma end_inv_dialled b : end_inv (dialled b).
Proof. unfold end_inv. cbn. split_and!; intros; done. Qed.

Lemma end_inv_step l k k' : call_step l k = Some k' -> end_inv k -> end_inv k'.
Proof.
  intros Hs (H1 & H2 & H3 & H4). unfold end_inv, micCtx_done in *. destruct k as [ctx cm rd so seq ch ms me cl m w g r ne ec wire]. cbn in *.
  destruct l; step_cases Hs; cbn in *; subst; try discriminate; destruct_and?.
  all: try (destruct m); destruct_and?; split_and!; auto; try discriminate.
  1: by destruct g.
  all: intros _; destruct ctx, cm; cbn in *; auto; try discriminate; naive_solver.
Qed.

(** ** The measure *)

Definition main_rank (m : main_pc) : nat :=
  match m with MConnected => 6 | MStart => 5 | MLoop => 4 | MJoin => 3 | MReturn _ => 2 | MClosing _ => 1 | MDone _ => 0 end.
Definition watch_rank (w : watch_pc) : nat := match w with WWait => 4 | WSelect => 3 | WSendStop => 2 | WCancelRead => 1 | WDone => 0 end.
Definition mic_rank (g : mic_pc) : nat :=
  match g with
  | GNone => 8 | GStream => 7 | GReturned _ => 6 | GSendStop _ => 5 | GCancelRead _ => 4 | GSendErr _ => 3 | GClose => 2 | GCancel => 1 | GDone => 0
  end.
Definition reader_rank (r : reader_pc) : nat := match r with RNone => 3 | RRead | RHave (GotMark _ | GotMessage) => 2 | RHave (GotError _) => 1 | RDone => 0 end.
Definition rank (k : call) : nat :=
  main_rank (k_main k) + watch_rank (k_watch k) + mic_rank (k_mic k) + reader_rank (k_reader k).

Lemma dial_rank_step l k k' : call_step l k = Some k' -> end_inv k -> (rank k' <= rank k)%nat.
Proof.
  unfold rank. intros Hs Hi. destruct k as [ctx cm rd so seq ch ms me cl m w g r ne ec wire]. destruct l; step_cases Hs; cbn in *; subst; try discriminate; cbn; repeat case_match; cbn; try discriminate; try lia.
  destruct Hi as (_ & _ & _ & Hg & Hr & _). destruct g, r; try discriminate. cbn. lia.
Qed.

Lemma ending_step l k k' : call_step l k = Some k' -> end_inv k -> ending k = true -> ending k' = true.
Proof.
  unfold ending, looping. intros Hs Hi. destruct k as [ctx cm rd so seq ch ms me cl m w g r ne ec wire].
  destruct l; step_cases Hs; cbn in *; subst; try discriminate; rewrite ?orb_true_r, ?orb_false_r; cbn; auto.
  destruct Hi as (_ & _ & _ & Hg & Hr & _). destruct g, r; try discriminate. by rewrite !orb_false_r.
Qed.

(** A step, whatever its write comes to, that leaves the end nearer. *)
Definition advances (k : call) : Prop :=
  exists next : option error -> label, forall res, exists k', call_step (next res) k = Some k' /\ (rank k' < rank k)%nat.

(** The source's goroutine gets to its end, once it may. *)
Lemma mic_advances k : end_inv k -> k_main k = MLoop \/ k_main k = MJoin -> micCtx_done k = true \/ k_mic k <> GStream ->
  k_mic k = GDone \/ advances k.
Proof.
  intros (H1 & _ & _ & H4) Hm Hc. unfold advances, rank. destruct k as [ctx cm rd so seq ch ms me cl m w g r ne ec wire]. cbn in *.
  assert (Ha : absent g = false) by (destruct Hm as [-> | ->]; cbn in H4; tauto).
  destruct g as [| |err|err|err|err| | |]; try discriminate; [|right..|by left].
  - right. exists (fun res => LSource ICancelled res). intros res. destruct Hc as [Hc|Hc]; [|done]. cbn. rewrite Hc. eexists. split; [done|]. cbn. lia.
  - exists LMic. intros res. eexists. split; [done|]. cbn. destruct (negb _); cbn; lia.
  - exists LMic. intros res. cbn. unfold sendStop, write_frame. eexists. split; [done|]. cbn. destruct so, res; cbn; lia.
  - exists LMic. intros res. eexists. split; [done|]. cbn. lia.
  - exists LMic. intros res. destruct me; [by specialize (H1 eq_refl)|]. eexists. split; [done|]. cbn. lia.
  - exists LMic. intros res. eexists. split; [done|]. cbn. lia.
  - exists LMic. intros res. eexists. split; [done|]. cbn. lia.
Qed.

Lemma watch_advances k : k_ctx k = true -> k_micStopped k = true \/ k_readDone k = true -> k_watch k = WDone \/ advances k.
Proof.
  intros Hc Hs. unfold advances, rank. destruct k as [ctx cm rd so seq ch ms me cl m w g r ne ec wire]. cbn in *. subst ctx.
  destruct w; [right..|by left]; exists LWatch; intros res; cbn.
  - eexists. split; [done|]. cbn. lia.
  - rewrite (proj2 (orb_true_iff ms rd) Hs). eexists. split; [done|]. cbn. lia.
  - unfold sendStop, write_frame. eexists. split; [done|]. cbn. destruct so, res; cbn; lia.
  - eexists. split; [done|]. cbn. lia.
Qed.

Lemma end_advances k : end_inv k -> ending k = true -> (exists r, k_main k = MDone r) \/ advances k.
Proof.
  intros Hi He. pose proof Hi as (H1 & H2 & H3 & H4). destruct (k_main k) eqn:Hm.
  - right. exists LMain. intros res. cbn. unfold main_step. rewrite Hm. eexists. split; [done|]. unfold rank. rewrite Hm. destruct res; cbn; lia.
  - right. exists LMain. intros res. cbn. unfold main_step. rewrite Hm. destruct H4 as (Hg & Hr & _). unfold rank. rewrite Hm.
    destruct (k_mic k) eqn:Eg, (k_reader k) eqn:Er; try discriminate. eexists. split; [done|]. destruct res; cbn; rewrite ?Eg, ?Er; cbn; lia.
  - destruct H4 as (Hg & Hr & Hq & Hcm & Hdel & Hun).
    assert (Hread : k_readDone k = true -> advances k).
    { intros Hrd. exists LMain. intros res. cbn. unfold main_step. rewrite Hm, Hrd. eexists. split; [done|]. unfold rank. rewrite Hm. cbn. lia. }
    destruct (k_readDone k) eqn:Hrd; [right; auto|]. destruct (k_ctx k) eqn:Hctx.
    + destruct (mic_advances k Hi (or_introl Hm)) as [Hd|]; [left; unfold micCtx_done; by rewrite Hctx| |by right].
      rewrite Hd in *. destruct (watch_advances k Hctx) as [Hw|]; [left; by apply H2| |by right]. rewrite Hw in *. by specialize (H3 eq_refl).
    + unfold ending, looping in He. rewrite Hctx, Hrd, Hm in He. cbn in He. destruct (k_reader k) as [| |[name| |e]|] eqn:Hre.
      5: { right. exists (fun _ => LTakeRead). intros res. cbn. unfold take_read. rewrite Hm, Hre. eexists. split; [done|]. unfold rank. rewrite Hm, Hre.
           destruct (isCallEnded e); cbn; lia. }
      5: by specialize (Hq eq_refl).
      all: rewrite orb_false_r in He; (destruct (mic_advances k Hi (or_introl Hm)) as [Hd|]; [right; intros E; by rewrite E in He| |by right]);
        rewrite Hd in *; destruct (Hun eq_refl); discriminate.
  - destruct H4 as (Hg & Hcm & Hdel). destruct (k_micErr k) eqn:Hme.
    + right. exists LMain. intros res. cbn. unfold main_step. rewrite Hm, Hme. eexists. split; [done|]. unfold rank. rewrite Hm. cbn. lia.
    + destruct (mic_advances k Hi (or_intror Hm)) as [Hd|]; [left; unfold micCtx_done; rewrite Hcm; apply orb_true_r| |by right].
      rewrite Hd in *. by specialize (Hdel eq_refl).
  - right. exists LMain. intros res. cbn. unfold main_step. rewrite Hm. eexists. split; [done|]. unfold rank. rewrite Hm. cbn. lia.
  - right. exists LMain. intros res. cbn. unfold main_step. rewrite Hm. eexists. split; [done|]. unfold rank. rewrite Hm. cbn. lia.
  - left. by eexists.
Qed.

Lemma call_run_end ls k k' : call_run ls k = Some k' -> end_inv k -> end_inv k'.
Proof.
  revert k. induction ls as [|l ls IH]; intros k; cbn; [by intros [= <-]|]. destruct (call_step l k) as [k1|] eqn:E; [|done]. cbn.
  intros Hr Hi. apply (IH k1); [done|]. by eapply end_inv_step.
Qed.

(** C25: Once a call is ending -- Ctrl-C, a read error, a failed write, the end of the
    input, or the read context done -- dial has returned or some goroutine has a step that
    brings its return closer, whatever the outcomes of its reads and writes; and no step of
    any goroutine takes it further away or undoes the ending. *)
Theorem call_ends noEchoMarks ls k :
  call_run ls (dialled noEchoMarks) = Some k -> ending k = true ->
  ((exists r, k_main k = MDone r) \/ advances k) /\
  (forall l k', call_step l k = Some k' -> ending k' = true /\ (rank k' <= rank k)%nat).
Proof.
  intros Hr He. pose proof (call_run_end _ _ _ Hr (end_inv_dialled _)) as Hi. split; [by apply end_advances|].
  intros l k' Hs. split; [by eapply ending_step|by eapply dial_rank_step].
Qed.

(** ** Example calls *)

(** Ctrl-C while the source streams: its tail, then the stop frame, and behind it the
    echo of a mark. *)
Definition ctrl_c_call : list label :=
  [LMain None; LMain None; LSource IFrame None; LRead (GotMark "m"); LTakeRead; LSource IFrame None; LCtrlC; LWatch None; LSource IFrame None;
   LSource ICancelled None; LMic None; LMic None; LMic None; LWatch None; LWatch None; LEcho 0 None; LWatch None; LMic None; LMain None; LMain None; LMain None; LMain None].

Definition ctrl_c_end : call := default (dialled false) (call_run ctrl_c_call (dialled false)).

Lemma call_wire_numbered_witness :
  k_wire ctrl_c_end = [WConnected; WStart 1; WMedia 1 2; WMedia 2 3; WMedia 3 4; WStop 5; WMark "m"] /\
  wire_marks (k_wire ctrl_c_end) ⊆+ heard ctrl_c_call /\ phase_of (k_wire ctrl_c_end) = Some PStopped.
Proof.
  split; [vm_compute; reflexivity|].
  destruct (call_wire_numbered false ctrl_c_call ctrl_c_end ltac:(vm_compute; reflexivity) ltac:(vm_compute; reflexivity)) as (_ & Hm & Hs).
  split; [exact Hm|]. apply Hs; vm_compute; reflexivity.
Defined.

Lemma call_ends_witness :
  let k := default (dialled false) (call_run (take 7 ctrl_c_call) (dialled false)) in ((exists r, k_main k = MDone r) \/ advances k) /\ rank k = 17%nat.
Proof.
  split; [|vm_compute; reflexivity].
  exact (proj1 (call_ends false (take 7 ctrl_c_call) _ ltac:(vm_compute; reflexivity) ltac:(vm_compute; reflexivity))).
Defined.

(** The server closes the socket and the source's next write is the first to
    notice: the source counts as ended by itself, and a stop frame is tried on
    the closed connection. *)
Definition broken_pipe : error := mkError "write: broken pipe" [EPIPE].

Lemma server_close_draws_stop :
  let ls := [LMain None; LMain None; LSource IFrame None; LSource IFrame (Some broken_pipe); LMic None] in
  let k := default (dialled false) (call_run ls (dialled false)) in
  call_run ls (dialled false) = Some k /\ closes_on_error ls (dialled false) = true /\ k_closed k = true /\ k_ctx k = false /\
  k_mic k = GSendStop None /\ k_stopOnce k = false /\
  match call_step (LMic (Some broken_pipe)) k with Some k' => k_stopOnce k' = true /\ k_seqNum k' = 4 | None => False end.
Proof. vm_compute. split_and!; reflexivity. Qed.
