(* ===== verification/Replay.v ===== *)
(** * Replay: a recording through a live session

    [telephony/replay.go].  [Replay] feeds a recording's bytes, and synthetic
    silence behind them, into a session; a gate of tokens keeps it at most
    [replayLookahead] chunks ahead of the windows the voice-activity service has
    settled, and a wait group is to hold it until every utterance's result is
    back.  The model is the pipeline from the feed to the wait: the feed, the
    session's loop and its [forwardToVAD] ([telephony/session.go]), the goroutine
    of [runVAD] and the relay of [newVADService] ([telephony/vad.go]) take their
    steps in any order.  The detector is a parameter, and so is whether the
    session is in a state that hands a chunk on or one that absorbs it. *)

From S2P Require Export Vad.

Definition replayFrameBytes : Z := 256.
Definition replaySilenceByte : byte := 0x80.
Definition silencePaddingMargin : Z := 4.
Definition replayLookahead : nat := 4.

(** ** What is fed *)

(** [feedReplayAudio]: one chunk per read that returned bytes. *)
Definition feedReplayAudio (reads : list bytes) : list bytes := List.filter (fun r => negb (len r =? 0)) reads.

Definition feedReplaySilencePadding (cfg : vadConfig) : list bytes :=
  let cfg := withDefaults cfg in
  let windows := windowsToCross (EndSilenceMS cfg) (windowMS cfg) + silencePaddingMargin in
  replicate (Z.to_nat windows) (replicate (Z.to_nat replayFrameBytes) replaySilenceByte).

Definition replay_feed (cfg : vadConfig) (reads : list bytes) : list bytes := feedReplayAudio reads ++ feedReplaySilencePadding cfg.

(** ** The pipeline

    A chunk goes through the data input to the session's loop, which hands it on
    without blocking when its state takes audio and absorbs it otherwise; a
    goroutine of the session carries it to the voice-activity service, whose
    windows settle when they make no event or when the relay has put their event
    on the service's output. *)

Definition dataInDepth : nat := 16.
(** [forwardCh], and the service's input and two output channels. *)
Definition planeDepth : nat := Z.to_nat (ComputeDepth DataPlaneBufferMS MuLawFrameMS).

Section pipeline.
Context {D : Type} (Detect : D -> list gofloat -> D * result gofloat).

Record replay := mkReplay {
  tokens : nat;                    (* vadProgressGate *)
  todo : list bytes;               (* chunks not sent yet *)
  dataIn : list bytes;             (* the session's data input *)
  forwardCh : list bytes;
  handing : option bytes;          (* what forwardToVAD has taken and not yet sent on *)
  vadIn : list bytes;              (* the service's input *)
  win : windower gofloat;
  ready : list (list gofloat);     (* windows of the chunk runVAD is at *)
  mach : vadMachine;
  det : D;
  vadEnded : bool;                 (* runVAD has returned on a detector error *)
  raw : list VADEvent;             (* emitted, not taken by the relay *)
  relaying : option VADEvent;      (* taken by the relay *)
  vadOut : list VADEvent;          (* on the service's output *)
  relayed : list VADEvent;         (* all that were put there *)
  absorbed : nat;                  (* chunks the session took and did not hand on *)
  dropped : nat;                   (* chunks that found forwardCh full *)
  pending : nat;                   (* the wait group's counter *)
  finished : bool                  (* pending.Wait has returned *)
}.
#[export] Instance replay_eta : Eta replay := fun r =>
  mkReplay (tokens r) (todo r) (dataIn r) (forwardCh r) (handing r) (vadIn r) (win r) (ready r) (mach r) (det r) (vadEnded r)
    (raw r) (relaying r) (vadOut r) (relayed r) (absorbed r) (dropped r) (pending r) (finished r).

Definition newReplay (d : D) (cfg : vadConfig) (reads : list bytes) : replay :=
  let vcfg := withDefaults cfg in
  mkReplay replayLookahead (replay_feed cfg reads) [] [] None [] (newWindower (Z.to_nat (WindowSize vcfg))) [] (newVADMachine vcfg) d false
    [] None [] [] 0 0 0 false.

(** [vadProgressGate.release]: never above the channel's capacity. *)
Definition release (r : replay) : replay := r <| tokens ::= (fun n => if (n <? replayLookahead)%nat then S n else n) |>.

Definition is_eou (e : VADEvent) : bool := bool_decide (Kind e = VADEndOfUtterance).

(** Replay's observer of a settled window. *)
Definition eventObserver (ev : option VADEvent) (r : replay) : replay :=
  release (match ev with Some e => if is_eou e then r <| pending ::= S |> else r | None => r end).

Inductive rlabel :=
| RSend      (* acquire a token, send the next chunk *)
| RForward   (* the session's loop takes a chunk and hands it on *)
| RAbsorb    (* the session's loop takes a chunk in a state that absorbs it *)
| RHand      (* forwardToVAD takes a chunk *)
| RHandIn    (* and sends it to the service *)
| RTake      (* runVAD takes a chunk *)
| RWindow    (* runVAD settles a window, puts its event on its way, or ends *)
| RRelayTake (* the relay takes an event *)
| RRelay     (* and delivers it *)
| REvent     (* the session's loop takes an event *)
| RResult    (* a result reaches the recorder *)
| RWait.     (* pending.Wait returns, the feed being done *)

(** [feedReplayAudio] and [feedReplaySilencePadding], one chunk. *)
Definition feed_send (r : replay) : option replay :=
  match todo r, tokens r with
  | c :: cs, S n =>
      if (length (dataIn r) <? dataInDepth)%nat
      then Some (r <| tokens := n |> <| todo := cs |> <| dataIn ::= (fun q => q ++ [c]) |>) else None
  | _, _ => None
  end.

(** The session's loop, in a state whose handler of audio is [handleDataFrame]. *)
Definition loop_forwards (r : replay) : option replay :=
  match dataIn r with
  | c :: q =>
      let r := r <| dataIn := q |> in
      Some (match chan_try_send planeDepth c (forwardCh r) with
            | Some ch => r <| forwardCh := ch |>
            | None => r <| dropped ::= S |>
            end)
  | [] => None
  end.

(** And in one whose handler ignores it. *)
Definition loop_absorbs (r : replay) : option replay :=
  match dataIn r with _ :: q => Some (r <| dataIn := q |> <| absorbed ::= S |>) | [] => None end.

(** [forwardToVAD]. *)
Definition forwardToVAD_take (r : replay) : option replay :=
  match handing r, forwardCh r with
  | None, c :: q => Some (r <| handing := Some c |> <| forwardCh := q |>)
  | _, _ => None
  end.
Definition forwardToVAD_send (r : replay) : option replay :=
  match handing r with
  | Some c => if (length (vadIn r) <? planeDepth)%nat then Some (r <| handing := None |> <| vadIn ::= (fun q => q ++ [c]) |>) else None
  | None => None
  end.

(** [runVAD]. *)
Definition runVAD_take (r : replay) : option replay :=
  if vadEnded r then None
  else
    match ready r, vadIn r with
    | [], c :: q =>
        let '(w, ws) := push (win r) (decodeMuLaw c) in
        Some (r <| vadIn := q |> <| win := w |> <| ready := ws |>)
    | _, _ => None
    end.
Definition runVAD_window (r : replay) : option replay :=
  match ready r with
  | [] => None
  | w :: ws =>
      match Detect (det r) w with
      | (d, Ok prob) =>
          let '(m, ev) := vad_step (mach r) prob in
          let r' := r <| ready := ws |> <| mach := m |> <| det := d |> in
          match ev with
          | None => Some (eventObserver None r')
          | Some e => if (length (raw r) <? planeDepth)%nat then Some (r' <| raw ::= (fun l => l ++ [e]) |>) else None
          end
      | (d, _) => Some (r <| ready := [] |> <| det := d |> <| vadEnded := true |>)
      end
  end.

(** The relay of [newVADService]. *)
Definition relay_take (r : replay) : option replay :=
  match relaying r, raw r with
  | None, e :: es => Some (r <| relaying := Some e |> <| raw := es |>)
  | _, _ => None
  end.
Definition relay_send (r : replay) : option replay :=
  match relaying r with
  | Some e =>
      if (length (vadOut r) <? planeDepth)%nat
      then Some (eventObserver (Some e) (r <| relaying := None |> <| vadOut ::= (fun l => l ++ [e]) |> <| relayed ::= (fun l => l ++ [e]) |>))
      else None
  | None => None
  end.

Definition replay_step (l : rlabel) (r : replay) : option replay :=
  match l with
  | RSend => feed_send r
  | RForward => loop_forwards r
  | RAbsorb => loop_absorbs r
  | RHand => forwardToVAD_take r
  | RHandIn => forwardToVAD_send r
  | RTake => runVAD_take r
  | RWindow => runVAD_window r
  | RRelayTake => relay_take r
  | RRelay => relay_send r
  | REvent => match vadOut r with _ :: es => Some (r <| vadOut := es |>) | [] => None end
  | RResult => match pending r with S n => Some (r <| pending := n |>) | O => None end
  | RWait => match todo r, pending r with [], O => Some (r <| finished := true |>) | _, _ => None end
  end.

Fixpoint replay_run (ls : list rlabel) (r : replay) : option replay :=
  match ls with [] => Some r | l :: ls => r' ← replay_step l r; replay_run ls r' end.
End pipeline.
Arguments replay D : clear implicits.

(** ** Datasets *)

Inductive RecordingLabel := LabelCompleteTurn | LabelTruncated | LabelGreeting | LabelHowAreYou | LabelDoneEnding.
#[export] Instance RecordingLabel_eq : EqDecision RecordingLabel.
Proof. solve_decision. Defined.
Inductive RowLabel := RowIncomplete | RowComplete.

Definition HarnessVersion : string := "replay-harness-v1".

Record DatasetRow := mkRow {
  RecordingID : string;
  Utterances : list string;
  Label : RowLabel;
  row_EndSilenceMS : Z;
  row_HarnessVersion : string
}.

Definition RowsFromUtterances (recordingID : string) (recLabel : RecordingLabel) (utterances : list string) (endSilenceMS : Z) : list DatasetRow :=
  map (fun i =>
    let isTerminal := (i =? length utterances - 1)%nat in
    let label := if isTerminal && negb (bool_decide (recLabel = LabelTruncated)) then RowComplete else RowIncomplete in
    mkRow recordingID (take (S i) utterances) label endSilenceMS HarnessVersion) (seq 0 (length utterances)).

Inductive VerifierOutcome := OutcomeProceed | OutcomeSpuriousRepair | OutcomeRepairFires | OutcomePartialAccepted.
#[export] Instance VerifierOutcome_eq : EqDecision VerifierOutcome.
Proof. solve_decision. Defined.

Record ScoreReport := mkReport {
  PromptFile : string;
  sr_EndSilenceMS : Z;
  RowCount : Z;
  Outcomes : VerifierOutcome -> Z
}.

(** The rows verified so far, until the first that fails. *)
Fixpoint score_rows (verify : string -> DatasetRow -> result VerifierOutcome) (promptFile : string) (rows : list DatasetRow) (o : VerifierOutcome -> Z) :
    (VerifierOutcome -> Z) * bool :=
  match rows with
  | [] => (o, true)
  | row :: rows =>
      match verify promptFile row with
      | Ok out => score_rows verify promptFile rows (fun x => if decide (x = out) then o x + 1 else o x)
      | _ => (o, false)
      end
  end.

Definition Score (verify : string -> DatasetRow -> result VerifierOutcome) (promptFile : string) (rows : list DatasetRow) (endSilenceMS : Z) : ScoreReport * bool :=
  let '(o, ok) := score_rows verify promptFile rows (fun _ => 0) in
  (mkReport promptFile endSilenceMS (Z.of_nat (length rows)) o, ok).

(** ** Theorems: a replay keeps its lead, comes to its end, and what it waits for

    At most four chunks are ahead of the windows settled, so [forwardCh] never
    drops one; while the detector works and the session hands every chunk on, the
    feed ends unless the reader returns short chunks.  Short chunks, absorbed
    chunks and a detector error block the feed, and windows do not settle in
    order, so the wait need not cover the last utterance: each is shown by a run. *)

Section replay.
Context {D : Type} (Detect : D -> list gofloat -> D * result gofloat).
Context (d0 : D) (cfg : vadConfig) (reads : list bytes).

(** The window size of the detectors is a chunk's. *)
Context (Hsize : WindowSize (withDefaults cfg) = replayFrameBytes).
(** A read returns at most the buffer. *)
Context (Hreads : Forall (fun r => len r <= replayFrameBytes) reads).

Definition feed : list bytes := replay_feed cfg reads.
Definition frame_size : nat := Z.to_nat replayFrameBytes.

Lemma frame_size_pos : (0 < frame_size)%nat.
Proof. unfold frame_size, replayFrameBytes. lia. Qed.

Lemma feed_chunks : Forall (fun c => (length c <= frame_size)%nat) feed.
Proof.
  unfold feed, replay_feed, feedReplayAudio, feedReplaySilencePadding. apply Forall_app. split.
  - rewrite Forall_forall in Hreads |- *. intros c Hc. apply list_elem_of_In, filter_In in Hc as [Hc _].
    specialize (Hreads c (proj2 (list_elem_of_In _ _) Hc)). unfold frame_size, len in *. lia.
  - apply Forall_replicate. rewrite length_replicate. done.
Qed.

Lemma length_windows {A} (ws : list (list A)) n : Forall (fun w => length w = n) ws -> length (mjoin ws) = (n * length ws)%nat.
Proof. induction 1 as [|w ws Hw H IH]; [cbn; lia|]. change (mjoin (w :: ws)) with (w ++ mjoin ws). rewrite length_app, IH, Hw. cbn. lia. Qed.

(** What one chunk does to the windower. *)
Lemma push_chunk w c : w_wf frame_size w ->
  let '(w', ws) := push w (decodeMuLaw c) in
  w_wf frame_size w' /\ (frame_size * length ws + length (w_buf w') = length (w_buf w) + length c)%nat.
Proof.
  intros Hw. pose proof (push_spec frame_size frame_size_pos w (decodeMuLaw c) Hw) as H. destruct (push w (decodeMuLaw c)) as [w' ws].
  destruct H as (H1 & H2 & H3). split; [done|]. apply (f_equal length) in H2. rewrite !length_app, (length_windows _ frame_size H3) in H2.
  unfold decodeMuLaw in H2. rewrite length_map in H2. lia.
Qed.

(** ** The gate *)

(** The chunks between the feed and [runVAD], oldest first. *)
Definition inpipe (r : replay D) : list bytes := vadIn r ++ option_list (handing r) ++ forwardCh r ++ dataIn r.

(** The windows of [runVAD] and the events that have not settled. *)
Definition unsettled (r : replay D) : nat := (length (ready r) + length (raw r) + length (option_list (relaying r)))%nat.

(** The chunks taken by [runVAD], the windows they made, and of these the ones
    given up with the detector. *)
Record gate_at (r : replay D) (taken : list bytes) (made gone : nat) : Prop := mkGate {
  g_feed : (taken ++ inpipe r ++ todo r) `sublist_of` feed;
  g_chunks : (length taken + length (inpipe r) + length (todo r) + absorbed r + dropped r = length feed)%nat;
  g_win : w_wf frame_size (win r);
  g_bytes : (length (concat taken) = frame_size * made + length (w_buf (win r)))%nat;
  g_tokens : (tokens r + length taken + length (inpipe r) + absorbed r + dropped r + unsettled r + gone = replayLookahead + made)%nat;
  g_ended : vadEnded r = false -> gone = O;
  g_dropped : dropped r = O
}.
Definition gate_inv (r : replay D) : Prop := exists taken made gone, gate_at r taken made gone.

Lemma made_bound (taken : list bytes) made b :
  Forall (fun c => (length c <= frame_size)%nat) taken -> (length (concat taken) = frame_size * made + b)%nat -> (made <= length taken)%nat.
Proof.
  intros H E. assert (Hl : (length (concat taken) <= frame_size * length taken)%nat).
  { clear E. induction H as [|c taken Hc H IH]; cbn; [lia|]. rewrite length_app. lia. }
  pose proof frame_size_pos. nia.
Qed.

Lemma gate_inv_new : gate_inv (newReplay d0 cfg reads).
Proof.
  exists [], O, O. unfold newReplay. split; cbn -[replayLookahead withDefaults WindowSize replay_feed newVADMachine]; try done; try lia.
  - unfold feed. lia.
  - rewrite Hsize. split; [done|]. cbn. apply frame_size_pos.
Qed.

Lemma sublist_chunks (l : list bytes) : l `sublist_of` feed -> Forall (fun c => (length c <= frame_size)%nat) l.
Proof.
  intros Hl. pose proof feed_chunks as Hc. rewrite !Forall_forall in *. intros c Hin. apply Hc. by eapply elem_of_sublist.
Qed.

Lemma gate_bound r : gate_inv r -> (tokens r + length (inpipe r) + absorbed r + dropped r + unsettled r <= replayLookahead)%nat.
Proof.
  intros (taken & made & gone & [Hf _ _ Hb Ht _ _]). pose proof (sublist_chunks _ Hf) as Hc. apply Forall_app in Hc as [Hc _].
  pose proof (made_bound _ _ _ Hc Hb). lia.
Qed.

Lemma release_tokens (r : replay D) : (tokens r < replayLookahead)%nat -> tokens (release r) = S (tokens r).
Proof. intros H. unfold release. cbn -[replayLookahead Nat.ltb Nat.mul]. by rewrite (proj2 (Nat.ltb_lt _ _) H). Qed.

(** A window that settles gives its token back, and changes nothing else of the gate. *)
Lemma gate_settle r ev taken made gone :
  (tokens r < replayLookahead)%nat ->
  gate_at (r <| tokens := S (tokens r) |>) taken made gone -> gate_at (eventObserver ev r) taken made gone.
Proof.
  intros Ht [H1 H2 H3 H4 H5 H6 H7]. set (r1 := match ev with Some e => if is_eou e then r <| pending ::= S |> else r | None => r end).
  assert (tokens r1 = tokens r) as Er by (unfold r1; destruct ev as [e|]; [by destruct (is_eou e)|done]).
  assert (tokens (eventObserver ev r) = S (tokens r)) as Et.
  { unfold eventObserver. fold r1. by rewrite release_tokens, Er by (by rewrite Er). }
  assert (forall A (f : replay D -> A), (forall x g, f (x <| tokens ::= g |>) = f x) -> (forall x g, f (x <| pending ::= g |>) = f x) ->
    f (eventObserver ev r) = f r) as Hsame.
  { intros A f F1 F2. unfold eventObserver, release. rewrite F1. destruct ev as [e|]; [|done]. destruct (is_eou e); [apply F2|done]. }
  split; rewrite ?Et, ?(Hsame _ inpipe), ?(Hsame _ todo), ?(Hsame _ absorbed), ?(Hsame _ dropped), ?(Hsame _ win),
    ?(Hsame _ unsettled), ?(Hsame _ vadEnded) by done; assumption.
Qed.

Ltac step_unfold :=
  unfold replay_step, feed_send, loop_forwards, loop_absorbs, forwardToVAD_take, forwardToVAD_send, runVAD_take, runVAD_window,
    relay_take, relay_send in *.

Ltac pipe_cbn := cbn -[replayLookahead planeDepth dataInDepth Nat.ltb Nat.mul chan_try_send] in *.

Ltac gate_tac := rewrite ?length_app in *; cbn [length] in *; try done; try (unfold replayLookahead in *; lia).

Lemma gate_inv_step l r r' : replay_step Detect l r = Some r' -> gate_inv r -> gate_inv r'.
Proof.
  intros Hs Hi. pose proof (gate_bound r Hi) as Hb. destruct Hi as (taken & made & gone & Hg).
  pose proof Hg as [H1 H2 H3 H4 H5 H6 H7].
  destruct r as [tk td di fw hd vi w rd m dt ve rw rl vo rel ab dr pe fi]. unfold inpipe, unsettled in *. destruct l; step_unfold; pipe_cbn.
  - destruct td as [|c cs], tk as [|n]; try done. destruct (_ <? _)%nat; [|done]. simplify_eq. exists taken, made, gone.
    split; unfold inpipe, unsettled in *; pipe_cbn; rewrite ?length_app in *; cbn [length] in *; gate_tac.
    rewrite <- ?app_assoc in *; cbn [app] in *; rewrite <- ?app_assoc in *; done.
  - destruct di as [|c q]; [done|]. simplify_eq. unfold chan_try_send in *. case_decide as Hfull; pipe_cbn.
    + exists taken, made, gone. split; unfold inpipe, unsettled in *; pipe_cbn; rewrite ?length_app in *; cbn [length] in *; gate_tac.
      rewrite <- ?app_assoc in *; cbn [app] in *; rewrite <- ?app_assoc in *; done.
    + exfalso. rewrite !length_app in Hb. cbn [length] in Hb. change planeDepth with replayLookahead in Hfull. unfold replayLookahead in *. lia.
  - destruct di as [|c q]; [done|]. simplify_eq. exists taken, made, gone.
    split; unfold inpipe, unsettled in *; pipe_cbn; rewrite ?length_app in *; cbn [length] in *; gate_tac.
    etrans; [|exact H1]. repeat apply sublist_app; try done. by apply sublist_cons.
  - destruct hd, fw as [|c q]; try done. simplify_eq. exists taken, made, gone.
    split; unfold inpipe, unsettled in *; pipe_cbn; rewrite ?length_app in *; cbn [length] in *; gate_tac.
  - destruct hd as [c|]; [|done]. destruct (_ <? _)%nat; [|done]. simplify_eq. exists taken, made, gone.
    split; unfold inpipe, unsettled in *; pipe_cbn; rewrite ?length_app in *; cbn [length] in *; gate_tac.
    rewrite <- ?app_assoc in *; cbn [app] in *; rewrite <- ?app_assoc in *; done.
  - destruct ve; [done|]. destruct rd; [|done]. destruct vi as [|c q]; [done|].
    pose proof (push_chunk w c H3) as Hp. destruct (push w (decodeMuLaw c)) as [w' ws]. destruct Hp as [Hw' Hl]. simplify_eq.
    exists (taken ++ [c]), (made + length ws)%nat, gone.
    split; unfold inpipe, unsettled in *; pipe_cbn; rewrite ?concat_app, ?length_app in *; cbn [length concat] in *; rewrite ?app_nil_r in *; gate_tac.
    rewrite <- ?app_assoc in *; cbn [app] in *; rewrite <- ?app_assoc in *; done.
  - destruct rd as [|x ws]; [done|]. destruct (Detect dt x) as [d [prob|e|e]].
    + destruct (vad_step m prob) as [m' [e|]].
      * destruct (_ <? _)%nat; [|done]. simplify_eq. exists taken, made, gone.
        split; unfold inpipe, unsettled in *; pipe_cbn; rewrite ?length_app in *; cbn [length] in *; gate_tac.
      * simplify_eq. exists taken, made, gone. apply gate_settle; [pipe_cbn; unfold replayLookahead in *; lia|].
        split; unfold inpipe, unsettled in *; pipe_cbn; gate_tac.
    + simplify_eq. exists taken, made, (gone + S (length ws))%nat.
      split; unfold inpipe, unsettled in *; pipe_cbn; gate_tac.
    + simplify_eq. exists taken, made, (gone + S (length ws))%nat.
      split; unfold inpipe, unsettled in *; pipe_cbn; gate_tac.
  - destruct rl, rw as [|e es]; try done. simplify_eq. exists taken, made, gone.
    split; unfold inpipe, unsettled in *; pipe_cbn; gate_tac.
  - destruct rl as [e|]; [|done]. destruct (_ <? _)%nat; [|done]. simplify_eq. exists taken, made, gone. apply gate_settle; [pipe_cbn; unfold replayLookahead in *; lia|].
    split; unfold inpipe, unsettled in *; pipe_cbn; gate_tac.
  - destruct vo; [done|]. simplify_eq. exists taken, made, gone. split; unfold inpipe, unsettled in *; pipe_cbn; gate_tac.
  - destruct pe; [done|]. simplify_eq. exists taken, made, gone. split; unfold inpipe, unsettled in *; pipe_cbn; gate_tac.
  - destruct td; [|done]. destruct pe; [|done]. simplify_eq. exists taken, made, gone. split; unfold inpipe, unsettled in *; pipe_cbn; gate_tac.
Qed.

Lemma gate_inv_run ls r r' : replay_run Detect ls r = Some r' -> gate_inv r -> gate_inv r'.
Proof.
  revert r. induction ls as [|l ls IH]; intros r; cbn [replay_run]; [by intros [= <-]|].
  destruct (replay_step Detect l r) as [r1|] eqn:E; [|done]. cbn [mbind option_bind]. intros Hr Hi. apply (IH r1 Hr). by eapply gate_inv_step.
Qed.

(** ** The end of the feed *)

(** What the chunks are short of full frames. *)
Definition shortfall (cs : list bytes) : nat := (frame_size * length cs - length (concat cs))%nat.

Definition replay_rank (r : replay D) : nat :=
  (9 * length (todo r) + 8 * length (dataIn r) + 7 * length (forwardCh r) + 6 * length (option_list (handing r)) + 5 * length (vadIn r) +
   4 * length (ready r) + 3 * length (raw r) + 2 * length (option_list (relaying r)) + length (vadOut r))%nat.

Lemma observer_rank ev (r : replay D) : replay_rank (eventObserver ev r) = replay_rank r.
Proof. unfold eventObserver. destruct ev as [e|]; [destruct (is_eou e)|]; reflexivity. Qed.

Lemma replay_rank_step l r r' : gate_inv r -> replay_step Detect l r = Some r' ->
  (replay_rank r' <= replay_rank r)%nat /\ (l <> RResult -> l <> RWait -> replay_rank r' < replay_rank r)%nat.
Proof.
  intros (taken & made & gone & [H1 _ H3 _ _ _ _]) Hs.
  destruct r as [tk td di fw hd vi w rd m dt ve rw rl vo rel ab dr pe fi]. unfold inpipe in *. destruct l; step_unfold; pipe_cbn.
  - destruct td as [|c cs], tk as [|n]; try done. destruct (_ <? _)%nat; [|done]. simplify_eq. unfold replay_rank. pipe_cbn.
    rewrite ?length_app. cbn [length]. lia.
  - destruct di as [|c q]; [done|]. simplify_eq. unfold replay_rank. destruct (chan_try_send _ _ _) as [ch|] eqn:E; pipe_cbn; [|lia].
    apply chan_try_send_bound in E as [-> _]. rewrite ?length_app. cbn [length]. lia.
  - destruct di as [|c q]; [done|]. simplify_eq. unfold replay_rank. pipe_cbn. lia.
  - destruct hd, fw as [|c q]; try done. simplify_eq. unfold replay_rank. pipe_cbn. lia.
  - destruct hd as [c|]; [|done]. destruct (_ <? _)%nat; [|done]. simplify_eq. unfold replay_rank. pipe_cbn.
    rewrite ?length_app. cbn [length]. lia.
  - destruct ve; [done|]. destruct rd; [|done]. destruct vi as [|c q]; [done|].
    pose proof (push_chunk w c H3) as Hp. destruct (push w (decodeMuLaw c)) as [w' ws]. destruct Hp as [[_ Hw'] Hl]. simplify_eq.
    pose proof (sublist_chunks _ H1) as Hc. apply Forall_app in Hc as [_ Hc]. apply Forall_app in Hc as [Hc _].
    pose proof (Forall_inv Hc) as Hc1. cbv beta in Hc1.
    destruct H3 as [_ Hw]. assert (length ws <= 1)%nat by (pose proof frame_size_pos; nia). unfold replay_rank. pipe_cbn. lia.
  - destruct rd as [|x ws]; [done|]. destruct (Detect dt x) as [d [prob|e|e]]; [|simplify_eq; unfold replay_rank; pipe_cbn; lia..].
    destruct (vad_step m prob) as [m' [e|]].
    + destruct (_ <? _)%nat; [|done]. simplify_eq. unfold replay_rank. pipe_cbn. rewrite ?length_app. cbn [length]. lia.
    + simplify_eq. rewrite observer_rank. unfold replay_rank. pipe_cbn. lia.
  - destruct rl, rw as [|e es]; try done. simplify_eq. unfold replay_rank. pipe_cbn. lia.
  - destruct rl as [e|]; [|done]. destruct (_ <? _)%nat; [|done]. simplify_eq. rewrite observer_rank. unfold replay_rank. pipe_cbn.
    rewrite ?length_app. cbn [length]. lia.
  - destruct vo; [done|]. simplify_eq. unfold replay_rank. pipe_cbn. lia.
  - destruct pe; [done|]. simplify_eq. unfold replay_rank. pipe_cbn. split; [lia|done].
  - destruct td; [|done]. destruct pe; [|done]. simplify_eq. unfold replay_rank. pipe_cbn. split; [lia|done].
Qed.

Lemma shortfall_app cs cs' : Forall (fun c => (length c <= frame_size)%nat) cs -> Forall (fun c => (length c <= frame_size)%nat) cs' ->
  shortfall (cs ++ cs') = (shortfall cs + shortfall cs')%nat.
Proof.
  assert (Hle : forall l : list bytes, Forall (fun c => (length c <= frame_size)%nat) l -> (length (concat l) <= frame_size * length l)%nat).
  { induction 1 as [|c l Hc H IH]; cbn; [lia|]. rewrite length_app. lia. }
  intros H1%Hle H2%Hle. unfold shortfall. rewrite concat_app, !length_app. lia.
Qed.

Context (Hdetect : forall d w, exists d' p, Detect d w = (d', Ok p)).

Lemma never_ends ls r r' : vadEnded r = false -> replay_run Detect ls r = Some r' -> vadEnded r' = false.
Proof.
  revert r. induction ls as [|l ls IH]; intros r He; cbn [replay_run]; [by intros [= <-]|].
  destruct (replay_step Detect l r) as [r1|] eqn:E; [|done]. cbn [mbind option_bind]. apply IH.
  destruct r as [tk td di fw hd vi w rd m dt ve rw rl vo rel ab dr pe fi]. cbn in He. subst ve.
  destruct l; step_unfold; pipe_cbn; repeat case_match; simplify_eq; try done.
  all: try (destruct (Hdetect dt l) as (? & ? & Hd); congruence).
  all: unfold eventObserver; repeat case_match; done.
Qed.

Lemma sublist_all (l1 l2 : list bytes) : l1 `sublist_of` l2 -> length l1 = length l2 -> l1 = l2.
Proof. induction 1 as [|x l1 l2 Hs IH|x l1 l2 Hs IH]; cbn; intros E; [done|f_equal; auto|]. apply sublist_length in Hs. lia. Qed.

Lemma feed_advances r : gate_inv r -> (shortfall feed <= 3 * frame_size)%nat -> absorbed r = O -> vadEnded r = false -> todo r <> [] ->
  exists l r', l <> RAbsorb /\ l <> RResult /\ l <> RWait /\ replay_step Detect l r = Some r'.
Proof.
  intros Hi Hshort Hab Hve Htodo. pose proof (gate_bound r Hi) as Hb. destruct Hi as (taken & made & gone & [H1 H2 [_ Hw] H4 H5 H6 H7]).
  specialize (H6 Hve). unfold unsettled in *.
  destruct (vadOut r) as [|e es] eqn:Eo.
  2: { exists REvent. cbn. rewrite Eo. by eexists. }
  destruct (relaying r) as [e|] eqn:El.
  { exists RRelay. cbn -[planeDepth]. step_unfold. rewrite El, Eo. by eexists. }
  destruct (raw r) as [|e es] eqn:Er.
  2: { exists RRelayTake. cbn. step_unfold. rewrite El, Er. by eexists. }
  destruct (ready r) as [|w ws] eqn:Ey.
  2: { exists RWindow. cbn -[planeDepth replayLookahead]. step_unfold. rewrite Ey, Er. destruct (Hdetect (det r) w) as (d & p & ->).
       destruct (vad_step (mach r) p) as [m [ev|]]; by eexists. }
  destruct (vadIn r) as [|c q] eqn:Eq.
  2: { exists RTake. cbn. step_unfold. rewrite Hve, Ey, Eq. destruct (push (win r) (decodeMuLaw c)). by eexists. }
  destruct (handing r) as [c|] eqn:Eh.
  { exists RHandIn. cbn -[planeDepth]. step_unfold. rewrite Eh, Eq. by eexists. }
  destruct (forwardCh r) as [|c q] eqn:Ef.
  2: { exists RHand. cbn. step_unfold. rewrite Eh, Ef. by eexists. }
  destruct (dataIn r) as [|c q] eqn:Ed.
  2: { exists RForward. cbn -[planeDepth]. step_unfold. rewrite Ed. by eexists. }
  exists RSend. cbn -[dataInDepth]. step_unfold. rewrite Ed. destruct (todo r) as [|c cs] eqn:Et; [done|]. destruct (tokens r) as [|n] eqn:En; [|by eexists]. exfalso.
  assert (inpipe r = []) as Ep by (unfold inpipe; by rewrite Eq, Eh, Ef, Ed).
  rewrite Ep in *. cbn [app length option_list] in *.
  assert (taken ++ c :: cs = feed) as Hall by (apply sublist_all; [done|rewrite length_app; cbn [length]; lia]).
  pose proof feed_chunks as Hc. rewrite <- Hall in Hc, Hshort. apply Forall_app in Hc as [Hc1 Hc2].
  rewrite shortfall_app in Hshort by done. unfold shortfall in Hshort. pose proof frame_size_pos. change (length (option_list (@None VADEvent))) with 0%nat in H5. unfold replayLookahead in H5.
  assert (length taken = 4 + made)%nat as El4 by lia. rewrite El4, H4 in Hshort. nia.
Qed.
End replay.

(** C28: In every interleaving of the feed, the session's loop, forwardToVAD, the
    voice-activity goroutine and its relay, with windows of one chunk and reads of at most
    one, whatever the detector answers and whichever chunks the session absorbs: no more
    than four chunks, windows and events are in flight or absorbed, so forwardCh never drops
    a chunk; and no step takes the feed further from its end. While the detector does not
    fail, the session has absorbed no chunk, the short reads lack at most three frames of
    bytes and chunks are left, some goroutine has a step that brings the end closer without
    absorbing one. (A detector error, absorbed chunks and shorter reads block the feed:
    findings.) *)
Theorem replay_feed_completes {D} (Detect : D -> list gofloat -> D * result gofloat) d0 cfg reads ls r :
  WindowSize (withDefaults cfg) = replayFrameBytes -> Forall (fun c => len c <= replayFrameBytes) reads ->
  replay_run Detect ls (newReplay d0 cfg reads) = Some r ->
  (length (inpipe r) + unsettled r + absorbed r <= replayLookahead)%nat /\ dropped r = O /\
  (forall l r', replay_step Detect l r = Some r' -> (replay_rank r' <= replay_rank r)%nat) /\
  ((forall d w, exists d' p, Detect d w = (d', Ok p)) -> absorbed r = O -> (shortfall (feedReplayAudio reads) <= 3 * frame_size)%nat ->
   todo r <> [] -> exists l r', l <> RAbsorb /\ replay_step Detect l r = Some r' /\ (replay_rank r' < replay_rank r)%nat).
Proof.
  intros Hsize Hreads Hr. assert (Hi : gate_inv cfg reads r) by (eapply gate_inv_run; eauto using gate_inv_new).
  split; [pose proof (gate_bound cfg reads Hreads r Hi); lia|]. split; [by destruct Hi as (? & ? & ? & [])|].
  split; [intros l r' Hs; by eapply replay_rank_step|].
  intros Hd Hab Hshort Ht.
  assert (Hfeed : (shortfall (feed cfg reads) <= 3 * frame_size)%nat).
  { pose proof (feed_chunks cfg reads Hreads) as Hc. unfold feed, replay_feed in *. apply Forall_app in Hc as [Hc1 Hc2].
    rewrite shortfall_app by done. assert (E : shortfall (feedReplaySilencePadding cfg) = O); [|lia].
    unfold shortfall, feedReplaySilencePadding. rewrite length_replicate. generalize (Z.to_nat (windowsToCross (EndSilenceMS (withDefaults cfg)) (windowMS (withDefaults cfg)) + silencePaddingMargin)) as n.
    intros n. fold frame_size. assert (Hl : length (concat (replicate n (replicate frame_size replaySilenceByte))) = (frame_size * n)%nat); [|lia].
    clear. induction n as [|n IH]; [done|]. cbn [replicate concat]. rewrite length_app, length_replicate, IH. lia. }
  destruct (feed_advances Detect cfg reads Hreads Hd r Hi Hfeed Hab) as (l & r' & H0 & H1 & H2 & Hs); [|done|].
  - eapply never_ends with (r := newReplay d0 cfg reads); eauto.
  - exists l, r'. split; [done|]. split; [done|]. by eapply replay_rank_step.
Qed.

(** A detector that hears speech in the first window only. *)
Definition oneVoice (d : nat) (_ : list gofloat) : nat * result gofloat := (S d, Ok (if (d =? 0)%nat then f32_0_5 else f_zero)).

(** A chunk sent, carried through and settled; a chunk whose event is relayed as well. *)
Definition carry_chunk : list rlabel := [RSend; RForward; RHand; RHandIn].
Definition settle_chunk : list rlabel := carry_chunk ++ [RTake; RWindow].
Definition relay_chunk : list rlabel := settle_chunk ++ [RRelayTake; RRelay; REvent].

(** The recording is one chunk: its event and the silence's are relayed, then
    the 21 windows to the end of the utterance settle. *)
Definition voice_chunk : bytes := replicate frame_size 0.
Definition up_to_end : list rlabel := relay_chunk ++ relay_chunk ++ concat (replicate 21 settle_chunk).

Lemma replay_feed_completes_witness : exists r,
  replay_run oneVoice up_to_end (newReplay 0%nat defaultVADConfig [voice_chunk]) = Some r /\
  (length (inpipe r) + unsettled r + absorbed r <= replayLookahead)%nat /\ length (todo r) = 4%nat /\
  exists l r', l <> RAbsorb /\ replay_step oneVoice l r = Some r' /\ (replay_rank r' < replay_rank r)%nat.
Proof.
  eexists. split; [vm_compute; reflexivity|]. split; [vm_compute; lia|]. split; [vm_compute; reflexivity|].
  refine (proj2 (proj2 (proj2 (replay_feed_completes oneVoice 0%nat defaultVADConfig [voice_chunk] up_to_end _ _ _ _))) _ _ _ _).
  - vm_compute. reflexivity.
  - repeat constructor. vm_compute. done.
  - vm_compute. reflexivity.
  - intros d w. by eexists _, _.
  - vm_compute. reflexivity.
  - vm_compute. lia.
  - vm_compute. done.
Defined.

(** ** What a replay does not promise *)

Definition stuck {D} (Detect : D -> list gofloat -> D * result gofloat) (r : replay D) : Prop :=
  todo r <> [] /\ forall l, replay_step Detect l r = None.

(** Four short reads take every token and fill no window: nothing settles, no
    token comes back, and the feed stays where it is. *)
Lemma short_reads_block {D} (Detect : D -> list gofloat -> D * result gofloat) d :
  exists r, replay_run Detect (concat (replicate 4 (carry_chunk ++ [RTake]))) (newReplay d defaultVADConfig (replicate 5 (replicate 10 0))) = Some r /\
  stuck Detect r.
Proof. eexists. split; [vm_compute; reflexivity|]. split; [done|]. by intros []. Qed.

(** Chunks that a terminating or closed session absorbs never make a window:
    after four of them the feed stays where it is. *)
Lemma absorbed_chunks_block {D} (Detect : D -> list gofloat -> D * result gofloat) d :
  exists r, replay_run Detect (concat (replicate 4 [RSend; RAbsorb])) (newReplay d defaultVADConfig (replicate 5 voice_chunk)) = Some r /\
  stuck Detect r.
Proof. eexists. split; [vm_compute; reflexivity|]. split; [done|]. by intros []. Qed.

(** A detector that fails ends [runVAD], and with it the settling of windows. *)
Definition noDetector (d : unit) (_ : list gofloat) : unit * result gofloat := (d, Err "detector").
Lemma detector_error_blocks :
  exists r, replay_run noDetector (settle_chunk ++ concat (replicate 3 carry_chunk)) (newReplay tt defaultVADConfig (replicate 5 voice_chunk)) = Some r /\
  stuck noDetector r.
Proof. eexists. split; [vm_compute; reflexivity|]. split; [done|]. by intros []. Qed.

(** A window without an event gives its token back before the window in front
    of it whose event is still to be relayed: the feed ends and the wait returns
    while the last utterance's end is on its way, and the count goes up behind it. *)
Lemma wait_before_last_end : exists r r' e,
  replay_run oneVoice (up_to_end ++ concat (replicate 4 settle_chunk) ++ [RWait; RRelayTake]) (newReplay 0%nat defaultVADConfig [voice_chunk]) = Some r /\
  finished r = true /\ Forall (fun ev => is_eou ev = false) (relayed r) /\
  replay_step oneVoice RRelay r = Some r' /\ last (relayed r') = Some e /\ is_eou e = true /\ pending r' = 1%nat.
Proof.
  eexists _, _, _. split; [vm_compute; reflexivity|]. split; [done|]. split; [by repeat constructor|]. split; [vm_compute; reflexivity|]. by vm_compute.
Qed.

(** The byte of the padding is the loudest sample there is, not silence. *)
Lemma padding_is_full_scale : muLawToLinear replaySilenceByte = 32124 /\ muLawToLinear MuLawSilence = 0 /\
  forall b, is_byte b -> muLawToLinear b <= muLawToLinear replaySilenceByte.
Proof. split; [done|]. split; [done|]. intros b Hb. apply muLawToLinear_bound in Hb. change (muLawToLinear replaySilenceByte) with 32124. lia. Qed.

(** ** Datasets *)

(** Every row is a prefix one utterance longer than the row before, and only the
    last one can be complete. *)
Theorem rows_prefixes id label us ms i row :
  RowsFromUtterances id label us ms !! i = Some row <->
  (i < length us)%nat /\
  row = mkRow id (take (S i) us) (if bool_decide (S i = length us /\ label <> LabelTruncated) then RowComplete else RowIncomplete) ms HarnessVersion.
Proof.
  unfold RowsFromUtterances. rewrite list_lookup_fmap.
  assert (E : ((i =? length us - 1)%nat && negb (bool_decide (label = LabelTruncated))) = bool_decide (S i = length us /\ label <> LabelTruncated) \/ (length us <= i)%nat).
  { destruct (Nat.le_gt_cases (length us) i); [by right|left]. destruct (Nat.eqb_spec i (length us - 1)); case_bool_decide; case_bool_decide; cbn; try done; naive_solver lia. }
  split.
  - intros H. destruct (seq 0 (length us) !! i) as [j|] eqn:Ej; [|done]. apply lookup_seq in Ej as [-> Hlt]. split; [done|].
    cbn in H. injection H as <-. destruct E as [E|]; [|lia]. by rewrite E.
  - intros [Hlt ->]. rewrite lookup_seq_lt by done. cbn. destruct E as [E|]; [|lia]. by rewrite E.
Qed.

(** What the four counters of a report count. *)
Definition outcomes : list VerifierOutcome := [OutcomeProceed; OutcomeSpuriousRepair; OutcomeRepairFires; OutcomePartialAccepted].
Definition tally (o : VerifierOutcome -> Z) : Z := foldr (fun x n => o x + n) 0 outcomes.

Lemma score_rows_tally verify f rows o o' ok : score_rows verify f rows o = (o', ok) ->
  tally o' <= tally o + Z.of_nat (length rows) /\ (ok = true -> tally o' = tally o + Z.of_nat (length rows)).
Proof.
  revert o. induction rows as [|row rows IH]; intros o; cbn [score_rows length]; [intros [= <- <-]; lia|].
  destruct (verify f row) as [out| |]; [|intros [= <- <-]; split; [lia|done]..].
  intros H%IH. assert (E : tally (fun x => if decide (x = out) then o x + 1 else o x) = tally o + 1) by (unfold tally, outcomes; destruct out; cbn [foldr]; repeat case_decide; try done; lia).
  rewrite E in H. destruct H as [H1 H2]. split; [lia|]. intros Hok. specialize (H2 Hok). lia.
Qed.

(** A report without an error counts every row once. *)
Lemma score_counts verify f rows ms r : Score verify f rows ms = (r, true) -> tally (Outcomes r) = RowCount r.
Proof.
  unfold Score. destruct (score_rows _ _ _ _) as [o ok] eqn:E. intros [= <- ->].
  apply score_rows_tally in E as [_ E]. exact (E eq_refl).
Qed.
