(* ===== verification/Capture.v ===== *)
(** * Capture: the server that stands in for the Twilio Messages API

    [telephony/twilio/smsfake/capture.go]: the handler that records a posted
    message and queues a copy for every subscriber, the snapshot, the wake-up
    channel, the subscriptions with their goroutines, and the shutdown; and
    [runSMS] of [cmd/twilio-cli/sms.go], which waits on the wake-up.

    Forms are maps, so they have addresses: a message carries the address of its
    form, and every address has an owner.  A reader may edit the forms it was
    handed, at any time.  A step is one goroutine's next access to what it
    shares; what a mutex holds together is one step where nothing can come
    between. *)

From S2P Require Export Webhook.

(** ** Messages *)

Definition TrimPrefix (s prefix : string) : string :=
  if String.prefix prefix s then String.substring (String.length prefix) (String.length s - String.length prefix) s else s.
Definition TrimSuffix (s suffix : string) : string :=
  let n := (String.length s - String.length suffix)%nat in
  if (String.length suffix <=? String.length s)%nat && bool_decide (String.substring n (String.length suffix) s = suffix)
  then String.substring 0 n s else s.

Record Message := mkMessage {
  m_AccountSID : string;
  m_From : string;
  m_To : string;
  m_Body : string;
  m_Form : nat;        (* the map's address *)
  m_ReceivedAt : Z
}.

(** A message as a reader sees it, its form looked up. *)
Record content := mkContent {
  AccountSID : string;
  msg_From : string;
  msg_To : string;
  msg_Body : string;
  msg_Form : Values;
  ReceivedAt : Z
}.

Inductive owner := OServer | OSub (id : nat) | OReader.
#[export] Instance owner_eq : EqDecision owner.
Proof. solve_decision. Defined.

(** ** State *)

(** Where a subscription's [pump] is. *)
Inductive pump_pc :=
| PCheck                    (* at the check of stop *)
| PLook                     (* at the queue *)
| PWait                     (* the queue was empty: wake or stop *)
| PHand (next : Message)    (* offering on out, or stop *)
| PClear | PCloseOut | PCloseDone   (* the deferred calls *)
| PReturned.

Record subscription := mkSub {
  s_queue : list Message;
  s_wake : bool;
  s_stop : bool;
  s_out : bool;                (* closed *)
  s_done : bool;
  s_pc : pump_pc;
  s_joined : option nat;       (* the messages recorded when it joined *)
  s_left : option nat;         (* and when it left the set *)
  s_taken : list content       (* what its reader has received *)
}.
#[export] Instance sub_eta : Eta subscription := fun s =>
  mkSub (s_queue s) (s_wake s) (s_stop s) (s_out s) (s_done s) (s_pc s) (s_joined s) (s_left s) (s_taken s).

Definition newSubscription : subscription := mkSub [] false false false false PCheck None None [].

(** The holder of [mu]: nobody, or a handler that has appended its message and
    has still to queue it for [rest], and to wake the one it queued it for. *)
Inductive lock := Free | Recording (m : Message) (rest : gset nat) (waking : option nat).

(** [Close]: not called; the server shutting down; the set to be taken; the
    subscriptions it took, those still to be ended, and the one being waited for;
    returned. *)
Inductive close_pc := CIdle | CServer | CMark | CSubs (swept rest : gset nat) (waiting : option nat) | CReturned (swept : gset nat).

(** [runSMS], between its calls of the server. *)
Inductive run_pc := RIdle | RPosting (before : nat) | RWait (before : nat) | RWoken (before : nat) | RGot (before : nat) (reply : content) | RGaveUp.

Record capture := mkCapture {
  c_msgs : list Message;
  c_subs : gset nat;
  c_closed : bool;
  c_notify : bool;                     (* a wake-up is pending *)
  c_lock : lock;
  c_notifying : nat;                   (* handlers about to send a wake-up *)
  c_all : gmap nat subscription;
  c_close : close_pc;
  c_run : run_pc;
  c_forms : gmap nat (owner * Values);
  c_next : nat;                        (* no address from here on is in use *)
  c_now : Z
}.
#[export] Instance capture_eta : Eta capture := fun c =>
  mkCapture (c_msgs c) (c_subs c) (c_closed c) (c_notify c) (c_lock c) (c_notifying c) (c_all c) (c_close c) (c_run c) (c_forms c) (c_next c) (c_now c).

Definition newCapture : capture := mkCapture [] ∅ false false Free 0 ∅ CIdle RIdle ∅ 0 0.

Definition form_at (c : capture) (a : nat) : Values := default ∅ (snd <$> c_forms c !! a).
Definition owner_at (c : capture) (a : nat) : option owner := fst <$> c_forms c !! a.
Definition view (c : capture) (m : Message) : content :=
  mkContent (m_AccountSID m) (m_From m) (m_To m) (m_Body m) (form_at c (m_Form m)) (m_ReceivedAt m).

(** [clone], for an owner. *)
Definition clone (o : owner) (m : Message) (c : capture) : Message * capture :=
  (mkMessage (m_AccountSID m) (m_From m) (m_To m) (m_Body m) (c_next c) (m_ReceivedAt m),
   c <| c_forms ::= insert (c_next c) (o, form_at c (m_Form m)) |> <| c_next ::= S |>).

Fixpoint clones (o : owner) (ms : list Message) (c : capture) : list Message * capture :=
  match ms with
  | [] => ([], c)
  | m :: ms => let '(m', c) := clone o m c in let '(ms', c) := clones o ms c in (m' :: ms', c)
  end.

Definition sub_set (id : nat) (f : subscription -> subscription) (c : capture) : capture := c <| c_all ::= alter f id |>.

(** ** The handler *)

(** What [handleMessages] records of a request at [path] whose posted form is
    [form], whose address is then the message's. *)
Definition message_of (path : string) (form : Values) (a : nat) (now : Z) : Message :=
  mkMessage (TrimSuffix (TrimPrefix path "/2010-04-01/Accounts/") "/Messages.json") (Get form "From") (Get form "To") (Get form "Body") a now.

(** Up to the loop over the subscribers; [None] for [form] is a request that does not parse. *)
Definition record_message (path : string) (form : option Values) (now : Z) (c : capture) : option capture :=
  match form, c_lock c with
  | None, _ => Some c
  | Some form, Free =>
      if (c_now c <=? now)%Z then
        let m := message_of path form (c_next c) now in
        Some (c <| c_forms ::= insert (c_next c) (OServer, form) |> <| c_next ::= S |> <| c_msgs ::= (fun l => l ++ [m]) |>
                <| c_lock := Recording m (c_subs c) None |> <| c_now := now |>)
      else None
  | Some _, Recording _ _ _ => None
  end.

(** [enqueue]: the copy appended; then the wake-up. *)
Definition enqueue (id : nat) (c : capture) : option capture :=
  match c_lock c with
  | Recording m rest None =>
      if bool_decide (id ∈ rest) then
        let '(m', c) := clone (OSub id) m c in
        Some (sub_set id (fun s => s <| s_queue ::= (fun q => q ++ [m']) |>) (c <| c_lock := Recording m (rest ∖ {[id]}) (Some id) |>))
      else None
  | _ => None
  end.

Definition enqueue_wake (c : capture) : option capture :=
  match c_lock c with
  | Recording m rest (Some id) => Some (sub_set id (fun s => s <| s_wake := true |>) (c <| c_lock := Recording m rest None |>))
  | _ => None
  end.

Definition unlock (c : capture) : option capture :=
  match c_lock c with
  | Recording _ rest None => if bool_decide (rest = ∅) then Some (c <| c_lock := Free |> <| c_notifying ::= S |>) else None
  | _ => None
  end.

Definition notify (c : capture) : option capture :=
  match c_notifying c with S n => Some (c <| c_notifying := n |> <| c_notify := true |>) | O => None end.

(** ** Subscriptions *)

(** [Subscribe]'s critical section. *)
Definition join (id : nat) (c : capture) : option capture :=
  match c_lock c, c_all c !! id with
  | Free, Some s =>
      match s_joined s with
      | Some _ => None
      | None =>
          let n := length (c_msgs c) in
          if c_closed c then Some (sub_set id (fun s => s <| s_joined := Some n |> <| s_left := Some n |>) c)
          else Some (sub_set id (fun s => s <| s_joined := Some n |>) (c <| c_subs ::= union {[id]} |>))
      end
  | _, _ => None
  end.

Definition leave (n : nat) (s : subscription) : subscription := s <| s_left ::= (fun l => match l with Some l => Some l | None => Some n end) |>.

(** [unsubscribe]'s; [Subscribe] has returned it. *)
Definition unsubscribe (id : nat) (c : capture) : option capture :=
  match c_lock c, c_all c !! id ≫= s_joined with
  | Free, Some _ => Some (sub_set id (leave (length (c_msgs c))) (c <| c_subs ::= (fun l => l ∖ {[id]}) |>))
  | _, _ => None
  end.

(** [end] up to its wait. *)
Definition end_sub (id : nat) (c : capture) : option capture :=
  match c_all c !! id ≫= s_left with Some _ => Some (sub_set id (fun s => s <| s_stop := true |>) c) | None => None end.

(** A [pump] that waits for nobody. *)
Definition pump_step (s : subscription) : option subscription :=
  match s_pc s with
  | PCheck => Some (s <| s_pc := if s_stop s then PClear else PLook |>)
  | PLook => Some (match s_queue s with [] => s <| s_pc := PWait |> | m :: q => s <| s_queue := q |> <| s_pc := PHand m |> end)
  | PClear => Some (s <| s_queue := [] |> <| s_pc := PCloseOut |>)
  | PCloseOut => Some (s <| s_out := true |> <| s_pc := PCloseDone |>)
  | PCloseDone => Some (s <| s_done := true |> <| s_pc := PReturned |>)
  | PWait | PHand _ | PReturned => None
  end.

Definition pump_woken (s : subscription) : option subscription :=
  match s_pc s with PWait => if s_wake s then Some (s <| s_wake := false |> <| s_pc := PCheck |>) else None | _ => None end.

Definition pump_stopped (s : subscription) : option subscription :=
  match s_pc s with PWait | PHand _ => if s_stop s then Some (s <| s_pc := PClear |>) else None | _ => None end.

(** The reader takes what [pump] offers: the form is the reader's from then on. *)
Definition receive (id : nat) (c : capture) : option capture :=
  match c_all c !! id with
  | Some s =>
      match s_pc s with
      | PHand m => Some (sub_set id (fun s => s <| s_taken ::= (fun l => l ++ [view c m]) |> <| s_pc := PCheck |>)
                          (c <| c_forms ::= insert (m_Form m) (OReader, form_at c (m_Form m)) |>))
      | _ => None
      end
  | None => None
  end.

Definition sub_step (f : subscription -> option subscription) (id : nat) (c : capture) : option capture :=
  s ← c_all c !! id; s' ← f s; Some (c <| c_all ::= insert id s' |>).

(** ** Snapshots, the shutdown, the wait for a reply *)

Definition Captured (c : capture) : list Message * capture := clones OReader (c_msgs c) c.

(** A reader edits a form of its own. *)
Definition edit (a : nat) (form : Values) (c : capture) : option capture :=
  match owner_at c a with Some OReader => Some (c <| c_forms ::= insert a (OReader, form) |>) | _ => None end.

Definition accepts (c : capture) : bool := match c_close c with CIdle | CServer => true | _ => false end.

Definition close_step (pick : nat) (c : capture) : option capture :=
  match c_close c with
  | CIdle => Some (c <| c_close := CServer |>)
  | CServer => match c_lock c, c_notifying c with Free, O => Some (c <| c_close := CMark |>) | _, _ => None end
  | CMark =>
      match c_lock c with
      | Free =>
          let n := length (c_msgs c) in
          Some (c <| c_closed := true |> <| c_all ::= map_imap (fun id s => Some (if bool_decide (id ∈ c_subs c) then leave n s else s)) |>
                  <| c_close := CSubs (c_subs c) (c_subs c) None |> <| c_subs := ∅ |>)
      | _ => None
      end
  | CSubs swept rest None =>
      if bool_decide (rest = ∅) then Some (c <| c_close := CReturned swept |>)
      else if bool_decide (pick ∈ rest)
      then Some (sub_set pick (fun s => s <| s_stop := true |>) (c <| c_close := CSubs swept (rest ∖ {[pick]}) (Some pick) |>)) else None
  | CSubs swept rest (Some id) =>
      match c_all c !! id with Some s => if s_done s then Some (c <| c_close := CSubs swept rest None |>) else None | None => None end
  | CReturned _ => None
  end.

(** [runSMS]: the count before, the webhook posted, then each wake-up. *)
Definition run_step (c : capture) : option capture :=
  match c_run c with
  | RIdle | RGot _ _ | RGaveUp => match c_lock c with Free => Some (c <| c_run := RPosting (length (c_msgs c)) |>) | _ => None end
  | RPosting before => Some (c <| c_run := RWait before |>)
  | RWait before => if c_notify c then Some (c <| c_notify := false |> <| c_run := RWoken before |>) else None
  | RWoken before =>
      match c_lock c with
      | Free =>
          let '(msgs, c) := Captured c in
          Some (c <| c_run := match msgs !! before with Some m => RGot before (view c m) | None => RWait before end |>)
      | _ => None
      end
  end.

(** The wait's end without a reply: its bound, the context, or a failed post. *)
Definition run_gives_up (c : capture) : option capture :=
  match c_run c with RPosting _ | RWait _ => Some (c <| c_run := RGaveUp |>) | _ => None end.

(** ** Steps *)

Inductive clabel :=
| LRecord (path : string) (form : option Values) (now : Z)
| LEnqueue (id : nat)
| LWake
| LUnlock
| LNotify
| LSubscribe (id : nat)     (* a new subscription, its pump started *)
| LJoin (id : nat)
| LUnsubscribe (id : nat)
| LEnd (id : nat)
| LPump (id : nat)
| LWoken (id : nat)
| LStopped (id : nat)
| LReceive (id : nat)
| LCaptured
| LEdit (a : nat) (form : Values)
| LClose (pick : nat)
| LRun
| LGiveUp.

Definition capture_step (l : clabel) (c : capture) : option capture :=
  match l with
  | LRecord path form now => if accepts c then record_message path form now c else None
  | LEnqueue id => enqueue id c
  | LWake => enqueue_wake c
  | LUnlock => unlock c
  | LNotify => notify c
  | LSubscribe id => match c_all c !! id with None => Some (c <| c_all ::= insert id newSubscription |>) | Some _ => None end
  | LJoin id => join id c
  | LUnsubscribe id => unsubscribe id c
  | LEnd id => end_sub id c
  | LPump id => sub_step pump_step id c
  | LWoken id => sub_step pump_woken id c
  | LStopped id => sub_step pump_stopped id c
  | LReceive id => receive id c
  | LCaptured => match c_lock c with Free => Some (snd (Captured c)) | _ => None end
  | LEdit a form => edit a form c
  | LClose pick => close_step pick c
  | LRun => run_step c
  | LGiveUp => run_gives_up c
  end.

Fixpoint capture_run (ls : list clabel) (c : capture) : option capture :=
  match ls with [] => Some c | l :: ls => c' ← capture_step l c; capture_run ls c' end.
