(* ===== verification/CaptureThms.v ===== *)
(** * CaptureThms: every subscriber receives every message recorded after it joined

    In every interleaving of handlers, subscribers, readers that edit what they
    were handed, a shutdown and a wait for a reply. *)

From S2P Require Export Capture.

(** ** What is recorded, and what is on its way *)

Definition contents (c : capture) : list content := map (view c) (c_msgs c).

Definition hand (s : subscription) : list Message := match s_pc s with PHand m => [m] | _ => [] end.
Definition pending (s : subscription) : list Message := hand s ++ s_queue s.

(** The handler that holds the lock has not reached [id] yet. *)
Definition lag (c : capture) (id : nat) : nat :=
  match c_lock c with Recording _ rest _ => if bool_decide (id ∈ rest) then 1 else 0 | Free => 0 end.
Definition waking_now (c : capture) (id : nat) : bool :=
  match c_lock c with Recording _ _ (Some i) => bool_decide (i = id) | _ => false end.

Definition leaving (p : pump_pc) : bool := match p with PClear | PCloseOut | PCloseDone | PReturned => true | _ => false end.
Definition cleared (p : pump_pc) : bool := match p with PCloseOut | PCloseDone | PReturned => true | _ => false end.
Definition shut_out (p : pump_pc) : bool := match p with PCloseDone | PReturned => true | _ => false end.
Definition returned (p : pump_pc) : bool := match p with PReturned => true | _ => false end.
Definition waits (p : pump_pc) : bool := match p with PWait => true | _ => false end.

(** The messages from the [j]-th on, before the [n]-th. *)
Definition segment {A} (j n : nat) (l : list A) : list A := take (n - j) (drop j l).
Arguments segment : simpl never.

(** A subscription against the [n] messages its set's handlers are done with
    for it, its place in the set, and the views of what is on its way. *)
Definition sub_ok (msgs : list content) (n : nat) (member waking : bool) (vs : list content) (s : subscription) : Prop :=
  match s_joined s with
  | None => s_left s = None /\ vs = [] /\ s_taken s = [] /\ member = false
  | Some j =>
      let upto := default n (s_left s) in
      (member = true <-> s_left s = None) /\ (j <= upto <= length msgs)%nat /\
      (if leaving (s_pc s) then s_taken s `prefix_of` segment j upto msgs else s_taken s ++ vs = segment j upto msgs)
  end /\
  (s_stop s = true -> is_Some (s_left s)) /\
  (leaving (s_pc s) = true -> s_stop s = true) /\
  (cleared (s_pc s) = true -> s_queue s = []) /\
  s_out s = shut_out (s_pc s) /\ s_done s = returned (s_pc s) /\
  (waits (s_pc s) = true -> s_queue s <> [] -> s_wake s = true \/ waking = true).

Definition sub_inv (c : capture) (id : nat) (s : subscription) : Prop :=
  sub_ok (contents c) (length (c_msgs c) - lag c id) (bool_decide (id ∈ c_subs c)) (waking_now c id) (map (view c) (pending s)) s.

(** Who owns the forms. *)
Definition sub_owns (c : capture) (id : nat) (s : subscription) : Prop :=
  Forall (fun m => owner_at c (m_Form m) = Some (OSub id)) (pending s) /\ NoDup (map m_Form (pending s)).

Definition heap_inv (c : capture) : Prop :=
  (forall a, (c_next c <= a)%nat -> c_forms c !! a = None) /\
  Forall (fun m => owner_at c (m_Form m) = Some OServer) (c_msgs c).

Definition lock_inv (c : capture) : Prop :=
  match c_lock c with
  | Free => True
  | Recording m rest w => rest ⊆ c_subs c /\ last (c_msgs c) = Some m /\ accepts c = true /\
      match w with Some id => id ∉ rest /\ is_Some (c_all c !! id) | None => True end
  end.

(** Those in the set have joined, and the set goes when the server is closed. *)
Definition set_inv (c : capture) : Prop :=
  (forall id, id ∈ c_subs c -> exists s, c_all c !! id = Some s /\ is_Some (s_joined s)) /\
  (c_closed c = true -> c_subs c = ∅).

Definition capture_inv (c : capture) : Prop :=
  heap_inv c /\ lock_inv c /\ set_inv c /\
  (forall id s, c_all c !! id = Some s -> sub_inv c id s /\ sub_owns c id s).

Lemma capture_inv_new : capture_inv newCapture.
Proof. repeat split; try done; intros; set_solver. Qed.

(** ** Forms *)

(** What is not a reader's keeps its content. *)
Definition kept (c c' : capture) : Prop := forall a o v, c_forms c !! a = Some (o, v) -> o <> OReader -> exists o', c_forms c' !! a = Some (o', v).

Lemma kept_refl c : kept c c.
Proof. intros a o v H _. by exists o. Qed.

Lemma view_kept c c' m o : kept c c' -> owner_at c (m_Form m) = Some o -> o <> OReader -> view c' m = view c m.
Proof.
  intros H Ho Hr. unfold owner_at in Ho. destruct (c_forms c !! m_Form m) as [[o' v]|] eqn:E; [|done]. cbn in Ho. injection Ho as ->.
  destruct (H _ _ _ E Hr) as [o' E']. unfold view, form_at. by rewrite E, E'.
Qed.

Lemma views_kept c c' o ms : kept c c' -> o <> OReader -> Forall (fun m => owner_at c (m_Form m) = Some o) ms -> map (view c') ms = map (view c) ms.
Proof. intros H Ho. induction 1 as [|m ms Hm _ IH]; [done|]. cbn. rewrite IH. f_equal. by eapply view_kept. Qed.

Lemma contents_kept c c' : kept c c' -> heap_inv c -> c_msgs c' = c_msgs c -> contents c' = contents c.
Proof. intros H [_ Hm] E. unfold contents. rewrite E. by apply (views_kept c c' OServer). Qed.

(** A new form. *)
Lemma kept_alloc c c' o v : heap_inv c -> c_forms c' = <[c_next c := (o, v)]> (c_forms c) -> kept c c'.
Proof.
  intros [Hn _] E a o1 v1 Ha _. exists o1. rewrite E, lookup_insert_ne; [done|]. intros <-. rewrite Hn in Ha by lia. done.
Qed.

Lemma owner_alloc c c' o v a ow : heap_inv c -> c_forms c' = <[c_next c := (o, v)]> (c_forms c) -> owner_at c a = Some ow -> owner_at c' a = Some ow.
Proof.
  intros [Hn _] E Ha. unfold owner_at in *. rewrite E. destruct (decide (a = c_next c)) as [->|Hne]; [by rewrite Hn in Ha by lia|].
  by rewrite lookup_insert_ne.
Qed.

(** What is the server's or a subscription's stays so. *)
Definition owned (c c' : capture) : Prop := forall a ow, owner_at c a = Some ow -> ow <> OReader -> owner_at c' a = Some ow.

Definition fresh_above (c : capture) : Prop := forall a, (c_next c <= a)%nat -> c_forms c !! a = None.

Lemma alloc_frame c c' o v : heap_inv c -> c_forms c' = <[c_next c := (o, v)]> (c_forms c) -> c_next c' = S (c_next c) ->
  kept c c' /\ owned c c' /\ fresh_above c'.
Proof.
  intros Hh E En. split_and!.
  - by eapply kept_alloc.
  - intros a ow Ha _. by eapply owner_alloc.
  - intros a Ha. rewrite E, lookup_insert_ne by lia. apply Hh. lia.
Qed.

Lemma heap_frame c c' : owned c c' -> fresh_above c' -> c_msgs c' = c_msgs c -> heap_inv c -> heap_inv c'.
Proof. intros Ho Hf Em [_ Hm]. split; [done|]. rewrite Em. eapply Forall_impl; [exact Hm|]. cbn. intros m H. by apply Ho. Qed.

Lemma sub_frame c c' id s :
  kept c c' -> owned c c' -> heap_inv c -> c_msgs c' = c_msgs c -> lag c' id = lag c id -> waking_now c' id = waking_now c id ->
  (id ∈ c_subs c' <-> id ∈ c_subs c) -> sub_inv c id s /\ sub_owns c id s -> sub_inv c' id s /\ sub_owns c' id s.
Proof.
  intros Hk Ho Hh Em El Ew Es [Hi [Hown Hnd]]. split.
  - unfold sub_inv. rewrite (contents_kept c c' Hk Hh Em), Em, El, Ew, (bool_decide_ext _ _ Es).
    rewrite (views_kept c c' (OSub id)); [done..|exact Hown].
  - split; [|done]. eapply Forall_impl; [exact Hown|]. cbn. intros m H. by apply Ho.
Qed.

Lemma inv_frame c c' :
  kept c c' -> owned c c' -> fresh_above c' -> c_msgs c' = c_msgs c -> c_subs c' = c_subs c -> c_closed c' = c_closed c ->
  c_lock c' = c_lock c -> c_all c' = c_all c -> (accepts c = true -> c_lock c <> Free -> accepts c' = true) -> capture_inv c -> capture_inv c'.
Proof.
  intros Hk Ho Hf Em Es Ec El Ea Hacc (Hh & Hl & [Hs1 Hs2] & Hsub). split_and!.
  - by eapply heap_frame.
  - unfold lock_inv in *. rewrite El, Es, Em, Ea. destruct (c_lock c); [done|]. destruct Hl as (H1 & H2 & H3 & H4). by eauto 10.
  - split; rewrite ?Es, ?Ea, ?Ec; done.
  - intros id s. rewrite Ea. intros H. apply (sub_frame c); try done.
    + unfold lag. by rewrite El.
    + unfold waking_now. by rewrite El.
    + by rewrite Es.
    + by apply Hsub.
Qed.

(** One subscription changes. *)
Lemma inv_update c c' id s s' :
  c_all c !! id = Some s -> c' = c <| c_all ::= insert id s' |> -> s_joined s' = s_joined s \/ id ∉ c_subs c ->
  (sub_inv c id s -> sub_owns c id s -> sub_inv c id s' /\ sub_owns c id s') -> capture_inv c -> capture_inv c'.
Proof.
  intros Hid -> Hj Hs' (Hh & Hl & [Hs1 Hs2] & Hsub). split_and!.
  - exact Hh.
  - unfold lock_inv in *. cbn. destruct (c_lock c) as [|m rest [w|]]; [done| |done]. destruct Hl as (H1 & H2 & H3 & H4 & H5). split_and!; try done.
    apply lookup_insert_is_Some'. by right.
  - split; [|done]. cbn. intros i Hi. destruct (decide (i = id)) as [->|Hne].
    + rewrite lookup_insert_eq. exists s'. split; [done|]. destruct Hj as [->|?]; [|done]. destruct (Hs1 id Hi) as (s0 & E & ?). by simplify_eq.
    + rewrite lookup_insert_ne by done. by apply Hs1.
  - cbn. intros i si. destruct (decide (i = id)) as [->|Hne].
    + rewrite lookup_insert_eq. intros [= <-]. destruct (Hsub id s Hid). by apply Hs'.
    + rewrite lookup_insert_ne by done. by apply Hsub.
Qed.

(** ** Segments *)

Lemma segment_app {A} j n (l k : list A) : (n <= length l)%nat -> segment j n (l ++ k) = segment j n l.
Proof.
  intros H. unfold segment. destruct (Nat.le_gt_cases j (length l)).
  - rewrite drop_app_le by done. rewrite take_app_le; [done|]. rewrite length_drop. lia.
  - replace (n - j)%nat with 0%nat by lia. done.
Qed.

Lemma segment_snoc {A} j n (l : list A) x : (j <= n)%nat -> l !! n = Some x -> segment j (S n) l = segment j n l ++ [x].
Proof.
  intros H Hx. unfold segment. replace (S n - j)%nat with (S (n - j)) by lia. apply take_S_r. rewrite lookup_drop. by replace (j + (n - j))%nat with n by lia.
Qed.

Lemma segment_nil {A} j (l : list A) : segment j j l = [].
Proof. unfold segment. by rewrite Nat.sub_diag. Qed.

(** ** The pumps *)

(** What a pump's own steps do to its subscription. *)
Definition pump_moves (s s' : subscription) : Prop :=
  pump_step s = Some s' \/ pump_woken s = Some s' \/ pump_stopped s = Some s'.

Lemma pump_pending s s' : pump_moves s s' -> s_joined s' = s_joined s /\ exists l, pending s = l ++ pending s' /\ (leaving (s_pc s') = false -> l = []).
Proof.
  unfold pump_moves, pump_step, pump_woken, pump_stopped, pending, hand. intros H.
  destruct (s_pc s) eqn:E; destruct H as [H|[H|H]]; try done; repeat case_match; cbn in *; simplify_eq/=; (split; [done|]).
  all: first [exists []; done | exists [next]; done | exists (s_queue s); by rewrite app_nil_r | exists []; cbn; split; congruence].
Qed.

Lemma pump_flags s s' : pump_moves s s' -> s_left s' = s_left s /\ s_stop s' = s_stop s /\ s_taken s' = s_taken s /\
  (leaving (s_pc s) = true -> leaving (s_pc s') = true) /\ (leaving (s_pc s') = true -> s_stop s = true \/ leaving (s_pc s) = true).
Proof.
  unfold pump_moves, pump_step, pump_woken, pump_stopped. intros H.
  destruct (s_pc s) eqn:E; destruct H as [H|[H|H]]; try done; repeat case_match; simplify_eq/=; split_and!; auto.
Qed.

Lemma pump_rest s s' (w : bool) : pump_moves s s' ->
  (leaving (s_pc s) = true -> s_stop s = true) -> (cleared (s_pc s) = true -> s_queue s = []) ->
  s_out s = shut_out (s_pc s) -> s_done s = returned (s_pc s) -> (waits (s_pc s) = true -> s_queue s <> [] -> s_wake s = true \/ w = true) ->
  (cleared (s_pc s') = true -> s_queue s' = []) /\ s_out s' = shut_out (s_pc s') /\ s_done s' = returned (s_pc s') /\
  (waits (s_pc s') = true -> s_queue s' <> [] -> s_wake s' = true \/ w = true).
Proof.
  unfold pump_moves, pump_step, pump_woken, pump_stopped. intros H.
  destruct (s_pc s) eqn:E; destruct H as [H|[H|H]]; try done; repeat case_match; simplify_eq/=; rewrite ?E; intros; split_and!; auto; try done.
Qed.

Lemma prefix_join {A} (t l m : list A) : t `prefix_of` t ++ l ++ m. Proof. by eexists. Qed.

Lemma pump_ok msgs n mem w (f : Message -> content) s s' : pump_moves s s' ->
  sub_ok msgs n mem w (map f (pending s)) s -> sub_ok msgs n mem w (map f (pending s')) s'.
Proof.
  intros Hp (Hj & Hst & Hlv & Hcl & Ho & Hd & Hw). destruct (pump_pending s s' Hp) as [Ej (l & El & Hl)].
  destruct (pump_flags s s' Hp) as (E1 & E2 & E3 & Hin & Hout). destruct (pump_rest s s' w Hp Hlv Hcl Ho Hd Hw) as (R1 & R2 & R3 & R4).
  split; [|rewrite E1, E2; split_and!; try done; intros H; destruct (Hout H); auto].
  rewrite Ej, E1, E3. destruct (s_joined s) as [j|].
  - destruct Hj as (H1 & H2 & H3). split; [done|]. split; [done|]. rewrite El, map_app in H3. destruct (leaving (s_pc s')) eqn:E.
    + destruct (leaving (s_pc s)); [done|]. rewrite <- H3. apply prefix_join.
    + rewrite Hl in H3 by done. destruct (leaving (s_pc s)); [discriminate (Hin eq_refl)|done].
  - destruct Hj as (H1 & H2 & H3 & H4). rewrite El, map_app in H2. apply app_eq_nil in H2 as [_ H2]. done.
Qed.

Lemma pump_owns c id s s' : pump_moves s s' -> sub_owns c id s -> sub_owns c id s'.
Proof.
  intros Hp [H1 H2]. destruct (pump_pending s s' Hp) as [_ (l & El & _)]. rewrite El in H1, H2. rewrite map_app in H2.
  apply Forall_app in H1 as [_ H1]. apply NoDup_app in H2 as (_ & _ & H2). done.
Qed.

Lemma inv_pump f id c c' : (forall s s', f s = Some s' -> pump_moves s s') -> sub_step f id c = Some c' -> capture_inv c -> capture_inv c'.
Proof.
  intros Hf. unfold sub_step. destruct (c_all c !! id) as [s|] eqn:E; [|done]. cbn [mbind option_bind]. destruct (f s) as [s'|] eqn:Es; [|done].
  intros [= <-]. apply Hf in Es. eapply inv_update; [exact E|done|left; by apply pump_pending in Es as [-> _]|].
  intros Hi Ho. split; [|by eapply pump_owns]. unfold sub_inv in *. by eapply pump_ok.
Qed.

(** A subscription told to stop: it left before. *)
Lemma inv_stop c id s : c_all c !! id = Some s -> is_Some (s_left s) -> capture_inv c -> capture_inv (sub_set id (fun s => s <| s_stop := true |>) c).
Proof.
  intros E Hl. eapply (inv_update c _ id s (s <| s_stop := true |>)); [exact E| |by left|].
  - unfold sub_set, set. cbn. f_equal. apply map_eq. intros i. destruct (decide (i = id)) as [->|]; [by rewrite lookup_alter_eq, lookup_insert_eq, E|].
    by rewrite lookup_alter_ne, lookup_insert_ne.
  - intros (H1 & H2 & H3 & H4 & H5 & H6 & H7) Ho. split; [|exact Ho]. split_and!; try done. 
Qed.

(** Nothing but the wake-ups, the close or the waiter changes. *)
Lemma inv_same c c' : c_forms c' = c_forms c -> c_next c' = c_next c -> c_msgs c' = c_msgs c -> c_subs c' = c_subs c -> c_closed c' = c_closed c ->
  c_lock c' = c_lock c -> c_all c' = c_all c -> (accepts c = true -> c_lock c <> Free -> accepts c' = true) -> capture_inv c -> capture_inv c'.
Proof.
  intros Ef En Em Es Ec El Ea Hacc Hi. eapply inv_frame; try exact Hi; try done.
  - intros a o v H _. exists o. by rewrite Ef.
  - intros a ow H _. unfold owner_at. by rewrite Ef.
  - intros a. rewrite Ef, En. apply Hi.
Qed.

(** ** Recording *)

Lemma inv_record path form now c c' : accepts c = true -> record_message path form now c = Some c' -> capture_inv c -> capture_inv c'.
Proof.
  intros Hacc. unfold record_message. destruct form as [form|]; [|by intros [= <-]]. destruct (c_lock c) eqn:El; [|done]. case_match; [|done].
  set (m := message_of path form (c_next c) now). intros [= <-] (Hh & _ & [Hs1 Hs2] & Hsub).
  match goal with |- capture_inv ?x => set (c' := x) end.
  destruct (alloc_frame c c' OServer form Hh eq_refl eq_refl) as (Hk & Ho & Hf).
  assert (Hm : owner_at c' (m_Form m) = Some OServer) by (unfold owner_at; cbn; by rewrite lookup_insert_eq).
  assert (Hc : contents c' = contents c ++ [view c' m]).
  { unfold contents. change (c_msgs c') with (c_msgs c ++ [m]). rewrite map_app. f_equal. by apply (views_kept c c' OServer); [..|apply Hh]. }
  split_and!.
  - split; [done|]. change (c_msgs c') with (c_msgs c ++ [m]). apply Forall_app. split; [|by constructor].
    eapply Forall_impl; [apply Hh|]. cbn. intros x Hx. by apply Ho.
  - unfold lock_inv. cbn. split; [done|]. rewrite last_snoc. done.
  - done.
  - intros id s Hid. destruct (Hsub id s Hid) as [(Hj & Hrest) [Hown Hnd]]. split; [|split; [|done]].
    + split; [|destruct Hrest as (A & B & C & D & F & G); split_and!; try done; intros X Y; destruct (G X Y) as [?|Hw]; [by left|unfold waking_now in Hw; rewrite El in Hw; done]].
      rewrite Hc, (views_kept c c' (OSub id)); [|done..|exact Hown]. change (c_msgs c') with (c_msgs c ++ [m]). change (c_subs c') with (c_subs c).
      assert (Hlag : lag c' id = if bool_decide (id ∈ c_subs c) then 1%nat else 0%nat) by done. assert (Hlag0 : lag c id = 0%nat) by (unfold lag; by rewrite El).
      rewrite Hlag, length_app. rewrite Hlag0 in Hj. cbn [length]. destruct (s_joined s) as [j|]; [|done].
      destruct Hj as (H1 & H2 & H3). split; [done|].
      assert (E : default (length (c_msgs c) + 1 - (if bool_decide (id ∈ c_subs c) then 1 else 0))%nat (s_left s) = default (length (c_msgs c) - 0)%nat (s_left s)).
      { destruct (s_left s); [done|]. cbn. rewrite (proj2 H1 eq_refl). lia. }
      rewrite E, segment_app; [|unfold contents in *; rewrite length_map in *; lia]. split; [rewrite length_app; lia|done].
    + eapply Forall_impl; [exact Hown|]. cbn. intros x Hx. by apply Ho.
Qed.

Lemma sub_set_insert id f c s : c_all c !! id = Some s -> sub_set id f c = c <| c_all ::= insert id (f s) |>.
Proof.
  intros E. unfold sub_set, set. cbn. f_equal. apply map_eq. intros i. destruct (decide (i = id)) as [->|].
  - by rewrite lookup_alter_eq, lookup_insert_eq, E.
  - by rewrite lookup_alter_ne, lookup_insert_ne.
Qed.

Lemma last_lookup_length {A} (l : list A) x : last l = Some x -> l !! (length l - 1)%nat = Some x /\ (0 < length l)%nat.
Proof. rewrite last_lookup. intros H. replace (Nat.pred (length l)) with (length l - 1)%nat in H by lia. split; [done|]. apply lookup_lt_Some in H. lia. Qed.

Lemma inv_enqueue id c c' : enqueue id c = Some c' -> capture_inv c -> capture_inv c'.
Proof.
  unfold enqueue. destruct (c_lock c) as [|m rest [w|]] eqn:El; [done..|]. case_bool_decide as Hin; [|done]. cbn [clone].
  set (m' := mkMessage _ _ _ _ _ _). intros [= <-] (Hh & Hl & [Hs1 Hs2] & Hsub). unfold lock_inv in Hl. rewrite El in Hl. destruct Hl as (L1 & L2 & L3 & _).
  destruct (Hs1 id (L1 id Hin)) as (s & Es & [j Ej]). destruct (Hsub id s Es) as [Hi [Hown Hnd]].
  match goal with |- capture_inv (sub_set _ ?f ?x) => set (cl := x); set (g := f) end. rewrite (sub_set_insert id g cl s Es).
  set (c' := cl <| c_all ::= insert id (g s) |>) in *.
  assert (Ef : c_forms c' = <[c_next c := (OSub id, form_at c (m_Form m))]> (c_forms c)) by reflexivity.
  destruct (alloc_frame c c' _ _ Hh Ef eq_refl) as (Hk & Ho & Hf).
  assert (Hlast : c_msgs c !! (length (c_msgs c) - 1)%nat = Some m /\ (0 < length (c_msgs c))%nat) by (by apply last_lookup_length). destruct Hlast as [Hlast Hpos].
  assert (Hv : view c' m' = view c m).
  { unfold view, form_at. cbn. by rewrite lookup_insert_eq. }
  split_and!.
  - eapply heap_frame; [exact Ho|exact Hf|done|exact Hh].
  - unfold lock_inv. cbn. split; [set_solver|]. split; [done|]. split; [done|]. split; [set_solver|]. apply lookup_insert_is_Some'. by left.
  - split; [|done]. intros i Hii. cbn. destruct (decide (i = id)) as [->|]; [rewrite lookup_insert_eq; by eexists|rewrite lookup_insert_ne by done; by apply Hs1].
  - intros i si. change (c_all c') with (<[id := g s]> (c_all c)). destruct (decide (i = id)) as [->|Hne].
    + rewrite lookup_insert_eq. intros [= <-].
      assert (Hp : pending (g s) = pending s ++ [m']) by (unfold pending, hand; cbn; by rewrite app_assoc).
      unfold sub_inv, sub_owns. rewrite Hp. change (c_msgs c') with (c_msgs c). change (c_subs c') with (c_subs c).
      assert (Hlag : lag c' id = 0%nat) by (unfold lag; cbn; case_bool_decide; [set_solver|done]).
      assert (Hlag1 : lag c id = 1%nat) by (unfold lag; rewrite El; by rewrite bool_decide_true).
      rewrite Hlag, Nat.sub_0_r, (contents_kept c c' Hk Hh eq_refl), map_app, (views_kept c c' (OSub id)); [|done..|exact Hown]. cbn [map]. rewrite Hv.
      unfold sub_inv in Hi. rewrite Hlag1 in Hi. destruct Hi as (Hj & A & B & C & D & F & G). rewrite Ej in Hj. destruct Hj as (J1 & J2 & J3).
      assert (Hleft : s_left s = None) by (apply J1; rewrite bool_decide_true; [done|by apply L1]).
      assert (Hstop : s_stop s = false) by (destruct (s_stop s); [destruct (A eq_refl); congruence|done]).
      assert (Hlv : leaving (s_pc s) = false) by (destruct (leaving (s_pc s)); [by rewrite B in Hstop|done]).
      rewrite Hleft in J1, J2, J3. rewrite Hlv in J3. cbn in J2, J3. split.
      * split; [|split_and!; try done].
        -- cbn. rewrite Ej. change (s_left (g s)) with (s_left s). rewrite Hleft, Hlv. split; [done|]. cbn. unfold contents in *. rewrite length_map in *. split; [lia|].
           rewrite app_assoc, J3. replace (length (c_msgs c)) with (S (length (c_msgs c) - 1)) at 2 by lia. symmetry. apply segment_snoc; [lia|]. change (map (view c) (c_msgs c)) with (view c <$> c_msgs c). rewrite list_lookup_fmap, Hlast. done.
        -- cbn. intros H. exfalso. destruct (s_pc s); done.
        -- cbn. intros _ _. right. unfold waking_now. cbn. by rewrite bool_decide_true.
      * split.
        -- apply Forall_app. split; [eapply Forall_impl; [exact Hown|]; cbn; intros x Hx; by apply Ho|]. constructor; [|done]. unfold owner_at. cbn. by rewrite lookup_insert_eq.
        -- rewrite map_app. cbn. apply NoDup_app. split; [done|]. split; [|apply NoDup_singleton]. intros a Ha Hb. apply list_elem_of_singleton in Hb as ->.
           apply list_elem_of_In, in_map_iff in Ha as (x & Ex & Hx). rewrite Forall_forall in Hown. specialize (Hown x (proj2 (list_elem_of_In _ _) Hx)).
           unfold owner_at in Hown. rewrite Ex in Hown. rewrite (proj1 Hh) in Hown by lia. done.
    + rewrite lookup_insert_ne by done. intros Hsi. apply (sub_frame c); try done; [| |by apply Hsub].
      * unfold lag. cbn. rewrite El. rewrite (bool_decide_ext (i ∈ rest ∖ {[id]}) (i ∈ rest)); [done|set_solver].
      * unfold waking_now. cbn. rewrite El. by rewrite bool_decide_false.
Qed.

Lemma inv_wake c c' : enqueue_wake c = Some c' -> capture_inv c -> capture_inv c'.
Proof.
  unfold enqueue_wake. destruct (c_lock c) as [|m rest [id|]] eqn:El; [done| |done]. intros [= <-] (Hh & Hl & Hs & Hsub).
  unfold lock_inv in Hl. rewrite El in Hl. destruct Hl as (L1 & L2 & L3 & L4 & [s Es]).
  set (c1 := c <| c_lock := Recording m rest None |>). rewrite (sub_set_insert id _ c1 s Es). set (s' := s <| s_wake := true |>).
  assert (Hothers : forall i si, c_all c !! i = Some si -> i <> id -> sub_inv c1 i si /\ sub_owns c1 i si).
  { intros i si Hi Hne. destruct (Hsub i si Hi) as [Hok How]. split; [|exact How]. unfold sub_inv in *.
    assert (E : waking_now c1 i = waking_now c i) by (unfold waking_now; cbn; rewrite El; by rewrite bool_decide_false). rewrite E.
    assert (E2 : lag c1 i = lag c i) by (unfold lag; cbn; by rewrite El). by rewrite E2. }
  split_and!.
  - exact Hh.
  - unfold lock_inv. cbn. done.
  - destruct Hs as [Hs1 Hs2]. split; [|done]. intros i Hi. cbn. destruct (decide (i = id)) as [->|Hne].
    + rewrite lookup_insert_eq. exists s'. split; [done|]. destruct (Hs1 id Hi) as (s0 & E & ?). by simplify_eq.
    + rewrite lookup_insert_ne by done. by apply Hs1.
  - cbn. intros i si. destruct (decide (i = id)) as [->|Hne]; [|rewrite lookup_insert_ne by done; intros Hi; by apply Hothers].
    rewrite lookup_insert_eq. intros [= <-]. destruct (Hsub id s Es) as [(Hj & A & B & C & D & F & G) How]. split; [|exact How].
    unfold sub_inv. assert (E2 : lag c1 id = lag c id) by (unfold lag; cbn; by rewrite El). 
    change (lag (c1 <| c_all ::= insert id s' |>) id) with (lag c1 id). rewrite E2. split; [exact Hj|]. split_and!; try done. by left.
Qed.

Lemma inv_unlock c c' : unlock c = Some c' -> capture_inv c -> capture_inv c'.
Proof.
  unfold unlock. destruct (c_lock c) as [|m rest [id|]] eqn:El; [done..|]. case_bool_decide as E; [|done]. intros [= <-] (Hh & Hl & Hs & Hsub).
  split_and!; [exact Hh|done|exact Hs|]. intros id s Hid. destruct (Hsub id s Hid) as [Hok How]. split; [|exact How]. unfold sub_inv in *.
  match goal with |- sub_ok _ (_ - lag ?c' _) _ _ _ _ => assert (E1 : lag c' id = lag c id) by (unfold lag; cbn; rewrite El, E; by rewrite bool_decide_false by set_solver);
    assert (E2 : waking_now c' id = waking_now c id) by (unfold waking_now; cbn; by rewrite El) end.
  rewrite E1, E2. exact Hok.
Qed.

Lemma inv_subscribe id c : c_all c !! id = None -> capture_inv c -> capture_inv (c <| c_all ::= insert id newSubscription |>).
Proof.
  intros E (Hh & Hl & [Hs1 Hs2] & Hsub). split_and!.
  - exact Hh.
  - unfold lock_inv in *. cbn. destruct (c_lock c) as [|m rest [w|]]; [done| |done]. destruct Hl as (H1 & H2 & H3 & H4 & H5). split_and!; try done.
    apply lookup_insert_is_Some'. by right.
  - split; [|done]. cbn. intros i Hi. destruct (decide (i = id)) as [->|Hne]; [destruct (Hs1 id Hi) as (s0 & E' & _); congruence|].
    rewrite lookup_insert_ne by done. by apply Hs1.
  - cbn. intros i si. destruct (decide (i = id)) as [->|Hne]; [|rewrite lookup_insert_ne by done; by apply Hsub].
    rewrite lookup_insert_eq. intros [= <-]. split; [|split; [done|constructor]].
    split; [|done]. cbn. split_and!; try done. apply bool_decide_false. intros Hi. destruct (Hs1 id Hi) as (s0 & E' & _). congruence.
Qed.

(** Joining and leaving, with the lock free. *)
Lemma free_lag c id : c_lock c = Free -> lag c id = 0%nat /\ waking_now c id = false.
Proof. unfold lag, waking_now. by intros ->. Qed.

Lemma inv_membership c id s s' subs :
  c_lock c = Free -> c_all c !! id = Some s -> is_Some (s_joined s') -> s_queue s' = s_queue s -> s_pc s' = s_pc s ->
  (forall i, i <> id -> i ∈ subs <-> i ∈ c_subs c) -> (c_closed c = true -> subs = ∅) ->
  (sub_inv c id s -> sub_ok (contents c) (length (c_msgs c)) (bool_decide (id ∈ subs)) false (map (view c) (pending s)) s') ->
  capture_inv c -> capture_inv (c <| c_subs := subs |> <| c_all ::= insert id s' |>).
Proof.
  intros El Es Hj Eq Epc Hsubs Hclosed Hok (Hh & Hl & [Hs1 Hs2] & Hsub).
  assert (Ep : pending s' = pending s) by (unfold pending, hand; by rewrite Eq, Epc). split_and!.
  - exact Hh.
  - unfold lock_inv. cbn. by rewrite El.
  - split; [|done]. cbn. intros i Hi. destruct (decide (i = id)) as [->|Hne]; [rewrite lookup_insert_eq; by exists s'|].
    rewrite lookup_insert_ne by done. apply Hs1. by apply Hsubs.
  - cbn. intros i si. destruct (decide (i = id)) as [->|Hne].
    + rewrite lookup_insert_eq. intros [= <-]. destruct (Hsub id s Es) as [Hi [Ho Hnd]]. split; [|unfold sub_owns; by rewrite Ep].
      unfold sub_inv. cbn. rewrite Ep. destruct (free_lag c id El) as [E1 E2]. unfold lag, waking_now in *. cbn. rewrite El. rewrite Nat.sub_0_r. by apply Hok.
    + rewrite lookup_insert_ne by done. intros Hi. destruct (Hsub i si Hi) as [Hi' Ho]. split; [|exact Ho]. unfold sub_inv in *. cbn.
      rewrite (bool_decide_ext _ _ (Hsubs i Hne)). exact Hi'.
Qed.

Lemma set_subs_same c : c <| c_subs := c_subs c |> = c.
Proof. by destruct c. Qed.

Lemma inv_join id c c' : join id c = Some c' -> capture_inv c -> capture_inv c'.
Proof.
  unfold join. destruct (c_lock c) eqn:El; [|done]. destruct (c_all c !! id) as [s|] eqn:Es; [|done]. destruct (s_joined s) eqn:Ej; [done|].
  assert (Hlen : length (contents c) = length (c_msgs c)) by (unfold contents; by rewrite length_map).
  destruct (c_closed c) eqn:Ec; intros [= <-] Hi.
  - rewrite (sub_set_insert id _ c s Es). rewrite <- (set_subs_same c) at 1. eapply inv_membership; try done.
    + destruct Hi as (_ & _ & [_ Hs2] & _). exact Hs2.
    + intros (Hj & A & B & C & D & F & G). rewrite Ej in Hj. destruct Hj as (J1 & J2 & J3 & J4). rewrite J2 in *. 
      assert (Hlv : leaving (s_pc s) = false) by (destruct (leaving (s_pc s)); [destruct (A (B eq_refl)); congruence|done]).
      split; [|split_and!; try done]. 
      * cbn. rewrite J4, Hlv, J3, segment_nil. split; [done|]. split; [lia|done].
      * intros X Y. destruct (G X Y) as [?|Hw]; [by left|]. destruct (free_lag c id El) as [_ E2]. congruence.
  - rewrite (sub_set_insert id _ _ s) by exact Es. eapply (inv_membership c id s _ ({[id]} ∪ c_subs c)); try done; [set_solver|by rewrite Ec|].
    intros (Hj & A & B & C & D & F & G). rewrite Ej in Hj. destruct Hj as (J1 & J2 & J3 & J4). rewrite J2 in *.
    assert (Hlv : leaving (s_pc s) = false) by (destruct (leaving (s_pc s)); [destruct (A (B eq_refl)); congruence|done]).
    split; [|split_and!; try done].
    + cbn. rewrite J1, Hlv, J3, bool_decide_true by set_solver. cbn. rewrite segment_nil. split; [done|]. split; [lia|done].
    + intros X Y. destruct (G X Y) as [?|Hw]; [by left|]. destruct (free_lag c id El) as [_ E2]. congruence.
Qed.

Lemma leave_ok msgs n m w w' vs s : sub_ok msgs n m w vs s -> is_Some (s_joined s) -> (w = true -> w' = true) -> sub_ok msgs n false w' vs (leave n s).
Proof.
  intros (Hj & A & B & C & D & F & G) [j Ej] Hw. split; [|split_and!; try done].
  - change (s_joined (leave n s)) with (s_joined s). rewrite Ej in *. destruct Hj as (H1 & H2 & H3). cbn. destruct (s_left s); cbn in *; (split; [done|]; split; [done|exact H3]).
  - intros H. cbn. destruct (A H) as [l ->]. by eexists.
  - intros X Y. destruct (G X Y); auto.
Qed.

Lemma inv_unsubscribe id c c' : unsubscribe id c = Some c' -> capture_inv c -> capture_inv c'.
Proof.
  unfold unsubscribe. destruct (c_lock c) eqn:El; [|done]. destruct (c_all c !! id) as [s|] eqn:Es; [|done]. cbn. destruct (s_joined s) eqn:Ej; [|done].
  intros [= <-] Hi. rewrite (sub_set_insert id _ _ s) by exact Es. eapply (inv_membership c id s _ (c_subs c ∖ {[id]})); try done; [set_solver|..].
  - intros H. destruct Hi as (_ & _ & [_ Hs2] & _). rewrite (Hs2 H). set_solver.
  - intros Hok. destruct (free_lag c id El) as [E1 E2]. unfold sub_inv in Hok. rewrite E1, E2, Nat.sub_0_r in Hok.
    rewrite bool_decide_false by set_solver. eapply leave_ok; [exact Hok|by eexists|done].
Qed.

(** ** Hand-overs, snapshots and edits *)

Lemma inv_receive id c c' : receive id c = Some c' -> capture_inv c -> capture_inv c'.
Proof.
  unfold receive. destruct (c_all c !! id) as [s|] eqn:Es; [|done]. destruct (s_pc s) as [| | |m| | | |] eqn:Ep; try done.
  intros [= <-] (Hh & Hl & [Hs1 Hs2] & Hsub). set (c1 := c <| c_forms ::= insert (m_Form m) (OReader, form_at c (m_Form m)) |>).
  rewrite (sub_set_insert id _ c1 s) by exact Es. set (s' := s <| s_taken ::= (fun l => l ++ [view c m]) |> <| s_pc := PCheck |>).
  set (c' := c1 <| c_all ::= insert id s' |>). destruct (Hsub id s Es) as [Hi [Ho Hnd]].
  assert (Epd : pending s = m :: pending s') by (unfold pending, hand; by rewrite Ep). rewrite Epd in Ho, Hnd.
  apply Forall_cons in Ho as [Hm Ho]. cbn [map] in Hnd. apply NoDup_cons in Hnd as [Hnm Hnd].
  assert (Hk : kept c c').
  { intros a o v Ha _. unfold owner_at in Hm. destruct (decide (a = m_Form m)) as [->|Hne].
    - exists OReader. cbn. rewrite lookup_insert_eq. unfold form_at. by rewrite Ha.
    - exists o. cbn. by rewrite lookup_insert_ne. }
  assert (Hown : forall a ow, owner_at c a = Some ow -> a <> m_Form m -> owner_at c' a = Some ow).
  { intros a ow Ha Hne. unfold owner_at. cbn. by rewrite lookup_insert_ne. }
  assert (Hh' : heap_inv c').
  { split; [|eapply Forall_impl; [apply Hh|]; cbn; intros x Hx; apply Hown; [done|]; intros Heq; rewrite Heq, Hm in Hx; done].
    intros a Ha. cbn. rewrite lookup_insert_ne; [by apply Hh|]. intros <-. unfold owner_at in Hm. rewrite (proj1 Hh) in Hm by exact Ha. done. }
  split_and!; [exact Hh'|..].
  - unfold lock_inv in *. cbn. destruct (c_lock c) as [|x rest [w|]]; [done| |done]. destruct Hl as (H1 & H2 & H3 & H4 & H5). split_and!; try done.
    apply lookup_insert_is_Some'. by right.
  - split; [|done]. cbn. intros i Hin. destruct (decide (i = id)) as [->|Hne].
    + rewrite lookup_insert_eq. exists s'. split; [done|]. destruct (Hs1 id Hin) as (s0 & E & ?). by simplify_eq.
    + rewrite lookup_insert_ne by done. by apply Hs1.
  - intros i si. change (c_all c') with (<[id := s']> (c_all c)). destruct (decide (i = id)) as [->|Hne].
    + rewrite lookup_insert_eq. intros [= <-].
      assert (Hrest : Forall (fun x => owner_at c' (m_Form x) = Some (OSub id)) (pending s')).
      { rewrite Forall_forall in Ho |- *. intros x Hx. apply Hown; [by apply Ho|]. intros Heq. apply Hnm. rewrite <- Heq.
        apply list_elem_of_In, in_map_iff. exists x. split; [done|]. by apply list_elem_of_In. }
      split; [|done]. unfold sub_inv in *. rewrite Epd in Hi. rewrite (contents_kept c c' Hk Hh eq_refl).
      rewrite (views_kept c c' (OSub id) (pending s') Hk) by done.
      change (lag c' id) with (lag c id). change (waking_now c' id) with (waking_now c id). change (c_msgs c') with (c_msgs c). change (c_subs c') with (c_subs c).
      destruct Hi as (Hj & A & B & C & D & F & G). rewrite Ep in Hj, B, C, D, F, G. split; [|split_and!; try done].
      cbn [map] in Hj. change (s_joined s') with (s_joined s). destruct (s_joined s); [|by destruct Hj as (_ & ? & _)]. cbn in *. destruct Hj as (J1 & J2 & J3).
      split; [done|]. split; [done|]. rewrite <- J3. by rewrite <- app_assoc.
    + rewrite lookup_insert_ne by done. intros Hsi. destruct (Hsub i si Hsi) as [Hi' [Ho' Hnd']]. split; [|split; [|done]].
      * unfold sub_inv in *. rewrite (contents_kept c c' Hk Hh eq_refl), (views_kept c c' (OSub i) _ Hk); done.
      * eapply Forall_impl; [exact Ho'|]. cbn. intros x Hx. apply Hown; [done|]. intros Heq. rewrite Heq, Hm in Hx. congruence.
Qed.

(** New forms are added, the others stay. *)
Definition grows (c c' : capture) : Prop :=
  (forall a x, c_forms c !! a = Some x -> c_forms c' !! a = Some x) /\ fresh_above c' /\
  c_msgs c' = c_msgs c /\ c_subs c' = c_subs c /\ c_closed c' = c_closed c /\ c_lock c' = c_lock c /\ c_all c' = c_all c /\ c_close c' = c_close c /\
  c_notify c' = c_notify c /\ c_notifying c' = c_notifying c /\ c_run c' = c_run c /\ c_now c' = c_now c.

Lemma inv_grows c c' : grows c c' -> capture_inv c -> capture_inv c'.
Proof.
  intros (Hf & Hfr & H1 & H2 & H3 & H4 & H5 & H6 & _) Hi. eapply inv_frame; try exact Hi; try done.
  - intros a o v Ha _. exists o. by apply Hf.
  - intros a ow Ha _. unfold owner_at in *. destruct (c_forms c !! a) as [x|] eqn:E; [|done]. by rewrite (Hf _ _ E).
  - unfold accepts. by rewrite H6.
Qed.

Lemma clones_grows o ms c : fresh_above c -> grows c (snd (clones o ms c)).
Proof.
  revert c. induction ms as [|m ms IH]; intros c Hf; [by split_and!|]. cbn [clones clone].
  match goal with |- context [clones o ms ?x] => set (c1 := x) end.
  assert (Hf1 : fresh_above c1) by (intros a Ha; cbn in *; rewrite lookup_insert_ne by lia; apply Hf; lia).
  destruct (IH c1 Hf1) as (I1 & I2 & Irest). destruct (clones o ms c1) as [ms' c2]. cbn [snd] in *. split; [|split; [done|exact Irest]].
  intros a x Ha. apply I1. cbn. rewrite lookup_insert_ne; [done|]. intros <-. rewrite Hf in Ha by lia. done.
Qed.

(** The snapshot shows what was recorded. *)
Lemma clones_view o ms c : fresh_above c -> Forall (fun m => is_Some (c_forms c !! m_Form m)) ms ->
  map (view (snd (clones o ms c))) (fst (clones o ms c)) = map (view c) ms.
Proof.
  intros Hf Hms. revert c Hf Hms. induction ms as [|m ms IH]; intros c Hf Hms; [done|]. cbn [clones clone].
  match goal with |- context [clones o ms ?x] => set (c1 := x) end.
  apply Forall_cons in Hms as [[[ow v] Hm] Hms].
  assert (Hf1 : fresh_above c1) by (intros a Ha; cbn in *; rewrite lookup_insert_ne by lia; apply Hf; lia).
  assert (Hkeep : forall a x, c_forms c !! a = Some x -> c_forms c1 !! a = Some x).
  { intros a x Ha. cbn. rewrite lookup_insert_ne; [done|]. intros <-. rewrite Hf in Ha by lia. done. }
  assert (Hms1 : Forall (fun m => is_Some (c_forms c1 !! m_Form m)) ms) by (eapply Forall_impl; [exact Hms|]; cbn beta; intros x [y Hy]; exists y; by apply Hkeep).
  pose proof (clones_grows o ms c1 Hf1) as (G1 & _). specialize (IH c1 Hf1 Hms1). destruct (clones o ms c1) as [ms' c2]. cbn [fst snd map] in *. f_equal.
  - unfold view, form_at. cbn. rewrite Hm. rewrite (G1 (c_next c) (o, v)); [done|]. cbn. rewrite lookup_insert_eq. unfold form_at. by rewrite Hm.
  - rewrite IH. clear -Hms Hkeep. induction Hms as [|x l [y Hx] _ IHl]; [done|]. cbn [map]. rewrite IHl. f_equal. unfold view, form_at. by rewrite Hx, (Hkeep _ _ Hx).
Qed.

Lemma Captured_view c : capture_inv c -> map (view (snd (Captured c))) (fst (Captured c)) = contents c.
Proof.
  intros ([Hf Hm] & _). apply clones_view; [done|]. eapply Forall_impl; [exact Hm|]. cbn beta. intros m H. unfold owner_at in H.
  destruct (c_forms c !! m_Form m); [by eexists|done].
Qed.

Lemma inv_edit a form c c' : edit a form c = Some c' -> capture_inv c -> capture_inv c'.
Proof.
  unfold edit. destruct (owner_at c a) as [[| |]|] eqn:E; try done. intros [= <-] Hi.
  assert (Ha : exists v, c_forms c !! a = Some (OReader, v)).
  { unfold owner_at in E. destruct (c_forms c !! a) as [[o v]|]; [|done]. injection E as ->. by exists v. }
  destruct Ha as [v Ha]. eapply inv_frame; try exact Hi; try done.
  - intros b o w Hb Ho. exists o. cbn. rewrite lookup_insert_ne; [done|]. intros <-. congruence.
  - intros b ow Hb Ho. unfold owner_at in *. cbn. rewrite lookup_insert_ne; [done|]. intros <-. rewrite Ha in Hb. cbn in Hb. congruence.
  - intros b Hb. cbn in *. rewrite lookup_insert_ne; [by apply Hi|]. intros <-. destruct Hi as ([Hf _] & _). rewrite Hf in Ha by exact Hb. done.
Qed.

(** ** Subscriptions only go forward *)

Definition sub_mono (s s' : subscription) : Prop :=
  (forall j, s_joined s = Some j -> s_joined s' = Some j) /\ (forall n, s_left s = Some n -> s_left s' = Some n) /\
  (s_stop s = true -> s_stop s' = true) /\ (s_done s = true -> s_done s' = true) /\
  (leaving (s_pc s) = true -> leaving (s_pc s') = true /\ s_taken s' = s_taken s) /\ s_taken s `prefix_of` s_taken s'.

Definition all_mono (c c' : capture) : Prop := forall id s, c_all c !! id = Some s -> exists s', c_all c' !! id = Some s' /\ sub_mono s s'.

Lemma sub_mono_refl s : sub_mono s s.
Proof. by split_and!. Qed.

Lemma all_mono_same c c' : c_all c' = c_all c -> all_mono c c'.
Proof. intros E id s Hs. exists s. rewrite E. split; [done|apply sub_mono_refl]. Qed.

Lemma all_mono_one c c' id s s' : c_all c !! id = Some s -> c_all c' = <[id := s']> (c_all c) -> sub_mono s s' -> all_mono c c'.
Proof.
  intros Es E Hm i si Hi. rewrite E. destruct (decide (i = id)) as [->|Hne].
  - rewrite lookup_insert_eq. exists s'. split; [done|]. by simplify_eq.
  - rewrite lookup_insert_ne by done. exists si. split; [done|apply sub_mono_refl].
Qed.

Lemma all_mono_alter c c' id f s : c_all c !! id = Some s -> c_all c' = alter f id (c_all c) -> sub_mono s (f s) -> all_mono c c'.
Proof.
  intros Es E. apply (all_mono_one c c' id s); [done|]. rewrite E. apply map_eq. intros i. destruct (decide (i = id)) as [->|].
  - by rewrite lookup_alter_eq, lookup_insert_eq, Es.
  - by rewrite lookup_alter_ne, lookup_insert_ne.
Qed.

Lemma pump_mono s s' : pump_moves s s' -> sub_mono s s'.
Proof.
  intros Hp. destruct (pump_flags s s' Hp) as (E1 & E2 & E3 & Hin & _). destruct (pump_pending s s' Hp) as [Ej _].
  split_and!; rewrite ?E1, ?E2, ?E3, ?Ej; try done; [|by auto].
  unfold pump_moves, pump_step, pump_woken, pump_stopped in Hp. intros Hd.
  destruct (s_pc s) eqn:E; destruct Hp as [H|[H|H]]; try done; repeat case_match; simplify_eq/=; auto.
Qed.

Lemma sub_step_mono f id c c' : (forall s s', f s = Some s' -> pump_moves s s') -> sub_step f id c = Some c' -> all_mono c c'.
Proof.
  intros Hf. unfold sub_step. destruct (c_all c !! id) as [s|] eqn:E; [|done]. cbn [mbind option_bind]. destruct (f s) as [s'|] eqn:Es; [|done].
  intros [= <-]. eapply all_mono_one; [exact E|done|]. by apply pump_mono, Hf.
Qed.

Lemma leave_mono n s : sub_mono s (leave n s).
Proof. split_and!; try done. cbn. by intros l ->. Qed.

Lemma mono_any_alter id f c : (forall s, c_all c !! id = Some s -> sub_mono s (f s)) -> all_mono c (sub_set id f c).
Proof.
  intros H. destruct (c_all c !! id) as [s|] eqn:E.
  - eapply all_mono_alter; [exact E|done|by apply H].
  - apply all_mono_same. unfold sub_set. cbn. apply map_eq. intros i. destruct (decide (i = id)) as [->|]; [by rewrite lookup_alter_eq, E|by rewrite lookup_alter_ne].
Qed.

Lemma mono_frame c c1 c' : c_all c1 = c_all c -> all_mono c1 c' -> all_mono c c'.
Proof. intros E H id s. rewrite <- E. apply H. Qed.

Lemma step_mono l c c' : capture_inv c -> capture_step l c = Some c' -> all_mono c c'.
Proof.
  intros Hi Hs. destruct l; cbn in Hs.
  - destruct (accepts c); [|done]. unfold record_message in Hs. repeat case_match; simplify_eq; by apply all_mono_same.
  - unfold enqueue in Hs. cbn [clone] in Hs. repeat case_match; simplify_eq. eapply mono_frame; [|apply mono_any_alter]; [done|]. intros ? _. by split_and!.
  - unfold enqueue_wake in Hs. repeat case_match; simplify_eq. eapply mono_frame; [|apply mono_any_alter]; [done|]. intros ? _. by split_and!.
  - unfold unlock in Hs. repeat case_match; simplify_eq; by apply all_mono_same.
  - unfold notify in Hs. repeat case_match; simplify_eq; by apply all_mono_same.
  - case_match eqn:E; [done|]. injection Hs as <-. intros i si H. exists si. split; [|apply sub_mono_refl]. cbn. rewrite lookup_insert_ne; [done|]. congruence.
  - unfold join in Hs. repeat case_match; simplify_eq; (eapply mono_frame; [|apply mono_any_alter]; [done|]); cbn; intros s' Hs'; simplify_eq; split_and!; cbn; try done; try congruence.
    intros n Hn. destruct Hi as (_ & _ & _ & Hsub). destruct (Hsub _ _ ltac:(eassumption)) as [(Hj & _) _]. rewrite H1 in Hj. destruct Hj. congruence.
  - unfold unsubscribe in Hs. repeat case_match; simplify_eq. eapply mono_frame; [|apply mono_any_alter]; [done|]. intros s _. apply leave_mono.
  - unfold end_sub in Hs. repeat case_match; simplify_eq. apply mono_any_alter. intros ? _. by split_and!.
  - eapply sub_step_mono; [|exact Hs]. intros. by left.
  - eapply sub_step_mono; [|exact Hs]. intros. right. by left.
  - eapply sub_step_mono; [|exact Hs]. intros. right. by right.
  - unfold receive in Hs. destruct (c_all c !! id) as [s|] eqn:Es; [|done]. destruct (s_pc s) eqn:Ep; try done. injection Hs as <-.
    eapply mono_frame; [|apply mono_any_alter]; [done|]. intros s' Hs'. cbn in Hs'. assert (s' = s) as -> by congruence. split_and!; try done; cbn; [by rewrite Ep|by eexists].
  - repeat case_match; simplify_eq. apply all_mono_same. apply clones_grows; exact (proj1 (proj1 Hi)).
  - unfold edit in Hs. repeat case_match; simplify_eq; by apply all_mono_same.
  - unfold close_step in Hs. repeat case_match; simplify_eq; try (by apply all_mono_same).
    + intros i s Hs. cbn. rewrite map_lookup_imap, Hs. cbn. eexists. split; [done|]. case_bool_decide; [apply leave_mono|apply sub_mono_refl].
    + eapply mono_frame; [|apply mono_any_alter]; [done|]. intros ? _. by split_and!.
  - assert (HC : c_all (snd (Captured c)) = c_all c) by (apply clones_grows; exact (proj1 (proj1 Hi))).
    unfold run_step in Hs. destruct (Captured c) as [ms c2]. cbn in HC. apply all_mono_same. repeat case_match; simplify_eq; done.
  - unfold run_gives_up in Hs. repeat case_match; simplify_eq; by apply all_mono_same.
Qed.

(** ** The shutdown and the waiter *)

Lemma inv_close pick c c' : (forall swept rest, c_close c = CSubs swept rest None -> pick ∈ rest -> exists s, c_all c !! pick = Some s /\ is_Some (s_left s)) ->
  close_step pick c = Some c' -> capture_inv c -> capture_inv c'.
Proof.
  intros Hp. unfold close_step. destruct (c_close c) as [| | |swept rest [w|]|swept] eqn:E; [| | | | |done].
  - intros [= <-] Hi. eapply inv_same; [..|exact Hi]; done.
  - destruct (c_lock c) eqn:El; [|done]. case_match; [|done]. intros [= <-] Hi. eapply inv_same; [..|exact Hi]; done.
  - destruct (c_lock c) eqn:El; [|done]. intros [= <-] (Hh & Hl & [Hs1 Hs2] & Hsub). split_and!.
    + exact Hh.
    + unfold lock_inv. cbn. by rewrite El.
    + split; [|done]. cbn. intros i Hi. set_solver.
    + intros id s. cbn. rewrite map_lookup_imap. destruct (c_all c !! id) as [s0|] eqn:Es; [|done]. cbn. intros [= <-].
      destruct (Hsub id s0 Es) as [Hi Ho]. destruct (free_lag c id El) as [E1 E2]. unfold sub_inv in *. rewrite E1, E2, Nat.sub_0_r in Hi.
      unfold lag, waking_now. cbn. rewrite El, Nat.sub_0_r. case_bool_decide as Hin.
      * split; [|exact Ho]. rewrite bool_decide_false by set_solver. eapply leave_ok; [exact Hi| |done]. destruct (Hs1 id Hin) as (s1 & Es1 & ?). by simplify_eq.
      * split; [|exact Ho]. rewrite bool_decide_false by set_solver. exact Hi.
  - repeat case_match; try done. intros [= <-] Hi. eapply inv_same; [..|exact Hi]; try done. unfold accepts. by rewrite E.
  - case_bool_decide.
    + intros [= <-] Hi. eapply inv_same; [..|exact Hi]; try done. unfold accepts. by rewrite E.
    + case_bool_decide as Hin; [|done]. intros [= <-] Hi. destruct (Hp swept rest eq_refl Hin) as (s & Es & Hlf).
      eapply inv_stop; [exact Es|exact Hlf|]. eapply inv_same; [..|exact Hi]; try done. unfold accepts. by rewrite E.
Qed.

Lemma run_keeps_inv c c' : run_step c = Some c' -> capture_inv c -> capture_inv c'.
Proof.
  intros Hs Hi. assert (HG : grows c (snd (Captured c))) by (apply clones_grows; exact (proj1 (proj1 Hi))).
  pose proof (inv_grows _ _ HG Hi) as Hi2. unfold run_step in Hs. destruct (Captured c) as [ms c2]. cbn [snd] in *.
  repeat case_match; simplify_eq; first [eapply inv_same; [..|exact Hi]; done | eapply inv_same; [..|exact Hi2]; done].
Qed.

(** The shutdown: what it swept has left, and is told to stop, and then done. *)
Definition close_inv (c : capture) : Prop :=
  match c_close c with
  | CSubs swept rest w => c_closed c = true /\ rest ⊆ swept /\
      forall id, id ∈ swept -> exists s, c_all c !! id = Some s /\ is_Some (s_left s) /\
        (id ∉ rest -> s_stop s = true /\ (w <> Some id -> s_done s = true))
  | CReturned swept => c_closed c = true /\ forall id, id ∈ swept -> exists s, c_all c !! id = Some s /\ s_done s = true
  | _ => c_closed c = false
  end.

Lemma close_frame c c' : all_mono c c' -> c_close c' = c_close c -> c_closed c' = c_closed c -> close_inv c -> close_inv c'.
Proof.
  intros Hm E1 E2. unfold close_inv. rewrite E1, E2. destruct (c_close c) as [| | |swept rest w|swept]; try done.
  - intros (H1 & H2 & H3). split_and!; try done. intros id Hid. destruct (H3 id Hid) as (s & Es & [l Hl] & Hst).
    destruct (Hm id s Es) as (s' & Es' & M1 & M2 & M3 & M4 & _). exists s'. split; [done|]. split; [exists l; by apply M2|].
    intros Hr. destruct (Hst Hr). auto.
  - intros [H1 H2]. split; [done|]. intros id Hid. destruct (H2 id Hid) as (s & Es & Hd). destruct (Hm id s Es) as (s' & Es' & M1 & M2 & M3 & M4 & _). exists s'. auto.
Qed.

Lemma close_inv_close pick c c' : capture_inv c -> close_step pick c = Some c' -> close_inv c -> close_inv c'.
Proof.
  intros Hi Hs Hc. assert (Hm : all_mono c c') by (by apply (step_mono (LClose pick))).
  unfold close_step, close_inv in *. destruct (c_close c) as [| | |swept rest [w|]|swept] eqn:E; [by simplify_eq| | | | |done].
  - repeat case_match; by simplify_eq.
  - destruct (c_lock c); [|done]. injection Hs as <-. cbn in *. split; [done|]. split; [done|]. intros id Hid. destruct Hi as (_ & _ & [Hs1 _] & _).
    destruct (Hs1 id Hid) as (s & Es & _). rewrite map_lookup_imap, Es. cbn. rewrite bool_decide_true by done. eexists. split; [done|]. split; [|done]. cbn. destruct (s_left s); by eexists.
  - destruct (c_all c !! w) as [sw|] eqn:Ew; [|done]. destruct (s_done sw) eqn:Ed; [|done]. injection Hs as <-. cbn. destruct Hc as (H1 & H2 & H3). split_and!; try done.
    intros id Hid. destruct (H3 id Hid) as (s & Es & Hl & Hst). exists s. split_and!; try done. intros Hr. destruct (Hst Hr). split; [done|]. intros _.
    destruct (decide (w = id)) as [->|Hne]; [congruence|]. auto with congruence.
  - destruct Hc as (H1 & H2 & H3). case_bool_decide as Er.
    + injection Hs as <-. cbn. split; [done|]. intros id Hid. destruct (H3 id Hid) as (s & Es & _ & Hst). exists s. split; [done|]. apply Hst; [set_solver|done].
    + case_bool_decide as Hin; [|done]. injection Hs as <-. cbn. split; [done|]. split; [set_solver|]. intros id Hid. destruct (H3 id Hid) as (s & Es & Hl & Hst).
      destruct (decide (id = pick)) as [->|Hne].
      * rewrite lookup_alter_eq, Es. eexists. split; [done|]. split; [done|]. done.
      * rewrite lookup_alter_ne by done. exists s. split_and!; try done. intros Hr. destruct Hst as [? Hd]; [set_solver|]. split; [done|]. intros _. by apply Hd.
Qed.

(** ** What every step keeps *)

Lemma grows_kept c c' : grows c c' -> kept c c'.
Proof. intros [H _] a o v Ha _. exists o. by apply H. Qed.

Lemma kept_forms c c' : c_forms c' = c_forms c -> kept c c'.
Proof. intros E a o v Ha _. exists o. by rewrite E. Qed.

Lemma step_msgs l c c' : capture_inv c -> capture_step l c = Some c' -> kept c c' /\
  (c_msgs c' = c_msgs c /\ c_now c' = c_now c \/
   exists m, c_msgs c' = c_msgs c ++ [m] /\ c_now c' = m_ReceivedAt m /\ (c_now c <= m_ReceivedAt m)%Z /\ c_lock c' <> Free /\ c_run c' = c_run c).
Proof.
  intros Hi Hs. assert (HG : grows c (snd (Captured c))) by (apply clones_grows; exact (proj1 (proj1 Hi))).
  destruct l; cbn in Hs.
  - destruct (accepts c); [|done]. unfold record_message in Hs. destruct form as [form|]; [|simplify_eq; split; [by apply kept_forms|by left]].
    destruct (c_lock c); [|done]. case_match eqn:Hn; [|done]. injection Hs as <-. split; [eapply kept_alloc; [apply Hi|done]|]. right. eexists. split; [done|]. cbn. apply Z.leb_le in Hn. done.
  - unfold enqueue in Hs. cbn [clone] in Hs. repeat case_match; simplify_eq. split; [|by left]. eapply kept_alloc; [apply Hi|]. reflexivity.
  - unfold enqueue_wake in Hs. repeat case_match; simplify_eq. split; [by apply kept_forms|by left].
  - unfold unlock in Hs. repeat case_match; simplify_eq. split; [by apply kept_forms|by left].
  - unfold notify in Hs. repeat case_match; simplify_eq. split; [by apply kept_forms|by left].
  - repeat case_match; simplify_eq. split; [by apply kept_forms|by left].
  - unfold join in Hs. repeat case_match; simplify_eq; (split; [by apply kept_forms|by left]).
  - unfold unsubscribe in Hs. repeat case_match; simplify_eq; (split; [by apply kept_forms|by left]).
  - unfold end_sub in Hs. repeat case_match; simplify_eq; (split; [by apply kept_forms|by left]).
  - unfold sub_step in Hs. destruct (c_all c !! id); [|done]. cbn in Hs. destruct (pump_step s); simplify_eq/=. split; [by apply kept_forms|by left].
  - unfold sub_step in Hs. destruct (c_all c !! id); [|done]. cbn in Hs. destruct (pump_woken s); simplify_eq/=. split; [by apply kept_forms|by left].
  - unfold sub_step in Hs. destruct (c_all c !! id); [|done]. cbn in Hs. destruct (pump_stopped s); simplify_eq/=. split; [by apply kept_forms|by left].
  - unfold receive in Hs. repeat case_match; simplify_eq. split; [|by left]. intros a o v Ha _. cbn. destruct (decide (a = m_Form next)) as [->|Hne].
    + exists OReader. rewrite lookup_insert_eq. unfold form_at. by rewrite Ha.
    + exists o. by rewrite lookup_insert_ne.
  - repeat case_match; simplify_eq. split; [by apply grows_kept|]. left. split; apply HG.
  - unfold edit in Hs. destruct (owner_at c a) as [[| |]|] eqn:E; try done. injection Hs as <-. split; [|by left]. intros b o w Hb Ho. exists o. cbn.
    rewrite lookup_insert_ne; [done|]. intros <-. unfold owner_at in E. rewrite Hb in E. cbn in E. congruence.
  - unfold close_step in Hs. repeat case_match; simplify_eq; (split; [by apply kept_forms|by left]).
  - unfold run_step in Hs. destruct (Captured c) as [ms c2] eqn:E. cbn [snd] in HG. pose proof (grows_kept _ _ HG) as HK. destruct HG as (_ & _ & G1 & _ & _ & _ & _ & _ & _ & _ & _ & G2).
    repeat case_match; simplify_eq; try (split; [by apply kept_forms|by left]); (split; [exact HK|by left]).
  - unfold run_gives_up in Hs. repeat case_match; simplify_eq; (split; [by apply kept_forms|by left]).
Qed.

Lemma contents_step l c c' : capture_inv c -> capture_step l c = Some c' -> exists k, contents c' = contents c ++ k.
Proof.
  intros Hi Hs. destruct (step_msgs l c c' Hi Hs) as [Hk [[E _]|(m & E & _)]].
  - exists []. rewrite app_nil_r. apply contents_kept; [done|apply Hi|done].
  - exists [view c' m]. unfold contents. rewrite E, map_app. f_equal. apply (views_kept c c' OServer); [done|done|apply Hi].
Qed.

(** Times never decrease along the record. *)
Definition time_inv (c : capture) : Prop :=
  (forall i j x y, (i <= j)%nat -> c_msgs c !! i = Some x -> c_msgs c !! j = Some y -> (m_ReceivedAt x <= m_ReceivedAt y)%Z) /\
  Forall (fun m => (m_ReceivedAt m <= c_now c)%Z) (c_msgs c).

Lemma time_step l c c' : capture_inv c -> capture_step l c = Some c' -> time_inv c -> time_inv c'.
Proof.
  intros Hi Hs [H1 H2]. destruct (step_msgs l c c' Hi Hs) as [_ [[E En]|(m & E & En & Hle & _)]]; unfold time_inv; rewrite E, En; [done|].
  rewrite Forall_forall in H2. assert (Hall : forall x, x ∈ c_msgs c -> (m_ReceivedAt x <= m_ReceivedAt m)%Z) by (intros x Hx; specialize (H2 x Hx); cbn in H2; lia). split.
  - intros i j x y Hij Hx Hy. apply lookup_app_Some in Hy as [Hy|[Hj Hy]].
    + apply (H1 i j); [done| |done]. rewrite lookup_app_l in Hx; [done|]. apply lookup_lt_Some in Hy. lia.
    + apply list_lookup_singleton_Some in Hy as [_ <-]. apply lookup_app_Some in Hx as [Hx|[_ Hx]].
      * apply Hall. by eapply list_elem_of_lookup_2.
      * apply list_lookup_singleton_Some in Hx as [_ <-]. lia.
  - apply Forall_app. split; [|by constructor]. apply Forall_forall. apply Hall.
Qed.

(** No wake-up is lost. *)
Definition run_inv (c : capture) : Prop :=
  match c_run c with
  | RPosting before | RWait before => (before <= length (c_msgs c))%nat /\
      ((before < length (c_msgs c))%nat -> c_notify c = true \/ (0 < c_notifying c)%nat \/ c_lock c <> Free)
  | RWoken before => (before <= length (c_msgs c))%nat
  | RGot before r => contents c !! before = Some r
  | RIdle | RGaveUp => True
  end.

(** The wake-ups that are pending, or to come. *)
Definition wakes (c : capture) : Prop := c_notify c = true \/ (0 < c_notifying c)%nat \/ c_lock c <> Free.

Lemma run_frame l c c' : capture_inv c -> capture_step l c = Some c' -> c_run c' = c_run c -> (wakes c -> wakes c') -> run_inv c -> run_inv c'.
Proof.
  intros Hi Hs Er Hw. destruct (contents_step l c c' Hi Hs) as [k Ek].
  destruct (step_msgs l c c' Hi Hs) as [_ [[E _]|(m & E & _ & _ & El & _)]]; unfold run_inv; rewrite Er; destruct (c_run c); try done; rewrite ?E, ?length_app; cbn [length].
  all: try (intros [H1 H2]; split; [lia|]; intros H; first [by apply Hw, H2|by right; right]).
  all: try (intros H; lia).
  all: intros H; rewrite Ek; by apply lookup_app_l_Some.
Qed.

Lemma run_inv_run c c' : capture_inv c -> run_step c = Some c' -> run_inv c -> run_inv c'.
Proof.
  intros Hi Hs Hr. pose proof (Captured_view c Hi) as Hv. assert (HG : grows c (snd (Captured c))) by (apply clones_grows; exact (proj1 (proj1 Hi))).
  unfold run_step in Hs. unfold run_inv in *. destruct (c_run c) as [|b|b|b|b r|] eqn:E; try (destruct (c_lock c); [|done]; simplify_eq; cbn; split; lia).
  - by simplify_eq.
  - destruct (c_notify c); [|done]. injection Hs as <-. cbn. apply Hr.
  - destruct (c_lock c); [|done]. pose proof (grows_kept _ _ HG) as HK. destruct (Captured c) as [ms c2]. cbn [fst snd] in *. destruct HG as (_ & _ & G1 & _).
    assert (Hc : contents c2 = contents c) by (apply contents_kept; [done|apply Hi|done]).
    destruct (ms !! b) as [m|] eqn:Em; injection Hs as <-; cbn.
    + transitivity (contents c2 !! b); [reflexivity|]. rewrite Hc, <- Hv. change (map (view c2) ms) with (view c2 <$> ms). by rewrite list_lookup_fmap, Em.
    + rewrite G1. split; [done|]. intros H. exfalso. apply lookup_ge_None in Em. apply (f_equal length) in Hv. unfold contents in Hv. rewrite !length_map in Hv. lia.
Qed.

Lemma run_inv_step l c c' : capture_inv c -> capture_step l c = Some c' -> run_inv c -> run_inv c'.
Proof.
  intros Hi Hs. destruct l; try (solve [intros Hr; apply (run_frame _ _ _ Hi Hs); [..|exact Hr]; cbn in Hs;
    unfold record_message, enqueue, enqueue_wake, unlock, notify, join, unsubscribe, end_sub, sub_step, receive, edit, close_step in Hs; cbn [clone] in Hs;
    try (destruct (c_all c !! id); [|done]; cbn in Hs); try (match type of Hs with (?f ?s ≫= _) = _ => destruct (f s); [|done]; cbn in Hs end);
    unfold wakes; repeat case_match; simplify_eq/=; first [done | tauto | intros; right; right; congruence | intros; right; left; lia]]).
  - intros Hr. cbn in Hs. destruct (c_lock c) eqn:El; [|done]. assert (HG : grows c (snd (Captured c))) by (apply clones_grows; exact (proj1 (proj1 Hi))).
    destruct HG as (_ & _ & G1 & _ & _ & G4 & _ & _ & G7 & G8 & G9 & _). injection Hs as Hs. rewrite Hs in *. eapply (run_frame LCaptured c c' Hi); [cbn; by rewrite El, Hs|done| |exact Hr]. unfold wakes. by rewrite G4, G7, G8.
  - assert (E : c_run c' = c_run c /\ c_notify c' = c_notify c /\ c_notifying c' = c_notifying c /\ c_lock c' = c_lock c).
    { cbn in Hs. unfold close_step in Hs. repeat case_match; simplify_eq; done. }
    destruct E as (E1 & E2 & E3 & E4). intros Hr. apply (run_frame _ _ _ Hi Hs); [done| |exact Hr]. unfold wakes. by rewrite E2, E3, E4.
  - intros Hr. by eapply run_inv_run.
  - unfold run_gives_up in Hs. cbn in Hs. unfold run_gives_up in Hs. intros _. repeat case_match; by simplify_eq.
Qed.

(** ** Reachable states *)

Definition inv (c : capture) : Prop := capture_inv c /\ close_inv c /\ time_inv c /\ run_inv c.

Lemma close_same l c c' : capture_step l c = Some c' -> (forall pick, l <> LClose pick) -> capture_inv c -> c_close c' = c_close c /\ c_closed c' = c_closed c.
Proof.
  intros Hs Hl Hi. assert (HG : grows c (snd (Captured c))) by (apply clones_grows; exact (proj1 (proj1 Hi))).
  destruct HG as (_ & _ & _ & _ & G3 & _ & _ & G6 & _).
  destruct l; try (by destruct (Hl pick)); cbn in Hs; unfold record_message, enqueue, enqueue_wake, unlock, notify, join, unsubscribe, end_sub, sub_step, receive, edit, run_step, run_gives_up in Hs; cbn [clone] in Hs.
  all: try (destruct (Captured c) as [ms c2]; cbn [snd] in *).
  all: try (destruct (c_all c !! id); [|done]; cbn in Hs); try (match type of Hs with (?f ?s ≫= _) = _ => destruct (f s); [|done]; cbn in Hs end).
  all: repeat case_match; simplify_eq/=; done.
Qed.

Lemma capture_inv_step l c c' : capture_step l c = Some c' -> capture_inv c -> close_inv c -> capture_inv c'.
Proof.
  intros Hs Hi Hc. destruct l; cbn in Hs.
  - destruct (accepts c) eqn:E; [|done]. by eapply inv_record.
  - by eapply inv_enqueue.
  - by eapply inv_wake.
  - by eapply inv_unlock.
  - unfold notify in Hs. case_match; [done|]. injection Hs as <-. eapply inv_same; [..|exact Hi]; done.
  - destruct (c_all c !! id) eqn:E; [done|]. injection Hs as <-. by apply inv_subscribe.
  - by eapply inv_join.
  - by eapply inv_unsubscribe.
  - unfold end_sub in Hs. destruct (c_all c !! id) as [s|] eqn:E; [|done]. cbn in Hs. case_match eqn:El; [|done]. injection Hs as <-. eapply inv_stop; [exact E|by rewrite El|done].
  - eapply inv_pump; [|exact Hs|done]. intros. by left.
  - eapply inv_pump; [|exact Hs|done]. intros. right. by left.
  - eapply inv_pump; [|exact Hs|done]. intros. right. by right.
  - by eapply inv_receive.
  - destruct (c_lock c); [|done]. injection Hs as <-. eapply inv_grows; [|exact Hi]. apply clones_grows. exact (proj1 (proj1 Hi)).
  - by eapply inv_edit.
  - eapply inv_close; [|exact Hs|done]. intros swept rest E Hin. unfold close_inv in Hc. rewrite E in Hc. destruct Hc as (_ & H2 & H3).
    destruct (H3 pick (H2 pick Hin)) as (s & Es & Hl & _). by exists s.
  - by eapply run_keeps_inv.
  - unfold run_gives_up in Hs. case_match; try done; injection Hs as <-; (eapply inv_same; [..|exact Hi]; done).
Qed.

Lemma step_keeps_inv l c c' : capture_step l c = Some c' -> inv c -> inv c'.
Proof.
  intros Hs (Hi & Hc & Ht & Hr). split_and!.
  - by eapply capture_inv_step.
  - assert (D : (exists pick, l = LClose pick) \/ forall pick, l <> LClose pick) by (destruct l; (by right) || (left; by eexists)).
    destruct D as [[pick ->]|Hl]; [by eapply close_inv_close|]. destruct (close_same l c c' Hs Hl Hi) as [E1 E2].
    eapply close_frame; [|exact E1|exact E2|exact Hc]. by eapply step_mono.
  - by eapply time_step.
  - by eapply run_inv_step.
Qed.

Lemma inv_reach ls c : capture_run ls newCapture = Some c -> inv c.
Proof.
  assert (H0 : inv newCapture) by (split; [apply capture_inv_new|repeat split; [by intros [|?]|constructor]]).
  revert H0. generalize newCapture as c0. induction ls as [|l ls IH]; intros c0 H0; cbn; [by intros [= <-]|].
  destruct (capture_step l c0) as [c1|] eqn:E; [|done]. cbn. apply IH. by eapply step_keeps_inv.
Qed.

(** C27: In every interleaving of posts, subscriptions, readers that edit what they were
    handed, snapshots and a shutdown, each subscriber has received, in order, a prefix of
    the messages recorded between its joining and its leaving, as recorded; with what is
    queued and in hand it is all of them while it has not been ended; once it is done its
    channel is closed and nothing is queued or received any more. *)
Theorem subscribers_receive_all ls c id s j :
  capture_run ls newCapture = Some c -> c_all c !! id = Some s -> s_joined s = Some j ->
  let upto := default (length (contents c) - lag c id)%nat (s_left s) in
  s_taken s `prefix_of` segment j upto (contents c) /\
  (s_stop s = false -> s_taken s ++ map (view c) (pending s) = segment j upto (contents c)) /\
  (s_done s = true -> s_out s = true /\ s_queue s = []) /\
  forall l c', capture_step l c = Some c' -> contents c `prefix_of` contents c' /\
    exists s', c_all c' !! id = Some s' /\ s_taken s `prefix_of` s_taken s' /\ (s_done s = true -> s_taken s' = s_taken s).
Proof.
  intros Hr Hid Hj upto. destruct (inv_reach ls c Hr) as (Hi & _). destruct Hi as (Hh & Hl & Hset & Hsub).
  destruct (Hsub id s Hid) as [Hok _]. unfold sub_inv, sub_ok in Hok. rewrite Hj in Hok. destruct Hok as ((J1 & J2 & J3) & A & B & C & D & F & G).
  assert (El : length (contents c) = length (c_msgs c)) by (unfold contents; by rewrite length_map). unfold upto. rewrite El. split_and!.
  - destruct (leaving (s_pc s)); [done|]. rewrite <- J3. by eexists.
  - intros Hs. destruct (leaving (s_pc s)); [by rewrite B in Hs|done].
  - intros Hd. rewrite D. rewrite F in Hd. split; [destruct (s_pc s); done|]. apply C. destruct (s_pc s); done.
  - intros l c' Hs. split; [destruct (contents_step l c c' ltac:(by split_and!) Hs) as [k ->]; by eexists|].
    destruct (step_mono l c c' ltac:(by split_and!) Hs id s Hid) as (s' & Es' & _ & _ & _ & _ & M5 & M6). exists s'. split; [done|]. split; [done|].
    intros Hd. apply M5. rewrite F in Hd. destruct (s_pc s); done.
Qed.

(** ** Pumps *)

(** Steps to the next hand-over, and to the end. *)
Definition feed_rank (s : subscription) : nat := match s_pc s with PLook => 1 | PCheck => 2 | PWait => 3 | _ => 0 end.
Definition end_rank (s : subscription) : nat :=
  match s_pc s with PReturned => 0 | PCloseDone => 1 | PCloseOut => 2 | PClear => 3 | PCheck => 4 | PWait | PHand _ => 5 | PLook => 6 end.

Definition pump_can (c : capture) (id : nat) (s' : subscription) : Prop := exists l c', capture_step l c = Some c' /\ c_all c' !! id = Some s'.

Lemma pump_moves_step c id s s' : c_all c !! id = Some s -> pump_moves s s' -> pump_can c id s'.
Proof.
  intros Es [H|[H|H]]; [exists (LPump id)|exists (LWoken id)|exists (LStopped id)]; eexists; cbn; unfold sub_step; rewrite Es; cbn; rewrite H; (split; [done|]);
    cbn; apply lookup_insert_eq.
Qed.

(** With the lock free a pump that has messages comes to offer the next one, and
    one that is told to stop comes to its end. *)
Theorem pumps_advance ls c id s :
  capture_run ls newCapture = Some c -> c_all c !! id = Some s ->
  (s_stop s = false -> c_lock c = Free -> pending s <> [] ->
   (exists m, s_pc s = PHand m) \/ exists s', pump_can c id s' /\ (feed_rank s' < feed_rank s)%nat) /\
  (s_stop s = true -> s_done s = true \/ exists s', pump_can c id s' /\ (end_rank s' < end_rank s)%nat).
Proof.
  intros Hr Hid. destruct (inv_reach ls c Hr) as ((Hh & Hl & Hset & Hsub) & _). destruct (Hsub id s Hid) as [(Hj & A & B & C & D & F & G) _].
  assert (Hgo : forall s', pump_moves s s' -> pump_can c id s') by (intros s'; by apply pump_moves_step).
  unfold pump_moves, pump_step, pump_woken, pump_stopped, feed_rank, end_rank, pending, hand in *. split.
  - intros Hs El Hp. destruct (s_pc s) as [| | |m| | | |] eqn:E; try (by discriminate (eq_trans (eq_sym Hs) (B eq_refl))).
    + right. eexists. split; [apply Hgo; by left|]. rewrite Hs. cbn. lia.
    + right. destruct (s_queue s) as [|m q] eqn:Eq; [done|]. eexists. split; [apply Hgo; left; done|]. cbn. lia.
    + right. destruct (free_lag c id El) as [_ Ew]. assert (Hw : s_wake s = true) by (destruct (G eq_refl Hp); congruence).
      eexists. split; [apply Hgo; right; left; by rewrite Hw|]. cbn. lia.
    + left. by exists m.
  - intros Hs. destruct (s_pc s) as [| | |m| | | |] eqn:E; rewrite ?Hs in Hgo.
    8: by left.
    all: right.
    2: destruct (s_queue s); (eexists; split; [apply Hgo; left; done|]; cbn; lia).
    all: eexists; split; [apply Hgo; first [by left|by right; right]|]; cbn; lia.
Qed.

(** ** Before and after a snapshot *)

Lemma filter_none {A} (P : A -> Prop) `{forall x, Decision (P x)} l : Forall (fun x => ~ P x) l -> filter P l = [].
Proof. induction 1 as [|x l Hx _ IH]; [done|]. by rewrite filter_cons_False. Qed.

Lemma filter_all {A} (P : A -> Prop) `{forall x, Decision (P x)} l : Forall P l -> filter P l = l.
Proof. induction 1 as [|x l Hx _ IH]; [done|]. rewrite filter_cons_True by done. by rewrite IH. Qed.

Lemma segment_lookup {A} j n (l : list A) i y : segment j n l !! i = Some y -> l !! (j + i)%nat = Some y /\ (j + i < n)%nat.
Proof. unfold segment. intros H. apply lookup_take_Some in H as [H Hi]. rewrite lookup_drop in H. split; [done|lia]. Qed.

(** A subscriber that joined at [j] took a snapshot of [n] messages later and
    has [m] messages to look at: skipping every delivery received no later than
    the snapshot's last keeps none twice, and loses none if the clock told the
    next one apart. *)
Theorem snapshot_recipe ls c j n m x :
  capture_run ls newCapture = Some c -> (j <= n <= m)%nat -> (m <= length (contents c))%nat -> contents c !! (n - 1)%nat = Some x ->
  let kept := filter (fun y => (ReceivedAt x < ReceivedAt y)%Z) (segment j m (contents c)) in
  kept `sublist_of` segment n m (contents c) /\
  ((forall y, contents c !! n = Some y -> (ReceivedAt x < ReceivedAt y)%Z) -> kept = segment n m (contents c)).
Proof.
  intros Hr Hj Hm Hx kept. destruct (inv_reach ls c Hr) as (_ & _ & [Ht _] & _).
  assert (Hle : forall i k y z, (i <= k)%nat -> contents c !! i = Some y -> contents c !! k = Some z -> (ReceivedAt y <= ReceivedAt z)%Z).
  { intros i k y z Hik Hy Hz. unfold contents in Hy, Hz. change (map (view c) (c_msgs c)) with (view c <$> c_msgs c) in Hy, Hz.
    rewrite list_lookup_fmap in Hy, Hz. destruct (c_msgs c !! i) eqn:E1; [|done]. destruct (c_msgs c !! k) eqn:E2; [|done]. injection Hy as <-. injection Hz as <-. cbn. by eapply Ht. }
  assert (Hsplit : segment j m (contents c) = segment j n (contents c) ++ segment n m (contents c)).
  { unfold segment. rewrite <- (take_drop (n - j) (take (m - j) (drop j (contents c)))). rewrite take_take, skipn_firstn_comm, drop_drop. f_equal; f_equal; [lia|lia|f_equal; lia]. }
  assert (Hold : filter (fun y => (ReceivedAt x < ReceivedAt y)%Z) (segment j n (contents c)) = []).
  { apply filter_none, Forall_lookup. intros i y Hy. apply segment_lookup in Hy as [Hy Hi]. specialize (Hle (j + i)%nat (n - 1)%nat y x ltac:(lia) Hy Hx). lia. }
  unfold kept. rewrite Hsplit, filter_app, Hold. cbn [app]. split; [apply sublist_filter|].
  intros Hn. apply filter_all, Forall_lookup. intros i y Hy. apply segment_lookup in Hy as [Hy Hi].
  destruct (lookup_lt_is_Some_2 (contents c) n) as [z Hz]; [apply lookup_lt_Some in Hy; lia|]. specialize (Hn z Hz). specialize (Hle n (n + i)%nat z y ltac:(lia) Hz Hy). lia.
Qed.

(** ** The wait for a reply *)

(** A reply is the first message recorded after the wait began; a message that
    has arrived has its wake-up pending once its handler is through, and the
    next two steps of the wait return the reply. *)
Theorem reply_found ls c :
  capture_run ls newCapture = Some c ->
  (forall before r, c_run c = RGot before r -> contents c !! before = Some r) /\
  (forall before, c_run c = RWait before -> (before < length (contents c))%nat -> c_lock c = Free -> c_notifying c = O ->
   exists c1 c2 r, capture_step LRun c = Some c1 /\ capture_step LRun c1 = Some c2 /\ c_run c2 = RGot before r /\ contents c !! before = Some r).
Proof.
  intros Hr. pose proof (inv_reach ls c Hr) as Hinv. assert (H1 : forall c, inv c -> forall b r, c_run c = RGot b r -> contents c !! b = Some r).
  { clear. intros c (_ & _ & _ & Hr) b r E. unfold run_inv in Hr. by rewrite E in Hr. }
  split; [by apply H1|]. intros b Hb Hlt El En. pose proof Hinv as (_ & _ & _ & Hrun).
  assert (Hlen : length (contents c) = length (c_msgs c)) by (unfold contents; by rewrite length_map).
  unfold run_inv in Hrun. rewrite Hb in Hrun. destruct Hrun as [_ Hw]. rewrite <- Hlen in Hw. destruct (Hw Hlt) as [Hn|[Hn|Hn]]; [|lia|done].
  set (c1 := c <| c_notify := false |> <| c_run := RWoken b |>). assert (E1 : capture_step LRun c = Some c1) by (cbn; unfold run_step; by rewrite Hb, Hn).
  assert (I1 : inv c1) by (by eapply step_keeps_inv).
  pose proof (Captured_view c1 (proj1 I1)) as Hv. change (contents c1) with (contents c) in Hv.
  destruct (Captured c1) as [ms c2] eqn:EC. cbn [fst snd] in Hv. destruct (lookup_lt_is_Some_2 ms b) as [m Hm].
  { apply (f_equal length) in Hv. rewrite length_map in Hv. lia. }
  exists c1, (c2 <| c_run := RGot b (view c2 m) |>), (view c2 m). split; [exact E1|]. split; [|split; [done|]].
  - cbn [capture_step]. unfold run_step. change (c_run c1) with (RWoken b). change (c_lock c1) with (c_lock c). by rewrite El, EC, Hm.
  - rewrite <- Hv. change (map (view c2) ms) with (view c2 <$> ms). by rewrite list_lookup_fmap, Hm.
Qed.

(** ** The shutdown *)

(** Once [Close] has returned, every subscription its sweep took is done, and
    nothing is recorded any more. *)
Lemma closed_done ls c swept : capture_run ls newCapture = Some c -> c_close c = CReturned swept ->
  (forall id, id ∈ swept -> exists s, c_all c !! id = Some s /\ s_done s = true) /\
  (forall path form now, capture_step (LRecord path form now) c = None) /\ c_subs c = ∅.
Proof.
  intros Hr E. destruct (inv_reach ls c Hr) as ((_ & _ & [_ Hs] & _) & Hc & _). unfold close_inv in Hc. rewrite E in Hc. destruct Hc as [Hc1 Hc2].
  split; [done|]. split; [|by apply Hs]. intros path form now. cbn. unfold accepts. by rewrite E.
Qed.

(** ** Example runs *)

Definition ex_path : string := "/2010-04-01/Accounts/AC1/Messages.json".
Definition ex_form (body : string) : Values := <["Body" := [body]]> (<["To" := ["+15105550001"]]> ∅).

(** A message is received and its form cleared by its reader, and a second one
    is on its way. *)
Definition ex_feed : list clabel :=
  [LSubscribe 7; LRecord ex_path (Some (ex_form "before")) 5; LUnlock; LJoin 7; LRecord ex_path (Some (ex_form "one")) 10; LEnqueue 7; LWake; LUnlock; LNotify;
   LPump 7; LPump 7; LReceive 7; LEdit 2 ∅; LRecord ex_path (Some (ex_form "two")) 12; LEnqueue 7; LWake; LUnlock].
Definition ex_fed : capture := default newCapture (capture_run ex_feed newCapture).
Definition ex_sub : subscription := default newSubscription (c_all ex_fed !! 7%nat).

Lemma subscribers_receive_all_witness :
  map msg_Body (s_taken ex_sub) = ["one"] /\ map AccountSID (contents ex_fed) = ["AC1"; "AC1"; "AC1"] /\
  s_taken ex_sub ++ map (view ex_fed) (pending ex_sub) = segment 1 3 (contents ex_fed).
Proof.
  split; [vm_compute; reflexivity|]. split; [vm_compute; reflexivity|].
  pose proof (subscribers_receive_all ex_feed ex_fed 7 ex_sub 1) as H. cbv zeta in H.
  replace (default (length (contents ex_fed) - lag ex_fed 7)%nat (s_left ex_sub)) with 3%nat in H by (vm_compute; reflexivity).
  refine (proj1 (proj2 (H _ _ _)) _); vm_compute; reflexivity.
Defined.

(** An unsubscribe that has left the set and not ended its subscription yet:
    [Close] does not wait for it, and a message is delivered after it returned. *)
Definition ex_race : list clabel :=
  [LSubscribe 7; LJoin 7; LRecord ex_path (Some (ex_form "late")) 5; LEnqueue 7; LWake; LUnlock; LNotify; LUnsubscribe 7; LClose 0; LClose 0; LClose 0; LClose 0].

Lemma close_before_unsubscribe_ends : exists c c' s s',
  capture_run ex_race newCapture = Some c /\ c_close c = CReturned ∅ /\ c_all c !! 7%nat = Some s /\ s_done s = false /\ s_taken s = [] /\
  capture_run [LPump 7; LPump 7; LReceive 7] c = Some c' /\ c_all c' !! 7%nat = Some s' /\ map msg_Body (s_taken s') = ["late"].
Proof. eexists _, _, _, _. repeat (split; [vm_compute; reflexivity|]). vm_compute. reflexivity. Qed.
