(* ===== verification/Rest.v ===== *)
(** * Rest: forms on the wire

    The urlencoded forms the program posts and reads: [PostSignedForm] of
    [telephony/twilio/signature.go] and the webhooks signed with it
    ([smsfake/webhook.go], [cmd/twilio-cli/webhook.go]), the REST client of
    [rest.go], and the answer of the capture server.  [url.Values.Encode] and
    [ParseForm]'s [parseQuery] are written out; what the HTTP client brings back
    is an argument. *)

From S2P Require Export Capture Json.
From S2P Require Export JsonThms StreamWire.

Local Open Scope N_scope.

(** ** net/url *)

Definition unreserved (b : N) : bool :=
  between 48 57 b || between 65 90 b || between 97 122 b || (b =? 45) || (b =? 95) || (b =? 46) || (b =? 126).

Definition upper_hex (n : N) : N := if n <? 10 then 48 + n else 55 + n.

Definition escape_query (b : N) : list N :=
  if b =? 32 then [43] else if unreserved b then [b] else [37; upper_hex (b / 16); upper_hex (b mod 16)].

Definition QueryEscape (s : string) : list N := concat (map escape_query (str_bytes s)).

Fixpoint unescape_query (l : list N) : option (list N) :=
  match l with
  | [] => Some []
  | 37 :: h :: l :: r => a ← hex_val h; b ← hex_val l; cons (a * 16 + b) <$> unescape_query r
  | 37 :: _ => None
  | b :: r => cons (if b =? 43 then 32 else b) <$> unescape_query r
  end.

Definition QueryUnescape (l : list N) : option string := bytes_str <$> unescape_query l.

(** The pairs in [Encode]'s order. *)
Definition form_pairs (v : Values) : list (string * string) :=
  concat (map (fun k => map (pair k) (default [] (v !! k))) (merge_sort string_le (map fst (map_to_list v)))).

Definition encode_pair (p : string * string) : list N := QueryEscape (fst p) ++ 61 :: QueryEscape (snd p).

Fixpoint join_amp (ls : list (list N)) : list N :=
  match ls with [] => [] | [l] => l | l :: ls => l ++ 38 :: join_amp ls end.

Definition Encode (v : Values) : list N := join_amp (map encode_pair (form_pairs v)).

(** [strings.Cut] at a byte, and the pieces between its occurrences. *)
Fixpoint cut_at (sep : N) (l : list N) : list N * list N :=
  match l with [] => ([], []) | b :: l => if b =? sep then ([], l) else let '(k, v) := cut_at sep l in (b :: k, v) end.

Fixpoint pieces (sep : N) (l : list N) : list (list N) :=
  match l with
  | [] => [[]]
  | b :: l => if b =? sep then [] :: pieces sep l else match pieces sep l with p :: ps => (b :: p) :: ps | [] => [[b]] end
  end.

(** One setting of [parseQuery]; [None] is its error. *)
Definition add_pair (m : option Values) (piece : list N) : option Values :=
  m ← m;
  if existsb (N.eqb 59) piece then None
  else if bool_decide (piece = []) then Some m
  else
    let '(k, v) := cut_at 61 piece in
    k ← QueryUnescape k; v ← QueryUnescape v;
    Some (<[k := default [] (m !! k) ++ [v]]> m).

Definition parseQuery (query : list N) : option Values := foldl add_pair (Some ∅) (pieces 38 query).

Definition maxFormSize : N := 10485760.

(** The query of a request's URI. *)
Definition raw_query (uri : string) : list N := snd (cut_at 63 (str_bytes uri)).

(** [ParseForm] of a urlencoded POST to [uri], and the [PostForm] it leaves: the
    body's pairs alone, but a query that does not parse is an error too. *)
Definition ParseForm (uri : string) (body : list N) : option Values :=
  if maxFormSize <? N.of_nat (length body) then None
  else form ← parseQuery body; _ ← parseQuery (raw_query uri); Some form.

(** ** Signed webhooks *)

(** What the client brought back: the status of the redirect it gave up on, or
    a response, its body as far as it could be read. *)
Inductive answer := NoAnswer (last : option Z) | Answer (code : Z) (body : list N) (read_ok : bool).

Inductive post_error := ErrBuild | ErrPost | ErrRead | ErrStatus.

Record post := mkPost { p_url : string; p_contentType : string; p_signature : string; p_body : list N }.

Definition signed_post (webhookURL authToken : string) (form : Values) : post :=
  mkPost webhookURL "application/x-www-form-urlencoded" (ComputeSignature authToken webhookURL form) (Encode form).

(** [None] for [do] is a URL no request can be built for. *)
Definition PostSignedForm (webhookURL authToken : string) (form : Values) (do : option (post -> answer)) : Z * list N * option post_error :=
  match do with
  | None => (0%Z, [], Some ErrBuild)
  | Some do =>
      match do (signed_post webhookURL authToken form) with
      | NoAnswer last => (default 0%Z last, [], Some ErrPost)
      | Answer code body read_ok =>
          (code, body, if negb read_ok then Some ErrRead else if negb (code =? 200)%Z then Some ErrStatus else None)
      end
  end.

(** The request a server reads of it. *)
Definition post_request (p : post) (host uri : string) : request := mkRequest (ParseForm uri (p_body p)) (p_signature p) host uri.

Definition form_of (l : list (string * string)) : Values := list_to_map (map (fun p => (fst p, [snd p])) l).

Definition DefaultAccountSID : string := "ACtwiliocli0000000000000000000000".
Definition DefaultAPIVersion : string := "2010-04-01".

Definition InboundForm (accountSID apiVersion messageSID from to body : string) : Values :=
  form_of [("MessageSid", messageSID); ("SmsMessageSid", messageSID); ("SmsSid", messageSID); ("AccountSid", accountSID);
           ("From", from); ("To", to); ("Body", body); ("ApiVersion", apiVersion)].

Definition PostWebhook := PostSignedForm.

Definition defaultCallStatus : string := "ringing".
Definition defaultDirection : string := "inbound".
Definition defaultCallerName : string := "Anonymous".

Definition webhookForm (callSid from to : string) : Values :=
  form_of [("CallSid", callSid); ("AccountSid", DefaultAccountSID); ("From", from); ("To", to); ("CallStatus", defaultCallStatus);
           ("Direction", defaultDirection); ("ApiVersion", DefaultAPIVersion); ("Caller", from); ("Called", to); ("CallerName", defaultCallerName)].

(** [fetchStreamURL], with what [parseStreamURL] makes of a document. *)
Definition fetchStreamURL (parseStreamURL : list N -> option string) (webhookURL authToken callSid from to : string) (do : option (post -> answer)) : option string :=
  match PostSignedForm webhookURL authToken (webhookForm callSid from to) do with
  | (_, body, None) => parseStreamURL body
  | _ => None
  end.

(** ** The REST client *)

Definition defaultBaseURL : string := "https://api.twilio.com".
Definition maxResponseBody : nat := N.to_nat 65536.

Record RESTClient := mkREST { r_AccountSID : string; r_KeySID : string; r_KeySecret : string; BaseURL : string }.
Record OutboundSMS := mkOutbound { o_From : string; o_To : string; o_Body : string; o_StatusCallback : string; o_MediaURL : string }.

Definition sms_form (msg : OutboundSMS) : Values :=
  let form := form_of [("From", o_From msg); ("To", o_To msg); ("Body", o_Body msg)] in
  let form := if bool_decide (o_StatusCallback msg ≠ "") then <["StatusCallback" := [o_StatusCallback msg]]> form else form in
  if bool_decide (o_MediaURL msg ≠ "") then <["MediaUrl" := [o_MediaURL msg]]> form else form.

Definition messages_path (accountSID : string) : string := "/2010-04-01/Accounts/" +:+ accountSID +:+ "/Messages.json".

(** The id an answer's body gives: a value of the wrong type is passed over. *)
Definition sent_sid (body : list N) : string :=
  match Unmarshal body with
  | Some (JObj ms) =>
      foldl (fun sid m => match field_of ["sid"] (fst m), snd m with Some _, JStr s => s | _, _ => sid end) "" ms
  | _ => ""
  end.

Inductive send_error := ErrBuildRequest | ErrSend | ErrSendStatus (code : Z) (body : list N).

(** [do] is given the endpoint, the credentials and the body. *)
Definition SendSMS (c : RESTClient) (msg : OutboundSMS) (do : option (string -> string * string -> list N -> answer)) : string * option send_error :=
  let base := if bool_decide (BaseURL c = "") then defaultBaseURL else BaseURL c in
  match do with
  | None => ("", Some ErrBuildRequest)
  | Some do =>
      match do (base +:+ messages_path (r_AccountSID c)) (r_KeySID c, r_KeySecret c) (Encode (sms_form msg)) with
      | NoAnswer _ => ("", Some ErrSend)
      | Answer code body _ =>
          let body := take maxResponseBody body in
          if (code <? 200)%Z || (300 <=? code)%Z then ("", Some (ErrSendStatus code body)) else (sent_sid body, None)
      end
  end.

(** ** The capture server's side of it *)

(** [NewSID] of 16 random bytes. *)
Definition NewSID (prefix : string) (random : list N) : string :=
  prefix +:+ bytes_str (concat (map (fun b => [hex_digit (b / 16); hex_digit (b mod 16)]) random)).

(** What [handleMessages] answers. *)
Definition capture_answer (random : list N) (form : option Values) : answer :=
  match form with
  | None => Answer 400 (str_bytes "Bad Request" ++ [10]) true
  | Some _ => Answer 201 (Marshal (JObj [("sid", JStr (NewSID "SM" random)); ("status", JStr "queued")]) ++ [10]) true
  end.

(** ** Theorems: a posted form is read back, a signed one is admitted

    What [Encode] writes [parseQuery] reads, so a server with the sender's token
    admits a signed webhook sent to its own URL, and the capture server records
    what the REST client sent and hands it its id back. *)

Local Open Scope N_scope.

(** ** Escaping *)

Lemma hex_val_upper n : n < 16 -> hex_val (upper_hex n) = Some n.
Proof. intros H. unfold upper_hex, hex_val, between. destruct (N.ltb_spec n 10); repeat case_match; rewrite ?andb_true_iff, ?andb_false_iff, ?N.leb_le, ?N.leb_gt in *; f_equal; lia. Qed.

Lemma escape_safe b : b < 256 -> Forall (fun x => x <> 38 /\ x <> 59 /\ x <> 61) (escape_query b).
Proof.
  intros H. unfold escape_query. destruct (N.eqb_spec b 32); [by repeat constructor|]. destruct (unreserved b) eqn:E.
  - constructor; [|done]. unfold unreserved, between in E. repeat split; intros ->; done.
  - assert (Hh : forall n, n < 16 -> 48 <= upper_hex n <= 70 /\ (upper_hex n <= 57 \/ 65 <= upper_hex n)) by (intros x Hx; unfold upper_hex; destruct (N.ltb_spec x 10); lia).
    destruct (Hh (b / 16)) as [? ?]; [apply N.Div0.div_lt_upper_bound; lia|]. destruct (Hh (b mod 16)) as [? ?]; [by apply N.mod_lt|].
    repeat constructor; lia.
Qed.

Lemma unescape_cons b r : b < 256 -> unescape_query (escape_query b ++ r) = cons b <$> unescape_query r.
Proof.
  intros H. unfold escape_query. destruct (N.eqb_spec b 32) as [->|Hb]; [done|]. destruct (unreserved b) eqn:E.
  - cbn [app]. assert (H37 : b <> 37) by (intros ->; done). assert (H43 : b <> 43) by (intros ->; done).
    cbn [unescape_query]. destruct b as [|p]; [done|]. rewrite (proj2 (N.eqb_neq _ _) H43).
    do 6 (destruct p as [p|p|]; try done).
  - assert (H1 : b / 16 < 16) by (apply N.Div0.div_lt_upper_bound; lia). assert (H2 : b mod 16 < 16) by (by apply N.mod_lt).
    cbn [app unescape_query]. rewrite (hex_val_upper _ H1), (hex_val_upper _ H2). cbn [mbind option_bind].
    replace (b / 16 * 16 + b mod 16) with b by (rewrite (N.div_mod b 16) at 1; lia). done.
Qed.

Lemma unescape_escape l : Forall (fun b => b < 256) l -> unescape_query (concat (map escape_query l)) = Some l.
Proof. induction 1 as [|b l Hb _ IH]; [done|]. cbn [map concat]. by rewrite unescape_cons, IH. Qed.

Lemma QueryUnescape_escape s : QueryUnescape (QueryEscape s) = Some s.
Proof. unfold QueryUnescape, QueryEscape. rewrite unescape_escape by apply str_bytes_wf. cbn. by rewrite bytes_str_bytes. Qed.

Lemma QueryEscape_safe s : Forall (fun x => x <> 38 /\ x <> 59 /\ x <> 61) (QueryEscape s).
Proof. unfold QueryEscape. apply Forall_concat, Forall_map. eapply Forall_impl; [apply str_bytes_wf|]. cbn. apply escape_safe. Qed.

(** ** Pieces *)

Lemma cut_at_app sep k v : Forall (fun x => x <> sep) k -> cut_at sep (k ++ sep :: v) = (k, v).
Proof.
  induction 1 as [|b k Hb _ IH]; cbn [app cut_at]; [by rewrite N.eqb_refl|]. by rewrite (proj2 (N.eqb_neq _ _) Hb), IH.
Qed.

Lemma pieces_one sep l : Forall (fun x => x <> sep) l -> pieces sep l = [l].
Proof. induction 1 as [|b l Hb _ IH]; [done|]. cbn. by rewrite (proj2 (N.eqb_neq _ _) Hb), IH. Qed.

Lemma pieces_sep sep l r : Forall (fun x => x <> sep) l -> pieces sep (l ++ sep :: r) = l :: pieces sep r.
Proof. induction 1 as [|b l Hb _ IH]; cbn [app pieces]; [by rewrite N.eqb_refl|]. by rewrite (proj2 (N.eqb_neq _ _) Hb), IH. Qed.

Lemma pieces_join ls : ls <> [] -> Forall (Forall (fun x => x <> 38)) ls -> pieces 38 (join_amp ls) = ls.
Proof.
  intros Hne H. revert Hne. induction H as [|l ls Hl Hls IH]; intros Hne; [done|]. destruct ls as [|l' ls]; [by apply pieces_one|].
  change (join_amp (l :: l' :: ls)) with (l ++ 38 :: join_amp (l' :: ls)). rewrite pieces_sep by done. by rewrite IH.
Qed.

Lemma encode_pair_safe p : Forall (fun x => x <> 38 /\ x <> 59) (encode_pair p).
Proof.
  unfold encode_pair. apply Forall_app. split; [|constructor; [done|]]; (eapply Forall_impl; [apply QueryEscape_safe|]); cbn; tauto.
Qed.

Lemma add_encoded m p : add_pair (Some m) (encode_pair p) = Some (<[fst p := default [] (m !! fst p) ++ [snd p]]> m).
Proof.
  unfold add_pair. cbn [mbind option_bind].
  assert (E : existsb (N.eqb 59) (encode_pair p) = false).
  { apply not_true_iff_false. intros H. apply existsb_exists in H as (x & Hx & Heq). apply N.eqb_eq in Heq as <-.
    pose proof (encode_pair_safe p) as Hs. rewrite List.Forall_forall in Hs. destruct (Hs 59 Hx). done. }
  rewrite E, bool_decide_false by (unfold encode_pair; by destruct (QueryEscape (fst p))).
  unfold encode_pair at 1. rewrite cut_at_app by (eapply Forall_impl; [apply QueryEscape_safe|]; cbn; tauto).
  rewrite !QueryUnescape_escape. done.
Qed.

(** ** Forms *)

Definition add_value (m : Values) (p : string * string) : Values := <[fst p := default [] (m !! fst p) ++ [snd p]]> m.
Definition values_of (k : string) (ps : list (string * string)) : list string := map snd (filter (fun p => fst p = k) ps).

Lemma add_values ps m k : foldl add_value m ps !! k = if bool_decide (values_of k ps = []) then m !! k else Some (default [] (m !! k) ++ values_of k ps).
Proof.
  revert m. induction ps as [|p ps IH]; intros m; [done|]. cbn [foldl]. rewrite IH. unfold add_value. unfold values_of in *. rewrite filter_cons.
  destruct (decide (fst p = k)) as [<-|Hne].
  - rewrite lookup_insert_eq. cbn. case_bool_decide as E; cbn; [by rewrite E|]. rewrite <- app_assoc. done.
  - by rewrite lookup_insert_ne.
Qed.

(** Every list of values has one. *)
Definition form_ok (v : Values) : bool := forallb (fun p => negb (bool_decide (snd p = []))) (map_to_list v).

Lemma form_ok_lookup v k l : form_ok v = true -> v !! k = Some l -> l <> [].
Proof.
  unfold form_ok. rewrite forallb_forall. intros H Hk. apply elem_of_map_to_list, list_elem_of_In, H in Hk. cbn in Hk.
  by apply negb_true_iff, bool_decide_eq_false in Hk.
Qed.

Lemma values_of_app k l1 l2 : values_of k (l1 ++ l2) = values_of k l1 ++ values_of k l2.
Proof. unfold values_of. by rewrite filter_app, map_app. Qed.

Lemma values_of_key k k' (l : list string) : values_of k (map (pair k') l) = if decide (k' = k) then l else [].
Proof.
  unfold values_of. induction l as [|x l IH]; [by destruct (decide (k' = k))|]. cbn [map]. rewrite filter_cons. cbn [fst].
  destruct (decide (k' = k)); cbn [map]; [by rewrite IH|done].
Qed.

Lemma values_of_keys k ks v : NoDup ks -> values_of k (concat (map (fun k => map (pair k) (default [] (v !! k))) ks)) =
  if decide (k ∈ ks) then default [] ((v : Values) !! k) else [].
Proof.
  induction 1 as [|k' ks Hk _ IH]; [rewrite decide_False; [done|set_solver]|]. cbn [map concat]. rewrite values_of_app, values_of_key, IH.
  destruct (decide (k' = k)) as [->|Hne].
  - rewrite (decide_False (P := k ∈ ks)) by done. rewrite decide_True by set_solver. by rewrite app_nil_r.
  - cbn [app]. destruct (decide (k ∈ ks)); [rewrite decide_True by set_solver|rewrite decide_False by set_solver]; done.
Qed.

Lemma keys_sorted (v : Values) : NoDup (merge_sort string_le (map fst (map_to_list v))) /\ forall k, k ∈ merge_sort string_le (map fst (map_to_list v)) <-> is_Some (v !! k).
Proof.
  pose proof (merge_sort_Permutation string_le (map fst (map_to_list v))) as HP. split.
  - rewrite HP. apply NoDup_fst_map_to_list.
  - intros k. rewrite HP. change (map fst (map_to_list v)) with (fst <$> map_to_list v). rewrite list_elem_of_fmap. split.
    + intros ([k' l] & -> & H). apply elem_of_map_to_list in H. by exists l.
    + intros [l H]. exists (k, l). split; [done|]. by apply elem_of_map_to_list.
Qed.

Lemma foldl_encoded ps m : foldl add_pair (Some m) (map encode_pair ps) = Some (foldl add_value m ps).
Proof. revert m. induction ps as [|p ps IH]; intros m; [done|]. cbn [map foldl]. rewrite add_encoded. apply IH. Qed.

(** What arrives of a form: a key without a value is not written. *)
Definition posted (v : Values) : Values := filter (fun p => snd p <> []) v.

Lemma posted_ok v : form_ok v = true -> posted v = v.
Proof. intros Hv. apply map_filter_id. intros k l Hk. cbn. by eapply form_ok_lookup. Qed.

(** What is encoded is read back. *)
Lemma parseQuery_Encode v : parseQuery (Encode v) = Some (posted v).
Proof.
  unfold parseQuery, Encode. assert (E : foldl add_value ∅ (form_pairs v) = posted v).
  { apply map_eq. intros k. rewrite add_values, lookup_empty. cbn [default]. destruct (keys_sorted v) as [Hnd Hin].
    unfold form_pairs. rewrite values_of_keys by exact Hnd. unfold posted. rewrite map_lookup_filter. destruct (v !! k) as [l|] eqn:El.
    - rewrite decide_True by (apply Hin; by rewrite El). cbn. destruct l; by case_guard || done.
    - rewrite decide_False; [done|]. rewrite Hin, El. by intros [? ?]. }
  destruct (form_pairs v) as [|p ps] eqn:Ep; [cbn in *; by rewrite E|].
  rewrite <- Ep in *. rewrite pieces_join.
  - by rewrite foldl_encoded, E.
  - by rewrite Ep.
  - apply Forall_map, Forall_true. intros q. eapply Forall_impl; [apply encode_pair_safe|]. cbn. tauto.
Qed.

Lemma ParseForm_Encode uri v : ParseForm uri (Encode v) =
  if maxFormSize <? N.of_nat (length (Encode v)) then None
  else match parseQuery (raw_query uri) with Some _ => Some (posted v) | None => None end.
Proof. unfold ParseForm. case_match; [done|]. rewrite parseQuery_Encode. cbn. by case_match. Qed.

Lemma ParseForm_accepts uri v : form_ok v = true -> N.of_nat (length (Encode v)) <= maxFormSize ->
  is_Some (parseQuery (raw_query uri)) -> ParseForm uri (Encode v) = Some v.
Proof. intros Hv Hl [q Hq]. by rewrite ParseForm_Encode, (proj2 (N.ltb_ge _ _) Hl), Hq, posted_ok. Qed.

(** ** Signed webhooks *)

(** The URL a server validates a request against. *)
Definition server_url (s : Server) (host uri : string) : string := validateScheme s +:+ "://" +:+ host +:+ uri.

(** A server's answer to a post, as its client sees it. *)
Definition reply_answer (r : reply) : answer :=
  match r with HttpError code => Answer code [] true | Doc d => Answer 200 (str_bytes d) true end.
Definition voice_server (s : Server) (host uri : string) (pend : pending) (p : post) : answer :=
  reply_answer (fst (fst (ServeHTTP s (post_request p host uri) pend))).

Lemma signature_nonempty token url form : ComputeSignature token url form <> "".
Proof.
  unfold ComputeSignature, hmac_sha1, sha1.
  match goal with |- context [foldl sha1_block ?h (chunks 64 (sha1_pad (map (Z.lxor 92) ?k ++ ?m)))] => destruct (foldl sha1_block h (chunks 64 (sha1_pad (map (Z.lxor 92) k ++ m)))) as [[[[a b] c] d] e] end.
  cbn [be_put app]. done.
Qed.

(** What a webhook server answers a form signed for its own URL. *)
Lemma signed_post_authenticates s token url host uri form :
  authenticate s (post_request (signed_post url token form) host uri) =
    if (maxFormSize <? N.of_nat (length (Encode form))) || bool_decide (parseQuery (raw_query uri) = None) then inl (HttpError 400)
    else if bool_decide (AuthToken s <> "" /\ ComputeSignature (AuthToken s) (server_url s host uri) (posted form) = ComputeSignature token url form)
    then inr (posted form) else inl (HttpError 403).
Proof.
  unfold authenticate, post_request, signed_post. cbn [rq_form p_body p_signature rq_signature rq_host rq_uri]. rewrite ParseForm_Encode.
  destruct (maxFormSize <? _); [done|]. cbn [orb]. destruct (parseQuery (raw_query uri)) as [q|]; [|done]. rewrite (bool_decide_false (Some q = None)) by done.
  fold (server_url s host uri). unfold ValidateSignature.
  rewrite (bool_decide_false (ComputeSignature token url form = "")) by apply signature_nonempty. rewrite orb_false_r.
  case_bool_decide as E1; [rewrite bool_decide_false by tauto; done|]. case_bool_decide as E2; [by rewrite bool_decide_true|].
  rewrite bool_decide_false by tauto. done.
Qed.




Lemma webhookForm_ok callSid from to : form_ok (webhookForm callSid from to) = true.
Proof. reflexivity. Qed.

Lemma InboundForm_ok accountSID apiVersion messageSID from to body : form_ok (InboundForm accountSID apiVersion messageSID from to body) = true.
Proof. reflexivity. Qed.

(** A call of the client with the server's token is answered with its stream,
    and its caller recorded. *)
Theorem client_call_answered parse s host uri pend callSid from to :
  AuthToken s <> "" -> e164 from = true -> Authorize s = None -> RejectCall s = None -> AnswerCall s = None ->
  let form := webhookForm callSid from to in N.of_nat (length (Encode form)) <= maxFormSize -> parseQuery (raw_query uri) <> None ->
  let rq := post_request (signed_post (server_url s host uri) (AuthToken s) form) host uri in
  fetchStreamURL parse (server_url s host uri) (AuthToken s) callSid from to (Some (voice_server s host uri pend)) = parse (str_bytes (stream_doc s rq)) /\
  snd (ServeHTTP s rq pend) = recordCall callSid from (if e164 to then to else "") pend.
Proof.
  intros Ht He HA HR HN form Hl Hq rq.
  assert (Ha : authenticate s rq = inr form).
  { unfold rq. rewrite signed_post_authenticates, (proj2 (N.ltb_ge _ _) Hl), (bool_decide_eq_false_2 _ Hq). cbn [orb]. by rewrite posted_ok, bool_decide_true. }
  assert (Hs : ServeHTTP s rq pend = (Doc (stream_doc s rq), [], recordCall callSid from (if e164 to then to else "") pend)).
  { unfold ServeHTTP. rewrite Ha. change (Get form "From") with from. change (Get form "To") with to. change (Get form "CallSid") with callSid. rewrite He, HA, HR, HN. done. }
  split; [|by rewrite Hs]. unfold fetchStreamURL, PostSignedForm, voice_server. fold form. fold rq. rewrite Hs. done.
Qed.

(** ** Sent messages *)

Lemma sms_form_ok msg : form_ok (sms_form msg) = true.
Proof.
  unfold form_ok. rewrite forallb_forall. intros [k l] H%list_elem_of_In%elem_of_map_to_list. cbn. apply negb_true_iff, bool_decide_eq_false. intros ->. revert H.
  unfold sms_form, form_of. cbn [map list_to_map fst snd foldr]. repeat case_bool_decide; rewrite ?lookup_insert_Some, ?lookup_empty; naive_solver.
Qed.

(** What is asked for is in the form, and nothing else is. *)
Lemma sms_form_fields msg :
  Get (sms_form msg) "From" = o_From msg /\ Get (sms_form msg) "To" = o_To msg /\ Get (sms_form msg) "Body" = o_Body msg /\
  (sms_form msg !! "StatusCallback" = if bool_decide (o_StatusCallback msg = "") then None else Some [o_StatusCallback msg]) /\
  (sms_form msg !! "MediaUrl" = if bool_decide (o_MediaURL msg = "") then None else Some [o_MediaURL msg]).
Proof. unfold sms_form, form_of, Get. cbn [map fst snd]. repeat case_bool_decide; try done; split_and!; done. Qed.

Lemma substring_app a b : String.substring 0 (String.length a) (a +:+ b) = a.
Proof. induction a as [|x a IH]; [by destruct b|]. change (String x a +:+ b) with (String x (a +:+ b)). cbn. f_equal. apply IH. Qed.

Lemma substring_all n s : (String.length s <= n)%nat -> String.substring 0 n s = s.
Proof. revert n. induction s as [|x s IH]; intros [|n]; cbn; try done; [lia|]. intros H. f_equal. apply IH. lia. Qed.

Lemma substring_drop a b n : (String.length b <= n)%nat -> String.substring (String.length a) n (a +:+ b) = b.
Proof. intros H. induction a as [|x a IH]; [by apply substring_all|]. change (String x a +:+ b) with (String x (a +:+ b)). exact IH. Qed.

Lemma prefix_app a b : String.prefix a (a +:+ b) = true.
Proof. induction a as [|x a IH]; [by destruct b|]. change (String x a +:+ b) with (String x (a +:+ b)). cbn. by destruct (Ascii.ascii_dec x x). Qed.

Lemma length_app_string a b : String.length (a +:+ b) = (String.length a + String.length b)%nat.
Proof. induction a as [|x a IH]; [done|]. change (String x a +:+ b) with (String x (a +:+ b)). cbn. by rewrite IH. Qed.

Lemma TrimPrefix_app p s : TrimPrefix (p +:+ s) p = s.
Proof. unfold TrimPrefix. rewrite prefix_app, length_app_string. apply substring_drop. lia. Qed.

Lemma TrimSuffix_app s p : TrimSuffix (s +:+ p) p = s.
Proof.
  unfold TrimSuffix. rewrite length_app_string. replace (String.length s + String.length p - String.length p)%nat with (String.length s) by lia.
  rewrite (proj2 (Nat.leb_le _ _)) by lia. rewrite substring_drop by done. rewrite bool_decide_true by done. apply substring_app.
Qed.

Lemma hex_digit_ascii n : n < 16 -> hex_digit n < 128.
Proof. unfold hex_digit. destruct (N.ltb_spec n 10); lia. Qed.

Lemma Unmarshal_line v : json_ok v = true -> height v <= maxNestingDepth -> Unmarshal (Marshal v ++ [10]) = Some v.
Proof.
  intros Hok Hh. unfold Unmarshal, parse_fuel. rewrite length_app. cbn [length].
  rewrite (json_reads v Hok) by (try done; lia). cbn [mbind option_bind]. done.
Qed.

Lemma quote_ascii_length fuel l : Forall (fun b => b < 128) l -> (length (quote_chars fuel l) <= 6 * length l)%nat.
Proof.
  revert l. induction fuel as [|fuel IH]; intros l Hl; [cbn; lia|]. destruct Hl as [|b l Hb Hl]; [cbn; lia|].
  cbn [quote_chars]. rewrite rune_len_ascii by done. cbn [take drop]. rewrite take_0, drop_0, length_app. cbn [quote_rune]. rewrite (proj2 (N.ltb_lt _ _) Hb).
  assert (length (quote_byte b) <= 6)%nat by (unfold quote_byte, u00; repeat case_match; cbn; lia). specialize (IH l Hl). cbn [length]. lia.
Qed.

Lemma NewSID_ascii random : Forall (fun b => b < 256) random -> ascii_string (NewSID "SM" random) /\ length (str_bytes (NewSID "SM" random)) = (2 + 2 * length random)%nat.
Proof.
  intros H. assert (Hx : Forall (fun b => b < 128) (concat (map (fun b => [hex_digit (b / 16); hex_digit (b mod 16)]) random)) /\
    length (concat (map (fun b => [hex_digit (b / 16); hex_digit (b mod 16)]) random)) = (2 * length random)%nat).
  { induction H as [|b l Hb _ [IH1 IH2]]; [split; [constructor|done]|]. cbn [map concat app]. split; [|cbn [length]; lia].
    repeat constructor; [apply hex_digit_ascii, N.Div0.div_lt_upper_bound; lia|by apply hex_digit_ascii, N.mod_lt|exact IH1]. }
  destruct Hx as [Hx Hlen]. unfold ascii_string, NewSID. change ("SM" +:+ ?x) with ("SM" ++ x)%string. rewrite str_bytes_app.
  rewrite bytes_bytes_str by (eapply Forall_impl; [exact Hx|]; cbn; lia). split; [apply Forall_app; split; [by repeat constructor|exact Hx]|].
  rewrite length_app, Hlen. done.
Qed.

(** What a capture server records of a post to its account's path, without a
    query, at the instant [now], the form at address [a]. *)
Definition capture_receives (accountSID : string) (body : list N) (a : nat) (now : Z) : option Message :=
  form ← ParseForm "" body; Some (message_of (messages_path accountSID) form a now).

(** What the REST client sends is recorded as it was sent, and the id of the
    answer is what it returns. *)
Theorem sent_sms_recorded c msg random a now :
  N.of_nat (length (Encode (sms_form msg))) <= maxFormSize -> Forall (fun b => b < 256) random -> length random = 16%nat ->
  capture_receives (r_AccountSID c) (Encode (sms_form msg)) a now = Some (mkMessage (r_AccountSID c) (o_From msg) (o_To msg) (o_Body msg) a now) /\
  ParseForm "" (Encode (sms_form msg)) = Some (sms_form msg) /\
  SendSMS c msg (Some (fun _ _ body => capture_answer random (ParseForm "" body))) = (NewSID "SM" random, None).
Proof.
  intros Hl Hr Hn. pose proof (ParseForm_accepts "" _ (sms_form_ok msg) Hl ltac:(by eexists)) as HP. destruct (sms_form_fields msg) as (H1 & H2 & H3 & _). split_and!.
  - unfold capture_receives. rewrite HP. cbn [mbind option_bind]. unfold message_of. rewrite H1, H2, H3.
    do 2 f_equal. unfold messages_path. rewrite TrimPrefix_app. by rewrite TrimSuffix_app.
  - exact HP.
  - unfold SendSMS. rewrite HP. unfold capture_answer. destruct (NewSID_ascii random Hr) as [HA HL]. pose proof (Valid_ascii _ HA) as HV.
    set (v := JObj [("sid", JStr (NewSID "SM" random)); ("status", JStr "queued")]).
    assert (Hok : json_ok v = true) by (unfold v; cbn [json_ok forallb fst snd]; by rewrite HV).
    change ((201 <? 200)%Z || (300 <=? 201)%Z) with false. cbv iota. rewrite take_ge.
    + unfold sent_sid. rewrite (Unmarshal_line v Hok); [done|]. unfold v, maxNestingDepth. cbn [height foldr fst snd]. lia.
    + unfold v, maxResponseBody. cbn [Marshal map comma_sep fst snd concat]. pose proof (quote_ascii_length (length (str_bytes (NewSID "SM" random))) _ HA) as HQ.
      unfold quote_string at 2. cbn [app length]. rewrite !length_app. cbn [length]. rewrite HL, Hn in HQ |- *.
      change (length (quote_string "sid")) with 5%nat. change (length ((quote_string "status" ++ 58 :: quote_string "queued") ++ [])) with 17%nat.
      rewrite length_app. cbn [length]. lia.
Qed.

(** ** Example *)

Lemma sent_sms_recorded_witness :
  let c := mkREST "AC1" "SK1" "secret" "http://127.0.0.1:9750" in
  let msg := mkOutbound "+15105557890" "+15105559999" "hi & bye" "https://host/status?id=1" "" in
  SendSMS c msg (Some (fun _ _ body => capture_answer (replicate 16 171) (ParseForm "" body))) = ("SMabababababababababababababababab", None).
Proof.
  etransitivity; [apply (sent_sms_recorded (mkREST "AC1" "SK1" "secret" "http://127.0.0.1:9750") _ (replicate 16 171) 0 0)|vm_compute; reflexivity]; [vm_compute; done|by apply Forall_replicate|done].
Defined.
