(* ===== verification/ClientFiles.v ===== *)
(** * ClientFiles: recordings of a call, and a file played as its caller

    [streamRecorder] of [cmd/twilio-cli/record.go], over a disk whose writes may
    fall short, and [streamFileFramesFrom] of [capture_file.go] with
    [drainFrames] of [capture.go] under it, over the readings of a clock. *)

From S2P Require Export Client Json.
From S2P Require Export StreamWire.

(** ** record.go *)

Record streamRecorder := mkRecorder {
  r_audio : bytes;          (* the files' contents *)
  r_events : list N;
  r_started : Z;
  r_total : Z;
  r_last : Z
}.
#[export] Instance recorder_eta : Eta streamRecorder := fun r => mkRecorder (r_audio r) (r_events r) (r_started r) (r_total r) (r_last r).

Definition newStreamRecorder (now : Z) : streamRecorder := mkRecorder [] [] now 0 now.

Definition Milliseconds (d : Z) : Z := Z.quot d Millisecond.

(** The sidecar's line; the format string's text is that of this object. *)
Definition timing_line (at_ms size gap_ms total : Z) : list N :=
  Marshal (JObj [("at_ms", JNum (Itoa at_ms)); ("bytes", JNum (Itoa size)); ("gap_ms", JNum (Itoa gap_ms)); ("total_bytes", JNum (Itoa total))]) ++ [10%N].

(** [audio_n] and [line_n] bytes of the two writes reach the disk. *)
Definition recorder_write (payload : bytes) (now : Z) (audio_n line_n : nat) (r : streamRecorder) : streamRecorder :=
  let gap := now - r_last r in
  let r := r <| r_last := now |> <| r_total ::= Z.add (Z.of_nat (length payload)) |> in
  r <| r_audio ::= (fun a => a ++ take audio_n payload) |>
    <| r_events ::= (fun l => l ++ take line_n (timing_line (Milliseconds (now - r_started r)) (Z.of_nat (length payload)) (Milliseconds gap) (r_total r))) |>.

(** A disk that takes every write. *)
Definition record_all (ops : list (bytes * Z)) (r : streamRecorder) : streamRecorder :=
  foldl (fun r op => recorder_write (fst op) (snd op) (length (fst op)) (length (timing_line (Milliseconds (snd op - r_started r)) (Z.of_nat (length (fst op)))
    (Milliseconds (snd op - r_last r)) (r_total r + Z.of_nat (length (fst op))))) r) r ops.

(** ** capture_file.go *)

Definition frameInterval : Z := MuLawDuration muLawFrame20ms.
Definition frame_bytes : nat := Z.to_nat muLawFrame20ms.

(** What [io.ReadFull] makes of a file: the complete frames in front. *)
Fixpoint full_frames (fuel : nat) (l : bytes) : list bytes :=
  match fuel with
  | O => []
  | S fuel => if (length l <? frame_bytes)%nat then [] else take frame_bytes l :: full_frames fuel (drop frame_bytes l)
  end.
Definition complete_frames (l : bytes) : list bytes := full_frames (length l) l.

(** One round of [drainFrames]: whether the context is done at its top, the
    clock as [time.Until] reads it, whether the context is done at once and when
    the timer fires ([None]: the context is done first), when [send] is called,
    and whether it returns no error. *)
Record round := mkRound {
  top_done : bool;
  until_now : Z;
  now_done : bool;
  fires : option Z;
  sends_at : Z;
  send_ok : bool
}.

Inductive file_event := FWarm | FSend (frame : bytes) (t : Z).

(** [SPending]: no more rounds. *)
Inductive file_end := SEnded | SReadError | SCancelled | SSendError | SPending.

Definition waitUntil (deadline : Z) (r : round) : bool :=
  if deadline - until_now r <=? 0 then negb (now_done r) else match fires r with Some _ => true | None => false end.

(** The rest of the file is [frames], then its end or a read error. *)
Fixpoint drain_file (start : Z) (frame : nat) (frames : list bytes) (read_ok : bool) (rounds : list round) {struct rounds} : list file_event * file_end :=
  match rounds with
  | [] => ([], SPending)
  | r :: rounds =>
      if top_done r then ([], SCancelled)
      else
        match frames with
        | [] => ([], if read_ok then SEnded else SReadError)
        | f :: frames =>
            let go := if (frame =? 0)%nat then true else waitUntil (start + Z.of_nat frame * frameInterval) r in
            if negb go then ([], SCancelled)
            else
              let es := (if (frame =? 0)%nat then [FWarm] else []) ++ [FSend f (sends_at r)] in
              if negb (send_ok r) then (es, SSendError)
              else let '(es', e) := drain_file start (S frame) frames read_ok rounds in (es ++ es', e)
        end
  end.

Definition streamFileFramesFrom (start : Z) (data : bytes) (read_ok : bool) (rounds : list round) : list file_event * file_end :=
  drain_file start 0 (complete_frames data) read_ok rounds.

(** Time goes forward, and a timer fires no sooner than its deadline. *)
Fixpoint clock_ok (start t : Z) (frame : nat) (rounds : list round) : bool :=
  match rounds with
  | [] => true
  | r :: rounds =>
      let deadline := start + Z.of_nat frame * frameInterval in
      (t <=? until_now r) && (until_now r <=? sends_at r) &&
      (if (frame =? 0)%nat || (deadline <=? until_now r) then true else match fires r with Some f => (deadline <=? f) && (f <=? sends_at r) | None => true end) &&
      clock_ok start (sends_at r) (S frame) rounds
  end.

(** ** Theorems: a recording reads back, a file is streamed in real time

    From the two files of a recording every payload and its instant can be told;
    a file's frames are handed over in order, none before its time. *)

(** ** Reading a recording *)

(** A line's instant and size. *)
Definition read_line (l : list N) : option (Z * Z) :=
  match Unmarshal l with
  | Some (JObj [(_, JNum at_ms); (_, JNum size); _; _]) => a ← Atoi at_ms; n ← Atoi size; Some (a, n)
  | _ => None
  end.

(** The lines in front of their line feeds. *)
Fixpoint lines_of (cur l : list N) : list (list N) :=
  match l with [] => [] | b :: l => if (b =? 10)%N then cur :: lines_of [] l else lines_of (cur ++ [b]) l end.

(** The audio cut up by the sizes. *)
Fixpoint cut_audio (marks : list (Z * Z)) (audio : bytes) : list (Z * bytes) :=
  match marks with [] => [] | (t, n) :: marks => (t, take (Z.to_nat n) audio) :: cut_audio marks (drop (Z.to_nat n) audio) end.

Definition read_recording (audio : bytes) (events : list N) : option (list (Z * bytes)) :=
  marks ← mapM read_line (lines_of [] events); Some (cut_audio marks audio).

Definition line_body (at_ms size gap_ms total : Z) : list N :=
  Marshal (JObj [("at_ms", JNum (Itoa at_ms)); ("bytes", JNum (Itoa size)); ("gap_ms", JNum (Itoa gap_ms)); ("total_bytes", JNum (Itoa total))]).

Lemma lines_of_app cur l rest : Forall (fun b => b <> 10%N) l -> lines_of cur (l ++ 10%N :: rest) = (cur ++ l) :: lines_of [] rest.
Proof.
  intros H. revert cur. induction H as [|b l Hb _ IH]; intros cur; cbn [app lines_of].
  - by rewrite N.eqb_refl, app_nil_r.
  - rewrite (proj2 (N.eqb_neq _ _) Hb), IH. by rewrite <- app_assoc.
Qed.

Lemma Itoa_no_newline z : Forall (fun b => b <> 10%N) (str_bytes (Itoa z)).
Proof.
  rewrite Itoa_bytes. destruct (decimal_digits (S (N.size_nat (Z.abs_N z))) (Z.abs_N z) (size_bound _) ltac:(lia)) as (_ & Hall & _).
  apply Forall_app. split; [case_match; by repeat constructor|]. eapply Forall_impl; [exact Hall|]. cbn beta. intros b Hb ->. done.
Qed.

Lemma line_body_text a n g t : line_body a n g t =
  123%N :: (quote_string "at_ms" ++ 58%N :: str_bytes (Itoa a)) ++ 44%N :: (quote_string "bytes" ++ 58%N :: str_bytes (Itoa n)) ++
  44%N :: (quote_string "gap_ms" ++ 58%N :: str_bytes (Itoa g)) ++ 44%N :: (quote_string "total_bytes" ++ 58%N :: str_bytes (Itoa t)) ++ [125%N].
Proof. unfold line_body. cbn [Marshal map comma_sep fst snd concat app]. rewrite app_nil_r. do 9 (rewrite <- ?app_assoc; cbn [app]). reflexivity. Qed.

Lemma line_body_no_newline a n g t : Forall (fun b => b <> 10%N) (line_body a n g t).
Proof.
  assert (Hq : forall k, k ∈ ["at_ms"; "bytes"; "gap_ms"; "total_bytes"] -> Forall (fun b => b <> 10%N) (quote_string k)).
  { intros k Hk. repeat (apply elem_of_cons in Hk as [->|Hk]); [by apply (bool_decide_unpack _); vm_compute..|]. by apply not_elem_of_nil in Hk. }
  rewrite line_body_text. repeat (apply List.Forall_cons; [done|] || apply Forall_app_2); try apply Itoa_no_newline; try (apply Hq; set_solver); by constructor.
Qed.

(** ** Numbers *)

Lemma take_digits_all l : Forall (fun b => digit b = true) l -> take_digits l = (l, []).
Proof. induction 1 as [|b l Hb _ IH]; [done|]. cbn [take_digits]. by rewrite Hb, IH. Qed.

Lemma decimal_head fuel n : (n < 2 ^ N.of_nat fuel)%N -> (n <> 0)%N -> exists b l, decimal fuel n = b :: l /\ b <> 48%N.
Proof.
  revert n. induction fuel as [|fuel IH]; intros n Hn H0; [cbn in Hn; lia|]. cbn [decimal]. destruct (N.ltb_spec n 10) as [Hlt|Hge].
  - cbn [app]. eexists _, _. split; [done|]. rewrite N.mod_small by done. lia.
  - destruct (IH (n / 10)%N) as (b & l & E & Hb).
    + apply N.Div0.div_lt_upper_bound. rewrite Nat2N.inj_succ, N.pow_succ_r' in Hn. lia.
    + intros E. apply N.div_small_iff in E; lia.
    + rewrite E. by eexists _, _.
Qed.

Lemma int_part_decimal n : parse_int_part (decimal (S (N.size_nat n)) n) = Some (decimal (S (N.size_nat n)) n, []).
Proof.
  destruct (N.eq_dec n 0) as [->|Hn]; [done|]. destruct (decimal_head (S (N.size_nat n)) n (size_bound n) Hn) as (b & l & E & Hb).
  destruct (decimal_digits (S (N.size_nat n)) n (size_bound n) ltac:(lia)) as (_ & Hall & _). rewrite E in *.
  unfold parse_int_part. rewrite (proj2 (N.eqb_neq _ _) Hb). unfold digits1. by rewrite take_digits_all.
Qed.

Lemma Itoa_number z : number_ok (Itoa z) = true.
Proof.
  unfold number_ok. apply bool_decide_eq_true. unfold parse_number. rewrite Itoa_bytes. unfold Itoa.
  pose proof (int_part_decimal (Z.abs_N z)) as HI. destruct (decimal_digits (S (N.size_nat (Z.abs_N z))) (Z.abs_N z) (size_bound _) ltac:(lia)) as (Hne & Hall & _).
  set (d := decimal _ _) in *. destruct (z <? 0)%Z; cbn [app].
  - rewrite N.eqb_refl, HI. cbn. by rewrite !app_nil_r.
  - destruct d as [|b l]; [done|]. apply Forall_cons in Hall as [Hb _]. destruct (N.eqb_spec b 45) as [->|]; [done|]. rewrite HI. cbn. by rewrite !app_nil_r.
Qed.

(** ** What a recording holds *)

Lemma read_line_body a n g t : (- 2 ^ 63 <= a < 2 ^ 63)%Z -> (- 2 ^ 63 <= n < 2 ^ 63)%Z -> read_line (line_body a n g t) = Some (a, n).
Proof.
  intros Ha Hn. unfold read_line, line_body. rewrite Unmarshal_Marshal; [by rewrite (Atoi_Itoa a Ha), (Atoi_Itoa n Hn)| |done].
  cbn [json_ok forallb fst snd]. by rewrite !Itoa_number.
Qed.

(** The bodies of the lines. *)
Fixpoint bodies (started last total : Z) (ops : list (bytes * Z)) : list (list N) :=
  match ops with
  | [] => []
  | (p, t) :: ops =>
      let n := Z.of_nat (length p) in
      line_body (Milliseconds (t - started)) n (Milliseconds (t - last)) (n + total) :: bodies started t (n + total) ops
  end.

Lemma record_all_files ops r :
  r_audio (record_all ops r) = r_audio r ++ concat (map fst ops) /\
  r_events (record_all ops r) = r_events r ++ concat (map (fun l => l ++ [10%N]) (bodies (r_started r) (r_last r) (r_total r) ops)) /\
  r_total (record_all ops r) = (r_total r + Z.of_nat (length (concat (map fst ops))))%Z.
Proof.
  revert r. induction ops as [|[p t] ops IH]; intros r; [cbn; rewrite !app_nil_r; split_and!; [done..|lia]|].
  unfold record_all. cbn [foldl fst snd]. match goal with |- context [foldl _ ?x ops] => set (r1 := x) end. fold (record_all ops r1).
  destruct (IH r1) as (I1 & I2 & I3). rewrite I1, I2, I3. unfold r1, recorder_write, set. cbn [r_audio r_events r_total r_started r_last map concat bodies fst].
  rewrite firstn_all. rewrite (Z.add_comm (r_total r)). rewrite firstn_all. unfold timing_line, line_body. split_and!; [by rewrite <- !app_assoc|by rewrite <- !app_assoc|].
  rewrite length_app. lia.
Qed.

Lemma lines_of_bodies started ops last total : lines_of [] (concat (map (fun l => l ++ [10%N]) (bodies started last total ops))) = bodies started last total ops.
Proof.
  revert last total. induction ops as [|[p t] ops IH]; intros last total; [done|]. cbn [bodies map concat]. rewrite <- app_assoc. cbn [app].
  rewrite lines_of_app by apply line_body_no_newline. by rewrite IH.
Qed.

Definition op_fits (started : Z) (op : bytes * Z) : bool :=
  (- 2 ^ 63 <=? Milliseconds (snd op - started))%Z && (Milliseconds (snd op - started) <? 2 ^ 63)%Z && (Z.of_nat (length (fst op)) <? 2 ^ 63)%Z.

(** On a disk that takes every write the two files give back every payload with
    its instant, and the total is the size of the audio. *)
Theorem recording_reads_back started ops :
  forallb (op_fits started) ops = true ->
  let r := record_all ops (newStreamRecorder started) in
  read_recording (r_audio r) (r_events r) = Some (map (fun op => (Milliseconds (snd op - started), fst op)) ops) /\
  r_total r = Z.of_nat (length (r_audio r)).
Proof.
  intros Hf r. destruct (record_all_files ops (newStreamRecorder started)) as (E1 & E2 & E3). fold r in E1, E2, E3. cbn [newStreamRecorder r_audio r_events r_started r_last r_total app] in E1, E2, E3.
  split; [|by rewrite E1, E3]. unfold read_recording. rewrite E1, E2, lines_of_bodies. clear r E1 E2 E3.
  assert (Hm : forall last total, mapM read_line (bodies started last total ops) = Some (map (fun op => (Milliseconds (snd op - started), Z.of_nat (length (fst op)))) ops)).
  { induction ops as [|[p t] ops IH]; intros last total; [done|]. cbn [forallb] in Hf. apply andb_true_iff in Hf as [Hp Hf]. unfold op_fits in Hp. cbn [fst snd] in Hp.
    cbn [bodies map mapM fst snd]. apply andb_true_iff in Hp as [[Hp1 Hp2]%andb_true_iff Hp3]. zify_tests. rewrite read_line_body by lia. cbn [mbind option_bind]. by rewrite IH. }
  rewrite Hm. cbn [mbind option_bind]. f_equal. clear Hf Hm. induction ops as [|[p t] ops IH]; [done|].
  cbn [map cut_audio concat fst snd]. rewrite Nat2Z.id, take_app_length, drop_app_length. by rewrite IH.
Qed.

(** ** A file as the caller *)

Definition sends (es : list file_event) : list (bytes * Z) := omap (fun e => match e with FSend f t => Some (f, t) | FWarm => None end) es.

Definition is_warm (e : file_event) : bool := match e with FWarm => true | FSend _ _ => false end.
Definition warms (es : list file_event) : nat := length (List.filter is_warm es).

Lemma drain_file_spec start frame frames read_ok rounds t es e :
  clock_ok start t frame rounds = true -> drain_file start frame frames read_ok rounds = (es, e) ->
  map fst (sends es) `prefix_of` frames /\
  (forall i f ti, sends es !! i = Some (f, ti) -> (frame + i = 0)%nat \/ start + Z.of_nat (frame + i) * frameInterval <= ti) /\
  (e = SEnded -> map fst (sends es) = frames) /\ warms es = if (frame =? 0)%nat && bool_decide (es <> []) then 1%nat else 0%nat.
Proof.
  revert frame frames t es e. induction rounds as [|r rounds IH]; intros frame frames t es e; [cbn; intros _ [= <- <-]; split_and!; try done; [apply prefix_nil|by rewrite andb_false_r]|].
  cbn [clock_ok drain_file]. intros [[[H1 H2]%andb_true_iff H3]%andb_true_iff H4]%andb_true_iff.
  destruct (top_done r); [intros [= <- <-]; split_and!; try done; [apply prefix_nil|by rewrite andb_false_r]|].
  destruct frames as [|f frames]; [intros [= <- <-]; split_and!; try done; by rewrite andb_false_r|].
  set (deadline := start + Z.of_nat frame * frameInterval) in *. destruct (if (frame =? 0)%nat then true else waitUntil deadline r) eqn:Eg; cbn [negb].
  2: { intros [= <- <-]. split_and!; try done; [apply prefix_nil|by rewrite andb_false_r]. }
  assert (Htime : frame = 0%nat \/ deadline <= sends_at r).
  { destruct (Nat.eqb_spec frame 0); [by left|]. right. unfold waitUntil in Eg. cbn [orb] in H3. zify_tests.
    destruct (Z.leb_spec deadline (until_now r)); [lia|]. rewrite (proj2 (Z.leb_gt _ _)) in Eg by lia. destruct (fires r) as [fi|]; [|done].
    apply andb_true_iff in H3 as [H3 H5]. zify_tests. lia. }
  set (pre := (if (frame =? 0)%nat then [FWarm] else []) ++ [FSend f (sends_at r)]).
  assert (Hpre : sends pre = [(f, sends_at r)]) by (unfold pre; destruct (frame =? 0)%nat; done).
  assert (Hwarm : warms pre = if (frame =? 0)%nat then 1%nat else 0%nat) by (unfold pre; destruct (frame =? 0)%nat; done).
  assert (Hne : pre <> []) by (unfold pre; destruct (frame =? 0)%nat; done).
  destruct (send_ok r); cbn [negb].
  - destruct (drain_file start (S frame) frames read_ok rounds) as [es' e'] eqn:Ed. intros [= <- <-].
    destruct (IH (S frame) frames (sends_at r) es' e' H4 Ed) as (I1 & I2 & I3 & I4). cbn [Nat.eqb andb] in I4.
    assert (Es : sends (pre ++ es') = (f, sends_at r) :: sends es') by (unfold sends in *; by rewrite omap_app, Hpre). rewrite Es. cbn [map fst]. split_and!.
    + by apply prefix_cons.
    + intros [|i] f' ti Hi; cbn in Hi; [injection Hi as <- <-; rewrite Nat.add_0_r; exact Htime|]. right.
      destruct (I2 i f' ti Hi) as [?|?]; [lia|]. by replace (frame + S i)%nat with (S frame + i)%nat by lia.
    + intros He. by rewrite I3.
    + unfold warms in *. rewrite List.filter_app, length_app, Hwarm, I4. rewrite bool_decide_true by (intros E; apply app_eq_nil in E; tauto). rewrite andb_true_r. lia.
  - intros [= <- <-]. rewrite Hpre. cbn [map fst]. split_and!; [apply prefix_cons, prefix_nil| |done|].
    + intros [|i] f' ti Hi; [|done]. cbn in Hi. injection Hi as <- <-. rewrite Nat.add_0_r. exact Htime.
    + rewrite Hwarm, bool_decide_true by done. by rewrite andb_true_r.
Qed.

Lemma full_frames_split fuel l : (length l <= fuel)%nat -> exists rest,
  concat (full_frames fuel l) ++ rest = l /\ (length rest < frame_bytes)%nat /\ Forall (fun f => length f = frame_bytes) (full_frames fuel l).
Proof.
  assert (Hpos : (0 < frame_bytes)%nat) by (vm_compute; lia).
  revert l. induction fuel as [|fuel IH]; intros l Hl; [exists []; destruct l; [by split_and!|cbn in Hl; lia]|].
  cbn [full_frames]. destruct (Nat.ltb_spec (length l) frame_bytes); [exists l; by split_and!|].
  destruct (IH (drop frame_bytes l)) as (rest & E & Hr & Hall); [rewrite length_drop; lia|]. exists rest. cbn [concat]. split_and!; [|done|].
  - rewrite <- app_assoc, E. apply take_drop.
  - constructor; [rewrite length_take; lia|done].
Qed.

(** The frames handed over are the first of the file, the [i]-th not before
    [i] frames' time, the signal once and in front of them; a run that ends with
    the file has handed over all of it but a tail short of a frame. *)
Theorem file_streamed_in_time start data read_ok rounds es e :
  clock_ok start start 0 rounds = true -> streamFileFramesFrom start data read_ok rounds = (es, e) ->
  (forall i f t, sends es !! i = Some (f, t) -> i = 0%nat \/ start + Z.of_nat i * frameInterval <= t) /\
  (exists rest, concat (map fst (sends es)) ++ rest = data /\ (e = SEnded -> (length rest < frame_bytes)%nat)) /\
  warms es = if bool_decide (es <> []) then 1%nat else 0%nat.
Proof.
  intros Hc Hs. destruct (drain_file_spec _ _ _ _ _ _ _ _ Hc Hs) as (H1 & H2 & H3 & H4). split_and!; [exact H2| |exact H4].
  destruct (full_frames_split (length data) data (le_n _)) as (rest & E & Hr & _). fold (complete_frames data) in E. destruct H1 as [k Hk].
  exists (concat k ++ rest). rewrite Hk, concat_app, <- app_assoc in E. split; [done|]. intros He. specialize (H3 He). rewrite H3 in Hk.
  assert (k = []) as -> by (apply (f_equal length) in Hk; rewrite length_app in Hk; destruct k; [done|cbn in Hk; lia]). done.
Qed.

(** ** Examples *)

Lemma recording_reads_back_witness :
  let r := record_all [([1; 2; 3], 25 * Millisecond); ([], 26 * Millisecond); ([4], 3000 * Millisecond)] (newStreamRecorder 0) in
  read_recording (r_audio r) (r_events r) = Some [(25, [1; 2; 3]); (26, []); (3000, [4])].
Proof. etransitivity; [apply (recording_reads_back 0 [([1; 2; 3], 25 * Millisecond); ([], 26 * Millisecond); ([4], 3000 * Millisecond)]); vm_compute; reflexivity|vm_compute; reflexivity]. Defined.
