(* ===== verification/ClientMain.v ===== *)
(** * ClientMain: what a run of the client is given

    The checks and resolutions of [cmd/twilio-cli/main.go] in front of a call,
    [smsfake.Resolve], and the check of the files a run touches with the
    [path/filepath] functions it compares them by.  The configuration file's
    loader and the look at the audio file are arguments. *)

From S2P Require Import Rest.
From S2P Require Export Config.

(** ** path/filepath *)

Fixpoint path_elems (cur l : list N) : list (list N) :=
  match l with [] => [cur] | b :: l => if (b =? 47)%N then cur :: path_elems [] l else path_elems (cur ++ [b]) l end.

Definition rooted (l : list N) : bool := match l with b :: _ => (b =? 47)%N | [] => false end.

Definition dot : list N := [46%N].
Definition dotdot : list N := [46%N; 46%N].

(** [Clean], an element at a time; the elements kept, last first. *)
Definition clean_elem (root : bool) (st : list (list N)) (e : list N) : list (list N) :=
  if bool_decide (e = []) || bool_decide (e = dot) then st
  else if bool_decide (e = dotdot) then
    match st with
    | [] => if root then [] else [dotdot]
    | top :: st' => if bool_decide (top = dotdot) then dotdot :: st else st'
    end
  else e :: st.

Fixpoint join_slash (es : list (list N)) : list N :=
  match es with [] => [] | [e] => e | e :: es => e ++ 47%N :: join_slash es end.

Definition clean_bytes (l : list N) : list N :=
  let es := rev (foldl (clean_elem (rooted l)) [] (path_elems [] l)) in
  if rooted l then 47%N :: join_slash es else match es with [] => dot | _ => join_slash es end.

Definition Clean (p : string) : string := bytes_str (clean_bytes (str_bytes p)).

(** [None] for [cwd]: the working directory cannot be told. *)
Definition Abs (cwd : option string) (p : string) : option string :=
  if rooted (str_bytes p) then Some (Clean p) else wd ← cwd; Some (Clean (wd +:+ "/" +:+ p)).

Definition canonicalPath (cwd : option string) (p : string) : string :=
  match Abs cwd p with Some abs => Clean abs | None => Clean p end.

(** ** The files of a run *)

Definition claim_file (cwd : option string) (flag path f : string) (claimed : gmap string string) : result (gmap string string) :=
  let key := canonicalPath cwd f in
  match claimed !! key with
  | Some prev => Err (flag +:+ " " +:+ path +:+ ": " +:+ prev +:+ " already names " +:+ f +:+ " -- every file must be named by one flag")
  | None => Ok (<[key := flag]> claimed)
  end.

Definition claim_output (cwd : option string) (out : string * string) (claimed : gmap string string) : result (gmap string string) :=
  let '(flag, path) := out in
  if bool_decide (path = "") then Ok claimed
  else claimed ← claim_file cwd flag path path claimed; claim_file cwd flag path (path +:+ ".jsonl") claimed.

Fixpoint claim_outputs (cwd : option string) (outs : list (string * string)) (claimed : gmap string string) : result (gmap string string) :=
  match outs with [] => Ok claimed | out :: outs => claimed ← claim_output cwd out claimed; claim_outputs cwd outs claimed end.

Definition validateRecordingPaths (cwd : option string) (audioPath recordPath recordSentPath recordPlayedPath : string) : result unit :=
  let claimed := if bool_decide (audioPath <> "") then {[canonicalPath cwd audioPath := "-audio"]} else ∅ in
  _ ← claim_outputs cwd [("-record", recordPath); ("-record-sent", recordSentPath); ("-record-played", recordPlayedPath)] claimed;
  Ok tt.

(** ** Numbers, names and targets *)

Definition validateE164 (s : string) : result unit := if e164 s then Ok tt else Err "invalid E.164 number".

Definition Resolve (flagValue envValue configValue : string) : string :=
  default "" (List.find (fun v => negb (bool_decide (v = ""))) [flagValue; envValue; configValue]).

Definition resolveServerName (flagValue envValue : string) : result string :=
  let name := Resolve flagValue envValue "" in if bool_decide (name <> "") then Ok name else Err "no server name".

Definition defaultFrom : string := "+15105557890".
Definition defaultTo : string := "+15105559999".

Definition resolveFrom (positional : string) : string * string :=
  if bool_decide (positional <> "") then (positional, "")
  else (defaultFrom, "twilio-cli: WARNING: no FROM given, defaulting source number to " +:+ defaultFrom).

Definition resolveConfigPath (flagValue envValue : string) : result string :=
  let path := Resolve flagValue envValue "" in if bool_decide (path <> "") then Ok path else Err "no config path".

Section run.
Context (load : string -> result Config) (resolveAudioPath : string -> result string).

Definition resolveWebhook (explicit configFlag configEnv serverFlag serverEnv pathSuffix : string) : result string :=
  if bool_decide (explicit <> "") then Ok explicit
  else
    basePath ← resolveConfigPath configFlag configEnv;
    cfg ← load basePath;
    serverName ← resolveServerName serverFlag serverEnv;
    match ServerByName cfg serverName with
    | None => Err "no server declared"
    | Some srv =>
        match WebhookPort srv with
        | None => Err "declares no webhook port (needs two listens)"
        | Some port => Ok ("http://" +:+ Host srv +:+ ":" +:+ Itoa port +:+ pathSuffix)
        end
    end.

Definition webhookTarget (explicit configFlag configEnv serverFlag serverEnv : string) : result string :=
  resolveWebhook explicit configFlag configEnv serverFlag serverEnv "/webhook".
Definition smsWebhookTarget (explicit configFlag configEnv serverFlag serverEnv : string) : result string :=
  resolveWebhook explicit configFlag configEnv serverFlag serverEnv "/sms/inbound".

(** The file that is the source, if one is. *)
Definition installAudioFrameSource (audioPath : string) : result (option string) :=
  if bool_decide (audioPath = "") then Ok None else resolved ← resolveAudioPath audioPath; Ok (Some resolved).

Record voice_flags := mkFlags {
  fl_webhook : string; fl_config : string; fl_server : string; fl_to : string;
  fl_audio : string; fl_record : string; fl_recordSent : string; fl_recordPlayed : string
}.

(** [main] up to the webhook, for a voice call. *)
Definition voice_preflight (cwd : option string) (fl : voice_flags) (configEnv serverEnv arg : string) : result (string * string) :=
  let '(from, _) := resolveFrom arg in
  _ ← validateE164 from;
  _ ← validateE164 (fl_to fl);
  _ ← installAudioFrameSource (fl_audio fl);
  _ ← validateRecordingPaths cwd (fl_audio fl) (fl_record fl) (fl_recordSent fl) (fl_recordPlayed fl);
  target ← webhookTarget (fl_webhook fl) (fl_config fl) configEnv (fl_server fl) serverEnv;
  Ok (from, target).
End run.

(** ** Theorems: the files of a run are told apart, its target is a server's

    A run passes the check of its files exactly when no two of them have the
    same cleaned absolute path; the target it resolves is the URL a server of
    the plain scheme signs with. *)

(** ** Cleaned paths *)

Definition elem_ok (e : list N) : Prop := e <> [] /\ e <> dot /\ 47%N ∉ e.

(** What a cleaned path is made of: no elements that mean nothing, and [..] only
    in front of a relative one. *)
Fixpoint stack_ok (root : bool) (st : list (list N)) : Prop :=
  match st with
  | [] => True
  | e :: st => elem_ok e /\ (e = dotdot -> root = false /\ Forall (fun x => x = dotdot) st) /\ stack_ok root st
  end.

Lemma clean_elem_ok root st e : 47%N ∉ e -> stack_ok root st -> stack_ok root (clean_elem root st e).
Proof.
  intros He Hst. unfold clean_elem. case_bool_decide as E1; [done|]. case_bool_decide as E2; [done|]. cbn [orb]. case_bool_decide as E3.
  - destruct st as [|top st']; [destruct root; [done|]; cbn; split_and!; [split_and!; [done|done|unfold dotdot; set_solver]|done|done]|].
    cbn in Hst. destruct Hst as (H1 & H2 & H3). case_bool_decide as E4; [|done]. cbn. subst top. destruct (H2 eq_refl) as [Hr Hall].
    split; [split_and!; [done|done|unfold dotdot; set_solver]|]. split; [|done]. intros _. split; [done|]. by constructor.
  - cbn. split; [done|]. split; [done|exact Hst].
Qed.

Lemma path_elems_free cur l : 47%N ∉ cur -> Forall (fun e => 47%N ∉ e) (path_elems cur l).
Proof.
  revert cur. induction l as [|b l IH]; intros cur Hc; cbn; [by constructor|]. destruct (N.eqb_spec b 47).
  - constructor; [done|]. apply IH. set_solver.
  - apply IH. set_solver.
Qed.

Lemma clean_stack root es st : Forall (fun e => 47%N ∉ e) es -> stack_ok root st -> stack_ok root (foldl (clean_elem root) st es).
Proof. intros H. revert st. induction H as [|e es He _ IH]; intros st Hst; [done|]. cbn. apply IH. by apply clean_elem_ok. Qed.

(** Elements that mean nothing, and an element left again, change nothing. *)
Lemma clean_skip root st e : e = [] \/ e = dot -> clean_elem root st e = st.
Proof. intros [->| ->]; [done|]. unfold clean_elem. by rewrite orb_true_r. Qed.

Lemma clean_in_and_out root st e : elem_ok e -> e <> dotdot -> clean_elem root (clean_elem root st e) dotdot = st.
Proof.
  intros (H1 & H2 & _) H3. unfold clean_elem. rewrite (bool_decide_false (e = [])), (bool_decide_false (e = dot)), (bool_decide_false (e = dotdot)) by done.
  cbn [orb]. rewrite (bool_decide_true (dotdot = dotdot)) by done. change (bool_decide (dotdot = [])) with false. change (bool_decide (dotdot = dot)) with false. cbn [orb].
  by rewrite bool_decide_false.
Qed.

(** ** The elements of a cleaned path *)

Lemma path_elems_join es cur : es <> [] -> Forall (fun e => 47%N ∉ e) es -> path_elems cur (join_slash es) = (cur ++ default [] (head es)) :: tail es.
Proof.
  intros Hne H. revert cur Hne. induction H as [|e es He Hes IH]; intros cur Hne; [done|].
  assert (Hin : forall cur rest, path_elems cur (e ++ rest) = path_elems (cur ++ e) rest).
  { clear -He. induction e as [|b e IHe]; intros cur rest; cbn; [by rewrite app_nil_r|]. rewrite (proj2 (N.eqb_neq b 47)) by set_solver. rewrite IHe by set_solver. by rewrite <- app_assoc. }
  destruct es as [|e' es].
  - cbn [join_slash]. rewrite <- (app_nil_r e) at 1. rewrite Hin. done.
  - change (join_slash (e :: e' :: es)) with (e ++ 47%N :: join_slash (e' :: es)). rewrite Hin. cbn [path_elems]. rewrite N.eqb_refl, IH by done. done.
Qed.

Lemma clean_kept root es : stack_ok root (rev es) -> foldl (clean_elem root) [] es = rev es.
Proof.
  induction es as [|e es IH] using rev_ind; [done|]. rewrite rev_app_distr. cbn [rev app stack_ok]. intros (H1 & H2 & H3).
  rewrite foldl_app, IH by done. cbn [foldl]. destruct H1 as (N1 & N2 & _). unfold clean_elem.
  rewrite (bool_decide_false (e = [])), (bool_decide_false (e = dot)) by done. cbn [orb]. case_bool_decide as E; [|done]. destruct (H2 E) as [-> Hall]. subst e.
  destruct (rev es) as [|top st]; [done|]. apply Forall_cons in Hall as [-> _]. by rewrite bool_decide_true.
Qed.

(** Cleaning a cleaned path changes nothing. *)
Lemma clean_bytes_idem l : clean_bytes (clean_bytes l) = clean_bytes l.
Proof.
  unfold clean_bytes at 2 3. set (st := foldl (clean_elem (rooted l)) [] (path_elems [] l)).
  assert (Hst : stack_ok (rooted l) st) by (apply clean_stack; [apply path_elems_free; set_solver|done]).
  assert (Hrev : stack_ok (rooted l) (rev (rev st))) by (by rewrite rev_involutive).
  assert (Hfree : Forall (fun e => 47%N ∉ e) (rev st)).
  { apply Forall_rev. clear -Hst. induction st as [|e st IH]; [constructor|]. cbn in Hst. destruct Hst as ((_ & _ & He) & _ & Hst). constructor; auto. }
  assert (Hfirst : forall e es, rev st = e :: es -> exists b e', e = b :: e' /\ b <> 47%N).
  { intros e es E. assert (He : elem_ok e).
    { assert (Hin : e ∈ st) by (apply list_elem_of_In, in_rev, list_elem_of_In; rewrite E; set_solver). clear -Hst Hin. induction st as [|x st IH]; [set_solver|].
      cbn in Hst. destruct Hst as (H1 & _ & H3). apply elem_of_cons in Hin as [->|Hin]; auto. }
    destruct He as (H1 & _ & H3). destruct e as [|b e']; [done|]. exists b, e'. split; [done|]. set_solver. }
  destruct (rooted l) eqn:Er.
  - unfold clean_bytes. cbn [rooted]. rewrite N.eqb_refl. cbn [path_elems]. rewrite N.eqb_refl. cbn [foldl]. rewrite (clean_skip true [] []) by auto.
    destruct (rev st) as [|e es] eqn:E; [done|]. rewrite <- E in *. rewrite path_elems_join by (exact Hfree || by rewrite E). cbn [app].
    assert (Eh : default [] (head (rev st)) :: tail (rev st) = rev st) by (by rewrite E). rewrite Eh, clean_kept by exact Hrev. by rewrite !rev_involutive.
  - destruct (rev st) as [|e es] eqn:E; [done|]. destruct (Hfirst e es eq_refl) as (b & e' & -> & Hb). rewrite <- E in *.
    assert (Hroot : rooted (join_slash (rev st)) = false) by (rewrite E; destruct es; cbn; by apply N.eqb_neq).
    unfold clean_bytes. rewrite Hroot, path_elems_join by (exact Hfree || by rewrite E). cbn [app].
    assert (Eh : default [] (head (rev st)) :: tail (rev st) = rev st) by (by rewrite E). rewrite Eh, clean_kept by exact Hrev. rewrite rev_involutive. by rewrite E.
Qed.

(** ** The files of a run *)

Definition run_files (audio record sent played : string) : list string :=
  (if bool_decide (audio <> "") then [audio] else []) ++
  concat (map (fun out => if bool_decide (out = "") then [] else [out; out +:+ ".jsonl"]) [record; sent; played]).

Definition claims (claimed : gmap string string) (keys : list string) : Prop := forall k, is_Some (claimed !! k) <-> k ∈ keys.

Lemma claim_file_spec cwd flag path f claimed keys : claims claimed keys ->
  match claim_file cwd flag path f claimed with
  | Ok claimed' => canonicalPath cwd f ∉ keys /\ claims claimed' (keys ++ [canonicalPath cwd f])
  | Err _ => canonicalPath cwd f ∈ keys
  | Panic _ => False
  end.
Proof.
  intros H. unfold claim_file. destruct (claimed !! canonicalPath cwd f) as [prev|] eqn:E.
  - apply H. by exists prev.
  - split; [intros Hin; apply H in Hin; rewrite E in Hin; by destruct Hin|]. intros k. destruct (decide (k = canonicalPath cwd f)) as [->|Hne].
    + rewrite lookup_insert_eq. split; [set_solver|by eexists].
    + rewrite lookup_insert_ne by done. pose proof (H k) as Hk. rewrite Hk. set_solver.
Qed.

Lemma claim_outputs_spec cwd outs claimed keys : claims claimed keys -> NoDup keys ->
  let fs := concat (map (fun out => if bool_decide (snd out = "") then [] else [snd out; snd out +:+ ".jsonl"]) outs) in
  is_ok (claim_outputs cwd outs claimed) = bool_decide (NoDup (keys ++ map (canonicalPath cwd) fs)).
Proof.
  revert claimed keys. induction outs as [|[flag path] outs IH]; intros claimed keys Hc Hnd fs.
  - cbn. rewrite app_nil_r. by rewrite bool_decide_true.
  - unfold fs. cbn [claim_outputs claim_output map concat snd]. case_bool_decide as Ep; [by apply IH|]. cbn [app map].
    pose proof (claim_file_spec cwd flag path path claimed keys Hc) as H1. destruct (claim_file cwd flag path path claimed) as [c1| |]; [|..|done]; cbn [mbind result_bind].
    2: { rewrite bool_decide_false; [done|]. intros H. apply NoDup_app in H as (_ & H & _). apply (H _ H1). set_solver. }
    destruct H1 as [N1 C1]. pose proof (claim_file_spec cwd flag path (path +:+ ".jsonl") c1 _ C1) as H2.
    destruct (claim_file cwd flag path (path +:+ ".jsonl") c1) as [c2| |]; [|..|done]; cbn [mbind result_bind].
    2: { rewrite bool_decide_false; [done|]. intros H. rewrite (cons_middle (canonicalPath cwd path)), app_assoc in H. apply NoDup_app in H as (_ & H & _). apply (H _ H2). set_solver. }
    destruct H2 as [N2 C2]. rewrite (IH c2 ((keys ++ [canonicalPath cwd path]) ++ [canonicalPath cwd (path +:+ ".jsonl")])); [|exact C2|].
    + apply bool_decide_ext. rewrite <- !app_assoc. done.
    + assert (Hsn : forall (l : list string) x, NoDup l -> x ∉ l -> NoDup (l ++ [x])) by (intros l x Hl Hx; apply NoDup_app; split; [done|]; split; [set_solver|apply NoDup_singleton]). auto.
Qed.

(** A run's files are accepted exactly when their cleaned absolute paths are all
    different. *)
Theorem recording_paths_distinct cwd audio record sent played :
  validateRecordingPaths cwd audio record sent played = Ok tt <-> NoDup (map (canonicalPath cwd) (run_files audio record sent played)).
Proof.
  unfold validateRecordingPaths. set (claimed := if bool_decide (audio <> "") then _ else _). set (keys := if bool_decide (audio <> "") then [canonicalPath cwd audio] else []).
  assert (Hc : claims claimed keys).
  { intros k. unfold claimed, keys. case_bool_decide; [|rewrite lookup_empty; split; [by intros [? ?]|set_solver]].
    rewrite lookup_singleton_is_Some. set_solver. }
  assert (Hnd : NoDup keys) by (unfold keys; case_bool_decide; [apply NoDup_singleton|constructor]).
  pose proof (claim_outputs_spec cwd [("-record", record); ("-record-sent", sent); ("-record-played", played)] claimed keys Hc Hnd) as H. cbv zeta in H.
  assert (E : keys ++ map (canonicalPath cwd) (concat (map (fun out : string * string => if bool_decide (snd out = "") then [] else [snd out; snd out +:+ ".jsonl"])
    [("-record", record); ("-record-sent", sent); ("-record-played", played)])) = map (canonicalPath cwd) (run_files audio record sent played)).
  { unfold run_files. rewrite map_app. unfold keys. by destruct (bool_decide (audio <> "")). }
  rewrite E in H. destruct (claim_outputs _ _ claimed); cbn [mbind result_bind is_ok] in *.
  - split; [intros _; symmetry in H; by apply bool_decide_eq_true in H|done].
  - split; [done|]. intros Hn. by rewrite bool_decide_true in H.
  - split; [done|]. intros Hn. by rewrite bool_decide_true in H.
Qed.

(** ** Targets *)

Lemma string_app_assoc a b c : (a +:+ b) +:+ c = a +:+ (b +:+ c).
Proof. induction a as [|x a IH]; [done|]. exact (f_equal (String x) IH). Qed.

(** A target resolved from the configuration is the URL a server of the plain
    scheme validates requests to that host against, and no other server's. *)
Theorem resolved_target load configFlag configEnv serverFlag serverEnv url :
  webhookTarget load "" configFlag configEnv serverFlag serverEnv = Ok url ->
  exists path cfg srv port, resolveConfigPath configFlag configEnv = Ok path /\ load path = Ok cfg /\
    In srv (Servers cfg) /\ WebhookPort srv = Some port /\
    forall s, (url = server_url s (Host srv +:+ ":" +:+ Itoa port) "/webhook" <-> Webhook.StreamScheme s = "ws").
Proof.
  unfold webhookTarget, resolveWebhook. rewrite bool_decide_false by (intros H; by apply H). destruct (resolveConfigPath configFlag configEnv) as [path| |] eqn:Ep; try done. cbn [mbind result_bind].
  destruct (load path) as [cfg| |] eqn:El; try done. cbn [mbind result_bind]. destruct (resolveServerName serverFlag serverEnv) as [name| |]; try done. cbn [mbind result_bind].
  destruct (ServerByName cfg name) as [srv|] eqn:Es; [|done]. destruct (WebhookPort srv) as [port|] eqn:Ew; [|done]. intros [= <-].
  exists path, cfg, srv, port. split_and!; try done; [by eapply find_some|]. intros s. unfold server_url, validateScheme, streamScheme.
  destruct (decide (Webhook.StreamScheme s = "ws")) as [E|E].
  - rewrite (bool_decide_true (Webhook.StreamScheme s = "ws")) by done. rewrite bool_decide_true by done. split; [done|]. intros _. rewrite !string_app_assoc. done.
  - rewrite (bool_decide_false (Webhook.StreamScheme s = "ws")) by done. rewrite bool_decide_false by done. split; [|done]. intros H. exfalso. discriminate H.
Qed.
