(* ===== verification/Repl.v ===== *)
(** * Repl: the supervisor's prompt

    [Run], the dispatch and the handlers of [cmd/aa-server-status/repl.go], the
    questions of [prompt.go], the reload of [reload.go], the automatic mode of
    [auto.go], the interrupt counter of [signal.go] and the lock of [lock.go].
    What a verb does is behind the interface [Engine], as in the code; the
    stream of typed bytes is one, shared by the loop and by the questions an
    engine asks. *)

From stdpp Require Import pretty.
From S2P Require Export Grammar Status.

Local Open Scope Z_scope.

(** ** The typed bytes *)

(** The bytes up to an error of the stream; then each error ([true] is the end
    of file) and the bytes behind it.  Behind the last of them the stream stays
    at its end. *)
Record reader := mkReader { buffered : list N; later : list (bool * list N) }.
#[export] Instance reader_eta : Eta reader := fun r => mkReader (buffered r) (later r).

(** The bytes through the first newline, and those behind it. *)
Fixpoint cut_line (l : list N) : list N * option (list N) :=
  match l with
  | [] => ([], None)
  | b :: l => if (b =? 10)%N then ([b], Some l) else let '(line, rest) := cut_line l in (b :: line, rest)
  end.

(** [ReadString('\n')]: a line, or what is left with the error. *)
Definition ReadString (r : reader) : list N * option bool * reader :=
  match cut_line (buffered r) with
  | (line, Some rest) => (line, None, mkReader rest (later r))
  | (line, None) =>
      match later r with
      | [] => (line, Some true, mkReader [] [])
      | (e, more) :: l => (line, Some e, mkReader more l)
      end
  end.

(** ** Computations *)

Inductive verb_call :=
| CReload | CStatus | CTeardownAll
| CUp (name : string) | CDown (name : string) | CDead (name : string) | CBuild (name : string) | CBounce (name : string)
| CLogs (name : string) | CKill (pid : Z) | CCommand (name : string) | CView (name : string) (nowrap : bool).

(** What happens, in order: a line the loop reads, a line a question reads (with
    the read's error), a text or a table printed, an engine's method called. *)
Inductive repl_event :=
| ELine (line : list N) (err : option bool)
| EAnswer (line : list N) (err : option bool)
| EPrint (text : string)
| ETable (rows : list (list string))
| ECall (c : verb_call).
#[export] Instance verb_call_eq : EqDecision verb_call.
Proof. solve_decision. Defined.
#[export] Instance repl_event_eq : EqDecision repl_event.
Proof. solve_decision. Defined.

Record world (E : Type) := mkWorld { engine : E; stdin : reader; happened : list repl_event }.
Arguments mkWorld {E} _ _ _.
Arguments engine {E} _.
Arguments stdin {E} _.
Arguments happened {E} _.

Definition op (E A : Type) : Type := world E -> A * world E.
#[export] Instance op_ret E : MRet (op E) := fun A a w => (a, w).
#[export] Instance op_bind E : MBind (op E) := fun A B f m w => let '(a, w) := m w in f a w.

Section ops.
Context {E : Type}.

Definition log (ev : repl_event) : op E unit := fun w => (tt, mkWorld (engine w) (stdin w) (happened w ++ [ev])).
Definition print (text : string) : op E unit := log (EPrint text).

(** A read, logged as [mk] has it. *)
Definition read_with (mk : list N -> option bool -> repl_event) : op E (list N * option bool) := fun w =>
  let '(line, err, r) := ReadString (stdin w) in
  ((line, err), mkWorld (engine w) r (happened w ++ [mk line err])).
End ops.

(** The methods of the engine; [Err] and [Some] are errors. *)
Class Engine (E : Type) := {
  Status : op E (list ServerStatus);
  Up : string -> op E (option string);
  Down : string -> op E (option string);
  Dead : string -> op E (option string);
  Build_ : string -> op E (option string);
  Bounce : string -> op E (option string);
  ReloadConfigIfChanged : op E unit;
  Logs : string -> op E (result (list string));
  Kill : Z -> op E (option string);
  Command_ : string -> op E (result (string * list string));
  View : string -> bool -> op E (result (list string));
  TeardownAll : op E (list string)
}.

(** ** prompt.go *)

Section prompts.
Context {E : Type}.

Definition byte_string (l : list N) : string := bytes_str l.

Inductive answer_kind := AYes | ANo | AOther.

Definition classify_answer (line : list N) : answer_kind :=
  let s := ToLower (TrimSpace (byte_string line)) in
  if bool_decide (s = "y") || bool_decide (s = "yes") then AYes
  else if bool_decide (s = "n") || bool_decide (s = "no") then ANo else AOther.

(** [None]: out of fuel. *)
Fixpoint askYesNo (fuel : nat) (question : string) : op E (option (result bool)) :=
  match fuel with
  | O => mret None
  | S fuel =>
      print (question +:+ " [y/n] ");;
      x ← read_with EAnswer;
      let '(line, err) := x in
      if bool_decide (err <> None) && bool_decide (line = []) then mret (Some (Err "reading answer"))
      else
        match classify_answer line with
        | AYes => mret (Some (Ok true))
        | ANo => mret (Some (Ok false))
        | AOther =>
            if bool_decide (err <> None) then mret (Some (Err "reading answer: input ended on an invalid answer"))
            else print "please answer y or n";; askYesNo fuel question
        end
  end.

(** The lines left bound the reads. *)
Definition read_fuel (r : reader) : nat := S (length (buffered r) + foldr (fun s n => S (length (snd s) + n)) 0%nat (later r)).

Definition mergedEnv (base extra : list (string * string)) : list (string * string) :=
  map_to_list ((list_to_map extra ∪ list_to_map base) : gmap string string).

Definition choose (s : Server) (p : PromptSpec) (yes : bool) : Server :=
  s <| Args ::= (fun a => a ++ if yes then YesArgs p else NoArgs p) |>
    <| Env ::= (fun e => mergedEnv e (if yes then YesEnv p else NoEnv p)) |>.

Fixpoint ask_each (targets : list Server) : op E (option (result (list Server))) :=
  match targets with
  | [] => mret (Some (Ok []))
  | s :: targets =>
      match Prompt s with
      | None =>
          rest ← ask_each targets;
          mret (match rest with Some (Ok l) => Some (Ok (s :: l)) | e => e end)
      | Some p =>
          ans ← (fun w => askYesNo (read_fuel (stdin w)) (Question p) w);
          match ans with
          | Some (Ok yes) =>
              rest ← ask_each targets;
              mret (match rest with Some (Ok l) => Some (Ok (choose s p yes :: l)) | e => e end)
          | Some (Err m) => mret (Some (Err ("up " +:+ Name s +:+ ": " +:+ m)))
          | Some (Panic m) => mret (Some (Panic m))
          | None => mret None
          end
      end
  end.

Definition prompted (s : Server) : bool := match Prompt s with Some _ => true | None => false end.

Definition firstPromptedName (targets : list Server) : string :=
  match List.find prompted targets with Some s => Name s | None => "" end.

(** [streams]: the engine was given streams to ask on. *)
Definition askPrompts (streams : bool) (targets : list Server) : op E (option (result (list Server))) :=
  if negb (existsb prompted targets) then mret (Some (Ok targets))
  else if negb streams then mret (Some (Err ("server declares a prompt but this engine has no streams to ask on: " +:+ firstPromptedName targets)))
  else ask_each targets.

Definition resolveUpTargets (cfg : Config) (name : string) : result (list Server) :=
  if bool_decide (name <> "") then
    match ServerByName cfg name with Some s => Ok [s] | None => Err ("up " +:+ name +:+ ": no such server") end
  else Ok (List.filter Enabled (Servers cfg)).

(** [Up] and [Bounce]; [launch] is the fan-out and its report. *)
Section up.
Context (config : E -> Config) (streams : bool) (launch : list Server -> op E (option string)) (down : string -> op E (option string)).

Definition real_Up (name : string) : op E (option string) := fun w =>
  match resolveUpTargets (config (engine w)) name with
  | Err m | Panic m => (Some m, w)
  | Ok [] => (None, w)
  | Ok targets =>
      (asked ← askPrompts streams targets;
       match asked with
       | Some (Ok targets) => launch targets
       | Some (Err m) | Some (Panic m) => mret (Some m)
       | None => mret (Some "")
       end) w
  end.

Definition real_Bounce (name : string) : op E (option string) :=
  if bool_decide (name = "") then mret (Some "bounce: a server name is required (whole-fleet bounce is not supported)")
  else
    err ← down name;
    match err with Some e => mret (Some e) | None => real_Up name end.
End up.
End prompts.

(** ** repl.go *)

Section repl.
Context {E : Type} `{Engine E}.

Definition call {A} (c : verb_call) (m : op E A) : op E A := log (ECall c);; m.

Definition prompt : string := "aa-server-status> ".

Definition isExitVerb (v : Verb) : bool := match v with VerbQuit | VerbExit | VerbBye => true | _ => false end.

(** What [%v] makes of names. *)
Definition brackets (names : list string) : string := "[" +:+ String.concat " " names +:+ "]".

Definition teardown : op E unit :=
  names ← call CTeardownAll TeardownAll;
  print ("tearing down " +:+ pretty (length names) +:+ " owned server(s): " +:+ brackets names).

Definition print_all (lines : list string) : op E unit := foldr (fun l m => print l;; m) (mret tt) lines.

Definition actionHandler (label progressive : string) (c : string -> verb_call) (m : string -> op E (option string)) (cmd : Cmd) : op E unit :=
  print (progressive +:+ " " +:+ Target cmd +:+ "...");;
  err ← call (c (Target cmd)) (m (Target cmd));
  print (match err with
         | Some e => "error: " +:+ label +:+ " " +:+ Target cmd +:+ ": " +:+ e
         | None => label +:+ " " +:+ Target cmd +:+ ": ok"
         end).

Definition error_text {A} (r : result A) : string := match r with Ok _ => "" | Err m | Panic m => m end.

Definition show_status : op E unit := sts ← call CStatus Status; log (ETable (printStatus sts)).

Definition printSingleStatus (sts : list ServerStatus) (name : string) : op E unit :=
  match List.find (fun s => bool_decide (st_Name s = name)) sts with
  | Some s => log (ETable [formatRow s])
  | None => print ("error: no such server " +:+ name)
  end.

Definition handleStatus (cmd : Cmd) : op E unit :=
  if bool_decide (Target cmd = "") then show_status
  else sts ← call CStatus Status; printSingleStatus sts (Target cmd).

Definition handleLogs (cmd : Cmd) : op E unit :=
  r ← call (CLogs (Target cmd)) (Logs (Target cmd));
  match r with Ok lines => print_all lines | _ => print ("error: logs " +:+ Target cmd +:+ ": " +:+ error_text r) end.

Definition handleKill (cmd : Cmd) : op E unit :=
  match Atoi (Target cmd) with
  | Some pid =>
      if pid <=? 0 then print ("error: kill: invalid PID " +:+ Target cmd)
      else
        err ← call (CKill pid) (Kill pid);
        print (match err with Some e => "error: kill " +:+ Target cmd +:+ ": " +:+ e | None => "killed " +:+ Target cmd end)
  | None => print ("error: kill: invalid PID " +:+ Target cmd)
  end.

Definition handleCommand (cmd : Cmd) : op E unit :=
  r ← call (CCommand (Target cmd)) (Command_ (Target cmd));
  print (match r with
         | Ok (command, args) => match args with [] => command | _ => command +:+ " " +:+ Join args " " end
         | _ => "error: command " +:+ Target cmd +:+ ": " +:+ error_text r
         end).

Definition handleView (cmd : Cmd) : op E unit :=
  let nowrap := bool_decide (Modifier cmd = "nowrap") in
  r ← call (CView (Target cmd) nowrap) (View (Target cmd) nowrap);
  match r with Ok lines => print_all lines | _ => print ("error: view " +:+ Target cmd +:+ ": " +:+ error_text r) end.

Definition help_lines : list string :=
  ["commands:";
   "  status | up | down | dead | build | logs <name> | help | quit | exit | bye";
   "  kill <pid>          send SIGTERM to a process by PID";
   "  command <name>      print the launch command line for a server";
   "  <name>              show one server's status";
   "  <name> view [nowrap]   show last 50 lines of server log";
   "  <name> up|down|build   act on one server";
   "  <name> bounce       take one server down, then straight back up";
   "  (bare Enter)        show status"].

(** [verbHandlers]; a verb that leaves the loop has no handler. *)
Definition verbHandlers (v : Verb) : option (Cmd -> op E unit) :=
  match v with
  | VerbUp => Some (actionHandler "up" "starting" CUp Up)
  | VerbDown => Some (actionHandler "down" "stopping" CDown Down)
  | VerbDead => Some (actionHandler "dead" "reaping" CDead Dead)
  | VerbBuild => Some (actionHandler "build" "building" CBuild Build_)
  | VerbBounce => Some (actionHandler "bounce" "bouncing" CBounce Bounce)
  | VerbStatus => Some handleStatus
  | VerbLogs => Some handleLogs
  | VerbKill => Some handleKill
  | VerbCommand => Some handleCommand
  | VerbView => Some handleView
  | VerbHelp => Some (fun _ => print_all help_lines)
  | VerbQuit | VerbExit | VerbBye => None
  end.

Definition dispatch (cmd : Cmd) : op E unit :=
  match verbHandlers (cmd_Verb cmd) with Some handle => handle cmd | None => print "error: unhandled command" end.

Definition reload : op E unit := call CReload ReloadConfigIfChanged.

(** The loop; [true] is a nil error.  [None]: out of fuel. *)
Fixpoint repl_loop (fuel : nat) : op E (option bool) :=
  match fuel with
  | O => mret None
  | S fuel =>
      print prompt;;
      x ← read_with ELine;
      let '(line, err) := x in
      let eof := match err with Some e => e | None => true end in
      if bool_decide (err <> None) && bool_decide (line = []) then teardown;; mret (Some eof)
      else
        let go_on := match err with Some _ => teardown;; mret (Some eof) | None => repl_loop fuel end in
        match ParseCommand (TrimRight (bytes_str line) (bytes_str [13; 10]%N)) with
        | Ok cmd => if isExitVerb (cmd_Verb cmd) then teardown;; mret (Some true) else reload;; dispatch cmd;; go_on
        | Err m | Panic m => print ("error: " +:+ m);; go_on
        end
  end.

Definition Run (fuel : nat) : op E (option bool) := reload;; show_status;; repl_loop fuel.

(** ** auto.go *)

Fixpoint down_each (sts : list ServerStatus) (firstErr : option string) : op E (option string) :=
  match sts with
  | [] => mret firstErr
  | s :: sts =>
      if negb (st_Enabled s) then down_each sts firstErr
      else
        err ← call (CDown (st_Name s)) (Down (st_Name s));
        match err with
        | Some e => print ("down " +:+ st_Name s +:+ ": " +:+ e);; down_each sts (match firstErr with None => Some e | f => f end)
        | None => down_each sts firstErr
        end
  end.

Definition coldDown : op E (option string) := sts ← call CStatus Status; down_each sts None.

(** [mode] as [parseFlags] lets it through. *)
Definition RunAuto (mode_up : bool) : op E (option string) :=
  if mode_up then
    reload;;
    err ← call (CUp "") (Up "");
    match err with Some e => mret (Some e) | None => show_status;; teardown;; mret None end
  else coldDown.
End repl.

(** ** signal.go *)

Definition sigintWindow : Z := 2 * 1000000000.

Record sigintCounter := mkCounter { count : Z; first : Z }.

Definition register (now : Z) (c : sigintCounter) : sigintCounter * bool :=
  if (count c =? 0) || (sigintWindow <? now - first c) then (mkCounter 1 now, false)
  else if 3 <=? count c + 1 then (mkCounter 0 (first c), true) else (mkCounter (count c + 1) (first c), false).

Inductive os_signal := SIGINT | SIGTSTP.

Definition handleSignal (s : os_signal) (now : Z) (c : sigintCounter) : sigintCounter * bool :=
  match s with SIGTSTP => (c, false) | SIGINT => register now c end.

(** How many signals are taken until one ends the supervisor, if one does. *)
Fixpoint runSignalLoop (sigs : list (os_signal * Z)) (c : sigintCounter) : option nat :=
  match sigs with
  | [] => None
  | (s, now) :: sigs => let '(c, done) := handleSignal s now c in if done then Some 1%nat else S <$> runSignalLoop sigs c
  end.

(** ** reload.go *)

(** [None]: the file could not be looked at. *)
Definition fileStamp := option Z.

Record configReloader := mkReloader { stamp : fileStamp; reloads : Z; live : Config }.
#[export] Instance reloader_eta : Eta configReloader := fun r => mkReloader (stamp r) (reloads r) (live r).

(** [maybeReload] at a look that stamps the file [now] and, if it is read then,
    loads it as [load]; with what is printed. *)
Definition maybeReload (now : fileStamp) (load : result Config) (r : configReloader) : configReloader * option string :=
  if bool_decide (now = stamp r) then (r, None)
  else
    let r := r <| stamp := now |> <| reloads ::= Z.succ |> in
    match load with
    | Ok cfg => (r <| live := cfg |>, None)
    | Err m | Panic m => (r, Some ("config reload failed, keeping the previous config: " +:+ m))
    end.

Fixpoint reload_run (looks : list (fileStamp * result Config)) (r : configReloader) : configReloader :=
  match looks with [] => r | (now, load) :: looks => reload_run looks (fst (maybeReload now load r)) end.

(** ** lock.go *)

(** A process: not started; the file open; holding the flock with the file as it
    found it; truncated; with its pid written; told that the flock is taken;
    refused, with the pid it names; gone. *)
Inductive lock_pc := LNone | LOpen | LHeld | LTruncated | LAcquired | LBusy | LRefused (names : option Z) | LGone.

(** The pid the file holds, if it holds one. *)
Record lockfile := mkLock { contents : option Z; pcs : gmap Z lock_pc; holder : option Z }.
#[export] Instance lockfile_eta : Eta lockfile := fun l => mkLock (contents l) (pcs l) (holder l).

Inductive lock_event :=
| LStart (pid : Z)
| LFlock (pid : Z)
| LTruncate (pid : Z) (ok : bool)
| LWrite (pid : Z) (ok : bool) (leaves : option Z)  (* what a failed write leaves *)
| LReadHolder (pid : Z)
| LRelease (pid : Z)
| LDie (pid : Z).

Definition pc_of (l : lockfile) (pid : Z) : lock_pc := default LNone (pcs l !! pid).
Definition set_pc (pid : Z) (pc : lock_pc) (l : lockfile) : lockfile := l <| pcs ::= insert pid pc |>.

(** The kernel drops a flock with the last descriptor of its file. *)
Definition gone (pid : Z) (l : lockfile) : lockfile :=
  set_pc pid LGone (if bool_decide (holder l = Some pid) then l <| holder := None |> else l).

Definition lock_step (e : lock_event) (l : lockfile) : option lockfile :=
  match e with
  | LStart pid => match pc_of l pid with LNone => Some (set_pc pid LOpen l) | _ => None end
  | LFlock pid =>
      match pc_of l pid with
      | LOpen => Some (match holder l with None => set_pc pid LHeld (l <| holder := Some pid |>) | Some _ => set_pc pid LBusy l end)
      | _ => None
      end
  | LTruncate pid ok =>
      match pc_of l pid with
      | LHeld => Some (if ok then set_pc pid LTruncated (l <| contents := None |>) else gone pid l)
      | _ => None
      end
  | LWrite pid ok leaves =>
      match pc_of l pid with
      | LTruncated => Some (if ok then set_pc pid LAcquired (l <| contents := Some pid |>) else gone pid (l <| contents := leaves |>))
      | _ => None
      end
  | LReadHolder pid => match pc_of l pid with LBusy => Some (set_pc pid (LRefused (contents l)) l) | _ => None end
  | LRelease pid => match pc_of l pid with LAcquired => Some (gone pid l) | _ => None end
  | LDie pid => match pc_of l pid with LNone | LGone => None | _ => Some (gone pid l) end
  end.

Fixpoint lock_run (es : list lock_event) (l : lockfile) : option lockfile :=
  match es with [] => Some l | e :: es => l' ← lock_step e l; lock_run es l' end.

(** Any contents an earlier run left. *)
Definition unlocked (contents : option Z) : lockfile := mkLock contents ∅ None.

(** ** The laws of an engine

    A method may read and print; it does not write into the loop's record, and
    what it reads is what the stream has. *)

Definition own_event (ev : repl_event) : bool := match ev with ELine _ _ | ECall _ => true | _ => false end.
Definition own (evs : list repl_event) : list repl_event := List.filter own_event evs.

(** The stream behind the reads of [evs], if it gives them. *)
Fixpoint feed (evs : list repl_event) (r : reader) : option reader :=
  match evs with
  | [] => Some r
  | (ELine l e | EAnswer l e) :: evs => if bool_decide (fst (ReadString r) = (l, e)) then feed evs (snd (ReadString r)) else None
  | _ :: evs => feed evs r
  end.

Definition steps {E} (w : world E) (evs : list repl_event) (w' : world E) : Prop :=
  happened w' = happened w ++ evs /\ feed evs (stdin w) = Some (stdin w').

(** Whatever the state, the loop's own events in [m] are [os]. *)
Definition yields {E A} (m : op E A) (os : list repl_event) : Prop :=
  forall w, exists evs, steps w evs (snd (m w)) /\ own evs = os.

Class EngineLaws (E : Type) `{Engine E} : Prop := {
  Status_own : yields Status [];
  Up_own name : yields (Up name) [];
  Down_own name : yields (Down name) [];
  Dead_own name : yields (Dead name) [];
  Build_own name : yields (Build_ name) [];
  Bounce_own name : yields (Bounce name) [];
  Reload_own : yields ReloadConfigIfChanged [];
  Logs_own name : yields (Logs name) [];
  Kill_own pid : yields (Kill pid) [];
  Command_own name : yields (Command_ name) [];
  View_own name nowrap : yields (View name nowrap) [];
  TeardownAll_own : yields TeardownAll []
}.

Lemma feed_app evs evs' r r' : feed evs r = Some r' -> feed (evs ++ evs') r = feed evs' r'.
Proof.
  revert r. induction evs as [|ev evs IH]; intros r; cbn [feed app]; [by intros [= ->]|].
  destruct ev; try apply IH; case_bool_decide; try done; apply IH.
Qed.

Lemma steps_refl {E} (w : world E) : steps w [] w.
Proof. split; [by rewrite app_nil_r|done]. Qed.

Lemma steps_trans {E} (w1 w2 w3 : world E) evs evs' : steps w1 evs w2 -> steps w2 evs' w3 -> steps w1 (evs ++ evs') w3.
Proof. intros [H1 F1] [H2 F2]. split; [by rewrite H2, H1, app_assoc|]. by rewrite (feed_app _ _ _ _ F1). Qed.

Lemma own_app evs evs' : own (evs ++ evs') = own evs ++ own evs'.
Proof. apply List.filter_app. Qed.

Section yields.
Context {E : Type}.

Lemma yields_ret {A} (a : A) : yields (mret a : op E A) [].
Proof. intros w. exists []. split; [apply steps_refl|done]. Qed.

Lemma yields_log ev : (match ev with ELine _ _ | EAnswer _ _ => false | _ => true end) = true -> yields (log ev : op E unit) (own [ev]).
Proof. intros Hev w. exists [ev]. split; [|done]. split; [done|]. by destruct ev. Qed.

Lemma yields_print text : yields (print text : op E unit) [].
Proof. by apply (yields_log (EPrint text)). Qed.

Lemma yields_bind {A B} (m : op E A) (f : A -> op E B) os os' : yields m os -> (forall a, yields (f a) os') -> yields (m ≫= f) (os ++ os').
Proof.
  intros Hm Hf w. unfold mbind, op_bind. destruct (Hm w) as (evs & Hs & Ho). destruct (m w) as [a w1]. cbn in Hs.
  destruct (Hf a w1) as (evs' & Hs' & Ho'). exists (evs ++ evs'). split; [by eapply steps_trans|]. by rewrite own_app, Ho, Ho'.
Qed.

Lemma yields_then {A B} (m : op E A) (f : A -> op E B) os : yields m [] -> (forall a, yields (f a) os) -> yields (m ≫= f) os.
Proof. apply (yields_bind m f [] os). Qed.

Lemma yields_end {A B} (m : op E A) (f : A -> op E B) os : yields m os -> (forall a, yields (f a) []) -> yields (m ≫= f) os.
Proof. intros Hm Hf. rewrite <- (app_nil_r os). by apply yields_bind. Qed.
End yields.

(** ** What a line makes the loop do *)

Definition cmd_calls (cmd : Cmd) : list verb_call :=
  let t := Target cmd in
  match cmd_Verb cmd with
  | VerbStatus => [CStatus]
  | VerbUp => [CUp t]
  | VerbDown => [CDown t]
  | VerbDead => [CDead t]
  | VerbBuild => [CBuild t]
  | VerbBounce => [CBounce t]
  | VerbLogs => [CLogs t]
  | VerbKill => match Atoi t with Some pid => if pid <=? 0 then [] else [CKill pid] | None => [] end
  | VerbCommand => [CCommand t]
  | VerbView => [CView t (bool_decide (Modifier cmd = "nowrap"))]
  | VerbHelp | VerbQuit | VerbExit | VerbBye => []
  end.

(** The command on a line; [None] for nothing read. *)
Definition line_command (l : list N) (err : option bool) : option (result Cmd) :=
  if bool_decide (err <> None) && bool_decide (l = []) then None else Some (ParseCommand (TrimRight (bytes_str l) (bytes_str [13; 10]%N))).

Definition leaves_loop (l : list N) (err : option bool) : bool :=
  match line_command l err with Some (Ok cmd) => isExitVerb (cmd_Verb cmd) | _ => false end.

Definition line_calls (l : list N) (err : option bool) : list verb_call :=
  match line_command l err with
  | Some (Ok cmd) => if isExitVerb (cmd_Verb cmd) then [] else CReload :: cmd_calls cmd
  | _ => []
  end.

Definition turn (x : list N * option bool) : list repl_event := ELine (fst x) (snd x) :: map ECall (line_calls (fst x) (snd x)).

(** Every line but the last ends in a newline and is not one to leave by; the
    last is one, or has the stream's error, which decides the result. *)
Definition ended (lines : list (list N * option bool)) (res : bool) : Prop :=
  exists ls l err, lines = ls ++ [(l, err)] /\ Forall (fun x => snd x = None /\ leaves_loop (fst x) None = false) ls /\
    (leaves_loop l err = true /\ res = true \/ leaves_loop l err = false /\ err = Some res).

Section run.
Context {E : Type} `{EngineLaws E}.

Lemma yields_call {A} c (m : op E A) : yields m [] -> yields (call c m) [ECall c].
Proof. intros Hm. apply (yields_end (log (ECall c))); [by apply (yields_log (ECall c))|done]. Qed.

Lemma yields_print_all lines : yields (print_all lines : op E unit) [].
Proof. induction lines as [|l ls IH]; [apply yields_ret|]. apply yields_then; [apply yields_print|done]. Qed.

#[local] Hint Resolve yields_print yields_print_all yields_ret : yields.
#[local] Hint Resolve Status_own Up_own Down_own Dead_own Build_own Bounce_own Reload_own Logs_own Kill_own Command_own View_own TeardownAll_own : yields.

Lemma yields_table rows : yields (log (ETable rows) : op E unit) [].
Proof. by apply (yields_log (ETable rows)). Qed.
#[local] Hint Resolve yields_table : yields.

Lemma yields_teardown : yields (teardown : op E unit) [ECall CTeardownAll].
Proof. apply yields_end; [|intros; auto with yields]. apply yields_call. auto with yields. Qed.

Lemma yields_reload : yields (reload : op E unit) [ECall CReload].
Proof. apply yields_call. auto with yields. Qed.

Lemma yields_status : yields (show_status : op E unit) [ECall CStatus].
Proof. apply yields_end; [|intros; auto with yields]. apply yields_call. auto with yields. Qed.

Lemma yields_action label progressive c (m : string -> op E (option string)) cmd :
  (forall name, yields (m name) []) -> yields (actionHandler label progressive c m cmd) [ECall (c (Target cmd))].
Proof.
  intros Hm. apply yields_then; [auto with yields|]. intros _. apply yields_end; [by apply yields_call|]. intros. auto with yields.
Qed.

Lemma yields_dispatch cmd : isExitVerb (cmd_Verb cmd) = false -> yields (dispatch cmd : op E unit) (map ECall (cmd_calls cmd)).
Proof.
  unfold dispatch, cmd_calls. intros Hx.
  assert (Hact : forall label progressive c m, (forall name, yields (m name) []) -> yields (actionHandler label progressive c m cmd : op E unit) [ECall (c (Target cmd))])
    by (intros; by apply yields_action).
  destruct (cmd_Verb cmd); try discriminate Hx; cbn [verbHandlers map].
  - unfold handleStatus. case_bool_decide; [apply yields_status|]. apply yields_end; [apply yields_call; auto with yields|].
    intros sts. unfold printSingleStatus. destruct (List.find _ sts); auto with yields.
  - apply Hact. auto with yields.
  - apply Hact. auto with yields.
  - apply Hact. auto with yields.
  - apply Hact. auto with yields.
  - apply yields_end; [apply yields_call; auto with yields|]. intros [?| |]; auto with yields.
  - auto with yields.
  - unfold handleKill. destruct (Atoi (Target cmd)) as [pid|]; [|auto with yields]. destruct (pid <=? 0); [auto with yields|].
    apply yields_end; [apply yields_call; auto with yields|]. intros. auto with yields.
  - apply yields_end; [apply yields_call; auto with yields|]. intros. auto with yields.
  - apply yields_end; [apply yields_call; auto with yields|]. intros [?| |]; auto with yields.
  - apply Hact. auto with yields.
Qed.

(** ** The loop *)

Lemma cut_line_length l line rest : cut_line l = (line, Some rest) -> (length rest < length l)%nat.
Proof.
  revert line. induction l as [|b l IH]; intros line; cbn [cut_line]; [done|]. destruct (b =? 10)%N; [intros [= <- <-]; cbn; lia|].
  destruct (cut_line l) as [line' rest']. intros [= <- ->]. specialize (IH line' eq_refl). cbn. lia.
Qed.

Lemma cut_line_rest l line : cut_line l = (line, None) -> line = l.
Proof.
  revert line. induction l as [|b l IH]; intros line; cbn [cut_line]; [by intros [= <-]|]. destruct (b =? 10)%N; [done|].
  destruct (cut_line l) as [line' rest']. intros [= <- ->]. by rewrite (IH line' eq_refl).
Qed.

Lemma ReadString_le r : (read_fuel (snd (ReadString r)) <= read_fuel r)%nat.
Proof.
  unfold ReadString, read_fuel. destruct r as [b l]. cbn [buffered later]. destruct (cut_line b) as [line [rest|]] eqn:EC; cbn [snd buffered later].
  - apply cut_line_length in EC. lia.
  - destruct l as [|[e more] l]; cbn; lia.
Qed.

Lemma ReadString_lt r line r' : ReadString r = (line, None, r') -> (read_fuel r' < read_fuel r)%nat.
Proof.
  unfold ReadString, read_fuel. destruct r as [b l]. cbn [buffered later]. destruct (cut_line b) as [line' [rest|]] eqn:EC.
  - intros [= <- <-]. apply cut_line_length in EC. cbn. lia.
  - by destruct l as [|[e more] l].
Qed.

Lemma feed_le evs r r' : feed evs r = Some r' -> (read_fuel r' <= read_fuel r)%nat.
Proof.
  revert r. induction evs as [|ev evs IH]; intros r; cbn [feed]; [by intros [= ->]|].
  destruct ev; try apply IH; case_bool_decide; try done; intros Hf%IH; pose proof (ReadString_le r); lia.
Qed.

Lemma line_command_exit l err cmd : line_command l err = Some (Ok cmd) -> isExitVerb (cmd_Verb cmd) = true ->
  leaves_loop l err = true /\ line_calls l err = [].
Proof. intros Hc Hx. unfold leaves_loop, line_calls. by rewrite Hc, Hx. Qed.

(** Behind the prompt and a line read. *)
Lemma read_line (w : world E) : exists w1,
  (print prompt;; read_with ELine) w = (fst (ReadString (stdin w)), w1) /\
  steps w [EPrint prompt; ELine (fst (fst (ReadString (stdin w)))) (snd (fst (ReadString (stdin w))))] w1 /\
  stdin w1 = snd (ReadString (stdin w)).
Proof.
  unfold mbind, op_bind, print, log, read_with. cbn. destruct (ReadString (stdin w)) as [[line err] r] eqn:EC. eexists. split; [done|]. cbn.
  split; [|done]. split; cbn; [by rewrite <- app_assoc|]. rewrite EC. cbn. by rewrite bool_decide_eq_true_2.
Qed.

Definition loop_body (fuel : nat) (x : list N * option bool) : op E (option bool) :=
  let '(line, err) := x in
  let eof := match err with Some e => e | None => true end in
  if bool_decide (err <> None) && bool_decide (line = []) then teardown;; mret (Some eof)
  else
    let go_on := match err with Some _ => teardown;; mret (Some eof) | None => repl_loop fuel end in
    match ParseCommand (TrimRight (bytes_str line) (bytes_str [13; 10]%N)) with
    | Ok cmd => if isExitVerb (cmd_Verb cmd) then teardown;; mret (Some true) else reload;; dispatch cmd;; go_on
    | Err m | Panic m => print ("error: " +:+ m);; go_on
    end.

Lemma repl_loop_unfold fuel (w : world E) : repl_loop (S fuel) w = let '(x, w1) := (print prompt;; read_with ELine) w in loop_body fuel x w1.
Proof.
  cbn [repl_loop]. unfold loop_body, mbind, op_bind. destruct (print prompt w) as [[] w0].
  destruct (read_with ELine w0) as [[line err] w1]. reflexivity.
Qed.

(** [m], then the rest. *)
Lemma bind_run {A B} (m : op E A) (f : A -> op E B) os (w : world E) : yields m os ->
  exists a w1 evs, m w = (a, w1) /\ (m ≫= f) w = f a w1 /\ steps w evs w1 /\ own evs = os.
Proof.
  intros Hm. destruct (Hm w) as (evs & Hs & Ho). unfold mbind, op_bind. destruct (m w) as [a w1]. by exists a, w1, evs.
Qed.

Lemma teardown_run {B} (b : B) (w : world E) : exists w1 evs, (teardown;; mret b) w = (b, w1) /\ steps w evs w1 /\ own evs = [ECall CTeardownAll].
Proof. destruct (bind_run teardown (fun _ => mret b) _ w yields_teardown) as (a & w1 & evs & _ & -> & Hs & Ho). by exists w1, evs. Qed.

Definition runs_to (w : world E) (m : op E (option bool)) : Prop :=
  exists res w' lines evs, m w = (Some res, w') /\ steps w evs w' /\
    own evs = concat (map turn lines) ++ [ECall CTeardownAll] /\ ended lines res.

(** The last line. *)
Lemma runs_to_last (w : world E) line err (m : op E (option bool)) res evs1 w1 :
  steps w evs1 w1 -> own evs1 = turn (line, err) ->
  m w = (teardown;; mret (Some res)) w1 ->
  (leaves_loop line err = true /\ res = true \/ leaves_loop line err = false /\ err = Some res) ->
  runs_to w m.
Proof.
  intros Hs Ho Hm He. destruct (teardown_run (Some res) w1) as (w2 & evs2 & Ht & Hs2 & Ho2). rewrite Ht in Hm.
  exists res, w2, [(line, err)], (evs1 ++ evs2). split_and!; [done|by eapply steps_trans|by rewrite own_app, Ho, Ho2; cbn; rewrite app_nil_r|].
  exists [], line, err. by split_and!.
Qed.

Lemma repl_loop_runs fuel : forall w : world E, (read_fuel (stdin w) <= fuel)%nat -> runs_to w (repl_loop fuel).
Proof.
  induction fuel as [|fuel IH]; intros w Hf; [unfold read_fuel in Hf; lia|].
  destruct (read_line w) as (w1 & Hr & Hs & Hin). pose proof (repl_loop_unfold fuel w) as Hu. rewrite Hr in Hu.
  destruct (ReadString (stdin w)) as [[line err] r] eqn:ER. cbn [fst snd] in *. unfold loop_body in Hu.
  destruct (bool_decide (err <> None) && bool_decide (line = [])) eqn:Hend.
  - assert (Hcmd : line_command line err = None) by (unfold line_command; by rewrite Hend).
    apply andb_true_iff in Hend as [Herr _]. apply bool_decide_eq_true in Herr. destruct err as [e|]; [|done].
    eapply (runs_to_last w line (Some e)); [exact Hs| |exact Hu|].
    + unfold turn, line_calls. cbn [fst snd]. by rewrite Hcmd.
    + right. unfold leaves_loop. by rewrite Hcmd.
  - assert (Hcmd : line_command line err = Some (ParseCommand (TrimRight (bytes_str line) (bytes_str [13; 10]%N)))) by (unfold line_command; by rewrite Hend).
    set (go_on := match err with Some _ => teardown;; mret (Some (match err with Some e => e | None => true end)) | None => repl_loop fuel end) in *.
    (* what follows a line that does not leave *)
    assert (Hgo : forall evs2 w2, steps w1 evs2 w2 -> own evs2 = map ECall (line_calls line err) -> leaves_loop line err = false ->
              repl_loop (S fuel) w = go_on w2 -> runs_to w (repl_loop (S fuel))).
    { intros evs2 w2 Hs2 Ho2 Hl Hg. pose proof (steps_trans _ _ _ _ _ Hs Hs2) as Hs3.
      assert (Ho3 : own ([EPrint prompt; ELine line err] ++ evs2) = turn (line, err)) by (rewrite own_app, Ho2; done).
      destruct err as [e|]; [eapply (runs_to_last w line (Some e)); eauto|].
      assert (Hf2 : (read_fuel (stdin w2) <= fuel)%nat).
      { destruct Hs2 as [_ Hfeed]. apply feed_le in Hfeed. apply ReadString_lt in ER. rewrite Hin in Hfeed. lia. }
      destruct (IH w2 Hf2) as (res & w' & lines & evs4 & Hrun & Hs4 & Ho4 & ls & l & er & -> & Hall & Hlast).
      exists res, w', ((line, None) :: ls ++ [(l, er)]), (([EPrint prompt; ELine line None] ++ evs2) ++ evs4). split_and!.
      - by rewrite Hg.
      - by eapply steps_trans.
      - rewrite own_app, Ho3, Ho4. cbn [map concat]. by rewrite app_assoc.
      - exists ((line, None) :: ls), l, er. split_and!; [done|by constructor|done]. }
    destruct (ParseCommand _) as [cmd|m|m] eqn:EP.
    + destruct (isExitVerb (cmd_Verb cmd)) eqn:EX.
      * destruct (line_command_exit _ _ _ Hcmd EX) as [Hl Hc]. eapply (runs_to_last w line err); [exact Hs| |exact Hu|by left].
        unfold turn. cbn [fst snd]. by rewrite Hc.
      * destruct (bind_run reload (fun _ => dispatch cmd;; go_on) _ w1 yields_reload) as ([] & w2 & evs2 & _ & Hm & Hs2 & Ho2). rewrite Hm in Hu.
        destruct (bind_run (dispatch cmd) (fun _ => go_on) _ w2 (yields_dispatch cmd EX)) as ([] & w3 & evs3 & _ & Hm3 & Hs3 & Ho3). rewrite Hm3 in Hu.
        eapply Hgo; [by eapply steps_trans| | |exact Hu].
        -- rewrite own_app, Ho2, Ho3. unfold line_calls. by rewrite Hcmd, EX.
        -- unfold leaves_loop. by rewrite Hcmd, EX.
    + destruct (bind_run (print ("error: " +:+ m)) (fun _ => go_on) _ w1 (yields_print _)) as ([] & w2 & evs2 & _ & Hm & Hs2 & Ho2). rewrite Hm in Hu.
      eapply Hgo; [exact Hs2| | |exact Hu]; [rewrite Ho2; unfold line_calls|unfold leaves_loop]; by rewrite Hcmd.
    + destruct (bind_run (print ("error: " +:+ m)) (fun _ => go_on) _ w1 (yields_print _)) as ([] & w2 & evs2 & _ & Hm & Hs2 & Ho2). rewrite Hm in Hu.
      eapply Hgo; [exact Hs2| | |exact Hu]; [rewrite Ho2; unfold line_calls|unfold leaves_loop]; by rewrite Hcmd.
Qed.

(** C31: Whatever is typed and whatever the engine does, the loop comes to an end: it
    reloads and shows the status once, then for each line read, in order, reloads and makes
    exactly the calls of the command on it, an unterminated last line included and none for
    a line that is no command or leaves, and at the end, once, tears everything down; every
    byte of the stream is read once, as a line or as the answer to a question. *)
Theorem session_dispatched (w : world E) (fuel : nat) :
  (read_fuel (stdin w) <= fuel)%nat ->
  exists res w' lines evs, Run fuel w = (Some res, w') /\
    happened w' = happened w ++ evs /\ feed evs (stdin w) = Some (stdin w') /\
    own evs = [ECall CReload; ECall CStatus] ++ concat (map turn lines) ++ [ECall CTeardownAll] /\ ended lines res.
Proof.
  intros Hf. unfold Run.
  destruct (bind_run reload (fun _ => show_status;; repl_loop fuel) _ w yields_reload) as ([] & w1 & evs1 & _ & -> & Hs1 & Ho1).
  destruct (bind_run show_status (fun _ => repl_loop fuel) _ w1 yields_status) as ([] & w2 & evs2 & _ & -> & Hs2 & Ho2).
  pose proof (steps_trans _ _ _ _ _ Hs1 Hs2) as Hs. assert (Hf2 : (read_fuel (stdin w2) <= fuel)%nat) by (destruct Hs as [_ ?%feed_le]; lia).
  destruct (repl_loop_runs fuel w2 Hf2) as (res & w' & lines & evs3 & Hrun & Hs3 & Ho3 & He).
  destruct (steps_trans _ _ _ _ _ Hs Hs3) as [Hh Hfe]. exists res, w', lines, ((evs1 ++ evs2) ++ evs3).
  split_and!; [done..| |done]. by rewrite !own_app, Ho1, Ho2, Ho3.
Qed.

(** [coldDown] takes down every enabled server of the table, in its order, and
    answers the first error. *)
Lemma down_each_yields sts firstErr : yields (down_each sts firstErr : op E (option string)) (map (fun s => ECall (CDown (st_Name s))) (List.filter st_Enabled sts)).
Proof.
  revert firstErr. induction sts as [|s sts IH]; intros f; cbn [down_each List.filter map]; [apply yields_ret|].
  destruct (st_Enabled s); cbn [negb map]; [|apply IH].
  apply (yields_bind _ _ [_]); [apply yields_call; auto with yields|]. intros [e|]; [|apply IH].
  apply yields_then; [auto with yields|]. intros _. apply IH.
Qed.
End run.

(** ** The questions *)

(** The answers among what was read. *)
Definition verdict (l : list N) : option bool := match classify_answer l with AYes => Some true | ANo => Some false | AOther => None end.
Definition read_answers (evs : list repl_event) : list (list N * option bool) :=
  omap (fun ev => match ev with EAnswer l err => Some (l, err) | _ => None end) evs.
Definition verdicts (evs : list repl_event) : list bool := omap (fun x => verdict (fst x)) (read_answers evs).

(** The targets with the branches the answers choose. *)
Fixpoint resolve (targets : list Server) (answers : list bool) : list Server :=
  match targets with
  | [] => []
  | s :: targets =>
      match Prompt s, answers with
      | None, _ => s :: resolve targets answers
      | Some p, a :: answers => choose s p a :: resolve targets answers
      | Some p, [] => []
      end
  end.

Definition questions (targets : list Server) : nat := length (List.filter prompted targets).

Lemma verdicts_app evs evs' : verdicts (evs ++ evs') = verdicts evs ++ verdicts evs'.
Proof. unfold verdicts, read_answers. by rewrite !omap_app. Qed.

Lemma read_answers_app evs evs' : read_answers (evs ++ evs') = read_answers evs ++ read_answers evs'.
Proof. unfold read_answers. by rewrite omap_app. Qed.

Section questions.
Context {E : Type}.

(** What a question comes to: its events hold one answer, the last read; or
    none, and the last read has the stream's error. *)
Definition answered (r : result bool) (evs : list repl_event) : Prop :=
  match r with
  | Ok yes => verdicts evs = [yes]
  | Err _ => verdicts evs = [] /\ exists l e, last (read_answers evs) = Some (l, Some e)
  | Panic _ => False
  end.

Lemma ask_read (w : world E) text : exists w1,
  (print text;; read_with EAnswer) w = (fst (ReadString (stdin w)), w1) /\
  steps w [EPrint text; EAnswer (fst (fst (ReadString (stdin w)))) (snd (fst (ReadString (stdin w))))] w1 /\
  stdin w1 = snd (ReadString (stdin w)).
Proof.
  unfold mbind, op_bind, print, log, read_with. cbn. destruct (ReadString (stdin w)) as [[line err] r] eqn:EC. eexists. split; [done|]. cbn.
  split; [|done]. split; cbn; [by rewrite <- app_assoc|]. rewrite EC. cbn. by rewrite bool_decide_eq_true_2.
Qed.

Lemma askYesNo_unfold fuel question (w : world E) : askYesNo (S fuel) question w =
  let '((line, err), w1) := (print (question +:+ " [y/n] ");; read_with EAnswer) w in
  (if bool_decide (err <> None) && bool_decide (line = []) then mret (Some (Err "reading answer"))
   else match classify_answer line with
        | AYes => mret (Some (Ok true))
        | ANo => mret (Some (Ok false))
        | AOther => if bool_decide (err <> None) then mret (Some (Err "reading answer: input ended on an invalid answer"))
                    else print "please answer y or n";; askYesNo fuel question
        end) w1.
Proof.
  cbn [askYesNo]. unfold mbind, op_bind. destruct (print _ w) as [[] w0]. destruct (read_with EAnswer w0) as [[line err] w1]. reflexivity.
Qed.

Lemma askYesNo_answered fuel question : forall w : world E, (read_fuel (stdin w) <= fuel)%nat ->
  exists r w' evs, askYesNo fuel question w = (Some r, w') /\ steps w evs w' /\ own evs = [] /\ answered r evs.
Proof.
  induction fuel as [|fuel IH]; intros w Hf; [unfold read_fuel in Hf; lia|].
  rewrite askYesNo_unfold. destruct (ask_read w (question +:+ " [y/n] ")) as (w1 & -> & Hs & Hin).
  destruct (ReadString (stdin w)) as [[line err] r] eqn:ER. cbn [fst snd] in *.
  destruct (bool_decide (err <> None) && bool_decide (line = [])) eqn:Hend.
  { apply andb_true_iff in Hend as [Herr Hl]. apply bool_decide_eq_true in Herr, Hl. destruct err as [e|]; [|done]. subst line.
    exists (Err "reading answer"), w1. eexists. split_and!; [done|exact Hs|done|]. split; [vm_compute; reflexivity|by exists [], e]. }
  clear Hend. destruct (classify_answer line) eqn:EA.
  - exists (Ok true), w1. eexists. split_and!; [done|exact Hs|done|]. unfold answered, verdicts, read_answers, verdict. cbn. by rewrite EA.
  - exists (Ok false), w1. eexists. split_and!; [done|exact Hs|done|]. unfold answered, verdicts, read_answers, verdict. cbn. by rewrite EA.
  - assert (Hv : verdicts [EPrint (question +:+ " [y/n] "); EAnswer line err] = []) by (unfold verdicts, read_answers, verdict; cbn; by rewrite EA).
    destruct err as [e|]; cbn [bool_decide].
    + rewrite bool_decide_eq_true_2 by done. exists (Err "reading answer: input ended on an invalid answer"), w1. eexists.
      split_and!; [done|exact Hs|done|]. split; [done|by exists line, e].
    + rewrite bool_decide_eq_false_2 by (intros Hn; by apply Hn).
      destruct (bind_run (print "please answer y or n") (fun _ => askYesNo fuel question) _ w1 (yields_print _)) as ([] & w2 & evs2 & Hp & -> & Hs2 & _).
      injection Hp as <-. destruct Hs2 as [Hh2 Hf2]. cbn in Hh2. apply app_inv_head in Hh2 as <-.
      destruct (IH (mkWorld (engine w1) (stdin w1) (happened w1 ++ [EPrint "please answer y or n"]))) as (r' & w' & evs & Hrun & Hs3 & Ho & Ha).
      { cbn. rewrite Hin. apply ReadString_lt in ER. lia. }
      exists r', w', (([EPrint (question +:+ " [y/n] "); EAnswer line None] ++ [EPrint "please answer y or n"]) ++ evs). split_and!; [exact Hrun| |by rewrite own_app, Ho|].
      * eapply steps_trans; [|exact Hs3]. eapply steps_trans; [exact Hs|]. by split.
      * destruct r' as [yes|m|m]; unfold answered in *; [| |done].
        -- rewrite !verdicts_app, Hv, Ha. done.
        -- destruct Ha as [Ha (l & e & Hl)]. split; [by rewrite !verdicts_app, Hv, Ha|]. exists l, e. by rewrite read_answers_app, last_app, Hl.
Qed.
End questions.

Section asking.
Context {E : Type}.

(** What [askPrompts] comes to. *)
Definition asked (targets : list Server) (r : result (list Server)) (evs : list repl_event) : Prop :=
  match r with
  | Ok ts => length (verdicts evs) = questions targets /\ ts = resolve targets (verdicts evs)
  | Err _ => (length (verdicts evs) < questions targets)%nat /\ exists l e, last (read_answers evs) = Some (l, Some e)
  | Panic _ => False
  end.

Lemma ask_each_asked targets : forall w : world E,
  exists r w' evs, ask_each targets w = (Some r, w') /\ steps w evs w' /\ own evs = [] /\ asked targets r evs.
Proof.
  induction targets as [|s targets IH]; intros w.
  { exists (Ok []), w, []. split_and!; [done|apply steps_refl|done|done]. }
  cbn [ask_each]. unfold asked, questions, prompted. cbn [List.filter]. destruct (Prompt s) as [p|] eqn:EP.
  - unfold mbind at 1, op_bind at 1. destruct (askYesNo_answered (read_fuel (stdin w)) (Question p) w ltac:(lia)) as (r & w1 & evs & -> & Hs & Ho & Ha).
    destruct r as [yes|m|m]; [| |done].
    + destruct (IH w1) as (r2 & w2 & evs2 & Hr & Hs2 & Ho2 & Ha2). unfold mbind, op_bind. rewrite Hr.
      exists (match r2 with Ok l => Ok (choose s p yes :: l) | e => e end), w2, (evs ++ evs2).
      split_and!; [by destruct r2|by eapply steps_trans|by rewrite own_app, Ho|]. cbn in Ha.
      destruct r2 as [ts|m|m]; unfold asked, questions, prompted in Ha2; [| |done].
      * destruct Ha2 as [Hl ->]. rewrite verdicts_app, Ha. cbn [app length resolve]. rewrite EP. split; [by simpl; rewrite Hl|done].
      * destruct Ha2 as [Hl (l & e & Hl2)]. rewrite verdicts_app, Ha, read_answers_app, last_app, Hl2. cbn [app length]. split; [lia|by exists l, e].
    + destruct Ha as [Ha (l & e & Hl)]. eexists (Err _), w1, evs. split_and!; [reflexivity|done|done|rewrite Ha; simpl; lia|by exists l, e].
  - destruct (IH w) as (r2 & w2 & evs2 & Hr & Hs2 & Ho2 & Ha2). unfold mbind, op_bind. rewrite Hr.
    exists (match r2 with Ok l => Ok (s :: l) | e => e end), w2, evs2. split_and!; [by destruct r2|done|done|].
    destruct r2 as [ts|m|m]; unfold asked, questions, prompted in Ha2; [|done|done]. destruct Ha2 as [Hl ->]. split; [done|]. cbn [resolve]. by rewrite EP.
Qed.

Lemma resolve_unprompted targets : existsb prompted targets = false -> questions targets = 0%nat /\ resolve targets [] = targets.
Proof.
  unfold questions. induction targets as [|s targets IH]; cbn; [done|]. unfold prompted at 1 3. destruct (Prompt s) eqn:EP; [done|]. cbn. intros H. destruct (IH H) as [-> ->]. done.
Qed.

(** [askPrompts] always comes back.  Its targets are those it was given, each that
    declares a question with the branch its answer chooses, the answers being the
    first definite lines typed, one per question in order; or it fails, without
    streams or because the input failed before the last answer. *)
Theorem prompts_answered (streams : bool) (targets : list Server) (w : world E) :
  exists r w' evs, askPrompts streams targets w = (Some r, w') /\
    happened w' = happened w ++ evs /\ feed evs (stdin w) = Some (stdin w') /\ own evs = [] /\
    match r with
    | Ok ts => length (verdicts evs) = questions targets /\ ts = resolve targets (verdicts evs)
    | Err _ => evs = [] /\ streams = false /\ questions targets <> 0%nat \/
        (length (verdicts evs) < questions targets)%nat /\ exists l e, last (read_answers evs) = Some (l, Some e)
    | Panic _ => False
    end.
Proof.
  unfold askPrompts. destruct (existsb prompted targets) eqn:EP; cbn [negb].
  2: { destruct (resolve_unprompted targets EP) as [Hq Hr]. exists (Ok targets), w, []. split_and!; first [done | by rewrite app_nil_r | by rewrite Hq | by rewrite Hr]. }
  destruct streams; cbn [negb].
  - destruct (ask_each_asked targets w) as (r & w' & evs & Hr & [Hh Hf] & Ho & Ha). exists r, w', evs. split_and!; try done.
    destruct r; cbn in Ha; [done|by right|done].
  - eexists (Err _), w, []. split_and!; [reflexivity|by rewrite app_nil_r|done|done|]. left. split_and!; [done|done|].
    unfold questions. intros Hn. apply existsb_exists in EP as (s & Hin & Hp). apply length_zero_iff_nil in Hn.
    assert (In s (List.filter prompted targets)) as Hin2 by (by apply filter_In). by rewrite Hn in Hin2.
Qed.

Lemma askPrompts_own streams targets : yields (askPrompts streams targets : op E _) [].
Proof.
  intros w. destruct (prompts_answered streams targets w) as (r & w' & evs & -> & Hh & Hf & Ho & _). by exists evs.
Qed.
End asking.

(** A branch's variables over the server's own. *)
Lemma mergedEnv_lookup base extra k :
  (list_to_map (mergedEnv base extra) : gmap string string) !! k =
    match (list_to_map extra : gmap string string) !! k with Some v => Some v | None => (list_to_map base : gmap string string) !! k end.
Proof. unfold mergedEnv. rewrite list_to_map_to_list, lookup_union. by destruct (list_to_map extra !! k), (list_to_map base !! k). Qed.

(** ** An engine that asks *)

(** Any engine with [Up] and [Bounce] those of the program. *)
Section real.
Context {E : Type} `{HL : EngineLaws E} (config : E -> Config) (streams : bool) (launch : list Server -> op E (option string)).

Definition RealEngine : Engine E := {|
  Status := Status; Up := real_Up config streams launch; Down := Down; Dead := Dead; Build_ := Build_;
  Bounce := real_Bounce config streams launch Down; ReloadConfigIfChanged := ReloadConfigIfChanged; Logs := Logs; Kill := Kill;
  Command_ := Command_; View := View; TeardownAll := TeardownAll
|}.

Context (Hlaunch : forall targets, yields (launch targets) []).

Lemma real_Up_own name : yields (real_Up config streams launch name) [].
Proof.
  intros w. unfold real_Up. destruct (resolveUpTargets _ name) as [[|s ts]|m|m]; try (exists []; split; [apply steps_refl|done]).
  revert w. change (yields (askPrompts streams (s :: ts) ≫= fun asked => match asked with
    | Some (Ok targets) => launch targets | Some (Err m) | Some (Panic m) => mret (Some m) | None => mret (Some "") end) []).
  apply yields_then; [apply askPrompts_own|]. intros [[?|?|?]|]; auto using yields_ret.
Qed.

Lemma RealEngineLaws : @EngineLaws E RealEngine.
Proof.
  destruct HL. constructor; cbn; auto using real_Up_own. intros name. unfold real_Bounce. case_bool_decide; [apply yields_ret|].
  apply yields_then; [auto|]. intros [e|]; [apply yields_ret|apply real_Up_own].
Qed.
End real.

(** ** The reload *)

(** The configuration of the last look that could load one. *)
Definition last_loaded (looks : list (fileStamp * result Config)) (cfg : Config) : Config :=
  foldl (fun c look => match snd look with Ok c' => c' | _ => c end) cfg looks.

(** With a stamp for each content, what is live is what the file last held that
    parsed and validated, however often it was looked at. *)
Lemma reload_last_good (looks : list (fileStamp * result Config)) (s0 : fileStamp) (cfg0 : Config) (n : Z) :
  (forall x y, x ∈ (s0, Ok cfg0) :: looks -> y ∈ (s0, Ok cfg0) :: looks -> fst x = fst y -> snd x = snd y) ->
  live (reload_run looks (mkReloader s0 n cfg0)) = last_loaded looks cfg0.
Proof.
  (* where the run stands: the stamp's load, and what is live *)
  enough (forall looks s l cfg n,
    (forall x y, x ∈ (s, l) :: looks -> y ∈ (s, l) :: looks -> fst x = fst y -> snd x = snd y) -> (forall c, l = Ok c -> cfg = c) ->
    live (reload_run looks (mkReloader s n cfg)) = last_loaded looks cfg) as Hgen.
  { intros Hdet. by apply (Hgen looks s0 (Ok cfg0)); [|intros c [= ->]]. }
  clear. intros looks. induction looks as [|[now load] looks IH]; intros s l cfg n Hdet Hl; [done|].
  cbn [reload_run last_loaded foldl]. unfold maybeReload. cbn [stamp]. case_bool_decide as Hs.
  - subst now. assert (load = l) as -> by (apply (Hdet (s, load) (s, l)); set_solver). cbn [fst snd].
    rewrite (IH s l cfg n); [|intros x y Hx Hy; apply Hdet; set_solver|done]. unfold last_loaded. destruct l as [c|m|m]; [|done|done]. by rewrite (Hl c eq_refl).
  - assert (Hdet' : forall x y, x ∈ (now, load) :: looks -> y ∈ (now, load) :: looks -> fst x = fst y -> snd x = snd y) by (intros x y Hx Hy; apply Hdet; set_solver).
    destruct load as [c|m|m]; cbn; unfold set; cbn; (rewrite (IH now _ _ _ Hdet'); [done|by intros ? [= ->]]).
Qed.

(** [main] loads the file before [WatchConfig] stamps it: an edit in between is
    not seen, until the next. *)
Lemma edit_before_watch_missed (t : Z) (old new : Config) (n : Z) (looks : nat) :
  live (reload_run (replicate looks (Some t, Ok new)) (mkReloader (Some t) n old)) = old.
Proof.
  revert n. induction looks as [|k IH]; intros n; [done|]. cbn [replicate reload_run]. unfold maybeReload. cbn [stamp].
  rewrite bool_decide_eq_true_2 by done. apply IH.
Qed.

(** ** The lock *)

Definition inside (pc : lock_pc) : bool := match pc with LHeld | LTruncated | LAcquired => true | _ => false end.

Record lock_inv (l : lockfile) : Prop := {
  one_inside : forall pid, inside (pc_of l pid) = true -> holder l = Some pid;
  pid_written : forall pid, pc_of l pid = LAcquired -> contents l = Some pid
}.

Lemma pc_of_set pid pc l pid' : pc_of (set_pc pid pc l) pid' = if decide (pid' = pid) then pc else pc_of l pid'.
Proof. unfold pc_of, set_pc, set. cbn. destruct (decide (pid' = pid)) as [->|]; [by rewrite lookup_insert_eq|by rewrite lookup_insert_ne]. Qed.

Lemma pc_of_gone pid l pid' : pc_of (gone pid l) pid' = if decide (pid' = pid) then LGone else pc_of l pid'.
Proof. unfold gone. rewrite pc_of_set. by case_bool_decide. Qed.

Lemma contents_gone pid l : contents (gone pid l) = contents l.
Proof. unfold gone. by case_bool_decide. Qed.

Lemma lock_inv_gone pid l c : lock_inv l -> (c = contents l \/ inside (pc_of l pid) = true) -> lock_inv (gone pid (l <| contents := c |>)).
Proof.
  intros [H1 H2] Hc. split; intros pid'; rewrite pc_of_gone; destruct (decide (pid' = pid)) as [->|Hne]; try done; intros Hp.
  - specialize (H1 pid' Hp). unfold gone, set. cbn. rewrite H1. rewrite bool_decide_eq_false_2; [done|congruence].
  - rewrite contents_gone. change (c = Some pid').
    destruct Hc as [->|Hin]; [by apply H2|]. exfalso. apply Hne. assert (inside (pc_of l pid') = true) as Hin' by (change (pc_of l pid' = LAcquired) in Hp; by rewrite Hp).
    apply H1 in Hin, Hin'. congruence.
Qed.

Lemma lock_inv_set pid pc l :
  (forall p, p <> pid -> inside (pc_of l p) = true -> holder l = Some p) ->
  (forall p, p <> pid -> pc_of l p = LAcquired -> contents l = Some p) ->
  (inside pc = true -> holder l = Some pid) -> (pc = LAcquired -> contents l = Some pid) -> lock_inv (set_pc pid pc l).
Proof.
  intros H1 H2 H3 H4. split; intros p; rewrite pc_of_set; destruct (decide (p = pid)) as [->|Hne].
  - exact H3.
  - by apply H1.
  - exact H4.
  - by apply H2.
Qed.

Lemma lock_inv_step e l l' : lock_step e l = Some l' -> lock_inv l -> lock_inv l'.
Proof.
  intros Hs Hi. assert (Hg : forall pid, lock_inv (gone pid l)).
  { intros pid. replace l with (l <| contents := contents l |>) at 1 by (by destruct l). apply lock_inv_gone; auto. }
  pose proof Hi as [H1 H2].
  assert (Hsole : forall p q, inside (pc_of l p) = true -> inside (pc_of l q) = true -> p = q) by (intros p q Hp%H1 Hq%H1; congruence).
  destruct e as [pid|pid|pid ok|pid ok c|pid|pid|pid]; cbn in Hs; destruct (pc_of l pid) eqn:EP; try done; try destruct ok; try (injection Hs as <-).
  all: try apply Hg; try (apply lock_inv_gone; [done|right; by rewrite EP]).
  - apply lock_inv_set; auto; done.
  - destruct (holder l) as [z|] eqn:EH; [apply lock_inv_set; rewrite ?EH; auto; done|]. apply lock_inv_set; try done; [|by intros p _ Hp; apply H2].
    intros p _ Hp. by apply H1 in Hp.
  - apply lock_inv_set; [intros p _ Hp; by apply H1| |intros _; apply H1; by rewrite EP|done].
    intros p Hne Hp. change (pc_of l p = LAcquired) in Hp. exfalso. apply Hne, Hsole; [by rewrite Hp|by rewrite EP].
  - apply lock_inv_set; [intros p _ Hp; by apply H1| |intros _; apply H1; by rewrite EP|done].
    intros p Hne Hp. change (pc_of l p = LAcquired) in Hp. exfalso. apply Hne, Hsole; [by rewrite Hp|by rewrite EP].
  - apply lock_inv_set; auto; done.
Qed.

(** At most one process is past the flock; while one has acquired the lock the
    file names it; and a process is refused only while another holds the flock,
    which it then names, unless that one has not written its pid yet. *)
Theorem lock_exclusive (es : list lock_event) (c0 : option Z) (l : lockfile) :
  lock_run es (unlocked c0) = Some l ->
  (forall p q, inside (pc_of l p) = true -> inside (pc_of l q) = true -> p = q) /\
  (forall p, pc_of l p = LAcquired -> contents l = Some p /\ holder l = Some p) /\
  (forall p l', lock_step (LFlock p) l = Some l' -> pc_of l' p = LBusy \/ holder l' = Some p) /\
  (forall p q l', pc_of l q = LAcquired -> lock_step (LReadHolder p) l = Some l' -> pc_of l' p = LRefused (Some q)).
Proof.
  intros Hr. assert (Hi : lock_inv l).
  { assert (lock_inv (unlocked c0)) as H0 by (split; intros pid; unfold pc_of; cbn; by rewrite lookup_empty).
    revert H0 Hr. generalize (unlocked c0). induction es as [|e es IH]; intros l0 H0; cbn; [by intros [= ->]|].
    destruct (lock_step e l0) as [l1|] eqn:EC; [|done]. cbn. apply IH. by eapply lock_inv_step. }
  destruct Hi as [H1 H2]. split_and!.
  - intros p q Hp%H1 Hq%H1. congruence.
  - intros p Hp. split; [by apply H2|]. apply H1. by rewrite Hp.
  - intros p l'. cbn. destruct (pc_of l p); try done. intros [= <-]. destruct (holder l) eqn:EH; [left|by right]. rewrite pc_of_set. by destruct (decide (p = p)).
  - intros p q l' Hq. cbn. destruct (pc_of l p); try done. intros [= <-]. rewrite pc_of_set. destruct (decide (p = p)); [|done]. by rewrite (H2 q Hq).
Qed.

(** Between the flock and the truncation the file names an earlier holder. *)
Lemma stale_holder_named : exists l,
  lock_run [LStart 7; LFlock 7; LStart 8; LFlock 8; LReadHolder 8] (unlocked (Some 3)) = Some l /\
  holder l = Some 7 /\ pc_of l 8 = LRefused (Some 3).
Proof. eexists. split; [vm_compute; reflexivity|]. by split; vm_compute. Qed.

(** ** Interrupts *)

(** Three interrupts within the window of the first, which starts a burst, end
    the supervisor; what ends it is always three within a window. *)
Definition interrupts (sigs : list (os_signal * Z)) : list Z :=
  omap (fun x => match fst x with SIGINT => Some (snd x) | SIGTSTP => None end) sigs.

Lemma burst_ends t1 t2 t3 c : count c = 0 \/ sigintWindow < t1 - first c -> t2 - t1 <= sigintWindow -> t3 - t1 <= sigintWindow ->
  runSignalLoop [(SIGINT, t1); (SIGTSTP, t1); (SIGINT, t2); (SIGINT, t3)] c = Some 4%nat.
Proof.
  intros Hc H2 H3.
  assert (register t1 c = (mkCounter 1 t1, false)) as E1.
  { unfold register. replace (_ || _) with true; [done|]. symmetry. apply orb_true_iff. destruct Hc; [left; by apply Z.eqb_eq|right; by apply Z.ltb_lt]. }
  assert (register t2 (mkCounter 1 t1) = (mkCounter 2 t1, false)) as E2 by (unfold register; cbn [count first]; by destruct (Z.ltb_spec sigintWindow (t2 - t1)); [lia|]).
  assert (register t3 (mkCounter 2 t1) = (mkCounter 0 t1, true)) as E3 by (unfold register; cbn [count first]; by destruct (Z.ltb_spec sigintWindow (t3 - t1)); [lia|]).
  cbn [runSignalLoop handleSignal]. by rewrite E1, E2, E3.
Qed.

(** The counter is at zero, or at the presses of a burst that its first began. *)
Definition counter_ok (pressed : list Z) (c : sigintCounter) : Prop :=
  count c = 0 \/
  count c = 1 /\ (exists l, pressed = l ++ [first c]) \/
  count c = 2 /\ (exists l t, pressed = l ++ [first c; t] /\ t - first c <= sigintWindow).

Lemma runSignalLoop_sound sigs : forall pressed c n, counter_ok pressed c -> runSignalLoop sigs c = Some n ->
  exists l t1 t2 t3, pressed ++ interrupts (take n sigs) = l ++ [t1; t2; t3] /\ t2 - t1 <= sigintWindow /\ t3 - t1 <= sigintWindow.
Proof.
  induction sigs as [|[[|] now] sigs IH]; intros pressed c n Hc; cbn [runSignalLoop handleSignal]; [done| |].
  - destruct (register now c) as [c' [|]] eqn:ER; unfold register in ER.
    + intros [= <-]. cbn [take interrupts omap list_omap fst snd]. destruct (_ || _) eqn:EO; [done|]. apply orb_false_iff in EO as [E1%Z.eqb_neq E2%Z.ltb_ge].
      destruct Hc as [?|[[E3 _]|(E3 & l & t & -> & Ht)]]; [done|rewrite E3 in ER; cbn in ER; discriminate ER|]. exists l, (first c), t, now. split_and!; [by rewrite <- app_assoc|done|done].
    + destruct (runSignalLoop sigs c') as [k|] eqn:EK; [|done]. intros [= <-].
      assert (Hc' : counter_ok (pressed ++ [now]) c').
      { destruct (_ || _) eqn:EO; [injection ER as <-; right; left; split; [done|by exists pressed]|]. apply orb_false_iff in EO as [E1%Z.eqb_neq E2%Z.ltb_ge].
        destruct Hc as [?|[[E3 [l ->]]|(E3 & _)]]; [done| |rewrite E3 in ER; cbn in ER; discriminate ER]. rewrite E3 in ER. injection ER as <-. right. right. cbn. split; [done|].
        exists l, now. by rewrite <- app_assoc. }
      destruct (IH _ _ _ Hc' EK) as (l & t1 & t2 & t3 & Hl & H2 & H3). exists l, t1, t2, t3. split_and!; [|done|done].
      rewrite <- Hl, <- app_assoc. done.
  - destruct (runSignalLoop sigs c) as [k|] eqn:EK; [|done]. intros [= <-]. cbn [take interrupts omap list_omap fst]. by apply (IH pressed c k).
Qed.

(** ** A session

    One server asks; the answer to its question is typed between two commands. *)

#[local] Instance idle : Engine unit := {|
  Status := mret []; Up _ := mret None; Down _ := mret None; Dead _ := mret None; Build_ _ := mret None; Bounce _ := mret None;
  ReloadConfigIfChanged := mret tt; Logs _ := mret (Err "not implemented"); Kill _ := mret None;
  Command_ _ := mret (Err "no such server"); View _ _ := mret (Err "no log found"); TeardownAll := mret []
|}.

#[local] Instance idle_laws : EngineLaws unit.
Proof. constructor; intros; apply yields_ret. Qed.

Definition ex_asking : Server :=
  blank "tts" TypeExec <| Args := ["run"] |> <| Prompt := Some (mkPrompt "quiet?" ["-q"] ["-v"] [] []) |>.
Definition ex_config : Config := mkConfig (mkSupervisor "" "" 0 0 0 0 "") [ex_asking].
Definition ex_launch (targets : list Server) : op unit (option string) :=
  print (String.concat " " (concat (map Args targets)));; mret None.
Definition ex_engine : Engine unit := RealEngine (fun _ => ex_config) true ex_launch.
Definition ex_laws : @EngineLaws unit ex_engine :=
  RealEngineLaws (fun _ => ex_config) true ex_launch (fun targets => yields_then _ _ _ (yields_print _) (fun _ => yields_ret None)).

Definition typed (lines : list string) : list N := concat (map (fun l => str_bytes l ++ [10%N]) lines).
Definition ex_world : world unit := mkWorld tt (mkReader (typed ["up"; "maybe"; "YES"; "kill 7"; "bye"; "status"]) []) [].

Example ex_session : exists w', @Run unit ex_engine 40 ex_world = (Some true, w') /\
  omap (fun ev => match ev with ECall c => Some c | _ => None end) (happened w') =
    [CReload; CStatus; CReload; CUp ""; CReload; CKill 7; CTeardownAll] /\
  EPrint "run -q" ∈ happened w' /\ buffered (stdin w') = typed ["status"].
Proof. eexists. split; [vm_compute; reflexivity|]. split; [vm_compute; reflexivity|]. split; [apply (bool_decide_unpack _); vm_compute; reflexivity|vm_compute; reflexivity]. Qed.

Lemma session_dispatched_witness : exists res w' lines evs, @Run unit ex_engine 40 ex_world = (Some res, w') /\
  happened w' = evs /\ feed evs (stdin ex_world) = Some (stdin w') /\
  own evs = [ECall CReload; ECall CStatus] ++ concat (map turn lines) ++ [ECall CTeardownAll] /\ ended lines res.
Proof. exact (@session_dispatched unit ex_engine ex_laws ex_world 40 ltac:(apply Nat.leb_le; vm_compute; reflexivity)). Defined.
